(* ===== verification/_CoqProject ===== *)
-Q . S2P
Prelude.v
Bits.v
Field.v
SignedInt.v
FoldedAccum.v
Accum.v
Poly.v
LagrangeHelper.v
UniPoly.v
UniPolyCorrect.v
EqPoly.v
Transcript.v
Sumcheck.v
SumcheckCorrect.v
LookupTables.v
Mle.v
TablesMle.v
ShiftsMle.v
IndexMle.v
TablesCorrect.v
LinearCombination.v
AdviceTape.v
Registers.v
Memory.v
Device.v
Mmu.v
MmuSpec.v
MmuStore.v
Cpu.v
Formats.v
Instr.v
Decode.v
Compressed.v
Assembler.v
Sequences.v
MemSequences.v
Trace.v
ExecWf.v
MmuInvariant.v
Congruence.v
Exec64.v
SeqOps.v
SeqArith.v
SeqRun.v
DivArith.v
DivRun.v
DivSound.v
TraceCorrect.v
MemRun.v
MemOps.v
MemArith.v
MemLoads.v
MemStores.v
MemAtomics.v
TickCorrect.v
MemReserved.v
SeqShape.v
MemShape.v
Bytecode.v
LookupQuery.v
R1CS.v
QueryCorrect.v
QueryExec.v
ElfText.v
Fetch.v
Csr.v
System.v
HostShape.v
Witness.v
R1csEval.v
ClaimedInputs.v
PolynomialIds.v
Openings.v
OpeningsCorrect.v
DecodeCorrect.v
CompressedCorrect.v
FetchCorrect.v
HostCorrect.v
HostIoCorrect.v
RunCorrect.v
