(* ===== verification/Prelude.v ===== *)
(** * Lightningjolt: a verification library for the Jolt zkVM core

    Jolt proves that a RISC-V program ran.  The emulator (crate [tracer]) executes
    each instruction and records a trace; an instruction that has no lookup table of
    its own is traced through a _virtual sequence_ of simpler ones.  The prover and
    the verifier (crate [jolt-core]) then argue, over a prime field, that every
    cycle's lookup output is an entry of its instruction's table, that the rows of
    a constraint system built from the cycles satisfy it, and that memory, registers
    and bytecode were read consistently; the arguments are batched sumchecks whose
    challenges come from a Fiat-Shamir transcript.  This library models the parts
    below and proves what makes each of them correct, from the instruction's [exec]
    to the verifier of the sumcheck.  Paths are relative to [src/].

    ** Conventions

    - A Rust integer of [w] bits is a [Z]; casts and wrapping operations are
      [wrapu w] and [wraps w] of this file (release profile: plain arithmetic wraps;
      [debug_assert] is not checked, except where decoding takes it as the parameter
      [debug_assertions]).  Sizes that only count are [nat].
    - A function that may panic returns an [option]; an error the code returns is a
      value of a sum type inside it.  Code that updates a shared state is a
      transformer of an explicit record, in the monad [St] below where the
      source threads a state through many calls.  A mutex is run in sequence, a
      parallel iterator in order.
    - A struct is a [Record], an enum an [Inductive] with its constructors, a trait
      a [Class] or a [Record] of its methods, with the laws the callers rely on.
    - The field is a class: [JoltField] in [Field] (a commutative ring with the
      image of the integers), [InverseField] in [Poly] (inverses and decidable
      equality), [MontField] in [Accum] (the Montgomery form and the reductions of
      the external crate [ark-ff]).  [Fr], the field of BN254, and the field of 97
      elements are instances, used by the examples.
    - Loops of the code are structural recursion or a fold where they can be.  Fuel:
      [trace] of [Trace] takes 2, the depth of the nesting of sequences, which
      the refinement theorems show to be enough; [translate_address] of [Mmu] takes 1,
      the single re-translation under MPRV; the division loop of [UniPoly] takes the
      number of coefficients of the dividend, proved enough; the target loops of
      [LagrangeHelper], the powers of [UniPoly] and [mul_pow_2] of [Sumcheck]
      take a bound on their counter, which each turn decreases.

    ** The emulator

    - [Registers] ([tracer/src/utils/virtual_registers.rs]): the allocator of virtual
      registers; what it returns and lists, over every history of operations.
    - [AdviceTape] ([tracer/src/emulator/cpu.rs]): the runtime advice; round trip.
    - [Memory] ([tracer/src/emulator/memory.rs]): doublewords with checkpoints; it is a
      bit array, and a checkpoint replays its accesses.
    - [Device] ([common/src/jolt_device.rs]): the memory layout and the I/O device; the
      regions of an accepted layout are disjoint and below the RAM.
    - [Mmu], [MmuSpec], [MmuStore] ([tracer/src/emulator/mmu.rs]): validity checks, page
      translation, the records of RAM accesses; the address space as a function.
    - [Cpu], [Formats], [Instr] ([tracer/src/emulator/cpu.rs],
      [tracer/src/instruction/format/], [tracer/src/instruction/*.rs]): the state,
      the operand formats and the [exec] of every integer, memory, atomic and virtual
      instruction; [ExecWf]: execution preserves the machine's invariants.
    - [Assembler], [Sequences], [MemSequences] ([tracer/src/utils/inline_helpers.rs] and
      the [inline_sequence]s): the virtual sequences; [SeqShape], [MemShape],
      [HostShape] (which needs [System]): each is laid out as the bytecode expects, and
      only the [JALR] that ends a trap or a return jumps.
    - [Trace] ([tracer/src/instruction/mod.rs]): [Instruction::trace], the rewriting of
      [rd = x0], the advice of the divisions and of store conditional.
    - [Exec64], [SeqOps], [SeqArith], [SeqRun], [DivArith], [DivRun], [DivSound],
      [TraceCorrect]: a sequence run on the 64-bit machine computes what [exec]
      computes; for the divisions this holds for every advice that passes the
      assertions.  [MemRun], [MemOps], [MemArith], [MemLoads], [MemStores],
      [MemAtomics]: the same for memory, with the accesses recorded; [MemStores]
      and [MemReserved] also show where it fails: in the doubleword of the panic flag
      and for reservations with destination [x0].
    - [Decode], [Compressed], [ElfText], [Fetch] ([Instruction::decode] and
      [uncompress_instruction] of [tracer/src/instruction/mod.rs], [decode] of
      [tracer/src/lib.rs], [fetch] of [cpu.rs]): words to instructions and ELF sections
      to programs; [DecodeCorrect], [CompressedCorrect], [FetchCorrect]: decoding
      accepts the declared encodings, a compressed word is the instruction of its
      table, and what a tick fetches is what the ELF decoder listed.
    - [Csr], [System] ([cpu.rs], [tracer/src/instruction/{csrrw,ecall,mret,...}.rs],
      [inline.rs]): the whole machine [Emulator] (CSRs, privilege, interrupts, clock),
      traps, the system, host and advice instructions, the dispatch of the inlines of
      other crates (the parameter [inventory]), and [tick].
    - [MmuInvariant]: every instruction keeps the memory unit well formed; [Congruence]:
      execution does not see the temporaries nor how memory represents its bits;
      [TickCorrect], [HostCorrect], [HostIoCorrect], [RunCorrect]: one executed
      instruction is simulated by its trace, whatever its kind, and so a whole run.

    ** Lookups

    - [Bits] ([jolt-core/src/utils/]): bit interleaving and [LookupBits].
    - [LookupTables], [Mle] ([jolt-core/src/zkvm/lookup_table/]): entries and multilinear
      extensions; [TablesMle], [ShiftsMle], [IndexMle], [TablesCorrect]: each
      extension takes the entries at the bits of their index.
    - [LookupQuery] ([jolt-core/src/zkvm/instruction/]): tables, flags, operands and
      outputs; [QueryCorrect]: the output is the table's entry at the index;
      [QueryExec]: the output of a traced cycle is what [exec] did.

    ** Constraints and claims

    - [Bytecode] ([jolt-core/src/zkvm/bytecode/mod.rs]): preprocessing and program counters.
    - [LinearCombination], [R1CS] ([jolt-core/src/zkvm/r1cs/ops.rs], [inputs.rs],
      [constraints.rs]): the nineteen constraints and the products; [Witness]: the
      row built from a traced cycle of a laid-out program satisfies them.
    - [SignedInt], [FoldedAccum], [Accum] ([jolt-core/src/field/folded_accum.rs],
      [field/ark.rs], [utils/accumulation.rs]): lanes added without carries; an
      accumulation is the exact dot product within its budget.  The class
      [Accumulator] collects what the proofs of the tiers share; the theorem is stated
      of each tier's own functions.
    - [Poly], [LagrangeHelper] ([jolt-core/src/poly/lagrange_poly.rs],
      [subprotocols/univariate_skip.rs]): polynomials by coefficients, sums, and the
      integer tables of the univariate skip.
    - [R1csEval] ([jolt-core/src/zkvm/r1cs/evaluation.rs]): the typed evaluators return
      the weighted sums of the constraints and the products of their interpolants.
    - [EqPoly] ([jolt-core/src/poly/eq_poly.rs]): the tables of the equality polynomial.
    - [ClaimedInputs] ([evaluation.rs]): the claims are the multilinear extensions of
      the columns of the trace.

    ** Sumcheck

    - [UniPoly], [UniPolyCorrect] ([jolt-core/src/poly/unipoly.rs]): interpolation,
      compression, evaluation, division.
    - [Transcript] ([jolt-core/src/transcripts/transcript.rs]): the trait, a class.
    - [Sumcheck], [SumcheckCorrect] ([jolt-core/src/subprotocols/sumcheck.rs] and the
      traits of the instances): the batched prover and verifier.  Completeness is
      proved against [honest], the contract of an instance, which may run anywhere in
      the batch; soundness says without
      probabilities which challenges let a false claim through.

    - [PolynomialIds], [Openings], [OpeningsCorrect] ([jolt-core/src/poly/opening_proof.rs],
      [zkvm/witness.rs]): the accumulators of claims at both sides, with aliases of
      equal points; the verifier replays the prover, and a polynomial has one claim at
      one point.

    ** How the theorems compose

    [ElfText], [Fetch] and [Decode] give the instruction of every tick; [execute] is its
    meaning and [trace] its expansion, and [RunCorrect] carries their agreement over
    whole runs, from the fetch to the clock.
    [TraceCorrect] and the [Mem] files tie the trace to [exec]; [QueryExec] ties the
    lookup output of a traced cycle to [exec], [QueryCorrect] to the table, and
    [TablesCorrect] the table to its extension; [Witness] shows that the rows of
    the same cycles satisfy the constraints that [R1CS] tabulates, [R1csEval] that the
    evaluators compute those constraints through [Accum], [ClaimedInputs] that the
    claimed columns are those rows' through [EqPoly] and [Accum], and
    [SumcheckCorrect] is the protocol that consumes such claims.

    ** Not modelled

    The ELF file parser and the loader, the terminal, profiling markers and what host
    calls print; the inline crates (hashes, big integers), whose registrations are the
    parameter [inventory]; trace files and compression; the prefix and suffix
    decomposition of the tables; the particular sumcheck instances (Spartan, lookups,
    RAM, registers, bytecode, claim reductions) and the drivers; dense and one-hot
    polynomials; the zero-knowledge variants, the hashes, the curves and the
    commitment scheme, which are external crates or wrappers of them; the SDK, the
    host tools, the Metal prover, the on-chain verifiers and vendored code.

    ** Limits of the theorems

    [RunCorrect] covers the ticks whose instruction the tracer handles as [execute]
    does: the decidable condition [covered_run] leaves out [lr]/[sc] (of which
    [MemReserved] shows the difference), the word division of the least dividend by
    zero, accesses at the end of the I/O region or stores whose doubleword does not
    exist or is the panic flag's ([MemStores]), unsupported CSRs, delegated or vectored
    calls, and inlines.  [Witness] takes a cycle from a state that meets [row_ok] and is
    stated of one cycle and its successor; that every cycle of a run meets it is not
    proved, and a trace is padded after a jump.  [SumcheckCorrect] has the instances'
    contract [honest] as its hypothesis, since the instances are not modelled. *)
From Stdlib Require Export ZArith Lia List Bool.
From stdpp Require Export base option list decidable numbers.
#[global] Open Scope Z_scope.

(** ** Machine integers

    A Rust integer of width [w] is a [Z] in range; an [as] cast or a
    [wrapping_*] operation is [wrapu]/[wraps] applied to the exact result. *)

Definition wrapu (w z : Z) : Z := z mod 2 ^ w.
Definition wraps (w z : Z) : Z := (z + 2 ^ (w - 1)) mod 2 ^ w - 2 ^ (w - 1).

Abbreviation as_u8 := (wrapu 8).
Abbreviation as_u16 := (wrapu 16).
Abbreviation as_u32 := (wrapu 32).
Abbreviation as_u64 := (wrapu 64).
Abbreviation as_u128 := (wrapu 128).
Abbreviation as_i8 := (wraps 8).
Abbreviation as_i16 := (wraps 16).
Abbreviation as_i32 := (wraps 32).
Abbreviation as_i64 := (wraps 64).
Abbreviation as_i128 := (wraps 128).

Definition in_u (w z : Z) : Prop := 0 <= z < 2 ^ w.
Definition in_s (w z : Z) : Prop := - 2 ^ (w - 1) <= z < 2 ^ (w - 1).

(** [u64::is_power_of_two] and [u64::next_power_of_two]. *)
Definition is_power_of_two (v : Z) : bool := (0 <? v) && (2 ^ Z.log2 v =? v).
Definition next_power_of_two_u64 (v : Z) : Z := if v <=? 1 then 1 else as_u64 (2 ^ Z.log2_up v).

(** A Rust [bool as u64]. *)
Definition b2z (b : bool) : Z := if b then 1 else 0.

Lemma b2z_range b : 0 <= b2z b <= 1.
Proof. destruct b; simpl; lia. Qed.

Lemma b2z_b2Z b : b2z b = Z.b2z b.
Proof. by destruct b. Qed.

Lemma pow2_pos (k : Z) : 0 <= k -> 0 < 2 ^ k.
Proof. intros. apply Z.pow_pos_nonneg; lia. Qed.

Lemma pow2_half (w : Z) : 0 < w -> 2 ^ w = 2 * 2 ^ (w - 1).
Proof. intros. rewrite <- Z.pow_succ_r by lia. f_equal; lia. Qed.

Section WordLemmas.
Context (w : Z) (Hw : 0 < w).

Lemma wrapu_range z : in_u w (wrapu w z).
Proof. unfold in_u, wrapu. apply Z.mod_pos_bound, pow2_pos; lia. Qed.

Lemma wraps_range z : in_s w (wraps w z).
Proof.
  unfold in_s, wraps. pose proof (pow2_pos (w - 1)). pose proof (pow2_half w Hw).
  pose proof (Z.mod_pos_bound (z + 2 ^ (w - 1)) (2 ^ w)). lia.
Qed.

Lemma wrapu_small z : in_u w z -> wrapu w z = z.
Proof. apply Z.mod_small. Qed.

Lemma wraps_small z : in_s w z -> wraps w z = z.
Proof.
  unfold in_s, wraps. intros. pose proof (pow2_half w Hw).
  rewrite Z.mod_small; lia.
Qed.

(** Both wraps differ from their argument by a multiple of [2 ^ w]. *)
Lemma wrapu_shift z : exists k, wrapu w z = z + k * 2 ^ w.
Proof.
  clear Hw. exists (- (z / 2 ^ w)). unfold wrapu.
  pose proof (Z_div_mod_eq_full z (2 ^ w)). lia.
Qed.

Lemma wraps_shift z : exists k, wraps w z = z + k * 2 ^ w.
Proof.
  clear Hw. exists (- ((z + 2 ^ (w - 1)) / 2 ^ w)). unfold wraps.
  pose proof (Z_div_mod_eq_full (z + 2 ^ (w - 1)) (2 ^ w)). lia.
Qed.

Lemma wrapu_add_mul z k : wrapu w (z + k * 2 ^ w) = wrapu w z.
Proof. unfold wrapu. apply Z.mod_add. pose proof (pow2_pos w); lia. Qed.

Lemma wraps_add_mul z k : wraps w (z + k * 2 ^ w) = wraps w z.
Proof.
  unfold wraps. f_equal. rewrite <- (Z.mod_add (z + _) k).
  - f_equal. lia.
  - pose proof (pow2_pos w); lia.
Qed.

(** Equal residues have equal wraps: the way to compare two wrapped results. *)
Lemma wraps_eqm a b : wrapu w a = wrapu w b -> wraps w a = wraps w b.
Proof.
  intros H. destruct (wrapu_shift a) as [i Hi], (wrapu_shift b) as [j Hj].
  replace a with (b + (j - i) * 2 ^ w) by lia. apply wraps_add_mul.
Qed.

Lemma wrapu_eqm a b : wraps w a = wraps w b -> wrapu w a = wrapu w b.
Proof.
  intros H. destruct (wraps_shift a) as [i Hi], (wraps_shift b) as [j Hj].
  replace a with (b + (j - i) * 2 ^ w) by lia. apply wrapu_add_mul.
Qed.

Lemma wrapu_wraps z : wrapu w (wraps w z) = wrapu w z.
Proof. destruct (wraps_shift z) as [k ->]. apply wrapu_add_mul. Qed.

Lemma wraps_wrapu z : wraps w (wrapu w z) = wraps w z.
Proof. destruct (wrapu_shift z) as [k ->]. apply wraps_add_mul. Qed.

Lemma wrapu_wrapu z : wrapu w (wrapu w z) = wrapu w z.
Proof. apply wrapu_small, wrapu_range. Qed.

Lemma wraps_wraps z : wraps w (wraps w z) = wraps w z.
Proof. apply wraps_small, wraps_range. Qed.

Lemma in_s_wrapu_inj a b : in_s w a -> in_s w b -> wrapu w a = wrapu w b -> a = b.
Proof.
  intros Ha Hb H%wraps_eqm. by rewrite !wraps_small in H.
Qed.

(** Wraps inside a ring expression can be dropped under an outer wrap. *)
Lemma wrapu_add_l a b : wrapu w (wrapu w a + b) = wrapu w (a + b).
Proof. apply Zplus_mod_idemp_l. Qed.
Lemma wrapu_add_r a b : wrapu w (a + wrapu w b) = wrapu w (a + b).
Proof. apply Zplus_mod_idemp_r. Qed.
Lemma wrapu_sub_l a b : wrapu w (wrapu w a - b) = wrapu w (a - b).
Proof. apply Zminus_mod_idemp_l. Qed.
Lemma wrapu_sub_r a b : wrapu w (a - wrapu w b) = wrapu w (a - b).
Proof. apply Zminus_mod_idemp_r. Qed.
Lemma wrapu_mul_l a b : wrapu w (wrapu w a * b) = wrapu w (a * b).
Proof. apply Zmult_mod_idemp_l. Qed.
Lemma wrapu_mul_r a b : wrapu w (a * wrapu w b) = wrapu w (a * b).
Proof. apply Zmult_mod_idemp_r. Qed.

Lemma wrapu_to_wraps z : wrapu w z = if decide (wraps w z < 0) then wraps w z + 2 ^ w else wraps w z.
Proof.
  destruct (wraps_shift z) as [k Hk]. pose proof (wraps_range z) as Hr.
  pose proof (wrapu_range z) as Hu. destruct (wrapu_shift z) as [j Hj].
  pose proof (pow2_half w Hw) as Hp. pose proof (pow2_pos (w - 1)).
  unfold in_s, in_u in *. rewrite Hk in Hr. rewrite Hj in Hu. rewrite Hk, Hj.
  rewrite Hp in *. generalize dependent (2 ^ (w - 1)); intros m; intros.
  assert (m > 0) by lia.
  case_decide; [assert (j = k + 1) by nia | assert (j = k) by nia]; subst; lia.
Qed.
End WordLemmas.

(** A wide wrap followed by a narrower one is the narrower one. *)
Lemma wrapu_narrow (v w z : Z) : 0 <= v <= w -> wrapu v (wrapu w z) = wrapu v z.
Proof.
  intros. unfold wrapu. replace (2 ^ w) with (2 ^ v * 2 ^ (w - v)).
  - rewrite Z.rem_mul_r by (pose proof (pow2_pos v); pose proof (pow2_pos (w - v)); lia).
    pose proof (pow2_pos v).
    by rewrite (Z.mul_comm (2 ^ v)), Z.mod_add, Z.mod_mod by lia.
  - rewrite <- Z.pow_add_r by lia. f_equal; lia.
Qed.

Lemma wrapu_narrow_s (v w z : Z) : 0 <= v <= w -> 0 < w -> wrapu v (wraps w z) = wrapu v z.
Proof.
  intros. rewrite <- (wrapu_narrow v w (wraps w z)) by lia.
  rewrite wrapu_wraps by lia. by apply wrapu_narrow.
Qed.

Lemma wraps_narrow (v w z : Z) : 0 < v <= w -> wraps v (wrapu w z) = wraps v z.
Proof. intros. apply wraps_eqm; [lia|]. apply wrapu_narrow; lia. Qed.

Lemma wraps_narrow_s (v w z : Z) : 0 < v <= w -> wraps v (wraps w z) = wraps v z.
Proof. intros. apply wraps_eqm; [lia|]. apply wrapu_narrow_s; lia. Qed.

(** ** Lists: [map] and the list lookups *)
Lemma map_lookup {A B} (f : A -> B) (l : list A) (k : nat) : map f l !! k = f <$> l !! k.
Proof. exact (list_lookup_fmap f l k). Qed.
Lemma map_insert {A B} (f : A -> B) (l : list A) (k : nat) (v : A) :
  map f (<[k := v]> l) = <[k := f v]> (map f l).
Proof. exact (list_fmap_insert f l k v). Qed.

Lemma forallb_ext {A} (f g : A -> bool) (l : list A) : (forall x, f x = g x) -> forallb f l = forallb g l.
Proof. intros H. induction l as [|x l IH]; cbn [forallb]; [done|]. by rewrite H, IH. Qed.

(** ** Stateful code that may panic

    A function that updates a state [S] and may panic ([None]). *)
Definition St (S A : Type) : Type := S -> option (A * S).
Definition M_ret {S A} (a : A) : St S A := fun s => Some (a, s).
Definition M_bind {S A B} (m : St S A) (k : A -> St S B) : St S B :=
  fun s => match m s with Some (a, s') => k a s' | None => None end.
Definition M_panic {S A} : St S A := fun _ => None.
Definition M_lift {S A} (o : option A) : St S A := fun s => a ← o; Some (a, s).
Definition M_get {S} : St S S := fun s => Some (s, s).

Declare Scope st_scope.
Delimit Scope st_scope with st.
Notation "'let!' x ':=' m 'in' k" := (M_bind m (fun x => k))
  (at level 10, x name, m at level 100, k at level 200) : st_scope.
Notation "m ;;! k" := (M_bind m (fun _ => k)) (at level 100, right associativity) : st_scope.

Lemma M_bind_Some {S A B} (m : St S A) (k : A -> St S B) s b s' :
  M_bind m k s = Some (b, s') -> exists a s1, m s = Some (a, s1) /\ k a s1 = Some (b, s').
Proof. unfold M_bind. destruct (m s) as [[a s1]|] eqn:E; [|done]. intros H. by exists a, s1. Qed.
Lemma M_bind_eq {S A B} (m : St S A) (k : A -> St S B) s a s1 :
  m s = Some (a, s1) -> M_bind m k s = k a s1.
Proof. intros H. unfold M_bind. by rewrite H. Qed.

Create HintDb wrap discriminated.
Create Rewrite HintDb wrap.
#[export] Hint Resolve wrapu_range wraps_range : wrap.
#[export] Hint Rewrite wrapu_wraps wraps_wrapu wrapu_wrapu wraps_wraps using lia : wrap.
