(* ===== verification/Bits.v ===== *)
(** * Bits: lookup indices as bit vectors

    Models [jolt-core/src/utils/mod.rs] ([interleave_bits],
    [uninterleave_bits]) and [jolt-core/src/utils/lookup_bits.rs]
    ([LookupBits]).  A bit vector is a most-significant-bit-first [list bool];
    [bval] is its value and [bits_of] the conversion back.  The mask-and-shift
    networks of (un)interleaving are evaluated symbolically: a word whose
    every bit is either zero or one bit of the input is a list of source
    positions ([swap] of one network step is a computation on that list). *)
From S2P Require Import Prelude.

(** ** Most-significant-bit-first bit vectors *)

Fixpoint bval (bs : list bool) : Z :=
  match bs with
  | [] => 0
  | b :: t => b2z b * 2 ^ Z.of_nat (length t) + bval t
  end.

Fixpoint bits_of (n : nat) (v : Z) : list bool :=
  match n with
  | O => []
  | S m => Z.testbit v (Z.of_nat m) :: bits_of m v
  end.

Lemma bits_of_S n v : bits_of (S n) v = Z.testbit v (Z.of_nat n) :: bits_of n v.
Proof. done. Qed.

Lemma length_bits_of n v : length (bits_of n v) = n.
Proof. induction n; simpl; auto. Qed.

Lemma bval_range bs : 0 <= bval bs < 2 ^ Z.of_nat (length bs).
Proof.
  induction bs as [|b t IH]; simpl bval; simpl length; [lia|].
  rewrite Nat2Z.inj_succ, Z.pow_succ_r by lia. destruct b; simpl b2z; lia.
Qed.

Lemma testbit_low_high (k c x j : Z) :
  0 <= k -> 0 <= x < 2 ^ k -> 0 <= j ->
  Z.testbit (c * 2 ^ k + x) j = if decide (j < k) then Z.testbit x j else Z.testbit c (j - k).
Proof.
  intros Hk Hx Hj. rewrite <- Z.shiftl_mul_pow2 by lia.
  assert (Hx' : forall i, k <= i -> Z.testbit x i = false).
  { intros i Hi. destruct (decide (x = 0)) as [->|]; [apply Z.bits_0|].
    apply Z.bits_above_log2; [lia|]. apply Z.lt_le_trans with k; [|lia].
    apply Z.log2_lt_pow2; lia. }
  rewrite Z.add_nocarry_lxor.
  - rewrite Z.lxor_spec, Z.shiftl_spec by lia.
    case_decide; [by rewrite (Z.testbit_neg_r c) by lia; destruct (Z.testbit x j)|].
    by rewrite Hx', xorb_false_r by lia.
  - apply Z.bits_inj'. intros i Hi. rewrite Z.land_spec, Z.shiftl_spec, Z.bits_0 by lia.
    destruct (decide (i < k)); [by rewrite Z.testbit_neg_r by lia|].
    by rewrite Hx', andb_false_r by lia.
Qed.

Lemma testbit_bval_cons b t j :
  0 <= j ->
  Z.testbit (bval (b :: t)) j =
    if decide (j = Z.of_nat (length t)) then b else Z.testbit (bval t) j.
Proof.
  intros Hj. simpl bval. pose proof (bval_range t) as Ht.
  rewrite testbit_low_high by lia.
  destruct (decide (j < Z.of_nat (length t))); case_decide; try lia; [done|..].
  - subst. rewrite Z.sub_diag. by destruct b.
  - rewrite (Z.bits_above_log2 (b2z b)) by
      (destruct b; simpl; change (Z.log2 1) with 0; change (Z.log2 0) with 0; lia).
    symmetry. destruct (decide (bval t = 0)) as [->|]; [apply Z.bits_0|].
    apply Z.bits_above_log2; [lia|].
    apply Z.lt_le_trans with (Z.of_nat (length t)); [apply Z.log2_lt_pow2; lia|lia].
Qed.

Lemma bval_bits_of n v : bval (bits_of n v) = v mod 2 ^ Z.of_nat n.
Proof.
  apply Z.bits_inj'. intros j Hj.
  rewrite Z.testbit_mod_pow2 by lia.
  induction n as [|n IH].
  - simpl bits_of. simpl bval. rewrite Z.testbit_0_l. by destruct (Z.ltb_spec j (Z.of_nat 0)); [lia|].
  - rewrite bits_of_S, testbit_bval_cons, length_bits_of, IH by lia.
    case_decide; [subst; destruct (Z.ltb_spec (Z.of_nat n) (Z.of_nat (S n))); [done|lia]|].
    destruct (Z.ltb_spec j (Z.of_nat n)), (Z.ltb_spec j (Z.of_nat (S n))); try done; lia.
Qed.

Lemma bits_of_ext n v v' :
  (forall j, 0 <= j < Z.of_nat n -> Z.testbit v j = Z.testbit v' j) -> bits_of n v = bits_of n v'.
Proof.
  induction n as [|n IH]; intros H; simpl; [done|].
  rewrite H by lia. f_equal. apply IH. intros; apply H; lia.
Qed.

Lemma bits_of_bval bs : bits_of (length bs) (bval bs) = bs.
Proof.
  induction bs as [|b t IH]; [done|]. simpl length. rewrite bits_of_S.
  rewrite testbit_bval_cons by lia. rewrite decide_True by lia. f_equal.
  rewrite <- IH at 3. apply bits_of_ext. intros j Hj. rewrite ?IH.
  rewrite testbit_bval_cons by lia. by rewrite decide_False by lia.
Qed.

(** [n] bits of [v] as a list of [n] bits with the value [v]. *)
Lemma bits_of_unique v n :
  0 <= v < 2 ^ Z.of_nat n -> exists bs, length bs = n /\ bval bs = v /\ bits_of n v = bs.
Proof.
  intros Hv. exists (bits_of n v). rewrite length_bits_of, bval_bits_of, Z.mod_small by lia. done.
Qed.

(** Pairs of bits and their interleaving (x first, the odd positions). *)
Fixpoint weave (ps : list (bool * bool)) : list bool :=
  match ps with
  | [] => []
  | (x, y) :: t => x :: y :: weave t
  end.

Abbreviation xs_of ps := (bval (map fst ps)).
Abbreviation ys_of ps := (bval (map snd ps)).

Lemma length_weave ps : length (weave ps) = (2 * length ps)%nat.
Proof. induction ps as [|[x y] t IH]; simpl; [done|]. rewrite IH. lia. Qed.

Lemma weave_surj bs n : length bs = (2 * n)%nat -> exists ps, weave ps = bs /\ length ps = n.
Proof.
  revert bs. induction n as [|n IH]; intros bs H.
  - exists []. by destruct bs.
  - destruct bs as [|x [|y t]]; simpl in H; try lia.
    destruct (IH t) as (ps & <- & Hl); [lia|]. exists ((x, y) :: ps). simpl. by rewrite Hl.
Qed.

Lemma testbit_weave ps j :
  0 <= j ->
  Z.testbit (bval (weave ps)) (2 * j) = Z.testbit (ys_of ps) j /\
  Z.testbit (bval (weave ps)) (2 * j + 1) = Z.testbit (xs_of ps) j.
Proof.
  intros Hj. induction ps as [|[x y] t [IHy IHx]]; [by rewrite !Z.testbit_0_l|].
  simpl weave. simpl map.
  rewrite !testbit_bval_cons by lia. simpl length. rewrite length_weave, !length_map.
  repeat case_decide; auto; lia.
Qed.

(** ** [interleave_bits] and [uninterleave_bits] (utils/mod.rs) *)

Definition M1 : Z := 0x55555555555555555555555555555555.
Definition M2 : Z := 0x33333333333333333333333333333333.
Definition M4 : Z := 0x0F0F0F0F0F0F0F0F0F0F0F0F0F0F0F0F.
Definition M8 : Z := 0x00FF00FF00FF00FF00FF00FF00FF00FF.
Definition M16 : Z := 0x0000FFFF0000FFFF0000FFFF0000FFFF.
Definition M32 : Z := 0x00000000FFFFFFFF00000000FFFFFFFF.
Definition M64 : Z := 0x0000000000000000FFFFFFFFFFFFFFFF.

(** One step of the compaction network, [(b | (b >> k)) & m]. *)
Definition compact_step (k m b : Z) : Z := Z.land (Z.lor b (Z.shiftr b k)) m.
(** One step of the spreading network, [(b | (b << k)) & m] on [u128]. *)
Definition spread_step (k m b : Z) : Z := Z.land (Z.lor b (as_u128 (Z.shiftl b k))) m.

Definition compact (b : Z) : Z :=
  compact_step 32 M64 (compact_step 16 M32 (compact_step 8 M16
    (compact_step 4 M8 (compact_step 2 M4 (compact_step 1 M2 b))))).

Definition uninterleave_bits (val : Z) : Z * Z :=
  let x_bits := Z.land (Z.shiftr val 1) M1 in
  let y_bits := Z.land val M1 in
  (as_u64 (compact x_bits), as_u64 (compact y_bits)).

Definition spread (b : Z) : Z :=
  spread_step 1 M1 (spread_step 2 M2 (spread_step 4 M4
    (spread_step 8 M8 (spread_step 16 M16 (spread_step 32 M32 b))))).

Definition interleave_bits (even_bits odd_bits : Z) : Z :=
  let x_bits := spread (as_u128 even_bits) in
  let y_bits := spread (as_u128 odd_bits) in
  Z.lor (as_u128 (Z.shiftl x_bits 1)) y_bits.

(** *** Symbolic words

    Least significant bit first; each bit is zero ([None]) or bit [i] of the
    input [v] ([Some i]). *)
Section Symbolic.
Context (v : Z).

Definition sym_bit (o : option nat) : bool :=
  match o with Some i => Z.testbit v (Z.of_nat i) | None => false end.

Fixpoint denote (l : list (option nat)) : Z :=
  match l with [] => 0 | o :: t => b2z (sym_bit o) + 2 * denote t end.

Lemma testbit_denote l j : 0 <= j -> Z.testbit (denote l) j = sym_bit (nth (Z.to_nat j) l None).
Proof.
  revert j. induction l as [|o t IH]; intros j Hj; simpl denote.
  { rewrite Z.testbit_0_l. by destruct (Z.to_nat j). }
  rewrite Z.add_comm, b2z_b2Z. destruct (decide (j = 0)) as [->|].
  - by rewrite Z.testbit_0_r.
  - replace j with (Z.succ (Z.pred j)) at 1 by lia.
    rewrite Z.testbit_succ_r by lia. rewrite IH by lia.
    replace (Z.to_nat j) with (S (Z.to_nat (Z.pred j))) by lia. done.
Qed.

Definition sym_land (m : Z) (l : list (option nat)) : list (option nat) :=
  imap (fun j o => if Z.testbit m (Z.of_nat j) then o else None) l.

(** Disjunction of two bits, at most one of which is not constantly zero. *)
Definition sym_or (a b : option nat) : option (option nat) :=
  match a, b with
  | None, o | o, None => Some o
  | Some i, Some j => if decide (i = j) then Some (Some i) else None
  end.

Fixpoint sym_lor (l1 l2 : list (option nat)) : option (list (option nat)) :=
  match l1, l2 with
  | [], l | l, [] => Some l
  | a :: t1, b :: t2 => o ← sym_or a b; t ← sym_lor t1 t2; Some (o :: t)
  end.

Lemma sym_land_ok m l : denote (sym_land m l) = Z.land (denote l) m.
Proof.
  apply Z.bits_inj'. intros j Hj. rewrite Z.land_spec, !testbit_denote by lia.
  unfold sym_land. rewrite !nth_lookup, list_lookup_imap.
  destruct (l !! Z.to_nat j); simpl; [|done].
  rewrite Z2Nat.id by lia. destruct (Z.testbit m j); simpl; [by rewrite andb_true_r|].
  by rewrite andb_false_r.
Qed.

Lemma sym_or_ok a b o : sym_or a b = Some o -> sym_bit o = sym_bit a || sym_bit b.
Proof.
  destruct a, b; simpl; intros H; try case_decide; simplify_eq; simpl;
    by rewrite ?orb_false_r, ?orb_diag.
Qed.

Lemma sym_lor_ok l1 l2 l : sym_lor l1 l2 = Some l -> denote l = Z.lor (denote l1) (denote l2).
Proof.
  intros H. apply Z.bits_inj'. intros j Hj. rewrite Z.lor_spec, !testbit_denote by lia.
  clear Hj. generalize (Z.to_nat j); clear j; intros j. revert l2 l j H.
  induction l1 as [|a t1 IH]; intros [|b t2] l j H; simpl in H; simplify_eq.
  - by destruct j.
  - by destruct j.
  - destruct j; simpl; by rewrite orb_false_r.
  - destruct (sym_or a b) as [o|] eqn:Ho; simpl in H; [|done].
    destruct (sym_lor t1 t2) as [t|] eqn:Ht; simpl in H; simplify_eq.
    destruct j; simpl; [by apply sym_or_ok|]. by apply IH.
Qed.

Lemma sym_shiftr_ok k l : denote (drop k l) = Z.shiftr (denote l) (Z.of_nat k).
Proof.
  apply Z.bits_inj'. intros j Hj. rewrite Z.shiftr_spec, !testbit_denote by lia.
  rewrite !nth_lookup, lookup_drop. do 3 f_equal. lia.
Qed.

Lemma sym_shiftl_ok w k l :
  denote (take w (replicate k None ++ l)) = wrapu (Z.of_nat w) (Z.shiftl (denote l) (Z.of_nat k)).
Proof.
  apply Z.bits_inj'. intros j Hj. unfold wrapu. rewrite Z.testbit_mod_pow2 by lia.
  rewrite Z.shiftl_spec, testbit_denote by lia. rewrite !nth_lookup.
  destruct (Z.ltb_spec j (Z.of_nat w)); simpl.
  - rewrite lookup_take_lt by lia. destruct (decide (j < Z.of_nat k)).
    + rewrite Z.testbit_neg_r by lia. rewrite lookup_app_l by (rewrite length_replicate; lia).
      by rewrite lookup_replicate_2 by lia.
    + rewrite testbit_denote, nth_lookup by lia.
      rewrite lookup_app_r by (rewrite length_replicate; lia). rewrite length_replicate.
      do 3 f_equal. lia.
  - rewrite lookup_take_ge by lia. done.
Qed.

Definition sym_compact (k : nat) (m : Z) (l : list (option nat)) : option (list (option nat)) :=
  sym_lor (sym_land m l) (sym_land m (drop k l)).
Definition sym_spread (k : nat) (m : Z) (l : list (option nat)) : option (list (option nat)) :=
  sym_lor (sym_land m l) (sym_land m (take 128 (replicate k None ++ l))).

Lemma sym_compact_ok k m l l' :
  sym_compact k m l = Some l' -> compact_step (Z.of_nat k) m (denote l) = denote l'.
Proof.
  unfold sym_compact, compact_step. intros E.
  by rewrite (sym_lor_ok _ _ _ E), !sym_land_ok, sym_shiftr_ok, Z.land_lor_distr_l.
Qed.

Lemma sym_spread_ok k m l l' :
  sym_spread k m l = Some l' -> spread_step (Z.of_nat k) m (denote l) = denote l'.
Proof.
  unfold sym_spread, spread_step. intros E.
  by rewrite (sym_lor_ok _ _ _ E), !sym_land_ok, sym_shiftl_ok, Z.land_lor_distr_l.
Qed.

(** The identity word. *)
Lemma denote_id n :
  0 <= v < 2 ^ Z.of_nat n -> denote (map Some (seq 0 n)) = v.
Proof.
  intros Hv. apply Z.bits_inj'. intros j Hj. rewrite testbit_denote by lia.
  rewrite nth_lookup, list_lookup_fmap. destruct (decide (j < Z.of_nat n)).
  - rewrite lookup_seq_lt by lia. simpl. f_equal. lia.
  - rewrite lookup_seq_ge by lia. simpl. symmetry.
    destruct (decide (v = 0)) as [->|]; [apply Z.bits_0|].
    apply Z.bits_above_log2; [lia|]. apply Z.lt_le_trans with (Z.of_nat n); [|lia].
    apply Z.log2_lt_pow2; lia.
Qed.
End Symbolic.

#[local] Ltac norm_of_nat :=
  repeat match goal with
  | H : context [Z.of_nat ?k] |- _ =>
      let z := eval vm_compute in (Z.of_nat k) in change (Z.of_nat k) with z in H
  end.

Section Networks.
Context (v : Z).

Definition sym_compact_all (l : list (option nat)) : option (list (option nat)) :=
  l1 ← sym_compact 1 M2 l; l2 ← sym_compact 2 M4 l1; l3 ← sym_compact 4 M8 l2;
  l4 ← sym_compact 8 M16 l3; l5 ← sym_compact 16 M32 l4; sym_compact 32 M64 l5.
Definition sym_spread_all (l : list (option nat)) : option (list (option nat)) :=
  l1 ← sym_spread 32 M32 l; l2 ← sym_spread 16 M16 l1; l3 ← sym_spread 8 M8 l2;
  l4 ← sym_spread 4 M4 l3; l5 ← sym_spread 2 M2 l4; sym_spread 1 M1 l5.

Lemma sym_compact_all_ok l l' : sym_compact_all l = Some l' -> compact (denote v l) = denote v l'.
Proof.
  unfold sym_compact_all, compact. intros H.
  repeat (apply bind_Some in H as (? & ?%(sym_compact_ok v) & H)).
  apply (sym_compact_ok v) in H. norm_of_nat. congruence.
Qed.

Lemma sym_spread_all_ok l l' : sym_spread_all l = Some l' -> spread (denote v l) = denote v l'.
Proof.
  unfold sym_spread_all, spread. intros H.
  repeat (apply bind_Some in H as (? & ?%(sym_spread_ok v) & H)).
  apply (sym_spread_ok v) in H. norm_of_nat. congruence.
Qed.

Definition every_other (o n : nat) : list (option nat) :=
  map (fun i => Some (2 * i + o)%nat) (seq 0 n).

Lemma wrapu_denote w l : wrapu (Z.of_nat w) (denote v l) = denote v (take w l).
Proof.
  pose proof (sym_shiftl_ok v w 0 l) as H. rewrite Z.shiftl_0_r in H. symmetry. exact H.
Qed.

Lemma uninterleave_denote :
  in_u 128 v -> uninterleave_bits v = (denote v (every_other 1 64), denote v (every_other 0 64)).
Proof.
  intros Hv. unfold uninterleave_bits. rewrite <- (denote_id v 128 Hv) at 1 2.
  change 1 with (Z.of_nat 1). change 64 with (Z.of_nat 64).
  rewrite <- sym_shiftr_ok, <- !sym_land_ok.
  erewrite (sym_compact_all_ok (sym_land M1 (drop 1 _))) by (vm_compute; reflexivity).
  erewrite (sym_compact_all_ok (sym_land M1 (map Some (seq 0 128)))) by (vm_compute; reflexivity).
  rewrite !wrapu_denote. done.
Qed.

Lemma spread_denote :
  in_u 64 v ->
  spread (as_u128 v) = denote v (imap (fun j o => if Nat.even j then o else None)
                                      (map (fun j => Some (j / 2)%nat) (seq 0 128))).
Proof.
  intros Hv. rewrite wrapu_small by (unfold in_u in *; lia).
  rewrite <- (denote_id v 64 Hv) at 1.
  by erewrite sym_spread_all_ok by (vm_compute; reflexivity).
Qed.
End Networks.

(** The bits of the two networks' results, and their ranges. *)
Lemma testbit_uninterleave v j :
  in_u 128 v -> 0 <= j ->
  Z.testbit (fst (uninterleave_bits v)) j = Z.testbit v (2 * j + 1) /\
  Z.testbit (snd (uninterleave_bits v)) j = Z.testbit v (2 * j).
Proof.
  intros Hv Hj. rewrite uninterleave_denote by done. cbn [fst snd].
  rewrite !testbit_denote by lia. unfold every_other.
  rewrite !nth_lookup, !list_lookup_fmap. destruct (decide (j < 64)).
  - rewrite lookup_seq_lt by lia. simpl. split; f_equal; lia.
  - rewrite lookup_seq_ge by lia. simpl.
    split; symmetry; rewrite <- (Z.mod_small v (2 ^ 128)) by done; apply Z.mod_pow2_bits_high; lia.
Qed.

Lemma uninterleave_range v :
  in_u 64 (fst (uninterleave_bits v)) /\ in_u 64 (snd (uninterleave_bits v)).
Proof. split; apply wrapu_range; lia. Qed.

(** Uninterleaving the interleaved bits of two words gives them back. *)
Lemma uninterleave_weave ps :
  (length ps <= 64)%nat -> uninterleave_bits (bval (weave ps)) = (xs_of ps, ys_of ps).
Proof.
  intros Hl. assert (Hv : in_u 128 (bval (weave ps))).
  { pose proof (bval_range (weave ps)) as H. rewrite length_weave in H.
    pose proof (Z.pow_le_mono_r 2 (Z.of_nat (2 * length ps)) 128). unfold in_u. lia. }
  rewrite (surjective_pairing (uninterleave_bits _)).
  f_equal; apply Z.bits_inj'; intros j Hj; destruct (testbit_uninterleave _ j Hv Hj) as [Hx Hy];
    rewrite ?Hx, ?Hy; apply testbit_weave; done.
Qed.

Lemma even_of_nat n : Z.even (Z.of_nat n) = Nat.even n.
Proof.
  destruct (Nat.Even_or_Odd n) as [[m ->]|[m ->]].
  - replace (Nat.even (2 * m)) with true by (symmetry; apply Nat.even_spec; by exists m).
    apply Z.even_spec. exists (Z.of_nat m). lia.
  - replace (Z.of_nat (2 * m + 1)) with (1 + 2 * Z.of_nat m) by lia.
    rewrite Z.even_add_mul_2. rewrite Nat.add_comm, Nat.even_add_mul_2. done.
Qed.

Lemma testbit_out w v j : in_u w v -> 0 <= w <= j -> Z.testbit v j = false.
Proof. intros Hv Hj. rewrite <- (Z.mod_small v (2 ^ w)) by done. by apply Z.mod_pow2_bits_high. Qed.

(** A number without bits from [w] on is a [w]-bit number. *)
Lemma in_u_bits w v : 0 <= w -> (forall j, w <= j -> Z.testbit v j = false) -> in_u w v.
Proof.
  intros Hw H. replace v with (v mod 2 ^ w); [by apply Z.mod_pos_bound, pow2_pos|].
  apply Z.bits_inj'. intros j Hj. rewrite Z.testbit_mod_pow2 by lia.
  destruct (Z.ltb_spec j w); [done|]. symmetry. by apply H.
Qed.
Lemma in_u_lor w a b : 0 <= w -> in_u w a -> in_u w b -> in_u w (Z.lor a b).
Proof. intros Hw Ha Hb. apply in_u_bits; [done|]. intros j Hj. by rewrite Z.lor_spec, !(testbit_out w) by (done || lia). Qed.
Lemma in_u_land w a b : 0 <= w -> in_u w a -> in_u w (Z.land a b).
Proof. intros Hw Ha. apply in_u_bits; [done|]. intros j Hj. by rewrite Z.land_spec, (testbit_out w a) by (done || lia). Qed.
Lemma in_u_lxor w a b : 0 <= w -> in_u w a -> in_u w b -> in_u w (Z.lxor a b).
Proof. intros Hw Ha Hb. apply in_u_bits; [done|]. intros j Hj. by rewrite Z.lxor_spec, !(testbit_out w) by (done || lia). Qed.

Lemma testbit_spread v k :
  in_u 64 v -> Z.testbit (spread (as_u128 v)) k = Z.even k && Z.testbit v (k / 2).
Proof.
  intros Hv. destruct (decide (k < 0)).
  { rewrite !(Z.testbit_neg_r _ _); [by rewrite andb_false_r| |done].
    apply Z.div_lt_upper_bound; lia. }
  rewrite spread_denote by done. rewrite testbit_denote by lia.
  rewrite nth_lookup, list_lookup_imap, list_lookup_fmap.
  destruct (decide (k < 128)).
  - rewrite lookup_seq_lt by lia. cbn -[Nat.div Nat.even].
    rewrite <- (Z2Nat.id k) at 3 4 by lia. rewrite even_of_nat.
    destruct (Nat.even (Z.to_nat k)); cbn -[Nat.div]; [|done].
    change (Z.of_nat (Z.to_nat k) / 2) with (Z.of_nat (Z.to_nat k) / Z.of_nat 2).
    by rewrite Nat2Z.inj_div.
  - rewrite lookup_seq_ge by lia. cbn. rewrite (testbit_out 64); [by rewrite andb_false_r|done|].
    split; [lia|]. apply Z.div_le_lower_bound; lia.
Qed.

Lemma testbit_interleave x y j :
  in_u 64 x -> in_u 64 y -> 0 <= j ->
  Z.testbit (interleave_bits x y) (2 * j) = Z.testbit y j /\
  Z.testbit (interleave_bits x y) (2 * j + 1) = Z.testbit x j.
Proof.
  intros Hx Hy Hj. unfold interleave_bits. rewrite !Z.lor_spec, !(testbit_spread y) by done.
  unfold wrapu at 1 3. rewrite !Z.testbit_mod_pow2, !Z.shiftl_spec by lia.
  rewrite !(testbit_spread x) by done.
  replace (2 * j + 1 - 1) with (2 * j) by lia.
  assert (He : Z.even (2 * j) = true) by (apply Z.even_spec; by exists j).
  assert (Ho : Z.even (2 * j + 1) = false).
  { rewrite Z.add_comm, Z.even_add_mul_2. done. }
  assert (Ho' : Z.even (2 * j - 1) = false).
  { replace (2 * j - 1) with (1 + 2 * (j - 1)) by lia. by rewrite Z.even_add_mul_2. }
  assert (Hd : 2 * j / 2 = j) by (rewrite Z.mul_comm; apply Z.div_mul; lia).
  rewrite He, Ho, Ho', Hd. simpl. rewrite andb_false_r, orb_false_r. split; [done|].
  destruct (Z.ltb_spec (2 * j + 1) 128); [done|].
  symmetry. apply (testbit_out 64); [done|lia].
Qed.

Lemma interleave_range x y : in_u 64 x -> in_u 64 y -> in_u 128 (interleave_bits x y).
Proof.
  intros Hx Hy. assert (H : interleave_bits x y = wrapu 128 (interleave_bits x y)).
  { apply Z.bits_inj'. intros k Hk. unfold wrapu. rewrite Z.testbit_mod_pow2 by lia.
    destruct (Z.ltb_spec k 128); [done|]. simpl.
    unfold interleave_bits, wrapu at 1. rewrite Z.lor_spec, Z.testbit_mod_pow2 by lia.
    destruct (Z.ltb_spec k 128); [lia|]. simpl. rewrite testbit_spread by done.
    rewrite (testbit_out 64), andb_false_r; [done|done|]. split; [lia|].
    apply Z.div_le_lower_bound; lia. }
  rewrite H. apply wrapu_range. lia.
Qed.

(** The pairs of a pair of words, most significant first. *)
Definition pairs_of (n : nat) (x y : Z) : list (bool * bool) := zip (bits_of n x) (bits_of n y).

Lemma pairs_of_spec n x y :
  length (pairs_of n x y) = n /\ map fst (pairs_of n x y) = bits_of n x /\
  map snd (pairs_of n x y) = bits_of n y.
Proof.
  unfold pairs_of. pose proof (length_bits_of n x). pose proof (length_bits_of n y).
  split; [rewrite length_zip_with; lia|]. split; [apply fst_zip|apply snd_zip]; lia.
Qed.

Lemma interleave_weave n x y :
  (n <= 64)%nat -> in_u (Z.of_nat n) x -> in_u (Z.of_nat n) y ->
  interleave_bits x y = bval (weave (pairs_of n x y)).
Proof.
  intros Hn Hx Hy. destruct (pairs_of_spec n x y) as (_ & Hfx & Hsy).
  pose proof (Z.pow_le_mono_r 2 (Z.of_nat n) 64).
  assert (in_u 64 x /\ in_u 64 y) as [Hx' Hy'] by (unfold in_u in *; lia).
  apply Z.bits_inj'. intros k Hk.
  destruct (testbit_interleave x y (k / 2) Hx' Hy') as [He Ho]; [by apply Z.div_pos|].
  destruct (testbit_weave (pairs_of n x y) (k / 2)) as [He' Ho']; [by apply Z.div_pos|].
  rewrite Hfx, Hsy, !bval_bits_of, !Z.mod_small in * by done.
  pose proof (Z.div_mod k 2) as Hd. pose proof (Z.mod_pos_bound k 2).
  assert (k mod 2 = 0 \/ k mod 2 = 1) as [E|E] by lia; rewrite E in Hd.
  - replace k with (2 * (k / 2)) by lia. congruence.
  - replace k with (2 * (k / 2) + 1) by lia. congruence.
Qed.

(** Each network undoes the other. *)
Lemma uninterleave_interleave x y : in_u 64 x -> in_u 64 y ->
  uninterleave_bits (interleave_bits x y) = (x, y).
Proof.
  intros Hx Hy. destruct (pairs_of_spec 64 x y) as (Hl & Hfx & Hsy).
  rewrite (interleave_weave 64) by done. rewrite uninterleave_weave by lia.
  by rewrite Hfx, Hsy, !bval_bits_of, !Z.mod_small by done.
Qed.

Lemma interleave_uninterleave v : in_u 128 v ->
  interleave_bits (fst (uninterleave_bits v)) (snd (uninterleave_bits v)) = v.
Proof.
  intros Hv. destruct (uninterleave_range v) as [Hx Hy]. apply Z.bits_inj'. intros k Hk.
  assert (Hk2 : 0 <= k / 2) by (apply Z.div_pos; lia).
  destruct (testbit_interleave _ _ (k / 2) Hx Hy Hk2) as [He Ho].
  destruct (testbit_uninterleave v (k / 2) Hv Hk2) as [Hx' Hy'].
  pose proof (Z.div_mod k 2) as Hd. pose proof (Z.mod_pos_bound k 2).
  assert (k mod 2 = 0 \/ k mod 2 = 1) as [E|E] by lia; rewrite E in Hd.
  - replace k with (2 * (k / 2)) by lia. congruence.
  - replace k with (2 * (k / 2) + 1) by lia. congruence.
Qed.

(** ** [LookupBits] (utils/lookup_bits.rs)

    The sixteen little-endian bytes are kept as the [u128] they encode
    ([to_le_bytes]/[from_le_bytes] only move it in and out of the struct). *)

(** [trailing_zeros] of a [w]-bit word. *)
Fixpoint trailing_zeros (w : nat) (v : Z) : Z :=
  match w with
  | O => 0
  | S m => if Z.odd v then 0 else 1 + trailing_zeros m (Z.shiftr v 1)
  end.

(** [!x] on [u64], [rotate_right] and [swap_bytes] (Rust's core library). *)
Definition not_u64 (x : Z) : Z := as_u64 (Z.lnot x).
Definition rotate_right (w x k : Z) : Z :=
  wrapu w (Z.lor (Z.shiftr x (k mod w)) (Z.shiftl x (w - k mod w))).
Definition swap_bytes32 (x : Z) : Z :=
  Z.lor (Z.lor (Z.shiftl (Z.land x 0xff) 24) (Z.shiftl (Z.land (Z.shiftr x 8) 0xff) 16))
        (Z.lor (Z.shiftl (Z.land (Z.shiftr x 16) 0xff) 8) (Z.land (Z.shiftr x 24) 0xff)).

(** tracer/src/instruction/virtual_rev8w.rs *)
Definition rev8w (v : Z) : Z :=
  let lo := swap_bytes32 (as_u32 v) in
  let hi := swap_bytes32 (as_u32 (Z.shiftr v 32)) in
  as_u64 (lo + as_u64 (Z.shiftl hi 32)).

(** Number of leading ones of a bit list, and of a [w]-bit word. *)
Fixpoint count_ones (bs : list bool) : Z :=
  match bs with true :: t => 1 + count_ones t | _ => 0 end.
Definition leading_ones (w : nat) (v : Z) : Z := count_ones (bits_of w v).

Record LookupBits := { bytes : Z; len : Z }.

Definition LookupBits_new (bits len : Z) : LookupBits :=
  {| bytes := if len <? 128 then bits mod Z.shiftl 1 len else bits; len := as_u8 len |}.

Definition LookupBits_uninterleave (self : LookupBits) : LookupBits * LookupBits :=
  let '(x_bits, y_bits) := uninterleave_bits (bytes self) in
  let x := LookupBits_new x_bits (len self / 2) in
  let y := LookupBits_new y_bits (len self - len x) in
  (x, y).

Definition LookupBits_split (self : LookupBits) (suffix_len : Z) : LookupBits * LookupBits :=
  let bits := bytes self in
  let suffix_bits := bits mod Z.shiftl 1 suffix_len in
  let suffix := LookupBits_new suffix_bits suffix_len in
  let prefix_bits := Z.shiftr bits suffix_len in
  let prefix := LookupBits_new prefix_bits (len self - suffix_len) in
  (prefix, suffix).

Definition LookupBits_pop_msb (self : LookupBits) : Z * LookupBits :=
  let bits := bytes self in
  let msb := Z.land (Z.shiftr bits (len self - 1)) 1 in
  (as_u8 msb, {| bytes := bits mod Z.shiftl 1 (len self - 1); len := len self - 1 |}).

Definition LookupBits_trailing_zeros (self : LookupBits) : Z :=
  Z.min (trailing_zeros 128 (bytes self)) (len self).

Definition LookupBits_leading_ones (self : LookupBits) : Z :=
  leading_ones 128 (as_u128 (Z.shiftl (bytes self) ((128 - len self) mod 128))).

(** The invariant of the struct and its abstraction to a bit list. *)
Definition LookupBits_wf (b : LookupBits) : Prop :=
  0 <= len b <= 128 /\ in_u (len b) (bytes b).
Definition lb_list (b : LookupBits) : list bool := bits_of (Z.to_nat (len b)) (bytes b).

Lemma mod_shiftl_1 v k : 0 <= k -> v mod Z.shiftl 1 k = v mod 2 ^ k.
Proof. intros. by rewrite Z.shiftl_mul_pow2, Z.mul_1_l by lia. Qed.

Lemma LookupBits_new_spec v k :
  in_u 128 v -> 0 <= k <= 128 ->
  LookupBits_wf (LookupBits_new v k) /\ len (LookupBits_new v k) = k /\
  lb_list (LookupBits_new v k) = bits_of (Z.to_nat k) v.
Proof.
  intros Hv Hk. unfold LookupBits_wf, lb_list, LookupBits_new. cbn [len bytes].
  rewrite wrapu_small by (unfold in_u; lia). split; [split; [done|]|split; [done|]].
  - destruct (Z.ltb_spec k 128).
    + rewrite mod_shiftl_1 by lia. apply Z.mod_pos_bound, pow2_pos; lia.
    + by replace k with 128 by lia.
  - destruct (Z.ltb_spec k 128); [|done]. rewrite mod_shiftl_1 by lia.
    apply bits_of_ext. intros j Hj. apply Z.mod_pow2_bits_low. lia.
Qed.

Lemma bits_of_app m n v :
  bits_of (m + n) v = bits_of m (Z.shiftr v (Z.of_nat n)) ++ bits_of n v.
Proof.
  induction m as [|m IH]; [done|]. rewrite Nat.add_succ_l, !bits_of_S, IH.
  rewrite Z.shiftr_spec by lia. simpl. do 2 f_equal. lia.
Qed.

Lemma bits_of_low n v k : Z.of_nat n <= k -> bits_of n (v mod 2 ^ k) = bits_of n v.
Proof. intros. apply bits_of_ext. intros. apply Z.mod_pow2_bits_low. lia. Qed.

(** [split] cuts the bit list; [suffix] is the low [suffix_len] bits. *)
Lemma LookupBits_split_list b s :
  LookupBits_wf b -> 0 <= s <= len b -> s < 128 ->
  let '(p, q) := LookupBits_split b s in
  LookupBits_wf p /\ LookupBits_wf q /\ len q = s /\ lb_list b = lb_list p ++ lb_list q.
Proof.
  intros [Hl Hb] Hs Hs'. unfold LookupBits_split.
  pose proof (Z.pow_le_mono_r 2 (len b) 128).
  assert (Hp : in_u 128 (Z.shiftr (bytes b) s)).
  { unfold in_u in *. rewrite Z.shiftr_div_pow2 by lia. pose proof (pow2_pos s).
    split; [apply Z.div_pos; lia|]. apply Z.div_lt_upper_bound; nia. }
  assert (Hq : in_u 128 (bytes b mod Z.shiftl 1 s)).
  { rewrite mod_shiftl_1 by lia. pose proof (Z.pow_le_mono_r 2 s 128).
    pose proof (Z.mod_pos_bound (bytes b) (2 ^ s)). pose proof (pow2_pos s). unfold in_u. lia. }
  destruct (LookupBits_new_spec _ (len b - s) Hp) as (Hwp & _ & ->); [lia|].
  destruct (LookupBits_new_spec _ s Hq) as (Hwq & Hlq & ->); [lia|].
  repeat (split; [done|]). rewrite mod_shiftl_1, bits_of_low by lia.
  unfold lb_list. replace (Z.to_nat (len b)) with (Z.to_nat (len b - s) + Z.to_nat s)%nat by lia.
  rewrite bits_of_app. by rewrite Z2Nat.id by lia.
Qed.

(** [pop_msb] removes the head of the bit list. *)
Lemma LookupBits_pop_msb_list b :
  LookupBits_wf b -> 0 < len b ->
  let '(m, b') := LookupBits_pop_msb b in
  LookupBits_wf b' /\ len b' = len b - 1 /\
  exists h, m = b2z h /\ lb_list b = h :: lb_list b'.
Proof.
  intros [Hl Hb] Hp. unfold LookupBits_pop_msb, LookupBits_wf, lb_list; cbn [len bytes].
  rewrite mod_shiftl_1 by lia.
  split; [split; [lia|apply Z.mod_pos_bound, pow2_pos; lia]|]. split; [done|].
  exists (Z.testbit (bytes b) (len b - 1)).
  replace (Z.to_nat (len b)) with (S (Z.to_nat (len b - 1))) by lia.
  rewrite bits_of_S, bits_of_low, Z2Nat.id by lia. split; [|done].
  change 1 with (Z.ones 1) at 2. rewrite Z.land_ones by lia. rewrite b2z_b2Z.
  rewrite Z.testbit_spec' by lia. rewrite Z.shiftr_div_pow2 by lia.
  apply wrapu_small. unfold in_u. change (2 ^ 1) with 2.
  pose proof (Z.mod_pos_bound (bytes b / 2 ^ (len b - 1)) 2). lia.
Qed.

(** ** Properties *)

(** interleaving the bits of two 64-bit words is a bijection onto the
    128-bit lookup indices, and uninterleaving is its inverse on both sides. *)
Theorem interleave_bijective x y v :
  in_u 64 x -> in_u 64 y -> in_u 128 v ->
  in_u 128 (interleave_bits x y) /\ uninterleave_bits (interleave_bits x y) = (x, y) /\
  in_u 64 (fst (uninterleave_bits v)) /\ in_u 64 (snd (uninterleave_bits v)) /\
  interleave_bits (fst (uninterleave_bits v)) (snd (uninterleave_bits v)) = v.
Proof.
  intros Hx Hy Hv. split; [by apply interleave_range|]. split; [by apply uninterleave_interleave|].
  destruct (uninterleave_range v). by rewrite interleave_uninterleave.
Qed.

Lemma interleave_bijective_witness :
  in_u 128 (interleave_bits 5 9) /\ uninterleave_bits (interleave_bits 5 9) = (5, 9).
Proof.
  destruct (interleave_bijective 5 9 77) as (H1 & H2 & _);
    [unfold in_u; lia|unfold in_u; lia|unfold in_u; lia|by split].
Defined.

(** [LookupBits] is a bit list under its operations: [split] cuts the
    list, [pop_msb] takes its head off, and both keep the invariant. *)
Theorem lookup_bits_refines b s :
  LookupBits_wf b -> 0 <= s <= len b -> s < 128 -> 0 < len b ->
  (let '(p, q) := LookupBits_split b s in
   LookupBits_wf p /\ LookupBits_wf q /\ len q = s /\ lb_list b = lb_list p ++ lb_list q) /\
  (let '(m, b') := LookupBits_pop_msb b in
   LookupBits_wf b' /\ exists h, m = b2z h /\ lb_list b = h :: lb_list b').
Proof.
  intros Hb Hs H128 Hl. split; [by apply LookupBits_split_list|].
  pose proof (LookupBits_pop_msb_list b Hb Hl) as H. destruct (LookupBits_pop_msb b) as [m b'].
  by destruct H as (Hw & _ & Hh).
Qed.

Lemma lookup_bits_refines_witness :
  let b := LookupBits_new 0xA5 8 in
  let '(p, q) := LookupBits_split b 3 in lb_list b = lb_list p ++ lb_list q.
Proof.
  destruct (lookup_bits_refines (LookupBits_new 0xA5 8) 3) as [(_ & _ & _ & H) _];
    [split; split; vm_compute; done|split; vm_compute; done|done|vm_compute; done|exact H].
Defined.
