(* ===== verification/Field.v ===== *)
(** * Field: the field interface of the multilinear extensions

    [jolt-core/src/field/mod.rs] declares the trait [JoltField]; its instances
    are the external [ark-bn254] fields, so the field is a class here:
    [FieldOps] has the operations the modelled code calls, [JoltField] the laws
    of the trait's documentation (a commutative ring, and [from_u64]/[from_u128]
    the reduction of an integer).  Two instances are given: the integers
    [ZOps], in which the extensions of a Boolean point are computed, and the
    BN254 scalar field [Fr].  [loop] is a Rust [for i in 0..n] loop. *)
From S2P Require Import Prelude Bits.
From Stdlib Require Import Ring_theory Ring Zmod.

Declare Scope field_scope.
Delimit Scope field_scope with F.

Class FieldOps (F : Type) := {
  zero : F; one : F;
  add : F -> F -> F; mul : F -> F -> F; sub : F -> F -> F; opp : F -> F;
  from_u64 : Z -> F
}.
Infix "+" := add : field_scope.
Infix "*" := mul : field_scope.
Infix "-" := sub : field_scope.
(** [from_u128] and [from_i128] are the same reduction on other arguments. *)
Abbreviation from_u128 := from_u64 (only parsing).
Abbreviation from_i128 := from_u64 (only parsing).

Class JoltField (F : Type) {ops : FieldOps F} := {
  field_ring : ring_theory zero one add mul sub opp (@eq F);
  from_u64_0 : from_u64 0 = zero;
  from_u64_1 : from_u64 1 = one;
  from_u64_add a b : from_u64 (a + b) = add (from_u64 a) (from_u64 b);
  from_u64_mul a b : from_u64 (a * b) = mul (from_u64 a) (from_u64 b)
}.

#[export] Instance ZOps : FieldOps Z :=
  {| zero := 0; one := 1; add := Z.add; mul := Z.mul; sub := Z.sub; opp := Z.opp;
     from_u64 := fun z => z |}.

#[export] Instance ZField : JoltField Z.
Proof. split; try reflexivity. constructor; intros; cbn; ring. Qed.

(** ** The BN254 scalar field (the [Fr] the source's tests use) *)

Definition Fr_modulus : Z :=
  21888242871839275222246405745257275088548364400416034343698204186575808495617.
Definition Fr : Type := Zmod Fr_modulus.

#[export] Instance FrOps : FieldOps Fr :=
  {| zero := Zmod.zero; one := Zmod.one; add := Zmod.add; mul := Zmod.mul;
     sub := Zmod.sub; opp := Zmod.opp; from_u64 := Zmod.of_Z Fr_modulus |}.

#[export] Instance FrField : JoltField Fr.
Proof.
  split.
  - exact (Zmod.ring_theory Fr_modulus).
  - reflexivity.
  - reflexivity.
  - intros. apply Zmod.of_Z_add.
  - intros. apply Zmod.of_Z_mul.
Qed.

(** ** Loops *)

(** [for i in 0..n { body }] over a mutable state. *)
Definition loop {S : Type} (n : nat) (body : nat -> S -> S) (s : S) : S :=
  fold_left (fun s i => body i s) (seq 0 n) s.

Lemma loop_S {S} n body (s : S) :
  loop (Datatypes.S n) body s = loop n (fun i => body (Datatypes.S i)) (body 0%nat s).
Proof.
  unfold loop. simpl. rewrite <- seq_shift.
  generalize (body 0%nat s) as s0, (seq 0 n) as l. intros s0 l. revert s0.
  induction l as [|i l IH]; intros s0; simpl; [done|apply IH].
Qed.

Lemma loop_S_r {S} n body (s : S) : loop (Datatypes.S n) body s = body n (loop n body s).
Proof. unfold loop. rewrite seq_S, fold_left_app. done. Qed.

Lemma loop_ext {S} n (f g : nat -> S -> S) s :
  (forall i t, (i < n)%nat -> f i t = g i t) -> loop n f s = loop n g s.
Proof.
  induction n as [|n IH]; intros H; [done|].
  rewrite !loop_S_r, IH; [apply H; lia|]. intros; apply H; lia.
Qed.

(** ** Reduction from the integers

    [from_u64] commutes with every operation, so the value of an extension at
    a point of [from_u64]s is the [from_u64] of its value over [Z]. *)
Section Reduction.
Context {F : Type} `{JoltField F}.

Lemma from_u64_opp a : from_u64 (- a) = opp (from_u64 a).
Proof.
  pose proof field_ring as [Fadd0 Faddc Fadda _ _ _ _ Fsub Fopp].
  rewrite <- (Fadd0 (opp (from_u64 a))), <- from_u64_0.
  replace 0 with (- a + a) by lia.
  by rewrite from_u64_add, <- Fadda, Fopp, Faddc, Fadd0.
Qed.

Lemma from_u64_sub a b : from_u64 (a - b) = sub (from_u64 a) (from_u64 b).
Proof.
  rewrite (Rsub_def field_ring), <- from_u64_opp, <- from_u64_add. done.
Qed.

Lemma loop_from {S T : Type} (φ : S -> T) n f g s s' :
  s' = φ s -> (forall i t, f i (φ t) = φ (g i t)) -> loop n f s' = φ (loop n g s).
Proof.
  intros -> Hfg. induction n as [|n IH]; [done|]. by rewrite !loop_S_r, IH.
Qed.

Lemma nth_from (r : list Z) k : nth k (map from_u64 r) zero = from_u64 (nth k r 0).
Proof. rewrite <- from_u64_0 at 1. apply map_nth. Qed.
End Reduction.

Create Rewrite HintDb reduce.
#[export] Hint Rewrite @from_u64_0 @from_u64_1 @from_u64_add @from_u64_mul @from_u64_sub
  using typeclasses eauto : reduce.

(** Closes an equation between an expression at [from_u64]s and the [from_u64]
    of the same expression over [Z]. *)
Ltac reduce_step :=
  cbn [zero one add mul sub opp from_u64 ZOps]; autorewrite with reduce;
  try reflexivity.

(** ** [index_to_field_bitvector] (utils/mod.rs) *)

Definition index_to_field_bitvector {F} `{FieldOps F} (value : Z) (bits : nat) : list F :=
  map (fun i => if Z.land (Z.shiftr value (Z.of_nat i)) 1 =? 1 then one else zero)
      (rev (seq 0 bits)).

Lemma index_to_field_bitvector_bits {F} `{JoltField F} v n :
  index_to_field_bitvector v n = map from_u64 (map b2z (bits_of n v)).
Proof.
  unfold index_to_field_bitvector. induction n as [|n IH]; [done|].
  rewrite seq_S, rev_app_distr. simpl. rewrite IH. f_equal.
  change 1 with (Z.ones 1) at 1. rewrite Z.land_ones, Z.shiftr_div_pow2 by lia.
  rewrite <- (Z.testbit_spec' v) by lia.
  destruct (Z.testbit v (Z.of_nat n)); simpl; by rewrite ?from_u64_1, ?from_u64_0.
Qed.
