(* ===== verification/SignedInt.v ===== *)
(** * SignedInt: the signed big integers of the field library

    [S64], [S128], [S160], [S192] and [S256] are types of the external
    [ark-ff]: a magnitude in limbs and a sign.  Their values are integers here;
    the operations the code calls are parameters, exact when the result fits the
    target width, as their documentation says.  The helpers of
    [jolt-core/src/utils/math.rs] and the conversions the code writes out are
    defined. *)
From S2P Require Import Prelude.

(** [mul_trunc limbs], [add_trunc bits] and [sub_trunc bits] keep that much of
    the magnitude. *)
Class SignedBigInt := {
  mul_trunc : nat -> Z -> Z -> Z;
  add_trunc : Z -> Z -> Z -> Z;
  sub_trunc : Z -> Z -> Z -> Z;
  mul_trunc_exact limbs x y :
    Z.abs (x * y) < 2 ^ (64 * Z.of_nat limbs) -> mul_trunc limbs x y = x * y;
  add_trunc_exact bits x y : Z.abs (x + y) < 2 ^ bits -> add_trunc bits x y = x + y;
  sub_trunc_exact bits x y : Z.abs (x - y) < 2 ^ bits -> sub_trunc bits x y = x - y
}.

(** The value kept of a magnitude and a sign; the parameters can be these. *)
Definition keep (bits v : Z) : Z := Z.sgn v * (Z.abs v mod 2 ^ bits).
Lemma keep_exact bits v : Z.abs v < 2 ^ bits -> keep bits v = v.
Proof. intros Hv. unfold keep. rewrite Z.mod_small by lia. rewrite Z.mul_comm. apply Z.abs_sgn. Qed.
Definition kept_limbs : SignedBigInt.
Proof.
  refine {| mul_trunc limbs x y := keep (64 * Z.of_nat limbs) (x * y);
            add_trunc bits x y := keep bits (x + y); sub_trunc bits x y := keep bits (x - y) |};
    intros; by apply keep_exact.
Defined.

(** [S64::from_u64_with_sign(v.unsigned_abs() as u64, v >= 0)] *)
Definition s64_of_i128 (v : Z) : Z := if 0 <=? v then as_u64 v else - as_u64 (- v).
Lemma s64_small v : Z.abs v < 2 ^ 64 -> s64_of_i128 v = v.
Proof.
  intros Hv. unfold s64_of_i128. destruct (Z.leb_spec 0 v); rewrite wrapu_small by (unfold in_u; lia); lia.
Qed.

(** utils/math.rs: [S64::new] of a magnitude and a sign. *)
Definition s64_from_diff_u64s (a b : Z) : Z := if a <? b then - as_u64 (b - a) else as_u64 (a - b).
Lemma s64_from_diff_exact a b : in_u 64 a -> in_u 64 b -> s64_from_diff_u64s a b = a - b.
Proof.
  unfold in_u. intros Ha Hb. unfold s64_from_diff_u64s.
  destruct (Z.ltb_spec a b); rewrite wrapu_small by (unfold in_u; lia); lia.
Qed.
