(* ===== verification/FoldedAccum.v ===== *)
(** * FoldedAccum: unreduced accumulators with deferred carries

    [jolt-core/src/field/folded_accum.rs]: an unreduced integer is an array of
    [u128] slots of weight [2^64]; a lane-wise addition propagates no carry,
    [normalize] does it once, before a reduction.  A value is a list of slots
    (length [slots] of its shape), a [BigInt<N>] the list of its [u64] limbs,
    lowest first.  [+=] on a slot is the release build's, modulo [2^128]; the
    lemmas [*_fits] show when it is exact. *)
From S2P Require Import Prelude Field.

(** The two literals of [impl_folded_core_traits!]. *)
Record Shape := { slots : nat; out_limbs : nat }.
Definition Folded256MulU64 : Shape := {| slots := 5; out_limbs := 5 |}.
Definition Folded256MulU128 : Shape := {| slots := 6; out_limbs := 6 |}.
Definition Folded256MulU128Accum : Shape := {| slots := 7; out_limbs := 7 |}.
Definition Folded256Product : Shape := {| slots := 8; out_limbs := 8 |}.
Definition Folded256ProductAccum : Shape := {| slots := 8; out_limbs := 9 |}.

Definition Folded : Type := list Z.
Definition BigInt : Type := list Z.

(** ** Operations *)

Definition overflowing_add (w x y : Z) : Z * bool := (wrapu w (x + y), 2 ^ w <=? x + y).

(** [limit = min(N, slots)] limbs are copied. *)
Definition from_bigint (s : Shape) (value : BigInt) : Folded :=
  map (fun i => if (i <? Nat.min (length value) (slots s))%nat then nth i value 0 else 0) (seq 0 (slots s)).

(** The first loop of [normalize]: the limbs of the slots and the last carry. *)
Fixpoint carry_slots (xs : Folded) (carry : Z) : list Z * Z :=
  match xs with
  | [] => ([], carry)
  | x :: xs =>
      let '(sum, overflow) := overflowing_add 128 x carry in
      let carry := as_u128 (Z.shiftr sum 64 + as_u128 (Z.shiftl (b2z overflow) 64)) in
      let '(out, carry) := carry_slots xs carry in (as_u64 sum :: out, carry)
  end.

(** The second loop: the limbs past the slots. *)
Fixpoint carry_limbs (n : nat) (carry : Z) : list Z :=
  match n with
  | O => []
  | S n => as_u64 carry :: carry_limbs n (Z.shiftr carry 64)
  end.

Definition normalize_slots (s : Shape) (x : Folded) : BigInt :=
  let '(out, carry) := carry_slots x 0 in
  take (out_limbs s) out ++ carry_limbs (out_limbs s - slots s) carry.

(** [Ord::cmp]: the normalized limbs, compared from the highest. *)
Fixpoint cmp_limbs (a b : list Z) : comparison :=
  match a, b with
  | x :: a, y :: b => match (x ?= y)%Z with Eq => cmp_limbs a b | non_eq => non_eq end
  | _, _ => Eq
  end.
Definition cmp (s : Shape) (a b : Folded) : comparison :=
  cmp_limbs (rev (normalize_slots s a)) (rev (normalize_slots s b)).

Definition zero_slots (s : Shape) : Folded := repeat 0 (slots s).
Definition is_zero (x : Folded) : bool := forallb (Z.eqb 0) x.
Definition from_u128_slots (s : Shape) (value : Z) : Folded := <[0%nat := value]> (zero_slots s).

(** The lane-wise additions: [self.0[i] += rhs[i]] for the lanes of [rhs], the
    shape's own, a narrower shape's, or a [BigInt]'s. *)
Fixpoint add_lanes (x rhs : list Z) : Folded :=
  match x, rhs with
  | a :: x, b :: rhs => as_u128 (a + b) :: add_lanes x rhs
  | _, _ => x
  end.

Fixpoint sub_limbs (a b : list Z) (borrow : Z) : list Z :=
  match a, b with
  | x :: a, y :: b =>
      let d := x - y + borrow in as_u64 d :: sub_limbs a b (Z.shiftr d 64)
  | _, _ => []
  end.
(** [Sub]: a borrow chain over [min(slots, out_limbs)] limbs; the other slots stay zero. *)
Definition sub_folded (s : Shape) (a b : Folded) : Folded :=
  let limit := Nat.min (slots s) (out_limbs s) in
  let d := sub_limbs (take limit (normalize_slots s a)) (take limit (normalize_slots s b)) 0 in
  d ++ repeat 0 (slots s - limit).

(** [slots[i] += v] *)
Definition add_slot (i : nat) (v : Z) (x : Folded) : Folded := <[i := as_u128 (nth i x 0 + v)]> x.

Definition fold_mul_4x4 (a b : BigInt) : Folded :=
  loop 4 (fun i x =>
    loop 4 (fun j x =>
      let p := as_u128 (nth i a 0 * nth j b 0) in
      let x := add_slot (i + j) (as_u64 p) x in
      add_slot (i + j + 1) (as_u64 (Z.shiftr p 64)) x) x) (repeat 0 8).
(** [Folded256Product::from_mul] and [Folded256ProductAccum::from_mul] *)
Definition from_mul : BigInt -> BigInt -> Folded := fold_mul_4x4.

(** ** Values *)

(** The integer a list of slots (or of limbs) stands for. *)
Fixpoint limbs_value (x : list Z) : Z :=
  match x with [] => 0 | a :: x => a + 2 ^ 64 * limbs_value x end.

Definition is_bigint (n : nat) (v : BigInt) : Prop := length v = n /\ Forall (in_u 64) v.
Definition is_folded (s : Shape) (x : Folded) : Prop := length x = slots s /\ Forall (in_u 128) x.

Lemma limbs_value_app a b :
  limbs_value (a ++ b) = limbs_value a + 2 ^ (64 * Z.of_nat (length a)) * limbs_value b.
Proof.
  induction a as [|x a IH]; [cbn [app limbs_value length]; simpl Z.of_nat; lia|].
  cbn [app limbs_value length]. rewrite IH, Nat2Z.inj_succ.
  replace (64 * Z.succ (Z.of_nat (length a))) with (64 + 64 * Z.of_nat (length a)) by lia.
  rewrite Z.pow_add_r by lia. ring.
Qed.

Lemma limbs_value_zeros n : limbs_value (repeat 0 n) = 0.
Proof. induction n as [|n IH]; [done|]. cbn [repeat limbs_value]. lia. Qed.

Lemma limbs_value_range v : Forall (in_u 64) v -> 0 <= limbs_value v < 2 ^ (64 * Z.of_nat (length v)).
Proof.
  unfold in_u. induction 1 as [|x v Hx _ IH]; [cbn; lia|].
  cbn [limbs_value length]. rewrite Nat2Z.inj_succ.
  replace (64 * Z.succ (Z.of_nat (length v))) with (64 + 64 * Z.of_nat (length v)) by lia.
  rewrite Z.pow_add_r by lia. nia.
Qed.

Lemma limbs_value_nonneg x : Forall (fun a => 0 <= a) x -> 0 <= limbs_value x.
Proof. induction 1 as [|a x Ha _ IH]; cbn [limbs_value]; lia. Qed.

Lemma limbs_unique a b :
  length a = length b -> Forall (in_u 64) a -> Forall (in_u 64) b -> limbs_value a = limbs_value b -> a = b.
Proof.
  unfold in_u. revert b. induction a as [|x a IH]; intros [|y b] Hl Ha Hb Hv; try done.
  cbn [limbs_value length] in *. apply list.Forall_cons in Ha as [Hx Ha], Hb as [Hy Hb].
  assert (x = y) as -> by lia. f_equal. apply IH; [lia|done..|lia].
Qed.

(** ** Normalization *)

Lemma carry_slots_value xs carry :
  Forall (in_u 128) xs -> 0 <= carry <= 2 ^ 64 ->
  let '(out, c) := carry_slots xs carry in
  length out = length xs /\ Forall (in_u 64) out /\ 0 <= c <= 2 ^ 64 /\
  limbs_value xs + carry = limbs_value out + 2 ^ (64 * Z.of_nat (length xs)) * c.
Proof.
  unfold in_u. intros Hx. revert carry. induction Hx as [|x xs Hx _ IH]; intros carry Hc.
  { cbn. repeat split; [constructor|lia..]. }
  cbn [carry_slots overflowing_add].
  assert (Hcarry : as_u128 (Z.shiftr (as_u128 (x + carry)) 64
                     + as_u128 (Z.shiftl (b2z (2 ^ 128 <=? x + carry)) 64)) = (x + carry) / 2 ^ 64).
  { rewrite Z.shiftr_div_pow2, Z.shiftl_mul_pow2 by lia. unfold wrapu.
    assert (Hb : x + carry < 2 * 2 ^ 128) by lia.
    destruct (Z.leb_spec (2 ^ 128) (x + carry)); cbn [b2z].
    - rewrite (Z.mod_small (1 * 2 ^ 64)) by lia.
      rewrite <- (Z.mod_unique (x + carry) (2 ^ 128) 1 (x + carry - 2 ^ 128)) by lia.
      rewrite <- Z.div_add by lia. replace (x + carry - 2 ^ 128 + 1 * 2 ^ 64 * 2 ^ 64) with (x + carry) by lia.
      apply Z.mod_small. split; [apply Z.div_pos; lia|]. apply Z.div_lt_upper_bound; lia.
    - rewrite (Z.mod_small (x + carry)) by lia. rewrite (Z.mod_small (0 * 2 ^ 64)), Z.add_0_r by lia.
      apply Z.mod_small. split; [apply Z.div_pos; lia|]. apply Z.div_lt_upper_bound; lia. }
  rewrite Hcarry.
  assert (Hc' : 0 <= (x + carry) / 2 ^ 64 <= 2 ^ 64).
  { split; [apply Z.div_pos; lia|]. apply Z.lt_succ_r, Z.div_lt_upper_bound; lia. }
  specialize (IH _ Hc'). destruct (carry_slots xs _) as [out c]. destruct IH as (Hl & Ho & Hb & Hv).
  split; [simpl; lia|]. split; [constructor; [apply wrapu_range; lia|done]|]. split; [done|].
  cbn [limbs_value length]. rewrite Nat2Z.inj_succ.
  replace (64 * Z.succ (Z.of_nat (length xs))) with (64 + 64 * Z.of_nat (length xs)) by lia.
  rewrite Z.pow_add_r by lia. rewrite wrapu_narrow by lia. unfold wrapu.
  pose proof (Z.div_mod (x + carry) (2 ^ 64)). nia.
Qed.

Lemma carry_limbs_value n carry :
  length (carry_limbs n carry) = n /\ Forall (in_u 64) (carry_limbs n carry) /\
  limbs_value (carry_limbs n carry) = carry mod 2 ^ (64 * Z.of_nat n).
Proof.
  revert carry. induction n as [|n IH]; intros carry.
  { cbn. repeat split; [constructor|]. by rewrite Z.mod_1_r. }
  cbn [carry_limbs]. destruct (IH (Z.shiftr carry 64)) as (Hl & Hf & Hv).
  split; [simpl; lia|]. split; [constructor; [apply wrapu_range; lia|done]|].
  cbn [limbs_value]. rewrite Hv, Z.shiftr_div_pow2, Nat2Z.inj_succ by lia. unfold wrapu.
  replace (64 * Z.succ (Z.of_nat n)) with (64 + 64 * Z.of_nat n) by lia.
  rewrite Z.pow_add_r by lia. rewrite Z.rem_mul_r by lia. ring.
Qed.

Lemma normalize_spec s x :
  (slots s <= out_limbs s)%nat -> is_folded s x ->
  is_bigint (out_limbs s) (normalize_slots s x) /\
  limbs_value (normalize_slots s x) = limbs_value x mod 2 ^ (64 * Z.of_nat (out_limbs s)).
Proof.
  intros Hs [Hl Hx]. unfold normalize_slots.
  pose proof (carry_slots_value x 0 Hx ltac:(lia)) as Hc.
  destruct (carry_slots x 0) as [out c]. destruct Hc as (Hlo & Ho & Hc & Hv).
  destruct (carry_limbs_value (out_limbs s - slots s) c) as (Hl2 & Hf2 & Hv2).
  rewrite take_ge by lia. split.
  { split; [rewrite length_app; lia|]. by apply Forall_app. }
  rewrite limbs_value_app, Hv2, Hlo. rewrite Z.add_0_r in Hv. rewrite Hv.
  pose proof (limbs_value_range _ Ho) as Hr. rewrite Hlo, Hl in *.
  replace (Z.of_nat (out_limbs s)) with (Z.of_nat (slots s) + Z.of_nat (out_limbs s - slots s)) by lia.
  rewrite Z.mul_add_distr_l, Z.pow_add_r by lia.
  pose proof (pow2_pos (64 * Z.of_nat (slots s)) ltac:(lia)).
  pose proof (pow2_pos (64 * Z.of_nat (out_limbs s - slots s)) ltac:(lia)).
  rewrite Z.rem_mul_r by lia. rewrite (Z.mul_comm _ c), Z.mod_add, Z.div_add, (Z.mod_small (limbs_value out)), (Z.div_small (limbs_value out)), Z.add_0_l by lia.
  ring.
Qed.

(** ** Comparison and subtraction *)

Lemma cmp_limbs_value a b :
  length a = length b -> Forall (in_u 64) a -> Forall (in_u 64) b ->
  cmp_limbs (rev a) (rev b) = (limbs_value a ?= limbs_value b).
Proof.
  revert b. induction a as [|x a IH] using rev_ind; intros b Hl Ha Hb.
  { by destruct b. }
  destruct b as [|y b _] using rev_ind; [rewrite length_app in Hl; simpl in Hl; lia|].
  rewrite !length_app in Hl. simpl in Hl. rewrite !rev_app_distr.
  apply Forall_app in Ha as [Ha Hx], Hb as [Hb Hy]. apply list.Forall_singleton in Hx, Hy.
  cbn [rev app cmp_limbs]. rewrite (IH b) by (lia || done).
  rewrite !limbs_value_app. cbn [limbs_value]. rewrite !Z.mul_0_r, !Z.add_0_r.
  pose proof (limbs_value_range _ Ha) as Hra. pose proof (limbs_value_range _ Hb) as Hrb.
  replace (length b) with (length a) in * by lia. set (B := 2 ^ (64 * Z.of_nat (length a))) in *.
  destruct (Z.compare_spec x y) as [->|H|H]; symmetry.
  - destruct (Z.compare_spec (limbs_value a) (limbs_value b)); [apply Z.compare_eq_iff|apply Z.compare_lt_iff|apply Z.compare_gt_iff]; lia.
  - apply Z.compare_lt_iff. nia.
  - apply Z.compare_gt_iff. nia.
Qed.

(** [Ord::cmp] orders the values modulo the normalized width. *)
Lemma cmp_value s a b :
  (slots s <= out_limbs s)%nat -> is_folded s a -> is_folded s b ->
  cmp s a b = (limbs_value a mod 2 ^ (64 * Z.of_nat (out_limbs s)) ?=
               limbs_value b mod 2 ^ (64 * Z.of_nat (out_limbs s))).
Proof.
  intros Hs Ha Hb. destruct (normalize_spec s a Hs Ha) as [[La Fa] Va].
  destruct (normalize_spec s b Hs Hb) as [[Lb Fb] Vb]. unfold cmp.
  rewrite cmp_limbs_value by (done || congruence). by rewrite Va, Vb.
Qed.

Lemma sub_limbs_value a b borrow :
  length a = length b ->
  let d := sub_limbs a b borrow in
  length d = length a /\ Forall (in_u 64) d /\
  limbs_value d = (limbs_value a - limbs_value b + borrow) mod 2 ^ (64 * Z.of_nat (length a)).
Proof.
  revert b borrow. induction a as [|x a IH]; intros [|y b] borrow Hl; try done.
  { cbn. repeat split; [constructor|]. by rewrite Z.mod_1_r. }
  cbn [sub_limbs length] in *. destruct (IH b (Z.shiftr (x - y + borrow) 64) ltac:(lia)) as (Hld & Hf & Hv).
  split; [simpl; lia|]. split; [constructor; [apply wrapu_range; lia|done]|].
  cbn [limbs_value]. rewrite Hv, Z.shiftr_div_pow2, Nat2Z.inj_succ by lia. unfold wrapu.
  replace (64 * Z.succ (Z.of_nat (length a))) with (64 + 64 * Z.of_nat (length a)) by lia.
  pose proof (pow2_pos (64 * Z.of_nat (length a)) ltac:(lia)).
  rewrite Z.pow_add_r, Z.rem_mul_r by lia.
  replace (x + 2 ^ 64 * limbs_value a - (y + 2 ^ 64 * limbs_value b) + borrow)
    with (x - y + borrow + (limbs_value a - limbs_value b) * 2 ^ 64) by ring.
  rewrite Z.mod_add, Z.div_add by lia. do 3 f_equal. ring.
Qed.

Lemma sub_folded_spec s a b :
  (slots s <= out_limbs s)%nat -> is_folded s a -> is_folded s b ->
  is_folded s (sub_folded s a b) /\
  limbs_value (sub_folded s a b) = (limbs_value a - limbs_value b) mod 2 ^ (64 * Z.of_nat (slots s)).
Proof.
  intros Hs Ha Hb. destruct (normalize_spec s a Hs Ha) as [[La Fa] Va].
  destruct (normalize_spec s b Hs Hb) as [[Lb Fb] Vb].
  unfold sub_folded. rewrite Nat.min_l by lia. rewrite Nat.sub_diag, app_nil_r.
  assert (Htake : forall v, length v = out_limbs s -> Forall (in_u 64) v ->
    limbs_value (take (slots s) v) = limbs_value v mod 2 ^ (64 * Z.of_nat (slots s))).
  { intros v Lv Fv. rewrite <- (take_drop (slots s) v) at 2. rewrite limbs_value_app, length_take, Nat.min_l by lia.
    rewrite (Z.mul_comm (2 ^ _)), Z.mod_add by (apply Z.pow_nonzero; lia). symmetry. apply Z.mod_small.
    pose proof (limbs_value_range (take (slots s) v) ltac:(by apply list.Forall_take)) as Hr.
    rewrite length_take, Nat.min_l in Hr by lia. done. }
  destruct (sub_limbs_value (take (slots s) (normalize_slots s a)) (take (slots s) (normalize_slots s b)) 0) as (Hl & Hf & Hv).
  { rewrite !length_take. lia. }
  rewrite length_take, Nat.min_l in Hl, Hv by lia. split.
  { split; [done|]. eapply list.Forall_impl; [exact Hf|]. unfold in_u. intros x. lia. }
  rewrite Hv, !Htake, Va, Vb by done. rewrite Z.add_0_r.
  pose proof (pow2_pos (64 * Z.of_nat (slots s)) ltac:(lia)).
  pose proof (pow2_pos (64 * Z.of_nat (out_limbs s - slots s)) ltac:(lia)).
  rewrite <- Zminus_mod. rewrite Zminus_mod.
  replace (Z.of_nat (out_limbs s)) with (Z.of_nat (slots s) + Z.of_nat (out_limbs s - slots s)) by lia.
  rewrite Z.mul_add_distr_l, Z.pow_add_r by lia.
  rewrite !Z.rem_mul_r by lia. rewrite !(Z.mul_comm (2 ^ (64 * Z.of_nat (slots s))) (_ mod _)), !Z.mod_add by lia.
  rewrite !Z.mod_mod by lia. by rewrite <- Zminus_mod.
Qed.

(** ** Lane-wise additions

    [slot_le k x]: slot [i] is at most [k_i * (2^64 - 1)], the bound [k_i]
    products of two limbs leave on it. *)
Definition slot_le (k x : list Z) : Prop := Forall2 (fun k a => 0 <= a <= k * (2 ^ 64 - 1)) k x.
(** No slot of such a value has overflowed. *)
Definition slots_fit (k : list Z) : Prop := Forall (fun k => 0 <= k <= 2 ^ 64) k.

Lemma slot_le_fits k x : slot_le k x -> slots_fit k -> Forall (in_u 128) x.
Proof.
  unfold slots_fit, in_u. induction 1 as [|k a ks x Ha _ IH]; intros Hk; [constructor|].
  apply list.Forall_cons in Hk as [Hk Hks]. constructor; [nia|auto].
Qed.

Lemma slot_le_limbs v : Forall (in_u 64) v -> slot_le (repeat 1 (length v)) v.
Proof. unfold in_u. induction 1; cbn; constructor; [lia|done]. Qed.

Lemma slot_le_zeros n : slot_le (repeat 0 n) (repeat 0 n).
Proof. induction n; cbn; constructor; (lia || done). Qed.

(** Pointwise sum of the counts: [add_lanes] without the wrapping. *)
Fixpoint add_counts (k k' : list Z) : list Z :=
  match k, k' with
  | a :: k, b :: k' => a + b :: add_counts k k'
  | _, _ => k
  end.

Lemma add_lanes_fits k k' x y :
  slot_le k x -> slot_le k' y -> slots_fit (add_counts k k') -> (length y <= length x)%nat ->
  slot_le (add_counts k k') (add_lanes x y) /\ length (add_lanes x y) = length x /\
  limbs_value (add_lanes x y) = limbs_value x + limbs_value y.
Proof.
  intros Hx. revert k' y. induction Hx as [|k a ks x Ha Hx IH]; intros k' y Hy Hk Hl.
  { destruct y; [|simpl in Hl; lia]. cbn. split; [constructor|done]. }
  destruct Hy as [|k' b ks' y Hb Hy].
  { cbn. split; [by constructor|]. split; [done|lia]. }
  cbn [add_counts add_lanes length limbs_value] in *. apply list.Forall_cons in Hk as [Hk Hks].
  destruct (IH _ _ Hy Hks ltac:(lia)) as (Hle & Hlen & Hv).
  rewrite wrapu_small by (unfold in_u; nia).
  split; [constructor; [nia|done]|]. split; [lia|]. rewrite Hv. ring.
Qed.

Lemma add_slot_fits k x i v :
  slot_le k x -> in_u 64 v -> (i < length x)%nat -> slots_fit (<[i := nth i k 0 + 1]> k) ->
  slot_le (<[i := nth i k 0 + 1]> k) (add_slot i v x) /\ length (add_slot i v x) = length x /\
  limbs_value (add_slot i v x) = limbs_value x + v * 2 ^ (64 * Z.of_nat i).
Proof.
  unfold in_u, add_slot. intros Hx Hv. revert i. induction Hx as [|k a ks x Ha Hx IH]; intros i Hi Hk.
  { simpl in Hi. lia. }
  destruct i as [|i]; cbn [nth insert list_insert length limbs_value] in *;
    apply list.Forall_cons in Hk as [Hk Hks].
  - rewrite wrapu_small by (unfold in_u; nia).
    split; [constructor; [nia|done]|]. split; [done|]. change (2 ^ (64 * Z.of_nat 0)) with 1. ring.
  - destruct (IH i ltac:(lia) Hks) as (Hle & Hl & Hval).
    split; [constructor; [nia|exact Hle]|]. split; [exact (f_equal S Hl)|].
    etransitivity; [apply (f_equal (fun t => a + 2 ^ 64 * t) Hval)|]. rewrite Nat2Z.inj_succ.
    replace (64 * Z.succ (Z.of_nat i)) with (64 + 64 * Z.of_nat i) by lia.
    rewrite Z.pow_add_r by lia. ring.
Qed.

(** A sequence of [add_slot]s. *)
Definition add_all (ops : list (nat * Z)) (x : Folded) : Folded :=
  fold_left (fun x '(i, v) => add_slot i v x) ops x.
Definition count_all (ops : list nat) (k : list Z) : list Z :=
  fold_left (fun k i => <[i := nth i k 0 + 1]> k) ops k.

Lemma add_all_fits ops k x :
  slot_le k x -> Forall (fun '(i, v) => (i < length x)%nat /\ in_u 64 v) ops ->
  slots_fit k -> Forall (fun k => k + Z.of_nat (length ops) <= 2 ^ 64) k ->
  slot_le (count_all (map fst ops) k) (add_all ops x) /\ length (add_all ops x) = length x /\
  limbs_value (add_all ops x) = limbs_value x + fold_right (fun '(i, v) s => v * 2 ^ (64 * Z.of_nat i) + s) 0 ops.
Proof.
  revert k x. induction ops as [|[i v] ops IH]; intros k x Hx Ho Hf Hk; cbn [map fst add_all count_all fold_left fold_right].
  { split; [done|]. split; [done|lia]. }
  apply list.Forall_cons in Ho as [[Hi Hv] Ho]. cbn [length] in Hk.
  assert (Hn : 0 <= nth i k 0 + 1 /\ nth i k 0 + 1 + Z.of_nat (length ops) <= 2 ^ 64).
  { apply Forall2_length in Hx. pose proof (nth_In k 0 (n := i) ltac:(lia)) as Hin. apply list_elem_of_In in Hin.
    unfold slots_fit in Hf. rewrite list.Forall_forall in Hk, Hf. specialize (Hk _ Hin). specialize (Hf _ Hin). lia. }
  assert (Hk' : Forall (fun k => k + Z.of_nat (length ops) <= 2 ^ 64) (<[i := nth i k 0 + 1]> k)).
  { apply list.Forall_insert; [|lia]. eapply list.Forall_impl; [exact Hk|]. simpl. lia. }
  assert (Hf' : slots_fit (<[i := nth i k 0 + 1]> k)) by (apply list.Forall_insert; [done|lia]).
  destruct (add_slot_fits k x i v Hx Hv Hi Hf') as (Hle & Hl & Hval).
  destruct (IH _ _ Hle ltac:(by rewrite Hl) Hf' Hk') as (Hle2 & Hl2 & Hval2).
  split; [exact Hle2|]. split; [unfold add_all in Hl2; lia|].
  unfold add_all in Hval2. rewrite Hval2, Hval. ring.
Qed.

(** ** Products *)

(** The 32 slot additions of [fold_mul_4x4], in its order. *)
Definition mul_ops (a b : BigInt) : list (nat * Z) :=
  flat_map (fun i => flat_map (fun j =>
    let p := as_u128 (nth i a 0 * nth j b 0) in
    [(i + j, as_u64 p); (i + j + 1, as_u64 (Z.shiftr p 64))]%nat) (seq 0 4)) (seq 0 4).

Lemma fold_mul_ops a b : fold_mul_4x4 a b = add_all (mul_ops a b) (repeat 0 8).
Proof. unfold fold_mul_4x4, loop, add_all, mul_ops. cbn [fold_left seq flat_map app]. reflexivity. Qed.

Lemma u128_halves x y k :
  in_u 64 x -> in_u 64 y ->
  as_u64 (as_u128 (x * y)) * k + as_u64 (Z.shiftr (as_u128 (x * y)) 64) * (2 ^ 64 * k) = x * y * k.
Proof.
  unfold in_u. intros Hx Hy. rewrite (wrapu_small 128) by (unfold in_u; nia).
  rewrite Z.shiftr_div_pow2 by lia. unfold wrapu at 1.
  rewrite wrapu_small by (unfold in_u; split; [apply Z.div_pos; nia|apply Z.div_lt_upper_bound; nia]).
  pose proof (Z.div_mod (x * y) (2 ^ 64)). nia.
Qed.

Lemma mul_ops_value a b :
  is_bigint 4 a -> is_bigint 4 b ->
  fold_right (fun '(i, v) s => v * 2 ^ (64 * Z.of_nat i) + s) 0 (mul_ops a b) = limbs_value a * limbs_value b.
Proof.
  intros [La Ha] [Lb Hb].
  destruct a as [|a0 [|a1 [|a2 [|a3 [|]]]]]; try discriminate La.
  destruct b as [|b0 [|b1 [|b2 [|b3 [|]]]]]; try discriminate Lb.
  rewrite !list.Forall_cons in Ha, Hb. destruct Ha as (A0 & A1 & A2 & A3 & _), Hb as (B0 & B1 & B2 & B3 & _).
  cbn [mul_ops flat_map seq app fold_right nth Nat.add limbs_value].
  transitivity (a0 * b0 * 2 ^ 0 + a0 * b1 * 2 ^ 64 + a0 * b2 * 2 ^ 128 + a0 * b3 * 2 ^ 192
    + (a1 * b0 * 2 ^ 64 + a1 * b1 * 2 ^ 128 + a1 * b2 * 2 ^ 192 + a1 * b3 * 2 ^ 256)
    + (a2 * b0 * 2 ^ 128 + a2 * b1 * 2 ^ 192 + a2 * b2 * 2 ^ 256 + a2 * b3 * 2 ^ 320)
    + (a3 * b0 * 2 ^ 192 + a3 * b1 * 2 ^ 256 + a3 * b2 * 2 ^ 320 + a3 * b3 * 2 ^ 384)); [|ring].
  rewrite <- (u128_halves a0 b0 (2 ^ 0)), <- (u128_halves a0 b1 (2 ^ 64)), <- (u128_halves a0 b2 (2 ^ 128)),
    <- (u128_halves a0 b3 (2 ^ 192)), <- (u128_halves a1 b0 (2 ^ 64)), <- (u128_halves a1 b1 (2 ^ 128)),
    <- (u128_halves a1 b2 (2 ^ 192)), <- (u128_halves a1 b3 (2 ^ 256)), <- (u128_halves a2 b0 (2 ^ 128)),
    <- (u128_halves a2 b1 (2 ^ 192)), <- (u128_halves a2 b2 (2 ^ 256)), <- (u128_halves a2 b3 (2 ^ 320)),
    <- (u128_halves a3 b0 (2 ^ 192)), <- (u128_halves a3 b1 (2 ^ 256)), <- (u128_halves a3 b2 (2 ^ 320)),
    <- (u128_halves a3 b3 (2 ^ 384)) by done.
  repeat match goal with |- context [64 * Z.of_nat ?n] =>
    let v := eval vm_compute in (64 * Z.of_nat n) in change (64 * Z.of_nat n) with v end.
  ring.
Qed.

(** The number of terms each slot of a product receives. *)
Definition product_counts : list Z := [1; 3; 5; 7; 7; 5; 3; 1].

Lemma from_mul_fits a b :
  is_bigint 4 a -> is_bigint 4 b ->
  slot_le product_counts (from_mul a b) /\ length (from_mul a b) = 8%nat /\
  limbs_value (from_mul a b) = limbs_value a * limbs_value b.
Proof.
  intros Ha Hb. unfold from_mul. rewrite fold_mul_ops.
  destruct (add_all_fits (mul_ops a b) (repeat 0 8) (repeat 0 8)) as (Hle & Hl & Hv).
  - apply slot_le_zeros.
  - cbn [mul_ops flat_map seq app]. repeat (constructor; [split; [simpl; lia|apply wrapu_range; lia]|]). constructor.
  - repeat (constructor; [lia|]). constructor.
  - repeat (constructor; [simpl; lia|]). constructor.
  - split; [exact Hle|]. split; [exact Hl|]. rewrite Hv, mul_ops_value by done. reflexivity.
Qed.

Lemma product_value_bound a b : is_bigint 4 a -> is_bigint 4 b -> 0 <= limbs_value a * limbs_value b < 2 ^ 512.
Proof.
  intros [La Ha] [Lb Hb]. apply limbs_value_range in Ha, Hb. rewrite La in Ha. rewrite Lb in Hb.
  change (2 ^ (64 * Z.of_nat 4)) with (2 ^ 256) in *. nia.
Qed.

(** [acc += from_mul(a, b)] over a list of products. *)
Definition sum_products (l : list (BigInt * BigInt)) (acc : Folded) : Folded :=
  fold_left (fun acc '(a, b) => add_lanes acc (from_mul a b)) l acc.
Definition products_value (l : list (BigInt * BigInt)) : Z :=
  fold_right (fun '(a, b) s => limbs_value a * limbs_value b + s) 0 l.

Lemma sum_products_fits l n acc :
  Forall (fun '(a, b) => is_bigint 4 a /\ is_bigint 4 b) l -> 0 <= n ->
  slot_le (map (Z.mul n) product_counts) acc -> n + Z.of_nat (length l) <= 2 ^ 61 ->
  slot_le (map (Z.mul (n + Z.of_nat (length l))) product_counts) (sum_products l acc) /\
  limbs_value (sum_products l acc) = limbs_value acc + products_value l.
Proof.
  revert n acc. induction l as [|[a b] l IH]; intros n acc Hl Hn Hacc Hc; cbn [sum_products fold_left products_value fold_right length] in *.
  { rewrite Z.add_0_r. split; [done|lia]. }
  apply list.Forall_cons in Hl as [[Ha Hb] Hl]. destruct (from_mul_fits a b Ha Hb) as (Hle & Hlen & Hv).
  assert (Hcounts : add_counts (map (Z.mul n) product_counts) product_counts = map (Z.mul (n + 1)) product_counts).
  { unfold product_counts. cbn [map add_counts]. repeat (apply f_equal2; [lia|]). reflexivity. }
  assert (Hfit : slots_fit (map (Z.mul (n + 1)) product_counts)).
  { unfold slots_fit, product_counts. cbn [map]. repeat (constructor; [lia|]). constructor. }
  destruct (add_lanes_fits _ _ acc _ Hacc Hle) as (Hle2 & Hlen2 & Hv2).
  { by rewrite Hcounts. }
  { apply Forall2_length in Hacc. rewrite Hlen. cbn in Hacc. lia. }
  rewrite Hcounts in Hle2. destruct (IH (n + 1) _ Hl ltac:(lia) Hle2 ltac:(lia)) as (Hle3 & Hv3).
  replace (n + Z.of_nat (S (length l))) with (n + 1 + Z.of_nat (length l)) by lia.
  split; [exact Hle3|]. unfold sum_products, products_value in Hv3. rewrite Hv3, Hv2, Hv. ring.
Qed.

Lemma products_value_bound l :
  Forall (fun '(a, b) => is_bigint 4 a /\ is_bigint 4 b) l ->
  0 <= products_value l <= Z.of_nat (length l) * (2 ^ 512 - 1).
Proof.
  induction 1 as [|[a b] l [Ha Hb] _ IH]; cbn [products_value fold_right length]; [lia|].
  pose proof (product_value_bound a b Ha Hb). unfold products_value in IH. lia.
Qed.

(** The normalized limbs are the exact sum. *)
Lemma sum_products_value (l : list (BigInt * BigInt)) :
  Forall (fun '(a, b) => is_bigint 4 a /\ is_bigint 4 b) l -> Z.of_nat (length l) <= 2 ^ 61 ->
  let acc := sum_products l (zero_slots Folded256ProductAccum) in
  Forall (in_u 128) acc /\ limbs_value (normalize_slots Folded256ProductAccum acc) = products_value l.
Proof.
  intros Hl Hn. cbv zeta. change (zero_slots Folded256ProductAccum) with (repeat 0 8).
  destruct (sum_products_fits l 0 (repeat 0 8) Hl ltac:(lia) (slot_le_zeros 8) Hn) as (Hle & Hv).
  assert (Hfit : slots_fit (map (Z.mul (0 + Z.of_nat (length l))) product_counts)).
  { unfold slots_fit, product_counts. cbn [map]. repeat (constructor; [lia|]). constructor. }
  pose proof (slot_le_fits _ _ Hle Hfit) as Hx. split; [exact Hx|].
  destruct (normalize_spec Folded256ProductAccum (sum_products l (repeat 0 8))) as [_ Hv2].
  { simpl. lia. }
  { split; [|exact Hx]. apply Forall2_length in Hle. by rewrite <- Hle. }
  rewrite Hv2, Hv. change (out_limbs Folded256ProductAccum) with 9%nat.
  rewrite limbs_value_zeros, Z.add_0_l. apply Z.mod_small.
  pose proof (products_value_bound l Hl) as Hb. unfold products_value in *. change (2 ^ (64 * Z.of_nat 9)) with (2 ^ 576). clear -Hb Hn. lia.
Qed.

(** C23: the deferred carries are sound: accumulating up to [2^61] products of
    256-bit integers lane by lane overflows no 128-bit slot, and the nine limbs
    [normalize] produces are the exact sum of the products. *)
Theorem product_accumulation_exact (l : list (BigInt * BigInt)) :
  Forall (fun '(a, b) => is_bigint 4 a /\ is_bigint 4 b) l -> Z.of_nat (length l) <= 2 ^ 61 ->
  let acc := sum_products l (zero_slots Folded256ProductAccum) in
  Forall (in_u 128) acc /\
  limbs_value (normalize_slots Folded256ProductAccum acc) =
  fold_right (fun '(a, b) s => limbs_value a * limbs_value b + s) 0 l.
Proof.
  intros Hl Hn. apply (sum_products_value l Hl Hn).
Qed.

Lemma product_accumulation_exact_witness :
  let m := repeat (2 ^ 64 - 1) 4 in
  limbs_value (normalize_slots Folded256ProductAccum (sum_products [(m, m); (m, m); (m, m)] (zero_slots Folded256ProductAccum)))
  = 3 * (2 ^ 256 - 1) * (2 ^ 256 - 1).
Proof.
  cbv zeta. etransitivity; [apply product_accumulation_exact|].
  - repeat (constructor; [split; (split; [reflexivity|repeat (constructor; [unfold in_u; lia|]); constructor])|]). constructor.
  - vm_compute. discriminate.
  - vm_compute. reflexivity.
Defined.

(** ** Limbs of an integer, and the [BigInt] arithmetic of the field library *)

(** The [n] low limbs of [z] ([BigInt::new] of an integer's words). *)
Definition limbs_of (n : nat) (z : Z) : BigInt := carry_limbs n z.
Lemma limbs_of_spec n z :
  is_bigint n (limbs_of n z) /\ limbs_value (limbs_of n z) = z mod 2 ^ (64 * Z.of_nat n).
Proof. destruct (carry_limbs_value n z) as (Hl & Hf & Hv). by split. Qed.

Lemma from_bigint_lanes s v :
  (length v <= slots s)%nat -> from_bigint s v = v ++ repeat 0 (slots s - length v).
Proof.
  intros Hl. unfold from_bigint. rewrite Nat.min_l by lia.
  apply (nth_ext _ _ 0 0); [rewrite length_map, length_seq, length_app, repeat_length; lia|].
  intros i Hi. rewrite length_map, length_seq in Hi.
  set (f := fun i => if (i <? length v)%nat then nth i v 0 else 0).
  rewrite (nth_indep _ 0 (f 0%nat)) by (rewrite length_map, length_seq; lia).
  rewrite (map_nth f), seq_nth by lia. unfold f. cbn [Nat.add]. destruct (Nat.ltb_spec i (length v)).
  - by rewrite app_nth1 by lia.
  - rewrite app_nth2 by lia. by rewrite nth_repeat.
Qed.

Lemma slot_le_weaken k k' x : slot_le k x -> Forall2 Z.le k k' -> slot_le k' x.
Proof.
  unfold slot_le. intros Hx. revert k'. induction Hx as [|k a ks x Ha Hx IH]; intros k' Hk; inversion Hk; subst; constructor.
  - nia.
  - auto.
Qed.

Lemma from_bigint_fits s v :
  (length v <= slots s)%nat -> Forall (in_u 64) v ->
  slot_le (repeat 1 (slots s)) (from_bigint s v) /\ limbs_value (from_bigint s v) = limbs_value v.
Proof.
  intros Hl Hv. rewrite from_bigint_lanes by done. split.
  - replace (repeat 1 (slots s)) with (repeat 1 (length v) ++ repeat 1 (slots s - length v))
      by (rewrite <- repeat_app; f_equal; lia).
    apply Forall2_app; [by apply slot_le_limbs|].
    eapply slot_le_weaken; [apply slot_le_zeros|]. induction (slots s - length v)%nat; cbn; constructor; (lia || done).
  - rewrite limbs_value_app, limbs_value_zeros. lia.
Qed.

(** Adding a value of counts [1] to one of counts [n]. *)
Lemma add_lanes_one n m w x y :
  slot_le (repeat n w) x -> slot_le (repeat 1 m) y -> (m <= w)%nat -> 0 <= n < 2 ^ 64 ->
  slot_le (repeat (n + 1) w) (add_lanes x y) /\ limbs_value (add_lanes x y) = limbs_value x + limbs_value y.
Proof.
  intros Hx Hy Hm Hn.
  assert (Hc : Forall2 Z.le (add_counts (repeat n w) (repeat 1 m)) (repeat (n + 1) w) /\
               slots_fit (add_counts (repeat n w) (repeat 1 m))).
  { clear Hx Hy. revert m Hm. induction w as [|w IH]; intros m Hm; [destruct m; [|lia]; split; constructor|].
    destruct m as [|m]; cbn [repeat add_counts].
    - specialize (IH 0%nat ltac:(lia)). cbn [repeat] in IH.
      replace (add_counts (repeat n w) []) with (repeat n w) in IH by (by destruct w).
      destruct IH. split; constructor; (lia || done).
    - destruct (IH m ltac:(lia)). split; constructor; (lia || done). }
  destruct Hc as [Hc Hf].
  destruct (add_lanes_fits _ _ x y Hx Hy Hf) as (Hle & _ & Hv).
  { apply Forall2_length in Hx, Hy. rewrite repeat_length in Hx, Hy. lia. }
  split; [by eapply slot_le_weaken|done].
Qed.

(** The sum of two accumulators. *)
Lemma add_lanes_same n m w x y :
  slot_le (repeat n w) x -> slot_le (repeat m w) y -> 0 <= n -> 0 <= m -> n + m <= 2 ^ 64 ->
  slot_le (repeat (n + m) w) (add_lanes x y) /\ limbs_value (add_lanes x y) = limbs_value x + limbs_value y.
Proof.
  intros Hx Hy Hn Hm Hnm.
  assert (Hc : add_counts (repeat n w) (repeat m w) = repeat (n + m) w).
  { clear Hx Hy. induction w as [|w IH]; cbn; [done|]. by f_equal. }
  destruct (add_lanes_fits _ _ x y Hx Hy) as (Hle & _ & Hv).
  { rewrite Hc. clear Hx Hy Hc. induction w; cbn; constructor; [lia|done]. }
  { apply Forall2_length in Hx, Hy. rewrite repeat_length in Hx, Hy. lia. }
  by rewrite Hc in Hle.
Qed.
