(* ===== verification/Accum.v ===== *)
(** * Accum: fused multiply-add accumulators

    [jolt-core/src/utils/accumulation.rs] and the unreduced operations of
    [jolt-core/src/field/ark.rs].  An accumulator adds [field * scalar] terms
    as integers in [FoldedAccum] words (one word, or a positive and a negative
    one) and reduces once at the end.  The Montgomery representation, the
    truncated product and the two reductions belong to the external [ark-ff]:
    they are the class [MontField], with the identities their documentation
    states.  [Accumulator] is the interface the sumcheck provers rely on; every
    tier of the file discharges it, with the budget of its width. *)
From S2P Require Import Prelude Bits Field FoldedAccum SignedInt.
From Stdlib Require Import Ring_theory Ring Zmod.

(** ** The Montgomery form (external) *)

(** [f.0] is the Montgomery limbs of [f], [R = 2^256]; [field_bits] bounds the
    modulus of the instance the words are sized for. *)
Class MontField (F : Type) `{JoltField F} := {
  mont : F -> BigInt;
  R_inv : F;
  mul_trunc_bigint : nat -> BigInt -> BigInt -> BigInt;
  mul_u64_w_carry : nat -> BigInt -> Z -> BigInt;
  from_barrett_reduce : BigInt -> F;
  from_montgomery_reduce : BigInt -> F;
  mont_bigint f : is_bigint 4 (mont f);
  mont_bound f : limbs_value (mont f) < 2 ^ 254;
  mont_value f : from_u64 (limbs_value (mont f)) = mul f (from_u64 (2 ^ 256));
  R_inv_spec : mul (from_u64 (2 ^ 256)) R_inv = one;
  mul_trunc_spec n a b :
    is_bigint n (mul_trunc_bigint n a b) /\
    limbs_value (mul_trunc_bigint n a b) = (limbs_value a * limbs_value b) mod 2 ^ (64 * Z.of_nat n);
  mul_u64_w_carry_spec n a b :
    is_bigint n (mul_u64_w_carry n a b) /\
    limbs_value (mul_u64_w_carry n a b) = (limbs_value a * b) mod 2 ^ (64 * Z.of_nat n);
  barrett_spec v : from_barrett_reduce v = mul (from_u64 (limbs_value v)) R_inv;
  montgomery_spec v : from_montgomery_reduce v = mul (mul (from_u64 (limbs_value v)) R_inv) R_inv
}.

(** BN254's scalar field. *)
Definition Fr_R_inv : Fr :=
  Zmod.of_Z Fr_modulus 9915499612839321149637521777990102151350674507940716049588462388200839649614.

Lemma Fr_range (f : Fr) : 0 <= Zmod.to_Z f < Fr_modulus.
Proof. apply Zmod.unsigned_pos_bound. reflexivity. Qed.

#[export] Instance FrMont : MontField Fr.
Proof.
  refine {|
    mont := fun f => limbs_of 4 (Zmod.to_Z (Zmod.mul f (Zmod.of_Z Fr_modulus (2 ^ 256))));
    R_inv := Fr_R_inv;
    mul_trunc_bigint := fun n a b => limbs_of n (limbs_value a * limbs_value b);
    mul_u64_w_carry := fun n a b => limbs_of n (limbs_value a * b);
    from_barrett_reduce := fun v => mul (from_u64 (limbs_value v)) Fr_R_inv;
    from_montgomery_reduce := fun v => mul (mul (from_u64 (limbs_value v)) Fr_R_inv) Fr_R_inv |};
  try reflexivity.
  - intros f. apply limbs_of_spec.
  - intros f. rewrite (proj2 (limbs_of_spec _ _)). pose proof (Fr_range (Zmod.mul f (Zmod.of_Z Fr_modulus (2 ^ 256)))) as Hr.
    assert (Fr_modulus < 2 ^ 254 /\ Fr_modulus < 2 ^ (64 * Z.of_nat 4)) as [H1 H2] by (split; reflexivity).
    rewrite Z.mod_small; lia.
  - intros f. rewrite (proj2 (limbs_of_spec _ _)). pose proof (Fr_range (Zmod.mul f (Zmod.of_Z Fr_modulus (2 ^ 256)))) as Hr.
    assert (Fr_modulus < 2 ^ (64 * Z.of_nat 4)) by reflexivity. rewrite Z.mod_small by lia. apply Zmod.of_Z_to_Z.
  - intros. apply limbs_of_spec.
  - intros. apply limbs_of_spec.
Defined.

(** ** Unreduced operations (field/ark.rs) *)

Section Unreduced.
Context {F : Type} `{MontField F}.

Definition to_unreduced (f : F) : BigInt := mont f.
Definition mul_u64_unreduced (f : F) (other : Z) : Folded :=
  from_bigint Folded256MulU64 (mul_trunc_bigint 5 (mont f) [other]).
Definition mul_u128_unreduced (f : F) (other : Z) : Folded :=
  from_bigint Folded256MulU128 (mul_trunc_bigint 6 (mont f) [as_u64 other; as_u64 (Z.shiftr other 64)]).
Definition mul_to_product (f g : F) : Folded := from_mul (mont f) (mont g).
Definition mul_to_product_accum (f g : F) : Folded := from_mul (mont f) (mont g).
Definition unreduced_mul_u64 (a : BigInt) (b : Z) : Folded := from_bigint Folded256MulU64 (mul_u64_w_carry 5 a b).
Definition unreduced_mul_to_product_accum (a b : BigInt) : Folded := from_mul a b.
Definition mul_to_accum_mag (f : F) (mag : BigInt) : Folded :=
  from_bigint Folded256MulU128Accum (mul_trunc_bigint 7 (mont f) mag).
Definition mul_to_product_mag (f : F) (mag : BigInt) : Folded :=
  from_bigint Folded256Product (mul_trunc_bigint 8 (mont f) mag).

Definition reduce_mul_u64 (x : Folded) : F := from_barrett_reduce (normalize_slots Folded256MulU64 x).
Definition reduce_mul_u128 (x : Folded) : F := from_barrett_reduce (normalize_slots Folded256MulU128 x).
Definition reduce_mul_u128_accum (x : Folded) : F := from_barrett_reduce (normalize_slots Folded256MulU128Accum x).
Definition reduce_product (x : Folded) : F := from_montgomery_reduce (normalize_slots Folded256Product x).
Definition reduce_product_accum (x : Folded) : F := from_montgomery_reduce (normalize_slots Folded256ProductAccum x).

(** The scalars of the [FMAdd] impls; [S64] ... [S256] are the external signed
    magnitudes, values here. *)
Inductive Scalar :=
| Bool (b : bool) | U8 (v : Z) | U64 (v : Z) | U128 (v : Z) | I64 (v : Z) | I128 (v : Z)
| S64 (v : Z) | S128 (v : Z) | S160 (v : Z) | S192 (v : Z) | S256 (v : Z).

(** ** The accumulators *)

Record SmallAccumU := { SmallU_word : Folded }.
Definition SmallAccumU_zero : SmallAccumU := {| SmallU_word := zero_slots Folded256MulU64 |}.
Definition SmallAccumU_is_zero (a : SmallAccumU) : bool := is_zero (SmallU_word a).
Definition SmallAccumU_add (a rhs : SmallAccumU) : SmallAccumU := {| SmallU_word := add_lanes (SmallU_word a) (SmallU_word rhs) |}.
Definition SmallAccumU_barrett_reduce (a : SmallAccumU) : F := reduce_mul_u64 (SmallU_word a).

Definition SmallAccumU_fmadd_bool (a : SmallAccumU) (field : F) (other : bool) : SmallAccumU :=
  if other then {| SmallU_word := add_lanes (SmallU_word a) (to_unreduced field) |} else a.

Definition SmallAccumU_fmadd_u8 (a : SmallAccumU) (field : F) (other : Z) : SmallAccumU :=
  if other =? 0 then a else {| SmallU_word := add_lanes (SmallU_word a) (mul_u64_unreduced field other) |}.

Definition SmallAccumU_fmadd_u64 (a : SmallAccumU) (field : F) (other : Z) : SmallAccumU :=
  if other =? 0 then a else {| SmallU_word := add_lanes (SmallU_word a) (mul_u64_unreduced field other) |}.

Definition SmallAccumU_fmadd (a : SmallAccumU) (field : F) (other : Scalar) : option SmallAccumU :=
  match other with
  | Bool v => Some (SmallAccumU_fmadd_bool a field v)
  | U8 v => Some (SmallAccumU_fmadd_u8 a field v)
  | U64 v => Some (SmallAccumU_fmadd_u64 a field v)
  | _ => None
  end.

Record SmallAccumS := { SmallS_pos : Folded; SmallS_neg : Folded }.
Definition SmallAccumS_zero : SmallAccumS := {| SmallS_pos := zero_slots Folded256MulU64; SmallS_neg := zero_slots Folded256MulU64 |}.
Definition SmallAccumS_is_zero (a : SmallAccumS) : bool := is_zero (SmallS_pos a) && is_zero (SmallS_neg a).
Definition SmallAccumS_add (a rhs : SmallAccumS) : SmallAccumS :=
  {| SmallS_pos := add_lanes (SmallS_pos a) (SmallS_pos rhs); SmallS_neg := add_lanes (SmallS_neg a) (SmallS_neg rhs) |}.
Definition SmallAccumS_barrett_reduce (a : SmallAccumS) : F :=
  match cmp Folded256MulU64 (SmallS_pos a) (SmallS_neg a) with
  | Lt => opp (reduce_mul_u64 (sub_folded Folded256MulU64 (SmallS_neg a) (SmallS_pos a)))
  | _ => reduce_mul_u64 (sub_folded Folded256MulU64 (SmallS_pos a) (SmallS_neg a))
  end.

Definition SmallAccumS_fmadd_bool (a : SmallAccumS) (field : F) (other : bool) : SmallAccumS :=
  if other then {| SmallS_pos := add_lanes (SmallS_pos a) (to_unreduced field); SmallS_neg := SmallS_neg a |} else a.

Definition SmallAccumS_fmadd_u8 (a : SmallAccumS) (field : F) (other : Z) : SmallAccumS :=
  if other =? 0 then a else {| SmallS_pos := add_lanes (SmallS_pos a) (mul_u64_unreduced field other); SmallS_neg := SmallS_neg a |}.

Definition SmallAccumS_fmadd_u64 (a : SmallAccumS) (field : F) (other : Z) : SmallAccumS :=
  if other =? 0 then a else {| SmallS_pos := add_lanes (SmallS_pos a) (mul_u64_unreduced field other); SmallS_neg := SmallS_neg a |}.

Definition SmallAccumS_fmadd_i64 (a : SmallAccumS) (field : F) (other : Z) : SmallAccumS :=
  if other =? 0 then a else
  let term := mul_u64_unreduced field (Z.abs other) in
  if 0 <? other then {| SmallS_pos := add_lanes (SmallS_pos a) term; SmallS_neg := SmallS_neg a |} else {| SmallS_pos := SmallS_pos a; SmallS_neg := add_lanes (SmallS_neg a) term |}.

Definition SmallAccumS_fmadd (a : SmallAccumS) (field : F) (other : Scalar) : option SmallAccumS :=
  match other with
  | Bool v => Some (SmallAccumS_fmadd_bool a field v)
  | U8 v => Some (SmallAccumS_fmadd_u8 a field v)
  | U64 v => Some (SmallAccumS_fmadd_u64 a field v)
  | I64 v => Some (SmallAccumS_fmadd_i64 a field v)
  | _ => None
  end.

Record MedAccumU := { MedU_word : Folded }.
Definition MedAccumU_zero : MedAccumU := {| MedU_word := zero_slots Folded256MulU128 |}.
Definition MedAccumU_is_zero (a : MedAccumU) : bool := is_zero (MedU_word a).
Definition MedAccumU_add (a rhs : MedAccumU) : MedAccumU := {| MedU_word := add_lanes (MedU_word a) (MedU_word rhs) |}.
Definition MedAccumU_barrett_reduce (a : MedAccumU) : F := reduce_mul_u128 (MedU_word a).

Definition MedAccumU_fmadd_u64 (a : MedAccumU) (field : F) (other : Z) : MedAccumU :=
  if other =? 0 then a else {| MedU_word := add_lanes (MedU_word a) (mul_u64_unreduced field other) |}.

Definition MedAccumU_fmadd_u8 (a : MedAccumU) (field : F) (other : Z) : MedAccumU :=
  if other =? 0 then a else {| MedU_word := add_lanes (MedU_word a) (mul_u64_unreduced field other) |}.

Definition MedAccumU_fmadd_bool (a : MedAccumU) (field : F) (other : bool) : MedAccumU :=
  if other then {| MedU_word := add_lanes (MedU_word a) (to_unreduced field) |} else a.

Definition MedAccumU_fmadd (a : MedAccumU) (field : F) (other : Scalar) : option MedAccumU :=
  match other with
  | U64 v => Some (MedAccumU_fmadd_u64 a field v)
  | U8 v => Some (MedAccumU_fmadd_u8 a field v)
  | Bool v => Some (MedAccumU_fmadd_bool a field v)
  | _ => None
  end.

Record MedAccumS := { MedS_pos : Folded; MedS_neg : Folded }.
Definition MedAccumS_zero : MedAccumS := {| MedS_pos := zero_slots Folded256MulU128; MedS_neg := zero_slots Folded256MulU128 |}.
Definition MedAccumS_is_zero (a : MedAccumS) : bool := is_zero (MedS_pos a) && is_zero (MedS_neg a).
Definition MedAccumS_add (a rhs : MedAccumS) : MedAccumS :=
  {| MedS_pos := add_lanes (MedS_pos a) (MedS_pos rhs); MedS_neg := add_lanes (MedS_neg a) (MedS_neg rhs) |}.
Definition MedAccumS_barrett_reduce (a : MedAccumS) : F :=
  match cmp Folded256MulU128 (MedS_pos a) (MedS_neg a) with
  | Lt => opp (reduce_mul_u128 (sub_folded Folded256MulU128 (MedS_neg a) (MedS_pos a)))
  | _ => reduce_mul_u128 (sub_folded Folded256MulU128 (MedS_pos a) (MedS_neg a))
  end.

Definition MedAccumS_fmadd_i128 (a : MedAccumS) (field : F) (other : Z) : MedAccumS :=
  if other =? 0 then a else
  let term := mul_u128_unreduced field (Z.abs other) in
  if 0 <? other then {| MedS_pos := add_lanes (MedS_pos a) term; MedS_neg := MedS_neg a |} else {| MedS_pos := MedS_pos a; MedS_neg := add_lanes (MedS_neg a) term |}.

Definition MedAccumS_fmadd_bool (a : MedAccumS) (field : F) (other : bool) : MedAccumS :=
  if other then {| MedS_pos := add_lanes (MedS_pos a) (to_unreduced field); MedS_neg := MedS_neg a |} else a.

Definition MedAccumS_fmadd_u8 (a : MedAccumS) (field : F) (other : Z) : MedAccumS :=
  if other =? 0 then a else {| MedS_pos := add_lanes (MedS_pos a) (mul_u64_unreduced field other); MedS_neg := MedS_neg a |}.

Definition MedAccumS_fmadd_u64 (a : MedAccumS) (field : F) (other : Z) : MedAccumS :=
  if other =? 0 then a else {| MedS_pos := add_lanes (MedS_pos a) (mul_u64_unreduced field other); MedS_neg := MedS_neg a |}.

Definition MedAccumS_fmadd_s64 (a : MedAccumS) (field : F) (other : Z) : MedAccumS :=
  if other =? 0 then a else
  let term := mul_u64_unreduced field (Z.abs other) in
  if 0 <? other then {| MedS_pos := add_lanes (MedS_pos a) term; MedS_neg := MedS_neg a |} else {| MedS_pos := MedS_pos a; MedS_neg := add_lanes (MedS_neg a) term |}.

Definition MedAccumS_fmadd (a : MedAccumS) (field : F) (other : Scalar) : option MedAccumS :=
  match other with
  | I128 v => Some (MedAccumS_fmadd_i128 a field v)
  | Bool v => Some (MedAccumS_fmadd_bool a field v)
  | U8 v => Some (MedAccumS_fmadd_u8 a field v)
  | U64 v => Some (MedAccumS_fmadd_u64 a field v)
  | S64 v => Some (MedAccumS_fmadd_s64 a field v)
  | _ => None
  end.

Record WideAccumU := { WideU_word : Folded }.
Definition WideAccumU_zero : WideAccumU := {| WideU_word := zero_slots Folded256MulU128Accum |}.
Definition WideAccumU_is_zero (a : WideAccumU) : bool := is_zero (WideU_word a).
Definition WideAccumU_add (a rhs : WideAccumU) : WideAccumU := {| WideU_word := add_lanes (WideU_word a) (WideU_word rhs) |}.
Definition WideAccumU_barrett_reduce (a : WideAccumU) : F := reduce_mul_u128_accum (WideU_word a).

Definition WideAccumU_fmadd_u128 (a : WideAccumU) (field : F) (other : Z) : WideAccumU :=
  if other =? 0 then a else {| WideU_word := add_lanes (WideU_word a) (mul_u128_unreduced field other) |}.

Definition WideAccumU_fmadd (a : WideAccumU) (field : F) (other : Scalar) : option WideAccumU :=
  match other with
  | U128 v => Some (WideAccumU_fmadd_u128 a field v)
  | _ => None
  end.

Record WideAccumS := { WideS_pos : Folded; WideS_neg : Folded }.
Definition WideAccumS_zero : WideAccumS := {| WideS_pos := zero_slots Folded256MulU128Accum; WideS_neg := zero_slots Folded256MulU128Accum |}.
Definition WideAccumS_is_zero (a : WideAccumS) : bool := is_zero (WideS_pos a) && is_zero (WideS_neg a).
Definition WideAccumS_add (a rhs : WideAccumS) : WideAccumS :=
  {| WideS_pos := add_lanes (WideS_pos a) (WideS_pos rhs); WideS_neg := add_lanes (WideS_neg a) (WideS_neg rhs) |}.
Definition WideAccumS_barrett_reduce (a : WideAccumS) : F :=
  match cmp Folded256MulU128Accum (WideS_pos a) (WideS_neg a) with
  | Lt => opp (reduce_mul_u128_accum (sub_folded Folded256MulU128Accum (WideS_neg a) (WideS_pos a)))
  | _ => reduce_mul_u128_accum (sub_folded Folded256MulU128Accum (WideS_pos a) (WideS_neg a))
  end.

Definition WideAccumS_fmadd_i128 (a : WideAccumS) (field : F) (other : Z) : WideAccumS :=
  if other =? 0 then a else
  let term := mul_u128_unreduced field (Z.abs other) in
  if 0 <? other then {| WideS_pos := add_lanes (WideS_pos a) term; WideS_neg := WideS_neg a |} else {| WideS_pos := WideS_pos a; WideS_neg := add_lanes (WideS_neg a) term |}.

Definition WideAccumS_fmadd_s64 (a : WideAccumS) (field : F) (other : Z) : WideAccumS :=
  if other =? 0 then a else
  let term := mul_u64_unreduced field (Z.abs other) in
  if 0 <? other then {| WideS_pos := add_lanes (WideS_pos a) term; WideS_neg := WideS_neg a |} else {| WideS_pos := WideS_pos a; WideS_neg := add_lanes (WideS_neg a) term |}.

Definition WideAccumS_fmadd_s128 (a : WideAccumS) (field : F) (other : Z) : WideAccumS :=
  if other =? 0 then a else
  let term := mul_u128_unreduced field (Z.abs other) in
  if 0 <? other then {| WideS_pos := add_lanes (WideS_pos a) term; WideS_neg := WideS_neg a |} else {| WideS_pos := WideS_pos a; WideS_neg := add_lanes (WideS_neg a) term |}.

Definition WideAccumS_fmadd_s160 (a : WideAccumS) (field : F) (other : Z) : WideAccumS :=
  if other =? 0 then a else
  let term := mul_to_accum_mag field (limbs_of 3 (Z.abs other)) in
  if 0 <? other then {| WideS_pos := add_lanes (WideS_pos a) term; WideS_neg := WideS_neg a |} else {| WideS_pos := WideS_pos a; WideS_neg := add_lanes (WideS_neg a) term |}.

Definition WideAccumS_fmadd_s192 (a : WideAccumS) (field : F) (other : Z) : WideAccumS :=
  if other =? 0 then a else
  let term := mul_to_accum_mag field (limbs_of 3 (Z.abs other)) in
  if 0 <? other then {| WideS_pos := add_lanes (WideS_pos a) term; WideS_neg := WideS_neg a |} else {| WideS_pos := WideS_pos a; WideS_neg := add_lanes (WideS_neg a) term |}.

Definition WideAccumS_fmadd (a : WideAccumS) (field : F) (other : Scalar) : option WideAccumS :=
  match other with
  | I128 v => Some (WideAccumS_fmadd_i128 a field v)
  | S64 v => Some (WideAccumS_fmadd_s64 a field v)
  | S128 v => Some (WideAccumS_fmadd_s128 a field v)
  | S160 v => Some (WideAccumS_fmadd_s160 a field v)
  | S192 v => Some (WideAccumS_fmadd_s192 a field v)
  | _ => None
  end.

Record FullAccumS := { FullS_pos : Folded; FullS_neg : Folded }.
Definition FullAccumS_zero : FullAccumS := {| FullS_pos := zero_slots Folded256Product; FullS_neg := zero_slots Folded256Product |}.
Definition FullAccumS_is_zero (a : FullAccumS) : bool := is_zero (FullS_pos a) && is_zero (FullS_neg a).
Definition FullAccumS_add (a rhs : FullAccumS) : FullAccumS :=
  {| FullS_pos := add_lanes (FullS_pos a) (FullS_pos rhs); FullS_neg := add_lanes (FullS_neg a) (FullS_neg rhs) |}.
Definition FullAccumS_montgomery_reduce (a : FullAccumS) : F :=
  match cmp Folded256Product (FullS_pos a) (FullS_neg a) with
  | Lt => opp (reduce_product (sub_folded Folded256Product (FullS_neg a) (FullS_pos a)))
  | _ => reduce_product (sub_folded Folded256Product (FullS_pos a) (FullS_neg a))
  end.

Definition FullAccumS_fmadd_s128 (a : FullAccumS) (field : F) (other : Z) : FullAccumS :=
  if other =? 0 then a else
  let term := mul_u128_unreduced field (Z.abs other) in
  if 0 <? other then {| FullS_pos := add_lanes (FullS_pos a) term; FullS_neg := FullS_neg a |} else {| FullS_pos := FullS_pos a; FullS_neg := add_lanes (FullS_neg a) term |}.

Definition FullAccumS_fmadd_s192 (a : FullAccumS) (field : F) (other : Z) : FullAccumS :=
  if other =? 0 then a else
  let term := mul_to_product_mag field (limbs_of 3 (Z.abs other)) in
  if 0 <? other then {| FullS_pos := add_lanes (FullS_pos a) term; FullS_neg := FullS_neg a |} else {| FullS_pos := FullS_pos a; FullS_neg := add_lanes (FullS_neg a) term |}.

Definition FullAccumS_fmadd_s256 (a : FullAccumS) (field : F) (other : Z) : FullAccumS :=
  if other =? 0 then a else
  let term := mul_to_product_mag field (limbs_of 4 (Z.abs other)) in
  if 0 <? other then {| FullS_pos := add_lanes (FullS_pos a) term; FullS_neg := FullS_neg a |} else {| FullS_pos := FullS_pos a; FullS_neg := add_lanes (FullS_neg a) term |}.

Definition FullAccumS_fmadd (a : FullAccumS) (field : F) (other : Scalar) : option FullAccumS :=
  match other with
  | S128 v => Some (FullAccumS_fmadd_s128 a field v)
  | S192 v => Some (FullAccumS_fmadd_s192 a field v)
  | S256 v => Some (FullAccumS_fmadd_s256 a field v)
  | _ => None
  end.

End Unreduced.

(** ** The interface *)

Definition scalar_value (v : Scalar) : Z :=
  match v with
  | Bool b => b2z b
  | U8 v | U64 v | U128 v | I64 v | I128 v | S64 v | S128 v | S160 v | S192 v | S256 v => v
  end.
(** The range of the scalar's type; the signed magnitudes have a sign of their own. *)
Definition scalar_ok (v : Scalar) : Prop :=
  match v with
  | Bool _ => True
  | U8 v => in_u 8 v | U64 v => in_u 64 v | U128 v => in_u 128 v
  | I64 v => in_s 64 v | I128 v => in_s 128 v
  | S64 v => Z.abs v < 2 ^ 64 | S128 v => Z.abs v < 2 ^ 128 | S160 v => Z.abs v < 2 ^ 160
  | S192 v => Z.abs v < 2 ^ 192 | S256 v => Z.abs v < 2 ^ 256
  end.

(** The invariant the proofs about the tiers share, as an interface that every
    tier discharges from its operations below: [holds n c x a] reads "[a] accumulates at
    most [n] terms, of total scalar magnitude at most [c], whose sum is [x]";
    the reduction gives [x] back, times the tier's scale, while [c] is within its
    budget.  The scale is [1] for the Barrett reductions and [1/R] for the
    Montgomery one, whose callers scale a factor by [MONTGOMERY_R_SQUARE]. *)
Class Accumulator (F A : Type) `{MontField F} := {
  acc_zero : A;
  acc_add : A -> A -> A;
  acc_fmadd : A -> F -> Scalar -> option A;
  acc_reduce : A -> F;
  acc_budget : Z;
  acc_scale : F;
  holds : Z -> Z -> F -> A -> Prop;
  holds_zero : holds 0 0 zero acc_zero;
  holds_add n m c d x y a b :
    holds n c x a -> holds m d y b -> n + m <= 2 ^ 64 -> holds (n + m) (c + d) (add x y) (acc_add a b);
  holds_fmadd n c x a f v a' :
    holds n c x a -> scalar_ok v -> n < 2 ^ 64 -> acc_fmadd a f v = Some a' ->
    holds (n + 1) (c + Z.abs (scalar_value v)) (add x (mul f (from_u64 (scalar_value v)))) a';
  holds_reduce n c x a : holds n c x a -> c <= acc_budget -> acc_reduce a = mul x acc_scale
}.

Section Words.
Context {F : Type} `{HM : MontField F}.
Add Ring Fring : (@field_ring F _ _).

Abbreviation R := (from_u64 (2 ^ 256) : F).

(** A word of [w] slots that accumulates [n] terms. *)
Definition word_holds (w : nat) (n c : Z) (x : F) (word : Folded) : Prop :=
  0 <= n <= 2 ^ 64 /\ slot_le (repeat n w) word /\ limbs_value word <= c * (2 ^ 254 - 1) /\
  from_u64 (limbs_value word) = mul x R.
(** A term [f * v]: the lanes of one widening product. *)
Definition is_term (w : nat) (f : F) (v : Z) (t : Folded) : Prop :=
  0 <= v /\ limbs_value t = limbs_value (mont f) * v /\ exists m, (m <= w)%nat /\ slot_le (repeat 1 m) t.

Lemma mont_range f : 0 <= limbs_value (mont f) < 2 ^ 254.
Proof. split; [|apply mont_bound]. apply limbs_value_range, (mont_bigint f). Qed.

Lemma word_zero s : word_holds (slots s) 0 0 zero (zero_slots s).
Proof.
  unfold word_holds, zero_slots. rewrite limbs_value_zeros, from_u64_0.
  repeat split; [lia|lia|apply slot_le_zeros|lia|ring].
Qed.

Lemma word_term w n c x word f v t :
  word_holds w n c x word -> is_term w f v t -> n < 2 ^ 64 ->
  word_holds w (n + 1) (c + v) (add x (mul f (from_u64 v))) (add_lanes word t).
Proof.
  intros (Hn & Hle & Hc & Hx) (Hv & Ht & m & Hm & Hlt) Hlim.
  destruct (add_lanes_one n m w word t Hle Hlt Hm ltac:(lia)) as [Hle2 Hval].
  pose proof (mont_range f). repeat split; [lia|lia|done|rewrite Hval, Ht; nia|].
  rewrite Hval, Ht, from_u64_add, from_u64_mul, Hx, mont_value. ring.
Qed.

Lemma word_add w n m c d x y a b :
  word_holds w n c x a -> word_holds w m d y b -> n + m <= 2 ^ 64 ->
  word_holds w (n + m) (c + d) (add x y) (add_lanes a b).
Proof.
  intros (Hn & Ha & Hc & Hx) (Hm & Hb & Hd & Hy) Hnm.
  destruct (add_lanes_same n m w a b Ha Hb) as [Hle Hval]; [lia..|].
  repeat split; [lia|lia|done|lia|]. rewrite Hval, from_u64_add, Hx, Hy. ring.
Qed.

Lemma word_more w n c x a : word_holds w n c x a -> n < 2 ^ 64 -> word_holds w (n + 1) c x a.
Proof.
  intros (Hn & Ha & Hc & Hx) Hlim. repeat split; [lia|lia| |done|done].
  eapply slot_le_weaken; [exact Ha|]. clear. induction w; cbn; constructor; (lia || done).
Qed.

Lemma word_folded s n c x a : word_holds (slots s) n c x a -> is_folded s a.
Proof.
  intros (Hn & Ha & _). split; [apply Forall2_length in Ha; rewrite repeat_length in Ha; done|].
  eapply slot_le_fits; [exact Ha|]. clear Ha. induction (slots s); cbn; constructor; (lia || done).
Qed.

Lemma word_value s n c x a :
  slots s = out_limbs s -> word_holds (slots s) n c x a -> c * (2 ^ 254 - 1) < 2 ^ (64 * Z.of_nat (out_limbs s)) ->
  limbs_value (normalize_slots s a) = limbs_value a /\ 0 <= limbs_value a < 2 ^ (64 * Z.of_nat (out_limbs s)).
Proof.
  intros Hs Ha Hc. destruct (normalize_spec s a) as [_ Hv]; [lia|by eapply word_folded|].
  destruct Ha as (Hn & Ha & Hb & _).
  assert (0 <= limbs_value a).
  { apply limbs_value_nonneg. clear -Ha. revert Ha. generalize (repeat n (slots s)). intros k Ha.
    induction Ha as [|k a ks x Hx _ IH]; constructor; [lia|done]. }
  rewrite Hv. split; [apply Z.mod_small|]; lia.
Qed.

Lemma unscale x : mul (mul x R) R_inv = x.
Proof. transitivity (mul x (mul R R_inv)); [ring|]. rewrite R_inv_spec. ring. Qed.

(** The budget of a shape: [2^(64 * limbs - 254)]. *)
Definition budget (s : Shape) : Z := 2 ^ (64 * Z.of_nat (out_limbs s) - 254).
Lemma budget_fits s c :
  (4 <= out_limbs s)%nat -> c <= budget s -> c * (2 ^ 254 - 1) < 2 ^ (64 * Z.of_nat (out_limbs s)).
Proof.
  intros Hs Hc. unfold budget in Hc. replace (64 * Z.of_nat (out_limbs s)) with (64 * Z.of_nat (out_limbs s) - 254 + 254) by lia.
  rewrite Z.pow_add_r by lia. pose proof (pow2_pos (64 * Z.of_nat (out_limbs s) - 254) ltac:(lia)). nia.
Qed.

(** The two-word accumulators. *)
Definition signed_holds (w : nat) (n c : Z) (x : F) (pos neg : Folded) : Prop :=
  exists cp cn xp xn, word_holds w n cp xp pos /\ word_holds w n cn xn neg /\
    0 <= cp /\ 0 <= cn /\ cp + cn = c /\ x = sub xp xn.

Lemma signed_zero s : signed_holds (slots s) 0 0 zero (zero_slots s) (zero_slots s).
Proof.
  exists 0, 0, zero, zero. split; [apply word_zero|]. split; [apply word_zero|]. repeat split; [lia..|ring].
Qed.

Lemma signed_add w n m c d x y pos neg pos' neg' :
  signed_holds w n c x pos neg -> signed_holds w m d y pos' neg' -> n + m <= 2 ^ 64 ->
  signed_holds w (n + m) (c + d) (add x y) (add_lanes pos pos') (add_lanes neg neg').
Proof.
  intros (cp & cn & xp & xn & Hp & Hn & H1 & H2' & <- & ->) (dp & dn & yp & yn & Hp' & Hn' & H3 & H4 & <- & ->) Hnm.
  exists (cp + dp), (cn + dn), (add xp yp), (add xn yn).
  split; [by apply word_add|]. split; [by apply word_add|]. repeat split; [lia..|ring].
Qed.

(** One signed term, added to the word its sign selects. *)
Lemma signed_term w n c x pos neg f v t :
  signed_holds w n c x pos neg -> is_term w f (Z.abs v) t -> n < 2 ^ 64 ->
  (0 < v -> signed_holds w (n + 1) (c + Z.abs v) (add x (mul f (from_u64 v))) (add_lanes pos t) neg) /\
  (v <= 0 -> signed_holds w (n + 1) (c + Z.abs v) (add x (mul f (from_u64 v))) pos (add_lanes neg t)).
Proof.
  intros (cp & cn & xp & xn & Hp & Hn & H1 & H2' & <- & ->) Ht Hlim. split; intros Hv.
  - exists (cp + Z.abs v), cn, (add xp (mul f (from_u64 (Z.abs v)))), xn.
    split; [by apply word_term|]. split; [by apply word_more|]. repeat split; [lia..|].
    rewrite Z.abs_eq by lia. ring.
  - exists cp, (cn + Z.abs v), xp, (add xn (mul f (from_u64 (Z.abs v)))).
    split; [by apply word_more|]. split; [by apply word_term|]. repeat split; [lia..|].
    rewrite Z.abs_neq, from_u64_opp by lia. ring.
Qed.

Lemma signed_skip w n c x pos neg f v :
  signed_holds w n c x pos neg -> v = 0 -> n < 2 ^ 64 ->
  signed_holds w (n + 1) (c + Z.abs v) (add x (mul f (from_u64 v))) pos neg.
Proof.
  intros (cp & cn & xp & xn & Hp & Hn & H1 & H2' & <- & ->) -> Hlim. exists cp, cn, xp, xn.
  split; [by apply word_more|]. split; [by apply word_more|]. rewrite from_u64_0. repeat split; [lia..|ring].
Qed.

Lemma word_skip w n c x a f v :
  word_holds w n c x a -> v = 0 -> n < 2 ^ 64 ->
  word_holds w (n + 1) (c + Z.abs v) (add x (mul f (from_u64 v))) a.
Proof.
  intros Ha -> Hlim. rewrite from_u64_0. replace (add x (mul f zero)) with x by ring.
  rewrite Z.add_0_r. by apply word_more.
Qed.

(** ** Reductions *)

Lemma barrett_word s n c x a :
  slots s = out_limbs s -> (4 <= out_limbs s)%nat -> word_holds (slots s) n c x a -> c <= budget s ->
  from_barrett_reduce (normalize_slots s a) = mul x one.
Proof.
  intros Hs H4 Ha Hc. destruct (word_value s n c x a Hs Ha (budget_fits s c H4 Hc)) as [Hv _].
  destruct Ha as (_ & _ & _ & Hx). rewrite barrett_spec, Hv, Hx, unscale. ring.
Qed.

(** The signed reduction with any reduction [red] that only reads the value. *)
Lemma reduce_signed s (red : Folded -> F) (k : F) n c x pos neg :
  slots s = out_limbs s -> (4 <= out_limbs s)%nat ->
  (forall y, is_folded s y -> red y = mul (from_u64 (limbs_value y mod 2 ^ (64 * Z.of_nat (out_limbs s)))) k) ->
  signed_holds (slots s) n c x pos neg -> c <= budget s ->
  match cmp s pos neg with
  | Lt => opp (red (sub_folded s neg pos))
  | _ => red (sub_folded s pos neg)
  end = mul (mul x R) k.
Proof.
  intros Hs H4 Hred (cp & cn & xp & xn & Hp & Hn & H1 & H2' & Hcc & ->) Hc.
  destruct (word_value s n cp xp pos Hs Hp) as [_ Vp]; [apply budget_fits; lia|].
  destruct (word_value s n cn xn neg Hs Hn) as [_ Vn]; [apply budget_fits; lia|].
  pose proof (word_folded _ _ _ _ _ Hp) as Fp. pose proof (word_folded _ _ _ _ _ Hn) as Fn.
  rewrite cmp_value by (done || lia). rewrite !Z.mod_small by lia.
  destruct (sub_folded_spec s pos neg) as [Fpn Vpn]; [lia|done..|].
  destruct (sub_folded_spec s neg pos) as [Fnp Vnp]; [lia|done..|].
  destruct Hp as (_ & _ & _ & Hp), Hn as (_ & _ & _ & Hn).
  destruct (Z.compare_spec (limbs_value pos) (limbs_value neg)) as [He|Hlt|Hgt];
    rewrite Hred by done; rewrite ?Vpn, ?Vnp, Hs, Z.mod_mod, Z.mod_small, from_u64_sub, Hp, Hn by (try apply Z.pow_nonzero; lia);
    ring.
Qed.

Lemma barrett_reduces s (y : Folded) :
  slots s = out_limbs s -> is_folded s y ->
  from_barrett_reduce (normalize_slots s y) = mul (from_u64 (limbs_value y mod 2 ^ (64 * Z.of_nat (out_limbs s)))) R_inv.
Proof. intros Hs Hy. rewrite barrett_spec. do 2 f_equal. apply normalize_spec; [lia|done]. Qed.
Lemma montgomery_reduces s (y : Folded) :
  slots s = out_limbs s -> is_folded s y ->
  from_montgomery_reduce (normalize_slots s y) =
  mul (from_u64 (limbs_value y mod 2 ^ (64 * Z.of_nat (out_limbs s)))) (mul R_inv R_inv).
Proof.
  intros Hs Hy. rewrite montgomery_spec. destruct (normalize_spec s y) as [_ ->]; [lia|done|]. ring.
Qed.

(** ** Terms *)

Lemma term_of s w f v t :
  (slots s <= w)%nat -> 0 <= v -> is_bigint (slots s) t -> limbs_value t = limbs_value (mont f) * v ->
  is_term w f v (from_bigint s t).
Proof.
  intros Hs Hv [Hl Ht] Hval. destruct (from_bigint_fits s t) as [Hle Hv2]; [lia|done|].
  split; [done|]. split; [congruence|]. by exists (slots s).
Qed.

Lemma term_unreduced w f : (4 <= w)%nat -> is_term w f 1 (to_unreduced f).
Proof.
  intros Hw. destruct (mont_bigint f) as [Hl Hf]. split; [lia|]. split; [unfold to_unreduced; lia|].
  exists 4%nat. split; [done|]. rewrite <- Hl at 1. by apply slot_le_limbs.
Qed.

Lemma mul_trunc_term s w f v m k :
  (slots s <= w)%nat -> limbs_value m = v -> 0 <= v < 2 ^ k -> 0 <= k -> 254 + k <= 64 * Z.of_nat (slots s) ->
  is_term w f v (from_bigint s (mul_trunc_bigint (slots s) (mont f) m)).
Proof.
  intros Hs Hm Hv Hk Hw. destruct (mul_trunc_spec (slots s) (mont f) m) as [Hb Hval].
  apply term_of; [done|lia|done|]. rewrite Hval, Hm. apply Z.mod_small.
  pose proof (mont_range f). assert (2 ^ 254 * 2 ^ k <= 2 ^ (64 * Z.of_nat (slots s))).
  { rewrite <- Z.pow_add_r by lia. apply Z.pow_le_mono_r; lia. }
  nia.
Qed.

Lemma term_u64 w f v : (5 <= w)%nat -> in_u 64 v -> is_term w f v (mul_u64_unreduced f v).
Proof.
  intros Hw Hv. apply (mul_trunc_term Folded256MulU64 w f v [v] 64); [done|cbn; lia|exact Hv|lia|done].
Qed.
Lemma term_u128 w f v : (6 <= w)%nat -> in_u 128 v -> is_term w f v (mul_u128_unreduced f v).
Proof.
  unfold in_u. intros Hw Hv. apply (mul_trunc_term Folded256MulU128 w f v _ 128); [done| |exact Hv|lia|done].
  cbn [limbs_value]. rewrite Z.shiftr_div_pow2 by lia. rewrite (wrapu_small 64 (v / 2 ^ 64)).
  - unfold wrapu. pose proof (Z.div_mod v (2 ^ 64)). lia.
  - unfold in_u. split; [apply Z.div_pos; lia|apply Z.div_lt_upper_bound; lia].
Qed.
Lemma limbs_of_value n v : 0 <= v < 2 ^ (64 * Z.of_nat n) -> limbs_value (limbs_of n v) = v.
Proof. intros Hv. rewrite (proj2 (limbs_of_spec n v)). by apply Z.mod_small. Qed.
Lemma term_accum_mag w f v n :
  (7 <= w)%nat -> (n <= 3)%nat -> 0 <= v < 2 ^ (64 * Z.of_nat n) -> is_term w f v (mul_to_accum_mag f (limbs_of n v)).
Proof.
  intros Hw Hn Hv. apply (mul_trunc_term Folded256MulU128Accum w f v _ (64 * Z.of_nat n));
    [done|by apply limbs_of_value|done|lia|simpl; lia].
Qed.
Lemma term_product_mag w f v n :
  (8 <= w)%nat -> (n <= 4)%nat -> 0 <= v < 2 ^ (64 * Z.of_nat n) -> is_term w f v (mul_to_product_mag f (limbs_of n v)).
Proof.
  intros Hw Hn Hv. apply (mul_trunc_term Folded256Product w f v _ (64 * Z.of_nat n));
    [done|by apply limbs_of_value|done|lia|simpl; lia].
Qed.

(** ** The tiers discharge the interface *)

Lemma in_u8_u64 v : in_u 8 v -> in_u 64 v.
Proof. unfold in_u. lia. Qed.
Lemma abs_s64 v : in_s 64 v -> in_u 64 (Z.abs v).
Proof. unfold in_u, in_s. lia. Qed.
Lemma abs_s128 v : in_s 128 v -> in_u 128 (Z.abs v).
Proof. unfold in_u, in_s. lia. Qed.
Lemma abs_mag k v : Z.abs v < 2 ^ k -> in_u k (Z.abs v).
Proof. unfold in_u. lia. Qed.
Lemma abs_160 v : Z.abs v < 2 ^ 160 -> 0 <= Z.abs v < 2 ^ (64 * Z.of_nat 3).
Proof. change (2 ^ (64 * Z.of_nat 3)) with (2 ^ 192). lia. Qed.

Lemma word_bool w n c x a f b :
  (4 <= w)%nat -> word_holds w n c x a -> n < 2 ^ 64 ->
  word_holds w (n + 1) (c + Z.abs (b2z b)) (add x (mul f (from_u64 (b2z b))))
    (if b then add_lanes a (to_unreduced f) else a).
Proof. intros Hw Ha Hn. destruct b; [apply word_term; [done|by apply term_unreduced|done]|by apply word_skip]. Qed.

Lemma word_unsigned w n c x a f v t :
  word_holds w n c x a -> n < 2 ^ 64 -> is_term w f v t ->
  word_holds w (n + 1) (c + Z.abs v) (add x (mul f (from_u64 v))) (if v =? 0 then a else add_lanes a t).
Proof.
  intros Ha Hn Ht. pose proof (proj1 Ht). destruct (Z.eqb_spec v 0) as [->|Hv]; [by apply word_skip|].
  rewrite Z.abs_eq by done. by apply word_term.
Qed.

Lemma signed_bool w n c x pos neg f b :
  (4 <= w)%nat -> signed_holds w n c x pos neg -> n < 2 ^ 64 ->
  signed_holds w (n + 1) (c + Z.abs (b2z b)) (add x (mul f (from_u64 (b2z b))))
    (if b then add_lanes pos (to_unreduced f) else pos) neg.
Proof.
  intros Hw Ha Hn. destruct b; [|by apply signed_skip].
  apply (signed_term w n c x pos neg f 1 (to_unreduced f)); [done|by apply term_unreduced|done|cbn; lia].
Qed.

(** An unsigned scalar goes to the positive word. *)
Lemma signed_unsigned w n c x pos neg f v t :
  signed_holds w n c x pos neg -> n < 2 ^ 64 -> is_term w f v t ->
  signed_holds w (n + 1) (c + Z.abs v) (add x (mul f (from_u64 v))) (if v =? 0 then pos else add_lanes pos t) neg.
Proof.
  intros Ha Hn Ht. pose proof (proj1 Ht). destruct (Z.eqb_spec v 0) as [->|Hv]; [by apply signed_skip|].
  apply (signed_term w n c x pos neg f v t); [done|by rewrite Z.abs_eq by done|done|lia].
Qed.

(** A signed scalar goes to the word of its sign. *)
Lemma signed_signed w n c x pos neg f v t :
  signed_holds w n c x pos neg -> n < 2 ^ 64 -> is_term w f (Z.abs v) t ->
  signed_holds w (n + 1) (c + Z.abs v) (add x (mul f (from_u64 v)))
    (if v =? 0 then pos else if 0 <? v then add_lanes pos t else pos)
    (if v =? 0 then neg else if 0 <? v then neg else add_lanes neg t).
Proof.
  intros Ha Hn Ht. destruct (Z.eqb_spec v 0) as [->|Hv]; [by apply signed_skip|].
  destruct (signed_term w n c x pos neg f v t Ha Ht Hn) as [Hp Hq].
  destruct (Z.ltb_spec 0 v); [by apply Hp|by apply Hq].
Qed.

Lemma barrett_signed s n c x pos neg (red : Folded -> F) :
  slots s = out_limbs s -> (4 <= out_limbs s)%nat -> signed_holds (slots s) n c x pos neg -> c <= budget s ->
  (forall y, red y = from_barrett_reduce (normalize_slots s y)) ->
  match cmp s pos neg with
  | Lt => opp (red (sub_folded s neg pos))
  | _ => red (sub_folded s pos neg)
  end = mul x one.
Proof.
  intros Hs H4 Ha Hc Hred. rewrite (reduce_signed s red R_inv n c x) by
    (try done; intros; rewrite Hred; by apply barrett_reduces). rewrite unscale. ring.
Qed.

(** Splits an [fmadd] of a supported scalar into its cases and closes each with
    the matching word lemma. *)
Ltac term_case :=
  solve [ apply term_u64; [lia|]; eauto using in_u8_u64, abs_s64, abs_mag
        | apply term_u128; [lia|]; eauto using abs_s128, abs_mag
        | apply term_accum_mag; [lia|lia|]; first [by apply abs_160|by apply abs_mag]
        | apply term_product_mag; [lia|lia|]; first [by apply abs_160|by apply abs_mag] ].
Ltac by_word lem :=
  let Hw := fresh "Hw" in
  pose proof lem as Hw;
  repeat match goal with |- context [if ?b then _ else _] => destruct b end; exact Hw.
Ltac fmadd_case :=
  match goal with
  | H : Some _ = Some _ |- _ => injection H as <-
  | H : None = Some _ |- _ => discriminate H
  end.

#[export] Instance SmallAccumU_accumulator : Accumulator F SmallAccumU.
Proof.
  refine {| acc_zero := SmallAccumU_zero; acc_add := SmallAccumU_add; acc_fmadd := SmallAccumU_fmadd;
            acc_reduce := SmallAccumU_barrett_reduce; acc_scale := one; acc_budget := budget Folded256MulU64;
            holds n c x a := word_holds 5 n c x (SmallU_word a) |}.
  - apply (word_zero Folded256MulU64).
  - intros n m c d x y [a] [b]. apply word_add.
  - intros n c x [a] f v a' Ha Hok Hn Hv.
    destruct v as [b|v|v|v|v|v|v|v|v|v|v]; cbn [SmallAccumU_fmadd scalar_ok scalar_value SmallU_word] in *; fmadd_case;
      unfold SmallAccumU_fmadd_bool, SmallAccumU_fmadd_u8, SmallAccumU_fmadd_u64.
    + by_word (word_bool 5 n c x a f b ltac:(lia) Ha Hn).
    + by_word (word_unsigned 5 n c x a f v (mul_u64_unreduced f v) Ha Hn ltac:(term_case)).
    + by_word (word_unsigned 5 n c x a f v (mul_u64_unreduced f v) Ha Hn ltac:(term_case)).
  - intros n c x a Ha Hc. apply (barrett_word Folded256MulU64 n c); [done|cbn; lia|done|done].
Defined.

#[export] Instance SmallAccumS_accumulator : Accumulator F SmallAccumS.
Proof.
  refine {| acc_zero := SmallAccumS_zero; acc_add := SmallAccumS_add; acc_fmadd := SmallAccumS_fmadd;
            acc_reduce := SmallAccumS_barrett_reduce; acc_scale := one; acc_budget := budget Folded256MulU64;
            holds n c x a := signed_holds 5 n c x (SmallS_pos a) (SmallS_neg a) |}.
  - apply (signed_zero Folded256MulU64).
  - intros n m c d x y [a a'] [b b']. apply signed_add.
  - intros n c x [p q] f v a' Ha Hok Hn Hv.
    destruct v as [b|v|v|v|v|v|v|v|v|v|v]; cbn [SmallAccumS_fmadd scalar_ok scalar_value SmallS_pos SmallS_neg] in *; fmadd_case;
      unfold SmallAccumS_fmadd_bool, SmallAccumS_fmadd_u8, SmallAccumS_fmadd_u64, SmallAccumS_fmadd_i64.
    + by_word (signed_bool 5 n c x p q f b ltac:(lia) Ha Hn).
    + by_word (signed_unsigned 5 n c x p q f v (mul_u64_unreduced f v) Ha Hn ltac:(term_case)).
    + by_word (signed_unsigned 5 n c x p q f v (mul_u64_unreduced f v) Ha Hn ltac:(term_case)).
    + by_word (signed_signed 5 n c x p q f v (mul_u64_unreduced f (Z.abs v)) Ha Hn ltac:(term_case)).
  - intros n c x a Ha Hc. apply (barrett_signed Folded256MulU64 n c); [done|cbn; lia|done|done|reflexivity].
Defined.

#[export] Instance MedAccumU_accumulator : Accumulator F MedAccumU.
Proof.
  refine {| acc_zero := MedAccumU_zero; acc_add := MedAccumU_add; acc_fmadd := MedAccumU_fmadd;
            acc_reduce := MedAccumU_barrett_reduce; acc_scale := one; acc_budget := budget Folded256MulU128;
            holds n c x a := word_holds 6 n c x (MedU_word a) |}.
  - apply (word_zero Folded256MulU128).
  - intros n m c d x y [a] [b]. apply word_add.
  - intros n c x [a] f v a' Ha Hok Hn Hv.
    destruct v as [b|v|v|v|v|v|v|v|v|v|v]; cbn [MedAccumU_fmadd scalar_ok scalar_value MedU_word] in *; fmadd_case;
      unfold MedAccumU_fmadd_u64, MedAccumU_fmadd_u8, MedAccumU_fmadd_bool.
    + by_word (word_bool 6 n c x a f b ltac:(lia) Ha Hn).
    + by_word (word_unsigned 6 n c x a f v (mul_u64_unreduced f v) Ha Hn ltac:(term_case)).
    + by_word (word_unsigned 6 n c x a f v (mul_u64_unreduced f v) Ha Hn ltac:(term_case)).
  - intros n c x a Ha Hc. apply (barrett_word Folded256MulU128 n c); [done|cbn; lia|done|done].
Defined.

#[export] Instance MedAccumS_accumulator : Accumulator F MedAccumS.
Proof.
  refine {| acc_zero := MedAccumS_zero; acc_add := MedAccumS_add; acc_fmadd := MedAccumS_fmadd;
            acc_reduce := MedAccumS_barrett_reduce; acc_scale := one; acc_budget := budget Folded256MulU128;
            holds n c x a := signed_holds 6 n c x (MedS_pos a) (MedS_neg a) |}.
  - apply (signed_zero Folded256MulU128).
  - intros n m c d x y [a a'] [b b']. apply signed_add.
  - intros n c x [p q] f v a' Ha Hok Hn Hv.
    destruct v as [b|v|v|v|v|v|v|v|v|v|v]; cbn [MedAccumS_fmadd scalar_ok scalar_value MedS_pos MedS_neg] in *; fmadd_case;
      unfold MedAccumS_fmadd_i128, MedAccumS_fmadd_bool, MedAccumS_fmadd_u8, MedAccumS_fmadd_u64, MedAccumS_fmadd_s64.
    + by_word (signed_bool 6 n c x p q f b ltac:(lia) Ha Hn).
    + by_word (signed_unsigned 6 n c x p q f v (mul_u64_unreduced f v) Ha Hn ltac:(term_case)).
    + by_word (signed_unsigned 6 n c x p q f v (mul_u64_unreduced f v) Ha Hn ltac:(term_case)).
    + by_word (signed_signed 6 n c x p q f v (mul_u128_unreduced f (Z.abs v)) Ha Hn ltac:(term_case)).
    + by_word (signed_signed 6 n c x p q f v (mul_u64_unreduced f (Z.abs v)) Ha Hn ltac:(term_case)).
  - intros n c x a Ha Hc. apply (barrett_signed Folded256MulU128 n c); [done|cbn; lia|done|done|reflexivity].
Defined.

#[export] Instance WideAccumU_accumulator : Accumulator F WideAccumU.
Proof.
  refine {| acc_zero := WideAccumU_zero; acc_add := WideAccumU_add; acc_fmadd := WideAccumU_fmadd;
            acc_reduce := WideAccumU_barrett_reduce; acc_scale := one; acc_budget := budget Folded256MulU128Accum;
            holds n c x a := word_holds 7 n c x (WideU_word a) |}.
  - apply (word_zero Folded256MulU128Accum).
  - intros n m c d x y [a] [b]. apply word_add.
  - intros n c x [a] f v a' Ha Hok Hn Hv.
    destruct v as [b|v|v|v|v|v|v|v|v|v|v]; cbn [WideAccumU_fmadd scalar_ok scalar_value WideU_word] in *; fmadd_case;
      unfold WideAccumU_fmadd_u128.
    + by_word (word_unsigned 7 n c x a f v (mul_u128_unreduced f v) Ha Hn ltac:(term_case)).
  - intros n c x a Ha Hc. apply (barrett_word Folded256MulU128Accum n c); [done|cbn; lia|done|done].
Defined.

#[export] Instance WideAccumS_accumulator : Accumulator F WideAccumS.
Proof.
  refine {| acc_zero := WideAccumS_zero; acc_add := WideAccumS_add; acc_fmadd := WideAccumS_fmadd;
            acc_reduce := WideAccumS_barrett_reduce; acc_scale := one; acc_budget := budget Folded256MulU128Accum;
            holds n c x a := signed_holds 7 n c x (WideS_pos a) (WideS_neg a) |}.
  - apply (signed_zero Folded256MulU128Accum).
  - intros n m c d x y [a a'] [b b']. apply signed_add.
  - intros n c x [p q] f v a' Ha Hok Hn Hv.
    destruct v as [b|v|v|v|v|v|v|v|v|v|v]; cbn [WideAccumS_fmadd scalar_ok scalar_value WideS_pos WideS_neg] in *; fmadd_case;
      unfold WideAccumS_fmadd_i128, WideAccumS_fmadd_s64, WideAccumS_fmadd_s128, WideAccumS_fmadd_s160, WideAccumS_fmadd_s192.
    + by_word (signed_signed 7 n c x p q f v (mul_u128_unreduced f (Z.abs v)) Ha Hn ltac:(term_case)).
    + by_word (signed_signed 7 n c x p q f v (mul_u64_unreduced f (Z.abs v)) Ha Hn ltac:(term_case)).
    + by_word (signed_signed 7 n c x p q f v (mul_u128_unreduced f (Z.abs v)) Ha Hn ltac:(term_case)).
    + by_word (signed_signed 7 n c x p q f v (mul_to_accum_mag f (limbs_of 3 (Z.abs v))) Ha Hn ltac:(term_case)).
    + by_word (signed_signed 7 n c x p q f v (mul_to_accum_mag f (limbs_of 3 (Z.abs v))) Ha Hn ltac:(term_case)).
  - intros n c x a Ha Hc. apply (barrett_signed Folded256MulU128Accum n c); [done|cbn; lia|done|done|reflexivity].
Defined.

#[export] Instance FullAccumS_accumulator : Accumulator F FullAccumS.
Proof.
  refine {| acc_zero := FullAccumS_zero; acc_add := FullAccumS_add; acc_fmadd := FullAccumS_fmadd;
            acc_reduce := FullAccumS_montgomery_reduce; acc_scale := R_inv; acc_budget := budget Folded256Product;
            holds n c x a := signed_holds 8 n c x (FullS_pos a) (FullS_neg a) |}.
  - apply (signed_zero Folded256Product).
  - intros n m c d x y [a a'] [b b']. apply signed_add.
  - intros n c x [p q] f v a' Ha Hok Hn Hv.
    destruct v as [b|v|v|v|v|v|v|v|v|v|v]; cbn [FullAccumS_fmadd scalar_ok scalar_value FullS_pos FullS_neg] in *; fmadd_case;
      unfold FullAccumS_fmadd_s128, FullAccumS_fmadd_s192, FullAccumS_fmadd_s256.
    + by_word (signed_signed 8 n c x p q f v (mul_u128_unreduced f (Z.abs v)) Ha Hn ltac:(term_case)).
    + by_word (signed_signed 8 n c x p q f v (mul_to_product_mag f (limbs_of 3 (Z.abs v))) Ha Hn ltac:(term_case)).
    + by_word (signed_signed 8 n c x p q f v (mul_to_product_mag f (limbs_of 4 (Z.abs v))) Ha Hn ltac:(term_case)).
  - intros n c x a Ha Hc. unfold FullAccumS_montgomery_reduce.
    rewrite (reduce_signed Folded256Product reduce_product (mul R_inv R_inv) n c x) by
      (try done; try (cbn; lia); intros; by apply montgomery_reduces).
    transitivity (mul (mul (mul x R) R_inv) R_inv); [ring|]. by rewrite unscale.
Defined.
End Words.

(** ** Accumulated dot products *)

Section Dot.
Context {F A : Type} `{HA : Accumulator F A}.

(** [for (f, v) in terms { acc.fmadd(f, v) }]; [None] where the tier has no impl
    for the scalar's type. *)
Definition fmadd_all (terms : list (F * Scalar)) (acc : A) : option A :=
  fold_left (fun acc '(f, v) => match acc with Some a => acc_fmadd a f v | None => None end) terms (Some acc).
(** The dot product of the field and the scalars, and the magnitude it spends. *)
Definition dot_scalars (terms : list (F * Scalar)) : F :=
  fold_left (fun s '(f, v) => add s (mul f (from_u64 (scalar_value v)))) terms zero.
Definition spent (terms : list (F * Scalar)) : Z :=
  fold_left (fun s '(f, v) => s + Z.abs (scalar_value v)) terms 0.

Lemma fmadd_none terms : fold_left (fun (acc : option A) '(f, v) => match acc with Some a => acc_fmadd a f v | None => None end)
  terms None = None.
Proof. induction terms as [|[f v] l IH]; [done|exact IH]. Qed.

Lemma fmadd_all_holds terms n c x acc acc' :
  holds n c x acc -> Forall (fun '(_, v) => scalar_ok v) terms -> n + Z.of_nat (length terms) <= 2 ^ 64 ->
  fmadd_all terms acc = Some acc' ->
  holds (n + Z.of_nat (length terms)) (fold_left (fun s '(_, v) => s + Z.abs (scalar_value v)) terms c)
    (fold_left (fun s '(f, v) => add s (mul f (from_u64 (scalar_value v)))) terms x) acc'.
Proof.
  unfold fmadd_all. revert n c x acc. induction terms as [|[f v] terms IH]; intros n c x acc Ha Hok Hn Hf; cbn [fold_left length] in *.
  { injection Hf as <-. by rewrite Z.add_0_r. }
  apply list.Forall_cons in Hok as [Hv Hok]. destruct (acc_fmadd acc f v) as [a1|] eqn:He; [|by rewrite fmadd_none in Hf].
  pose proof (holds_fmadd n c x acc f v a1 Ha Hv ltac:(lia) He) as Ha1.
  replace (n + Z.of_nat (S (length terms))) with (n + 1 + Z.of_nat (length terms)) by lia.
  eapply IH; [exact Ha1|done|lia|done].
Qed.
End Dot.

(** The constants of [impl JoltField for ark_bn254::Fr] are transmuted limbs of
    [R] and [R^2]: as field elements they are [1] and [R]. *)
Definition is_MONTGOMERY_R {F} `{MontField F} (e : F) : Prop :=
  from_u64 (limbs_value (mont e)) = (from_u64 (2 ^ 256) : F).
Definition is_MONTGOMERY_R_SQUARE {F} `{MontField F} (e : F) : Prop :=
  from_u64 (limbs_value (mont e)) = (from_u64 (2 ^ 256 * 2 ^ 256) : F).
Lemma montgomery_constants {F} `{HM : MontField F} (e e2 : F) :
  is_MONTGOMERY_R e -> is_MONTGOMERY_R_SQUARE e2 -> e = one /\ e2 = from_u64 (2 ^ 256).
Proof.
  unfold is_MONTGOMERY_R, is_MONTGOMERY_R_SQUARE. rewrite !mont_value, from_u64_mul. intros H1 H2. split.
  - rewrite <- (unscale e), H1, R_inv_spec. reflexivity.
  - rewrite <- (unscale e2), H2. apply unscale.
Qed.

(** [for (f, v) in terms { acc.fmadd(f, v) }] for the [fmadd] of a tier. *)
Definition accumulate {F A : Type} (fmadd : A -> F -> Scalar -> option A) (terms : list (F * Scalar)) (acc : A) : option A :=
  fold_left (fun acc '(f, v) => match acc with Some a => fmadd a f v | None => None end) terms (Some acc).

Lemma tier_exact {F A : Type} `{HA : Accumulator F A} (terms : list (F * Scalar)) acc :
  Forall (fun '(_, v) => scalar_ok v) terms -> Z.of_nat (length terms) <= 2 ^ 64 ->
  accumulate acc_fmadd terms acc_zero = Some acc -> spent terms <= acc_budget ->
  acc_reduce acc = mul (dot_scalars terms) acc_scale.
Proof.
  intros Hok Hn Hf Hc. eapply holds_reduce; [|exact Hc].
  apply (fmadd_all_holds terms 0 0 zero acc_zero acc holds_zero Hok ltac:(lia) Hf).
Qed.

Section Tiers.
Context {F : Type} `{HM : MontField F}.
Add Ring Ftiers : (@field_ring F _ _).
Lemma mul_one_r x : mul x one = x :> F.
Proof. ring. Qed.

(** C22: the seven accumulator tiers are exact: start one at zero and feed it any
    field elements with scalars of the types it implements, in their ranges, at
    most [2^64] of them.  The six tiers with a Barrett reduction reduce to the dot
    product of the field elements with the scalars, as long as the magnitudes of
    the scalars add up to at most [2^66] for the small tiers, [2^130] for the
    medium and [2^194] for the wide ones; [FullAccumS], whose reduction is
    Montgomery's, reduces up to [2^258] to the dot product times the inverse of
    [R = 2^256], which the field constant [MONTGOMERY_R_SQUARE] makes up for. *)
Theorem accumulated_dot_product (terms : list (F * Scalar)) :
  Forall (fun '(_, v) => scalar_ok v) terms -> Z.of_nat (length terms) <= 2 ^ 64 ->
  (forall acc, accumulate SmallAccumU_fmadd terms SmallAccumU_zero = Some acc -> spent terms <= 2 ^ 66 ->
     SmallAccumU_barrett_reduce acc = dot_scalars terms) /\
  (forall acc, accumulate SmallAccumS_fmadd terms SmallAccumS_zero = Some acc -> spent terms <= 2 ^ 66 ->
     SmallAccumS_barrett_reduce acc = dot_scalars terms) /\
  (forall acc, accumulate MedAccumU_fmadd terms MedAccumU_zero = Some acc -> spent terms <= 2 ^ 130 ->
     MedAccumU_barrett_reduce acc = dot_scalars terms) /\
  (forall acc, accumulate MedAccumS_fmadd terms MedAccumS_zero = Some acc -> spent terms <= 2 ^ 130 ->
     MedAccumS_barrett_reduce acc = dot_scalars terms) /\
  (forall acc, accumulate WideAccumU_fmadd terms WideAccumU_zero = Some acc -> spent terms <= 2 ^ 194 ->
     WideAccumU_barrett_reduce acc = dot_scalars terms) /\
  (forall acc, accumulate WideAccumS_fmadd terms WideAccumS_zero = Some acc -> spent terms <= 2 ^ 194 ->
     WideAccumS_barrett_reduce acc = dot_scalars terms) /\
  (forall acc, accumulate FullAccumS_fmadd terms FullAccumS_zero = Some acc -> spent terms <= 2 ^ 258 ->
     FullAccumS_montgomery_reduce acc = mul (dot_scalars terms) R_inv /\
     forall r2, is_MONTGOMERY_R_SQUARE r2 -> mul r2 (FullAccumS_montgomery_reduce acc) = dot_scalars terms).
Proof.
  intros Hok Hn.
  assert (Hex : forall (A : Type) (HA : Accumulator F A) (acc : A), acc_scale = one -> accumulate acc_fmadd terms acc_zero = Some acc ->
    spent terms <= acc_budget -> acc_reduce acc = dot_scalars terms).
  { intros A HA acc Hs Hf Hc. by rewrite (tier_exact terms acc Hok Hn Hf Hc), Hs, mul_one_r. }
  split; [intros acc; by apply (Hex _ SmallAccumU_accumulator)|]. split; [intros acc; by apply (Hex _ SmallAccumS_accumulator)|].
  split; [intros acc; by apply (Hex _ MedAccumU_accumulator)|]. split; [intros acc; by apply (Hex _ MedAccumS_accumulator)|].
  split; [intros acc; by apply (Hex _ WideAccumU_accumulator)|]. split; [intros acc; by apply (Hex _ WideAccumS_accumulator)|].
  intros acc Hf Hc. pose proof (tier_exact (HA := FullAccumS_accumulator) terms acc Hok Hn Hf Hc) as E.
  split; [exact E|]. intros r2 Hr2. change (FullAccumS_montgomery_reduce acc) with (acc_reduce acc). rewrite E.
  change acc_scale with R_inv. rewrite <- (unscale (dot_scalars terms)).
  unfold is_MONTGOMERY_R_SQUARE in Hr2. rewrite mont_value, from_u64_mul in Hr2.
  rewrite <- (unscale r2), Hr2, !unscale. rewrite <- (unscale (dot_scalars terms)) at 2. ring.
Qed.
End Tiers.

Definition accum_terms : list (Fr * Scalar) :=
  [(Zmod.of_Z Fr_modulus 7, S64 (2 ^ 64 - 1)); (Zmod.of_Z Fr_modulus (-1), I128 (- 2 ^ 127));
   (Zmod.of_Z Fr_modulus 5, Bool true)].
Lemma accumulated_dot_product_witness :
  exists acc : MedAccumS, accumulate MedAccumS_fmadd accum_terms MedAccumS_zero = Some acc /\
    MedAccumS_barrett_reduce (F := Fr) acc = dot_scalars accum_terms /\
    Zmod.to_Z (dot_scalars accum_terms) = 7 * (2 ^ 64 - 1) + 2 ^ 127 + 5.
Proof.
  destruct (accumulated_dot_product accum_terms) as (_ & _ & _ & Hm & _).
  - repeat (constructor; [cbn; unfold in_s; (lia || exact I)|]). constructor.
  - vm_compute. discriminate.
  - destruct (accumulate MedAccumS_fmadd accum_terms MedAccumS_zero) as [acc|] eqn:E; [|vm_compute in E; discriminate E].
    exists acc. split; [reflexivity|]. split; [|clear; vm_compute; reflexivity]. apply (Hm acc eq_refl).
    clear. vm_compute. discriminate.
Defined.

(** ** Signed integer sums

    [S128Sum] and [S192Sum] accumulate [i32 * scalar] terms exactly, in the
    external [S128]/[S192]: [+=] keeps 128 or 192 bits of the magnitude. *)
Section IntegerSums.
Context `{SignedBigInt}.

Definition fmadd_i32_s64 (sum c v : Z) : Z :=
  if c =? 0 then sum else
  let limbs := Z.abs v in
  if limbs =? 0 then sum else
  let mag := as_u128 (limbs * Z.abs c) in
  let signed := as_i128 mag in
  let signed := if negb (Bool.eqb (0 <? v) (0 <=? c)) then as_i128 (- signed) else signed in
  add_trunc 128 sum signed.

Definition fmadd_i32_u64 (sum c v : Z) : Z :=
  if (c =? 0) || (v =? 0) then sum else
  let mag := as_u128 (v * Z.abs c) in
  let signed := if 0 <=? c then as_i128 mag else as_i128 (- as_i128 mag) in
  add_trunc 128 sum signed.

Definition S128Sum_new : Z := 0.
Definition S128Sum_is_zero (s : Z) : bool := s =? 0.
Definition S128Sum_add (s rhs : Z) : Z := add_trunc 128 s rhs.
Definition S128Sum_fmadd_bool (s left : Z) (right : bool) : Z :=
  if negb right then s else add_trunc 128 s left.
Definition S128Sum_fmadd_u64 (s left right : Z) : Z :=
  if right =? 0 then s else add_trunc 128 s (mul_trunc 2 left right).
Definition S128Sum_fmadd_s64 (s left right : Z) : Z :=
  if right =? 0 then s else add_trunc 128 s (mul_trunc 2 left right).

Definition S192Sum_zero : Z := 0.
Definition S192Sum_is_zero (s : Z) : bool := s =? 0.
Definition S192Sum_add (s rhs : Z) : Z := add_trunc 192 s rhs.
Definition S192Sum_fmadd_s64 (s c term : Z) : Z :=
  if term =? 0 then s else add_trunc 192 s (mul_trunc 3 c term).
Definition S192Sum_fmadd_i128 (s c term : Z) : Z :=
  if term =? 0 then s else add_trunc 192 s (mul_trunc 3 c term).
Definition S192Sum_fmadd_s160 (s c term : Z) : Z :=
  if term =? 0 then s else add_trunc 192 s (mul_trunc 3 c term).

Lemma mul_trunc_term_exact n k c v :
  in_s 32 c -> Z.abs v < 2 ^ k -> 0 <= k -> k + 31 <= 64 * Z.of_nat n -> mul_trunc n c v = c * v.
Proof.
  unfold in_s. intros Hc Hv Hk Hn. apply mul_trunc_exact. rewrite Z.abs_mul.
  apply Z.lt_le_trans with (2 ^ 31 * 2 ^ k); [nia|]. rewrite <- Z.pow_add_r by lia. apply Z.pow_le_mono_r; lia.
Qed.

(** The helpers are the exact fused multiply-add while the sum fits. *)
Lemma fmadd_i32_s64_exact sum c v :
  in_s 32 c -> Z.abs v < 2 ^ 64 -> Z.abs (sum + c * v) < 2 ^ 128 -> fmadd_i32_s64 sum c v = sum + c * v.
Proof.
  unfold in_s, fmadd_i32_s64. intros Hc Hv Hs. destruct (Z.eqb_spec c 0) as [->|Hc0]; [lia|].
  destruct (Z.eqb_spec (Z.abs v) 0) as [Hv0|Hv0]; [replace v with 0 by lia; lia|].
  rewrite (wrapu_small 128) by (unfold in_u; nia). rewrite (wraps_small 128 eq_refl (Z.abs v * Z.abs c)) by (unfold in_s; nia).
  assert (Hsg : (if negb (Bool.eqb (0 <? v) (0 <=? c)) then as_i128 (- (Z.abs v * Z.abs c)) else Z.abs v * Z.abs c) = c * v).
  { rewrite (wraps_small 128 eq_refl) by (unfold in_s; nia).
    destruct (Z.ltb_spec 0 v), (Z.leb_spec 0 c); cbn [Bool.eqb negb]; nia. }
  rewrite Hsg. by apply add_trunc_exact.
Qed.

Lemma fmadd_i32_u64_exact sum c v :
  in_s 32 c -> in_u 64 v -> Z.abs (sum + c * v) < 2 ^ 128 -> fmadd_i32_u64 sum c v = sum + c * v.
Proof.
  unfold in_s, in_u, fmadd_i32_u64. intros Hc Hv Hs. destruct (Z.eqb_spec c 0) as [->|Hc0]; [simpl; lia|].
  destruct (Z.eqb_spec v 0) as [->|Hv0]; [simpl; lia|]. cbn [orb].
  rewrite (wrapu_small 128) by (unfold in_u; nia).
  rewrite !(wraps_small 128 eq_refl (v * Z.abs c)) by (unfold in_s; nia).
  assert (Hsg : (if 0 <=? c then v * Z.abs c else as_i128 (- (v * Z.abs c))) = c * v).
  { rewrite (wraps_small 128 eq_refl) by (unfold in_s; nia). destruct (Z.leb_spec 0 c); nia. }
  rewrite Hsg. by apply add_trunc_exact.
Qed.

Lemma S128Sum_fmadd_bool_exact s c b :
  Z.abs (s + c * b2z b) < 2 ^ 128 -> S128Sum_fmadd_bool s c b = s + c * b2z b.
Proof. unfold S128Sum_fmadd_bool. destruct b; simpl; intros; [rewrite add_trunc_exact by lia|]; lia. Qed.
Lemma S128Sum_fmadd_u64_exact s c v :
  in_s 32 c -> Z.abs v < 2 ^ 64 -> Z.abs (s + c * v) < 2 ^ 128 -> S128Sum_fmadd_u64 s c v = s + c * v.
Proof.
  intros Hc Hv Hs. unfold S128Sum_fmadd_u64. destruct (Z.eqb_spec v 0) as [->|]; [lia|].
  rewrite (mul_trunc_term_exact 2 64) by (done || lia). by apply add_trunc_exact.
Qed.
Lemma S128Sum_fmadd_s64_exact s c v :
  in_s 32 c -> Z.abs v < 2 ^ 64 -> Z.abs (s + c * v) < 2 ^ 128 -> S128Sum_fmadd_s64 s c v = s + c * v.
Proof. apply S128Sum_fmadd_u64_exact. Qed.
Lemma S192Sum_fmadd_exact s c v :
  in_s 32 c -> Z.abs v < 2 ^ 160 -> Z.abs (s + c * v) < 2 ^ 192 ->
  S192Sum_fmadd_s64 s c v = s + c * v /\ S192Sum_fmadd_i128 s c v = s + c * v /\ S192Sum_fmadd_s160 s c v = s + c * v.
Proof.
  intros Hc Hv Hs. unfold S192Sum_fmadd_s64, S192Sum_fmadd_i128, S192Sum_fmadd_s160.
  destruct (Z.eqb_spec v 0) as [->|]; [lia|].
  rewrite (mul_trunc_term_exact 3 160) by (done || lia). rewrite add_trunc_exact by done. done.
Qed.
End IntegerSums.

