(* ===== verification/Poly.v ===== *)
(** * Poly: univariate polynomials by coefficients

    The reference semantics of the univariate code: a polynomial is the list of
    its coefficients, lowest first, over the field class of [Field]; powers,
    evaluation, and the weighted sums that interpolate.  [InverseField] adds to
    the field class what the code uses of a field's inverse and equality. *)
From S2P Require Import Prelude Field.
From Stdlib Require Import Ring Zmod.

Section Poly.
Context {F : Type} `{JoltField F}.
Add Ring Fring : (@field_ring F _ _).
#[local] Open Scope field_scope.

Fixpoint fpow (x : F) (n : nat) : F := match n with O => one | S n => x * fpow x n end.
Fixpoint eval_poly (c : list F) (x : F) : F :=
  match c with [] => zero | a :: c => a + x * eval_poly c x end.

Lemma from_u64_pow z n : from_u64 (z ^ Z.of_nat n) = fpow (from_u64 z) n.
Proof.
  induction n as [|n IH]; [apply from_u64_1|].
  rewrite Nat2Z.inj_succ, Z.pow_succ_r, from_u64_mul, IH by lia. done.
Qed.

(** ** Weighted sums *)

(** [Σ w_i * f(x_i)], for as long as both lists last. *)
Fixpoint weighted (w v : list F) : F :=
  match w, v with
  | a :: w, b :: v => a * b + weighted w v
  | _, _ => zero
  end.

Lemma weighted_add w (f g : Z -> F) xs :
  weighted w (map (fun x => f x + g x) xs) = weighted w (map f xs) + weighted w (map g xs).
Proof. revert w. induction xs as [|x xs IH]; intros [|a w]; cbn; try ring. rewrite IH. ring. Qed.
Lemma weighted_scale w k (f : Z -> F) xs : weighted w (map (fun x => k * f x) xs) = k * weighted w (map f xs).
Proof. revert w. induction xs as [|x xs IH]; intros [|a w]; cbn; try ring. rewrite IH. ring. Qed.

(** Weights that are right on the monomials of degrees [k .. n-1] are right on
    every polynomial of those degrees. *)
Lemma weights_linear w xs y n k c :
  (forall m, (k <= m < n)%nat -> weighted w (map (fun x => fpow (from_u64 x) m) xs) = fpow y m) ->
  (k + length c <= n)%nat ->
  weighted w (map (fun x => fpow (from_u64 x) k * eval_poly c (from_u64 x)) xs) = fpow y k * eval_poly c y.
Proof.
  revert k. induction c as [|a c IH]; intros k Hw Hl; cbn [eval_poly length] in *.
  { rewrite (map_ext _ (fun x => zero * zero)) by (intros; ring). rewrite (weighted_scale w zero (fun _ => zero)). ring. }
  rewrite (map_ext _ (fun x => a * fpow (from_u64 x) k + fpow (from_u64 x) (S k) * eval_poly c (from_u64 x))) by
    (intros x; cbn; ring).
  rewrite weighted_add, weighted_scale, Hw, (IH (S k)) by (intros; first [apply Hw|idtac]; lia).
  cbn. ring.
Qed.
End Poly.

(** ** Integer weights *)

Definition weighted_Z (w v : list Z) : Z := weighted (F := Z) w v.
(** The weights [w] extrapolate from [xs] to [y] the monomials below [n]. *)
Definition monomials_ok (n : nat) (w xs : list Z) (y : Z) : bool :=
  forallb (fun m => weighted_Z w (map (fun x => x ^ Z.of_nat m) xs) =? y ^ Z.of_nat m) (seq 0 n).

Section Transport.
Context {F : Type} `{JoltField F}.
Add Ring Fring2 : (@field_ring F _ _).

Lemma weighted_from w v : weighted (map from_u64 w) (map from_u64 v) = (from_u64 (weighted_Z w v) : F).
Proof.
  revert v. induction w as [|a w IH]; intros [|b v]; cbn [map weighted]; try (symmetry; apply from_u64_0).
  rewrite IH, <- from_u64_mul, <- from_u64_add. done.
Qed.

(** They extrapolate every polynomial of degree below [n], in any field. *)
Lemma weights_extrapolate n w xs y (c : list F) :
  monomials_ok n w xs y = true -> (length c <= n)%nat ->
  weighted (map from_u64 w) (map (fun x => eval_poly c (from_u64 x)) xs) = eval_poly c (from_u64 y).
Proof.
  intros Hm Hl. unfold monomials_ok in Hm. rewrite forallb_forall in Hm.
  rewrite (map_ext (fun x => eval_poly c (from_u64 x)) (fun x => mul (fpow (from_u64 x) 0) (eval_poly c (from_u64 x))))
    by (intros; cbn [fpow]; ring).
  rewrite (weights_linear (map from_u64 w) xs (from_u64 y) n 0 c); [cbn [fpow]; ring| |done].
  intros m Hlt. rewrite <- from_u64_pow. specialize (Hm m ltac:(apply in_seq; lia)). apply Z.eqb_eq in Hm. rewrite <- Hm.
  rewrite <- weighted_from. f_equal. rewrite map_map. apply map_ext. intros. by rewrite from_u64_pow.
Qed.
End Transport.

(** ** Passes that never fail *)

Lemma mapM_all {A B} (f : A -> option B) (g : A -> B) l :
  (forall x, In x l -> f x = Some (g x)) -> mapM f l = Some (map g l).
Proof.
  induction l as [|x l IH]; intros Hf; [done|]. cbn [mapM]. rewrite Hf by (by left). cbn [mbind option_bind].
  rewrite IH by (intros y Hy; apply Hf; by right). done.
Qed.

(** ** Vectors of field elements, read by index *)

Section Cells.
Context {F : Type} {ops : FieldOps F}.

Definition at0 (l : list F) (i : nat) : F := nth i l zero.

Lemma at0_insert (l : list F) i j v : (i < length l)%nat ->
  at0 (<[i := v]> l) j = if (j =? i)%nat then v else at0 l j.
Proof.
  unfold at0. intros Hi. rewrite !nth_lookup. destruct (Nat.eqb_spec j i) as [->|Hne].
  - by rewrite list_lookup_insert_eq.
  - by rewrite list_lookup_insert_ne.
Qed.

Lemma loop_length (n : nat) (body : nat -> list F -> list F) l :
  (forall i l, length (body i l) = length l) -> length (loop n body l) = length l.
Proof. intros Hb. induction n as [|n IH]; [done|]. by rewrite loop_S_r, Hb. Qed.

(** A pass downward: cell [i] is written from its value and its left neighbour's,
    neither yet rewritten. *)
Lemma down_pass (g : F -> F -> F) a n (l : list F) j : (1 <= a)%nat -> (n <= length l)%nat ->
  at0 (loop (n - a) (fun t l => let i := (n - 1 - t)%nat in <[i := g (at0 l i) (at0 l (i - 1))]> l) l) j =
  if ((a <=? j) && (j <? n))%nat then g (at0 l j) (at0 l (j - 1)) else at0 l j.
Proof.
  intros Ha Hn.
  assert (Hm : forall m j, (m <= n - a)%nat ->
    at0 (loop m (fun t l => let i := (n - 1 - t)%nat in <[i := g (at0 l i) (at0 l (i - 1))]> l) l) j =
    if ((n - m <=? j) && (j <? n))%nat then g (at0 l j) (at0 l (j - 1)) else at0 l j).
  { clear j. induction m as [|m IH]; intros j Hm.
    - destruct (Nat.leb_spec (n - 0) j), (Nat.ltb_spec j n); (done || lia).
    - rewrite loop_S_r. cbv zeta. rewrite at0_insert.
      2:{ rewrite loop_length; [lia|]. intros. apply length_insert. }
      rewrite !IH by lia. destruct (Nat.eqb_spec j (n - 1 - m)) as [->|Hne].
      + destruct (Nat.leb_spec (n - m) (n - 1 - m)); [lia|]. destruct (Nat.leb_spec (n - m) (n - 1 - m - 1)); [lia|].
        destruct (Nat.leb_spec (n - S m) (n - 1 - m)); [|lia]. destruct (Nat.ltb_spec (n - 1 - m) n); [done|lia].
      + destruct (Nat.leb_spec (n - m) j), (Nat.leb_spec (n - S m) j), (Nat.ltb_spec j n); cbn [andb]; (done || lia). }
  rewrite Hm by lia. destruct (Nat.le_gt_cases a n) as [Hle|Hgt]; [by replace (n - (n - a))%nat with a by lia|].
  destruct (Nat.leb_spec (n - (n - a)) j), (Nat.leb_spec a j), (Nat.ltb_spec j n); (done || lia).
Qed.

(** A pass upward that only reads the cell it writes. *)
Lemma up_pass (g : nat -> F -> F) a n (l : list F) j : (a + n <= length l)%nat ->
  at0 (loop n (fun t l => let i := (a + t)%nat in <[i := g t (at0 l i)]> l) l) j =
  if ((a <=? j) && (j <? a + n))%nat then g (j - a)%nat (at0 l j) else at0 l j.
Proof.
  cbv zeta. induction n as [|n IH]; intros Hn.
  - destruct (Nat.leb_spec a j), (Nat.ltb_spec j (a + 0)); (done || lia).
  - rewrite loop_S_r, at0_insert by (rewrite loop_length; [lia|intros; apply length_insert]).
    destruct (Nat.eqb_spec j (a + n)) as [->|Hne].
    + rewrite IH by lia. destruct (Nat.ltb_spec (a + n) (a + n)); [lia|]. rewrite andb_false_r.
      destruct (Nat.leb_spec a (a + n)); [|lia]. destruct (Nat.ltb_spec (a + n) (a + S n)); [|lia].
      cbn [andb]. f_equal. lia.
    + rewrite IH by lia. destruct (Nat.leb_spec a j), (Nat.ltb_spec j (a + n)), (Nat.ltb_spec j (a + S n)); cbn [andb]; (done || lia).
Qed.

Lemma at0_ext (a b : list F) : length a = length b -> (forall j, (j < length a)%nat -> at0 a j = at0 b j) -> a = b.
Proof. intros Hl He. apply (nth_ext a b zero zero Hl He). Qed.
End Cells.

(** ** Finite sums *)

Section Sums.
Context {F : Type} `{HF : JoltField F}.
Add Ring Fring4 : (@field_ring F _ HF).
#[local] Open Scope field_scope.

Definition sumF (n : nat) (f : nat -> F) : F := fold_right add zero (map f (seq 0 n)).

Lemma fold_add_snoc (l : list F) a : fold_right add zero (l ++ [a]) = fold_right add zero l + a.
Proof. induction l as [|b l IH]; cbn; [ring|]. rewrite IH. ring. Qed.
Lemma sumF_S n f : sumF (S n) f = sumF n f + f n.
Proof. unfold sumF. rewrite seq_S, map_app. apply fold_add_snoc. Qed.
Lemma sumF_ext n f g : (forall i, (i < n)%nat -> f i = g i) -> sumF n f = sumF n g.
Proof.
  intros Hfg. unfold sumF. f_equal. apply map_ext_in. intros i [_ Hi]%in_seq. apply Hfg. lia.
Qed.
Lemma sumF_scale n c f : sumF n (fun i => c * f i) = c * sumF n f.
Proof. induction n as [|n IH]; [cbn; ring|]. rewrite !sumF_S, IH. ring. Qed.
Lemma sumF_add n f g : sumF n (fun i => f i + g i) = sumF n f + sumF n g.
Proof. induction n as [|n IH]; [cbn; ring|]. rewrite !sumF_S, IH. ring. Qed.
Lemma sumF_app a b f : sumF (a + b) f = sumF a f + sumF b (fun i => f (a + i)%nat).
Proof.
  induction b as [|b IH]; [rewrite Nat.add_0_r; cbn; ring|]. rewrite Nat.add_succ_r, !sumF_S, IH. ring.
Qed.
(** A sum over a product of ranges, row by row. *)
Lemma sumF_rows a b f : sumF (a * b) f = sumF a (fun i => sumF b (fun j => f (i * b + j)%nat)).
Proof.
  induction a as [|a IH]; [done|]. rewrite sumF_S, <- IH, <- sumF_app. f_equal. lia.
Qed.
End Sums.

(** ** Inverses *)

(** [inverse] of the trait [JoltField] ([None] for zero), [==], and the
    constants [two_inv] and [six_inv] the code precomputes. *)
Class InverseField (F : Type) `{JoltField F} := {
  field_eq_dec :: EqDecision F;
  inverse : F -> option F;
  inverse_some x y : inverse x = Some y -> mul x y = one;
  inverse_none x : inverse x = None <-> x = zero;
  one_neq_zero : one <> (zero : F)
}.

Section Inverse.
Context {F : Type} `{HI : InverseField F}.
Add Ring Fring3 : (@field_ring F _ _).

Lemma inverse_nonzero x : x <> zero -> exists y, inverse x = Some y /\ mul x y = one.
Proof.
  intros Hx. destruct (inverse x) as [y|] eqn:E; [exists y; split; [done|by apply inverse_some]|].
  by apply inverse_none in E.
Qed.

Lemma mul_cancel x y z : x <> zero -> mul x y = mul x z -> y = z.
Proof.
  intros Hx E. destruct (inverse_nonzero x Hx) as (i & _ & Hi).
  transitivity (mul (mul x y) i); [transitivity (mul y (mul x i)); [rewrite Hi; ring|ring]|].
  rewrite E. transitivity (mul z (mul x i)); [ring|]. rewrite Hi. ring.
Qed.
Lemma mul_zero x y : mul x y = zero -> x = zero \/ y = zero.
Proof.
  intros E. destruct (decide (x = zero)) as [->|Hx]; [by left|right].
  apply (mul_cancel x); [done|]. rewrite E. ring.
Qed.
Lemma inverse_one : inverse one = Some one.
Proof.
  destruct (inverse_nonzero one one_neq_zero) as (y & Hy & E). rewrite Hy. f_equal.
  transitivity (mul one y); [ring|done].
Qed.
End Inverse.

(** A small prime field, for examples. *)
Definition F97 : Type := Zmod 97.
#[export] Instance F97Ops : FieldOps F97 :=
  {| zero := Zmod.zero; one := Zmod.one; Field.add := Zmod.add; Field.mul := Zmod.mul;
     Field.sub := Zmod.sub; opp := Zmod.opp; from_u64 := Zmod.of_Z 97 |}.
#[export] Instance F97Field : JoltField F97.
Proof.
  split; [exact (Zmod.ring_theory 97)|reflexivity|reflexivity|intros; apply Zmod.of_Z_add|intros; apply Zmod.of_Z_mul].
Qed.

(** Its inverses, by search. *)
Definition F97_inverse (x : F97) : option F97 :=
  find (fun y => Z.eqb (Zmod.to_Z (Zmod.mul x y)) 1) (map (Zmod.of_Z 97) (seqZ 0 97)).
#[export] Instance F97Inverse : InverseField F97.
Proof.
  assert (Hd : EqDecision F97).
  { intros x y. destruct (Z.eq_dec (Zmod.to_Z x) (Zmod.to_Z y)) as [E|E]; [left; by apply Zmod.to_Z_inj|right; by intros ->]. }
  refine {| field_eq_dec := Hd; inverse := F97_inverse |}.
  - intros x y E. apply find_some in E as [_ E]. apply Z.eqb_eq in E. by apply Zmod.to_Z_inj.
  - assert (Hall : forallb (fun z => match F97_inverse (Zmod.of_Z 97 z) with Some _ => true | None => z =? 0 end) (seqZ 0 97) = true)
      by (vm_compute; reflexivity).
    intros x. split; [|intros ->; vm_compute; reflexivity].
    intros E. rewrite forallb_forall in Hall. specialize (Hall (Zmod.to_Z x)).
    rewrite Zmod.of_Z_to_Z, E in Hall. apply Zmod.to_Z_inj. change (Zmod.to_Z (zero : F97)) with 0.
    apply Z.eqb_eq, Hall. apply list_elem_of_In, elem_of_seqZ. pose proof (Zmod.unsigned_pos_bound x ltac:(reflexivity)). lia.
  - intros E. apply (f_equal Zmod.to_Z) in E. vm_compute in E. discriminate.
Defined.
