(* ===== verification/LagrangeHelper.v ===== *)
(** * LagrangeHelper: integer tables of the univariate skip

    [LagrangeHelper] of [jolt-core/src/poly/lagrange_poly.rs], [uniskip_targets]
    of [jolt-core/src/subprotocols/univariate_skip.rs] and the constant tables
    of [jolt-core/src/zkvm/r1cs/evaluation.rs].  They are [const fn]s; the
    generic parameter [N] is an argument.  An array that starts at zero and is
    filled by a loop is a list.  The base window of size [N] is the [N]
    consecutive integers from [-((N - 1) / 2)]. *)
From S2P Require Import Prelude Field Poly.

(** [a / b] of Rust on signed integers rounds to zero. *)
Abbreviation quot := Z.quot.

(** [while i < n { s = body i s }] from [i = 0], as [loop]. *)
Definition binomial_coeff (n k : nat) : Z :=
  let kk := if (k <=? n - k)%nat then k else (n - k)%nat in
  as_u64 (loop kk (fun i res =>
    let num := Z.of_nat (n - i) in let den := Z.of_nat (i + 1) in
    quot (as_u128 (res * num)) den) 1).

Definition fact (n : nat) : Z :=
  fold_left (fun acc i => as_u64 (acc * Z.of_nat i)) (seq 2 (n - 1)) 1.
Definition FACT_U64_0_TO_20 : list Z := map fact (seq 0 21).

(** [None] where the table of factorials is indexed out of range. *)
Definition den_row_i64 (n : nat) : option (list Z) :=
  mapM (fun i => a ← FACT_U64_0_TO_20 !! i; b ← FACT_U64_0_TO_20 !! (n - 1 - i)%nat;
    let v := as_i128 (a * b) in
    let v := if Nat.odd (n - 1 - i) then as_i128 (- v) else v in
    Some (as_i64 v)) (seq 0 n).

(** The product [tt (tt - 1) .. (tt - k + 1)] over [k!]. *)
Definition falling_quotient (tt : Z) (k : nat) : Z :=
  let '(num, den) := loop k (fun j '(num, den) =>
    (as_i128 (num * (tt - Z.of_nat j)), as_i128 (den * (Z.of_nat j + 1)))) (1, 1) in
  as_i128 (quot num den).

Definition generalized_binomial (t : Z) (k : nat) : Z :=
  match k with
  | O => 1
  | _ =>
      if 0 <=? t then
        if t <? Z.of_nat k then 0 else falling_quotient t k
      else
        let sign := if Nat.odd k then -1 else 1 in
        let tt := as_i64 (- t) + Z.of_nat k - 1 in
        as_i128 (sign * falling_quotient tt k)
  end.

Definition shift_coeff (n : nat) (shift : Z) (i : nat) : Z :=
  let s1 := generalized_binomial shift i in
  let s2 := generalized_binomial (as_i64 (shift - Z.of_nat i - 1)) (n - 1 - i) in
  let sign := if Nat.odd (n - 1 - i) then -1 else 1 in
  as_i128 (as_i128 (sign * s1) * s2).
Definition shift_coeffs_i32 (n : nat) (shift : Z) : list Z :=
  map (fun i => as_i32 (shift_coeff n shift i)) (seq 0 n).
Definition shift_coeffs_i128 (n : nat) (shift : Z) : list Z := map (shift_coeff n shift) (seq 0 n).

(** The window's least point [-((N - 1) / 2)]. *)
Definition base_left (n : nat) : Z := - (quot (Z.of_nat n - 1) 2).
Definition window (n : nat) : list Z := map (fun i => base_left n + Z.of_nat i) (seq 0 n).

(** One row of the power sums: [pow] is multiplied after its use, so the last
    product is computed as well; [checked_mul] panics. *)
Fixpoint add_powers (t pow : Z) (sums : list Z) : option (list Z) :=
  match sums with
  | [] => Some []
  | s :: sums =>
      let p := pow * t in
      if (- 2 ^ 127 <=? p) && (p <? 2 ^ 127) then rest ← add_powers t p sums; Some (as_i128 (s + pow) :: rest)
      else None
  end.
Definition power_sums (window_n out_len : nat) : option (list Z) :=
  match out_len with
  | O => Some []
  | S m =>
      fold_left (fun acc t => sums ← acc;
        match sums with
        | [] => Some []
        | s0 :: sums => rest ← add_powers t t sums; Some (as_i128 (s0 + 1) :: rest)
        end) (window window_n) (Some (repeat 0 out_len))
  end.

(** ** The targets outside the base window *)

(** The first loop of [uniskip_targets]: pairs [n], [p] outward while both are
    in the extended window and fewer than [degree] targets are out. *)
Fixpoint target_pairs (fuel degree : nat) (d n p : Z) (acc : list Z) : list Z * Z * Z :=
  match fuel with
  | O => (acc, n, p)
  | S fuel =>
      if (- d <=? n) && (p <=? d) && (length acc <? degree)%nat then
        let acc := acc ++ [n] in
        if (degree <=? length acc)%nat then (acc, n, p)
        else target_pairs fuel degree d (n - 1) (p + 1) (acc ++ [p])
      else (acc, n, p)
  end.
(** The two other loops: the rest of one side. *)
Fixpoint targets_left (fuel degree : nat) (d n : Z) (acc : list Z) : list Z :=
  match fuel with
  | O => acc
  | S fuel => if (length acc <? degree)%nat && (- d <=? n) then targets_left fuel degree d (n - 1) (acc ++ [n]) else acc
  end.
Fixpoint targets_right (fuel degree : nat) (d p : Z) (acc : list Z) : list Z :=
  match fuel with
  | O => acc
  | S fuel => if (length acc <? degree)%nat && (p <=? d) then targets_right fuel degree d (p + 1) (acc ++ [p]) else acc
  end.
(** Every loop emits a target or stops, so [degree] turns are enough; the array
    starts at zero. *)
Definition uniskip_targets (domain_size degree : nat) : list Z :=
  let d := Z.of_nat degree in
  let left := base_left domain_size in
  let right := left + Z.of_nat domain_size - 1 in
  let '(acc, n, p) := target_pairs degree degree d (left - 1) (right + 1) [] in
  let acc := targets_left degree degree d n acc in
  let acc := targets_right degree degree d p acc in
  acc ++ repeat 0 (degree - length acc).

(** ** The tables of the evaluators (zkvm/r1cs/evaluation.rs)

    [degree] and [domain_size] are the constants of [constraints.rs]. *)
Section Tables.
Context (domain_size degree : nat).

Definition UNISKIP_TARGETS : list Z := uniskip_targets domain_size degree.
Definition BASE_LEFT : Z := base_left domain_size.
Definition TARGET_SHIFTS : list Z := map (fun t => as_i64 (t - BASE_LEFT)) UNISKIP_TARGETS.
Definition COEFFS_PER_J : list (list Z) := map (shift_coeffs_i32 domain_size) TARGET_SHIFTS.
End Tables.
