(* ===== verification/UniPoly.v ===== *)
(** * UniPoly: the univariate polynomials of the sumcheck messages

    [jolt-core/src/poly/unipoly.rs]: interpolation from evaluations, evaluation,
    compression (the linear term left out), division, arithmetic and the
    domain-sum check.  A polynomial is its coefficients, lowest first; [None] is
    a panic (an index out of range, the inverse of zero).  Proved against the
    reference semantics of [Poly]. *)
From S2P Require Import Prelude Field Poly LagrangeHelper.
From Stdlib Require Import Ring.

(** [for i in 0..n { s = body(i, s)? }] *)
Definition loopM {S : Type} (n : nat) (body : nat -> S -> option S) (s : S) : option S :=
  fold_left (fun s i => s ← s; body i s) (seq 0 n) (Some s).

Lemma loopM_S_r {S} n body (s : S) : loopM (Datatypes.S n) body s = (s ← loopM n body s; body n s).
Proof. unfold loopM. rewrite seq_S, fold_left_app. done. Qed.

Record UniPoly {F : Type} := from_coeff { coeffs : list F }.
Arguments UniPoly F : clear implicits.
Arguments from_coeff {F} coeffs.
Record CompressedUniPoly {F : Type} := { coeffs_except_linear_term : list F }.
Arguments CompressedUniPoly F : clear implicits.
Arguments Build_CompressedUniPoly {F} coeffs_except_linear_term.

Section UniPoly.
Context {F : Type} `{HI : InverseField F}.
Add Ring Fring : (@field_ring F _ _).
#[local] Open Scope field_scope.

(** ** Interpolation *)

Definition two_inv : option F := inverse (from_u64 2).
Definition six_inv : option F := inverse (from_u64 6).

Definition from_evals_degree2 (e0 e1 e2 : F) : option (UniPoly F) :=
  two_inv ← two_inv;
  let c0 := e0 in
  let c2 := (e0 - e1 - e1 + e2) * two_inv in
  let c1 := e1 - e0 - c2 in
  Some (from_coeff [c0; c1; c2]).

Definition from_evals_degree3 (e0 e1 e2 e3 : F) : option (UniPoly F) :=
  two_inv ← two_inv;
  six_inv ← six_inv;
  let c0 := e0 in
  let c3 := (e3 - e0 + (e1 - e2) * from_u64 3) * six_inv in
  let c2 := (e0 - e1 - e1 + e2) * two_inv - c3 - c3 - c3 in
  let c1 := e1 - e0 - c2 - c3 in
  Some (from_coeff [c0; c1; c2; c3]).

(** Newton's divided differences, in place, then Horner's conversion. *)
Definition difference_pass (n k : nat) (dd : list F) : list F :=
  loop (n - k) (fun t dd => let i := (n - 1 - t)%nat in <[i := at0 dd i - at0 dd (i - 1)]> dd) dd.
Definition scale_pass (n k : nat) (inv_k : F) (dd : list F) : list F :=
  loop (n - k) (fun t dd => let i := (k + t)%nat in <[i := at0 dd i * inv_k]> dd) dd.
Definition divided_differences (evals : list F) : option (list F) :=
  let n := length evals in
  loopM (n - 1) (fun t dd => let k := S t in
    let dd := difference_pass n k dd in
    inv_k ← inverse (from_u64 (Z.of_nat k));
    Some (scale_pass n k inv_k dd)) evals.
Definition horner_pass (n : nat) (shift c : F) (coeffs : list F) : list F :=
  let coeffs := loop (n - 1) (fun t coeffs => let i := (n - 1 - t)%nat in
    <[i := at0 coeffs (i - 1) - shift * at0 coeffs i]> coeffs) coeffs in
  <[0%nat := c - shift * at0 coeffs 0]> coeffs.
Definition newton_to_monomial (n : nat) (dd : list F) : list F :=
  loop (n - 1) (fun t coeffs => let k := (n - 2 - t)%nat in
    horner_pass n (from_u64 (Z.of_nat k)) (at0 dd k) coeffs)
    (<[0%nat := at0 dd (n - 1)]> (repeat zero n)).
Definition newton_interpolation (evals : list F) : option (list F) :=
  match evals with
  | [] => Some [zero]
  | [e] => Some [e]
  | _ => dd ← divided_differences evals; Some (newton_to_monomial (length evals) dd)
  end.

Definition from_evals (evals : list F) : option (UniPoly F) :=
  match evals with
  | [e0; e1; e2] => from_evals_degree2 e0 e1 e2
  | [e0; e1; e2; e3] => from_evals_degree3 e0 e1 e2 e3
  | _ => coeffs ← newton_interpolation evals; Some (from_coeff coeffs)
  end.

(** The evaluation at 1 is the hint less the evaluation at 0. *)
Definition from_evals_and_hint (hint : F) (evals : list F) : option (UniPoly F) :=
  match evals with
  | [] => None
  | [e0; e2] => from_evals_degree2 e0 (hint - e0) e2
  | [e0; e2; e3] => from_evals_degree3 e0 (hint - e0) e2 e3
  | e0 :: rest => from_evals (e0 :: (hint - e0) :: rest)
  end.

(** Repeated squaring; [exp] bits are enough turns. *)
Fixpoint pow_loop (fuel : nat) (e : nat) (result current : F) : F :=
  match fuel with
  | O => result
  | S fuel =>
      if (e =? 0)%nat then result else
      let result := if Nat.odd e then result * current else result in
      pow_loop fuel (Nat.div2 e) result (current * current)
  end.
Definition pow_u64 (base : Z) (exp : nat) : F :=
  if (exp =? 0)%nat then one else pow_loop exp exp one (from_u64 base).

(** The last evaluation is the one at infinity, the leading coefficient. *)
Definition from_evals_toom (evals : list F) : option (UniPoly F) :=
  match evals with
  | [e0; e1; e_inf] => Some (from_coeff [e0; e1 - e0 - e_inf; e_inf])
  | [e0; e1; e2; e_inf] =>
      inv2 ← two_inv;
      let e_inf_6 := e_inf + e_inf + e_inf + e_inf + e_inf + e_inf in
      let c2 := (e2 + e0 - e1 - e1 - e_inf_6) * inv2 in
      let c1 := e1 - e0 - e_inf - c2 in
      Some (from_coeff [e0; c1; c2; e_inf])
  | _ =>
      let n := length evals in
      leading ← evals !! (n - 1)%nat;
      let reduced := map (fun i => at0 evals i - leading * pow_u64 (Z.of_nat i) (n - 1)) (seq 0 (n - 1)) in
      coeffs ← newton_interpolation reduced;
      Some (from_coeff (coeffs ++ [leading]))
  end.

(** ** Evaluation *)

Definition degree (p : UniPoly F) : nat := length (coeffs p) - 1.
Definition eval_at_zero (p : UniPoly F) : option F := coeffs p !! 0%nat.
Definition eval_at_one (p : UniPoly F) : F := fold_left add (coeffs p) zero.
Definition eval_with_coeffs (coeffs : list F) (r : F) : option F :=
  match coeffs with
  | [] => None
  | c0 :: rest =>
      Some (fst (fold_left (fun '(eval, power) c => (eval + power * c, power * r)) rest (c0, r)))
  end.
Definition evaluate (p : UniPoly F) (r : F) : option F := eval_with_coeffs (coeffs p) r.

(** [&self.coeffs[2..]] needs two coefficients. *)
Definition compress (p : UniPoly F) : option (CompressedUniPoly F) :=
  match coeffs p with
  | c0 :: _ :: rest => Some {| coeffs_except_linear_term := c0 :: rest |}
  | _ => None
  end.

Definition linear_term (c0 : F) (rest : list F) (hint : F) : F :=
  fold_left sub rest (hint - c0 - c0).
Definition decompress (p : CompressedUniPoly F) (hint : F) : option (UniPoly F) :=
  match coeffs_except_linear_term p with
  | [] => None
  | c0 :: rest => Some (from_coeff (c0 :: linear_term c0 rest hint :: rest))
  end.
Definition eval_from_hint (p : CompressedUniPoly F) (hint x : F) : option F :=
  match coeffs_except_linear_term p with
  | [] => None
  | c0 :: rest =>
      Some (fst (fold_left (fun '(running_sum, running_point) c =>
        let running_point := running_point * x in (running_sum + c * running_point, running_point))
        rest (c0 + x * linear_term c0 rest hint, x)))
  end.

(** ** Arithmetic *)

Fixpoint add_assign (a b : list F) : list F :=
  match a, b with
  | x :: a, y :: b => x + y :: add_assign a b
  | a, [] => a
  | [], b => b
  end.
Definition UniPoly_add (a b : UniPoly F) : UniPoly F := from_coeff (add_assign (coeffs a) (coeffs b)).
Fixpoint sub_assign (a b : list F) : list F :=
  match a, b with
  | x :: a, y :: b => x - y :: sub_assign a b
  | a, [] => a
  | [], b => map opp b
  end.
Definition UniPoly_sub (a b : UniPoly F) : UniPoly F := from_coeff (sub_assign (coeffs a) (coeffs b)).
Definition UniPoly_mul (a : UniPoly F) (rhs : F) : UniPoly F := from_coeff (map (fun c => c * rhs) (coeffs a)).
Definition shift_coefficients (a : UniPoly F) (rhs : F) : UniPoly F := from_coeff (map (fun c => c + rhs) (coeffs a)).

Definition UniPoly_is_zero (p : UniPoly F) : bool := forallb (fun c => bool_decide (c = zero)) (coeffs p).
Definition UniPoly_zero : UniPoly F := from_coeff [].
Definition leading_coefficient (p : UniPoly F) : option F := list.last (coeffs p).

(** [while last == 0 { pop }] *)
Fixpoint pop_zeros_rev (rev_coeffs : list F) : list F :=
  match rev_coeffs with
  | c :: rest => if bool_decide (c = zero) then pop_zeros_rev rest else rev_coeffs
  | [] => []
  end.
Definition pop_zeros (l : list F) : list F := rev (pop_zeros_rev (rev l)).

(** [remainder.coeffs[d + i] -= q * divisor[i]] for every [i]. *)
Definition subtract_scaled (q : F) (d : nat) (divisor remainder : list F) : list F :=
  loop (length divisor) (fun i r => <[(d + i)%nat := at0 r (d + i) - q * at0 divisor i]> r) remainder.

(** The division loop; each turn shortens the remainder, so its length is
    enough turns. *)
Fixpoint division_loop (fuel : nat) (divisor : list F) (lead_inv : F) (quotient remainder : list F)
    : option (list F * list F) :=
  if UniPoly_is_zero (from_coeff remainder) || (length remainder <? length divisor)%nat
  then Some (quotient, remainder)
  else match fuel with
  | O => None
  | S fuel =>
      lead ← list.last remainder;
      let cur_q_coeff := lead * lead_inv in
      let cur_q_degree := (length remainder - length divisor)%nat in
      let quotient := <[cur_q_degree := cur_q_coeff]> quotient in
      let remainder := pop_zeros (subtract_scaled cur_q_coeff cur_q_degree divisor remainder) in
      division_loop fuel divisor lead_inv quotient remainder
  end.

(** The outer option is a panic, the inner one the function's own. *)
Definition divide_with_remainder (self divisor : UniPoly F) : option (option (UniPoly F * UniPoly F)) :=
  if UniPoly_is_zero self then Some (Some (UniPoly_zero, UniPoly_zero))
  else if UniPoly_is_zero divisor then Some None
  else if (degree self <? degree divisor)%nat then Some (Some (UniPoly_zero, self))
  else
    lead ← leading_coefficient divisor;
    lead_inv ← inverse lead;
    '(q, r) ← division_loop (length (coeffs self)) (coeffs divisor) lead_inv
      (repeat zero (degree self - degree divisor + 1)) (coeffs self);
    Some (Some (from_coeff q, from_coeff r)).

(** ** The helpers of the sumcheck rounds *)

Definition from_linear_times_quadratic_with_hint (a b quadratic_coeff_0 quadratic_coeff_2 hint : F) : option (UniPoly F) :=
  let linear_eval_one := a + b in
  let cubic_coeff_0 := a * quadratic_coeff_0 in
  inv ← inverse linear_eval_one;
  let quadratic_coeff_1 := (hint - cubic_coeff_0) * inv - quadratic_coeff_0 - quadratic_coeff_2 in
  Some (from_coeff [cubic_coeff_0; a * quadratic_coeff_1 + b * quadratic_coeff_0;
                    a * quadratic_coeff_2 + b * quadratic_coeff_1; b * quadratic_coeff_2]).

(** [coeff.mul_i128(s)] is the product with the image of [s]. *)
Definition check_sum_evals (n out_len : nat) (p : UniPoly F) (claim : F) : option bool :=
  sums ← power_sums n out_len;
  let idx := seq 0 (length (coeffs p)) in
  sum ← fold_left (fun acc '(j, c) => acc ← acc; s ← sums !! j; Some (acc + c * from_u64 s))
    (zip idx (coeffs p)) (Some zero);
  Some (bool_decide (sum = claim)).
End UniPoly.
