(* ===== verification/UniPolyCorrect.v ===== *)
(** * UniPolyCorrect: the univariate polynomials meet their specification

    Interpolation (by divided differences) returns the polynomial of the given
    values, evaluation is [eval_poly], compression loses nothing once the hint is
    known, division terminates with a quotient and a shorter remainder, and the
    domain-sum check is the sum over the window. *)
From S2P Require Import Prelude Field Poly LagrangeHelper UniPoly.
From Stdlib Require Import Ring Zmod.

Section Lists.
Context {F : Type} `{HI : InverseField F}.
Add Ring Fring : (@field_ring F _ _).
#[local] Open Scope field_scope.

(** The value of a list of coefficients, read by index. *)
Lemma eval_poly_app (a b : list F) x : eval_poly (a ++ b) x = eval_poly a x + fpow x (length a) * eval_poly b x.
Proof. induction a as [|c a IH]; cbn [app eval_poly length fpow]; [ring|]. rewrite IH. ring. Qed.
Lemma eval_poly_zeros n x : eval_poly (repeat zero n) x = (zero : F).
Proof. induction n as [|n IH]; cbn [repeat eval_poly]; [done|]. rewrite IH. ring. Qed.
End Lists.

(** ** Divided differences *)

Section Newton.
Context {F : Type} `{HI : InverseField F}.
Add Ring Fring2 : (@field_ring F _ _).
#[local] Open Scope field_scope.

#[local] Notation "# z" := (from_u64 (Z.of_nat z) : F) (at level 1).

Lemma nat_S n : #(S n) = # n + one.
Proof. rewrite Nat2Z.inj_succ, <- Z.add_1_r, from_u64_add, from_u64_1. done. Qed.
Lemma nat_add a b : #(a + b) = # a + # b.
Proof. rewrite Nat2Z.inj_add. apply from_u64_add. Qed.

Context (e : nat -> F) (inv : nat -> F).

(** [diff k s] is the divided difference of [e] on [s .. s+k]. *)
Fixpoint diff (k s : nat) : F :=
  match k with O => e s | S k => (diff k (S s) - diff k s) * inv (S k) end.
(** The product of [x - s .. x - (s+m-1)]. *)
Fixpoint falling (m s : nat) (x : F) : F :=
  match m with O => one | S m => (x - # s) * falling m (S s) x end.
Fixpoint newton (k s : nat) (x : F) : F :=
  match k with O => e s | S k => newton k s x + diff (S k) s * falling (S k) s x end.

Lemma falling_r m s x : falling (S m) s x = falling m s x * (x - #(s + m)).
Proof.
  revert s. induction m as [|m IH]; intros s; [cbn [falling]; rewrite Nat.add_0_r; ring|].
  transitivity ((x - # s) * falling (S m) (S s) x); [done|]. rewrite IH. cbn [falling].
  replace (S s + m)%nat with (s + S m)%nat by lia. ring.
Qed.
Lemma falling_zero m s i : (i < m)%nat -> falling m s (#(s + i)) = zero.
Proof.
  revert s i. induction m as [|m IH]; intros s i Hi; [lia|]. cbn [falling]. destruct i as [|i].
  - rewrite Nat.add_0_r. ring.
  - replace (s + S i)%nat with (S s + i)%nat by lia. rewrite IH by lia. ring.
Qed.

Context (n : nat) (Hinv : forall k, (1 <= k < n)%nat -> # k * inv k = one).

Lemma newton_shift k s x : (S k < n)%nat ->
  newton k (S s) x - newton k s x = diff (S k) s * #(S k) * falling k (S s) x.
Proof.
  revert s. induction k as [|k IH]; intros s Hk.
  - cbn [newton diff falling]. transitivity ((e (S s) - e s) * (# 1 * inv 1%nat)); [rewrite Hinv by lia; ring|ring].
  - cbn [newton].
    transitivity ((newton k (S s) x - newton k s x) + diff (S k) (S s) * falling (S k) (S s) x
                  - diff (S k) s * falling (S k) s x); [ring|].
    rewrite IH by lia. rewrite (falling_r k (S s)). replace (S s + k)%nat with (S k + s)%nat by lia.
    transitivity (falling k (S s) x * ((diff (S k) (S s) - diff (S k) s) * (x - #(S k + s)))).
    { cbn [falling]. rewrite nat_add. ring. }
    replace (diff (S k) (S s) - diff (S k) s) with (diff (S (S k)) s * #(S (S k))); [ring|].
    transitivity ((diff (S k) (S s) - diff (S k) s) * (#(S (S k)) * inv (S (S k)))); [cbn [diff]; ring|].
    rewrite Hinv by lia. ring.
Qed.

Lemma newton_interpolates k s i : (k < n)%nat -> (i <= k)%nat -> newton k s (#(s + i)) = e (s + i)%nat.
Proof.
  revert s i. induction k as [|k IH]; intros s i Hk Hi.
  { replace i with 0%nat by lia. by rewrite Nat.add_0_r. }
  destruct (decide (i = S k)) as [->|Hne].
  - replace (s + S k)%nat with (S s + k)%nat by lia. rewrite <- (IH (S s) k) by lia.
    transitivity (newton k (S s) #(S s + k) + (newton (S k) s #(S s + k) - newton k (S s) #(S s + k))); [ring|].
    replace (newton (S k) s #(S s + k) - newton k (S s) #(S s + k)) with (zero : F); [ring|].
    transitivity (diff (S k) s * falling (S k) s #(S s + k) - (newton k (S s) #(S s + k) - newton k s #(S s + k)));
      [|cbn [newton]; ring].
    rewrite newton_shift by lia. cbn [falling].
    replace (S s + k)%nat with (s + S k)%nat by lia. rewrite nat_add. ring.
  - cbn [newton]. rewrite IH, falling_zero by lia. ring.
Qed.

(** *** Horner's conversion *)

(** The terms below [k], and the nested form of the others. *)
Fixpoint newton_below (k : nat) (x : F) : F :=
  match k with O => zero | S k => newton_below k x + diff k 0 * falling k 0 x end.
Fixpoint nested (top t : nat) (x : F) : F :=
  match t with
  | O => diff top 0
  | S t => diff (top - S t) 0 + (x - #(top - S t)) * nested top t x
  end.

Lemma newton_below_all k x : newton k 0 x = newton_below (S k) x.
Proof.
  induction k as [|k IH]; [cbn; ring|].
  transitivity (newton k 0 x + diff (S k) 0 * falling (S k) 0 x); [done|]. by rewrite IH.
Qed.
Lemma newton_nested top t x : (t <= top)%nat ->
  newton top 0 x = newton_below (top - t) x + falling (top - t) 0 x * nested top t x.
Proof.
  induction t as [|t IH]; intros Ht.
  - rewrite Nat.sub_0_r, newton_below_all. cbn [newton_below nested]. ring.
  - rewrite IH by lia. replace (top - t)%nat with (S (top - S t)) by lia.
    rewrite falling_r. cbn [newton_below nested]. rewrite Nat.add_0_l. ring.
Qed.
End Newton.

Section Interpolation.
Context {F : Type} `{HI : InverseField F}.
Add Ring Fring3 : (@field_ring F _ _).
#[local] Open Scope field_scope.
#[local] Notation "# z" := (from_u64 (Z.of_nat z) : F) (at level 1).

(** Passing from [l] to [c + (x - shift) * l]. *)
Lemma eval_shifted (l r : list F) n shift c x : (1 <= n)%nat -> length l = n -> length r = n ->
  at0 l (n - 1) = zero -> at0 r 0 = c - shift * at0 l 0 ->
  (forall j, (1 <= j < n)%nat -> at0 r j = at0 l (j - 1) - shift * at0 l j) ->
  eval_poly r x = c + (x - shift) * eval_poly l x.
Proof.
  intros Hn Hl Hr Htop H0 Hj.
  assert (Hg : forall (l r : list F) p, length l = length r ->
    (forall j, (j < length r)%nat -> at0 r j = at0 (p :: l) j - shift * at0 l j) ->
    eval_poly r x = p + x * eval_poly l x - fpow x (length l) * at0 (p :: l) (length l) - shift * eval_poly l x).
  { clear -H. intros l. induction l as [|a l IH]; intros [|b r] p Hl Hj; try discriminate Hl.
    - cbn. ring.
    - pose proof (Hj 0%nat ltac:(cbn; lia)) as Hb. cbn in Hb. cbn [eval_poly length fpow].
      rewrite (IH r a); [|by injection Hl|intros j Hlt; apply (Hj (S j)); cbn; lia].
      unfold at0. cbn [nth]. rewrite Hb. ring. }
  rewrite (Hg l r c); [|congruence|].
  2:{ intros [|j] Hlt; [exact H0|]. rewrite (Hj (S j)) by lia. cbn. by rewrite Nat.sub_0_r. }
  replace (at0 (c :: l) (length l)) with (zero : F); [ring|].
  rewrite Hl. destruct n as [|n]; [lia|]. rewrite <- Htop. unfold at0. cbn. by rewrite Nat.sub_0_r.
Qed.

Lemma horner_pass_cells n shift c (l : list F) j : (1 <= n)%nat -> length l = n -> (j < n)%nat ->
  at0 (horner_pass n shift c l) j =
  if (j =? 0)%nat then c - shift * at0 l 0 else at0 l (j - 1) - shift * at0 l j.
Proof.
  intros Hn Hl Hj. unfold horner_pass. cbv zeta.
  pose proof (fun k => down_pass (fun v w => w - shift * v) 1 n l k ltac:(lia) ltac:(lia)) as Hd. cbv zeta in Hd.
  rewrite at0_insert by (rewrite loop_length; [lia|intros; apply length_insert]).
  destruct (Nat.eqb_spec j 0) as [->|Hne].
  - rewrite Hd. done.
  - rewrite Hd. destruct (Nat.leb_spec 1 j), (Nat.ltb_spec j n); (done || lia).
Qed.
Lemma horner_pass_length n shift c (l : list F) : length (horner_pass n shift c l) = length l.
Proof. unfold horner_pass. rewrite length_insert. apply loop_length. intros. apply length_insert. Qed.

Lemma difference_pass_cells n k (dd : list F) j : (1 <= k)%nat -> (n <= length dd)%nat ->
  at0 (difference_pass n k dd) j = if ((k <=? j) && (j <? n))%nat then at0 dd j - at0 dd (j - 1) else at0 dd j.
Proof. intros Hk Hn. apply (down_pass (fun v w => v - w) k n dd j); lia. Qed.
Lemma difference_pass_length n k (dd : list F) : length (difference_pass n k dd) = length dd.
Proof. apply loop_length. intros. apply length_insert. Qed.
Lemma scale_pass_cells n k i (dd : list F) j : (k <= n)%nat -> (n <= length dd)%nat ->
  at0 (scale_pass n k i dd) j = if ((k <=? j) && (j <? n))%nat then at0 dd j * i else at0 dd j.
Proof.
  intros Hk Hn. unfold scale_pass. rewrite (up_pass (fun _ v => v * i) k (n - k) dd j) by lia.
  by replace (k + (n - k))%nat with n by lia.
Qed.
Lemma scale_pass_length n k i (dd : list F) : length (scale_pass n k i dd) = length dd.
Proof. apply loop_length. intros. apply length_insert. Qed.

(** The integers below [n] have inverses: the characteristic is at least [n]. *)
Definition small_invertible (n : nat) : Prop := forall k, (1 <= k < n)%nat -> # k <> zero.
Definition inv_of (k : nat) : F := default zero (inverse (# k)).
Lemma inv_of_spec n k : small_invertible n -> (1 <= k < n)%nat -> inverse (# k) = Some (inv_of k) /\ # k * inv_of k = one.
Proof.
  intros Hs Hk. destruct (inverse_nonzero (# k) (Hs k Hk)) as (y & E & Hy). unfold inv_of. by rewrite E.
Qed.

Lemma divided_differences_spec (evals : list F) : small_invertible (length evals) ->
  exists dd, divided_differences evals = Some dd /\ length dd = length evals /\
    forall i, (i < length evals)%nat -> at0 dd i = diff (at0 evals) inv_of i 0.
Proof.
  intros Hs. unfold divided_differences. set (n := length evals) in *.
  assert (Hm : forall m, (m <= n - 1)%nat -> exists dd,
    loopM m (fun t dd => inv_k ← inverse (# (S t)); Some (scale_pass n (S t) inv_k (difference_pass n (S t) dd))) evals = Some dd /\
    length dd = n /\ forall i, (i < n)%nat -> at0 dd i = diff (at0 evals) inv_of (Nat.min i m) (i - Nat.min i m)).
  { induction m as [|m IH]; intros Hmn.
    - exists evals. split; [done|]. split; [done|]. intros i Hi. by rewrite Nat.min_0_r, Nat.sub_0_r.
    - destruct (IH ltac:(lia)) as (dd & E & Hl & Hc). rewrite loopM_S_r, E. cbn [mbind option_bind].
      destruct (inv_of_spec n (S m) Hs ltac:(lia)) as [-> _]. cbn [mbind option_bind].
      eexists. split; [reflexivity|]. split; [by rewrite scale_pass_length, difference_pass_length|].
      intros i Hi. rewrite scale_pass_cells, !difference_pass_cells by (rewrite ?difference_pass_length; lia).
      destruct (Nat.leb_spec (S m) i) as [Hle|Hgt]; destruct (Nat.ltb_spec i n); try lia; cbn [andb].
      + rewrite !Hc by lia. rewrite !Nat.min_r by lia. cbn [diff].
        replace (i - m)%nat with (S (i - S m)) by lia. by replace (i - 1 - m)%nat with (i - S m)%nat by lia.
      + rewrite Hc by lia. by rewrite !Nat.min_l by lia. }
  destruct (Hm (n - 1)%nat ltac:(lia)) as (dd & E & Hl & Hc). exists dd. split; [exact E|]. split; [done|].
  intros i Hi. rewrite Hc by lia. rewrite Nat.min_l by lia. by rewrite Nat.sub_diag.
Qed.

Lemma newton_to_monomial_spec (e : nat -> F) n (dd : list F) x : (1 <= n)%nat -> length dd = n ->
  (forall i, (i < n)%nat -> at0 dd i = diff e inv_of i 0) ->
  length (newton_to_monomial n dd) = n /\ eval_poly (newton_to_monomial n dd) x = newton e inv_of (n - 1) 0 x.
Proof.
  intros Hn Hl Hd. unfold newton_to_monomial.
  assert (Hm : forall m, (m <= n - 1)%nat ->
    let c := loop m (fun t coeffs => horner_pass n (# (n - 2 - t)) (at0 dd (n - 2 - t)) coeffs)
      (<[0%nat := at0 dd (n - 1)]> (repeat zero n)) in
    length c = n /\ (forall j, (m < j < n)%nat -> at0 c j = zero) /\ eval_poly c x = nested e inv_of (n - 1) m x).
  { induction m as [|m IH]; intros Hmn; cbv zeta.
    - unfold loop. cbn [seq fold_left]. split; [by rewrite length_insert, repeat_length|]. split.
      + intros j Hj. rewrite at0_insert by (rewrite repeat_length; lia).
        destruct (Nat.eqb_spec j 0); [lia|]. unfold at0. apply nth_repeat.
      + destruct n as [|n]; [lia|]. cbn [repeat insert list_insert eval_poly nested].
        rewrite eval_poly_zeros, Hd by lia. ring.
    - destruct (IH ltac:(lia)) as (Hlc & Hz & He). rewrite loop_S_r. revert Hlc Hz He.
      generalize (loop m (fun t coeffs => horner_pass n (# (n - 2 - t)) (at0 dd (n - 2 - t)) coeffs)
        (<[0%nat:=at0 dd (n - 1)]> (repeat zero n))) as c. intros c Hlc Hz He.
      split; [by rewrite horner_pass_length|]. split.
      + intros j Hj. rewrite horner_pass_cells by (done || lia). destruct (Nat.eqb_spec j 0); [lia|].
        rewrite !Hz by lia. ring.
      + rewrite (eval_shifted c _ n (# (n - 2 - m)) (at0 dd (n - 2 - m)) x).
        * rewrite He, Hd by lia. cbn [nested]. by replace (n - 1 - S m)%nat with (n - 2 - m)%nat by lia.
        * done.
        * exact Hlc.
        * by rewrite horner_pass_length.
        * apply Hz. lia.
        * rewrite horner_pass_cells by (done || lia). done.
        * intros j Hj. rewrite horner_pass_cells by (done || lia). destruct (Nat.eqb_spec j 0); [lia|done]. }
  destruct (Hm (n - 1)%nat ltac:(lia)) as (Hlc & _ & He). split; [exact Hlc|]. etransitivity; [exact He|].
  rewrite (newton_nested e inv_of (n - 1) (n - 1)) by lia. rewrite Nat.sub_diag. cbn [newton_below falling]. ring.
Qed.

Lemma newton_interpolation_spec (evals : list F) : (1 <= length evals)%nat -> small_invertible (length evals) ->
  exists c, newton_interpolation evals = Some c /\ length c = length evals /\
    forall i, (i < length evals)%nat -> eval_poly c (# i) = at0 evals i.
Proof.
  intros H1 Hs. unfold newton_interpolation. destruct evals as [|e0 [|e1 rest]]; [cbn in H1; lia| |].
  - exists [e0]. split; [done|]. split; [done|]. intros [|i] Hi; [|cbn in Hi; lia]. cbn. ring.
  - set (evals := e0 :: e1 :: rest) in *. destruct (divided_differences_spec evals Hs) as (dd & -> & Hl & Hd).
    cbn [mbind option_bind]. eexists. split; [reflexivity|].
    destruct (newton_to_monomial_spec (at0 evals) (length evals) dd zero H1 Hl Hd) as [Hlc _]. split; [exact Hlc|].
    intros i Hi. destruct (newton_to_monomial_spec (at0 evals) (length evals) dd (# i) H1 Hl Hd) as [_ ->].
    apply (newton_interpolates (at0 evals) inv_of (length evals)) with (s := 0%nat); [|lia|lia].
    intros k Hk. by apply (inv_of_spec (length evals)).
Qed.
End Interpolation.

(** ** Evaluation and compression *)

Section Evaluation.
Context {F : Type} `{HI : InverseField F}.
Add Ring Fring4 : (@field_ring F _ _).
#[local] Open Scope field_scope.

Lemma eval_fold (rest : list F) acc power r :
  fst (fold_left (fun '(eval, power) c => (eval + power * c, power * r)) rest (acc, power)) = acc + power * eval_poly rest r.
Proof. revert acc power. induction rest as [|c rest IH]; intros acc power; cbn; [ring|]. rewrite IH. ring. Qed.
Lemma eval_with_coeffs_spec (c : list F) r : c <> [] -> eval_with_coeffs c r = Some (eval_poly c r).
Proof. destruct c as [|c0 rest]; [done|]. intros _. cbn. by rewrite eval_fold. Qed.
Lemma evaluate_spec (p : UniPoly F) r : coeffs p <> [] -> evaluate p r = Some (eval_poly (coeffs p) r).
Proof. apply eval_with_coeffs_spec. Qed.

Lemma fold_add_acc (l : list F) s : fold_left add l s = s + fold_left add l zero.
Proof. revert s. induction l as [|a l IH]; intros s; cbn; [ring|]. rewrite IH, (IH (zero + a)). ring. Qed.
Lemma fold_sub_acc (l : list F) s : fold_left sub l s = s - fold_left add l zero.
Proof. revert s. induction l as [|a l IH]; intros s; cbn; [ring|]. rewrite IH, (fold_add_acc l (zero + a)). ring. Qed.
Lemma eval_at_one_spec (p : UniPoly F) : eval_at_one p = eval_poly (coeffs p) one.
Proof.
  unfold eval_at_one. induction (coeffs p) as [|a l IH]; [done|]. cbn. rewrite fold_add_acc, IH. ring.
Qed.
Lemma eval_at_zero_spec (p : UniPoly F) c : eval_at_zero p = Some c -> c = eval_poly (coeffs p) zero.
Proof. unfold eval_at_zero. destruct (coeffs p); [done|]. intros [= ->]. cbn. ring. Qed.

(** The linear term restored from the hint makes the values at 0 and 1 add up to it. *)
Lemma decompress_hint (cp : CompressedUniPoly F) hint p : decompress cp hint = Some p ->
  eval_poly (coeffs p) zero + eval_poly (coeffs p) one = hint.
Proof.
  unfold decompress. destruct (coeffs_except_linear_term cp) as [|c0 rest]; [done|]. intros [= <-].
  cbn [coeffs eval_poly]. unfold linear_term. rewrite fold_sub_acc.
  assert (E : fold_left add rest zero = eval_poly rest one) by (apply (eval_at_one_spec (from_coeff rest))).
  rewrite E. ring.
Qed.

Lemma eval_from_hint_fold (rest : list F) acc power x :
  fst (fold_left (fun '(running_sum, running_point) c =>
        let running_point := running_point * x in (running_sum + c * running_point, running_point)) rest (acc, power))
  = acc + power * x * eval_poly rest x.
Proof. revert acc power. induction rest as [|c rest IH]; intros acc power; cbn; [ring|]. rewrite IH. ring. Qed.

(** Compression keeps what the hint does not give. *)
Lemma compress_spec (p : UniPoly F) hint : (2 <= length (coeffs p))%nat ->
  eval_poly (coeffs p) zero + eval_poly (coeffs p) one = hint ->
  exists cp, compress p = Some cp /\ decompress cp hint = Some p /\
    S (length (coeffs_except_linear_term cp)) = length (coeffs p).
Proof.
  intros Hl Hh. destruct p as [c]. cbn [coeffs] in *. destruct c as [|c0 [|c1 rest]]; cbn in Hl; try lia.
  exists {| coeffs_except_linear_term := c0 :: rest |}. split; [done|]. split; [|done]. unfold decompress. cbn [coeffs_except_linear_term].
  do 4 f_equal. unfold linear_term. rewrite fold_sub_acc.
  assert (E : fold_left add rest zero = eval_poly rest one) by (apply (eval_at_one_spec (from_coeff rest))).
  rewrite E, <- Hh. cbn. ring.
Qed.
Lemma decompress_spec (cp : CompressedUniPoly F) hint : coeffs_except_linear_term cp <> [] ->
  exists p, decompress cp hint = Some p /\ compress p = Some cp /\
    length (coeffs p) = S (length (coeffs_except_linear_term cp)) /\
    eval_poly (coeffs p) zero + eval_poly (coeffs p) one = hint /\
    forall x, eval_from_hint cp hint x = Some (eval_poly (coeffs p) x).
Proof.
  intros Hl. destruct cp as [l]. cbn [coeffs_except_linear_term] in *. destruct l as [|c0 rest]; [done|].
  eexists. split; [reflexivity|]. split; [reflexivity|]. split; [done|].
  split; [by eapply (decompress_hint {| coeffs_except_linear_term := c0 :: rest |})|].
  intros x. unfold eval_from_hint. cbn [coeffs coeffs_except_linear_term eval_poly].
  rewrite eval_from_hint_fold. f_equal. ring.
Qed.

(** C25: compression is lossless given the hint: a polynomial with at least two
    coefficients whose values at 0 and 1 add up to the hint is recovered from its
    compressed form, any compressed polynomial is completed to one with that sum,
    and the verifier's direct evaluation is the evaluation of that completion. *)
Theorem compression_roundtrip :
  (forall (p : UniPoly F) hint, (2 <= length (coeffs p))%nat ->
     eval_poly (coeffs p) zero + eval_poly (coeffs p) one = hint ->
     exists cp, compress p = Some cp /\ decompress cp hint = Some p) /\
  (forall (cp : CompressedUniPoly F) hint x, coeffs_except_linear_term cp <> [] ->
     exists p, decompress cp hint = Some p /\ compress p = Some cp /\
       eval_poly (coeffs p) zero + eval_poly (coeffs p) one = hint /\
       eval_from_hint cp hint x = evaluate p x).
Proof.
  split.
  - intros p hint Hl Hh. destruct (compress_spec p hint Hl Hh) as (cp & E & D & _). by exists cp.
  - intros cp hint x Hl. destruct (decompress_spec cp hint Hl) as (p & D & E & Hlen & Hs & Hx).
    exists p. split; [done|]. split; [done|]. split; [done|]. rewrite Hx, evaluate_spec; [done|].
    intros Hn. rewrite Hn in Hlen. done.
Qed.
End Evaluation.

(** ** Interpolation from evaluations *)

Section FromEvals.
Context {F : Type} `{HI : InverseField F}.
Add Ring Fring5 : (@field_ring F _ _).
#[local] Open Scope field_scope.
#[local] Notation "# z" := (from_u64 (Z.of_nat z) : F) (at level 1).

Lemma two_ones : (from_u64 2 : F) = one + one.
Proof. change 2 with (1 + 1)%Z. by rewrite from_u64_add, from_u64_1. Qed.
Lemma three_ones : (from_u64 3 : F) = one + one + one.
Proof. change 3 with (2 + 1)%Z. by rewrite from_u64_add, two_ones, from_u64_1. Qed.
Lemma six_product : (from_u64 6 : F) = (one + one) * (one + one + one).
Proof. change 6 with (2 * 3)%Z. by rewrite from_u64_mul, two_ones, three_ones. Qed.
Lemma nat_ones : # 0 = zero /\ # 1 = one /\ # 2 = one + one /\ # 3 = one + one + one.
Proof. split; [apply from_u64_0|]. split; [apply from_u64_1|]. split; [apply two_ones|apply three_ones]. Qed.

Lemma two_inv_spec n : (3 <= n)%nat -> small_invertible (F := F) n -> exists t, two_inv = Some t /\ (one + one) * t = one.
Proof.
  intros Hn Hs. destruct (inverse_nonzero _ (Hs 2%nat ltac:(lia))) as (t & E & Ht). exists t.
  split; [exact E|]. change (from_u64 (Z.of_nat 2)) with (from_u64 2 : F) in Ht. by rewrite two_ones in Ht.
Qed.
Lemma six_inv_spec n : (4 <= n)%nat -> small_invertible (F := F) n ->
  exists t, six_inv = Some t /\ (one + one) * (one + one + one) * t = one.
Proof.
  intros Hn Hs. assert (H6 : from_u64 6 <> (zero : F)).
  { rewrite six_product. intros E. apply mul_zero in E as [E|E].
    - apply (Hs 2%nat ltac:(lia)). rewrite <- E. apply two_ones.
    - apply (Hs 3%nat ltac:(lia)). rewrite <- E. apply three_ones. }
  destruct (inverse_nonzero _ H6) as (t & E & Ht). exists t. split; [exact E|]. by rewrite six_product in Ht.
Qed.

(** [p] takes the values [evals] at [0, 1, ..]. *)
Definition interpolates (p : list F) (evals : list F) : Prop :=
  forall i, (i < length evals)%nat -> eval_poly p (# i) = at0 evals i.

(** A second difference halved, doubled again. *)
Lemma halved (t u v : F) : (one + one) * t = one -> u + (one + one) * (v * t) = u + v.
Proof. intros Ht. transitivity (u + v * ((one + one) * t)); [ring|]. rewrite Ht. ring. Qed.

Lemma degree2_interpolates e0 e1 e2 : small_invertible (F := F) 3 ->
  exists p, from_evals_degree2 e0 e1 e2 = Some p /\ length (coeffs p) = 3%nat /\ interpolates (coeffs p) [e0; e1; e2].
Proof.
  intros Hs. destruct (two_inv_spec 3 ltac:(lia) Hs) as (t & E & Ht). unfold from_evals_degree2. rewrite E.
  cbn [mbind option_bind]. eexists. split; [reflexivity|]. split; [done|].
  destruct nat_ones as (N0 & N1 & N2 & _). cbn [coeffs].
  intros [|[|[|i]]] Hi; [rewrite N0|rewrite N1|rewrite N2|cbn in Hi; lia]; unfold at0; cbn [nth eval_poly]; [ring|ring|].
  transitivity ((one + one) * e1 - e0 + (one + one) * ((e0 - e1 - e1 + e2) * t)); [ring|].
  rewrite (halved t) by done. ring.
Qed.

Lemma degree3_interpolates e0 e1 e2 e3 : small_invertible (F := F) 4 ->
  exists p, from_evals_degree3 e0 e1 e2 e3 = Some p /\ length (coeffs p) = 4%nat /\ interpolates (coeffs p) [e0; e1; e2; e3].
Proof.
  intros Hs. destruct (two_inv_spec 4 ltac:(lia) Hs) as (t & E & Ht). destruct (six_inv_spec 4 ltac:(lia) Hs) as (s & E6 & Hs6).
  unfold from_evals_degree3. rewrite E, E6. cbn [mbind option_bind]. eexists. split; [reflexivity|]. split; [done|].
  destruct nat_ones as (N0 & N1 & N2 & N3). rewrite three_ones. cbn [coeffs].
  intros [|[|[|[|i]]]] Hi; [rewrite N0|rewrite N1|rewrite N2|rewrite N3|cbn in Hi; lia]; unfold at0; cbn [nth eval_poly]; [ring|ring| |].
  - transitivity ((one + one) * e1 - e0 + (one + one) * ((e0 - e1 - e1 + e2) * t)); [ring|]. rewrite (halved t) by done. ring.
  - set (d3 := e3 - e0 + (e1 - e2) * (one + one + one)).
    transitivity ((one + one + one) * e1 - (one + one) * e0 + (one + one + one) * ((one + one) * ((e0 - e1 - e1 + e2) * t))
      + (one + one) * (one + one + one) * (d3 * s)); [ring|].
    transitivity ((one + one + one) * e1 - (one + one) * e0 + (one + one + one) * ((e0 - e1 - e1 + e2) * ((one + one) * t))
      + d3 * ((one + one) * (one + one + one) * s)); [ring|]. rewrite Ht, Hs6. unfold d3. ring.
Qed.

Lemma from_evals_spec evals : (1 <= length evals)%nat -> small_invertible (F := F) (length evals) ->
  exists p, from_evals evals = Some p /\ length (coeffs p) = length evals /\ interpolates (coeffs p) evals.
Proof.
  intros H1 Hs.
  assert (Hg : exists p, (c ← newton_interpolation evals; Some (from_coeff c)) = Some p /\
    length (coeffs p) = length evals /\ interpolates (coeffs p) evals).
  { destruct (newton_interpolation_spec evals H1 Hs) as (c & -> & Hl & Hc). by exists (from_coeff c). }
  destruct evals as [|e0 [|e1 [|e2 [|e3 [|e4 rest]]]]]; try exact Hg.
  - by apply degree2_interpolates.
  - by apply degree3_interpolates.
Qed.

(** C24: interpolation is correct: in a field whose characteristic is at least the
    number of evaluations, [from_evals] never panics and returns as many
    coefficients as evaluations, of a polynomial that takes them at 0, 1, 2, ...;
    with a hint, the polynomial takes the first value at 0, the others at 2, 3, ...
    and its values at 0 and 1 add up to the hint. *)
Theorem from_evals_interpolates (evals : list F) hint :
  (1 <= length evals)%nat -> small_invertible (F := F) (S (length evals)) ->
  (exists p, from_evals evals = Some p /\ length (coeffs p) = length evals /\
     forall i, (i < length evals)%nat -> evaluate p (# i) = Some (at0 evals i)) /\
  (exists p, from_evals_and_hint hint evals = Some p /\ length (coeffs p) = S (length evals) /\
     evaluate p (# 0) = Some (at0 evals 0) /\ eval_poly (coeffs p) zero + eval_poly (coeffs p) one = hint /\
     forall i, (2 <= i <= length evals)%nat -> evaluate p (# i) = Some (at0 evals (i - 1))).
Proof.
  intros H1 Hs. assert (Hs' : small_invertible (F := F) (length evals)) by (intros k Hk; apply Hs; lia). split.
  - destruct (from_evals_spec evals H1 Hs') as (p & E & Hl & Hp). exists p. split; [done|]. split; [done|].
    intros i Hi. rewrite evaluate_spec by (intros Hn; rewrite Hn in Hl; cbn in Hl; lia). by rewrite Hp.
  - destruct evals as [|e0 rest]; [cbn in H1; lia|].
    destruct (from_evals_spec (e0 :: (hint - e0) :: rest) ltac:(cbn; lia) Hs) as (p & E & Hl & Hp).
    exists p. assert (Hn : coeffs p <> []) by (intros Hn; rewrite Hn in Hl; cbn in Hl; lia).
    split; [destruct rest as [|e2 [|e3 [|e4 rest]]]; exact E|]. split; [done|].
    rewrite evaluate_spec, (Hp 0%nat) by (done || cbn; lia). split; [done|].
    destruct nat_ones as (N0 & N1 & _). rewrite <- N0, <- N1 at 1. rewrite (Hp 0%nat), (Hp 1%nat) by (cbn; lia).
    split; [unfold at0; cbn; ring|].
    intros i Hi. rewrite evaluate_spec, Hp by (done || cbn in *; lia). destruct i as [|[|i]]; [lia|lia|done].
Qed.
End FromEvals.

(** ** Division *)

Section Division.
Context {F : Type} `{HI : InverseField F}.
Add Ring Fring6 : (@field_ring F _ _).
#[local] Open Scope field_scope.

Lemma is_zero_eval (l : list F) x : UniPoly_is_zero (from_coeff l) = true -> eval_poly l x = zero.
Proof.
  unfold UniPoly_is_zero. cbn [coeffs]. induction l as [|a l IH]; cbn; [done|].
  intros [Ha Hl]%andb_true_iff. apply bool_decide_eq_true in Ha as ->. rewrite IH by done. ring.
Qed.

(** Dropping the trailing zeros changes no value and never lengthens. *)
Lemma pop_zeros_rev_spec (l : list F) x :
  eval_poly (rev (pop_zeros_rev l)) x = eval_poly (rev l) x /\ (length (pop_zeros_rev l) <= length l)%nat.
Proof.
  induction l as [|c l [IHe IHl]]; [done|]. cbn [pop_zeros_rev]. case_bool_decide as Hc; [|done].
  subst c. split; [|cbn; lia]. rewrite IHe. cbn [rev]. rewrite eval_poly_app. cbn. ring.
Qed.
Lemma pop_zeros_eval (l : list F) x : eval_poly (pop_zeros l) x = eval_poly l x.
Proof. unfold pop_zeros. rewrite (proj1 (pop_zeros_rev_spec _ x)). by rewrite rev_involutive. Qed.
Lemma pop_zeros_shorter (l : list F) : (1 <= length l)%nat -> at0 l (length l - 1) = zero ->
  (length (pop_zeros l) < length l)%nat.
Proof.
  intros Hl Hz. destruct l as [|b l _] using rev_ind; [cbn in Hl; lia|].
  unfold at0 in Hz. rewrite length_app in *. cbn [length] in *. rewrite app_nth2 in Hz by lia.
  replace (length l + 1 - 1 - length l)%nat with 0%nat in Hz by lia. cbn in Hz. subst b.
  unfold pop_zeros. rewrite rev_app_distr. cbn [rev app pop_zeros_rev].
  rewrite bool_decide_eq_true_2 by done. rewrite length_rev.
  pose proof (proj2 (pop_zeros_rev_spec (rev l) zero)) as Hp. rewrite length_rev in Hp. lia.
Qed.

(** A combination computed cell by cell is the combination of the values. *)
Lemma eval_combined (a b c : list F) k x : length a = length b -> length c = length a ->
  (forall j, (j < length a)%nat -> at0 c j = at0 a j - k * at0 b j) ->
  eval_poly c x = eval_poly a x - k * eval_poly b x.
Proof.
  revert b c. induction a as [|u a IH]; intros [|v b] [|w c] Hb Hc Hj; try discriminate; [cbn; ring|].
  cbn [eval_poly]. rewrite (IH b c).
  - pose proof (Hj 0%nat ltac:(cbn; lia)) as H0. cbn in H0. rewrite H0. ring.
  - by injection Hb.
  - by injection Hc.
  - intros j Hlt. apply (Hj (S j)). cbn. lia.
Qed.

Lemma subtract_scaled_cells q d (divisor r : list F) j : (d + length divisor <= length r)%nat ->
  at0 (subtract_scaled q d divisor r) j =
  if ((d <=? j) && (j <? d + length divisor))%nat then at0 r j - q * at0 divisor (j - d) else at0 r j.
Proof. intros Hl. apply (up_pass (fun t v => v - q * at0 divisor t) d (length divisor) r j Hl). Qed.
Lemma subtract_scaled_length q d (divisor r : list F) : length (subtract_scaled q d divisor r) = length r.
Proof. apply loop_length. intros. apply length_insert. Qed.

Lemma subtract_scaled_eval q d (divisor r : list F) x : (d + length divisor = length r)%nat ->
  eval_poly (subtract_scaled q d divisor r) x = eval_poly r x - q * (fpow x d * eval_poly divisor x).
Proof.
  intros Hl. rewrite (eval_combined r (repeat zero d ++ divisor) _ q x).
  - rewrite eval_poly_app, eval_poly_zeros, repeat_length. ring.
  - rewrite length_app, repeat_length. lia.
  - apply subtract_scaled_length.
  - intros j Hj. rewrite subtract_scaled_cells by lia. unfold at0.
    destruct (Nat.leb_spec d j), (Nat.ltb_spec j (d + length divisor)); cbn [andb]; try lia.
    + by rewrite app_nth2, repeat_length by (rewrite repeat_length; lia).
    + rewrite app_nth1, nth_repeat by (rewrite repeat_length; lia). ring.
Qed.

Lemma eval_insert (l : list F) d c x : (d < length l)%nat -> at0 l d = zero ->
  eval_poly (<[d := c]> l) x = eval_poly l x + c * fpow x d.
Proof.
  revert d. induction l as [|a l IH]; intros d Hd Hz; [cbn in Hd; lia|]. destruct d as [|d]; cbn.
  - unfold at0 in Hz. cbn in Hz. subst a. ring.
  - change (insert d c l) with (<[d := c]> l). rewrite IH; [ring|cbn in Hd; lia|exact Hz].
Qed.

Lemma last_at0 (l : list F) c : list.last l = Some c -> (1 <= length l)%nat /\ at0 l (length l - 1) = c.
Proof.
  rewrite last_lookup. intros E. pose proof (lookup_lt_Some _ _ _ E). split; [lia|].
  unfold at0. rewrite nth_lookup. replace (length l - 1)%nat with (pred (length l)) by lia. by rewrite E.
Qed.
Lemma last_exists (l : list F) : (1 <= length l)%nat -> exists c, list.last l = Some c.
Proof. intros Hl. destruct (list.last l) eqn:E; [by eexists|]. apply last_None in E. subst l. cbn in Hl. lia. Qed.

(** A turn takes the multiple of the divisor away and shortens the remainder. *)
Lemma division_turn (divisor rem : list F) lead lead_d lead_inv : list.last divisor = Some lead_d ->
  lead_d * lead_inv = one -> list.last rem = Some lead -> (length divisor <= length rem)%nat ->
  let d := (length rem - length divisor)%nat in
  let rem' := pop_zeros (subtract_scaled (lead * lead_inv) d divisor rem) in
  (length rem' < length rem)%nat /\
  forall x, eval_poly rem x = lead * lead_inv * fpow x d * eval_poly divisor x + eval_poly rem' x.
Proof.
  intros [Hd1 Hd]%last_at0 Hinv [Hr1 Hr]%last_at0 Hle d rem'. split.
  - rewrite <- (subtract_scaled_length (lead * lead_inv) d divisor rem). apply pop_zeros_shorter.
    + rewrite subtract_scaled_length. lia.
    + rewrite subtract_scaled_length, subtract_scaled_cells by (unfold d; lia). unfold d.
      destruct (Nat.leb_spec (length rem - length divisor) (length rem - 1)); [|lia].
      destruct (Nat.ltb_spec (length rem - 1) (length rem - length divisor + length divisor)); [|lia]. cbn [andb].
      replace (length rem - 1 - (length rem - length divisor))%nat with (length divisor - 1)%nat by lia.
      rewrite Hr, Hd. transitivity (lead - lead * (lead_d * lead_inv)); [ring|]. rewrite Hinv. ring.
  - intros x. unfold rem'. rewrite pop_zeros_eval, subtract_scaled_eval by (unfold d; lia). ring.
Qed.

Definition small_remainder (divisor r : list F) : Prop :=
  UniPoly_is_zero (from_coeff r) = true \/ (length r < length divisor)%nat.

Lemma division_loop_spec (divisor : list F) lead_d lead_inv : list.last divisor = Some lead_d -> lead_d * lead_inv = one ->
  forall fuel q rem, (length rem <= fuel)%nat -> (length rem < length q + length divisor)%nat ->
  (forall i, (i + length divisor <= length rem)%nat -> at0 q i = zero) ->
  exists q' r, division_loop fuel divisor lead_inv q rem = Some (q', r) /\ small_remainder divisor r /\
    forall x, eval_poly divisor x * eval_poly q x + eval_poly rem x = eval_poly divisor x * eval_poly q' x + eval_poly r x.
Proof.
  intros Hd Hinv. pose proof (last_at0 _ _ Hd) as [Hd1 _].
  assert (Hstop : forall fuel q rem, small_remainder divisor rem -> division_loop fuel divisor lead_inv q rem = Some (q, rem)).
  { intros [|fuel] q rem [Hz|Hs]; cbn [division_loop]; rewrite ?Hz; cbn [orb]; try done;
      (destruct (Nat.ltb_spec (length rem) (length divisor)); [|lia]); by rewrite orb_true_r. }
  induction fuel as [|fuel IH]; intros q rem Hf Hq Hz.
  - assert (Hs : small_remainder divisor rem) by (right; lia).
    exists q, rem. split; [by apply Hstop|]. by split.
  - destruct (UniPoly_is_zero (from_coeff rem) || (length rem <? length divisor)%nat) eqn:E.
    { apply orb_true_iff in E as [E|E%Nat.ltb_lt].
      - exists q, rem. split; [apply Hstop; by left|]. split; [by left|done].
      - exists q, rem. split; [apply Hstop; by right|]. split; [by right|done]. }
    cbn [division_loop]. rewrite E. apply orb_false_iff in E as [_ Hle%Nat.ltb_ge].
    destruct (last_exists rem ltac:(lia)) as (lead & El). rewrite El. cbn [mbind option_bind].
    destruct (division_turn divisor rem lead lead_d lead_inv Hd Hinv El Hle) as [Hlt He].
    set (d := (length rem - length divisor)%nat) in *.
    set (rem' := pop_zeros _) in *. assert (Hdq : (d < length q)%nat) by (unfold d; lia).
    destruct (IH (<[d := lead * lead_inv]> q) rem') as (q' & r & E' & Hs & Hv); [lia|rewrite length_insert; lia| |].
    { intros i Hi. rewrite at0_insert by done. destruct (Nat.eqb_spec i d) as [->|_]; [unfold d in Hi; lia|].
      apply Hz. lia. }
    exists q', r. split; [exact E'|]. split; [done|]. intros x. rewrite <- Hv, eval_insert by (done || apply Hz; unfold d; lia).
    rewrite (He x). ring.
Qed.

(** C26: division terminates and is division: whenever the divisor's leading
    coefficient is not zero, the loop ends within as many turns as the dividend has
    coefficients, without a panic, and returns a quotient and a remainder with
    dividend = divisor * quotient + remainder at every point, the remainder zero or
    with fewer coefficients than the divisor; the zero divisor is refused. *)
Theorem division_terminates (p divisor : UniPoly F) lead :
  leading_coefficient divisor = Some lead -> lead <> zero ->
  (exists q r, divide_with_remainder p divisor = Some (Some (q, r)) /\
     (UniPoly_is_zero r = true \/ (length (coeffs r) < length (coeffs divisor))%nat) /\
     forall x, eval_poly (coeffs p) x = eval_poly (coeffs divisor) x * eval_poly (coeffs q) x + eval_poly (coeffs r) x) /\
  (UniPoly_is_zero p = false -> divide_with_remainder p UniPoly_zero = Some None).
Proof.
  intros Hl Hnz. split; [|by intros E; unfold divide_with_remainder; rewrite E].
  unfold divide_with_remainder. destruct p as [p], divisor as [dv]. cbn [coeffs] in *. unfold leading_coefficient in *. cbn [coeffs] in *.
  destruct (last_at0 _ _ Hl) as [H1 Hat].
  assert (Hdz : UniPoly_is_zero (from_coeff dv) = false).
  { apply not_true_is_false. unfold UniPoly_is_zero. cbn [coeffs]. rewrite forallb_forall. intros Hall.
    assert (Hin : In lead dv) by (rewrite <- Hat; apply nth_In; lia). exact (Hnz (bool_decide_eq_true_1 _ (Hall lead Hin))). }
  destruct (UniPoly_is_zero (from_coeff p)) eqn:Ez.
  { exists UniPoly_zero, UniPoly_zero. split; [done|]. split; [by left|]. intros x.
    rewrite (is_zero_eval p x Ez). cbn. ring. }
  rewrite Hdz. unfold degree. cbn [coeffs]. destruct (Nat.ltb_spec (length p - 1) (length dv - 1)) as [Hlt|Hge].
  { exists UniPoly_zero, (from_coeff p). split; [done|]. split; [right; cbn; lia|]. intros x. cbn. ring. }
  rewrite Hl. cbn [mbind option_bind]. destruct (inverse_nonzero lead Hnz) as (inv & -> & Hinv). cbn [mbind option_bind].
  assert (Hp1 : (1 <= length p)%nat) by (destruct p; [discriminate Ez|cbn; lia]).
  destruct (division_loop_spec dv lead inv Hl Hinv (length p) (repeat zero (length p - 1 - (length dv - 1) + 1)) p)
    as (q & r & -> & Hs & Hv); [lia|rewrite repeat_length; lia|intros; apply nth_repeat|].
  exists (from_coeff q), (from_coeff r). split; [done|]. split; [done|]. intros x. cbn [coeffs]. rewrite <- (Hv x), eval_poly_zeros. ring.
Qed.
End Division.

(** ** The domain sum *)

Section DomainSum.
Context {F : Type} `{HI : InverseField F}.
Add Ring Fring7 : (@field_ring F _ _).
#[local] Open Scope field_scope.

(** The exact power sums of a window. *)
Definition exact_sums (n out_len : nat) : list Z :=
  map (fun k => fold_right Z.add 0 (map (fun t => Z.pow t (Z.of_nat k)) (window n))) (seq 0 out_len).

(** The values of the polynomial on the window, added up. *)
Definition window_sum (n : nat) (c : list F) : F :=
  fold_right add zero (map (fun t => eval_poly c (from_u64 t)) (window n)).

Lemma fold_right_from (zs : list Z) : from_u64 (fold_right Z.add 0 zs) = fold_right add zero (map from_u64 zs) :> F.
Proof. induction zs as [|z zs IH]; cbn; [apply from_u64_0|]. by rewrite from_u64_add, IH. Qed.
Lemma fold_right_scale_add (c : F) (g h : Z -> F) ts :
  fold_right add zero (map (fun t => c * g t + h t) ts) = c * fold_right add zero (map g ts) + fold_right add zero (map h ts).
Proof. induction ts as [|t ts IH]; cbn; [ring|]. rewrite IH. ring. Qed.

Lemma sum_loop n out_len (c : list F) : forall k acc, (k + length c <= out_len)%nat ->
  fold_left (fun acc '(j, c) => acc ← acc; s ← exact_sums n out_len !! j; Some (acc + c * from_u64 s))
    (zip (seq k (length c)) c) (Some acc) =
  Some (acc + fold_right add zero (map (fun t => fpow (from_u64 t) k * eval_poly c (from_u64 t)) (window n))).
Proof.
  induction c as [|a c IH]; intros k acc Hl; cbn [length seq zip zip_with fold_left].
  - f_equal. cbn [eval_poly]. induction (window n) as [|t ts IH]; cbn; [ring|].
    transitivity (acc + fold_right add zero (map (fun t : Z => fpow (from_u64 t) k * zero) ts)); [exact IH|ring].
  - cbn [length] in Hl. cbn [mbind option_bind].
    replace (exact_sums n out_len !! k) with (Some (fold_right Z.add 0 (map (fun t => Z.pow t (Z.of_nat k)) (window n)))).
    2:{ unfold exact_sums. rewrite list_lookup_fmap, lookup_seq_lt by lia. done. }
    cbn [mbind option_bind]. rewrite IH by lia. f_equal. rewrite fold_right_from, map_map.
    rewrite (map_ext (fun t => fpow (from_u64 t) k * eval_poly (a :: c) (from_u64 t))
      (fun t => a * from_u64 (Z.pow t (Z.of_nat k)) + fpow (from_u64 t) (S k) * eval_poly c (from_u64 t))).
    2:{ intros t. rewrite from_u64_pow. cbn [eval_poly fpow]. ring. }
    rewrite fold_right_scale_add. ring.
Qed.

(** Where the power sums are the exact ones, the check compares the claim with
    the sum over the window. *)
Lemma check_sum_spec n out_len (p : UniPoly F) claim : power_sums n out_len = Some (exact_sums n out_len) ->
  (length (coeffs p) <= out_len)%nat ->
  check_sum_evals n out_len p claim = Some (bool_decide (window_sum n (coeffs p) = claim)).
Proof.
  intros E Hl. unfold check_sum_evals. rewrite E. cbn [mbind option_bind].
  rewrite (sum_loop n out_len (coeffs p) 0 zero) by lia. cbn [mbind option_bind]. do 2 f_equal.
  unfold window_sum. rewrite (map_ext (fun t => fpow (from_u64 t) 0 * eval_poly (coeffs p) (from_u64 t))
    (fun t => eval_poly (coeffs p) (from_u64 t))) by (intros t; cbn [fpow]; ring).
  apply bool_decide_ext. split; intros <-; ring.
Qed.
End DomainSum.

(** ** Examples *)

Lemma F97_small n : (n <= 97)%nat -> small_invertible (F := F97) n.
Proof.
  intros Hn k Hk E. apply (f_equal (@Zmod.to_Z 97)) in E. change (Zmod.to_Z (zero : F97)) with 0 in E.
  cbn [from_u64 F97Ops] in E. rewrite Zmod.to_Z_of_Z, Z.mod_small in E; lia.
Qed.
#[local] Notation "# z" := (from_u64 z : F97) (at level 1).

(** The values 5, 2, 60, 7, 90 at 0, .., 4, and the hint 30. *)
Lemma from_evals_interpolates_witness :
  exists p, from_evals (F := F97) [#5; #2; #60; #7; #90] = Some p /\ evaluate p (#3) = Some (#7).
Proof.
  destruct (from_evals_interpolates (F := F97) [#5; #2; #60; #7; #90] (#30)) as [(p & E & _ & Hp) _].
  - cbn. lia.
  - apply F97_small. cbn. lia.
  - exists p. split; [exact E|]. apply (Hp 3%nat). cbn. lia.
Defined.

(** [x^3 + 5 x + 1] divided by [2 x + 3]. *)
Lemma division_terminates_witness :
  exists q r, divide_with_remainder (F := F97) (from_coeff [#1; #5; #0; #1]) (from_coeff [#3; #2]) = Some (Some (q, r)) /\
    (length (coeffs r) < 2)%nat.
Proof.
  destruct (division_terminates (F := F97) (from_coeff [#1; #5; #0; #1]) (from_coeff [#3; #2]) (#2)) as [(q & r & E & Hs & _) _].
  - reflexivity.
  - intros E. apply (f_equal (@Zmod.to_Z 97)) in E. vm_compute in E. discriminate E.
  - exists q, r. split; [exact E|]. destruct Hs as [Hz|Hs]; [|exact Hs].
    vm_compute in E. injection E as <- <-. vm_compute in Hz. discriminate Hz.
Defined.

(** [7 + 4 x + 2 x^2 + 9 x^3], whose values at 0 and 1 add up to 29. *)
Lemma compression_roundtrip_witness :
  exists cp, compress (F := F97) (from_coeff [#7; #4; #2; #9]) = Some cp /\
    decompress cp (#29) = Some (from_coeff [#7; #4; #2; #9]) /\
    coeffs_except_linear_term cp = [#7; #2; #9].
Proof.
  destruct (proj1 (compression_roundtrip (F := F97)) (from_coeff [#7; #4; #2; #9]) (#29)) as (cp & E & D).
  - cbn. lia.
  - vm_compute. reflexivity.
  - exists cp. split; [exact E|]. split; [exact D|]. injection E as <-. reflexivity.
Defined.
