(* ===== verification/EqPoly.v ===== *)
(** * EqPoly: the equality polynomial and its tables

    [jolt-core/src/poly/eq_poly.rs]: the multilinear extension of equality, the
    tables of its values at the points of the hypercube (serial, parallel,
    cached by prefix or by suffix, over an aligned block of indices).  A parallel
    iterator over disjoint cells is the sequential pass.  Challenges are field
    elements.  Proved: every table holds the products [chi] that the source's
    documentation defines, in big-endian order. *)
From S2P Require Import Prelude Bits Field Poly.
From Stdlib Require Import Ring.

Section EqPoly.
Context {F : Type} `{HF : JoltField F}.
Add Ring Fring : (@field_ring F _ HF).
#[local] Open Scope field_scope.

Definition PARALLEL_THRESHOLD : nat := 16.

(** The asserted equality of the lengths is a panic. *)
Definition eq_mle (x y : list F) : option F :=
  if (length x =? length y)%nat
  then Some (fold_left mul (zip_with (fun x_i y_i => x_i * y_i + (one - x_i) * (one - y_i)) x y) one)
  else None.
(** [same] when the two points have the same endianness. *)
Definition mle_endian (same : bool) (x y : list F) : option F :=
  if same then eq_mle x y else eq_mle x (rev y).
Definition zero_selector (r : list F) : F := fold_left mul (map (fun r_i => one - r_i) r) one.

(** ** The tables *)

(** One round of the serial table, from the top: [size = 2 * half]. *)
Definition serial_pass (half : nat) (r : F) (evals : list F) : list F :=
  loop half (fun t evals => let i := (2 * half - 1 - 2 * t)%nat in
    let scalar := at0 evals (i / 2) in
    let evals := <[i := scalar * r]> evals in
    <[(i - 1)%nat := scalar - at0 evals i]> evals) evals.
Definition evals_serial (r : list F) (scaling_factor : option F) : list F :=
  snd (fold_left (fun '(size, evals) r_j => let size := (size * 2)%nat in (size, serial_pass (size / 2) r_j evals))
    r (1%nat, repeat (default one scaling_factor) (2 ^ length r))).

(** One round of the parallel table, the right half written from the left. *)
Definition parallel_pass (size : nat) (r : F) (evals : list F) : list F :=
  loop size (fun i evals => let y := at0 evals i * r in
    let evals := <[(size + i)%nat := y]> evals in
    <[i := at0 evals i - y]> evals) evals.
Definition evals_parallel (r : list F) (scaling_factor : option F) : list F :=
  snd (fold_left (fun '(size, evals) r_j => ((size * 2)%nat, parallel_pass size r_j evals))
    (rev r) (1%nat, <[0%nat := default one scaling_factor]> (repeat zero (2 ^ length r)))).

Definition evals_with_scaling (r : list F) (scaling_factor : option F) : list F :=
  if (length r <=? PARALLEL_THRESHOLD)%nat then evals_serial r scaling_factor else evals_parallel r scaling_factor.
Definition evals (r : list F) : list F := evals_with_scaling r None.

(** ** The cached tables *)

Definition row (rows : list (list F)) (j : nat) : list F := nth j rows [].
Definition initial_rows (n : nat) (scaling_factor : option F) : list (list F) :=
  map (fun i => repeat (default one scaling_factor) (2 ^ i)) (seq 0 (n + 1)).

(** Row [j + 1] from row [j]. *)
Definition cached_pass (half : nat) (r : F) (prev next : list F) : list F :=
  loop half (fun t next => let i := (2 * half - 1 - 2 * t)%nat in
    let scalar := at0 prev (i / 2) in
    let next := <[i := scalar * r]> next in
    <[(i - 1)%nat := scalar - at0 next i]> next) next.
Definition evals_serial_cached (r : list F) (scaling_factor : option F) : list (list F) :=
  snd (loop (length r) (fun j '(size, rows) => let size := (size * 2)%nat in
    (size, <[S j := cached_pass (size / 2) (at0 r j) (row rows j) (row rows (S j))]> rows))
    (1%nat, initial_rows (length r) scaling_factor)).
Definition evals_cached (r : list F) : list (list F) := evals_serial_cached r None.

Definition cached_rev_pass (size multiple : nat) (r : F) (prev next : list F) : list F :=
  loop size (fun i next => let scalar := at0 prev i in
    let next := <[(i + multiple)%nat := scalar * r]> next in
    <[i := scalar - at0 next (i + multiple)]> next) next.
Definition evals_serial_cached_rev (r : list F) (scaling_factor : option F) : list (list F) :=
  let n := length r in
  snd (loop n (fun j '(size, rows) => let r_val := at0 r (n - 1 - j) in
    ((size * 2)%nat, <[S j := cached_rev_pass size (2 ^ j) r_val (row rows j) (row rows (S j))]> rows))
    (1%nat, initial_rows n scaling_factor)).
Definition evals_cached_rev (r : list F) : list (list F) := evals_serial_cached_rev r None.

(** ** Aligned blocks

    Indices are [usize]s. *)

Definition prefix_scale (r : list F) (prefix_len : nat) (prefix_val : Z) : F :=
  loop prefix_len (fun i scale =>
    let bit := Z.land (Z.shiftr prefix_val (Z.of_nat (prefix_len - 1 - i))) 1 in
    scale * (if (bit =? 1)%Z then at0 r i else one - at0 r i)) one.
Definition evals_for_aligned_block (r : list F) (start_index block_size : Z) : option (list F) :=
  if is_power_of_two block_size && (start_index mod block_size =? 0)%Z then
    let total_vars := length r in
    let b := Z.to_nat (Z.log2 block_size) in
    if (b <=? total_vars)%nat then
      let prefix_len := (total_vars - b)%nat in
      let prefix_val := Z.shiftr start_index (Z.of_nat b) in
      Some (evals_with_scaling (drop prefix_len r) (Some (prefix_scale r prefix_len prefix_val)))
    else None
  else None.

Definition evals_for_max_aligned_block (r : list F) (start_index remaining_len : Z) : option (Z * list F) :=
  if (0 <? remaining_len)%Z then
    let max_len_pow := if is_power_of_two remaining_len then remaining_len
      else Z.shiftr (next_power_of_two_u64 remaining_len) 1 in
    let align_pow := if (start_index =? 0)%Z then as_u64 (Z.shiftl 1 (Z.of_nat (length r) mod 64))
      else as_u64 (Z.shiftl 1 (trailing_zeros 64 start_index mod 64)) in
    let block_size := Z.min max_len_pow align_pow in
    evals ← evals_for_aligned_block r start_index block_size;
    Some (block_size, evals)
  else None.
End EqPoly.

(** ** The products of the documentation *)

Section Chi.
Context {F : Type} `{HF : JoltField F}.
Add Ring Fring2 : (@field_ring F _ HF).
#[local] Open Scope field_scope.

(** [eq(r, x)] for the bits of [x], [r[0]] for the most significant of them. *)
Fixpoint chi (r : list F) (x : nat) : F :=
  match r with
  | [] => one
  | a :: r => (if Nat.testbit x (length r) then a else one - a) * chi r x
  end.

(** Only the low bits matter. *)
Lemma chi_ext r x y : (forall k, (k < length r)%nat -> Nat.testbit x k = Nat.testbit y k) -> chi r x = chi r y.
Proof.
  induction r as [|a r IH]; intros Hb; [done|]. cbn [chi]. rewrite Hb by (cbn; lia). f_equal.
  apply IH. intros k Hk. apply Hb. cbn. lia.
Qed.

(** A new least significant variable. *)
Lemma chi_snoc r a x : chi (r ++ [a]) x = chi r (x / 2) * (if Nat.odd x then a else one - a).
Proof.
  induction r as [|b r IH]; cbn [app chi length].
  - change (Nat.testbit x 0) with (Nat.odd x). destruct (Nat.odd x); ring.
  - rewrite IH, length_app, Nat.add_comm. cbn [length Nat.add].
    rewrite <- Nat.div2_div, Nat.testbit_div2. ring.
Qed.

(** A new most significant variable. *)
Lemma chi_cons_low a r x : (x < 2 ^ length r)%nat -> chi (a :: r) x = chi r x - chi r x * a.
Proof.
  intros Hx. cbn [chi]. rewrite <- (Nat.mod_small x (2 ^ length r)) at 1 by done.
  rewrite Nat.mod_pow2_bits_high by lia. ring.
Qed.
Lemma chi_cons_high a r x : (x < 2 ^ length r)%nat -> chi (a :: r) (2 ^ length r + x) = chi r x * a.
Proof.
  intros Hx. cbn [chi].
  assert (Ht : Nat.testbit (2 ^ length r + x) (length r) = true).
  { apply Nat.testbit_true. rewrite <- (Nat.mul_1_l (2 ^ length r)) at 1.
    rewrite Nat.div_add_l, Nat.div_small by lia. done. }
  rewrite Ht, (chi_ext r (2 ^ length r + x) x); [ring|].
  intros k Hk. rewrite <- (Nat.mod_pow2_bits_low _ (length r)) by done.
  rewrite <- (Nat.mul_1_l (2 ^ length r)) at 1. rewrite Nat.add_comm, Nat.Div0.mod_add.
  by rewrite Nat.mod_pow2_bits_low.
Qed.

(** The table of [s * chi r]. *)
Definition chi_table (s : F) (r : list F) : list F := map (fun x => s * chi r x) (seq 0 (2 ^ length r)).

Lemma chi_table_length s r : length (chi_table s r) = (2 ^ length r)%nat.
Proof. unfold chi_table. by rewrite length_map, length_seq. Qed.
Lemma chi_table_cell s r x : (x < 2 ^ length r)%nat -> at0 (chi_table s r) x = s * chi r x.
Proof.
  intros Hx. unfold at0, chi_table. rewrite nth_lookup, list_lookup_fmap, lookup_seq_lt by done. done.
Qed.

Lemma chi_table_nil s : chi_table s [] = [s].
Proof. unfold chi_table. cbn. f_equal. ring. Qed.

(** A list with the right cells is the table. *)
Lemma is_chi_table s r l : length l = (2 ^ length r)%nat ->
  (forall x, (x < 2 ^ length r)%nat -> at0 l x = s * chi r x) -> l = chi_table s r.
Proof.
  intros Hl Hc. apply at0_ext; [by rewrite chi_table_length|]. intros x Hx. rewrite Hl in Hx.
  by rewrite Hc, chi_table_cell.
Qed.

(** *** The serial rounds *)

Lemma serial_pass_length half r (e : list F) : length (serial_pass half r e) = length e.
Proof. apply loop_length. intros. by rewrite !length_insert. Qed.
Lemma cached_pass_length half r prev (e : list F) : length (cached_pass half r prev e) = length e.
Proof. apply loop_length. intros. by rewrite !length_insert. Qed.

(** The value a round puts in cell [j]. *)
Definition doubled (r : F) (prev : list F) (j : nat) : F :=
  if Nat.odd j then at0 prev (j / 2) * r else at0 prev (j / 2) - at0 prev (j / 2) * r.

(** Both forms of the round, the row read being [prev] above the cells already
    written. *)
Lemma pass_cells half r (prev e : list F) (read : list F -> nat -> F) m j : (2 * half <= length e)%nat -> (m <= half)%nat ->
  (forall l, length l = length e -> forall m', (m' < half)%nat ->
     (forall k, (k < 2 * (half - m'))%nat -> at0 l k = at0 e k) -> read l (half - 1 - m')%nat = at0 prev (half - 1 - m')) ->
  at0 (loop m (fun t e => let i := (2 * half - 1 - 2 * t)%nat in
    let scalar := read e (i / 2)%nat in
    let e := <[i := scalar * r]> e in
    <[(i - 1)%nat := scalar - at0 e i]> e) e) j =
  if ((2 * (half - m) <=? j) && (j <? 2 * half))%nat then doubled r prev j else at0 e j.
Proof.
  intros Hl Hm Hr. revert j Hm. induction m as [|m IH]; intros j Hm.
  - destruct (Nat.leb_spec (2 * (half - 0)) j), (Nat.ltb_spec j (2 * half)); (done || lia).
  - rewrite loop_S_r. cbv zeta. set (l := loop m _ e) in *.
    assert (Hll : length l = length e) by (apply loop_length; intros; cbv zeta; by rewrite !length_insert).
    assert (Hi2 : ((2 * half - 1 - 2 * m) / 2 = half - 1 - m)%nat).
    { replace (2 * half - 1 - 2 * m)%nat with (1 + (half - 1 - m) * 2)%nat by lia. by rewrite Nat.div_add. }
    rewrite !at0_insert by (rewrite ?length_insert; lia). rewrite Nat.eqb_refl, Hi2.
    rewrite (Hr l Hll m ltac:(lia)).
    2:{ intros k Hk. rewrite IH by lia. destruct (Nat.leb_spec (2 * (half - m)) k); [lia|done]. }
    unfold doubled. destruct (Nat.eqb_spec j (2 * half - 1 - 2 * m - 1)) as [Ej|Hne1].
    + replace (Nat.odd j) with false by (symmetry; subst j; replace (2 * half - 1 - 2 * m - 1)%nat with (2 * (half - 1 - m))%nat by lia; apply Nat.odd_even).
      replace (j / 2)%nat with (half - 1 - m)%nat by (subst j; replace (2 * half - 1 - 2 * m - 1)%nat with ((half - 1 - m) * 2)%nat by lia; symmetry; by apply Nat.div_mul).
      destruct (Nat.leb_spec (2 * (half - S m)) j), (Nat.ltb_spec j (2 * half)); (done || lia).
    + destruct (Nat.eqb_spec j (2 * half - 1 - 2 * m)) as [Ej|Hne2].
      * replace (Nat.odd j) with true by (symmetry; subst j; replace (2 * half - 1 - 2 * m)%nat with (2 * (half - 1 - m) + 1)%nat by lia; apply Nat.odd_odd).
        replace (j / 2)%nat with (half - 1 - m)%nat by (subst j; by rewrite Hi2).
        destruct (Nat.leb_spec (2 * (half - S m)) j), (Nat.ltb_spec j (2 * half)); (done || lia).
      * rewrite IH by lia. unfold doubled.
        destruct (Nat.leb_spec (2 * (half - m)) j), (Nat.leb_spec (2 * (half - S m)) j), (Nat.ltb_spec j (2 * half)); cbn [andb]; (done || lia).
Qed.

Lemma serial_pass_cells half r (e : list F) j : (2 * half <= length e)%nat ->
  at0 (serial_pass half r e) j = if (j <? 2 * half)%nat then doubled r e j else at0 e j.
Proof.
  intros Hl. unfold serial_pass. rewrite (pass_cells half r e e (fun e i => at0 e i) half j Hl); [|done|].
  - by rewrite Nat.sub_diag.
  - intros l _ m' Hm' Hk. apply Hk. lia.
Qed.
Lemma cached_pass_cells half r (prev e : list F) j : (2 * half <= length e)%nat ->
  at0 (cached_pass half r prev e) j = if (j <? 2 * half)%nat then doubled r prev j else at0 e j.
Proof.
  intros Hl. unfold cached_pass. rewrite (pass_cells half r prev e (fun _ i => at0 prev i) half j Hl); [|done|done].
  by rewrite Nat.sub_diag.
Qed.

(** A round turns the table of [r] into that of [r ++ [a]]. *)
Lemma doubled_chi s r a (prev : list F) j : (forall x, (x < 2 ^ length r)%nat -> at0 prev x = s * chi r x) ->
  (j < 2 * 2 ^ length r)%nat -> doubled a prev j = s * chi (r ++ [a]) j.
Proof.
  intros Hp Hj. unfold doubled. rewrite chi_snoc, Hp by (apply Nat.Div0.div_lt_upper_bound; lia).
  destruct (Nat.odd j); ring.
Qed.

Lemma evals_serial_spec r scaling : evals_serial r scaling = chi_table (default one scaling) r.
Proof.
  set (s := default one scaling). unfold evals_serial. fold s.
  assert (Hg : forall done todo e, (length (done ++ todo) = length r)%nat -> length e = (2 ^ length r)%nat ->
    (forall x, (x < 2 ^ length done)%nat -> at0 e x = s * chi done x) ->
    snd (fold_left (fun '(size, evals) r_j => let size := (size * 2)%nat in (size, serial_pass (size / 2) r_j evals))
      todo ((2 ^ length done)%nat, e)) = chi_table s (done ++ todo)).
  { intros done todo. revert done. induction todo as [|a todo IH]; intros done e Hl He Hc.
    - rewrite app_nil_r in *. cbn. apply is_chi_table; [congruence|done].
    - cbn [fold_left]. rewrite Nat.div_mul by done.
      replace (2 ^ length done * 2)%nat with (2 ^ length (done ++ [a]))%nat by
        (rewrite length_app, Nat.add_comm; cbn; lia).
      rewrite (IH (done ++ [a])); rewrite <- ?app_assoc; [done|done|by rewrite serial_pass_length|].
      assert (Hle : (2 * 2 ^ length done <= length e)%nat).
      { rewrite He, <- Hl, length_app. change (2 * 2 ^ length done)%nat with (2 ^ S (length done))%nat.
        apply Nat.pow_le_mono_r; cbn; lia. }
      intros x Hx. rewrite length_app, Nat.add_comm in Hx. cbn in Hx. rewrite serial_pass_cells by done.
      destruct (Nat.ltb_spec x (2 * 2 ^ length done)); [|lia]. by apply doubled_chi. }
  apply (Hg [] r (repeat s (2 ^ length r))); [done|by rewrite repeat_length|].
  intros [|x] Hx; [|cbn in Hx; lia]. unfold at0. rewrite nth_repeat_lt by apply Nat.neq_0_lt_0, Nat.pow_nonzero, Nat.neq_succ_0.
  cbn. ring.
Qed.

(** *** The parallel rounds *)

Lemma parallel_pass_length size r (e : list F) : length (parallel_pass size r e) = length e.
Proof. apply loop_length. intros. by rewrite !length_insert. Qed.

Lemma parallel_pass_cells size r (e : list F) j : (2 * size <= length e)%nat -> (j < 2 * size)%nat ->
  at0 (parallel_pass size r e) j = if (j <? size)%nat then at0 e j - at0 e j * r else at0 e (j - size) * r.
Proof.
  intros Hl Hj. unfold parallel_pass.
  assert (Hm : forall m j, (m <= size)%nat ->
    at0 (loop m (fun i e => let y := at0 e i * r in let e := <[(size + i)%nat := y]> e in <[i := at0 e i - y]> e) e) j =
    if (j <? m)%nat then at0 e j - at0 e j * r
    else if ((size <=? j) && (j <? size + m))%nat then at0 e (j - size) * r else at0 e j).
  { clear j Hj. induction m as [|m IH]; intros j Hm.
    - destruct (Nat.ltb_spec j 0), (Nat.leb_spec size j), (Nat.ltb_spec j (size + 0)); (done || lia).
    - rewrite loop_S_r. cbv zeta. set (l := loop m _ e) in *.
      assert (Hll : length l = length e) by (apply loop_length; intros; by rewrite !length_insert).
      rewrite !at0_insert by (rewrite ?length_insert; lia). rewrite !IH by lia.
      destruct (Nat.ltb_spec m m); [lia|]. destruct (Nat.eqb_spec m (size + m)); [lia|].
      destruct (Nat.leb_spec size m); [lia|]. cbn [andb].
      destruct (Nat.eqb_spec j m) as [->|]; [destruct (Nat.ltb_spec m (S m)); (done || lia)|].
      destruct (Nat.eqb_spec j (size + m)) as [->|].
      + destruct (Nat.ltb_spec (size + m) (S m)); [lia|]. destruct (Nat.leb_spec size (size + m)); [|lia].
        destruct (Nat.ltb_spec (size + m) (size + S m)); [|lia]. cbn [andb]. by replace (size + m - size)%nat with m by lia.
      + destruct (Nat.ltb_spec j m), (Nat.ltb_spec j (S m)), (Nat.leb_spec size j), (Nat.ltb_spec j (size + m)),
          (Nat.ltb_spec j (size + S m)); cbn [andb]; (done || lia). }
  rewrite Hm by lia. destruct (Nat.ltb_spec j size); [done|].
  destruct (Nat.leb_spec size j), (Nat.ltb_spec j (size + size)); (done || lia).
Qed.

(** The table of [a :: r] from that of [r]. *)
Lemma halves_chi s a r (e : list F) j : (forall x, (x < 2 ^ length r)%nat -> at0 e x = s * chi r x) ->
  (j < 2 * 2 ^ length r)%nat ->
  (if (j <? 2 ^ length r)%nat then at0 e j - at0 e j * a else at0 e (j - 2 ^ length r) * a) = s * chi (a :: r) j.
Proof.
  intros Hc Hj. destruct (Nat.ltb_spec j (2 ^ length r)) as [Hlt|Hge].
  - rewrite Hc, chi_cons_low by done. ring.
  - replace j with (2 ^ length r + (j - 2 ^ length r))%nat at 2 by lia.
    rewrite chi_cons_high, Hc by lia. ring.
Qed.

Lemma nat_pow2_pos n : (0 < 2 ^ n)%nat.
Proof. apply Nat.neq_0_lt_0, Nat.pow_nonzero, Nat.neq_succ_0. Qed.

Lemma evals_parallel_spec r scaling : evals_parallel r scaling = chi_table (default one scaling) r.
Proof.
  set (s := default one scaling). unfold evals_parallel. fold s.
  assert (Hg : forall todo done e, length (rev todo ++ done) = length r -> length e = (2 ^ length r)%nat ->
    (forall x, (x < 2 ^ length done)%nat -> at0 e x = s * chi done x) ->
    snd (fold_left (fun '(size, evals) r_j => ((size * 2)%nat, parallel_pass size r_j evals))
      todo ((2 ^ length done)%nat, e)) = chi_table s (rev todo ++ done)).
  { intros todo. induction todo as [|a todo IH]; intros done e Hl He Hc.
    - cbn in *. apply is_chi_table; [congruence|done].
    - cbn [fold_left rev] in *. rewrite <- app_assoc in *. cbn [app] in *.
      replace (2 ^ length done * 2)%nat with (2 ^ length (a :: done))%nat by (cbn; lia).
      rewrite (IH (a :: done)); [done|done|by rewrite parallel_pass_length|].
      assert (Hle : (2 * 2 ^ length done <= length e)%nat).
      { rewrite He, <- Hl, length_app. change (2 * 2 ^ length done)%nat with (2 ^ S (length done))%nat.
        apply Nat.pow_le_mono_r; cbn; lia. }
      intros x Hx. change (2 ^ length (a :: done))%nat with (2 * 2 ^ length done)%nat in Hx.
      rewrite parallel_pass_cells by done. by apply halves_chi. }
  pose proof (Hg (rev r) [] (<[0%nat := s]> (repeat zero (2 ^ length r)))) as Hr. rewrite rev_involutive, app_nil_r in Hr.
  apply Hr; [done|by rewrite length_insert, repeat_length|].
  intros [|x] Hx; [|cbn in Hx; lia]. rewrite at0_insert by (rewrite repeat_length; apply nat_pow2_pos). cbn. ring.
Qed.

Lemma evals_with_scaling_spec r scaling : evals_with_scaling r scaling = chi_table (default one scaling) r.
Proof.
  unfold evals_with_scaling. destruct (length r <=? PARALLEL_THRESHOLD)%nat; [apply evals_serial_spec|apply evals_parallel_spec].
Qed.
Lemma evals_spec r : evals r = chi_table one r.
Proof. apply evals_with_scaling_spec. Qed.

(** *** The cached rows *)

Lemma rows_loop (pass : nat -> nat -> list F -> list F -> list F) (tab : nat -> list F) n scaling :
  tab 0%nat = [default one scaling] ->
  (forall j next, (j < n)%nat -> length next = (2 ^ S j)%nat -> pass j (2 ^ j)%nat (tab j) next = tab (S j)) ->
  snd (loop n (fun j '(size, rows) => ((size * 2)%nat, <[S j := pass j size (row rows j) (row rows (S j))]> rows))
    (1%nat, initial_rows n scaling)) = map tab (seq 0 (n + 1)).
Proof.
  intros H0 Hp. set (body := fun (j : nat) '(size, rows) =>
    ((size * 2)%nat, <[S j := pass j size (row rows j) (row rows (S j))]> rows)).
  assert (Hm : forall m, (m <= n)%nat -> exists rows, loop m body (1%nat, initial_rows n scaling) = ((2 ^ m)%nat, rows) /\
    length rows = (n + 1)%nat /\ forall k, (k <= n)%nat -> row rows k = if (k <=? m)%nat then tab k
      else repeat (default one scaling) (2 ^ k)).
  { induction m as [|m IH]; intros Hmn.
    - exists (initial_rows n scaling). split; [done|]. unfold initial_rows. split; [by rewrite length_map, length_seq|].
      intros k Hk. unfold row. rewrite nth_lookup, list_lookup_fmap, lookup_seq_lt by lia. cbn.
      destruct k; [by rewrite H0|done].
    - destruct (IH ltac:(lia)) as (rows & E & Hl & Hr). rewrite loop_S_r, E. cbn [body]. eexists. split.
      { f_equal. rewrite Nat.mul_comm. done. }
      split; [by rewrite length_insert|]. intros k Hk. unfold row at 1. rewrite nth_lookup.
      destruct (decide (k = S m)) as [->|Hne].
      + rewrite list_lookup_insert_eq by lia. cbn [default]. rewrite Nat.leb_refl, !Hr by lia. rewrite Nat.leb_refl.
        destruct (Nat.leb_spec (S m) m); [lia|]. apply Hp; [lia|apply repeat_length].
      + rewrite list_lookup_insert_ne, <- nth_lookup by done. etransitivity; [apply (Hr k Hk)|].
        destruct (Nat.leb_spec k m), (Nat.leb_spec k (S m)); (done || lia). }
  destruct (Hm n ltac:(lia)) as (rows & E & Hl & Hr). rewrite E. cbn [snd].
  apply (nth_ext _ _ [] []); [by rewrite length_map, length_seq|].
  intros k Hk. rewrite (nth_lookup (map tab _)), list_lookup_fmap, lookup_seq_lt by lia. cbn.
  etransitivity; [apply (Hr k); lia|]. destruct (Nat.leb_spec k n); [done|lia].
Qed.

Lemma take_S_at0 (r : list F) j : (j < length r)%nat -> take (S j) r = take j r ++ [at0 r j].
Proof. intros Hj. destruct (nth_lookup_or_length r j zero) as [E|E]; [|lia]. unfold at0. by apply take_S_r. Qed.
Lemma drop_at0 (r : list F) j : (j < length r)%nat -> drop j r = at0 r j :: drop (S j) r.
Proof. intros Hj. destruct (nth_lookup_or_length r j zero) as [E|E]; [|lia]. unfold at0. by apply drop_S. Qed.

Lemma evals_serial_cached_spec r scaling :
  evals_serial_cached r scaling = map (fun j => chi_table (default one scaling) (take j r)) (seq 0 (length r + 1)).
Proof.
  set (s := default one scaling).
  apply (rows_loop (fun j size prev next => cached_pass (size * 2 / 2) (at0 r j) prev next) (fun j => chi_table s (take j r))).
  { rewrite take_0. apply chi_table_nil. }
  intros j next Hj Hl. rewrite Nat.div_mul by done. rewrite take_S_at0 by done. set (p := take j r).
  assert (Hp : length p = j) by (unfold p; rewrite length_take; lia).
  apply is_chi_table; [rewrite cached_pass_length, Hl, length_app, Nat.add_comm; cbn; by rewrite Hp|].
  intros x Hx. rewrite length_app, Hp, Nat.add_comm in Hx. cbn [length Nat.add] in Hx.
  change (2 ^ S j)%nat with (2 * 2 ^ j)%nat in *. rewrite cached_pass_cells by lia.
  destruct (Nat.ltb_spec x (2 * 2 ^ j)); [|lia]. apply doubled_chi; rewrite Hp; [|done].
  intros y Hy. apply chi_table_cell. by rewrite Hp.
Qed.

Lemma cached_rev_pass_length size m r prev (e : list F) : length (cached_rev_pass size m r prev e) = length e.
Proof. apply loop_length. intros. by rewrite !length_insert. Qed.
Lemma cached_rev_pass_cells size r (prev e : list F) j : (2 * size <= length e)%nat -> (j < 2 * size)%nat ->
  at0 (cached_rev_pass size size r prev e) j =
  if (j <? size)%nat then at0 prev j - at0 prev j * r else at0 prev (j - size) * r.
Proof.
  intros Hl Hj. unfold cached_rev_pass.
  assert (Hm : forall m j, (m <= size)%nat ->
    at0 (loop m (fun i next => let scalar := at0 prev i in let next := <[(i + size)%nat := scalar * r]> next in
      <[i := scalar - at0 next (i + size)]> next) e) j =
    if (j <? m)%nat then at0 prev j - at0 prev j * r
    else if ((size <=? j) && (j <? size + m))%nat then at0 prev (j - size) * r else at0 e j).
  { clear j Hj. induction m as [|m IH]; intros j Hm.
    - destruct (Nat.ltb_spec j 0), (Nat.leb_spec size j), (Nat.ltb_spec j (size + 0)); (done || lia).
    - rewrite loop_S_r. cbv zeta. set (l := loop m _ e) in *.
      assert (Hll : length l = length e) by (apply loop_length; intros; by rewrite !length_insert).
      rewrite !at0_insert by (rewrite ?length_insert; lia). rewrite Nat.eqb_refl.
      destruct (Nat.eqb_spec j m) as [->|]; [destruct (Nat.ltb_spec m (S m)); (done || lia)|].
      destruct (Nat.eqb_spec j (m + size)) as [->|].
      + destruct (Nat.ltb_spec (m + size) (S m)); [lia|]. destruct (Nat.leb_spec size (m + size)); [|lia].
        destruct (Nat.ltb_spec (m + size) (size + S m)); [|lia]. cbn [andb]. by replace (m + size - size)%nat with m by lia.
      + rewrite IH by lia. destruct (Nat.ltb_spec j m), (Nat.ltb_spec j (S m)), (Nat.leb_spec size j), (Nat.ltb_spec j (size + m)),
          (Nat.ltb_spec j (size + S m)); cbn [andb]; (done || lia). }
  rewrite Hm by lia. destruct (Nat.ltb_spec j size); [done|].
  destruct (Nat.leb_spec size j), (Nat.ltb_spec j (size + size)); (done || lia).
Qed.

Lemma evals_serial_cached_rev_spec r scaling :
  evals_serial_cached_rev r scaling =
  map (fun j => chi_table (default one scaling) (drop (length r - j) r)) (seq 0 (length r + 1)).
Proof.
  set (s := default one scaling).
  apply (rows_loop (fun j size prev next => cached_rev_pass size (2 ^ j) (at0 r (length r - 1 - j)) prev next)
    (fun j => chi_table s (drop (length r - j) r))).
  { rewrite Nat.sub_0_r, drop_all. apply chi_table_nil. }
  intros j next Hj Hl. replace (length r - S j)%nat with (length r - 1 - j)%nat by lia.
  rewrite (drop_at0 r (length r - 1 - j)) by lia. replace (S (length r - 1 - j)) with (length r - j)%nat by lia.
  set (p := drop (length r - j) r). assert (Hp : length p = j) by (unfold p; rewrite length_drop; lia).
  apply is_chi_table; [rewrite cached_rev_pass_length, Hl; cbn [length]; by rewrite Hp|].
  intros x Hx. cbn [length] in Hx. rewrite Hp in Hx. change (2 ^ S j)%nat with (2 * 2 ^ j)%nat in *.
  rewrite cached_rev_pass_cells by lia.
  pose proof (halves_chi s (at0 r (length r - 1 - j)) p (chi_table s p) x) as Hh. rewrite Hp in Hh. apply Hh; [|done].
  intros y Hy. apply chi_table_cell. by rewrite Hp.
Qed.

(** *** Equality at a vertex *)

(** The [n] low bits of [x], most significant first, as field elements. *)
Fixpoint vertex (n x : nat) : list F :=
  match n with O => [] | S n => (if Nat.testbit x n then one else zero) :: vertex n x end.

Lemma fold_mul_acc (l : list F) s : fold_left mul l s = s * fold_left mul l one.
Proof. revert s. induction l as [|a l IH]; intros s; cbn; [ring|]. rewrite IH, (IH (one * a)). ring. Qed.
Lemma vertex_length n x : length (vertex n x) = n.
Proof. induction n as [|n IH]; cbn; congruence. Qed.
Lemma eq_mle_vertex r x : eq_mle r (vertex (length r) x) = Some (chi r x).
Proof.
  unfold eq_mle. rewrite vertex_length, Nat.eqb_refl. f_equal.
  induction r as [|a r IH]; [done|]. cbn [length vertex zip_with fold_left chi].
  rewrite fold_mul_acc. etransitivity; [apply f_equal, IH|]. destruct (Nat.testbit x (length r)); ring.
Qed.
Lemma zero_selector_spec r : zero_selector r = chi r 0.
Proof.
  unfold zero_selector. induction r as [|a r IH]; [done|]. cbn [map fold_left chi]. rewrite Nat.bits_0, fold_mul_acc, IH. ring.
Qed.

(** *** Blocks *)

Lemma chi_app a b x : chi (a ++ b) x = chi a (x / 2 ^ length b) * chi b x.
Proof.
  induction a as [|v a IH]; cbn [app chi length]; [ring|]. rewrite IH, length_app, <- Nat.div_pow2_bits.
  ring.
Qed.

Lemma to_nat_div2 z : (0 <= z)%Z -> (Z.to_nat z / 2)%nat = Z.to_nat (z / 2).
Proof. intros Hz. by rewrite (Z2Nat.inj_div z 2). Qed.
Lemma bit_odd z : (0 <= z)%Z -> (Z.land z 1 =? 1)%Z = Nat.odd (Z.to_nat z).
Proof.
  intros Hz. change 1%Z with (Z.ones 1) at 1. rewrite Z.land_ones, Z.pow_1_r, Zmod_odd by lia.
  replace (Nat.odd (Z.to_nat z)) with (Z.odd z); [by destruct (Z.odd z)|].
  rewrite <- (Z2Nat.id z) at 1 by done. generalize (Z.to_nat z) as n. clear. intros n.
  destruct (Nat.Even_or_Odd n) as [[k ->]|[k ->]].
  - rewrite Nat.odd_even, Nat2Z.inj_mul. apply Z.odd_even.
  - rewrite Nat.odd_odd, Nat2Z.inj_add, Nat2Z.inj_mul. apply Z.odd_odd.
Qed.

Lemma prefix_scale_spec r p v : (p <= length r)%nat -> (0 <= v)%Z -> prefix_scale r p v = chi (take p r) (Z.to_nat v).
Proof.
  intros Hp Hv. unfold prefix_scale.
  assert (Hm : forall m, (m <= p)%nat ->
    loop m (fun i scale => let bit := Z.land (Z.shiftr v (Z.of_nat (p - 1 - i))) 1 in
      scale * (if (bit =? 1)%Z then at0 r i else one - at0 r i)) one =
    chi (take m r) (Z.to_nat (Z.shiftr v (Z.of_nat (p - m))))).
  { induction m as [|m IH]; intros Hm; [by rewrite take_0|].
    rewrite loop_S_r, IH by lia. cbv zeta. rewrite take_S_at0 by lia. rewrite chi_snoc, bit_odd by (apply Z.shiftr_nonneg; lia).
    replace (p - S m)%nat with (p - 1 - m)%nat by lia. f_equal. f_equal.
    rewrite to_nat_div2 by (apply Z.shiftr_nonneg; lia). f_equal.
    rewrite !Z.shiftr_div_pow2, Z.div_div by lia. f_equal.
    replace (p - m)%nat with (S (p - 1 - m)) by lia. rewrite Nat2Z.inj_succ, Z.pow_succ_r by lia. lia. }
  rewrite Hm by lia. by rewrite Nat.sub_diag, Z.shiftr_0_r.
Qed.

Lemma to_nat_pow2 b : Z.to_nat (2 ^ Z.of_nat b) = (2 ^ b)%nat.
Proof. rewrite <- (Nat2Z.id (2 ^ b)). f_equal. by rewrite Nat2Z.inj_pow. Qed.

Lemma aligned_block_spec r start b : (0 <= start)%Z -> (b <= length r)%nat -> start mod 2 ^ Z.of_nat b = 0%Z ->
  exists es, evals_for_aligned_block r start (2 ^ Z.of_nat b) = Some es /\ length es = (2 ^ b)%nat /\
    forall j, (j < 2 ^ b)%nat -> at0 es j = chi r (Z.to_nat start + j).
Proof.
  intros Hs Hb Ha. unfold evals_for_aligned_block, is_power_of_two. rewrite Z.log2_pow2, Nat2Z.id by lia.
  rewrite Z.eqb_refl, Ha, Z.eqb_refl. destruct (Z.ltb_spec 0 (2 ^ Z.of_nat b)); [|lia]. cbn [andb].
  destruct (Nat.leb_spec b (length r)); [|lia]. eexists. split; [reflexivity|]. rewrite evals_with_scaling_spec.
  set (p := (length r - b)%nat). assert (Hd : length (drop p r) = b) by (unfold p; rewrite length_drop; lia).
  rewrite chi_table_length, Hd. split; [done|]. intros j Hj. rewrite chi_table_cell by (by rewrite Hd). cbn [default].
  rewrite prefix_scale_spec by (unfold p; lia || (apply Z.shiftr_nonneg; lia)).
  rewrite <- (take_drop p r) at 3. rewrite chi_app, Hd.
  assert (Hsb : Z.to_nat start = (Z.to_nat (Z.shiftr start (Z.of_nat b)) * 2 ^ b)%nat).
  { rewrite <- to_nat_pow2, <- Z2Nat.inj_mul by (apply Z.shiftr_nonneg || lia; lia). f_equal.
    rewrite Z.shiftr_div_pow2 by lia. pose proof (Z.div_mod start (2 ^ Z.of_nat b) ltac:(lia)). lia. }
  rewrite Hsb. rewrite Nat.div_add_l, (Nat.div_small j), Nat.add_0_r by lia. f_equal.
  apply chi_ext. rewrite Hd. intros k Hk. rewrite <- (Nat.mod_pow2_bits_low (_ + j) b k) by done.
  rewrite Nat.add_comm, Nat.Div0.mod_add. by rewrite Nat.mod_small.
Qed.

(** The number of trailing zeros of a word is the exponent of the largest power
    of two that divides it. *)
Lemma trailing_zeros_divides w v : (0 < v < 2 ^ Z.of_nat w)%Z ->
  (0 <= trailing_zeros w v < Z.of_nat w)%Z /\ (v mod 2 ^ trailing_zeros w v = 0)%Z.
Proof.
  revert v. induction w as [|w IH]; intros v Hv; [cbn in Hv; lia|]. cbn [trailing_zeros].
  destruct (Z.odd v) eqn:E; [split; [lia|by rewrite Z.mod_1_r]|].
  rewrite Z.shiftr_div_pow2, Z.pow_1_r by lia. rewrite Nat2Z.inj_succ, Z.pow_succ_r in Hv by lia.
  pose proof (Z.div_mod v 2 ltac:(lia)) as Hd. rewrite Zmod_odd, E in Hd.
  destruct (IH (v / 2)%Z ltac:(lia)) as [Hr Hm]. split; [lia|].
  rewrite Z.add_1_l, Z.pow_succ_r by lia. rewrite Hd at 1. rewrite Z.add_0_r, Z.mul_mod_distr_l by lia. lia.
Qed.

Lemma max_len_pow_spec n rem : (n < 64)%nat -> (0 < rem <= 2 ^ Z.of_nat n)%Z ->
  (if is_power_of_two rem then rem else Z.shiftr (next_power_of_two_u64 rem) 1) = (2 ^ Z.log2 rem)%Z.
Proof.
  intros Hn Hr. unfold is_power_of_two. destruct (Z.ltb_spec 0 rem); [|lia]. cbn [andb].
  destruct (Z.eqb_spec (2 ^ Z.log2 rem) rem) as [E|Hne]; [done|]. unfold next_power_of_two_u64.
  destruct (Z.leb_spec rem 1); [replace rem with 1 in Hne by lia; done|].
  assert (Hlt : (rem < 2 ^ Z.of_nat n)%Z).
  { destruct (decide (rem = 2 ^ Z.of_nat n)%Z) as [->|]; [|lia]. rewrite Z.log2_pow2 in Hne by lia. done. }
  assert (Hl : (Z.log2 rem < Z.of_nat n)%Z) by (apply Z.log2_lt_pow2; lia).
  assert (Hup : Z.log2_up rem = Z.succ (Z.log2 rem)).
  { pose proof (Z.le_log2_up_succ_log2 rem). pose proof (Z.le_log2_log2_up rem).
    destruct (decide (Z.log2_up rem = Z.log2 rem)) as [E|]; [|lia].
    exfalso. apply Hne.
    destruct (proj1 (Z.log2_log2_up_exact rem ltac:(lia)) (eq_sym E)) as [b Hb]. rewrite Hb.
    destruct (decide (0 <= b)%Z); [by rewrite Z.log2_pow2|]. rewrite Z.pow_neg_r in Hb by lia. lia. }
  rewrite Hup, Z.pow_succ_r by apply Z.log2_nonneg.
  assert (Hb : (2 ^ Z.log2 rem < 2 ^ 63)%Z) by (apply Z.pow_lt_mono_r; lia).
  pose proof (Z.pow_pos_nonneg 2 (Z.log2 rem) ltac:(lia) (Z.log2_nonneg _)) as Hpos.
  rewrite wrapu_small. 2:{ unfold in_u. lia. }
  rewrite Z.shiftr_div_pow2, Z.pow_1_r, Z.mul_comm by lia. by apply Z.div_mul.
Qed.

Lemma max_block_spec r start rem : (length r < 64)%nat -> (0 <= start)%Z -> (0 < rem)%Z ->
  (start + rem <= 2 ^ Z.of_nat (length r))%Z ->
  exists b es, evals_for_max_aligned_block r start rem = Some ((2 ^ Z.of_nat b)%Z, es) /\
    (2 ^ Z.of_nat b <= rem)%Z /\ length es = (2 ^ b)%nat /\
    forall j, (j < 2 ^ b)%nat -> at0 es j = chi r (Z.to_nat start + j).
Proof.
  intros Hn Hs Hr Hle. unfold evals_for_max_aligned_block. destruct (Z.ltb_spec 0 rem); [|lia].
  rewrite (max_len_pow_spec (length r)) by lia.
  assert (Hal : exists k, (0 <= k < 64)%Z /\ (start mod 2 ^ k = 0)%Z /\
    (if (start =? 0)%Z then as_u64 (Z.shiftl 1 (Z.of_nat (length r) mod 64))
     else as_u64 (Z.shiftl 1 (trailing_zeros 64 start mod 64))) = (2 ^ k)%Z).
  { assert (Hw : forall k, (0 <= k < 64)%Z -> as_u64 (Z.shiftl 1 (k mod 64)) = (2 ^ k)%Z).
    { intros k Hk. rewrite Z.mod_small, Z.shiftl_1_l by lia. apply wrapu_small.
      pose proof (Z.pow_lt_mono_r 2 k 64 ltac:(lia) ltac:(lia) ltac:(lia)). unfold in_u. lia. }
    destruct (Z.eqb_spec start 0) as [->|Hnz].
    - exists (Z.of_nat (length r)). split; [lia|]. split; [apply Z.mod_0_l; lia|apply Hw; lia].
    - assert (H64 : (start < 2 ^ Z.of_nat 64)%Z).
      { pose proof (Z.pow_lt_mono_r 2 (Z.of_nat (length r)) 64 ltac:(lia) ltac:(lia) ltac:(lia)). lia. }
      destruct (trailing_zeros_divides 64 start ltac:(lia)) as [Ht Hm]. exists (trailing_zeros 64 start).
      split; [lia|]. split; [done|apply Hw; lia]. }
  destruct Hal as (k & Hk & Hmod & ->). set (l := Z.log2 rem).
  assert (Hl0 : (0 <= l)%Z) by apply Z.log2_nonneg.
  assert (Hmin : (Z.min (2 ^ l) (2 ^ k) = 2 ^ Z.of_nat (Z.to_nat (Z.min l k)))%Z).
  { rewrite Z2Nat.id by lia. destruct (Z.min_spec l k) as [[? ->]|[? ->]].
    - apply Z.min_l, Z.pow_le_mono_r; lia.
    - apply Z.min_r, Z.pow_le_mono_r; lia. }
  rewrite Hmin. set (b := Z.to_nat (Z.min l k)). assert (Hbz : Z.of_nat b = Z.min l k) by (unfold b; lia).
  assert (Hbr : (2 ^ Z.of_nat b <= rem)%Z).
  { transitivity (2 ^ l)%Z; [apply Z.pow_le_mono_r; lia|]. by apply Z.log2_spec. }
  destruct (aligned_block_spec r start b Hs) as (es & E & Hes & Hc).
  - apply Nat2Z.inj_le, (Z.pow_le_mono_r_iff 2); lia.
  - apply Z.mod_divide; [lia|]. transitivity (2 ^ k)%Z; [|apply Z.mod_divide; [lia|done]].
    exists (2 ^ (k - Z.of_nat b))%Z. rewrite <- Z.pow_add_r by lia. f_equal. lia.
  - exists b, es. rewrite E. by split.
Qed.

(** C27: the tables of the equality polynomial: for every point, serial and
    parallel construction both give the scaled products over the bits of the
    index, the first challenge for the most significant bit, which is the
    multilinear extension of equality at the index; the cached tables are those of
    every prefix; and scanning any range of indices by the largest aligned blocks
    never panics, each block being a non-empty part of the range and its table the
    slice of the full one.  The reversed cached tables are those of every suffix in
    this same big-endian order: the code's order, and not the one the comments of
    [evals_cached_rev] and [evals_serial_cached_rev] announce, which make the last
    challenge the most significant bit. *)
Theorem eq_tables_correct (r : list F) :
  (forall s, evals_serial r s = chi_table (default one s) r /\ evals_parallel r s = evals_serial r s) /\
  (forall x, eq_mle r (vertex (length r) x) = Some (chi r x)) /\ zero_selector r = chi r 0 /\
  (forall j, (j <= length r)%nat -> evals_cached r !! j = Some (evals (take j r)) /\
     evals_cached_rev r !! j = Some (evals (drop (length r - j) r))) /\
  ((length r < 64)%nat -> forall start rem, (0 <= start)%Z -> (0 < rem)%Z -> (start + rem <= 2 ^ Z.of_nat (length r))%Z ->
     exists size es, evals_for_max_aligned_block r start rem = Some (size, es) /\ (1 <= size <= rem)%Z /\
       es = take (Z.to_nat size) (drop (Z.to_nat start) (evals r))).
Proof.
  split; [intros s; by rewrite evals_parallel_spec, evals_serial_spec|]. split; [intros x; apply eq_mle_vertex|].
  split; [apply zero_selector_spec|]. split.
  - intros j Hj. unfold evals_cached, evals_cached_rev. rewrite evals_serial_cached_spec, evals_serial_cached_rev_spec.
    rewrite !list_lookup_fmap, lookup_seq_lt by lia. cbn. by rewrite !evals_spec.
  - intros Hn start rem Hs Hr Hle. destruct (max_block_spec r start rem Hn Hs Hr Hle) as (b & es & E & Hb & Hl & Hc).
    exists (2 ^ Z.of_nat b)%Z, es. split; [exact E|]. split; [pose proof (Z.pow_pos_nonneg 2 (Z.of_nat b)); lia|].
    rewrite to_nat_pow2. assert (Hfit : (Z.to_nat start + 2 ^ b <= 2 ^ length r)%nat).
    { rewrite <- !to_nat_pow2, <- Z2Nat.inj_add by lia. apply Z2Nat.inj_le; lia. }
    apply at0_ext; rewrite Hl.
    + rewrite evals_spec, length_take, length_drop, chi_table_length. lia.
    + intros j Hj. rewrite Hc by done. unfold at0. rewrite nth_lookup, lookup_take_lt, lookup_drop, <- nth_lookup by done.
      symmetry. rewrite evals_spec. etransitivity; [apply chi_table_cell; lia|ring].
Qed.
End Chi.

(** The point (3, 5, 7): the indices from 2, five of them, start with a block of two. *)
Lemma eq_tables_correct_witness :
  let r : list F97 := [from_u64 3; from_u64 5; from_u64 7] in
  exists size es, evals_for_max_aligned_block r 2 5 = Some (size, es) /\ size = 2%Z /\
    es = take 2 (drop 2 (evals r)).
Proof.
  intros r. destruct (eq_tables_correct r) as (_ & _ & _ & _ & Hb).
  destruct (Hb ltac:(cbn; lia) 2 5 ltac:(lia) ltac:(lia) ltac:(cbn; lia)) as (size & es & E & _ & He).
  exists size, es. split; [exact E|]. assert (Hs : size = 2%Z) by (vm_compute in E; congruence).
  split; [exact Hs|]. rewrite Hs in He. exact He.
Defined.
