(* ===== verification/Transcript.v ===== *)
(** * Transcript: the Fiat-Shamir transcript as the protocols see it

    The trait of [jolt-core/src/transcripts/transcript.rs].  Its implementors hash
    with external crates: the raw operations and the challenges are a class, the
    provided methods are definitions over it.  Labels are byte strings; [None] is
    the assertion on a label's length. *)
From S2P Require Import Prelude.
From stdpp Require Import strings.

Definition MAX_LABEL_LEN_WITH_LENGTH : nat := 24.

Definition label_bytes (label : string) : list Z :=
  map (fun a => Z.of_N (Ascii.N_of_ascii a)) (String.list_ascii_of_string label).

(** [len.to_be_bytes()]. *)
Definition be_bytes8 (len : Z) : list Z := map (fun i => Z.land (Z.shiftr len (8 * (7 - i))) 0xff) (seqZ 0 8).

(** The label in 24 bytes and the length in 8. *)
Definition packed_label (label : string) (len : Z) : option (list Z) :=
  let l := label_bytes label in
  if (length l <=? MAX_LABEL_LEN_WITH_LENGTH)%nat
  then Some (l ++ repeat 0%Z (MAX_LABEL_LEN_WITH_LENGTH - length l) ++ be_bytes8 len)
  else None.

Class Transcript (F T : Type) := {
  raw_append_label : string -> T -> T;
  raw_append_bytes : list Z -> T -> T;
  raw_append_u64 : Z -> T -> T;
  raw_append_scalar : F -> T -> T;
  challenge_scalar_optimized : T -> F * T;
  challenge_vector : nat -> T -> list F * T;
  challenge_vector_length n t : length (fst (challenge_vector n t)) = n
}.

Section Provided.
Context {F T : Type} `{Transcript F T}.

Definition raw_append_label_with_len (label : string) (len : nat) (t : T) : option T :=
  packed ← packed_label label (Z.of_nat len); Some (raw_append_bytes (F := F) packed t).
Definition append_label (label : string) (t : T) : T := raw_append_label (F := F) label t.
Definition append_bytes (label : string) (bytes : list Z) (t : T) : option T :=
  t ← raw_append_label_with_len label (length bytes) t; Some (raw_append_bytes (F := F) bytes t).
Definition append_u64 (label : string) (x : Z) (t : T) : T := raw_append_u64 (F := F) x (raw_append_label (F := F) label t).
Definition append_scalar (label : string) (scalar : F) (t : T) : T := raw_append_scalar scalar (raw_append_label (F := F) label t).
Definition append_scalars (label : string) (scalars : list F) (t : T) : option T :=
  t ← raw_append_label_with_len label (length scalars) t;
  Some (fold_left (fun t s => raw_append_scalar s t) scalars t).

(** A label that fits never panics. *)
Lemma append_scalars_some label scalars t : (length (label_bytes label) <= MAX_LABEL_LEN_WITH_LENGTH)%nat ->
  exists t', append_scalars label scalars t = Some t'.
Proof.
  intros Hl. unfold append_scalars, raw_append_label_with_len, packed_label.
  apply Nat.leb_le in Hl. rewrite Hl. by eexists.
Qed.
End Provided.
