(* ===== verification/Sumcheck.v ===== *)
(** * Sumcheck: the batched sumcheck, prover and verifier

    [BatchedSumcheck] and [ClearSumcheckProof] of
    [jolt-core/src/subprotocols/sumcheck.rs] over the traits of
    [sumcheck_prover.rs] and [sumcheck_verifier.rs]: the instances are records of
    the traits' methods, the transcript is the class of [Transcript], and the
    opening accumulators are a state with the four operations the protocol calls.
    [None] is a panic.  The zero-knowledge variants need the curve and are left
    out, as is what only a test build runs. *)
From S2P Require Import Prelude Field Poly UniPoly UniPolyCorrect Transcript.
From Stdlib Require Import Ring.
From stdpp Require Import strings.

Inductive ProofVerifyError :=
| InvalidInputLength (expected got : nat) | SumcheckVerificationError | UniSkipVerificationError.

(** [&v[a..b]] *)
Definition slice {A} (l : list A) (a b : nat) : option (list A) :=
  if (a <=? b)%nat && (b <=? length l)%nat then Some (take (b - a) (drop a l)) else None.
(** [iter().max().unwrap()] *)
Definition max_unwrap (l : list nat) : option nat :=
  match l with [] => None | _ => Some (fold_right Nat.max 0%nat l) end.

(** What the protocol does to an opening accumulator itself. *)
Class OpeningState (F A T : Type) := {
  flush_to_transcript : A -> T -> A * T;
  record_sumcheck_input_claims : list F -> A -> A;
  push_combined_claim : F -> A -> A;
  push_output_claims : list F -> A -> A
}.

Section Sumcheck.
Context {F : Type} `{HI : InverseField F}.
Context {T : Type} `{HT : !Transcript F T}.
Add Ring Fring : (@field_ring F _ _).
#[local] Open Scope field_scope.

(** [JoltField::mul_pow_2]; each turn takes 63 from the exponent. *)
Fixpoint mul_pow_2_loop (fuel pow : nat) (res : F) : F :=
  match fuel with
  | O => res * from_u64 (2 ^ Z.of_nat pow)
  | S fuel =>
      if (64 <=? pow)%nat then mul_pow_2_loop fuel (pow - 63) (res * from_u64 (2 ^ 63))
      else res * from_u64 (2 ^ Z.of_nat pow)
  end.
Definition mul_pow_2 (x : F) (pow : nat) : option F :=
  if (255 <? pow)%nat then None else Some (mul_pow_2_loop pow pow x).

(** ** The instances *)

Record SumcheckInstanceVerifier {A : Type} := {
  v_degree : nat;
  v_num_rounds : nat;
  v_round_offset : nat -> nat;
  v_input_claim : A -> F;
  v_expected_output_claim : A -> list F -> F;
  v_cache_openings : list F -> A -> A
}.
Record SumcheckInstanceProver {S A : Type} := {
  p_num_rounds : nat;
  p_round_offset : nat -> nat;
  p_input_claim : A -> F;
  p_compute_message : nat -> F -> S -> option (S * UniPoly F);
  p_ingest_challenge : F -> nat -> S -> S;
  p_finalize : S -> S;
  p_cache_openings : S -> list F -> A -> A
}.
Arguments SumcheckInstanceVerifier A : clear implicits.
Arguments SumcheckInstanceProver S A : clear implicits.

(** The default method of both traits. *)
Definition default_round_offset (num_rounds max_num_rounds : nat) : nat := max_num_rounds - num_rounds.

(** [Σ claim_i * 2^(max - rounds_i) * coeff_i] *)
Definition scaled_claims (claims : list (nat * F)) (max_num_rounds : nat) : option (list F) :=
  mapM (fun '(num_rounds, input_claim) => mul_pow_2 input_claim (max_num_rounds - num_rounds)) claims.
Definition dot (claims coeffs : list F) : F := fold_left add (zip_with mul claims coeffs) zero.

(** ** The verifier *)

Section Verifier.
Context {A : Type} `{HA : !OpeningState F A T}.

(** The transcript, and the verifier's claim and challenges or its refusal. *)
Fixpoint verify_rounds (compressed_polys : list (CompressedUniPoly F)) (degree_bound : nat) (e : F) (r : list F) (transcript : T)
    : option (T * (ProofVerifyError + F * list F)) :=
  match compressed_polys with
  | [] => Some (transcript, inr (e, r))
  | p :: rest =>
      let degree := length (coeffs_except_linear_term p) in
      if (degree_bound <? degree)%nat then Some (transcript, inl (InvalidInputLength degree_bound degree))
      else
        transcript ← append_scalars "sumcheck_poly"%string (coeffs_except_linear_term p) transcript;
        let '(r_i, transcript) := challenge_scalar_optimized transcript in
        e ← eval_from_hint p e r_i;
        verify_rounds rest degree_bound e (r ++ [r_i]) transcript
  end.
Definition ClearSumcheckProof_verify (compressed_polys : list (CompressedUniPoly F)) (claim : F) (num_rounds degree_bound : nat)
    (transcript : T) : option (T * (ProofVerifyError + F * list F)) :=
  if (length compressed_polys =? num_rounds)%nat then verify_rounds compressed_polys degree_bound claim [] transcript
  else Some (transcript, inl (InvalidInputLength num_rounds (length compressed_polys))).

Definition append_claims (claims : list F) (transcript : T) : T :=
  fold_left (fun t c => append_scalar "sumcheck_claim"%string c t) claims transcript.

(** The openings are cached and the output claims collected in order. *)
Fixpoint output_claims (instances : list (SumcheckInstanceVerifier A)) (max_num_rounds : nat) (r_sumcheck : list F) (acc : A)
    : option (A * list F) :=
  match instances with
  | [] => Some (acc, [])
  | s :: rest =>
      let offset := v_round_offset s max_num_rounds in
      r_slice ← slice r_sumcheck offset (offset + v_num_rounds s);
      let acc := v_cache_openings s r_slice acc in
      let claim := v_expected_output_claim s acc r_slice in
      '(acc, claims) ← output_claims rest max_num_rounds r_sumcheck acc;
      Some (acc, claim :: claims)
  end.

(** [BatchedSumcheck::verify] on a clear proof. *)
Definition BatchedSumcheck_verify (proof : list (CompressedUniPoly F)) (instances : list (SumcheckInstanceVerifier A))
    (acc : A) (transcript : T) : option (A * T * (ProofVerifyError + list F * list F)) :=
  max_degree ← max_unwrap (map v_degree instances);
  max_num_rounds ← max_unwrap (map v_num_rounds instances);
  let input_claims := map (fun s => v_input_claim s acc) instances in
  let transcript := append_claims input_claims transcript in
  let acc := record_sumcheck_input_claims (T := T) input_claims acc in
  let '(batching_coeffs, transcript) := challenge_vector (length instances) transcript in
  scaled ← scaled_claims (map (fun s => (v_num_rounds s, v_input_claim s acc)) instances) max_num_rounds;
  let claim := dot scaled batching_coeffs in
  let acc := push_combined_claim (T := T) claim acc in
  '(transcript, outcome) ← ClearSumcheckProof_verify proof claim max_num_rounds max_degree transcript;
  match outcome with
  | inl err => Some (acc, transcript, inl err)
  | inr (output_claim, r_sumcheck) =>
      '(acc, claims) ← output_claims instances max_num_rounds r_sumcheck acc;
      let expected_output_claim := dot claims batching_coeffs in
      let acc := push_output_claims (T := T) claims acc in
      let '(acc, transcript) := flush_to_transcript acc transcript in
      if bool_decide (output_claim = expected_output_claim)
      then Some (acc, transcript, inr (batching_coeffs, r_sumcheck))
      else Some (acc, transcript, inl SumcheckVerificationError)
  end.
End Verifier.

(** ** The prover *)

Section Prover.
Context {S A : Type} `{HA : !OpeningState F A T}.
Abbreviation Prover := (SumcheckInstanceProver S A).

Definition is_active (offset num_rounds round : nat) : bool := (offset <=? round)%nat && (round <? offset + num_rounds)%nat.

(** One instance's message: the polynomial of an inactive one is constant. *)
Definition instance_message (max_num_rounds round : nat) (two_inv : F) (i : Prover * S) (previous_claim : F)
    : option ((Prover * S) * UniPoly F) :=
  let '(p, state) := i in
  let offset := p_round_offset p max_num_rounds in
  if is_active offset (p_num_rounds p) round then
    '(state, poly) ← p_compute_message p (round - offset) previous_claim state;
    Some ((p, state), poly)
  else Some (i, from_coeff [previous_claim * two_inv]).

(** [for (acc, c) in batched.zip(poly) { acc += c * coeff }] *)
Fixpoint add_scaled (batched coeffs : list F) (coeff : F) : list F :=
  match batched, coeffs with
  | acc :: batched, c :: coeffs => acc + c * coeff :: add_scaled batched coeffs coeff
  | _, _ => batched
  end.
Definition batched_poly (polys : list (UniPoly F)) (batching_coeffs : list F) : UniPoly F :=
  let max_degree := fold_right Nat.max 0%nat (map (fun p => length (coeffs p)) polys) in
  from_coeff (fold_left (fun batched '(p, coeff) => add_scaled batched (coeffs p) coeff) (zip polys batching_coeffs)
    (repeat zero max_degree)).

Definition ingest (max_num_rounds round : nat) (r_j : F) (i : Prover * S) : Prover * S :=
  let '(p, state) := i in
  let offset := p_round_offset p max_num_rounds in
  if is_active offset (p_num_rounds p) round then (p, p_ingest_challenge p r_j (round - offset) state) else i.

(** One round: the instances, the individual claims, the message, the challenge. *)
Definition prove_round (max_num_rounds round : nat) (two_inv : F) (batching_coeffs : list F)
    (instances : list (Prover * S)) (claims : list F) (transcript : T)
    : option (list (Prover * S) * list F * CompressedUniPoly F * F * T) :=
  messages ← mapM (fun '(i, c) => instance_message max_num_rounds round two_inv i c) (zip instances claims);
  let instances := map fst messages in
  let polys := map snd messages in
  compressed_poly ← compress (batched_poly polys batching_coeffs);
  transcript ← append_scalars "sumcheck_poly"%string (coeffs_except_linear_term compressed_poly) transcript;
  let '(r_j, transcript) := challenge_scalar_optimized transcript in
  claims ← mapM (fun p => evaluate p r_j) polys;
  Some (map (ingest max_num_rounds round r_j) instances, claims, compressed_poly, r_j, transcript).

Definition prove_rounds (max_num_rounds : nat) (two_inv : F) (batching_coeffs : list F)
    (instances : list (Prover * S)) (claims : list F) (transcript : T) (rounds : nat)
    : option (list (Prover * S) * list F * list (CompressedUniPoly F) * list F * T) :=
  loopM rounds (fun round '(instances, claims, compressed_polys, r_sumcheck, transcript) =>
    '(instances, claims, compressed_poly, r_j, transcript) ←
      prove_round max_num_rounds round two_inv batching_coeffs instances claims transcript;
    Some (instances, claims, compressed_polys ++ [compressed_poly], r_sumcheck ++ [r_j], transcript))
    (instances, claims, [], [], transcript).

Definition finalize_instance (i : Prover * S) : Prover * S := (fst i, p_finalize (fst i) (snd i)).
Fixpoint cache_all (instances : list (Prover * S)) (max_num_rounds : nat) (r_sumcheck : list F) (acc : A) : option A :=
  match instances with
  | [] => Some acc
  | (p, state) :: rest =>
      let offset := p_round_offset p max_num_rounds in
      r_slice ← slice r_sumcheck offset (offset + p_num_rounds p);
      cache_all rest max_num_rounds r_sumcheck (p_cache_openings p state r_slice acc)
  end.

(** [BatchedSumcheck::prove]: the proof, the challenges and the batched claim. *)
Definition BatchedSumcheck_prove (instances : list (Prover * S)) (acc : A) (transcript : T)
    : option (A * T * (list (CompressedUniPoly F) * list F * F)) :=
  max_num_rounds ← max_unwrap (map (fun i => p_num_rounds (fst i)) instances);
  let input_claims := map (fun i => p_input_claim (fst i) acc) instances in
  let transcript := append_claims input_claims transcript in
  let '(batching_coeffs, transcript) := challenge_vector (length instances) transcript in
  individual_claims ← scaled_claims (map (fun i => (p_num_rounds (fst i), p_input_claim (fst i) acc)) instances) max_num_rounds;
  let initial_batched_claim := dot individual_claims batching_coeffs in
  two_inv ← two_inv;
  '(instances, _, compressed_polys, r_sumcheck, transcript) ←
    prove_rounds max_num_rounds two_inv batching_coeffs instances individual_claims transcript max_num_rounds;
  let instances := map finalize_instance instances in
  acc ← cache_all instances max_num_rounds r_sumcheck acc;
  let '(acc, transcript) := flush_to_transcript acc transcript in
  Some (acc, transcript, (compressed_polys, r_sumcheck, initial_batched_claim)).
End Prover.
End Sumcheck.
Arguments SumcheckInstanceVerifier F A : clear implicits.
Arguments SumcheckInstanceProver F S A : clear implicits.
