(* ===== verification/SumcheckCorrect.v ===== *)
(** * SumcheckCorrect: the batched sumcheck is complete and sound

    Completeness: whatever the instances are and wherever their rounds lie in the
    batch, as long as each keeps the promise of [honest] (its messages add up to its
    claim and its last claim is the one the verifier expects, times the power of two
    of the rounds that come after), the prover never panics, the verifier accepts, and
    both end with the same transcript, challenges and openings.  Soundness, without
    probabilities: an accepted claim that is not the true sum means that some
    challenge was a root of a non-zero polynomial of bounded degree, of which there
    are few. *)
From S2P Require Import Prelude Field Poly UniPoly UniPolyCorrect Transcript Sumcheck.
From Stdlib Require Import Ring Zmod.
From stdpp Require Import strings.

Section Algebra.
Context {F : Type} `{HI : InverseField F}.
Add Ring Fring : (@field_ring F _ _).
#[local] Open Scope field_scope.
Abbreviation two := (one + one : F).

Lemma mul_pow_2_spec (x : F) pow : (pow <= 255)%nat -> mul_pow_2 x pow = Some (x * fpow two pow).
Proof.
  intros Hp. unfold mul_pow_2. destruct (Nat.ltb_spec 255 pow); [lia|]. f_equal.
  assert (Hb : forall k (y : F), y * from_u64 (2 ^ Z.of_nat k) = y * fpow two k).
  { intros k y. by rewrite from_u64_pow, two_ones. }
  clear Hp H0. assert (Hf : (pow <= pow)%nat) by lia. revert Hf. generalize pow at 2 3 as fuel. intros fuel. revert pow x.
  induction fuel as [|fuel IH]; intros pow x Hf; cbn [mul_pow_2_loop]; [apply Hb|].
  destruct (Nat.leb_spec 64 pow); [|apply Hb]. rewrite IH by lia.
  change (2 ^ 63)%Z with (2 ^ Z.of_nat 63)%Z. rewrite Hb. replace pow with (63 + (pow - 63))%nat at 2 by lia.
  generalize (pow - 63)%nat as k. intros k. generalize 63%nat as j. intros j.
  assert (Ha : fpow two (j + k) = fpow two j * fpow two k).
  { induction j as [|j IHj]; cbn [Nat.add fpow]; [ring|]. rewrite IHj. ring. }
  rewrite Ha. ring.
Qed.

Lemma dot_cons (a k : F) l ks : dot (a :: l) (k :: ks) = a * k + dot l ks.
Proof. unfold dot. cbn [zip_with fold_left]. rewrite fold_add_acc. ring. Qed.
Lemma dot_nil_l ks : dot [] ks = (zero : F).
Proof. done. Qed.
Lemma dot_nil_r l : dot l [] = (zero : F).
Proof. by destruct l. Qed.
Lemma dot_add (f g : UniPoly F -> F) ps ks : dot (map (fun p => f p + g p) ps) ks = dot (map f ps) ks + dot (map g ps) ks.
Proof.
  revert ks. induction ps as [|p ps IH]; intros [|k ks]; cbn [map]; rewrite ?dot_nil_l, ?dot_nil_r, ?dot_cons; try ring.
  rewrite IH. ring.
Qed.

Lemma add_scaled_length (b c : list F) k : length (add_scaled b c k) = length b.
Proof. revert c. induction b as [|x b IH]; intros [|y c]; cbn; [done..|]. by rewrite IH. Qed.
Lemma add_scaled_eval (b c : list F) k x : (length c <= length b)%nat ->
  eval_poly (add_scaled b c k) x = eval_poly b x + eval_poly c x * k.
Proof.
  revert c. induction b as [|y b IH]; intros [|z c] Hl; cbn in *; try lia; [ring|ring|]. rewrite IH by lia. ring.
Qed.

(** The batched polynomial is the combination of the messages, with as many
    coefficients as the longest. *)
Lemma batched_poly_spec (ps : list (UniPoly F)) ks x : 
  eval_poly (coeffs (batched_poly ps ks)) x = dot (map (fun p => eval_poly (coeffs p) x) ps) ks /\
  length (coeffs (batched_poly ps ks)) = fold_right Nat.max 0%nat (map (fun p => length (coeffs p)) ps).
Proof.
  unfold batched_poly. cbn [coeffs]. set (m := fold_right _ _ _).
  assert (Hm : Forall (fun p => (length (coeffs p) <= m)%nat) ps).
  { unfold m. clear ks m. induction ps as [|p ps IH]; constructor; cbn; [lia|].
    eapply list.Forall_impl; [exact IH|]. intros q Hq. cbn in Hq. lia. }
  assert (Hg : forall b, length b = m ->
    eval_poly (fold_left (fun batched '(p, coeff) => add_scaled batched (coeffs p) coeff) (zip ps ks) b) x =
      eval_poly b x + dot (map (fun p => eval_poly (coeffs p) x) ps) ks /\
    length (fold_left (fun batched '(p, coeff) => add_scaled batched (coeffs p) coeff) (zip ps ks) b) = m).
  { clearbody m. revert ks. induction Hm as [|p ps Hp Hm IH]; intros ks b Hb.
    - cbn [zip zip_with fold_left map]. rewrite dot_nil_l. split; [ring|done].
    - destruct ks as [|k ks]; cbn [zip zip_with fold_left map]; [rewrite dot_nil_r; split; [ring|done]|].
      destruct (IH ks (add_scaled b (coeffs p) k)) as [He Hl]; [by rewrite add_scaled_length|]. split; [|exact Hl].
      etransitivity; [exact He|]. rewrite add_scaled_eval, dot_cons by lia. ring. }
  destruct (Hg (repeat zero m) (repeat_length _ _)) as [He Hl]. split; [|exact Hl].
  etransitivity; [exact He|]. rewrite eval_poly_zeros. ring.
Qed.
End Algebra.

(** ** Completeness *)

(** The prover's and the verifier's accumulators stay related by the protocol's
    own operations and flush the same claims. *)
Class Simulates {F T AP AV} `{!OpeningState F AP T} `{!OpeningState F AV T} (Rel : AP -> AV -> Prop) := {
  rel_flush ap av t : Rel ap av ->
    snd (flush_to_transcript ap t) = snd (flush_to_transcript (A := AV) av t) /\
    Rel (fst (flush_to_transcript ap t)) (fst (flush_to_transcript av t));
  rel_record ap av l : Rel ap av -> Rel ap (record_sumcheck_input_claims (F := F) (T := T) l av);
  rel_combined ap av (c : F) : Rel ap av -> Rel ap (push_combined_claim (T := T) c av);
  rel_outputs ap av (l : list F) : Rel ap av -> Rel ap (push_output_claims (T := T) l av)
}.

Section Completeness.
Context {F : Type} `{HI : InverseField F}.
Context {T : Type} `{HT : !Transcript F T}.
Context {S AP AV : Type} `{HP : !OpeningState F AP T} `{HV : !OpeningState F AV T}.
Context (Rel : AP -> AV -> Prop) `{HR : !Simulates Rel}.
Add Ring Fring2 : (@field_ring F _ _).
#[local] Open Scope field_scope.
Abbreviation Prover := (SumcheckInstanceProver F S AP).
Abbreviation Verifier := (SumcheckInstanceVerifier F AV).

(** An instance of both sides, with the prover's state and the invariant of its
    run: rounds done, state, claim, challenges. *)
Record Instance := {
  prover : Prover;
  initial : S;
  verifier : Verifier;
  run_inv : nat -> S -> F -> list F -> Prop
}.

(** Where an instance runs, and how many rounds of the batch come after it. *)
Abbreviation n b := (p_num_rounds (prover b)).
Definition off (max_num_rounds : nat) (b : Instance) : nat := p_round_offset (prover b) max_num_rounds.
Definition trailing (max_num_rounds : nat) (b : Instance) : nat := (max_num_rounds - (off max_num_rounds b + n b))%nat.

(** What an instance promises to the protocol.  It may run anywhere in the batch: the
    rounds before its own have consumed part of the scaling of its claim, and its
    messages and its last claim carry the power of two of the rounds that come after
    (none at the default offset). *)
Record honest (max_num_rounds : nat) (c0 : F) (b : Instance) : Prop := {
  same_rounds : p_num_rounds (prover b) = v_num_rounds (verifier b);
  same_offset : p_round_offset (prover b) max_num_rounds = v_round_offset (verifier b) max_num_rounds;
  rounds_fit : (off max_num_rounds b + n b <= max_num_rounds)%nat;
  same_claim ap av : Rel ap av -> p_input_claim (prover b) ap = v_input_claim (verifier b) av;
  run_starts : run_inv b 0 (initial b) (c0 * fpow (one + one) (trailing max_num_rounds b)) [];
  run_steps k s c rs : run_inv b k s c rs -> (k < p_num_rounds (prover b))%nat ->
    exists s' poly, p_compute_message (prover b) k c s = Some (s', poly) /\
      (2 <= length (coeffs poly) <= v_degree (verifier b) + 1)%nat /\
      eval_poly (coeffs poly) zero + eval_poly (coeffs poly) one = c /\
      forall r, run_inv b (k + 1) (p_ingest_challenge (prover b) r k s') (eval_poly (coeffs poly) r) (rs ++ [r]);
  run_ends s c rs ap av : run_inv b (p_num_rounds (prover b)) s c rs -> Rel ap av ->
    Rel (p_cache_openings (prover b) (p_finalize (prover b) s) rs ap) (v_cache_openings (verifier b) rs av) /\
    v_expected_output_claim (verifier b) (v_cache_openings (verifier b) rs av) rs *
      fpow (one + one) (trailing max_num_rounds b) = c
}.

Section Run.
Context (max_num_rounds : nat) (t2 : F) (Ht2 : (one + one) * t2 = one).
#[local] Abbreviation offset b := (off max_num_rounds b).
#[local] Abbreviation two_pow k := (fpow (one + one) k : F).

Lemma two_pow_S k : two_pow (Datatypes.S k) = two_pow k * (one + one).
Proof. cbn [fpow]. ring. Qed.
Lemma two_pow_cancel k (x y : F) : x * two_pow k = y * two_pow k -> x = y.
Proof.
  revert x y. induction k as [|k IH]; intros x y E.
  - transitivity (x * two_pow 0); [cbn; ring|]. rewrite E. cbn. ring.
  - rewrite two_pow_S in E. apply IH. transitivity (x * (two_pow k * (one + one)) * t2).
    + transitivity (x * two_pow k * ((one + one) * t2)); [rewrite Ht2; ring|ring].
    + rewrite E. transitivity (y * two_pow k * ((one + one) * t2)); [ring|]. rewrite Ht2. ring.
Qed.

(** An instance before round [j]: waiting for its first round, with its claim
    scaled, in its run, or done, its last claim halved by every round since. *)
Record stage (b : Instance) (c0 : F) (j : nat) (s : S) (c : F) (rs : list F) : Prop := {
  waiting : (j <= offset b)%nat -> s = initial b /\ c = c0 * two_pow (max_num_rounds - n b - j);
  running : (offset b <= j <= offset b + n b)%nat -> run_inv b (j - offset b) s c (drop (offset b) rs);
  finished : (offset b + n b <= j)%nat ->
    run_inv b (n b) s (c * two_pow (j - (offset b + n b))) (take (n b) (drop (offset b) rs))
}.

Lemma stage_start b c0 : honest max_num_rounds c0 b ->
  stage b c0 0 (initial b) (c0 * two_pow (max_num_rounds - n b)) [].
Proof.
  intros Hb. pose proof (rounds_fit _ _ _ Hb) as Hfit. pose proof (run_starts _ _ _ Hb) as Hs. unfold trailing in Hs. split.
  - intros _. split; [done|]. by rewrite Nat.sub_0_r.
  - intros H0. replace (offset b) with 0%nat in * by lia. exact Hs.
  - intros H0. replace (offset b) with 0%nat in * by lia. replace (n b) with 0%nat in * by lia. cbn.
    replace (c0 * two_pow (max_num_rounds - 0) * one) with (c0 * two_pow (max_num_rounds - 0)) by ring. exact Hs.
Qed.

(** A constant message halves the claim. *)
Lemma constant_message (c r : F) : c * t2 + (c * t2) = c /\ (c * t2 + r * zero) * (one + one) = c.
Proof. split; (transitivity (c * ((one + one) * t2)); [ring|]; rewrite Ht2; ring). Qed.

Lemma message_step b c0 j s c rs : honest max_num_rounds c0 b -> (j < max_num_rounds)%nat ->
  length rs = j -> stage b c0 j s c rs ->
  exists s' poly, instance_message max_num_rounds j t2 (prover b, s) c = Some ((prover b, s'), poly) /\
    (1 <= length (coeffs poly) <= v_degree (verifier b) + 1)%nat /\
    (n b = max_num_rounds -> 2 <= length (coeffs poly))%nat /\
    eval_poly (coeffs poly) zero + eval_poly (coeffs poly) one = c /\
    forall r, exists s'', ingest max_num_rounds j r (prover b, s') = (prover b, s'') /\
      stage b c0 (j + 1) s'' (eval_poly (coeffs poly) r) (rs ++ [r]).
Proof.
  intros Hb Hj Hrs [Hwait Hrun Hfin]. unfold instance_message, ingest. fold (offset b).
  pose proof (rounds_fit _ _ _ Hb) as Hfit. unfold is_active.
  destruct (Nat.leb_spec (offset b) j) as [Hle|Hlt]; [destruct (Nat.ltb_spec j (offset b + n b)) as [Hlt|Hge]|]; cbn [andb].
  - destruct (run_steps _ _ _ Hb _ _ _ _ (Hrun ltac:(lia)) ltac:(lia)) as (s' & poly & -> & Hl & Hs & Hr). cbn [mbind option_bind].
    exists s', poly. split; [done|]. split; [lia|]. split; [lia|]. split; [done|]. intros r. eexists. split; [reflexivity|].
    specialize (Hr r). replace (j - offset b + 1)%nat with (j + 1 - offset b)%nat in Hr by lia. split; [lia| |].
    + intros _. by rewrite drop_app_le by lia.
    + intros Hn. replace (j + 1 - offset b)%nat with (n b) in Hr by lia. replace (j + 1 - (offset b + n b))%nat with 0%nat by lia.
      rewrite drop_app_le, firstn_all2 by (rewrite ?length_app, ?length_drop; cbn; lia). cbn [fpow].
      by replace (eval_poly (coeffs poly) r * one) with (eval_poly (coeffs poly) r) by ring.
  - specialize (Hfin Hge). eexists _, _. split; [reflexivity|]. cbn [coeffs length eval_poly]. split; [lia|]. split; [lia|]. split.
    { etransitivity; [|apply (proj1 (constant_message c zero))]. ring. }
    intros r. eexists. split; [reflexivity|]. split; [lia|lia|]. intros _.
    replace (j + 1 - (offset b + n b))%nat with (Datatypes.S (j - (offset b + n b))) by lia. rewrite two_pow_S.
    rewrite drop_app_le, take_app_le by (rewrite ?length_drop; lia).
    replace ((c * t2 + r * zero) * (two_pow (j - (offset b + n b)) * (one + one))) with (c * two_pow (j - (offset b + n b))); [done|].
    rewrite <- (proj2 (constant_message c r)) at 1. ring.
  - destruct (Hwait ltac:(lia)) as [-> Hc]. eexists _, _. split; [reflexivity|]. cbn [coeffs length eval_poly].
    split; [lia|]. split; [lia|]. split.
    { etransitivity; [|apply (proj1 (constant_message c zero))]. ring. }
    intros r. eexists. split; [reflexivity|].
    assert (Hc' : c * t2 + r * zero = c0 * two_pow (max_num_rounds - n b - (j + 1))).
    { apply (two_pow_cancel 1). cbn [fpow]. transitivity c.
      - etransitivity; [|apply (proj2 (constant_message c r))]. ring.
      - rewrite Hc. replace (max_num_rounds - n b - j)%nat with (Datatypes.S (max_num_rounds - n b - (j + 1))) by lia. cbn [fpow]. ring. }
    rewrite Hc'. split; [done| |].
    + intros Hr. replace (j + 1)%nat with (offset b) by lia. rewrite Nat.sub_diag, drop_ge by (rewrite length_app; cbn; lia).
      replace (max_num_rounds - n b - offset b)%nat with (trailing max_num_rounds b) by (unfold trailing; lia). apply Hb.
    + intros Hr. assert (Hn : n b = 0%nat) by lia. pose proof (run_starts _ _ _ Hb) as Hs. rewrite <- Hn in Hs.
      replace (take (n b) _) with (@nil F) by by rewrite Hn.
      replace (max_num_rounds - n b - (j + 1))%nat with (trailing max_num_rounds b) by (unfold trailing; lia).
      replace (j + 1 - (offset b + n b))%nat with 0%nat by lia.
      replace (c0 * two_pow (trailing max_num_rounds b) * two_pow 0) with (c0 * two_pow (trailing max_num_rounds b)) by (cbn [fpow]; ring).
      exact Hs.
Qed.

(** All instances before round [j]. *)
Definition stages (ap0 : AP) (j : nat) (rs : list F) (bs : list Instance) (ps : list (Prover * S)) (cs : list F) : Prop :=
  Forall3 (fun b i c => fst i = prover b /\ stage b (p_input_claim (prover b) ap0) j (snd i) c rs) bs ps cs.

Lemma stages_start ap0 bs : Forall (fun b => honest max_num_rounds (p_input_claim (prover b) ap0) b) bs ->
  stages ap0 0 [] bs (map (fun b => (prover b, initial b)) bs)
    (map (fun b => p_input_claim (prover b) ap0 * two_pow (max_num_rounds - n b)) bs).
Proof.
  unfold stages. induction 1 as [|b bs Hb Hh IH]; constructor; [|exact IH]. split; [done|]. by apply stage_start.
Qed.

Lemma instances_step ap0 j rs bs ps cs D : Forall (fun b => honest max_num_rounds (p_input_claim (prover b) ap0) b) bs ->
  Forall (fun b => (v_degree (verifier b) <= D)%nat) bs ->
  (j < max_num_rounds)%nat -> length rs = j -> stages ap0 j rs bs ps cs ->
  exists msgs, mapM (fun '(i, c) => instance_message max_num_rounds j t2 i c) (zip ps cs) = Some msgs /\
    map (fun p => eval_poly (coeffs p) zero + eval_poly (coeffs p) one) (map snd msgs) = cs /\
    Forall (fun p => 1 <= length (coeffs p) <= D + 1)%nat (map snd msgs) /\
    (Exists (fun b => n b = max_num_rounds) bs -> 2 <= fold_right Nat.max 0 (map (fun p => length (coeffs p)) (map snd msgs)))%nat /\
    forall r, stages ap0 (j + 1) (rs ++ [r]) bs (map (ingest max_num_rounds j r) (map fst msgs))
      (map (fun p => eval_poly (coeffs p) r) (map snd msgs)).
Proof.
  intros Hh Hb Hj Hrs Hst. unfold stages in *.
  induction Hst as [|b [p s] c bs ps cs [Hp Hs] Hst IH]; cbn [zip zip_with mapM].
  { exists []. split; [done|]. split; [done|]. split; [constructor|]. split; [by intros Hx; inversion Hx|]. constructor. }
  apply list.Forall_cons in Hh as [Hh Hhs]. apply list.Forall_cons in Hb as [HD Hbs]. cbn [fst snd] in *. subst p.
  destruct (message_step b _ j s c rs Hh Hj Hrs Hs) as (s' & poly & -> & Hl & H2 & Hsum & Hr). cbn [mbind option_bind].
  destruct (IH Hhs Hbs) as (msgs & -> & Hsums & Hls & H2s & Hrr). cbn [mbind option_bind mret option_ret].
  eexists. split; [reflexivity|]. cbn [map fst snd fold_right]. split; [by rewrite Hsum, Hsums|].
  split; [constructor; [lia|exact Hls]|]. split.
  { intros [Hx|Hx]%Exists_cons; [specialize (H2 Hx)|specialize (H2s Hx)]; lia. }
  intros r. destruct (Hr r) as (s'' & -> & Hs''). constructor; [done|apply Hrr].
Qed.

Lemma max_le l D : Forall (fun p : UniPoly F => 1 <= length (coeffs p) <= D + 1)%nat l ->
  (fold_right Nat.max 0 (map (fun p => length (coeffs p)) l) <= D + 1)%nat.
Proof. induction 1 as [|p l Hp Hl IH]; cbn; lia. Qed.

(** A round of the prover is a round of the verifier. *)
Lemma prove_round_step ap0 j rs bs ps cs ks D tr : Forall (fun b => honest max_num_rounds (p_input_claim (prover b) ap0) b) bs ->
  Forall (fun b => (v_degree (verifier b) <= D)%nat) bs ->
  Exists (fun b => n b = max_num_rounds) bs -> (j < max_num_rounds)%nat -> length rs = j -> stages ap0 j rs bs ps cs ->
  exists ps' cs' cp r tr', prove_round max_num_rounds j t2 ks ps cs tr = Some (ps', cs', cp, r, tr') /\
    stages ap0 (j + 1) (rs ++ [r]) bs ps' cs' /\
    forall rest, verify_rounds (cp :: rest) D (dot cs ks) rs tr = verify_rounds rest D (dot cs' ks) (rs ++ [r]) tr'.
Proof.
  intros Hh Hb H0 Hj Hrs Hst.
  destruct (instances_step ap0 j rs bs ps cs D Hh Hb Hj Hrs Hst) as (msgs & E & Hsums & Hls & H2 & Hr).
  unfold prove_round. rewrite E. cbn [mbind option_bind]. set (polys := map snd msgs) in *.
  pose proof (fun x => proj1 (batched_poly_spec polys ks x)) as He. pose proof (proj2 (batched_poly_spec polys ks zero)) as Hl.
  destruct (compress_spec (batched_poly polys ks) (dot cs ks)) as (cp & Ec & Ed & Hcl).
  { rewrite Hl. by apply H2. }
  { rewrite !He, <- dot_add. f_equal. exact Hsums. }
  rewrite Ec. cbn [mbind option_bind].
  destruct (append_scalars_some (F := F) "sumcheck_poly"%string (coeffs_except_linear_term cp) tr) as (tr1 & Et).
  { apply Nat.leb_le. reflexivity. }
  rewrite Et. cbn [mbind option_bind]. destruct (challenge_scalar_optimized tr1) as [r tr'] eqn:Eq.
  rewrite (mapM_all (fun p => evaluate p r) (fun p => eval_poly (coeffs p) r)).
  2:{ intros p Hp. apply evaluate_spec. rewrite list.Forall_forall in Hls. apply list_elem_of_In, Hls in Hp.
      intros Hz. rewrite Hz in Hp. cbn in Hp. lia. }
  cbn [mbind option_bind]. do 5 eexists. split; [reflexivity|]. split; [apply Hr|].
  intros rest. cbn [verify_rounds]. pose proof (max_le polys D Hls) as Hmax. rewrite <- Hl in Hmax.
  destruct (Nat.ltb_spec D (length (coeffs_except_linear_term cp))); [lia|]. rewrite Et. cbn [mbind option_bind]. rewrite Eq.
  destruct (decompress_spec cp (dot cs ks)) as (p & Ed' & _ & _ & _ & Hx).
  { intros Hz. rewrite Hz in Hcl. specialize (H2 H0). cbn [length] in Hcl. lia. }
  rewrite Hx. cbn [mbind option_bind]. rewrite Ed in Ed'. injection Ed' as <-. by rewrite He.
Qed.

Lemma prove_rounds_run ap0 bs ps cs ks D tr m : Forall (fun b => honest max_num_rounds (p_input_claim (prover b) ap0) b) bs ->
  Forall (fun b => (v_degree (verifier b) <= D)%nat) bs ->
  Exists (fun b => n b = max_num_rounds) bs -> (m <= max_num_rounds)%nat -> stages ap0 0 [] bs ps cs ->
  exists ps' cs' cps rs tr', prove_rounds max_num_rounds t2 ks ps cs tr m = Some (ps', cs', cps, rs, tr') /\
    length cps = m /\ length rs = m /\ stages ap0 m rs bs ps' cs' /\
    forall rest, verify_rounds (cps ++ rest) D (dot cs ks) [] tr = verify_rounds rest D (dot cs' ks) rs tr'.
Proof.
  intros Hh Hb H0 Hm Hst. unfold prove_rounds. induction m as [|m IH].
  { exists ps, cs, [], [], tr. by repeat split. }
  destruct (IH ltac:(lia)) as (ps1 & cs1 & cps & rs & tr1 & E & Hcl & Hrl & Hs & Hv). rewrite loopM_S_r, E. cbn [mbind option_bind].
  destruct (prove_round_step ap0 m rs bs ps1 cs1 ks D tr1 Hh Hb H0 ltac:(lia) Hrl Hs) as (ps2 & cs2 & cp & r & tr2 & -> & Hs2 & Hv2).
  cbn [mbind option_bind]. do 5 eexists. split; [reflexivity|]. rewrite !length_app. cbn [length].
  split; [lia|]. split; [lia|]. split; [by replace (Datatypes.S m) with (m + 1)%nat by lia|].
  intros rest. rewrite <- app_assoc, Hv. cbn [app]. apply Hv2.
Qed.

(** Both sides cache the same openings and the verifier expects the final claims. *)
Lemma outputs_agree ap0 rs bs ps cs ap av : Forall (fun b => honest max_num_rounds (p_input_claim (prover b) ap0) b) bs ->
  length rs = max_num_rounds -> stages ap0 max_num_rounds rs bs ps cs -> Rel ap av ->
  exists ap' av', cache_all (map finalize_instance ps) max_num_rounds rs ap = Some ap' /\
    output_claims (map verifier bs) max_num_rounds rs av = Some (av', cs) /\ Rel ap' av'.
Proof.
  intros Hh Hrs Hst. revert ap av. unfold stages in Hst.
  induction Hst as [|b [p s] c bs ps cs [Hp Hs] Hst IH]; intros ap av Hrel; [by exists ap, av|].
  apply list.Forall_cons in Hh as [Hh Hhs]. cbn [fst snd] in *. subst p.
  cbn [map]. change (finalize_instance (prover b, s)) with (prover b, p_finalize (prover b) s). cbn [cache_all output_claims].
  rewrite <- (same_offset _ _ _ Hh), <- (same_rounds _ _ _ Hh). fold (offset b).
  pose proof (rounds_fit _ _ _ Hh) as Hfit. unfold slice. rewrite Hrs.
  destruct (Nat.leb_spec (offset b) (offset b + n b)); [|lia]. destruct (Nat.leb_spec (offset b + n b) max_num_rounds); [|lia].
  cbn [andb mbind option_bind]. replace (offset b + n b - offset b)%nat with (n b) by lia.
  pose proof (finished _ _ _ _ _ _ Hs Hfit) as Hf.
  destruct (run_ends _ _ _ Hh _ _ _ ap av Hf Hrel) as [Hrel' Hc].
  destruct (IH Hhs _ _ Hrel') as (ap' & av' & -> & -> & Hrel''). cbn [mbind option_bind].
  apply two_pow_cancel in Hc. rewrite Hc. exists ap', av'. by repeat split.
Qed.
End Run.

Lemma max_unwrap_spec l : l <> [] -> exists m, max_unwrap l = Some m /\ Forall (fun x => (x <= m)%nat) l /\ In m l.
Proof.
  intros Hl. destruct l as [|a l]; [done|]. exists (fold_right Nat.max 0%nat (a :: l)). split; [done|]. clear Hl.
  revert a. induction l as [|b l IH]; intros a; [split; [constructor; [cbn; lia|constructor]|left; cbn; lia]|].
  destruct (IH b) as [Hf Hi]. cbn [fold_right] in *. set (m := Nat.max b _) in *. split.
  - constructor; [lia|]. eapply list.Forall_impl; [exact Hf|]. intros x Hx. cbn in Hx. lia.
  - destruct (Nat.max_dec a m) as [->| ->]; [by left|by right].
Qed.

End Completeness.

(** ** Soundness *)

Section Roots.
Context {F : Type} `{HI : InverseField F}.
Add Ring Fring3 : (@field_ring F _ _).
#[local] Open Scope field_scope.

(** [(p(x) - p(a)) / (x - a)] *)
Fixpoint root_quotient (c : list F) (a : F) : list F :=
  match c with
  | [] => []
  | c0 :: rest => match rest with [] => [] | _ => eval_poly rest a :: root_quotient rest a end
  end.
Lemma root_quotient_eval c a x : eval_poly c x - eval_poly c a = (x - a) * eval_poly (root_quotient c a) x.
Proof.
  induction c as [|c0 [|c1 rest] IH]; [cbn; ring|cbn; ring|]. set (r := c1 :: rest) in *.
  change (root_quotient (c0 :: r) a) with (eval_poly r a :: root_quotient r a). cbn [eval_poly].
  transitivity ((x - a) * eval_poly r a + x * (eval_poly r x - eval_poly r a)); [ring|]. rewrite IH. ring.
Qed.
Lemma root_quotient_length c a : length (root_quotient c a) = (length c - 1)%nat.
Proof. induction c as [|c0 [|c1 rest] IH]; [done..|]. cbn [root_quotient length] in *. rewrite IH. lia. Qed.

(** A polynomial with as many roots as coefficients is zero. *)
Lemma roots_bound (c roots : list F) : NoDup roots -> (forall a, In a roots -> eval_poly c a = zero) ->
  (length c <= length roots)%nat -> forall x, eval_poly c x = zero.
Proof.
  revert c. induction roots as [|a roots IH]; intros c Hnd Hz Hl x.
  - destruct c; [done|cbn in Hl; lia].
  - apply NoDup_cons in Hnd as [Hna Hnd]. pose proof (Hz a (or_introl eq_refl)) as Ha.
    assert (E : eval_poly c x = (x - a) * eval_poly (root_quotient c a) x).
    { rewrite <- root_quotient_eval, Ha. ring. }
    rewrite E, (IH (root_quotient c a)); [ring|done| |rewrite root_quotient_length; cbn in Hl; lia].
    intros b Hb. pose proof (root_quotient_eval c a b) as Eb. rewrite Ha, (Hz b (or_intror Hb)) in Eb.
    destruct (mul_zero (b - a) (eval_poly (root_quotient c a) b)) as [Hba|Hq]; [rewrite <- Eb; ring| |done].
    exfalso. apply Hna, list_elem_of_In. replace a with b; [done|]. transitivity ((b - a) + a); [ring|]. rewrite Hba. ring.
Qed.

Lemma add_assign_eval (a b : list F) x : eval_poly (add_assign a b) x = eval_poly a x + eval_poly b x.
Proof. revert b. induction a as [|u a IH]; intros [|v b]; cbn; try ring. rewrite IH. ring. Qed.
Lemma add_assign_length (a b : list F) : length (add_assign a b) = Nat.max (length a) (length b).
Proof. revert b. induction a as [|u a IH]; intros [|v b]; cbn; rewrite ?IH; lia. Qed.
Lemma map_opp_eval (b : list F) x : eval_poly (map opp b) x = zero - eval_poly b x.
Proof. induction b as [|v b IH]; cbn; [ring|]. rewrite IH. ring. Qed.
Lemma sub_assign_eval (a b : list F) x : eval_poly (sub_assign a b) x = eval_poly a x - eval_poly b x.
Proof.
  revert b. induction a as [|u a IH]; intros [|v b]; cbn; rewrite ?map_opp_eval, ?IH; ring.
Qed.
Lemma sub_assign_length (a b : list F) : length (sub_assign a b) = Nat.max (length a) (length b).
Proof. revert b. induction a as [|u a IH]; intros [|v b]; cbn; rewrite ?IH, ?length_map; lia. Qed.

(** Two different polynomials of at most [D + 1] coefficients agree on at most
    [D] points. *)
Lemma agreements_bound (p q : list F) D points x : (length p <= D + 1)%nat -> (length q <= D + 1)%nat ->
  eval_poly p x <> eval_poly q x -> NoDup points -> (forall a, In a points -> eval_poly p a = eval_poly q a) ->
  (length points <= D)%nat.
Proof.
  intros Hp Hq Hx Hnd Ha. destruct (Nat.le_gt_cases (length points) D) as [|Hgt]; [done|]. exfalso. apply Hx.
  assert (E : eval_poly (sub_assign p q) x = zero).
  { apply (roots_bound _ points Hnd); [|rewrite sub_assign_length; lia].
    intros a Hin. rewrite sub_assign_eval, (Ha a Hin). ring. }
  rewrite sub_assign_eval in E. transitivity (eval_poly p x - eval_poly q x + eval_poly q x); [ring|]. rewrite E. ring.
Qed.
End Roots.

Section Soundness.
Context {F : Type} `{HI : InverseField F}.
Context {T : Type} `{HT : !Transcript F T}.
Add Ring Fring4 : (@field_ring F _ _).
#[local] Open Scope field_scope.

(** The sum of [g] over the hypercube of the [k] variables after [rs]. *)
Fixpoint hypercube_sum (k : nat) (g : list F -> F) (rs : list F) : F :=
  match k with O => g rs | S k => hypercube_sum k g (rs ++ [zero]) + hypercube_sum k g (rs ++ [one]) end.
(** [g] has degree at most [D] in each of its variables. *)
Definition individual_degree (D : nat) (g : list F -> F) : Prop :=
  forall a b, exists c, (length c <= D + 1)%nat /\ forall x, g (a ++ x :: b) = eval_poly c x.

Lemma hypercube_sum_degree D g k a b : individual_degree D g ->
  exists c, (length c <= D + 1)%nat /\ forall x, hypercube_sum k g (a ++ x :: b) = eval_poly c x.
Proof.
  intros Hg. revert b. induction k as [|k IH]; intros b; [apply Hg|].
  destruct (IH (b ++ [zero])) as (c0 & Hl0 & H0), (IH (b ++ [one])) as (c1 & Hl1 & H1).
  exists (add_assign c0 c1). split; [rewrite add_assign_length; lia|].
  intros x. cbn [hypercube_sum]. rewrite add_assign_eval, <- !app_assoc. cbn [app]. by rewrite H0, H1.
Qed.

Lemma verify_rounds_challenges cps D e (r : list F) (tr tr' : T) e' rs :
  verify_rounds cps D e r tr = Some (tr', inr (e', rs)) -> exists new, rs = r ++ new /\ length new = length cps.
Proof.
  revert e r tr. induction cps as [|cp cps IH]; intros e r tr; cbn [verify_rounds].
  { intros [= <- <- <-]. exists []. by rewrite app_nil_r. }
  destruct (D <? _)%nat; [done|]. destruct (append_scalars _ _ tr) as [tr1|]; [|done]. cbn [mbind option_bind].
  destruct (challenge_scalar_optimized tr1) as [ri tr2]. destruct (eval_from_hint cp e ri) as [e1|]; [|done]. cbn [mbind option_bind].
  intros (new & -> & Hl)%IH. exists (ri :: new). rewrite <- app_assoc. split; [done|]. cbn. by rewrite Hl.
Qed.

Lemma verify_rounds_app a b D e (r : list F) (tr tr1 : T) e1 r1 : verify_rounds a D e r tr = Some (tr1, inr (e1, r1)) ->
  verify_rounds (a ++ b) D e r tr = verify_rounds b D e1 r1 tr1.
Proof.
  revert e r tr. induction a as [|cp a IH]; intros e r tr; cbn [verify_rounds app]; [by intros [= -> -> ->]|].
  destruct (D <? _)%nat; [done|]. destruct (append_scalars _ _ tr) as [tr2|]; [|done]. cbn [mbind option_bind].
  destruct (challenge_scalar_optimized tr2) as [ri tr3]. destruct (eval_from_hint cp e ri) as [e2|]; [|done]. apply IH.
Qed.

(** A round in which the prover's polynomial is not the true one, yet agrees with
    it at the challenge drawn after it. *)
Definition lucky_round (n D : nat) (g : list F -> F) (cps : list (CompressedUniPoly F)) (claim : F) (tr : T) (rs : list F) : Prop :=
  exists j cp hint p r tr1, cps !! j = Some cp /\ rs !! j = Some r /\
    verify_rounds (take j cps) D claim [] tr = Some (tr1, inr (hint, take j rs)) /\
    decompress cp hint = Some p /\ (length (coeffs p) <= D + 1)%nat /\
    let true_value := fun x => hypercube_sum (n - j - 1) g (take j rs ++ [x]) in
    (exists x, eval_poly (coeffs p) x <> true_value x) /\ eval_poly (coeffs p) r = true_value r /\
    forall agreeing, NoDup agreeing -> (forall x, In x agreeing -> eval_poly (coeffs p) x = true_value x) ->
      (length agreeing <= D)%nat.

Lemma rounds_sound g n D cps claim (tr tr' : T) e rs : individual_degree D g -> length cps = n -> e = g rs ->
  forall suf pre e1 rs1 tr1, cps = pre ++ suf -> verify_rounds pre D claim [] tr = Some (tr1, inr (e1, rs1)) ->
  verify_rounds suf D e1 rs1 tr1 = Some (tr', inr (e, rs)) ->
  e1 = hypercube_sum (n - length pre) g rs1 \/ lucky_round n D g cps claim tr rs.
Proof.
  intros Hg Hn He suf. induction suf as [|cp suf IH]; intros pre e1 rs1 tr1 Hc Hpre Hsuf.
  { left. injection Hsuf as _ <- <-. rewrite app_nil_r in Hc. subst cps. by rewrite Hn, Nat.sub_diag. }
  pose proof Hsuf as Hone. cbn [verify_rounds] in Hsuf.
  destruct (Nat.ltb_spec D (length (coeffs_except_linear_term cp))) as [|Hdeg]; [done|].
  destruct (append_scalars _ _ tr1) as [tr2|] eqn:Et; [|done]. cbn [mbind option_bind] in Hsuf.
  destruct (challenge_scalar_optimized tr2) as [ri tr3] eqn:Eq.
  destruct (decide (coeffs_except_linear_term cp = [])) as [Hnil|Hne].
  { unfold eval_from_hint in Hsuf. by rewrite Hnil in Hsuf. }
  destruct (decompress_spec cp e1 Hne) as (p & Ed & _ & Hpl & Hp01 & Hpx). rewrite Hpx in Hsuf. cbn [mbind option_bind] in Hsuf.
  destruct (verify_rounds_challenges _ _ _ _ _ _ _ _ Hpre) as (new & -> & Hnew). cbn [app] in *.
  set (j := length pre) in *. assert (Hj : (j < n)%nat) by (subst cps; rewrite <- Hn, length_app; cbn; lia).
  assert (Hnext : verify_rounds (pre ++ [cp]) D claim [] tr = Some (tr3, inr (eval_poly (coeffs p) ri, new ++ [ri]))).
  { rewrite (verify_rounds_app _ _ _ _ _ _ _ _ _ Hpre). cbn [verify_rounds]. destruct (Nat.ltb_spec D (length (coeffs_except_linear_term cp))); [lia|].
    rewrite Et. cbn [mbind option_bind]. by rewrite Eq, Hpx. }
  destruct (IH (pre ++ [cp]) _ _ _ ltac:(rewrite Hc, <- app_assoc; reflexivity) Hnext Hsuf) as [Heq|Hl]; [|by right].
  set (tv := fun x => hypercube_sum (n - j - 1) g (new ++ [x])).
  assert (Htv : hypercube_sum (n - j) g new = tv zero + tv one).
  { unfold tv. replace (n - j)%nat with (S (n - j - 1)) at 1 by lia. done. }
  destruct (decide (e1 = hypercube_sum (n - j) g new)) as [|Hwrong]; [by left|]. right.
  destruct (verify_rounds_challenges _ _ _ _ _ _ _ _ Hsuf) as (rest & Hrs & _).
  exists j, cp, e1, p, ri, tr1. rewrite Hc, take_app_length' by done. split; [by rewrite list_lookup_middle|].
  rewrite Hrs, <- app_assoc. cbn [app]. rewrite take_app_length' by done. split; [by rewrite list_lookup_middle|].
  split; [exact Hpre|]. split; [exact Ed|]. split; [lia|]. cbv zeta. change (fun x => hypercube_sum (n - j - 1) g (new ++ [x])) with tv.
  assert (Hdiff : exists x, eval_poly (coeffs p) x <> tv x).
  { destruct (decide (eval_poly (coeffs p) zero = tv zero)) as [E0|]; [|by exists zero].
    destruct (decide (eval_poly (coeffs p) one = tv one)) as [E1|]; [|by exists one].
    exfalso. apply Hwrong. by rewrite Htv, <- E0, <- E1. }
  split; [exact Hdiff|]. split.
  { rewrite Heq. unfold tv. rewrite length_app. cbn [length]. fold j. by replace (n - (j + 1))%nat with (n - j - 1)%nat by lia. }
  destruct (hypercube_sum_degree D g (n - j - 1) new [] Hg) as (c & Hcl & Hcx).
  intros points Hnd Hag. destruct Hdiff as (x & Hx). apply (agreements_bound (coeffs p) c D points x); [lia|done| |done|].
  - intros E. apply Hx. rewrite E. symmetry. apply Hcx.
  - intros a Ha. rewrite (Hag a Ha). apply Hcx.
Qed.

(** C18: the verifier is sound up to lucky challenges: if it accepts the rounds for a
    claim that is not the sum of a function of bounded degree over the hypercube,
    and its last claim is the value of that function at the challenges, then in
    some round the prover's polynomial differed from the true one and agreed with
    it at the challenge; at most [D] challenges are like that. *)
Theorem accepted_claim_is_sum (g : list F -> F) n D cps claim (tr tr' : T) e rs : individual_degree D g ->
  ClearSumcheckProof_verify cps claim n D tr = Some (tr', inr (e, rs)) ->
  length rs = n /\ (e = g rs -> claim = hypercube_sum n g [] \/ lucky_round n D g cps claim tr rs).
Proof.
  intros Hg. unfold ClearSumcheckProof_verify. destruct (Nat.eqb_spec (length cps) n) as [Hn|]; [|done]. intros Hv.
  split; [destruct (verify_rounds_challenges _ _ _ _ _ _ _ _ Hv) as (new & -> & Hl); cbn; congruence|].
  intros He. pose proof (rounds_sound g n D cps claim tr tr' e rs Hg Hn He cps [] claim [] tr eq_refl eq_refl Hv) as Hs.
  cbn [length] in Hs. by rewrite Nat.sub_0_r in Hs.
Qed.
End Soundness.

(** ** Errors *)

Section Errors.
Context {F : Type} `{HI : InverseField F}.
Context {T : Type} `{HT : !Transcript F T}.
#[local] Open Scope field_scope.

(** A message the verifier reads: not empty, within the degree bound. *)
Definition readable (D : nat) (cp : CompressedUniPoly F) : Prop :=
  coeffs_except_linear_term cp <> [] /\ (length (coeffs_except_linear_term cp) <= D)%nat.

Lemma verify_round_readable cp rest D e (r : list F) (tr : T) : readable D cp ->
  exists tr' e' ri, verify_rounds (cp :: rest) D e r tr = verify_rounds rest D e' (r ++ [ri]) tr'.
Proof.
  intros [Hne Hd]. cbn [verify_rounds]. destruct (Nat.ltb_spec D (length (coeffs_except_linear_term cp))); [lia|].
  destruct (append_scalars_some (F := F) "sumcheck_poly"%string (coeffs_except_linear_term cp) tr) as (tr1 & ->).
  { apply Nat.leb_le. reflexivity. }
  cbn [mbind option_bind]. destruct (challenge_scalar_optimized tr1) as [ri tr2].
  destruct (decompress_spec cp e Hne) as (p & _ & _ & _ & _ & ->). cbn [mbind option_bind]. by eexists _, _, _.
Qed.
Lemma verify_rounds_readable cps rest D e (r : list F) (tr : T) : Forall (readable D) cps ->
  exists tr' e' new, verify_rounds (cps ++ rest) D e r tr = verify_rounds rest D e' (r ++ new) tr' /\ length new = length cps.
Proof.
  intros Hc. revert e r tr. induction Hc as [|cp cps Hcp Hc IH]; intros e r tr.
  { exists tr, e, []. by rewrite app_nil_r. }
  destruct (verify_round_readable cp (cps ++ rest) D e r tr Hcp) as (tr1 & e1 & ri & E). cbn [app]. rewrite E.
  destruct (IH e1 (r ++ [ri]) tr1) as (tr' & e' & new & E' & Hl). exists tr', e', (ri :: new).
  rewrite E', <- app_assoc. cbn. by rewrite Hl.
Qed.

(** C28: what the verifier of a clear proof does on every proof: the wrong number
    of rounds is refused before anything is absorbed, readable messages always give
    a claim and a challenge per round, the first message over the degree bound is
    refused with its degree, but a message with no coefficients, which is within
    any bound, is a panic and not an error. *)
Theorem verifier_outcomes cps claim n D (tr : T) :
  (length cps <> n -> ClearSumcheckProof_verify cps claim n D tr = Some (tr, inl (InvalidInputLength n (length cps)))) /\
  (length cps = n -> Forall (readable D) cps ->
     exists tr' e rs, ClearSumcheckProof_verify cps claim n D tr = Some (tr', inr (e, rs)) /\ length rs = n) /\
  (forall pre cp suf, length cps = n -> cps = pre ++ cp :: suf -> Forall (readable D) pre ->
     (D < length (coeffs_except_linear_term cp))%nat -> exists tr',
       ClearSumcheckProof_verify cps claim n D tr = Some (tr', inl (InvalidInputLength D (length (coeffs_except_linear_term cp))))) /\
  (forall pre cp suf, length cps = n -> cps = pre ++ cp :: suf -> Forall (readable D) pre ->
     coeffs_except_linear_term cp = [] -> ClearSumcheckProof_verify cps claim n D tr = None).
Proof.
  unfold ClearSumcheckProof_verify. split; [by intros Hn%Nat.eqb_neq; rewrite Hn|]. split; [|split].
  - intros Hn Hc. apply Nat.eqb_eq in Hn as Hb. rewrite Hb.
    destruct (verify_rounds_readable cps [] D claim [] tr Hc) as (tr' & e' & new & E & Hl). rewrite app_nil_r in E.
    exists tr', e', new. rewrite E. split; [done|congruence].
  - intros pre cp suf Hn Hc Hpre Hd. apply Nat.eqb_eq in Hn. rewrite Hn, Hc.
    destruct (verify_rounds_readable pre (cp :: suf) D claim [] tr Hpre) as (tr' & e' & new & E & _). rewrite E.
    exists tr'. cbn [verify_rounds]. apply Nat.ltb_lt in Hd. by rewrite Hd.
  - intros pre cp suf Hn Hc Hpre Hz. apply Nat.eqb_eq in Hn. rewrite Hn, Hc.
    destruct (verify_rounds_readable pre (cp :: suf) D claim [] tr Hpre) as (tr' & e' & new & E & _). rewrite E.
    cbn [verify_rounds]. rewrite Hz. cbn [length Nat.ltb Nat.leb].
    destruct (append_scalars _ _ tr') as [tr1|]; [|done]. cbn [mbind option_bind].
    destruct (challenge_scalar_optimized tr1) as [ri tr2]. unfold eval_from_hint. by rewrite Hz.
Qed.
End Errors.

(** ** A concrete protocol run

    Sums of tables over the hypercube, the most significant variable first, with a
    toy transcript over the field of 97 elements. *)

#[local] Instance toy_transcript : Transcript F97 Z.
Proof.
  refine {| raw_append_label _ t := (t + 1)%Z; raw_append_bytes l t := fold_left Z.add l (t * 31)%Z;
            raw_append_u64 x t := (t * 37 + x)%Z; raw_append_scalar s t := ((t * 41 + Zmod.to_Z s) mod 2 ^ 32)%Z;
            challenge_scalar_optimized t := (from_u64 t : F97, (t * 43 + 1)%Z);
            challenge_vector n t := (map (fun i => from_u64 (t + Z.of_nat i)%Z : F97) (seq 0 n), (t + 7)%Z) |}.
  intros n t. cbn. by rewrite length_map, length_seq.
Defined.
#[local] Instance toy_openings : OpeningState F97 unit Z :=
  {| flush_to_transcript a t := (a, (t + 3)%Z); record_sumcheck_input_claims _ a := a;
     push_combined_claim _ a := a; push_output_claims _ a := a |}.
#[local] Instance toy_simulates : Simulates (F := F97) (T := Z) (fun _ _ : unit => True).
Proof. by split. Qed.

Section TableSum.
Context {F : Type} `{HI : InverseField F}.
Add Ring Fring5 : (@field_ring F _ _).
#[local] Open Scope field_scope.

Definition total (l : list F) : F := fold_right add zero l.
Definition low_half (s : list F) : list F := take (length s / 2) s.
Definition high_half (s : list F) : list F := drop (length s / 2) s.
Definition bind_top (s : list F) (r : F) : list F := zip_with (fun a b => a + r * (b - a)) (low_half s) (high_half s).

(** The sum of a table of [n] variables, run so that [after] rounds of the batch come
    after its own: its messages carry the factor of those rounds, as those of an
    instance that overrides [round_offset]. *)
Definition table_prover (n after : nat) (table : list F) : SumcheckInstanceProver F (list F) unit :=
  {| p_num_rounds := n; p_round_offset max := default_round_offset (n + after) max; p_input_claim _ := total table;
     p_compute_message _ _ s :=
       let scale := fpow (one + one) after in
       Some (s, from_coeff [total (low_half s) * scale; (total (high_half s) - total (low_half s)) * scale]);
     p_ingest_challenge r _ s := bind_top s r; p_finalize s := s; p_cache_openings _ _ a := a |}.
Definition table_verifier (n after : nat) (table : list F) : SumcheckInstanceVerifier F unit :=
  {| v_degree := 1; v_num_rounds := n; v_round_offset max := default_round_offset (n + after) max; v_input_claim _ := total table;
     v_expected_output_claim _ rs := at0 (fold_left bind_top rs table) 0; v_cache_openings _ a := a |}.
Definition table_instance (n after : nat) (table : list F) : Instance :=
  {| prover := table_prover n after table; initial := table; verifier := table_verifier n after table;
     run_inv k s c rs := s = fold_left bind_top rs table /\ length s = (2 ^ (n - k))%nat /\
       c = total s * fpow (one + one) after |}.

Lemma total_app a b : total (a ++ b) = total a + total b.
Proof. unfold total. induction a as [|x a IH]; cbn; [ring|]. rewrite IH. ring. Qed.
Lemma bind_top_total r a b : length a = length b ->
  total (zip_with (fun a b => a + r * (b - a)) a b) = total a + r * (total b - total a).
Proof.
  unfold total. revert b. induction a as [|x a IH]; intros [|y b] Hl; try discriminate; cbn; [ring|].
  rewrite IH by (by injection Hl). ring.
Qed.
Lemma halves_of s k : length s = (2 ^ S k)%nat -> length (low_half s) = (2 ^ k)%nat /\ length (high_half s) = (2 ^ k)%nat.
Proof.
  intros Hl. unfold low_half, high_half. rewrite length_take, length_drop, Hl. cbn [Nat.pow].
  replace (2 * 2 ^ k)%nat with (2 ^ k * 2)%nat by lia. rewrite Nat.div_mul by done. lia.
Qed.

Lemma table_instance_honest n after m table : length table = (2 ^ n)%nat -> (n + after <= m)%nat ->
  honest (fun _ _ : unit => True) m (total table) (table_instance n after table).
Proof.
  intros Ht Hm. assert (Ha : trailing (AV := unit) m (table_instance n after table) = after).
  { unfold trailing, off, default_round_offset. cbn. unfold default_round_offset. lia. }
  split; rewrite ?Ha; try done.
  - unfold off. cbn. unfold default_round_offset. lia.
  - cbn. by rewrite Nat.sub_0_r.
  - cbn [table_instance prover verifier run_inv table_prover table_verifier p_num_rounds p_compute_message p_ingest_challenge v_degree].
    intros k s c rs (Hs & Hl & Hc) Hk. eexists _, _. split; [reflexivity|]. split; [cbn; lia|].
    assert (Hsum : total s = total (low_half s) + total (high_half s)).
    { rewrite <- total_app. unfold low_half, high_half. by rewrite take_drop. }
    cbn [coeffs eval_poly]. split; [rewrite Hc, Hsum; ring|]. intros r.
    replace (n - k)%nat with (S (n - (k + 1))) in Hl by lia. destruct (halves_of s _ Hl) as [H1 H2].
    split; [by rewrite fold_left_app, Hs|]. unfold bind_top.
    split; [rewrite length_zip_with, H1, H2; lia|]. rewrite bind_top_total by congruence. ring.
  - cbn [table_instance prover verifier run_inv table_prover table_verifier p_num_rounds v_expected_output_claim v_cache_openings].
    intros s c rs ap av (Hs & Hl & Hc) _. split; [done|]. rewrite Nat.sub_diag in Hl.
    destruct s as [|x [|y s]]; try discriminate Hl. rewrite <- Hs, Hc. unfold at0, total. cbn [nth fold_right]. ring.
Qed.

(** The product of all variables, of degree one in each; over two variables its
    sum is 1. *)
Definition product_of (l : list F) : F := fold_right mul one l.
Lemma product_degree : individual_degree 1 product_of.
Proof.
  intros a b. exists [zero; product_of a * product_of b]. split; [cbn; lia|]. intros x. unfold product_of.
  induction a as [|y a IH]; cbn in *; [ring|]. rewrite IH. ring.
Qed.
End TableSum.

#[local] Notation "# z" := (from_u64 z : F97) (at level 1).
Definition toy_instances : list (Instance (F := F97) (S := list F97) (AP := unit) (AV := unit)) :=
  [table_instance 2 0 [#3; #1; #4; #1]; table_instance 1 0 [#5; #9]; table_instance 1 1 [#2; #6]].


(** Both messages of the honest prover for the product of two variables are [x]
    times the challenges so far: the terms other than the linear one are zero. *)
Definition product_proof : list (CompressedUniPoly F97) :=
  [{| coeffs_except_linear_term := [#0] |}; {| coeffs_except_linear_term := [#0] |}].
Definition toy_challenges : list F97 :=
  match ClearSumcheckProof_verify product_proof (#1) 2 1 5%Z with Some (_, inr (_, rs)) => rs | _ => [] end.
Lemma accepted_claim_is_sum_witness :
  exists tr' e, ClearSumcheckProof_verify product_proof (#1) 2 1 5%Z = Some (tr', inr (e, toy_challenges)) /\
    length toy_challenges = 2%nat /\
    (#1 = hypercube_sum 2 product_of [] \/ lucky_round 2 1 product_of product_proof (#1) 5%Z toy_challenges).
Proof.
  destruct (ClearSumcheckProof_verify product_proof (#1) 2 1 5%Z) as [[tr' [err|[e rs]]]|] eqn:E; try (vm_compute in E; discriminate E).
  exists tr', e. assert (Hrs : rs = toy_challenges) by (unfold toy_challenges; by rewrite E). subst rs.
  split; [reflexivity|]. destruct (accepted_claim_is_sum product_of 2 1 product_proof (#1) 5%Z tr' e toy_challenges product_degree E) as [Hl Hs].
  split; [exact Hl|]. apply Hs. vm_compute in E. injection E as _ <-. vm_compute. reflexivity.
Defined.

(** A proof whose second message is empty. *)
Lemma verifier_outcomes_witness :
  ClearSumcheckProof_verify [{| coeffs_except_linear_term := [#4; #2] |}; {| coeffs_except_linear_term := [] |}] (#1) 2 3 5%Z = None.
Proof.
  apply (proj2 (proj2 (proj2 (verifier_outcomes
    [{| coeffs_except_linear_term := [#4; #2] |}; {| coeffs_except_linear_term := [] |}] (#1) 2 3 5%Z)))
    [{| coeffs_except_linear_term := [#4; #2] |}] {| coeffs_except_linear_term := [] |} []); try reflexivity.
  apply list.Forall_cons. split; [split; [discriminate|apply Nat.leb_le; reflexivity]|apply list.Forall_nil; exact Logic.I].
Defined.
