(* ===== verification/LookupTables.v ===== *)
(** * LookupTables: the entries of Jolt's instruction lookup tables

    Models [materialize_entry] of every table of
    [jolt-core/src/zkvm/lookup_table/*.rs].  [XLEN] is the const generic of the
    tables; a table that matches on it and panics for another width returns
    [None] there.  Arithmetic on [u64]/[u128] wraps as the release build does. *)
From S2P Require Import Prelude Bits Field.

Section Tables.
Context (XLEN : nat).
Abbreviation XL := (Z.of_nat XLEN).

(** [match XLEN { 8 | 32 | 64 => e, _ => panic!() }] *)
Definition supported {A} (e : A) : option A :=
  if decide (XLEN = 8 \/ XLEN = 32 \/ XLEN = 64)%nat then Some e else None.

(** *** Bitwise tables *)
Definition AndTable_materialize_entry (index : Z) : Z :=
  let '(x, y) := uninterleave_bits index in Z.land x y.

Definition AndnTable_materialize_entry (index : Z) : Z :=
  let '(x, y) := uninterleave_bits index in Z.land x (not_u64 y).

Definition OrTable_materialize_entry (index : Z) : Z :=
  let '(x, y) := uninterleave_bits index in Z.lor x y.

Definition XorTable_materialize_entry (index : Z) : Z :=
  let '(x, y) := uninterleave_bits index in Z.lxor x y.

(** *** Comparisons *)
Definition EqualTable_materialize_entry (index : Z) : Z :=
  let '(x, y) := uninterleave_bits index in b2z (x =? y).

Definition NotEqualTable_materialize_entry (index : Z) : option Z :=
  let '(x, y) := uninterleave_bits index in supported (b2z (negb (x =? y))).

Definition UnsignedLessThanTable_materialize_entry (index : Z) : Z :=
  let '(x, y) := uninterleave_bits index in b2z (x <? y).

Definition UnsignedLessThanEqualTable_materialize_entry (index : Z) : Z :=
  let '(x, y) := uninterleave_bits index in b2z (x <=? y).

Definition UnsignedGreaterThanEqualTable_materialize_entry (index : Z) : option Z :=
  let '(x, y) := uninterleave_bits index in supported (b2z (y <=? x)).

Definition SignedLessThanTable_materialize_entry (index : Z) : option Z :=
  let '(x, y) := uninterleave_bits index in supported (b2z (wraps XL x <? wraps XL y)).

Definition SignedGreaterThanEqualTable_materialize_entry (index : Z) : option Z :=
  let '(x, y) := uninterleave_bits index in supported (b2z (wraps XL y <=? wraps XL x)).

(** *** Tables indexed by one double-width value *)
Definition RangeCheckTable_materialize_entry (index : Z) : Z :=
  if decide (XLEN = 64%nat) then as_u64 index else as_u64 (index mod Z.shiftl 1 XL).

Definition RangeCheckAlignedTable_materialize_entry (index : Z) : Z :=
  if decide (XLEN = 64%nat) then Z.land (as_u64 index) (not_u64 1)
  else Z.land (as_u64 (index mod Z.shiftl 1 XL)) (not_u64 1).

Definition SubTable_materialize_entry (index : Z) : Z := as_u64 (index mod Z.shiftl 1 XL).

Definition UpperWordTable_materialize_entry (index : Z) : Z := as_u64 (Z.shiftr index XL).

Definition MulUNoOverflowTable_materialize_entry (index : Z) : Z :=
  let upper_bits := Z.shiftr index XL in b2z (upper_bits =? 0).

Definition HalfwordAlignmentTable_materialize_entry (index : Z) : Z := b2z (index mod 2 =? 0).

Definition WordAlignmentTable_materialize_entry (index : Z) : Z := b2z (index mod 4 =? 0).

Definition LowerHalfWordTable_materialize_entry (index : Z) : Z :=
  let half_word_size := XL / 2 in as_u64 (index mod Z.shiftl 1 half_word_size).

Definition SignExtendHalfWordTable_materialize_entry (index : Z) : Z :=
  let half_word_size := XL / 2 in
  let lower_half := as_u64 (index mod Z.shiftl 1 half_word_size) in
  let sign_bit := Z.land (Z.shiftr lower_half (half_word_size - 1)) 1 in
  if sign_bit =? 1 then
    Z.lor lower_half
      (as_u64 (Z.shiftl (as_u64 (Z.shiftl 1 half_word_size) - 1) half_word_size))
  else lower_half.

Definition MovsignTable_materialize_entry (index : Z) : Z :=
  let sign_bit_pos := 2 * XL - 1 in
  let sign_bit := Z.shiftl 1 sign_bit_pos in
  if negb (Z.land index sign_bit =? 0) then as_u64 (Z.shiftl 1 XL - 1) else 0.

Definition Pow2Table_materialize_entry (index : Z) : Z :=
  as_u64 (Z.shiftl 1 (as_u64 (index mod XL))).

Definition Pow2WTable_materialize_entry (index : Z) : Z :=
  as_u64 (Z.shiftl 1 (as_u64 (index mod 32))).

Definition ShiftRightBitmaskTable_materialize_entry (index : Z) : Z :=
  let shift := index mod XL in
  let ones := as_u64 (Z.shiftl 1 (XL - shift) - 1) in
  as_u64 (Z.shiftl ones shift).

Definition VirtualRev8WTable_materialize_entry (index : Z) : Z := rev8w (as_u64 index).

(** *** Division and remainder checks *)
Definition ValidDiv0Table_materialize_entry (index : Z) : option Z :=
  let '(divisor, quotient) := uninterleave_bits index in
  if divisor =? 0 then supported (b2z (quotient =? 2 ^ XL - 1)) else Some 1.

Definition ValidUnsignedRemainderTable_materialize_entry (index : Z) : Z :=
  let '(remainder, divisor) := uninterleave_bits index in
  b2z ((divisor =? 0) || (remainder <? divisor)).

Definition VirtualChangeDivisorTable_materialize_entry (index : Z) : option Z :=
  let '(dividend, divisor) := uninterleave_bits index in
  let dividend := wraps XL dividend in
  let divisor := wraps XL divisor in
  supported (if (dividend =? - 2 ^ (XL - 1)) && (divisor =? -1) then 1
             else as_u64 (wrapu XL divisor)).

Definition VirtualChangeDivisorWTable_materialize_entry (index : Z) : option Z :=
  let '(dividend, divisor) := uninterleave_bits index in
  if decide (XLEN = 8%nat) then
    let dividend := Z.shiftr (as_i8 (Z.shiftl (Z.land dividend 0xF) 4)) 4 in
    let divisor := Z.shiftr (as_i8 (Z.shiftl (Z.land divisor 0xF) 4)) 4 in
    Some (if (dividend =? -8) && (divisor =? -1) then 1 else as_u8 divisor)
  else if decide (XLEN = 64%nat) then
    let dividend := as_i32 (as_u32 dividend) in
    let divisor := as_i32 (as_u32 divisor) in
    Some (if (dividend =? - 2 ^ 31) && (divisor =? -1) then 1 else as_u64 divisor)
  else None.

(** *** Shifts and rotations by a bitmask *)
Definition VirtualSRLTable_materialize_entry (index : Z) : Z :=
  let '(x, y) := uninterleave_bits index in
  let x := LookupBits_new x XL in
  let y := LookupBits_new y XL in
  let '(_, _, entry) :=
    loop XLEN (fun _ '(x, y, entry) =>
      let '(x_i, x) := LookupBits_pop_msb x in
      let '(y_i, y) := LookupBits_pop_msb y in
      let entry := as_u64 (entry * (1 + y_i)) in
      (x, y, as_u64 (entry + x_i * y_i))) (x, y, 0) in
  entry.

Definition VirtualSRATable_materialize_entry (index : Z) : Z :=
  let '(x, y) := uninterleave_bits index in
  let x := LookupBits_new x XL in
  let y := LookupBits_new y XL in
  let sign_bit := if LookupBits_leading_ones x =? 0 then 0 else 1 in
  let '(_, _, entry, sign_extension) :=
    loop XLEN (fun i '(x, y, entry, sign_extension) =>
      let '(x_i, x) := LookupBits_pop_msb x in
      let '(y_i, y) := LookupBits_pop_msb y in
      let entry := as_u64 (entry * (1 + y_i)) in
      let entry := as_u64 (entry + x_i * y_i) in
      let sign_extension :=
        if negb (Nat.eqb i 0)
        then as_u64 (sign_extension + as_u64 (as_u64 (Z.shiftl 1 (Z.of_nat i)) * (1 - y_i)))
        else sign_extension in
      (x, y, entry, sign_extension)) (x, y, 0, 0) in
  as_u64 (entry + as_u64 (sign_bit * sign_extension)).

(** [(0..XLEN).rev().for_each(|i| ..)]: iteration [k] has [i = XLEN - 1 - k]. *)
Definition VirtualRotrTable_materialize_entry (index : Z) : Z :=
  let '(x_bits, y_bits) := uninterleave_bits index in
  let '(_, first_sum, second_sum) :=
    loop XLEN (fun k '(prod_one_plus_y, first_sum, second_sum) =>
      let i := XL - 1 - Z.of_nat k in
      let x := Z.land (Z.shiftr x_bits i) 1 in
      let y := Z.land (Z.shiftr y_bits i) 1 in
      let first_sum := as_u64 (first_sum * (1 + y)) in
      let first_sum := as_u64 (first_sum + x * y) in
      let second_sum :=
        as_u64 (second_sum +
          as_u64 (as_u64 (x * as_u64 (as_u128 ((1 - y) * prod_one_plus_y)))
                  * as_u64 (Z.shiftl 1 i))) in
      let prod_one_plus_y := as_u128 (prod_one_plus_y * (1 + y)) in
      (prod_one_plus_y, first_sum, second_sum)) (1, 0, 0) in
  as_u64 (first_sum + second_sum).

(** [(0..XLEN).rev().skip(XLEN / 2)]: [i] runs from [XLEN - XLEN/2 - 1] down. *)
Definition VirtualRotrWTable_materialize_entry (index : Z) : Z :=
  let '(x_bits, y_bits) := uninterleave_bits index in
  let '(_, first_sum, second_sum) :=
    loop (XLEN - XLEN / 2) (fun k '(prod_one_plus_y, first_sum, second_sum) =>
      let i := XL - 1 - Z.of_nat (k + XLEN / 2) in
      let x := Z.land (Z.shiftr x_bits i) 1 in
      let y := Z.land (Z.shiftr y_bits i) 1 in
      let first_sum := as_u64 (first_sum * (1 + y)) in
      let first_sum := as_u64 (first_sum + x * y) in
      let second_sum :=
        as_u64 (second_sum +
          as_u64 (as_u64 (as_u64 (x * (1 - y)) * prod_one_plus_y) * as_u64 (Z.shiftl 1 i))) in
      let prod_one_plus_y := as_u64 (prod_one_plus_y * (1 + y)) in
      (prod_one_plus_y, first_sum, second_sum)) (1, 0, 0) in
  as_u64 (first_sum + second_sum).

Definition VirtualXORROTTable_materialize_entry (ROTATION : Z) (index : Z) : option Z :=
  if decide (XLEN = 8%nat) then
    let '(x, y) := uninterleave_bits index in
    let xor_result := Z.lxor (as_u8 x) (as_u8 y) in
    Some (rotate_right 8 xor_result ROTATION)
  else if decide (XLEN = 64%nat) then
    let '(x, y) := uninterleave_bits index in
    let xor_result := Z.lxor x y in
    Some (rotate_right 64 xor_result ROTATION)
  else None.

Definition VirtualXORROTWTable_materialize_entry (ROTATION : Z) (index : Z) : option Z :=
  if decide (XLEN = 8%nat) then
    let rotation := ROTATION mod (XL / 2) in
    let '(x_bits, y_bits) := uninterleave_bits index in
    let x_lower := Z.land (as_u8 x_bits) 0x0F in
    let y_lower := Z.land (as_u8 y_bits) 0x0F in
    let xor_result := Z.lxor x_lower y_lower in
    let rotated :=
      Z.land (Z.lor (Z.shiftr xor_result rotation)
                    (as_u8 (Z.shiftl xor_result (XL / 2 - rotation)))) 0x0F in
    Some rotated
  else if decide (XLEN = 64%nat) then
    let '(x, y) := uninterleave_bits index in
    let x_32 := as_u32 x in
    let y_32 := as_u32 y in
    let xor_result := Z.lxor x_32 y_32 in
    Some (rotate_right 32 xor_result ROTATION)
  else None.
End Tables.

(** ** The enum of tables (lookup_table/mod.rs) *)

Inductive LookupTables :=
| RangeCheck | RangeCheckAligned | And | Andn | Or | Xor | Equal
| SignedGreaterThanEqual | UnsignedGreaterThanEqual | NotEqual
| SignedLessThan | UnsignedLessThan | Movsign | UpperWord | LessThanEqual
| ValidUnsignedRemainder | ValidDiv0 | HalfwordAlignment | WordAlignment
| LowerHalfWord | SignExtendHalfWord | Pow2 | Pow2W | ShiftRightBitmask
| VirtualRev8W | VirtualSRL | VirtualSRA | VirtualROTR | VirtualROTRW
| VirtualChangeDivisor | VirtualChangeDivisorW | MulUNoOverflow
| VirtualXORROT32 | VirtualXORROT24 | VirtualXORROT16 | VirtualXORROT63
| VirtualXORROTW16 | VirtualXORROTW12 | VirtualXORROTW8 | VirtualXORROTW7.

#[export] Instance LookupTables_eq_dec : EqDecision LookupTables.
Proof. solve_decision. Defined.

Definition materialize_entry (XLEN : nat) (t : LookupTables) (index : Z) : option Z :=
  match t with
  | RangeCheck => Some (RangeCheckTable_materialize_entry XLEN index)
  | RangeCheckAligned => Some (RangeCheckAlignedTable_materialize_entry XLEN index)
  | And => Some (AndTable_materialize_entry index)
  | Andn => Some (AndnTable_materialize_entry index)
  | Or => Some (OrTable_materialize_entry index)
  | Xor => Some (XorTable_materialize_entry index)
  | Equal => Some (EqualTable_materialize_entry index)
  | SignedGreaterThanEqual => SignedGreaterThanEqualTable_materialize_entry XLEN index
  | UnsignedGreaterThanEqual => UnsignedGreaterThanEqualTable_materialize_entry XLEN index
  | NotEqual => NotEqualTable_materialize_entry XLEN index
  | SignedLessThan => SignedLessThanTable_materialize_entry XLEN index
  | UnsignedLessThan => Some (UnsignedLessThanTable_materialize_entry index)
  | Movsign => Some (MovsignTable_materialize_entry XLEN index)
  | UpperWord => Some (UpperWordTable_materialize_entry XLEN index)
  | LessThanEqual => Some (UnsignedLessThanEqualTable_materialize_entry index)
  | ValidUnsignedRemainder => Some (ValidUnsignedRemainderTable_materialize_entry index)
  | ValidDiv0 => ValidDiv0Table_materialize_entry XLEN index
  | HalfwordAlignment => Some (HalfwordAlignmentTable_materialize_entry index)
  | WordAlignment => Some (WordAlignmentTable_materialize_entry index)
  | LowerHalfWord => Some (LowerHalfWordTable_materialize_entry XLEN index)
  | SignExtendHalfWord => Some (SignExtendHalfWordTable_materialize_entry XLEN index)
  | Pow2 => Some (Pow2Table_materialize_entry XLEN index)
  | Pow2W => Some (Pow2WTable_materialize_entry index)
  | ShiftRightBitmask => Some (ShiftRightBitmaskTable_materialize_entry XLEN index)
  | VirtualRev8W => Some (VirtualRev8WTable_materialize_entry index)
  | VirtualSRL => Some (VirtualSRLTable_materialize_entry XLEN index)
  | VirtualSRA => Some (VirtualSRATable_materialize_entry XLEN index)
  | VirtualROTR => Some (VirtualRotrTable_materialize_entry XLEN index)
  | VirtualROTRW => Some (VirtualRotrWTable_materialize_entry XLEN index)
  | VirtualChangeDivisor => VirtualChangeDivisorTable_materialize_entry XLEN index
  | VirtualChangeDivisorW => VirtualChangeDivisorWTable_materialize_entry XLEN index
  | MulUNoOverflow => Some (MulUNoOverflowTable_materialize_entry XLEN index)
  | VirtualXORROT32 => VirtualXORROTTable_materialize_entry XLEN 32 index
  | VirtualXORROT24 => VirtualXORROTTable_materialize_entry XLEN 24 index
  | VirtualXORROT16 => VirtualXORROTTable_materialize_entry XLEN 16 index
  | VirtualXORROT63 => VirtualXORROTTable_materialize_entry XLEN 63 index
  | VirtualXORROTW16 => VirtualXORROTWTable_materialize_entry XLEN 16 index
  | VirtualXORROTW12 => VirtualXORROTWTable_materialize_entry XLEN 12 index
  | VirtualXORROTW8 => VirtualXORROTWTable_materialize_entry XLEN 8 index
  | VirtualXORROTW7 => VirtualXORROTWTable_materialize_entry XLEN 7 index
  end.
