(* ===== verification/Mle.v ===== *)
(** * Mle: the multilinear extensions of the lookup tables

    Models [evaluate_mle] of every table of
    [jolt-core/src/zkvm/lookup_table/*.rs], over any field of the interface
    [FieldOps] (the challenge type [C] of the source is the field itself).  A
    point [r] lists the coordinates most significant first, the x and y
    coordinates of interleaved operands alternating. *)
From S2P Require Import Prelude Bits Field LookupTables.

Section Mle.
Context {F : Type} `{FieldOps F} (XLEN : nat).
Local Open Scope field_scope.
(** [1 << k] as a field element. *)
Abbreviation pow k := (from_u64 (Z.shiftl 1 k)).
Abbreviation XL := (Z.of_nat XLEN).

Definition at_ (r : list F) (k : nat) : F := nth k r zero.
(** [XLEN - 1 - i] as an exponent. *)
Definition down (n i : nat) : Z := (Z.of_nat n - 1 - Z.of_nat i)%Z.

Definition AndTable_evaluate_mle (r : list F) : F :=
  loop XLEN (fun i result =>
    let x_i := at_ r (2 * i) in
    let y_i := at_ r (2 * i + 1) in
    result + pow (down XLEN i) * x_i * y_i) zero.

Definition AndnTable_evaluate_mle (r : list F) : F :=
  loop XLEN (fun i result =>
    let x_i := at_ r (2 * i) in
    let y_i := at_ r (2 * i + 1) in
    result + pow (down XLEN i) * x_i * (one - y_i)) zero.

Definition OrTable_evaluate_mle (r : list F) : F :=
  loop XLEN (fun i result =>
    let x_i := at_ r (2 * i) in
    let y_i := at_ r (2 * i + 1) in
    result + pow (down XLEN i) * (x_i + y_i - x_i * y_i)) zero.

Definition XorTable_evaluate_mle (r : list F) : F :=
  loop XLEN (fun i result =>
    let x_i := at_ r (2 * i) in
    let y_i := at_ r (2 * i + 1) in
    result + pow (down XLEN i) * ((one - x_i) * y_i + x_i * (one - y_i))) zero.

(** [r.iter().step_by(2)] *)
Fixpoint step_by_2 (r : list F) : list F :=
  match r with
  | x :: _ :: t => x :: step_by_2 t
  | r => r
  end.

Definition EqualTable_evaluate_mle (r : list F) : F :=
  let x := step_by_2 r in
  let y := step_by_2 (drop 1 r) in
  fold_left mul (zip_with (fun x_i y_i => x_i * y_i + (one - x_i) * (one - y_i)) x y) one.

Definition NotEqualTable_evaluate_mle (r : list F) : F := one - EqualTable_evaluate_mle r.

Definition UnsignedLessThanTable_evaluate_mle (r : list F) : F :=
  let '(result, _) :=
    loop XLEN (fun i '(result, eq_term) =>
      let x_i := at_ r (2 * i) in
      let y_i := at_ r (2 * i + 1) in
      (result + (one - x_i) * y_i * eq_term,
       eq_term * (x_i * y_i + (one - x_i) * (one - y_i)))) (zero, one) in
  result.

Definition UnsignedLessThanEqualTable_evaluate_mle (r : list F) : F :=
  let '(lt, eq) :=
    loop XLEN (fun i '(lt, eq) =>
      let x_i := at_ r (2 * i) in
      let y_i := at_ r (2 * i + 1) in
      (lt + (one - x_i) * y_i * eq,
       eq * (x_i * y_i + (one - x_i) * (one - y_i)))) (zero, one) in
  lt + eq.

Definition UnsignedGreaterThanEqualTable_evaluate_mle (r : list F) : F :=
  one - UnsignedLessThanTable_evaluate_mle r.

Definition SignedLessThanTable_evaluate_mle (r : list F) : F :=
  let x_sign := at_ r 0 in
  let y_sign := at_ r 1 in
  let '(lt, _) :=
    loop XLEN (fun i '(lt, eq) =>
      let x_i := at_ r (2 * i) in
      let y_i := at_ r (2 * i + 1) in
      (lt + (one - x_i) * y_i * eq,
       eq * (x_i * y_i + (one - x_i) * (one - y_i)))) (zero, one) in
  x_sign - y_sign + lt.

Definition SignedGreaterThanEqualTable_evaluate_mle (r : list F) : F :=
  one - SignedLessThanTable_evaluate_mle r.

Definition RangeCheckTable_evaluate_mle (r : list F) : F :=
  loop XLEN (fun i result =>
    result + from_u128 (Z.shiftl 1 (down XLEN i)) * at_ r (XLEN + i)) zero.

Definition RangeCheckAlignedTable_evaluate_mle (r : list F) : F :=
  loop (XLEN - 1) (fun i result =>
    result + from_u128 (Z.shiftl 1 (down XLEN i)) * at_ r (XLEN + i)) zero.

Definition SubTable_evaluate_mle (r : list F) : F :=
  loop XLEN (fun i result => result + pow (down XLEN i) * at_ r (XLEN + i)) zero.

Definition UpperWordTable_evaluate_mle (r : list F) : F :=
  loop XLEN (fun i result => result + pow (down XLEN i) * at_ r i) zero.

Definition MulUNoOverflowTable_evaluate_mle (r : list F) : F :=
  loop XLEN (fun i result => result * (one - at_ r i)) one.

Definition HalfwordAlignmentTable_evaluate_mle (r : list F) : F :=
  let lsb := at_ r (length r - 1) in one - lsb.

Definition WordAlignmentTable_evaluate_mle (r : list F) : F :=
  let lsb0 := at_ r (length r - 1) in
  let lsb1 := at_ r (length r - 2) in
  (one - lsb0) * (one - lsb1).

Definition LowerHalfWordTable_evaluate_mle (r : list F) : F :=
  let half_word_size := (XLEN / 2)%nat in
  loop half_word_size (fun i result =>
    result + pow (down half_word_size i) * at_ r (XLEN + half_word_size + i)) zero.

Definition SignExtendHalfWordTable_evaluate_mle (r : list F) : F :=
  let half_word_size := (XLEN / 2)%nat in
  let lower_half :=
    loop half_word_size (fun i lower_half =>
      lower_half + pow (down half_word_size i) * at_ r (XLEN + half_word_size + i)) zero in
  let sign_bit := at_ r (XLEN + half_word_size) in
  let upper_half :=
    loop half_word_size (fun i upper_half =>
      upper_half + pow (down half_word_size i) * sign_bit) zero in
  lower_half + upper_half * pow (Z.of_nat half_word_size).

Definition MovsignTable_evaluate_mle (r : list F) : F :=
  let sign_bit := at_ r 0 in
  let ones := as_u64 (Z.shiftl 1 XL - 1) in
  sign_bit * from_u64 ones.

Definition Pow2Table_evaluate_mle (r : list F) : F :=
  loop (Nat.log2_up XLEN) (fun i result =>
    result * (one + from_u64 (Z.shiftl 1 (Z.shiftl 1 (Z.of_nat i)) - 1)
                    * at_ r (length r - i - 1))) one.

Definition Pow2WTable_evaluate_mle (r : list F) : F :=
  loop 5 (fun i result =>
    result * (one + from_u64 (Z.shiftl 1 (Z.shiftl 1 (Z.of_nat i)) - 1)
                    * at_ r (length r - i - 1))) one.

Definition ShiftRightBitmaskTable_evaluate_mle (r : list F) : F :=
  let log_w := Nat.log2_up XLEN in
  let r := drop (length r - log_w) r in
  loop XLEN (fun s sum =>
    let bitmask := Z.shiftl (Z.shiftl 1 (XL - Z.of_nat s) - 1) (Z.of_nat s) in
    let eq_val :=
      loop log_w (fun i eq_val =>
        let bit := Z.land (Z.shiftr (Z.of_nat s) (Z.of_nat i)) 1 in
        eq_val * (if Z.eqb bit 0 then one - at_ r (log_w - i - 1) else at_ r (log_w - i - 1)))
        one in
    sum + from_u128 bitmask * eq_val) zero.

(** Byte [k] of the reversed coordinates. *)
Definition rev8w_byte (r : list F) (k : nat) : F :=
  fold_left add
    (imap (fun i b => b * pow (Z.of_nat i)) (take 8 (drop (8 * k) (rev r)))) zero.

Definition VirtualRev8WTable_evaluate_mle (r : list F) : F :=
  let order := [3; 2; 1; 0; 7; 6; 5; 4]%nat in
  fold_left add
    (imap (fun i k => rev8w_byte r k * pow (Z.of_nat i * 8)%Z) order) zero.

Definition ValidDiv0Table_evaluate_mle (r : list F) : F :=
  let '(divisor_is_zero, is_valid_div_by_zero) :=
    loop XLEN (fun i '(divisor_is_zero, is_valid_div_by_zero) =>
      let x_i := at_ r (2 * i) in
      let y_i := at_ r (2 * i + 1) in
      (divisor_is_zero * (one - x_i), is_valid_div_by_zero * ((one - x_i) * y_i))) (one, one) in
  one - divisor_is_zero + is_valid_div_by_zero.

Definition ValidUnsignedRemainderTable_evaluate_mle (r : list F) : F :=
  let '(divisor_is_zero, lt, _) :=
    loop XLEN (fun i '(divisor_is_zero, lt, eq) =>
      let x_i := at_ r (2 * i) in
      let y_i := at_ r (2 * i + 1) in
      (divisor_is_zero * (one - y_i),
       lt + (one - x_i) * y_i * eq,
       eq * (x_i * y_i + (one - x_i) * (one - y_i)))) (one, zero, one) in
  lt + divisor_is_zero.

Definition VirtualChangeDivisorTable_evaluate_mle (r : list F) : F :=
  let divisor_value :=
    loop XLEN (fun i divisor_value =>
      divisor_value + from_u128 (Z.shiftl 1 (down XLEN i)) * at_ r (2 * i + 1)) zero in
  let x_product :=
    loop (XLEN - 1) (fun k x_product => x_product * (one - at_ r (2 * (k + 1)))) (at_ r 0) in
  let y_product := loop XLEN (fun i y_product => y_product * at_ r (2 * i + 1)) one in
  let adjustment := from_u64 2 - from_u128 (Z.shiftl 1 XL) in
  divisor_value + x_product * y_product * adjustment.

(** [for i in a..XLEN] is [loop (XLEN - a)] with [i = a + k]. *)
Definition VirtualChangeDivisorWTable_evaluate_mle (r : list F) : F :=
  let half := (XLEN / 2)%nat in
  let sign_bit := at_ r (XLEN + 1) in
  let divisor_value :=
    loop (XLEN - half) (fun k divisor_value =>
      let i := (half + k)%nat in
      divisor_value + pow (down XLEN i) * at_ r (2 * i + 1)) zero in
  let x_product :=
    loop (XLEN - (half + 1)) (fun k x_product =>
      x_product * (one - at_ r (2 * (half + 1 + k)))) (at_ r XLEN) in
  let y_product :=
    loop (XLEN - half) (fun k y_product => y_product * at_ r (2 * (half + k) + 1)) one in
  let sign_extension :=
    from_u128 (Z.shiftl 1 XL - Z.shiftl 1 (Z.of_nat half)) * sign_bit in
  let adjustment := from_u64 2 - from_u128 (Z.shiftl 1 XL) in
  divisor_value + adjustment * x_product * y_product + sign_extension.

Definition VirtualSRLTable_evaluate_mle (r : list F) : F :=
  loop XLEN (fun i result =>
    let x_i := at_ r (2 * i) in
    let y_i := at_ r (2 * i + 1) in
    result * (one + y_i) + x_i * y_i) zero.

Definition VirtualSRATable_evaluate_mle (r : list F) : F :=
  let '(result, sign_extension) :=
    loop XLEN (fun i '(result, sign_extension) =>
      let x_i := at_ r (2 * i) in
      let y_i := at_ r (2 * i + 1) in
      (result * (one + y_i) + x_i * y_i,
       if negb (Nat.eqb i 0) then sign_extension + pow (Z.of_nat i) * (one - y_i)
       else sign_extension)) (zero, zero) in
  result + at_ r 0 * sign_extension.

(** The rotation tables iterate over [r.chunks_exact(2).enumerate()], the
    word variant skipping the first [XLEN / 2] chunks. *)
Definition rotr_mle (skip : nat) (r : list F) : F :=
  let '(_, first_sum, second_sum) :=
    loop (XLEN - skip) (fun k '(prod_one_plus_y, first_sum, second_sum) =>
      let i := (k + skip)%nat in
      let r_x := at_ r (2 * i) in
      let r_y := at_ r (2 * i + 1) in
      (prod_one_plus_y * (one + r_y),
       first_sum * (one + r_y) + r_x * r_y,
       second_sum + r_x * (one - r_y) * prod_one_plus_y * pow (down XLEN i)))
      (one, zero, zero) in
  first_sum + second_sum.
Definition VirtualRotrTable_evaluate_mle (r : list F) : F := rotr_mle 0 r.
Definition VirtualRotrWTable_evaluate_mle (r : list F) : F := rotr_mle (XLEN / 2) r.

Definition VirtualXORROTTable_evaluate_mle (ROTATION : nat) (r : list F) : F :=
  loop XLEN (fun i result =>
    let x_i := at_ r (2 * i) in
    let y_i := at_ r (2 * i + 1) in
    let rotated_position := ((i + ROTATION) mod XLEN)%nat in
    let bit_position := down XLEN rotated_position in
    result + pow bit_position * ((one - x_i) * y_i + x_i * (one - y_i))) zero.

Definition VirtualXORROTWTable_evaluate_mle (ROTATION : nat) (r : list F) : F :=
  loop (XLEN - XLEN / 2) (fun position result =>
    let idx := (position + XLEN / 2)%nat in
    let r_x := at_ r (2 * idx) in
    let r_y := at_ r (2 * idx + 1) in
    let xor_bit := (one - r_x) * r_y + r_x * (one - r_y) in
    let rotated_position := ((position + ROTATION) mod (XLEN / 2))%nat in
    let rotated_position := down (XLEN / 2) rotated_position in
    result + pow rotated_position * xor_bit) zero.

(** The dispatch of [LookupTables::evaluate_mle] (lookup_table/mod.rs). *)
Definition evaluate_mle (t : LookupTables) (r : list F) : F :=
  match t with
  | RangeCheck => RangeCheckTable_evaluate_mle r
  | RangeCheckAligned => RangeCheckAlignedTable_evaluate_mle r
  | And => AndTable_evaluate_mle r
  | Andn => AndnTable_evaluate_mle r
  | Or => OrTable_evaluate_mle r
  | Xor => XorTable_evaluate_mle r
  | Equal => EqualTable_evaluate_mle r
  | SignedGreaterThanEqual => SignedGreaterThanEqualTable_evaluate_mle r
  | UnsignedGreaterThanEqual => UnsignedGreaterThanEqualTable_evaluate_mle r
  | NotEqual => NotEqualTable_evaluate_mle r
  | SignedLessThan => SignedLessThanTable_evaluate_mle r
  | UnsignedLessThan => UnsignedLessThanTable_evaluate_mle r
  | Movsign => MovsignTable_evaluate_mle r
  | UpperWord => UpperWordTable_evaluate_mle r
  | LessThanEqual => UnsignedLessThanEqualTable_evaluate_mle r
  | ValidUnsignedRemainder => ValidUnsignedRemainderTable_evaluate_mle r
  | ValidDiv0 => ValidDiv0Table_evaluate_mle r
  | HalfwordAlignment => HalfwordAlignmentTable_evaluate_mle r
  | WordAlignment => WordAlignmentTable_evaluate_mle r
  | LowerHalfWord => LowerHalfWordTable_evaluate_mle r
  | SignExtendHalfWord => SignExtendHalfWordTable_evaluate_mle r
  | Pow2 => Pow2Table_evaluate_mle r
  | Pow2W => Pow2WTable_evaluate_mle r
  | ShiftRightBitmask => ShiftRightBitmaskTable_evaluate_mle r
  | VirtualRev8W => VirtualRev8WTable_evaluate_mle r
  | VirtualSRL => VirtualSRLTable_evaluate_mle r
  | VirtualSRA => VirtualSRATable_evaluate_mle r
  | VirtualROTR => VirtualRotrTable_evaluate_mle r
  | VirtualROTRW => VirtualRotrWTable_evaluate_mle r
  | VirtualChangeDivisor => VirtualChangeDivisorTable_evaluate_mle r
  | VirtualChangeDivisorW => VirtualChangeDivisorWTable_evaluate_mle r
  | MulUNoOverflow => MulUNoOverflowTable_evaluate_mle r
  | VirtualXORROT32 => VirtualXORROTTable_evaluate_mle 32 r
  | VirtualXORROT24 => VirtualXORROTTable_evaluate_mle 24 r
  | VirtualXORROT16 => VirtualXORROTTable_evaluate_mle 16 r
  | VirtualXORROT63 => VirtualXORROTTable_evaluate_mle 63 r
  | VirtualXORROTW16 => VirtualXORROTWTable_evaluate_mle 16 r
  | VirtualXORROTW12 => VirtualXORROTWTable_evaluate_mle 12 r
  | VirtualXORROTW8 => VirtualXORROTWTable_evaluate_mle 8 r
  | VirtualXORROTW7 => VirtualXORROTWTable_evaluate_mle 7 r
  end.
End Mle.

(** ** The extensions at Boolean points are computed over the integers *)
Section Reduce.
Context {F : Type} `{JoltField F} (n : nat).

Lemma at_from (r : list Z) k : at_ (map from_u64 r) k = from_u64 (at_ r k : Z).
Proof. apply nth_from. Qed.

Definition from2 (p : Z * Z) : F * F := (from_u64 (fst p), from_u64 (snd p)).
Definition from3 (p : Z * Z * Z) : F * F * F := (from2 (fst p), from_u64 (snd p)).

Lemma step_by_2_from r : step_by_2 (map from_u64 r) = map from_u64 (step_by_2 (r : list Z)).
Proof.
  enough (H' : step_by_2 (map from_u64 r) = map from_u64 (step_by_2 r) /\
          forall x, step_by_2 (map from_u64 (x :: r)) = map from_u64 (step_by_2 (x :: r)))
    by apply H'.
  induction r as [|y t [IH1 IH2]]; [done|]. split; [apply IH2|].
  intros x. cbn. by rewrite IH1.
Qed.

Lemma fold_left_from (f : F -> F -> F) (g : Z -> Z -> Z) l a :
  (forall x y, f (from_u64 x) (from_u64 y) = from_u64 (g x y)) ->
  fold_left f (map from_u64 l) (from_u64 a) = from_u64 (fold_left g l a).
Proof. intros Hfg. revert a. induction l as [|x l IH]; intros a; cbn; [done|]. by rewrite Hfg, IH. Qed.

Ltac red_side :=
  unfold from3, from2; cbn [fst snd]; cbv zeta; rewrite ?at_from;
  repeat match goal with |- context [if ?b then _ else _] => destruct b end; reduce_step.
Ltac red_loop φ m f g s s' :=
  rewrite (loop_from φ m f g s s');
  [|solve [red_side]
   |solve [intros; repeat match goal with p : (_ * _)%type |- _ => destruct p end; red_side]].
(** Moves every loop of the left-hand side to the integers, then the rest. *)
Ltac red_loops :=
  repeat match goal with
  | |- context [@loop F ?m ?f ?s'] =>
      match goal with |- context [@loop Z m ?g ?s] => red_loop (from_u64 : Z -> F) m f g s s' end
  | |- context [@loop (F * F) ?m ?f ?s'] =>
      match goal with |- context [@loop (Z * Z) m ?g ?s] =>
        red_loop from2 m f g s s'; destruct (@loop (Z * Z) m g s) as [? ?] end
  | |- context [@loop (F * F * F) ?m ?f ?s'] =>
      match goal with |- context [@loop (Z * Z * Z) m ?g ?s] =>
        red_loop from3 m f g s s'; destruct (@loop (Z * Z * Z) m g s) as [[? ?] ?] end
  end.
Ltac reduce_mle := cbv zeta; red_loops; red_side.

Lemma Equal_reduce r :
  EqualTable_evaluate_mle (map from_u64 r) = from_u64 (EqualTable_evaluate_mle (r : list Z)).
Proof.
  unfold EqualTable_evaluate_mle. rewrite skipn_map, !step_by_2_from.
  rewrite <- (fold_left_from mul Z.mul) by (intros; reduce_step).
  cbn [one ZOps]. rewrite from_u64_1. f_equal. generalize (step_by_2 r), (step_by_2 (drop 1 r)).
  induction l as [|x l IH]; intros [|y l']; cbn; [done..|]. rewrite IH. f_equal. red_side.
Qed.

Lemma sum_from l : fold_left add (map from_u64 l) zero = from_u64 (fold_left Z.add l 0).
Proof. rewrite <- from_u64_0 at 1. apply fold_left_from. intros; reduce_step. Qed.

Lemma rev8w_byte_reduce r k :
  rev8w_byte (map from_u64 r) k = from_u64 (rev8w_byte (r : list Z) k).
Proof.
  unfold rev8w_byte. rewrite <- map_rev, skipn_map, firstn_map.
  cbn [add zero ZOps]. rewrite <- sum_from. f_equal.
  generalize (take 8 (drop (8 * k) (rev r))). clear k r. intros l.
  apply list_eq. intros i. change (map from_u64) with (fmap (M:=list) (from_u64 (F:=F))).
  rewrite list_lookup_fmap, !list_lookup_imap, list_lookup_fmap.
  destruct (l !! i); cbn; [|done]. by rewrite <- from_u64_mul.
Qed.

Lemma ShiftRightBitmask_reduce r :
  ShiftRightBitmaskTable_evaluate_mle n (map from_u64 r) =
  from_u64 (ShiftRightBitmaskTable_evaluate_mle n r).
Proof.
  unfold ShiftRightBitmaskTable_evaluate_mle. cbv zeta. rewrite length_map, skipn_map.
  apply (loop_from (from_u64 : Z -> F)); [red_side|]. intros s t. red_loops. red_side.
Qed.

(** The extension of every table commutes with the reduction. *)
Lemma evaluate_mle_reduce t r :
  evaluate_mle n t (map from_u64 r) = from_u64 (evaluate_mle n t r).
Proof.
  destruct t; cbn [evaluate_mle].
  all: try (unfold RangeCheckTable_evaluate_mle, RangeCheckAlignedTable_evaluate_mle,
    AndTable_evaluate_mle, AndnTable_evaluate_mle, OrTable_evaluate_mle, XorTable_evaluate_mle,
    SignedGreaterThanEqualTable_evaluate_mle, UnsignedGreaterThanEqualTable_evaluate_mle,
    SignedLessThanTable_evaluate_mle, UnsignedLessThanTable_evaluate_mle,
    MovsignTable_evaluate_mle, UpperWordTable_evaluate_mle, UnsignedLessThanEqualTable_evaluate_mle,
    ValidUnsignedRemainderTable_evaluate_mle, ValidDiv0Table_evaluate_mle,
    HalfwordAlignmentTable_evaluate_mle, WordAlignmentTable_evaluate_mle,
    LowerHalfWordTable_evaluate_mle, SignExtendHalfWordTable_evaluate_mle,
    Pow2Table_evaluate_mle, Pow2WTable_evaluate_mle,
    VirtualSRLTable_evaluate_mle, VirtualSRATable_evaluate_mle,
    VirtualRotrTable_evaluate_mle, VirtualRotrWTable_evaluate_mle, rotr_mle,
    VirtualChangeDivisorTable_evaluate_mle, VirtualChangeDivisorWTable_evaluate_mle,
    MulUNoOverflowTable_evaluate_mle, VirtualXORROTTable_evaluate_mle,
    VirtualXORROTWTable_evaluate_mle; rewrite ?length_map; reduce_mle; fail).
  - apply Equal_reduce.
  - unfold NotEqualTable_evaluate_mle. rewrite Equal_reduce. reduce_step.
  - apply ShiftRightBitmask_reduce.
  - unfold VirtualRev8WTable_evaluate_mle. cbn -[rev8w_byte Z.mul Z.of_nat].
    rewrite !rev8w_byte_reduce. reduce_step.
Qed.
End Reduce.
