(* ===== verification/TablesMle.v ===== *)
(** * TablesMle: every multilinear extension interpolates its table

    For each table of [jolt-core/src/zkvm/lookup_table/*.rs], [evaluate_mle]
    at the bits of an index is the [materialize_entry] of that index.  Both
    sides are computed on the pairs (or bits) of the index: a loop over the
    coordinates is a fold [rfold] over the list that hands the body the number
    of positions left, which is the exponent of the position's weight. *)
From S2P Require Import Prelude Bits Field LookupTables Mle.

(** ** Folds over bit lists *)

Fixpoint rfold {A St} (f : nat -> A -> St -> St) (l : list A) (s : St) : St :=
  match l with
  | [] => s
  | a :: t => rfold f t (f (length t) a s)
  end.

Lemma loop_rfold {A St} (f : nat -> A -> St -> St) (l : list A) body s :
  (forall i a s, l !! i = Some a -> body i s = f (length l - 1 - i)%nat a s) ->
  loop (length l) body s = rfold f l s.
Proof.
  revert body s. induction l as [|a t IH]; intros body s Hb; [done|].
  cbn [length rfold]. rewrite loop_S.
  rewrite (Hb 0%nat a s) by done. cbn [length].
  replace (S (length t) - 1 - 0)%nat with (length t) by lia.
  apply IH. intros i b s' Hi. rewrite (Hb (S i) b s') by done. f_equal. cbn [length]. lia.
Qed.

Lemma loop_app {St} m n body (s : St) :
  loop (m + n) body s = loop n (fun j => body (m + j)%nat) (loop m body s).
Proof.
  induction n as [|n IH]; [by rewrite Nat.add_0_r|].
  rewrite Nat.add_succ_r, !loop_S_r, IH. done.
Qed.

Lemma testbit_bval_out bs j : Z.of_nat (length bs) <= j -> Z.testbit (bval bs) j = false.
Proof. intros. apply (testbit_out (Z.of_nat (length bs))); [apply bval_range|lia]. Qed.

Lemma bval_app a b : bval (a ++ b) = bval a * 2 ^ Z.of_nat (length b) + bval b.
Proof.
  induction a as [|x t IH]; [done|]. rewrite <- app_comm_cons. cbn [bval].
  rewrite IH, length_app, Nat2Z.inj_add, Z.pow_add_r by lia. ring.
Qed.

(** A word whose bits combine those of [xs] and [ys]. *)
Lemma bval_map_ext (op : bool -> bool -> bool) ps v :
  (forall j, 0 <= j -> Z.testbit v j =
     if decide (j < Z.of_nat (length ps)) then op (Z.testbit (xs_of ps) j) (Z.testbit (ys_of ps) j)
     else false) ->
  v = bval (map (fun p => op (fst p) (snd p)) ps).
Proof.
  intros Hv. apply Z.bits_inj'. intros j Hj. rewrite Hv by done. clear Hv.
  induction ps as [|[x y] t IH].
  { cbn. rewrite decide_False by lia. symmetry. apply Z.testbit_0_l. }
  cbn [map fst snd]. rewrite !testbit_bval_cons by lia. rewrite !length_map.
  destruct (decide (j = Z.of_nat (length t))); [by rewrite decide_True by (cbn [length]; lia)|].
  rewrite <- IH. cbn [length]. repeat case_decide; try lia; done.
Qed.

(** Value, sum and product folds. *)
Lemma rfold_sum {A} (g : A -> bool) l s :
  rfold (fun k a s => s + 2 ^ Z.of_nat k * b2z (g a)) l s = s + bval (map g l).
Proof.
  revert s. induction l as [|a t IH]; intros s; cbn [rfold map bval]; [lia|].
  rewrite IH, length_map. lia.
Qed.

Lemma rfold_prod {A} (g : A -> bool) l s :
  rfold (fun _ a s => s * b2z (g a)) l s = s * b2z (forallb g l).
Proof.
  revert s. induction l as [|a t IH]; intros s; cbn [rfold forallb]; [simpl; lia|].
  rewrite IH. destruct (g a), (forallb g t); simpl; lia.
Qed.

Lemma bval_zero {A} (g : A -> bool) l :
  forallb (fun a => negb (g a)) l = (bval (map g l) =? 0).
Proof.
  induction l as [|a t IH]; [done|]. cbn [forallb map bval]. rewrite IH.
  pose proof (bval_range (map g t)). pose proof (pow2_pos (Z.of_nat (length (map g t)))).
  destruct (g a); simpl b2z; cbn [negb andb]; [|f_equal; lia].
  symmetry. apply Z.eqb_neq. lia.
Qed.

Lemma bval_ones {A} (g : A -> bool) l :
  forallb g l = (bval (map g l) =? 2 ^ Z.of_nat (length l) - 1).
Proof.
  induction l as [|a t IH]; [done|]. cbn [forallb map bval length]. rewrite IH.
  pose proof (bval_range (map g t)). pose proof (pow2_pos (Z.of_nat (length t))).
  rewrite length_map in *. rewrite Nat2Z.inj_succ, Z.pow_succ_r by lia.
  destruct (g a); simpl b2z; cbn [andb].
  - destruct (Z.eqb_spec (bval (map g t)) (2 ^ Z.of_nat (length t) - 1)); symmetry;
      [apply Z.eqb_eq | apply Z.eqb_neq]; lia.
  - symmetry. apply Z.eqb_neq. lia.
Qed.

(** The sign of a word is its leading bit. *)
Lemma wraps_sign (b : bool) t :
  wraps (Z.of_nat (length (b :: t))) (bval (b :: t)) =
  bval (b :: t) - b2z b * 2 ^ Z.of_nat (length (b :: t)).
Proof.
  cbn [bval length]. pose proof (bval_range t). rewrite Nat2Z.inj_succ.
  set (m := Z.of_nat (length t)) in *. unfold wraps. replace (Z.succ m - 1) with m by lia.
  rewrite Z.pow_succ_r by lia. pose proof (pow2_pos m). destruct b; cbn [b2z].
  - rewrite <- (Z.mod_add _ (-1)) by lia. rewrite Z.mod_small; lia.
  - rewrite Z.mod_small; lia.
Qed.

(** ** Coordinates of a Boolean point *)
Section Point.
Context (ps : list (bool * bool)).
Abbreviation r := (map b2z (weave ps)).

Lemma at_weave i p :
  ps !! i = Some p -> at_ r (2 * i) = b2z (fst p) /\ at_ r (2 * i + 1) = b2z (snd p).
Proof.
  unfold at_. revert i. induction ps as [|[x y] t IH]; intros i Hi; [done|].
  destruct i as [|i]; cbn [lookup list_lookup] in Hi; [by simplify_eq|].
  replace (2 * S i)%nat with (S (S (2 * i))) by lia. cbn [weave map nth Nat.add].
  replace (S (S (2 * i + 1))) with (S (S (2 * i)) + 1)%nat by lia. apply (IH i Hi).
Qed.

Lemma down_lookup {A} (l : list A) i a :
  l !! i = Some a -> down (length l) i = Z.of_nat (length l - 1 - i).
Proof. intros H%lookup_lt_Some. unfold down. lia. Qed.

Lemma pow_shiftl k : 0 <= k -> Z.shiftl 1 k = 2 ^ k.
Proof. intros. rewrite Z.shiftl_mul_pow2; lia. Qed.
End Point.

(** The fold bodies of the tables, unfolded by [by_pairs]. *)
Ltac unfold_fold := idtac.

(** Rewrites a loop over the coordinates of [ps] into the fold of [f]. *)
Ltac by_pairs f ps :=
  rewrite (loop_rfold f ps);
  [|let i := fresh "i" in let x := fresh "x" in let y := fresh "y" in
    let Hi := fresh "Hi" in
    intros i [x y] ? Hi;
    repeat match goal with s : (_ * _)%type |- _ => destruct s end; cbv zeta;
    let Hx := fresh "Hx" in let Hy := fresh "Hy" in
    destruct (at_weave _ _ _ Hi) as [Hx Hy]; rewrite ?Hx, ?Hy;
    rewrite ?(down_lookup ps i _ Hi), ?pow_shiftl by lia;
    cbn [fst snd add sub mul one zero from_u64 ZOps];
    try (destruct x, y; unfold_fold; cbn [b2z andb orb xorb negb eqb fst snd];
         repeat match goal with |- (_, _) = (_, _) => f_equal end; solve [reflexivity | lia])].


Lemma testbit_not_u64 v j : 0 <= j < 64 -> Z.testbit (not_u64 v) j = negb (Z.testbit v j).
Proof.
  intros. unfold not_u64, wrapu. rewrite Z.mod_pow2_bits_low, Z.lnot_spec by lia. done.
Qed.

(** ** Bitwise tables and comparisons *)
Section Pairs.
Context (ps : list (bool * bool)) (Hps : (length ps <= 64)%nat).
Abbreviation r := (map b2z (weave ps)).
Abbreviation n := (length ps).
Abbreviation x := (xs_of ps).
Abbreviation y := (ys_of ps).

Lemma xs_range : 0 <= x < 2 ^ Z.of_nat n.
Proof. pose proof (bval_range (map fst ps)) as H. by rewrite length_map in H. Qed.
Lemma ys_range : 0 <= y < 2 ^ Z.of_nat n.
Proof. pose proof (bval_range (map snd ps)) as H. by rewrite length_map in H. Qed.

Lemma testbit_xs_out j : Z.of_nat n <= j -> Z.testbit x j = false.
Proof. intros. apply testbit_bval_out. by rewrite length_map. Qed.
Lemma testbit_ys_out j : Z.of_nat n <= j -> Z.testbit y j = false.
Proof. intros. apply testbit_bval_out. by rewrite length_map. Qed.

(** The four bitwise extensions are the value of the combined bits. *)
Definition bitwise_fold (op : bool -> bool -> bool) k (p : bool * bool) s :=
  s + 2 ^ Z.of_nat k * b2z (op (fst p) (snd p)).

Lemma bitwise_sum op v :
  (forall j, 0 <= j -> Z.testbit v j =
     if decide (j < Z.of_nat n) then op (Z.testbit x j) (Z.testbit y j) else false) ->
  rfold (bitwise_fold op) ps 0 = v.
Proof.
  intros Hv. rewrite (bval_map_ext op ps v) by done.
  unfold bitwise_fold. by rewrite (rfold_sum (fun p => op (fst p) (snd p))).
Qed.

Ltac unfold_fold ::= unfold bitwise_fold.
Ltac bitwise op :=
  by_pairs (bitwise_fold op) ps; apply bitwise_sum;
  let j := fresh "j" in intros j ?; rewrite ?Z.land_spec, ?Z.lor_spec, ?Z.lxor_spec;
  case_decide; [done|]; rewrite ?testbit_xs_out, ?testbit_ys_out by lia; done.

Lemma And_mle : AndTable_evaluate_mle n r = Z.land x y.
Proof. unfold AndTable_evaluate_mle. bitwise andb. Qed.
Lemma Or_mle : OrTable_evaluate_mle n r = Z.lor x y.
Proof. unfold OrTable_evaluate_mle. bitwise orb. Qed.
Lemma Xor_mle : XorTable_evaluate_mle n r = Z.lxor x y.
Proof. unfold XorTable_evaluate_mle. bitwise xorb. Qed.

Lemma Andn_mle : AndnTable_evaluate_mle n r = Z.land x (not_u64 y).
Proof.
  unfold AndnTable_evaluate_mle. by_pairs (bitwise_fold (fun a b => a && negb b)) ps.
  apply bitwise_sum. intros j Hj. rewrite Z.land_spec. case_decide.
  - by rewrite testbit_not_u64 by lia.
  - by rewrite testbit_xs_out by lia.
Qed.

(** The lexicographic comparison: state [(lt, eq)]. *)
Definition lt_step (_ : nat) (p : bool * bool) (s : Z * Z) : Z * Z :=
  let '(lt, eq) := s in
  let '(a, b) := p in
  (lt + b2z (negb a && b) * eq, eq * b2z (eqb a b)).

Lemma lt_fold (l : list (bool * bool)) lt eq :
  rfold lt_step l (lt, eq) =
  (lt + b2z (xs_of l <? ys_of l) * eq, eq * b2z (xs_of l =? ys_of l)).
Proof.
  revert lt eq. induction l as [|[a b] t IH]; intros lt eq; cbn [rfold lt_step map bval fst snd].
  { simpl. f_equal; lia. }
  rewrite IH. pose proof (bval_range (map fst t)) as Hx. pose proof (bval_range (map snd t)) as Hy.
  rewrite !length_map in *. set (m := 2 ^ _) in *.
  destruct a, b; cbn [b2z negb andb eqb];
    repeat match goal with |- context [?u <? ?v] => destruct (Z.ltb_spec u v)
                         | |- context [?u =? ?v] => destruct (Z.eqb_spec u v) end;
    cbn [b2z]; f_equal; lia.
Qed.

Ltac unfold_fold ::= unfold lt_step.
Lemma lt_loop :
  loop n (fun i '(lt, eq) =>
    (add lt (mul (mul (sub one (at_ r (2 * i))) (at_ r (2 * i + 1))) eq),
     mul eq (add (mul (at_ r (2 * i)) (at_ r (2 * i + 1)))
                 (mul (sub one (at_ r (2 * i))) (sub one (at_ r (2 * i + 1)))))))
    (zero, one) =
  (b2z (x <? y), b2z (x =? y)).
Proof. by_pairs lt_step ps. cbn [zero one ZOps]. rewrite lt_fold. f_equal; lia. Qed.

Lemma UnsignedLessThan_mle : UnsignedLessThanTable_evaluate_mle n r = b2z (x <? y).
Proof. unfold UnsignedLessThanTable_evaluate_mle. by rewrite lt_loop. Qed.

Lemma UnsignedGreaterThanEqual_mle :
  UnsignedGreaterThanEqualTable_evaluate_mle n r = b2z (y <=? x).
Proof.
  unfold UnsignedGreaterThanEqualTable_evaluate_mle. rewrite UnsignedLessThan_mle.
  cbn [sub one ZOps]. rewrite Z.leb_antisym. by destruct (x <? y).
Qed.

Lemma UnsignedLessThanEqual_mle : UnsignedLessThanEqualTable_evaluate_mle n r = b2z (x <=? y).
Proof.
  unfold UnsignedLessThanEqualTable_evaluate_mle. rewrite lt_loop.
  cbn [add ZOps].
  destruct (Z.ltb_spec x y), (Z.eqb_spec x y), (Z.leb_spec x y); cbn [b2z]; lia.
Qed.

Lemma SignedLessThan_mle :
  (0 < n)%nat ->
  SignedLessThanTable_evaluate_mle n r = b2z (wraps (Z.of_nat n) x <? wraps (Z.of_nat n) y).
Proof.
  intros Hn. unfold SignedLessThanTable_evaluate_mle. cbv zeta. rewrite lt_loop.
  pose proof xs_range. pose proof ys_range.
  destruct ps as [|[a b] t] eqn:E; cbn [length] in Hn; [lia|].
  pose proof (wraps_sign a (map fst t)) as Hwx. pose proof (wraps_sign b (map snd t)) as Hwy.
  cbn [length] in Hwx, Hwy. rewrite length_map in Hwx, Hwy.
  change (fst (a, b) :: map fst t) with (map fst ((a, b) :: t)) in *.
  cbn [map fst snd] in *. change (length ((a, b) :: t)) with (S (length t)).
  rewrite Hwx, Hwy. change (at_ _ 0) with (b2z a). change (at_ _ 1) with (b2z b).
  cbn [length] in *.
  cbn [add sub ZOps]. set (m := 2 ^ _) in *.
  pose proof (bval_range (map fst t)) as Hx. pose proof (bval_range (map snd t)) as Hy.
  rewrite length_map in Hx, Hy.
  assert (m = 2 * 2 ^ Z.of_nat (length t)) by (subst m; rewrite Nat2Z.inj_succ, Z.pow_succ_r; lia).
  cbn [bval] in *. rewrite !length_map in *.
  destruct a, b; cbn [b2z] in *;
    repeat match goal with |- context [?u <? ?v] => destruct (Z.ltb_spec u v) end; cbn [b2z]; lia.
Qed.

Lemma SignedGreaterThanEqual_mle :
  (0 < n)%nat ->
  SignedGreaterThanEqualTable_evaluate_mle n r = b2z (wraps (Z.of_nat n) y <=? wraps (Z.of_nat n) x).
Proof.
  intros Hn. unfold SignedGreaterThanEqualTable_evaluate_mle. rewrite SignedLessThan_mle by done.
  cbn [sub one ZOps]. rewrite Z.leb_antisym. by destruct (_ <? _).
Qed.

(** Equality, as a product over the coordinates zipped by [step_by(2)]. *)
Lemma step_by_2_weave :
  step_by_2 r = map b2z (map fst ps) /\ step_by_2 (drop 1 r) = map b2z (map snd ps).
Proof.
  clear Hps. induction ps as [|[a b] t [IHx IHy]]; [done|]. cbn [weave map drop fst snd].
  split; [cbn [step_by_2]; by rewrite IHx|].
  destruct t as [|[c d] t]; [done|]. cbn [weave map drop fst snd] in *. cbn [step_by_2].
  by rewrite <- IHy.
Qed.

Lemma Equal_mle : EqualTable_evaluate_mle r = b2z (x =? y).
Proof.
  unfold EqualTable_evaluate_mle. destruct step_by_2_weave as [-> ->].
  cbn [add sub mul one ZOps].
  enough (H : forall s, fold_left Z.mul
      (zip_with (fun x_i y_i => x_i * y_i + (1 - x_i) * (1 - y_i))
        (map b2z (map fst ps)) (map b2z (map snd ps))) s = s * b2z (x =? y)).
  { rewrite H. lia. }
  clear Hps. induction ps as [|[a b] t IH]; intros s; cbn [map zip_with fold_left fst snd bval].
  { cbn. lia. }
  rewrite IH. pose proof (bval_range (map fst t)) as Hx. pose proof (bval_range (map snd t)) as Hy.
  rewrite !length_map in *. set (m := 2 ^ _) in *.
  destruct a, b; cbn [b2z];
    repeat match goal with |- context [?u =? ?v] => destruct (Z.eqb_spec u v) end;
    cbn [b2z]; lia.
Qed.

Lemma NotEqual_mle : NotEqualTable_evaluate_mle r = b2z (negb (x =? y)).
Proof.
  unfold NotEqualTable_evaluate_mle. rewrite Equal_mle. cbn [sub one ZOps]. by destruct (x =? y).
Qed.

(** Products of [1 - x_i], of [y_i] and of [(1 - x_i) * y_i]. *)
Definition div0_step (_ : nat) (p : bool * bool) (s : Z * Z) : Z * Z :=
  let '(z, v) := s in
  let '(a, b) := p in (z * b2z (negb a), v * b2z (negb a && b)).

Lemma div0_fold l a b :
  rfold div0_step l (a, b) =
  (a * b2z (forallb (fun p => negb (fst p)) l),
   b * b2z (forallb (fun p => negb (fst p)) l && forallb snd l)).
Proof.
  revert a b. induction l as [|[u v] t IH]; intros a b; cbn [rfold forallb fst snd].
  { cbn. f_equal; lia. }
  cbn [div0_step]. rewrite IH. destruct u, v, (forallb _ t), (forallb snd t); cbn [b2z negb andb]; f_equal; lia.
Qed.

Ltac unfold_fold ::= unfold div0_step.
Lemma ValidDiv0_mle :
  ValidDiv0Table_evaluate_mle n r = if x =? 0 then b2z (y =? 2 ^ Z.of_nat n - 1) else 1.
Proof.
  unfold ValidDiv0Table_evaluate_mle. by_pairs div0_step ps.
  rewrite div0_fold, bval_zero, bval_ones. cbn [add sub one ZOps].
  destruct (x =? 0), (y =? _); cbn [b2z andb]; lia.
Qed.

Definition rem_step (k : nat) (p : bool * bool) (s : Z * Z * Z) : Z * Z * Z :=
  let '(z, lt, eq) := s in
  let '(a, b) := p in
  let '(lt', eq') := lt_step k (a, b) (lt, eq) in (z * b2z (negb b), lt', eq').

Lemma rem_fold l z lt eq :
  rfold rem_step l (z, lt, eq) =
  (z * b2z (forallb (fun p => negb (snd p)) l),
   fst (rfold lt_step l (lt, eq)), snd (rfold lt_step l (lt, eq))).
Proof.
  revert z lt eq. induction l as [|[u v] t IH]; intros z lt eq; cbn [rfold forallb].
  { cbn. repeat f_equal; lia. }
  cbn [rem_step lt_step snd]. rewrite IH. cbn [lt_step].
  do 2 f_equal. destruct v, (forallb _ t); cbn; lia.
Qed.

Ltac unfold_fold ::= unfold rem_step, lt_step.
Lemma ValidUnsignedRemainder_mle :
  ValidUnsignedRemainderTable_evaluate_mle n r = b2z ((y =? 0) || (x <? y)).
Proof.
  unfold ValidUnsignedRemainderTable_evaluate_mle. by_pairs rem_step ps.
  cbn [zero one ZOps]. rewrite rem_fold, lt_fold, bval_zero. cbn [fst snd add ZOps].
  pose proof xs_range. destruct (Z.eqb_spec y 0), (Z.ltb_spec x y); cbn [b2z orb]; lia.
Qed.
End Pairs.

Lemma at_weave_app hi lo i p :
  lo !! i = Some p ->
  at_ (map b2z (weave (hi ++ lo))) (2 * (length hi + i)) = b2z (fst p) /\
  at_ (map b2z (weave (hi ++ lo))) (2 * (length hi + i) + 1) = b2z (snd p).
Proof.
  intros Hi. apply at_weave. rewrite lookup_app_r by lia. rewrite <- Hi. f_equal. lia.
Qed.

(** The variant of [by_pairs] for a loop over the low pairs [lo] of [hi ++ lo];
    [norm] rewrites the loop's position into [length hi + i]. *)
Ltac by_low_pairs f hi lo norm :=
  rewrite (loop_rfold f lo);
  [|let i := fresh "i" in let x := fresh "x" in let y := fresh "y" in
    let Hi := fresh "Hi" in
    intros i [x y] ? Hi;
    repeat match goal with s : (_ * _)%type |- _ => destruct s end; cbv zeta;
    let Hx := fresh "Hx" in let Hy := fresh "Hy" in
    destruct (at_weave_app hi lo _ _ Hi) as [Hx Hy]; norm i Hi; rewrite ?Hx, ?Hy;
    rewrite ?(down_lookup lo i _ Hi), ?pow_shiftl by lia;
    cbn [fst snd add sub mul one zero from_u64 ZOps];
    try (destruct x, y; unfold_fold; cbn [b2z andb orb xorb negb eqb fst snd];
         repeat match goal with |- (_, _) = (_, _) => f_equal end; solve [reflexivity | lia])].

(** ** The divisor adjustments *)

Lemma bval_high (a : bool) {A} (g : A -> bool) t :
  a && forallb (fun p => negb (g p)) t = (bval (a :: map g t) =? 2 ^ Z.of_nat (length t)).
Proof.
  rewrite bval_zero. cbn [bval]. rewrite length_map.
  pose proof (bval_range (map g t)) as H. rewrite length_map in H.
  pose proof (pow2_pos (Z.of_nat (length t))).
  destruct a; cbn [andb b2z]; [|symmetry; apply Z.eqb_neq; lia].
  destruct (Z.eqb_spec (bval (map g t)) 0); symmetry; [apply Z.eqb_eq | apply Z.eqb_neq]; lia.
Qed.

Section ChangeDivisor.
(** The low pairs, with the most significant one apart. *)
Context (hi : list (bool * bool)) (a b : bool) (t : list (bool * bool)).
Abbreviation lo := ((a, b) :: t).
Abbreviation r := (map b2z (weave (hi ++ lo))).

Ltac norm i Hi := idtac.
Lemma divisor_sum g :
  (forall k, (k < length lo)%nat -> g k = down (length lo) k) ->
  loop (length lo) (fun k s => add s (mul (Z.shiftl 1 (g k)) (at_ r (2 * (length hi + k) + 1)))) 0
  = ys_of lo.
Proof.
  intros Hg. by_low_pairs (fun k (p : bool * bool) s => s + 2 ^ Z.of_nat k * b2z (snd p)) hi ((a, b) :: t) norm.
  - by rewrite rfold_sum.
  - rewrite Hg, (down_lookup lo i _ Hi), pow_shiftl by (apply lookup_lt_Some in Hi; lia). done.
Qed.

Lemma x_product_high :
  loop (length t) (fun k s => mul s (sub one (at_ r (2 * (length hi + 1 + k)))))
       (at_ r (2 * length hi)) = b2z (xs_of lo =? 2 ^ Z.of_nat (length t)).
Proof.
  destruct (at_weave_app hi lo 0 (a, b) eq_refl) as [H _]. rewrite Nat.add_0_r in H. rewrite H.
  rewrite (loop_rfold (fun _ (p : bool * bool) s => s * b2z (negb (fst p))) t).
  - rewrite rfold_prod. cbn [map fst]. rewrite <- bval_high.
    destruct a, (forallb _ t); done.
  - intros i p s Hi. destruct (at_weave_app hi lo (S i) p Hi) as [Hx _].
    replace (length hi + 1 + i)%nat with (length hi + S i)%nat by lia. rewrite Hx.
    cbn [mul sub one ZOps]. by destruct p as [[] ?].
Qed.

Lemma y_product_ones :
  loop (length lo) (fun k s => mul s (at_ r (2 * (length hi + k) + 1))) 1 =
  b2z (ys_of lo =? 2 ^ Z.of_nat (length lo) - 1).
Proof.
  by_low_pairs (fun (_ : nat) (p : bool * bool) s => s * b2z (snd p)) hi ((a, b) :: t) norm.
  rewrite rfold_prod, bval_ones. cbn [one ZOps]. lia.
Qed.
End ChangeDivisor.

Lemma ChangeDivisor_mle ps :
  (0 < length ps)%nat ->
  VirtualChangeDivisorTable_evaluate_mle (length ps) (map b2z (weave ps)) =
  if (xs_of ps =? 2 ^ (Z.of_nat (length ps) - 1)) && (ys_of ps =? 2 ^ Z.of_nat (length ps) - 1)
  then 1 else ys_of ps.
Proof.
  destruct ps as [|[a b] t]; cbn [length]; [lia|intros _].
  pose proof (divisor_sum [] a b t (down (S (length t))) ltac:(done)) as Hd.
  pose proof (x_product_high [] a b t) as Hx. pose proof (y_product_ones [] a b t) as Hy.
  cbn [length app] in Hd, Hx, Hy.
  unfold VirtualChangeDivisorTable_evaluate_mle. rewrite Nat2Z.inj_succ.
  replace (S (length t) - 1)%nat with (length t) by lia.
  replace (Z.succ (Z.of_nat (length t)) - 1) with (Z.of_nat (length t)) by lia.
  rewrite (loop_ext (length t) _ (fun k s => mul s (sub one (at_ (map b2z (weave ((a, b) :: t))) (2 * (0 + 1 + k))))))
    by (intros k s _; by replace (2 * (0 + 1 + k))%nat with (2 * (k + 1))%nat by lia).
  change (at_ (map b2z (weave ((a, b) :: t))) 0) with (at_ (map b2z (weave ((a, b) :: t))) (2 * 0)).
  cbn [zero one from_u64 ZOps].
  etransitivity; [apply (f_equal2 Z.add); [exact Hd|];
    apply (f_equal2 Z.mul); [apply (f_equal2 Z.mul); [exact Hx|exact Hy]|reflexivity]|].
  rewrite Nat2Z.inj_succ. rewrite pow_shiftl by lia. cbn [sub ZOps].
  destruct (Z.eqb_spec (xs_of ((a, b) :: t)) (2 ^ Z.of_nat (length t))),
    (Z.eqb_spec (ys_of ((a, b) :: t)) (2 ^ Z.succ (Z.of_nat (length t)) - 1)); cbn [andb b2z]; lia.
Qed.

Lemma ChangeDivisorW_mle hi lo :
  (0 < length lo)%nat -> length hi = length lo ->
  VirtualChangeDivisorWTable_evaluate_mle (length (hi ++ lo)) (map b2z (weave (hi ++ lo))) =
  if (xs_of lo =? 2 ^ (Z.of_nat (length lo) - 1)) && (ys_of lo =? 2 ^ Z.of_nat (length lo) - 1)
  then 1 else wrapu (2 * Z.of_nat (length lo)) (wraps (Z.of_nat (length lo)) (ys_of lo)).
Proof.
  destruct lo as [|[a b] t]; cbn [length]; [lia|intros _ Hh].
  unfold VirtualChangeDivisorWTable_evaluate_mle.
  rewrite length_app. cbn [length]. rewrite Hh.
  replace (S (length t) + S (length t))%nat with (S (length t) * 2)%nat by lia.
  rewrite Nat.div_mul by lia.
  replace (S (length t) * 2 - S (length t))%nat with (length ((a, b) :: t)) by (cbn [length]; lia).
  replace (S (length t) * 2 - (S (length t) + 1))%nat with (length t) by lia.
  rewrite <- Hh.
  pose proof (divisor_sum hi a b t (fun k => down (length hi * 2) (length hi + k))) as Hd.
  pose proof (x_product_high hi a b t) as Hx. pose proof (y_product_ones hi a b t) as Hy.
  destruct (at_weave_app hi ((a, b) :: t) 0 (a, b) eq_refl) as [_ Hs]. rewrite Nat.add_0_r in Hs.
  cbv zeta. rewrite (Nat.mul_comm 2 (length hi)) in Hs, Hx.
  cbn [zero one from_u64 ZOps].
  etransitivity; [apply (f_equal2 Z.add); [apply (f_equal2 Z.add); [apply Hd|
    apply (f_equal2 Z.mul); [apply (f_equal2 Z.mul); [reflexivity|exact Hx]|exact Hy]]
    |apply (f_equal2 Z.mul); [reflexivity|exact Hs]]|].
  { intros k Hk. unfold down. cbn [length] in *. lia. }
  rewrite !pow_shiftl by lia. cbn [sub ZOps snd map].
  pose proof (wraps_sign b (map snd t)) as Hw. pose proof (bval_range (b :: map snd t)) as Hr.
  pose proof (bval_range (map snd t)) as Hr'.
  cbn [length] in *. rewrite length_map in *. rewrite !Hh, Hw. clear Hd Hx Hy Hs Hw. set (h := Z.of_nat (S (length t))) in *.
  replace (h - 1) with (Z.of_nat (length t)) by lia.
  replace (Z.of_nat (S (length t) * 2)) with (2 * h) by lia.
  assert (Hp : 2 ^ (2 * h) = 2 ^ h * 2 ^ h) by (rewrite <- Z.pow_add_r by lia; f_equal; lia).
  assert (0 < 2 ^ h) by (apply pow2_pos; lia).
  set (xv := bval (fst (a, b) :: map fst t)).
  assert (Hb : wrapu (2 * h) (bval (b :: map snd t) - b2z b * 2 ^ h) =
    bval (b :: map snd t) + b2z b * (2 ^ (2 * h) - 2 ^ h)).
  { unfold wrapu. rewrite <- (Z.mod_add _ (b2z b)) by lia. rewrite Z.mod_small; [ring|].
    destruct b; cbn [b2z] in *; nia. }
  rewrite Hb. clear Hb.
  destruct (Z.eqb_spec xv (2 ^ Z.of_nat (length t))),
    (Z.eqb_spec (bval (b :: map snd t)) (2 ^ h - 1)) as [E|E]; cbn [andb b2z]; try lia.
  rewrite E. destruct b; [cbn [b2z]; lia|].
  cbn [bval b2z] in E. rewrite (pow2_half h) in E by lia.
  replace (h - 1) with (Z.of_nat (length t)) in E by lia.
  pose proof (pow2_pos (Z.of_nat (length t))). rewrite length_map in E. lia.
Qed.
