(* ===== verification/ShiftsMle.v ===== *)
(** * ShiftsMle: the shift and rotation tables

    The tables of [virtual_srl.rs], [virtual_sra.rs], [virtual_rotr.rs],
    [virtual_rotrw.rs], [virtual_xor_rot.rs] and [virtual_xor_rotw.rs] run a
    loop over the bits of the two operands on wrapping machine words.  Each
    loop is the fold of a step over the pairs of bits; the wraps are the
    identity under the invariants proved here, so the table's loop computes
    the integers the extension sums. *)
From S2P Require Import Prelude Bits Field LookupTables Mle TablesMle.

(** ** [LookupBits] of a bit list *)
Definition lb_of (bs : list bool) : LookupBits :=
  {| bytes := bval bs; len := Z.of_nat (length bs) |}.

Lemma LookupBits_new_lb bs n :
  length bs = n -> (n <= 64)%nat -> LookupBits_new (bval bs) (Z.of_nat n) = lb_of bs.
Proof.
  intros <- Hl. unfold LookupBits_new, lb_of. pose proof (bval_range bs).
  destruct (Z.ltb_spec (Z.of_nat (length bs)) 128); [|lia].
  rewrite mod_shiftl_1, Z.mod_small by lia. f_equal. apply wrapu_small. unfold in_u. lia.
Qed.

Lemma land_1_testbit v i : 0 <= i -> Z.land (Z.shiftr v i) 1 = b2z (Z.testbit v i).
Proof.
  intros. change 1 with (Z.ones 1) at 1. rewrite Z.land_ones, Z.shiftr_div_pow2 by lia.
  by rewrite b2z_b2Z, Z.testbit_spec' by lia.
Qed.

Lemma pop_msb_lb b t : LookupBits_pop_msb (lb_of (b :: t)) = (b2z b, lb_of t).
Proof.
  unfold LookupBits_pop_msb, lb_of. cbn [bytes len].
  replace (Z.of_nat (length (b :: t)) - 1) with (Z.of_nat (length t)) by (cbn [length]; lia).
  rewrite land_1_testbit, testbit_bval_cons, decide_True by lia.
  rewrite mod_shiftl_1 by lia. cbn [bval]. rewrite Z.add_comm, Z.mod_add, Z.mod_small.
  - by destruct b.
  - apply bval_range.
  - pose proof (pow2_pos (Z.of_nat (length t))). lia.
Qed.

Lemma count_ones_nonneg bs : 0 <= count_ones bs.
Proof. induction bs as [|[] t IH]; simpl; lia. Qed.

Lemma leading_ones_lb b t :
  (length t < 64)%nat -> (LookupBits_leading_ones (lb_of (b :: t)) =? 0) = negb b.
Proof.
  intros Hl. unfold LookupBits_leading_ones, leading_ones, lb_of. cbn [bytes len].
  change 128%nat with (S 127). rewrite bits_of_S.
  assert (E : Z.testbit (as_u128 (Z.shiftl (bval (b :: t))
      ((128 - Z.of_nat (length (b :: t))) mod 128))) (Z.of_nat 127) = b).
  { unfold wrapu. rewrite Z.mod_pow2_bits_low by lia. cbn [length].
    rewrite Z.mod_small, Z.shiftl_spec by lia. rewrite testbit_bval_cons by lia.
    by rewrite decide_True by lia. }
  rewrite E. destruct b; cbn [count_ones negb]; [|done].
  apply Z.eqb_neq. pose proof (count_ones_nonneg (bits_of 127
    (as_u128 (Z.shiftl (bval (true :: t)) ((128 - Z.of_nat (length (true :: t))) mod 128))))). lia.
Qed.

(** A step on [u64] that does not overflow. *)
Lemma as_u64_small z k : 0 <= k <= 64 -> 0 <= z < 2 ^ k -> as_u64 z = z.
Proof.
  intros. apply wrapu_small. unfold in_u. pose proof (Z.pow_le_mono_r 2 k 64). lia.
Qed.

(** ** [VirtualSRL] *)
Section SRL.
Definition srl_step (_ : nat) (p : bool * bool) (e : Z) : Z :=
  e * (1 + b2z (snd p)) + b2z (fst p) * b2z (snd p).

Lemma VirtualSRL_mle ps :
  VirtualSRLTable_evaluate_mle (length ps) (map b2z (weave ps)) = rfold srl_step ps 0.
Proof. unfold VirtualSRLTable_evaluate_mle. by_pairs srl_step ps. done. Qed.

(** The entry stays below [2 ^ p], [p] the number of ones of [y] so far. *)
Lemma srl_step_bound k p c e :
  0 <= c -> 0 <= e < 2 ^ c -> 0 <= srl_step k p e < 2 ^ (c + b2z (snd p)).
Proof.
  intros Hc He. unfold srl_step. destruct p as [[] []]; cbn [fst snd b2z];
    rewrite ?Z.add_0_r, ?Z.pow_add_r by lia; lia.
Qed.

Lemma srl_entry l c e :
  0 <= c -> c + Z.of_nat (length l) <= 64 -> 0 <= e < 2 ^ c ->
  loop (length l) (fun _ '(x, y, entry) =>
      let '(x_i, x) := LookupBits_pop_msb x in
      let '(y_i, y) := LookupBits_pop_msb y in
      let entry := as_u64 (entry * (1 + y_i)) in
      (x, y, as_u64 (entry + x_i * y_i))) (lb_of (map fst l), lb_of (map snd l), e) =
  (lb_of [], lb_of [], rfold srl_step l e).
Proof.
  revert c e. induction l as [|[a b] t IH]; intros c e Hc Hl He; [done|].
  cbn [length] in *. rewrite loop_S. cbn [map fst snd rfold]. rewrite !pop_msb_lb.
  pose proof (srl_step_bound (length t) (a, b) c e Hc He) as Hs.
  pose proof (b2z_range b). cbn [snd] in Hs.
  replace (as_u64 (as_u64 (e * (1 + b2z b)) + b2z a * b2z b)) with (srl_step (length t) (a, b) e).
  - apply (IH (c + b2z b)); [lia|lia|done].
  - unfold srl_step in *. cbn [fst snd] in *. rewrite wrapu_add_l. symmetry.
    apply (as_u64_small _ (c + b2z b)); [lia|done].
Qed.

Lemma VirtualSRL_entry ps :
  (length ps <= 64)%nat ->
  VirtualSRLTable_materialize_entry (length ps) (bval (weave ps)) = rfold srl_step ps 0.
Proof.
  intros Hl. unfold VirtualSRLTable_materialize_entry. rewrite uninterleave_weave by done.
  rewrite !LookupBits_new_lb by (rewrite ?length_map; lia).
  pose proof (srl_entry ps 0 0) as E. cbv zeta in E |- *. by rewrite E by (cbn; lia).
Qed.
End SRL.

(** ** [VirtualSRA]

    State [(entry, sign_extension)]; [i] is the position from the top, the
    word having [n] positions. *)
Section SRA.
Context (n : nat).

Definition sra_step (k : nat) (p : bool * bool) (s : Z * Z) : Z * Z :=
  let '(e, g) := s in
  (srl_step k p e,
   if Nat.eqb (n - 1 - k) 0 then g
   else g + 2 ^ Z.of_nat (n - 1 - k) * b2z (negb (snd p))).

Ltac unfold_fold ::= unfold sra_step, srl_step.
Lemma VirtualSRA_mle a b t :
  n = S (length t) ->
  VirtualSRATable_evaluate_mle n (map b2z (weave ((a, b) :: t))) =
  let '(e, g) := rfold sra_step ((a, b) :: t) (0, 0) in e + b2z a * g.
Proof.
  intros ->. unfold VirtualSRATable_evaluate_mle. change (S (length t)) with (length ((a, b) :: t)).
  by_pairs sra_step ((a, b) :: t); [done|].
  pose proof (lookup_lt_Some _ _ _ Hi). unfold sra_step, srl_step. rewrite H. cbn [length] in *.
  replace (S (length t) - 1 - (S (length t) - 1 - i))%nat with i by lia.
  destruct (Nat.eqb i 0), y; done.
Qed.

(** After [i] positions with [c] ones of [y], the entry is below [2 ^ c] and
    the sign extension is at most [2 ^ i - 2 ^ c]. *)
Lemma sra_step_bound i k p c e g :
  (n - 1 - k = i)%nat -> 0 <= c <= Z.of_nat i -> 0 <= e < 2 ^ c ->
  0 <= g <= 2 ^ Z.of_nat i - 2 ^ c ->
  let '(e', g') := sra_step k p (e, g) in
  0 <= e' < 2 ^ (c + b2z (snd p)) /\
  0 <= g' <= 2 ^ Z.of_nat (S i) - 2 ^ (c + b2z (snd p)).
Proof.
  intros Hi Hc He Hg. cbn [sra_step]. split; [apply srl_step_bound; lia|].
  rewrite Hi. pose proof (Z.pow_le_mono_r 2 c (Z.of_nat i) ltac:(lia) ltac:(lia)).
  rewrite Nat2Z.inj_succ, Z.pow_succ_r by lia. pose proof (pow2_pos c).
  destruct (Nat.eqb_spec i 0) as [->|]; destruct (snd p); cbn [b2z negb];
    rewrite ?Z.add_0_r, ?Z.pow_add_r by lia; change (2 ^ Z.of_nat 0) with 1 in *; lia.
Qed.

Lemma sra_entry l i c e g :
  (i + length l = n)%nat -> (n <= 64)%nat -> 0 <= c <= Z.of_nat i -> 0 <= e < 2 ^ c ->
  0 <= g <= 2 ^ Z.of_nat i - 2 ^ c ->
  exists c', 0 <= c' <= Z.of_nat n /\
  loop (length l) (fun k '(x, y, entry, sign_extension) =>
      let '(x_i, x) := LookupBits_pop_msb x in
      let '(y_i, y) := LookupBits_pop_msb y in
      (x, y, as_u64 (as_u64 (entry * (1 + y_i)) + x_i * y_i),
       if negb (Nat.eqb (i + k) 0)
       then as_u64 (sign_extension + as_u64 (as_u64 (Z.shiftl 1 (Z.of_nat (i + k))) * (1 - y_i)))
       else sign_extension)) (lb_of (map fst l), lb_of (map snd l), e, g) =
  (lb_of [], lb_of [], fst (rfold sra_step l (e, g)), snd (rfold sra_step l (e, g))) /\
  0 <= fst (rfold sra_step l (e, g)) < 2 ^ c' /\
  0 <= snd (rfold sra_step l (e, g)) <= 2 ^ Z.of_nat n - 2 ^ c'.
Proof.
  revert i c e g. induction l as [|[a b] t IH]; intros i c e g Hi Hn Hc He Hg.
  { exists c. replace n with i by (cbn [length] in Hi; lia). done. }
  cbn [length] in *. cbn [map fst snd rfold].
  pose proof (sra_step_bound i (length t) (a, b) c e g ltac:(lia) Hc He Hg) as Hs.
  destruct (sra_step (length t) (a, b) (e, g)) as [e' g'] eqn:E. destruct Hs as [He' Hg'].
  cbn [snd] in He', Hg'. pose proof (b2z_range b).
  destruct (IH (S i) (c + b2z b) e' g') as (c' & Hc' & Hl & Hf); [lia..|]. exists c'.
  split; [done|]. split; [|done]. rewrite <- Hl, loop_S. cbn [map fst snd]. rewrite !pop_msb_lb, Nat.add_0_r.
  cbn [sra_step snd] in E. injection E as Ee Eg.
  replace (as_u64 (as_u64 (e * (1 + b2z b)) + b2z a * b2z b)) with e'.
  - replace (if negb (Nat.eqb i 0) then _ else g) with g'.
    + apply loop_ext. intros k [[[? ?] ?] ?] _. by replace (i + S k)%nat with (S i + k)%nat by lia.
    + rewrite <- Eg. replace (n - 1 - length t)%nat with i by lia.
      destruct (Nat.eqb_spec i 0) as [|Hi0]; cbn [negb]; [done|].
      rewrite Z.shiftl_mul_pow2, Z.mul_1_l, wrapu_mul_l, wrapu_add_r by lia.
      replace (b2z (negb b)) with (1 - b2z b) by (by destruct b).
      symmetry. apply (as_u64_small _ (Z.of_nat (S i))); [lia|].
      replace (n - 1 - length t)%nat with i in Eg by lia.
      destruct (Nat.eqb_spec i 0) as [|_]; [done|]. pose proof (pow2_pos (c + b2z b)).
      destruct b; cbn [negb b2z] in *; lia.
  - rewrite <- Ee. rewrite wrapu_add_l. symmetry. unfold srl_step in *. cbn [fst snd] in *.
    apply (as_u64_small _ (c + b2z b)); lia.
Qed.

Lemma VirtualSRA_entry a b t :
  n = S (length t) -> (n <= 64)%nat ->
  VirtualSRATable_materialize_entry n (bval (weave ((a, b) :: t))) =
  let '(e, g) := rfold sra_step ((a, b) :: t) (0, 0) in e + b2z a * g.
Proof.
  intros Hn Hl. unfold VirtualSRATable_materialize_entry.
  rewrite uninterleave_weave by (cbn [length]; lia).
  rewrite !LookupBits_new_lb by (rewrite ?length_map; cbn [length]; lia).
  cbn [map fst]. rewrite leading_ones_lb by (rewrite length_map; lia).
  destruct (sra_entry ((a, b) :: t) 0 0 0 0) as (c & Hc & E & He & Hg); [cbn; lia..|].
  cbn [length] in E. rewrite <- Hn in E. cbv zeta in E |- *. cbn [map fst snd Nat.add] in E |- *.
  rewrite E. destruct (rfold sra_step _ _) as [e g]. cbn [fst snd] in *.
  replace (if negb a then 0 else 1) with (b2z a) by (by destruct a).
  rewrite wrapu_add_r. pose proof (b2z_range a).
  apply (as_u64_small _ (Z.of_nat n)); [lia|]. nia.
Qed.
End SRA.

(** ** [VirtualROTR] and [VirtualROTRW]

    State [(prod_one_plus_y, first_sum, second_sum)]. *)
Definition rotr_step (k : nat) (p : bool * bool) (s : Z * Z * Z) : Z * Z * Z :=
  let '(m, f, g) := s in
  let '(a, b) := p in
  (m * (1 + b2z b), f * (1 + b2z b) + b2z a * b2z b,
   g + b2z a * (1 - b2z b) * m * 2 ^ Z.of_nat k).

(** The two tables' wrapping steps: the products wrap at different widths. *)
Definition rotr_step_u64 (k : nat) (p : bool * bool) (s : Z * Z * Z) : Z * Z * Z :=
  let '(m, f, g) := s in
  let '(a, b) := p in
  (as_u128 (m * (1 + b2z b)), as_u64 (as_u64 (f * (1 + b2z b)) + b2z a * b2z b),
   as_u64 (g + as_u64 (as_u64 (b2z a * as_u64 (as_u128 ((1 - b2z b) * m)))
                       * as_u64 (2 ^ Z.of_nat k)))).
Definition rotrw_step_u64 (k : nat) (p : bool * bool) (s : Z * Z * Z) : Z * Z * Z :=
  let '(m, f, g) := s in
  let '(a, b) := p in
  (as_u64 (m * (1 + b2z b)), as_u64 (as_u64 (f * (1 + b2z b)) + b2z a * b2z b),
   as_u64 (g + as_u64 (as_u64 (as_u64 (b2z a * (1 - b2z b)) * m) * as_u64 (2 ^ Z.of_nat k)))).

(** [c] ones of [y] out of [c + z] bits so far. *)
Definition rotr_inv (n c z : Z) (s : Z * Z * Z) : Prop :=
  let '(m, f, g) := s in
  0 <= c /\ 0 <= z /\ m = 2 ^ c /\ 0 <= f < 2 ^ c /\ 0 <= g <= 2 ^ n - 2 ^ (n - z).

Lemma rotr_step_inv n c z k p s :
  rotr_inv n c z s -> c + z + 1 + Z.of_nat k = n ->
  rotr_inv n (c + b2z (snd p)) (z + 1 - b2z (snd p)) (rotr_step k p s).
Proof.
  destruct s as [[m f] g], p as [a b]. intros (Hc & Hz & -> & Hf & Hg) Hn. cbn [rotr_step snd].
  pose proof (pow2_pos c Hc). pose proof (b2z_range b).
  assert (Hw : 2 ^ (n - z) = 2 * (2 ^ c * 2 ^ Z.of_nat k)).
  { rewrite <- Z.pow_add_r, <- Z.pow_succ_r by lia. f_equal. lia. }
  assert (0 < 2 ^ c * 2 ^ Z.of_nat k) by (apply Z.mul_pos_pos; [lia|apply pow2_pos; lia]).
  split; [lia|]. split; [lia|]. destruct b; cbn [b2z].
  - rewrite Z.pow_add_r by lia. replace (z + 1 - 1) with z by lia.
    split; [lia|]. split; destruct a; cbn [b2z]; lia.
  - rewrite !Z.add_0_r. replace (n - (z + 1 - 0)) with (c + Z.of_nat k) by lia.
    rewrite (Z.pow_add_r 2 c (Z.of_nat k)) by lia. split; [lia|]. split; [lia|]. destruct a; cbn [b2z]; lia.
Qed.

Lemma rotr_step_exact n c z k p s :
  0 <= n <= 64 -> rotr_inv n c z s -> c + z + 1 + Z.of_nat k = n ->
  rotr_step_u64 k p s = rotr_step k p s /\ (n < 64 -> rotrw_step_u64 k p s = rotr_step k p s).
Proof.
  intros Hn64 Hi Hn. pose proof (rotr_step_inv n c z k p s Hi Hn) as Hi'.
  destruct s as [[m f] g], p as [a b]. destruct Hi as (Hc & Hz & -> & Hf & Hg).
  cbn [rotr_step snd] in Hi'. destruct Hi' as (_ & _ & Hm' & Hf' & Hg').
  pose proof (b2z_range a). pose proof (b2z_range b).
  pose proof (Z.pow_le_mono_r 2 c 63 ltac:(lia) ltac:(lia)).
  pose proof (Z.pow_le_mono_r 2 (c + b2z b) 64 ltac:(lia) ltac:(lia)).
  pose proof (Z.pow_le_mono_r 2 (Z.of_nat k) 63 ltac:(lia) ltac:(lia)).
  pose proof (Z.pow_le_mono_r 2 n 64 ltac:(lia) ltac:(lia)).
  pose proof (pow2_pos (n - (z + 1 - b2z b)) ltac:(lia)). pose proof (pow2_pos c Hc).
  pose proof (pow2_pos (Z.of_nat k) ltac:(lia)).
  assert (Eg : as_u64 (g + b2z a * (1 - b2z b) * 2 ^ c * 2 ^ Z.of_nat k) =
               g + b2z a * (1 - b2z b) * 2 ^ c * 2 ^ Z.of_nat k)
    by (apply wrapu_small; unfold in_u; lia).
  assert (Ef : as_u64 (f * (1 + b2z b) + b2z a * b2z b) = f * (1 + b2z b) + b2z a * b2z b)
    by (apply wrapu_small; unfold in_u; lia).
  assert (Hm : 0 <= 2 ^ c * (1 + b2z b) <= 2 ^ 64) by lia.
  cbn [rotr_step rotr_step_u64 rotrw_step_u64]. split; [|intros Hlt]; (apply f_equal2; [apply f_equal2|]).
  - apply wrapu_small. unfold in_u. lia.
  - by rewrite wrapu_add_l.
  - rewrite wrapu_add_r. rewrite (wrapu_small 64 (2 ^ Z.of_nat k)) by (unfold in_u; lia).
    rewrite <- wrapu_add_r, wrapu_mul_l, wrapu_add_r.
    rewrite (wrapu_small 128) by (unfold in_u; destruct b; cbn [b2z]; lia).
    rewrite (wrapu_small 64 ((1 - b2z b) * 2 ^ c)) by (unfold in_u; destruct b; cbn [b2z]; lia).
    etransitivity; [|exact Eg]. f_equal. ring.
  - apply wrapu_small. pose proof (Z.pow_le_mono_r 2 c 62 ltac:(lia) ltac:(lia)). unfold in_u. destruct b; cbn [b2z]; lia.
  - by rewrite wrapu_add_l.
  - rewrite wrapu_add_r. rewrite (wrapu_small 64 (2 ^ Z.of_nat k)) by (unfold in_u; lia).
    rewrite <- wrapu_add_r, wrapu_mul_l, wrapu_add_r.
    rewrite (wrapu_small 64 (b2z a * (1 - b2z b))) by (unfold in_u; destruct a, b; cbn [b2z]; lia).
    done.
Qed.

Lemma rotr_fold n l c z s :
  0 <= n <= 64 -> rotr_inv n c z s -> c + z + Z.of_nat (length l) = n ->
  rfold rotr_step_u64 l s = rfold rotr_step l s /\
  (n < 64 -> rfold rotrw_step_u64 l s = rfold rotr_step l s) /\
  exists c' z', c' + z' = n /\ rotr_inv n c' z' (rfold rotr_step l s).
Proof.
  intros Hn64. revert c z s. induction l as [|p t IH]; intros c z s Hi Hn.
  { cbn [rfold length] in *. split; [done|]. split; [done|]. exists c, z. split; [lia|done]. }
  cbn [rfold length] in *.
  destruct (rotr_step_exact n c z (length t) p s Hn64 Hi) as [-> Hw]; [lia|].
  destruct (IH (c + b2z (snd p)) (z + 1 - b2z (snd p)) (rotr_step (length t) p s)) as (-> & Hw' & Hc).
  - apply rotr_step_inv; [done|lia].
  - lia.
  - split; [done|]. split; [|done]. intros Hlt. by rewrite Hw, Hw'.
Qed.

(** The final sum of the two rotations fits the word. *)
Lemma rotr_total n c z m f g :
  0 <= n <= 64 -> c + z = n -> rotr_inv n c z (m, f, g) -> as_u64 (f + g) = f + g.
Proof.
  intros Hn Hc (? & ? & -> & Hf & Hg). apply (as_u64_small _ n); [lia|].
  replace (n - z) with c in Hg by lia. lia.
Qed.

Section Rotr.
(** The low pairs [lo] the loop runs over, behind [hi] skipped ones. *)
Context (hi lo : list (bool * bool)).
Abbreviation ps := (hi ++ lo).

Ltac unfold_fold ::= unfold rotr_step.
Ltac norm i Hi := replace (i + length hi)%nat with (length hi + i)%nat by lia.
Lemma rotr_mle_fold :
  rotr_mle (length ps) (length hi) (map b2z (weave ps)) =
  let '(_, f, g) := rfold rotr_step lo (1, 0, 0) in f + g.
Proof.
  unfold rotr_mle. rewrite length_app. replace (length hi + length lo - length hi)%nat with (length lo) by lia.
  by_low_pairs rotr_step hi lo norm; [done|].
  replace (down (length hi + length lo) (length hi + i)) with (Z.of_nat (length lo - 1 - i))
    by (apply lookup_lt_Some in Hi; unfold down; lia).
  rewrite pow_shiftl by lia. done.
Qed.

Lemma testbit_xs_lookup i p (qs : list (bool * bool)) :
  qs !! i = Some p ->
  Z.testbit (xs_of qs) (Z.of_nat (length qs - 1 - i)) = fst p /\
  Z.testbit (ys_of qs) (Z.of_nat (length qs - 1 - i)) = snd p.
Proof.
  revert i. induction qs as [|[a b] t IH]; intros i Hi; [done|].
  cbn [map fst snd]. rewrite !testbit_bval_cons, !length_map by lia. cbn [length].
  destruct i as [|i]; cbn in Hi; simplify_eq.
  - rewrite !decide_True by lia. done.
  - pose proof (lookup_lt_Some _ _ _ Hi). rewrite !decide_False by lia.
    replace (S (length t) - 1 - S i)%nat with (length t - 1 - i)%nat by lia. by apply IH.
Qed.

Lemma low_bit i p :
  lo !! i = Some p ->
  let j := Z.of_nat (length ps) - 1 - Z.of_nat (i + length hi) in
  j = Z.of_nat (length lo - 1 - i) /\
  Z.land (Z.shiftr (xs_of ps) j) 1 = b2z (fst p) /\ Z.land (Z.shiftr (ys_of ps) j) 1 = b2z (snd p).
Proof.
  intros Hi j. pose proof (lookup_lt_Some _ _ _ Hi).
  destruct (testbit_xs_lookup (length hi + i) p ps) as [Hx Hy].
  { rewrite lookup_app_r by lia. rewrite <- Hi. f_equal. lia. }
  replace (length ps - 1 - (length hi + i))%nat with (length lo - 1 - i)%nat in * by
    (rewrite length_app; lia).
  assert (j = Z.of_nat (length lo - 1 - i)) as -> by (subst j; rewrite length_app; lia).
  rewrite !land_1_testbit by lia. rewrite Hx, Hy. done.
Qed.
End Rotr.

Lemma VirtualROTR_mle ps :
  VirtualRotrTable_evaluate_mle (length ps) (map b2z (weave ps)) =
  let '(_, f, g) := rfold rotr_step ps (1, 0, 0) in f + g.
Proof. exact (rotr_mle_fold [] ps). Qed.

Lemma VirtualROTR_entry ps :
  (length ps <= 64)%nat ->
  VirtualRotrTable_materialize_entry (length ps) (bval (weave ps)) =
  let '(_, f, g) := rfold rotr_step ps (1, 0, 0) in f + g.
Proof.
  intros Hl. unfold VirtualRotrTable_materialize_entry. rewrite uninterleave_weave by done.
  rewrite (loop_rfold rotr_step_u64 ps).
  - destruct (rotr_fold (Z.of_nat (length ps)) ps 0 0 (1, 0, 0)) as (-> & _ & c & z & Hc & Hi);
      [lia|cbn; rewrite Z.sub_0_r; lia|lia|].
    destruct (rfold _ _ _) as [[m f] g]. by eapply rotr_total; [|exact Hc|exact Hi]; lia.
  - intros i [a b] [[m f] g] Hi. destruct (low_bit [] ps i _ Hi) as (Hj & Hx & Hy).
    cbn [app length] in *. rewrite Nat.add_0_r in *. cbv zeta. rewrite Hx, Hy, Hj.
    cbn [fst snd rotr_step_u64]. by rewrite pow_shiftl by lia.
Qed.

Lemma VirtualROTRW_mle hi lo :
  length hi = length lo ->
  VirtualRotrWTable_evaluate_mle (length (hi ++ lo)) (map b2z (weave (hi ++ lo))) =
  let '(_, f, g) := rfold rotr_step lo (1, 0, 0) in f + g.
Proof.
  intros Hh. unfold VirtualRotrWTable_evaluate_mle.
  replace (length (hi ++ lo) / 2)%nat with (length hi); [apply rotr_mle_fold|].
  rewrite length_app, <- Hh. replace (length hi + length hi)%nat with (length hi * 2)%nat by lia.
  by rewrite Nat.div_mul by lia.
Qed.

Lemma VirtualROTRW_entry hi lo :
  length hi = length lo -> (length lo <= 32)%nat ->
  VirtualRotrWTable_materialize_entry (length (hi ++ lo)) (bval (weave (hi ++ lo))) =
  let '(_, f, g) := rfold rotr_step lo (1, 0, 0) in f + g.
Proof.
  intros Hh Hl. unfold VirtualRotrWTable_materialize_entry.
  rewrite uninterleave_weave by (rewrite length_app; lia).
  replace (length (hi ++ lo) / 2)%nat with (length hi).
  2:{ rewrite length_app, <- Hh. replace (length hi + length hi)%nat with (length hi * 2)%nat by lia.
      by rewrite Nat.div_mul by lia. }
  replace (length (hi ++ lo) - length hi)%nat with (length lo) by (rewrite length_app; lia).
  rewrite (loop_rfold rotrw_step_u64 lo).
  - destruct (rotr_fold (Z.of_nat (length lo)) lo 0 0 (1, 0, 0)) as (_ & Hw & c & z & Hc & Hi);
      [lia|cbn; rewrite Z.sub_0_r; lia|lia|].
    rewrite Hw by lia. clear Hw.
    destruct (rfold rotr_step _ _) as [[m f] g]. by eapply rotr_total; [|exact Hc|exact Hi]; lia.
  - intros i [a b] [[m f] g] Hi. destruct (low_bit hi lo i _ Hi) as (Hj & Hx & Hy).
    cbv zeta in *. rewrite Hx, Hy, Hj. cbn [fst snd rotrw_step_u64]. by rewrite pow_shiftl by lia.
Qed.

(** ** [VirtualXORROT] and [VirtualXORROTW] *)

(** A rotation moves the low bits above the others. *)
Lemma rotate_right_app a b k :
  (0 < length (a ++ b))%nat -> k mod Z.of_nat (length (a ++ b)) = Z.of_nat (length b) ->
  rotate_right (Z.of_nat (length (a ++ b))) (bval (a ++ b)) k = bval (b ++ a).
Proof.
  intros Hl Hk. unfold rotate_right. rewrite Hk, length_app.
  replace (Z.of_nat (length a + length b) - Z.of_nat (length b)) with (Z.of_nat (length a)) by lia.
  apply Z.bits_inj'. intros j Hj. unfold wrapu.
  rewrite Z.testbit_mod_pow2, Z.lor_spec, Z.shiftr_spec, Z.shiftl_spec by lia.
  rewrite !bval_app, (testbit_low_high (Z.of_nat (length a))) by (try apply bval_range; lia).
  destruct (Z.ltb_spec j (Z.of_nat (length a + length b))); cbn [andb].
  - rewrite (testbit_low_high (Z.of_nat (length b)) _ _ (j + _)) by (try apply bval_range; lia).
    rewrite decide_False by lia. rewrite Z.add_simpl_r.
    case_decide.
    + rewrite (Z.testbit_neg_r _ (j - _)) by lia. by rewrite orb_false_r.
    + rewrite testbit_bval_out by lia. cbn [orb].
      rewrite testbit_low_high by (try apply bval_range; lia). by rewrite decide_True by lia.
  - rewrite decide_False by lia. symmetry. apply testbit_bval_out. lia.
Qed.

Definition xor_bit (p : bool * bool) : bool := xorb (fst p) (snd p).

Lemma xor_bval (qs : list (bool * bool)) : Z.lxor (xs_of qs) (ys_of qs) = bval (map xor_bit qs).
Proof.
  apply (bval_map_ext xorb). intros j Hj. rewrite Z.lxor_spec. case_decide; [done|].
  by rewrite testbit_xs_out, testbit_ys_out by lia.
Qed.

Section XorRot.
Context (hi lo : list (bool * bool)).
(** [lo] is cut at the rotation: [bt] holds the low bits that wrap around. *)
Context (tp bt : list (bool * bool)) (Hcut : lo = tp ++ bt).
Context (R : nat) (HR : (R mod length lo)%nat = length bt) (Hlo : (0 < length lo)%nat).
Lemma xorrot_low m (l : list (bool * bool)) s :
  rfold (fun k p s => s + 2 ^ Z.of_nat (k + m) * b2z (xor_bit p)) l s =
  s + bval (map xor_bit l) * 2 ^ Z.of_nat m.
Proof.
  revert s. induction l as [|p t IH]; intros s; cbn [rfold map bval]; [lia|].
  rewrite IH, length_map, Nat2Z.inj_add, Z.pow_add_r by lia. ring.
Qed.

(** The extensions' common loop, [pos] and [exponent] as the two tables write them. *)
Lemma xorrot_sum (exponent : nat -> Z) :
  (forall i, (i < length lo)%nat -> exponent i = Z.of_nat (length lo) - 1 - Z.of_nat ((i + R) mod length lo)) ->
  loop (length lo) (fun i s => add s (mul (Z.shiftl 1 (exponent i))
    (add (mul (sub one (at_ (map b2z (weave (hi ++ lo))) (2 * (length hi + i))))
              (at_ (map b2z (weave (hi ++ lo))) (2 * (length hi + i) + 1)))
         (mul (at_ (map b2z (weave (hi ++ lo))) (2 * (length hi + i)))
              (sub one (at_ (map b2z (weave (hi ++ lo))) (2 * (length hi + i) + 1))))))) 0
  = bval (map xor_bit (bt ++ tp)).
Proof.
  intros Hex. assert (Hl : length lo = (length tp + length bt)%nat) by (by rewrite Hcut, length_app).
  rewrite Hl at 1. rewrite loop_app.
  rewrite (loop_rfold (fun k p s => s + 2 ^ Z.of_nat k * b2z (xor_bit p)) tp).
  2:{ intros i p s Hi. pose proof (lookup_lt_Some _ _ _ Hi).
      destruct (at_weave_app hi lo i p) as [-> ->]; [by rewrite Hcut; apply lookup_app_l_Some|].
      rewrite Hex by lia. pose proof (Nat.Div0.add_mod i R (length lo)) as Hm.
      rewrite HR, (Nat.mod_small i), (Nat.mod_small (i + length bt)) in Hm by lia.
      rewrite Hm, pow_shiftl by lia.
      replace (Z.of_nat (length lo) - 1 - Z.of_nat (i + length bt)) with (Z.of_nat (length tp - 1 - i)) by lia.
      destruct p as [[] []]; cbn; lia. }
  rewrite rfold_sum.
  rewrite (loop_rfold (fun k p s => s + 2 ^ Z.of_nat (k + length tp) * b2z (xor_bit p)) bt).
  2:{ intros i p s Hi. pose proof (lookup_lt_Some _ _ _ Hi).
      destruct (at_weave_app hi lo (length tp + i) p) as [-> ->].
      { rewrite Hcut, lookup_app_r by lia. rewrite <- Hi. f_equal. lia. }
      rewrite Hex by lia. pose proof (Nat.Div0.add_mod (length tp + i) R (length lo)) as Hm.
      rewrite HR, (Nat.mod_small (length tp + i)) in Hm by lia.
      replace (length tp + i + length bt)%nat with (i + 1 * length lo)%nat in Hm by lia.
      rewrite Nat.Div0.mod_add, (Nat.mod_small i) in Hm by lia.
      rewrite Hm, pow_shiftl by lia.
      replace (Z.of_nat (length lo) - 1 - Z.of_nat i) with (Z.of_nat (length bt - 1 - i + length tp)) by lia.
      destruct p as [[] []]; cbn; lia. }
  rewrite map_app, bval_app, length_map.
  rewrite xorrot_low. lia.
Qed.
End XorRot.

(** The cut of a list at a rotation. *)
Lemma cut_at_rotation {A} (l : list A) R :
  (0 < length l)%nat -> exists tp bt, l = tp ++ bt /\ (R mod length l)%nat = length bt.
Proof.
  intros Hl. pose proof (Nat.mod_upper_bound R (length l)).
  exists (take (length l - R mod length l) l), (drop (length l - R mod length l) l).
  rewrite take_drop, length_drop. split; [done|]. lia.
Qed.

Lemma rotate_xor tp bt R :
  (0 < length (tp ++ bt))%nat -> (R mod length (tp ++ bt))%nat = length bt ->
  rotate_right (Z.of_nat (length (tp ++ bt))) (Z.lxor (xs_of (tp ++ bt)) (ys_of (tp ++ bt)))
    (Z.of_nat R) = bval (map xor_bit (bt ++ tp)).
Proof.
  intros Hl HR. rewrite xor_bval, !map_app.
  replace (length (tp ++ bt)) with (length (map xor_bit tp ++ map xor_bit bt)) in * by
    (rewrite !length_app, !length_map; lia).
  apply rotate_right_app; [done|]. rewrite <- Nat2Z.inj_mod. f_equal. by rewrite length_map.
Qed.

Lemma VirtualXORROT_correct ps R :
  (length ps = 8 \/ length ps = 64)%nat ->
  VirtualXORROTTable_materialize_entry (length ps) (Z.of_nat R) (bval (weave ps)) =
  Some (VirtualXORROTTable_evaluate_mle (length ps) R (map b2z (weave ps))).
Proof.
  intros Hl. destruct (cut_at_rotation ps R) as (tp & bt & Hcut & HR); [lia|].
  assert (E : VirtualXORROTTable_evaluate_mle (length ps) R (map b2z (weave ps)) =
              bval (map xor_bit (bt ++ tp))).
  { apply (xorrot_sum [] ps tp bt Hcut R HR); [lia|]. intros i Hi. unfold down. done. }
  rewrite E. pose proof (rotate_xor tp bt R) as Hrot. rewrite <- Hcut in Hrot.
  pose proof (xs_range ps). pose proof (ys_range ps).
  unfold VirtualXORROTTable_materialize_entry. rewrite uninterleave_weave by lia.
  rewrite <- Hrot by lia. destruct Hl as [Hl|Hl]; rewrite Hl in *; cbn [decide decide_rel].
  - rewrite decide_True by done. rewrite !wrapu_small by (unfold in_u; lia). done.
  - rewrite decide_False, decide_True by lia. done.
Qed.

Lemma rotate_right_narrow z k :
  in_u 4 z -> Z.land (Z.lor (Z.shiftr z (k mod 4)) (as_u8 (Z.shiftl z (4 - k mod 4)))) 0x0F =
  rotate_right 4 z k.
Proof.
  intros Hz. unfold rotate_right. change 0x0F with (Z.ones 4). rewrite Z.land_ones by lia.
  fold (wrapu 4 (Z.lor (Z.shiftr z (k mod 4)) (as_u8 (Z.shiftl z (4 - k mod 4))))).
  apply Z.bits_inj'. intros j Hj. unfold wrapu. rewrite !Z.testbit_mod_pow2, !Z.lor_spec by lia.
  destruct (Z.ltb_spec j 4); [|done]. rewrite Z.mod_pow2_bits_low by lia. done.
Qed.

Lemma VirtualXORROTW_correct hi lo R :
  length hi = length lo -> (length lo = 4 \/ length lo = 32)%nat ->
  VirtualXORROTWTable_materialize_entry (length (hi ++ lo)) (Z.of_nat R) (bval (weave (hi ++ lo))) =
  Some (VirtualXORROTWTable_evaluate_mle (length (hi ++ lo)) R (map b2z (weave (hi ++ lo)))).
Proof.
  intros Hh Hl. destruct (cut_at_rotation lo R) as (tp & bt & Hcut & HR); [lia|].
  assert (Hn : length (hi ++ lo) = (length lo * 2)%nat) by (rewrite length_app; lia).
  assert (E : VirtualXORROTWTable_evaluate_mle (length (hi ++ lo)) R (map b2z (weave (hi ++ lo))) =
              bval (map xor_bit (bt ++ tp))).
  { unfold VirtualXORROTWTable_evaluate_mle. rewrite Hn, Nat.div_mul by lia.
    replace (length lo * 2 - length lo)%nat with (length lo) by lia.
    rewrite <- (xorrot_sum hi lo tp bt Hcut R HR ltac:(lia) (fun i => down (length lo) ((i + R) mod length lo))).
    - cbv zeta. cbn [zero from_u64 ZOps]. apply loop_ext. intros i s _.
      by replace (i + length lo)%nat with (length hi + i)%nat by lia.
    - done. }
  rewrite E. pose proof (rotate_xor tp bt R) as Hrot. rewrite <- Hcut in Hrot.
  pose proof (xs_range lo) as Hxr. pose proof (ys_range lo) as Hyr.
  unfold VirtualXORROTWTable_materialize_entry. rewrite uninterleave_weave by lia.
  rewrite <- Hrot by lia. rewrite !map_app, !bval_app, !length_map. destruct Hl as [Hl|Hl]; rewrite Hn, Hl in *; cbn [Nat.mul Nat.add].
  - rewrite decide_True by done. change (Z.of_nat 8 / 2) with 4. change 0x0F with (Z.ones 4).
    change (Z.of_nat 4) with 4 in *. rewrite !Z.land_ones by lia.
    fold (wrapu 4 (as_u8 (xs_of hi * 2 ^ 4 + xs_of lo))).
    fold (wrapu 4 (as_u8 (ys_of hi * 2 ^ 4 + ys_of lo))).
    rewrite !(wrapu_narrow 4 8) by lia. rewrite !(Z.add_comm (_ * 2 ^ 4)), !wrapu_add_mul by lia.
    rewrite !(wrapu_small 4) by done. rewrite <- Z.land_ones by lia. f_equal.
    rewrite <- (rotate_right_narrow _ (Z.of_nat R)); [done|].
    rewrite xor_bval. pose proof (bval_range (map xor_bit lo)) as Hb.
    rewrite length_map, Hl in Hb. done.
  - rewrite decide_False, decide_True by lia. change (Z.of_nat 32) with 32 in *.
    rewrite !(Z.add_comm (_ * 2 ^ 32)), !wrapu_add_mul by lia.
    by rewrite !(wrapu_small 32) by done.
Qed.
