(* ===== verification/IndexMle.v ===== *)
(** * IndexMle: the tables indexed by one double-width value

    The tables whose index is a product or a sum (range checks, alignment,
    half words, powers of two, bitmasks, byte reversal): the index is a list
    of bits cut into its upper and lower words, or into its last few bits. *)
From S2P Require Import Prelude Bits Field LookupTables Mle TablesMle.

Abbreviation pt bs := (map b2z bs).

Lemma at_app_r hi lo i : at_ (pt (hi ++ lo)) (length hi + i) = at_ (pt lo) i.
Proof. unfold at_. rewrite map_app. rewrite app_nth2; rewrite length_map; [f_equal; lia|lia]. Qed.

Lemma at_app_l hi lo i : (i < length hi)%nat -> at_ (pt (hi ++ lo)) i = at_ (pt hi) i.
Proof. intros. unfold at_. rewrite map_app. apply app_nth1. by rewrite length_map. Qed.

Lemma at_lookup bs i b : bs !! i = Some b -> at_ (pt bs) i = b2z b.
Proof.
  intros H. unfold at_. apply nth_lookup_Some. change (map b2z bs) with (b2z <$> bs).
  by rewrite list_lookup_fmap, H.
Qed.

Lemma shiftr_app hi lo : Z.shiftr (bval (hi ++ lo)) (Z.of_nat (length lo)) = bval hi.
Proof.
  rewrite bval_app, Z.shiftr_div_pow2 by lia. pose proof (bval_range lo).
  rewrite Z.add_comm, Z.div_add, Z.div_small by lia. lia.
Qed.

Lemma mod_app hi lo : bval (hi ++ lo) mod 2 ^ Z.of_nat (length lo) = bval lo.
Proof.
  rewrite bval_app. pose proof (bval_range lo).
  by rewrite Z.add_comm, Z.mod_add, Z.mod_small by lia.
Qed.

(** Sums of weighted coordinates. *)
Lemma sum_bits bs (at' : nat -> Z) (wt : nat -> Z) m :
  (forall i b, bs !! i = Some b -> at' i = b2z b) ->
  (forall i, (i < length bs)%nat -> wt i = Z.of_nat (length bs - 1 - i) + m) -> 0 <= m ->
  loop (length bs) (fun i s => add s (mul (Z.shiftl 1 (wt i)) (at' i))) 0 = bval bs * 2 ^ m.
Proof.
  intros Hat Hwt Hm.
  rewrite (loop_rfold (fun k b s => s + 2 ^ (Z.of_nat k + m) * b2z b) bs).
  - enough (H : forall s, rfold (fun k b s => s + 2 ^ (Z.of_nat k + m) * b2z b) bs s = s + bval bs * 2 ^ m)
      by (rewrite H; lia).
    clear -Hm. induction bs as [|b t IH]; intros s; cbn [rfold bval]; [lia|].
    rewrite IH, Z.pow_add_r by lia. ring.
  - intros i b s Hi. pose proof (lookup_lt_Some _ _ _ Hi).
    rewrite (Hat _ _ Hi), Hwt, pow_shiftl by lia. done.
Qed.

Section Words.
Context (hi lo : list bool) (n : nat) (Hhi : length hi = n) (Hlo : length lo = n) (Hn : (0 < n <= 64)%nat).
Abbreviation bs := (hi ++ lo).

Lemma at_low i b : lo !! i = Some b -> at_ (pt bs) (n + i) = b2z b.
Proof. intros H. rewrite <- Hhi, at_app_r. by apply at_lookup. Qed.

Lemma at_high i b : hi !! i = Some b -> at_ (pt bs) i = b2z b.
Proof. intros H. pose proof (lookup_lt_Some _ _ _ H). rewrite at_app_l by lia. by apply at_lookup. Qed.

Lemma lo_range : 0 <= bval lo < 2 ^ Z.of_nat n.
Proof. rewrite <- Hlo. apply bval_range. Qed.

Lemma as_u64_lo : as_u64 (bval lo) = bval lo.
Proof.
  pose proof lo_range. pose proof (Z.pow_le_mono_r 2 (Z.of_nat n) 64).
  apply wrapu_small. unfold in_u. lia.
Qed.

Lemma low_sum : loop n (fun i s => add s (mul (Z.shiftl 1 (down n i)) (at_ (pt bs) (n + i)))) 0 = bval lo.
Proof.
  rewrite <- (Z.mul_1_r (bval lo)), <- (Z.pow_0_r 2). rewrite <- Hlo at 1.
  apply sum_bits; [apply at_low| |lia]. intros i Hi. unfold down. lia.
Qed.

Lemma Sub_mle : SubTable_evaluate_mle n (pt bs) = bval lo.
Proof. apply low_sum. Qed.
Lemma RangeCheck_mle : RangeCheckTable_evaluate_mle n (pt bs) = bval lo.
Proof. apply low_sum. Qed.

Lemma index_mod : bval bs mod Z.shiftl 1 (Z.of_nat n) = bval lo.
Proof. rewrite mod_shiftl_1 by lia. rewrite <- Hlo. apply mod_app. Qed.

Lemma Sub_entry : SubTable_materialize_entry n (bval bs) = bval lo.
Proof. unfold SubTable_materialize_entry. rewrite index_mod. apply as_u64_lo. Qed.

Lemma RangeCheck_entry : RangeCheckTable_materialize_entry n (bval bs) = bval lo.
Proof.
  unfold RangeCheckTable_materialize_entry. case_decide as Hc; [|rewrite index_mod; apply as_u64_lo].
  rewrite <- index_mod, Hc. by rewrite mod_shiftl_1 by lia.
Qed.

Lemma clear_low_bit v : in_u 64 v -> Z.land v (not_u64 1) = v / 2 * 2.
Proof.
  intros Hv. apply Z.bits_inj'. intros j Hj. change 2 with (2 ^ 1) at 1.
  rewrite <- Z.shiftr_div_pow2, <- (Z.shiftl_mul_pow2 _ 1), Z.land_spec, Z.shiftl_spec by lia.
  destruct (decide (j < 64)).
  - rewrite testbit_not_u64 by lia. destruct (decide (j = 0)) as [->|].
    + rewrite (Z.testbit_neg_r (Z.shiftr v 1)) by lia. change (Z.testbit 1 0) with true. by rewrite andb_false_r.
    + rewrite Z.shiftr_spec, (Z.bits_above_log2 1 j) by (change (Z.log2 1) with 0; lia).
      rewrite andb_true_r. f_equal. lia.
  - rewrite (testbit_out 64) by (done || lia). rewrite Z.shiftr_spec by lia.
    symmetry. apply (testbit_out 64); [done|lia].
Qed.

Lemma RangeCheckAligned_correct :
  RangeCheckAlignedTable_materialize_entry n (bval bs) = RangeCheckAlignedTable_evaluate_mle n (pt bs).
Proof.
  assert (E : RangeCheckAlignedTable_materialize_entry n (bval bs) = Z.land (bval lo) (not_u64 1)).
  { rewrite <- RangeCheck_entry. unfold RangeCheckAlignedTable_materialize_entry, RangeCheckTable_materialize_entry.
    by case_decide. }
  rewrite E. rewrite clear_low_bit by (rewrite <- as_u64_lo; apply wrapu_range; lia).
  destruct (exists_last (l := lo)) as (l & b & El); [by intros ->; cbn in Hlo; lia|].
  rewrite El, bval_app. cbn [bval length]. change (2 ^ Z.of_nat 1) with 2.
  replace ((bval l * 2 + (b2z b * 2 ^ Z.of_nat 0 + 0)) / 2) with (bval l).
  2:{ change (2 ^ Z.of_nat 0) with 1. destruct b; cbn [b2z]; Z.to_euclidean_division_equations; lia. }
  unfold RangeCheckAlignedTable_evaluate_mle. rewrite <- El.
  assert (Hl : length l = (n - 1)%nat) by (rewrite <- Hlo, El, length_app; cbn; lia).
  change 2 with (2 ^ 1) at 1. symmetry. rewrite <- Hl.
  apply (sum_bits l (fun i => at_ (pt bs) (n + i)) (down n) 1).
  - intros i c Hi. apply at_low. rewrite El. by apply lookup_app_l_Some.
  - intros i Hi. unfold down. lia.
  - lia.
Qed.

Lemma UpperWord_correct :
  UpperWordTable_materialize_entry n (bval bs) = UpperWordTable_evaluate_mle n (pt bs).
Proof.
  unfold UpperWordTable_materialize_entry. rewrite <- Hlo at 1. rewrite shiftr_app.
  pose proof (bval_range hi). pose proof (Z.pow_le_mono_r 2 (Z.of_nat n) 64).
  rewrite wrapu_small by (unfold in_u; rewrite Hhi in *; lia).
  rewrite <- (Z.mul_1_r (bval hi)), <- (Z.pow_0_r 2). symmetry.
  unfold UpperWordTable_evaluate_mle. rewrite <- Hhi.
  apply (sum_bits hi (at_ (pt bs))); [apply at_high| |lia]. intros i Hi. unfold down. lia.
Qed.

Lemma MulUNoOverflow_correct :
  MulUNoOverflowTable_materialize_entry n (bval bs) = MulUNoOverflowTable_evaluate_mle n (pt bs).
Proof.
  unfold MulUNoOverflowTable_materialize_entry, MulUNoOverflowTable_evaluate_mle.
  rewrite <- Hlo at 1. rewrite shiftr_app. rewrite <- Hhi.
  rewrite (loop_rfold (fun _ b s => s * b2z (negb b)) hi).
  - rewrite rfold_prod, (bval_zero id), map_id. cbn [one ZOps]. lia.
  - intros i b s Hi. rewrite (at_high _ _ Hi). by destruct b.
Qed.

Lemma Movsign_correct :
  MovsignTable_materialize_entry n (bval bs) = MovsignTable_evaluate_mle n (pt bs).
Proof.
  unfold MovsignTable_materialize_entry, MovsignTable_evaluate_mle.
  destruct hi as [|b t] eqn:E; [cbn in Hhi; lia|]. change (at_ (pt ((b :: t) ++ lo)) 0) with (b2z b).
  set (p := 2 * Z.of_nat n - 1). rewrite pow_shiftl by lia.
  assert (Hb : Z.testbit (bval ((b :: t) ++ lo)) p = b).
  { rewrite <- app_comm_cons, testbit_bval_cons by lia. rewrite decide_True; [done|].
    rewrite length_app. cbn [length] in Hhi. lia. }
  assert (Hl : Z.land (bval ((b :: t) ++ lo)) (2 ^ p) = b2z b * 2 ^ p).
  { apply Z.bits_inj'. intros j Hj. rewrite Z.land_spec, Z.pow2_bits_eqb by lia.
    destruct (Z.eqb_spec p j) as [<-|].
    - rewrite Hb, andb_true_r. destruct b; cbn [b2z]; [|by rewrite Z.testbit_0_l].
      rewrite Z.mul_1_l, Z.pow2_bits_true by lia. done.
    - rewrite andb_false_r. destruct b; cbn [b2z]; [|by rewrite Z.testbit_0_l].
      rewrite Z.mul_1_l, Z.pow2_bits_false by lia. done. }
  rewrite Hl. pose proof (pow2_pos p). destruct b; cbn [b2z].
  - rewrite Z.mul_1_l. destruct (Z.eqb_spec (2 ^ p) 0); [lia|]. cbn [negb mul from_u64 ZOps]. lia.
  - done.
Qed.
End Words.

(** ** Tables that read the lowest bits only *)
Section LowBits.
Context (l low : list bool).
Abbreviation bs := (l ++ low).

(** Coordinate [i] from the end is bit [i] of the index. *)
Lemma at_from_end i :
  (i < length low)%nat -> at_ (pt bs) (length (pt bs) - i - 1) = at_ (pt low) (length low - i - 1).
Proof.
  intros Hi. rewrite <- (at_app_r l low). f_equal. rewrite length_map, length_app. lia.
Qed.

Lemma drop_low : drop (length (pt bs) - length low) (pt bs) = pt low.
Proof.
  rewrite map_app, drop_app_length'; [done|]. rewrite length_app, !length_map. lia.
Qed.

(** The product of [Pow2] and [Pow2W], over the last bits. *)
Lemma pow2_product :
  loop (length low) (fun i s => mul s (add one (mul (Z.shiftl 1 (Z.shiftl 1 (Z.of_nat i)) - 1)
      (at_ (pt bs) (length (pt bs) - i - 1))))) 1 =
  loop (length low) (fun i s => mul s (add one (mul (Z.shiftl 1 (Z.shiftl 1 (Z.of_nat i)) - 1)
      (at_ (pt low) (length low - i - 1))))) 1.
Proof. apply loop_ext. intros i s Hi. by rewrite at_from_end. Qed.
End LowBits.

(** A list of known length is the list of its bits. *)
Ltac explode l H :=
  repeat (destruct l as [|[] l]; cbn [length] in H; try lia).

Lemma HalfwordAlignment_correct l low :
  length low = 1%nat ->
  HalfwordAlignmentTable_materialize_entry (bval (l ++ low)) = HalfwordAlignmentTable_evaluate_mle (pt (l ++ low)).
Proof.
  intros H. unfold HalfwordAlignmentTable_materialize_entry, HalfwordAlignmentTable_evaluate_mle.
  change 2 with (2 ^ Z.of_nat 1). rewrite <- H, mod_app.
  replace (length (pt (l ++ low)) - length low)%nat with (length (pt (l ++ low)) - 0 - 1)%nat by lia.
  rewrite at_from_end by lia. destruct low as [|[] [|? ?]]; try done.
Qed.

Lemma WordAlignment_correct l low :
  length low = 2%nat ->
  WordAlignmentTable_materialize_entry (bval (l ++ low)) = WordAlignmentTable_evaluate_mle (pt (l ++ low)).
Proof.
  intros H. unfold WordAlignmentTable_materialize_entry, WordAlignmentTable_evaluate_mle.
  change 4 with (2 ^ Z.of_nat 2). rewrite <- H, mod_app.
  replace (length (pt (l ++ low)) - 1)%nat with (length (pt (l ++ low)) - 0 - 1)%nat by lia.
  replace (length (pt (l ++ low)) - length low)%nat with (length (pt (l ++ low)) - 1 - 1)%nat by lia.
  cbv zeta. rewrite !at_from_end by lia. destruct low as [|[] [|[] [|? ?]]]; done.
Qed.

Lemma Pow2_correct l low n :
  (n = 8 /\ length low = 3 \/ n = 32 /\ length low = 5 \/ n = 64 /\ length low = 6)%nat ->
  Pow2Table_materialize_entry n (bval (l ++ low)) = Pow2Table_evaluate_mle n (pt (l ++ low)).
Proof.
  intros H. unfold Pow2Table_materialize_entry, Pow2Table_evaluate_mle.
  assert (Z.of_nat n = 2 ^ Z.of_nat (length low) /\ Nat.log2_up n = length low) as [-> ->]
    by (destruct H as [[-> ->]|[[-> ->]|[-> ->]]]; done).
  cbn [one from_u64 ZOps]. rewrite mod_app, pow2_product.
  destruct H as [[_ H]|[[_ H]|[_ H]]]; clear n; explode low H; vm_compute; reflexivity.
Qed.

Lemma Pow2W_correct l low :
  length low = 5%nat -> Pow2WTable_materialize_entry (bval (l ++ low)) = Pow2WTable_evaluate_mle (pt (l ++ low)).
Proof.
  intros H. unfold Pow2WTable_materialize_entry, Pow2WTable_evaluate_mle.
  change 32 with (2 ^ Z.of_nat 5). rewrite <- H. cbn [one from_u64 ZOps].
  rewrite mod_app, pow2_product. explode low H; vm_compute; reflexivity.
Qed.

Lemma ShiftRightBitmask_correct l low n :
  (n = 8 /\ length low = 3 \/ n = 32 /\ length low = 5 \/ n = 64 /\ length low = 6)%nat ->
  ShiftRightBitmaskTable_materialize_entry n (bval (l ++ low)) = ShiftRightBitmaskTable_evaluate_mle n (pt (l ++ low)).
Proof.
  intros H. unfold ShiftRightBitmaskTable_materialize_entry, ShiftRightBitmaskTable_evaluate_mle.
  assert (Z.of_nat n = 2 ^ Z.of_nat (length low) /\ Nat.log2_up n = length low) as [Hn ->]
    by (destruct H as [[-> ->]|[[-> ->]|[-> ->]]]; done).
  rewrite drop_low. rewrite Hn, mod_app, <- Hn.
  destruct H as [[-> H]|[[-> H]|[-> H]]]; explode low H; vm_compute; reflexivity.
Qed.

(** ** Half words: the lower word [lo = up ++ down] *)
Section HalfWords.
Context (hi up lw : list bool) (h : nat).
Context (Hhi : length hi = (2 * h)%nat) (Hup : length up = h) (Hlw : length lw = h) (Hh : (0 < h <= 32)%nat).
Abbreviation bs := (hi ++ up ++ lw).

Lemma at_half i b : lw !! i = Some b -> at_ (pt bs) (2 * h + h + i) = b2z b.
Proof.
  intros H. rewrite <- Hhi. rewrite <- Nat.add_assoc, at_app_r, <- Hup, at_app_r. by apply at_lookup.
Qed.

Lemma half_sum :
  loop h (fun i s => add s (mul (Z.shiftl 1 (down h i)) (at_ (pt bs) (2 * h + h + i)))) 0 = bval lw.
Proof.
  rewrite <- (Z.mul_1_r (bval lw)), <- (Z.pow_0_r 2). rewrite <- Hlw at 1.
  apply (sum_bits lw (fun i => at_ (pt bs) (2 * h + h + i))); [apply at_half| |lia].
  intros i Hi. unfold down. lia.
Qed.

Lemma half_div : ((2 * h) / 2)%nat = h /\ Z.of_nat (2 * h) / 2 = Z.of_nat h.
Proof.
  split; [rewrite Nat.mul_comm; by apply Nat.div_mul|].
  replace (Z.of_nat (2 * h)) with (Z.of_nat h * 2) by lia. by apply Z.div_mul.
Qed.

Lemma lw_index : as_u64 (bval bs mod Z.shiftl 1 (Z.of_nat h)) = bval lw.
Proof.
  rewrite mod_shiftl_1 by lia. rewrite app_assoc, <- Hlw, mod_app. pose proof (bval_range lw).
  pose proof (Z.pow_le_mono_r 2 (Z.of_nat h) 32).
  apply wrapu_small. unfold in_u. rewrite Hlw in *. lia.
Qed.

Lemma LowerHalfWord_correct :
  LowerHalfWordTable_materialize_entry (2 * h) (bval bs) = LowerHalfWordTable_evaluate_mle (2 * h) (pt bs).
Proof.
  unfold LowerHalfWordTable_materialize_entry, LowerHalfWordTable_evaluate_mle.
  destruct half_div as [-> ->]. rewrite lw_index. symmetry. apply half_sum.
Qed.

Lemma SignExtendHalfWord_correct :
  SignExtendHalfWordTable_materialize_entry (2 * h) (bval bs) =
  SignExtendHalfWordTable_evaluate_mle (2 * h) (pt bs).
Proof.
  unfold SignExtendHalfWordTable_materialize_entry, SignExtendHalfWordTable_evaluate_mle.
  destruct half_div as [-> ->]. rewrite lw_index. cbn [from_u64 zero ZOps].
  pose proof half_sum as Hsum. pose proof (at_half 0) as Hs. rewrite Nat.add_0_r in Hs.
  destruct lw as [|b t]; [cbn in Hlw; lia|]. rewrite (Hs b) by done.
  cbn [length] in Hlw.
  replace (Z.land (Z.shiftr (bval (b :: t)) (Z.of_nat h - 1)) 1) with (b2z b).
  2:{ change 1 with (Z.ones 1) at 2. rewrite Z.land_ones, Z.shiftr_div_pow2 by lia.
      rewrite <- Z.testbit_spec' by lia. rewrite testbit_bval_cons, decide_True by lia.
      by rewrite b2z_b2Z. }
  assert (Hsg : forall c : Z, loop h (fun i s => add s (mul (Z.shiftl 1 (down h i)) c)) 0 = c * (2 ^ Z.of_nat h - 1)).
  { intros c. rewrite <- Hlw. change (S (length t)) with (length (b :: t)).
    rewrite (loop_rfold (fun k (_ : bool) s => s + 2 ^ Z.of_nat k * c) (b :: t)).
    - enough (H : forall (l : list bool) s, rfold (fun k (_ : bool) s => s + 2 ^ Z.of_nat k * c) l s = s + c * (2 ^ Z.of_nat (length l) - 1))
        by (rewrite H; lia).
      clear. induction l as [|a l IH]; intros s; cbn [rfold length]; [cbn; lia|].
      rewrite IH, Nat2Z.inj_succ, Z.pow_succ_r by lia. ring.
    - intros i a s Hi. rewrite (down_lookup _ _ _ Hi), pow_shiftl by lia. done. }
  rewrite Hsg, Hsum. rewrite pow_shiftl by lia. cbn [add mul ZOps].
  destruct b; cbn [b2z Z.eqb Pos.eqb]; [|lia].
  pose proof (bval_range (true :: t)) as Hr. cbn [length] in Hr. rewrite Hlw in Hr.
  pose proof (Z.pow_le_mono_r 2 (Z.of_nat h) 32 ltac:(lia) ltac:(lia)).
  rewrite (wrapu_small 64 (2 ^ Z.of_nat h)) by (unfold in_u; lia).
  rewrite Z.shiftl_mul_pow2 by lia.
  rewrite (wrapu_small 64 ((2 ^ Z.of_nat h - 1) * 2 ^ Z.of_nat h)) by (unfold in_u; nia).
  rewrite Z.lor_comm. rewrite <- Z.shiftl_mul_pow2 by lia.
  replace (Z.lor (Z.shiftl (2 ^ Z.of_nat h - 1) (Z.of_nat h)) (bval (true :: t))) with
    ((2 ^ Z.of_nat h - 1) * 2 ^ Z.of_nat h + bval (true :: t)); [ring|].
  apply Z.bits_inj'. intros j Hj. rewrite testbit_low_high, Z.lor_spec, Z.shiftl_spec by lia.
  case_decide.
  - by rewrite (Z.testbit_neg_r _ (j - Z.of_nat h)) by lia.
  - rewrite (testbit_bval_out (true :: t)) by (cbn [length]; lia). by rewrite orb_false_r.
Qed.
End HalfWords.

(** ** Byte reversal *)

(** The sum of one byte's coordinates, least significant first. *)
Lemma byte_sum (l : list bool) s m :
  fold_left Z.add (imap (fun i b => b * Z.shiftl 1 (Z.of_nat (i + m))) (map b2z l)) s =
  s + bval (rev l) * 2 ^ Z.of_nat m.
Proof.
  revert s m. induction l as [|b t IH]; intros s m; [cbn; lia|].
  cbn [map imap fold_left rev]. rewrite bval_app. cbn [length bval].
  rewrite (imap_ext _ (fun i b => b * Z.shiftl 1 (Z.of_nat (i + S m)))).
  - rewrite IH, pow_shiftl by lia. rewrite Nat.add_0_l, Nat2Z.inj_succ, Z.pow_succ_r by lia.
    change (2 ^ Z.of_nat 0) with 1. change (2 ^ Z.of_nat 1) with 2. ring.
  - intros i x _. unfold compose. do 3 f_equal. lia.
Qed.

Lemma bval_firstn_rev m bs :
  bval (rev (take m (rev bs))) = bval bs mod 2 ^ Z.of_nat m /\
  bval (rev (drop m (rev bs))) = bval bs / 2 ^ Z.of_nat m.
Proof.
  pose proof (take_drop m (rev bs)) as E. apply (f_equal (@rev bool)) in E.
  rewrite rev_involutive, rev_app_distr in E.
  set (a := rev (drop m (rev bs))) in *. set (b := rev (take m (rev bs))) in *.
  assert (Hb : length b = Nat.min m (length bs)) by (unfold b; by rewrite length_rev, length_take, length_rev).
  assert (Ha : length a = (length bs - m)%nat) by (unfold a; by rewrite length_rev, length_drop, length_rev).
  destruct (decide (m <= length bs)%nat).
  - replace m with (length b) by lia. rewrite <- E, mod_app.
    rewrite <- Z.shiftr_div_pow2, shiftr_app by lia. done.
  - destruct a; [|cbn in Ha; lia]. cbn [app] in E. rewrite E. pose proof (bval_range bs).
    pose proof (Z.pow_le_mono_r 2 (Z.of_nat (length bs)) (Z.of_nat m)).
    rewrite Z.mod_small, Z.div_small by lia. done.
Qed.

#[local] Ltac norm_of_nat :=
  repeat match goal with
  | |- context [Z.of_nat ?k] =>
      let z := eval vm_compute in (Z.of_nat k) in change (Z.of_nat k) with z
  end.

Definition byte (v : Z) (k : Z) : Z := v / 2 ^ (8 * k) mod 2 ^ 8.

Lemma rev8w_byte_value bs k : rev8w_byte (pt bs) k = byte (bval bs) (Z.of_nat k).
Proof.
  unfold rev8w_byte. rewrite <- map_rev, skipn_map, firstn_map.
  pose proof (byte_sum (take 8 (drop (8 * k) (rev bs))) 0 0) as E.
  rewrite Z.mul_1_r in E. change (Z.of_nat 0) with 0 in E.
  cbn [add mul zero from_u64 ZOps].
  rewrite (imap_ext _ (fun i b => b * Z.shiftl 1 (Z.of_nat (i + 0))))
    by (intros; by rewrite Nat.add_0_r).
  rewrite E. rewrite <- (rev_involutive (drop _ _)) at 1.
  rewrite (proj1 (bval_firstn_rev 8 (rev (drop (8 * k) (rev bs))))).
  rewrite (proj2 (bval_firstn_rev (8 * k) bs)). unfold byte.
  replace (Z.of_nat (8 * k)) with (8 * Z.of_nat k) by lia. lia.
Qed.

Lemma land_ff v : Z.land v 0xff = v mod 2 ^ 8.
Proof. change 0xff with (Z.ones 8). by apply Z.land_ones. Qed.

Lemma lor_low k b a : 0 <= k -> 0 <= a < 2 ^ k -> Z.lor (Z.shiftl b k) a = b * 2 ^ k + a.
Proof.
  intros Hk Ha. apply Z.bits_inj'. intros j Hj.
  rewrite testbit_low_high, Z.lor_spec, Z.shiftl_spec by lia. case_decide.
  - by rewrite (Z.testbit_neg_r _ (j - k)) by lia.
  - rewrite (testbit_out k a) by (done || lia). by rewrite orb_false_r.
Qed.

Lemma swap_bytes32_value v :
  swap_bytes32 v = byte v 0 * 2 ^ 24 + byte v 1 * 2 ^ 16 + byte v 2 * 2 ^ 8 + byte v 3.
Proof.
  unfold swap_bytes32. rewrite !land_ff, !Z.shiftr_div_pow2 by lia. unfold byte.
  change (8 * 0) with 0. change (8 * 1) with 8. change (8 * 2) with 16. change (8 * 3) with 24.
  rewrite Z.pow_0_r, Z.div_1_r.
  set (a := v mod 2 ^ 8). set (b := v / 2 ^ 8 mod 2 ^ 8).
  set (c := v / 2 ^ 16 mod 2 ^ 8). set (d := v / 2 ^ 24 mod 2 ^ 8).
  assert (0 <= a < 2 ^ 8 /\ 0 <= b < 2 ^ 8 /\ 0 <= c < 2 ^ 8 /\ 0 <= d < 2 ^ 8) as (? & ? & ? & ?)
    by (repeat split; apply Z.mod_pos_bound; lia).
  rewrite (lor_low 8 c d) by lia. rewrite <- Z.lor_assoc.
  rewrite (lor_low 16 b (c * 2 ^ 8 + d)) by lia.
  rewrite (lor_low 24 a) by lia. ring.
Qed.

Lemma byte_wrap v w k : 0 <= k -> 8 * k + 8 <= w -> byte (wrapu w v) k = byte v k.
Proof.
  intros Hk Hw. unfold byte, wrapu. apply Z.bits_inj'. intros j Hj.
  rewrite !Z.testbit_mod_pow2 by lia. destruct (Z.ltb_spec j 8); [|done]. cbn [andb].
  rewrite <- !Z.shiftr_div_pow2, !Z.shiftr_spec by lia. rewrite Z.mod_pow2_bits_low by lia. done.
Qed.

Lemma byte_shift v k : 0 <= k -> byte (Z.shiftr v 32) k = byte v (4 + k).
Proof.
  intros Hk. unfold byte. rewrite Z.shiftr_div_pow2, Z.div_div by (try apply pow2_pos; lia).
  rewrite <- Z.pow_add_r by lia. do 3 f_equal. lia.
Qed.

Lemma Rev8W_correct bs :
  VirtualRev8WTable_materialize_entry (bval bs) = VirtualRev8WTable_evaluate_mle (pt bs).
Proof.
  unfold VirtualRev8WTable_materialize_entry, VirtualRev8WTable_evaluate_mle, rev8w.
  cbv zeta. cbn -[rev8w_byte Z.mul Z.of_nat as_u64 as_u32 swap_bytes32 wrapu].
  rewrite !rev8w_byte_value, !swap_bytes32_value.
  rewrite !byte_wrap by lia. rewrite !byte_shift, !byte_wrap by lia. rewrite !Z.shiftl_mul_pow2 by lia.
  change (4 + 0) with 4. change (4 + 1) with 5. change (4 + 2) with 6. change (4 + 3) with 7.
  assert (Hb : forall k, 0 <= byte (bval bs) k < 2 ^ 8) by (intros k; apply Z.mod_pos_bound; lia).
  pose proof (Hb 0). pose proof (Hb 1). pose proof (Hb 2). pose proof (Hb 3).
  pose proof (Hb 4). pose proof (Hb 5). pose proof (Hb 6). pose proof (Hb 7).
  rewrite (wrapu_small 64 ((_ + _) * _)) by (unfold in_u; lia).
  rewrite wrapu_small by (unfold in_u; lia).
  norm_of_nat. lia.
Qed.
