(* ===== verification/TablesCorrect.v ===== *)
(** * TablesCorrect: the extension of every lookup table

    Collects the tables of [TablesMle], [ShiftsMle] and [IndexMle] into the
    statement the prover and the verifier rely on: over any field of the
    interface, [evaluate_mle] at the bits of an index is the entry the table
    materializes there. *)
From S2P Require Import Prelude Bits Field LookupTables Mle TablesMle ShiftsMle IndexMle.

(** The word sizes the source instantiates. *)
Definition word_size (n : nat) : Prop := (n = 8 \/ n = 32 \/ n = 64)%nat.

Lemma supported_word n (e : Z) : word_size n -> supported n e = Some e.
Proof. intros. unfold supported. by rewrite decide_True by done. Qed.

(** An index as pairs, as two words, and as low bits. *)
Lemma index_pairs n i :
  0 <= i < 2 ^ Z.of_nat (2 * n) ->
  exists ps, length ps = n /\ bits_of (2 * n) i = weave ps /\ i = bval (weave ps).
Proof.
  intros Hi. destruct (weave_surj (bits_of (2 * n) i) n) as (ps & E & Hl); [apply length_bits_of|].
  exists ps. split; [done|]. split; [done|]. by rewrite E, bval_bits_of, Z.mod_small by done.
Qed.

Lemma cut_list {A} m (l : list A) :
  (m <= length l)%nat -> exists a b, l = a ++ b /\ length a = (length l - m)%nat /\ length b = m.
Proof.
  intros Hm. exists (take (length l - m) l), (drop (length l - m) l).
  rewrite take_drop, length_take, length_drop. repeat split; lia.
Qed.

(** The two operands of the overflowing division, as unsigned words. *)
Lemma wraps_min_eqb w v : 0 < w -> in_u w v -> (wraps w v =? - 2 ^ (w - 1)) = (v =? 2 ^ (w - 1)).
Proof.
  intros Hw Hv. apply eq_bool_prop_intro. rewrite !Is_true_true, !Z.eqb_eq.
  rewrite <- (wrapu_small w v) at 2 by done. rewrite wrapu_to_wraps by lia.
  pose proof (wraps_range w Hw v) as Hr. unfold in_s in Hr. pose proof (pow2_half w Hw).
  case_decide; lia.
Qed.

Lemma wraps_neg1_eqb w v : 0 < w -> in_u w v -> (wraps w v =? -1) = (v =? 2 ^ w - 1).
Proof.
  intros Hw Hv. apply eq_bool_prop_intro. rewrite !Is_true_true, !Z.eqb_eq.
  rewrite <- (wrapu_small w v) at 2 by done. rewrite wrapu_to_wraps by lia.
  pose proof (wraps_range w Hw v) as Hr. unfold in_s in Hr. pose proof (pow2_half w Hw).
  case_decide; lia.
Qed.

(** The sign-extended low nibble the eight-bit instance computes. *)
Lemma nibble v : Z.shiftr (as_i8 (Z.shiftl (Z.land v 0xF) 4)) 4 = wraps 4 v.
Proof.
  change 0xF with (Z.ones 4). rewrite Z.land_ones, Z.shiftl_mul_pow2, Z.shiftr_div_pow2 by lia.
  rewrite <- (wraps_wrapu 4) by lia. unfold wrapu. pose proof (Z.mod_pos_bound v (2 ^ 4)).
  unfold wraps. Z.to_euclidean_division_equations. lia.
Qed.

(** ** Over the integers *)
Section Integers.
Context (n : nat) (ps : list (bool * bool)) (Hn : word_size n) (Hl : length ps = n).
Abbreviation r := (map b2z (weave ps)).
Abbreviation i := (bval (weave ps)).

Lemma n_bounds : (0 < n <= 64)%nat.
Proof. unfold word_size in Hn. lia. Qed.

Lemma uninterleave_ps : uninterleave_bits i = (xs_of ps, ys_of ps).
Proof. apply uninterleave_weave. pose proof n_bounds. lia. Qed.

Lemma ps_range : 0 <= xs_of ps < 2 ^ Z.of_nat n /\ 0 <= ys_of ps < 2 ^ Z.of_nat n.
Proof. rewrite <- Hl. split; [apply xs_range|apply ys_range]. Qed.

Lemma ps_nonempty : (0 < length ps)%nat.
Proof. pose proof n_bounds. lia. Qed.

(** Reads the operands of an interleaved table off its index. *)
Ltac operands def mle :=
  unfold def; rewrite uninterleave_ps, ?(supported_word n) by done; rewrite <- ?Hl;
  intros [= <-]; apply mle; pose proof n_bounds; lia.

(** [weave ps] cut into two words, with [k] low bits, and into half words. *)
Lemma index_words :
  exists hi lo, weave ps = hi ++ lo /\ length hi = n /\ length lo = n.
Proof.
  destruct (cut_list n (weave ps)) as (hi & lo & E & Hh & Hlo); rewrite length_weave in *; [lia|].
  exists hi, lo. split; [done|]. lia.
Qed.

Lemma index_low k : (k <= 6)%nat -> exists l low, weave ps = l ++ low /\ length low = k.
Proof.
  intros Hk. destruct (cut_list k (weave ps)) as (l & low & E & _ & Hlow); [|eauto].
  rewrite length_weave. unfold word_size in Hn. lia.
Qed.

Lemma index_halves :
  exists hi up lw h, weave ps = hi ++ up ++ lw /\ n = (2 * h)%nat /\
    length hi = (2 * h)%nat /\ length up = h /\ length lw = h /\ (0 < h <= 32)%nat.
Proof.
  destruct index_words as (hi & lo & E & Hh & Hlo).
  assert (exists h, n = (2 * h)%nat /\ (0 < h <= 32)%nat) as (h & Hnh & Hb).
  { destruct Hn as [Hc|[Hc|Hc]]; [exists 4%nat|exists 16%nat|exists 32%nat]; lia. }
  destruct (cut_list h lo) as (up & lw & -> & Hu & Hw); [lia|].
  exists hi, up, lw, h. repeat split; try done; lia.
Qed.

Lemma ps_halves :
  exists hi lo, ps = hi ++ lo /\ length hi = length lo /\
    (length lo = 4 \/ length lo = 16 \/ length lo = 32)%nat.
Proof.
  destruct (cut_list (n / 2) ps) as (hi & lo & -> & Hh & Hlo).
  - rewrite Hl. apply Nat.Div0.div_le_upper_bound. lia.
  - exists hi, lo. split; [done|]. rewrite Hl in Hh.
    destruct Hn as [Hc|[Hc|Hc]]; rewrite Hc in *; cbn in *; lia.
Qed.

Lemma ps_cons : exists a b t, ps = (a, b) :: t.
Proof. pose proof n_bounds. destruct ps as [|[a b] t]; [cbn in Hl; lia|]. by exists a, b, t. Qed.

Ltac words lem :=
  let hi := fresh "hi" in let lo := fresh "lo" in
  destruct index_words as (hi & lo & -> & ? & ?); pose proof n_bounds;
  intros [= <-]; rewrite ?(lem hi lo n) by done; try done.
Ltac low k lem :=
  let l := fresh "l" in let lo := fresh "lo" in
  destruct (index_low k) as (l & lo & -> & Hlow); [lia|]; rewrite <- ?Hlow in *; intros [= <-]; symmetry; by apply lem.

Lemma low_bits_size : exists k, (k <= 6 /\ (n = 8 /\ k = 3 \/ n = 32 /\ k = 5 \/ n = 64 /\ k = 6))%nat.
Proof. destruct Hn as [->|[->| ->]]; eexists; (split; [|eauto]); lia. Qed.

Lemma ChangeDivisor_ok e :
  materialize_entry n VirtualChangeDivisor i = Some e -> evaluate_mle n VirtualChangeDivisor r = e.
Proof.
  cbn [materialize_entry evaluate_mle]. unfold VirtualChangeDivisorTable_materialize_entry.
  rewrite uninterleave_ps, supported_word by done. pose proof n_bounds.
  pose proof (ChangeDivisor_mle ps) as Hm. rewrite Hl in Hm. rewrite Hm by lia. intros [= <-].
  pose proof ps_range as [Hx Hy]. set (w := Z.of_nat n) in *.
  assert (0 < w) by lia. pose proof (pow2_half w). pose proof (pow2_pos (w - 1)).
  pose proof (Z.pow_le_mono_r 2 w 64).
  rewrite wrapu_wraps by lia. rewrite (wrapu_small w) by done.
  rewrite (wrapu_small 64) by (unfold in_u; lia).
  by rewrite wraps_min_eqb, wraps_neg1_eqb by done.
Qed.

Lemma ChangeDivisorW_ok e :
  materialize_entry n VirtualChangeDivisorW i = Some e -> evaluate_mle n VirtualChangeDivisorW r = e.
Proof.
  cbn [materialize_entry evaluate_mle]. unfold VirtualChangeDivisorWTable_materialize_entry.
  rewrite uninterleave_ps. destruct ps_halves as (hi & lo & E & Hh & Hlo).
  pose proof (ChangeDivisorW_mle hi lo ltac:(lia) Hh) as Hm. rewrite <- E, Hl in Hm. rewrite Hm.
  clear Hm. assert (Hn' : (n = length lo + length lo)%nat) by (rewrite <- Hl, E, length_app; lia).
  pose proof (xs_range lo) as Hx. pose proof (ys_range lo) as Hy.
  assert (Ex : wraps (Z.of_nat (length lo)) (xs_of ps) = wraps (Z.of_nat (length lo)) (xs_of lo)).
  { rewrite E, map_app, bval_app, length_map, Z.add_comm. apply wraps_add_mul. lia. }
  assert (Ey : wraps (Z.of_nat (length lo)) (ys_of ps) = wraps (Z.of_nat (length lo)) (ys_of lo)).
  { rewrite E, map_app, bval_app, length_map, Z.add_comm. apply wraps_add_mul. lia. }
  rewrite <- wraps_min_eqb, <- wraps_neg1_eqb by (done || lia).
  destruct Hlo as [Hlo|[Hlo|Hlo]]; rewrite Hlo in *.
  - rewrite decide_True by lia. rewrite !nibble. change (Z.of_nat 4) with 4 in *. rewrite Ex, Ey.
    by intros [= <-].
  - rewrite !decide_False by lia. done.
  - rewrite decide_False, decide_True by lia. change (Z.of_nat 32) with 32 in *.
    rewrite !wraps_wrapu by lia. rewrite Ex, Ey. by intros [= <-].
Qed.

Lemma XORROT_ok R e :
  VirtualXORROTTable_materialize_entry n (Z.of_nat R) i = Some e ->
  VirtualXORROTTable_evaluate_mle n R r = e.
Proof.
  destruct (decide (n = 32)%nat).
  - unfold VirtualXORROTTable_materialize_entry. rewrite !decide_False by lia. done.
  - rewrite <- Hl. rewrite VirtualXORROT_correct; [by intros [= <-]|]. unfold word_size in Hn. lia.
Qed.

Lemma XORROTW_ok R e :
  VirtualXORROTWTable_materialize_entry n (Z.of_nat R) i = Some e ->
  VirtualXORROTWTable_evaluate_mle n R r = e.
Proof.
  destruct ps_halves as (hi & lo & E & Hh & Hlo).
  assert (Hn' : (n = length lo + length lo)%nat) by (rewrite <- Hl, E, length_app; lia).
  destruct (decide (length lo = 16)%nat).
  - unfold VirtualXORROTWTable_materialize_entry. rewrite !decide_False by lia. done.
  - rewrite <- Hl, E. rewrite VirtualXORROTW_correct by (done || lia). by intros [= <-].
Qed.

(** The table's entry is its extension over the integers. *)
Lemma evaluate_mle_integers t e : materialize_entry n t i = Some e -> evaluate_mle n t r = e.
Proof.
  destruct t.
  all: try (apply (XORROT_ok 32) || apply (XORROT_ok 24) || apply (XORROT_ok 16) ||
            apply (XORROT_ok 63) || apply (XORROTW_ok 16) || apply (XORROTW_ok 12) ||
            apply (XORROTW_ok 8) || apply (XORROTW_ok 7)).
  all: try (apply ChangeDivisor_ok || apply ChangeDivisorW_ok).
  all: cbn [materialize_entry evaluate_mle].
  - destruct index_words as (hi & lo & -> & ? & ?). pose proof n_bounds.
    intros [= <-]. rewrite (RangeCheck_mle hi lo n), (RangeCheck_entry hi lo n); done.
  - words RangeCheckAligned_correct.
  - operands AndTable_materialize_entry And_mle.
  - operands AndnTable_materialize_entry Andn_mle.
  - operands OrTable_materialize_entry Or_mle.
  - operands XorTable_materialize_entry Xor_mle.
  - operands EqualTable_materialize_entry Equal_mle.
  - operands SignedGreaterThanEqualTable_materialize_entry SignedGreaterThanEqual_mle.
  - operands UnsignedGreaterThanEqualTable_materialize_entry UnsignedGreaterThanEqual_mle.
  - operands NotEqualTable_materialize_entry NotEqual_mle.
  - operands SignedLessThanTable_materialize_entry SignedLessThan_mle.
  - operands UnsignedLessThanTable_materialize_entry UnsignedLessThan_mle.
  - words Movsign_correct.
  - words UpperWord_correct.
  - operands UnsignedLessThanEqualTable_materialize_entry UnsignedLessThanEqual_mle.
  - operands ValidUnsignedRemainderTable_materialize_entry ValidUnsignedRemainder_mle.
  - unfold ValidDiv0Table_materialize_entry. rewrite uninterleave_ps, supported_word by done.
    rewrite <- Hl, ValidDiv0_mle by (pose proof n_bounds; lia). destruct (xs_of ps =? 0); by intros [= <-].
  - low 1%nat HalfwordAlignment_correct.
  - low 2%nat WordAlignment_correct.
  - destruct index_halves as (hi & up & lw & h & -> & -> & ? & ? & ? & ?).
    intros He. rewrite <- LowerHalfWord_correct by done. by injection He.
  - destruct index_halves as (hi & up & lw & h & -> & -> & ? & ? & ? & ?).
    intros He. rewrite <- SignExtendHalfWord_correct by done. by injection He.
  - destruct low_bits_size as (k & ? & ?). low k Pow2_correct.
  - low 5%nat Pow2W_correct.
  - destruct low_bits_size as (k & ? & ?). low k ShiftRightBitmask_correct.
  - intros [= <-]. symmetry. apply Rev8W_correct.
  - intros [= <-]. pose proof n_bounds. rewrite <- Hl. rewrite VirtualSRL_mle, VirtualSRL_entry; [done|lia].
  - intros [= <-]. pose proof n_bounds. destruct ps_cons as (a & b & t & E).
    assert (n = S (length t)) by (rewrite <- Hl, E; done).
    rewrite E, VirtualSRA_mle, VirtualSRA_entry by lia. done.
  - intros [= <-]. pose proof n_bounds. rewrite <- Hl. rewrite VirtualROTR_mle, VirtualROTR_entry; [done|lia].
  - intros [= <-]. destruct ps_halves as (hi & lo & E & Hh & Hlo). rewrite <- Hl, E.
    rewrite VirtualROTRW_mle, VirtualROTRW_entry; [done|done|lia|done].
  - words MulUNoOverflow_correct.
Qed.
End Integers.

(** ** Over a field *)

(** C30: for every lookup table the instruction set uses, every word size the
    source instantiates and every index of the table, if the table
    materializes an entry then its multilinear extension, evaluated over any
    field at the bits of the index, is that entry. *)
Theorem evaluate_mle_interpolates {F} `{JoltField F} n t i e :
  word_size n -> 0 <= i < 2 ^ Z.of_nat (2 * n) -> materialize_entry n t i = Some e ->
  evaluate_mle n t (index_to_field_bitvector i (2 * n)) = from_u64 e.
Proof.
  intros Hn Hi He. destruct (index_pairs n i Hi) as (ps & Hl & Hb & ->).
  rewrite index_to_field_bitvector_bits, Hb, evaluate_mle_reduce.
  by rewrite (evaluate_mle_integers n ps Hn Hl t e He).
Qed.

Lemma evaluate_mle_interpolates_witness :
  evaluate_mle 32 VirtualSRA (index_to_field_bitvector (interleave_bits 0x80000000 0xfffffff0) (2 * 32))
  = from_u64 (F := Fr) 0xf8000000.
Proof.
  apply (evaluate_mle_interpolates (F := Fr)).
  - right. by left.
  - vm_compute. by split.
  - vm_compute. reflexivity.
Defined.
