(* ===== verification/LinearCombination.v ===== *)
(** * LinearCombination: the linear combinations of the R1CS

    Models [Term] and [LC] of [jolt-core/src/zkvm/r1cs/ops.rs]: the enum with
    its twelve shapes, its checked arithmetic, its evaluation against a vector
    and the accumulation of its coefficients.  The pair of a five-element array
    and a length the code passes around is a list; coefficients are [i128] and
    wrap.  A vector is indexed with [at_], as in [Mle]. *)
From S2P Require Import Prelude Bits Field LookupTables Mle.
From Stdlib Require Import Ring Permutation.

Record Term := { input_index : nat; coeff : Z }.
Definition Term_new (input_index : nat) (coeff : Z) : Term :=
  {| input_index := input_index; coeff := coeff |}.

Inductive LC :=
| Zero
| Const (k : Z)
| Terms1 (t1 : Term)
| Terms2 (t1 t2 : Term)
| Terms3 (t1 t2 t3 : Term)
| Terms4 (t1 t2 t3 t4 : Term)
| Terms5 (t1 t2 t3 t4 t5 : Term)
| Terms1Const (t1 : Term) (k : Z)
| Terms2Const (t1 t2 : Term) (k : Z)
| Terms3Const (t1 t2 t3 : Term) (k : Z)
| Terms4Const (t1 t2 t3 t4 : Term) (k : Z)
| Terms5Const (t1 t2 t3 t4 t5 : Term) (k : Z).

Definition single_term (input_index : nat) (coeff : Z) : LC := Terms1 (Term_new input_index coeff).

Definition num_terms (self : LC) : nat :=
  match self with
  | Zero | Const _ => 0
  | Terms1 _ | Terms1Const _ _ => 1
  | Terms2 _ _ | Terms2Const _ _ _ => 2
  | Terms3 _ _ _ | Terms3Const _ _ _ _ => 3
  | Terms4 _ _ _ _ | Terms4Const _ _ _ _ _ => 4
  | Terms5 _ _ _ _ _ | Terms5Const _ _ _ _ _ _ => 5
  end.

Definition term (self : LC) (i : nat) : option Term :=
  match self with
  | Zero | Const _ => None
  | Terms1 t1 | Terms1Const t1 _ => [t1] !! i
  | Terms2 t1 t2 | Terms2Const t1 t2 _ => [t1; t2] !! i
  | Terms3 t1 t2 t3 | Terms3Const t1 t2 t3 _ => [t1; t2; t3] !! i
  | Terms4 t1 t2 t3 t4 | Terms4Const t1 t2 t3 t4 _ => [t1; t2; t3; t4] !! i
  | Terms5 t1 t2 t3 t4 t5 | Terms5Const t1 t2 t3 t4 t5 _ => [t1; t2; t3; t4; t5] !! i
  end.

Definition const_term (self : LC) : option Z :=
  match self with
  | Zero | Terms1 _ | Terms2 _ _ | Terms3 _ _ _ | Terms4 _ _ _ _ | Terms5 _ _ _ _ _ => None
  | Const c | Terms1Const _ c | Terms2Const _ _ c | Terms3Const _ _ _ c
  | Terms4Const _ _ _ _ c | Terms5Const _ _ _ _ _ c => Some c
  end.

Definition decompose (lc : LC) : list Term * Z :=
  match lc with
  | Zero => ([], 0)
  | Const k => ([], k)
  | Terms1 t1 => ([t1], 0)
  | Terms2 t1 t2 => ([t1; t2], 0)
  | Terms3 t1 t2 t3 => ([t1; t2; t3], 0)
  | Terms4 t1 t2 t3 t4 => ([t1; t2; t3; t4], 0)
  | Terms5 t1 t2 t3 t4 t5 => ([t1; t2; t3; t4; t5], 0)
  | Terms1Const t1 k => ([t1], k)
  | Terms2Const t1 t2 k => ([t1; t2], k)
  | Terms3Const t1 t2 t3 k => ([t1; t2; t3], k)
  | Terms4Const t1 t2 t3 t4 k => ([t1; t2; t3; t4], k)
  | Terms5Const t1 t2 t3 t4 t5 k => ([t1; t2; t3; t4; t5], k)
  end.

Definition compose (terms : list Term) (c : Z) : LC :=
  match terms, c =? 0 with
  | [], true => Zero
  | [], false => Const c
  | [t1], true => Terms1 t1
  | [t1; t2], true => Terms2 t1 t2
  | [t1; t2; t3], true => Terms3 t1 t2 t3
  | [t1; t2; t3; t4], true => Terms4 t1 t2 t3 t4
  | [t1; t2; t3; t4; t5], true => Terms5 t1 t2 t3 t4 t5
  | [t1], false => Terms1Const t1 c
  | [t1; t2], false => Terms2Const t1 t2 c
  | [t1; t2; t3], false => Terms3Const t1 t2 t3 c
  | [t1; t2; t3; t4], false => Terms4Const t1 t2 t3 t4 c
  | [t1; t2; t3; t4; t5], false => Terms5Const t1 t2 t3 t4 t5 c
  | _, _ => Zero
  end.

(** [Term::new(t.input_index, t.coeff * multiplier)] *)
Definition scale_term (multiplier : Z) (t : Term) : Term :=
  Term_new (input_index t) (as_i128 (coeff t * multiplier)).

Definition mul_by_const (self : LC) (multiplier : Z) : LC :=
  let s := scale_term multiplier in
  let k c := as_i128 (c * multiplier) in
  match self with
  | Zero => Zero
  | Const c => Const (k c)
  | Terms1 t1 => Terms1 (s t1)
  | Terms2 t1 t2 => Terms2 (s t1) (s t2)
  | Terms3 t1 t2 t3 => Terms3 (s t1) (s t2) (s t3)
  | Terms4 t1 t2 t3 t4 => Terms4 (s t1) (s t2) (s t3) (s t4)
  | Terms5 t1 t2 t3 t4 t5 => Terms5 (s t1) (s t2) (s t3) (s t4) (s t5)
  | Terms1Const t1 c => Terms1Const (s t1) (k c)
  | Terms2Const t1 t2 c => Terms2Const (s t1) (s t2) (k c)
  | Terms3Const t1 t2 t3 c => Terms3Const (s t1) (s t2) (s t3) (k c)
  | Terms4Const t1 t2 t3 t4 c => Terms4Const (s t1) (s t2) (s t3) (s t4) (k c)
  | Terms5Const t1 t2 t3 t4 t5 c => Terms5Const (s t1) (s t2) (s t3) (s t4) (s t5) (k c)
  end.

(** [out_len -= 1; out_terms[j] = out_terms[out_len]] *)
Definition swap_remove (j : nat) (l : list Term) : list Term :=
  let out_len := (length l - 1)%nat in
  match l !! out_len with Some t => take out_len (<[j := t]> l) | None => l end.

(** One turn of the loop over the terms of the right-hand side. *)
Definition add_term (out : list Term) (t : Term) : option (list Term) :=
  match list_find (fun u => input_index u = input_index t) out with
  | Some (j, u) =>
      let new_coeff := as_i128 (coeff u + coeff t) in
      Some (if new_coeff =? 0 then swap_remove j out
            else <[j := Term_new (input_index t) new_coeff]> out)
  | None => if (5 <=? length out)%nat then None else Some (out ++ [t])
  end.
Fixpoint add_terms (out rhs : list Term) : option (list Term) :=
  match rhs with
  | [] => Some out
  | t :: rhs => out ← add_term out t; add_terms out rhs
  end.

Definition checked_add (self other : LC) : option LC :=
  let '(out_terms, out_const) := decompose self in
  let '(rhs_terms, rhs_const) := decompose other in
  terms ← add_terms out_terms rhs_terms;
  Some (compose terms (as_i128 (out_const + rhs_const))).
Definition checked_sub (self other : LC) : option LC := checked_add self (mul_by_const other (-1)).
Definition checked_add_const (self : LC) (k : Z) : option LC := checked_add self (Const k).
Definition LC_neg (self : LC) : LC := mul_by_const self (-1).

Definition for_each_term {S} (self : LC) (f : nat -> Z -> S -> S) (s : S) : S :=
  let g t := f (input_index t) (coeff t) in
  match self with
  | Zero | Const _ => s
  | Terms1 t1 | Terms1Const t1 _ => g t1 s
  | Terms2 t1 t2 | Terms2Const t1 t2 _ => g t2 (g t1 s)
  | Terms3 t1 t2 t3 | Terms3Const t1 t2 t3 _ => g t3 (g t2 (g t1 s))
  | Terms4 t1 t2 t3 t4 | Terms4Const t1 t2 t3 t4 _ => g t4 (g t3 (g t2 (g t1 s)))
  | Terms5 t1 t2 t3 t4 t5 | Terms5Const t1 t2 t3 t4 t5 _ => g t5 (g t4 (g t3 (g t2 (g t1 s))))
  end.

Section Eval.
Context {F : Type} `{FieldOps F}.
#[local] Open Scope field_scope.

(** [t.coeff.field_mul(vector[t.input_index])] *)
Definition term_at (vector : list F) (t : Term) : F :=
  from_i128 (coeff t) * at_ vector (input_index t).

Definition dot_product (self : LC) (vector : list F) (const_col : nat) : F :=
  let v := term_at vector in
  let k c := from_i128 c * at_ vector const_col in
  match self with
  | Zero => zero
  | Const c => k c
  | Terms1 t1 => v t1
  | Terms2 t1 t2 => v t1 + v t2
  | Terms3 t1 t2 t3 => v t1 + v t2 + v t3
  | Terms4 t1 t2 t3 t4 => v t1 + v t2 + v t3 + v t4
  | Terms5 t1 t2 t3 t4 t5 => v t1 + v t2 + v t3 + v t4 + v t5
  | Terms1Const t1 c => v t1 + k c
  | Terms2Const t1 t2 c => v t1 + v t2 + k c
  | Terms3Const t1 t2 t3 c => v t1 + v t2 + v t3 + k c
  | Terms4Const t1 t2 t3 t4 c => v t1 + v t2 + v t3 + v t4 + k c
  | Terms5Const t1 t2 t3 t4 t5 c => v t1 + v t2 + v t3 + v t4 + v t5 + k c
  end.

(** [flattened_polynomials[i].get_coeff(row)] is the [i]th value of the row. *)
Definition evaluate_row (self : LC) (row : list F) : F :=
  let result := loop (num_terms self) (fun i result =>
    match term self i with Some t => result + term_at row t | None => result end) zero in
  match const_term self with Some c => result + from_i128 c | None => result end.

(** [evals[i] += v] *)
Definition add_at (i : nat) (v : F) (evals : list F) : list F := <[i := at_ evals i + v]> evals.

Definition accumulate_evaluations (self : LC) (evals : list F) (wr_scale : F) (num_vars : nat) : list F :=
  let evals := for_each_term self (fun i c evals => add_at i (from_i128 c * wr_scale) evals) evals in
  match const_term self with
  | Some c => add_at num_vars (from_i128 c * wr_scale) evals
  | None => evals
  end.
End Eval.

(** ** Linear combinations as sums *)

(** The bounds under which coefficients add and negate without wrapping. *)
Definition small (z : Z) : Prop := - 2 ^ 126 < z < 2 ^ 126.
Record LC_wf (lc : LC) : Prop := {
  wf_distinct : NoDup (map input_index (fst (decompose lc)));
  wf_small : Forall (fun t => small (coeff t)) (fst (decompose lc));
  wf_const : small (snd (decompose lc))
}.

Lemma insert_delete j (t : Term) l : (j < length l)%nat -> <[j := t]> l ≡ₚ t :: delete j l.
Proof.
  intros Hj. rewrite insert_take_drop, delete_take_drop by done. by rewrite Permutation_middle.
Qed.

Lemma swap_remove_delete j l : (j < length l)%nat -> swap_remove j l ≡ₚ delete j l.
Proof.
  intros Hj. destruct (exists_last (l := l)) as (l' & t & ->); [by destruct l; [cbn in Hj; lia|]|].
  rewrite length_app in Hj. cbn in Hj. unfold swap_remove. rewrite length_app. cbn [length].
  replace (length l' + 1 - 1)%nat with (length l') by lia.
  rewrite lookup_app_r, Nat.sub_diag by done. cbn.
  destruct (decide (j = length l')) as [->|Hn].
  - rewrite insert_app_r_alt, Nat.sub_diag by done. cbn. rewrite take_app_length.
    rewrite delete_take_drop, take_app_length, drop_ge by (rewrite length_app; cbn; lia). by rewrite app_nil_r.
  - rewrite insert_app_l by lia. rewrite take_app_length' by (by rewrite length_insert).
    rewrite insert_delete, !delete_take_drop, take_app_le, drop_app_le, app_assoc by lia.
    by rewrite (Permutation_app_comm _ [t]).
Qed.

(** What a turn of the loop does: the term's index gets the sum of the two
    coefficients, every other term stays. *)
Record term_added (out : list Term) (t : Term) (out' : list Term) : Prop := {
  added_distinct : NoDup (map input_index out');
  added_length : (length out' <= 5)%nat;
  added_others : forall u, u ∈ out' -> u ∈ out \/ input_index u = input_index t
}.

Lemma map_delete_NoDup j (l : list Term) :
  NoDup (map input_index l) -> NoDup (map input_index (delete j l)).
Proof.
  destruct (l !! j) as [t|] eqn:E.
  - rewrite (delete_Permutation l j t E) at 1. cbn. intros [_ H]%list.NoDup_cons. done.
  - apply lookup_ge_None in E. rewrite delete_take_drop, take_ge, drop_ge, app_nil_r by lia. done.
Qed.

Lemma add_term_added out t out' :
  NoDup (map input_index out) -> (length out <= 5)%nat -> add_term out t = Some out' -> term_added out t out'.
Proof.
  intros Hn Hl. unfold add_term. destruct (list_find _ out) as [[j u]|] eqn:E.
  - apply list_find_Some in E as (Hj & Hu & _). pose proof (lookup_lt_Some _ _ _ Hj) as Hlt.
    intros [= <-]. destruct (_ =? 0).
    + pose proof (swap_remove_delete j out Hlt) as Hp. split.
      * rewrite Hp. by apply map_delete_NoDup.
      * rewrite Hp, length_delete by done. lia.
      * intros v. rewrite Hp. intros Hv. left. rewrite (delete_Permutation out j u Hj). by right.
    + split.
      * replace (map _ _) with (map input_index out); [done|].
        change (map input_index out = input_index <$> <[j := Term_new (input_index t) (as_i128 (coeff u + coeff t))]> out).
        rewrite list_fmap_insert. cbn [input_index Term_new].
        rewrite list_insert_id; [done|]. by rewrite list_lookup_fmap, Hj, <- Hu.
      * by rewrite length_insert.
      * intros v Hv. apply list_elem_of_lookup in Hv as [k Hk].
        destruct (decide (k = j)) as [->|Hne].
        { rewrite list_lookup_insert_eq in Hk by done. injection Hk as <-. by right. }
        rewrite list_lookup_insert_ne in Hk by done. left. by eapply list_elem_of_lookup_2.
  - apply list_find_None in E. case_match eqn:H5; [done|]. intros [= <-].
    apply Nat.leb_gt in H5. rewrite Forall_forall in E. split.
    + rewrite map_app. apply list.NoDup_app. split; [done|]. split; [|apply NoDup_singleton].
      intros i Hi Hi'. cbn in Hi'. rewrite list_elem_of_singleton in Hi'. subst i.
      apply list_elem_of_fmap in Hi as (u & Hu & Hin). apply (E u); [by apply list_elem_of_In|done].
    + rewrite length_app. cbn. lia.
    + intros u. rewrite elem_of_app, list_elem_of_singleton. intros [Hu|Hu]; [by left|right; by rewrite Hu].
Qed.

(** ** Evaluation *)
Section EvalLaws.
Context {F : Type} `{JoltField F}.
Add Ring F_ring : field_ring.
#[local] Open Scope field_scope.
Implicit Types (v z : list F) (ts : list Term).

Fixpoint term_sum ts v : F :=
  match ts with [] => zero | t :: ts => term_at v t + term_sum ts v end.

Lemma term_sum_app ts1 ts2 v : term_sum (ts1 ++ ts2) v = term_sum ts1 v + term_sum ts2 v.
Proof. induction ts1 as [|t ts1 IH]; cbn [term_sum app]; [ring|]. rewrite IH. ring. Qed.

#[local] Instance term_sum_perm : Proper ((≡ₚ) ==> eq ==> eq) term_sum.
Proof. intros l l' Hp v _ <-. induction Hp; cbn [term_sum]; [ring|congruence|ring|congruence]. Qed.

Lemma dot_product_decompose lc v c :
  dot_product lc v c = term_sum (fst (decompose lc)) v + from_i128 (snd (decompose lc)) * at_ v c.
Proof. destruct lc; cbn; rewrite ?from_u64_0; ring. Qed.

Lemma dot_product_compose ts k v c : (length ts <= 5)%nat ->
  dot_product (compose ts k) v c = term_sum ts v + from_i128 k * at_ v c.
Proof.
  intros Hl. destruct ts as [|? [|? [|? [|? [|? [|]]]]]]; [..|cbn in Hl; lia];
    cbn [compose]; destruct (k =? 0)%Z eqn:E; try (apply Z.eqb_eq in E; subst k);
    cbn; rewrite ?from_u64_0; ring.
Qed.

Lemma term_at_coeff v i a b : term_at v (Term_new i (a + b)) = term_at v (Term_new i a) + term_at v (Term_new i b).
Proof. unfold term_at. cbn. rewrite from_u64_add. ring. Qed.

Lemma add_term_sum out t out' v :
  (forall u, u ∈ out -> input_index u = input_index t -> in_s 128 (coeff u + coeff t)%Z) ->
  add_term out t = Some out' -> term_sum out' v = term_sum out v + term_at v t.
Proof.
  intros Hs. unfold add_term. destruct (list_find _ out) as [[j u]|] eqn:E.
  - apply list_find_Some in E as (Hj & Hu & _). pose proof (lookup_lt_Some _ _ _ Hj) as Hlt.
    intros [= <-]. rewrite wraps_small by first [lia|apply Hs; [by eapply list_elem_of_lookup_2|done]].
    assert (Hout : term_sum out v = term_at v u + term_sum (delete j out) v).
    { by rewrite (delete_Permutation out j u Hj) at 1. }
    rewrite Hout. destruct (_ =? 0)%Z eqn:E0.
    + rewrite (swap_remove_delete j out Hlt). apply Z.eqb_eq in E0.
      unfold term_at. rewrite Hu. replace (coeff u) with (- coeff t)%Z by lia. rewrite from_u64_opp. ring.
    + rewrite (insert_delete j _ out Hlt). cbn [term_sum].
      rewrite term_at_coeff. rewrite <- Hu at 1. unfold term_at. cbn. ring.
  - case_match; [done|]. intros [= <-]. rewrite term_sum_app. cbn. ring.
Qed.

Lemma add_terms_sum rhs out out' v :
  NoDup (map input_index out) -> (length out <= 5)%nat -> NoDup (map input_index rhs) ->
  (forall u t, u ∈ out -> t ∈ rhs -> input_index u = input_index t -> in_s 128 (coeff u + coeff t)%Z) ->
  add_terms out rhs = Some out' ->
  term_sum out' v = term_sum out v + term_sum rhs v /\
  NoDup (map input_index out') /\ (length out' <= 5)%nat.
Proof.
  revert out. induction rhs as [|t rhs IH]; intros out Hn Hl Hr Hs; cbn [add_terms].
  - intros [= <-]. split; [cbn; ring|done].
  - intros (out1 & H1 & H2)%bind_Some. cbn [map] in Hr. apply list.NoDup_cons in Hr as [Ht Hr].
    destruct (add_term_added _ _ _ Hn Hl H1) as [Hn1 Hl1 Ho1].
    edestruct (IH out1 Hn1 Hl1 Hr) as (Hv & Hn' & Hl'); [|exact H2|].
    { intros u t' Hu Ht' Hi. destruct (Ho1 u Hu) as [Hu'|Hu'].
      - apply Hs; [done|by right|done].
      - destruct Ht. rewrite <- Hu', Hi. by apply (list_elem_of_fmap_2 input_index). }
    split; [|done]. rewrite Hv. erewrite add_term_sum; [|intros u Hu Hi; apply Hs; [done|by left|done]|exact H1].
    cbn [term_sum]. ring.
Qed.

Lemma decompose_compose ts k : (length ts <= 5)%nat -> decompose (compose ts k) = (ts, k).
Proof.
  intros Hl. destruct ts as [|? [|? [|? [|? [|? [|]]]]]]; [..|cbn in Hl; lia];
    cbn [compose]; destruct (k =? 0)%Z eqn:E; try (apply Z.eqb_eq in E; subst k); done.
Qed.

Lemma decompose_length lc : (length (fst (decompose lc)) <= 5)%nat.
Proof. destruct lc; cbn; lia. Qed.

Lemma small_add a b : small a -> small b -> in_s 128 (a + b)%Z.
Proof. unfold small, in_s. lia. Qed.

Lemma checked_add_sum a b r v c : LC_wf a -> LC_wf b -> checked_add a b = Some r ->
  dot_product r v c = dot_product a v c + dot_product b v c /\
  NoDup (map input_index (fst (decompose r))).
Proof.
  intros [Ha Sa Ka] [Hb Sb Kb]. unfold checked_add. rewrite !dot_product_decompose.
  pose proof (decompose_length a) as La. revert Ha Sa Ka La Hb Sb Kb.
  destruct (decompose a) as [ta ka], (decompose b) as [tb kb]. cbn [fst snd].
  intros Ha Sa Ka La Hb Sb Kb (ts & Hts & [= <-])%bind_Some.
  rewrite !list.Forall_forall in Sa, Sb.
  destruct (add_terms_sum tb ta ts v Ha La Hb) as (Hv & Hn & Hl); [|done|].
  { intros u t Hu Ht _. apply small_add; auto. }
  rewrite decompose_compose by done. cbn [fst snd]. split; [|done].
  rewrite Hv, wraps_small, from_u64_add by first [lia|by apply small_add]. ring.
Qed.

Lemma mul_by_const_decompose lc m :
  decompose (mul_by_const lc m)
  = (map (scale_term m) (fst (decompose lc)), as_i128 (snd (decompose lc) * m)).
Proof. destruct lc; cbn; done. Qed.

Lemma wf_neg lc : LC_wf lc -> LC_wf (mul_by_const lc (-1)).
Proof.
  intros [Hd Hs Hc].
  assert (Hneg : forall k : Z, small k -> small (as_i128 (k * -1))).
  { unfold small. intros k Hk. rewrite wraps_small by (try unfold in_s; lia). lia. }
  split; rewrite mul_by_const_decompose; cbn [fst snd]; [|by clear Hd; induction Hs; constructor; cbn; auto|auto].
  by rewrite map_map.
Qed.

Lemma neg_sum lc v c : LC_wf lc -> dot_product (mul_by_const lc (-1)) v c = opp (dot_product lc v c).
Proof.
  intros [Hd Hs Hc]. rewrite !dot_product_decompose, mul_by_const_decompose. cbn [fst snd].
  assert (Hn : forall k : Z, small k -> from_i128 (F := F) (as_i128 (k * -1)) = opp (from_i128 k)).
  { unfold small. intros k Hk. rewrite wraps_small by (try unfold in_s; lia).
    replace (k * -1)%Z with (- k)%Z by lia. apply from_u64_opp. }
  rewrite Hn by done.
  assert (Ht : term_sum (map (scale_term (-1)) (fst (decompose lc))) v = opp (term_sum (fst (decompose lc)) v)).
  { clear Hd Hc. induction Hs as [|t ts Ht Hs IH]; cbn [map term_sum]; [ring|].
    rewrite IH. unfold term_at. cbn [scale_term input_index coeff Term_new]. rewrite Hn by done. ring. }
  rewrite Ht. ring.
Qed.

Lemma checked_sub_sum a b r v c : LC_wf a -> LC_wf b -> checked_sub a b = Some r ->
  dot_product r v c = dot_product a v c - dot_product b v c.
Proof.
  intros Ha Hb H0. destruct (checked_add_sum a _ r v c Ha (wf_neg b Hb) H0) as [-> _].
  rewrite neg_sum by done. ring.
Qed.

(** ** Evaluation on a row, and accumulation of the coefficients *)

Lemma at_app_last v (x : F) : at_ (v ++ [x]) (length v) = x.
Proof. unfold at_. rewrite app_nth2 by lia. by rewrite Nat.sub_diag. Qed.
Lemma at_app_low v w i : (i < length v)%nat -> at_ (v ++ w) i = at_ v i.
Proof. intros Hi. unfold at_. by rewrite app_nth1. Qed.

Definition indices_below (n : nat) (lc : LC) : Prop :=
  Forall (fun t => input_index t < n)%nat (fst (decompose lc)).

Lemma term_sum_row ts row :
  Forall (fun t => input_index t < length row)%nat ts -> term_sum ts (row ++ [one]) = term_sum ts row.
Proof.
  induction 1 as [|t ts Ht _ IH]; cbn [term_sum]; [done|]. rewrite IH. unfold term_at.
  by rewrite at_app_low.
Qed.

Lemma evaluate_row_sum lc row :
  evaluate_row lc row = term_sum (fst (decompose lc)) row + from_i128 (snd (decompose lc)).
Proof.
  unfold evaluate_row. destruct lc; cbn [num_terms const_term term decompose fst snd];
    unfold loop; cbn [seq fold_left lookup list_lookup term_sum]; rewrite ?from_u64_0; ring.
Qed.

Definition inner (evals z : list F) : F := foldr (fun p s => fst p * snd p + s) zero (zip evals z).

Lemma inner_add_at i x evals z : (i < length evals)%nat -> length z = length evals ->
  inner (add_at i x evals) z = inner evals z + x * at_ z i.
Proof.
  unfold inner, add_at. revert i z. induction evals as [|e evals IH]; intros i [|y z] Hi Hz; cbn in Hi, Hz; try lia.
  destruct i as [|i].
  - cbn. unfold at_. cbn. ring.
  - cbn. unfold at_ in *. cbn [nth]. rewrite IH by lia. ring.
Qed.
Lemma length_add_at i (x : F) evals : length (add_at i x evals) = length evals.
Proof. apply length_insert. Qed.

Lemma accumulate_terms lc evals s :
  for_each_term lc (fun i c e => add_at i (from_i128 c * s) e) evals
  = fold_left (fun e t => add_at (input_index t) (from_i128 (coeff t) * s) e) (fst (decompose lc)) evals.
Proof. destruct lc; done. Qed.

Lemma accumulate_fold ts evals s z :
  Forall (fun t => input_index t < length evals)%nat ts -> length z = length evals ->
  let evals' := fold_left (fun e t => add_at (input_index t) (from_i128 (coeff t) * s) e) ts evals in
  inner evals' z = inner evals z + s * term_sum ts z /\ length evals' = length evals.
Proof.
  intros Ht. revert evals Ht. induction ts as [|t ts IH]; intros evals Ht Hz; cbn [fold_left term_sum].
  - split; [ring|done].
  - apply list.Forall_cons in Ht as [Hi Ht].
    destruct (IH (add_at (input_index t) (from_i128 (coeff t) * s) evals)) as [Hin Hl];
      rewrite ?length_add_at in *; [done..|].
    split; [|exact Hl]. rewrite Hin, inner_add_at by done. unfold term_at. ring.
Qed.
Lemma accumulate_inner lc evals s z nv :
  indices_below (length evals) lc -> (nv < length evals)%nat -> length z = length evals ->
  inner (accumulate_evaluations lc evals s nv) z = inner evals z + s * dot_product lc z nv.
Proof.
  intros He Hn Hz. unfold accumulate_evaluations. rewrite accumulate_terms, dot_product_decompose.
  destruct (accumulate_fold (fst (decompose lc)) evals s z He Hz) as [Hi Hl].
  assert (Hk : snd (decompose lc) = default 0%Z (const_term lc)) by (destruct lc; done). rewrite Hk.
  destruct (const_term lc) as [k|]; cbn [default from_option id].
  - rewrite inner_add_at, Hi by congruence. ring.
  - rewrite Hi, from_u64_0. ring.
Qed.

Lemma evaluate_row_dot lc row : indices_below (length row) lc ->
  evaluate_row lc row = dot_product lc (row ++ [one]) (length row).
Proof.
  intros Hr. rewrite evaluate_row_sum, dot_product_decompose, at_app_last, term_sum_row by exact Hr. ring.
Qed.
End EvalLaws.

Lemma add_terms_total rhs out : (length out + length rhs <= 5)%nat -> is_Some (add_terms out rhs).
Proof.
  revert out. induction rhs as [|t rhs IH]; intros out Hl; cbn [add_terms length] in *; [done|].
  unfold add_term. destruct (list_find _ out) as [[j u]|] eqn:E; cbn [mbind option_bind].
  - apply list_find_Some in E as (Hu & _). pose proof (lookup_lt_Some _ _ _ Hu) as Hj. apply IH.
    destruct (_ =? 0); [|rewrite length_insert; lia].
    rewrite (Permutation_length (swap_remove_delete j out Hj)), length_delete by by eexists. lia.
  - destruct (Nat.leb_spec 5 (length out)); [lia|]. cbn. apply IH. rewrite length_app. cbn. lia.
Qed.

(** the checked arithmetic of linear combinations.  Over any field, the
    sum and the difference that [checked_add] and [checked_sub] return evaluate
    to the sum and the difference of their arguments on every vector, the sum
    has no repeated input, and it is returned whenever the terms fit in five. *)
Theorem checked_arithmetic {F} `{JoltField F} (a b : LC) (v : list F) (c : nat) :
  LC_wf a -> LC_wf b ->
  (forall r, checked_add a b = Some r ->
     dot_product r v c = add (dot_product a v c) (dot_product b v c) /\
     NoDup (map input_index (fst (decompose r)))) /\
  (forall r, checked_sub a b = Some r ->
     dot_product r v c = sub (dot_product a v c) (dot_product b v c)) /\
  ((num_terms a + num_terms b <= 5)%nat -> is_Some (checked_add a b)).
Proof.
  intros Ha Hb. split; [|split].
  - intros r Hr. by apply checked_add_sum.
  - intros r Hr. by apply checked_sub_sum.
  - intros Hl. unfold checked_add.
    assert (Hn : forall lc, num_terms lc = length (fst (decompose lc))) by (intros []; done).
    rewrite !Hn in Hl. destruct (decompose a) as [ta ka], (decompose b) as [tb kb]. cbn [fst] in Hl.
    destruct (add_terms_total tb ta Hl) as [ts ->]. by eexists.
Qed.

Lemma checked_arithmetic_witness :
  exists r, checked_sub (Terms2Const (Term_new 4 1) (Term_new 5 7) 3) (Terms2 (Term_new 5 7) (Term_new 9 2)) = Some r /\
    forall v : list Fr, dot_product r v 35 = sub
      (dot_product (Terms2Const (Term_new 4 1) (Term_new 5 7) 3) v 35)
      (dot_product (Terms2 (Term_new 5 7) (Term_new 9 2)) v 35).
Proof.
  eexists. split; [vm_compute; reflexivity|]. intros v.
  apply (checked_arithmetic (F := Fr)); [..|vm_compute; reflexivity].
  all: split; cbn; [|repeat constructor|]; try (unfold small; lia).
  all: apply (bool_decide_eq_true_1 _); vm_compute; reflexivity.
Defined.

(** [evaluate_row] and [accumulate_evaluations] agree with the inner
    product [dot_product]: evaluating on a row is the product with the row
    followed by the constant column, and accumulating the scaled coefficients
    into a matrix row adds the scaled product to its product with any vector. *)
Theorem evaluation_agrees {F} `{JoltField F} (lc : LC) (row evals z : list F) (s : F) (num_vars : nat) :
  indices_below (length row) lc ->
  indices_below (length evals) lc -> (num_vars < length evals)%nat -> length z = length evals ->
  evaluate_row lc row = dot_product lc (row ++ [one]) (length row) /\
  inner (accumulate_evaluations lc evals s num_vars) z
  = add (inner evals z) (mul s (dot_product lc z num_vars)).
Proof. intros Hr He Hn Hz. split; [by apply evaluate_row_dot|by apply accumulate_inner]. Qed.

Lemma evaluation_agrees_witness (F := Fr) :
  evaluate_row (Terms1Const (Term_new 1 (-2)) 5) [from_u64 3; from_u64 4]
  = dot_product (Terms1Const (Term_new 1 (-2)) 5) ([from_u64 3; from_u64 4] ++ [one]) 2 (F := Fr).
Proof.
  refine (proj1 (evaluation_agrees (Terms1Const (Term_new 1 (-2)) 5) [from_u64 3; from_u64 4]
    [zero; zero; zero] [zero; zero; zero] one 2 _ _ _ _)).
  - repeat constructor; cbn [input_index Term_new length]; lia.
  - repeat constructor; cbn [input_index Term_new length]; lia.
  - cbn [length]. lia.
  - exact eq_refl.
Defined.
