(* ===== verification/AdviceTape.v ===== *)
(** * AdviceTape: the runtime advice queue

    Models [AdviceTape] of [tracer/src/emulator/cpu.rs]: bytes are appended by
    the first emulation pass and read back, little endian, by the second.  The
    abstract specification is a queue of the bytes not yet read. *)
From S2P Require Import Prelude.

Record AdviceTape := { data : list Z; read_position : nat }.

Definition AdviceTape_new : AdviceTape := {| data := []; read_position := 0 |}.

Definition AdviceTape_write (self : AdviceTape) (bytes : list Z) : AdviceTape :=
  {| data := data self ++ bytes; read_position := read_position self |}.

(** The loop [for i in 0..num_bytes] of [read]; a shift amount of a [u64] is
    taken modulo 64, and an index out of the data panics. *)
Fixpoint read_bytes (data : list Z) (pos i : nat) (num_bytes : nat) (result : Z) : option Z :=
  match num_bytes with
  | O => Some result
  | S m =>
      b ← data !! (pos + i)%nat;
      read_bytes data pos (S i) m
        (Z.lor result (as_u64 (Z.shiftl b (Z.of_nat (i * 8) mod 64))))
  end.

(** The outer option is the panic, the inner one the function's own [None]. *)
Definition AdviceTape_read (self : AdviceTape) (num_bytes : nat) : option (option Z * AdviceTape) :=
  if decide (length (data self) < read_position self + num_bytes)%nat then Some (None, self)
  else
    result ← read_bytes (data self) (read_position self) 0 num_bytes 0;
    Some (Some result,
          {| data := data self; read_position := read_position self + num_bytes |}).

Definition AdviceTape_reset_read_position (self : AdviceTape) : AdviceTape :=
  {| data := data self; read_position := 0 |}.
Definition AdviceTape_len (self : AdviceTape) : nat := length (data self).
Definition AdviceTape_is_empty (self : AdviceTape) : bool :=
  match data self with [] => true | _ => false end.
(** [saturating_sub] is truncated subtraction. *)
Definition AdviceTape_remaining (self : AdviceTape) : nat :=
  (length (data self) - read_position self)%nat.

(** ** The queue of unread bytes *)

Definition AdviceTape_wf (t : AdviceTape) : Prop :=
  (read_position t <= length (data t))%nat /\ Forall (in_u 8) (data t).
Definition unread (t : AdviceTape) : list Z := drop (read_position t) (data t).

(** Little-endian value of a byte list, and [to_le_bytes] of an [n]-byte word. *)
Fixpoint le_value (bs : list Z) : Z :=
  match bs with [] => 0 | b :: t => b + 2 ^ 8 * le_value t end.
Fixpoint to_le_bytes (n : nat) (v : Z) : list Z :=
  match n with O => [] | S m => v mod 2 ^ 8 :: to_le_bytes m (v / 2 ^ 8) end.

Lemma length_to_le_bytes n v : length (to_le_bytes n v) = n.
Proof. revert v. induction n; intros; simpl; auto. Qed.

Lemma le_value_to_le_bytes n v :
  0 <= v < 2 ^ (8 * Z.of_nat n) -> le_value (to_le_bytes n v) = v.
Proof.
  revert v. induction n as [|n IH]; intros v Hv; cbn [to_le_bytes le_value].
  - change (2 ^ (8 * Z.of_nat 0)) with 1 in Hv. lia.
  - rewrite IH.
    + pose proof (Z_div_mod_eq_full v (2 ^ 8)). lia.
    + replace (8 * Z.of_nat (S n)) with (8 + 8 * Z.of_nat n) in Hv by lia.
      rewrite Z.pow_add_r in Hv by lia.
      split; [apply Z.div_pos; lia|]. apply Z.div_lt_upper_bound; lia.
Qed.

Lemma to_le_bytes_range n v : Forall (in_u 8) (to_le_bytes n v).
Proof.
  revert v. induction n as [|n IH]; intros v; constructor; [|apply IH].
  apply Z.mod_pos_bound. lia.
Qed.

Lemma le_value_range bs :
  Forall (in_u 8) bs -> 0 <= le_value bs < 2 ^ (8 * Z.of_nat (length bs)).
Proof.
  induction 1 as [|b t Hb Ht IH]; cbn [le_value length]; [done|].
  replace (8 * Z.of_nat (S (length t))) with (8 + 8 * Z.of_nat (length t)) by lia.
  rewrite Z.pow_add_r by lia. unfold in_u in Hb. lia.
Qed.

Lemma lor_disjoint k a b : 0 <= k -> 0 <= a < 2 ^ k -> Z.lor a (b * 2 ^ k) = a + b * 2 ^ k.
Proof.
  intros Hk Ha. rewrite <- Z.shiftl_mul_pow2 by lia. symmetry. rewrite Z.add_nocarry_lxor.
  - apply Z.lxor_lor. apply Z.bits_inj'. intros j Hj.
    rewrite Z.land_spec, Z.shiftl_spec, Z.bits_0 by lia. destruct (decide (j < k)).
    + by rewrite (Z.testbit_neg_r b), andb_false_r by lia.
    + rewrite <- (Z.mod_small a (2 ^ k)) by done. by rewrite Z.mod_pow2_bits_high by lia.
  - apply Z.bits_inj'. intros j Hj.
    rewrite Z.land_spec, Z.shiftl_spec, Z.bits_0 by lia. destruct (decide (j < k)).
    + by rewrite (Z.testbit_neg_r b), andb_false_r by lia.
    + rewrite <- (Z.mod_small a (2 ^ k)) by done. by rewrite Z.mod_pow2_bits_high by lia.
Qed.

(** The loop adds the bytes it reads above the accumulator. *)
Lemma read_bytes_value l pos i n acc :
  Forall (in_u 8) l -> (pos + i + n <= length l)%nat -> (i + n <= 8)%nat ->
  0 <= acc < 2 ^ (8 * Z.of_nat i) ->
  read_bytes l pos i n acc =
    Some (acc + 2 ^ (8 * Z.of_nat i) * le_value (take n (drop (pos + i) l))).
Proof.
  intros Hf. revert i acc. induction n as [|n IH]; intros i acc Hl Hn Ha; cbn [read_bytes].
  { rewrite firstn_O. cbn [le_value]. f_equal. lia. }
  destruct (lookup_lt_is_Some_2 l (pos + i)) as [b Hb]; [lia|]. rewrite Hb. cbn [mbind option_bind].
  assert (Hb8 : in_u 8 b) by (rewrite Forall_lookup in Hf; by eapply Hf). unfold in_u in Hb8.
  rewrite Z.mod_small, Z.shiftl_mul_pow2 by lia.
  pose proof (pow2_pos (8 * Z.of_nat i)).
  assert (Hs : 2 ^ (8 * Z.of_nat (S i)) = 2 ^ 8 * 2 ^ (8 * Z.of_nat i)).
  { rewrite <- Z.pow_add_r by lia. f_equal. lia. }
  pose proof (Z.pow_le_mono_r 2 (8 * Z.of_nat (S i)) 64).
  replace (Z.of_nat (i * 8)) with (8 * Z.of_nat i) by lia.
  rewrite wrapu_small by (unfold in_u; nia). rewrite lor_disjoint by lia.
  rewrite IH by (try lia; rewrite Hs; nia). f_equal.
  rewrite (drop_S l b (pos + i)) by done. cbn [take le_value].
  rewrite Hs. replace (pos + S i)%nat with (S (pos + i)) by lia. ring.
Qed.

(** Reading [n <= 8] bytes takes them off the front of the queue; a queue too
    short is left untouched. *)
Lemma read_spec t n :
  AdviceTape_wf t -> (n <= 8)%nat ->
  exists r t', AdviceTape_read t n = Some (r, t') /\ AdviceTape_wf t' /\
    if decide (n <= length (unread t))%nat
    then r = Some (le_value (take n (unread t))) /\ unread t' = drop n (unread t)
    else r = None /\ t' = t.
Proof.
  intros [Hp Hf] Hn. unfold AdviceTape_read, unread. rewrite length_drop.
  case_decide; case_decide; try lia.
  - by exists None, t.
  - rewrite (read_bytes_value _ _ 0 n 0) by (done || lia || (cbn; lia)).
    cbn [mbind option_bind]. eexists _, _. split; [done|]. split.
    + split; cbn [data read_position]; [lia|done].
    + cbn [data read_position]. rewrite Nat.add_0_r, drop_drop. split; [|done].
      change (2 ^ (8 * Z.of_nat 0)) with 1. f_equal. lia.
Qed.

Lemma write_spec t bs :
  AdviceTape_wf t -> Forall (in_u 8) bs ->
  AdviceTape_wf (AdviceTape_write t bs) /\
  unread (AdviceTape_write t bs) = unread t ++ bs.
Proof.
  intros [Hp Hf] Hb. unfold AdviceTape_wf, unread, AdviceTape_write. cbn [data read_position].
  rewrite length_app. split; [split; [lia|by apply Forall_app]|].
  by rewrite drop_app_le by lia.
Qed.

(** ** Passes: a list of sized words written, then read with the same sizes *)

Definition write_words (t : AdviceTape) (ws : list (nat * Z)) : AdviceTape :=
  fold_left (fun t '(n, v) => AdviceTape_write t (to_le_bytes n v)) ws t.

Fixpoint read_words (t : AdviceTape) (ns : list nat) : option (list (option Z) * AdviceTape) :=
  match ns with
  | [] => Some ([], t)
  | n :: ns =>
      '(r, t) ← AdviceTape_read t n;
      '(rs, t) ← read_words t ns;
      Some (r :: rs, t)
  end.

Definition word_ok (w : nat * Z) : Prop :=
  (fst w <= 8)%nat /\ 0 <= snd w < 2 ^ (8 * Z.of_nat (fst w)).

Lemma write_words_unread ws t :
  AdviceTape_wf t ->
  AdviceTape_wf (write_words t ws) /\
  unread (write_words t ws) = unread t ++ concat (map (fun w => to_le_bytes (fst w) (snd w)) ws).
Proof.
  revert t. induction ws as [|[n v] ws IH]; intros t Ht; cbn [write_words fold_left].
  { by rewrite app_nil_r. }
  destruct (write_spec t (to_le_bytes n v) Ht (to_le_bytes_range n v)) as [Hw Hu].
  destruct (IH _ Hw) as [Hw' Hu']. split; [done|].
  unfold write_words in Hu'. rewrite Hu', Hu. cbn [map concat fst snd]. by rewrite app_assoc.
Qed.

Lemma read_words_unread ws t rest :
  AdviceTape_wf t -> Forall word_ok ws ->
  unread t = concat (map (fun w => to_le_bytes (fst w) (snd w)) ws) ++ rest ->
  exists t', read_words t (map fst ws) = Some (map (fun w => Some (snd w)) ws, t') /\
    AdviceTape_wf t' /\ unread t' = rest.
Proof.
  intros Ht Hws. revert t Ht. induction Hws as [|[n v] ws [Hn Hv] Hws IH]; intros t Ht Hu.
  { by exists t. }
  cbn [map concat fst snd read_words] in *.
  destruct (read_spec t n Ht Hn) as (r & t1 & Hr & Ht1 & Hc). rewrite Hr. cbn [mbind option_bind].
  rewrite decide_True in Hc.
  2:{ rewrite Hu, !length_app, length_to_le_bytes. lia. }
  destruct Hc as [-> Hu1]. rewrite Hu, <- app_assoc in Hu1 |- *.
  rewrite drop_app_length' in Hu1 by (by rewrite length_to_le_bytes).
  destruct (IH t1 Ht1 Hu1) as (t' & Hrs & Ht' & Hu'). rewrite Hrs. cbn [mbind option_bind].
  exists t'. rewrite take_app_length' by (by rewrite length_to_le_bytes).
  by rewrite le_value_to_le_bytes by done.
Qed.

(** the advice tape is a FIFO queue.  Words of at most eight bytes written
    by the first pass are returned, in order and unchanged, by the reads of the
    same sizes of the second pass, which never panic, and what was unread
    before them comes first. *)
Theorem advice_tape_roundtrip ws :
  Forall word_ok ws ->
  exists t', read_words (AdviceTape_reset_read_position (write_words AdviceTape_new ws)) (map fst ws)
    = Some (map (fun w => Some (snd w)) ws, t') /\ AdviceTape_remaining t' = 0%nat.
Proof.
  intros Hws. destruct (write_words_unread ws AdviceTape_new) as [Hw Hu]; [by split|].
  assert (Hr : forall t ws, read_position (write_words t ws) = read_position t).
  { intros t ws'. revert t. induction ws' as [|[n v] ws' IH]; intros t; [done|].
    exact (IH (AdviceTape_write t (to_le_bytes n v))). }
  assert (E : AdviceTape_reset_read_position (write_words AdviceTape_new ws) = write_words AdviceTape_new ws).
  { unfold AdviceTape_reset_read_position. specialize (Hr AdviceTape_new ws).
    destruct (write_words AdviceTape_new ws). cbn in Hr |- *. by rewrite Hr. }
  rewrite E. destruct (read_words_unread ws _ [] Hw Hws) as (t' & H & Ht & Hu').
  { rewrite Hu, app_nil_r. done. }
  exists t'. split; [done|]. unfold AdviceTape_remaining, unread in *. rewrite <- length_drop, Hu'. done.
Qed.

Lemma advice_tape_roundtrip_witness :
  exists t', read_words (AdviceTape_reset_read_position (write_words AdviceTape_new [(2%nat, 0x1234); (8%nat, 7)])) [2%nat; 8%nat]
    = Some ([Some 0x1234; Some 7], t') /\ AdviceTape_remaining t' = 0%nat.
Proof.
  apply (advice_tape_roundtrip [(2%nat, 0x1234); (8%nat, 7)]).
  repeat constructor; cbn; lia.
Defined.
