(* ===== verification/Registers.v ===== *)
(** * Registers: the virtual register allocator

    Models [tracer/src/utils/virtual_registers.rs].  The allocator is shared
    state behind a mutex; its operations are state transformers that return
    [None] where the code panics.  A [VirtualRegisterGuard] is the register
    number it wraps, and dropping it is an explicit [deallocate]. *)
From S2P Require Import Prelude.
From stdpp Require Import relations.
#[local] Open Scope Z_scope.

(** common/src/constants.rs *)
Definition XLEN : nat := 64.
Definition RISCV_REGISTER_COUNT : nat := 32.
Definition VIRTUAL_REGISTER_COUNT : nat := 96.
Definition VIRTUAL_INSTRUCTION_RESERVED_REGISTER_COUNT : nat := 8.
Definition REGISTER_COUNT : nat := RISCV_REGISTER_COUNT + VIRTUAL_REGISTER_COUNT.

Definition NUM_VIRTUAL_REGISTERS : nat := VIRTUAL_REGISTER_COUNT.
Definition NUM_VIRTUAL_INSTRUCTION_REGISTERS : nat := 8.
Definition RISCV_REGISTER_BASE : nat := RISCV_REGISTER_COUNT.
Definition NUM_RESERVED_VIRTUAL_REGISTERS : nat := 8.

Definition RESERVATION_W_REGISTER : nat := RISCV_REGISTER_BASE.
Definition RESERVATION_D_REGISTER : nat := RISCV_REGISTER_BASE + 1.
Definition TRAP_HANDLER_REGISTER : nat := RISCV_REGISTER_BASE + 2.
Definition MSCRATCH_REGISTER : nat := RISCV_REGISTER_BASE + 3.
Definition MEPC_REGISTER : nat := RISCV_REGISTER_BASE + 4.
Definition MCAUSE_REGISTER : nat := RISCV_REGISTER_BASE + 5.
Definition MTVAL_REGISTER : nat := RISCV_REGISTER_BASE + 6.
Definition MSTATUS_REGISTER : nat := RISCV_REGISTER_BASE + 7.

Record VirtualRegisterAllocator := {
  allocated : list bool;
  pending_clearing_inline : list nat
}.

Definition VirtualRegisterAllocator_new : VirtualRegisterAllocator :=
  {| allocated := replicate NUM_VIRTUAL_REGISTERS false; pending_clearing_inline := [] |}.

Definition csr_to_virtual_register (csr_addr : Z) : option nat :=
  if csr_addr =? 0x300 then Some MSTATUS_REGISTER
  else if csr_addr =? 0x305 then Some TRAP_HANDLER_REGISTER
  else if csr_addr =? 0x340 then Some MSCRATCH_REGISTER
  else if csr_addr =? 0x341 then Some MEPC_REGISTER
  else if csr_addr =? 0x342 then Some MCAUSE_REGISTER
  else if csr_addr =? 0x343 then Some MTVAL_REGISTER
  else None.

(** The first free slot of [l], whose head has index [i], among the first [n]
    ([iter_mut().enumerate().skip(..).take(n)] with an early return). *)
Fixpoint first_free (l : list bool) (i n : nat) : option nat :=
  match n, l with
  | S n, a :: l => if a then first_free l (S i) n else Some i
  | _, _ => None
  end.

Definition allocate (self : VirtualRegisterAllocator) : option (nat * VirtualRegisterAllocator) :=
  i ← first_free (drop NUM_RESERVED_VIRTUAL_REGISTERS (allocated self))
        NUM_RESERVED_VIRTUAL_REGISTERS NUM_VIRTUAL_INSTRUCTION_REGISTERS;
  Some ((i + RISCV_REGISTER_BASE)%nat,
        {| allocated := <[i := true]> (allocated self);
           pending_clearing_inline := pending_clearing_inline self |}).

Definition allocate_for_inline (self : VirtualRegisterAllocator)
    : option (nat * VirtualRegisterAllocator) :=
  let skip_count := (NUM_RESERVED_VIRTUAL_REGISTERS + NUM_VIRTUAL_INSTRUCTION_REGISTERS)%nat in
  i ← first_free (drop skip_count (allocated self)) skip_count
        (length (drop skip_count (allocated self)));
  let reg := (i + RISCV_REGISTER_BASE)%nat in
  let pending := pending_clearing_inline self in
  Some (reg,
        {| allocated := <[i := true]> (allocated self);
           pending_clearing_inline :=
             if bool_decide (reg ∈ pending) then pending else pending ++ [reg] |}).

Definition get_registers_for_reset (self : VirtualRegisterAllocator)
    : option (list nat * VirtualRegisterAllocator) :=
  let skip_count := (NUM_RESERVED_VIRTUAL_REGISTERS + NUM_VIRTUAL_INSTRUCTION_REGISTERS)%nat in
  if forallb negb (drop skip_count (allocated self)) then
    Some (pending_clearing_inline self,
          {| allocated := allocated self; pending_clearing_inline := [] |})
  else None.

Definition deallocate (self : VirtualRegisterAllocator) (index : nat) : VirtualRegisterAllocator :=
  let virtual_index := (index - RISCV_REGISTER_BASE)%nat in
  if decide (virtual_index < NUM_VIRTUAL_REGISTERS)%nat then
    {| allocated := <[virtual_index := false]> (allocated self);
       pending_clearing_inline := pending_clearing_inline self |}
  else self.

(** ** Which registers are handed out *)

(** The three ranges of the layout comment: 32-39, 40-47 and 48-127. *)
Definition reserved_reg (r : nat) : Prop := (32 <= r < 40)%nat.
Definition instruction_reg (r : nat) : Prop := (40 <= r < 48)%nat.
Definition inline_reg (r : nat) : Prop := (48 <= r < 128)%nat.

#[export] Instance instruction_reg_dec r : Decision (instruction_reg r).
Proof. unfold instruction_reg. apply _. Defined.

(** Register [r] is free in the allocator. *)
Definition free (self : VirtualRegisterAllocator) (r : nat) : Prop :=
  allocated self !! (r - RISCV_REGISTER_BASE)%nat = Some false.

Lemma first_free_Some l i n k :
  first_free l i n = Some k <->
  (i <= k < i + n)%nat /\ l !! (k - i)%nat = Some false /\
  forall j, (i <= j < k)%nat -> l !! (j - i)%nat = Some true.
Proof.
  revert l i. induction n as [|n IH]; intros l i; cbn [first_free]; [split; [by destruct l|lia]|].
  destruct l as [|[] l]; cbn [first_free].
  - split; [done|]. by intros (_ & ? & _).
  - rewrite IH. split.
    + intros (Hk & Hl & Hj). split; [lia|].
      replace (k - i)%nat with (S (k - S i)) by lia. split; [done|].
      intros j Hji. destruct (decide (j = i)) as [->|]; [by rewrite Nat.sub_diag|].
      replace (j - i)%nat with (S (j - S i)) by lia. apply Hj. lia.
    + intros (Hk & Hl & Hj). destruct (decide (k = i)) as [->|]; [by rewrite Nat.sub_diag in Hl|].
      split; [lia|]. replace (k - i)%nat with (S (k - S i)) in Hl by lia. split; [done|].
      intros j Hji. specialize (Hj j ltac:(lia)). by replace (j - i)%nat with (S (j - S i)) in Hj by lia.
  - split.
    + intros [= <-]. rewrite Nat.sub_diag. split; [lia|]. split; [done|]. lia.
    + intros (Hk & Hl & Hj). destruct (decide (k = i)) as [->|]; [done|].
      specialize (Hj i ltac:(lia)). by rewrite Nat.sub_diag in Hj.
Qed.

Lemma first_free_None l i n :
  (n <= length l)%nat -> first_free l i n = None -> forall j, (j < n)%nat -> l !! j = Some true.
Proof.
  revert l i. induction n as [|n IH]; intros l i Hl Hf j Hj; [lia|].
  destruct l as [|[] l]; cbn in Hl, Hf; [lia| |done].
  destruct j as [|j]; [done|]. apply (IH l (S i)); [lia|done|lia].
Qed.

Ltac alloc_unfold :=
  unfold NUM_VIRTUAL_REGISTERS, VIRTUAL_REGISTER_COUNT, NUM_RESERVED_VIRTUAL_REGISTERS,
    NUM_VIRTUAL_INSTRUCTION_REGISTERS, RISCV_REGISTER_BASE, RISCV_REGISTER_COUNT in *.

(** [allocate] hands out the first free temporary, and panics exactly when the
    eight of them are taken. *)
Lemma allocate_spec self :
  length (allocated self) = NUM_VIRTUAL_REGISTERS ->
  match allocate self with
  | Some (r, self') =>
      instruction_reg r /\ free self r /\
      (forall r', (40 <= r' < r)%nat -> ~ free self r') /\
      allocated self' = <[(r - RISCV_REGISTER_BASE)%nat := true]> (allocated self) /\
      pending_clearing_inline self' = pending_clearing_inline self
  | None => forall r, instruction_reg r -> ~ free self r
  end.
Proof.
  intros Hl. unfold allocate, instruction_reg, free. alloc_unfold.
  destruct (first_free _ _ _) as [i|] eqn:E; cbn [mbind option_bind].
  - apply first_free_Some in E as (Hi & Hf & Hj). rewrite lookup_drop in Hf.
    replace (8 + (i - 8))%nat with i in Hf by lia.
    replace (i + 32 - 32)%nat with i by lia. repeat split; try lia; try done.
    intros r' Hr'. specialize (Hj (r' - 32)%nat ltac:(lia)). rewrite lookup_drop in Hj.
    replace (8 + (r' - 32 - 8))%nat with (r' - 32)%nat in Hj by lia. congruence.
  - intros r Hr.
    assert (Hd : (8 <= length (drop 8 (allocated self)))%nat) by (rewrite length_drop; lia).
    pose proof (first_free_None _ _ _ Hd E (r - 40)) as Hf.
    rewrite lookup_drop in Hf. replace (8 + (r - 40))%nat with (r - 32)%nat in Hf by lia.
    rewrite Hf by lia. done.
Qed.

Lemma allocate_for_inline_spec self :
  length (allocated self) = NUM_VIRTUAL_REGISTERS ->
  match allocate_for_inline self with
  | Some (r, self') =>
      inline_reg r /\ free self r /\
      (forall r', (48 <= r' < r)%nat -> ~ free self r') /\
      allocated self' = <[(r - RISCV_REGISTER_BASE)%nat := true]> (allocated self) /\
      pending_clearing_inline self' =
        (if bool_decide (r ∈ pending_clearing_inline self) then pending_clearing_inline self
         else pending_clearing_inline self ++ [r])
  | None => forall r, inline_reg r -> ~ free self r
  end.
Proof.
  intros Hl. unfold allocate_for_inline, inline_reg, free. alloc_unfold.
  cbn [Nat.add]. rewrite length_drop, Hl. cbn [Nat.sub].
  destruct (first_free _ _ _) as [i|] eqn:E; cbn [mbind option_bind].
  - apply first_free_Some in E as (Hi & Hf & Hj). rewrite lookup_drop in Hf.
    replace (16 + (i - 16))%nat with i in Hf by lia.
    replace (i + 32 - 32)%nat with i by lia. repeat split; try lia; try done.
    intros r' Hr'. specialize (Hj (r' - 32)%nat ltac:(lia)). rewrite lookup_drop in Hj.
    replace (16 + (r' - 32 - 16))%nat with (r' - 32)%nat in Hj by lia. congruence.
  - intros r Hr.
    assert (Hd : (80 <= length (drop 16 (allocated self)))%nat) by (rewrite length_drop; lia).
    pose proof (first_free_None _ _ _ Hd E (r - 48)) as Hf.
    rewrite lookup_drop in Hf. replace (16 + (r - 48))%nat with (r - 32)%nat in Hf by lia.
    rewrite Hf by lia. done.
Qed.

(** ** Histories *)

Lemma free_insert self self' r r' b :
  allocated self' = <[(r - RISCV_REGISTER_BASE)%nat := b]> (allocated self) ->
  length (allocated self) = NUM_VIRTUAL_REGISTERS -> (32 <= r < 128)%nat -> (32 <= r')%nat ->
  free self' r' <-> (if decide (r' = r) then b = false else free self r').
Proof.
  intros E Hl Hr Hr'. unfold free. rewrite E. alloc_unfold. case_decide as Hd.
  - subst r'. rewrite list_lookup_insert_eq by lia. split; congruence.
  - by rewrite list_lookup_insert_ne by lia.
Qed.

(** What the users of an allocator see: the registers its guards hold, their
    drops, and the lists returned for clearing. *)
Inductive Event := Allocated (r : nat) | AllocatedForInline (r : nat) | Dropped (r : nat) | Cleared (rs : list nat).

(** The histories of an allocator: a guard is dropped while it is held. *)
Definition held_after (held : list nat) (e : Event) : list nat :=
  match e with
  | Allocated r | AllocatedForInline r => r :: held
  | Dropped r => filter (fun r' => r' <> r) held
  | Cleared _ => held
  end.
Definition held (h : list Event) : list nat := fold_left held_after h [].
(** The inline registers handed out since the last reset. *)
Definition used_after (used : list nat) (e : Event) : list nat :=
  match e with AllocatedForInline r => r :: used | Cleared _ => [] | _ => used end.
Definition used_since_reset (h : list Event) : list nat := fold_left used_after h [].

Inductive history : list Event -> VirtualRegisterAllocator -> Prop :=
| history_new : history [] VirtualRegisterAllocator_new
| history_allocate h self r self' :
    history h self -> allocate self = Some (r, self') -> history (h ++ [Allocated r]) self'
| history_allocate_for_inline h self r self' :
    history h self -> allocate_for_inline self = Some (r, self') -> history (h ++ [AllocatedForInline r]) self'
| history_drop h self r : history h self -> r ∈ held h -> history (h ++ [Dropped r]) (deallocate self r)
| history_reset h self rs self' :
    history h self -> get_registers_for_reset self = Some (rs, self') -> history (h ++ [Cleared rs]) self'.

(** What each event promises, given the history before it. *)
Definition event_ok (h : list Event) (e : Event) : Prop :=
  match e with
  | Allocated r => instruction_reg r /\ r ∉ held h
  | AllocatedForInline r => inline_reg r /\ r ∉ held h
  | Dropped r => r ∈ held h
  | Cleared rs => NoDup rs /\ (forall r, r ∈ rs <-> r ∈ used_since_reset h) /\ forall r, r ∈ held h -> ~ inline_reg r
  end.

(** The allocator's fields against its history. *)
Record tracks (h : list Event) (self : VirtualRegisterAllocator) : Prop := {
  tracks_length : length (allocated self) = NUM_VIRTUAL_REGISTERS;
  tracks_free r : (32 <= r < 128)%nat -> free self r <-> r ∉ held h;
  tracks_held r : r ∈ held h -> instruction_reg r \/ inline_reg r;
  tracks_nodup : NoDup (pending_clearing_inline self);
  tracks_pending r : r ∈ pending_clearing_inline self <-> r ∈ used_since_reset h
}.

Lemma held_snoc h e : held (h ++ [e]) = held_after (held h) e.
Proof. unfold held. by rewrite fold_left_app. Qed.
Lemma used_snoc h e : used_since_reset (h ++ [e]) = used_after (used_since_reset h) e.
Proof. unfold used_since_reset. by rewrite fold_left_app. Qed.

(** A register handed out. *)
Lemma tracks_taken h self self' e r : tracks h self -> held (h ++ [e]) = r :: held h ->
  instruction_reg r \/ inline_reg r ->
  allocated self' = <[(r - RISCV_REGISTER_BASE)%nat := true]> (allocated self) ->
  NoDup (pending_clearing_inline self') ->
  (forall r', r' ∈ pending_clearing_inline self' <-> r' ∈ used_since_reset (h ++ [e])) -> tracks (h ++ [e]) self'.
Proof.
  intros [Hl Hf Hh _ _] He Hr Ha Hnd Hp. assert (Hr' : (32 <= r < 128)%nat) by (unfold instruction_reg, inline_reg in Hr; lia).
  split; [by rewrite Ha, length_insert| | |done|done]; rewrite He; intros r'.
  - intros Hb. rewrite (free_insert self self' r r' true Ha Hl Hr') by lia. rewrite not_elem_of_cons.
    case_decide as E; [subst; by split; intros H; [|destruct H]|]. rewrite Hf by done. tauto.
  - intros [->|Hin]%elem_of_cons; [done|]. by apply Hh.
Qed.

Lemma history_tracks h self : history h self -> tracks h self /\ forall pre e post, h = pre ++ e :: post -> event_ok pre e.
Proof.
  induction 1 as [|h self r self' _ [IH Hok] E|h self r self' _ [IH Hok] E|h self r _ [IH Hok] Hr|h self rs self' _ [IH Hok] E].
  { split; [|by intros []].  split; [done| |by intros r Hr%elem_of_nil|apply NoDup_nil_2|done]. intros r Hr.
    split; [by intros _ Hn%elem_of_nil|intros _]. apply lookup_replicate. split; [done|]. alloc_unfold. lia. }
  all: assert (Hsnoc : forall e, event_ok h e -> forall pre e' post, h ++ [e] = pre ++ e' :: post -> event_ok pre e').
  1, 3, 5, 7: intros e He pre e' post Heq; destruct post as [|e2 post _] using rev_ind;
    [by apply app_inj_tail in Heq as [-> ->]|rewrite app_comm_cons, app_assoc in Heq; apply app_inj_tail in Heq as [-> ->]; by eapply Hok].
  - pose proof (allocate_spec self (tracks_length _ _ IH)) as Hs. rewrite E in Hs. destruct Hs as (Hr & Hfree & _ & Ha & Hpe).
    split; [|apply Hsnoc; split; [done|]; apply (tracks_free _ _ IH); [unfold instruction_reg in Hr; lia|done]].
    apply (tracks_taken h self self' _ r IH); try done; [by rewrite held_snoc|by left|rewrite Hpe; apply IH|].
    intros r'. rewrite Hpe, used_snoc. apply IH.
  - pose proof (allocate_for_inline_spec self (tracks_length _ _ IH)) as Hs. rewrite E in Hs. destruct Hs as (Hr & Hfree & _ & Ha & Hpe).
    split; [|apply Hsnoc; split; [done|]; apply (tracks_free _ _ IH); [unfold inline_reg in Hr; lia|done]].
    apply (tracks_taken h self self' _ r IH); try done; [by rewrite held_snoc|by right|rewrite Hpe|intros r'; rewrite Hpe].
    + case_bool_decide as Hm; [apply IH|]. apply list.NoDup_app. split; [apply IH|]. split; [|apply NoDup_singleton].
      by intros r' Hr' ->%list_elem_of_singleton.
    + rewrite used_snoc. cbn [used_after]. rewrite elem_of_cons, <- (tracks_pending _ _ IH).
      case_bool_decide as Hm; [|rewrite elem_of_app, list_elem_of_singleton; tauto]. split; [tauto|]. by intros [->|].
  - split; [|by apply Hsnoc]. pose proof (tracks_held _ _ IH r Hr) as Hreg.
    assert (Hb : (32 <= r < 128)%nat) by (unfold instruction_reg, inline_reg in Hreg; lia).
    unfold deallocate. rewrite decide_True by (alloc_unfold; lia). set (self' := Build_VirtualRegisterAllocator _ _).
    assert (Ha : allocated self' = <[(r - RISCV_REGISTER_BASE)%nat := false]> (allocated self)) by done.
    destruct IH as [Hl Hf Hh Hnd Hp]. split; [by rewrite Ha, length_insert| | |done|intros r'; rewrite used_snoc; apply Hp];
      rewrite held_snoc; cbn [held_after]; intros r'; rewrite list_elem_of_filter.
    + intros Hb'. rewrite (free_insert self self' r r' false Ha Hl Hb) by lia.
      case_decide as Ed; [subst; tauto|]. rewrite Hf by done. tauto.
    + intros [_ Hin]. by apply Hh.
  - unfold get_registers_for_reset in E. destruct (forallb _ _) eqn:Hall; simplify_eq.
    assert (Hnone : forall r, r ∈ held h -> ~ inline_reg r).
    { intros r Hin Hr. unfold inline_reg in Hr. assert (Hn : ~ free self r) by (rewrite (tracks_free _ _ IH) by lia; tauto).
      apply Hn. unfold free. destruct (allocated self !! (r - RISCV_REGISTER_BASE)%nat) as [[]|] eqn:El; [|done|].
      - rewrite forallb_forall in Hall. assert (In true (drop (8 + 8) (allocated self))) as Hi; [|by apply Hall in Hi].
        apply list_elem_of_In, list_elem_of_lookup. exists (r - 48)%nat. rewrite lookup_drop. alloc_unfold.
        by replace (8 + 8 + (r - 48))%nat with (r - 32)%nat by lia.
      - apply lookup_ge_None in El. rewrite (tracks_length _ _ IH) in El. alloc_unfold. lia. }
    split; [|apply Hsnoc; split; [apply IH|]; split; [apply IH|done]].
    destruct IH as [Hl Hf Hh Hnd Hp]. split; [done| | |apply NoDup_nil_2|by intros r; rewrite used_snoc];
      intros r; rewrite held_snoc; cbn [held_after]; [intros Hb; by rewrite <- Hf|by apply Hh].
Qed.

(** C37: over every history of an allocator, from its creation: [allocate] only
    hands out a register of 40 to 47 and [allocate_for_inline] one of 48 to 127,
    never one that is still held (so never a reserved register, and never the
    same one twice at once); a register is marked exactly while it is held, and
    [allocate] panics exactly when its eight registers are held; and a reset
    returns every inline register handed out since the last one exactly once,
    whether or not it was allocated again, and only when none is held. *)
Theorem allocator_invariant h self : history h self ->
  (forall pre e post, h = pre ++ e :: post -> event_ok pre e) /\
  (forall r, (32 <= r < 128)%nat -> free self r <-> r ∉ held h) /\
  (allocate self = None <-> forall r, instruction_reg r -> r ∈ held h) /\
  (allocate_for_inline self = None <-> forall r, inline_reg r -> r ∈ held h) /\
  NoDup (pending_clearing_inline self) /\ (forall r, r ∈ pending_clearing_inline self <-> r ∈ used_since_reset h).
Proof.
  intros H. destruct (history_tracks h self H) as [[Hl Hf Hh Hnd Hp] Hok].
  assert (Hheld : forall r, (32 <= r < 128)%nat -> ~ free self r <-> r ∈ held h).
  { intros r Hr. rewrite Hf by done. split; [apply dec_stable|tauto]. }
  do 2 (split; [done|]). split; [|split; [|by split]].
  - pose proof (allocate_spec self Hl) as Hs. destruct (allocate self) as [[r self']|].
    + destruct Hs as (Hr & Hfree & _). split; [done|]. intros Hall. apply Hall in Hr as Hin.
      apply Hheld in Hin; [done|unfold instruction_reg in Hr; lia].
    + split; [|done]. intros _ r Hr. apply Hheld; [unfold instruction_reg in Hr; lia|by apply Hs].
  - pose proof (allocate_for_inline_spec self Hl) as Hs. destruct (allocate_for_inline self) as [[r self']|].
    + destruct Hs as (Hr & Hfree & _). split; [done|]. intros Hall. apply Hall in Hr as Hin.
      apply Hheld in Hin; [done|unfold inline_reg in Hr; lia].
    + split; [|done]. intros _ r Hr. apply Hheld; [unfold inline_reg in Hr; lia|by apply Hs].
Qed.

Lemma allocator_invariant_witness :
  exists r self rs self', allocate_for_inline VirtualRegisterAllocator_new = Some (r, self) /\
    get_registers_for_reset (deallocate self r) = Some (rs, self') /\ r ∈ rs.
Proof.
  destruct (allocate_for_inline VirtualRegisterAllocator_new) as [[r self]|] eqn:E; [|by vm_compute in E].
  destruct (get_registers_for_reset (deallocate self r)) as [[rs self']|] eqn:E2.
  2: { vm_compute in E. injection E as <- <-. by vm_compute in E2. }
  exists r, self, rs, self'. split; [done|]. split; [done|].
  assert (H : history [AllocatedForInline r; Dropped r; Cleared rs] self').
  { apply (history_reset [AllocatedForInline r; Dropped r] (deallocate self r)); [|done].
    apply (history_drop [AllocatedForInline r] self); [|by apply elem_of_cons; left].
    apply (history_allocate_for_inline [] VirtualRegisterAllocator_new); [apply history_new|done]. }
  destruct (allocator_invariant _ _ H) as [Hok _].
  destruct (Hok [AllocatedForInline r; Dropped r] (Cleared rs) [] eq_refl) as (_ & Hrs & _). apply Hrs. by apply elem_of_cons; left.
Defined.
