(* ===== verification/Memory.v ===== *)
(** * Memory: the emulator's main memory

    Models [tracer/src/emulator/memory.rs]: a map from indices to doublewords,
    zero where nothing was stored, that records in its checkpoint the initial
    value of every doubleword accessed.  Reads update the state too, so every
    operation is stateful code; [None] is the panic of an access out of bounds.
    The abstract memory is an array of bits ([mbit]): an access of [w] bits at
    byte address [a] is the bits from [8 * a] on, whatever its alignment. *)
From S2P Require Import Prelude Bits.
From stdpp Require Import gmap.
Open Scope Z_scope.
Open Scope st_scope.

Record MemoryData := {
  memory : gmap Z Z;
  num_doublewords : Z;
  checkpoint : option (gmap Z Z)
}.

Definition MemoryData_empty : MemoryData :=
  {| memory := ∅; num_doublewords := 0; checkpoint := None |}.
(** [capacity.div_ceil(8)] *)
Definition init_with_capacity (self : MemoryData) (capacity : Z) : MemoryData :=
  {| memory := memory self; num_doublewords := (capacity + 7) / 8; checkpoint := checkpoint self |}.
Definition get_num_doublewords (self : MemoryData) : Z := num_doublewords self.

(** [map.entry(index).or_insert(v)] *)
Definition or_insert (index v : Z) (map : gmap Z Z) : gmap Z Z :=
  match map !! index with Some _ => map | None => <[index := v]> map end.

(** The doubleword's value; [assign_u64] writes through the reference. *)
Definition access_u64 (index : Z) : St MemoryData Z := fun self =>
  if num_doublewords self <=? index then None
  else
    let res := default 0 (memory self !! index) in
    Some (res, {| memory := or_insert index 0 (memory self);
                  num_doublewords := num_doublewords self;
                  checkpoint := or_insert index res <$> checkpoint self |}).
Definition assign_u64 (index v : Z) : St MemoryData unit :=
  access_u64 index ;;!
  fun self => Some (tt, {| memory := <[index := v]> (memory self);
                           num_doublewords := num_doublewords self; checkpoint := checkpoint self |}).

Definition get_u64 (self : MemoryData) (index : Z) : option Z :=
  if num_doublewords self <=? index then None else Some (default 0 (memory self !! index)).

Definition save_checkpoint (self : MemoryData) : option (MemoryData * MemoryData) :=
  memory' ← checkpoint self;
  Some ({| memory := memory'; num_doublewords := num_doublewords self; checkpoint := None |},
        {| memory := memory self; num_doublewords := num_doublewords self; checkpoint := Some ∅ |}).
Definition is_saving_checkpoints (self : MemoryData) : bool :=
  match checkpoint self with Some _ => true | None => false end.
Definition start_saving_checkpoints (self : MemoryData) : MemoryData :=
  match checkpoint self with
  | Some _ => self
  | None => {| memory := memory self; num_doublewords := num_doublewords self; checkpoint := Some ∅ |}
  end.

(** ** Reads and writes ([impl Memory]) *)

Definition is_multiple_of (a n : Z) : bool := a mod n =? 0.
Definition dword_index (address : Z) : Z := Z.shiftr address 3.
Definition dword_pos (address : Z) : Z := address mod 8 * 8.

Definition read_byte (address : Z) : St MemoryData Z :=
  let! v := access_u64 (dword_index address) in
  M_ret (as_u8 (Z.shiftr v (dword_pos address))).

(** [data |= (self.read_byte(address.wrapping_add(i)) as u64) << (i * 8)] for [i] in order. *)
Fixpoint read_bytes_loop (address : Z) (i n : nat) (data : Z) : St MemoryData Z :=
  match n with
  | O => M_ret data
  | S n =>
      let! b := read_byte (as_u64 (address + Z.of_nat i)) in
      read_bytes_loop address (S i) n (Z.lor data (as_u64 (Z.shiftl b (Z.of_nat i * 8))))
  end.
Definition read_bytes (address : Z) (width : nat) : St MemoryData Z := read_bytes_loop address 0 width 0.

Definition read_halfword (address : Z) : St MemoryData Z :=
  if is_multiple_of address 2 then
    let! v := access_u64 (dword_index address) in
    M_ret (as_u16 (Z.shiftr v (dword_pos address)))
  else let! v := read_bytes address 2 in M_ret (as_u16 v).

Definition read_word (address : Z) : St MemoryData Z :=
  if is_multiple_of address 4 then
    let! v := access_u64 (dword_index address) in
    M_ret (as_u32 (Z.shiftr v (dword_pos address)))
  else let! v := read_bytes address 4 in M_ret (as_u32 v).

Definition read_doubleword (address : Z) : St MemoryData Z :=
  if is_multiple_of address 8 then access_u64 (dword_index address)
  else if is_multiple_of address 4 then
    let! lo := read_word address in
    let! hi := read_word (as_u64 (address + 4)) in
    M_ret (Z.lor lo (as_u64 (Z.shiftl hi 32)))
  else read_bytes address 8.

(** The doubleword [& !(mask << pos) | ((value as u64) << pos)], written back. *)
Definition write_masked (address mask value : Z) : St MemoryData unit :=
  let index := dword_index address in
  let pos := dword_pos address in
  let! v := access_u64 index in
  assign_u64 index
    (Z.lor (Z.land v (as_u64 (Z.lnot (as_u64 (Z.shiftl mask pos))))) (as_u64 (Z.shiftl value pos))).

Definition write_byte (address value : Z) : St MemoryData unit := write_masked address 0xff value.

Fixpoint write_bytes_loop (address value : Z) (i n : nat) : St MemoryData unit :=
  match n with
  | O => M_ret tt
  | S n =>
      write_byte (as_u64 (address + Z.of_nat i)) (as_u8 (Z.shiftr value (Z.of_nat i * 8))) ;;!
      write_bytes_loop address value (S i) n
  end.
Definition write_bytes (address value : Z) (width : nat) : St MemoryData unit :=
  write_bytes_loop address value 0 width.

Definition write_halfword (address value : Z) : St MemoryData unit :=
  if is_multiple_of address 2 then write_masked address 0xffff value
  else write_bytes address value 2.

Definition write_word (address value : Z) : St MemoryData unit :=
  if is_multiple_of address 4 then write_masked address 0xffffffff value
  else write_bytes address value 4.

Definition write_doubleword (address value : Z) : St MemoryData unit :=
  if is_multiple_of address 8 then assign_u64 (dword_index address) value
  else if is_multiple_of address 4 then
    write_word address (as_u32 (Z.land value 0xffffffff)) ;;!
    write_word (as_u64 (address + 4)) (as_u32 (Z.shiftr value 32))
  else write_bytes address value 8.

Definition validate_address (self : MemoryData) (address : Z) : bool :=
  dword_index address <? get_num_doublewords self.

(** The read-only accessors, which leave the checkpoint alone. *)
Definition get_byte (self : MemoryData) (address : Z) : option Z :=
  v ← get_u64 self (dword_index address); Some (as_u8 (Z.shiftr v (dword_pos address))).
Fixpoint get_bytes_loop (self : MemoryData) (address : Z) (i n : nat) (data : Z) : option Z :=
  match n with
  | O => Some data
  | S n =>
      b ← get_byte self (as_u64 (address + Z.of_nat i));
      get_bytes_loop self address (S i) n (Z.lor data (as_u64 (Z.shiftl b (Z.of_nat i * 8))))
  end.
Definition get_bytes (self : MemoryData) (address : Z) (width : nat) : option Z :=
  get_bytes_loop self address 0 width 0.
Definition get_word (self : MemoryData) (address : Z) : option Z :=
  if is_multiple_of address 4 then
    v ← get_u64 self (dword_index address); Some (as_u32 (Z.shiftr v (dword_pos address)))
  else v ← get_bytes self address 4; Some (as_u32 v).
Definition get_doubleword (self : MemoryData) (address : Z) : option Z :=
  if is_multiple_of address 8 then get_u64 self (dword_index address)
  else if is_multiple_of address 4 then
    lo ← get_word self address; hi ← get_word self (as_u64 (address + 4));
    Some (Z.lor lo (as_u64 (Z.shiftl hi 32)))
  else get_bytes self address 8.

Definition take_memory (self : MemoryData) : MemoryData * MemoryData :=
  ({| memory := memory self; num_doublewords := num_doublewords self; checkpoint := None |},
   {| memory := ∅; num_doublewords := num_doublewords self; checkpoint := checkpoint self |}).

(** ** The abstract memory

    Its doublewords, its bits, and the value of [w <= 64] bits from bit [n]. *)
Definition content (m : MemoryData) (i : Z) : Z := default 0 (memory m !! i).
Definition mbit (m : MemoryData) (n : Z) : bool := Z.testbit (content m (n / 64)) (n mod 64).
Definition bits_at (m : MemoryData) (n w : Z) : Z :=
  Z.lor (Z.shiftr (content m (n / 64)) (n mod 64))
        (Z.shiftl (content m (n / 64 + 1)) (64 - n mod 64)) mod 2 ^ w.

Record mem_wf (m : MemoryData) : Prop := {
  wf_content : forall i, in_u 64 (content m i);
  wf_capacity : 0 <= num_doublewords m < 2 ^ 60
}.

(** The same abstract memory: the accesses recorded may differ. *)
Record same_memory (m m' : MemoryData) : Prop := {
  same_content : forall i, content m i = content m' i;
  same_capacity : num_doublewords m = num_doublewords m'
}.
#[export] Instance same_memory_equiv : Equivalence same_memory.
Proof.
  split.
  - by split.
  - intros m m' [H1 H2]. by split.
  - intros m1 m2 m3 [H1 H2] [H3 H4]. split; [|congruence]. intros i. by rewrite H1.
Qed.
#[export] Instance mbit_proper : Proper (same_memory ==> eq ==> eq) mbit.
Proof. intros m m' [H _] n _ <-. unfold mbit. by rewrite H. Qed.
#[export] Instance bits_at_proper : Proper (same_memory ==> eq ==> eq ==> eq) bits_at.
Proof. intros m m' [H _] n _ <- w _ <-. unfold bits_at. by rewrite !H. Qed.
Lemma mem_wf_same m m' : same_memory m m' -> mem_wf m -> mem_wf m'.
Proof. intros [H1 H2] [H3 H4]. split; [intros i; by rewrite <- H1|by rewrite <- H2]. Qed.

(** A byte address within the memory. *)
Definition in_memory (m : MemoryData) (a : Z) : Prop := 0 <= a /\ a / 8 < num_doublewords m.

Lemma testbit_bits_at m n w j : mem_wf m -> 0 <= n -> 0 <= w <= 64 -> 0 <= j ->
  Z.testbit (bits_at m n w) j = (j <? w) && mbit m (n + j).
Proof.
  intros Hm Hn Hw Hj. unfold bits_at. rewrite Z.testbit_mod_pow2 by lia.
  destruct (Z.ltb_spec j w) as [Hjw|]; [|done]. cbn [andb].
  pose proof (Z.mod_pos_bound n 64 ltac:(lia)). pose proof (Z.div_mod n 64 ltac:(lia)).
  rewrite Z.lor_spec, Z.shiftr_spec, Z.shiftl_spec by lia. unfold mbit.
  destruct (Z.ltb_spec (n mod 64 + j) 64) as [Hl|Hl].
  - rewrite (Z.testbit_neg_r _ (j - _)) by lia. rewrite orb_false_r.
    replace ((n + j) / 64) with (n / 64) by (apply (Z.div_unique _ _ _ (n mod 64 + j)); lia).
    replace ((n + j) mod 64) with (j + n mod 64) by (apply (Z.mod_unique _ _ (n / 64)); lia). done.
  - rewrite (testbit_out 64 _ (j + _)) by (first [apply Hm|lia]). cbn [orb].
    replace ((n + j) / 64) with (n / 64 + 1) by (apply (Z.div_unique _ _ _ (n mod 64 + j - 64)); lia).
    replace ((n + j) mod 64) with (j - (64 - n mod 64)); [done|].
    apply (Z.mod_unique _ _ (n / 64 + 1)); lia.
Qed.

Lemma bits_at_range m n w : 0 <= w -> in_u w (bits_at m n w).
Proof. intros Hw. apply Z.mod_pos_bound, pow2_pos, Hw. Qed.

Lemma bits_at_aligned m i : mem_wf m -> bits_at m (64 * i) 64 = content m i.
Proof.
  intros Hm. unfold bits_at. rewrite Z.mul_comm, Z.div_mul, Z.mod_mul by lia.
  rewrite Z.shiftr_0_r, Z.sub_0_r. apply Z.bits_inj'. intros j Hj.
  rewrite Z.testbit_mod_pow2 by lia. rewrite Z.lor_spec, Z.shiftl_spec by lia.
  destruct (Z.ltb_spec j 64); cbn [andb].
  - by rewrite (Z.testbit_neg_r _ (j - 64)), orb_false_r by lia.
  - symmetry. by apply (testbit_out 64); [apply Hm|lia].
Qed.

(** ** Accesses *)

Lemma access_u64_spec m i : i < num_doublewords m ->
  exists m', access_u64 i m = Some (content m i, m') /\ same_memory m m'.
Proof.
  intros Hi. unfold access_u64. destruct (Z.leb_spec (num_doublewords m) i); [lia|].
  eexists. split; [reflexivity|]. split; [|done]. intros k. symmetry.
  unfold content, or_insert. cbn [memory]. destruct (memory m !! i) eqn:E; [done|].
  destruct (decide (i = k)) as [<-|Hk]; [by rewrite lookup_insert_eq, E|by rewrite lookup_insert_ne].
Qed.

(** [m'] is [m] with the doubleword [i] set to [v]. *)
Record set_dword (m : MemoryData) (i v : Z) (m' : MemoryData) : Prop := {
  set_content : forall k, content m' k = if decide (k = i) then v else content m k;
  set_capacity : num_doublewords m' = num_doublewords m
}.

Lemma assign_u64_spec m i v : i < num_doublewords m ->
  exists m', assign_u64 i v m = Some (tt, m') /\ set_dword m i v m'.
Proof.
  intros Hi. unfold assign_u64. destruct (access_u64_spec m i Hi) as (m1 & E & Hs & Hc).
  rewrite (M_bind_eq _ _ _ _ _ E). eexists. split; [reflexivity|]. split; [|done].
  intros k. unfold content at 1. cbn [memory]. case_decide as Hk; [subst|].
  - by rewrite lookup_insert_eq.
  - rewrite lookup_insert_ne by done. by rewrite Hs.
Qed.

Lemma access_u64_out m i : num_doublewords m <= i -> access_u64 i m = None.
Proof. intros Hi. unfold access_u64. destruct (Z.leb_spec (num_doublewords m) i); [done|lia]. Qed.
Lemma assign_u64_out m i v : num_doublewords m <= i -> assign_u64 i v m = None.
Proof. intros Hi. unfold assign_u64, M_bind. by rewrite access_u64_out. Qed.

(** ** Reads *)

(** A computation that reads [v] and leaves the abstract memory alone. *)
Definition reads {A} (f : St MemoryData A) (m : MemoryData) (v : A) : Prop :=
  exists m', f m = Some (v, m') /\ same_memory m m'.

Lemma reads_ret {A} m (v : A) : reads (M_ret v) m v.
Proof. exists m. split; [done|reflexivity]. Qed.
Lemma reads_bind {A B} (f : St MemoryData A) (k : A -> St MemoryData B) m v w :
  reads f m v -> (forall m', same_memory m m' -> reads (k v) m' w) -> reads (M_bind f k) m w.
Proof.
  intros (m1 & E & Hs) Hk. destruct (Hk m1 Hs) as (m2 & E2 & Hs2).
  exists m2. rewrite (M_bind_eq _ _ _ _ _ E). split; [done|]. by transitivity m1.
Qed.

Lemma dword_bit a : 0 <= a -> 8 * a / 64 = dword_index a /\ 8 * a mod 64 = dword_pos a.
Proof.
  intros Ha. unfold dword_index, dword_pos. rewrite Z.shiftr_div_pow2 by lia. change (2 ^ 3) with 8.
  pose proof (Z.div_mod a 8 ltac:(lia)). pose proof (Z.mod_pos_bound a 8 ltac:(lia)). split.
  - symmetry. apply (Z.div_unique _ _ _ (8 * (a mod 8))); lia.
  - symmetry. apply (Z.mod_unique _ _ (a / 8)); lia.
Qed.

Lemma dword_pos_range a : 0 <= dword_pos a <= 56.
Proof. unfold dword_pos. pose proof (Z.mod_pos_bound a 8 ltac:(lia)). lia. Qed.

(** A field inside one doubleword. *)
Lemma field_bits m a w : mem_wf m -> 0 <= a -> 0 <= w -> dword_pos a + w <= 64 ->
  wrapu w (Z.shiftr (content m (dword_index a)) (dword_pos a)) = bits_at m (8 * a) w.
Proof.
  intros Hm Ha Hw Hp. pose proof (dword_pos_range a). destruct (dword_bit a Ha) as [Hi Hq].
  apply Z.bits_inj'. intros j Hj. rewrite testbit_bits_at by (done || lia).
  unfold wrapu. rewrite Z.testbit_mod_pow2, Z.shiftr_spec by lia.
  destruct (Z.ltb_spec j w); [|done]. cbn [andb]. unfold mbit.
  replace ((8 * a + j) / 64) with (dword_index a).
  - f_equal. apply (Z.mod_unique _ _ (dword_index a)); [lia|].
    pose proof (Z.div_mod (8 * a) 64 ltac:(lia)). lia.
  - apply (Z.div_unique _ _ _ (dword_pos a + j)); [lia|].
    pose proof (Z.div_mod (8 * a) 64 ltac:(lia)). lia.
Qed.

Lemma bits_at_app m n w1 w2 : mem_wf m -> 0 <= n -> 0 <= w1 -> 0 <= w2 -> w1 + w2 <= 64 ->
  Z.lor (bits_at m n w1) (as_u64 (Z.shiftl (bits_at m (n + w1) w2) w1)) = bits_at m n (w1 + w2).
Proof.
  intros Hm Hn H1 H2 Hw. apply Z.bits_inj'. intros j Hj.
  unfold wrapu. rewrite Z.lor_spec, Z.testbit_mod_pow2, Z.shiftl_spec by lia.
  rewrite (testbit_bits_at m n w1), (testbit_bits_at m n (w1 + w2)) by (done || lia).
  destruct (Z.ltb_spec j w1).
  - rewrite (Z.testbit_neg_r _ (j - w1)), andb_false_r, orb_false_r by lia.
    by destruct (Z.ltb_spec j (w1 + w2)); [|lia].
  - cbn [andb orb]. rewrite testbit_bits_at by (done || lia).
    replace (n + w1 + (j - w1)) with (n + j) by lia.
    destruct (Z.ltb_spec (j - w1) w2), (Z.ltb_spec j (w1 + w2)), (Z.ltb_spec j 64);
      try lia; by rewrite ?andb_false_r.
Qed.

Lemma read_field m a w : mem_wf m -> in_memory m a -> 0 <= w -> dword_pos a + w <= 64 ->
  reads (let! v := access_u64 (dword_index a) in M_ret (wrapu w (Z.shiftr v (dword_pos a)))) m
    (bits_at m (8 * a) w).
Proof.
  intros Hm [Ha Hi] Hw Hp. unfold reads. rewrite <- (field_bits m a w) by done.
  destruct (access_u64_spec m (dword_index a)) as (m' & E & Hs).
  { unfold dword_index. by rewrite Z.shiftr_div_pow2 by lia. }
  exists m'. by rewrite (M_bind_eq _ _ _ _ _ E).
Qed.

Lemma read_byte_bits m a : mem_wf m -> in_memory m a -> reads (read_byte a) m (bits_at m (8 * a) 8).
Proof. intros Hm Ha. apply read_field; [done..|lia|pose proof (dword_pos_range a); lia]. Qed.

Lemma in_memory_le m a b : mem_wf m -> in_memory m b -> 0 <= a <= b -> in_memory m a /\ as_u64 a = a.
Proof.
  intros [_ Hc] [Hb Hi] Ha. split; [split; [lia|]|].
  - pose proof (Z.div_le_mono a b 8). lia.
  - apply wrapu_small. unfold in_u. pose proof (Z.div_mod b 8 ltac:(lia)).
    pose proof (Z.mod_pos_bound b 8 ltac:(lia)). lia.
Qed.

Lemma read_bytes_loop_bits m a i n : mem_wf m -> 0 <= a -> (i + n <= 8)%nat ->
  (n = 0%nat \/ in_memory m (a + Z.of_nat (i + n) - 1)) ->
  reads (read_bytes_loop a i n (bits_at m (8 * a) (8 * Z.of_nat i))) m
    (bits_at m (8 * a) (8 * Z.of_nat (i + n))).
Proof.
  intros Hm Ha. revert m i Hm. induction n as [|n IH]; intros m i Hm Hn Hi; cbn [read_bytes_loop].
  { rewrite Nat.add_0_r. apply reads_ret. }
  destruct Hi as [|Hi]; [done|].
  destruct (in_memory_le m (a + Z.of_nat i) _ Hm Hi ltac:(lia)) as [Hai ->].
  eapply reads_bind; [by apply read_byte_bits|]. intros m' Hs.
  replace (8 * (a + Z.of_nat i)) with (8 * a + 8 * Z.of_nat i) by lia.
  rewrite (Z.mul_comm (Z.of_nat i)), bits_at_app by (done || lia).
  replace (8 * Z.of_nat i + 8) with (8 * Z.of_nat (S i)) by lia.
  rewrite (bits_at_proper m m' Hs _ _ eq_refl _ _ eq_refl).
  replace (i + S n)%nat with (S i + n)%nat in * by lia.
  rewrite (bits_at_proper m m' Hs _ _ eq_refl _ _ eq_refl).
  apply IH; [by eapply mem_wf_same|lia|]. right.
  destruct Hs as [_ Hc]. unfold in_memory in *. by rewrite <- Hc.
Qed.

Lemma read_bytes_bits m a n : mem_wf m -> (0 < n <= 8)%nat -> 0 <= a ->
  in_memory m (a + Z.of_nat n - 1) -> reads (read_bytes a n) m (bits_at m (8 * a) (8 * Z.of_nat n)).
Proof.
  intros Hm Hn Ha Hi. pose proof (read_bytes_loop_bits m a 0 n Hm Ha ltac:(lia) (or_intror Hi)) as H.
  unfold read_bytes. replace 0 with (bits_at m (8 * a) (8 * Z.of_nat 0)) at 1; [exact H|].
  unfold bits_at. change (8 * Z.of_nat 0) with 0. apply Z.mod_1_r.
Qed.

Lemma reads_as w f m v : in_u w v -> reads f m v -> reads (let! x := f in M_ret (wrapu w x)) m v.
Proof.
  intros Hv Hf. eapply reads_bind; [exact Hf|]. intros m' _. rewrite wrapu_small by done. apply reads_ret.
Qed.

(** A field of [k] bytes at an address that is a multiple of [k] lies in one
    doubleword. *)
Lemma multiple_pos a k : (k = 2 \/ k = 4 \/ k = 8) -> is_multiple_of a k = true -> dword_pos a + 8 * k <= 64.
Proof.
  unfold is_multiple_of, dword_pos. intros Hk H%Z.eqb_eq.
  pose proof (Z.div_mod a k ltac:(lia)). pose proof (Z.div_mod a 8 ltac:(lia)).
  pose proof (Z.mod_pos_bound a 8 ltac:(lia)). destruct Hk as [->|[->| ->]]; lia.
Qed.

Section Reads.
Context (m : MemoryData) (a : Z) (Hm : mem_wf m) (Ha : 0 <= a).

Lemma in_memory_first k : 0 <= k -> in_memory m (a + k) -> in_memory m a.
Proof. intros Hk Hi. by destruct (in_memory_le m a (a + k) Hm Hi ltac:(lia)). Qed.

Lemma read_halfword_bits : in_memory m (a + 1) -> reads (read_halfword a) m (bits_at m (8 * a) 16).
Proof.
  intros Hi. unfold read_halfword. destruct (is_multiple_of a 2) eqn:E.
  - apply read_field; [done|by apply (in_memory_first 1)|lia|]. by apply (multiple_pos a 2); [auto|].
  - apply reads_as; [by apply bits_at_range|]. apply (read_bytes_bits m a 2); [done|lia|done|].
    by replace (a + Z.of_nat 2 - 1) with (a + 1) by lia.
Qed.

Lemma read_word_bits : in_memory m (a + 3) -> reads (read_word a) m (bits_at m (8 * a) 32).
Proof.
  intros Hi. unfold read_word. destruct (is_multiple_of a 4) eqn:E.
  - apply read_field; [done|by apply (in_memory_first 3)|lia|]. by apply (multiple_pos a 4); [auto|].
  - apply reads_as; [by apply bits_at_range|]. apply (read_bytes_bits m a 4); [done|lia|done|].
    by replace (a + Z.of_nat 4 - 1) with (a + 3) by lia.
Qed.
End Reads.

Lemma read_doubleword_bits m a : mem_wf m -> 0 <= a ->
  in_memory m (a + 7) -> reads (read_doubleword a) m (bits_at m (8 * a) 64).
Proof.
  intros Hm Ha Hi. unfold read_doubleword. destruct (is_multiple_of a 8) eqn:E8.
  - unfold is_multiple_of in E8. apply Z.eqb_eq in E8.
    destruct (in_memory_first m a Hm Ha 7 ltac:(lia) Hi) as [_ Hb].
    destruct (access_u64_spec m (dword_index a)) as (m' & E & Hs).
    { unfold dword_index. by rewrite Z.shiftr_div_pow2 by lia. }
    exists m'. split; [|done]. rewrite E. do 2 f_equal. rewrite <- bits_at_aligned by done. f_equal.
    destruct (dword_bit a Ha) as [<- Hq]. unfold dword_pos in Hq.
    pose proof (Z.div_mod (8 * a) 64 ltac:(lia)). lia.
  - destruct (is_multiple_of a 4) eqn:E4.
    + destruct (in_memory_le m (a + 3) (a + 7) Hm Hi ltac:(lia)) as [H3 _].
      destruct (in_memory_le m (a + 4) (a + 7) Hm Hi ltac:(lia)) as [_ ->].
      eapply reads_bind; [by apply read_word_bits|]. intros m' Hs.
      eapply reads_bind.
      { apply read_word_bits; [by eapply mem_wf_same|lia|]. destruct Hs as [_ Hc].
        unfold in_memory in *. rewrite <- Hc. by replace (a + 4 + 3) with (a + 7) by lia. }
      intros m2 Hs2. rewrite <- (bits_at_proper m m' Hs _ _ eq_refl _ _ eq_refl).
      replace (8 * (a + 4)) with (8 * a + 32) by lia. rewrite bits_at_app by (done || lia). apply reads_ret.
    + apply (read_bytes_bits m a 8); [done|lia|done|]. by replace (a + Z.of_nat 8 - 1) with (a + 7) by lia.
Qed.

(** ** Writes *)

(** [m'] is [m] with the low [w] bits of [v] at bit [n]. *)
Record wrote (m : MemoryData) (n w v : Z) (m' : MemoryData) : Prop := {
  wrote_bits : forall k, mbit m' k = if (n <=? k) && (k <? n + w) then Z.testbit v (k - n) else mbit m k;
  wrote_wf : mem_wf m';
  wrote_capacity : num_doublewords m' = num_doublewords m
}.

Lemma wrote_0 m n v : mem_wf m -> wrote m n 0 v m.
Proof. intros Hm. split; [|done..]. intros k. destruct (Z.leb_spec n k), (Z.ltb_spec k (n + 0)); (done || lia). Qed.

Lemma wrote_app m n w1 w2 v v1 v2 m1 m2 :
  0 <= w1 -> 0 <= w2 ->
  (forall j, 0 <= j < w1 -> Z.testbit v1 j = Z.testbit v j) ->
  (forall j, 0 <= j < w2 -> Z.testbit v2 j = Z.testbit v (j + w1)) ->
  wrote m n w1 v1 m1 -> wrote m1 (n + w1) w2 v2 m2 -> wrote m n (w1 + w2) v m2.
Proof.
  intros H1 H2 Hv1 Hv2 [B1 W1 C1] [B2 W2 C2]. split; [|done|congruence].
  intros k. rewrite B2, B1.
  destruct (Z.leb_spec n k), (Z.ltb_spec k (n + w1)), (Z.leb_spec (n + w1) k), (Z.ltb_spec k (n + w1 + w2)),
    (Z.ltb_spec k (n + (w1 + w2))); cbn [andb]; try lia; try done.
  - apply Hv1. lia.
  - rewrite Hv2 by lia. f_equal. lia.
Qed.

Lemma mbit_content m i j : 0 <= j < 64 -> mbit m (64 * i + j) = Z.testbit (content m i) j.
Proof.
  intros Hj. unfold mbit. f_equal.
  - f_equal. symmetry. apply (Z.div_unique _ _ _ j); lia.
  - symmetry. apply (Z.mod_unique _ _ i); lia.
Qed.

(** The bits of an updated doubleword. *)
Lemma set_dword_wrote m i pos w v d m' :
  mem_wf m -> 0 <= pos -> 0 <= w -> pos + w <= 64 -> in_u 64 d -> set_dword m i d m' ->
  (forall j, 0 <= j < 64 ->
    Z.testbit d j = if (pos <=? j) && (j <? pos + w) then Z.testbit v (j - pos) else Z.testbit (content m i) j) ->
  wrote m (64 * i + pos) w v m'.
Proof.
  intros [Hm Hn] Hp Hw Hpw Hd [Hc Hcap] Hb. split; [|split; [|by rewrite Hcap]|done].
  - intros k. pose proof (Z.mod_pos_bound k 64 ltac:(lia)). pose proof (Z.div_mod k 64 ltac:(lia)).
    replace k with (64 * (k / 64) + k mod 64) at 1 5 by lia.
    rewrite !mbit_content, Hc by done. case_decide as E.
    + rewrite Hb, <- E by done.
      destruct (Z.leb_spec pos (k mod 64)), (Z.ltb_spec (k mod 64) (pos + w)),
        (Z.leb_spec (64 * (k / 64) + pos) k), (Z.ltb_spec k (64 * (k / 64) + pos + w)); cbn [andb];
        try lia; try done. f_equal. lia.
    + destruct (Z.leb_spec (64 * i + pos) k), (Z.ltb_spec k (64 * i + pos + w)); cbn [andb]; try done. lia.
  - intros k. rewrite Hc. by case_decide.
Qed.

Definition writes (f : St MemoryData unit) (m : MemoryData) (n w v : Z) : Prop :=
  exists m', f m = Some (tt, m') /\ wrote m n w v m'.

Lemma testbit_mask w pos j : 0 <= w -> 0 <= pos -> 0 <= j < 64 ->
  Z.testbit (as_u64 (Z.lnot (as_u64 (Z.shiftl (Z.ones w) pos)))) j = negb ((pos <=? j) && (j <? pos + w)).
Proof.
  intros Hw Hp Hj. unfold wrapu. rewrite Z.testbit_mod_pow2, Z.lnot_spec, Z.testbit_mod_pow2, Z.shiftl_spec by lia.
  destruct (Z.ltb_spec j 64); [|lia]. cbn [andb]. f_equal.
  destruct (Z.leb_spec pos j), (Z.ltb_spec j (pos + w)); cbn [andb].
  - apply Z.ones_spec_low. lia.
  - apply Z.ones_spec_high. lia.
  - apply Z.testbit_neg_r. lia.
  - apply Z.testbit_neg_r. lia.
Qed.

Lemma write_masked_wrote m a w v : mem_wf m -> in_memory m a -> 0 < w -> dword_pos a + w <= 64 -> in_u w v ->
  writes (write_masked a (Z.ones w) v) m (8 * a) w v.
Proof.
  intros Hm [Ha Hi] Hw Hp Hv. pose proof (dword_pos_range a). destruct (dword_bit a Ha) as [Hq Hr].
  assert (Hlt : dword_index a < num_doublewords m) by (unfold dword_index; by rewrite Z.shiftr_div_pow2 by lia).
  unfold writes, write_masked. destruct (access_u64_spec m (dword_index a) Hlt) as (m1 & E & Hs).
  rewrite (M_bind_eq _ _ _ _ _ E).
  set (d := Z.lor _ _). destruct (assign_u64_spec m1 (dword_index a) d) as (m2 & E2 & [Hc Hcap]).
  { destruct Hs as [_ <-]. done. }
  exists m2. split; [exact E2|].
  replace (8 * a) with (64 * dword_index a + dword_pos a) by (pose proof (Z.div_mod (8 * a) 64 ltac:(lia)); lia).
  apply (set_dword_wrote m _ _ _ _ d); [done|lia|lia|done| | |].
  - unfold d. apply in_u_lor; [lia|apply in_u_land; [lia|apply Hm]|apply wrapu_range; lia].
  - destruct Hs as [H1 H2]. split; [|congruence]. intros k. by rewrite Hc, H1.
  - intros j Hj. unfold d. rewrite Z.lor_spec, Z.land_spec, testbit_mask by lia.
    unfold wrapu at 1. rewrite Z.testbit_mod_pow2, Z.shiftl_spec by lia.
    destruct (Z.ltb_spec j 64); [|lia]. cbn [andb].
    destruct (Z.leb_spec (dword_pos a) j), (Z.ltb_spec j (dword_pos a + w)); cbn [andb negb].
    + by rewrite andb_false_r.
    + rewrite (testbit_out w v) by (done || lia). by rewrite andb_true_r, orb_false_r.
    + rewrite (Z.testbit_neg_r v) by lia. by rewrite andb_true_r, orb_false_r.
    + rewrite (Z.testbit_neg_r v) by lia. by rewrite andb_true_r, orb_false_r.
Qed.

Lemma in_memory_wrote m n w v m' a : wrote m n w v m' -> in_memory m a -> in_memory m' a.
Proof. intros [_ _ Hc]. unfold in_memory. by rewrite Hc. Qed.

Lemma writes_bind m n w1 w2 v v1 v2 f g :
  0 <= w1 -> 0 <= w2 ->
  (forall j, 0 <= j < w1 -> Z.testbit v1 j = Z.testbit v j) ->
  (forall j, 0 <= j < w2 -> Z.testbit v2 j = Z.testbit v (j + w1)) ->
  writes f m n w1 v1 -> (forall m1, wrote m n w1 v1 m1 -> writes g m1 (n + w1) w2 v2) ->
  writes (f ;;! g) m n (w1 + w2) v.
Proof.
  intros H1 H2 Hv1 Hv2 (m1 & E & Hw) Hg. destruct (Hg m1 Hw) as (m2 & E2 & Hw2).
  exists m2. rewrite (M_bind_eq _ _ _ _ _ E). split; [done|]. by eapply wrote_app.
Qed.

Lemma write_byte_wrote m a v : mem_wf m -> in_memory m a -> in_u 8 v -> writes (write_byte a v) m (8 * a) 8 v.
Proof.
  intros Hm Ha Hv. unfold write_byte. change 0xff with (Z.ones 8).
  apply write_masked_wrote; try done. pose proof (dword_pos_range a). lia.
Qed.

(** The byte [i] of a value, and its bits. *)
Lemma testbit_byte v i j : 0 <= i -> 0 <= j < 8 ->
  Z.testbit (as_u8 (Z.shiftr v (i * 8))) j = Z.testbit v (j + 8 * i).
Proof.
  intros Hi Hj. unfold wrapu. rewrite Z.testbit_mod_pow2, Z.shiftr_spec by lia.
  destruct (Z.ltb_spec j 8); [|lia]. cbn [andb]. f_equal. lia.
Qed.

Lemma write_bytes_loop_wrote m a v i n : mem_wf m -> 0 <= a ->
  (n = 0%nat \/ in_memory m (a + Z.of_nat (i + n) - 1)) ->
  writes (write_bytes_loop a v i n) m (8 * (a + Z.of_nat i)) (8 * Z.of_nat n) (Z.shiftr v (8 * Z.of_nat i)).
Proof.
  intros Hm Ha. revert m i Hm. induction n as [|n IH]; intros m i Hm Hi; cbn [write_bytes_loop].
  { exists m. split; [done|]. by apply wrote_0. }
  destruct Hi as [|Hi]; [done|].
  destruct (in_memory_le m (a + Z.of_nat i) _ Hm Hi ltac:(lia)) as [Hai ->].
  replace (8 * Z.of_nat (S n)) with (8 + 8 * Z.of_nat n) by lia.
  apply (writes_bind _ _ _ _ _ (as_u8 (Z.shiftr v (Z.of_nat i * 8))) (Z.shiftr v (8 * Z.of_nat (S i)))); [lia..| | | |].
  - intros j Hj. rewrite testbit_byte, Z.shiftr_spec by lia. done.
  - intros j Hj. rewrite !Z.shiftr_spec by lia. f_equal. lia.
  - apply write_byte_wrote; [done..|]. apply wrapu_range. lia.
  - intros m1 Hw. replace (8 * (a + Z.of_nat i) + 8) with (8 * (a + Z.of_nat (S i))) by lia.
    apply IH; [by eapply wrote_wf|]. right. apply (in_memory_wrote _ _ _ _ _ _ Hw).
    by replace (S i + n)%nat with (i + S n)%nat by lia.
Qed.

Lemma write_bytes_wrote m a v n : mem_wf m -> (0 < n)%nat -> 0 <= a ->
  in_memory m (a + Z.of_nat n - 1) -> writes (write_bytes a v n) m (8 * a) (8 * Z.of_nat n) v.
Proof.
  intros Hm Hn Ha Hi. pose proof (write_bytes_loop_wrote m a v 0 n Hm Ha (or_intror Hi)) as H.
  rewrite Z.shiftr_0_r, Z.add_0_r in H. exact H.
Qed.

Lemma write_halfword_wrote m a v : mem_wf m -> 0 <= a -> in_memory m (a + 1) -> in_u 16 v ->
  writes (write_halfword a v) m (8 * a) 16 v.
Proof.
  intros Hm Ha Hi Hv. unfold write_halfword. destruct (is_multiple_of a 2) eqn:E.
  - change 0xffff with (Z.ones 16). apply write_masked_wrote; [done| |lia| |done].
    + by apply (in_memory_first m a Hm Ha 1).
    + apply (multiple_pos a 2); auto.
  - apply (write_bytes_wrote m a v 2); [done|lia|done|]. by replace (a + Z.of_nat 2 - 1) with (a + 1) by lia.
Qed.

Lemma write_word_wrote m a v : mem_wf m -> 0 <= a -> in_memory m (a + 3) -> in_u 32 v ->
  writes (write_word a v) m (8 * a) 32 v.
Proof.
  intros Hm Ha Hi Hv. unfold write_word. destruct (is_multiple_of a 4) eqn:E.
  - change 0xffffffff with (Z.ones 32). apply write_masked_wrote; [done| |lia| |done].
    + by apply (in_memory_first m a Hm Ha 3).
    + apply (multiple_pos a 4); auto.
  - apply (write_bytes_wrote m a v 4); [done|lia|done|]. by replace (a + Z.of_nat 4 - 1) with (a + 3) by lia.
Qed.

Lemma write_doubleword_wrote m a v : mem_wf m -> 0 <= a -> in_memory m (a + 7) -> in_u 64 v ->
  writes (write_doubleword a v) m (8 * a) 64 v.
Proof.
  intros Hm Ha Hi Hv. unfold write_doubleword. destruct (is_multiple_of a 8) eqn:E8.
  - unfold is_multiple_of in E8. apply Z.eqb_eq in E8.
    destruct (in_memory_first m a Hm Ha 7 ltac:(lia) Hi) as [_ Hb].
    destruct (assign_u64_spec m (dword_index a) v) as (m' & E & Hs).
    { unfold dword_index. by rewrite Z.shiftr_div_pow2 by lia. }
    exists m'. split; [done|]. destruct (dword_bit a Ha) as [Hq Hr].
    replace (8 * a) with (64 * dword_index a + 0)
      by (pose proof (Z.div_mod (8 * a) 64 ltac:(lia)); unfold dword_pos in Hr; lia).
    apply (set_dword_wrote m _ _ _ _ v); [done|lia|lia|lia|done|done|].
    intros j Hj. rewrite Z.sub_0_r. destruct (Z.leb_spec 0 j), (Z.ltb_spec j (0 + 64)); (done || lia).
  - destruct (is_multiple_of a 4) eqn:E4.
    + destruct (in_memory_le m (a + 3) (a + 7) Hm Hi ltac:(lia)) as [H3 _].
      destruct (in_memory_le m (a + 4) (a + 7) Hm Hi ltac:(lia)) as [_ ->].
      change 0xffffffff with (Z.ones 32). rewrite Z.land_ones by lia.
      apply (writes_bind _ _ 32 32 _ (as_u32 (v mod 2 ^ 32)) (as_u32 (Z.shiftr v 32))); [lia..| | | |].
      * intros j Hj. unfold wrapu. rewrite !Z.testbit_mod_pow2 by lia. by destruct (Z.ltb_spec j 32); [|lia].
      * intros j Hj. unfold wrapu. rewrite Z.testbit_mod_pow2, Z.shiftr_spec by lia. by destruct (Z.ltb_spec j 32); [|lia].
      * apply write_word_wrote; [done..|]. apply wrapu_range. lia.
      * intros m1 Hw. replace (8 * a + 32) with (8 * (a + 4)) by lia.
        apply write_word_wrote; [by eapply wrote_wf|lia| |apply wrapu_range; lia].
        apply (in_memory_wrote _ _ _ _ _ _ Hw). by replace (a + 4 + 3) with (a + 7) by lia.
    + apply (write_bytes_wrote m a v 8); [done|lia|done|]. by replace (a + Z.of_nat 8 - 1) with (a + 7) by lia.
Qed.

(** ** Replaying a chunk from its checkpoint *)

(** An access of the trait's eight, and the value it returns. *)
Inductive Width := W8 | W16 | W32 | W64.
Inductive Access := Read (w : Width) (a : Z) | Write (w : Width) (a v : Z).

Definition run_access (op : Access) : St MemoryData Z :=
  match op with
  | Read W8 a => read_byte a | Read W16 a => read_halfword a
  | Read W32 a => read_word a | Read W64 a => read_doubleword a
  | Write W8 a v => write_byte a v ;;! M_ret 0 | Write W16 a v => write_halfword a v ;;! M_ret 0
  | Write W32 a v => write_word a v ;;! M_ret 0 | Write W64 a v => write_doubleword a v ;;! M_ret 0
  end.
Fixpoint run_accesses (ops : list Access) : St MemoryData (list Z) :=
  match ops with
  | [] => M_ret []
  | op :: ops => let! v := run_access op in let! vs := run_accesses ops in M_ret (v :: vs)
  end.

(** The recorded doublewords. *)
Definition recorded (m : MemoryData) (i : Z) : Prop := exists ck, checkpoint m = Some ck /\ is_Some (ck !! i).

(** [m] is a later state of the chunk that started in [m0]: what is recorded
    is the initial value, what is not recorded did not change. *)
Record tracks (m0 m : MemoryData) : Prop := {
  tracks_initial : forall ck i v, checkpoint m = Some ck -> ck !! i = Some v -> v = content m0 i;
  tracks_unchanged : forall i, ~ recorded m i -> content m i = content m0 i
}.
(** [r] replays [m] on the doublewords of [C]. *)
Record replays (C : Z -> Prop) (m r : MemoryData) : Prop := {
  replays_content : forall i, C i -> content r i = content m i;
  replays_capacity : num_doublewords r = num_doublewords m
}.

(** A computation whose accesses the checkpoint records faithfully. *)
Record faithful {A} (f : St MemoryData A) : Prop := {
  faithful_grows : forall m a m', f m = Some (a, m') ->
    num_doublewords m' = num_doublewords m /\ is_saving_checkpoints m' = is_saving_checkpoints m /\
    forall i, recorded m i -> recorded m' i;
  faithful_tracks : forall m0 m a m', f m = Some (a, m') -> is_saving_checkpoints m = true ->
    tracks m0 m -> tracks m0 m';
  faithful_replays : forall (C : Z -> Prop) m r a m', f m = Some (a, m') -> is_saving_checkpoints m = true ->
    (forall i, recorded m' i -> C i) -> replays C m r ->
    exists r', f r = Some (a, r') /\ replays C m' r'
}.

Lemma faithful_ret {A} (a : A) : faithful (M_ret a).
Proof.
  split.
  - by intros m b m' [= _ <-].
  - by intros m0 m b m' [= _ <-].
  - intros C m r b m' [= <- <-] _ _ Hr. by exists r.
Qed.

Lemma faithful_bind {A B} (f : St MemoryData A) (k : A -> St MemoryData B) :
  faithful f -> (forall a, faithful (k a)) -> faithful (M_bind f k).
Proof.
  intros [G1 T1 R1] Hk. split.
  - intros m b m' (a & m1 & E1 & E2)%M_bind_Some. destruct (Hk a) as [G2 _ _].
    destruct (G1 _ _ _ E1) as (N1 & S1 & H1), (G2 _ _ _ E2) as (N2 & S2 & H2). split; [congruence|].
    split; [congruence|auto].
  - intros m0 m b m' (a & m1 & E1 & E2)%M_bind_Some Hs Ht. destruct (Hk a) as [G2 T2 _].
    destruct (G1 _ _ _ E1) as (_ & S1 & _). eapply T2; [exact E2|congruence|]. by eapply T1.
  - intros C m r b m' (a & m1 & E1 & E2)%M_bind_Some Hs HC Hr. destruct (Hk a) as [G2 _ R2].
    destruct (G1 _ _ _ E1) as (_ & S1 & _), (G2 _ _ _ E2) as (_ & _ & H2).
    destruct (R1 C m r a m1 E1 Hs) as (r1 & Er1 & Hr1); [auto|done|].
    destruct (R2 C m1 r1 b m' E2) as (r2 & Er2 & Hr2); [congruence|done|done|].
    exists r2. by rewrite (M_bind_eq _ _ _ _ _ Er1).
Qed.

(** What an access records. *)
Lemma access_u64_recorded m i v m' : access_u64 i m = Some (v, m') ->
  v = content m i /\ same_memory m m' /\ is_saving_checkpoints m' = is_saving_checkpoints m /\
  (forall ck, checkpoint m = Some ck -> checkpoint m' = Some (or_insert i (content m i) ck)).
Proof.
  intros E. assert (Hi : i < num_doublewords m).
  { destruct (Z.lt_ge_cases i (num_doublewords m)); [done|]. by rewrite access_u64_out in E. }
  destruct (access_u64_spec m i Hi) as (m2 & E2 & Hs). rewrite E in E2. injection E2 as -> <-.
  split; [done|]. split; [done|]. unfold access_u64 in E. destruct (_ <=? _); [done|].
  injection E as <-. unfold is_saving_checkpoints. cbn [checkpoint].
  split; [by destruct (checkpoint m)|]. by intros ck ->.
Qed.

Lemma lookup_or_insert (i v j : Z) ck :
  is_Some (or_insert i v ck !! j) <-> j = i \/ is_Some (ck !! j).
Proof.
  unfold or_insert. destruct (ck !! i) eqn:E.
  - split; [auto|]. by intros [->|]; [rewrite E|].
  - destruct (decide (i = j)) as [->|Hj].
    + rewrite lookup_insert_eq. split; [auto|by eexists].
    + rewrite lookup_insert_ne by done. split; [auto|]. by intros [->|].
Qed.

Lemma lookup_or_insert_Some (i v j u : Z) ck :
  or_insert i v ck !! j = Some u -> (j = i /\ u = v /\ ck !! i = None) \/ ck !! j = Some u.
Proof.
  unfold or_insert. destruct (ck !! i) eqn:E; [by right|].
  destruct (decide (i = j)) as [->|Hj].
  - rewrite lookup_insert_eq. intros [= <-]. by left.
  - rewrite lookup_insert_ne by done. by right.
Qed.

Lemma recorded_access m i v m' : access_u64 i m = Some (v, m') -> is_saving_checkpoints m = true ->
  forall j, recorded m' j <-> j = i \/ recorded m j.
Proof.
  intros E Hs j. destruct (access_u64_recorded m i v m' E) as (_ & _ & _ & Hc).
  unfold is_saving_checkpoints in Hs. unfold recorded. destruct (checkpoint m) as [ck|] eqn:Ek; [|done].
  rewrite (Hc ck eq_refl). split.
  - intros (? & [= <-] & H). apply lookup_or_insert in H as [|H]; [by left|right; by exists ck].
  - intros H. eexists. split; [reflexivity|]. apply lookup_or_insert.
    destruct H as [|(? & [= <-] & H)]; auto.
Qed.

Lemma saving_recorded m i : recorded m i -> is_saving_checkpoints m = true.
Proof. unfold is_saving_checkpoints. by intros (ck & -> & _). Qed.

Lemma faithful_access i : faithful (access_u64 i).
Proof.
  split.
  - intros m a m' E. destruct (access_u64_recorded m i a m' E) as (_ & [_ Hcap] & Hs & _).
    split; [done|]. split; [done|]. intros j Hj. apply (recorded_access m i a m' E (saving_recorded _ _ Hj)). by right.
  - intros m0 m a m' E Hs [Ht Hu]. destruct (access_u64_recorded m i a m' E) as (_ & [Hc _] & _ & Hck).
    pose proof (recorded_access m i a m' E Hs) as Hr. unfold is_saving_checkpoints in Hs.
    destruct (checkpoint m) as [ck|] eqn:Ek; [|done]. split.
    + intros ck' j v E' Hj. rewrite (Hck ck eq_refl) in E'. injection E' as <-.
      apply lookup_or_insert_Some in Hj as [(-> & -> & Hn)|Hj]; [|by eapply Ht].
      apply Hu. intros (ck2 & Ek2 & Hj). assert (ck2 = ck) as -> by congruence. rewrite Hn in Hj. by destruct Hj.
    + intros j Hj. rewrite <- Hc. apply Hu. intros H. apply Hj, Hr. by right.
  - intros C m r a m' E Hs HC [Hcr Hn].
    destruct (access_u64_recorded m i a m' E) as (-> & [Hc Hcap] & _ & _).
    pose proof (recorded_access m i _ m' E Hs i) as Hr.
    assert (Hi : i < num_doublewords m).
    { destruct (Z.lt_ge_cases i (num_doublewords m)); [done|]. by rewrite access_u64_out in E. }
    destruct (access_u64_spec r i) as (r' & E' & [Hc' Hcap']); [by rewrite Hn|].
    rewrite E', Hcr by (apply HC, Hr; by left). exists r'. split; [done|]. split; [|congruence].
    intros j Hj. rewrite <- Hc', <- Hc. by apply Hcr.
Qed.

Lemma faithful_assign i v : faithful (assign_u64 i v).
Proof.
  unfold assign_u64.
  set (put := fun self => Some (tt, {| memory := <[i := v]> (memory self);
    num_doublewords := num_doublewords self; checkpoint := checkpoint self |})).
  assert (Hput : forall m m', put m = Some (tt, m') ->
    checkpoint m' = checkpoint m /\ num_doublewords m' = num_doublewords m /\
    forall k, content m' k = if decide (k = i) then v else content m k).
  { intros m m' [= <-]. split; [done|]. split; [done|]. intros k. unfold content. cbn [memory].
    case_decide as Hk; [by rewrite Hk, lookup_insert_eq|by rewrite lookup_insert_ne]. }
  destruct (faithful_access i) as [G T R]. split.
  - intros m [] m' (a & m1 & E1 & E2)%M_bind_Some. destruct (Hput _ _ E2) as (Hk & Hcap & _).
    destruct (G _ _ _ E1) as (Hn & Hs & Hr). split; [congruence|]. split.
    + rewrite <- Hs. unfold is_saving_checkpoints. by rewrite Hk.
    + intros j Hj. destruct (Hr j Hj) as (ck & Ek & Hck). exists ck. by rewrite Hk.
  - intros m0 m [] m' (a & m1 & E1 & E2)%M_bind_Some Hs Ht. destruct (Hput _ _ E2) as (Hk & _ & Hc).
    pose proof (recorded_access m i a m1 E1 Hs i) as Hi. destruct (T _ _ _ _ E1 Hs Ht) as [Hi1 Hu]. split.
    + intros ck j w. rewrite Hk. apply Hi1.
    + intros j Hj. assert (Hj' : ~ recorded m1 j) by (intros (ck & Ek & H); apply Hj; exists ck; by rewrite Hk).
      rewrite Hc. case_decide as E; [|by apply Hu]. subst j. destruct Hj'. apply Hi. by left.
  - intros C m r [] m' (a & m1 & E1 & E2)%M_bind_Some Hs HC Hr. destruct (Hput _ _ E2) as (Hk & Hn & Hc).
    destruct (R C m r a m1 E1 Hs) as (r1 & Er & [Hcr Hnr]); [|done|].
    { intros j (ck & Ek & Hj). apply HC. exists ck. by rewrite Hk. }
    rewrite (M_bind_eq _ _ _ _ _ Er). eexists. split; [reflexivity|].
    destruct (Hput r1 _ eq_refl) as (_ & Hn' & Hc'). split; [|congruence].
    intros j Hj. rewrite Hc', Hc. case_decide; [done|by apply Hcr].
Qed.

Create HintDb faithful.
#[export] Hint Resolve faithful_ret faithful_access faithful_assign : faithful.
Ltac faithful := cbv zeta; repeat first [solve [auto with faithful] | apply faithful_bind; [|intros ?] | case_match].

Lemma faithful_read_byte a : faithful (read_byte a).
Proof. unfold read_byte. faithful. Qed.
#[export] Hint Resolve faithful_read_byte : faithful.
Lemma faithful_read_bytes a n : faithful (read_bytes a n).
Proof.
  unfold read_bytes. generalize 0%nat, 0%Z. induction n as [|n IH]; intros i d; cbn [read_bytes_loop]; faithful.
Qed.
Lemma faithful_write_masked a k v : faithful (write_masked a k v).
Proof. unfold write_masked. faithful. Qed.
#[export] Hint Resolve faithful_read_bytes faithful_write_masked : faithful.
Lemma faithful_write_bytes a v n : faithful (write_bytes a v n).
Proof.
  unfold write_bytes. generalize 0%nat. induction n as [|n IH]; intros i; cbn [write_bytes_loop];
    unfold write_byte; faithful.
Qed.
Lemma faithful_read_word a : faithful (read_word a).
Proof. unfold read_word. faithful. Qed.
#[export] Hint Resolve faithful_write_bytes faithful_read_word : faithful.
Lemma faithful_write_word a v : faithful (write_word a v).
Proof. unfold write_word. faithful. Qed.
#[export] Hint Resolve faithful_write_word : faithful.

Lemma faithful_run_access op : faithful (run_access op).
Proof.
  destruct op as [[] a|[] a v]; cbn [run_access]; unfold write_byte, read_halfword, read_doubleword,
    write_halfword, write_doubleword; faithful.
Qed.
Lemma faithful_run_accesses ops : faithful (run_accesses ops).
Proof. induction ops as [|op ops IH]; cbn [run_accesses]; [apply faithful_ret|]. pose proof (faithful_run_access op). faithful. Qed.

(** ** Properties *)

Definition memory_of (ds : gmap Z Z) (n : Z) : MemoryData :=
  {| memory := ds; num_doublewords := n; checkpoint := None |}.

Lemma memory_of_wf ds n : map_Forall (fun _ v => in_u 64 v) ds -> 0 <= n < 2 ^ 60 -> mem_wf (memory_of ds n).
Proof.
  intros Hd Hn. split; [|done]. intros i. unfold content. cbn [memory memory_of].
  destruct (ds !! i) eqn:E; [by apply (Hd i)|done].
Qed.

(** C38: the memory is an array of bits.  When the eight bytes from the address
    are in the memory every read, of 8 to 64
    bits and at any alignment, returns the bits at its address and changes
    nothing; every write replaces exactly those bits by its value. *)
Theorem memory_is_bit_array m a v : mem_wf m -> 0 <= a -> in_memory m (a + 7) ->
  (reads (read_byte a) m (bits_at m (8 * a) 8) /\ reads (read_halfword a) m (bits_at m (8 * a) 16) /\
   reads (read_word a) m (bits_at m (8 * a) 32) /\ reads (read_doubleword a) m (bits_at m (8 * a) 64)) /\
  (in_u 8 v -> writes (write_byte a v) m (8 * a) 8 v) /\
  (in_u 16 v -> writes (write_halfword a v) m (8 * a) 16 v) /\
  (in_u 32 v -> writes (write_word a v) m (8 * a) 32 v) /\
  (in_u 64 v -> writes (write_doubleword a v) m (8 * a) 64 v).
Proof.
  intros Hm Ha Hi. pose proof (fun b (H : 0 <= b <= a + 7) => proj1 (in_memory_le m b _ Hm Hi H)) as Hb.
  repeat split; intros; auto using read_byte_bits, read_halfword_bits, read_word_bits, read_doubleword_bits,
    write_byte_wrote, write_halfword_wrote, write_word_wrote, write_doubleword_wrote with lia.
  all: first [apply read_byte_bits | apply read_halfword_bits | apply read_word_bits
    | apply write_byte_wrote | apply write_halfword_wrote | apply write_word_wrote]; try done; apply Hb; lia.
Qed.

(** C39: replay.  A chunk of accesses that starts with a fresh checkpoint
    returns, run again on the memory the checkpoint saved, the same values. *)
Theorem checkpoint_replay ops m0 vs m1 saved m2 :
  checkpoint m0 = Some ∅ -> run_accesses ops m0 = Some (vs, m1) -> save_checkpoint m1 = Some (saved, m2) ->
  exists saved', run_accesses ops saved = Some (vs, saved').
Proof.
  intros H0 Hrun Hsave. destruct (faithful_run_accesses ops) as [G T R].
  assert (Hs : is_saving_checkpoints m0 = true) by (unfold is_saving_checkpoints; by rewrite H0).
  assert (Hfresh : forall i, ~ recorded m0 i).
  { intros i (ck & Ek & Hi). rewrite H0 in Ek. injection Ek as <-. rewrite lookup_empty in Hi. by destruct Hi. }
  destruct (T m0 m0 vs m1 Hrun Hs) as [Hi Hu].
  { split; [|done]. intros ck i v Ek Hv. destruct (Hfresh i). exists ck. by rewrite Hv. }
  unfold save_checkpoint in Hsave. destruct (checkpoint m1) as [ck|] eqn:Ek; [|done].
  injection Hsave as <- _. destruct (G m0 vs m1 Hrun) as (Hcap & _ & _).
  destruct (R (recorded m1) m0 {| memory := ck; num_doublewords := num_doublewords m1; checkpoint := None |} vs m1
    Hrun Hs) as (r' & Er & _); [done| |by exists r'].
  split; [|done]. intros i (ck' & Ek' & [v Hv]). assert (ck' = ck) as -> by congruence.
  unfold content at 1. cbn [memory]. rewrite Hv. by apply (Hi ck i).
Qed.

Definition example_memory : MemoryData := memory_of {[0 := 0x1122334455667788; 1 := 0x99aabbccddeeff00]} 16.
Lemma example_memory_wf : mem_wf example_memory.
Proof. apply memory_of_wf; [|done]. apply (bool_decide_eq_true_1 _). vm_compute. reflexivity. Qed.

(** A doubleword read across two stored ones, at an odd address. *)
Lemma memory_is_bit_array_witness :
  reads (read_doubleword 3) example_memory (bits_at example_memory 24 64) /\
  bits_at example_memory 24 64 = 0xeeff001122334455 /\
  writes (write_byte 3 0xab) example_memory 24 8 0xab.
Proof.
  destruct (memory_is_bit_array example_memory 3 0xab example_memory_wf) as ((_ & _ & _ & Hr) & Hw & _).
  - discriminate.
  - split; [discriminate|reflexivity].
  - split; [exact Hr|]. split; [vm_compute; reflexivity|]. apply Hw. split; [discriminate|reflexivity].
Defined.

Definition example_chunk : list Access := [Read W16 2; Write W32 4 7; Read W64 1; Write W8 9 1; Read W32 8].
Lemma checkpoint_replay_witness :
  exists vs saved saved', run_accesses example_chunk saved = Some (vs, saved') /\
    vs = [0x5566; 0; 0x7556677; 0; 0xddee0100].
Proof.
  destruct (run_accesses example_chunk (start_saving_checkpoints example_memory)) as [[vs m1]|] eqn:E;
    [|vm_compute in E; discriminate E].
  destruct (save_checkpoint m1) as [[saved m2]|] eqn:Es.
  - destruct (checkpoint_replay example_chunk (start_saving_checkpoints example_memory) vs m1 saved m2 eq_refl E Es)
      as (saved' & H).
    exists vs, saved, saved'. split; [exact H|]. vm_compute in E. injection E as <- _. vm_compute. reflexivity.
  - exfalso. vm_compute in E. injection E as _ <-. vm_compute in Es. discriminate Es.
Defined.
