(* ===== verification/Device.v ===== *)
(** * Device: the input/output device and the memory layout

    Models [common/src/jolt_device.rs]: [MemoryConfig], the layout
    [MemoryLayout::new] computes from it with checked arithmetic ([None] is a
    panic) and the byte accesses of [JoltDevice].  Addresses are [u64]; a
    [Vec<u8>] is a list of bytes. *)
From S2P Require Import Prelude.

(** common/src/constants.rs *)
Definition RAM_START_ADDRESS : Z := 0x80000000.
Definition STACK_CANARY_SIZE : Z := 128.
Definition DEFAULT_HEAP_SIZE : Z := 1024 * 1024 * 32.
Definition DEFAULT_STACK_SIZE : Z := 65536.
Definition DEFAULT_MAX_TRUSTED_ADVICE_SIZE : Z := 4096.
Definition DEFAULT_MAX_UNTRUSTED_ADVICE_SIZE : Z := 4096.
Definition DEFAULT_MAX_INPUT_SIZE : Z := 4096.
Definition DEFAULT_MAX_OUTPUT_SIZE : Z := 4096.

Record MemoryConfig := {
  cfg_max_input_size : Z;
  cfg_max_trusted_advice_size : Z;
  cfg_max_untrusted_advice_size : Z;
  cfg_max_output_size : Z;
  cfg_stack_size : Z;
  cfg_heap_size : Z;
  cfg_program_size : option Z
}.
Definition MemoryConfig_default : MemoryConfig :=
  {| cfg_max_input_size := DEFAULT_MAX_INPUT_SIZE;
     cfg_max_trusted_advice_size := DEFAULT_MAX_TRUSTED_ADVICE_SIZE;
     cfg_max_untrusted_advice_size := DEFAULT_MAX_UNTRUSTED_ADVICE_SIZE;
     cfg_max_output_size := DEFAULT_MAX_OUTPUT_SIZE;
     cfg_stack_size := DEFAULT_STACK_SIZE; cfg_heap_size := DEFAULT_HEAP_SIZE;
     cfg_program_size := None |}.

Record MemoryLayout := {
  program_size : Z;
  max_trusted_advice_size : Z;
  trusted_advice_start : Z;
  trusted_advice_end : Z;
  max_untrusted_advice_size : Z;
  untrusted_advice_start : Z;
  untrusted_advice_end : Z;
  max_input_size : Z;
  max_output_size : Z;
  input_start : Z;
  input_end : Z;
  output_start : Z;
  output_end : Z;
  stack_size : Z;
  stack_end : Z;
  heap_size : Z;
  heap_end : Z;
  panic : Z;
  termination : Z;
  io_end : Z
}.

Definition checked_add_u64 (a b : Z) : option Z := if a + b <? 2 ^ 64 then Some (a + b) else None.
Definition checked_sub_u64 (a b : Z) : option Z := if b <=? a then Some (a - b) else None.
Definition checked_mul_u64 (a b : Z) : option Z := if a * b <? 2 ^ 64 then Some (a * b) else None.

Definition align_up (val align : Z) : option Z :=
  if align =? 0 then Some val
  else
    let rem := val mod align in
    if rem =? 0 then Some val else checked_add_u64 val (align - rem).


(** The advice regions, the larger at the lower address. *)
Definition advice_regions (io_bytes trusted untrusted : Z) : option (Z * Z * Z * Z) :=
  if untrusted <=? trusted then
    trusted_start ← checked_sub_u64 RAM_START_ADDRESS io_bytes;
    trusted_end ← checked_add_u64 trusted_start trusted;
    let untrusted_start := trusted_end in
    untrusted_end ← checked_add_u64 untrusted_start untrusted;
    Some (trusted_start, trusted_end, untrusted_start, untrusted_end)
  else
    untrusted_start ← checked_sub_u64 RAM_START_ADDRESS io_bytes;
    untrusted_end ← checked_add_u64 untrusted_start untrusted;
    let trusted_start := untrusted_end in
    trusted_end ← checked_add_u64 trusted_start trusted;
    Some (trusted_start, trusted_end, untrusted_start, untrusted_end).

Definition MemoryLayout_new (config : MemoryConfig) : option MemoryLayout :=
  program_size ← cfg_program_size config;
  max_trusted_advice_size ← align_up (cfg_max_trusted_advice_size config) 8;
  max_untrusted_advice_size ← align_up (cfg_max_untrusted_advice_size config) 8;
  max_input_size ← align_up (cfg_max_input_size config) 8;
  max_output_size ← align_up (cfg_max_output_size config) 8;
  stack_size ← align_up (cfg_stack_size config) 8;
  heap_size ← align_up (cfg_heap_size config) 8;
  if negb (is_power_of_two max_trusted_advice_size || (max_trusted_advice_size =? 0)) then None
  else if negb (is_power_of_two max_untrusted_advice_size || (max_untrusted_advice_size =? 0)) then None
  else
    s1 ← checked_add_u64 max_input_size max_trusted_advice_size;
    s2 ← checked_add_u64 s1 max_untrusted_advice_size;
    s3 ← checked_add_u64 s2 max_output_size;
    io_region_bytes ← checked_add_u64 s3 16;
    let io_region_words := next_power_of_two_u64 (io_region_bytes / 8) in
    io_bytes ← checked_mul_u64 io_region_words 8;
    '(trusted_start, trusted_end, untrusted_start, untrusted_end) ←
      advice_regions io_bytes max_trusted_advice_size max_untrusted_advice_size;
    let input_start := Z.max untrusted_end trusted_end in
    input_end ← checked_add_u64 input_start max_input_size;
    let output_start := input_end in
    output_end ← checked_add_u64 output_start max_output_size;
    let panic := output_end in
    termination ← checked_add_u64 panic 8;
    io_end ← checked_add_u64 termination 8;
    stack_end ← checked_add_u64 RAM_START_ADDRESS program_size;
    st ← checked_add_u64 stack_end STACK_CANARY_SIZE;
    stack_start ← checked_add_u64 st stack_size;
    heap_end ← checked_add_u64 stack_start heap_size;
    Some {| program_size := program_size;
            max_trusted_advice_size := max_trusted_advice_size;
            trusted_advice_start := trusted_start; trusted_advice_end := trusted_end;
            max_untrusted_advice_size := max_untrusted_advice_size;
            untrusted_advice_start := untrusted_start; untrusted_advice_end := untrusted_end;
            max_input_size := max_input_size; max_output_size := max_output_size;
            input_start := input_start; input_end := input_end;
            output_start := output_start; output_end := output_end;
            stack_size := stack_size; stack_end := stack_end;
            heap_size := heap_size; heap_end := heap_end;
            panic := panic; termination := termination; io_end := io_end |}.

Definition get_lowest_address (self : MemoryLayout) : Z :=
  Z.min (trusted_advice_start self) (untrusted_advice_start self).
Definition get_total_memory_size (self : MemoryLayout) : Z := as_u64 (heap_end self - RAM_START_ADDRESS).

Record JoltDevice := {
  inputs : list Z;
  trusted_advice : list Z;
  untrusted_advice : list Z;
  outputs : list Z;
  dev_panic : bool;
  memory_layout : MemoryLayout
}.

Definition JoltDevice_new (config : MemoryConfig) : option JoltDevice :=
  layout ← MemoryLayout_new config;
  Some {| inputs := []; trusted_advice := []; untrusted_advice := []; outputs := [];
          dev_panic := false; memory_layout := layout |}.

Section Device.
Context (self : JoltDevice).
Abbreviation layout := (memory_layout self).

Definition is_input (address : Z) : bool := (input_start layout <=? address) && (address <? input_end layout).
Definition is_trusted_advice (address : Z) : bool :=
  (trusted_advice_start layout <=? address) && (address <? trusted_advice_end layout).
Definition is_untrusted_advice (address : Z) : bool :=
  (untrusted_advice_start layout <=? address) && (address <? untrusted_advice_end layout).
Definition is_output (address : Z) : bool :=
  (output_start layout <=? address) && (address <? termination layout).
Definition is_panic (address : Z) : bool := (panic layout <=? address) && (address <? termination layout).
Definition is_termination (address : Z) : bool :=
  (termination layout <=? address) && (address <? io_end layout).

Definition convert_read_address (address : Z) : Z := as_u64 (address - input_start layout).
Definition convert_trusted_advice_read_address (address : Z) : Z :=
  as_u64 (address - trusted_advice_start layout).
Definition convert_untrusted_advice_read_address (address : Z) : Z :=
  as_u64 (address - untrusted_advice_start layout).
Definition convert_write_address (address : Z) : Z := as_u64 (address - output_start layout).

(** [if v.len() <= i { 0 } else { v[i] }] *)
Definition byte_or_0 (v : list Z) (i : Z) : Z :=
  if Z.of_nat (length v) <=? i then 0 else default 0 (v !! Z.to_nat i).

Definition device_load (address : Z) : option Z :=
  if is_panic address then Some (b2z (dev_panic self))
  else if is_termination address then Some 0
  else if is_input address then Some (byte_or_0 (inputs self) (convert_read_address address))
  else if is_trusted_advice address then
    Some (byte_or_0 (trusted_advice self) (convert_trusted_advice_read_address address))
  else if is_untrusted_advice address then
    Some (byte_or_0 (untrusted_advice self) (convert_untrusted_advice_read_address address))
  else if is_output address then Some (byte_or_0 (outputs self) (convert_write_address address))
  else if address <=? RAM_START_ADDRESS - 8 then Some 0 else None.

Definition with_outputs (v : list Z) : JoltDevice :=
  {| inputs := inputs self; trusted_advice := trusted_advice self;
     untrusted_advice := untrusted_advice self; outputs := v;
     dev_panic := dev_panic self; memory_layout := layout |}.
Definition set_panic : JoltDevice :=
  {| inputs := inputs self; trusted_advice := trusted_advice self;
     untrusted_advice := untrusted_advice self; outputs := outputs self;
     dev_panic := true; memory_layout := layout |}.
(** [Vec::resize(n, 0)] to a larger length. *)
Definition resize (v : list Z) (n : nat) : list Z := v ++ replicate (n - length v) 0.

Definition device_store (address value : Z) : option JoltDevice :=
  if address =? panic layout then Some set_panic
  else if is_panic address || is_termination address then Some self
  else
    let internal_address := convert_write_address address in
    let max_output_size := as_u64 (output_end layout - output_start layout) in
    if negb (internal_address <? max_output_size) then None
    else
      let i := Z.to_nat internal_address in
      let v := if Z.of_nat (length (outputs self)) <=? internal_address
               then resize (outputs self) (i + 1) else outputs self in
      Some (with_outputs (<[i := value]> v)).

Definition size : nat := (length (inputs self) + length (outputs self))%nat.
End Device.

(** ** The layout *)

Lemma checked_add_Some a b r : checked_add_u64 a b = Some r -> r = a + b /\ a + b < 2 ^ 64.
Proof. unfold checked_add_u64. destruct (Z.ltb_spec (a + b) (2 ^ 64)); [|done]. by intros [= <-]. Qed.
Lemma checked_sub_Some a b r : checked_sub_u64 a b = Some r -> r = a - b /\ b <= a.
Proof. unfold checked_sub_u64. destruct (Z.leb_spec b a); [|done]. by intros [= <-]. Qed.
Lemma checked_mul_Some a b r : checked_mul_u64 a b = Some r -> r = a * b /\ a * b < 2 ^ 64.
Proof. unfold checked_mul_u64. destruct (Z.ltb_spec (a * b) (2 ^ 64)); [|done]. by intros [= <-]. Qed.

Lemma align_up_Some v r : 0 <= v -> align_up v 8 = Some r -> v <= r < v + 8 /\ r mod 8 = 0.
Proof.
  intros Hv. unfold align_up. change (8 =? 0) with false. cbv iota zeta.
  pose proof (Z.mod_pos_bound v 8 ltac:(lia)). pose proof (Z.div_mod v 8 ltac:(lia)).
  destruct (Z.eqb_spec (v mod 8) 0) as [E|E].
  - intros [= <-]. lia.
  - intros [-> _]%checked_add_Some. split; [lia|].
    replace (v + (8 - v mod 8)) with ((v / 8 + 1) * 8) by lia. apply Z.mod_mul. lia.
Qed.

Lemma next_power_of_two_u64_ge v : v <= 2 ^ 62 -> v <= next_power_of_two_u64 v.
Proof.
  intros Hv. unfold next_power_of_two_u64. destruct (Z.leb_spec v 1); [lia|].
  pose proof (Z.log2_up_spec v ltac:(lia)) as [_ Hl].
  assert (Z.log2_up v <= 62) by (apply Z.log2_up_le_pow2; lia).
  rewrite wrapu_small; [done|]. pose proof (Z.log2_up_nonneg v).
  split; [apply Z.pow_nonneg; lia|]. apply Z.pow_lt_mono_r; lia.
Qed.

(** A configuration of [u64]s. *)
Definition config_wf (c : MemoryConfig) : Prop :=
  0 <= cfg_max_input_size c /\ 0 <= cfg_max_trusted_advice_size c /\ 0 <= cfg_max_untrusted_advice_size c /\
  0 <= cfg_max_output_size c /\ 0 <= cfg_stack_size c /\ 0 <= cfg_heap_size c /\
  (forall p, cfg_program_size c = Some p -> 0 <= p).

(** The regions in order, and the alignment of their boundaries. *)
Record layout_wf (l : MemoryLayout) : Prop := {
  lw_lowest : 0 <= get_lowest_address l;
  lw_advice : (trusted_advice_start l <= trusted_advice_end l <= untrusted_advice_start l /\
               untrusted_advice_start l <= untrusted_advice_end l <= input_start l) \/
              (untrusted_advice_start l <= untrusted_advice_end l <= trusted_advice_start l /\
               trusted_advice_start l <= trusted_advice_end l <= input_start l);
  lw_io : input_start l <= input_end l <= output_start l /\ output_start l <= output_end l <= panic l /\
          termination l = panic l + 8 /\ io_end l = termination l + 8 /\ io_end l <= RAM_START_ADDRESS;
  lw_ram : RAM_START_ADDRESS <= stack_end l /\
           heap_end l = stack_end l + STACK_CANARY_SIZE + stack_size l + heap_size l /\
           0 <= stack_size l /\ 0 <= heap_size l /\ heap_end l < 2 ^ 64;
  lw_aligned : Forall (fun a => a mod 8 = 0)
    [trusted_advice_start l; trusted_advice_end l; untrusted_advice_start l; untrusted_advice_end l;
     input_start l; input_end l; output_start l; output_end l; panic l; termination l; io_end l;
     stack_size l; heap_size l]
}.

Lemma mod8_add a b : a mod 8 = 0 -> b mod 8 = 0 -> (a + b) mod 8 = 0.
Proof. intros Ha Hb. by rewrite Z.add_mod, Ha, Hb by lia. Qed.
Lemma mod8_sub a b : a mod 8 = 0 -> b mod 8 = 0 -> (a - b) mod 8 = 0.
Proof. intros Ha Hb. by rewrite Zminus_mod, Ha, Hb by lia. Qed.

(** The advice regions lie in the [io_bytes] below the RAM, contiguous. *)
Lemma advice_regions_Some io t u ts te us ue :
  0 <= t -> 0 <= u -> io mod 8 = 0 -> t mod 8 = 0 -> u mod 8 = 0 ->
  advice_regions io t u = Some (ts, te, us, ue) ->
  io <= RAM_START_ADDRESS /\ Z.min ts us = RAM_START_ADDRESS - io /\
  Z.max ue te = RAM_START_ADDRESS - io + t + u /\
  ((te = us /\ ts <= te /\ us <= ue) \/ (ue = ts /\ us <= ue /\ ts <= te)) /\
  Forall (fun a => a mod 8 = 0) [ts; te; us; ue].
Proof.
  intros Ht Hu Hi Ht8 Hu8. assert (Hr : RAM_START_ADDRESS mod 8 = 0) by done. unfold advice_regions. destruct (Z.leb_spec u t); intros H0;
    apply bind_Some in H0 as (a & [-> Hle]%checked_sub_Some & H0);
    apply bind_Some in H0 as (b & [-> _]%checked_add_Some & H0);
    apply bind_Some in H0 as (c & [-> _]%checked_add_Some & H0); injection H0 as <- <- <- <-;
    (split; [done|]; split; [lia|]; split; [lia|]; split; [lia|]);
    repeat constructor; auto using mod8_add, mod8_sub.
Qed.

Ltac invert_checked :=
  repeat match goal with
  | H : (_ ≫= _) = Some _ |- _ =>
      let a := fresh "a" in let Ha := fresh "Ha" in apply bind_Some in H as (a & Ha & H)
  | H : checked_add_u64 _ _ = Some _ |- _ => apply checked_add_Some in H as [-> ?]
  | H : checked_mul_u64 _ _ = Some _ |- _ => apply checked_mul_Some in H as [-> ?]
  | H : (if ?b then None else _) = Some _ |- _ => destruct b; [discriminate H|]
  end.

(** C40: the layout's regions.  A layout [MemoryLayout::new] accepts has its
    advice, input, output, panic and termination regions in order, without
    overlap, at multiples of 8 below the RAM, which ends without overflow. *)
Theorem layout_regions config l : config_wf config -> MemoryLayout_new config = Some l -> layout_wf l.
Proof.
  intros (Hi & Ht & Hu & Ho & Hs & Hh & Hp) H. unfold MemoryLayout_new in H.
  apply bind_Some in H as (ps & Eps & H). specialize (Hp ps Eps).
  apply bind_Some in H as (mt & [Ht1 Ht2]%align_up_Some & H); [|done].
  apply bind_Some in H as (mu & [Hu1 Hu2]%align_up_Some & H); [|done].
  apply bind_Some in H as (mi & [Hi1 Hi2]%align_up_Some & H); [|done].
  apply bind_Some in H as (mo & [Ho1 Ho2]%align_up_Some & H); [|done].
  apply bind_Some in H as (ss & [Hs1 Hs2]%align_up_Some & H); [|done].
  apply bind_Some in H as (hs & [Hh1 Hh2]%align_up_Some & H); [|done].
  invert_checked. destruct a4 as [[[ts te] us] ue]. invert_checked. injection H as <-.
  set (words := next_power_of_two_u64 _) in *.
  assert (Hwords : mi + mt + mu + mo + 16 <= words * 8).
  { set (s := mi + mt + mu + mo + 16) in *. pose proof (next_power_of_two_u64_ge (s / 8)) as Hw. fold words in Hw.
    assert (Hs8 : s mod 8 = 0) by (unfold s; auto 6 using mod8_add).
    pose proof (Z.div_mod s 8 ltac:(lia)). assert (s / 8 <= 2 ^ 62) by (apply Z.div_le_upper_bound; lia). lia. }
  destruct (advice_regions_Some (words * 8) mt mu ts te us ue ltac:(lia) ltac:(lia) ltac:(by apply Z.mod_mul) Ht2 Hu2 Ha4)
    as (Hio & Hmin & Hmax & Hadv & Hal).
  unfold RAM_START_ADDRESS, STACK_CANARY_SIZE in *.
  split; unfold get_lowest_address; cbn [trusted_advice_start trusted_advice_end untrusted_advice_start
    untrusted_advice_end input_start input_end output_start output_end panic termination io_end stack_end
    stack_size heap_size heap_end]; [lia|lia|unfold RAM_START_ADDRESS; lia|unfold RAM_START_ADDRESS, STACK_CANARY_SIZE; lia|].
  apply list.Forall_cons in Hal as [A1 Hal]. apply list.Forall_cons in Hal as [A2 Hal].
  apply list.Forall_cons in Hal as [A3 Hal]. apply list.Forall_cons in Hal as [A4 _].
  assert (A5 : Z.max ue te mod 8 = 0) by (destruct (Z.max_spec ue te) as [[_ ->]|[_ ->]]; done).
  repeat apply list.Forall_cons_2; auto 6 using mod8_add.
Qed.

Definition example_config : MemoryConfig :=
  {| cfg_max_input_size := 4096; cfg_max_trusted_advice_size := 0; cfg_max_untrusted_advice_size := 64;
     cfg_max_output_size := 100; cfg_stack_size := 65536; cfg_heap_size := 1024; cfg_program_size := Some 1020 |}.
Definition example_layout : MemoryLayout :=
  Eval vm_compute in
    match MemoryLayout_new example_config with
    | Some l => l
    | None => Build_MemoryLayout 0 0 0 0 0 0 0 0 0 0 0 0 0 0 0 0 0 0 0 0
    end.
Lemma layout_regions_witness : layout_wf example_layout.
Proof.
  apply (layout_regions example_config).
  - repeat split; try discriminate. intros p [= <-]. discriminate.
  - vm_compute. reflexivity.
Defined.
