(* ===== verification/Mmu.v ===== *)
(** * Mmu: addresses, memory and device behind them

    Models [tracer/src/emulator/mmu.rs]: the whole [Mmu], its validity checks,
    its raw accesses to the RAM and the device, the page-table translation and
    the loads and stores with the RAM access they record for the trace.  A
    panic is [None]; a trap is the left of a sum. *)
From S2P Require Import Prelude Bits AdviceTape Memory Device.
Open Scope Z_scope.
Open Scope st_scope.

(** emulator/cpu.rs *)
Inductive Xlen := Bit32 | Bit64.
#[export] Instance Xlen_eq_dec : EqDecision Xlen.
Proof. solve_decision. Defined.

Inductive PrivilegeMode := User | Supervisor | Reserved | Machine.
Definition get_privilege_mode (encoding : Z) : option PrivilegeMode :=
  if encoding =? 0 then Some User
  else if encoding =? 1 then Some Supervisor
  else if encoding =? 3 then Some Machine
  else None.

Inductive TrapType :=
| InstructionAddressMisaligned | InstructionAccessFault | IllegalInstruction | Breakpoint
| LoadAddressMisaligned | LoadAccessFault | StoreAddressMisaligned | StoreAccessFault
| EnvironmentCallFromUMode | EnvironmentCallFromSMode | EnvironmentCallFromMMode
| InstructionPageFault | LoadPageFault | StorePageFault
| UserSoftwareInterrupt | SupervisorSoftwareInterrupt | MachineSoftwareInterrupt
| UserTimerInterrupt | SupervisorTimerInterrupt | MachineTimerInterrupt
| UserExternalInterrupt | SupervisorExternalInterrupt | MachineExternalInterrupt.
Record Trap := { trap_type : TrapType; value : Z }.

(** instruction/mod.rs *)
Record RAMRead := { read_address : Z; read_value : Z }.
Record RAMWrite := { write_address : Z; pre_value : Z; post_value : Z }.

Inductive AddressingMode := AddressingNone | SV32 | SV39 | SV48.
Inductive MemoryAccessType := Execute | ReadAccess | WriteAccess.

Definition DRAM_BASE : Z := RAM_START_ADDRESS.

Record Mmu := {
  clock : Z;
  mmu_xlen : Xlen;
  ppn : Z;
  addressing_mode : AddressingMode;
  privilege_mode : PrivilegeMode;
  mem : MemoryData;
  jolt_device : option JoltDevice;
  mstatus : Z
}.

Definition Mmu_new (xl : Xlen) : Mmu :=
  {| clock := 0; mmu_xlen := xl; ppn := 0; addressing_mode := AddressingNone; privilege_mode := Machine;
     mem := MemoryData_empty; jolt_device := None; mstatus := 0 |}.

Definition set_mem (s : Mmu) (v : MemoryData) : Mmu :=
  {| clock := clock s; mmu_xlen := mmu_xlen s; ppn := ppn s; addressing_mode := addressing_mode s;
     privilege_mode := privilege_mode s; mem := v; jolt_device := jolt_device s; mstatus := mstatus s |}.
Definition set_device (s : Mmu) (v : option JoltDevice) : Mmu :=
  {| clock := clock s; mmu_xlen := mmu_xlen s; ppn := ppn s; addressing_mode := addressing_mode s;
     privilege_mode := privilege_mode s; mem := mem s; jolt_device := v; mstatus := mstatus s |}.
Definition mmu_update_xlen (s : Mmu) (v : Xlen) : Mmu :=
  {| clock := clock s; mmu_xlen := v; ppn := ppn s; addressing_mode := addressing_mode s;
     privilege_mode := privilege_mode s; mem := mem s; jolt_device := jolt_device s; mstatus := mstatus s |}.
Definition mmu_tick (s : Mmu) : Mmu :=
  {| clock := as_u64 (clock s + 1); mmu_xlen := mmu_xlen s; ppn := ppn s; addressing_mode := addressing_mode s;
     privilege_mode := privilege_mode s; mem := mem s; jolt_device := jolt_device s; mstatus := mstatus s |}.
Definition update_addressing_mode (s : Mmu) (v : AddressingMode) : Mmu :=
  {| clock := clock s; mmu_xlen := mmu_xlen s; ppn := ppn s; addressing_mode := v;
     privilege_mode := privilege_mode s; mem := mem s; jolt_device := jolt_device s; mstatus := mstatus s |}.
Definition update_privilege_mode (s : Mmu) (v : PrivilegeMode) : Mmu :=
  {| clock := clock s; mmu_xlen := mmu_xlen s; ppn := ppn s; addressing_mode := addressing_mode s;
     privilege_mode := v; mem := mem s; jolt_device := jolt_device s; mstatus := mstatus s |}.
Definition update_mstatus (s : Mmu) (v : Z) : Mmu :=
  {| clock := clock s; mmu_xlen := mmu_xlen s; ppn := ppn s; addressing_mode := addressing_mode s;
     privilege_mode := privilege_mode s; mem := mem s; jolt_device := jolt_device s; mstatus := v |}.
Definition update_ppn (s : Mmu) (v : Z) : Mmu :=
  {| clock := clock s; mmu_xlen := mmu_xlen s; ppn := v; addressing_mode := addressing_mode s;
     privilege_mode := privilege_mode s; mem := mem s; jolt_device := jolt_device s; mstatus := mstatus s |}.
Definition init_memory (s : Mmu) (capacity : Z) : Mmu := set_mem s (init_with_capacity (mem s) capacity).
Definition save_state_with_empty_memory (s : Mmu) : Mmu := set_mem s MemoryData_empty.

(** An operation on the memory, and one that reads or replaces the device. *)
Definition on_memory {A} (f : St MemoryData A) : St Mmu A := fun s =>
  match f (mem s) with Some (a, m) => Some (a, set_mem s m) | None => None end.
Definition device_read (address : Z) : St Mmu Z := fun s =>
  d ← jolt_device s; v ← device_load d address; Some (v, s).
Definition device_write (address v : Z) : St Mmu unit := fun s =>
  d ← jolt_device s; d' ← device_store d address v; Some (tt, set_device s (Some d')).

(** [MemoryWrapper]: offsets from the base of the RAM. *)
Definition to_dram (p_address : Z) : Z := as_u64 (p_address - DRAM_BASE).
Definition ram_read_byte (a : Z) : St Mmu Z := on_memory (read_byte (to_dram a)).
Definition ram_read_halfword (a : Z) : St Mmu Z := on_memory (read_halfword (to_dram a)).
Definition ram_read_word (a : Z) : St Mmu Z := on_memory (read_word (to_dram a)).
Definition ram_read_doubleword (a : Z) : St Mmu Z := on_memory (read_doubleword (to_dram a)).
Definition ram_write_byte (a v : Z) : St Mmu unit := on_memory (write_byte (to_dram a) v).
Definition ram_write_halfword (a v : Z) : St Mmu unit := on_memory (write_halfword (to_dram a) v).
Definition ram_write_word (a v : Z) : St Mmu unit := on_memory (write_word (to_dram a) v).
Definition ram_write_doubleword (a v : Z) : St Mmu unit := on_memory (write_doubleword (to_dram a) v).
Definition ram_validate_address (s : Mmu) (a : Z) : bool := validate_address (mem s) (to_dram a).

Definition get_effective_address (s : Mmu) (address : Z) : Z :=
  match mmu_xlen s with Bit32 => Z.land address 0xffffffff | Bit64 => address end.

(** The checks of [assert_effective_address] against a device's layout. *)
Definition valid_io (d : JoltDevice) (ea : Z) (is_write : bool) : bool :=
  let layout := memory_layout d in
  (ea <=? io_end layout) &&
  ((get_lowest_address layout <=? ea) || (ea <=? RAM_START_ADDRESS - 8)) &&
  (if is_write then is_output d ea || is_panic d ea || is_termination d ea
   else is_input d ea || is_trusted_advice d ea || is_untrusted_advice d ea || is_output d ea ||
        is_panic d ea || is_termination d ea || (ea <=? RAM_START_ADDRESS - 8)).
Definition valid_ram (d : JoltDevice) (ea : Z) (is_write : bool) : bool :=
  let layout := memory_layout d in
  if is_write then
    ((ea <=? stack_end layout) || (as_u64 (stack_end layout + STACK_CANARY_SIZE) <? ea)) &&
    (ea <? heap_end layout)
  else ea <? heap_end layout.
Definition valid_address (s : Mmu) (ea : Z) (is_write : bool) : bool :=
  match jolt_device s with
  | None => true
  | Some d => if ea <? DRAM_BASE then valid_io d ea is_write else valid_ram d ea is_write
  end.
Definition assert_effective_address (ea : Z) (is_write : bool) : St Mmu unit := fun s =>
  if valid_address s ea is_write then Some (tt, s) else None.
Definition assert_effective_load_address (ea : Z) : St Mmu unit := assert_effective_address ea false.
Definition assert_effective_store_address (ea : Z) : St Mmu unit := assert_effective_address ea true.

(** ** Raw accesses *)

Definition in_range (a lo hi : Z) : bool := (lo <=? a) && (a <=? hi).

Definition load_raw (p_address : Z) : St Mmu Z :=
  let! s := M_get in
  let ea := get_effective_address s p_address in
  assert_effective_load_address ea ;;!
  if DRAM_BASE <=? ea then ram_read_byte ea
  else if in_range ea 0x00001020 0x00001fff || in_range ea 0x02000000 0x0200ffff ||
          in_range ea 0x0C000000 0x0fffffff || in_range ea 0x10000000 0x100000ff ||
          in_range ea 0x10001000 0x10001FFF then M_panic
  else
    match jolt_device s with
    | Some d =>
        if is_input d ea || is_trusted_advice d ea || is_untrusted_advice d ea || is_output d ea ||
           is_panic d ea || is_termination d ea || (ea <=? RAM_START_ADDRESS - 8)
        then device_read ea else M_panic
    | None => M_panic
    end.

(** [data |= (self.load_raw(ea.wrapping_add(i)) as T) << (i * 8)] for [n] bytes of a
    [w]-bit [T]. *)
Fixpoint load_raw_loop (w ea : Z) (i n : nat) (data : Z) : St Mmu Z :=
  match n with
  | O => M_ret data
  | S n =>
      let! b := load_raw (as_u64 (ea + Z.of_nat i)) in
      load_raw_loop w ea (S i) n (Z.lor data (wrapu w (Z.shiftl b (Z.of_nat i * 8))))
  end.

(** The fast path of a raw access of [k + 1] bytes. *)
Definition within_ram (ea k : Z) : bool := (DRAM_BASE <=? ea) && (ea <? as_u64 (ea + k)).

Definition load_halfword_raw (p_address : Z) : St Mmu Z :=
  let! s := M_get in
  let ea := get_effective_address s p_address in
  if within_ram ea 1 then assert_effective_load_address ea ;;! ram_read_halfword ea
  else load_raw_loop 16 ea 0 2 0.
Definition load_word_raw (p_address : Z) : St Mmu Z :=
  let! s := M_get in
  let ea := get_effective_address s p_address in
  if within_ram ea 3 then assert_effective_load_address ea ;;! ram_read_word ea
  else load_raw_loop 32 ea 0 4 0.
Definition load_doubleword_raw (p_address : Z) : St Mmu Z :=
  let! s := M_get in
  let ea := get_effective_address s p_address in
  if within_ram ea 7 then assert_effective_load_address ea ;;! ram_read_doubleword ea
  else load_raw_loop 64 ea 0 8 0.

Definition store_raw (p_address v : Z) : St Mmu unit :=
  let! s := M_get in
  let ea := get_effective_address s p_address in
  if DRAM_BASE <=? ea then assert_effective_store_address ea ;;! ram_write_byte ea v
  else if in_range ea 0x02000000 0x0200ffff || in_range ea 0x0c000000 0x0fffffff ||
          in_range ea 0x10000000 0x100000ff || in_range ea 0x10001000 0x10001FFF then M_panic
  else assert_effective_store_address ea ;;! device_write ea v.

Fixpoint store_raw_loop (ea v : Z) (i n : nat) : St Mmu unit :=
  match n with
  | O => M_ret tt
  | S n =>
      store_raw (as_u64 (ea + Z.of_nat i)) (as_u8 (Z.land (Z.shiftr v (Z.of_nat i * 8)) 0xff)) ;;!
      store_raw_loop ea v (S i) n
  end.

Definition store_halfword_raw (p_address v : Z) : St Mmu unit :=
  let! s := M_get in
  let ea := get_effective_address s p_address in
  if within_ram ea 1 then assert_effective_store_address ea ;;! ram_write_halfword ea v
  else store_raw_loop ea v 0 2.
Definition store_word_raw (p_address v : Z) : St Mmu unit :=
  let! s := M_get in
  let ea := get_effective_address s p_address in
  if within_ram ea 3 then assert_effective_store_address ea ;;! ram_write_word ea v
  else store_raw_loop ea v 0 4.
Definition store_doubleword_raw (p_address v : Z) : St Mmu unit :=
  let! s := M_get in
  let ea := get_effective_address s p_address in
  if within_ram ea 7 then assert_effective_store_address ea ;;! ram_write_doubleword ea v
  else store_raw_loop ea v 0 8.

(** Bytecode is written below the stack's end. *)
Definition setup_bytecode (p_address v : Z) : St Mmu unit :=
  let! s := M_get in
  let ea := get_effective_address s p_address in
  if negb (DRAM_BASE <=? ea) then M_panic
  else
    match jolt_device s with
    | Some d => if ea <=? stack_end (memory_layout d) then ram_write_byte ea v else M_panic
    | None => ram_write_byte ea v
    end.

(** ** Address translation *)

Definition bit (v k : Z) : Z := Z.land (Z.shiftr v k) 1.

(** The physical address of a leaf page table entry at [level]; the inner
    [None] is [Err(())]. *)
Definition leaf_address (mode : AddressingMode) (level : nat) (leaf_ppn : Z) (ppns vpns : list Z) (offset : Z)
    : option (option Z) :=
  p0 ← ppns !! 0%nat; p1 ← ppns !! 1%nat; p2 ← ppns !! 2%nat; v0 ← vpns !! 0%nat;
  match mode with
  | SV32 =>
      match level with
      | 1%nat =>
          Some (if negb (p0 =? 0) then None
                else Some (Z.lor (Z.lor (Z.shiftl p1 22) (Z.shiftl v0 12)) offset))
      | O => Some (Some (Z.lor (Z.shiftl leaf_ppn 12) offset))
      | _ => None
      end
  | _ =>
      match level with
      | 2%nat =>
          v1 ← vpns !! 1%nat;
          Some (if negb (p1 =? 0) || negb (p0 =? 0) then None
                else Some (Z.lor (Z.lor (Z.lor (Z.shiftl p2 30) (Z.shiftl v1 21)) (Z.shiftl v0 12)) offset))
      | 1%nat =>
          Some (if negb (p0 =? 0) then None
                else Some (Z.lor (Z.lor (Z.lor (Z.shiftl p2 30) (Z.shiftl p1 21)) (Z.shiftl v0 12)) offset))
      | O => Some (Some (Z.lor (Z.shiftl leaf_ppn 12) offset))
      | _ => None
      end
  end.

Fixpoint traverse_page (v_address : Z) (level : nat) (parent_ppn : Z) (vpns : list Z)
    (access_type : MemoryAccessType) : St Mmu (option Z) :=
  let! s := M_get in
  let mode := addressing_mode s in
  let ptesize := match mode with SV32 => 4 | _ => 8 end in
  let! vpn := M_lift (vpns !! level) in
  let pte_address := as_u64 (as_u64 (parent_ppn * 4096) + as_u64 (vpn * ptesize)) in
  let! pte := match mode with SV32 => load_word_raw pte_address | _ => load_doubleword_raw pte_address end in
  let leaf_ppn := match mode with SV32 => Z.land (Z.shiftr pte 10) 0x3fffff
                             | _ => Z.land (Z.shiftr pte 10) 0xfffffffffff end in
  let! ppns := M_lift (match mode with
    | SV32 => Some [Z.land (Z.shiftr pte 10) 0x3ff; Z.land (Z.shiftr pte 20) 0xfff; 0]
    | SV39 => Some [Z.land (Z.shiftr pte 10) 0x1ff; Z.land (Z.shiftr pte 19) 0x1ff;
                    Z.land (Z.shiftr pte 28) 0x3ffffff]
    | _ => None
    end) in
  let d := bit pte 7 in
  let a := bit pte 6 in
  let x := bit pte 3 in
  let w := bit pte 2 in
  let r := bit pte 1 in
  let v := Z.land pte 1 in
  if (v =? 0) || ((r =? 0) && (w =? 1)) then M_ret None
  else if (r =? 0) && (x =? 0) then
    match level with O => M_ret None | S level => traverse_page v_address level leaf_ppn vpns access_type end
  else
    (if (a =? 0) || match access_type with WriteAccess => d =? 0 | _ => false end then
       let new_pte := Z.lor (Z.lor pte (Z.shiftl 1 6))
                            (match access_type with WriteAccess => Z.shiftl 1 7 | _ => 0 end) in
       match mode with
       | SV32 => store_word_raw pte_address (as_u32 new_pte)
       | _ => store_doubleword_raw pte_address new_pte
       end
     else M_ret tt) ;;!
    if match access_type with Execute => x =? 0 | ReadAccess => r =? 0 | WriteAccess => w =? 0 end
    then M_ret None
    else M_lift (leaf_address mode level leaf_ppn ppns vpns (Z.land v_address 0xfff)).

(** The virtual page numbers and the root level of each mode. *)
Definition page_walk (mode : AddressingMode) (address : Z) (access_type : MemoryAccessType)
    : St Mmu (option Z) :=
  let! s := M_get in
  match mode with
  | SV32 =>
      let vpns := [Z.land (Z.shiftr address 12) 0x3ff; Z.land (Z.shiftr address 22) 0x3ff] in
      traverse_page address 1 (ppn s) vpns access_type
  | _ =>
      let vpns := [Z.land (Z.shiftr address 12) 0x1ff; Z.land (Z.shiftr address 21) 0x1ff;
                   Z.land (Z.shiftr address 30) 0x1ff] in
      traverse_page address 2 (ppn s) vpns access_type
  end.

(** The recursive call is made in machine mode, with the privilege mode of
    [mstatus.MPP], which is not machine mode: two levels are enough. *)
Fixpoint translate_fuel (fuel : nat) (v_address : Z) (access_type : MemoryAccessType)
    : St Mmu (option Z) :=
  let! s := M_get in
  let address := get_effective_address s v_address in
  match addressing_mode s with
  | AddressingNone => M_ret (Some address)
  | SV48 => M_panic
  | SV32 | SV39 =>
      match privilege_mode s with
      | Machine =>
          match access_type with
          | Execute => M_ret (Some address)
          | _ =>
              if bit (mstatus s) 17 =? 0 then M_ret (Some address)
              else
                let! mode := M_lift (get_privilege_mode (Z.land (Z.shiftr (mstatus s) 11) 3)) in
                match mode, fuel with
                | Machine, _ => M_ret (Some address)
                | _, O => M_panic
                | _, S fuel =>
                    (fun s => Some (tt, update_privilege_mode s mode)) ;;!
                    let! result := translate_fuel fuel v_address access_type in
                    (fun s => Some (tt, update_privilege_mode s Machine)) ;;!
                    M_ret result
                end
          end
      | User | Supervisor => page_walk (addressing_mode s) address access_type
      | Reserved => M_ret (Some address)
      end
  end.
Definition translate_address : Z -> MemoryAccessType -> St Mmu (option Z) := translate_fuel 1.

(** ** Loads *)

Definition xlen_bytes (s : Mmu) : nat := match mmu_xlen s with Bit32 => 4%nat | Bit64 => 8%nat end.
Definition word_of (ea : Z) : Z := as_u64 (Z.shiftl (Z.shiftr ea 2) 2).

(** The [n] bytes from [address], by a reader of bytes; missing bytes are 0. *)
Fixpoint value_bytes (read : Z -> St Mmu Z) (address : Z) (i n : nat) : St Mmu (list Z) :=
  match n with
  | O => M_ret []
  | S n =>
      let! b := read (as_u64 (address + Z.of_nat i)) in
      let! bs := value_bytes read address (S i) n in
      M_ret (b :: bs)
  end.

(** The recorded value of the bytes from [address], in the RAM or the device
    as [ea] decides. *)
Definition recorded_value (ea address : Z) : St Mmu Z :=
  let! s := M_get in
  let! bs := value_bytes (if ea <? DRAM_BASE then device_read else ram_read_byte) address 0 (xlen_bytes s) in
  M_ret (le_value bs).

Definition trace_load (ea : Z) : St Mmu RAMRead :=
  let word_address := word_of ea in
  let! v := recorded_value word_address word_address in
  M_ret {| read_address := word_address; read_value := v |}.

Definition load (v_address : Z) : St Mmu (Trap + Z * RAMRead) :=
  let! s := M_get in
  let ea := get_effective_address s v_address in
  let! memory_read := trace_load ea in
  let! p := translate_address ea ReadAccess in
  match p with
  | Some p_address => let! v := load_raw p_address in M_ret (inr (v, memory_read))
  | None => M_ret (inl {| trap_type := LoadPageFault; value := v_address |})
  end.

(** The slow path, byte by byte. *)
Fixpoint load_bytes_loop (v_address : Z) (i n : nat) (data : Z) : St Mmu (Trap + Z) :=
  match n with
  | O => M_ret (inr data)
  | S n =>
      let! r := load (as_u64 (v_address + Z.of_nat i)) in
      match r with
      | inr (byte, _) => load_bytes_loop v_address (S i) n (Z.lor data (as_u64 (Z.shiftl byte (Z.of_nat i * 8))))
      | inl e => M_ret (inl e)
      end
  end.

Definition load_width_raw (width : nat) (p_address : Z) : St Mmu Z :=
  match width with
  | 1%nat => load_raw p_address
  | 2%nat => load_halfword_raw p_address
  | 4%nat => load_word_raw p_address
  | 8%nat => load_doubleword_raw p_address
  | _ => M_panic
  end.
Definition load_bytes (v_address : Z) (width : nat) : St Mmu (Trap + Z) :=
  if Z.land v_address 0xfff <=? 0x1000 - Z.of_nat width then
    let! p := translate_address v_address ReadAccess in
    match p with
    | Some p_address => let! v := load_width_raw width p_address in M_ret (inr v)
    | None => M_ret (inl {| trap_type := LoadPageFault; value := v_address |})
    end
  else load_bytes_loop v_address 0 width 0.

(** A load of [width] bytes asserts its alignment. *)
Definition load_aligned (width : nat) (v_address : Z) : St Mmu (Trap + Z * RAMRead) :=
  let! s := M_get in
  let ea := get_effective_address s v_address in
  if negb (ea mod Z.of_nat width =? 0) then M_panic
  else
    let! memory_read := trace_load ea in
    let! r := load_bytes v_address width in
    M_ret (match r with inr data => inr (wrapu (8 * Z.of_nat width) data, memory_read) | inl e => inl e end).
Definition load_halfword : Z -> St Mmu (Trap + Z * RAMRead) := load_aligned 2.
Definition load_word : Z -> St Mmu (Trap + Z * RAMRead) := load_aligned 4.
Definition load_doubleword : Z -> St Mmu (Trap + Z * RAMRead) := load_aligned 8.

(** Instruction fetches. *)
Definition fetch (v_address : Z) : St Mmu (Trap + Z) :=
  let! p := translate_address v_address Execute in
  match p with
  | Some p_address => let! v := load_raw p_address in M_ret (inr v)
  | None => M_ret (inl {| trap_type := InstructionPageFault; value := v_address |})
  end.
Fixpoint fetch_loop (v_address : Z) (i n : nat) (data : Z) : St Mmu (Trap + Z) :=
  match n with
  | O => M_ret (inr data)
  | S n =>
      let! r := fetch (as_u64 (v_address + Z.of_nat i)) in
      match r with
      | inr byte => fetch_loop v_address (S i) n (Z.lor data (as_u32 (Z.shiftl byte (Z.of_nat i * 8))))
      | inl e => M_ret (inl e)
      end
  end.
Definition fetch_word (v_address : Z) : St Mmu (Trap + Z) :=
  if Z.land v_address 0xfff <=? 0x1000 - 4 then
    let! s := M_get in
    let ea := get_effective_address s v_address in
    let! p := translate_address ea Execute in
    match p with
    | Some p_address => let! v := load_word_raw p_address in M_ret (inr v)
    | None => M_ret (inl {| trap_type := InstructionPageFault; value := ea |})
    end
  else fetch_loop v_address 0 4 0.

(** ** Stores *)

Definition trace_store_byte (ea v : Z) : St Mmu RAMWrite :=
  assert_effective_store_address ea ;;!
  let word_address := word_of ea in
  let! pre := recorded_value ea word_address in
  let post :=
    match Z.to_nat (ea mod 4) with
    | 0%nat => Z.lor v (Z.land pre 0xffffff00)
    | 1%nat => Z.lor (as_u64 (Z.shiftl v 8)) (Z.land pre 0xffff00ff)
    | 2%nat => Z.lor (as_u64 (Z.shiftl v 16)) (Z.land pre 0xff00ffff)
    | _ => Z.lor (as_u64 (Z.shiftl v 24)) (Z.land pre 0x00ffffff)
    end in
  M_ret {| write_address := word_address; pre_value := pre; post_value := post |}.

Definition trace_store_halfword (ea v : Z) : St Mmu RAMWrite :=
  assert_effective_store_address ea ;;!
  let word_address := word_of ea in
  let! pre := recorded_value ea word_address in
  let! post := M_lift
    (if ea mod 4 =? 2 then Some (Z.lor (as_u64 (Z.shiftl v 16)) (Z.land pre 0xffff))
     else if is_multiple_of ea 4 then Some (Z.lor v (Z.land pre 0xffff0000))
     else None) in
  M_ret {| write_address := word_address; pre_value := pre; post_value := post |}.

Definition trace_store (ea v : Z) : St Mmu RAMWrite :=
  assert_effective_store_address ea ;;!
  let! pre := recorded_value ea ea in
  M_ret {| write_address := ea; pre_value := pre; post_value := v |}.

Definition store (v_address v : Z) : St Mmu (Trap + RAMWrite) :=
  let! s := M_get in
  let ea := get_effective_address s v_address in
  let! memory_write := trace_store_byte ea v in
  let! p := translate_address v_address WriteAccess in
  match p with
  | Some p_address => store_raw p_address v ;;! M_ret (inr memory_write)
  | None => M_ret (inl {| trap_type := StorePageFault; value := v_address |})
  end.

Fixpoint store_bytes_loop (v_address v : Z) (i n : nat) : St Mmu (Trap + unit) :=
  match n with
  | O => M_ret (inr tt)
  | S n =>
      let! r := store (as_u64 (v_address + Z.of_nat i)) (as_u8 (Z.land (Z.shiftr v (Z.of_nat i * 8)) 0xff)) in
      match r with inr _ => store_bytes_loop v_address v (S i) n | inl e => M_ret (inl e) end
  end.

Definition store_width_raw (width : nat) (p_address v : Z) : St Mmu unit :=
  match width with
  | 1%nat => store_raw p_address (as_u8 v)
  | 2%nat => store_halfword_raw p_address (as_u16 v)
  | 4%nat => store_word_raw p_address (as_u32 v)
  | 8%nat => store_doubleword_raw p_address v
  | _ => M_panic
  end.
Definition store_bytes (v_address v : Z) (width : nat) : St Mmu (Trap + unit) :=
  if Z.land v_address 0xfff <=? 0x1000 - Z.of_nat width then
    let! p := translate_address v_address WriteAccess in
    match p with
    | Some p_address => store_width_raw width p_address v ;;! M_ret (inr tt)
    | None => M_ret (inl {| trap_type := StorePageFault; value := v_address |})
    end
  else store_bytes_loop v_address v 0 width.

Definition store_aligned (width : nat) (trace_store : Z -> Z -> St Mmu RAMWrite) (v_address v : Z)
    : St Mmu (Trap + RAMWrite) :=
  let! s := M_get in
  let ea := get_effective_address s v_address in
  if negb (ea mod Z.of_nat width =? 0) then M_panic
  else
    let! memory_write := trace_store ea v in
    let! r := store_bytes v_address v width in
    M_ret (match r with inr _ => inr memory_write | inl e => inl e end).
Definition store_halfword : Z -> Z -> St Mmu (Trap + RAMWrite) := store_aligned 2 trace_store_halfword.
Definition store_word : Z -> Z -> St Mmu (Trap + RAMWrite) := store_aligned 4 trace_store.
Definition store_doubleword : Z -> Z -> St Mmu (Trap + RAMWrite) := store_aligned 8 trace_store.
