(* ===== verification/MmuSpec.v ===== *)
(** * MmuSpec: the address space behind the memory management unit

    On the 64-bit machine without page translation the RAM and the device are
    one address space of bytes ([peek]).  A load, whatever path it takes,
    returns the bits at its address and changes nothing; a store in the RAM or
    the output region replaces exactly those bits.  Two states are the same
    space when they agree on every byte, whatever accesses they recorded and
    however long their output vectors are. *)
From S2P Require Import Prelude Bits AdviceTape Memory Device Mmu.
Open Scope Z_scope.
Open Scope st_scope.

(** The byte at an address. *)
Definition peek (s : Mmu) (a : Z) : Z :=
  if a <? DRAM_BASE then
    match jolt_device s with Some d => default 0 (device_load d a) | None => 0 end
  else bits_at (mem s) (8 * (a - DRAM_BASE)) 8.

(** Bit [n] of the space, and a value that is its [w] bits from byte [a] on. *)
Definition abit (s : Mmu) (n : Z) : bool := Z.testbit (peek s (n / 8)) (n mod 8).
Definition holds_bits (s : Mmu) (a w v : Z) : Prop :=
  forall j, 0 <= j -> Z.testbit v j = (j <? w) && abit s (8 * a + j).

Record device_wf (d : JoltDevice) : Prop := {
  wf_layout : layout_wf (memory_layout d);
  wf_lowest : 0x2000 <= get_lowest_address (memory_layout d);
  wf_inputs : Forall (in_u 8) (inputs d);
  wf_trusted : Forall (in_u 8) (trusted_advice d);
  wf_untrusted : Forall (in_u 8) (untrusted_advice d);
  wf_outputs : Forall (in_u 8) (outputs d)
}.

Record mmu_wf (s : Mmu) : Prop := {
  wf_mem : mem_wf (mem s);
  wf_device : forall d, jolt_device s = Some d -> device_wf d;
  wf_xlen : mmu_xlen s = Bit64;
  wf_translation : addressing_mode s = AddressingNone
}.

(** Devices that differ in the zeros at the end of their outputs. *)
Record same_device (d d' : JoltDevice) : Prop := {
  same_inputs : inputs d = inputs d';
  same_trusted : trusted_advice d = trusted_advice d';
  same_untrusted : untrusted_advice d = untrusted_advice d';
  same_panic : dev_panic d = dev_panic d';
  same_layout : memory_layout d = memory_layout d';
  same_outputs : forall i, 0 <= i -> byte_or_0 (outputs d) i = byte_or_0 (outputs d') i
}.
#[export] Instance same_device_equiv : Equivalence same_device.
Proof.
  split.
  - by split.
  - intros d d' []. split; auto using eq_sym.
  - intros d1 d2 d3 [A1 A2 A3 A4 A5 A6] [B1 B2 B3 B4 B5 B6]. split; try congruence.
    intros i Hi. by rewrite A6, B6.
Qed.

Record same_space (s s' : Mmu) : Prop := {
  same_mem : same_memory (mem s) (mem s');
  same_dev : option_Forall2 same_device (jolt_device s) (jolt_device s');
  same_registers : clock s = clock s' /\ mmu_xlen s = mmu_xlen s' /\ ppn s = ppn s' /\
    addressing_mode s = addressing_mode s' /\ privilege_mode s = privilege_mode s' /\ mstatus s = mstatus s'
}.
#[export] Instance same_space_equiv : Equivalence same_space.
Proof.
  split.
  - intros s. split; [reflexivity| |done]. destruct (jolt_device s); by constructor.
  - intros s s' [H1 H2 H3]. split; [by symmetry| |intuition]. destruct H2; by constructor.
  - intros s1 s2 s3 [A1 A2 A3] [B1 B2 B3]. split; [by transitivity (mem s2)| |intuition congruence].
    destruct A2 as [d1 d2 H|]; inversion B2; subst; constructor. by transitivity d2.
Qed.

Lemma device_load_same d d' a : same_device d d' -> device_load d a = device_load d' a.
Proof.
  intros [H1 H2 H3 H4 H5 H6]. unfold device_load, is_panic, is_termination, is_input, is_trusted_advice,
    is_untrusted_advice, is_output, convert_read_address, convert_trusted_advice_read_address,
    convert_untrusted_advice_read_address, convert_write_address.
  rewrite H1, H2, H3, H4, H5, H6; [done|]. apply wrapu_range. lia.
Qed.

#[export] Instance peek_proper : Proper (same_space ==> eq ==> eq) peek.
Proof.
  intros s s' [H1 H2 _] a _ <-. unfold peek. rewrite H1. destruct (_ <? _); [|done].
  destruct H2; [|done]. by rewrite (device_load_same x y).
Qed.
#[export] Instance abit_proper : Proper (same_space ==> eq ==> eq) abit.
Proof. intros s s' H n _ <-. unfold abit. by rewrite H. Qed.
#[export] Instance holds_bits_proper : Proper (same_space ==> eq ==> eq ==> eq ==> iff) holds_bits.
Proof. intros s s' H a _ <- w _ <- v _ <-. unfold holds_bits. by setoid_rewrite H. Qed.

Lemma holds_bits_unique s a w v v' : holds_bits s a w v -> holds_bits s a w v' -> v = v'.
Proof. intros H H'. apply Z.bits_inj'. intros j Hj. by rewrite H, H'. Qed.

Lemma byte_or_0_range v i : Forall (in_u 8) v -> in_u 8 (byte_or_0 v i).
Proof.
  intros Hv. unfold byte_or_0. destruct (_ <=? _); [done|]. destruct (v !! _) eqn:E; [|done].
  rewrite list.Forall_forall in Hv. apply Hv. by eapply list_elem_of_lookup_2.
Qed.

Lemma device_load_range d a v : device_wf d -> device_load d a = Some v -> in_u 8 v.
Proof.
  intros [_ _ H1 H2 H3 H4]. unfold device_load. repeat case_match; intros [= <-];
    try (by apply byte_or_0_range); try done. unfold in_u. pose proof (b2z_range (dev_panic d)). lia.
Qed.

Lemma peek_range s a : mmu_wf s -> in_u 8 (peek s a).
Proof.
  intros [H1 H2 _ _]. unfold peek. destruct (_ <? _); [|by apply bits_at_range].
  destruct (jolt_device s) as [d|]; [|done]. destruct (device_load d a) eqn:E; [|done].
  eapply device_load_range; [by apply H2|done].
Qed.

Lemma holds_byte s a : mmu_wf s -> holds_bits s a 8 (peek s a).
Proof.
  intros Hs j Hj. unfold abit. destruct (Z.ltb_spec j 8); cbn [andb].
  - f_equal; [f_equal; apply (Z.div_unique _ _ _ j); lia|apply (Z.mod_unique _ _ a); lia].
  - apply (testbit_out 8); [by apply peek_range|lia].
Qed.

(** The RAM's part of the space. *)
Lemma holds_ram s a w : mmu_wf s -> DRAM_BASE <= a -> 0 <= w <= 64 ->
  holds_bits s a w (bits_at (mem s) (8 * (a - DRAM_BASE)) w).
Proof.
  intros Hs Ha Hw j Hj. rewrite testbit_bits_at by (first [apply Hs|lia]).
  destruct (Z.ltb_spec j w); [|done]. cbn [andb]. unfold abit, peek.
  assert (a <= (8 * a + j) / 8) by (apply Z.div_le_lower_bound; lia).
  destruct (Z.ltb_spec ((8 * a + j) / 8) DRAM_BASE); [lia|].
  pose proof (Z.mod_pos_bound (8 * a + j) 8 ltac:(lia)). pose proof (Z.div_mod (8 * a + j) 8 ltac:(lia)).
  rewrite testbit_bits_at by (first [apply Hs|lia]).
  destruct (Z.ltb_spec ((8 * a + j) mod 8) 8); [|lia]. cbn [andb]. f_equal. lia.
Qed.

Lemma device_wf_same d d' : same_device d d' -> device_wf d -> device_wf d'.
Proof.
  intros [A1 A2 A3 A4 A5 A6] [B1 B1' B2 B3 B4 B5]. split; try congruence. apply Forall_lookup. intros i v Hv.
  pose proof (lookup_lt_Some _ _ _ Hv).
  replace v with (byte_or_0 (outputs d') (Z.of_nat i)).
  - rewrite <- A6 by lia. by apply byte_or_0_range.
  - unfold byte_or_0. destruct (Z.leb_spec (Z.of_nat (length (outputs d'))) (Z.of_nat i)); [lia|].
    by rewrite Nat2Z.id, Hv.
Qed.
Lemma mmu_wf_same s s' : same_space s s' -> mmu_wf s -> mmu_wf s'.
Proof.
  intros [H1 H2 (_ & H3 & _ & H4 & _)] [W1 W2 W3 W4]. split; [by eapply mem_wf_same| |congruence..].
  intros d' Hd'. rewrite Hd' in H2. inversion H2 as [d ? Hd E|]; subst. eapply device_wf_same; [done|]. by apply W2.
Qed.

(** ** Computations that only read

    [f] returns [v] and leaves the space alone, or panics. *)
Definition reads_if {A} (b : bool) (f : St Mmu A) (s : Mmu) (v : A) : Prop :=
  if b then exists s', f s = Some (v, s') /\ same_space s s' else f s = None.

Lemma reads_if_ret {A} s (v : A) : reads_if true (M_ret v) s v.
Proof. exists s. split; [done|reflexivity]. Qed.
Lemma reads_if_bind {A B} b1 b2 (f : St Mmu A) (k : A -> St Mmu B) s v w :
  reads_if b1 f s v -> (b1 = true -> forall s', same_space s s' -> reads_if b2 (k v) s' w) ->
  reads_if (b1 && b2) (M_bind f k) s w.
Proof.
  unfold reads_if. destruct b1; cbn [andb]; [|by intros H _; unfold M_bind; rewrite H].
  intros (s1 & E & Hs) Hk. rewrite (M_bind_eq _ _ _ _ _ E). specialize (Hk eq_refl s1 Hs).
  destruct b2; [|done]. destruct Hk as (s2 & E2 & Hs2). exists s2. split; [done|]. by transitivity s1.
Qed.
Lemma reads_if_get {B} b (k : Mmu -> St Mmu B) s w :
  reads_if b (k s) s w -> reads_if b (M_bind M_get k) s w.
Proof. done. Qed.
Lemma reads_if_inv {A} b (f : St Mmu A) s v a s' :
  reads_if b f s v -> f s = Some (a, s') -> b = true /\ a = v /\ same_space s s'.
Proof. unfold reads_if. destruct b; [|congruence]. intros (s2 & E & Hs) E'. by simplify_eq. Qed.
Lemma reads_if_true {A} b (f : St Mmu A) s v : reads_if b f s v -> b = true ->
  exists s', f s = Some (v, s') /\ same_space s s'.
Proof. unfold reads_if. by intros H ->. Qed.

(** The addresses of unsupported devices. *)
Definition unsupported (a : Z) : bool :=
  in_range a 0x00001020 0x00001fff || in_range a 0x02000000 0x0200ffff ||
  in_range a 0x0C000000 0x0fffffff || in_range a 0x10000000 0x100000ff || in_range a 0x10001000 0x10001FFF.
(** The regions a byte of the device is loaded from. *)
Definition device_address (d : JoltDevice) (a : Z) : bool :=
  is_input d a || is_trusted_advice d a || is_untrusted_advice d a || is_output d a ||
  is_panic d a || is_termination d a || (a <=? RAM_START_ADDRESS - 8).
(** A byte whose value can be recorded, and one that can be loaded. *)
Definition recordable (s : Mmu) (a : Z) : bool :=
  if a <? DRAM_BASE then match jolt_device s with Some d => device_address d a | None => false end
  else (a - DRAM_BASE) / 8 <? num_doublewords (mem s).
Definition readable (s : Mmu) (a : Z) : bool :=
  valid_address s a false && recordable s a && negb ((a <? DRAM_BASE) && unsupported a).

Lemma device_load_some d a : device_load d a = (if device_address d a then Some (default 0 (device_load d a)) else None).
Proof.
  unfold device_load, device_address.
  destruct (is_panic d a), (is_termination d a), (is_input d a), (is_trusted_advice d a),
    (is_untrusted_advice d a), (is_output d a), (a <=? RAM_START_ADDRESS - 8); reflexivity.
Qed.

Lemma recordable_same s s' a : same_space s s' -> recordable s a = recordable s' a.
Proof.
  intros [[_ H1] H2 _]. unfold recordable. rewrite H1. destruct H2 as [d d' H|]; [|done].
  destruct (a <? DRAM_BASE); [|done]. unfold device_address, is_panic, is_termination, is_input,
    is_trusted_advice, is_untrusted_advice, is_output. by rewrite (same_layout _ _ H).
Qed.
Lemma valid_address_same s s' a w : same_space s s' -> valid_address s a w = valid_address s' a w.
Proof.
  intros [_ H2 _]. unfold valid_address. destruct H2 as [d d' H|]; [|done]. unfold valid_io, valid_ram, is_panic,
    is_termination, is_input, is_trusted_advice, is_untrusted_advice, is_output. by rewrite (same_layout _ _ H).
Qed.
Lemma readable_same s s' a : same_space s s' -> readable s a = readable s' a.
Proof. intros H. unfold readable. by rewrite (recordable_same s s' a H), (valid_address_same s s' a false H). Qed.

Lemma to_dram_id a : DRAM_BASE <= a < 2 ^ 64 -> to_dram a = a - DRAM_BASE.
Proof. intros H. apply wrapu_small. unfold in_u. unfold DRAM_BASE, RAM_START_ADDRESS in *. lia. Qed.

Lemma on_memory_reads {A} (f : St MemoryData A) s v : reads f (mem s) v -> reads_if true (on_memory f) s v.
Proof.
  intros (m & E & Hs). unfold reads_if, on_memory. rewrite E. eexists. split; [reflexivity|].
  split; [done| |done]. cbn [jolt_device set_mem]. by destruct (jolt_device s); constructor.
Qed.

(** The byte readers of the trace's records. *)
Lemma ram_read_byte_spec s a : mmu_wf s -> DRAM_BASE <= a < 2 ^ 64 ->
  reads_if (recordable s a) (ram_read_byte a) s (peek s a).
Proof.
  intros Hs Ha. unfold recordable, ram_read_byte, peek. destruct (Z.ltb_spec a DRAM_BASE); [lia|].
  rewrite to_dram_id by done. destruct (Z.ltb_spec ((a - DRAM_BASE) / 8) (num_doublewords (mem s))) as [Hn|Hn].
  - apply on_memory_reads, read_byte_bits; [apply Hs|]. split; [lia|done].
  - unfold reads_if, on_memory, read_byte, M_bind. rewrite access_u64_out; [done|].
    unfold dword_index. by rewrite Z.shiftr_div_pow2 by lia.
Qed.
Lemma device_read_spec s a : a < DRAM_BASE -> reads_if (recordable s a) (device_read a) s (peek s a).
Proof.
  intros Ha. unfold recordable, device_read, peek. destruct (Z.ltb_spec a DRAM_BASE); [|lia].
  unfold reads_if. destruct (jolt_device s) as [d|]; [|done]. cbn [mbind option_bind].
  rewrite (device_load_some d a). destruct (device_address d a); [|done]. exists s. split; [done|reflexivity].
Qed.

Lemma reads_if_assert {B} b ea w (k : St Mmu B) s v :
  reads_if b k s v -> reads_if (valid_address s ea w && b) (assert_effective_address ea w ;;! k) s v.
Proof.
  intros H. unfold reads_if, M_bind, assert_effective_address in *. by destruct (valid_address s ea w).
Qed.

(** A valid byte of the device that is not in an unsupported range is loaded. *)
Lemma load_raw_spec s a : mmu_wf s -> 0 <= a < 2 ^ 64 -> reads_if (readable s a) (load_raw a) s (peek s a).
Proof.
  intros Hs Ha. unfold load_raw. apply reads_if_get. unfold get_effective_address. rewrite (wf_xlen _ Hs). cbv zeta.
  unfold readable. rewrite <- andb_assoc. apply reads_if_assert.
  rewrite Z.ltb_antisym. destruct (Z.leb_spec DRAM_BASE a) as [Hd|Hd]; cbn [negb andb].
  - rewrite andb_true_r. apply ram_read_byte_spec; [done|lia].
  - fold (unsupported a). destruct (unsupported a); cbn [negb andb].
    { by rewrite andb_false_r. }
    rewrite andb_true_r. pose proof (device_read_spec s a Hd) as Hr. revert Hr. unfold recordable.
    destruct (Z.ltb_spec a DRAM_BASE); [|lia]. destruct (jolt_device s) as [d|]; [|done].
    fold (device_address d a). by destruct (device_address d a).
Qed.

(** ** Loads *)

(** Two bytes of one doubleword. *)
Definition same_dword (a b : Z) : Prop := a / 8 = b / 8.
Lemma same_dword_bound a b c : same_dword a b -> c mod 8 = 0 -> (c <=? a) = (c <=? b).
Proof.
  unfold same_dword. intros H Hc. pose proof (Z.div_mod a 8 ltac:(lia)). pose proof (Z.div_mod b 8 ltac:(lia)).
  pose proof (Z.mod_pos_bound a 8 ltac:(lia)). pose proof (Z.mod_pos_bound b 8 ltac:(lia)).
  pose proof (Z.div_mod c 8 ltac:(lia)). apply eq_true_iff_eq. rewrite !Z.leb_le. lia.
Qed.
Lemma same_dword_ltb a b c : same_dword a b -> c mod 8 = 0 -> (a <? c) = (b <? c).
Proof. intros H Hc. by rewrite !Z.ltb_antisym, (same_dword_bound a b c). Qed.

Lemma in_range_dword a b lo hi : same_dword a b -> lo mod 8 = 0 -> (hi + 1) mod 8 = 0 -> in_range a lo hi = in_range b lo hi.
Proof.
  intros H Hl Hh. unfold in_range. rewrite (same_dword_bound a b lo) by done. f_equal.
  pose proof (same_dword_ltb a b (hi + 1) H Hh) as E. apply eq_true_iff_eq. apply eq_iff_eq_true in E.
  rewrite !Z.ltb_lt in E. rewrite !Z.leb_le. lia.
Qed.

(** The widths of an access in bytes. *)
Definition access_width (k : nat) : Prop := (k = 1 \/ k = 2 \/ k = 4 \/ k = 8)%nat.
Lemma aligned_dword k a : access_width k -> a mod Z.of_nat k = 0 -> a mod 8 + Z.of_nat k <= 8.
Proof.
  intros Hk Ha. pose proof (Z.div_mod a 8 ltac:(lia)). pose proof (Z.mod_pos_bound a 8 ltac:(lia)).
  assert (Hk0 : Z.of_nat k <> 0) by (unfold access_width in Hk; lia).
  pose proof (Z.div_mod a (Z.of_nat k) Hk0). destruct Hk as [->|[->|[->| ->]]]; lia.
Qed.
Lemma aligned_same_dword k a i : access_width k -> a mod Z.of_nat k = 0 -> 0 <= i < Z.of_nat k -> same_dword a (a + i).
Proof.
  intros Hk Ha Hi. pose proof (aligned_dword k a Hk Ha). pose proof (Z.mod_pos_bound a 8 ltac:(lia)).
  apply (Z.div_unique _ _ _ (a mod 8 + i)); [lia|]. pose proof (Z.div_mod a 8 ltac:(lia)). lia.
Qed.
Lemma aligned_no_wrap k a i : access_width k -> a mod Z.of_nat k = 0 -> 0 <= a < 2 ^ 64 -> 0 <= i < Z.of_nat k ->
  as_u64 (a + i) = a + i.
Proof.
  intros Hk Hm Ha Hi. pose proof (aligned_dword k a Hk Hm). pose proof (Z.mod_pos_bound a 8 ltac:(lia)).
  pose proof (Z.div_mod a 8 ltac:(lia)). apply wrapu_small. unfold in_u. lia.
Qed.

(** The regions' bounds are multiples of 8: but for the address that ends the
    I/O region, which is accepted alone, doublewords are readable as a whole. *)
Definition not_io_end (s : Mmu) (a : Z) : Prop :=
  forall d, jolt_device s = Some d -> a < DRAM_BASE -> a <> io_end (memory_layout d).
Lemma readable_dword s a b : mmu_wf s -> same_dword a b -> a < DRAM_BASE -> not_io_end s a ->
  readable s a = true -> readable s b = true.
Proof.
  intros Hs Hab Ha He. assert (Hb : b < DRAM_BASE).
  { apply Z.ltb_lt. rewrite <- (same_dword_ltb a b) by done. by apply Z.ltb_lt. }
  unfold readable, recordable, valid_address. destruct (Z.ltb_spec a DRAM_BASE), (Z.ltb_spec b DRAM_BASE); try lia.
  cbn [andb]. pose proof (He : forall d, _ -> _) as He'. destruct (jolt_device s) as [d|] eqn:Ed; [|done].
  specialize (He' d eq_refl Ha). destruct (wf_layout d (wf_device s Hs d Ed)) as [_ L2 L3 _ L5].
  rewrite !list.Forall_cons in L5. destruct L5 as (A1 & A2 & A3 & A4 & A5 & A6 & A7 & A8 & A9 & A10 & A11 & A12 & A13 & _).
  assert (Hr : forall l h, l mod 8 = 0 -> h mod 8 = 0 -> (l <=? a) && (a <? h) = (l <=? b) && (b <? h)).
  { intros l h Hl Hh. by rewrite (same_dword_bound a b l), (same_dword_ltb a b h). }
  assert (Hu : unsupported a = unsupported b).
  { unfold unsupported. by rewrite !(in_range_dword a b). }
  assert (Hlow : get_lowest_address (memory_layout d) mod 8 = 0).
  { unfold get_lowest_address. by destruct (Z.min_spec (trusted_advice_start (memory_layout d))
      (untrusted_advice_start (memory_layout d))) as [[_ ->]|[_ ->]]. }
  unfold valid_io, device_address, is_input, is_trusted_advice, is_untrusted_advice, is_output, is_panic, is_termination.
  rewrite !Hr, Hu by done. rewrite (same_dword_bound a b _ Hab Hlow).
  assert (Hend : (a <=? io_end (memory_layout d)) = true -> (b <=? io_end (memory_layout d)) = true).
  { rewrite !Z.leb_le. intros Hle. assert (a < io_end (memory_layout d)) as Hlt%Z.ltb_lt by lia.
    rewrite (same_dword_ltb a b _ Hab A11) in Hlt. apply Z.ltb_lt in Hlt. lia. }
  destruct (a <=? io_end (memory_layout d)) eqn:Ea; [|done]. rewrite (Hend eq_refl). cbn [andb].
  destruct (Z.leb_spec b (RAM_START_ADDRESS - 8)) as [Hb8|Hb8].
  { rewrite !orb_true_r. cbn [andb]. by rewrite !andb_true_iff; intros [_ ->]. }
  destruct (Z.leb_spec a (RAM_START_ADDRESS - 8)) as [Ha8|Ha8]; [|done]. intros [_ ->]%andb_true_iff.
  apply Z.leb_le in Ea. unfold same_dword in Hab. pose proof (Z.div_mod a 8 ltac:(lia)).
  pose proof (Z.div_mod b 8 ltac:(lia)). pose proof (Z.mod_pos_bound a 8 ltac:(lia)).
  pose proof (Z.mod_pos_bound b 8 ltac:(lia)). unfold RAM_START_ADDRESS in *.
  pose proof (Z.div_mod (io_end (memory_layout d)) 8 ltac:(lia)).
  unfold get_lowest_address.
  destruct (Z.leb_spec (termination (memory_layout d)) b); [|lia].
  destruct (Z.ltb_spec b (io_end (memory_layout d))); [|lia].
  destruct (Z.leb_spec (Z.min (trusted_advice_start (memory_layout d)) (untrusted_advice_start (memory_layout d))) b); [|lia].
  cbn [andb orb]. by rewrite !orb_true_r.
Qed.

Lemma dram_mod k a : access_width k -> (a - DRAM_BASE) mod Z.of_nat k = a mod Z.of_nat k.
Proof. intros Hk. rewrite Zminus_mod. destruct Hk as [->|[->|[->| ->]]]; (rewrite Z.sub_0_r; apply Z.mod_mod; done). Qed.

Definition ram_read (k : nat) (a : Z) : St Mmu Z :=
  match k with
  | 1%nat => ram_read_byte a | 2%nat => ram_read_halfword a | 4%nat => ram_read_word a
  | 8%nat => ram_read_doubleword a | _ => M_panic
  end.
Lemma ram_read_spec s k a : mmu_wf s -> access_width k -> a mod Z.of_nat k = 0 -> DRAM_BASE <= a < 2 ^ 64 ->
  reads_if (recordable s a) (ram_read k a) s (bits_at (mem s) (8 * (a - DRAM_BASE)) (8 * Z.of_nat k)).
Proof.
  intros Hs Hk Hm Ha. pose proof (dram_mod k a Hk) as Hd. rewrite Hm in Hd. unfold recordable.
  destruct (Z.ltb_spec a DRAM_BASE); [lia|].
  pose proof (aligned_same_dword k (a - DRAM_BASE) (Z.of_nat k - 1) Hk Hd ltac:(unfold access_width in Hk; lia)) as Hsd.
  destruct (Z.ltb_spec ((a - DRAM_BASE) / 8) (num_doublewords (mem s))) as [Hn|Hn].
  - assert (Hin : in_memory (mem s) (a - DRAM_BASE + (Z.of_nat k - 1))).
    { split; [unfold access_width in Hk; lia|]. unfold same_dword in Hsd. by rewrite <- Hsd. }
    destruct Hk as [->|[->|[->| ->]]]; cbn [ram_read]; unfold ram_read_byte, ram_read_halfword, ram_read_word,
      ram_read_doubleword; rewrite to_dram_id by done; apply on_memory_reads.
    + apply read_byte_bits; [apply Hs|]. by rewrite Z.add_0_r in Hin.
    + apply read_halfword_bits; [apply Hs|lia|done].
    + apply read_word_bits; [apply Hs|lia|done].
    + apply read_doubleword_bits; [apply Hs|lia|done].
  - assert (Hi : num_doublewords (mem s) <= dword_index (a - DRAM_BASE)).
    { unfold dword_index. by rewrite Z.shiftr_div_pow2 by lia. }
    unfold reads_if. destruct Hk as [->|[->|[->| ->]]]; cbn [ram_read]; unfold ram_read_byte, ram_read_halfword,
      ram_read_word, ram_read_doubleword, on_memory, read_byte, read_halfword, read_word, read_doubleword,
      is_multiple_of; rewrite to_dram_id by done.
    + unfold M_bind. by rewrite access_u64_out.
    + rewrite (Hd : _ mod 2 = 0), Z.eqb_refl. unfold M_bind. by rewrite access_u64_out.
    + rewrite (Hd : _ mod 4 = 0), Z.eqb_refl. unfold M_bind. by rewrite access_u64_out.
    + rewrite (Hd : _ mod 8 = 0), Z.eqb_refl. by rewrite access_u64_out.
Qed.

Lemma holds_bits_S s a n v b : mmu_wf s -> holds_bits s a (8 * Z.of_nat n) v -> b = peek s (a + Z.of_nat n) ->
  holds_bits s a (8 * Z.of_nat (S n)) (Z.lor v (Z.shiftl b (8 * Z.of_nat n))).
Proof.
  intros Hs Hv -> j Hj. rewrite Z.lor_spec, Z.shiftl_spec, Hv by lia.
  destruct (Z.ltb_spec j (8 * Z.of_nat n)).
  - rewrite (Z.testbit_neg_r _ (j - _)), orb_false_r by lia. by destruct (Z.ltb_spec j (8 * Z.of_nat (S n))); [|lia].
  - cbn [andb orb]. rewrite (holds_byte s (a + Z.of_nat n) Hs) by lia.
    replace (8 * (a + Z.of_nat n) + (j - 8 * Z.of_nat n)) with (8 * a + j) by lia.
    f_equal. apply eq_true_iff_eq. rewrite !Z.ltb_lt. lia.
Qed.

Lemma load_raw_loop_spec s w a k n i data : mmu_wf s -> access_width k -> a mod Z.of_nat k = 0 -> 0 <= a < 2 ^ 64 ->
  w = 8 * Z.of_nat k -> (i + n = k)%nat -> holds_bits s a (8 * Z.of_nat i) data ->
  exists v, holds_bits s a w v /\
    reads_if (forallb (fun i => readable s (a + Z.of_nat i)) (seq i n)) (load_raw_loop w a i n data) s v.
Proof.
  intros Hs Hk Hm Ha ->. revert s i data Hs. induction n as [|n IH]; intros s i data Hs Hn Hd; cbn [load_raw_loop seq forallb].
  { rewrite Nat.add_0_r in Hn. subst i. exists data. split; [done|apply reads_if_ret]. }
  rewrite (aligned_no_wrap k) by (done || lia).
  assert (Hb : 0 <= a + Z.of_nat i < 2 ^ 64).
  { rewrite <- (aligned_no_wrap k a (Z.of_nat i)) by (done || lia). apply wrapu_range. lia. }
  pose proof (peek_range s (a + Z.of_nat i) Hs) as Hr.
  assert (Hw : wrapu (8 * Z.of_nat k) (Z.shiftl (peek s (a + Z.of_nat i)) (Z.of_nat i * 8))
    = Z.shiftl (peek s (a + Z.of_nat i)) (8 * Z.of_nat i)).
  { rewrite (Z.mul_comm _ 8). apply wrapu_small. unfold in_u in *. rewrite Z.shiftl_mul_pow2 by lia. split; [lia|].
    apply (Z.lt_le_trans _ (2 ^ 8 * 2 ^ (8 * Z.of_nat i))); [apply Z.mul_lt_mono_pos_r; [apply pow2_pos|]; lia|].
    rewrite <- Z.pow_add_r by lia. apply Z.pow_le_mono_r; lia. }
  destruct (IH s (S i) (Z.lor data (Z.shiftl (peek s (a + Z.of_nat i)) (8 * Z.of_nat i))) Hs ltac:(lia)) as (v & Hv & _).
  { by apply holds_bits_S. }
  exists v. split; [done|]. apply reads_if_bind with (v := peek s (a + Z.of_nat i)); [by apply load_raw_spec|].
  intros _ s' Hs'. rewrite Hw. pose proof (mmu_wf_same s s' Hs' Hs) as Hwf.
  destruct (IH s' (S i) (Z.lor data (Z.shiftl (peek s (a + Z.of_nat i)) (8 * Z.of_nat i))) Hwf ltac:(lia)) as (v' & Hv' & Hr').
  { apply holds_bits_S; [done|by rewrite <- Hs'|by rewrite Hs']. }
  rewrite <- Hs' in Hv'. rewrite (holds_bits_unique _ _ _ _ _ Hv Hv').
  rewrite (forallb_ext _ (fun i => readable s' (a + Z.of_nat i))); [done|]. intros j. by apply readable_same.
Qed.

Lemma holds_bits_wrapu s a w v : 0 <= w -> holds_bits s a w v -> wrapu w v = v.
Proof.
  intros Hw Hv. apply Z.bits_inj'. intros j Hj. unfold wrapu. rewrite Z.testbit_mod_pow2, Hv by lia.
  by destruct (j <? w).
Qed.
Lemma holds_bits_0 s a : holds_bits s a 0 0.
Proof. intros j Hj. rewrite Z.bits_0. by destruct (Z.ltb_spec j 0); [lia|]. Qed.

Lemma translate_none s a acc : mmu_wf s -> translate_address a acc s = Some (Some a, s).
Proof.
  intros Hs. unfold translate_address. cbn [translate_fuel]. unfold M_bind, M_get. rewrite (wf_translation _ Hs).
  unfold get_effective_address. by rewrite (wf_xlen _ Hs).
Qed.

Lemma within_ram_aligned k a : access_width k -> (1 < k)%nat -> a mod Z.of_nat k = 0 -> 0 <= a < 2 ^ 64 ->
  within_ram a (Z.of_nat k - 1) = (DRAM_BASE <=? a).
Proof.
  intros Hk H1 Hm Ha. unfold within_ram. rewrite (aligned_no_wrap k) by (done || lia).
  destruct (Z.ltb_spec a (a + (Z.of_nat k - 1))); [|lia]. by rewrite andb_true_r.
Qed.

(** A raw load of an aligned width, by either path. *)
Lemma load_width_raw_spec s k a : mmu_wf s -> access_width k -> a mod Z.of_nat k = 0 -> 0 <= a < 2 ^ 64 ->
  exists b v, reads_if b (load_width_raw k a) s v /\ holds_bits s a (8 * Z.of_nat k) v /\
    (b = true -> readable s a = true) /\ (readable s a = true -> not_io_end s a -> b = true).
Proof.
  intros Hs Hk Hm Ha. destruct (decide (k = 1%nat)) as [->|Hk1].
  { exists (readable s a), (peek s a). split; [by apply load_raw_spec|]. split; [by apply holds_byte|]. done. }
  assert (Hraw : load_width_raw k a s =
    if DRAM_BASE <=? a then (assert_effective_load_address a ;;! ram_read k a) s
    else load_raw_loop (8 * Z.of_nat k) a 0 k 0 s).
  { rewrite <- (within_ram_aligned k) by (done || unfold access_width in Hk; lia).
    destruct Hk as [->|[->|[->| ->]]]; try done; unfold load_width_raw, load_halfword_raw, load_word_raw,
      load_doubleword_raw, M_bind, M_get, get_effective_address; rewrite (wf_xlen _ Hs); by destruct (within_ram _ _). }
  unfold reads_if. rewrite Hraw. destruct (Z.leb_spec DRAM_BASE a) as [Hd|Hd].
  - exists (valid_address s a false && recordable s a), (bits_at (mem s) (8 * (a - DRAM_BASE)) (8 * Z.of_nat k)).
    split; [|split; [apply holds_ram; try done; unfold access_width in Hk; lia|]].
    + apply reads_if_assert, ram_read_spec; (done || lia).
    + unfold readable. destruct (Z.ltb_spec a DRAM_BASE); [lia|]. by rewrite andb_true_r.
  - destruct (load_raw_loop_spec s (8 * Z.of_nat k) a k k 0 0 Hs Hk Hm Ha eq_refl eq_refl (holds_bits_0 s a)) as (v & Hv & Hr).
    eexists _, v. split; [exact Hr|]. split; [done|]. rewrite forallb_forall. split.
    + intros H. rewrite <- (Z.add_0_r a). apply (H 0%nat), in_seq. unfold access_width in Hk. lia.
    + intros H He i Hi%in_seq. apply (readable_dword s a); try done.
      apply (aligned_same_dword k); (done || lia).
Qed.

(** ** The recorded accesses leave the space alone *)
Definition quiet {A} (f : St Mmu A) : Prop := forall s a s', f s = Some (a, s') -> same_space s s'.
Lemma quiet_ret {A} (a : A) : quiet (M_ret a).
Proof. intros s b s' [= _ <-]. reflexivity. Qed.
Lemma quiet_bind {A B} (f : St Mmu A) (k : A -> St Mmu B) : quiet f -> (forall a, quiet (k a)) -> quiet (M_bind f k).
Proof. intros Hf Hk s b s' (a & s1 & E & E')%M_bind_Some. transitivity s1; [by eapply Hf|by eapply Hk]. Qed.
Lemma quiet_get : quiet M_get.
Proof. intros s a s' [= _ <-]. reflexivity. Qed.
Lemma quiet_device_read a : quiet (device_read a).
Proof.
  intros s v s' (d & _ & (u & _ & [= _ <-])%bind_Some)%bind_Some. reflexivity.
Qed.
Lemma quiet_assert a w : quiet (assert_effective_address a w).
Proof. intros s v s'. unfold assert_effective_address. destruct (valid_address s a w); [|done]. intros [= <- <-]. reflexivity. Qed.
Lemma quiet_ram_read_byte a : quiet (ram_read_byte a).
Proof.
  intros s v s'. unfold ram_read_byte, on_memory, read_byte, M_bind.
  destruct (Z.ltb_spec (dword_index (to_dram a)) (num_doublewords (mem s))) as [H|H]; [|by rewrite access_u64_out].
  destruct (access_u64_spec (mem s) _ H) as (m & -> & Hm). intros [= _ <-].
  split; [done| |done]. cbn [jolt_device set_mem]. by destruct (jolt_device s); constructor.
Qed.
Create HintDb quiet discriminated.
#[export] Hint Resolve quiet_ret quiet_bind quiet_get quiet_device_read quiet_assert quiet_ram_read_byte : quiet.

Lemma quiet_value_bytes read a i n : (forall a, quiet (read a)) -> quiet (value_bytes read a i n).
Proof. intros Hr. revert i. induction n; intros i; cbn [value_bytes]; auto with quiet. Qed.
Lemma quiet_recorded_value ea a : quiet (recorded_value ea a).
Proof.
  apply quiet_bind; [apply quiet_get|]. intros s. apply quiet_bind; [|intros; apply quiet_ret].
  apply quiet_value_bytes. intros b. destruct (ea <? DRAM_BASE); auto with quiet.
Qed.
Lemma quiet_trace_load ea : quiet (trace_load ea).
Proof. apply quiet_bind; [apply quiet_recorded_value|]. intros. apply quiet_ret. Qed.

Lemma holds_bits_cons s a n t : mmu_wf s -> holds_bits s (a + 1) (8 * Z.of_nat n) t ->
  holds_bits s a (8 * Z.of_nat (S n)) (peek s a + 2 ^ 8 * t).
Proof.
  intros Hs Ht j Hj. pose proof (peek_range s a Hs) as Hr.
  replace (peek s a + 2 ^ 8 * t) with (Z.lor (peek s a) (Z.shiftl t 8)).
  2: { rewrite Z.shiftl_mul_pow2, lor_disjoint by (done || lia). lia. }
  rewrite Z.lor_spec, Z.shiftl_spec, (holds_byte s a Hs) by lia. destruct (Z.ltb_spec j 8); cbn [andb orb].
  - rewrite (Z.testbit_neg_r _ (j - 8)), orb_false_r by lia. by destruct (Z.ltb_spec j (8 * Z.of_nat (S n))); [|lia].
  - rewrite Ht by lia. f_equal; [|f_equal; lia]. apply eq_true_iff_eq. rewrite !Z.ltb_lt. lia.
Qed.

Lemma value_bytes_spec s s1 read a i n : same_space s s1 ->
  (forall s' j, same_space s s' -> (i <= j < i + n)%nat ->
     reads_if true (read (as_u64 (a + Z.of_nat j))) s' (peek s (a + Z.of_nat j))) ->
  reads_if true (value_bytes read a i n) s1 (map (fun j => peek s (a + Z.of_nat j)) (seq i n)).
Proof.
  revert i s1. induction n as [|n IH]; intros i s1 Hs Hr; cbn [value_bytes seq map]; [apply reads_if_ret|].
  apply (reads_if_bind true true _ _ _ (peek s (a + Z.of_nat i))); [apply Hr; (done || lia)|].
  intros _ s2 H2. apply (reads_if_bind true true _ _ _ (map (fun j => peek s (a + Z.of_nat j)) (seq (S i) n))).
  - apply IH; [by transitivity s1|]. intros s3 j H3 Hj. apply Hr; (done || lia).
  - intros _ s3 _. apply reads_if_ret.
Qed.

Lemma le_value_holds s a n i : mmu_wf s ->
  holds_bits s (a + Z.of_nat i) (8 * Z.of_nat n) (le_value (map (fun j => peek s (a + Z.of_nat j)) (seq i n))).
Proof.
  intros Hs. revert i. induction n as [|n IH]; intros i; cbn [seq map le_value]; [apply holds_bits_0|].
  apply holds_bits_cons; [done|]. replace (a + Z.of_nat i + 1) with (a + Z.of_nat (S i)) by lia. apply IH.
Qed.

(** The doubleword at [a], read for the trace. *)
Lemma recorded_value_spec s a : mmu_wf s -> a mod 8 = 0 -> 0 <= a < 2 ^ 64 -> readable s a = true -> not_io_end s a ->
  exists v, holds_bits s a 64 v /\ reads_if true (recorded_value a a) s v.
Proof.
  intros Hs Hm Ha Hr He. assert (Hk : access_width 8) by (unfold access_width; auto).
  exists (le_value (map (fun j => peek s (a + Z.of_nat j)) (seq 0 8))). split.
  { rewrite <- (Z.add_0_r a) at 1. apply (le_value_holds s a 8 0 Hs). }
  unfold recorded_value. apply reads_if_get. unfold xlen_bytes. rewrite (wf_xlen s Hs).
  apply (reads_if_bind true true _ _ _ (map (fun j => peek s (a + Z.of_nat j)) (seq 0 8))); [|intros; apply reads_if_ret].
  apply value_bytes_spec; [reflexivity|]. intros s' j H' Hj. rewrite (aligned_no_wrap 8) by (done || lia).
  pose proof (mmu_wf_same s s' H' Hs) as Hs'.
  assert (Hb : 0 <= a + Z.of_nat j < 2 ^ 64).
  { rewrite <- (aligned_no_wrap 8 a (Z.of_nat j)) by (done || lia). apply wrapu_range. lia. }
  pose proof (aligned_same_dword 8 a (Z.of_nat j) Hk Hm ltac:(lia)) as Hsd.
  assert (Hrec : recordable s (a + Z.of_nat j) = true).
  { destruct (Z.ltb_spec a DRAM_BASE) as [Hd|Hd].
    - pose proof (readable_dword s a _ Hs Hsd Hd He Hr) as Hrb. unfold readable in Hrb.
      by apply andb_true_iff in Hrb as [[_ ?]%andb_true_iff _].
    - unfold readable in Hr. apply andb_true_iff in Hr as [[_ Hr]%andb_true_iff _]. unfold recordable in *.
      destruct (Z.ltb_spec a DRAM_BASE), (Z.ltb_spec (a + Z.of_nat j) DRAM_BASE); try lia.
      replace ((a + Z.of_nat j - DRAM_BASE) / 8) with ((a - DRAM_BASE) / 8); [done|].
      replace (a + Z.of_nat j - DRAM_BASE) with (a - DRAM_BASE + Z.of_nat j) by lia.
      apply (aligned_same_dword 8); [done|by rewrite (dram_mod 8 a Hk)|lia]. }
  rewrite (recordable_same s s' _ H') in Hrec. rewrite H', <- Hrec.
  pose proof (same_dword_ltb a _ DRAM_BASE Hsd eq_refl) as Hlt.
  destruct (Z.ltb_spec a DRAM_BASE), (Z.ltb_spec (a + Z.of_nat j) DRAM_BASE); try done.
  - by apply device_read_spec.
  - apply ram_read_byte_spec; (done || lia).
Qed.

(** An aligned access does not cross a page. *)
Lemma page_offset_aligned k a : access_width k -> a mod Z.of_nat k = 0 ->
  (Z.land a 0xfff <=? 0x1000 - Z.of_nat k) = true.
Proof.
  intros Hk Hm. apply Z.leb_le. change 0xfff with (Z.ones 12). rewrite Z.land_ones by lia.
  pose proof (Z.mod_pos_bound a (2 ^ 12) ltac:(lia)). pose proof (Z.div_mod a (2 ^ 12) ltac:(lia)).
  assert (Hk0 : Z.of_nat k <> 0) by (unfold access_width in Hk; lia). pose proof (Z.div_mod a (Z.of_nat k) Hk0).
  change (2 ^ 12) with 4096 in *. destruct Hk as [->|[->|[->| ->]]]; lia.
Qed.

Lemma load_bytes_spec s k a : mmu_wf s -> access_width k -> a mod Z.of_nat k = 0 -> 0 <= a < 2 ^ 64 ->
  load_bytes a k s = (let! v := load_width_raw k a in M_ret (inr v)) s.
Proof.
  intros Hs Hk Hm Ha. unfold load_bytes.
  rewrite page_offset_aligned by done. by rewrite (M_bind_eq _ _ _ _ _ (translate_none s a ReadAccess Hs)).
Qed.

(** The loads of the four widths. *)
Definition load_width (k : nat) : Z -> St Mmu (Trap + Z * RAMRead) :=
  match k with 1%nat => load | _ => load_aligned k end.

(** A load that succeeds returns the bits at its address. *)
Lemma load_width_Some s k a r s' : mmu_wf s -> access_width k -> 0 <= a < 2 ^ 64 ->
  load_width k a s = Some (r, s') ->
  a mod Z.of_nat k = 0 /\ readable s a = true /\ same_space s s' /\
  exists v m, r = inr (v, m) /\ holds_bits s a (8 * Z.of_nat k) v.
Proof.
  intros Hs Hk Ha E. destruct (decide (k = 1%nat)) as [->|Hk1].
  - unfold load_width, load, get_effective_address in E. cbn [M_get M_bind] in E.
    unfold M_bind at 1, M_get in E. rewrite (wf_xlen s Hs) in E.
    apply M_bind_Some in E as (m & s1 & E1 & E). pose proof (quiet_trace_load a _ _ _ E1) as H1.
    pose proof (mmu_wf_same _ _ H1 Hs) as Hs1. rewrite (M_bind_eq _ _ _ _ _ (translate_none s1 a _ Hs1)) in E.
    apply M_bind_Some in E as (v & s2 & E2 & E). injection E as <- <-.
    destruct (reads_if_inv _ _ _ _ _ _ (load_raw_spec s1 a Hs1 Ha) E2) as (Hr & -> & H2).
    rewrite <- (readable_same s s1) in Hr by done. split; [by rewrite Z.mod_1_r|]. split; [done|].
    split; [by transitivity s1|]. eexists _, m. split; [done|]. rewrite <- H1. by apply holds_byte.
  - replace (load_width k) with (load_aligned k) in E by (by destruct k as [|[|k]]; [|done|]).
    unfold load_aligned, get_effective_address in E. unfold M_bind at 1, M_get in E. rewrite (wf_xlen s Hs) in E.
    destruct (Z.eqb_spec (a mod Z.of_nat k) 0) as [Hm|]; [|done]. cbn [negb] in E.
    apply M_bind_Some in E as (m & s1 & E1 & E). pose proof (quiet_trace_load a _ _ _ E1) as H1.
    pose proof (mmu_wf_same _ _ H1 Hs) as Hs1. unfold M_bind at 1 in E. rewrite load_bytes_spec in E by done.
    destruct (load_width_raw_spec s1 k a Hs1 Hk Hm Ha) as (b & v & Hr & Hv & Hb & _).
    unfold M_bind at 1 in E. destruct (load_width_raw k a s1) as [[v' s2]|] eqn:E2; [|done].
    destruct (reads_if_inv _ _ _ _ _ _ Hr E2) as (Hbt & -> & H2). injection E as <- <-.
    rewrite (holds_bits_wrapu s1 a) by (done || lia). specialize (Hb Hbt). rewrite <- (readable_same s s1) in Hb by done.
    split; [done|]. split; [done|]. split; [by transitivity s1|]. eexists v, m. split; [done|]. by rewrite H1.
Qed.

(** A load of an aligned doubleword whose address is readable succeeds. *)
Lemma load_doubleword_spec s a : mmu_wf s -> a mod 8 = 0 -> 0 <= a < 2 ^ 64 -> readable s a = true -> not_io_end s a ->
  exists v s', load_doubleword a s = Some (inr (v, {| read_address := a; read_value := v |}), s') /\
    same_space s s' /\ holds_bits s a 64 v.
Proof.
  intros Hs Hm Ha Hr He. assert (Hk : access_width 8) by (unfold access_width; auto).
  destruct (recorded_value_spec s a Hs Hm Ha Hr He) as (v & Hv & s1 & E1 & H1). exists v.
  pose proof (mmu_wf_same _ _ H1 Hs) as Hs1.
  destruct (load_width_raw_spec s1 8 a Hs1 Hk Hm Ha) as (b & v1 & Hl & Hv1 & _ & Hb).
  rewrite (readable_same s s1) in Hr by done. assert (He1 : not_io_end s1 a).
  { intros d1 Hd1. destruct H1 as [_ H1 _]. rewrite Hd1 in H1. inversion H1 as [d ? Hdd E|]; subst.
    rewrite <- (same_layout _ _ Hdd). by apply He. }
  rewrite (Hb Hr He1) in Hl. destruct Hl as (s2 & E2 & H2). rewrite <- H1 in Hv1.
  rewrite (holds_bits_unique _ _ _ _ _ Hv1 Hv) in E2. exists s2. split; [|split; [by transitivity s1|done]].
  unfold load_doubleword, load_aligned, get_effective_address. unfold M_bind at 1, M_get. rewrite (wf_xlen s Hs).
  change (Z.of_nat 8) with 8. rewrite Hm. cbn [negb Z.eqb].
  assert (Hw : word_of a = a).
  { unfold word_of. rewrite Z.shiftl_mul_pow2, Z.shiftr_div_pow2 by lia. change (2 ^ 2) with 4.
    rewrite (Z.mul_comm (a / 4)), <- Z_div_exact_full_2; [apply wrapu_small; done|lia|].
    pose proof (Z.div_mod a 8 ltac:(lia)). replace a with (2 * (a / 8) * 4) by lia. apply Z.mod_mul. lia. }
  rewrite (M_bind_eq (trace_load a) _ s {| read_address := a; read_value := v |} s1).
  2: { unfold trace_load. by rewrite Hw, (M_bind_eq _ _ _ _ _ E1). }
  rewrite (M_bind_eq _ _ s1 (inr v) s2).
  2: { rewrite load_bytes_spec by done. by rewrite (M_bind_eq _ _ _ _ _ E2). }
  unfold M_ret. by rewrite (holds_bits_wrapu s a _ v) by done.
Qed.
