(* ===== verification/MmuStore.v ===== *)
(** * MmuStore: stores into the address space

    A store that succeeds replaces exactly its bits in the RAM ([stored_ram]),
    or its bytes of the device ([device_store_bytes]).  Storing part of a
    doubleword is the same as storing the whole doubleword with that part
    merged in, which is how the virtual sequences of the narrow stores write. *)
From S2P Require Import Prelude Bits AdviceTape Memory Device Mmu MmuSpec.
Open Scope Z_scope.
Open Scope st_scope.

(** ** The device *)

Definition store_byte_of (v i : Z) : Z := as_u8 (Z.land (Z.shiftr v (i * 8)) 0xff).
Lemma testbit_store_byte v i j : 0 <= i -> 0 <= j -> Z.testbit (store_byte_of v i) j = (j <? 8) && Z.testbit v (8 * i + j).
Proof.
  intros Hi Hj. unfold store_byte_of, wrapu. change 0xff with (Z.ones 8).
  rewrite Z.testbit_mod_pow2, Z.land_spec, Z.shiftr_spec by lia. destruct (Z.ltb_spec j 8); [|done]. cbn [andb].
  rewrite Z.ones_spec_low, andb_true_r by lia. f_equal. lia.
Qed.
Lemma store_byte_range v i : in_u 8 (store_byte_of v i).
Proof. by apply wrapu_range. Qed.

(** The bytes of [v] from [i] on, stored in order. *)
Fixpoint device_store_bytes (d : JoltDevice) (a v : Z) (i n : nat) : option JoltDevice :=
  match n with
  | O => Some d
  | S n =>
      d' ← device_store d (a + Z.of_nat i) (store_byte_of v (Z.of_nat i));
      device_store_bytes d' a v (S i) n
  end.

(** The bytes a store reaches. *)
Definition is_output_byte (d : JoltDevice) (a : Z) : bool :=
  (output_start (memory_layout d) <=? a) && (a <? output_end (memory_layout d)).
Definition is_flag_byte (d : JoltDevice) (a : Z) : bool := is_panic d a || is_termination d a.

Lemma device_store_layout d a v d' : device_store d a v = Some d' -> memory_layout d' = memory_layout d.
Proof. unfold device_store. repeat case_match; by intros [= <-]. Qed.

Lemma length_resize (l : list Z) n : (length l <= n)%nat -> length (resize l n) = n.
Proof. intros H. unfold resize. rewrite length_app, length_replicate. lia. Qed.
Lemma byte_or_0_lookup l i : 0 <= i -> byte_or_0 l i = default 0 (l !! Z.to_nat i).
Proof.
  intros Hi. unfold byte_or_0. destruct (Z.leb_spec (Z.of_nat (length l)) i); [|done].
  rewrite (lookup_ge_None_2 l); [done|lia].
Qed.
Lemma byte_or_0_resize l n i : 0 <= i -> byte_or_0 (resize l n) i = byte_or_0 l i.
Proof.
  intros Hi. rewrite !byte_or_0_lookup by done. unfold resize.
  destruct (decide (Z.to_nat i < length l)%nat) as [Hl|Hl].
  - by rewrite lookup_app_l.
  - rewrite lookup_app_r, (lookup_ge_None_2 l) by lia. destruct (_ !! _) eqn:E; [|done].
    apply lookup_replicate in E as [-> _]. done.
Qed.

(** The bytes [i <= _ < i + n] of [v] stored in the outputs, byte 0 at [a]. *)
Record stored_outputs (d : JoltDevice) (a : Z) (i n : nat) (v : Z) (d' : JoltDevice) : Prop := {
  so_inputs : inputs d' = inputs d;
  so_trusted : trusted_advice d' = trusted_advice d;
  so_untrusted : untrusted_advice d' = untrusted_advice d;
  so_panic : dev_panic d' = dev_panic d;
  so_layout : memory_layout d' = memory_layout d;
  so_outputs : forall o, 0 <= o -> byte_or_0 (outputs d') o =
    let k := output_start (memory_layout d) + o - a in
    if (Z.of_nat i <=? k) && (k <? Z.of_nat (i + n)) then store_byte_of v k else byte_or_0 (outputs d) o
}.

Lemma device_store_output d a v : device_wf d -> is_output_byte d a = true ->
  exists d', device_store d a v = Some d' /\
    inputs d' = inputs d /\ trusted_advice d' = trusted_advice d /\ untrusted_advice d' = untrusted_advice d /\
    dev_panic d' = dev_panic d /\ memory_layout d' = memory_layout d /\
    forall i, 0 <= i -> byte_or_0 (outputs d') i =
      if decide (i = a - output_start (memory_layout d)) then v else byte_or_0 (outputs d) i.
Proof.
  intros Hd [H1%Z.leb_le H2%Z.ltb_lt]%andb_true_iff. destruct (wf_layout d Hd) as [L1 L2 L3 L4 _].
  unfold get_lowest_address in L1. unfold RAM_START_ADDRESS in *. unfold device_store, is_panic, is_termination.
  destruct (Z.eqb_spec a (panic (memory_layout d))); [lia|].
  destruct (Z.leb_spec (panic (memory_layout d)) a); [lia|]. destruct (Z.leb_spec (termination (memory_layout d)) a); [lia|].
  cbn [andb orb]. unfold convert_write_address.
  rewrite (wrapu_small 64 (a - _)) by (unfold in_u; lia). rewrite (wrapu_small 64 (output_end _ - _)) by (unfold in_u; lia).
  destruct (Z.ltb_spec (a - output_start (memory_layout d)) (output_end (memory_layout d) - output_start (memory_layout d))); [|lia].
  cbn [negb]. eexists. split; [reflexivity|]. cbn [inputs trusted_advice untrusted_advice dev_panic memory_layout outputs with_outputs].
  do 5 (split; [done|]). intros i Hi. set (o := a - output_start (memory_layout d)) in *.
  assert (Hlen : forall l, (Z.to_nat o < length l)%nat -> (forall j, 0 <= j -> byte_or_0 l j = byte_or_0 (outputs d) j) ->
    byte_or_0 (<[Z.to_nat o := v]> l) i = if decide (i = o) then v else byte_or_0 (outputs d) i).
  { intros l Hl He. rewrite byte_or_0_lookup by done. case_decide as Hio; [subst i; by rewrite list_lookup_insert_eq|].
    rewrite list_lookup_insert_ne, <- byte_or_0_lookup by lia. by apply He. }
  destruct (Z.leb_spec (Z.of_nat (length (outputs d))) o); apply Hlen; try done; try lia.
  - rewrite length_resize; lia.
  - intros j Hj. by apply byte_or_0_resize.
Qed.

Lemma Forall_byte_or_0 l : (forall i, 0 <= i -> in_u 8 (byte_or_0 l i)) -> Forall (in_u 8) l.
Proof.
  intros H. apply Forall_lookup. intros i v Hv. specialize (H (Z.of_nat i) ltac:(lia)).
  by rewrite byte_or_0_lookup, Nat2Z.id, Hv in H by lia.
Qed.
Lemma device_wf_outputs d d' : device_wf d -> inputs d' = inputs d -> trusted_advice d' = trusted_advice d ->
  untrusted_advice d' = untrusted_advice d -> memory_layout d' = memory_layout d ->
  (forall o, 0 <= o -> in_u 8 (byte_or_0 (outputs d') o)) -> device_wf d'.
Proof. intros [B1 B2 B3 B4 B5 B6] A1 A2 A3 A4 A5. split; try congruence. by apply Forall_byte_or_0. Qed.

Lemma device_store_bytes_outputs d a v i n : device_wf d ->
  (forall j, (i <= j < i + n)%nat -> is_output_byte d (a + Z.of_nat j) = true) ->
  exists d', device_store_bytes d a v i n = Some d' /\ device_wf d' /\ stored_outputs d a i n v d'.
Proof.
  revert d i. induction n as [|n IH]; intros d i Hd Hb; cbn [device_store_bytes].
  { exists d. split; [done|]. split; [done|]. split; try done. intros o Ho. cbv zeta. rewrite Nat.add_0_r.
    destruct (Z.leb_spec (Z.of_nat i) (output_start (memory_layout d) + o - a)),
      (Z.ltb_spec (output_start (memory_layout d) + o - a) (Z.of_nat i)); (done || lia). }
  destruct (device_store_output d (a + Z.of_nat i) (store_byte_of v (Z.of_nat i)) Hd ltac:(apply Hb; lia))
    as (d1 & E1 & A1 & A2 & A3 & A4 & A5 & A6).
  assert (Hd1 : device_wf d1).
  { apply (device_wf_outputs d); try done. intros o Ho. rewrite A6 by done.
    case_decide; [apply store_byte_range|apply byte_or_0_range, Hd]. }
  destruct (IH d1 (S i) Hd1) as (d2 & E2 & Hd2 & B).
  { intros j Hj. unfold is_output_byte. rewrite A5. apply Hb. lia. }
  exists d2. rewrite E1. cbn [mbind option_bind]. split; [done|]. split; [done|]. destruct B as [B1 B2 B3 B4 B5 B6].
  split; try congruence. intros o Ho. rewrite B6, A6 by done. cbv zeta. rewrite A5.
  set (k := output_start (memory_layout d) + o - a).
  destruct (Z.leb_spec (Z.of_nat (S i)) k), (Z.ltb_spec k (Z.of_nat (S i + n))), (Z.leb_spec (Z.of_nat i) k),
    (Z.ltb_spec k (Z.of_nat (i + S n))); cbn [andb]; try lia; try done; case_decide; try (unfold k in *; lia); try done.
  f_equal. unfold k. lia.
Qed.

(** In the panic and termination regions only the first byte has an effect. *)
Definition store_flag (d : JoltDevice) (a : Z) (i n : nat) : JoltDevice :=
  if (a + Z.of_nat i <=? panic (memory_layout d)) && (panic (memory_layout d) <? a + Z.of_nat (i + n)) then set_panic d else d.
Lemma device_store_bytes_flag d a v i n :
  (forall j, (i <= j < i + n)%nat -> is_flag_byte d (a + Z.of_nat j) = true) ->
  device_store_bytes d a v i n = Some (store_flag d a i n).
Proof.
  revert d i. induction n as [|n IH]; intros d i Hb; cbn [device_store_bytes]; unfold store_flag.
  { rewrite Nat.add_0_r. destruct (Z.leb_spec (a + Z.of_nat i) (panic (memory_layout d))),
      (Z.ltb_spec (panic (memory_layout d)) (a + Z.of_nat i)); (done || lia). }
  unfold device_store. pose proof (Hb i ltac:(lia)) as Hi. unfold is_flag_byte in Hi. rewrite Hi.
  set (p := panic (memory_layout d)) in *.
  destruct (Z.eqb_spec (a + Z.of_nat i) p) as [E|E]; cbn [mbind option_bind].
  - rewrite IH; [|intros j Hj; apply (Hb j); lia]. unfold store_flag. cbn [memory_layout set_panic].
    fold p. destruct (Z.leb_spec (a + Z.of_nat (S i)) p), (Z.leb_spec (a + Z.of_nat i) p),
      (Z.ltb_spec p (a + Z.of_nat (i + S n))); cbn [andb]; try lia. done.
  - rewrite IH; [|intros j Hj; apply (Hb j); lia]. unfold store_flag. fold p. f_equal.
    destruct (Z.leb_spec (a + Z.of_nat (S i)) p), (Z.ltb_spec p (a + Z.of_nat (S i + n))), (Z.leb_spec (a + Z.of_nat i) p),
      (Z.ltb_spec p (a + Z.of_nat (i + S n))); cbn [andb]; try lia; done.
Qed.

(** ** A doubleword with a part replaced *)

(** [m] is [old] with its [w] bits from bit [off] on replaced by those of [v]. *)
Definition merged (old v off w m : Z) : Prop :=
  forall j, 0 <= j < 64 -> Z.testbit m j = if (off <=? j) && (j <? off + w) then Z.testbit v (j - off) else Z.testbit old j.

Lemma device_load_output d a : device_wf d -> is_output_byte d a = true ->
  device_load d a = Some (byte_or_0 (outputs d) (a - output_start (memory_layout d))).
Proof.
  intros Hd [H1%Z.leb_le H2%Z.ltb_lt]%andb_true_iff. destruct (wf_layout d Hd) as [L1 L2 L3 L4 _].
  unfold get_lowest_address in L1. unfold RAM_START_ADDRESS in *.
  unfold device_load, is_panic, is_termination, is_input, is_trusted_advice, is_untrusted_advice, is_output.
  repeat (match goal with |- context [?x <=? a] => destruct (Z.leb_spec x a) | |- context [a <? ?x] => destruct (Z.ltb_spec a x) end;
    cbn [andb]; try lia).
  all: unfold convert_write_address; rewrite wrapu_small by (unfold in_u; lia); done.
Qed.

Lemma device_store_output_inv d a v d' : device_wf d -> output_start (memory_layout d) <= a < RAM_START_ADDRESS ->
  is_flag_byte d a = false -> device_store d a v = Some d' -> is_output_byte d a = true.
Proof.
  intros Hd Ha Hf. destruct (wf_layout d Hd) as [L1 L2 L3 L4 _].
  unfold get_lowest_address in L1. unfold RAM_START_ADDRESS in *. unfold device_store.
  unfold is_flag_byte in Hf. rewrite Hf. unfold is_panic, is_termination in Hf.
  destruct (Z.eqb_spec a (panic (memory_layout d))) as [E|E].
  { rewrite E in Hf. destruct (Z.leb_spec (panic (memory_layout d)) (panic (memory_layout d))),
      (Z.ltb_spec (panic (memory_layout d)) (termination (memory_layout d))); (done || lia). }
  unfold convert_write_address. rewrite !wrapu_small by (unfold in_u; lia).
  destruct (Z.ltb_spec (a - output_start (memory_layout d)) (output_end (memory_layout d) - output_start (memory_layout d))); [|done].
  intros _. unfold is_output_byte. apply andb_true_iff. rewrite Z.leb_le, Z.ltb_lt. lia.
Qed.

Lemma same_dword_base a i : 0 <= i < 8 -> same_dword a (a - a mod 8 + i).
Proof.
  intros Hi. unfold same_dword. apply (Z.div_unique _ _ _ i); [lia|]. pose proof (Z.div_mod a 8 ltac:(lia)). lia.
Qed.

Section Merge.
Context (d d0 : JoltDevice) (Hd : device_wf d) (Hdd : same_device d d0).
Context (a : Z) (k : nat) (Hk : access_width k) (Hm : a mod Z.of_nat k = 0).

Lemma aligned_bounds l : layout_wf l ->
  output_start l mod 8 = 0 /\ output_end l mod 8 = 0 /\ panic l mod 8 = 0 /\ termination l mod 8 = 0 /\ io_end l mod 8 = 0.
Proof. intros [_ _ _ _ L5]. rewrite !list.Forall_cons in L5. intuition. Qed.

Lemma region_dword f b : f = is_output_byte \/ f = is_panic \/ f = is_termination \/ f = is_flag_byte \/ f = is_output ->
  same_dword a b -> f d a = f d b.
Proof.
  intros Hf Hab. destruct (aligned_bounds _ (wf_layout d Hd)) as (A1 & A2 & A3 & A4 & A5).
  destruct Hf as [->|[->|[->|[->| ->]]]]; unfold is_flag_byte, is_output_byte, is_panic, is_termination, is_output;
    by rewrite ?(same_dword_bound a b _ Hab A1), ?(same_dword_bound a b _ Hab A3), ?(same_dword_bound a b _ Hab A4),
      ?(same_dword_ltb a b _ Hab A2), ?(same_dword_ltb a b _ Hab A4), ?(same_dword_ltb a b _ Hab A5).
Qed.

(** The bytes of a merged doubleword. *)
Lemma merged_byte v old m i : merged old v (8 * (a mod 8)) (8 * Z.of_nat k) m -> 0 <= i < 8 ->
  store_byte_of m i =
    if (a mod 8 <=? i) && (i <? a mod 8 + Z.of_nat k) then store_byte_of v (i - a mod 8) else store_byte_of old i.
Proof.
  intros Hmerge Hi. pose proof (Z.mod_pos_bound a 8 ltac:(lia)).
  apply Z.bits_inj'. intros j Hj. rewrite testbit_store_byte by lia. destruct (Z.ltb_spec j 8); cycle 1.
  { cbn [andb]. symmetry. destruct (_ && _); (apply (testbit_out 8); [apply store_byte_range|lia]). }
  cbn [andb]. rewrite Hmerge by lia.
  destruct (Z.leb_spec (a mod 8) i), (Z.ltb_spec i (a mod 8 + Z.of_nat k)), (Z.leb_spec (8 * (a mod 8)) (8 * i + j)),
    (Z.ltb_spec (8 * i + j) (8 * (a mod 8) + 8 * Z.of_nat k)); cbn [andb]; try lia;
    rewrite testbit_store_byte by lia; destruct (Z.ltb_spec j 8); try lia; cbn [andb]; f_equal; lia.
Qed.

Abbreviation base := (a - a mod 8).
(** Storing the merged doubleword has the effect of storing the part. *)
Definition same_store (v m : Z) (d1 : JoltDevice) : Prop :=
  device_store_bytes d a v 0 k = Some d1 ->
  exists d2, device_store_bytes d0 base m 0 8 = Some d2 /\ same_device d1 d2.

Lemma device_store_merged_flag v m d1 : is_flag_byte d a = true -> (is_panic d a = true -> a mod 8 = 0) ->
  same_store v m d1.
Proof.
  intros Ef Hpan Hst. pose proof (aligned_dword k a Hk Hm) as Hoff. pose proof (Z.mod_pos_bound a 8 ltac:(lia)) as Hpos.
  assert (Hk0 : (0 < k)%nat) by (unfold access_width in Hk; lia). pose proof (same_layout _ _ Hdd) as Hlay.
  rewrite device_store_bytes_flag in Hst.
  2: { intros j Hj. rewrite <- (region_dword is_flag_byte (a + Z.of_nat j)); [done|auto 6|].
       apply (aligned_same_dword k); (done || lia). }
  injection Hst as <-. eexists. rewrite device_store_bytes_flag.
  2: { intros j Hj. pose proof (region_dword is_flag_byte (base + Z.of_nat j) ltac:(auto 6) (same_dword_base a (Z.of_nat j) ltac:(lia))) as E.
       rewrite Ef in E. revert E. unfold is_flag_byte, is_panic, is_termination. by rewrite Hlay. }
  split; [done|]. unfold store_flag. rewrite <- Hlay. destruct (aligned_bounds _ (wf_layout d Hd)) as (_ & _ & A3 & _).
  set (p := panic (memory_layout d)) in *.
  assert (Hb : (a + Z.of_nat 0 <=? p) && (p <? a + Z.of_nat (0 + k)) = (base + Z.of_nat 0 <=? p) && (p <? base + Z.of_nat (0 + 8))).
  { pose proof (Z.div_mod a 8 ltac:(lia)). pose proof (Z.div_mod p 8 ltac:(lia)).
    assert (Hpa : base = p -> a mod 8 = 0).
    { intros E. apply Hpan. unfold is_panic. destruct (wf_layout d Hd) as [_ _ L3 _ _]. apply andb_true_iff.
      rewrite Z.leb_le, Z.ltb_lt. fold p. fold p in L3. lia. }
    destruct (Z.leb_spec (a + Z.of_nat 0) p), (Z.ltb_spec p (a + Z.of_nat (0 + k))),
      (Z.leb_spec (base + Z.of_nat 0) p), (Z.ltb_spec p (base + Z.of_nat (0 + 8))); cbn [andb]; try done; try lia. }
  rewrite <- Hb. destruct (_ && _); [|done]. destruct Hdd. by split.
Qed.

Lemma device_store_merged_output v old m d1 : is_output_byte d a = true ->
  (forall i, (i < 8)%nat ->
     store_byte_of old (Z.of_nat i) = byte_or_0 (outputs d) (base + Z.of_nat i - output_start (memory_layout d))) ->
  merged old v (8 * (a mod 8)) (8 * Z.of_nat k) m -> same_store v m d1.
Proof.
  intros Hout Hold Hmerge Hst. pose proof (aligned_dword k a Hk Hm) as Hoff. pose proof (Z.mod_pos_bound a 8 ltac:(lia)) as Hpos.
  pose proof (same_layout _ _ Hdd) as Hlay.
  destruct (device_store_bytes_outputs d a v 0 k Hd) as (d1' & E1 & _ & B).
  { intros j Hj. rewrite <- (region_dword is_output_byte (a + Z.of_nat j)); [done|auto 6|].
    apply (aligned_same_dword k); (done || lia). }
  rewrite E1 in Hst. injection Hst as ->. pose proof (device_wf_same d d0 Hdd Hd) as Hd0.
  destruct (device_store_bytes_outputs d0 base m 0 8 Hd0) as (d2 & E2 & _ & C).
  { intros j Hj. pose proof (region_dword is_output_byte (base + Z.of_nat j) ltac:(auto 6) (same_dword_base a (Z.of_nat j) ltac:(lia))) as E.
    rewrite Hout in E. revert E. unfold is_output_byte. by rewrite Hlay. }
  exists d2. split; [done|]. destruct B as [B1 B2 B3 B4 B5 B6], C as [C1 C2 C3 C4 C5 C6], Hdd as [H1 H2 H3 H4 H5 H6].
  split; try congruence. intros o Ho. rewrite B6, C6 by done. cbv zeta. rewrite <- Hlay, <- H6 by done.
  set (os := output_start (memory_layout d)) in *. change (0 + k)%nat with k. change (Z.of_nat 0) with 0.
  change (Z.of_nat (0 + 8)) with 8.
  destruct (Z.leb_spec 0 (os + o - a)), (Z.ltb_spec (os + o - a) (Z.of_nat k)), (Z.leb_spec 0 (os + o - base)),
    (Z.ltb_spec (os + o - base) 8); cbn [andb]; try lia; try done.
  all: rewrite (merged_byte v old m (os + o - base) Hmerge) by lia; destruct (Z.leb_spec (a mod 8) (os + o - base)),
    (Z.ltb_spec (os + o - base) (a mod 8 + Z.of_nat k)); cbn [andb]; try lia.
  all: try (f_equal; lia).
  all: rewrite <- (Z2Nat.id (os + o - base)), Hold by lia; f_equal; lia.
Qed.

Lemma device_store_merged v old m d1 : a < RAM_START_ADDRESS ->
  is_output d a || is_panic d a || is_termination d a = true -> (is_panic d a = true -> a mod 8 = 0) ->
  (is_output_byte d a = true -> forall i, (i < 8)%nat ->
     store_byte_of old (Z.of_nat i) = byte_or_0 (outputs d) (base + Z.of_nat i - output_start (memory_layout d))) ->
  merged old v (8 * (a mod 8)) (8 * Z.of_nat k) m -> same_store v m d1.
Proof.
  intros Hram Hval Hpan Hold Hmerge. destruct (is_flag_byte d a) eqn:Ef; [by apply device_store_merged_flag|].
  intros Hst. assert (Hout : is_output_byte d a = true).
  { pose proof Hst as Hst'. assert (Hk0 : (0 < k)%nat) by (unfold access_width in Hk; lia).
    destruct k as [|k']; [lia|]. cbn [device_store_bytes] in Hst'. apply bind_Some in Hst' as (d' & E & _).
    rewrite Z.add_0_r in E. apply (device_store_output_inv d a _ d' Hd) in E; try done. split; [|done].
    unfold is_flag_byte in Ef. rewrite <- orb_assoc, Ef, orb_false_r in Hval. by apply andb_true_iff in Hval as [?%Z.leb_le _]. }
  by apply (device_store_merged_output v old m d1 Hout (Hold Hout)).
Qed.
End Merge.

(** ** Raw stores *)

Definition store_supported (a : Z) : bool :=
  negb (in_range a 0x02000000 0x0200ffff || in_range a 0x0c000000 0x0fffffff ||
        in_range a 0x10000000 0x100000ff || in_range a 0x10001000 0x10001FFF).
Definition store_ok (d : JoltDevice) (a : Z) : bool := store_supported a && valid_io d a true.

Lemma store_ok_layout d d' a : memory_layout d' = memory_layout d -> store_ok d' a = store_ok d a.
Proof.
  intros H. unfold store_ok, valid_io, is_output, is_panic, is_termination, is_input, is_trusted_advice, is_untrusted_advice.
  by rewrite H.
Qed.

Lemma store_raw_device s d a v : mmu_xlen s = Bit64 -> jolt_device s = Some d -> a < DRAM_BASE ->
  store_raw a v s = if store_ok d a then d' ← device_store d a v; Some (tt, set_device s (Some d')) else None.
Proof.
  intros Hx Hd Ha. unfold store_raw, M_bind at 1, M_get, get_effective_address. rewrite Hx.
  destruct (Z.leb_spec DRAM_BASE a); [lia|]. unfold store_ok, store_supported.
  destruct (_ || in_range a 0x10001000 0x10001FFF); [done|]. cbn [negb andb].
  unfold M_bind, assert_effective_store_address, assert_effective_address, valid_address, device_write. rewrite Hd.
  destruct (Z.ltb_spec a DRAM_BASE); [|lia]. destruct (valid_io d a true); [|done]. by rewrite Hd.
Qed.

Lemma store_raw_loop_device s d a v k i n : mmu_xlen s = Bit64 -> jolt_device s = Some d -> 0 <= a < DRAM_BASE ->
  access_width k -> a mod Z.of_nat k = 0 -> (i + n <= k)%nat ->
  store_raw_loop a v i n s =
    if forallb (fun j => store_ok d (a + Z.of_nat j)) (seq i n)
    then d' ← device_store_bytes d a v i n; Some (tt, set_device s (Some d')) else None.
Proof.
  intros Hx Hd Ha Hk Hm. revert s d Hx Hd i. induction n as [|n IH]; intros s d Hx Hd i Hi; cbn [store_raw_loop seq forallb device_store_bytes].
  { cbn [mbind option_bind]. unfold M_ret. rewrite <- Hd. by destruct s. }
  rewrite (aligned_no_wrap k) by (done || unfold DRAM_BASE, RAM_START_ADDRESS in *; lia).
  assert (Hlt : a + Z.of_nat i < DRAM_BASE).
  { apply Z.ltb_lt. rewrite <- (same_dword_ltb a) by (apply (aligned_same_dword k) || done; (done || lia)).
    apply Z.ltb_lt. lia. }
  unfold M_bind. rewrite (store_raw_device s d) by done. destruct (store_ok d (a + Z.of_nat i)); [|done]. cbn [andb].
  fold (store_byte_of v (Z.of_nat i)). destruct (device_store d _ _) as [d1|] eqn:E1; cbn [mbind option_bind].
  - rewrite (IH _ d1) by (done || lia). pose proof (device_store_layout _ _ _ _ E1) as Hl.
    rewrite (forallb_ext (fun j => store_ok d1 (a + Z.of_nat j)) (fun j => store_ok d (a + Z.of_nat j))).
    2: { intros j. by apply store_ok_layout. }
    done.
  - by destruct (forallb _ _).
Qed.

(** The space after a store of [w] bits in the RAM. *)
Record stored_ram (s : Mmu) (a w v : Z) (s' : Mmu) : Prop := {
  sr_mem : wrote (mem s) (8 * (a - DRAM_BASE)) w v (mem s');
  sr_device : option_Forall2 same_device (jolt_device s) (jolt_device s');
  sr_registers : clock s = clock s' /\ mmu_xlen s = mmu_xlen s' /\ ppn s = ppn s' /\
    addressing_mode s = addressing_mode s' /\ privilege_mode s = privilege_mode s' /\ mstatus s = mstatus s'
}.

Lemma stored_ram_same s s1 a w v s' : same_space s s1 -> stored_ram s1 a w v s' -> stored_ram s a w v s'.
Proof.
  intros [H1 H2 H3] [[B1 B2 B3] A2 A3]. split.
  - split; [|done|]. { intros k. by rewrite B1, H1. } destruct H1 as [_ ->]. done.
  - destruct H2 as [x y Hxy|]; inversion A2 as [? z Hyz|]; subst; constructor. by transitivity y.
  - intuition congruence.
Qed.

Definition ram_write (k : nat) (a v : Z) : St Mmu unit :=
  match k with
  | 1%nat => ram_write_byte a v | 2%nat => ram_write_halfword a v | 4%nat => ram_write_word a v
  | 8%nat => ram_write_doubleword a v | _ => M_panic
  end.
Lemma on_memory_writes (f : St MemoryData unit) s a w v :
  writes f (mem s) (8 * (a - DRAM_BASE)) w v -> exists s', on_memory f s = Some (tt, s') /\ stored_ram s a w v s'.
Proof.
  intros (m & E & Hw). unfold on_memory. rewrite E. eexists. split; [reflexivity|]. split; [done| |done].
  cbn [jolt_device set_mem]. by destruct (jolt_device s); constructor.
Qed.
Lemma ram_write_spec s k a v : mmu_wf s -> access_width k -> a mod Z.of_nat k = 0 -> DRAM_BASE <= a < 2 ^ 64 ->
  in_u (8 * Z.of_nat k) v ->
  if recordable s a then exists s', ram_write k a v s = Some (tt, s') /\ stored_ram s a (8 * Z.of_nat k) v s'
  else ram_write k a v s = None.
Proof.
  intros Hs Hk Hm Ha Hv. pose proof (dram_mod k a Hk) as Hd. rewrite Hm in Hd. unfold recordable.
  destruct (Z.ltb_spec a DRAM_BASE); [lia|].
  pose proof (aligned_same_dword k (a - DRAM_BASE) (Z.of_nat k - 1) Hk Hd ltac:(unfold access_width in Hk; lia)) as Hsd.
  destruct (Z.ltb_spec ((a - DRAM_BASE) / 8) (num_doublewords (mem s))) as [Hn|Hn].
  - assert (Hin : in_memory (mem s) (a - DRAM_BASE + (Z.of_nat k - 1))).
    { split; [unfold access_width in Hk; lia|]. unfold same_dword in Hsd. by rewrite <- Hsd. }
    destruct Hk as [->|[->|[->| ->]]]; cbn [ram_write]; unfold ram_write_byte, ram_write_halfword, ram_write_word,
      ram_write_doubleword; rewrite to_dram_id by done; apply on_memory_writes.
    + apply write_byte_wrote; [apply Hs| |done]. by rewrite Z.add_0_r in Hin.
    + apply write_halfword_wrote; [apply Hs|lia|done..].
    + apply write_word_wrote; [apply Hs|lia|done..].
    + apply write_doubleword_wrote; [apply Hs|lia|done..].
  - assert (Hi : num_doublewords (mem s) <= dword_index (a - DRAM_BASE)).
    { unfold dword_index. by rewrite Z.shiftr_div_pow2 by lia. }
    destruct Hk as [->|[->|[->| ->]]]; cbn [ram_write]; unfold ram_write_byte, ram_write_halfword,
      ram_write_word, ram_write_doubleword, on_memory, write_byte, write_halfword, write_word, write_doubleword,
      write_masked, is_multiple_of; rewrite to_dram_id by done.
    + unfold M_bind. by rewrite access_u64_out.
    + rewrite (Hd : _ mod 2 = 0), Z.eqb_refl. unfold M_bind. by rewrite access_u64_out.
    + rewrite (Hd : _ mod 4 = 0), Z.eqb_refl. unfold M_bind. by rewrite access_u64_out.
    + rewrite (Hd : _ mod 8 = 0), Z.eqb_refl. by rewrite assign_u64_out.
Qed.

(** [store_width_raw] takes the memory's path in the RAM, the byte by byte path
    in the device. *)
Lemma store_width_raw_eq s k a v : mmu_wf s -> access_width k -> a mod Z.of_nat k = 0 -> 0 <= a < 2 ^ 64 ->
  in_u (8 * Z.of_nat k) v ->
  store_width_raw k a v s =
    if DRAM_BASE <=? a then (assert_effective_store_address a ;;! ram_write k a v) s else store_raw_loop a v 0 k s.
Proof.
  intros Hs Hk Hm Ha Hv. destruct (decide (k = 1%nat)) as [->|Hk1].
  - change (8 * Z.of_nat 1) with 8 in Hv. cbn [store_width_raw ram_write store_raw_loop]. rewrite wrapu_small by done.
    destruct (Z.leb_spec DRAM_BASE a) as [Hd|Hd].
    + unfold store_raw, M_bind at 1, M_get, get_effective_address. rewrite (wf_xlen _ Hs).
      by destruct (Z.leb_spec DRAM_BASE a); [|lia].
    + change (Z.of_nat 0) with 0. rewrite Z.add_0_r, wrapu_small by done. fold (store_byte_of v 0).
      replace (store_byte_of v 0) with v.
      * unfold M_bind at 1. by destruct (store_raw a v s) as [[[] s']|].
      * apply Z.bits_inj'. intros j Hj. rewrite testbit_store_byte by lia.
        destruct (Z.ltb_spec j 8); [done|]. apply (testbit_out 8); (done || lia).
  - rewrite <- (within_ram_aligned k) by (done || unfold access_width in Hk; lia).
    destruct Hk as [->|[->|[->| ->]]]; try done; unfold store_width_raw, store_halfword_raw, store_word_raw,
      store_doubleword_raw, M_bind at 1, M_get, get_effective_address; rewrite (wf_xlen _ Hs);
      try (rewrite wrapu_small by exact Hv); by destruct (within_ram _ _).
Qed.

Lemma store_bytes_eq s k a v : mmu_wf s -> access_width k -> a mod Z.of_nat k = 0 ->
  store_bytes a v k s = (store_width_raw k a v ;;! M_ret (inr tt)) s.
Proof.
  intros Hs Hk Hm. unfold store_bytes. rewrite page_offset_aligned by done.
  by rewrite (M_bind_eq _ _ _ _ _ (translate_none s a WriteAccess Hs)).
Qed.

Lemma assert_store_Some s a s' : assert_effective_store_address a s = Some (tt, s') -> valid_address s a true = true /\ s' = s.
Proof. unfold assert_effective_store_address, assert_effective_address. destruct (valid_address s a true); [|done]. by intros [= <-]. Qed.

(** The record of a store checks its address and reads. *)
Lemma trace_store_valid (f : Z -> Z -> St Mmu RAMWrite) s a v m s' :
  f = trace_store \/ f = trace_store_byte \/ f = trace_store_halfword ->
  f a v s = Some (m, s') -> valid_address s a true = true /\ same_space s s'.
Proof.
  intros Hf E. assert (Hq : exists g, f a v = (assert_effective_store_address a ;;! g) /\ quiet g).
  { destruct Hf as [->|[->| ->]]; (eexists; split; [reflexivity|]);
      (apply quiet_bind; [apply quiet_recorded_value|]); intros pre; auto with quiet.
    intros s1 b s2 (p & s3 & E1 & E2)%M_bind_Some. unfold M_lift in E1. apply bind_Some in E1 as (q & _ & [= <- <-]).
    by eapply quiet_ret. }
  destruct Hq as (g & Hg & Hq). rewrite Hg in E. apply M_bind_Some in E as ([] & s1 & E1 & E2).
  apply assert_store_Some in E1 as [Hv ->]. split; [done|]. by eapply Hq.
Qed.

(** The stores of the four widths. *)
Definition store_width (k : nat) : Z -> Z -> St Mmu (Trap + RAMWrite) :=
  match k with 1%nat => store | 2%nat => store_halfword | 4%nat => store_word | 8%nat => store_doubleword
  | _ => fun _ _ => M_panic end.

(** A store that succeeds: its address is valid and it ran the raw store. *)
Lemma store_width_Some s k a v r s' : mmu_wf s -> access_width k -> 0 <= a < 2 ^ 64 -> in_u (8 * Z.of_nat k) v ->
  store_width k a v s = Some (r, s') ->
  a mod Z.of_nat k = 0 /\ valid_address s a true = true /\ (exists m, r = inr m) /\
  exists s1, same_space s s1 /\ store_width_raw k a v s1 = Some (tt, s').
Proof.
  intros Hs Hk Ha Hv E. destruct (decide (k = 1%nat)) as [->|Hk1].
  - cbn [store_width] in E. unfold store, get_effective_address in E. unfold M_bind at 1, M_get in E.
    rewrite (wf_xlen s Hs) in E. apply M_bind_Some in E as (m & s1 & E1 & E).
    apply trace_store_valid in E1 as [Hva H1]; [|auto]. pose proof (mmu_wf_same _ _ H1 Hs) as Hs1.
    rewrite (M_bind_eq _ _ _ _ _ (translate_none s1 a _ Hs1)) in E.
    apply M_bind_Some in E as ([] & s2 & E2 & E). injection E as <- <-.
    split; [by rewrite Z.mod_1_r|]. split; [done|]. split; [by eexists|]. exists s1. split; [done|].
    cbn [store_width_raw]. rewrite wrapu_small by exact Hv. done.
  - assert (Hf : exists f, (f = trace_store \/ f = trace_store_byte \/ f = trace_store_halfword) /\
      store_width k = store_aligned k f).
    { destruct Hk as [->|[->|[->| ->]]]; [done|by exists trace_store_halfword; auto|by exists trace_store; auto..]. }
    destruct Hf as (f & Hf & Hfk). rewrite Hfk in E. unfold store_aligned, get_effective_address in E.
    unfold M_bind at 1, M_get in E. rewrite (wf_xlen s Hs) in E.
    destruct (Z.eqb_spec (a mod Z.of_nat k) 0) as [Hm|]; [|done]. cbn [negb] in E.
    apply M_bind_Some in E as (m & s1 & E1 & E). apply trace_store_valid in E1 as [Hva H1]; [|done].
    pose proof (mmu_wf_same _ _ H1 Hs) as Hs1. unfold M_bind at 1 in E. rewrite store_bytes_eq in E by done.
    unfold M_bind at 1 in E. destruct (store_width_raw k a v s1) as [[[] s2]|] eqn:E2; [|done].
    injection E as <- <-. split; [done|]. split; [done|]. split; [by eexists|]. by exists s1.
Qed.

(** What the raw store did. *)
Lemma store_width_raw_Some s k a v s' : mmu_wf s -> access_width k -> a mod Z.of_nat k = 0 -> 0 <= a < 2 ^ 64 ->
  in_u (8 * Z.of_nat k) v -> store_width_raw k a v s = Some (tt, s') ->
  recordable s a = true /\
  if DRAM_BASE <=? a then stored_ram s a (8 * Z.of_nat k) v s'
  else exists d d', jolt_device s = Some d /\ device_store_bytes d a v 0 k = Some d' /\ s' = set_device s (Some d') /\
         store_ok d a = true.
Proof.
  intros Hs Hk Hm Ha Hv. rewrite store_width_raw_eq by done. destruct (Z.leb_spec DRAM_BASE a) as [Hd|Hd].
  - intros ([] & s1 & [_ ->]%assert_store_Some & E)%M_bind_Some.
    pose proof (ram_write_spec s k a v Hs Hk Hm ltac:(lia) Hv) as H. destruct (recordable s a); [|congruence].
    destruct H as (s2 & E2 & H). split; [done|]. congruence.
  - destruct (jolt_device s) as [d|] eqn:Ed.
    + rewrite (store_raw_loop_device s d a v k) by (done || apply Hs || lia).
      destruct (forallb _ _) eqn:Ef; [|done]. rewrite forallb_forall in Ef.
      assert (Hok : store_ok d a = true).
      { rewrite <- (Z.add_0_r a). apply (Ef 0%nat), in_seq. unfold access_width in Hk. lia. }
      intros (d' & E & [= <-])%bind_Some. split; [|by eexists d, d'].
      unfold recordable. destruct (Z.ltb_spec a DRAM_BASE); [|lia]. rewrite Ed.
      apply andb_true_iff in Hok as [_ Hv']. unfold valid_io in Hv'. unfold device_address.
      apply andb_true_iff in Hv' as [_ Hv']. destruct (is_output d a), (is_panic d a), (is_termination d a); try done;
        by rewrite ?orb_true_r.
    + destruct k as [|k']; [unfold access_width in Hk; lia|]. cbn [store_raw_loop]. intros ([] & s1 & E & _)%M_bind_Some. exfalso.
      unfold store_raw, M_bind at 1, M_get, get_effective_address in E. rewrite (wf_xlen _ Hs) in E.
      change (Z.of_nat 0) with 0 in E. rewrite Z.add_0_r, wrapu_small in E by done.
      destruct (Z.leb_spec DRAM_BASE a); [lia|]. destruct (_ || in_range a 0x10001000 0x10001FFF); [done|].
      apply M_bind_Some in E as ([] & s2 & [_ ->]%assert_store_Some & E). unfold device_write in E. by rewrite Ed in E.
Qed.

(** ** Narrow stores through the doubleword *)

(** The stores whose doubleword can be stored as a whole: all but those into
    the doubleword of the panic flag that do not start it, and those right
    above the stack canary whose doubleword starts inside it. *)
Definition dword_store (s : Mmu) (a : Z) : Prop :=
  valid_address s (a - a mod 8) true = true /\
  forall d, jolt_device s = Some d -> is_panic d a = true -> a mod 8 = 0.

Lemma base_range a : 0 <= a < 2 ^ 64 -> 0 <= a - a mod 8 < 2 ^ 64 /\ (a - a mod 8) mod 8 = 0 /\ same_dword a (a - a mod 8).
Proof.
  intros Ha. pose proof (Z.mod_pos_bound a 8 ltac:(lia)). pose proof (Z.div_mod a 8 ltac:(lia)).
  split; [lia|]. split; [replace (a - a mod 8) with (a / 8 * 8) by lia; by apply Z.mod_mul|].
  rewrite <- (Z.add_0_r (a - a mod 8)). by apply same_dword_base.
Qed.

(** Its doubleword is readable, *)
Lemma stored_readable s a : mmu_wf s -> 0 <= a < 2 ^ 64 -> recordable s a = true -> dword_store s a ->
  (forall d, jolt_device s = Some d -> a < DRAM_BASE -> store_ok d a = true) ->
  readable s (a - a mod 8) = true /\ not_io_end s (a - a mod 8).
Proof.
  intros Hs Ha Hrec [Hv Hp] Hok. destruct (base_range a Ha) as (Hb & Hb8 & Hsd). set (b := a - a mod 8) in *.
  pose proof (same_dword_ltb a b DRAM_BASE Hsd eq_refl) as Hlt. unfold readable, valid_address in *. unfold recordable in *.
  rewrite <- Hlt in *. destruct (Z.ltb_spec a DRAM_BASE) as [Hd|Hd]; cbn [andb negb].
  - destruct (jolt_device s) as [d|] eqn:Ed; [|done]. specialize (Hok d eq_refl Hd).
    destruct (wf_device s Hs d Ed) as [Hl Hlow _ _ _ _]. unfold store_ok, store_supported in Hok.
    apply andb_true_iff in Hok as [Hsup Hva]. unfold valid_io in Hv. apply andb_true_iff in Hv as [Hv1 Hreg].
    apply andb_true_iff in Hv1 as [Hv1 Hv2]. split.
    + assert (Hun : unsupported b = false).
      { apply negb_true_iff in Hsup. unfold unsupported.
        rewrite !(in_range_dword a b) in Hsup by done. rewrite !orb_false_iff in Hsup. rewrite !orb_false_iff. enough (in_range b 0x00001020 0x00001fff = false) by intuition.
        unfold in_range. destruct Hl as [L1 L2 L3 L4 _]. unfold is_output, is_panic, is_termination in Hreg.
        unfold get_lowest_address in *. assert (output_start (memory_layout d) <= b).
        { rewrite !orb_true_iff, !andb_true_iff, !Z.leb_le in Hreg. lia. }
        destruct (Z.leb_spec b 0x1fff); [lia|]. by rewrite andb_false_r. }
      rewrite Hun. unfold valid_io, device_address. rewrite Hv1, Hv2. cbn [andb negb]. rewrite andb_true_r.
      destruct (is_output d b), (is_panic d b), (is_termination d b); try done; by rewrite ?orb_true_r.
    + intros d' Hd' _ E. rewrite Ed in Hd'. injection Hd' as <-. destruct Hl as [_ _ L3 _ _].
      unfold is_output, is_panic, is_termination in Hreg. rewrite !orb_true_iff, !andb_true_iff, !Z.ltb_lt in Hreg. lia.
  - split; [|intros d Hdev Hlt' _; pose proof (Z.ltb_lt b DRAM_BASE); rewrite <- Hlt in *; intuition; discriminate].
    rewrite andb_true_r. apply andb_true_iff. split.
    + destruct (jolt_device s) as [d|]; [|done]. unfold valid_ram in *. by apply andb_true_iff in Hv as [_ ?].
    + replace ((b - DRAM_BASE) / 8) with ((a - DRAM_BASE) / 8); [done|].
      unfold same_dword in Hsd. unfold DRAM_BASE, RAM_START_ADDRESS.
      replace (a - 0x80000000) with (a + (-268435456) * 8) by lia.
      replace (b - 0x80000000) with (b + (-268435456) * 8) by lia. by rewrite !Z.div_add, Hsd by lia.
Qed.

Lemma same_memory_mbit m m' : mem_wf m -> mem_wf m' -> num_doublewords m = num_doublewords m' ->
  (forall n, mbit m n = mbit m' n) -> same_memory m m'.
Proof.
  intros Hm Hm' Hc Hb. split; [|done]. intros i. apply Z.bits_inj'. intros j Hj.
  destruct (Z.ltb_spec j 64); [by rewrite <- !mbit_content by lia|].
  rewrite !(testbit_out 64); try done; try lia; [apply Hm'|apply Hm].
Qed.

(** Storing a part, and storing the doubleword with the part merged. *)
Lemma stored_ram_merged s a w v s1 old m s2 : mmu_wf s -> DRAM_BASE <= a -> 0 <= a - a mod 8 -> 
  a mod 8 * 8 + w <= 64 -> 0 <= w ->
  stored_ram s a w v s1 -> holds_bits s (a - a mod 8) 64 old -> merged old v (8 * (a mod 8)) w m ->
  stored_ram s (a - a mod 8) 64 m s2 -> same_space s1 s2.
Proof.
  intros Hs Ha Hb Hw Hw0 [[A1 A2 A3] A4 A5] Hold Hm [[B1 B2 B3] B4 B5]. split.
  - apply same_memory_mbit; [done..|congruence|]. intros n. rewrite A1, B1.
    pose proof (Z.mod_pos_bound a 8 ltac:(lia)). set (b := a - a mod 8) in *.
    assert (Hbd : DRAM_BASE <= b).
    { pose proof (Z.div_mod a 8 ltac:(lia)). unfold b, DRAM_BASE, RAM_START_ADDRESS in *. lia. }
    destruct (Z.leb_spec (8 * (b - DRAM_BASE)) n), (Z.ltb_spec n (8 * (b - DRAM_BASE) + 64)); cbn [andb].
    + rewrite Hm by lia.
      destruct (Z.leb_spec (8 * (a - DRAM_BASE)) n), (Z.ltb_spec n (8 * (a - DRAM_BASE) + w)),
        (Z.leb_spec (8 * (a mod 8)) (n - 8 * (b - DRAM_BASE))), (Z.ltb_spec (n - 8 * (b - DRAM_BASE)) (8 * (a mod 8) + w));
        cbn [andb]; try (unfold b in *; lia); try (f_equal; unfold b; lia).
      all: rewrite (holds_bits_unique s b 64 old _ Hold (holds_ram s b 64 Hs Hbd ltac:(lia)));
        rewrite testbit_bits_at by (first [apply Hs|lia]);
        destruct (Z.ltb_spec (n - 8 * (b - DRAM_BASE)) 64); try lia; cbn [andb]; f_equal; lia.
    + destruct (Z.leb_spec (8 * (a - DRAM_BASE)) n), (Z.ltb_spec n (8 * (a - DRAM_BASE) + w)); cbn [andb]; try done;
        unfold b in *; lia.
    + destruct (Z.leb_spec (8 * (a - DRAM_BASE)) n), (Z.ltb_spec n (8 * (a - DRAM_BASE) + w)); cbn [andb]; try done;
        unfold b in *; lia.
    + destruct (Z.leb_spec (8 * (a - DRAM_BASE)) n), (Z.ltb_spec n (8 * (a - DRAM_BASE) + w)); cbn [andb]; try done;
        unfold b in *; lia.
  - destruct A4 as [x y Hxy|]; inversion B4 as [? z Hyz|]; subst; constructor. by rewrite <- Hxy.
  - intuition congruence.
Qed.

(** Storing the doubleword: the record it makes, then the raw store. *)
Lemma store_doubleword_eq s b m s1 mw s2 : mmu_wf s -> b mod 8 = 0 -> 0 <= b < 2 ^ 64 ->
  trace_store b m s = Some (mw, s1) -> same_space s s1 -> store_width_raw 8 b m s1 = Some (tt, s2) ->
  store_doubleword b m s = Some (inr mw, s2).
Proof.
  intros Hs Hm Hb E1 H1 E2. pose proof (mmu_wf_same _ _ H1 Hs) as Hs1.
  assert (Hk : access_width 8) by (unfold access_width; auto).
  unfold store_doubleword, store_aligned, get_effective_address. unfold M_bind at 1, M_get. rewrite (wf_xlen s Hs).
  change (Z.of_nat 8) with 8. rewrite Hm. cbn [negb Z.eqb]. rewrite (M_bind_eq _ _ _ _ _ E1).
  rewrite (M_bind_eq _ _ s1 (inr tt) s2); [done|]. rewrite store_bytes_eq by done. by rewrite (M_bind_eq _ _ _ _ _ E2).
Qed.

Lemma trace_store_spec s b m old : mmu_wf s -> b mod 8 = 0 -> 0 <= b < 2 ^ 64 -> readable s b = true -> not_io_end s b ->
  valid_address s b true = true -> holds_bits s b 64 old ->
  exists s1, trace_store b m s = Some ({| write_address := b; pre_value := old; post_value := m |}, s1) /\ same_space s s1.
Proof.
  intros Hs Hm Hb Hr He Hv Hold. destruct (recorded_value_spec s b Hs Hm Hb Hr He) as (v & Hv' & s1 & E & H1).
  rewrite (holds_bits_unique _ _ _ _ _ Hv' Hold) in E.
  exists s1. split; [|done]. unfold trace_store, assert_effective_store_address, assert_effective_address.
  unfold M_bind at 1. rewrite Hv. by rewrite (M_bind_eq _ _ _ _ _ E).
Qed.

Lemma not_io_end_same s s' a : same_space s s' -> not_io_end s a -> not_io_end s' a.
Proof.
  intros [_ H _] He d' Hd'. rewrite Hd' in H. inversion H as [d ? Hdd E|]; subst.
  rewrite <- (same_layout _ _ Hdd). by apply He.
Qed.
Lemma dword_store_same s s' a : same_space s s' -> dword_store s a -> dword_store s' a.
Proof.
  intros H [Hv Hp]. split; [by rewrite <- (valid_address_same s s')|].
  destruct H as [_ Hd _]. intros d1 E1. rewrite E1 in Hd. inversion Hd as [d ? Hdd E|]; subst. unfold is_panic.
  rewrite <- (same_layout _ _ Hdd). by apply (Hp d).
Qed.
Lemma valid_io_ok d a : store_ok d a = true -> is_output d a || is_panic d a || is_termination d a = true.
Proof. unfold store_ok, valid_io. by rewrite !andb_true_iff; intros (_ & _ & ?). Qed.

(** The doubleword's bytes in the output region are the outputs. *)
Lemma held_outputs s d a old : mmu_wf s -> jolt_device s = Some d -> 0 <= a < DRAM_BASE -> is_output_byte d a = true ->
  holds_bits s (a - a mod 8) 64 old -> forall i, (i < 8)%nat ->
  store_byte_of old (Z.of_nat i) = byte_or_0 (outputs d) (a - a mod 8 + Z.of_nat i - output_start (memory_layout d)).
Proof.
  intros Hs Hd Ha Ho Hold i Hi. set (b := a - a mod 8) in *.
  pose proof (same_dword_base a (Z.of_nat i) ltac:(lia)) as Hsd. fold b in Hsd.
  assert (Hob : is_output_byte d (b + Z.of_nat i) = true).
  { rewrite <- Ho. symmetry. apply region_dword; [by apply (wf_device s Hs)|auto|done]. }
  pose proof (same_dword_ltb _ _ DRAM_BASE Hsd eq_refl) as Hlt.
  assert (Hpeek : peek s (b + Z.of_nat i) = byte_or_0 (outputs d) (b + Z.of_nat i - output_start (memory_layout d))).
  { unfold peek. rewrite <- Hlt, Hd. destruct (Z.ltb_spec a DRAM_BASE); [|lia].
    rewrite device_load_output by (done || by apply (wf_device s Hs)). done. }
  rewrite <- Hpeek. apply Z.bits_inj'. intros j Hj. rewrite testbit_store_byte by lia.
  rewrite (holds_byte s _ Hs) by lia. destruct (Z.ltb_spec j 8); [|done]. cbn [andb]. rewrite Hold by lia.
  destruct (Z.ltb_spec (8 * Z.of_nat i + j) 64); [|lia]. cbn [andb]. f_equal. lia.
Qed.

(** The doubleword's bytes can all be stored. *)
Lemma store_ok_dword d a i : device_wf d -> store_ok d a = true -> a < RAM_START_ADDRESS -> 0 <= i < 8 ->
  store_ok d (a - a mod 8 + i) = true.
Proof.
  intros Hd Hok Ha Hi. pose proof (same_dword_base a i Hi) as Hsd. set (b := a - a mod 8 + i) in *.
  pose proof (valid_io_ok _ _ Hok) as Hreg.
  assert (Hreg' : is_output d b || is_panic d b || is_termination d b = true).
  { rewrite <- (region_dword d Hd a is_output b), <- (region_dword d Hd a is_panic b),
      <- (region_dword d Hd a is_termination b) by auto 6. done. }
  unfold store_ok in *. apply andb_true_iff in Hok as [Hsup _]. unfold store_supported in *.
  rewrite !(in_range_dword a b) in Hsup by done. rewrite Hsup. cbn [andb]. unfold valid_io. rewrite Hreg', andb_true_r.
  destruct (wf_layout d Hd) as [L1 L2 L3 L4 _]. unfold get_lowest_address in *.
  unfold is_output, is_panic, is_termination in Hreg'. rewrite !orb_true_iff, !andb_true_iff, !Z.leb_le, !Z.ltb_lt in Hreg'.
  apply andb_true_iff. rewrite orb_true_iff, !Z.leb_le. lia.
Qed.

(** *** The store of the merged doubleword *)
Section Merged.
Context (s : Mmu) (k : nat) (a v : Z) (Hs : mmu_wf s) (Hk : access_width k) (Ha : 0 <= a < 2 ^ 64).
Context (Hm : a mod Z.of_nat k = 0) (Hv : in_u (8 * Z.of_nat k) v) (Hok : dword_store s a).
Abbreviation base := (a - a mod 8).

Lemma base_ltb : (a <? DRAM_BASE) = (base <? DRAM_BASE).
Proof. destruct (base_range a Ha) as (_ & _ & Hsd). exact (same_dword_ltb _ _ DRAM_BASE Hsd eq_refl). Qed.

(** In the RAM. *)
Lemma merged_ram_store sa s1 s2 old m : DRAM_BASE <= a -> same_space s sa -> same_space s s2 ->
  stored_ram sa a (8 * Z.of_nat k) v s1 -> recordable s base = true -> holds_bits s base 64 old -> in_u 64 m ->
  merged old v (8 * (a mod 8)) (8 * Z.of_nat k) m ->
  exists s3, store_width_raw 8 base m s2 = Some (tt, s3) /\ same_space s1 s3.
Proof.
  intros Hd Hsa Hs2 Hst Hrec Hold Hmu Hmerge. destruct (base_range a Ha) as (Hb & Hb8 & _).
  pose proof (mmu_wf_same _ _ Hs2 Hs) as Hwf2. pose proof (aligned_dword k a Hk Hm) as Hoff.
  pose proof (Z.mod_pos_bound a 8 ltac:(lia)) as Hpos.
  assert (Hk8 : access_width 8) by (unfold access_width; auto).
  assert (Hbd : DRAM_BASE <= base) by (apply Z.ltb_ge; rewrite <- base_ltb; by apply Z.ltb_ge).
  pose proof (ram_write_spec s2 8 base m Hwf2 Hk8 Hb8 ltac:(lia) Hmu) as Hw.
  rewrite <- (recordable_same s s2), Hrec in Hw by done. destruct Hw as (s3 & E3 & H3). exists s3. split.
  - rewrite store_width_raw_eq, Z.leb_antisym, <- base_ltb, <- Z.leb_antisym by done.
    destruct (Z.leb_spec DRAM_BASE a); [|lia].
    unfold M_bind, assert_effective_store_address, assert_effective_address.
    rewrite <- (valid_address_same s s2) by done. destruct Hok as [-> _]. exact E3.
  - apply (stored_ram_merged s a (8 * Z.of_nat k) v s1 old m s3); try done; try lia.
    + by apply (stored_ram_same s sa).
    + by apply (stored_ram_same s s2).
Qed.

(** In the device. *)
Lemma merged_device_store sa da d1 s2 old m : a < DRAM_BASE -> same_space s sa -> same_space s s2 ->
  jolt_device sa = Some da -> device_store_bytes da a v 0 k = Some d1 -> store_ok da a = true ->
  holds_bits s base 64 old -> in_u 64 m -> merged old v (8 * (a mod 8)) (8 * Z.of_nat k) m ->
  exists s3, store_width_raw 8 base m s2 = Some (tt, s3) /\ same_space (set_device sa (Some d1)) s3.
Proof.
  intros Hd Hsa Hs2 Eda Est Hoka Hold Hmu Hmerge. destruct (base_range a Ha) as (Hb & Hb8 & _).
  pose proof (Z.mod_pos_bound a 8 ltac:(lia)) as Hpos.
  pose proof (mmu_wf_same _ _ Hs2 Hs) as Hwf2. pose proof (mmu_wf_same _ _ Hsa Hs) as Hwfa.
  assert (Hk8 : access_width 8) by (unfold access_width; auto).
  pose proof Hs2 as [Hms Hds Hrs]. pose proof Hsa as [Hma Hda Hra].
  rewrite Eda in Hda. inversion Hda as [d ? Hdd Ed|]; subst. rewrite <- Ed in *.
  inversion Hds as [? d2 Hd2 Ed2|]; subst. assert (Hwd : device_wf da) by (by apply (wf_device sa)).
  assert (Hd02 : same_device da d2) by (transitivity d; [by symmetry|done]).
  destruct (device_store_merged da d2 Hwd Hd02 a k Hk Hm v old m d1 Hd (valid_io_ok _ _ Hoka)) as (d3 & E3 & H3); try done.
  - intros Hp. destruct Hok as [_ Hp']. apply (Hp' d); [done|]. revert Hp. unfold is_panic. by rewrite (same_layout _ _ Hdd).
  - intros Ho. apply (held_outputs sa); (done || lia || by rewrite <- Hsa).
  - exists (set_device s2 (Some d3)). split.
    + rewrite store_width_raw_eq, Z.leb_antisym, <- base_ltb, <- Z.leb_antisym by done.
      destruct (Z.leb_spec DRAM_BASE a); [lia|].
      rewrite (store_raw_loop_device s2 d2 _ m 8) by (done || lia || apply Hwf2).
      rewrite (proj2 (forallb_forall _ _)); [by rewrite E3|]. intros j Hj%in_seq.
      apply store_ok_dword; [by apply (wf_device s2)| |done|lia]. rewrite <- Hoka. apply store_ok_layout.
      by rewrite (same_layout _ _ Hd02).
    + split; cbn [mem jolt_device set_device clock mmu_xlen ppn addressing_mode privilege_mode mstatus].
      * transitivity (mem s); [by symmetry|done].
      * by constructor.
      * intuition congruence.
Qed.
End Merged.

(** A store that succeeds can be made through its doubleword: the doubleword is
    readable, and storing it with the part merged gives the same space. *)
Lemma store_width_merged s k a v r s1 : mmu_wf s -> access_width k -> 0 <= a < 2 ^ 64 -> in_u (8 * Z.of_nat k) v ->
  dword_store s a -> store_width k a v s = Some (r, s1) ->
  a mod Z.of_nat k = 0 /\ (exists w, r = inr w) /\
  readable s (a - a mod 8) = true /\ not_io_end s (a - a mod 8) /\
  forall s' old m, same_space s s' -> holds_bits s (a - a mod 8) 64 old -> in_u 64 m ->
    merged old v (8 * (a mod 8)) (8 * Z.of_nat k) m ->
    exists s2, store_doubleword (a - a mod 8) m s' =
      Some (inr {| write_address := a - a mod 8; pre_value := old; post_value := m |}, s2) /\ same_space s1 s2.
Proof.
  intros Hs Hk Ha Hv Hok E. destruct (store_width_Some s k a v r s1 Hs Hk Ha Hv E) as (Hm & Hva & Hr & sa & Hsa & Eraw).
  pose proof (mmu_wf_same _ _ Hsa Hs) as Hwfa.
  destruct (store_width_raw_Some sa k a v s1 Hwfa Hk Hm Ha Hv Eraw) as [Hrec Hres].
  rewrite <- (recordable_same s sa) in Hrec by done. destruct (base_range a Ha) as (Hb & Hb8 & Hsd).
  assert (Hdev : forall d, jolt_device s = Some d -> a < DRAM_BASE -> store_ok d a = true).
  { intros d Hd Hd'. destruct (Z.leb_spec DRAM_BASE a); [lia|]. destruct Hres as (da & d1 & Eda & _ & _ & Hoka).
    destruct Hsa as [_ Hda _]. rewrite Hd, Eda in Hda. inversion Hda as [? ? Hdd|]; subst.
    rewrite <- Hoka. symmetry. apply store_ok_layout. by rewrite (same_layout _ _ Hdd). }
  destruct (stored_readable s a Hs Ha Hrec Hok Hdev) as [Hrb Heb].
  do 4 (split; [done|]). intros s' old m Hs' Hold Hmu Hmerge. pose proof (mmu_wf_same _ _ Hs' Hs) as Hwf'.
  destruct (trace_store_spec s' (a - a mod 8) m old Hwf' Hb8 Hb) as (s2 & E2 & H2).
  { by rewrite <- (readable_same s s'). } { by apply (not_io_end_same s). }
  { rewrite <- (valid_address_same s s') by done. apply Hok. } { by rewrite <- Hs'. }
  assert (Hs2 : same_space s s2) by (by transitivity s').
  enough (exists s3, store_width_raw 8 (a - a mod 8) m s2 = Some (tt, s3) /\ same_space s1 s3) as (s3 & E3 & H3).
  { exists s3. split; [|done]. by apply (store_doubleword_eq s' _ _ s2). }
  destruct (Z.leb_spec DRAM_BASE a) as [Hd|Hd].
  - apply (merged_ram_store s k a v Hs Hk Ha Hm Hok sa s1 s2 old); try done. unfold readable in Hrb.
    by apply andb_true_iff in Hrb as [[_ ?]%andb_true_iff _].
  - destruct Hres as (da & d1 & Eda & Est & -> & Hoka).
    by apply (merged_device_store s k a v Hs Hk Ha Hm Hok sa da d1 s2 old).
Qed.
