(* ===== verification/Cpu.v ===== *)
(** * Cpu: the architectural state of the emulator

    Models the part of [Cpu] ([tracer/src/emulator/cpu.rs]) the integer
    instructions read and write: registers, program counter, word size,
    memory management unit, allocator, reservation, call stack and advice
    tape.  CSRs, floating point and the interrupt machinery are not part of
    this record.  An index outside [x] panics in the code: [None] here.  Integer
    arithmetic wraps, as in the source's release profile. *)
From S2P Require Import Prelude Registers AdviceTape Memory Device Mmu MmuSpec.
Open Scope Z_scope.

Inductive ReservationWidth := Word | Doubleword.

#[export] Instance ReservationWidth_eq_dec : EqDecision ReservationWidth.
Proof. solve_decision. Defined.

(** instruction/format/mod.rs *)
Record NormalizedOperands := {
  norm_rs1 : option nat; norm_rs2 : option nat; norm_rd : option nat; norm_imm : Z
}.

(** utils/panic.rs *)
Record CallFrame := {
  call_site : Z; frame_x : list Z; frame_operands : NormalizedOperands; cycle_count : nat
}.

Definition MAX_CALL_STACK_DEPTH : nat := 32.

Record Cpu := {
  xlen : Xlen;
  x : list Z;
  pc : Z;
  mmu : Mmu;
  reservation : Z;
  reservation_set : bool;
  reservation_width : ReservationWidth;
  unsigned_data_mask : Z;
  trace_len : nat;
  vr_allocator : VirtualRegisterAllocator;
  call_stack : list CallFrame;
  advice_tape : AdviceTape
}.

Definition set_x (c : Cpu) (v : list Z) : Cpu :=
  {| xlen := xlen c; x := v; pc := pc c; mmu := mmu c; reservation := reservation c;
     reservation_set := reservation_set c; reservation_width := reservation_width c;
     unsigned_data_mask := unsigned_data_mask c; trace_len := trace_len c;
     vr_allocator := vr_allocator c; call_stack := call_stack c; advice_tape := advice_tape c |}.
(** [update_pc] *)
Definition update_pc (c : Cpu) (v : Z) : Cpu :=
  {| xlen := xlen c; x := x c; pc := v; mmu := mmu c; reservation := reservation c;
     reservation_set := reservation_set c; reservation_width := reservation_width c;
     unsigned_data_mask := unsigned_data_mask c; trace_len := trace_len c;
     vr_allocator := vr_allocator c; call_stack := call_stack c; advice_tape := advice_tape c |}.
Definition set_mmu (c : Cpu) (v : Mmu) : Cpu :=
  {| xlen := xlen c; x := x c; pc := pc c; mmu := v; reservation := reservation c;
     reservation_set := reservation_set c; reservation_width := reservation_width c;
     unsigned_data_mask := unsigned_data_mask c; trace_len := trace_len c;
     vr_allocator := vr_allocator c; call_stack := call_stack c; advice_tape := advice_tape c |}.
Definition set_allocator (c : Cpu) (v : VirtualRegisterAllocator) : Cpu :=
  {| xlen := xlen c; x := x c; pc := pc c; mmu := mmu c; reservation := reservation c;
     reservation_set := reservation_set c; reservation_width := reservation_width c;
     unsigned_data_mask := unsigned_data_mask c; trace_len := trace_len c;
     vr_allocator := v; call_stack := call_stack c; advice_tape := advice_tape c |}.
Definition set_call_stack (c : Cpu) (v : list CallFrame) : Cpu :=
  {| xlen := xlen c; x := x c; pc := pc c; mmu := mmu c; reservation := reservation c;
     reservation_set := reservation_set c; reservation_width := reservation_width c;
     unsigned_data_mask := unsigned_data_mask c; trace_len := trace_len c;
     vr_allocator := vr_allocator c; call_stack := v; advice_tape := advice_tape c |}.
Definition set_advice_tape (c : Cpu) (v : AdviceTape) : Cpu :=
  {| xlen := xlen c; x := x c; pc := pc c; mmu := mmu c; reservation := reservation c;
     reservation_set := reservation_set c; reservation_width := reservation_width c;
     unsigned_data_mask := unsigned_data_mask c; trace_len := trace_len c;
     vr_allocator := vr_allocator c; call_stack := call_stack c; advice_tape := v |}.

(** The fields of [Cpu::new] that are modelled. *)
Definition Cpu_new : Cpu :=
  {| xlen := Bit64; x := replicate REGISTER_COUNT 0; pc := 0; mmu := Mmu_new Bit64; reservation := 0;
     reservation_set := false; reservation_width := Word;
     unsigned_data_mask := 0xffffffffffffffff; trace_len := 0;
     vr_allocator := VirtualRegisterAllocator_new; call_stack := [];
     advice_tape := AdviceTape_new |}.

Definition update_xlen (c : Cpu) (v : Xlen) : Cpu :=
  {| xlen := v; x := x c; pc := pc c; mmu := mmu_update_xlen (mmu c) v; reservation := reservation c;
     reservation_set := reservation_set c; reservation_width := reservation_width c;
     unsigned_data_mask := match v with Bit32 => 0xffffffff | Bit64 => 0xffffffffffffffff end;
     trace_len := trace_len c; vr_allocator := vr_allocator c; call_stack := call_stack c;
     advice_tape := advice_tape c |}.

Definition read_register (c : Cpu) (reg : nat) : option Z :=
  match reg with O => Some 0 | _ => x c !! reg end.

Definition write_register (c : Cpu) (reg : nat) (write_value : Z) : option Cpu :=
  match reg with
  | O => Some c
  | _ => if decide (reg < length (x c))%nat then Some (set_x c (<[reg := write_value]> (x c))) else None
  end.

Definition sign_extend (c : Cpu) (value : Z) : Z :=
  match xlen c with Bit32 => as_i64 (as_i32 value) | Bit64 => value end.

Definition unsigned_data (c : Cpu) (value : Z) : Z :=
  Z.land (as_u64 value) (unsigned_data_mask c).

Definition most_negative (c : Cpu) : Z :=
  match xlen c with Bit32 => - 2 ^ 31 | Bit64 => - 2 ^ 63 end.

Definition set_reservation (c : Cpu) (address : Z) (width : ReservationWidth) : Cpu :=
  {| xlen := xlen c; x := x c; pc := pc c; mmu := mmu c; reservation := address; reservation_set := true;
     reservation_width := width; unsigned_data_mask := unsigned_data_mask c;
     trace_len := trace_len c; vr_allocator := vr_allocator c; call_stack := call_stack c;
     advice_tape := advice_tape c |}.
Definition clear_reservation (c : Cpu) : Cpu :=
  {| xlen := xlen c; x := x c; pc := pc c; mmu := mmu c; reservation := reservation c; reservation_set := false;
     reservation_width := reservation_width c; unsigned_data_mask := unsigned_data_mask c;
     trace_len := trace_len c; vr_allocator := vr_allocator c; call_stack := call_stack c;
     advice_tape := advice_tape c |}.
Definition has_reservation (c : Cpu) (address : Z) (width : ReservationWidth) : bool :=
  reservation_set c && (reservation c =? address) && bool_decide (reservation_width c = width).

(** The call stack is a bounded queue: the oldest frame is dropped. *)
Definition track_call (c : Cpu) (return_address : Z) (operands : NormalizedOperands) : Cpu :=
  let stack :=
    if decide (MAX_CALL_STACK_DEPTH <= length (call_stack c))%nat then drop 1 (call_stack c)
    else call_stack c in
  set_call_stack c (stack ++
    [{| call_site := return_address; frame_x := x c; frame_operands := operands;
        cycle_count := trace_len c |}]).

(** instruction/format/mod.rs *)
Definition normalize_register_value (c : Cpu) (reg : nat) : option Z :=
  value ← match reg with O => Some 0 | _ => x c !! reg end;
  Some (match xlen c with Bit32 => as_u64 (as_u32 value) | Bit64 => as_u64 value end).

Definition normalize_imm (imm : Z) (xl : Xlen) : Z :=
  match xl with Bit32 => as_i64 (as_i32 imm) | Bit64 => as_i64 imm end.

(** ** Well-formed states of the 64-bit machine *)

Record cpu_wf (c : Cpu) : Prop := {
  wf_length : length (x c) = REGISTER_COUNT;
  wf_range : Forall (in_s 64) (x c);
  wf_zero : x c !! 0%nat = Some 0;
  wf_mask : unsigned_data_mask c =
    match xlen c with Bit32 => 0xffffffff | Bit64 => 0xffffffffffffffff end;
  wf_allocator : length (allocated (vr_allocator c)) = NUM_VIRTUAL_REGISTERS
}.

(** A register's value, and the write of a register, as total functions. *)
Definition reg (c : Cpu) (r : nat) : Z := nth r (x c) 0.
Definition wr (c : Cpu) (r : nat) (v : Z) : Cpu :=
  match r with O => c | _ => set_x c (<[r := v]> (x c)) end.

(** A register number of the machine. *)
Definition valid_reg (r : nat) : Prop := (r < REGISTER_COUNT)%nat.

Lemma Cpu_new_wf : cpu_wf Cpu_new.
Proof.
  split; try done. cbn [x Cpu_new]. apply Forall_replicate. done.
Qed.

Section Regs.
Context (c : Cpu) (Hc : cpu_wf c).

Lemma lookup_reg r : valid_reg r -> x c !! r = Some (reg c r).
Proof.
  intros Hr. unfold reg.
  destruct (lookup_lt_is_Some_2 (x c) r) as [v Hv]; [by rewrite (wf_length c Hc)|].
  rewrite nth_lookup, Hv. done.
Qed.

Lemma reg_range r : in_s 64 (reg c r).
Proof.
  unfold reg. rewrite nth_lookup. destruct (x c !! r) eqn:E; [|done].
  pose proof (wf_range c Hc) as H. rewrite Forall_lookup in H. by eapply H.
Qed.

Lemma reg_zero : reg c 0 = 0.
Proof. unfold reg. rewrite nth_lookup. by rewrite (wf_zero c Hc). Qed.

Lemma write_register_wr r v : valid_reg r -> write_register c r v = Some (wr c r v).
Proof.
  intros Hr. unfold write_register, wr. destruct r; [done|].
  rewrite decide_True; [done|]. by rewrite (wf_length c Hc).
Qed.

Lemma wr_wf r v : in_s 64 v -> cpu_wf (wr c r v).
Proof.
  intros Hv. unfold wr. destruct r as [|r]; [done|].
  destruct Hc as [Hl Hr Hz Hm Ha]. split; cbn [x set_x unsigned_data_mask xlen vr_allocator]; try done.
  - by rewrite length_insert.
  - by apply Forall_insert.
  - by rewrite list_lookup_insert_ne.
Qed.

Lemma reg_wr_eq r v : valid_reg r -> r <> 0%nat -> reg (wr c r v) r = v.
Proof.
  intros Hr H0. unfold reg, wr. destruct r as [|r]; [done|]. cbn [x set_x].
  rewrite nth_lookup, list_lookup_insert_eq; [done|]. by rewrite (wf_length c Hc).
Qed.
End Regs.

Lemma reg_wr_ne c r r' v : r <> r' -> reg (wr c r v) r' = reg c r'.
Proof.
  intros H. unfold reg, wr. destruct r as [|r]; [done|]. cbn [x set_x].
  by rewrite !nth_lookup, list_lookup_insert_ne.
Qed.

Lemma wr_wr c r v w : wr (wr c r v) r w = wr c r w.
Proof. unfold wr. destruct r; [done|]. unfold set_x; cbn [x]. by rewrite list_insert_insert_eq. Qed.

Lemma wr_comm c r r' v w : r <> r' -> wr (wr c r v) r' w = wr (wr c r' w) r v.
Proof.
  intros H. unfold wr. destruct r, r'; try done. unfold set_x; cbn [x].
  by rewrite list_insert_insert_ne by done.
Qed.

Lemma xlen_wr c r v : xlen (wr c r v) = xlen c.
Proof. by destruct r. Qed.
Lemma mask_wr c r v : unsigned_data_mask (wr c r v) = unsigned_data_mask c.
Proof. by destruct r. Qed.
Lemma mmu_wr c r v : mmu (wr c r v) = mmu c.
Proof. by destruct r. Qed.
Lemma pc_wr c r v : pc (wr c r v) = pc c.
Proof. by destruct r. Qed.
Lemma allocator_wr c r v : vr_allocator (wr c r v) = vr_allocator c.
Proof. by destruct r. Qed.

Lemma unsigned_data_64 c v : cpu_wf c -> xlen c = Bit64 -> unsigned_data c v = as_u64 v.
Proof.
  intros Hc Hx. unfold unsigned_data. rewrite (wf_mask c Hc), Hx.
  change 0xffffffffffffffff with (Z.ones 64). rewrite Z.land_ones by lia.
  apply wrapu_wrapu. lia.
Qed.

(** ** Equivalence up to the instruction temporaries

    The temporaries 40 to 47 are dead between two instructions: two states
    that differ there only are the same architectural state. *)
Record same_arch (c c' : Cpu) : Prop := {
  same_regs : forall r, ~ instruction_reg r -> x c !! r = x c' !! r;
  same_mmu : same_space (mmu c) (mmu c');
  same_rest : set_mmu (set_x c []) (Mmu_new Bit64) = set_mmu (set_x c' []) (Mmu_new Bit64)
}.
Infix "≈" := same_arch (at level 70).

#[export] Instance same_arch_equiv : Equivalence same_arch.
Proof.
  split.
  - intros c. split; [done|reflexivity|done].
  - intros c c' [H1 H2 H3]. split; [|by symmetry|done]. intros r Hr. symmetry. by apply H1.
  - intros c1 c2 c3 [H1 H2 H3] [H4 H5 H6]. split; [|by transitivity (mmu c2)|congruence].
    intros r Hr. rewrite H1 by done. by apply H4.
Qed.

#[export] Instance wr_proper : Proper (same_arch ==> eq ==> eq ==> same_arch) wr.
Proof.
  intros c c' [Hr Hm He] r _ <- v _ <-. unfold wr. destruct r as [|r]; [by split|].
  split; cbn [x set_x mmu]; [|done|].
  - intros r' Hr'. destruct (decide (r' = S r)) as [->|].
    + specialize (Hr (S r) Hr').
      destruct (decide (S r < length (x c))%nat), (decide (S r < length (x c'))%nat).
      * by rewrite !list_lookup_insert_eq by done.
      * pose proof (lookup_ge_None_2 (x c') (S r)). rewrite H in Hr by lia.
        apply lookup_ge_None in Hr. lia.
      * pose proof (lookup_ge_None_2 (x c) (S r)). rewrite H in Hr by lia. symmetry in Hr.
        apply lookup_ge_None in Hr. lia.
      * by rewrite !list_insert_ge by lia.
    + rewrite !list_lookup_insert_ne by done. by apply Hr.
  - unfold set_x, set_mmu in *. cbn in *. by injection He as -> -> -> -> -> -> -> -> -> ->.
Qed.

(** A write to a temporary is invisible. *)
Lemma wr_temp c r v : instruction_reg r -> wr c r v ≈ c.
Proof.
  intros Hr. unfold wr. destruct r as [|r]; [done|]. split; [|done|done].
  intros r' Hr'. cbn [x set_x]. rewrite list_lookup_insert_ne; [done|]. by intros <-.
Qed.

Lemma same_arch_reg c c' r : c ≈ c' -> ~ instruction_reg r -> reg c r = reg c' r.
Proof. intros [H _ _] Hr. unfold reg. rewrite !nth_lookup. by rewrite (H r Hr). Qed.

Lemma wr_id c r : valid_reg r -> cpu_wf c -> wr c r (reg c r) = c.
Proof.
  intros Hr Hc. unfold wr. destruct r as [|r]; [done|]. unfold set_x.
  rewrite list_insert_id by (by apply lookup_reg). by destruct c.
Qed.
