(* ===== verification/Formats.v ===== *)
(** * Formats: the operand formats of the instructions

    Models [tracer/src/instruction/format/*.rs] for the register and memory formats: the
    operand structs, their extraction from a machine word ([parse]), the
    conversions to and from [NormalizedOperands], and the register values a
    cycle records before and after execution.  [unwrap] of a missing operand
    panics ([None]), as does [parse] of a virtual format. *)
From S2P Require Import Prelude Bits Registers AdviceTape Cpu.

Record FormatR := { R_rd : nat; R_rs1 : nat; R_rs2 : nat }.
Record FormatI := { I_rd : nat; I_rs1 : nat; I_imm : Z }.
Record FormatB := { B_rs1 : nat; B_rs2 : nat; B_imm : Z }.
Record FormatJ := { J_rd : nat; J_imm : Z }.
Record FormatU := { U_rd : nat; U_imm : Z }.
Record FormatVirtualRightShiftI := { VI_rd : nat; VI_rs1 : nat; VI_imm : Z }.
Record FormatVirtualRightShiftR := { VR_rd : nat; VR_rs1 : nat; VR_rs2 : nat }.
Record FormatAssert := { A_rs1 : nat; A_imm : Z }.
Record FormatLoad := { L_rd : nat; L_rs1 : nat; L_imm : Z }.
Record FormatS := { S_rs1 : nat; S_rs2 : nat; S_imm : Z }.
Record FormatAMO := { AMO_rd : nat; AMO_rs1 : nat; AMO_rs2 : nat }.

(** The register state of a cycle; a format fills the fields it has. *)
Record RegisterState := {
  rs1_value : option Z; rs2_value : option Z; rd_values : option (Z * Z)
}.

(** [((word >> k) & 0x1f) as u8] *)
Definition reg_field (word k : Z) : nat := Z.to_nat (Z.land (Z.shiftr word k) 0x1f).
(** [match word & 0x80000000 { 0x80000000 => high, _ => 0 }] *)
Definition sign_field (word high : Z) : Z :=
  if Z.land word 0x80000000 =? 0x80000000 then high else 0.
(** [as i32 as i64 as u64] *)
Definition sext_u64 (v : Z) : Z := as_u64 (as_i32 v).

(** [i128] values of a [u64] immediate and of a signed one. *)
Definition imm_as_u64 (imm : Z) : Z := as_u64 imm.

(** The trait [InstructionFormat]. *)
Class InstructionFormat (F : Type) := {
  parse : Z -> option F;
  of_operands : NormalizedOperands -> option F;
  to_operands : F -> NormalizedOperands;
  capture_pre_execution_state : F -> Cpu -> option RegisterState;
  (** The value added to [rd_values] after execution. *)
  capture_post_execution_state : F -> RegisterState -> Cpu -> option RegisterState;
  set_rd : F -> nat -> F
}.

(** *** Captures shared by the formats with the same registers *)
Definition capture_pre_rd_rs1_rs2 (rd rs1 rs2 : nat) (c : Cpu) : option RegisterState :=
  v1 ← normalize_register_value c rs1;
  v2 ← normalize_register_value c rs2;
  d ← normalize_register_value c rd;
  Some {| rs1_value := Some v1; rs2_value := Some v2; rd_values := Some (d, 0) |}.
Definition capture_pre_rd_rs1 (rd rs1 : nat) (c : Cpu) : option RegisterState :=
  v1 ← normalize_register_value c rs1;
  d ← normalize_register_value c rd;
  Some {| rs1_value := Some v1; rs2_value := None; rd_values := Some (d, 0) |}.
Definition capture_pre_rd (rd : nat) (c : Cpu) : option RegisterState :=
  d ← normalize_register_value c rd;
  Some {| rs1_value := None; rs2_value := None; rd_values := Some (d, 0) |}.
Definition capture_post_rd (rd : nat) (state : RegisterState) (c : Cpu) : option RegisterState :=
  d ← normalize_register_value c rd;
  Some {| rs1_value := rs1_value state; rs2_value := rs2_value state;
          rd_values := match rd_values state with Some (old, _) => Some (old, d) | None => None end |}.

(** *** format_r.rs *)
Definition FormatR_parse (word : Z) : FormatR :=
  {| R_rd := reg_field word 7; R_rs1 := reg_field word 15; R_rs2 := reg_field word 20 |}.
Definition FormatR_of_operands (o : NormalizedOperands) : option FormatR :=
  rd ← norm_rd o; rs1 ← norm_rs1 o; rs2 ← norm_rs2 o;
  Some {| R_rd := rd; R_rs1 := rs1; R_rs2 := rs2 |}.
Definition FormatR_to_operands (f : FormatR) : NormalizedOperands :=
  {| norm_rd := Some (R_rd f); norm_rs1 := Some (R_rs1 f); norm_rs2 := Some (R_rs2 f); norm_imm := 0 |}.
#[export] Instance FormatR_format : InstructionFormat FormatR := {
  parse w := Some (FormatR_parse w);
  of_operands := FormatR_of_operands;
  to_operands := FormatR_to_operands;
  capture_pre_execution_state f := capture_pre_rd_rs1_rs2 (R_rd f) (R_rs1 f) (R_rs2 f);
  capture_post_execution_state f := capture_post_rd (R_rd f);
  set_rd f rd := {| R_rd := rd; R_rs1 := R_rs1 f; R_rs2 := R_rs2 f |}
}.

(** *** format_i.rs *)
Definition FormatI_parse (word : Z) : FormatI :=
  {| I_rd := reg_field word 7; I_rs1 := reg_field word 15;
     I_imm := sext_u64 (Z.lor (sign_field word 0xfffff800)
                              (Z.land (Z.shiftr word 20) 0x7ff)) |}.
Definition FormatI_of_operands (o : NormalizedOperands) : option FormatI :=
  rd ← norm_rd o; rs1 ← norm_rs1 o;
  Some {| I_rd := rd; I_rs1 := rs1; I_imm := imm_as_u64 (norm_imm o) |}.
Definition FormatI_to_operands (f : FormatI) : NormalizedOperands :=
  {| norm_rd := Some (I_rd f); norm_rs1 := Some (I_rs1 f); norm_rs2 := None; norm_imm := I_imm f |}.
#[export] Instance FormatI_format : InstructionFormat FormatI := {
  parse w := Some (FormatI_parse w);
  of_operands := FormatI_of_operands;
  to_operands := FormatI_to_operands;
  capture_pre_execution_state f := capture_pre_rd_rs1 (I_rd f) (I_rs1 f);
  capture_post_execution_state f := capture_post_rd (I_rd f);
  set_rd f rd := {| I_rd := rd; I_rs1 := I_rs1 f; I_imm := I_imm f |}
}.

(** *** format_b.rs *)
Definition FormatB_parse (word : Z) : FormatB :=
  {| B_rs1 := reg_field word 15; B_rs2 := reg_field word 20;
     B_imm := as_i32 (Z.lor (Z.lor (Z.lor (sign_field word 0xfffff000)
                (Z.land (as_u32 (Z.shiftl word 4)) 0x800))
                (Z.land (Z.shiftr word 20) 0x7e0))
                (Z.land (Z.shiftr word 7) 0x1e)) |}.
Definition FormatB_of_operands (o : NormalizedOperands) : option FormatB :=
  rs1 ← norm_rs1 o; rs2 ← norm_rs2 o;
  Some {| B_rs1 := rs1; B_rs2 := rs2; B_imm := norm_imm o |}.
Definition FormatB_to_operands (f : FormatB) : NormalizedOperands :=
  {| norm_rd := None; norm_rs1 := Some (B_rs1 f); norm_rs2 := Some (B_rs2 f); norm_imm := B_imm f |}.
#[export] Instance FormatB_format : InstructionFormat FormatB := {
  parse w := Some (FormatB_parse w);
  of_operands := FormatB_of_operands;
  to_operands := FormatB_to_operands;
  capture_pre_execution_state f c :=
    v1 ← normalize_register_value c (B_rs1 f);
    v2 ← normalize_register_value c (B_rs2 f);
    Some {| rs1_value := Some v1; rs2_value := Some v2; rd_values := None |};
  capture_post_execution_state f state c := Some state;
  set_rd f rd := f
}.

(** *** format_j.rs *)
Definition FormatJ_parse (word : Z) : FormatJ :=
  {| J_rd := reg_field word 7;
     J_imm := sext_u64 (Z.lor (Z.lor (Z.lor (sign_field word 0xfff00000)
                (Z.land word 0x000ff000))
                (Z.shiftr (Z.land word 0x00100000) 9))
                (Z.shiftr (Z.land word 0x7fe00000) 20)) |}.
Definition FormatJ_of_operands (o : NormalizedOperands) : option FormatJ :=
  rd ← norm_rd o; Some {| J_rd := rd; J_imm := imm_as_u64 (norm_imm o) |}.
Definition FormatJ_to_operands (f : FormatJ) : NormalizedOperands :=
  {| norm_rd := Some (J_rd f); norm_rs1 := None; norm_rs2 := None; norm_imm := J_imm f |}.
#[export] Instance FormatJ_format : InstructionFormat FormatJ := {
  parse w := Some (FormatJ_parse w);
  of_operands := FormatJ_of_operands;
  to_operands := FormatJ_to_operands;
  capture_pre_execution_state f := capture_pre_rd (J_rd f);
  capture_post_execution_state f := capture_post_rd (J_rd f);
  set_rd f rd := {| J_rd := rd; J_imm := J_imm f |}
}.

(** *** format_u.rs *)
Definition FormatU_parse (word : Z) : FormatU :=
  {| U_rd := reg_field word 7;
     U_imm := sext_u64 (Z.lor (sign_field word 0xffffffff00000000)
                              (Z.land word 0xfffff000)) |}.
Definition FormatU_of_operands (o : NormalizedOperands) : option FormatU :=
  rd ← norm_rd o; Some {| U_rd := rd; U_imm := imm_as_u64 (norm_imm o) |}.
Definition FormatU_to_operands (f : FormatU) : NormalizedOperands :=
  {| norm_rd := Some (U_rd f); norm_rs1 := None; norm_rs2 := None; norm_imm := U_imm f |}.
#[export] Instance FormatU_format : InstructionFormat FormatU := {
  parse w := Some (FormatU_parse w);
  of_operands := FormatU_of_operands;
  to_operands := FormatU_to_operands;
  capture_pre_execution_state f := capture_pre_rd (U_rd f);
  capture_post_execution_state f := capture_post_rd (U_rd f);
  set_rd f rd := {| U_rd := rd; U_imm := U_imm f |}
}.

(** *** format_virtual_right_shift_i.rs *)
Definition FormatVirtualRightShiftI_of_operands (o : NormalizedOperands) : option FormatVirtualRightShiftI :=
  rd ← norm_rd o; rs1 ← norm_rs1 o;
  Some {| VI_rd := rd; VI_rs1 := rs1; VI_imm := imm_as_u64 (norm_imm o) |}.
Definition FormatVirtualRightShiftI_to_operands (f : FormatVirtualRightShiftI) : NormalizedOperands :=
  {| norm_rd := Some (VI_rd f); norm_rs1 := Some (VI_rs1 f); norm_rs2 := None; norm_imm := VI_imm f |}.
#[export] Instance FormatVirtualRightShiftI_format : InstructionFormat FormatVirtualRightShiftI := {
  parse w := None;
  of_operands := FormatVirtualRightShiftI_of_operands;
  to_operands := FormatVirtualRightShiftI_to_operands;
  capture_pre_execution_state f := capture_pre_rd_rs1 (VI_rd f) (VI_rs1 f);
  capture_post_execution_state f := capture_post_rd (VI_rd f);
  set_rd f rd := {| VI_rd := rd; VI_rs1 := VI_rs1 f; VI_imm := VI_imm f |}
}.

(** *** format_virtual_right_shift_r.rs *)
Definition FormatVirtualRightShiftR_of_operands (o : NormalizedOperands) : option FormatVirtualRightShiftR :=
  rd ← norm_rd o; rs1 ← norm_rs1 o; rs2 ← norm_rs2 o;
  Some {| VR_rd := rd; VR_rs1 := rs1; VR_rs2 := rs2 |}.
Definition FormatVirtualRightShiftR_to_operands (f : FormatVirtualRightShiftR) : NormalizedOperands :=
  {| norm_rd := Some (VR_rd f); norm_rs1 := Some (VR_rs1 f); norm_rs2 := Some (VR_rs2 f); norm_imm := 0 |}.
#[export] Instance FormatVirtualRightShiftR_format : InstructionFormat FormatVirtualRightShiftR := {
  parse w := None;
  of_operands := FormatVirtualRightShiftR_of_operands;
  to_operands := FormatVirtualRightShiftR_to_operands;
  capture_pre_execution_state f := capture_pre_rd_rs1_rs2 (VR_rd f) (VR_rs1 f) (VR_rs2 f);
  capture_post_execution_state f := capture_post_rd (VR_rd f);
  set_rd f rd := {| VR_rd := rd; VR_rs1 := VR_rs1 f; VR_rs2 := VR_rs2 f |}
}.

(** *** format_assert_align.rs *)
Definition FormatAssert_of_operands (o : NormalizedOperands) : option FormatAssert :=
  rs1 ← norm_rs1 o; Some {| A_rs1 := rs1; A_imm := as_i64 (norm_imm o) |}.
Definition FormatAssert_to_operands (f : FormatAssert) : NormalizedOperands :=
  {| norm_rd := None; norm_rs1 := Some (A_rs1 f); norm_rs2 := None; norm_imm := A_imm f |}.
#[export] Instance FormatAssert_format : InstructionFormat FormatAssert := {
  parse w := None;
  of_operands := FormatAssert_of_operands;
  to_operands := FormatAssert_to_operands;
  capture_pre_execution_state f c :=
    v1 ← normalize_register_value c (A_rs1 f);
    Some {| rs1_value := Some v1; rs2_value := None; rd_values := None |};
  capture_post_execution_state f state c := Some state;
  set_rd f rd := f
}.

(** *** format_load.rs *)
Definition FormatLoad_parse (word : Z) : FormatLoad :=
  {| L_rd := reg_field word 7; L_rs1 := reg_field word 15;
     L_imm := as_i32 (Z.lor (sign_field word 0xfffff800)
                            (Z.land (Z.shiftr word 20) 0x7ff)) |}.
Definition FormatLoad_of_operands (o : NormalizedOperands) : option FormatLoad :=
  rd ← norm_rd o; rs1 ← norm_rs1 o;
  Some {| L_rd := rd; L_rs1 := rs1; L_imm := as_i64 (norm_imm o) |}.
Definition FormatLoad_to_operands (f : FormatLoad) : NormalizedOperands :=
  {| norm_rd := Some (L_rd f); norm_rs1 := Some (L_rs1 f); norm_rs2 := None; norm_imm := L_imm f |}.
#[export] Instance FormatLoad_format : InstructionFormat FormatLoad := {
  parse w := Some (FormatLoad_parse w);
  of_operands := FormatLoad_of_operands;
  to_operands := FormatLoad_to_operands;
  capture_pre_execution_state f := capture_pre_rd_rs1 (L_rd f) (L_rs1 f);
  capture_post_execution_state f := capture_post_rd (L_rd f);
  set_rd f rd := {| L_rd := rd; L_rs1 := L_rs1 f; L_imm := L_imm f |}
}.

(** *** format_s.rs *)
Definition FormatS_parse (word : Z) : FormatS :=
  {| S_rs1 := reg_field word 15; S_rs2 := reg_field word 20;
     S_imm := as_i32 (Z.lor (Z.lor (sign_field word 0xfffff000)
                (Z.land (Z.shiftr word 20) 0xfe0))
                (Z.land (Z.shiftr word 7) 0x1f)) |}.
Definition FormatS_of_operands (o : NormalizedOperands) : option FormatS :=
  rs1 ← norm_rs1 o; rs2 ← norm_rs2 o;
  Some {| S_rs1 := rs1; S_rs2 := rs2; S_imm := as_i64 (norm_imm o) |}.
Definition FormatS_to_operands (f : FormatS) : NormalizedOperands :=
  {| norm_rd := None; norm_rs1 := Some (S_rs1 f); norm_rs2 := Some (S_rs2 f); norm_imm := S_imm f |}.
#[export] Instance FormatS_format : InstructionFormat FormatS := {
  parse w := Some (FormatS_parse w);
  of_operands := FormatS_of_operands;
  to_operands := FormatS_to_operands;
  capture_pre_execution_state f c :=
    v1 ← normalize_register_value c (S_rs1 f);
    v2 ← normalize_register_value c (S_rs2 f);
    Some {| rs1_value := Some v1; rs2_value := Some v2; rd_values := None |};
  capture_post_execution_state f state c := Some state;
  set_rd f rd := f
}.

(** *** format_amo.rs *)
Definition FormatAMO_parse (word : Z) : FormatAMO :=
  {| AMO_rd := reg_field word 7; AMO_rs1 := reg_field word 15; AMO_rs2 := reg_field word 20 |}.
Definition FormatAMO_of_operands (o : NormalizedOperands) : option FormatAMO :=
  rd ← norm_rd o; rs1 ← norm_rs1 o; rs2 ← norm_rs2 o;
  Some {| AMO_rd := rd; AMO_rs1 := rs1; AMO_rs2 := rs2 |}.
Definition FormatAMO_to_operands (f : FormatAMO) : NormalizedOperands :=
  {| norm_rd := Some (AMO_rd f); norm_rs1 := Some (AMO_rs1 f); norm_rs2 := Some (AMO_rs2 f); norm_imm := 0 |}.
#[export] Instance FormatAMO_format : InstructionFormat FormatAMO := {
  parse w := Some (FormatAMO_parse w);
  of_operands := FormatAMO_of_operands;
  to_operands := FormatAMO_to_operands;
  capture_pre_execution_state f := capture_pre_rd_rs1_rs2 (AMO_rd f) (AMO_rs1 f) (AMO_rs2 f);
  capture_post_execution_state f := capture_post_rd (AMO_rd f);
  set_rd f rd := {| AMO_rd := rd; AMO_rs1 := AMO_rs1 f; AMO_rs2 := AMO_rs2 f |}
}.

(** ** [parse] agrees with the RISC-V immediate encodings

    An immediate of the instruction formats is a list of bit positions of the
    word, least significant first ([None] is a zero bit), the last of them the
    sign: the figures of the instruction-set manual. *)
Definition S_bits : list (option nat) := map Some (seq 7 5 ++ seq 25 6 ++ [31%nat]).
Definition I_bits : list (option nat) := map Some (seq 20 11 ++ [31%nat]).
Definition B_bits : list (option nat) := None :: map Some (seq 8 4 ++ seq 25 6 ++ [7%nat] ++ [31%nat]).
Definition J_bits : list (option nat) := None :: map Some (seq 21 10 ++ [20%nat] ++ seq 12 8 ++ [31%nat]).
Definition U_bits : list (option nat) := replicate 12 None ++ map Some (seq 12 20).
Definition signed_imm (word : Z) (bits : list (option nat)) : Z :=
  wraps (Z.of_nat (length bits)) (denote word bits).
(** The five bits of a register number. *)
Definition reg_bits (word : Z) (k : nat) : nat := Z.to_nat (denote word (map Some (seq k 5))).

Section Parse.
Context (word : Z).
Abbreviation D l := (denote word l).

Lemma denote_app l1 l2 : D (l1 ++ l2) = D l1 + 2 ^ Z.of_nat (length l1) * D l2.
Proof.
  induction l1 as [|o t IH]; cbn [app denote length]; [change (2 ^ Z.of_nat 0) with 1; lia|].
  rewrite IH, Nat2Z.inj_succ, Z.pow_succ_r by lia. ring.
Qed.

Lemma denote_replicate k s : D (replicate k s) = (2 ^ Z.of_nat k - 1) * b2z (sym_bit word s).
Proof.
  induction k as [|k IH]; cbn [replicate denote]; [done|].
  rewrite IH, Nat2Z.inj_succ, Z.pow_succ_r by lia. ring.
Qed.

Lemma denote_range l : 0 <= D l < 2 ^ Z.of_nat (length l).
Proof.
  induction l as [|o t IH]; cbn [denote length]; [done|].
  rewrite Nat2Z.inj_succ, Z.pow_succ_r by lia. pose proof (b2z_range (sym_bit word o)). lia.
Qed.

(** Copies of the sign bit do not change the signed value. *)
Lemma signed_value l s k : (0 < k)%nat ->
  signed_imm word (l ++ replicate k s) = D l - 2 ^ Z.of_nat (length l) * b2z (sym_bit word s).
Proof.
  intros Hk. unfold signed_imm. rewrite denote_app, denote_replicate, length_app, length_replicate.
  rewrite Nat2Z.inj_add. pose proof (denote_range l) as Hl.
  set (m := Z.of_nat (length l)) in *. set (n := Z.of_nat k).
  assert (Hp : 2 ^ (m + n) = 2 ^ m * 2 ^ n) by (apply Z.pow_add_r; lia).
  pose proof (pow2_half (m + n) ltac:(lia)). pose proof (Z.pow_le_mono_r 2 m (m + n - 1)).
  destruct (sym_bit word s); cbn [b2z].
  - replace (D l + 2 ^ m * ((2 ^ n - 1) * 1)) with (D l - 2 ^ m + 1 * 2 ^ (m + n)) by lia.
    rewrite wraps_add_mul by lia. rewrite wraps_small by (lia || unfold in_s; lia). ring.
  - rewrite !Z.mul_0_r, Z.add_0_r, Z.sub_0_r. apply wraps_small; [lia|unfold in_s; lia].
Qed.

Lemma signed_extend l s k : signed_imm word (l ++ s :: replicate k s) = signed_imm word (l ++ [s]).
Proof.
  change (s :: replicate k s) with (replicate (S k) s). change [s] with (replicate 1 s).
  rewrite !signed_value by lia. done.
Qed.

Lemma sign_field_denote high : in_u 32 high ->
  sign_field word high = D (map (fun j => if Z.testbit high (Z.of_nat j) then Some 31%nat else None) (seq 0 32)).
Proof.
  intros Hh. apply Z.bits_inj'. intros j Hj. rewrite testbit_denote by done.
  rewrite nth_lookup, list_lookup_fmap. unfold sign_field.
  assert (E : (Z.land word 0x80000000 =? 0x80000000) = Z.testbit word 31).
  { change 0x80000000 with (2 ^ 31). apply eq_bool_prop_intro. rewrite Is_true_true, Z.eqb_eq. split.
    - intros H. apply (f_equal (fun z => Z.testbit z 31)) in H.
      rewrite Z.land_spec, Z.pow2_bits_true, andb_true_r in H by lia. by rewrite H.
    - intros H%Is_true_true. apply Z.bits_inj'. intros k Hk. rewrite Z.land_spec, Z.pow2_bits_eqb by lia.
      destruct (Z.eqb_spec 31 k) as [<-|]; [by rewrite H|apply andb_false_r]. }
  rewrite E. destruct (decide (j < 32)).
  - rewrite lookup_seq_lt by lia. cbn [fmap option_fmap option_map default Nat.add]. rewrite Z2Nat.id by lia.
    destruct (Z.testbit word 31) eqn:Ew, (Z.testbit high j); cbn [sym_bit]; rewrite ?Z.bits_0; try done.
  - rewrite lookup_seq_ge by lia. cbn [fmap option_fmap option_map default sym_bit]. destruct (Z.testbit word 31); [|apply Z.bits_0].
    apply (testbit_out 32); [done|lia].
Qed.
End Parse.

Section Immediates.
Context (word : Z) (Hw : in_u 32 word).

Lemma reg_field_bits k : (k < 28)%nat -> reg_field word (Z.of_nat k) = reg_bits word k.
Proof.
  intros Hk. unfold reg_field, reg_bits. f_equal. apply Z.bits_inj'. intros j Hj.
  rewrite testbit_denote, Z.land_spec, Z.shiftr_spec by done. change 0x1f with (Z.ones 5).
  rewrite nth_lookup, list_lookup_fmap. destruct (decide (j < 5)).
  - rewrite Z.ones_spec_low, andb_true_r, lookup_seq_lt by lia.
    cbn [fmap option_fmap option_map default id sym_bit]. f_equal. lia.
  - rewrite Z.ones_spec_high, andb_false_r, lookup_seq_ge by lia. done.
Qed.

Lemma I_imm_bits : I_imm (FormatI_parse word) = as_u64 (signed_imm word I_bits).
Proof.
  cbn [I_imm FormatI_parse]. unfold sext_u64. f_equal.
  rewrite sign_field_denote by (unfold in_u; lia). rewrite <- (denote_id word 32 Hw) at 2.
  change 20 with (Z.of_nat 20). rewrite <- sym_shiftr_ok, <- sym_land_ok.
  erewrite <- sym_lor_ok by (vm_compute; reflexivity).
  exact (signed_extend word (map Some (seq 20 11)) (Some 31%nat) 20).
Qed.

Lemma B_imm_bits : B_imm (FormatB_parse word) = signed_imm word B_bits.
Proof.
  cbn [B_imm FormatB_parse]. rewrite sign_field_denote by (unfold in_u; lia).
  rewrite <- (denote_id word 32 Hw) at 2 3 4.
  change 20 with (Z.of_nat 20). change 7 with (Z.of_nat 7). change 4 with (Z.of_nat 4).
  change 32 with (Z.of_nat 32) at 2. rewrite <- !sym_shiftr_ok, <- sym_shiftl_ok, <- !sym_land_ok.
  do 3 (erewrite <- sym_lor_ok by (vm_compute; reflexivity)).
  exact (signed_extend word (None :: map Some (seq 8 4 ++ seq 25 6 ++ [7%nat])) (Some 31%nat) 19).
Qed.

Lemma L_imm_bits : L_imm (FormatLoad_parse word) = signed_imm word I_bits.
Proof.
  cbn [L_imm FormatLoad_parse].
  rewrite sign_field_denote by (unfold in_u; lia). rewrite <- (denote_id word 32 Hw) at 2.
  change 20 with (Z.of_nat 20). rewrite <- sym_shiftr_ok, <- sym_land_ok.
  erewrite <- sym_lor_ok by (vm_compute; reflexivity).
  exact (signed_extend word (map Some (seq 20 11)) (Some 31%nat) 20).
Qed.

Lemma S_imm_bits : S_imm (FormatS_parse word) = signed_imm word S_bits.
Proof.
  cbn [S_imm FormatS_parse]. rewrite sign_field_denote by (unfold in_u; lia).
  rewrite <- (denote_id word 32 Hw) at 2 3.
  change 20 with (Z.of_nat 20). change 7 with (Z.of_nat 7). rewrite <- !sym_shiftr_ok, <- !sym_land_ok.
  do 2 (erewrite <- sym_lor_ok by (vm_compute; reflexivity)).
  exact (signed_extend word (map Some (seq 7 5 ++ seq 25 6)) (Some 31%nat) 20).
Qed.

Lemma J_imm_bits : J_imm (FormatJ_parse word) = as_u64 (signed_imm word J_bits).
Proof.
  cbn [J_imm FormatJ_parse]. unfold sext_u64. f_equal.
  rewrite sign_field_denote by (unfold in_u; lia). rewrite <- (denote_id word 32 Hw) at 2 3 4.
  change 20 with (Z.of_nat 20). change 9 with (Z.of_nat 9).
  rewrite <- !sym_land_ok, <- !sym_shiftr_ok.
  do 3 (erewrite <- sym_lor_ok by (vm_compute; reflexivity)).
  exact (signed_extend word (None :: map Some (seq 21 10 ++ [20%nat] ++ seq 12 8)) (Some 31%nat) 11).
Qed.

(** The 64-bit mask [FormatU] extends with lies above the 32 bits kept. *)
Lemma U_imm_bits : U_imm (FormatU_parse word) = as_u64 (signed_imm word U_bits).
Proof.
  cbn [U_imm FormatU_parse]. unfold sext_u64. f_equal.
  assert (E : as_i32 (Z.lor (sign_field word 0xffffffff00000000) (Z.land word 0xfffff000)) =
              as_i32 (Z.land word 0xfffff000)).
  { apply wraps_eqm; [lia|]. apply Z.bits_inj'. intros j Hj. unfold wrapu.
    rewrite !Z.testbit_mod_pow2, Z.lor_spec by lia. destruct (Z.ltb_spec j 32); [|done].
    replace (Z.testbit (sign_field word 0xffffffff00000000) j) with false; [done|].
    unfold sign_field. destruct (_ =? _); [|by rewrite Z.bits_0].
    change 0xffffffff00000000 with (Z.shiftl (Z.ones 32) 32).
    by rewrite Z.shiftl_spec, Z.testbit_neg_r by lia. }
  rewrite E. rewrite <- (denote_id word 32 Hw) at 1. rewrite <- sym_land_ok. reflexivity.
Qed.
End Immediates.

(** C36: [parse] extracts the operands the instruction-set manual assigns to
    the I, load, S, B, J and U formats: the register numbers are the five-bit fields and
    the immediate is the two's-complement value of its scattered bits, sign
    extended to the type of the operand. *)
Theorem parse_operands word :
  in_u 32 word ->
  FormatI_parse word =
    {| I_rd := reg_bits word 7; I_rs1 := reg_bits word 15; I_imm := as_u64 (signed_imm word I_bits) |} /\
  FormatLoad_parse word =
    {| L_rd := reg_bits word 7; L_rs1 := reg_bits word 15; L_imm := signed_imm word I_bits |} /\
  FormatS_parse word =
    {| S_rs1 := reg_bits word 15; S_rs2 := reg_bits word 20; S_imm := signed_imm word S_bits |} /\
  FormatB_parse word =
    {| B_rs1 := reg_bits word 15; B_rs2 := reg_bits word 20; B_imm := signed_imm word B_bits |} /\
  FormatJ_parse word = {| J_rd := reg_bits word 7; J_imm := as_u64 (signed_imm word J_bits) |} /\
  FormatU_parse word = {| U_rd := reg_bits word 7; U_imm := as_u64 (signed_imm word U_bits) |}.
Proof.
  intros Hw. rewrite <- I_imm_bits, <- L_imm_bits, <- S_imm_bits, <- B_imm_bits, <- J_imm_bits, <- U_imm_bits by done.
  rewrite <- !reg_field_bits by lia. done.
Qed.

(** [addi x1, x2, -1], [sd x1, -8(x2)], [beq x1, x2, -4], [jal x1, -2] and [lui x1, 0x80000]. *)
Lemma parse_operands_witness :
  I_imm (FormatI_parse 0xfff10093) = as_u64 (signed_imm 0xfff10093 I_bits) /\
  signed_imm 0xfff10093 I_bits = -1 /\ signed_imm 0xfe113c23 S_bits = -8 /\ signed_imm 0xfe208ee3 B_bits = -4 /\
  signed_imm 0xfffff0ef J_bits = -2 /\ signed_imm 0x800000b7 U_bits = - 2 ^ 31.
Proof.
  destruct (parse_operands 0xfff10093) as (H & _); [unfold in_u; lia|].
  split; [by rewrite H|]. by vm_compute.
Defined.
