(* ===== verification/Instr.v ===== *)
(** * Instr: the instructions and their execution

    Models the [exec] of the integer, memory and atomic instructions of
    [tracer/src/instruction/*.rs], real and virtual: the whole handler, its
    panics and assertion failures being [None].  CSR, system, host and
    inline-crate instructions are not constructors of [Op]. *)
From S2P Require Import Prelude Bits Registers AdviceTape Mmu Cpu Formats.
Open Scope Z_scope.

(** The instructions of the enum [Instruction] (instruction/mod.rs),
    with the operands of each struct; [VirtualAdvice] also has its advice. *)
Inductive Op :=
| ADD (o : FormatR) | ADDI (o : FormatI) | AND (o : FormatR) | ANDI (o : FormatI)
| ANDN (o : FormatR) | AUIPC (o : FormatU) | BEQ (o : FormatB) | BGE (o : FormatB)
| BGEU (o : FormatB) | BLT (o : FormatB) | BLTU (o : FormatB) | BNE (o : FormatB)
| DIV (o : FormatR) | DIVU (o : FormatR) | JAL (o : FormatJ) | JALR (o : FormatI)
| LUI (o : FormatU) | MUL (o : FormatR) | MULH (o : FormatR) | MULHSU (o : FormatR)
| MULHU (o : FormatR) | OR (o : FormatR) | ORI (o : FormatI) | REM (o : FormatR)
| REMU (o : FormatR) | SLL (o : FormatR) | SLLI (o : FormatI) | SLT (o : FormatR)
| SLTI (o : FormatI) | SLTIU (o : FormatI) | SLTU (o : FormatR) | SRA (o : FormatR)
| SRAI (o : FormatI) | SRL (o : FormatR) | SRLI (o : FormatI) | SUB (o : FormatR)
| XOR (o : FormatR) | XORI (o : FormatI)
| ADDIW (o : FormatI) | SLLIW (o : FormatI) | SRLIW (o : FormatI) | SRAIW (o : FormatI)
| ADDW (o : FormatR) | SUBW (o : FormatR) | SLLW (o : FormatR) | SRLW (o : FormatR)
| SRAW (o : FormatR)
| DIVUW (o : FormatR) | DIVW (o : FormatR) | MULW (o : FormatR) | REMUW (o : FormatR)
| REMW (o : FormatR)
| VirtualAdvice (o : FormatJ) (advice : Z) | VirtualAdviceLen (o : FormatI)
| VirtualAdviceLoad (o : FormatJ)
| VirtualAssertEQ (o : FormatB) | VirtualAssertHalfwordAlignment (o : FormatAssert)
| VirtualAssertWordAlignment (o : FormatAssert) | VirtualAssertLTE (o : FormatB)
| VirtualAssertValidDiv0 (o : FormatB) | VirtualAssertValidUnsignedRemainder (o : FormatB)
| VirtualAssertMulUNoOverflow (o : FormatB)
| VirtualChangeDivisor (o : FormatR) | VirtualChangeDivisorW (o : FormatR)
| VirtualZeroExtendWord (o : FormatI) | VirtualSignExtendWord (o : FormatI)
| VirtualPow2W (o : FormatI) | VirtualPow2IW (o : FormatJ)
| VirtualMovsign (o : FormatI) | VirtualMULI (o : FormatI) | VirtualPow2 (o : FormatI)
| VirtualPow2I (o : FormatJ) | VirtualRev8W (o : FormatI)
| VirtualROTRI (o : FormatVirtualRightShiftI) | VirtualROTRIW (o : FormatVirtualRightShiftI)
| VirtualShiftRightBitmask (o : FormatI) | VirtualShiftRightBitmaskI (o : FormatJ)
| VirtualSRA (o : FormatVirtualRightShiftR) | VirtualSRAI (o : FormatVirtualRightShiftI)
| VirtualSRL (o : FormatVirtualRightShiftR) | VirtualSRLI (o : FormatVirtualRightShiftI)
| VirtualXORROT32 (o : FormatR) | VirtualXORROT24 (o : FormatR) | VirtualXORROT16 (o : FormatR)
| VirtualXORROT63 (o : FormatR) | VirtualXORROTW16 (o : FormatR) | VirtualXORROTW12 (o : FormatR)
| VirtualXORROTW8 (o : FormatR) | VirtualXORROTW7 (o : FormatR)
| LB (o : FormatLoad) | LBU (o : FormatLoad) | LD (o : FormatLoad) | LH (o : FormatLoad)
| LHU (o : FormatLoad) | LW (o : FormatLoad) | LWU (o : FormatLoad)
| SB (o : FormatS) | SD (o : FormatS) | SH (o : FormatS) | SW (o : FormatS)
| VirtualLW (o : FormatI) | VirtualSW (o : FormatS)
| AMOADDD (o : FormatAMO) | AMOADDW (o : FormatAMO) | AMOANDD (o : FormatAMO) | AMOANDW (o : FormatAMO)
| AMOMAXD (o : FormatAMO) | AMOMAXUD (o : FormatAMO) | AMOMAXUW (o : FormatAMO) | AMOMAXW (o : FormatAMO)
| AMOMIND (o : FormatAMO) | AMOMINUD (o : FormatAMO) | AMOMINUW (o : FormatAMO) | AMOMINW (o : FormatAMO)
| AMOORD (o : FormatAMO) | AMOORW (o : FormatAMO) | AMOSWAPD (o : FormatAMO) | AMOSWAPW (o : FormatAMO)
| AMOXORD (o : FormatAMO) | AMOXORW (o : FormatAMO)
| LRD (o : FormatR) | LRW (o : FormatR) | SCD (o : FormatR) | SCW (o : FormatR).

(** *** Machine operations of Rust's integer types *)

(** [i64::wrapping_shl/shr] and [u64::wrapping_shr]: the amount modulo 64. *)
Definition wrapping_shl (a n : Z) : Z := as_i64 (Z.shiftl a (n mod 64)).
Definition wrapping_shr (a n : Z) : Z := Z.shiftr a (n mod 64).
(** [trailing_zeros] of a [u64]. *)
Definition trailing_zeros_64 (v : Z) : Z := trailing_zeros 64 (as_u64 v).
(** [/] and [%] of [w]-bit signed integers: they panic on a zero divisor and on
    overflow.  [wrapping_div] and [wrapping_rem] panic on zero only. *)
Definition i_div (w a b : Z) : option Z :=
  if (b =? 0) || ((a =? - 2 ^ (w - 1)) && (b =? -1)) then None else Some (Z.quot a b).
Definition i_rem (w a b : Z) : option Z :=
  if (b =? 0) || ((a =? - 2 ^ (w - 1)) && (b =? -1)) then None else Some (Z.rem a b).
Definition wrapping_div (w a b : Z) : option Z :=
  if b =? 0 then None else Some (wraps w (Z.quot a b)).
Definition wrapping_rem (w a b : Z) : option Z :=
  if b =? 0 then None else Some (wraps w (Z.rem a b)).
(** [/] and [%] of unsigned integers. *)
Definition u_div (a b : Z) : option Z := if b =? 0 then None else Some (a / b).
Definition u_rem (a b : Z) : option Z := if b =? 0 then None else Some (a mod b).
(** [assert!(b)] *)
Definition assert (b : bool) (c : Cpu) : option Cpu := if b then Some c else None.
Definition u32_MAX : Z := 2 ^ 32 - 1.
Definition u64_MAX : Z := 2 ^ 64 - 1.
(** ** [exec] of each instruction *)
Section Exec.
Context (c : Cpu).
Abbreviation imm64 i := (normalize_imm i (xlen c)).

(** *** Arithmetic and logic *)
Definition ADD_exec (o : FormatR) : option Cpu :=
  a ← x c !! R_rs1 o; b ← x c !! R_rs2 o;
  write_register c (R_rd o) (sign_extend c (as_i64 (a + b))).
Definition ADDI_exec (o : FormatI) : option Cpu :=
  a ← x c !! I_rs1 o;
  write_register c (I_rd o) (sign_extend c (as_i64 (a + imm64 (I_imm o)))).
Definition SUB_exec (o : FormatR) : option Cpu :=
  a ← x c !! R_rs1 o; b ← x c !! R_rs2 o;
  write_register c (R_rd o) (sign_extend c (as_i64 (a - b))).
Definition AND_exec (o : FormatR) : option Cpu :=
  a ← x c !! R_rs1 o; b ← x c !! R_rs2 o;
  write_register c (R_rd o) (sign_extend c (Z.land a b)).
Definition ANDI_exec (o : FormatI) : option Cpu :=
  a ← x c !! I_rs1 o;
  write_register c (I_rd o) (sign_extend c (Z.land a (imm64 (I_imm o)))).
Definition ANDN_exec (o : FormatR) : option Cpu :=
  a ← x c !! R_rs1 o; b ← x c !! R_rs2 o;
  write_register c (R_rd o) (sign_extend c (Z.land a (Z.lnot b))).
Definition OR_exec (o : FormatR) : option Cpu :=
  a ← x c !! R_rs1 o; b ← x c !! R_rs2 o;
  write_register c (R_rd o) (sign_extend c (Z.lor a b)).
Definition ORI_exec (o : FormatI) : option Cpu :=
  a ← x c !! I_rs1 o;
  write_register c (I_rd o) (sign_extend c (Z.lor a (imm64 (I_imm o)))).
Definition XOR_exec (o : FormatR) : option Cpu :=
  a ← x c !! R_rs1 o; b ← x c !! R_rs2 o;
  write_register c (R_rd o) (sign_extend c (Z.lxor a b)).
Definition XORI_exec (o : FormatI) : option Cpu :=
  a ← x c !! I_rs1 o;
  write_register c (I_rd o) (sign_extend c (Z.lxor a (imm64 (I_imm o)))).
Definition SLT_exec (o : FormatR) : option Cpu :=
  a ← x c !! R_rs1 o; b ← x c !! R_rs2 o;
  write_register c (R_rd o) (b2z (a <? b)).
Definition SLTI_exec (o : FormatI) : option Cpu :=
  a ← x c !! I_rs1 o;
  write_register c (I_rd o) (b2z (a <? imm64 (I_imm o))).
Definition SLTU_exec (o : FormatR) : option Cpu :=
  a ← x c !! R_rs1 o; b ← x c !! R_rs2 o;
  write_register c (R_rd o) (b2z (unsigned_data c a <? unsigned_data c b)).
Definition SLTIU_exec (o : FormatI) : option Cpu :=
  a ← x c !! I_rs1 o;
  write_register c (I_rd o) (b2z (unsigned_data c a <? unsigned_data c (imm64 (I_imm o)))).
Definition LUI_exec (o : FormatU) : option Cpu :=
  write_register c (U_rd o) (imm64 (U_imm o)).
Definition AUIPC_exec (address : Z) (o : FormatU) : option Cpu :=
  let pc := as_i64 address in
  let imm := imm64 (U_imm o) in
  write_register c (U_rd o) (sign_extend c (as_i64 (pc + imm))).

(** *** Branches and jumps *)
Definition branch_target (address imm : Z) : Z := as_u64 (as_i64 (as_i64 address + as_i64 imm)).
Definition BEQ_exec (address : Z) (o : FormatB) : option Cpu :=
  a ← x c !! B_rs1 o; b ← x c !! B_rs2 o;
  Some (if sign_extend c a =? sign_extend c b then update_pc c (branch_target address (B_imm o)) else c).
Definition BNE_exec (address : Z) (o : FormatB) : option Cpu :=
  a ← x c !! B_rs1 o; b ← x c !! B_rs2 o;
  Some (if negb (sign_extend c a =? sign_extend c b)
        then update_pc c (branch_target address (B_imm o)) else c).
Definition BLT_exec (address : Z) (o : FormatB) : option Cpu :=
  a ← x c !! B_rs1 o; b ← x c !! B_rs2 o;
  Some (if sign_extend c a <? sign_extend c b then update_pc c (branch_target address (B_imm o)) else c).
Definition BGE_exec (address : Z) (o : FormatB) : option Cpu :=
  a ← x c !! B_rs1 o; b ← x c !! B_rs2 o;
  Some (if sign_extend c b <=? sign_extend c a then update_pc c (branch_target address (B_imm o)) else c).
Definition BLTU_exec (address : Z) (o : FormatB) : option Cpu :=
  a ← x c !! B_rs1 o; b ← x c !! B_rs2 o;
  Some (if unsigned_data c a <? unsigned_data c b
        then update_pc c (branch_target address (B_imm o)) else c).
Definition BGEU_exec (address : Z) (o : FormatB) : option Cpu :=
  a ← x c !! B_rs1 o; b ← x c !! B_rs2 o;
  Some (if unsigned_data c b <=? unsigned_data c a
        then update_pc c (branch_target address (B_imm o)) else c).
Definition JAL_exec (address : Z) (o : FormatJ) : option Cpu :=
  c' ← (if decide (J_rd o <> 0)%nat then
          let c := if decide (J_rd o = 1)%nat then track_call c address (FormatJ_to_operands o) else c in
          write_register c (J_rd o) (sign_extend c (as_i64 (pc c)))
        else Some c);
  Some (update_pc c' (as_u64 (as_i64 (as_i64 address + normalize_imm (J_imm o) (xlen c'))))).
Definition JALR_exec (address : Z) (o : FormatI) : option Cpu :=
  let tmp := sign_extend c (as_i64 (pc c)) in
  a ← x c !! I_rs1 o;
  let c := update_pc c (Z.land (as_u64 (as_i64 (a + imm64 (I_imm o)))) (as_u64 (Z.lnot 1))) in
  if decide (I_rd o <> 0)%nat then
    let c := if decide (I_rd o = 1)%nat then track_call c address (FormatI_to_operands o) else c in
    write_register c (I_rd o) tmp
  else Some c.

(** *** Multiplication *)
Definition MUL_exec (o : FormatR) : option Cpu :=
  a ← x c !! R_rs1 o; b ← x c !! R_rs2 o;
  write_register c (R_rd o) (sign_extend c (as_i64 (a * b))).
Definition MULH_exec (o : FormatR) : option Cpu :=
  a ← x c !! R_rs1 o; b ← x c !! R_rs2 o;
  write_register c (R_rd o)
    (match xlen c with
     | Bit32 => sign_extend c (Z.shiftr (as_i64 (a * b)) 32)
     | Bit64 => as_i64 (Z.shiftr (as_i128 (a * b)) 64)
     end).
Definition MULHU_exec (o : FormatR) : option Cpu :=
  a ← x c !! R_rs1 o; b ← x c !! R_rs2 o;
  write_register c (R_rd o)
    (match xlen c with
     | Bit32 => sign_extend c (as_i64 (Z.shiftr (as_u64 (as_u32 a * as_u32 b)) 32))
     | Bit64 => as_i64 (Z.shiftr (as_u128 (as_u64 a * as_u64 b)) 64)
     end).
Definition MULHSU_exec (o : FormatR) : option Cpu :=
  a ← x c !! R_rs1 o; b ← x c !! R_rs2 o;
  write_register c (R_rd o)
    (match xlen c with
     | Bit32 => sign_extend c (Z.shiftr (as_i64 (a * as_i64 (as_u32 b))) 32)
     | Bit64 => as_i64 (Z.shiftr (as_u128 (as_u128 a * as_u64 b)) 64)
     end).

(** *** Shifts *)
Definition shift_mask : Z := match xlen c with Bit32 => 0x1f | Bit64 => 0x3f end.
Definition SLL_exec (o : FormatR) : option Cpu :=
  a ← x c !! R_rs1 o; b ← x c !! R_rs2 o;
  write_register c (R_rd o) (sign_extend c (wrapping_shl a (Z.land (as_u32 b) shift_mask))).
Definition SLLI_exec (o : FormatI) : option Cpu :=
  a ← x c !! I_rs1 o;
  write_register c (I_rd o) (sign_extend c (wrapping_shl a (Z.land (as_u32 (I_imm o)) shift_mask))).
Definition SRL_exec (o : FormatR) : option Cpu :=
  a ← x c !! R_rs1 o; b ← x c !! R_rs2 o;
  write_register c (R_rd o)
    (sign_extend c (as_i64 (wrapping_shr (unsigned_data c a) (Z.land (as_u32 b) shift_mask)))).
Definition SRLI_exec (o : FormatI) : option Cpu :=
  a ← x c !! I_rs1 o;
  write_register c (I_rd o)
    (sign_extend c (as_i64 (wrapping_shr (unsigned_data c a) (Z.land (as_u32 (I_imm o)) shift_mask)))).
Definition SRA_exec (o : FormatR) : option Cpu :=
  a ← x c !! R_rs1 o; b ← x c !! R_rs2 o;
  write_register c (R_rd o) (sign_extend c (wrapping_shr a (Z.land (as_u32 b) shift_mask))).
Definition SRAI_exec (o : FormatI) : option Cpu :=
  a ← x c !! I_rs1 o;
  write_register c (I_rd o) (sign_extend c (wrapping_shr a (Z.land (as_u32 (I_imm o)) shift_mask))).

(** *** 32-bit word instructions *)
Definition ADDW_exec (o : FormatR) : option Cpu :=
  a ← x c !! R_rs1 o; b ← x c !! R_rs2 o;
  write_register c (R_rd o) (as_i32 (as_i64 (a + b))).
Definition ADDIW_exec (o : FormatI) : option Cpu :=
  a ← x c !! I_rs1 o;
  write_register c (I_rd o) (as_i32 (as_i64 (a + imm64 (I_imm o)))).
Definition SUBW_exec (o : FormatR) : option Cpu :=
  a ← x c !! R_rs1 o; b ← x c !! R_rs2 o;
  write_register c (R_rd o) (as_i32 (as_i64 (a - b))).
Definition MULW_exec (o : FormatR) : option Cpu :=
  a ← x c !! R_rs1 o; b ← x c !! R_rs2 o;
  write_register c (R_rd o) (as_i32 (as_i32 a * as_i32 b)).
Definition SLLW_exec (o : FormatR) : option Cpu :=
  a ← x c !! R_rs1 o; b ← x c !! R_rs2 o;
  let shamt := as_u32 (Z.land b 0x1f) in
  write_register c (R_rd o) (as_i32 (as_u32 (Z.shiftl (as_u32 a) shamt))).
Definition SLLIW_exec (o : FormatI) : option Cpu :=
  a ← x c !! I_rs1 o;
  let shamt := as_u32 (Z.land (I_imm o) 0x1f) in
  write_register c (I_rd o) (as_i32 (as_u32 (Z.shiftl (as_u32 a) shamt))).
Definition SRLW_exec (o : FormatR) : option Cpu :=
  a ← x c !! R_rs1 o; b ← x c !! R_rs2 o;
  let shamt := as_u32 (Z.land b 0x1f) in
  write_register c (R_rd o) (as_i32 (Z.shiftr (as_u32 a) shamt)).
Definition SRLIW_exec (o : FormatI) : option Cpu :=
  a ← x c !! I_rs1 o;
  let shamt := as_u32 (Z.land (I_imm o) 0x1f) in
  write_register c (I_rd o) (as_i32 (Z.shiftr (as_u32 a) shamt)).
Definition SRAW_exec (o : FormatR) : option Cpu :=
  a ← x c !! R_rs1 o; b ← x c !! R_rs2 o;
  let shamt := as_u32 (Z.land b 0x1f) in
  write_register c (R_rd o) (Z.shiftr (as_i32 a) shamt).
Definition SRAIW_exec (o : FormatI) : option Cpu :=
  a ← x c !! I_rs1 o;
  let shamt := as_u32 (Z.land (I_imm o) 0x1f) in
  write_register c (I_rd o) (Z.shiftr (as_i32 a) shamt).

(** *** Division *)
Definition DIV_exec (o : FormatR) : option Cpu :=
  dividend ← x c !! R_rs1 o; divisor ← x c !! R_rs2 o;
  if divisor =? 0 then write_register c (R_rd o) (-1)
  else if (dividend =? most_negative c) && (divisor =? -1) then write_register c (R_rd o) dividend
  else q ← wrapping_div 64 dividend divisor; write_register c (R_rd o) (sign_extend c q).
Definition DIVU_exec (o : FormatR) : option Cpu :=
  a ← x c !! R_rs1 o; b ← x c !! R_rs2 o;
  let dividend := unsigned_data c a in
  let divisor := unsigned_data c b in
  if divisor =? 0 then write_register c (R_rd o) (-1)
  else q ← u_div dividend divisor; write_register c (R_rd o) (sign_extend c (as_i64 q)).
Definition REM_exec (o : FormatR) : option Cpu :=
  dividend ← x c !! R_rs1 o; divisor ← x c !! R_rs2 o;
  if divisor =? 0 then write_register c (R_rd o) dividend
  else if (dividend =? most_negative c) && (divisor =? -1) then write_register c (R_rd o) 0
  else q ← wrapping_rem 64 dividend divisor; write_register c (R_rd o) (sign_extend c q).
Definition REMU_exec (o : FormatR) : option Cpu :=
  a ← x c !! R_rs1 o; b ← x c !! R_rs2 o;
  let dividend := unsigned_data c a in
  let divisor := unsigned_data c b in
  if divisor =? 0 then write_register c (R_rd o) (sign_extend c (as_i64 dividend))
  else r ← u_rem dividend divisor; write_register c (R_rd o) (sign_extend c (as_i64 r)).
Definition DIVW_exec (o : FormatR) : option Cpu :=
  a ← x c !! R_rs1 o; b ← x c !! R_rs2 o;
  let dividend := as_i32 a in
  let divisor := as_i32 b in
  v ← (if divisor =? 0 then Some (-1)
       else if (dividend =? - 2 ^ 31) && (divisor =? -1) then Some dividend
       else wrapping_div 32 dividend divisor);
  write_register c (R_rd o) v.
Definition DIVUW_exec (o : FormatR) : option Cpu :=
  a ← x c !! R_rs1 o; b ← x c !! R_rs2 o;
  let dividend := as_u32 a in
  let divisor := as_u32 b in
  v ← (if divisor =? 0 then Some u32_MAX else u_div dividend divisor);
  write_register c (R_rd o) (as_i32 v).
Definition REMW_exec (o : FormatR) : option Cpu :=
  a ← x c !! R_rs1 o; b ← x c !! R_rs2 o;
  let dividend := as_i32 a in
  let divisor := as_i32 b in
  v ← (if divisor =? 0 then Some dividend
       else if (dividend =? - 2 ^ 31) && (divisor =? -1) then Some 0
       else wrapping_rem 32 dividend divisor);
  write_register c (R_rd o) v.
Definition REMUW_exec (o : FormatR) : option Cpu :=
  a ← x c !! R_rs1 o; b ← x c !! R_rs2 o;
  let dividend := as_u32 a in
  let divisor := as_u32 b in
  v ← (if divisor =? 0 then Some dividend else u_rem dividend divisor);
  write_register c (R_rd o) (as_i32 v).
End Exec.

(** *** Virtual instructions *)
Section VirtualExec.
Context (c : Cpu).

Definition VirtualAdvice_exec (o : FormatJ) (advice : Z) : option Cpu :=
  write_register c (J_rd o) (as_i64 advice).
Definition VirtualAdviceLen_exec (o : FormatI) : option Cpu :=
  let remaining := Z.of_nat (AdviceTape_remaining (advice_tape c)) in
  write_register c (I_rd o) (as_i64 remaining).
Definition VirtualAdviceLoad_exec (o : FormatJ) : option Cpu :=
  let num_bytes := Z.to_nat (J_imm o) in
  '(r, tape) ← AdviceTape_read (advice_tape c) num_bytes;
  advice_value ← r;
  write_register (set_advice_tape c tape) (J_rd o) (as_i64 advice_value).

(** Assertions.  A non-zero [imm] of [VirtualAssertEQ] only warns. *)
Definition VirtualAssertEQ_exec (o : FormatB) : option Cpu :=
  a ← x c !! B_rs1 o; b ← x c !! B_rs2 o;
  if B_imm o =? 0 then assert (a =? b) c else Some c.
Definition VirtualAssertHalfwordAlignment_exec (o : FormatAssert) : option Cpu :=
  a ← x c !! A_rs1 o;
  let address := as_i64 (a + A_imm o) in
  assert (Z.land address 1 =? 0) c.
Definition VirtualAssertWordAlignment_exec (o : FormatAssert) : option Cpu :=
  a ← x c !! A_rs1 o;
  let address := as_i64 (a + A_imm o) in
  assert (Z.land address 3 =? 0) c.
Definition VirtualAssertLTE_exec (o : FormatB) : option Cpu :=
  a ← x c !! B_rs1 o; b ← x c !! B_rs2 o; assert (as_u64 a <=? as_u64 b) c.
(** [checked_mul(..).is_some()] *)
Definition VirtualAssertMulUNoOverflow_exec (o : FormatB) : option Cpu :=
  a ← x c !! B_rs1 o; b ← x c !! B_rs2 o; assert (as_u64 a * as_u64 b <=? u64_MAX) c.
Definition VirtualAssertValidDiv0_exec (o : FormatB) : option Cpu :=
  divisor ← x c !! B_rs1 o; quotient ← x c !! B_rs2 o;
  match xlen c with
  | Bit32 => if divisor =? 0 then assert (as_u32 (as_u64 quotient) =? u32_MAX) c else Some c
  | Bit64 => if divisor =? 0 then assert (as_u64 quotient =? u64_MAX) c else Some c
  end.
Definition VirtualAssertValidUnsignedRemainder_exec (o : FormatB) : option Cpu :=
  a ← x c !! B_rs1 o; b ← x c !! B_rs2 o;
  let '(remainder, divisor) :=
    match xlen c with
    | Bit32 => (as_u32 (as_i32 a), as_u32 (as_i32 b))
    | Bit64 => (as_u64 a, as_u64 b)
    end in
  assert ((divisor =? 0) || (remainder <? divisor)) c.

Definition VirtualChangeDivisor_exec (o : FormatR) : option Cpu :=
  a ← x c !! R_rs1 o; b ← x c !! R_rs2 o;
  match xlen c with
  | Bit32 =>
      let dividend := as_i32 a in
      let divisor := as_i32 b in
      if (dividend =? - 2 ^ 31) && (divisor =? -1) then write_register c (R_rd o) 1
      else write_register c (R_rd o) divisor
  | Bit64 =>
      let dividend := a in
      let divisor := b in
      if (dividend =? - 2 ^ 63) && (divisor =? -1) then write_register c (R_rd o) 1
      else write_register c (R_rd o) divisor
  end.
Definition VirtualChangeDivisorW_exec (o : FormatR) : option Cpu :=
  match xlen c with
  | Bit32 => None
  | Bit64 =>
      a ← x c !! R_rs1 o; b ← x c !! R_rs2 o;
      let dividend := as_i32 a in
      let divisor := as_i32 b in
      if (dividend =? - 2 ^ 31) && (divisor =? -1) then write_register c (R_rd o) 1
      else write_register c (R_rd o) divisor
  end.
Definition VirtualZeroExtendWord_exec (o : FormatI) : option Cpu :=
  match xlen c with
  | Bit32 => None
  | Bit64 => a ← x c !! I_rs1 o; write_register c (I_rd o) (Z.land a 0xFFFFFFFF)
  end.
Definition VirtualSignExtendWord_exec (o : FormatI) : option Cpu :=
  match xlen c with
  | Bit32 => None
  | Bit64 => a ← x c !! I_rs1 o; write_register c (I_rd o) (Z.shiftr (as_i64 (Z.shiftl a 32)) 32)
  end.
Definition VirtualMovsign_exec (o : FormatI) : option Cpu :=
  a ← x c !! I_rs1 o;
  let val := as_u64 a in
  write_register c (I_rd o)
    (match xlen c with
     | Bit32 => if negb (Z.land val 0x80000000 =? 0) then as_i64 0xFFFFFFFF else 0
     | Bit64 => if negb (Z.land val 0x8000000000000000 =? 0) then as_i64 0xFFFFFFFFFFFFFFFF else 0
     end).
Definition VirtualMULI_exec (o : FormatI) : option Cpu :=
  a ← x c !! I_rs1 o;
  write_register c (I_rd o) (sign_extend c (as_i64 (a * as_i64 (I_imm o)))).

(** Powers of two and bitmasks. *)
Definition VirtualPow2_exec (o : FormatI) : option Cpu :=
  a ← x c !! I_rs1 o;
  write_register c (I_rd o)
    (match xlen c with
     | Bit32 => as_i64 (Z.shiftl 1 (as_u64 a mod 32))
     | Bit64 => as_i64 (Z.shiftl 1 (as_u64 a mod 64))
     end).
Definition VirtualPow2W_exec (o : FormatI) : option Cpu :=
  match xlen c with
  | Bit32 => None
  | Bit64 => a ← x c !! I_rs1 o; write_register c (I_rd o) (as_i64 (Z.shiftl 1 (as_u64 a mod 32)))
  end.
Definition VirtualPow2I_exec (o : FormatJ) : option Cpu :=
  write_register c (J_rd o)
    (match xlen c with
     | Bit32 => as_i64 (Z.shiftl 1 (J_imm o mod 32))
     | Bit64 => as_i64 (Z.shiftl 1 (J_imm o mod 64))
     end).
Definition VirtualPow2IW_exec (o : FormatJ) : option Cpu :=
  match xlen c with
  | Bit32 => None
  | Bit64 => write_register c (J_rd o) (as_i64 (Z.shiftl 1 (J_imm o mod 32)))
  end.
Definition VirtualShiftRightBitmask_exec (o : FormatI) : option Cpu :=
  a ← x c !! I_rs1 o;
  write_register c (I_rd o)
    (match xlen c with
     | Bit32 =>
         let shift := Z.land (as_u64 a) 0x1F in
         let ones := as_u64 (Z.shiftl 1 (32 - shift)) - 1 in
         as_i64 (as_u64 (Z.shiftl ones shift))
     | Bit64 =>
         let shift := Z.land (as_u64 a) 0x3F in
         let ones := as_u128 (Z.shiftl 1 (64 - shift)) - 1 in
         as_i64 (as_u128 (Z.shiftl ones shift))
     end).
Definition VirtualShiftRightBitmaskI_exec (o : FormatJ) : option Cpu :=
  write_register c (J_rd o)
    (match xlen c with
     | Bit32 =>
         let shift := J_imm o mod 32 in
         let ones := as_u64 (Z.shiftl 1 (32 - shift)) - 1 in
         as_i64 (as_u64 (Z.shiftl ones shift))
     | Bit64 =>
         let shift := J_imm o mod 64 in
         let ones := as_u128 (Z.shiftl 1 (64 - shift)) - 1 in
         as_i64 (as_u128 (Z.shiftl ones shift))
     end).

(** Shifts and rotations by a bitmask: its trailing zeros are the amount. *)
Definition VirtualSRL_exec (o : FormatVirtualRightShiftR) : option Cpu :=
  b ← x c !! VR_rs2 o;
  let shift := trailing_zeros_64 b in
  a ← x c !! VR_rs1 o;
  write_register c (VR_rd o) (sign_extend c (as_i64 (wrapping_shr (unsigned_data c a) shift))).
Definition VirtualSRLI_exec (o : FormatVirtualRightShiftI) : option Cpu :=
  let shift := trailing_zeros_64 (VI_imm o) in
  a ← x c !! VI_rs1 o;
  write_register c (VI_rd o) (sign_extend c (as_i64 (wrapping_shr (unsigned_data c a) shift))).
Definition VirtualSRA_exec (o : FormatVirtualRightShiftR) : option Cpu :=
  b ← x c !! VR_rs2 o;
  let shift := trailing_zeros_64 b in
  a ← x c !! VR_rs1 o;
  write_register c (VR_rd o) (sign_extend c (wrapping_shr a shift)).
Definition VirtualSRAI_exec (o : FormatVirtualRightShiftI) : option Cpu :=
  let shift := trailing_zeros_64 (VI_imm o) in
  a ← x c !! VI_rs1 o;
  write_register c (VI_rd o) (sign_extend c (wrapping_shr a shift)).
Definition VirtualROTRI_exec (o : FormatVirtualRightShiftI) : option Cpu :=
  let shift := trailing_zeros_64 (VI_imm o) in
  a ← x c !! VI_rs1 o;
  let rotated :=
    match xlen c with
    | Bit32 => as_i64 (rotate_right 32 (as_u32 a) shift)
    | Bit64 => as_i64 (rotate_right 64 (as_u64 a) shift)
    end in
  write_register c (VI_rd o) (sign_extend c rotated).
Definition VirtualROTRIW_exec (o : FormatVirtualRightShiftI) : option Cpu :=
  let shift := Z.min (trailing_zeros_64 (VI_imm o)) (Z.of_nat XLEN / 2) in
  match xlen c with
  | Bit32 => None
  | Bit64 =>
      a ← x c !! VI_rs1 o;
      let rotated := rotate_right 32 (as_u32 (as_u64 a)) shift in
      write_register c (VI_rd o) (as_i64 rotated)
  end.
Definition VirtualRev8W_exec (o : FormatI) : option Cpu :=
  match xlen c with
  | Bit64 => a ← x c !! I_rs1 o; write_register c (I_rd o) (as_i64 (rev8w (as_u64 a)))
  | Bit32 => None
  end.
Definition VirtualXORROT_exec (rotation : Z) (o : FormatR) : option Cpu :=
  a ← x c !! R_rs1 o; b ← x c !! R_rs2 o;
  let xor_result := Z.lxor a b in
  let rotated := as_i64 (rotate_right 64 (as_u64 xor_result) rotation) in
  write_register c (R_rd o) rotated.
Definition VirtualXORROTW_exec (rotation : Z) (o : FormatR) : option Cpu :=
  match xlen c with
  | Bit32 => None
  | Bit64 =>
      a ← x c !! R_rs1 o; b ← x c !! R_rs2 o;
      let rs1_val := as_u32 a in
      let rs2_val := as_u32 b in
      let xor_result := Z.lxor rs1_val rs2_val in
      let rotated := rotate_right 32 xor_result rotation in
      write_register c (R_rd o) (as_i64 rotated)
  end.
End VirtualExec.

(** *** Loads, stores and atomics *)
Section MemoryExec.
Context (c : Cpu).

(** [match cpu.mmu.f() { Ok(a) => a, Err(_) => panic!() }] *)
Definition on_mmu {A} (f : St Mmu (Trap + A)) (c : Cpu) : option (A * Cpu) :=
  '(r, m) ← f (mmu c);
  match r with inr a => Some (a, set_mmu c m) | inl _ => None end.

(** [cpu.x[rs1].wrapping_add(imm) as u64] *)
Definition effective_address (rs1 : nat) (imm : Z) : option Z :=
  a ← x c !! rs1; Some (as_u64 (as_i64 (a + imm))).

Definition LB_exec (o : FormatLoad) : option (Cpu * RAMRead) :=
  address ← effective_address (L_rs1 o) (L_imm o);
  '((byte, memory_read), c) ← on_mmu (load address) c;
  c' ← write_register c (L_rd o) (as_i8 byte); Some (c', memory_read).
Definition LBU_exec (o : FormatLoad) : option (Cpu * RAMRead) :=
  address ← effective_address (L_rs1 o) (L_imm o);
  '((byte, memory_read), c) ← on_mmu (load address) c;
  c' ← write_register c (L_rd o) (as_i64 byte); Some (c', memory_read).
Definition LH_exec (o : FormatLoad) : option (Cpu * RAMRead) :=
  address ← effective_address (L_rs1 o) (L_imm o);
  '((halfword, memory_read), c) ← on_mmu (load_halfword address) c;
  c' ← write_register c (L_rd o) (as_i16 halfword); Some (c', memory_read).
Definition LHU_exec (o : FormatLoad) : option (Cpu * RAMRead) :=
  address ← effective_address (L_rs1 o) (L_imm o);
  '((halfword, memory_read), c) ← on_mmu (load_halfword address) c;
  c' ← write_register c (L_rd o) (as_i64 halfword); Some (c', memory_read).
Definition LW_exec (o : FormatLoad) : option (Cpu * RAMRead) :=
  address ← effective_address (L_rs1 o) (L_imm o);
  '((word, memory_read), c) ← on_mmu (load_word address) c;
  c' ← write_register c (L_rd o) (as_i32 word); Some (c', memory_read).
Definition LWU_exec (o : FormatLoad) : option (Cpu * RAMRead) :=
  address ← effective_address (L_rs1 o) (L_imm o);
  '((word, memory_read), c) ← on_mmu (load_word address) c;
  c' ← write_register c (L_rd o) (as_i64 word); Some (c', memory_read).
(** The offset of [LD] and [VirtualLW] is cut to an [i32] first. *)
Definition LD_exec (o : FormatLoad) : option (Cpu * RAMRead) :=
  a ← x c !! L_rs1 o;
  let address := as_u64 (as_u64 a + as_u64 (as_i32 (L_imm o))) in
  '((value, memory_read), c) ← on_mmu (load_doubleword address) c;
  c' ← write_register c (L_rd o) (as_i64 value); Some (c', memory_read).
Definition VirtualLW_exec (o : FormatI) : option (Cpu * RAMRead) :=
  match xlen c with
  | Bit64 => None
  | Bit32 =>
      a ← x c !! I_rs1 o;
      let address := as_u64 (as_u64 a + as_u64 (as_i32 (I_imm o))) in
      '((value, memory_read), c) ← on_mmu (load_word address) c;
      c' ← write_register c (I_rd o) (as_i32 value); Some (c', memory_read)
  end.

Definition SB_exec (o : FormatS) : option (Cpu * RAMWrite) :=
  address ← effective_address (S_rs1 o) (S_imm o); v ← x c !! S_rs2 o;
  '(memory_write, c) ← on_mmu (store address (as_u8 v)) c; Some (c, memory_write).
Definition SH_exec (o : FormatS) : option (Cpu * RAMWrite) :=
  address ← effective_address (S_rs1 o) (S_imm o); v ← x c !! S_rs2 o;
  '(memory_write, c) ← on_mmu (store_halfword address (as_u16 v)) c; Some (c, memory_write).
Definition SW_exec (o : FormatS) : option (Cpu * RAMWrite) :=
  address ← effective_address (S_rs1 o) (S_imm o); v ← x c !! S_rs2 o;
  '(memory_write, c) ← on_mmu (store_word address (as_u32 v)) c; Some (c, memory_write).
Definition SD_exec (o : FormatS) : option (Cpu * RAMWrite) :=
  address ← effective_address (S_rs1 o) (S_imm o); v ← x c !! S_rs2 o;
  '(memory_write, c) ← on_mmu (store_doubleword address (as_u64 v)) c; Some (c, memory_write).
Definition VirtualSW_exec (o : FormatS) : option (Cpu * RAMWrite) :=
  match xlen c with
  | Bit64 => None
  | Bit32 =>
      address ← effective_address (S_rs1 o) (S_imm o); v ← x c !! S_rs2 o;
      '(memory_write, c) ← on_mmu (store_word address (as_u32 v)) c; Some (c, memory_write)
  end.

(** Atomic memory operations: the body of [exec] that loads a doubleword (an
    [i64]) or a word (sign-extended to [i64]), stores the value [new_value]
    gives for it and the operand, and returns the original. *)
Definition AMO_D_exec (new_value : Z -> Z -> Z) (o : FormatAMO) : option Cpu :=
  address ← as_u64 <$> x c !! AMO_rs1 o; operand ← x c !! AMO_rs2 o;
  '((doubleword, _), c) ← on_mmu (load_doubleword address) c;
  let original_value := as_i64 doubleword in
  '(_, c) ← on_mmu (store_doubleword address (new_value original_value operand)) c;
  write_register c (AMO_rd o) original_value.
Definition AMO_W_exec (new_value : Z -> Z -> Z) (o : FormatAMO) : option Cpu :=
  address ← as_u64 <$> x c !! AMO_rs1 o; operand ← x c !! AMO_rs2 o;
  '((word, _), c) ← on_mmu (load_word address) c;
  let original_value := as_i32 word in
  '(_, c) ← on_mmu (store_word address (new_value original_value operand)) c;
  write_register c (AMO_rd o) original_value.

Definition AMOADDD_exec : FormatAMO -> option Cpu :=
  AMO_D_exec (fun original_value add_value => as_u64 (as_i64 (original_value + add_value))).
Definition AMOANDD_exec : FormatAMO -> option Cpu :=
  AMO_D_exec (fun original_value v => Z.land (as_u64 original_value) (as_u64 v)).
Definition AMOORD_exec : FormatAMO -> option Cpu :=
  AMO_D_exec (fun original_value v => Z.lor (as_u64 original_value) (as_u64 v)).
Definition AMOXORD_exec : FormatAMO -> option Cpu :=
  AMO_D_exec (fun original_value v => Z.lxor (as_u64 original_value) (as_u64 v)).
Definition AMOSWAPD_exec : FormatAMO -> option Cpu := AMO_D_exec (fun _ v => as_u64 v).
Definition AMOMIND_exec : FormatAMO -> option Cpu :=
  AMO_D_exec (fun original_value v => as_u64 (if original_value <=? v then original_value else v)).
Definition AMOMAXD_exec : FormatAMO -> option Cpu :=
  AMO_D_exec (fun original_value v => as_u64 (if v <=? original_value then original_value else v)).
Definition AMOMINUD_exec : FormatAMO -> option Cpu :=
  AMO_D_exec (fun original_value v =>
    if as_u64 original_value <=? as_u64 v then as_u64 original_value else as_u64 v).
Definition AMOMAXUD_exec : FormatAMO -> option Cpu :=
  AMO_D_exec (fun original_value v =>
    if as_u64 v <=? as_u64 original_value then as_u64 original_value else as_u64 v).

Definition AMOADDW_exec : FormatAMO -> option Cpu :=
  AMO_W_exec (fun original_value v => as_u32 (as_i32 (as_i32 original_value + as_i32 v))).
Definition AMOANDW_exec : FormatAMO -> option Cpu :=
  AMO_W_exec (fun original_value v => Z.land (as_u32 original_value) (as_u32 v)).
Definition AMOORW_exec : FormatAMO -> option Cpu :=
  AMO_W_exec (fun original_value v => Z.lor (as_u32 original_value) (as_u32 v)).
Definition AMOXORW_exec : FormatAMO -> option Cpu :=
  AMO_W_exec (fun original_value v => Z.lxor (as_u32 original_value) (as_u32 v)).
Definition AMOSWAPW_exec : FormatAMO -> option Cpu := AMO_W_exec (fun _ v => as_u32 v).
Definition AMOMINW_exec : FormatAMO -> option Cpu :=
  AMO_W_exec (fun original_value v =>
    as_u32 (if as_i32 original_value <=? as_i32 v then as_i32 original_value else as_i32 v)).
Definition AMOMAXW_exec : FormatAMO -> option Cpu :=
  AMO_W_exec (fun original_value v =>
    as_u32 (if as_i32 v <=? as_i32 original_value then as_i32 original_value else as_i32 v)).
Definition AMOMINUW_exec : FormatAMO -> option Cpu :=
  AMO_W_exec (fun original_value v =>
    if as_u32 original_value <=? as_u32 v then as_u32 original_value else as_u32 v).
Definition AMOMAXUW_exec : FormatAMO -> option Cpu :=
  AMO_W_exec (fun original_value v =>
    if as_u32 v <=? as_u32 original_value then as_u32 original_value else as_u32 v).

(** Load reserved and store conditional. *)
Definition LRW_exec (o : FormatR) : option Cpu :=
  address ← as_u64 <$> x c !! R_rs1 o;
  '((word, _), c) ← on_mmu (load_word address) c;
  write_register (set_reservation c address Word) (R_rd o) (as_i32 word).
Definition LRD_exec (o : FormatR) : option Cpu :=
  address ← as_u64 <$> x c !! R_rs1 o;
  '((doubleword, _), c) ← on_mmu (load_doubleword address) c;
  write_register (set_reservation c address Doubleword) (R_rd o) (as_i64 doubleword).
(** The access of a failed store conditional stays the default one. *)
Definition SC_exec (width : ReservationWidth) (store : Z -> St Mmu (Trap + RAMWrite)) (o : FormatR)
    : option (Cpu * option RAMWrite) :=
  address ← as_u64 <$> x c !! R_rs1 o;
  '(c', access) ←
    (if has_reservation c address width then
       '(memory_write, c) ← on_mmu (store address) c;
       c' ← write_register c (R_rd o) 0; Some (c', Some memory_write)
     else c' ← write_register c (R_rd o) 1; Some (c', None));
  Some (clear_reservation c', access).
Definition SCW_exec (o : FormatR) : option (Cpu * option RAMWrite) :=
  value ← as_u32 <$> x c !! R_rs2 o; SC_exec Word (fun address => store_word address value) o.
Definition SCD_exec (o : FormatR) : option (Cpu * option RAMWrite) :=
  value ← as_u64 <$> x c !! R_rs2 o; SC_exec Doubleword (fun address => store_doubleword address value) o.
End MemoryExec.

(** The instructions that access memory. *)
Definition is_memory (op : Op) : bool :=
  match op with
  | LB _ | LBU _ | LD _ | LH _ | LHU _ | LW _ | LWU _ | SB _ | SD _ | SH _ | SW _ | VirtualLW _
  | VirtualSW _ | AMOADDD _ | AMOADDW _ | AMOANDD _ | AMOANDW _ | AMOMAXD _ | AMOMAXUD _
  | AMOMAXUW _ | AMOMAXW _ | AMOMIND _ | AMOMINUD _ | AMOMINUW _ | AMOMINW _ | AMOORD _ | AMOORW _
  | AMOSWAPD _ | AMOSWAPW _ | AMOXORD _ | AMOXORW _ | LRD _ | LRW _ | SCD _ | SCW _ => true
  | _ => false
  end.

(** ** The structs and [Instruction::execute] *)

(** The fields [declare_riscv_instr!] gives every instruction struct. *)
Record Struct (F : Type) := {
  address : Z;
  operands : F;
  virtual_sequence_remaining : option Z;
  is_first_in_sequence : bool;
  is_compressed : bool
}.
Arguments Build_Struct {F}.
Arguments address {F}.
Arguments operands {F}.
Arguments virtual_sequence_remaining {F}.
Arguments is_first_in_sequence {F}.
Arguments is_compressed {F}.

(** An instruction of the enum: a struct tagged by its constructor. *)
Definition Instruction : Type := Struct Op.

Definition into {F} (op : F -> Op) (s : Struct F) : Instruction :=
  {| address := address s; operands := op (operands s);
     virtual_sequence_remaining := virtual_sequence_remaining s;
     is_first_in_sequence := is_first_in_sequence s; is_compressed := is_compressed s |}.

Definition execute (self : Instruction) (c : Cpu) : option Cpu :=
  let pc := address self in
  match operands self with
  | ADD o => ADD_exec c o | ADDI o => ADDI_exec c o | AND o => AND_exec c o | ANDI o => ANDI_exec c o
  | ANDN o => ANDN_exec c o | AUIPC o => AUIPC_exec c pc o | BEQ o => BEQ_exec c pc o
  | BGE o => BGE_exec c pc o | BGEU o => BGEU_exec c pc o | BLT o => BLT_exec c pc o
  | BLTU o => BLTU_exec c pc o | BNE o => BNE_exec c pc o | DIV o => DIV_exec c o | DIVU o => DIVU_exec c o
  | JAL o => JAL_exec c pc o | JALR o => JALR_exec c pc o | LUI o => LUI_exec c o | MUL o => MUL_exec c o
  | MULH o => MULH_exec c o | MULHSU o => MULHSU_exec c o | MULHU o => MULHU_exec c o | OR o => OR_exec c o
  | ORI o => ORI_exec c o | REM o => REM_exec c o | REMU o => REMU_exec c o | SLL o => SLL_exec c o
  | SLLI o => SLLI_exec c o | SLT o => SLT_exec c o | SLTI o => SLTI_exec c o | SLTIU o => SLTIU_exec c o
  | SLTU o => SLTU_exec c o | SRA o => SRA_exec c o | SRAI o => SRAI_exec c o | SRL o => SRL_exec c o
  | SRLI o => SRLI_exec c o | SUB o => SUB_exec c o | XOR o => XOR_exec c o | XORI o => XORI_exec c o
  | ADDIW o => ADDIW_exec c o | SLLIW o => SLLIW_exec c o | SRLIW o => SRLIW_exec c o
  | SRAIW o => SRAIW_exec c o | ADDW o => ADDW_exec c o | SUBW o => SUBW_exec c o | SLLW o => SLLW_exec c o
  | SRLW o => SRLW_exec c o | SRAW o => SRAW_exec c o | DIVUW o => DIVUW_exec c o | DIVW o => DIVW_exec c o
  | MULW o => MULW_exec c o | REMUW o => REMUW_exec c o | REMW o => REMW_exec c o
  | VirtualAdvice o a => VirtualAdvice_exec c o a | VirtualAdviceLen o => VirtualAdviceLen_exec c o
  | VirtualAdviceLoad o => VirtualAdviceLoad_exec c o | VirtualAssertEQ o => VirtualAssertEQ_exec c o
  | VirtualAssertHalfwordAlignment o => VirtualAssertHalfwordAlignment_exec c o
  | VirtualAssertWordAlignment o => VirtualAssertWordAlignment_exec c o
  | VirtualAssertLTE o => VirtualAssertLTE_exec c o
  | VirtualAssertValidDiv0 o => VirtualAssertValidDiv0_exec c o
  | VirtualAssertValidUnsignedRemainder o => VirtualAssertValidUnsignedRemainder_exec c o
  | VirtualAssertMulUNoOverflow o => VirtualAssertMulUNoOverflow_exec c o
  | VirtualChangeDivisor o => VirtualChangeDivisor_exec c o
  | VirtualChangeDivisorW o => VirtualChangeDivisorW_exec c o
  | VirtualZeroExtendWord o => VirtualZeroExtendWord_exec c o
  | VirtualSignExtendWord o => VirtualSignExtendWord_exec c o | VirtualPow2W o => VirtualPow2W_exec c o
  | VirtualPow2IW o => VirtualPow2IW_exec c o | VirtualMovsign o => VirtualMovsign_exec c o
  | VirtualMULI o => VirtualMULI_exec c o | VirtualPow2 o => VirtualPow2_exec c o
  | VirtualPow2I o => VirtualPow2I_exec c o | VirtualRev8W o => VirtualRev8W_exec c o
  | VirtualROTRI o => VirtualROTRI_exec c o | VirtualROTRIW o => VirtualROTRIW_exec c o
  | VirtualShiftRightBitmask o => VirtualShiftRightBitmask_exec c o
  | VirtualShiftRightBitmaskI o => VirtualShiftRightBitmaskI_exec c o | VirtualSRA o => VirtualSRA_exec c o
  | VirtualSRAI o => VirtualSRAI_exec c o | VirtualSRL o => VirtualSRL_exec c o
  | VirtualSRLI o => VirtualSRLI_exec c o | VirtualXORROT32 o => VirtualXORROT_exec c 32 o
  | VirtualXORROT24 o => VirtualXORROT_exec c 24 o | VirtualXORROT16 o => VirtualXORROT_exec c 16 o
  | VirtualXORROT63 o => VirtualXORROT_exec c 63 o | VirtualXORROTW16 o => VirtualXORROTW_exec c 16 o
  | VirtualXORROTW12 o => VirtualXORROTW_exec c 12 o | VirtualXORROTW8 o => VirtualXORROTW_exec c 8 o
  | VirtualXORROTW7 o => VirtualXORROTW_exec c 7 o | LB o => fst <$> LB_exec c o
  | LBU o => fst <$> LBU_exec c o | LD o => fst <$> LD_exec c o | LH o => fst <$> LH_exec c o
  | LHU o => fst <$> LHU_exec c o | LW o => fst <$> LW_exec c o | LWU o => fst <$> LWU_exec c o
  | VirtualLW o => fst <$> VirtualLW_exec c o | SB o => fst <$> SB_exec c o | SD o => fst <$> SD_exec c o
  | SH o => fst <$> SH_exec c o | SW o => fst <$> SW_exec c o | VirtualSW o => fst <$> VirtualSW_exec c o
  | AMOADDD o => AMOADDD_exec c o | AMOADDW o => AMOADDW_exec c o | AMOANDD o => AMOANDD_exec c o
  | AMOANDW o => AMOANDW_exec c o | AMOMAXD o => AMOMAXD_exec c o | AMOMAXUD o => AMOMAXUD_exec c o
  | AMOMAXUW o => AMOMAXUW_exec c o | AMOMAXW o => AMOMAXW_exec c o | AMOMIND o => AMOMIND_exec c o
  | AMOMINUD o => AMOMINUD_exec c o | AMOMINUW o => AMOMINUW_exec c o | AMOMINW o => AMOMINW_exec c o
  | AMOORD o => AMOORD_exec c o | AMOORW o => AMOORW_exec c o | AMOSWAPD o => AMOSWAPD_exec c o
  | AMOSWAPW o => AMOSWAPW_exec c o | AMOXORD o => AMOXORD_exec c o | AMOXORW o => AMOXORW_exec c o
  | LRD o => LRD_exec c o | LRW o => LRW_exec c o | SCD o => fst <$> SCD_exec c o
  | SCW o => fst <$> SCW_exec c o
  end.

(** *** instruction/mod.rs: the RAM accesses *)
Inductive RAMAccess := Read (r : RAMRead) | Write (w : RAMWrite) | NoRAM.
Definition RAMAccess_address (a : RAMAccess) : Z :=
  match a with Read r => read_address r | Write w => write_address w | NoRAM => 0 end.

(** The default of the access type an instruction declares ([ram = ...]). *)
Definition default_ram_access (op : Op) : RAMAccess :=
  match op with
  | LB _ | LBU _ | LD _ | LH _ | LHU _ | LW _ | LWU _ | VirtualLW _ | LRW _ =>
      Read {| read_address := 0; read_value := 0 |}
  | SB _ | SD _ | SH _ | SW _ | VirtualSW _ | AMOADDD _ | AMOADDW _ | AMOANDD _ | AMOANDW _ | AMOMAXD _
  | AMOMAXUD _ | AMOMAXUW _ | AMOMAXW _ | AMOMIND _ | AMOMINUD _ | AMOMINUW _ | AMOMINW _ | AMOORD _ | AMOORW _
  | AMOSWAPD _ | AMOSWAPW _ | AMOXORD _ | AMOXORW _ | SCD _ | SCW _ =>
      Write {| write_address := 0; pre_value := 0; post_value := 0 |}
  | _ => NoRAM
  end.

(** [RISCVInstruction::execute], with the access it records: the default one
    where [exec] leaves [ram_access] alone. *)
Definition execute_ram (self : Instruction) (c : Cpu) : option (Cpu * RAMAccess) :=
  let read (r : option (Cpu * RAMRead)) := '(c, a) ← r; Some (c, Read a) in
  let write (r : option (Cpu * RAMWrite)) := '(c, a) ← r; Some (c, Write a) in
  let conditional (r : option (Cpu * option RAMWrite)) :=
    '(c, a) ← r; Some (c, from_option Write (default_ram_access (operands self)) a) in
  match operands self with
  | LB o => read (LB_exec c o) | LBU o => read (LBU_exec c o) | LD o => read (LD_exec c o)
  | LH o => read (LH_exec c o) | LHU o => read (LHU_exec c o) | LW o => read (LW_exec c o)
  | LWU o => read (LWU_exec c o) | VirtualLW o => read (VirtualLW_exec c o) | SB o => write (SB_exec c o)
  | SD o => write (SD_exec c o) | SH o => write (SH_exec c o) | SW o => write (SW_exec c o)
  | VirtualSW o => write (VirtualSW_exec c o) | SCD o => conditional (SCD_exec c o)
  | SCW o => conditional (SCW_exec c o)
  | op => c' ← execute self c; Some (c', default_ram_access op)
  end.

(** The two agree on the state. *)
Lemma fst_recorded {A B C} (r : option (A * B)) (f : B -> C) : fst <$> ('(a, b) ← r; Some (a, f b)) = fst <$> r.
Proof. by destruct r as [[a b]|]. Qed.
Lemma fst_default {A C} (r : option A) (d : C) : fst <$> (a ← r; Some (a, d)) = r.
Proof. by destruct r. Qed.
Lemma execute_ram_fst self c : fst <$> execute_ram self c = execute self c.
Proof.
  unfold execute_ram, execute. destruct (operands self); cbv zeta;
    first [apply fst_default|apply fst_recorded].
Qed.
