(* ===== verification/Decode.v ===== *)
(** * Decode: from a 32-bit word to an instruction

    Models [Instruction::decode] of [tracer/src/instruction/mod.rs] with the
    constructors [new] of [declare_riscv_instr!]
    ([tracer/src/utils/instruction_macros.rs]) and the [mask]/[match] constants
    of every instruction's declaration ([tracer/src/instruction/*.rs]).  The
    outer [option] is a panic, here a failed [debug_assert_eq!] of [new] (only
    in a build with debug assertions, the parameter [debug_assertions]); the sum
    is the [Result] of [decode]. *)
From S2P Require Import Prelude Bits Registers Cpu Formats Instr.
From stdpp Require Import strings.
Open Scope Z_scope.

(** ** The formats and constructors [Op] leaves out *)

(** instruction/format/format_advice_load_i.rs *)
Record FormatAdviceLoadI := { AL_rd : nat; AL_imm : Z }.
Definition FormatAdviceLoadI_parse (word : Z) : FormatAdviceLoadI :=
  {| AL_rd := reg_field word 7; AL_imm := sext_u64 word |}.
Definition FormatAdviceLoadI_of_operands (o : NormalizedOperands) : option FormatAdviceLoadI :=
  rd ← norm_rd o; Some {| AL_rd := rd; AL_imm := imm_as_u64 (norm_imm o) |}.
Definition FormatAdviceLoadI_to_operands (f : FormatAdviceLoadI) : NormalizedOperands :=
  {| norm_rd := Some (AL_rd f); norm_rs1 := None; norm_rs2 := None; norm_imm := AL_imm f |}.
#[export] Instance FormatAdviceLoadI_format : InstructionFormat FormatAdviceLoadI := {
  parse w := Some (FormatAdviceLoadI_parse w);
  of_operands := FormatAdviceLoadI_of_operands;
  to_operands := FormatAdviceLoadI_to_operands;
  capture_pre_execution_state f := capture_pre_rd (AL_rd f);
  capture_post_execution_state f := capture_post_rd (AL_rd f);
  set_rd f rd := {| AL_rd := rd; AL_imm := AL_imm f |}
}.

(** instruction/format/format_inline.rs, whose [rd] is [rs3]. *)
Record FormatInline := { IN_rs1 : nat; IN_rs2 : nat; IN_rs3 : nat }.
Definition FormatInline_parse (word : Z) : FormatInline :=
  {| IN_rs3 := reg_field word 7; IN_rs1 := reg_field word 15; IN_rs2 := reg_field word 20 |}.

(** The instructions of the enum that are not constructors of [Op]: fences,
    environment calls and CSRs, host calls, advice loads, and the instructions
    of the inline crates with the three fields that select them. *)
Inductive HostOp :=
| FENCE | ECALL (o : FormatI) | EBREAK (o : FormatI) | MRET (o : FormatI)
| CSRRW (o : FormatI) | CSRRS (o : FormatI) | VirtualHostIO (o : FormatI)
| AdviceLB (o : FormatAdviceLoadI) | AdviceLH (o : FormatAdviceLoadI)
| AdviceLW (o : FormatAdviceLoadI) | AdviceLD (o : FormatAdviceLoadI)
| INLINE (opcode funct3 funct7 : Z) (o : FormatInline).

(** The whole enum. *)
Inductive AnyOp := Executable (op : Op) | Host (op : HostOp).

(** ** [RISCVInstruction] *)

(** The associated constants of the trait. *)
Class RISCVInstruction {F O : Type} (op : F -> O) := { MASK : Z; MATCH : Z }.
Arguments MASK {F O} op {_}.
Arguments MATCH {F O} op {_}.

(** [Into<Instruction>] of the two halves of the enum. *)
Class IntoInstruction (O : Type) := into_instruction : O -> AnyOp.
#[export] Instance Op_into : IntoInstruction Op := Executable.
#[export] Instance HostOp_into : IntoInstruction HostOp := Host.

(** instruction/format/format_fence.rs: a format without operands. *)
Record FormatFence := {}.
Definition FENCE_op (_ : FormatFence) : HostOp := FENCE.

(** ** The declarations of the decoded instructions *)

#[export] Instance LUI_encoding : RISCVInstruction LUI := { MASK := 0x0000007f; MATCH := 0x00000037 }.
#[export] Instance AUIPC_encoding : RISCVInstruction AUIPC := { MASK := 0x0000007f; MATCH := 0x00000017 }.
#[export] Instance JAL_encoding : RISCVInstruction JAL := { MASK := 0x0000007f; MATCH := 0x0000006f }.
#[export] Instance JALR_encoding : RISCVInstruction JALR := { MASK := 0x0000707f; MATCH := 0x00000067 }.
#[export] Instance BEQ_encoding : RISCVInstruction BEQ := { MASK := 0x0000707f; MATCH := 0x00000063 }.
#[export] Instance BNE_encoding : RISCVInstruction BNE := { MASK := 0x0000707f; MATCH := 0x00001063 }.
#[export] Instance BLT_encoding : RISCVInstruction BLT := { MASK := 0x0000707f; MATCH := 0x00004063 }.
#[export] Instance BGE_encoding : RISCVInstruction BGE := { MASK := 0x0000707f; MATCH := 0x00005063 }.
#[export] Instance BLTU_encoding : RISCVInstruction BLTU := { MASK := 0x0000707f; MATCH := 0x00006063 }.
#[export] Instance BGEU_encoding : RISCVInstruction BGEU := { MASK := 0x0000707f; MATCH := 0x00007063 }.
#[export] Instance LB_encoding : RISCVInstruction LB := { MASK := 0x0000707f; MATCH := 0x00000003 }.
#[export] Instance LH_encoding : RISCVInstruction LH := { MASK := 0x0000707f; MATCH := 0x00001003 }.
#[export] Instance LW_encoding : RISCVInstruction LW := { MASK := 0x0000707f; MATCH := 0x00002003 }.
#[export] Instance LD_encoding : RISCVInstruction LD := { MASK := 0x0000707f; MATCH := 0x00003003 }.
#[export] Instance LBU_encoding : RISCVInstruction LBU := { MASK := 0x0000707f; MATCH := 0x00004003 }.
#[export] Instance LHU_encoding : RISCVInstruction LHU := { MASK := 0x0000707f; MATCH := 0x00005003 }.
#[export] Instance LWU_encoding : RISCVInstruction LWU := { MASK := 0x0000707f; MATCH := 0x00006003 }.
#[export] Instance SB_encoding : RISCVInstruction SB := { MASK := 0x0000707f; MATCH := 0x00000023 }.
#[export] Instance SH_encoding : RISCVInstruction SH := { MASK := 0x0000707f; MATCH := 0x00001023 }.
#[export] Instance SW_encoding : RISCVInstruction SW := { MASK := 0x0000707f; MATCH := 0x00002023 }.
#[export] Instance SD_encoding : RISCVInstruction SD := { MASK := 0x0000707f; MATCH := 0x00003023 }.
#[export] Instance SLLI_encoding : RISCVInstruction SLLI := { MASK := 0xfc00707f; MATCH := 0x00001013 }.
#[export] Instance SRLI_encoding : RISCVInstruction SRLI := { MASK := 0xfc00707f; MATCH := 0x00005013 }.
#[export] Instance SRAI_encoding : RISCVInstruction SRAI := { MASK := 0xfc00707f; MATCH := 0x40005013 }.
#[export] Instance ADDI_encoding : RISCVInstruction ADDI := { MASK := 0x0000707f; MATCH := 0x00000013 }.
#[export] Instance SLTI_encoding : RISCVInstruction SLTI := { MASK := 0x0000707f; MATCH := 0x00002013 }.
#[export] Instance SLTIU_encoding : RISCVInstruction SLTIU := { MASK := 0x0000707f; MATCH := 0x00003013 }.
#[export] Instance XORI_encoding : RISCVInstruction XORI := { MASK := 0x0000707f; MATCH := 0x00004013 }.
#[export] Instance ORI_encoding : RISCVInstruction ORI := { MASK := 0x0000707f; MATCH := 0x00006013 }.
#[export] Instance ANDI_encoding : RISCVInstruction ANDI := { MASK := 0x0000707f; MATCH := 0x00007013 }.
#[export] Instance ADDIW_encoding : RISCVInstruction ADDIW := { MASK := 0x0000707f; MATCH := 0x0000001b }.
#[export] Instance SLLIW_encoding : RISCVInstruction SLLIW := { MASK := 0xfc00707f; MATCH := 0x0000101b }.
#[export] Instance SRLIW_encoding : RISCVInstruction SRLIW := { MASK := 0xfc00707f; MATCH := 0x0000501b }.
#[export] Instance SRAIW_encoding : RISCVInstruction SRAIW := { MASK := 0xfc00707f; MATCH := 0x4000501b }.
#[export] Instance ADD_encoding : RISCVInstruction ADD := { MASK := 0xfe00707f; MATCH := 0x00000033 }.
#[export] Instance SUB_encoding : RISCVInstruction SUB := { MASK := 0xfe00707f; MATCH := 0x40000033 }.
#[export] Instance SLL_encoding : RISCVInstruction SLL := { MASK := 0xfe00707f; MATCH := 0x00001033 }.
#[export] Instance SLT_encoding : RISCVInstruction SLT := { MASK := 0xfe00707f; MATCH := 0x00002033 }.
#[export] Instance SLTU_encoding : RISCVInstruction SLTU := { MASK := 0xfe00707f; MATCH := 0x00003033 }.
#[export] Instance XOR_encoding : RISCVInstruction XOR := { MASK := 0xfe00707f; MATCH := 0x00004033 }.
#[export] Instance SRL_encoding : RISCVInstruction SRL := { MASK := 0xfe00707f; MATCH := 0x00005033 }.
#[export] Instance SRA_encoding : RISCVInstruction SRA := { MASK := 0xfe00707f; MATCH := 0x40005033 }.
#[export] Instance OR_encoding : RISCVInstruction OR := { MASK := 0xfe00707f; MATCH := 0x00006033 }.
#[export] Instance AND_encoding : RISCVInstruction AND := { MASK := 0xfe00707f; MATCH := 0x00007033 }.
#[export] Instance MUL_encoding : RISCVInstruction MUL := { MASK := 0xfe00707f; MATCH := 0x02000033 }.
#[export] Instance MULH_encoding : RISCVInstruction MULH := { MASK := 0xfe00707f; MATCH := 0x02001033 }.
#[export] Instance MULHSU_encoding : RISCVInstruction MULHSU := { MASK := 0xfe00707f; MATCH := 0x02002033 }.
#[export] Instance MULHU_encoding : RISCVInstruction MULHU := { MASK := 0xfe00707f; MATCH := 0x02003033 }.
#[export] Instance DIV_encoding : RISCVInstruction DIV := { MASK := 0xfe00707f; MATCH := 0x02004033 }.
#[export] Instance DIVU_encoding : RISCVInstruction DIVU := { MASK := 0xfe00707f; MATCH := 0x02005033 }.
#[export] Instance REM_encoding : RISCVInstruction REM := { MASK := 0xfe00707f; MATCH := 0x02006033 }.
#[export] Instance REMU_encoding : RISCVInstruction REMU := { MASK := 0xfe00707f; MATCH := 0x02007033 }.
#[export] Instance ADDW_encoding : RISCVInstruction ADDW := { MASK := 0xfe00707f; MATCH := 0x0000003b }.
#[export] Instance SUBW_encoding : RISCVInstruction SUBW := { MASK := 0xfe00707f; MATCH := 0x4000003b }.
#[export] Instance SLLW_encoding : RISCVInstruction SLLW := { MASK := 0xfe00707f; MATCH := 0x0000103b }.
#[export] Instance DIVW_encoding : RISCVInstruction DIVW := { MASK := 0xfe00707f; MATCH := 0x0200403b }.
#[export] Instance SRLW_encoding : RISCVInstruction SRLW := { MASK := 0xfe00707f; MATCH := 0x0000503b }.
#[export] Instance SRAW_encoding : RISCVInstruction SRAW := { MASK := 0xfe00707f; MATCH := 0x4000503b }.
#[export] Instance MULW_encoding : RISCVInstruction MULW := { MASK := 0xfe00707f; MATCH := 0x0200003b }.
#[export] Instance DIVUW_encoding : RISCVInstruction DIVUW := { MASK := 0xfe00707f; MATCH := 0x0200503b }.
#[export] Instance REMW_encoding : RISCVInstruction REMW := { MASK := 0xfe00707f; MATCH := 0x0200603b }.
#[export] Instance REMUW_encoding : RISCVInstruction REMUW := { MASK := 0xfe00707f; MATCH := 0x0200703b }.
#[export] Instance FENCE_encoding : RISCVInstruction FENCE_op := { MASK := 0x0000707f; MATCH := 0x0000000f }.
#[export] Instance LRW_encoding : RISCVInstruction LRW := { MASK := 0xf9f0707f; MATCH := 0x1000202f }.
#[export] Instance LRD_encoding : RISCVInstruction LRD := { MASK := 0xf9f0707f; MATCH := 0x1000302f }.
#[export] Instance SCW_encoding : RISCVInstruction SCW := { MASK := 0xf800707f; MATCH := 0x1800202f }.
#[export] Instance SCD_encoding : RISCVInstruction SCD := { MASK := 0xf800707f; MATCH := 0x1800302f }.
#[export] Instance AMOSWAPW_encoding : RISCVInstruction AMOSWAPW := { MASK := 0xf800707f; MATCH := 0x0800202f }.
#[export] Instance AMOSWAPD_encoding : RISCVInstruction AMOSWAPD := { MASK := 0xf800707f; MATCH := 0x0800302f }.
#[export] Instance AMOADDW_encoding : RISCVInstruction AMOADDW := { MASK := 0xf800707f; MATCH := 0x0000202f }.
#[export] Instance AMOADDD_encoding : RISCVInstruction AMOADDD := { MASK := 0xf800707f; MATCH := 0x0000302f }.
#[export] Instance AMOANDW_encoding : RISCVInstruction AMOANDW := { MASK := 0xf800707f; MATCH := 0x6000202f }.
#[export] Instance AMOANDD_encoding : RISCVInstruction AMOANDD := { MASK := 0xf800707f; MATCH := 0x6000302f }.
#[export] Instance AMOORW_encoding : RISCVInstruction AMOORW := { MASK := 0xf800707f; MATCH := 0x4000202f }.
#[export] Instance AMOORD_encoding : RISCVInstruction AMOORD := { MASK := 0xf800707f; MATCH := 0x4000302f }.
#[export] Instance AMOXORW_encoding : RISCVInstruction AMOXORW := { MASK := 0xf800707f; MATCH := 0x2000202f }.
#[export] Instance AMOXORD_encoding : RISCVInstruction AMOXORD := { MASK := 0xf800707f; MATCH := 0x2000302f }.
#[export] Instance AMOMINW_encoding : RISCVInstruction AMOMINW := { MASK := 0xf800707f; MATCH := 0x8000202f }.
#[export] Instance AMOMIND_encoding : RISCVInstruction AMOMIND := { MASK := 0xf800707f; MATCH := 0x8000302f }.
#[export] Instance AMOMAXW_encoding : RISCVInstruction AMOMAXW := { MASK := 0xf800707f; MATCH := 0xa000202f }.
#[export] Instance AMOMAXD_encoding : RISCVInstruction AMOMAXD := { MASK := 0xf800707f; MATCH := 0xa000302f }.
#[export] Instance AMOMINUW_encoding : RISCVInstruction AMOMINUW := { MASK := 0xf800707f; MATCH := 0xc000202f }.
#[export] Instance AMOMINUD_encoding : RISCVInstruction AMOMINUD := { MASK := 0xf800707f; MATCH := 0xc000302f }.
#[export] Instance AMOMAXUW_encoding : RISCVInstruction AMOMAXUW := { MASK := 0xf800707f; MATCH := 0xe000202f }.
#[export] Instance AMOMAXUD_encoding : RISCVInstruction AMOMAXUD := { MASK := 0xf800707f; MATCH := 0xe000302f }.
#[export] Instance ECALL_encoding : RISCVInstruction ECALL := { MASK := 0xffffffff; MATCH := 0x00000073 }.
#[export] Instance EBREAK_encoding : RISCVInstruction EBREAK := { MASK := 0xffffffff; MATCH := 0x00100073 }.
#[export] Instance MRET_encoding : RISCVInstruction MRET := { MASK := 0xffffffff; MATCH := 0x30200073 }.
#[export] Instance CSRRW_encoding : RISCVInstruction CSRRW := { MASK := 0x0000707f; MATCH := 0x00001073 }.
#[export] Instance CSRRS_encoding : RISCVInstruction CSRRS := { MASK := 0x0000707f; MATCH := 0x00002073 }.
#[export] Instance VirtualRev8W_encoding : RISCVInstruction VirtualRev8W := { MASK := 0x00000000; MATCH := 0x00000000 }.
#[export] Instance VirtualAssertEQ_encoding : RISCVInstruction VirtualAssertEQ := { MASK := 0x00000000; MATCH := 0x00000000 }.
#[export] Instance VirtualHostIO_encoding : RISCVInstruction VirtualHostIO := { MASK := 0x00000000; MATCH := 0x00000000 }.
#[export] Instance AdviceLB_encoding : RISCVInstruction AdviceLB := { MASK := 0x00000000; MATCH := 0x00000000 }.
#[export] Instance AdviceLH_encoding : RISCVInstruction AdviceLH := { MASK := 0x00000000; MATCH := 0x00000000 }.
#[export] Instance AdviceLW_encoding : RISCVInstruction AdviceLW := { MASK := 0x00000000; MATCH := 0x00000000 }.
#[export] Instance AdviceLD_encoding : RISCVInstruction AdviceLD := { MASK := 0x00000000; MATCH := 0x00000000 }.
#[export] Instance VirtualAdviceLen_encoding : RISCVInstruction VirtualAdviceLen := { MASK := 0x00000000; MATCH := 0x00000000 }.

(** The [parse] of a format, as [new] calls it. *)
Class Parse (F : Type) := parse_word : Z -> F.
#[export] Instance FormatR_Parse : Parse FormatR := FormatR_parse.
#[export] Instance FormatI_Parse : Parse FormatI := FormatI_parse.
#[export] Instance FormatB_Parse : Parse FormatB := FormatB_parse.
#[export] Instance FormatJ_Parse : Parse FormatJ := FormatJ_parse.
#[export] Instance FormatU_Parse : Parse FormatU := FormatU_parse.
#[export] Instance FormatLoad_Parse : Parse FormatLoad := FormatLoad_parse.
#[export] Instance FormatS_Parse : Parse FormatS := FormatS_parse.
#[export] Instance FormatAMO_Parse : Parse FormatAMO := FormatAMO_parse.
#[export] Instance FormatAdviceLoadI_Parse : Parse FormatAdviceLoadI := FormatAdviceLoadI_parse.
#[export] Instance FormatFence_Parse : Parse FormatFence := fun _ => Build_FormatFence.

Abbreviation DecodeResult := (option (string + Struct AnyOp)).
Definition Err (message : string) : DecodeResult := Some (inl message).

(** The fields of a decoded struct. *)
Definition fresh_struct (op : AnyOp) (address : Z) (compressed : bool) : Struct AnyOp :=
  {| address := address; operands := op; virtual_sequence_remaining := None;
     is_first_in_sequence := false; is_compressed := compressed |}.

(** ** [decode] *)
Section Decode.
Context (debug_assertions : bool).

(** [new] of [declare_riscv_instr!]. *)
Definition new {F O} (op : F -> O) `{RISCVInstruction F O op} `{Parse F} `{IntoInstruction O}
    (word address : Z) (validate compressed : bool) : DecodeResult :=
  if validate && debug_assertions && negb (Z.land word (MASK op) =? MATCH op) then None
  else Some (inr (fresh_struct (into_instruction (op (parse_word word))) address compressed)).

(** instruction/inline.rs *)
Definition INLINE_new (word address : Z) (_validate compressed : bool) : DecodeResult :=
  Some (inr (fresh_struct
    (Host (INLINE (Z.land word 0x7f) (Z.land (Z.shiftr word 12) 0x7) (Z.land (Z.shiftr word 25) 0x7f)
             (FormatInline_parse word))) address compressed)).

(** [Instruction::decode]: the arms of its match on the opcode. *)
Definition decode_jalr (instr address : Z) (compressed : bool) : DecodeResult :=
  let funct3 := Z.land (Z.shiftr instr 12) 0x7 in
  if negb (funct3 =? 0) then Err "Invalid funct3 for JALR"
  else new JALR instr address true compressed.

Definition decode_branch (instr address : Z) (compressed : bool) : DecodeResult :=
  let funct3 := Z.land (Z.shiftr instr 12) 0x7 in
  if funct3 =? 0 then new BEQ instr address true compressed
  else if funct3 =? 1 then new BNE instr address true compressed
  else if funct3 =? 4 then new BLT instr address true compressed
  else if funct3 =? 5 then new BGE instr address true compressed
  else if funct3 =? 6 then new BLTU instr address true compressed
  else if funct3 =? 7 then new BGEU instr address true compressed
  else Err "Invalid branch funct3".

Definition decode_load (instr address : Z) (compressed : bool) : DecodeResult :=
  let funct3 := Z.land (Z.shiftr instr 12) 0x7 in
  if funct3 =? 0 then new LB instr address true compressed
  else if funct3 =? 1 then new LH instr address true compressed
  else if funct3 =? 2 then new LW instr address true compressed
  else if funct3 =? 3 then new LD instr address true compressed
  else if funct3 =? 4 then new LBU instr address true compressed
  else if funct3 =? 5 then new LHU instr address true compressed
  else if funct3 =? 6 then new LWU instr address true compressed
  else Err "Invalid load funct3".

Definition decode_store (instr address : Z) (compressed : bool) : DecodeResult :=
  let funct3 := Z.land (Z.shiftr instr 12) 0x7 in
  if funct3 =? 0 then new SB instr address true compressed
  else if funct3 =? 1 then new SH instr address true compressed
  else if funct3 =? 2 then new SW instr address true compressed
  else if funct3 =? 3 then new SD instr address true compressed
  else Err "Invalid store funct3".

Definition decode_alu_imm (instr address : Z) (compressed : bool) : DecodeResult :=
  let funct3 := Z.land (Z.shiftr instr 12) 0x7 in
  let funct6 := Z.land (Z.shiftr instr 26) 0x3f in
  if funct3 =? 1 then (if funct6 =? 0 then new SLLI instr address true compressed
       else Err "Invalid funct7 for SLLI")
  else if funct3 =? 5 then (if funct6 =? 0 then new SRLI instr address true compressed
       else if funct6 =? 16 then new SRAI instr address true compressed
       else Err "Invalid ALU shift funct7")
  else if funct3 =? 0 then new ADDI instr address true compressed
  else if funct3 =? 2 then new SLTI instr address true compressed
  else if funct3 =? 3 then new SLTIU instr address true compressed
  else if funct3 =? 4 then new XORI instr address true compressed
  else if funct3 =? 6 then new ORI instr address true compressed
  else if funct3 =? 7 then new ANDI instr address true compressed
  else Err "Invalid I-type ALU funct3".

Definition decode_alu_imm_w (instr address : Z) (compressed : bool) : DecodeResult :=
  let funct3 := Z.land (Z.shiftr instr 12) 0x7 in
  let funct7 := Z.land (Z.shiftr instr 25) 0x7f in
  if (funct3 =? 0) then new ADDIW instr address true compressed
  else if (funct3 =? 1) && (funct7 =? 0) then new SLLIW instr address true compressed
  else if (funct3 =? 5) && (funct7 =? 0) then new SRLIW instr address true compressed
  else if (funct3 =? 5) && (funct7 =? 32) then new SRAIW instr address true compressed
  else Err "Invalid RV64I I-type arithmetic instruction".

Definition decode_alu (instr address : Z) (compressed : bool) : DecodeResult :=
  let funct3 := Z.land (Z.shiftr instr 12) 0x7 in
  let funct7 := Z.land (Z.shiftr instr 25) 0x7f in
  if (funct3 =? 0) && (funct7 =? 0) then new ADD instr address true compressed
  else if (funct3 =? 0) && (funct7 =? 32) then new SUB instr address true compressed
  else if (funct3 =? 1) && (funct7 =? 0) then new SLL instr address true compressed
  else if (funct3 =? 2) && (funct7 =? 0) then new SLT instr address true compressed
  else if (funct3 =? 3) && (funct7 =? 0) then new SLTU instr address true compressed
  else if (funct3 =? 4) && (funct7 =? 0) then new XOR instr address true compressed
  else if (funct3 =? 5) && (funct7 =? 0) then new SRL instr address true compressed
  else if (funct3 =? 5) && (funct7 =? 32) then new SRA instr address true compressed
  else if (funct3 =? 6) && (funct7 =? 0) then new OR instr address true compressed
  else if (funct3 =? 7) && (funct7 =? 0) then new AND instr address true compressed
  else if (funct3 =? 0) && (funct7 =? 1) then new MUL instr address true compressed
  else if (funct3 =? 1) && (funct7 =? 1) then new MULH instr address true compressed
  else if (funct3 =? 2) && (funct7 =? 1) then new MULHSU instr address true compressed
  else if (funct3 =? 3) && (funct7 =? 1) then new MULHU instr address true compressed
  else if (funct3 =? 4) && (funct7 =? 1) then new DIV instr address true compressed
  else if (funct3 =? 5) && (funct7 =? 1) then new DIVU instr address true compressed
  else if (funct3 =? 6) && (funct7 =? 1) then new REM instr address true compressed
  else if (funct3 =? 7) && (funct7 =? 1) then new REMU instr address true compressed
  else Err "Invalid R-type arithmetic instruction".

Definition decode_alu_w (instr address : Z) (compressed : bool) : DecodeResult :=
  let funct3 := Z.land (Z.shiftr instr 12) 0x7 in
  let funct7 := Z.land (Z.shiftr instr 25) 0x7f in
  if (funct3 =? 0) && (funct7 =? 0) then new ADDW instr address true compressed
  else if (funct3 =? 0) && (funct7 =? 32) then new SUBW instr address true compressed
  else if (funct3 =? 1) && (funct7 =? 0) then new SLLW instr address true compressed
  else if (funct3 =? 4) && (funct7 =? 1) then new DIVW instr address true compressed
  else if (funct3 =? 5) && (funct7 =? 0) then new SRLW instr address true compressed
  else if (funct3 =? 5) && (funct7 =? 32) then new SRAW instr address true compressed
  else if (funct3 =? 0) && (funct7 =? 1) then new MULW instr address true compressed
  else if (funct3 =? 5) && (funct7 =? 1) then new DIVUW instr address true compressed
  else if (funct3 =? 6) && (funct7 =? 1) then new REMW instr address true compressed
  else if (funct3 =? 7) && (funct7 =? 1) then new REMUW instr address true compressed
  else Err "Invalid RV64I R-type arithmetic instruction".

Definition decode_atomic (instr address : Z) (compressed : bool) : DecodeResult :=
  let funct3 := Z.land (Z.shiftr instr 12) 0x7 in
  let funct5 := Z.land (Z.shiftr instr 27) 0x1f in
  if (funct3 =? 2) && (funct5 =? 2) then new LRW instr address true compressed
  else if (funct3 =? 3) && (funct5 =? 2) then new LRD instr address true compressed
  else if (funct3 =? 2) && (funct5 =? 3) then new SCW instr address true compressed
  else if (funct3 =? 3) && (funct5 =? 3) then new SCD instr address true compressed
  else if (funct3 =? 2) && (funct5 =? 1) then new AMOSWAPW instr address true compressed
  else if (funct3 =? 3) && (funct5 =? 1) then new AMOSWAPD instr address true compressed
  else if (funct3 =? 2) && (funct5 =? 0) then new AMOADDW instr address true compressed
  else if (funct3 =? 3) && (funct5 =? 0) then new AMOADDD instr address true compressed
  else if (funct3 =? 2) && (funct5 =? 12) then new AMOANDW instr address true compressed
  else if (funct3 =? 3) && (funct5 =? 12) then new AMOANDD instr address true compressed
  else if (funct3 =? 2) && (funct5 =? 8) then new AMOORW instr address true compressed
  else if (funct3 =? 3) && (funct5 =? 8) then new AMOORD instr address true compressed
  else if (funct3 =? 2) && (funct5 =? 4) then new AMOXORW instr address true compressed
  else if (funct3 =? 3) && (funct5 =? 4) then new AMOXORD instr address true compressed
  else if (funct3 =? 2) && (funct5 =? 16) then new AMOMINW instr address true compressed
  else if (funct3 =? 3) && (funct5 =? 16) then new AMOMIND instr address true compressed
  else if (funct3 =? 2) && (funct5 =? 20) then new AMOMAXW instr address true compressed
  else if (funct3 =? 3) && (funct5 =? 20) then new AMOMAXD instr address true compressed
  else if (funct3 =? 2) && (funct5 =? 24) then new AMOMINUW instr address true compressed
  else if (funct3 =? 3) && (funct5 =? 24) then new AMOMINUD instr address true compressed
  else if (funct3 =? 2) && (funct5 =? 28) then new AMOMAXUW instr address true compressed
  else if (funct3 =? 3) && (funct5 =? 28) then new AMOMAXUD instr address true compressed
  else Err "Invalid atomic memory operation".

Definition decode_system (instr address : Z) (compressed : bool) : DecodeResult :=
  let funct3 := Z.land (Z.shiftr instr 12) 0x7 in
  let funct7 := Z.land (Z.shiftr instr 25) 0x7f in
  let rs2 := Z.land (Z.shiftr instr 20) 0x1f in
  if (funct3 =? 0) && (funct7 =? 0) && (rs2 =? 0) && (instr =? 0x00000073) then new ECALL instr address true compressed
  else if (funct3 =? 0) && (funct7 =? 0) && (rs2 =? 1) && (instr =? 0x00100073) then new EBREAK instr address true compressed
  else if (funct3 =? 0) && (funct7 =? 0x18) && (rs2 =? 2) && (instr =? 0x30200073) then new MRET instr address true compressed
  else if funct3 =? 1 then new CSRRW instr address true compressed
  else if funct3 =? 2 then new CSRRS instr address true compressed
  else Err "Unsupported SYSTEM instruction".

Definition decode_custom (instr address : Z) (compressed : bool) : DecodeResult :=
  let funct3 := Z.land (Z.shiftr instr 12) 0x7 in
  if funct3 =? 0 then new VirtualRev8W instr address true compressed
  else if funct3 =? 1 then new VirtualAssertEQ instr address true compressed
  else if funct3 =? 2 then new VirtualHostIO instr address true compressed
  else if funct3 =? 3 then new AdviceLB instr address true compressed
  else if funct3 =? 4 then new AdviceLH instr address true compressed
  else if funct3 =? 5 then new AdviceLW instr address true compressed
  else if funct3 =? 6 then new AdviceLD instr address true compressed
  else if funct3 =? 7 then new VirtualAdviceLen instr address true compressed
  else Err "Invalid custom/virtual instruction".

Definition decode (instr address : Z) (compressed : bool) : DecodeResult :=
  let opcode := Z.land instr 0x7f in
  if opcode =? 0x37 then new LUI instr address true compressed
  else if opcode =? 0x17 then new AUIPC instr address true compressed
  else if opcode =? 0x6f then new JAL instr address true compressed
  else if opcode =? 0x67 then decode_jalr instr address compressed
  else if opcode =? 0x63 then decode_branch instr address compressed
  else if opcode =? 0x03 then decode_load instr address compressed
  else if opcode =? 0x23 then decode_store instr address compressed
  else if opcode =? 0x13 then decode_alu_imm instr address compressed
  else if opcode =? 0x1b then decode_alu_imm_w instr address compressed
  else if opcode =? 0x33 then decode_alu instr address compressed
  else if opcode =? 0x3b then decode_alu_w instr address compressed
  else if opcode =? 0x0f then new FENCE_op instr address true compressed
  else if opcode =? 0x2f then decode_atomic instr address compressed
  else if opcode =? 0x73 then decode_system instr address compressed
  else if opcode =? 0x0b then INLINE_new instr address false compressed
  else if opcode =? 0x2b then INLINE_new instr address false compressed
  else if opcode =? 0x5b then decode_custom instr address compressed
  else Err "Unknown opcode".

End Decode.
