(* ===== verification/Compressed.v ===== *)
(** * Compressed: expanding a compressed instruction

    Models [uncompress_instruction] of [tracer/src/instruction/mod.rs]: the
    16-bit instruction becomes the 32-bit word [Instruction::decode] reads.  The
    arms of the match are definitions, [None] where the code falls through to
    the invalid word; the shifts are those of [u32], whose high bits are lost. *)
From S2P Require Import Prelude Bits Registers AdviceTape Mmu Cpu.
Open Scope Z_scope.

(** [<<] and [>>] of [u32]. *)
Definition shl (a n : Z) : Z := as_u32 (Z.shiftl a n).
#[local] Infix "<<" := shl (at level 35).
#[local] Infix ">>" := Z.shiftr (at level 35).
#[local] Infix "&" := Z.land (at level 36).
#[local] Infix "|||" := Z.lor (at level 50, left associativity).

Section Uncompress.
Context (halfword : Z).

(** The register fields, and the immediates several instructions share. *)
Definition field_2 : Z := (halfword >> 2) & 0x7.
Definition field_7 : Z := (halfword >> 7) & 0x7.
Definition field_r : Z := (halfword >> 7) & 0x1f.
Definition field_rs2 : Z := (halfword >> 2) & 0x1f.
(** [match halfword & 0x1000 { 0x1000 => high, _ => 0 }] *)
Definition sign_12 (high : Z) : Z := if halfword & 0x1000 =? 0x1000 then high else 0.
Definition imm_6 : Z :=
  sign_12 0xffffffc0 ||| ((halfword >> 7) & 0x20) ||| ((halfword >> 2) & 0x1f).
Definition offset_double : Z := ((halfword >> 7) & 0x38) ||| ((halfword << 1) & 0xc0).
Definition jump_imm : Z :=
  let offset := sign_12 0xfffff000 ||| ((halfword >> 1) & 0x800) ||| ((halfword >> 7) & 0x10)
    ||| ((halfword >> 1) & 0x300) ||| ((halfword << 2) & 0x400) ||| ((halfword >> 1) & 0x40)
    ||| ((halfword << 1) & 0x80) ||| ((halfword >> 2) & 0xe) ||| ((halfword << 3) & 0x20) in
  ((offset >> 1) & 0x80000) ||| ((offset << 8) & 0x7fe00) ||| ((offset >> 3) & 0x100) ||| ((offset >> 12) & 0xff).
(** [imm2] and [imm1] of the branches. *)
Definition branch_imm : Z * Z :=
  let offset := sign_12 0xfffffe00 ||| ((halfword >> 4) & 0x100) ||| ((halfword >> 7) & 0x18)
    ||| ((halfword << 1) & 0xc0) ||| ((halfword >> 2) & 0x6) ||| ((halfword << 3) & 0x20) in
  (((offset >> 6) & 0x40) ||| ((offset >> 5) & 0x3f), (offset & 0x1e) ||| ((offset >> 11) & 0x1)).

(** *** Quadrant 0 *)
Definition C_ADDI4SPN : option Z :=
  let rd := field_2 in
  let nzuimm := ((halfword >> 7) & 0x30) ||| ((halfword >> 1) & 0x3c0) ||| ((halfword >> 4) & 0x4)
    ||| ((halfword >> 2) & 0x8) in
  if negb (nzuimm =? 0) then Some ((nzuimm << 20) ||| (2 << 15) ||| ((rd + 8) << 7) ||| 0x13) else None.
Definition C_FLD : Z :=
  (offset_double << 20) ||| ((field_7 + 8) << 15) ||| (3 << 12) ||| ((field_2 + 8) << 7) ||| 0x7.
Definition C_LW : Z :=
  let offset := ((halfword >> 7) & 0x38) ||| ((halfword >> 4) & 0x4) ||| ((halfword << 1) & 0x40) in
  (offset << 20) ||| ((field_7 + 8) << 15) ||| (2 << 12) ||| ((field_2 + 8) << 7) ||| 0x3.
Definition C_LD : Z :=
  (offset_double << 20) ||| ((field_7 + 8) << 15) ||| (3 << 12) ||| ((field_2 + 8) << 7) ||| 0x3.
Definition C_FSD : Z :=
  let imm11_5 := (offset_double >> 5) & 0x7f in
  let imm4_0 := offset_double & 0x1f in
  (imm11_5 << 25) ||| ((field_2 + 8) << 20) ||| ((field_7 + 8) << 15) ||| (3 << 12) ||| (imm4_0 << 7) ||| 0x27.
Definition C_SW : Z :=
  let offset := ((halfword >> 7) & 0x38) ||| ((halfword << 1) & 0x40) ||| ((halfword >> 4) & 0x4) in
  let imm11_5 := (offset >> 5) & 0x7f in
  let imm4_0 := offset & 0x1f in
  (imm11_5 << 25) ||| ((field_2 + 8) << 20) ||| ((field_7 + 8) << 15) ||| (2 << 12) ||| (imm4_0 << 7) ||| 0x23.
Definition C_SD : Z :=
  let imm11_5 := (offset_double >> 5) & 0x7f in
  let imm4_0 := offset_double & 0x1f in
  (imm11_5 << 25) ||| ((field_2 + 8) << 20) ||| ((field_7 + 8) << 15) ||| (3 << 12) ||| (imm4_0 << 7) ||| 0x23.
Definition quadrant_0 (funct3 : Z) : option Z :=
  if funct3 =? 0 then C_ADDI4SPN
  else if funct3 =? 1 then Some C_FLD
  else if funct3 =? 2 then Some C_LW
  else if funct3 =? 3 then Some C_LD
  else if funct3 =? 4 then None
  else if funct3 =? 5 then Some C_FSD
  else if funct3 =? 6 then Some C_SW
  else if funct3 =? 7 then Some C_SD
  else None.

(** *** Quadrant 1 *)
Definition C_ADDI : Z :=
  let r := field_r in
  let imm := imm_6 in
  if (r =? 0) || (imm =? 0) then 0x13 else (imm << 20) ||| (r << 15) ||| (r << 7) ||| 0x13.
Definition C_JAL : Z := (jump_imm << 12) ||| (1 << 7) ||| 0x6f.
Definition C_ADDIW : option Z :=
  let r := field_r in
  let imm := imm_6 in
  if r =? 0 then None
  else if imm =? 0 then Some ((r << 15) ||| (r << 7) ||| 0x1b)
  else Some ((imm << 20) ||| (r << 15) ||| (r << 7) ||| 0x1b).
Definition C_LI : Z :=
  let r := field_r in
  if negb (r =? 0) then (imm_6 << 20) ||| (r << 7) ||| 0x13 else 0x13.
Definition C_ADDI16SP_LUI : option Z :=
  let r := field_r in
  let addi16sp :=
    if r =? 2 then
      let imm := sign_12 0xfffffc00 ||| ((halfword >> 3) & 0x200) ||| ((halfword >> 2) & 0x10)
        ||| ((halfword << 1) & 0x40) ||| ((halfword << 4) & 0x180) ||| ((halfword << 3) & 0x20) in
      if negb (imm =? 0) then Some ((imm << 20) ||| (r << 15) ||| (r << 7) ||| 0x13) else None
    else None in
  let lui :=
    if negb (r =? 0) && negb (r =? 2) then
      let nzimm := sign_12 0xfffc0000 ||| ((halfword << 5) & 0x20000) ||| ((halfword << 10) & 0x1f000) in
      if negb (nzimm =? 0) then Some (nzimm ||| (r << 7) ||| 0x37) else None
    else None in
  match addi16sp with
  | Some w => Some w
  | None => match lui with Some w => Some w | None => if r =? 0 then Some 0x13 else None end
  end.
(** The register-register instructions of [funct2 = 3]. *)
Definition C_arith : option Z :=
  let funct1 := (halfword >> 12) & 1 in
  let funct2_2 := (halfword >> 5) & 0x3 in
  let rs1 := field_7 in
  let rs2 := field_2 in
  if funct1 =? 0 then
    if funct2_2 =? 0 then Some ((0x20 << 25) ||| ((rs2 + 8) << 20) ||| ((rs1 + 8) << 15) ||| ((rs1 + 8) << 7) ||| 0x33)
    else if funct2_2 =? 1 then Some (((rs2 + 8) << 20) ||| ((rs1 + 8) << 15) ||| (4 << 12) ||| ((rs1 + 8) << 7) ||| 0x33)
    else if funct2_2 =? 2 then Some (((rs2 + 8) << 20) ||| ((rs1 + 8) << 15) ||| (6 << 12) ||| ((rs1 + 8) << 7) ||| 0x33)
    else if funct2_2 =? 3 then Some (((rs2 + 8) << 20) ||| ((rs1 + 8) << 15) ||| (7 << 12) ||| ((rs1 + 8) << 7) ||| 0x33)
    else None
  else if funct1 =? 1 then
    if funct2_2 =? 0 then Some ((0x20 << 25) ||| ((rs2 + 8) << 20) ||| ((rs1 + 8) << 15) ||| ((rs1 + 8) << 7) ||| 0x3b)
    else if funct2_2 =? 1 then Some (((rs2 + 8) << 20) ||| ((rs1 + 8) << 15) ||| ((rs1 + 8) << 7) ||| 0x3b)
    else None
  else None.
Definition C_misc_alu : option Z :=
  let funct2 := (halfword >> 10) & 0x3 in
  let shamt := ((halfword >> 7) & 0x20) ||| ((halfword >> 2) & 0x1f) in
  let rs1 := field_7 in
  if funct2 =? 0 then Some ((shamt << 20) ||| ((rs1 + 8) << 15) ||| (5 << 12) ||| ((rs1 + 8) << 7) ||| 0x13)
  else if funct2 =? 1 then
    Some ((0x20 << 25) ||| (shamt << 20) ||| ((rs1 + 8) << 15) ||| (5 << 12) ||| ((rs1 + 8) << 7) ||| 0x13)
  else if funct2 =? 2 then Some ((imm_6 << 20) ||| ((rs1 + 8) << 15) ||| (7 << 12) ||| ((rs1 + 8) << 7) ||| 0x13)
  else if funct2 =? 3 then C_arith
  else None.
Definition C_J : Z := (jump_imm << 12) ||| 0x6f.
Definition C_BEQZ : Z :=
  let '(imm2, imm1) := branch_imm in (imm2 << 25) ||| ((field_7 + 8) << 20) ||| (imm1 << 7) ||| 0x63.
Definition C_BNEZ : Z :=
  let '(imm2, imm1) := branch_imm in
  (imm2 << 25) ||| ((field_7 + 8) << 20) ||| (1 << 12) ||| (imm1 << 7) ||| 0x63.
Definition quadrant_1 (funct3 : Z) (xlen : Xlen) : option Z :=
  if funct3 =? 0 then Some C_ADDI
  else if funct3 =? 1 then match xlen with Bit32 => Some C_JAL | Bit64 => C_ADDIW end
  else if funct3 =? 2 then Some C_LI
  else if funct3 =? 3 then C_ADDI16SP_LUI
  else if funct3 =? 4 then C_misc_alu
  else if funct3 =? 5 then Some C_J
  else if funct3 =? 6 then Some C_BEQZ
  else if funct3 =? 7 then Some C_BNEZ
  else None.

(** *** Quadrant 2 *)
Definition C_SLLI : option Z :=
  let r := field_r in
  let shamt := ((halfword >> 7) & 0x20) ||| ((halfword >> 2) & 0x1f) in
  if negb (r =? 0) then Some ((shamt << 20) ||| (r << 15) ||| (1 << 12) ||| (r << 7) ||| 0x13) else None.
Definition C_FLDSP : option Z :=
  let rd := field_r in
  let offset := ((halfword >> 7) & 0x20) ||| ((halfword >> 2) & 0x18) ||| ((halfword << 4) & 0x1c0) in
  if negb (rd =? 0) then Some ((offset << 20) ||| (2 << 15) ||| (3 << 12) ||| (rd << 7) ||| 0x7) else None.
Definition C_LWSP : option Z :=
  let r := field_r in
  let offset := ((halfword >> 7) & 0x20) ||| ((halfword >> 2) & 0x1c) ||| ((halfword << 4) & 0xc0) in
  if negb (r =? 0) then Some ((offset << 20) ||| (2 << 15) ||| (2 << 12) ||| (r << 7) ||| 0x3) else None.
Definition C_LDSP : option Z :=
  let rd := field_r in
  let offset := ((halfword >> 7) & 0x20) ||| ((halfword >> 2) & 0x18) ||| ((halfword << 4) & 0x1c0) in
  if negb (rd =? 0) then Some ((offset << 20) ||| (2 << 15) ||| (3 << 12) ||| (rd << 7) ||| 0x3) else None.
Definition C_MV_ADD : option Z :=
  let funct1 := (halfword >> 12) & 1 in
  let rs1 := field_r in
  let rs2 := field_rs2 in
  if funct1 =? 0 then
    if (rs1 =? 0) && (rs2 =? 0) then None
    else if rs2 =? 0 then Some ((rs1 << 15) ||| 0x67)
    else if rs1 =? 0 then Some 0x13
    else Some ((rs2 << 20) ||| (rs1 << 7) ||| 0x33)
  else if funct1 =? 1 then
    if (rs1 =? 0) && (rs2 =? 0) then Some 0x00100073
    else if rs2 =? 0 then Some ((rs1 << 15) ||| (1 << 7) ||| 0x67)
    else if rs1 =? 0 then Some 0x13
    else Some ((rs2 << 20) ||| (rs1 << 15) ||| (rs1 << 7) ||| 0x33)
  else None.
Definition C_FSDSP : Z :=
  let offset := ((halfword >> 7) & 0x38) ||| ((halfword >> 1) & 0x1c0) in
  let imm11_5 := (offset >> 5) & 0x3f in
  let imm4_0 := offset & 0x1f in
  (imm11_5 << 25) ||| (field_rs2 << 20) ||| (2 << 15) ||| (3 << 12) ||| (imm4_0 << 7) ||| 0x27.
Definition C_SWSP : Z :=
  let offset := ((halfword >> 7) & 0x3c) ||| ((halfword >> 1) & 0xc0) in
  let imm11_5 := (offset >> 5) & 0x3f in
  let imm4_0 := offset & 0x1f in
  (imm11_5 << 25) ||| (field_rs2 << 20) ||| (2 << 15) ||| (2 << 12) ||| (imm4_0 << 7) ||| 0x23.
Definition C_SDSP : Z :=
  let offset := ((halfword >> 7) & 0x38) ||| ((halfword >> 1) & 0x1c0) in
  let imm11_5 := (offset >> 5) & 0x3f in
  let imm4_0 := offset & 0x1f in
  (imm11_5 << 25) ||| (field_rs2 << 20) ||| (2 << 15) ||| (3 << 12) ||| (imm4_0 << 7) ||| 0x23.
Definition quadrant_2 (funct3 : Z) : option Z :=
  if funct3 =? 0 then C_SLLI
  else if funct3 =? 1 then C_FLDSP
  else if funct3 =? 2 then C_LWSP
  else if funct3 =? 3 then C_LDSP
  else if funct3 =? 4 then C_MV_ADD
  else if funct3 =? 5 then Some C_FSDSP
  else if funct3 =? 6 then Some C_SWSP
  else if funct3 =? 7 then Some C_SDSP
  else None.

(** The whole function: the quadrant, then the invalid word. *)
Definition uncompress_instruction (xlen : Xlen) : Z :=
  let op := halfword & 0x3 in
  let funct3 := (halfword >> 13) & 0x7 in
  default 0xffffffff
    (if op =? 0 then quadrant_0 funct3
     else if op =? 1 then quadrant_1 funct3 xlen
     else if op =? 2 then quadrant_2 funct3
     else None).
End Uncompress.
