(* ===== verification/Assembler.v ===== *)
(** * Assembler: building virtual instruction sequences

    Models the [InstrAssembler] of [tracer/src/utils/inline_helpers.rs] and the
    traits [RISCVInstruction]/[RISCVTrace] of [tracer/src/instruction/mod.rs]
    it dispatches on.  Building a sequence runs in the state monad of the
    shared allocator, with failure for panics. *)
From S2P Require Import Prelude Registers AdviceTape Mmu Cpu Formats Instr.

(** ** The allocator monad *)

Abbreviation M := (St VirtualRegisterAllocator).
Open Scope st_scope.

(** The guard's [drop] when the builder returns. *)
Definition drop_guard (r : nat) : M unit := fun s => Some (tt, deallocate s r).
Fixpoint drop_guards (rs : list nat) : M unit :=
  match rs with [] => M_ret tt | r :: rs => drop_guard r ;;! drop_guards rs end.

(** ** Traits *)

Record NormalizedInstruction := {
  ni_address : Z;
  ni_operands : NormalizedOperands;
  ni_virtual_sequence_remaining : option Z;
  ni_is_first_in_sequence : bool;
  ni_is_compressed : bool
}.

(** [From<NormalizedInstruction>] of [declare_riscv_instr!]. *)
Definition from_normalized {F} `{InstructionFormat F} (ni : NormalizedInstruction) : option (Struct F) :=
  o ← of_operands (ni_operands ni);
  Some {| address := ni_address ni; operands := o; virtual_sequence_remaining := None;
          is_first_in_sequence := false; is_compressed := ni_is_compressed ni |}.

(** [RISCVInstruction]/[RISCVTrace] of the instruction with constructor [op]:
    its conversion from a normalized instruction and its expansion. *)
Class RISCVTrace {F : Type} (op : F -> Op) := {
  of_normalized : NormalizedInstruction -> option (Struct F);
  inline_sequence : Struct F -> Xlen -> M (list Instruction)
}.
Arguments of_normalized {F} op {_}.
Arguments inline_sequence {F} op {_}.

(** The default implementation of the trait. *)
#[export] Instance default_trace {F} `{InstructionFormat F} (op : F -> Op) : RISCVTrace op | 100 := {
  of_normalized := from_normalized;
  inline_sequence self _ := M_ret [into op self]
}.

(** instruction/virtual_advice.rs: the advice starts at 0 and the sequence
    fields are copied. *)
Definition VirtualAdvice_from (ni : NormalizedInstruction) : option (Struct FormatJ) :=
  o ← of_operands (ni_operands ni);
  Some {| address := ni_address ni; operands := o;
          virtual_sequence_remaining := ni_virtual_sequence_remaining ni;
          is_first_in_sequence := ni_is_first_in_sequence ni; is_compressed := ni_is_compressed ni |}.
Definition VirtualAdvice_op : FormatJ -> Op := fun o => VirtualAdvice o 0.
#[export] Instance VirtualAdvice_trace : RISCVTrace VirtualAdvice_op := {
  of_normalized := VirtualAdvice_from;
  inline_sequence self _ := M_ret [into VirtualAdvice_op self]
}.

(** The operands of an instruction, in its format, and the constructor that
    puts operands back. *)
Inductive Formatted :=
| Formatted_of {F : Type} {fmt : InstructionFormat F} (f : F) (rebuild : F -> Op).

Definition op_format (op : Op) : Formatted :=
  match op with
  | ADD o => Formatted_of o ADD | ADDI o => Formatted_of o ADDI | AND o => Formatted_of o AND
  | ANDI o => Formatted_of o ANDI | ANDN o => Formatted_of o ANDN
  | AUIPC o => Formatted_of o AUIPC | BEQ o => Formatted_of o BEQ | BGE o => Formatted_of o BGE
  | BGEU o => Formatted_of o BGEU | BLT o => Formatted_of o BLT | BLTU o => Formatted_of o BLTU
  | BNE o => Formatted_of o BNE | DIV o => Formatted_of o DIV | DIVU o => Formatted_of o DIVU
  | JAL o => Formatted_of o JAL | JALR o => Formatted_of o JALR | LUI o => Formatted_of o LUI
  | MUL o => Formatted_of o MUL | MULH o => Formatted_of o MULH
  | MULHSU o => Formatted_of o MULHSU | MULHU o => Formatted_of o MULHU
  | OR o => Formatted_of o OR | ORI o => Formatted_of o ORI | REM o => Formatted_of o REM
  | REMU o => Formatted_of o REMU | SLL o => Formatted_of o SLL | SLLI o => Formatted_of o SLLI
  | SLT o => Formatted_of o SLT | SLTI o => Formatted_of o SLTI
  | SLTIU o => Formatted_of o SLTIU | SLTU o => Formatted_of o SLTU
  | SRA o => Formatted_of o SRA | SRAI o => Formatted_of o SRAI | SRL o => Formatted_of o SRL
  | SRLI o => Formatted_of o SRLI | SUB o => Formatted_of o SUB | XOR o => Formatted_of o XOR
  | XORI o => Formatted_of o XORI | ADDIW o => Formatted_of o ADDIW
  | SLLIW o => Formatted_of o SLLIW | SRLIW o => Formatted_of o SRLIW
  | SRAIW o => Formatted_of o SRAIW | ADDW o => Formatted_of o ADDW
  | SUBW o => Formatted_of o SUBW | SLLW o => Formatted_of o SLLW
  | SRLW o => Formatted_of o SRLW | SRAW o => Formatted_of o SRAW
  | DIVUW o => Formatted_of o DIVUW | DIVW o => Formatted_of o DIVW
  | MULW o => Formatted_of o MULW | REMUW o => Formatted_of o REMUW
  | REMW o => Formatted_of o REMW
  | VirtualAdvice o a => Formatted_of o (fun o => VirtualAdvice o a)
  | VirtualAdviceLen o => Formatted_of o VirtualAdviceLen
  | VirtualAdviceLoad o => Formatted_of o VirtualAdviceLoad
  | VirtualAssertEQ o => Formatted_of o VirtualAssertEQ
  | VirtualAssertHalfwordAlignment o => Formatted_of o VirtualAssertHalfwordAlignment
  | VirtualAssertWordAlignment o => Formatted_of o VirtualAssertWordAlignment
  | VirtualAssertLTE o => Formatted_of o VirtualAssertLTE
  | VirtualAssertValidDiv0 o => Formatted_of o VirtualAssertValidDiv0
  | VirtualAssertValidUnsignedRemainder o => Formatted_of o VirtualAssertValidUnsignedRemainder
  | VirtualAssertMulUNoOverflow o => Formatted_of o VirtualAssertMulUNoOverflow
  | VirtualChangeDivisor o => Formatted_of o VirtualChangeDivisor
  | VirtualChangeDivisorW o => Formatted_of o VirtualChangeDivisorW
  | VirtualZeroExtendWord o => Formatted_of o VirtualZeroExtendWord
  | VirtualSignExtendWord o => Formatted_of o VirtualSignExtendWord
  | VirtualPow2W o => Formatted_of o VirtualPow2W
  | VirtualPow2IW o => Formatted_of o VirtualPow2IW
  | VirtualMovsign o => Formatted_of o VirtualMovsign
  | VirtualMULI o => Formatted_of o VirtualMULI | VirtualPow2 o => Formatted_of o VirtualPow2
  | VirtualPow2I o => Formatted_of o VirtualPow2I
  | VirtualRev8W o => Formatted_of o VirtualRev8W
  | VirtualROTRI o => Formatted_of o VirtualROTRI
  | VirtualROTRIW o => Formatted_of o VirtualROTRIW
  | VirtualShiftRightBitmask o => Formatted_of o VirtualShiftRightBitmask
  | VirtualShiftRightBitmaskI o => Formatted_of o VirtualShiftRightBitmaskI
  | VirtualSRA o => Formatted_of o VirtualSRA | VirtualSRAI o => Formatted_of o VirtualSRAI
  | VirtualSRL o => Formatted_of o VirtualSRL | VirtualSRLI o => Formatted_of o VirtualSRLI
  | VirtualXORROT32 o => Formatted_of o VirtualXORROT32
  | VirtualXORROT24 o => Formatted_of o VirtualXORROT24
  | VirtualXORROT16 o => Formatted_of o VirtualXORROT16
  | VirtualXORROT63 o => Formatted_of o VirtualXORROT63
  | VirtualXORROTW16 o => Formatted_of o VirtualXORROTW16
  | VirtualXORROTW12 o => Formatted_of o VirtualXORROTW12
  | VirtualXORROTW8 o => Formatted_of o VirtualXORROTW8
  | VirtualXORROTW7 o => Formatted_of o VirtualXORROTW7
  | LB o => Formatted_of o LB | LBU o => Formatted_of o LBU | LD o => Formatted_of o LD
  | LH o => Formatted_of o LH | LHU o => Formatted_of o LHU | LW o => Formatted_of o LW
  | LWU o => Formatted_of o LWU | SB o => Formatted_of o SB | SD o => Formatted_of o SD
  | SH o => Formatted_of o SH | SW o => Formatted_of o SW | VirtualLW o => Formatted_of o VirtualLW
  | VirtualSW o => Formatted_of o VirtualSW | AMOADDD o => Formatted_of o AMOADDD
  | AMOADDW o => Formatted_of o AMOADDW | AMOANDD o => Formatted_of o AMOANDD
  | AMOANDW o => Formatted_of o AMOANDW | AMOMAXD o => Formatted_of o AMOMAXD
  | AMOMAXUD o => Formatted_of o AMOMAXUD | AMOMAXUW o => Formatted_of o AMOMAXUW
  | AMOMAXW o => Formatted_of o AMOMAXW | AMOMIND o => Formatted_of o AMOMIND
  | AMOMINUD o => Formatted_of o AMOMINUD | AMOMINUW o => Formatted_of o AMOMINUW
  | AMOMINW o => Formatted_of o AMOMINW | AMOORD o => Formatted_of o AMOORD
  | AMOORW o => Formatted_of o AMOORW | AMOSWAPD o => Formatted_of o AMOSWAPD
  | AMOSWAPW o => Formatted_of o AMOSWAPW | AMOXORD o => Formatted_of o AMOXORD
  | AMOXORW o => Formatted_of o AMOXORW | LRD o => Formatted_of o LRD | LRW o => Formatted_of o LRW
  | SCD o => Formatted_of o SCD | SCW o => Formatted_of o SCW
  end.

Definition op_operands (op : Op) : NormalizedOperands :=
  match op_format op with Formatted_of f _ => to_operands f end.
Definition op_set_rd (op : Op) (rd : nat) : Op :=
  match op_format op with Formatted_of f rebuild => rebuild (set_rd f rd) end.
Definition op_capture_pre (op : Op) (c : Cpu) : option RegisterState :=
  match op_format op with Formatted_of f _ => capture_pre_execution_state f c end.
Definition op_capture_post (op : Op) (state : RegisterState) (c : Cpu) : option RegisterState :=
  match op_format op with Formatted_of f _ => capture_post_execution_state f state c end.

(** [Instruction::normalize]. *)
Definition normalize (self : Instruction) : NormalizedInstruction :=
  {| ni_address := address self; ni_operands := op_operands (operands self);
     ni_virtual_sequence_remaining := virtual_sequence_remaining self;
     ni_is_first_in_sequence := is_first_in_sequence self; ni_is_compressed := is_compressed self |}.

(** [Instruction::with_rd]. *)
Definition with_rd (self : Instruction) (new_rd : nat) : Instruction :=
  {| address := address self; operands := op_set_rd (operands self) new_rd;
     virtual_sequence_remaining := virtual_sequence_remaining self;
     is_first_in_sequence := is_first_in_sequence self; is_compressed := is_compressed self |}.

Definition set_virtual_sequence_remaining (self : Instruction) (v : option Z) : Instruction :=
  {| address := address self; operands := operands self; virtual_sequence_remaining := v;
     is_first_in_sequence := is_first_in_sequence self; is_compressed := is_compressed self |}.
Definition set_is_first_in_sequence (self : Instruction) (v : bool) : Instruction :=
  {| address := address self; operands := operands self;
     virtual_sequence_remaining := virtual_sequence_remaining self;
     is_first_in_sequence := v; is_compressed := is_compressed self |}.
Definition set_is_compressed (self : Instruction) (v : bool) : Instruction :=
  {| address := address self; operands := operands self;
     virtual_sequence_remaining := virtual_sequence_remaining self;
     is_first_in_sequence := is_first_in_sequence self; is_compressed := v |}.

(** ** The assembler *)

Record InstrAssembler := {
  asm_address : Z;
  asm_is_compressed : bool;
  asm_xlen : Xlen;
  sequence : list Instruction;
  has_inline_instr_format : bool
}.

Definition InstrAssembler_new (address : Z) (is_compressed : bool) (xlen : Xlen) : InstrAssembler :=
  {| asm_address := address; asm_is_compressed := is_compressed; asm_xlen := xlen; sequence := [];
     has_inline_instr_format := false |}.
Definition InstrAssembler_new_inline (address : Z) (is_compressed : bool) (xlen : Xlen) : InstrAssembler :=
  {| asm_address := address; asm_is_compressed := is_compressed; asm_xlen := xlen; sequence := [];
     has_inline_instr_format := true |}.

(** [self.sequence.extend(l)] *)
Definition extend (self : InstrAssembler) (l : list Instruction) : InstrAssembler :=
  {| asm_address := asm_address self; asm_is_compressed := asm_is_compressed self;
     asm_xlen := asm_xlen self; sequence := sequence self ++ l;
     has_inline_instr_format := has_inline_instr_format self |}.

Definition is_valid_virtual_rd (virtual_rd : option nat) : bool :=
  match virtual_rd with
  | Some rd =>
      (rd =? 0)%nat ||
      (RISCV_REGISTER_COUNT + VIRTUAL_INSTRUCTION_RESERVED_REGISTER_COUNT <=? rd)%nat
  | None => true
  end.

Definition add_to_sequence {F} (op : F -> Op) `{RISCVTrace F op} `{InstructionFormat F}
    (self : InstrAssembler) (inst : Struct F) : M InstrAssembler :=
  if has_inline_instr_format self && negb (is_valid_virtual_rd (norm_rd (to_operands (operands inst))))
  then M_panic
  else
    let! l := inline_sequence op inst (asm_xlen self) in
    M_ret (extend self l).

(** The instruction an [emit_*] builds from its operands. *)
Definition emit {F} (op : F -> Op) `{RISCVTrace F op} `{InstructionFormat F}
    (self : InstrAssembler) (o : NormalizedOperands) : M InstrAssembler :=
  let! inst := M_lift (of_normalized op
    {| ni_address := asm_address self; ni_operands := o; ni_virtual_sequence_remaining := Some 0;
       ni_is_first_in_sequence := false; ni_is_compressed := false |}) in
  add_to_sequence op self inst.

Definition emit_r (op : FormatR -> Op) `{RISCVTrace FormatR op} (self : InstrAssembler)
    (rd rs1 rs2 : nat) : M InstrAssembler :=
  emit op self {| norm_rd := Some rd; norm_rs1 := Some rs1; norm_rs2 := Some rs2; norm_imm := 0 |}.
Definition emit_i (op : FormatI -> Op) `{RISCVTrace FormatI op} (self : InstrAssembler)
    (rd rs1 : nat) (imm : Z) : M InstrAssembler :=
  emit op self {| norm_rd := Some rd; norm_rs1 := Some rs1; norm_rs2 := None; norm_imm := imm |}.
Definition emit_s (op : FormatS -> Op) `{RISCVTrace FormatS op} (self : InstrAssembler)
    (rs1 rs2 : nat) (imm : Z) : M InstrAssembler :=
  emit op self {| norm_rd := None; norm_rs1 := Some rs1; norm_rs2 := Some rs2; norm_imm := imm |}.
Definition emit_ld (op : FormatLoad -> Op) `{RISCVTrace FormatLoad op} (self : InstrAssembler)
    (rd rs1 : nat) (imm : Z) : M InstrAssembler :=
  emit op self {| norm_rd := Some rd; norm_rs1 := Some rs1; norm_rs2 := None; norm_imm := imm |}.
Definition emit_b (op : FormatB -> Op) `{RISCVTrace FormatB op} (self : InstrAssembler)
    (rs1 rs2 : nat) (imm : Z) : M InstrAssembler :=
  emit op self {| norm_rd := None; norm_rs1 := Some rs1; norm_rs2 := Some rs2; norm_imm := imm |}.
Definition emit_j (op : FormatJ -> Op) `{RISCVTrace FormatJ op} (self : InstrAssembler)
    (rd : nat) (imm : Z) : M InstrAssembler :=
  emit op self {| norm_rd := Some rd; norm_rs1 := None; norm_rs2 := None; norm_imm := imm |}.
Definition emit_u (op : FormatU -> Op) `{RISCVTrace FormatU op} (self : InstrAssembler)
    (rd : nat) (imm : Z) : M InstrAssembler :=
  emit op self {| norm_rd := Some rd; norm_rs1 := None; norm_rs2 := None; norm_imm := imm |}.
Definition emit_vshift_i (op : FormatVirtualRightShiftI -> Op) `{RISCVTrace FormatVirtualRightShiftI op}
    (self : InstrAssembler) (rd rs1 : nat) (imm : Z) : M InstrAssembler :=
  emit op self {| norm_rd := Some rd; norm_rs1 := Some rs1; norm_rs2 := None; norm_imm := imm |}.
Definition emit_vshift_r (op : FormatVirtualRightShiftR -> Op) `{RISCVTrace FormatVirtualRightShiftR op}
    (self : InstrAssembler) (rd rs1 rs2 : nat) : M InstrAssembler :=
  emit op self {| norm_rd := Some rd; norm_rs1 := Some rs1; norm_rs2 := Some rs2; norm_imm := 0 |}.
Definition emit_align (op : FormatAssert -> Op) `{RISCVTrace FormatAssert op} (self : InstrAssembler)
    (rs1 : nat) (imm : Z) : M InstrAssembler :=
  emit op self {| norm_rd := None; norm_rs1 := Some rs1; norm_rs2 := None; norm_imm := imm |}.

(** [finalize]: the position of each instruction in the sequence, counted in
    [u16], and the compression flag of the last one; an empty sequence panics. *)
Definition number (l : list Instruction) : list Instruction :=
  imap (fun i instr =>
    set_virtual_sequence_remaining (set_is_first_in_sequence instr (Nat.eqb i 0))
      (Some (as_u16 (Z.of_nat (length l - i - 1))))) l.
Fixpoint mark_last (b : bool) (l : list Instruction) : option (list Instruction) :=
  match l with
  | [] => None
  | [i] => Some [set_is_compressed i b]
  | i :: l => l' ← mark_last b l; Some (i :: l')
  end.
Definition finalize (self : InstrAssembler) : M (list Instruction) :=
  M_lift (mark_last (asm_is_compressed self) (number (sequence self))).

Fixpoint emit_resets (self : InstrAssembler) (registers : list nat) : M InstrAssembler :=
  match registers with
  | [] => M_ret self
  | reg :: registers => let! self := emit_i ADDI self reg 0 0 in emit_resets self registers
  end.
Definition finalize_inline (self : InstrAssembler) : M (list Instruction) :=
  let! registers := get_registers_for_reset in
  let! self := emit_resets self registers in
  finalize self.
