(* ===== verification/Sequences.v ===== *)
(** * Sequences: the virtual sequences of the macro instructions

    Models [inline_sequence] of the integer instructions that are not proved
    directly ([tracer/src/instruction/*.rs]), and [inline_sequence]/[trace] of
    the enum [Instruction] ([tracer/src/instruction/mod.rs]).  The division
    family's [trace] overwrites the advice of the sequence before running it. *)
From S2P Require Import Prelude Registers AdviceTape Mmu Cpu Formats Instr Assembler.
Open Scope st_scope.

(** ** Expansions *)
Section Sequences.
Context (xl : Xlen).

(** *** Shifts *)
Definition SLLI_inline_sequence (self : Struct FormatI) : M (list Instruction) :=
  let mask := match xl with Bit32 => 0x1f | Bit64 => 0x3f end in
  let shift := Z.land (I_imm (operands self)) mask in
  let asm := InstrAssembler_new (address self) (is_compressed self) xl in
  let! asm := emit_i VirtualMULI asm (I_rd (operands self)) (I_rs1 (operands self))
                (as_u64 (Z.shiftl 1 shift)) in
  finalize asm.

Definition SLL_inline_sequence (self : Struct FormatR) : M (list Instruction) :=
  let! v_pow2 := allocate in
  let asm := InstrAssembler_new (address self) (is_compressed self) xl in
  let! asm := emit_i VirtualPow2 asm v_pow2 (R_rs2 (operands self)) 0 in
  let! asm := emit_r MUL asm (R_rd (operands self)) (R_rs1 (operands self)) v_pow2 in
  let! l := finalize asm in
  drop_guards [v_pow2] ;;! M_ret l.

(** The bitmask with [shift] trailing zeros. *)
Definition bitmask_imm (shift len : Z) : Z :=
  let ones := as_u128 (Z.shiftl 1 (len - shift)) - 1 in as_u64 (as_u128 (Z.shiftl ones shift)).
Definition shift_and_len (imm : Z) : Z * Z :=
  match xl with Bit32 => (Z.land imm 0x1f, 32) | Bit64 => (Z.land imm 0x3f, 64) end.

Definition SRL_inline_sequence (self : Struct FormatR) : M (list Instruction) :=
  let! v_bitmask := allocate in
  let asm := InstrAssembler_new (address self) (is_compressed self) xl in
  let! asm := emit_i VirtualShiftRightBitmask asm v_bitmask (R_rs2 (operands self)) 0 in
  let! asm := emit_vshift_r VirtualSRL asm (R_rd (operands self)) (R_rs1 (operands self)) v_bitmask in
  let! l := finalize asm in
  drop_guards [v_bitmask] ;;! M_ret l.

Definition SRLI_inline_sequence (self : Struct FormatI) : M (list Instruction) :=
  let '(shift, len) := shift_and_len (I_imm (operands self)) in
  let bitmask := bitmask_imm shift len in
  let asm := InstrAssembler_new (address self) (is_compressed self) xl in
  let! asm := emit_vshift_i VirtualSRLI asm (I_rd (operands self)) (I_rs1 (operands self)) bitmask in
  finalize asm.

Definition SRA_inline_sequence (self : Struct FormatR) : M (list Instruction) :=
  let! v_bitmask := allocate in
  let asm := InstrAssembler_new (address self) (is_compressed self) xl in
  let! asm := emit_i VirtualShiftRightBitmask asm v_bitmask (R_rs2 (operands self)) 0 in
  let! asm := emit_vshift_r VirtualSRA asm (R_rd (operands self)) (R_rs1 (operands self)) v_bitmask in
  let! l := finalize asm in
  drop_guards [v_bitmask] ;;! M_ret l.

Definition SRAI_inline_sequence (self : Struct FormatI) : M (list Instruction) :=
  let '(shift, len) := shift_and_len (I_imm (operands self)) in
  let bitmask := bitmask_imm shift len in
  let asm := InstrAssembler_new (address self) (is_compressed self) xl in
  let! asm := emit_vshift_i VirtualSRAI asm (I_rd (operands self)) (I_rs1 (operands self)) bitmask in
  finalize asm.
End Sequences.

(** The overriding implementations, seen by the emitters below. *)
#[export] Instance SLLI_trace : RISCVTrace SLLI :=
  {| of_normalized := from_normalized; inline_sequence self xl := SLLI_inline_sequence xl self |}.
#[export] Instance SLL_trace : RISCVTrace SLL :=
  {| of_normalized := from_normalized; inline_sequence self xl := SLL_inline_sequence xl self |}.
#[export] Instance SRL_trace : RISCVTrace SRL :=
  {| of_normalized := from_normalized; inline_sequence self xl := SRL_inline_sequence xl self |}.
#[export] Instance SRLI_trace : RISCVTrace SRLI :=
  {| of_normalized := from_normalized; inline_sequence self xl := SRLI_inline_sequence xl self |}.
#[export] Instance SRA_trace : RISCVTrace SRA :=
  {| of_normalized := from_normalized; inline_sequence self xl := SRA_inline_sequence xl self |}.
#[export] Instance SRAI_trace : RISCVTrace SRAI :=
  {| of_normalized := from_normalized; inline_sequence self xl := SRAI_inline_sequence xl self |}.

Section Words.
Context (xl : Xlen).

(** *** 32-bit word instructions *)
Definition ADDW_inline_sequence (self : Struct FormatR) : M (list Instruction) :=
  let o := operands self in
  let asm := InstrAssembler_new (address self) (is_compressed self) xl in
  let! asm := emit_r ADD asm (R_rd o) (R_rs1 o) (R_rs2 o) in
  let! asm := emit_i VirtualSignExtendWord asm (R_rd o) (R_rd o) 0 in
  finalize asm.
Definition ADDIW_inline_sequence (self : Struct FormatI) : M (list Instruction) :=
  let o := operands self in
  let asm := InstrAssembler_new (address self) (is_compressed self) xl in
  let! asm := emit_i ADDI asm (I_rd o) (I_rs1 o) (I_imm o) in
  let! asm := emit_i VirtualSignExtendWord asm (I_rd o) (I_rd o) 0 in
  finalize asm.
Definition SUBW_inline_sequence (self : Struct FormatR) : M (list Instruction) :=
  let o := operands self in
  let asm := InstrAssembler_new (address self) (is_compressed self) xl in
  let! asm := emit_r SUB asm (R_rd o) (R_rs1 o) (R_rs2 o) in
  let! asm := emit_i VirtualSignExtendWord asm (R_rd o) (R_rd o) 0 in
  finalize asm.
Definition MULW_inline_sequence (self : Struct FormatR) : M (list Instruction) :=
  let o := operands self in
  let asm := InstrAssembler_new (address self) (is_compressed self) xl in
  let! asm := emit_r MUL asm (R_rd o) (R_rs1 o) (R_rs2 o) in
  let! asm := emit_i VirtualSignExtendWord asm (R_rd o) (R_rd o) 0 in
  finalize asm.
Definition SLLW_inline_sequence (self : Struct FormatR) : M (list Instruction) :=
  let o := operands self in
  let! v_pow2 := allocate in
  let asm := InstrAssembler_new (address self) (is_compressed self) xl in
  let! asm := emit_i VirtualPow2W asm v_pow2 (R_rs2 o) 0 in
  let! asm := emit_r MUL asm (R_rd o) (R_rs1 o) v_pow2 in
  let! asm := emit_i VirtualSignExtendWord asm (R_rd o) (R_rd o) 0 in
  let! l := finalize asm in
  drop_guards [v_pow2] ;;! M_ret l.
Definition SLLIW_inline_sequence (self : Struct FormatI) : M (list Instruction) :=
  let o := operands self in
  match xl with
  | Bit32 => M_panic
  | Bit64 =>
      let mask := 0x1f in
      let shift := Z.land (I_imm o) mask in
      let asm := InstrAssembler_new (address self) (is_compressed self) xl in
      let! asm := emit_i VirtualMULI asm (I_rd o) (I_rs1 o) (as_u64 (Z.shiftl 1 shift)) in
      let! asm := emit_i VirtualSignExtendWord asm (I_rd o) (I_rd o) 0 in
      finalize asm
  end.
Definition SRLW_inline_sequence (self : Struct FormatR) : M (list Instruction) :=
  let o := operands self in
  let! v_bitmask := allocate in
  let! v_rs1 := allocate in
  let asm := InstrAssembler_new (address self) (is_compressed self) xl in
  let! asm := emit_i SLLI asm v_rs1 (R_rs1 o) 32 in
  let! asm := emit_i ORI asm v_bitmask (R_rs2 o) 32 in
  let! asm := emit_i VirtualShiftRightBitmask asm v_bitmask v_bitmask 0 in
  let! asm := emit_vshift_r VirtualSRL asm (R_rd o) v_rs1 v_bitmask in
  let! asm := emit_i VirtualSignExtendWord asm (R_rd o) (R_rd o) 0 in
  let! l := finalize asm in
  drop_guards [v_rs1; v_bitmask] ;;! M_ret l.
Definition SRLIW_inline_sequence (self : Struct FormatI) : M (list Instruction) :=
  let o := operands self in
  let! v_rs1 := allocate in
  let asm := InstrAssembler_new (address self) (is_compressed self) xl in
  let! asm := emit_i SLLI asm v_rs1 (I_rs1 o) 32 in
  match xl with
  | Bit32 => M_panic
  | Bit64 =>
      let '(shift, len) := (Z.land (I_imm o) 0x1f + 32, 64) in
      let bitmask := bitmask_imm shift len in
      let! asm := emit_vshift_i VirtualSRLI asm (I_rd o) v_rs1 bitmask in
      let! asm := emit_i VirtualSignExtendWord asm (I_rd o) (I_rd o) 0 in
      let! l := finalize asm in
      drop_guards [v_rs1] ;;! M_ret l
  end.
Definition SRAW_inline_sequence (self : Struct FormatR) : M (list Instruction) :=
  let o := operands self in
  let! v_rs1 := allocate in
  let! v_bitmask := allocate in
  let asm := InstrAssembler_new (address self) (is_compressed self) xl in
  let! asm := emit_i VirtualSignExtendWord asm v_rs1 (R_rs1 o) 0 in
  let! asm := emit_i ANDI asm v_bitmask (R_rs2 o) 0x1f in
  let! asm := emit_i VirtualShiftRightBitmask asm v_bitmask v_bitmask 0 in
  let! asm := emit_vshift_r VirtualSRA asm (R_rd o) v_rs1 v_bitmask in
  let! asm := emit_i VirtualSignExtendWord asm (R_rd o) (R_rd o) 0 in
  let! l := finalize asm in
  drop_guards [v_bitmask; v_rs1] ;;! M_ret l.
Definition SRAIW_inline_sequence (self : Struct FormatI) : M (list Instruction) :=
  let o := operands self in
  let! v_rs1 := allocate in
  let shift := Z.land (I_imm o) 0x1f in
  match xl with
  | Bit32 => M_panic
  | Bit64 =>
      let len := 64 in
      let bitmask := bitmask_imm shift len in
      let asm := InstrAssembler_new (address self) (is_compressed self) xl in
      let! asm := emit_i VirtualSignExtendWord asm v_rs1 (I_rs1 o) 0 in
      let! asm := emit_vshift_i VirtualSRAI asm (I_rd o) v_rs1 bitmask in
      let! asm := emit_i VirtualSignExtendWord asm (I_rd o) (I_rd o) 0 in
      let! l := finalize asm in
      drop_guards [v_rs1] ;;! M_ret l
  end.

(** *** Signed multiplication *)
Definition MULH_inline_sequence (self : Struct FormatR) : M (list Instruction) :=
  let o := operands self in
  let! v_sx := allocate in
  let! v_sy := allocate in
  let! v_tmp := allocate in
  let asm := InstrAssembler_new (address self) (is_compressed self) xl in
  let! asm := emit_i VirtualMovsign asm v_sx (R_rs1 o) 0 in
  let! asm := emit_i VirtualMovsign asm v_sy (R_rs2 o) 0 in
  let! asm := emit_r MUL asm v_sx v_sx (R_rs2 o) in
  let! asm := emit_r MUL asm v_sy v_sy (R_rs1 o) in
  let! asm := emit_r MULHU asm v_tmp (R_rs1 o) (R_rs2 o) in
  let! asm := emit_r ADD asm v_tmp v_tmp v_sx in
  let! asm := emit_r ADD asm (R_rd o) v_tmp v_sy in
  let! l := finalize asm in
  drop_guards [v_tmp; v_sy; v_sx] ;;! M_ret l.
Definition MULHSU_inline_sequence (self : Struct FormatR) : M (list Instruction) :=
  let o := operands self in
  let! v0 := allocate in
  let! v1 := allocate in
  let! v2 := allocate in
  let! v3 := allocate in
  let asm := InstrAssembler_new (address self) (is_compressed self) xl in
  let! asm := emit_i VirtualMovsign asm v0 (R_rs1 o) 0 in
  let! asm := emit_i ANDI asm v1 v0 1 in
  let! asm := emit_r XOR asm v2 (R_rs1 o) v0 in
  let! asm := emit_r ADD asm v2 v2 v1 in
  let! asm := emit_r MULHU asm v3 v2 (R_rs2 o) in
  let! asm := emit_r MUL asm v2 v2 (R_rs2 o) in
  let! asm := emit_r XOR asm v3 v3 v0 in
  let! asm := emit_r XOR asm v2 v2 v0 in
  let! asm := emit_r ADD asm v0 v2 v1 in
  let! asm := emit_r SLTU asm v0 v0 v2 in
  let! asm := emit_r ADD asm (R_rd o) v3 v0 in
  let! l := finalize asm in
  drop_guards [v3; v2; v1; v0] ;;! M_ret l.
End Words.

#[export] Instance MULH_trace : RISCVTrace MULH :=
  {| of_normalized := from_normalized; inline_sequence self xl := MULH_inline_sequence xl self |}.
#[export] Instance MULHSU_trace : RISCVTrace MULHSU :=
  {| of_normalized := from_normalized; inline_sequence self xl := MULHSU_inline_sequence xl self |}.

Section Division.
Context (xl : Xlen).

Definition shmat : Z := match xl with Bit32 => 31 | Bit64 => 63 end.

Definition DIV_inline_sequence (self : Struct FormatR) : M (list Instruction) :=
  let a0 := R_rs1 (operands self) in
  let a1 := R_rs2 (operands self) in
  let! a2 := allocate in
  let! a3 := allocate in
  let! t0 := allocate in
  let! t1 := allocate in
  let asm := InstrAssembler_new (address self) (is_compressed self) xl in
  let! asm := emit_j VirtualAdvice_op asm a2 0 in
  let! asm := emit_j VirtualAdvice_op asm a3 0 in
  let! asm := emit_b VirtualAssertValidDiv0 asm a1 a2 0 in
  let! asm := emit_r VirtualChangeDivisor asm t0 a0 a1 in
  let! asm := emit_r MULH asm t1 a2 t0 in
  let! t2 := allocate in
  let! t3 := allocate in
  let! asm := emit_r MUL asm t2 a2 t0 in
  let! asm := emit_i SRAI asm t3 t2 shmat in
  let! asm := emit_b VirtualAssertEQ asm t1 t3 0 in
  let! asm := emit_i SRAI asm t1 a0 shmat in
  let! asm := emit_r XOR asm t3 a3 t1 in
  let! asm := emit_r SUB asm t3 t3 t1 in
  let! asm := emit_r ADD asm t2 t2 t3 in
  let! asm := emit_b VirtualAssertEQ asm t2 a0 0 in
  let! asm := emit_i SRAI asm t1 t0 shmat in
  let! asm := emit_r XOR asm t3 t0 t1 in
  let! asm := emit_r SUB asm t3 t3 t1 in
  let! asm := emit_b VirtualAssertValidUnsignedRemainder asm a3 t3 0 in
  let! asm := emit_i ADDI asm (R_rd (operands self)) a2 0 in
  let! l := finalize asm in
  drop_guards [t3; t2; t1; t0; a3; a2] ;;! M_ret l.

Definition REM_inline_sequence (self : Struct FormatR) : M (list Instruction) :=
  let a0 := R_rs1 (operands self) in
  let a1 := R_rs2 (operands self) in
  let! a2 := allocate in
  let! a3 := allocate in
  let! t0 := allocate in
  let! t1 := allocate in
  let asm := InstrAssembler_new (address self) (is_compressed self) xl in
  let! asm := emit_j VirtualAdvice_op asm a2 0 in
  let! asm := emit_j VirtualAdvice_op asm a3 0 in
  let! asm := emit_b VirtualAssertValidDiv0 asm a1 a2 0 in
  let! asm := emit_r VirtualChangeDivisor asm t0 a0 a1 in
  let! asm := emit_r MULH asm t1 a2 t0 in
  let! t2 := allocate in
  let! t3 := allocate in
  let! asm := emit_r MUL asm t2 a2 t0 in
  let! asm := emit_i SRAI asm t3 t2 shmat in
  let! asm := emit_b VirtualAssertEQ asm t1 t3 0 in
  let! asm := emit_i SRAI asm t1 a0 shmat in
  let! asm := emit_r XOR asm t3 a3 t1 in
  let! asm := emit_r SUB asm t3 t3 t1 in
  let! asm := emit_r ADD asm t2 t2 t3 in
  let! asm := emit_b VirtualAssertEQ asm t2 a0 0 in
  let! asm := emit_i SRAI asm t1 t0 shmat in
  let! asm := emit_r XOR asm t2 t0 t1 in
  let! asm := emit_r SUB asm t2 t2 t1 in
  let! asm := emit_b VirtualAssertValidUnsignedRemainder asm a3 t2 0 in
  let! asm := emit_i ADDI asm (R_rd (operands self)) t3 0 in
  let! l := finalize asm in
  drop_guards [t3; t2; t1; t0; a3; a2] ;;! M_ret l.

Definition DIVU_inline_sequence (self : Struct FormatR) : M (list Instruction) :=
  let o := operands self in
  let! v0 := allocate in
  let! v1 := allocate in
  let asm := InstrAssembler_new (address self) (is_compressed self) xl in
  let! asm := emit_j VirtualAdvice_op asm v0 0 in
  let! asm := emit_b VirtualAssertValidDiv0 asm (R_rs2 o) v0 0 in
  let! asm := emit_b VirtualAssertMulUNoOverflow asm v0 (R_rs2 o) 0 in
  let! asm := emit_r MUL asm v1 v0 (R_rs2 o) in
  let! asm := emit_b VirtualAssertLTE asm v1 (R_rs1 o) 0 in
  let! asm := emit_r SUB asm v1 (R_rs1 o) v1 in
  let! asm := emit_b VirtualAssertValidUnsignedRemainder asm v1 (R_rs2 o) 0 in
  let! asm := emit_i ADDI asm (R_rd o) v0 0 in
  let! l := finalize asm in
  drop_guards [v1; v0] ;;! M_ret l.

Definition REMU_inline_sequence (self : Struct FormatR) : M (list Instruction) :=
  let o := operands self in
  let! v0 := allocate in
  let asm := InstrAssembler_new (address self) (is_compressed self) xl in
  let! asm := emit_j VirtualAdvice_op asm v0 0 in
  let! asm := emit_b VirtualAssertMulUNoOverflow asm v0 (R_rs2 o) 0 in
  let! asm := emit_r MUL asm v0 v0 (R_rs2 o) in
  let! asm := emit_b VirtualAssertLTE asm v0 (R_rs1 o) 0 in
  let! asm := emit_r SUB asm v0 (R_rs1 o) v0 in
  let! asm := emit_b VirtualAssertValidUnsignedRemainder asm v0 (R_rs2 o) 0 in
  let! asm := emit_i ADDI asm (R_rd o) v0 0 in
  let! l := finalize asm in
  drop_guards [v0] ;;! M_ret l.

Definition DIVUW_inline_sequence (self : Struct FormatR) : M (list Instruction) :=
  let o := operands self in
  let! rs1 := allocate in
  let! rs2 := allocate in
  let! quo := allocate in
  let! temp := allocate in
  let asm := InstrAssembler_new (address self) (is_compressed self) xl in
  let! asm := emit_i VirtualZeroExtendWord asm rs1 (R_rs1 o) 0 in
  let! asm := emit_i VirtualZeroExtendWord asm rs2 (R_rs2 o) 0 in
  let! asm := emit_j VirtualAdvice_op asm quo 0 in
  let! asm := emit_b VirtualAssertMulUNoOverflow asm quo rs2 0 in
  let! asm := emit_r MUL asm temp quo rs2 in
  let! asm := emit_b VirtualAssertLTE asm temp rs1 0 in
  let! asm := emit_r SUB asm temp rs1 temp in
  let! asm := emit_b VirtualAssertValidUnsignedRemainder asm temp rs2 0 in
  let! asm := emit_i VirtualSignExtendWord asm temp quo 0 in
  let! asm := emit_b VirtualAssertValidDiv0 asm rs2 temp 0 in
  let! asm := emit_i ADDI asm (R_rd o) temp 0 in
  let! l := finalize asm in
  drop_guards [temp; quo; rs2; rs1] ;;! M_ret l.

Definition REMUW_inline_sequence (self : Struct FormatR) : M (list Instruction) :=
  let o := operands self in
  let! rs1 := allocate in
  let! rs2 := allocate in
  let! v_tmp := allocate in
  let asm := InstrAssembler_new (address self) (is_compressed self) xl in
  let! asm := emit_i VirtualZeroExtendWord asm rs1 (R_rs1 o) 0 in
  let! asm := emit_i VirtualZeroExtendWord asm rs2 (R_rs2 o) 0 in
  let! asm := emit_j VirtualAdvice_op asm v_tmp 0 in
  let! asm := emit_b VirtualAssertMulUNoOverflow asm v_tmp rs2 0 in
  let! asm := emit_r MUL asm v_tmp v_tmp rs2 in
  let! asm := emit_b VirtualAssertLTE asm v_tmp rs1 0 in
  let! asm := emit_r SUB asm v_tmp rs1 v_tmp in
  let! asm := emit_b VirtualAssertValidUnsignedRemainder asm v_tmp rs2 0 in
  let! asm := emit_i VirtualSignExtendWord asm (R_rd o) v_tmp 0 in
  let! l := finalize asm in
  drop_guards [v_tmp; rs2; rs1] ;;! M_ret l.

(** The part [DIVW] and [REMW] share: everything but the last instruction. *)
Definition divw_body (asm : InstrAssembler) (a0 a1 a2 a3 t0 t1 t2 t3 t4 : nat) : M InstrAssembler :=
  let! asm := emit_j VirtualAdvice_op asm a2 0 in
  let! asm := emit_j VirtualAdvice_op asm a3 0 in
  let! asm := emit_i VirtualSignExtendWord asm t4 a0 0 in
  let! asm := emit_i VirtualSignExtendWord asm t3 a1 0 in
  let! asm := emit_b VirtualAssertValidDiv0 asm t3 a2 0 in
  let! asm := emit_r VirtualChangeDivisorW asm t0 t4 t3 in
  let! asm := emit_i VirtualSignExtendWord asm t1 a2 0 in
  let! asm := emit_b VirtualAssertEQ asm t1 a2 0 in
  let! asm := emit_i SRAI asm t2 a3 31 in
  let! asm := emit_b VirtualAssertEQ asm t2 0 0 in
  let! asm := emit_i SRAI asm t2 t4 31 in
  let! asm := emit_r XOR asm t3 a3 t2 in
  let! asm := emit_r SUB asm t3 t3 t2 in
  let! asm := emit_r MUL asm t1 a2 t0 in
  let! asm := emit_r ADD asm t1 t1 t3 in
  let! asm := emit_b VirtualAssertEQ asm t1 t4 0 in
  let! asm := emit_i SRAI asm t2 t0 31 in
  let! asm := emit_r XOR asm t1 t0 t2 in
  let! asm := emit_r SUB asm t1 t1 t2 in
  emit_b VirtualAssertValidUnsignedRemainder asm a3 t1 0.

Definition DIVW_inline_sequence (self : Struct FormatR) : M (list Instruction) :=
  let a0 := R_rs1 (operands self) in
  let a1 := R_rs2 (operands self) in
  let! a2 := allocate in
  let! a3 := allocate in
  let! t0 := allocate in
  let! t1 := allocate in
  let! t2 := allocate in
  let! t3 := allocate in
  let! t4 := allocate in
  let asm := InstrAssembler_new (address self) (is_compressed self) xl in
  let! asm := divw_body asm a0 a1 a2 a3 t0 t1 t2 t3 t4 in
  let! asm := emit_i VirtualSignExtendWord asm (R_rd (operands self)) a2 0 in
  let! l := finalize asm in
  drop_guards [t4; t3; t2; t1; t0; a3; a2] ;;! M_ret l.

Definition REMW_inline_sequence (self : Struct FormatR) : M (list Instruction) :=
  let a0 := R_rs1 (operands self) in
  let a1 := R_rs2 (operands self) in
  let! a2 := allocate in
  let! a3 := allocate in
  let! t0 := allocate in
  let! t1 := allocate in
  let! t2 := allocate in
  let! t3 := allocate in
  let! t4 := allocate in
  let asm := InstrAssembler_new (address self) (is_compressed self) xl in
  let! asm := divw_body asm a0 a1 a2 a3 t0 t1 t2 t3 t4 in
  let! asm := emit_i VirtualSignExtendWord asm (R_rd (operands self)) t3 0 in
  let! l := finalize asm in
  drop_guards [t4; t3; t2; t1; t0; a3; a2] ;;! M_ret l.
End Division.
