(* ===== verification/MemSequences.v ===== *)
(** * MemSequences: the virtual sequences of memory instructions

    Models [inline_sequence] of the loads, stores and atomics
    ([tracer/src/instruction/*.rs]) and the helpers of
    [tracer/src/instruction/amo.rs]: on the 64-bit machine every access
    becomes one [LD] of the aligned doubleword and, for a store, one [SD] of the
    doubleword with the addressed bytes replaced. *)
From S2P Require Import Prelude Registers AdviceTape Mmu Cpu Formats Instr Assembler Sequences.
Open Scope st_scope.

Definition new_asm {F} (self : Struct F) (xl : Xlen) : InstrAssembler :=
  InstrAssembler_new (address self) (is_compressed self) xl.

(** ** Loads *)
Section Loads.
Context (xl : Xlen) (self : Struct FormatLoad).
Abbreviation rd := (L_rd (operands self)).
Abbreviation rs1 := (L_rs1 (operands self)).
Abbreviation imm := (L_imm (operands self)).

Definition LB_inline_sequence : M (list Instruction) :=
  match xl with
  | Bit32 =>
      let! v0 := allocate in
      let! v1 := allocate in
      let asm := new_asm self Bit32 in
      let! asm := emit_i ADDI asm v0 rs1 (as_u64 imm) in
      let! asm := emit_i ANDI asm v1 v0 (as_u64 (-4)) in
      let! asm := emit_i VirtualLW asm v1 v1 0 in
      let! asm := emit_i XORI asm v0 v0 3 in
      let! asm := emit_i SLLI asm v0 v0 3 in
      let! asm := emit_r SLL asm v1 v1 v0 in
      let! asm := emit_i SRAI asm rd v1 24 in
      let! l := finalize asm in
      drop_guards [v1; v0] ;;! M_ret l
  | Bit64 =>
      let! v0 := allocate in
      let! v1 := allocate in
      let asm := new_asm self Bit64 in
      let! asm := emit_i ADDI asm v0 rs1 (as_u64 imm) in
      let! asm := emit_i ANDI asm v1 v0 (as_u64 (-8)) in
      let! asm := emit_ld LD asm v1 v1 0 in
      let! asm := emit_i XORI asm v0 v0 7 in
      let! asm := emit_i SLLI asm v0 v0 3 in
      let! asm := emit_r SLL asm v1 v1 v0 in
      let! asm := emit_i SRAI asm rd v1 56 in
      let! l := finalize asm in
      drop_guards [v1; v0] ;;! M_ret l
  end.
Definition LBU_inline_sequence : M (list Instruction) :=
  match xl with
  | Bit32 =>
      let! v0 := allocate in
      let! v1 := allocate in
      let asm := new_asm self Bit32 in
      let! asm := emit_i ADDI asm v0 rs1 (as_u64 imm) in
      let! asm := emit_i ANDI asm v1 v0 (as_u64 (-4)) in
      let! asm := emit_i VirtualLW asm v1 v1 0 in
      let! asm := emit_i XORI asm v0 v0 3 in
      let! asm := emit_i SLLI asm v0 v0 3 in
      let! asm := emit_r SLL asm v1 v1 v0 in
      let! asm := emit_i SRLI asm rd v1 24 in
      let! l := finalize asm in
      drop_guards [v1; v0] ;;! M_ret l
  | Bit64 =>
      let! v0 := allocate in
      let! v1 := allocate in
      let asm := new_asm self Bit64 in
      let! asm := emit_i ADDI asm v0 rs1 (as_u64 imm) in
      let! asm := emit_i ANDI asm v1 v0 (as_u64 (-8)) in
      let! asm := emit_ld LD asm v1 v1 0 in
      let! asm := emit_i XORI asm v0 v0 7 in
      let! asm := emit_i SLLI asm v0 v0 3 in
      let! asm := emit_r SLL asm v1 v1 v0 in
      let! asm := emit_i SRLI asm rd v1 56 in
      let! l := finalize asm in
      drop_guards [v1; v0] ;;! M_ret l
  end.
Definition LH_inline_sequence : M (list Instruction) :=
  match xl with
  | Bit32 =>
      let! v0 := allocate in
      let! v1 := allocate in
      let asm := new_asm self Bit32 in
      let! asm := emit_align VirtualAssertHalfwordAlignment asm rs1 imm in
      let! asm := emit_i ADDI asm v0 rs1 (as_u64 imm) in
      let! asm := emit_i ANDI asm v1 v0 (as_u64 (-4)) in
      let! asm := emit_i VirtualLW asm v1 v1 0 in
      let! asm := emit_i XORI asm v0 v0 2 in
      let! asm := emit_i SLLI asm v0 v0 3 in
      let! asm := emit_r SLL asm v1 v1 v0 in
      let! asm := emit_i SRAI asm rd v1 16 in
      let! l := finalize asm in
      drop_guards [v1; v0] ;;! M_ret l
  | Bit64 =>
      let! v0 := allocate in
      let! v1 := allocate in
      let asm := new_asm self Bit64 in
      let! asm := emit_align VirtualAssertHalfwordAlignment asm rs1 imm in
      let! asm := emit_i ADDI asm v0 rs1 (as_u64 imm) in
      let! asm := emit_i ANDI asm v1 v0 (as_u64 (-8)) in
      let! asm := emit_ld LD asm v1 v1 0 in
      let! asm := emit_i XORI asm v0 v0 6 in
      let! asm := emit_i SLLI asm v0 v0 3 in
      let! asm := emit_r SLL asm v1 v1 v0 in
      let! asm := emit_i SRAI asm rd v1 48 in
      let! l := finalize asm in
      drop_guards [v1; v0] ;;! M_ret l
  end.
Definition LHU_inline_sequence : M (list Instruction) :=
  match xl with
  | Bit32 =>
      let! v0 := allocate in
      let! v1 := allocate in
      let asm := new_asm self Bit32 in
      let! asm := emit_align VirtualAssertHalfwordAlignment asm rs1 imm in
      let! asm := emit_i ADDI asm v0 rs1 (as_u64 imm) in
      let! asm := emit_i ANDI asm v1 v0 (as_u64 (-4)) in
      let! asm := emit_i VirtualLW asm v1 v1 0 in
      let! asm := emit_i XORI asm v0 v0 2 in
      let! asm := emit_i SLLI asm v0 v0 3 in
      let! asm := emit_r SLL asm v1 v1 v0 in
      let! asm := emit_i SRLI asm rd v1 16 in
      let! l := finalize asm in
      drop_guards [v1; v0] ;;! M_ret l
  | Bit64 =>
      let! v0 := allocate in
      let! v1 := allocate in
      let asm := new_asm self Bit64 in
      let! asm := emit_align VirtualAssertHalfwordAlignment asm rs1 imm in
      let! asm := emit_i ADDI asm v0 rs1 (as_u64 imm) in
      let! asm := emit_i ANDI asm v1 v0 (as_u64 (-8)) in
      let! asm := emit_ld LD asm v1 v1 0 in
      let! asm := emit_i XORI asm v0 v0 6 in
      let! asm := emit_i SLLI asm v0 v0 3 in
      let! asm := emit_r SLL asm v1 v1 v0 in
      let! asm := emit_i SRLI asm rd v1 48 in
      let! l := finalize asm in
      drop_guards [v1; v0] ;;! M_ret l
  end.
Definition LWU_inline_sequence : M (list Instruction) :=
  match xl with
  | Bit32 => M_panic
  | Bit64 =>
      let! v0 := allocate in
      let! v1 := allocate in
      let asm := new_asm self xl in
      let! asm := emit_align VirtualAssertWordAlignment asm rs1 imm in
      let! asm := emit_i ADDI asm v0 rs1 (as_u64 imm) in
      let! asm := emit_i ANDI asm v1 v0 (as_u64 (-8)) in
      let! asm := emit_ld LD asm v1 v1 0 in
      let! asm := emit_i XORI asm v0 v0 4 in
      let! asm := emit_i SLLI asm v0 v0 3 in
      let! asm := emit_r SLL asm v1 v1 v0 in
      let! asm := emit_i SRLI asm rd v1 32 in
      let! l := finalize asm in
      drop_guards [v1; v0] ;;! M_ret l
  end.
Definition LW_inline_sequence : M (list Instruction) :=
  match xl with
  | Bit32 =>
      let asm := new_asm self Bit32 in
      let! asm := emit_i VirtualLW asm rd rs1 (as_u64 imm) in
      finalize asm
  | Bit64 =>
      let! v0 := allocate in
      let! v1 := allocate in
      let asm := new_asm self Bit64 in
      let! asm := emit_align VirtualAssertWordAlignment asm rs1 imm in
      let! asm := emit_i ADDI asm v0 rs1 (as_u64 imm) in
      let! asm := emit_i ANDI asm v1 v0 (as_u64 (-8)) in
      let! asm := emit_ld LD asm v1 v1 0 in
      let! asm := emit_i SLLI asm v0 v0 3 in
      let! asm := emit_r SRL asm v1 v1 v0 in
      let! asm := emit_i VirtualSignExtendWord asm rd v1 0 in
      let! l := finalize asm in
      drop_guards [v1; v0] ;;! M_ret l
  end.
End Loads.

#[export] Instance LW_trace : RISCVTrace LW :=
  {| of_normalized := from_normalized; inline_sequence self xl := LW_inline_sequence xl self |}.

(** ** Stores *)
Section Stores.
Context (xl : Xlen) (self : Struct FormatS).
Abbreviation rs1 := (S_rs1 (operands self)).
Abbreviation rs2 := (S_rs2 (operands self)).
Abbreviation imm := (S_imm (operands self)).

Definition SB_inline_sequence : M (list Instruction) :=
  match xl with
  | Bit32 =>
      let! v0 := allocate in
      let! v1 := allocate in
      let! v2 := allocate in
      let! v3 := allocate in
      let asm := new_asm self Bit32 in
      let! asm := emit_i ADDI asm v0 rs1 (as_u64 imm) in
      let! asm := emit_i ANDI asm v1 v0 (as_u64 (-4)) in
      let! asm := emit_i VirtualLW asm v2 v1 0 in
      let! asm := emit_i SLLI asm v3 v0 3 in
      let! asm := emit_u LUI asm v0 0xff in
      let! asm := emit_r SLL asm v0 v0 v3 in
      let! asm := emit_r SLL asm v3 rs2 v3 in
      let! asm := emit_r XOR asm v3 v2 v3 in
      let! asm := emit_r AND asm v3 v3 v0 in
      let! asm := emit_r XOR asm v2 v2 v3 in
      let! asm := emit_s VirtualSW asm v1 v2 0 in
      let! l := finalize asm in
      drop_guards [v3; v2; v1; v0] ;;! M_ret l
  | Bit64 =>
      let! v0 := allocate in
      let! v1 := allocate in
      let! v2 := allocate in
      let! v3 := allocate in
      let asm := new_asm self Bit64 in
      let! asm := emit_i ADDI asm v0 rs1 (as_u64 imm) in
      let! asm := emit_i ANDI asm v1 v0 (as_u64 (-8)) in
      let! asm := emit_ld LD asm v2 v1 0 in
      let! asm := emit_i SLLI asm v3 v0 3 in
      let! asm := emit_u LUI asm v0 0xff in
      let! asm := emit_r SLL asm v0 v0 v3 in
      let! asm := emit_r SLL asm v3 rs2 v3 in
      let! asm := emit_r XOR asm v3 v2 v3 in
      let! asm := emit_r AND asm v3 v3 v0 in
      let! asm := emit_r XOR asm v2 v2 v3 in
      let! asm := emit_s SD asm v1 v2 0 in
      let! l := finalize asm in
      drop_guards [v3; v2; v1; v0] ;;! M_ret l
  end.
Definition SH_inline_sequence : M (list Instruction) :=
  match xl with
  | Bit32 =>
      let! v0 := allocate in
      let! v1 := allocate in
      let! v2 := allocate in
      let! v3 := allocate in
      let asm := new_asm self Bit32 in
      let! asm := emit_align VirtualAssertHalfwordAlignment asm rs1 imm in
      let! asm := emit_i ADDI asm v0 rs1 (as_u64 imm) in
      let! asm := emit_i ANDI asm v1 v0 (as_u64 (-4)) in
      let! asm := emit_i VirtualLW asm v2 v1 0 in
      let! asm := emit_i SLLI asm v3 v0 3 in
      let! asm := emit_u LUI asm v0 0xffff in
      let! asm := emit_r SLL asm v0 v0 v3 in
      let! asm := emit_r SLL asm v3 rs2 v3 in
      let! asm := emit_r XOR asm v3 v2 v3 in
      let! asm := emit_r AND asm v3 v3 v0 in
      let! asm := emit_r XOR asm v2 v2 v3 in
      let! asm := emit_s VirtualSW asm v1 v2 0 in
      let! l := finalize asm in
      drop_guards [v3; v2; v1; v0] ;;! M_ret l
  | Bit64 =>
      let! v0 := allocate in
      let! v1 := allocate in
      let! v2 := allocate in
      let! v3 := allocate in
      let asm := new_asm self Bit64 in
      let! asm := emit_align VirtualAssertHalfwordAlignment asm rs1 imm in
      let! asm := emit_i ADDI asm v0 rs1 (as_u64 imm) in
      let! asm := emit_i ANDI asm v1 v0 (as_u64 (-8)) in
      let! asm := emit_ld LD asm v2 v1 0 in
      let! asm := emit_i SLLI asm v3 v0 3 in
      let! asm := emit_u LUI asm v0 0xffff in
      let! asm := emit_r SLL asm v0 v0 v3 in
      let! asm := emit_r SLL asm v3 rs2 v3 in
      let! asm := emit_r XOR asm v3 v2 v3 in
      let! asm := emit_r AND asm v3 v3 v0 in
      let! asm := emit_r XOR asm v2 v2 v3 in
      let! asm := emit_s SD asm v1 v2 0 in
      let! l := finalize asm in
      drop_guards [v3; v2; v1; v0] ;;! M_ret l
  end.
Definition SW_inline_sequence : M (list Instruction) :=
  match xl with
  | Bit32 =>
      let asm := new_asm self Bit32 in
      let! asm := emit_s VirtualSW asm rs1 rs2 imm in
      finalize asm
  | Bit64 =>
      let! v0 := allocate in
      let! v1 := allocate in
      let! v2 := allocate in
      let! v3 := allocate in
      let asm := new_asm self Bit64 in
      let! asm := emit_align VirtualAssertWordAlignment asm rs1 imm in
      let! asm := emit_i ADDI asm v0 rs1 (as_u64 imm) in
      let! asm := emit_i ANDI asm v1 v0 (as_u64 (-8)) in
      let! asm := emit_ld LD asm v2 v1 0 in
      let! asm := emit_i SLLI asm v0 v0 3 in
      let! asm := emit_i ORI asm v3 0%nat (as_u64 (-1)) in
      let! asm := emit_i SRLI asm v3 v3 32 in
      let! asm := emit_r SLL asm v3 v3 v0 in
      let! asm := emit_r SLL asm v0 rs2 v0 in
      let! asm := emit_r XOR asm v0 v2 v0 in
      let! asm := emit_r AND asm v0 v0 v3 in
      let! asm := emit_r XOR asm v2 v2 v0 in
      let! asm := emit_s SD asm v1 v2 0 in
      let! l := finalize asm in
      drop_guards [v3; v2; v1; v0] ;;! M_ret l
  end.
End Stores.

#[export] Instance SW_trace : RISCVTrace SW :=
  {| of_normalized := from_normalized; inline_sequence self xl := SW_inline_sequence xl self |}.

(** ** amo.rs *)
Definition amo_pre64 (asm : InstrAssembler) (rs1 v_rd v_dword v_shift : nat) : M InstrAssembler :=
  let! asm := emit_align VirtualAssertWordAlignment asm rs1 0 in
  let! asm := emit_i ANDI asm v_shift rs1 (as_u64 (-8)) in
  let! asm := emit_ld LD asm v_dword v_shift 0 in
  let! asm := emit_i SLLI asm v_shift rs1 3 in
  emit_r SRL asm v_rd v_dword v_shift.
Definition amo_post64 (asm : InstrAssembler) (rs1 rs2 v_dword v_shift v_mask rd v_rd : nat)
    : M InstrAssembler :=
  let! asm := emit_i ORI asm v_mask 0%nat (as_u64 (-1)) in
  let! asm := emit_i SRLI asm v_mask v_mask 32 in
  let! asm := emit_r SLL asm v_mask v_mask v_shift in
  let! asm := emit_r SLL asm v_shift rs2 v_shift in
  let! asm := emit_r XOR asm v_shift v_dword v_shift in
  let! asm := emit_r AND asm v_shift v_shift v_mask in
  let! asm := emit_r XOR asm v_dword v_dword v_shift in
  let! asm := emit_i ANDI asm v_mask rs1 (as_u64 (-8)) in
  let! asm := emit_s SD asm v_mask v_dword 0 in
  emit_i VirtualSignExtendWord asm rd v_rd 0.
Definition amo_pre32 (asm : InstrAssembler) (rs1 v_rd : nat) : M InstrAssembler :=
  let! asm := emit_align VirtualAssertWordAlignment asm rs1 0 in
  emit_i VirtualLW asm v_rd rs1 0.
Definition amo_post32 (asm : InstrAssembler) (rs2 rs1 rd v_rd : nat) : M InstrAssembler :=
  let! asm := emit_s VirtualSW asm rs1 rs2 0 in
  emit_i ADDI asm rd v_rd 0.

(** ** Atomic memory operations *)
Section Atomics.
Context (xl : Xlen) (self : Struct FormatAMO).
Abbreviation rd := (AMO_rd (operands self)).
Abbreviation rs1 := (AMO_rs1 (operands self)).
Abbreviation rs2 := (AMO_rs2 (operands self)).

(** The body [AMOADD.D], [AMOAND.D], [AMOOR.D] and [AMOXOR.D] share. *)
Definition AMO_D_inline_sequence (op : FormatR -> Op) : M (list Instruction) :=
  let! v_rs2 := allocate in
  let! v_rd := allocate in
  let asm := new_asm self xl in
  let! asm := emit_ld LD asm v_rd rs1 0 in
  let! asm := emit_r op asm v_rs2 v_rd rs2 in
  let! asm := emit_s SD asm rs1 v_rs2 0 in
  let! asm := emit_i ADDI asm rd v_rd 0 in
  let! l := finalize asm in
  drop_guards [v_rd; v_rs2] ;;! M_ret l.
Definition AMOADDD_inline_sequence := AMO_D_inline_sequence ADD.
Definition AMOANDD_inline_sequence := AMO_D_inline_sequence AND.
Definition AMOORD_inline_sequence := AMO_D_inline_sequence OR.
Definition AMOXORD_inline_sequence := AMO_D_inline_sequence XOR.
Definition AMOSWAPD_inline_sequence : M (list Instruction) :=
  let! v_rd := allocate in
  let asm := new_asm self xl in
  let! asm := emit_ld LD asm v_rd rs1 0 in
  let! asm := emit_s SD asm rs1 rs2 0 in
  let! asm := emit_i ADDI asm rd v_rd 0 in
  let! l := finalize asm in
  drop_guards [v_rd] ;;! M_ret l.

(** The body of the minimum and maximum instructions: [rs2_first] is whether
    the comparison [op] puts [rs2] first (minimum) or the memory (maximum). *)
Definition AMO_D_select (op : FormatR -> Op) (rs2_first : bool) : M (list Instruction) :=
  let! v0 := allocate in
  let! v1 := allocate in
  let! v2 := allocate in
  let asm := new_asm self xl in
  let! asm := emit_ld LD asm v0 rs1 0 in
  let! asm := (if rs2_first then emit_r op asm v1 rs2 v0 else emit_r op asm v1 v0 rs2) in
  let! asm := emit_r SUB asm v2 rs2 v0 in
  let! asm := emit_r MUL asm v2 v2 v1 in
  let! asm := emit_r ADD asm v1 v0 v2 in
  let! asm := emit_s SD asm rs1 v1 0 in
  let! asm := emit_i ADDI asm rd v0 0 in
  let! l := finalize asm in
  drop_guards [v2; v1; v0] ;;! M_ret l.
Definition AMOMIND_inline_sequence := AMO_D_select SLT true.
Definition AMOMAXD_inline_sequence := AMO_D_select SLT false.
Definition AMOMINUD_inline_sequence := AMO_D_select SLTU true.
Definition AMOMAXUD_inline_sequence := AMO_D_select SLTU false.

(** The body [AMOADD.W], [AMOAND.W], [AMOOR.W] and [AMOXOR.W] share. *)
Definition AMO_W_inline_sequence (op : FormatR -> Op) : M (list Instruction) :=
  let! v_rd := allocate in
  let! v_rs2 := allocate in
  let asm := new_asm self xl in
  match xl with
  | Bit32 =>
      let! asm := amo_pre32 asm rs1 v_rd in
      let! asm := emit_r op asm v_rs2 v_rd rs2 in
      let! asm := amo_post32 asm v_rs2 rs1 rd v_rd in
      let! l := finalize asm in
      drop_guards [v_rs2; v_rd] ;;! M_ret l
  | Bit64 =>
      let! v_mask := allocate in
      let! v_dword := allocate in
      let! v_shift := allocate in
      let! asm := amo_pre64 asm rs1 v_rd v_dword v_shift in
      let! asm := emit_r op asm v_rs2 v_rd rs2 in
      let! asm := amo_post64 asm rs1 v_rs2 v_dword v_shift v_mask rd v_rd in
      drop_guards [v_shift; v_dword; v_mask] ;;!
      let! l := finalize asm in
      drop_guards [v_rs2; v_rd] ;;! M_ret l
  end.
Definition AMOADDW_inline_sequence := AMO_W_inline_sequence ADD.
Definition AMOANDW_inline_sequence := AMO_W_inline_sequence AND.
Definition AMOORW_inline_sequence := AMO_W_inline_sequence OR.
Definition AMOXORW_inline_sequence := AMO_W_inline_sequence XOR.
Definition AMOSWAPW_inline_sequence : M (list Instruction) :=
  match xl with
  | Bit32 =>
      let! v_rd := allocate in
      let asm := new_asm self xl in
      let! asm := emit_align VirtualAssertWordAlignment asm rs1 0 in
      let! asm := emit_i VirtualLW asm v_rd rs1 0 in
      let! asm := emit_s VirtualSW asm rs1 rs2 0 in
      let! asm := emit_i ADDI asm rd v_rd 0 in
      let! l := finalize asm in
      drop_guards [v_rd] ;;! M_ret l
  | Bit64 =>
      let! v_mask := allocate in
      let! v_dword := allocate in
      let! v_shift := allocate in
      let! v_rd := allocate in
      let asm := new_asm self xl in
      let! asm := emit_align VirtualAssertWordAlignment asm rs1 0 in
      let! asm := emit_i ANDI asm v_shift rs1 (as_u64 (-8)) in
      let! asm := emit_ld LD asm v_dword v_shift 0 in
      let! asm := emit_i SLLI asm v_shift rs1 3 in
      let! asm := emit_r SRL asm v_rd v_dword v_shift in
      let! asm := emit_i ORI asm v_mask 0%nat (as_u64 (-1)) in
      let! asm := emit_i SRLI asm v_mask v_mask 32 in
      let! asm := emit_r SLL asm v_mask v_mask v_shift in
      let! asm := emit_r SLL asm v_shift rs2 v_shift in
      let! asm := emit_r XOR asm v_shift v_dword v_shift in
      let! asm := emit_r AND asm v_shift v_shift v_mask in
      let! asm := emit_r XOR asm v_dword v_dword v_shift in
      let! asm := emit_i ANDI asm v_mask rs1 (as_u64 (-8)) in
      let! asm := emit_s SD asm v_mask v_dword 0 in
      let! asm := emit_i VirtualSignExtendWord asm rd v_rd 0 in
      let! l := finalize asm in
      drop_guards [v_rd; v_shift; v_dword; v_mask] ;;! M_ret l
  end.

(** The body of the word minimum and maximum instructions, with the word
    extension [ext] of the comparison [op]. *)
Definition AMO_W_select (ext : FormatI -> Op) (op : FormatR -> Op) (rs2_first : bool)
    : M (list Instruction) :=
  let asm := new_asm self xl in
  match xl with
  | Bit32 =>
      let! v_rd := allocate in
      let! v_rs2 := allocate in
      let! v0 := allocate in
      let! v1 := allocate in
      let! asm := amo_pre32 asm rs1 v_rd in
      let! asm := (if rs2_first then emit_r op asm v0 rs2 v_rd else emit_r op asm v0 v_rd rs2) in
      let! asm := emit_r SUB asm v1 rs2 v_rd in
      let! asm := emit_r MUL asm v1 v1 v0 in
      let! asm := emit_r ADD asm v_rs2 v1 v_rd in
      let! asm := amo_post32 asm v_rs2 rs1 rd v_rd in
      drop_guards [v1; v0; v_rs2; v_rd] ;;!
      finalize asm
  | Bit64 =>
      let! v_rd := allocate in
      let! v_dword := allocate in
      let! v_shift := allocate in
      let! asm := amo_pre64 asm rs1 v_rd v_dword v_shift in
      let! v_rs2 := allocate in
      let! v0 := allocate in
      let! asm := emit_i ext asm v_rs2 rs2 0 in
      let! asm := emit_i ext asm v0 v_rd 0 in
      let! asm := (if rs2_first then emit_r op asm v0 v_rs2 v0 else emit_r op asm v0 v0 v_rs2) in
      let! asm := emit_r SUB asm v_rs2 rs2 v_rd in
      let! asm := emit_r MUL asm v_rs2 v_rs2 v0 in
      let! asm := emit_r ADD asm v_rs2 v_rs2 v_rd in
      let! asm := amo_post64 asm rs1 v_rs2 v_dword v_shift v0 rd v_rd in
      drop_guards [v0; v_rs2; v_shift; v_dword; v_rd] ;;!
      finalize asm
  end.
Definition AMOMINW_inline_sequence := AMO_W_select VirtualSignExtendWord SLT true.
Definition AMOMAXW_inline_sequence := AMO_W_select VirtualSignExtendWord SLT false.
Definition AMOMINUW_inline_sequence := AMO_W_select VirtualZeroExtendWord SLTU true.
Definition AMOMAXUW_inline_sequence := AMO_W_select VirtualZeroExtendWord SLTU false.
End Atomics.

(** ** Load reserved and store conditional *)
Section Reserved.
Context (xl : Xlen) (self : Struct FormatR).
Abbreviation rd := (R_rd (operands self)).
Abbreviation rs1 := (R_rs1 (operands self)).
Abbreviation rs2 := (R_rs2 (operands self)).

Definition LRW_inline_sequence : M (list Instruction) :=
  let v_reservation_w := RESERVATION_W_REGISTER in
  let v_reservation_d := RESERVATION_D_REGISTER in
  let asm := new_asm self xl in
  let! asm := emit_i ADDI asm v_reservation_w rs1 0 in
  let! asm := emit_i ADDI asm v_reservation_d 0%nat 0 in
  let! asm := (match xl with Bit32 => emit_i VirtualLW asm rd rs1 0 | Bit64 => emit_ld LW asm rd rs1 0 end) in
  finalize asm.
Definition LRD_inline_sequence : M (list Instruction) :=
  match xl with
  | Bit32 => M_panic
  | Bit64 =>
      let v_reservation_d := RESERVATION_D_REGISTER in
      let v_reservation_w := RESERVATION_W_REGISTER in
      let asm := new_asm self xl in
      let! asm := emit_i ADDI asm v_reservation_d rs1 0 in
      let! asm := emit_i ADDI asm v_reservation_w 0%nat 0 in
      let! asm := emit_ld LD asm rd rs1 0 in
      finalize asm
  end.

(** Instructions 0 to 5 of the store conditionals: the success flag is advice,
    0 or 1, and 1 only when the reservation register holds the address. *)
Definition SC_pre (asm : InstrAssembler) (v_reservation v_success : nat) : M InstrAssembler :=
  let! asm := emit_j VirtualAdvice_op asm v_success 0 in
  let! v_one := allocate in
  let! asm := emit_i ADDI asm v_one 0%nat 1 in
  let! asm := emit_b VirtualAssertLTE asm v_success v_one 0 in
  drop_guard v_one ;;!
  let! v_addr_diff := allocate in
  let! asm := emit_r SUB asm v_addr_diff v_reservation rs1 in
  let! asm := emit_r MUL asm v_addr_diff v_success v_addr_diff in
  let! asm := emit_b VirtualAssertEQ asm v_addr_diff 0%nat 0 in
  drop_guard v_addr_diff ;;! M_ret asm.

(** [SC.W] on the 32-bit machine and [SC.D]: the load, the selection of the
    value, the store, and the clearing of the reservation registers. *)
Definition SC_post (asm : InstrAssembler) (load : InstrAssembler -> nat -> M InstrAssembler)
    (store : InstrAssembler -> nat -> M InstrAssembler) (v_reservation v_other v_success : nat)
    : M (list Instruction) :=
  let! v_mem := allocate in
  let! asm := load asm v_mem in
  let! v_diff := allocate in
  let! asm := emit_r SUB asm v_diff rs2 v_mem in
  let! asm := emit_r MUL asm v_diff v_diff v_success in
  let! asm := emit_r ADD asm v_diff v_mem v_diff in
  drop_guard v_mem ;;!
  let! asm := store asm v_diff in
  drop_guard v_diff ;;!
  let! asm := emit_i ADDI asm v_reservation 0%nat 0 in
  let! asm := emit_i ADDI asm v_other 0%nat 0 in
  let! asm := emit_i XORI asm rd v_success 1 in
  drop_guard v_success ;;! finalize asm.

Definition SCW_inline_sequence_32 : M (list Instruction) :=
  let v_reservation := RESERVATION_W_REGISTER in
  let v_reservation_d := RESERVATION_D_REGISTER in
  let asm := new_asm self Bit32 in
  let! v_success := allocate in
  let! asm := SC_pre asm v_reservation v_success in
  SC_post asm (fun asm v_mem => emit_i VirtualLW asm v_mem rs1 0)
    (fun asm v_diff => emit_s VirtualSW asm rs1 v_diff 0) v_reservation v_reservation_d v_success.
(** The success flag and the value are spilled to the reservation registers,
    so that no temporary is held while [LW] and [SW] expand. *)
Definition SCW_inline_sequence_64 : M (list Instruction) :=
  let v_reservation := RESERVATION_W_REGISTER in
  let v_reservation_d := RESERVATION_D_REGISTER in
  let asm := new_asm self Bit64 in
  let! v_success := allocate in
  let! asm := SC_pre asm v_reservation v_success in
  let! asm := emit_i ADDI asm v_reservation v_success 0 in
  drop_guard v_success ;;!
  let! v_mem := allocate in
  let! asm := emit_ld LW asm v_mem rs1 0 in
  let! v_diff := allocate in
  let! asm := emit_r SUB asm v_diff rs2 v_mem in
  let! asm := emit_r MUL asm v_diff v_diff v_reservation in
  let! asm := emit_r ADD asm v_diff v_mem v_diff in
  drop_guard v_mem ;;!
  let! asm := emit_i ADDI asm v_reservation_d v_diff 0 in
  drop_guard v_diff ;;!
  let! asm := emit_s SW asm rs1 v_reservation_d 0 in
  let! asm := emit_i XORI asm rd v_reservation 1 in
  let! asm := emit_i ADDI asm v_reservation 0%nat 0 in
  let! asm := emit_i ADDI asm v_reservation_d 0%nat 0 in
  finalize asm.
Definition SCW_inline_sequence : M (list Instruction) :=
  match xl with Bit32 => SCW_inline_sequence_32 | Bit64 => SCW_inline_sequence_64 end.
Definition SCD_inline_sequence : M (list Instruction) :=
  match xl with
  | Bit32 => M_panic
  | Bit64 =>
      let v_reservation := RESERVATION_D_REGISTER in
      let v_reservation_w := RESERVATION_W_REGISTER in
      let asm := new_asm self xl in
      let! v_success := allocate in
      let! asm := SC_pre asm v_reservation v_success in
      SC_post asm (fun asm v_mem => emit_ld LD asm v_mem rs1 0)
        (fun asm v_diff => emit_s SD asm rs1 v_diff 0) v_reservation v_reservation_w v_success
  end.
End Reserved.
