(* ===== verification/Trace.v ===== *)
(** * Trace: running an instruction through its virtual sequence

    Models the enum [Instruction] of [tracer/src/instruction/mod.rs]:
    [inline_sequence] (with its treatment of [rd = x0]), [trace], and the
    overriding [trace] of the macro instructions, which run their sequence
    instruction by instruction: the division family with the quotient and
    remainder of its operands as advice, the load reserved and store conditional
    instructions with the reservation set before and cleared after. *)
From S2P Require Import Prelude Registers AdviceTape Mmu Cpu Formats Instr Assembler Sequences.
From S2P Require Import MemSequences.
Open Scope st_scope.

(** The struct of a constructor's operands. *)
Definition with_operands {F} (self : Instruction) (o : F) : Struct F :=
  {| address := address self; operands := o;
     virtual_sequence_remaining := virtual_sequence_remaining self;
     is_first_in_sequence := is_first_in_sequence self; is_compressed := is_compressed self |}.

(** The arms of the dispatch of [Instruction::inline_sequence] for the integer, memory,
    reserved and atomic instructions of [Op], the others of which return themselves.
    The arms of the system, host and registered inline instructions, whose sequences
    need what these do not, are [host_dispatch_sequence] of [System]; [HostShape]
    speaks of both. *)
Definition dispatch_inline_sequence (self : Instruction) (xl : Xlen) : M (list Instruction) :=
  match operands self with
  | SLL o => SLL_inline_sequence xl (with_operands self o)
  | SLLI o => SLLI_inline_sequence xl (with_operands self o)
  | SRL o => SRL_inline_sequence xl (with_operands self o)
  | SRLI o => SRLI_inline_sequence xl (with_operands self o)
  | SRA o => SRA_inline_sequence xl (with_operands self o)
  | SRAI o => SRAI_inline_sequence xl (with_operands self o)
  | ADDW o => ADDW_inline_sequence xl (with_operands self o)
  | ADDIW o => ADDIW_inline_sequence xl (with_operands self o)
  | SUBW o => SUBW_inline_sequence xl (with_operands self o)
  | MULW o => MULW_inline_sequence xl (with_operands self o)
  | SLLW o => SLLW_inline_sequence xl (with_operands self o)
  | SLLIW o => SLLIW_inline_sequence xl (with_operands self o)
  | SRLW o => SRLW_inline_sequence xl (with_operands self o)
  | SRLIW o => SRLIW_inline_sequence xl (with_operands self o)
  | SRAW o => SRAW_inline_sequence xl (with_operands self o)
  | SRAIW o => SRAIW_inline_sequence xl (with_operands self o)
  | MULH o => MULH_inline_sequence xl (with_operands self o)
  | MULHSU o => MULHSU_inline_sequence xl (with_operands self o)
  | DIV o => DIV_inline_sequence xl (with_operands self o)
  | DIVU o => DIVU_inline_sequence xl (with_operands self o)
  | DIVW o => DIVW_inline_sequence xl (with_operands self o)
  | DIVUW o => DIVUW_inline_sequence xl (with_operands self o)
  | REM o => REM_inline_sequence xl (with_operands self o)
  | REMU o => REMU_inline_sequence xl (with_operands self o)
  | REMW o => REMW_inline_sequence xl (with_operands self o)
  | REMUW o => REMUW_inline_sequence xl (with_operands self o)
  | LB o => LB_inline_sequence xl (with_operands self o)
  | LBU o => LBU_inline_sequence xl (with_operands self o)
  | LH o => LH_inline_sequence xl (with_operands self o)
  | LHU o => LHU_inline_sequence xl (with_operands self o)
  | LW o => LW_inline_sequence xl (with_operands self o)
  | LWU o => LWU_inline_sequence xl (with_operands self o)
  | SB o => SB_inline_sequence xl (with_operands self o)
  | SH o => SH_inline_sequence xl (with_operands self o)
  | SW o => SW_inline_sequence xl (with_operands self o)
  | AMOADDD o => AMOADDD_inline_sequence xl (with_operands self o)
  | AMOADDW o => AMOADDW_inline_sequence xl (with_operands self o)
  | AMOANDD o => AMOANDD_inline_sequence xl (with_operands self o)
  | AMOANDW o => AMOANDW_inline_sequence xl (with_operands self o)
  | AMOMAXD o => AMOMAXD_inline_sequence xl (with_operands self o)
  | AMOMAXUD o => AMOMAXUD_inline_sequence xl (with_operands self o)
  | AMOMAXUW o => AMOMAXUW_inline_sequence xl (with_operands self o)
  | AMOMAXW o => AMOMAXW_inline_sequence xl (with_operands self o)
  | AMOMIND o => AMOMIND_inline_sequence xl (with_operands self o)
  | AMOMINUD o => AMOMINUD_inline_sequence xl (with_operands self o)
  | AMOMINUW o => AMOMINUW_inline_sequence xl (with_operands self o)
  | AMOMINW o => AMOMINW_inline_sequence xl (with_operands self o)
  | AMOORD o => AMOORD_inline_sequence xl (with_operands self o)
  | AMOORW o => AMOORW_inline_sequence xl (with_operands self o)
  | AMOSWAPD o => AMOSWAPD_inline_sequence xl (with_operands self o)
  | AMOSWAPW o => AMOSWAPW_inline_sequence xl (with_operands self o)
  | AMOXORD o => AMOXORD_inline_sequence xl (with_operands self o)
  | AMOXORW o => AMOXORW_inline_sequence xl (with_operands self o)
  | LRD o => LRD_inline_sequence xl (with_operands self o)
  | LRW o => LRW_inline_sequence xl (with_operands self o)
  | SCD o => SCD_inline_sequence xl (with_operands self o)
  | SCW o => SCW_inline_sequence xl (with_operands self o)
  | _ => M_ret [self]
  end.

(** The [side_effects = true] declarations of the modelled instructions. *)
Definition has_side_effects (self : Instruction) : bool :=
  match operands self with
  | BEQ _ | BGE _ | BGEU _ | BLT _ | BLTU _ | BNE _ | JAL _ | JALR _ | VirtualAdviceLoad _
  | SB _ | SD _ | SH _ | SW _ | VirtualSW _ | AMOADDD _ | AMOADDW _ | AMOANDD _ | AMOANDW _
  | AMOMAXD _ | AMOMAXUD _ | AMOMAXUW _ | AMOMAXW _ | AMOMIND _ | AMOMINUD _ | AMOMINUW _
  | AMOMINW _ | AMOORD _ | AMOORW _ | AMOSWAPD _ | AMOSWAPW _ | AMOXORD _ | AMOXORW _ | LRD _
  | LRW _ | SCD _ | SCW _ => true
  | _ => false
  end.

Definition rd_is_zero (self : Instruction) : bool :=
  match norm_rd (op_operands (operands self)) with Some O => true | _ => false end.

Definition nop (self : Instruction) : Instruction :=
  {| address := address self; operands := ADDI {| I_rd := 0; I_rs1 := 0; I_imm := 0 |};
     virtual_sequence_remaining := None; is_first_in_sequence := false;
     is_compressed := is_compressed self |}.

(** [Instruction::inline_sequence].  The recursive call after the remapping of
    [rd] is on a non-zero register, which dispatches. *)
Definition Instruction_inline_sequence (self : Instruction) (xl : Xlen) : M (list Instruction) :=
  if rd_is_zero self then
    if has_side_effects self then
      let! vr := allocate in
      let! l := dispatch_inline_sequence (with_rd self vr) xl in
      drop_guards [vr] ;;! M_ret l
    else M_ret [nop self]
  else dispatch_inline_sequence self xl.

(** ** Advice of the division family *)
Definition unsigned_abs (v : Z) : Z := Z.abs v.

Definition DIV_advice (c : Cpu) (o : FormatR) : option (Z * Z) :=
  a ← x c !! R_rs1 o; y ← x c !! R_rs2 o;
  match xlen c with
  | Bit32 =>
      if y =? 0 then Some (u32_MAX, unsigned_abs (as_i32 a))
      else if (a =? most_negative c) && (y =? -1) then Some (as_u32 a, 0)
      else
        quotient ← i_div 32 (as_i32 a) (as_i32 y);
        remainder ← i_rem 32 (as_i32 a) (as_i32 y);
        Some (as_u32 quotient, unsigned_abs remainder)
  | Bit64 =>
      if y =? 0 then Some (u64_MAX, unsigned_abs a)
      else if (a =? most_negative c) && (y =? -1) then Some (as_u64 a, 0)
      else
        quotient ← i_div 64 a y;
        remainder ← i_rem 64 a y;
        Some (as_u64 quotient, unsigned_abs remainder)
  end.
(** [REM]'s advice is computed by the same code. *)
Definition REM_advice (c : Cpu) (o : FormatR) : option (Z * Z) :=
  a ← x c !! R_rs1 o; y ← x c !! R_rs2 o;
  match xlen c with
  | Bit32 =>
      if y =? 0 then Some (u32_MAX, unsigned_abs (as_i32 a))
      else if (a =? most_negative c) && (y =? -1) then Some (as_u32 a, 0)
      else
        quotient ← i_div 32 (as_i32 a) (as_i32 y);
        remainder ← i_rem 32 (as_i32 a) (as_i32 y);
        Some (as_u32 quotient, unsigned_abs remainder)
  | Bit64 =>
      if y =? 0 then Some (u64_MAX, unsigned_abs a)
      else if (a =? most_negative c) && (y =? -1) then Some (as_u64 a, 0)
      else
        quotient ← i_div 64 a y;
        remainder ← i_rem 64 a y;
        Some (as_u64 quotient, unsigned_abs remainder)
  end.
Definition DIVU_advice (c : Cpu) (o : FormatR) : option Z :=
  a ← x c !! R_rs1 o; b ← x c !! R_rs2 o;
  let x := as_u64 a in
  let y := as_u64 b in
  if y =? 0 then Some (match xlen c with Bit32 => u32_MAX | Bit64 => u64_MAX end)
  else match xlen c with Bit32 => u_div (as_u32 x) (as_u32 y) | Bit64 => u_div x y end.
Definition REMU_advice (c : Cpu) (o : FormatR) : option Z :=
  a ← x c !! R_rs1 o; b ← x c !! R_rs2 o;
  if unsigned_data c b =? 0 then Some (match xlen c with Bit32 => u32_MAX | Bit64 => u64_MAX end)
  else u_div (unsigned_data c a) (unsigned_data c b).
Definition DIVW_advice (c : Cpu) (o : FormatR) : option (Z * Z) :=
  a ← x c !! R_rs1 o; b ← x c !! R_rs2 o;
  let x := as_i32 a in
  let y := as_i32 b in
  match xlen c with
  | Bit32 => None
  | Bit64 =>
      '(quotient, remainder) ←
        (if y =? 0 then Some (-1, unsigned_abs x)
         else if (y =? -1) && (x =? - 2 ^ 31) then Some (- 2 ^ 31, 0)
         else
           quotient ← i_div 32 x y;
           remainder ← i_rem 32 x y;
           Some (quotient, unsigned_abs remainder));
      Some (as_u64 quotient, remainder)
  end.
Definition REMW_advice (c : Cpu) (o : FormatR) : option (Z * Z) :=
  a ← x c !! R_rs1 o; b ← x c !! R_rs2 o;
  let x := as_i32 a in
  let y := as_i32 b in
  match xlen c with
  | Bit32 => None
  | Bit64 =>
      '(quotient, remainder) ←
        (if y =? 0 then Some (-1, unsigned_abs x)
         else if (y =? -1) && (x =? - 2 ^ 31) then Some (- 2 ^ 31, 0)
         else
           quotient ← i_div 32 x y;
           remainder ← i_rem 32 x y;
           Some (quotient, unsigned_abs remainder));
      Some (as_u64 quotient, remainder)
  end.
Definition DIVUW_advice (c : Cpu) (o : FormatR) : option Z :=
  a ← x c !! R_rs1 o; b ← x c !! R_rs2 o;
  let x := as_u32 a in
  let y := as_u32 b in
  match xlen c with
  | Bit32 => None
  | Bit64 => if y =? 0 then Some u32_MAX else u_div x y
  end.
Definition REMUW_advice (c : Cpu) (o : FormatR) : option Z :=
  a ← x c !! R_rs1 o; b ← x c !! R_rs2 o;
  let x := as_u32 a in
  let y := as_u32 b in
  match xlen c with
  | Bit32 => None
  | Bit64 => if y =? 0 then Some u32_MAX else u_div x y
  end.

(** [if let Instruction::VirtualAdvice(instr) = &mut l[i] { instr.advice = v }
    else { panic!() }] *)
Definition set_advice (i : nat) (v : Z) (l : list Instruction) : option (list Instruction) :=
  instr ← l !! i;
  match operands instr with
  | VirtualAdvice o _ =>
      Some (<[i := {| address := address instr; operands := VirtualAdvice o v;
                      virtual_sequence_remaining := virtual_sequence_remaining instr;
                      is_first_in_sequence := is_first_in_sequence instr;
                      is_compressed := is_compressed instr |}]> l)
  | _ => None
  end.

(** [if let Instruction::VirtualAdvice(instr) = &mut l[i] { instr.advice = v }] *)
Definition set_advice_if_let (i : nat) (v : Z) (l : list Instruction) : option (list Instruction) :=
  instr ← l !! i;
  match operands instr with
  | VirtualAdvice _ _ => set_advice i v l
  | _ => Some l
  end.

(** Sequences with one and two pieces of advice. *)
Definition advised1 (i : nat) (m : M (list Instruction)) (advice : option Z) : M (list Instruction) :=
  let! v := M_lift advice in
  let! l := m in
  M_lift (set_advice i v l).
Definition advised2 (m : M (list Instruction)) (advice : option (Z * Z)) : M (list Instruction) :=
  let! v := M_lift advice in
  let! l := m in
  let! l := M_lift (set_advice 0 (fst v) l) in
  M_lift (set_advice 1 (snd v) l).

(** The success flag advised to the store conditionals. *)
Definition SC_advised (c : Cpu) (o : FormatR) (width : ReservationWidth) (m : M (list Instruction))
    : M (list Instruction) :=
  let! address := M_lift (as_u64 <$> x c !! R_rs1 o) in
  let success := has_reservation c address width in
  let! l := m in
  M_lift (set_advice_if_let 0 (b2z success) l).

(** The sequence an overriding [trace] runs; [None] for the instructions with
    the default [trace]. *)
Definition traced_sequence (self : Instruction) (c : Cpu) : option (M (list Instruction)) :=
  let xl := xlen c in
  match operands self with
  | DIV o => Some (advised2 (DIV_inline_sequence xl (with_operands self o)) (DIV_advice c o))
  | DIVU o => Some (advised1 0 (DIVU_inline_sequence xl (with_operands self o)) (DIVU_advice c o))
  | DIVW o => Some (advised2 (DIVW_inline_sequence xl (with_operands self o)) (DIVW_advice c o))
  | DIVUW o => Some (advised1 2 (DIVUW_inline_sequence xl (with_operands self o)) (DIVUW_advice c o))
  | REM o => Some (advised2 (REM_inline_sequence xl (with_operands self o)) (REM_advice c o))
  | REMU o => Some (advised1 0 (REMU_inline_sequence xl (with_operands self o)) (REMU_advice c o))
  | REMW o => Some (advised2 (REMW_inline_sequence xl (with_operands self o)) (REMW_advice c o))
  | REMUW o => Some (advised1 2 (REMUW_inline_sequence xl (with_operands self o)) (REMUW_advice c o))
  | SLL _ | SLLI _ | SRL _ | SRLI _ | SRA _ | SRAI _ | ADDW _ | ADDIW _ | SUBW _ | MULW _
  | SLLW _ | SLLIW _ | SRLW _ | SRLIW _ | SRAW _ | SRAIW _ | MULH _ | MULHSU _
  | LB _ | LBU _ | LH _ | LHU _ | LW _ | LWU _ | SB _ | SH _ | SW _ | AMOADDD _ | AMOADDW _
  | AMOANDD _ | AMOANDW _ | AMOMAXD _ | AMOMAXUD _ | AMOMAXUW _ | AMOMAXW _ | AMOMIND _
  | AMOMINUD _ | AMOMINUW _ | AMOMINW _ | AMOORD _ | AMOORW _ | AMOSWAPD _ | AMOSWAPW _ | AMOXORD _
  | AMOXORW _ | LRD _ | LRW _ =>
      Some (dispatch_inline_sequence self xl)
  | SCW o => Some (SC_advised c o Word (SCW_inline_sequence xl (with_operands self o)))
  | SCD o => Some (SC_advised c o Doubleword (SCD_inline_sequence xl (with_operands self o)))
  | _ => None
  end.

(** What an overriding [trace] does to the machine before and after it runs the
    sequence: the reservation of [LR] and its clearing by [SC]. *)
Definition before_sequence (self : Instruction) (c : Cpu) : option Cpu :=
  match operands self with
  | LRW o => a ← x c !! R_rs1 o; Some (set_reservation c (as_u64 a) Word)
  | LRD o => a ← x c !! R_rs1 o; Some (set_reservation c (as_u64 a) Doubleword)
  | _ => Some c
  end.
Definition after_sequence (self : Instruction) (c : Cpu) : Cpu :=
  match operands self with SCW _ | SCD _ => clear_reservation c | _ => c end.

(** ** Cycles *)
Record Cycle := { instruction : Instruction; register_state : RegisterState; ram_access : RAMAccess }.

(** The default [RISCVTrace::trace]. *)
Definition default_trace_cycle (self : Instruction) (c : Cpu) : option (Cpu * list Cycle) :=
  state ← op_capture_pre (operands self) c;
  '(c', ram) ← execute_ram self c;
  state' ← op_capture_post (operands self) state c';
  Some (c', [{| instruction := self; register_state := state'; ram_access := ram |}]).

(** [for instr in l { instr.trace(cpu, trace) }] *)
Fixpoint run_list (f : Instruction -> Cpu -> option (Cpu * list Cycle)) (l : list Instruction)
    (c : Cpu) : option (Cpu * list Cycle) :=
  match l with
  | [] => Some (c, [])
  | i :: l => '(c1, t1) ← f i c; '(c2, t2) ← run_list f l c1; Some (c2, t1 ++ t2)
  end.

(** [Instruction::trace_raw] and [Instruction::trace], mutually recursive in
    the source; the fuel bounds the nesting of sequences. *)
Fixpoint trace_raw (fuel : nat) (self : Instruction) (c : Cpu) : option (Cpu * list Cycle) :=
  match fuel with
  | O => None
  | S fuel =>
      match traced_sequence self c with
      | None => default_trace_cycle self c
      | Some m =>
          c ← before_sequence self c;
          '(l, a) ← m (vr_allocator c);
          '(c, t) ← run_list (fun instr c =>
            if rd_is_zero instr then
              '(l, a) ← Instruction_inline_sequence instr (xlen c) (vr_allocator c);
              run_list (trace_raw fuel) l (set_allocator c a)
            else trace_raw fuel instr c) l (set_allocator c a);
          Some (after_sequence self c, t)
      end
  end.

Definition trace (fuel : nat) (self : Instruction) (c : Cpu) : option (Cpu * list Cycle) :=
  if rd_is_zero self then
    '(l, a) ← Instruction_inline_sequence self (xlen c) (vr_allocator c);
    run_list (trace_raw fuel) l (set_allocator c a)
  else trace_raw fuel self c.
