(* ===== verification/ExecWf.v ===== *)
(** * ExecWf: executing an instruction preserves the machine's invariants

    [execute] keeps a well-formed state well formed: every register stays a
    64-bit signed integer and [x0] stays zero; the word size and the allocator
    do not change. *)
From S2P Require Import Prelude Bits Registers AdviceTape Mmu Cpu Formats Instr.

(** ** Ranges of signed results *)

Lemma in_s_iff_shiftr w z : 0 < w -> in_s w z <-> Z.shiftr z (w - 1) = 0 \/ Z.shiftr z (w - 1) = -1.
Proof.
  intros Hw. unfold in_s. rewrite Z.shiftr_div_pow2 by lia. pose proof (pow2_pos (w - 1)).
  generalize dependent (2 ^ (w - 1)). intros p Hp. specialize (Hp ltac:(lia)).
  pose proof (Z_div_mod_eq_full z p). pose proof (Z.mod_pos_bound z p). split; nia.
Qed.

Lemma in_s_land w a b : 0 < w -> in_s w a -> in_s w b -> in_s w (Z.land a b).
Proof.
  intros Hw. rewrite !in_s_iff_shiftr, Z.shiftr_land by done.
  intros [-> | ->] [-> | ->]; auto.
Qed.
Lemma in_s_lor w a b : 0 < w -> in_s w a -> in_s w b -> in_s w (Z.lor a b).
Proof.
  intros Hw. rewrite !in_s_iff_shiftr, Z.shiftr_lor by done.
  intros [-> | ->] [-> | ->]; auto.
Qed.
Lemma in_s_lxor w a b : 0 < w -> in_s w a -> in_s w b -> in_s w (Z.lxor a b).
Proof.
  intros Hw. rewrite !in_s_iff_shiftr, Z.shiftr_lxor by done.
  intros [-> | ->] [-> | ->]; auto.
Qed.
Lemma in_s_lnot w a : 0 < w -> in_s w a -> in_s w (Z.lnot a).
Proof. unfold in_s, Z.lnot. lia. Qed.

Lemma in_s_shiftr w a n : 0 < w -> 0 <= n -> in_s w a -> in_s w (Z.shiftr a n).
Proof.
  unfold in_s. intros Hw Hn Ha. rewrite Z.shiftr_div_pow2 by lia.
  pose proof (pow2_pos n Hn). pose proof (pow2_pos (w - 1)).
  generalize dependent (2 ^ (w - 1)). intros p Hp1 Hp2. split.
  - apply Z.div_le_lower_bound; nia.
  - apply Z.div_lt_upper_bound; nia.
Qed.

Lemma in_s_mono v w a : 0 < v <= w -> in_s v a -> in_s w a.
Proof.
  unfold in_s. intros Hv Ha. pose proof (Z.pow_le_mono_r 2 (v - 1) (w - 1)). lia.
Qed.

Lemma in_s_i64 z : in_s 64 (as_i64 z).
Proof. apply wraps_range. lia. Qed.
Lemma in_s_i32 z : in_s 64 (as_i32 z).
Proof. apply (in_s_mono 32); [lia|]. apply wraps_range. lia. Qed.
Lemma in_s_i16 z : in_s 64 (as_i16 z).
Proof. apply (in_s_mono 16); [lia|]. apply wraps_range. lia. Qed.
Lemma in_s_i8 z : in_s 64 (as_i8 z).
Proof. apply (in_s_mono 8); [lia|]. apply wraps_range. lia. Qed.
Lemma in_s_b2z b : in_s 64 (b2z b).
Proof. by destruct b. Qed.
Lemma in_s_land_u32 a : in_s 64 (Z.land a 0xFFFFFFFF).
Proof.
  change 0xFFFFFFFF with (Z.ones 32). rewrite Z.land_ones by lia.
  pose proof (Z.mod_pos_bound a (2 ^ 32)). unfold in_s. lia.
Qed.
Lemma in_s_sign_extend c v : in_s 64 v -> in_s 64 (sign_extend c v).
Proof. intros. unfold sign_extend. destruct (xlen c); [apply in_s_i64|done]. Qed.
Lemma in_s_wrapping_shr v n : in_s 64 v -> in_s 64 (wrapping_shr v n).
Proof. apply in_s_shiftr; [lia|]. pose proof (Z.mod_pos_bound n 64). lia. Qed.
Lemma in_s_normalize_imm i xl : in_s 64 (normalize_imm i xl).
Proof. destruct xl; apply in_s_i64. Qed.
Lemma in_s_shiftr_u32 v w k :
  in_s 64 v -> in_s 64 (Z.shiftr v (as_u32 (Z.land w k))).
Proof. apply in_s_shiftr; [lia|]. pose proof (wrapu_range 32 ltac:(lia) (Z.land w k)) as [? _]. lia. Qed.
Lemma in_s_shiftr_32 v : in_s 64 v -> in_s 64 (Z.shiftr v 32).
Proof. apply in_s_shiftr; lia. Qed.

Create HintDb in_s discriminated.
#[export] Hint Resolve in_s_i64 in_s_i32 in_s_i16 in_s_i8 in_s_b2z in_s_land_u32 in_s_sign_extend in_s_wrapping_shr
  in_s_normalize_imm in_s_shiftr_u32 in_s_shiftr_32 : in_s.
#[export] Hint Extern 2 (in_s _ (Z.land _ _)) => apply in_s_land; [lia| |] : in_s.
#[export] Hint Extern 2 (in_s _ (Z.lor _ _)) => apply in_s_lor; [lia| |] : in_s.
#[export] Hint Extern 2 (in_s _ (Z.lxor _ _)) => apply in_s_lxor; [lia| |] : in_s.
#[export] Hint Extern 2 (in_s _ (Z.lnot _)) => apply in_s_lnot; [lia|] : in_s.
#[export] Hint Extern 1 (in_s _ 0) => done : in_s.
#[export] Hint Extern 1 (in_s _ 1) => done : in_s.
#[export] Hint Extern 1 (in_s _ (-1)) => done : in_s.

(** ** The parts of the state an instruction may change *)

(** Everything the integer instructions leave alone. *)
Record keeps (c c' : Cpu) : Prop := {
  keeps_xlen : xlen c' = xlen c;
  keeps_allocator : vr_allocator c' = vr_allocator c;
  keeps_stack : (length (call_stack c) <= MAX_CALL_STACK_DEPTH)%nat ->
    (length (call_stack c') <= MAX_CALL_STACK_DEPTH)%nat;
  keeps_tape : AdviceTape_wf (advice_tape c) -> AdviceTape_wf (advice_tape c');
  keeps_wf : cpu_wf c -> cpu_wf c'
}.

#[export] Instance keeps_preorder : PreOrder keeps.
Proof.
  split; [by split|]. intros c1 c2 c3 [E1 A1 S1 T1 W1] [E2 A2 S2 T2 W2]. split; [congruence|congruence|auto..].
Qed.

Lemma update_pc_keeps c v : keeps c (update_pc c v).
Proof. split; try done. by intros [? ? ? ? ?]; split. Qed.
Lemma set_advice_tape_wf c v : cpu_wf c -> cpu_wf (set_advice_tape c v).
Proof. by intros [? ? ? ? ?]; split. Qed.
Lemma set_advice_tape_keeps c v :
  (AdviceTape_wf (advice_tape c) -> AdviceTape_wf v) -> keeps c (set_advice_tape c v).
Proof. intros Hv. split; try done. apply set_advice_tape_wf. Qed.

Lemma branch_keeps c (b : bool) v : keeps c (if b then update_pc c v else c).
Proof. destruct b; [apply update_pc_keeps|reflexivity]. Qed.

Lemma write_register_keeps c r v c' :
  write_register c r v = Some c' -> (cpu_wf c -> in_s 64 v) -> keeps c c'.
Proof.
  unfold write_register. intros H Hv. destruct r as [|r]; [by simplify_eq|].
  case_decide; [|done]. injection H as <-. split; try done.
  intros Hc. apply (wr_wf c Hc (S r) v). auto.
Qed.

Lemma lookup_in_s c r v : x c !! r = Some v -> cpu_wf c -> in_s 64 v.
Proof. intros Hv Hc. pose proof (wf_range c Hc) as H. rewrite Forall_lookup in H. eauto. Qed.

(** One step of an [exec] body: a register read, a panic, a branch. *)
Ltac exec_step :=
  match goal with
  | H : (mbind _ _) = Some _ |- _ =>
      let v := fresh "v" in let Hv := fresh "Hv" in
      apply bind_Some in H as (v & Hv & H)
  | H : Some _ = Some _ |- _ => injection H as <-
  | H : None = Some _ |- _ => discriminate H
  | H : assert _ _ = Some _ |- _ => unfold assert in H
  | H : context [match ?b with _ => _ end] |- _ => destruct b eqn:?
  end.

#[local] Ltac finish_range :=
  intros Hwf;
  repeat match goal with H : x ?c !! ?r = Some ?v |- _ =>
    pose proof (lookup_in_s c r v H Hwf); clear H end;
  repeat case_match; eauto 8 with in_s.

#[local] Ltac exec_keeps :=
  intros; cbn beta delta [execute operands] in *; unfold i_div, i_rem, u_div, u_rem, wrapping_div, wrapping_rem in *;
  repeat exec_step; simplify_eq;
  try reflexivity; try apply update_pc_keeps; try apply branch_keeps; try (eapply write_register_keeps; [eassumption|finish_range]).

Lemma AdviceTape_read_wf t n r t' :
  AdviceTape_read t n = Some (r, t') -> AdviceTape_wf t -> AdviceTape_wf t'.
Proof.
  unfold AdviceTape_read. intros H [Hp Hd]. case_decide; [by simplify_eq|].
  apply bind_Some in H as (v & _ & [= <- <-]). split; cbn [read_position data]; [lia|done].
Qed.

Lemma track_call_keeps c a o : keeps c (track_call c a o).
Proof.
  unfold track_call. split; try done; [|by intros [? ? ? ? ?]; split].
  intros Hl. cbn [call_stack set_call_stack]. rewrite length_app. cbn [length].
  case_decide; [rewrite length_drop|]; unfold MAX_CALL_STACK_DEPTH in *; lia.
Qed.

Lemma JAL_exec_keeps c a o c' : JAL_exec c a o = Some c' -> keeps c c'.
Proof.
  unfold JAL_exec. intros (c1 & H1 & [= <-])%bind_Some.
  transitivity c1; [|apply update_pc_keeps].
  case_decide; [|by simplify_eq].
  set (c0 := if decide _ then _ else c) in H1.
  assert (Hk : keeps c c0) by (unfold c0; case_decide; [apply track_call_keeps|reflexivity]).
  transitivity c0; [done|]. eapply write_register_keeps; [exact H1|]. eauto with in_s.
Qed.

Lemma JALR_exec_keeps c a o c' : JALR_exec c a o = Some c' -> keeps c c'.
Proof.
  unfold JALR_exec. cbv zeta. intros (v & Hv & H)%bind_Some.
  set (c0 := update_pc c _) in H.
  assert (Hk : keeps c c0) by apply update_pc_keeps.
  transitivity c0; [done|]. case_decide; [|by simplify_eq].
  set (c1 := if decide _ then _ else c0) in H.
  assert (Hk1 : keeps c0 c1) by (unfold c1; case_decide; [apply track_call_keeps|reflexivity]).
  transitivity c1; [done|]. eapply write_register_keeps; [exact H|]. eauto with in_s.
Qed.

Lemma VirtualAdviceLoad_exec_keeps c o c' : VirtualAdviceLoad_exec c o = Some c' -> keeps c c'.
Proof.
  unfold VirtualAdviceLoad_exec. cbv zeta. intros ([r tape] & Hr & H)%bind_Some.
  apply bind_Some in H as (v & Hv & H).
  transitivity (set_advice_tape c tape); [apply set_advice_tape_keeps; by eapply AdviceTape_read_wf|].
  eapply write_register_keeps; [exact H|]. eauto with in_s.
Qed.

Ltac unfold_exec :=
  unfold ADD_exec, ADDI_exec, SUB_exec, AND_exec, ANDI_exec, ANDN_exec, OR_exec, ORI_exec, XOR_exec,
    XORI_exec, SLT_exec, SLTI_exec, SLTU_exec, SLTIU_exec, LUI_exec, AUIPC_exec, BEQ_exec, BNE_exec,
    BLT_exec, BGE_exec, BLTU_exec, BGEU_exec, MUL_exec, MULH_exec, MULHU_exec, MULHSU_exec, SLL_exec,
    SLLI_exec, SRL_exec, SRLI_exec, SRA_exec, SRAI_exec, ADDW_exec, ADDIW_exec, SUBW_exec, MULW_exec,
    SLLW_exec, SLLIW_exec, SRLW_exec, SRLIW_exec, SRAW_exec, SRAIW_exec, DIV_exec, DIVU_exec, REM_exec,
    REMU_exec, DIVW_exec, DIVUW_exec, REMW_exec, REMUW_exec, VirtualAdvice_exec, VirtualAdviceLen_exec,
    VirtualAssertEQ_exec, VirtualAssertHalfwordAlignment_exec, VirtualAssertWordAlignment_exec,
    VirtualAssertLTE_exec, VirtualAssertMulUNoOverflow_exec, VirtualAssertValidDiv0_exec,
    VirtualAssertValidUnsignedRemainder_exec, VirtualChangeDivisor_exec, VirtualChangeDivisorW_exec,
    VirtualZeroExtendWord_exec, VirtualSignExtendWord_exec, VirtualMovsign_exec, VirtualMULI_exec,
    VirtualPow2_exec, VirtualPow2W_exec, VirtualPow2I_exec, VirtualPow2IW_exec,
    VirtualShiftRightBitmask_exec, VirtualShiftRightBitmaskI_exec, VirtualSRL_exec, VirtualSRLI_exec,
    VirtualSRA_exec, VirtualSRAI_exec, VirtualROTRI_exec, VirtualROTRIW_exec, VirtualRev8W_exec,
    VirtualXORROT_exec, VirtualXORROTW_exec in *.

(** *** Loads, stores and atomics *)
Lemma on_mmu_keeps {A} (f : St Mmu (Trap + A)) c a c' : on_mmu f c = Some (a, c') -> keeps c c'.
Proof.
  unfold on_mmu. intros ([r m] & _ & H)%bind_Some. destruct r; [done|]. injection H as <- <-.
  split; try done. by intros [? ? ? ? ?]; split.
Qed.
Lemma set_reservation_keeps c a w : keeps c (set_reservation c a w).
Proof. split; try done. by intros [? ? ? ? ?]; split. Qed.
Lemma clear_reservation_keeps c : keeps c (clear_reservation c).
Proof. split; try done. by intros [? ? ? ? ?]; split. Qed.

(** An access followed by the write of its result. *)
Lemma accessed_keeps {A} (f : St Mmu (Trap + A)) c a c1 r v c' :
  on_mmu f c = Some (a, c1) -> write_register c1 r v = Some c' -> in_s 64 v -> keeps c c'.
Proof.
  intros H%on_mmu_keeps Hw Hv. transitivity c1; [done|]. by eapply write_register_keeps.
Qed.

Ltac memory_step :=
  match goal with
  | H : fst <$> _ = Some _ |- _ => apply fmap_Some in H as ([? ?] & H & ->); cbn [fst]
  | H : mbind _ _ = Some _ |- _ =>
      let v := fresh "v" in let Hv := fresh "Hv" in apply bind_Some in H as (v & Hv & H)
  | H : _ <$> _ = Some _ |- _ => apply fmap_Some in H as (? & _ & ->)
  | v : _ * _ |- _ => destruct v; cbn [fst snd] in *
  | H : Some _ = Some _ |- _ => injection H as <- <-
  | H : context [match xlen ?c with _ => _ end] |- _ => destruct (xlen c); [|try discriminate H]; try discriminate H
  end.

Lemma load_keeps {A R} (f : St Mmu (Trap + (A * R))) (g : A -> Z) c r p :
  ('((v, a), c1) ← on_mmu f c; c' ← write_register c1 r (g v); Some (c', a)) = Some p ->
  (forall v, in_s 64 (g v)) -> keeps c (fst p).
Proof.
  intros ([[v a] c1] & H & H')%bind_Some Hg. apply bind_Some in H' as (c' & H' & [= <-]).
  by eapply accessed_keeps.
Qed.
Lemma store_keeps {A} (f : St Mmu (Trap + A)) c p :
  ('(w, c1) ← on_mmu f c; Some (c1, w)) = Some p -> keeps c (fst p).
Proof. intros ([w c1] & H & [= <-])%bind_Some. by eapply on_mmu_keeps. Qed.

Lemma AMO_D_keeps c f o c' : AMO_D_exec c f o = Some c' -> keeps c c'.
Proof.
  unfold AMO_D_exec. intros H. repeat memory_step. etransitivity; [by eapply on_mmu_keeps|].
  by eauto using accessed_keeps with in_s.
Qed.
Lemma AMO_W_keeps c f o c' : AMO_W_exec c f o = Some c' -> keeps c c'.
Proof.
  unfold AMO_W_exec. intros H. repeat memory_step. etransitivity; [by eapply on_mmu_keeps|].
  by eauto using accessed_keeps with in_s.
Qed.
Lemma LR_keeps {A} c a (f : St Mmu (Trap + A)) r w c1 rd v c' :
  on_mmu f c = Some (r, c1) -> write_register (set_reservation c1 a w) rd v = Some c' -> in_s 64 v ->
  keeps c c'.
Proof.
  intros H%on_mmu_keeps Hw Hv. transitivity c1; [done|].
  transitivity (set_reservation c1 a w); [apply set_reservation_keeps|]. by eapply write_register_keeps.
Qed.
Lemma SC_keeps c w f o r : SC_exec c w f o = Some r -> keeps c (fst r).
Proof.
  unfold SC_exec. intros H. repeat memory_step.
  transitivity c0; [|apply clear_reservation_keeps].
  destruct (has_reservation _ _ _); repeat memory_step.
  - by eauto using accessed_keeps with in_s.
  - eapply write_register_keeps; [eassumption|by auto].
Qed.

Lemma execute_memory_keeps i c c' : is_memory (operands i) = true -> execute i c = Some c' ->
  keeps c c'.
Proof.
  unfold execute. cbv zeta. destruct (operands i); intros Hm H; try discriminate Hm.
  all: unfold AMOADDD_exec, AMOADDW_exec, AMOANDD_exec, AMOANDW_exec, AMOMAXD_exec, AMOMAXUD_exec,
    AMOMAXUW_exec, AMOMAXW_exec, AMOMIND_exec, AMOMINUD_exec, AMOMINUW_exec, AMOMINW_exec, AMOORD_exec,
    AMOORW_exec, AMOSWAPD_exec, AMOSWAPW_exec, AMOXORD_exec, AMOXORW_exec, SCW_exec, SCD_exec in H.
  all: try lazymatch type of H with
    | AMO_D_exec _ _ _ = _ => exact (AMO_D_keeps _ _ _ _ H)
    | AMO_W_exec _ _ _ = _ => exact (AMO_W_keeps _ _ _ _ H)
    | context [SC_exec] => apply fmap_Some in H as (p & H & ->); apply bind_Some in H as (v & _ & H);
        exact (SC_keeps _ _ _ _ _ H)
    end.
  all: try (apply fmap_Some in H as (p & H & ->);
    unfold LB_exec, LBU_exec, LH_exec, LHU_exec, LW_exec, LWU_exec, LD_exec, SB_exec, SH_exec, SW_exec,
      SD_exec, VirtualLW_exec, VirtualSW_exec in H;
    try (destruct (xlen c); [|discriminate H]);
    do 3 try first [ solve [eapply load_keeps; [exact H|auto with in_s]] | exact (store_keeps _ _ _ H)
                   | apply bind_Some in H as (? & _ & H)]).
  all: apply bind_Some in H as (? & _ & H); apply bind_Some in H as ([[v a] c1] & Hv & H);
    eapply LR_keeps; [exact Hv|exact H|auto with in_s].
Qed.

Lemma execute_keeps i c c' : execute i c = Some c' -> keeps c c'.
Proof.
  intros H. destruct (is_memory (operands i)) eqn:Hm; [by apply (execute_memory_keeps i)|].
  revert H. unfold execute. cbv zeta. destruct (operands i); try discriminate Hm; intros H;
    first [ by eapply JAL_exec_keeps | by eapply JALR_exec_keeps | by eapply VirtualAdviceLoad_exec_keeps
          | unfold_exec; cbv zeta in *; exec_keeps ].
Qed.

(** The program counter and the register file stay in range whatever list of
    instructions runs. *)
Fixpoint exec_list (l : list Instruction) (c : Cpu) : option Cpu :=
  match l with [] => Some c | i :: l => c1 ← execute i c; exec_list l c1 end.

Lemma exec_list_keeps l c c' : exec_list l c = Some c' -> keeps c c'.
Proof.
  revert c. induction l as [|i l IH]; cbn [exec_list]; intros c; [by intros [= ->]|].
  intros (c1 & H1%execute_keeps & H2%IH)%bind_Some. by transitivity c1.
Qed.

(** C34: whatever instructions run, the machine's invariants survive: every
    register stays a signed 64-bit value and [x0] zero, the word size and the
    allocator do not change, the call stack stays within its 32 frames and the
    advice tape's read position within its data. *)
Theorem execution_preserves_wf (l : list Instruction) (c c' : Cpu) :
  cpu_wf c -> (length (call_stack c) <= MAX_CALL_STACK_DEPTH)%nat -> AdviceTape_wf (advice_tape c) ->
  exec_list l c = Some c' ->
  cpu_wf c' /\ (length (call_stack c') <= MAX_CALL_STACK_DEPTH)%nat /\ AdviceTape_wf (advice_tape c') /\
  xlen c' = xlen c /\ vr_allocator c' = vr_allocator c.
Proof. intros Hc Hs Ht H. destruct (exec_list_keeps l c c' H). auto. Qed.

(** ** Concrete inputs of the development's examples *)
Definition at_instr (op : Op) : Instruction :=
  {| address := 0x80000000; operands := op; virtual_sequence_remaining := None;
     is_first_in_sequence := false; is_compressed := false |}.
Definition cpu_with (a b : Z) : Cpu := wr (wr Cpu_new 1 a) 2 b.
Lemma cpu_with_wf a b : in_s 64 a -> in_s 64 b -> cpu_wf (cpu_with a b).
Proof. intros Ha Hb. repeat apply wr_wf; try done. apply Cpu_new_wf. Qed.

Lemma execution_preserves_wf_witness :
  exists c', exec_list [at_instr (ADD {| R_rd := 3; R_rs1 := 1; R_rs2 := 2 |});
                        at_instr (JAL {| J_rd := 1; J_imm := 16 |})] (cpu_with (2 ^ 63 - 1) 1) = Some c' /\
    cpu_wf c' /\ (length (call_stack c') <= 32)%nat.
Proof.
  destruct (exec_list _ _) as [c'|] eqn:E; [|by vm_compute in E]. exists c'. split; [done|].
  eapply execution_preserves_wf in E; [|by apply cpu_with_wf| |].
  - destruct E as (? & ? & _). done.
  - vm_compute. lia.
  - split; [vm_compute; lia|vm_compute; constructor].
Defined.
