(* ===== verification/MmuInvariant.v ===== *)
(** * MmuInvariant: every access keeps a memory unit well formed

    Loads, stores and fetches keep the invariant of [MmuSpec] whatever the
    address: the doublewords and the bytes of the device stay in range, the
    capacity, the layout and the translation mode do not change.  So does every
    instruction. *)
From S2P Require Import Prelude Bits Registers AdviceTape Memory Device Mmu MmuSpec MmuStore Cpu Formats Instr Assembler ExecWf.
Open Scope Z_scope.

(** A computation that keeps an invariant of its state. *)
Definition preserves {S A} (P : S -> Prop) (f : St S A) : Prop := forall s a s', P s -> f s = Some (a, s') -> P s'.

Section Preserves.
Context {S : Type} (P : S -> Prop).
Lemma preserves_ret {A} (a : A) : preserves P (M_ret a).
Proof. intros s b s' H. by intros [= <- <-]. Qed.
Lemma preserves_panic {A} : preserves P (M_panic (A := A)).
Proof. done. Qed.
Lemma preserves_lift {A} (o : option A) : preserves P (M_lift o).
Proof. intros s b s' H. unfold M_lift. destruct o; [|done]. by intros [= <- <-]. Qed.
Lemma preserves_bind {A B} (f : St S A) (k : A -> St S B) : preserves P f -> (forall a, preserves P (k a)) -> preserves P (M_bind f k).
Proof. intros Hf Hk s b s' H (a & s1 & E1 & E2)%M_bind_Some. eapply Hk; [|exact E2]. by eapply Hf. Qed.
Lemma preserves_get {A} (k : S -> St S A) : (forall s, P s -> preserves P (k s)) -> preserves P (M_bind M_get k).
Proof. intros Hk s b s' H E. by eapply (Hk s H s b s'). Qed.
End Preserves.

Create HintDb kept discriminated.
#[export] Hint Resolve preserves_ret preserves_panic preserves_lift wrapu_range : kept.
#[export] Hint Extern 1 (in_u _ (wrapu _ _)) => apply wrapu_range; lia : kept.
(** One step: a hint, a bind, a branch. *)
Ltac kept_step :=
  lazymatch goal with
  | |- preserves _ (M_bind M_get _) => apply preserves_get; intros; cbv zeta
  | |- preserves _ (M_bind _ _) => apply preserves_bind; [|intros; cbv zeta]
  | |- preserves _ (match ?x with _ => _ end) => destruct x
  | |- preserves _ _ => solve [eauto 3 with kept]
  end.
Ltac kept := intros; repeat kept_step.

(** ** Memory *)

Lemma access_kept i : preserves mem_wf (access_u64 i).
Proof.
  intros m v m' H E. destruct (Z.le_gt_cases (num_doublewords m) i) as [Hi|Hi]; [by rewrite access_u64_out in E|].
  destruct (access_u64_spec m i ltac:(lia)) as (m1 & E1 & H1). rewrite E1 in E. injection E as <- <-. by eapply mem_wf_same.
Qed.
Lemma assign_kept i v : in_u 64 v -> preserves mem_wf (assign_u64 i v).
Proof.
  intros Hv m u m' [H1 H2] E. destruct (Z.le_gt_cases (num_doublewords m) i) as [Hi|Hi]; [by rewrite assign_u64_out in E|].
  destruct (assign_u64_spec m i v ltac:(lia)) as (m1 & E1 & C1 & N1). rewrite E1 in E. injection E as <- <-.
  split; [|by rewrite N1]. intros k. rewrite C1. by case_decide.
Qed.
#[export] Hint Resolve access_kept assign_kept : kept.
Lemma read_byte_kept a : preserves mem_wf (read_byte a).
Proof. unfold read_byte. kept. Qed.
#[export] Hint Resolve read_byte_kept : kept.
Lemma read_bytes_loop_kept a i n d : preserves mem_wf (read_bytes_loop a i n d).
Proof. revert i d. induction n; intros i d; cbn [read_bytes_loop]; kept. Qed.
#[export] Hint Resolve read_bytes_loop_kept : kept.
Lemma read_halfword_kept a : preserves mem_wf (read_halfword a).
Proof. unfold read_halfword, read_bytes. kept. Qed.
Lemma read_word_kept a : preserves mem_wf (read_word a).
Proof. unfold read_word, read_bytes. kept. Qed.
#[export] Hint Resolve read_halfword_kept read_word_kept : kept.
Lemma read_doubleword_kept a : preserves mem_wf (read_doubleword a).
Proof. unfold read_doubleword, read_bytes. kept. Qed.
#[export] Hint Resolve read_doubleword_kept : kept.

Lemma write_masked_kept a k v : preserves mem_wf (write_masked a k v).
Proof.
  unfold write_masked. cbv zeta. intros m u m' H (d & m1 & E1 & E2)%M_bind_Some.
  pose proof (access_kept _ _ _ _ H E1) as H1. refine (assign_kept _ _ _ _ _ _ H1 E2).
  rewrite Z.land_comm. apply in_u_lor; [lia|apply in_u_land; [lia|]|]; apply wrapu_range; lia.
Qed.
Lemma write_byte_kept a v : preserves mem_wf (write_byte a v).
Proof. apply write_masked_kept. Qed.
#[export] Hint Resolve write_masked_kept write_byte_kept : kept.
Lemma write_bytes_loop_kept a v i n : preserves mem_wf (write_bytes_loop a v i n).
Proof. revert i. induction n; intros i; cbn [write_bytes_loop]; kept. Qed.
#[export] Hint Resolve write_bytes_loop_kept : kept.
Lemma write_halfword_kept a v : preserves mem_wf (write_halfword a v).
Proof. unfold write_halfword, write_bytes. kept. Qed.
Lemma write_word_kept a v : preserves mem_wf (write_word a v).
Proof. unfold write_word, write_bytes. kept. Qed.
#[export] Hint Resolve write_halfword_kept write_word_kept : kept.
Lemma write_doubleword_kept a v : in_u 64 v -> preserves mem_wf (write_doubleword a v).
Proof. intros. unfold write_doubleword, write_bytes. kept. Qed.
#[export] Hint Resolve write_doubleword_kept : kept.

(** ** The unit *)

(** Well formed, in a given privilege mode. *)
Record unit_ok (p : PrivilegeMode) (s : Mmu) : Prop := { unit_wf : mmu_wf s; unit_mode : privilege_mode s = p }.

Lemma on_memory_kept {p} {A} (f : St MemoryData A) : preserves mem_wf f -> preserves (unit_ok p) (on_memory f).
Proof.
  intros Hf s a s' [[H1 H2 H3 H4] Hp] E. unfold on_memory in E. destruct (f (mem s)) as [[b m]|] eqn:Ef; [|done].
  injection E as <- <-. split; [split; try done; by eapply Hf|done].
Qed.
#[export] Hint Extern 1 (preserves (unit_ok _) (on_memory _)) => apply on_memory_kept : kept.
#[export] Hint Extern 1 (preserves (unit_ok _) (ram_read_byte _)) => apply on_memory_kept : kept.
#[export] Hint Extern 1 (preserves (unit_ok _) (ram_read_halfword _)) => apply on_memory_kept : kept.
#[export] Hint Extern 1 (preserves (unit_ok _) (ram_read_word _)) => apply on_memory_kept : kept.
#[export] Hint Extern 1 (preserves (unit_ok _) (ram_read_doubleword _)) => apply on_memory_kept : kept.
#[export] Hint Extern 1 (preserves (unit_ok _) (ram_write_byte _ _)) => apply on_memory_kept : kept.
#[export] Hint Extern 1 (preserves (unit_ok _) (ram_write_halfword _ _)) => apply on_memory_kept : kept.
#[export] Hint Extern 1 (preserves (unit_ok _) (ram_write_word _ _)) => apply on_memory_kept : kept.
#[export] Hint Extern 1 (preserves (unit_ok _) (ram_write_doubleword _ _)) => apply on_memory_kept : kept.

Lemma device_read_kept {p} a : preserves (unit_ok p) (device_read a).
Proof.
  intros s v s' H E. unfold device_read in E. destruct (jolt_device s); [|done]. cbn in E.
  destruct (device_load _ _); [|done]. by injection E as <- <-.
Qed.
(** The byte a store puts in the outputs, grown as they must be. *)
Lemma stored_byte (l : list Z) (o v i : Z) : 0 <= o -> 0 <= i ->
  byte_or_0 (<[Z.to_nat o := v]> (if Z.of_nat (length l) <=? o then resize l (Z.to_nat o + 1) else l)) i =
  if decide (i = o) then v else byte_or_0 l i.
Proof.
  intros Ho Hi. set (l' := if Z.of_nat (length l) <=? o then resize l (Z.to_nat o + 1) else l).
  assert (Hl : (Z.to_nat o < length l')%nat /\ forall j, 0 <= j -> byte_or_0 l' j = byte_or_0 l j).
  { unfold l'. destruct (Z.leb_spec (Z.of_nat (length l)) o); [|split; [lia|done]].
    split; [rewrite length_resize by lia; lia|]. intros j Hj. by apply byte_or_0_resize. }
  destruct Hl as [Hl He]. rewrite byte_or_0_lookup by done. case_decide as Hio.
  - subst i. by rewrite list_lookup_insert_eq.
  - rewrite list_lookup_insert_ne, <- byte_or_0_lookup by lia. by apply He.
Qed.

Lemma device_store_wf d a v d' : device_wf d -> in_u 8 v -> device_store d a v = Some d' -> device_wf d'.
Proof.
  intros H Hv. pose proof H as [H1 H2 H3 H4 H5 H6]. unfold device_store.
  destruct (_ =? _); [intros [= <-]; by split|]. destruct (_ || _); [by intros [= <-]|]. cbv zeta.
  destruct (negb _); [done|]. intros [= <-]. apply (device_wf_outputs d); try done.
  intros o Ho. cbn [outputs with_outputs]. rewrite stored_byte; [|apply wrapu_range; lia|done].
  case_decide; [done|by apply byte_or_0_range].
Qed.
Lemma device_write_kept {p} a v : in_u 8 v -> preserves (unit_ok p) (device_write a v).
Proof.
  intros Hv s u s' [[H1 H2 H3 H4] Hp] E. unfold device_write in E. destruct (jolt_device s) as [d|] eqn:Ed; [|done]. cbn in E.
  destruct (device_store d a v) as [d'|] eqn:Es; [|done]. injection E as <- <-. split; [split; try done|done].
  intros d0 [= <-]. eapply device_store_wf; [by apply H2|done|exact Es].
Qed.
Lemma assert_kept {p} a w : preserves (unit_ok p) (assert_effective_address a w).
Proof. intros s u s' H. unfold assert_effective_address. destruct (valid_address _ _ _); [|done]. by intros [= <- <-]. Qed.
Lemma translate_kept {p} a t : preserves (unit_ok p) (translate_address a t).
Proof. intros s v s' H. rewrite translate_none by apply H. by intros [= <- <-]. Qed.
#[export] Hint Resolve device_read_kept device_write_kept assert_kept translate_kept : kept.
#[export] Hint Extern 1 (preserves (unit_ok _) (assert_effective_load_address _)) => apply assert_kept : kept.
#[export] Hint Extern 1 (preserves (unit_ok _) (assert_effective_store_address _)) => apply assert_kept : kept.

Lemma load_raw_kept {p} a : preserves (unit_ok p) (load_raw a).
Proof. unfold load_raw. kept. Qed.
#[export] Hint Resolve load_raw_kept : kept.
Lemma load_raw_loop_kept {p} w a i n d : preserves (unit_ok p) (load_raw_loop w a i n d).
Proof. revert i d. induction n; intros i d; cbn [load_raw_loop]; kept. Qed.
#[export] Hint Resolve load_raw_loop_kept : kept.
Lemma load_width_raw_kept {p} n a : preserves (unit_ok p) (load_width_raw n a).
Proof. unfold load_width_raw, load_halfword_raw, load_word_raw, load_doubleword_raw. kept. Qed.
Lemma store_raw_kept {p} a v : in_u 8 v -> preserves (unit_ok p) (store_raw a v).
Proof. unfold store_raw. kept. Qed.
#[export] Hint Resolve load_width_raw_kept store_raw_kept : kept.
Lemma store_raw_loop_kept {p} a v i n : preserves (unit_ok p) (store_raw_loop a v i n).
Proof. revert i. induction n; intros i; cbn [store_raw_loop]; kept. Qed.
#[export] Hint Resolve store_raw_loop_kept : kept.
Lemma store_width_raw_kept {p} n a v : in_u (8 * Z.of_nat n) v -> preserves (unit_ok p) (store_width_raw n a v).
Proof.
  intros Hv. unfold store_width_raw, store_halfword_raw, store_word_raw, store_doubleword_raw.
  destruct (decide (n = 8%nat)) as [->|]; [kept|]. do 9 (destruct n as [|n]; [by kept|]). kept.
Qed.
Lemma value_bytes_kept {p} read a i n : (forall a, preserves (unit_ok p) (read a)) -> preserves (unit_ok p) (value_bytes read a i n).
Proof. intros Hr. revert i. induction n; intros i; cbn [value_bytes]; kept. Qed.
Lemma recorded_kept {p} ea a : preserves (unit_ok p) (recorded_value ea a).
Proof. unfold recorded_value. kept. apply value_bytes_kept. intros b. case_match; eauto with kept. Qed.
#[export] Hint Resolve store_width_raw_kept recorded_kept : kept.
Lemma load_kept {p} a : preserves (unit_ok p) (load a).
Proof. unfold load, trace_load. kept. Qed.
#[export] Hint Resolve load_kept : kept.
Lemma load_bytes_loop_kept {p} a i n d : preserves (unit_ok p) (load_bytes_loop a i n d).
Proof. revert i d. induction n; intros i d; cbn [load_bytes_loop]; kept. Qed.
#[export] Hint Resolve load_bytes_loop_kept : kept.
Lemma load_bytes_kept {p} a n : preserves (unit_ok p) (load_bytes a n).
Proof. unfold load_bytes. kept. Qed.
Lemma store_kept {p} a v : in_u 8 v -> preserves (unit_ok p) (store a v).
Proof. unfold store, trace_store_byte. kept. Qed.
#[export] Hint Resolve load_bytes_kept store_kept : kept.
Lemma store_bytes_loop_kept {p} a v i n : preserves (unit_ok p) (store_bytes_loop a v i n).
Proof. revert i. induction n; intros i; cbn [store_bytes_loop]; kept. Qed.
#[export] Hint Resolve store_bytes_loop_kept : kept.
Lemma store_bytes_kept {p} a v n : in_u (8 * Z.of_nat n) v -> preserves (unit_ok p) (store_bytes a v n).
Proof. intros. unfold store_bytes. kept. Qed.
#[export] Hint Resolve store_bytes_kept : kept.
Lemma load_aligned_kept {p} k a : preserves (unit_ok p) (load_aligned k a).
Proof. unfold load_aligned, trace_load. kept. Qed.
Lemma trace_store_halfword_kept {p} a v : preserves (unit_ok p) (trace_store_halfword a v).
Proof. unfold trace_store_halfword. kept. Qed.
Lemma trace_store_kept {p} a v : preserves (unit_ok p) (trace_store a v).
Proof. unfold trace_store. kept. Qed.
#[export] Hint Resolve load_aligned_kept trace_store_halfword_kept trace_store_kept : kept.
Lemma store_aligned_kept {p} k f a v : (forall a v, preserves (unit_ok p) (f a v)) -> in_u (8 * Z.of_nat k) v ->
  preserves (unit_ok p) (store_aligned k f a v).
Proof. intros. unfold store_aligned. kept. Qed.
Lemma fetch_kept {p} a : preserves (unit_ok p) (fetch a).
Proof. unfold fetch. kept. Qed.
#[export] Hint Resolve fetch_kept : kept.
Lemma fetch_loop_kept {p} a i n d : preserves (unit_ok p) (fetch_loop a i n d).
Proof. revert i d. induction n; intros i d; cbn [fetch_loop]; kept. Qed.
#[export] Hint Resolve fetch_loop_kept : kept.
Lemma fetch_word_kept {p} a : preserves (unit_ok p) (fetch_word a).
Proof. unfold fetch_word, load_word_raw. kept. Qed.

Lemma kept_wf {A} (f : St Mmu A) s a s' : (forall p, preserves (unit_ok p) f) -> mmu_wf s -> f s = Some (a, s') ->
  mmu_wf s' /\ privilege_mode s' = privilege_mode s.
Proof. intros Hf H E. by destruct (Hf (privilege_mode s) s a s' (Build_unit_ok _ s H eq_refl) E). Qed.

(** ** Instructions *)

(** What an outcome satisfies, if it is one. *)
Definition ends {A} (P : A -> Prop) (o : option A) : Prop := forall a, o = Some a -> P a.
Lemma ends_bind {A B} (P : A -> Prop) (Q : B -> Prop) (o : option A) (k : A -> option B) :
  ends P o -> (forall a, P a -> ends Q (k a)) -> ends Q (a ← o; k a).
Proof. intros Ho Hk b (a & E & Eb)%bind_Some. by apply (Hk a (Ho a E)). Qed.
Lemma ends_any {A} (o : option A) : ends (fun _ => True) o.
Proof. done. Qed.
Lemma ends_some {A} (P : A -> Prop) a : P a -> ends P (Some a).
Proof. by intros H b [= <-]. Qed.


#[export] Hint Extern 1 (preserves (unit_ok _) (load_halfword _)) => apply load_aligned_kept : kept.
#[export] Hint Extern 1 (preserves (unit_ok _) (load_word _)) => apply load_aligned_kept : kept.
#[export] Hint Extern 1 (preserves (unit_ok _) (load_doubleword _)) => apply load_aligned_kept : kept.
#[export] Hint Extern 1 (preserves (unit_ok _) (store_halfword _ _)) =>
  apply store_aligned_kept; [intros; apply trace_store_halfword_kept|first [apply wrapu_range; lia|change (8 * Z.of_nat 4) with 32; solve [auto]]] : kept.
#[export] Hint Extern 1 (preserves (unit_ok _) (store_word _ _)) =>
  apply store_aligned_kept; [intros; apply trace_store_kept|first [apply wrapu_range; lia|change (8 * Z.of_nat 4) with 32; solve [auto]]] : kept.
#[export] Hint Extern 1 (preserves (unit_ok _) (store_doubleword _ _)) =>
  apply store_aligned_kept; [intros; apply trace_store_kept|first [apply wrapu_range; lia|change (8 * Z.of_nat 8) with 64; solve [auto]]] : kept.

Section Frame.
(** A privilege mode, and registers with their values. *)
Context (p : PrivilegeMode) (K : nat -> Prop) (f : nat -> option Z).
Definition framed (c : Cpu) : Prop := unit_ok p (mmu c) /\ forall r, K r -> x c !! r = f r.
(** An instruction whose destination is not one of them. *)
Definition apart (op : Op) : Prop := match norm_rd (op_operands op) with Some r => ~ K r | None => True end.

Lemma ends_write c r v : framed c -> ~ K r -> ends framed (write_register c r v).
Proof.
  intros [H1 H2] Hr c'. unfold write_register. destruct r as [|r]; [by intros [= <-]|]. case_decide; [|done].
  intros [= <-]. split; [done|]. intros r' Hr'. cbn [x set_x]. rewrite list_lookup_insert_ne; [auto|congruence].
Qed.
Lemma ends_on_mmu {A} (g : St Mmu (Trap + A)) c : framed c -> preserves (unit_ok p) g ->
  ends (fun q => framed (snd q)) (Instr.on_mmu g c).
Proof.
  intros [H H2] Hf [a c'] E. unfold on_mmu in E. destruct (g (mmu c)) as [[r m]|] eqn:Ef; [|done]. cbn in E.
  destruct r; [done|]. injection E as <- <-. split; [|done]. cbn. by eapply Hf.
Qed.
Lemma ends_assert c b : framed c -> ends framed (assert b c).
Proof. intros H c'. unfold assert. destruct b; [|done]. by intros [= <-]. Qed.
Lemma ends_fst {A} (o : option (Cpu * A)) : ends (fun q => framed (fst q)) o -> ends framed (fst <$> o).
Proof. intros H c (q & E & ->)%fmap_Some. by apply H. Qed.

#[local] Ltac ends_state :=
  lazymatch goal with
  | |- framed (fst (_, _)) => cbn [fst]; ends_state
  | |- framed (if ?b then _ else _) => destruct b; ends_state
  | |- framed ?c => try assumption; unfold framed in *; cbn [mmu x]; assumption
  end.
#[local] Ltac ends_step :=
  lazymatch goal with
  | |- ends framed (fst <$> _) => apply ends_fst
  | |- ends _ (mbind _ (write_register _ _ _)) => apply (ends_bind framed); [apply ends_write; [ends_state|assumption]|intros ? ?]
  | |- ends _ (mbind _ (Instr.on_mmu _ _)) =>
      apply (ends_bind (fun q => framed (snd q))); [apply ends_on_mmu; [ends_state|auto with kept]|intros [? ?] ?; cbn [snd] in *]
  | |- ends _ (mbind _ _) => apply (ends_bind (fun _ => True)); [apply ends_any|intros ? _]
  | |- ends framed (write_register _ _ _) => apply ends_write; [ends_state|assumption]
  | |- ends framed (assert _ _) => apply ends_assert; assumption
  | |- ends _ (Some _) => apply ends_some; ends_state
  | |- ends _ (match ?b with _ => _ end) => destruct b
  | |- ends _ None => done
  end.
#[local] Ltac ends_exec := repeat (cbv zeta; ends_step).

Lemma JAL_framed a o c : ~ K (J_rd o) -> framed c -> ends framed (JAL_exec c a o).
Proof.
  intros Hd H. unfold JAL_exec. apply (ends_bind framed); [|intros; ends_exec].
  destruct (decide _); [|ends_exec]. cbv zeta. apply ends_write; [|done]. by case_decide.
Qed.
Lemma plain_framed i c : framed c -> apart (operands i) -> is_memory (operands i) = false -> ends framed (execute i c).
Proof.
  intros H Hd Hm. unfold execute, apart in *. cbv zeta.
  destruct (operands i); try discriminate Hm; clear Hm; cbn in Hd; try (by apply JAL_framed); unfold_exec;
    unfold shift_mask, JALR_exec, VirtualAdviceLoad_exec, VirtualAdviceLen_exec.
  all: ends_exec.
Qed.
Lemma AMO_D_framed g o c : framed c -> ~ K (AMO_rd o) -> (forall x y, in_u 64 (g x y)) -> ends framed (AMO_D_exec c g o).
Proof. intros H Hd Hf. unfold AMO_D_exec. ends_exec. Qed.
Lemma AMO_W_framed g o c : framed c -> ~ K (AMO_rd o) -> (forall x y, in_u 32 (g x y)) -> ends framed (AMO_W_exec c g o).
Proof. intros H Hd Hf. unfold AMO_W_exec. ends_exec. Qed.
Lemma SC_framed w g o c : framed c -> ~ K (R_rd o) -> (forall a, preserves (unit_ok p) (g a)) -> ends (fun q => framed (fst q)) (SC_exec c w g o).
Proof.
  intros H Hd Hf. unfold SC_exec. apply (ends_bind (fun _ => True)); [done|intros a _].
  apply (ends_bind (fun q => framed (fst q))); [|intros [c1 r] H1; cbn [fst] in *; ends_exec].
  destruct (has_reservation _ _ _); ends_exec.
Qed.

Lemma ends_wrap w (o : option Z) : 0 < w -> ends (in_u w) (wrapu w <$> o).
Proof. intros Hw v (z & _ & ->)%fmap_Some. apply wrapu_range; lia. Qed.
#[local] Ltac new_in_range :=
  intros; repeat case_match; first [apply wrapu_range; lia | apply in_u_lor; [lia|apply wrapu_range; lia..]
    | apply in_u_land; [lia|apply wrapu_range; lia] | apply in_u_lxor; [lia|apply wrapu_range; lia..]].
Lemma access_framed i c : framed c -> apart (operands i) -> is_memory (operands i) = true -> ends framed (execute i c).
Proof.
  intros H Hd Hm. unfold execute, apart in *. cbv zeta. destruct (operands i); try discriminate Hm; clear Hm; cbn in Hd.
  all: unfold AMOADDD_exec, AMOADDW_exec, AMOANDD_exec, AMOANDW_exec, AMOMAXD_exec, AMOMAXUD_exec,
    AMOMAXUW_exec, AMOMAXW_exec, AMOMIND_exec, AMOMINUD_exec, AMOMINUW_exec, AMOMINW_exec, AMOORD_exec,
    AMOORW_exec, AMOSWAPD_exec, AMOSWAPW_exec, AMOXORD_exec, AMOXORW_exec, LRW_exec, LRD_exec, SCW_exec, SCD_exec,
    LB_exec, LBU_exec, LH_exec, LHU_exec, LW_exec, LWU_exec, LD_exec, SB_exec, SH_exec, SW_exec,
    SD_exec, VirtualLW_exec, VirtualSW_exec.
  all: lazymatch goal with
    | |- ends _ (AMO_D_exec _ _ _) => apply AMO_D_framed; [done..|new_in_range]
    | |- ends _ (AMO_W_exec _ _ _) => apply AMO_W_framed; [done..|new_in_range]
    | |- context [SC_exec _ Word _ _] =>
        apply ends_fst, (ends_bind (in_u 32)); [by apply ends_wrap|intros; apply SC_framed; [done..|eauto with kept]]
    | |- context [SC_exec _ Doubleword _ _] =>
        apply ends_fst, (ends_bind (in_u 64)); [by apply ends_wrap|intros; apply SC_framed; [done..|eauto with kept]]
    | |- _ => idtac
    end.
  all: ends_exec.
Qed.

(** An instruction keeps the invariant of the memory unit, its privilege mode, and
    the registers that are not its destination. *)
Lemma execute_framed i c c' : framed c -> apart (operands i) -> execute i c = Some c' -> framed c'.
Proof.
  intros H Hd. destruct (is_memory (operands i)) eqn:E; [by apply access_framed|by apply plain_framed].
Qed.
End Frame.

(** The invariant of the memory unit survives every instruction. *)
Theorem execute_memory i c c' : mmu_wf (mmu c) -> execute i c = Some c' -> mmu_wf (mmu c').
Proof.
  intros H E. apply (execute_framed (privilege_mode (mmu c)) (fun _ => False) (fun _ => None) i c c'); [by split| |done].
  unfold apart. destruct (norm_rd _); [by intros []|done].
Qed.
