(* ===== verification/Congruence.v ===== *)
(** * Congruence: what an execution does not depend on

    [execute] reads only the registers its instruction names and the contents of
    memory: on two states that agree on the architectural registers, on the
    abstract memory and on the rest but the call stack and the counters, it
    succeeds or panics alike and ends in states that agree again.  The accesses
    a memory has recorded, the zeros at the end of the outputs and, without
    address translation, [mstatus] do not matter either. *)
From S2P Require Import Prelude Bits Registers AdviceTape Memory Device Mmu MmuSpec MmuStore Cpu Formats Instr Assembler ExecWf MmuInvariant.
Open Scope Z_scope.

(** ** Memory *)

(** The same address space without translation, [mstatus] apart. *)
Record mmu_sim (m m' : Mmu) : Prop := {
  sim_mem : same_memory (mem m) (mem m');
  sim_dev : option_Forall2 same_device (jolt_device m) (jolt_device m');
  sim_fields : clock m = clock m' /\ mmu_xlen m = mmu_xlen m' /\ ppn m = ppn m' /\
    addressing_mode m = addressing_mode m' /\ privilege_mode m = privilege_mode m';
  sim_none : addressing_mode m = AddressingNone
}.

(** Two outcomes: if the first is one, the second is the same in a state that agrees. *)
Definition both_end {A} (r r' : option (A * Mmu)) : Prop :=
  match r with Some (a, m) => exists m', r' = Some (a, m') /\ mmu_sim m m' | None => True end.

Lemma both_ret {A} (a : A) m m' : mmu_sim m m' -> both_end (M_ret a m) (M_ret a m').
Proof. intros H. by exists m'. Qed.
Lemma both_bind {A B} (f f' : St Mmu A) (k k' : A -> St Mmu B) m m' : both_end (f m) (f' m') ->
  (forall a m1 m1', mmu_sim m1 m1' -> both_end (k a m1) (k' a m1')) -> both_end (M_bind f k m) (M_bind f' k' m').
Proof.
  unfold both_end at 1, M_bind. destruct (f m) as [[a m1]|]; [|done]. intros (m1' & -> & H) Hk. by apply Hk.
Qed.
Lemma both_get {A} (k k' : Mmu -> St Mmu A) m m' : both_end (k m m) (k' m' m') ->
  both_end (M_bind M_get k m) (M_bind M_get k' m').
Proof. done. Qed.
Lemma both_lift {A} (o : option A) m m' : mmu_sim m m' -> both_end (M_lift o m) (M_lift o m').
Proof. intros H. unfold M_lift. destruct o; cbn; [|done]. by exists m'. Qed.

(** The memory's own operations. *)
Definition memory_end {A} (r r' : option (A * MemoryData)) : Prop :=
  match r with Some (a, m) => exists m', r' = Some (a, m') /\ same_memory m m' | None => True end.
Definition memory_cong {A} (f : St MemoryData A) : Prop := forall m m', same_memory m m' -> memory_end (f m) (f m').

Lemma mcong_ret {A} (a : A) : memory_cong (M_ret a).
Proof. intros m m' H. by exists m'. Qed.
Lemma mcong_bind {A B} (f : St MemoryData A) (k : A -> St MemoryData B) :
  memory_cong f -> (forall a, memory_cong (k a)) -> memory_cong (M_bind f k).
Proof.
  intros Hf Hk m m' H. unfold M_bind. specialize (Hf m m' H). unfold memory_end in Hf.
  destruct (f m) as [[a m1]|]; [|done]. destruct Hf as (m1' & -> & H1). by apply Hk.
Qed.
Lemma mcong_access i : memory_cong (access_u64 i).
Proof.
  intros m m' H. destruct (Z.le_gt_cases (num_doublewords m) i) as [Hi|Hi]; [by rewrite access_u64_out|].
  destruct (access_u64_spec m i) as (m1 & -> & H1); [lia|]. cbn.
  destruct (access_u64_spec m' i) as (m1' & -> & H1'); [by rewrite <- (same_capacity _ _ H)|].
  rewrite (same_content _ _ H). exists m1'. split; [done|]. by rewrite <- H1, <- H1'.
Qed.
Lemma mcong_assign i v : memory_cong (assign_u64 i v).
Proof.
  intros m m' H. destruct (Z.le_gt_cases (num_doublewords m) i) as [Hi|Hi]; [by rewrite assign_u64_out|].
  destruct (assign_u64_spec m i v) as (m1 & -> & [C1 N1]); [lia|]. cbn.
  destruct (assign_u64_spec m' i v) as (m1' & -> & [C1' N1']); [by rewrite <- (same_capacity _ _ H)|].
  exists m1'. split; [done|]. split; [|by rewrite N1, N1', (same_capacity _ _ H)].
  intros k. rewrite C1, C1'. case_decide; [done|]. apply H.
Qed.

Create HintDb cong discriminated.
#[export] Hint Resolve mcong_ret mcong_access mcong_assign : cong.
#[local] Ltac mcong := repeat first [solve [eauto with cong] | apply mcong_bind; [|intros] | case_match].

Lemma mcong_read_byte a : memory_cong (read_byte a).
Proof. unfold read_byte. mcong. Qed.
#[export] Hint Resolve mcong_read_byte : cong.
Lemma mcong_read_bytes_loop a i n d : memory_cong (read_bytes_loop a i n d).
Proof. revert i d. induction n; intros i d; cbn [read_bytes_loop]; mcong. Qed.
#[export] Hint Resolve mcong_read_bytes_loop : cong.
Lemma mcong_read_bytes a n : memory_cong (read_bytes a n).
Proof. apply mcong_read_bytes_loop. Qed.
#[export] Hint Resolve mcong_read_bytes : cong.
Lemma mcong_read_halfword a : memory_cong (read_halfword a).
Proof. unfold read_halfword. mcong. Qed.
Lemma mcong_read_word a : memory_cong (read_word a).
Proof. unfold read_word. mcong. Qed.
#[export] Hint Resolve mcong_read_halfword mcong_read_word : cong.
Lemma mcong_read_doubleword a : memory_cong (read_doubleword a).
Proof. unfold read_doubleword. mcong. Qed.
Lemma mcong_write_masked a k v : memory_cong (write_masked a k v).
Proof. unfold write_masked. cbv zeta. mcong. Qed.
#[export] Hint Resolve mcong_read_doubleword mcong_write_masked : cong.
Lemma mcong_write_bytes_loop a v i n : memory_cong (write_bytes_loop a v i n).
Proof. revert i. induction n; intros i; cbn [write_bytes_loop]; unfold write_byte; mcong. Qed.
#[export] Hint Resolve mcong_write_bytes_loop : cong.
Lemma mcong_write_halfword a v : memory_cong (write_halfword a v).
Proof. unfold write_halfword, write_bytes. mcong. Qed.
Lemma mcong_write_word a v : memory_cong (write_word a v).
Proof. unfold write_word, write_bytes. mcong. Qed.
#[export] Hint Resolve mcong_write_halfword mcong_write_word : cong.
Lemma mcong_write_doubleword a v : memory_cong (write_doubleword a v).
Proof. unfold write_doubleword, write_bytes. mcong. Qed.
#[export] Hint Resolve mcong_write_doubleword : cong.

Lemma both_on_memory {A} (f : St MemoryData A) m m' : memory_cong f -> mmu_sim m m' -> both_end (on_memory f m) (on_memory f m').
Proof.
  intros Hf [Hm Hd Hr Hn]. specialize (Hf _ _ Hm). unfold on_memory, memory_end, both_end in *.
  destruct (f (mem m)) as [[a d]|]; [|done]. destruct Hf as (d' & -> & H). exists (set_mem m' d'). split; [done|]. by split.
Qed.

(** The operations of the unit. *)
Definition mmu_cong {A} (f : St Mmu A) : Prop := forall m m', mmu_sim m m' -> both_end (f m) (f m').

Lemma cong_ret {A} (a : A) : mmu_cong (M_ret a).
Proof. intros m m'. apply both_ret. Qed.
Lemma cong_panic {A} : mmu_cong (M_panic (A := A)).
Proof. done. Qed.
Lemma cong_lift {A} (o : option A) : mmu_cong (M_lift o).
Proof. intros m m'. apply both_lift. Qed.
Lemma cong_bind {A B} (f : St Mmu A) (k : A -> St Mmu B) : mmu_cong f -> (forall a, mmu_cong (k a)) -> mmu_cong (M_bind f k).
Proof. intros Hf Hk m m' H. apply both_bind; [by apply Hf|]. intros a m1 m1' H1. by apply Hk. Qed.
(** A computation that looks at the state, if what it computes from it is the
    same for states that agree. *)
Lemma cong_get {A} (k : Mmu -> St Mmu A) :
  (forall m m', mmu_sim m m' -> k m' = k m) -> (forall s, mmu_cong (k s)) -> mmu_cong (M_bind M_get k).
Proof. intros Hk Hc m m' H. apply both_get. rewrite (Hk m m' H). by apply Hc. Qed.

Lemma cong_device_read a : mmu_cong (device_read a).
Proof.
  intros m m' H. unfold device_read. destruct (sim_dev _ _ H) as [d d' Hd|]; [|done]. cbn.
  rewrite <- (device_load_same d d' a Hd). destruct (device_load d a); cbn; [|done]. by exists m'.
Qed.

Lemma device_store_same d d' a v d1 : same_device d d' -> device_store d a v = Some d1 ->
  exists d1', device_store d' a v = Some d1' /\ same_device d1 d1'.
Proof.
  intros H. pose proof H as [H1 H2 H3 H4 H5 H6].
  unfold device_store, is_panic, is_termination, convert_write_address. rewrite <- H5.
  destruct (_ =? _); [intros [= <-]; eexists; split; [done|]; by split|].
  destruct (_ || _); [intros [= <-]; by exists d'|]. cbv zeta. destruct (negb _); [done|]. intros [= <-].
  eexists. split; [done|]. split; try done. intros i Hi. cbn [outputs with_outputs].
  rewrite !stored_byte; [|apply wrapu_range; lia|done|apply wrapu_range; lia|done]. by rewrite H6.
Qed.

Lemma cong_device_write a v : mmu_cong (device_write a v).
Proof.
  intros m m' H. unfold device_write. destruct (sim_dev _ _ H) as [d d' Hd|]; [|done]. cbn.
  destruct (device_store d a v) as [d1|] eqn:E; cbn; [|done].
  destruct (device_store_same d d' a v d1 Hd E) as (d1' & -> & Hd1). cbn.
  eexists. split; [done|]. destruct H. split; try done. by constructor.
Qed.

(** What agrees. *)
Section Same.
Context (m m' : Mmu) (H : mmu_sim m m').
Lemma same_effective a : get_effective_address m' a = get_effective_address m a.
Proof. unfold get_effective_address. destruct (sim_fields _ _ H) as (_ & -> & _). done. Qed.
Lemma same_bytes : xlen_bytes m' = xlen_bytes m.
Proof. unfold xlen_bytes. destruct (sim_fields _ _ H) as (_ & -> & _). done. Qed.
Lemma same_valid a w : valid_address m' a w = valid_address m a w.
Proof.
  unfold valid_address. destruct (sim_dev _ _ H) as [d d' []|]; [|done].
  unfold valid_io, valid_ram, is_output, is_panic, is_termination, is_input, is_trusted_advice, is_untrusted_advice.
  by rewrite same_layout.
Qed.
End Same.

Lemma cong_assert a w : mmu_cong (assert_effective_address a w).
Proof.
  intros m m' H. unfold assert_effective_address. rewrite (same_valid m m' H).
  destruct (valid_address _ _ _); [by apply both_ret|done].
Qed.

#[export] Hint Resolve cong_ret cong_panic cong_lift cong_device_read cong_device_write cong_assert : cong.
#[export] Hint Extern 1 (mmu_cong (on_memory _)) => intros ? ?; apply both_on_memory : cong.
#[export] Hint Extern 1 (mmu_cong (ram_read_byte _)) => intros ? ?; apply both_on_memory : cong.
#[export] Hint Extern 1 (mmu_cong (ram_read_halfword _)) => intros ? ?; apply both_on_memory : cong.
#[export] Hint Extern 1 (mmu_cong (ram_read_word _)) => intros ? ?; apply both_on_memory : cong.
#[export] Hint Extern 1 (mmu_cong (ram_read_doubleword _)) => intros ? ?; apply both_on_memory : cong.
#[export] Hint Extern 1 (mmu_cong (ram_write_byte _ _)) => intros ? ?; apply both_on_memory : cong.
#[export] Hint Extern 1 (mmu_cong (ram_write_halfword _ _)) => intros ? ?; apply both_on_memory : cong.
#[export] Hint Extern 1 (mmu_cong (ram_write_word _ _)) => intros ? ?; apply both_on_memory : cong.
#[export] Hint Extern 1 (mmu_cong (ram_write_doubleword _ _)) => intros ? ?; apply both_on_memory : cong.
#[export] Hint Resolve mcong_write_masked : cong.
#[local] Hint Extern 1 (memory_cong (write_byte _ _)) => apply mcong_write_masked : cong.

(** One step: a hint, a look at the state, a bind, a branch. *)
#[local] Ltac cong_looked := intros ? ? Hs; by rewrite ?(same_effective _ _ Hs), ?(same_bytes _ _ Hs).
Ltac cong_step :=
  lazymatch goal with
  | |- mmu_cong (M_bind M_get _) => apply cong_get; [cong_looked|intros; cbv zeta]
  | |- mmu_cong (M_bind _ _) => apply cong_bind; [|intros; cbv zeta]
  | |- mmu_cong (match ?x with _ => _ end) => destruct x
  | |- mmu_cong _ => solve [eauto 3 with cong]
  end.
Ltac cong := intros; repeat cong_step.

Lemma cong_load_raw a : mmu_cong (load_raw a).
Proof.
  intros m m' H. unfold load_raw. apply both_get. cbv zeta. rewrite (same_effective _ _ H).
  apply both_bind; [by apply cong_assert|]. intros [] m1 m1' H1.
  destruct (DRAM_BASE <=? _); [apply both_on_memory; eauto with cong|]. destruct (_ || _); [done|].
  destruct (sim_dev _ _ H) as [d d' Hd|]; [|done].
  unfold is_output, is_panic, is_termination, is_input, is_trusted_advice, is_untrusted_advice.
  rewrite (same_layout _ _ Hd). destruct (_ || _); [|done]. by apply cong_device_read.
Qed.
#[export] Hint Resolve cong_load_raw : cong.
Lemma cong_load_raw_loop w a i n d : mmu_cong (load_raw_loop w a i n d).
Proof. revert i d. induction n; intros i d; cbn [load_raw_loop]; cong. Qed.
#[export] Hint Resolve cong_load_raw_loop : cong.
Lemma cong_load_halfword_raw a : mmu_cong (load_halfword_raw a).
Proof. unfold load_halfword_raw, assert_effective_load_address. cong. Qed.
Lemma cong_load_word_raw a : mmu_cong (load_word_raw a).
Proof. unfold load_word_raw, assert_effective_load_address. cong. Qed.
Lemma cong_load_doubleword_raw a : mmu_cong (load_doubleword_raw a).
Proof. unfold load_doubleword_raw, assert_effective_load_address. cong. Qed.
#[export] Hint Resolve cong_load_halfword_raw cong_load_word_raw cong_load_doubleword_raw : cong.
Lemma cong_store_raw a v : mmu_cong (store_raw a v).
Proof. unfold store_raw, assert_effective_store_address. cong. Qed.
#[export] Hint Resolve cong_store_raw : cong.
Lemma cong_store_raw_loop a v i n : mmu_cong (store_raw_loop a v i n).
Proof. revert i. induction n; intros i; cbn [store_raw_loop]; cong. Qed.
#[export] Hint Resolve cong_store_raw_loop : cong.
Lemma cong_store_halfword_raw a v : mmu_cong (store_halfword_raw a v).
Proof. unfold store_halfword_raw, assert_effective_store_address. cong. Qed.
Lemma cong_store_word_raw a v : mmu_cong (store_word_raw a v).
Proof. unfold store_word_raw, assert_effective_store_address. cong. Qed.
Lemma cong_store_doubleword_raw a v : mmu_cong (store_doubleword_raw a v).
Proof. unfold store_doubleword_raw, assert_effective_store_address. cong. Qed.
#[export] Hint Resolve cong_store_halfword_raw cong_store_word_raw cong_store_doubleword_raw : cong.

(** Without translation, an address is itself. *)
Lemma cong_translate a t : mmu_cong (translate_address a t).
Proof.
  intros m m' H. unfold translate_address, translate_fuel. apply both_get. cbv zeta.
  destruct (sim_fields _ _ H) as (_ & _ & _ & <- & _). rewrite (sim_none _ _ H), (same_effective _ _ H).
  by apply both_ret.
Qed.
#[export] Hint Resolve cong_translate : cong.

Lemma cong_value_bytes read a i n : (forall a, mmu_cong (read a)) -> mmu_cong (value_bytes read a i n).
Proof. intros Hr. revert i. induction n; intros i; cbn [value_bytes]; cong. Qed.
Lemma cong_recorded ea a : mmu_cong (recorded_value ea a).
Proof.
  unfold recorded_value. apply cong_get; [cong_looked|]. intros s. apply cong_bind; [|cong].
  apply cong_value_bytes. intros b. case_match; eauto with cong.
Qed.
#[export] Hint Resolve cong_recorded : cong.
Lemma cong_load a : mmu_cong (load a).
Proof. unfold load, trace_load. cong. Qed.
#[export] Hint Resolve cong_load : cong.
Lemma cong_load_bytes_loop a i n d : mmu_cong (load_bytes_loop a i n d).
Proof. revert i d. induction n as [|n IH]; intros i d; cbn [load_bytes_loop]; cong. Qed.
Lemma cong_load_width_raw n a : mmu_cong (load_width_raw n a).
Proof. unfold load_width_raw. cong. Qed.
#[export] Hint Resolve cong_load_bytes_loop cong_load_width_raw : cong.
Lemma cong_load_bytes a n : mmu_cong (load_bytes a n).
Proof. unfold load_bytes. cong. Qed.
Lemma cong_store a v : mmu_cong (store a v).
Proof. unfold store, trace_store_byte, assert_effective_store_address. cong. Qed.
#[export] Hint Resolve cong_load_bytes cong_store : cong.
Lemma cong_store_bytes_loop a v i n : mmu_cong (store_bytes_loop a v i n).
Proof. revert i. induction n as [|n IH]; intros i; cbn [store_bytes_loop]; cong. Qed.
Lemma cong_store_width_raw n a v : mmu_cong (store_width_raw n a v).
Proof. unfold store_width_raw. cong. Qed.
#[export] Hint Resolve cong_store_bytes_loop cong_store_width_raw : cong.
Lemma cong_store_bytes a v n : mmu_cong (store_bytes a v n).
Proof. unfold store_bytes. cong. Qed.
#[export] Hint Resolve cong_store_bytes : cong.
Lemma cong_load_aligned k a : mmu_cong (load_aligned k a).
Proof. unfold load_aligned, trace_load. cong. Qed.
Lemma cong_store_aligned k f a v : (forall a v, mmu_cong (f a v)) -> mmu_cong (store_aligned k f a v).
Proof. intros Hf. unfold store_aligned. cong. Qed.
Lemma cong_trace_store_halfword a v : mmu_cong (trace_store_halfword a v).
Proof. unfold trace_store_halfword, assert_effective_store_address. cong. Qed.
Lemma cong_trace_store a v : mmu_cong (trace_store a v).
Proof. unfold trace_store, assert_effective_store_address. cong. Qed.
#[export] Hint Resolve cong_load_aligned cong_store_aligned cong_trace_store_halfword cong_trace_store : cong.
Lemma cong_fetch a : mmu_cong (fetch a).
Proof. unfold fetch. cong. Qed.
#[export] Hint Resolve cong_fetch : cong.
Lemma cong_fetch_loop a i n d : mmu_cong (fetch_loop a i n d).
Proof. revert i d. induction n as [|n IH]; intros i d; cbn [fetch_loop]; cong. Qed.
#[export] Hint Resolve cong_fetch_loop : cong.
Lemma cong_fetch_word a : mmu_cong (fetch_word a).
Proof. unfold fetch_word. cong. Qed.

(** ** States *)

(** The architectural registers. *)
Definition low (r : nat) : Prop := (r < 32)%nat.
Record cpu_sim (e t : Cpu) : Prop := {
  sim_x r : low r -> x e !! r = x t !! r;
  sim_length : length (x e) = length (x t);
  sim_xlen : xlen t = xlen e;
  sim_pc : pc t = pc e;
  sim_mmu : mmu_sim (mmu e) (mmu t);
  sim_reservation : reservation t = reservation e;
  sim_set : reservation_set t = reservation_set e;
  sim_width : reservation_width t = reservation_width e;
  sim_mask : unsigned_data_mask t = unsigned_data_mask e;
  sim_allocator : vr_allocator t = vr_allocator e;
  sim_tape : advice_tape t = advice_tape e
}.

(** Outcomes: if the first is one, the second is one in relation. *)
Definition sims {A B} (R : A -> B -> Prop) (o : option A) (o' : option B) : Prop :=
  match o with Some a => exists b, o' = Some b /\ R a b | None => True end.

Lemma sims_some {A B} (R : A -> B -> Prop) a b : R a b -> sims R (Some a) (Some b).
Proof. intros H. by exists b. Qed.
Lemma sims_bind {A B A' B'} (R : A -> B -> Prop) (R' : A' -> B' -> Prop) o o' (k : A -> option A') (k' : B -> option B') :
  sims R o o' -> (forall a b, R a b -> sims R' (k a) (k' b)) -> sims R' (a ← o; k a) (b ← o'; k' b).
Proof. unfold sims at 1. destruct o as [a|]; cbn; [|done]. intros (b & -> & H) Hk. by apply Hk. Qed.
Lemma sims_fmap {A B A' B'} (R : A -> B -> Prop) (R' : A' -> B' -> Prop) (f : A -> A') (g : B -> B') o o' :
  sims R o o' -> (forall a b, R a b -> R' (f a) (g b)) -> sims R' (f <$> o) (g <$> o').
Proof. unfold sims. destruct o as [a|]; cbn; [|done]. intros (b & -> & H) Hk. cbn. eauto. Qed.
Lemma sims_eq {A} (o : option A) : sims eq o o.
Proof. destruct o as [a|]; [by exists a|done]. Qed.

Section Sim.
Context (e t : Cpu) (H : cpu_sim e t).
Lemma sim_sign_extend v : sign_extend t v = sign_extend e v.
Proof. unfold sign_extend. by rewrite (sim_xlen _ _ H). Qed.
Lemma sim_unsigned_data v : unsigned_data t v = unsigned_data e v.
Proof. unfold unsigned_data. by rewrite (sim_mask _ _ H). Qed.
Lemma sim_most_negative : most_negative t = most_negative e.
Proof. unfold most_negative. by rewrite (sim_xlen _ _ H). Qed.
Lemma sim_has_reservation a w : has_reservation t a w = has_reservation e a w.
Proof. unfold has_reservation. by rewrite (sim_reservation _ _ H), (sim_set _ _ H), (sim_width _ _ H). Qed.

Lemma sims_reg r : low r -> sims eq (x e !! r) (x t !! r).
Proof. intros Hr. rewrite (sim_x _ _ H r Hr). apply sims_eq. Qed.
Lemma sims_write r v : sims cpu_sim (write_register e r v) (write_register t r v).
Proof.
  unfold write_register. destruct r as [|r]; [by apply sims_some|]. rewrite <- (sim_length _ _ H).
  case_decide as Hr; [|done]. apply sims_some. destruct H. split; try done; cbn [x set_x].
  - intros r' Hr'. destruct (decide (S r = r')) as [<-|Hne].
    + rewrite !list_lookup_insert_eq by lia. done.
    + rewrite !list_lookup_insert_ne by done. auto.
  - by rewrite !length_insert.
Qed.
Lemma sim_update_pc v : cpu_sim (update_pc e v) (update_pc t v).
Proof. by destruct H. Qed.
Lemma sim_track_call a o : cpu_sim (track_call e a o) (track_call t a o).
Proof. by destruct H. Qed.
Lemma sim_set_tape v : cpu_sim (set_advice_tape e v) (set_advice_tape t v).
Proof. by destruct H. Qed.
Lemma sim_set_reservation a w : cpu_sim (set_reservation e a w) (set_reservation t a w).
Proof. by destruct H. Qed.
Lemma sim_clear_reservation : cpu_sim (clear_reservation e) (clear_reservation t).
Proof. by destruct H. Qed.
Lemma sims_assert b : sims cpu_sim (assert b e) (assert b t).
Proof. unfold assert. destruct b; [by apply sims_some|done]. Qed.

Definition pair_sim {A} (p p' : A * Cpu) : Prop := fst p = fst p' /\ cpu_sim (snd p) (snd p').
Definition sim_pair {A} (p p' : Cpu * A) : Prop := cpu_sim (fst p) (fst p') /\ snd p = snd p'.
Lemma sims_mmu {A} (f : St Mmu (Trap + A)) : mmu_cong f -> sims pair_sim (Instr.on_mmu f e) (Instr.on_mmu f t).
Proof.
  intros Hf. unfold on_mmu. specialize (Hf _ _ (sim_mmu _ _ H)). unfold both_end in Hf.
  destruct (f (mmu e)) as [[r m]|]; [|done]. destruct Hf as (m' & -> & Hm). cbn.
  destruct r as [|a]; [done|]. apply sims_some. split; [done|]. cbn. by destruct H.
Qed.
End Sim.

(** ** Instructions *)
Definition opt_low (r : option nat) : Prop := match r with Some r => low r | None => True end.
(** An instruction of a guest program: its registers are architectural. *)
Definition low_op (op : Op) : Prop :=
  opt_low (norm_rd (op_operands op)) /\ opt_low (norm_rs1 (op_operands op)) /\ opt_low (norm_rs2 (op_operands op)).

(** The second state's observations, as the first's. *)
Ltac observe H :=
  rewrite ?(sim_sign_extend _ _ H), ?(sim_unsigned_data _ _ H), ?(sim_most_negative _ _ H), ?(sim_xlen _ _ H), ?(sim_pc _ _ H),
    ?(sim_tape _ _ H), ?(sim_has_reservation _ _ H).
Ltac sim_state :=
  lazymatch goal with
  | |- cpu_sim (if ?b then _ else _) (if ?b then _ else _) => destruct b; sim_state
  | |- cpu_sim (update_pc _ _) (update_pc _ _) => apply sim_update_pc; sim_state
  | |- cpu_sim (track_call _ _ _) (track_call _ _ _) => apply sim_track_call; sim_state
  | |- cpu_sim (set_advice_tape _ _) (set_advice_tape _ _) => apply sim_set_tape; sim_state
  | |- cpu_sim (set_reservation _ _ _) (set_reservation _ _ _) => apply sim_set_reservation; sim_state
  | |- cpu_sim (clear_reservation _) (clear_reservation _) => apply sim_clear_reservation; sim_state
  | |- cpu_sim _ _ => assumption
  end.
(** The states an [exec] has reached, the last one first. *)
Ltac sim_step :=
  lazymatch goal with
  | |- sims _ (mbind _ (x ?e !! _)) (mbind _ (x ?t !! _)) =>
      apply (sims_bind eq); [apply sims_reg; [assumption|tauto]|intros ? ? <-]
  | |- sims _ (mbind _ (mbind _ (x _ !! _))) _ =>
      apply (sims_bind eq); [apply (sims_bind eq); [apply sims_reg; [assumption|tauto]|intros ? ? <-; apply sims_eq]|intros ? ? <-]
  | |- sims _ (mbind _ (_ <$> x ?e !! _)) _ =>
      apply (sims_bind eq); [apply (sims_fmap eq); [apply sims_reg; [assumption|tauto]|intros ? ? <-; reflexivity]|intros ? ? <-]
  | |- sims _ (mbind _ (write_register _ _ _)) _ =>
      apply (sims_bind cpu_sim); [apply sims_write; sim_state|intros ? ? ?]
  | |- sims _ (mbind _ (Instr.on_mmu _ _)) _ =>
      apply (sims_bind pair_sim); [apply sims_mmu; [assumption|auto with cong]|intros [? ?] [? ?] [? ?]; cbn [fst snd] in *; subst]
  | |- sims cpu_sim (write_register _ _ _) (write_register _ _ _) => apply sims_write; sim_state
  | |- sims cpu_sim (assert _ _) (assert _ _) => apply sims_assert; assumption
  | |- sims cpu_sim (Some _) (Some _) => apply sims_some; sim_state
  | |- sims sim_pair (Some _) (Some _) => apply sims_some; split; [cbn [fst]; sim_state|reflexivity]
  | |- sims _ None _ => exact I
  | |- sims _ (mbind _ ?o) (mbind _ ?o) => apply (sims_bind eq); [apply sims_eq|intros ? ? <-]
  | |- sims _ (if ?b then _ else _) (if ?b then _ else _) => destruct b
  | |- sims _ (match ?b with _ => _ end) (match ?b with _ => _ end) => destruct b
  | |- sims _ (fst <$> _) (fst <$> _) => apply (sims_fmap sim_pair); [|intros ? ? [? _]; assumption]
  end.
Ltac sim_exec H := repeat (try observe H; cbv zeta; sim_step).

Lemma JAL_sims a o e t : cpu_sim e t -> sims cpu_sim (JAL_exec e a o) (JAL_exec t a o).
Proof.
  intros H. unfold JAL_exec. apply (sims_bind cpu_sim).
  - destruct (decide (J_rd o <> 0%nat)); [|by apply sims_some]. cbv zeta. case_decide; [|observe H; by apply sims_write].
    rewrite (sim_sign_extend _ _ (sim_track_call _ _ H a _)), (sim_pc _ _ (sim_track_call _ _ H a _)).
    by apply sims_write, sim_track_call.
  - intros e1 t1 H1. observe H1. by apply sims_some, sim_update_pc.
Qed.

Lemma execute_plain_sims i e t : cpu_sim e t -> low_op (operands i) -> is_memory (operands i) = false ->
  sims cpu_sim (execute i e) (execute i t).
Proof.
  intros H (Hd & H1 & H2) Hm. unfold execute. cbv zeta.
  destruct (operands i); try discriminate Hm; clear Hm; cbn in Hd, H1, H2; try (by apply JAL_sims); unfold_exec;
    unfold shift_mask, JALR_exec, VirtualAdviceLoad_exec, VirtualAdviceLen_exec.
  all: sim_exec H.
Qed.

#[local] Hint Extern 1 (mmu_cong (load_halfword _)) => apply cong_load_aligned : cong.
#[local] Hint Extern 1 (mmu_cong (load_word _)) => apply cong_load_aligned : cong.
#[local] Hint Extern 1 (mmu_cong (load_doubleword _)) => apply cong_load_aligned : cong.
#[local] Hint Extern 1 (mmu_cong (store_halfword _ _)) => apply cong_store_aligned; intros; apply cong_trace_store_halfword : cong.
#[local] Hint Extern 1 (mmu_cong (store_word _ _)) => apply cong_store_aligned; intros; apply cong_trace_store : cong.
#[local] Hint Extern 1 (mmu_cong (store_doubleword _ _)) => apply cong_store_aligned; intros; apply cong_trace_store : cong.

Lemma AMO_D_sims f o e t : cpu_sim e t -> low (AMO_rs1 o) -> low (AMO_rs2 o) -> sims cpu_sim (AMO_D_exec e f o) (AMO_D_exec t f o).
Proof. intros H H1 H2. unfold AMO_D_exec. sim_exec H. Qed.
Lemma AMO_W_sims f o e t : cpu_sim e t -> low (AMO_rs1 o) -> low (AMO_rs2 o) -> sims cpu_sim (AMO_W_exec e f o) (AMO_W_exec t f o).
Proof. intros H H1 H2. unfold AMO_W_exec. sim_exec H. Qed.
Lemma SC_sims w f o e t : cpu_sim e t -> low (R_rs1 o) -> (forall a, mmu_cong (f a)) ->
  sims sim_pair (SC_exec e w f o) (SC_exec t w f o).
Proof.
  intros H H1 Hf. unfold SC_exec. sim_step. observe H.
  apply (sims_bind sim_pair); [|intros [e1 a1] [t1 a1'] [H3 H4]; cbn [fst snd] in *; subst;
    apply sims_some; split; [by apply sim_clear_reservation|done]].
  destruct (has_reservation _ _ _); repeat sim_step.
Qed.

Lemma execute_memory_sims i e t : cpu_sim e t -> low_op (operands i) -> is_memory (operands i) = true ->
  sims cpu_sim (execute i e) (execute i t).
Proof.
  intros H (Hd & H1 & H2) Hm. unfold execute. cbv zeta.
  destruct (operands i); try discriminate Hm; clear Hm; cbn in Hd, H1, H2.
  all: unfold AMOADDD_exec, AMOADDW_exec, AMOANDD_exec, AMOANDW_exec, AMOMAXD_exec, AMOMAXUD_exec,
    AMOMAXUW_exec, AMOMAXW_exec, AMOMIND_exec, AMOMINUD_exec, AMOMINUW_exec, AMOMINW_exec, AMOORD_exec,
    AMOORW_exec, AMOSWAPD_exec, AMOSWAPW_exec, AMOXORD_exec, AMOXORW_exec, LRW_exec, LRD_exec, SCW_exec, SCD_exec,
    LB_exec, LBU_exec, LH_exec, LHU_exec, LW_exec, LWU_exec, LD_exec, SB_exec, SH_exec, SW_exec,
    SD_exec, VirtualLW_exec, VirtualSW_exec, effective_address.
  all: lazymatch goal with
    | |- sims _ (AMO_D_exec _ _ _) _ => by apply AMO_D_sims
    | |- sims _ (AMO_W_exec _ _ _) _ => by apply AMO_W_sims
    | |- _ => idtac
    end.
  all: try (observe H; apply (sims_fmap sim_pair); [|intros ? ? [? _]; assumption]).
  all: try sim_exec H.
  all: apply SC_sims; [done..|intros; auto with cong].
Qed.

(** On states that agree, an instruction of a guest program succeeds alike and
    ends in states that agree. *)
Theorem execute_sims i e t : cpu_sim e t -> low_op (operands i) -> sims cpu_sim (execute i e) (execute i t).
Proof.
  intros H Hl. destruct (is_memory (operands i)) eqn:E; [by apply execute_memory_sims|by apply execute_plain_sims].
Qed.
