(* ===== verification/Exec64.v ===== *)
(** * Exec64: straight-line code of the 64-bit machine on a register file

    The instructions the virtual sequences are made of only read and write
    registers.  On a well-formed 64-bit state their [execute] is a function of
    the register file ([outcome64]); running a list of them ([run64]) is
    simulated by the emulator's [run_list] of [trace_raw]. *)
From S2P Require Import Prelude Bits Registers AdviceTape Mmu Cpu Formats Instr Assembler.
From S2P Require Import Sequences Trace ExecWf.

Definition regs : Type := nat -> Z.
Definition upd (f : regs) (r : nat) (v : Z) : regs :=
  fun r' => if (r =? 0)%nat then f r' else if (r' =? r)%nat then v else f r'.

Lemma upd_eq f r v : r <> 0%nat -> upd f r v r = v.
Proof. intros H. unfold upd. apply Nat.eqb_neq in H. by rewrite H, Nat.eqb_refl. Qed.
Lemma upd_ne f r v r' : r' <> r -> upd f r v r' = f r'.
Proof. intros H. unfold upd. apply Nat.eqb_neq in H. rewrite H. by destruct (r =? 0)%nat. Qed.
Lemma upd_at f r v r' : r' = r -> r <> 0%nat -> upd f r v r' = v.
Proof. intros -> H. by apply upd_eq. Qed.

(** An instruction writes one register or checks a condition. *)
Inductive outcome := Write (rd : nat) (v : Z) | Assert (b : bool).

Definition outcome64 (f : regs) (op : Op) : option outcome :=
  match op with
  | ADD o => Some (Write (R_rd o) (as_i64 (f (R_rs1 o) + f (R_rs2 o))))
  | SUB o => Some (Write (R_rd o) (as_i64 (f (R_rs1 o) - f (R_rs2 o))))
  | XOR o => Some (Write (R_rd o) (Z.lxor (f (R_rs1 o)) (f (R_rs2 o))))
  | AND o => Some (Write (R_rd o) (Z.land (f (R_rs1 o)) (f (R_rs2 o))))
  | OR o => Some (Write (R_rd o) (Z.lor (f (R_rs1 o)) (f (R_rs2 o))))
  | SLT o => Some (Write (R_rd o) (b2z (f (R_rs1 o) <? f (R_rs2 o))))
  | MUL o => Some (Write (R_rd o) (as_i64 (f (R_rs1 o) * f (R_rs2 o))))
  | MULHU o =>
      Some (Write (R_rd o) (as_i64 (Z.shiftr (as_u128 (as_u64 (f (R_rs1 o)) * as_u64 (f (R_rs2 o)))) 64)))
  | SLTU o => Some (Write (R_rd o) (b2z (as_u64 (f (R_rs1 o)) <? as_u64 (f (R_rs2 o)))))
  | ADDI o => Some (Write (I_rd o) (as_i64 (f (I_rs1 o) + as_i64 (I_imm o))))
  | ANDI o => Some (Write (I_rd o) (Z.land (f (I_rs1 o)) (as_i64 (I_imm o))))
  | ORI o => Some (Write (I_rd o) (Z.lor (f (I_rs1 o)) (as_i64 (I_imm o))))
  | XORI o => Some (Write (I_rd o) (Z.lxor (f (I_rs1 o)) (as_i64 (I_imm o))))
  | LUI o => Some (Write (U_rd o) (as_i64 (U_imm o)))
  | VirtualAssertHalfwordAlignment o => Some (Assert (Z.land (as_i64 (f (A_rs1 o) + A_imm o)) 1 =? 0))
  | VirtualAssertWordAlignment o => Some (Assert (Z.land (as_i64 (f (A_rs1 o) + A_imm o)) 3 =? 0))
  | VirtualMULI o => Some (Write (I_rd o) (as_i64 (f (I_rs1 o) * as_i64 (I_imm o))))
  | VirtualAdvice o a => Some (Write (J_rd o) (as_i64 a))
  | VirtualAssertEQ o =>
      Some (Assert (if B_imm o =? 0 then f (B_rs1 o) =? f (B_rs2 o) else true))
  | VirtualAssertLTE o => Some (Assert (as_u64 (f (B_rs1 o)) <=? as_u64 (f (B_rs2 o))))
  | VirtualAssertMulUNoOverflow o =>
      Some (Assert (as_u64 (f (B_rs1 o)) * as_u64 (f (B_rs2 o)) <=? u64_MAX))
  | VirtualAssertValidDiv0 o =>
      Some (Assert (if f (B_rs1 o) =? 0 then as_u64 (f (B_rs2 o)) =? u64_MAX else true))
  | VirtualAssertValidUnsignedRemainder o =>
      Some (Assert ((as_u64 (f (B_rs2 o)) =? 0) || (as_u64 (f (B_rs1 o)) <? as_u64 (f (B_rs2 o)))))
  | VirtualChangeDivisor o =>
      Some (Write (R_rd o)
        (if (f (R_rs1 o) =? - 2 ^ 63) && (f (R_rs2 o) =? -1) then 1 else f (R_rs2 o)))
  | VirtualChangeDivisorW o =>
      Some (Write (R_rd o)
        (if (as_i32 (f (R_rs1 o)) =? - 2 ^ 31) && (as_i32 (f (R_rs2 o)) =? -1) then 1
         else as_i32 (f (R_rs2 o))))
  | VirtualZeroExtendWord o => Some (Write (I_rd o) (Z.land (f (I_rs1 o)) 0xFFFFFFFF))
  | VirtualSignExtendWord o =>
      Some (Write (I_rd o) (Z.shiftr (as_i64 (Z.shiftl (f (I_rs1 o)) 32)) 32))
  | VirtualMovsign o =>
      Some (Write (I_rd o)
        (if negb (Z.land (as_u64 (f (I_rs1 o))) 0x8000000000000000 =? 0)
         then as_i64 0xFFFFFFFFFFFFFFFF else 0))
  | VirtualPow2 o => Some (Write (I_rd o) (as_i64 (Z.shiftl 1 (as_u64 (f (I_rs1 o)) mod 64))))
  | VirtualPow2W o => Some (Write (I_rd o) (as_i64 (Z.shiftl 1 (as_u64 (f (I_rs1 o)) mod 32))))
  | VirtualShiftRightBitmask o =>
      let shift := Z.land (as_u64 (f (I_rs1 o))) 0x3F in
      let ones := as_u128 (Z.shiftl 1 (64 - shift)) - 1 in
      Some (Write (I_rd o) (as_i64 (as_u128 (Z.shiftl ones shift))))
  | VirtualSRL o =>
      Some (Write (VR_rd o)
        (as_i64 (wrapping_shr (as_u64 (f (VR_rs1 o))) (trailing_zeros_64 (f (VR_rs2 o))))))
  | VirtualSRLI o =>
      Some (Write (VI_rd o) (as_i64 (wrapping_shr (as_u64 (f (VI_rs1 o))) (trailing_zeros_64 (VI_imm o)))))
  | VirtualSRA o =>
      Some (Write (VR_rd o) (wrapping_shr (f (VR_rs1 o)) (trailing_zeros_64 (f (VR_rs2 o)))))
  | VirtualSRAI o => Some (Write (VI_rd o) (wrapping_shr (f (VI_rs1 o)) (trailing_zeros_64 (VI_imm o))))
  | _ => None
  end.

Definition run_outcome (f : regs) (oc : option outcome) : option regs :=
  match oc with
  | Some (Write rd v) => Some (upd f rd v)
  | Some (Assert b) => if b then Some f else None
  | None => None
  end.
Fixpoint run64 (l : list Op) (f : regs) : option regs :=
  match l with [] => Some f | op :: l => f1 ← run_outcome f (outcome64 f op); run64 l f1 end.

(** ** [execute] is [outcome64] *)

Definition opt_valid (r : option nat) : Prop := match r with Some r => valid_reg r | None => True end.
Definition op_valid (op : Op) : Prop :=
  opt_valid (norm_rd (op_operands op)) /\ opt_valid (norm_rs1 (op_operands op)) /\
  opt_valid (norm_rs2 (op_operands op)).

Lemma execute_outcome (i : Instruction) (c : Cpu) (oc : outcome) :
  cpu_wf c -> xlen c = Bit64 -> op_valid (operands i) ->
  outcome64 (reg c) (operands i) = Some oc ->
  execute i c = match oc with Write rd v => Some (wr c rd v) | Assert b => assert b c end.
Proof.
  intros Hc Hx. unfold execute, op_valid. cbv zeta.
  destruct (operands i); cbn [outcome64 op_operands op_format to_operands FormatR_format FormatI_format
    FormatB_format FormatJ_format FormatU_format FormatAssert_format FormatVirtualRightShiftI_format FormatVirtualRightShiftR_format
    FormatR_to_operands FormatI_to_operands FormatB_to_operands FormatJ_to_operands FormatU_to_operands
    FormatAssert_to_operands
    FormatVirtualRightShiftI_to_operands FormatVirtualRightShiftR_to_operands
    norm_rd norm_rs1 norm_rs2 opt_valid]; intros (H1 & H2 & H3) E; try discriminate E;
    injection E as <-;
    unfold ADD_exec, SUB_exec, XOR_exec, MUL_exec, MULHU_exec, SLTU_exec, ADDI_exec, ANDI_exec, ORI_exec,
      AND_exec, OR_exec, SLT_exec, XORI_exec, LUI_exec, VirtualAssertHalfwordAlignment_exec,
      VirtualAssertWordAlignment_exec,
      VirtualMULI_exec, VirtualAdvice_exec, VirtualAssertEQ_exec, VirtualAssertLTE_exec,
      VirtualAssertMulUNoOverflow_exec, VirtualAssertValidDiv0_exec,
      VirtualAssertValidUnsignedRemainder_exec, VirtualChangeDivisor_exec, VirtualChangeDivisorW_exec,
      VirtualZeroExtendWord_exec, VirtualSignExtendWord_exec, VirtualMovsign_exec, VirtualPow2_exec,
      VirtualPow2W_exec, VirtualShiftRightBitmask_exec, VirtualSRL_exec, VirtualSRLI_exec,
      VirtualSRA_exec, VirtualSRAI_exec, sign_extend, normalize_imm;
    rewrite ?Hx, ?(lookup_reg c Hc) by done; cbn [mbind option_bind];
    rewrite ?(unsigned_data_64 c) by done; cbv zeta;
    repeat (case_match; cbn [assert]);
    rewrite ?(write_register_wr c Hc) by done; done.
Qed.

Lemma outcome_not_memory f op : is_Some (outcome64 f op) -> is_memory op = false.
Proof. intros [oc H]. by destruct op. Qed.

Lemma outcome_rd (f : regs) (op : Op) rd v :
  outcome64 f op = Some (Write rd v) -> norm_rd (op_operands op) = Some rd.
Proof.
  destruct op; cbn [outcome64]; intros H; try discriminate H; injection H as <- _; reflexivity.
Qed.

Lemma outcome_leaf (f : regs) (i : Instruction) (c : Cpu) oc :
  outcome64 f (operands i) = Some oc -> traced_sequence i c = None.
Proof.
  unfold traced_sequence. destruct (operands i); cbn [outcome64]; intros H; try discriminate H;
    reflexivity.
Qed.

(** ** Captures *)

Lemma normalize_register_value_valid c r : cpu_wf c -> valid_reg r ->
  is_Some (normalize_register_value c r).
Proof.
  intros Hc Hr. unfold normalize_register_value. destruct r as [|r]; [by eexists|].
  rewrite (lookup_reg c Hc) by done. by eexists.
Qed.

Lemma capture_valid op c : cpu_wf c -> op_valid op ->
  is_Some (op_capture_pre op c) /\ forall st, is_Some (op_capture_post op st c).
Proof.
  intros Hc. unfold op_valid, op_operands, op_capture_pre, op_capture_post.
  destruct op; cbn; intros (H1 & H2 & H3);
    repeat match goal with
    | H : valid_reg ?r |- _ =>
        destruct (normalize_register_value_valid c r Hc H) as [? ?]; clear H
    end; unfold capture_pre_rd_rs1_rs2, capture_pre_rd_rs1, capture_pre_rd, capture_post_rd;
    (split; [|intros st]);
    repeat match goal with E : normalize_register_value _ _ = Some _ |- _ => rewrite ?E; clear E end;
    by eexists.
Qed.

Lemma default_trace_cycle_ram i c : cpu_wf c -> op_valid (operands i) ->
  match execute_ram i c with
  | Some (c', a) => exists st, default_trace_cycle i c =
      Some (c', [{| instruction := i; register_state := st; ram_access := a |}])
  | None => default_trace_cycle i c = None
  end.
Proof.
  intros Hc Hv. unfold default_trace_cycle.
  destruct (capture_valid _ c Hc Hv) as [[st ->] _]. cbn [mbind option_bind].
  pose proof (execute_ram_fst i c) as E. destruct (execute_ram i c) as [[c' a]|]; [|done].
  cbn [mbind option_bind fmap option_fmap option_map fst] in *. symmetry in E.
  apply execute_keeps in E. destruct (capture_valid _ c' (keeps_wf _ _ E Hc) Hv) as [_ Hp].
  destruct (Hp st) as [st' ->]. by eexists.
Qed.

Lemma default_trace_cycle_spec i c : cpu_wf c -> op_valid (operands i) ->
  match execute i c with
  | Some c' => exists t, default_trace_cycle i c = Some (c', t)
  | None => default_trace_cycle i c = None
  end.
Proof.
  intros Hc Hv. pose proof (default_trace_cycle_ram i c Hc Hv) as H. rewrite <- execute_ram_fst.
  destruct (execute_ram i c) as [[c' a]|]; cbn [fmap option_fmap option_map fst]; [|done].
  destruct H as [st H]. by eexists.
Qed.

(** The memory accesses of a trace. *)
Definition is_access (a : RAMAccess) : bool := match a with NoRAM => false | _ => true end.
Definition accesses (t : list Cycle) : list RAMAccess := List.filter is_access (map ram_access t).
Lemma accesses_app t1 t2 : accesses (t1 ++ t2) = accesses t1 ++ accesses t2.
Proof. unfold accesses. by rewrite map_app, List.filter_app. Qed.

Lemma execute_ram_pure i c : is_memory (operands i) = false ->
  execute_ram i c = (c' ← execute i c; Some (c', NoRAM)).
Proof. unfold execute_ram. by destruct (operands i). Qed.

(** ** Simulation *)

(** [c'] is [c] with register file [f], and stays well formed. *)
Record with_regs (c : Cpu) (f : regs) (c' : Cpu) : Prop := {
  wreg_reg : forall r, valid_reg r -> reg c' r = f r;
  wreg_rest : set_x c' [] = set_x c [];
  wreg_wf : cpu_wf c'
}.

Lemma with_regs_refl c : cpu_wf c -> with_regs c (reg c) c.
Proof. by split. Qed.

Lemma with_regs_xlen c f c' : with_regs c f c' -> xlen c' = xlen c.
Proof. intros [_ H _]. by injection H. Qed.
Lemma with_regs_allocator c f c' : with_regs c f c' -> vr_allocator c' = vr_allocator c.
Proof. intros [_ H _]. by injection H. Qed.

Lemma with_regs_mmu c f c' : with_regs c f c' -> mmu c' = mmu c.
Proof. intros [_ H _]. by injection H. Qed.
Lemma set_x_wr c r v : set_x (wr c r v) [] = set_x c [].
Proof. by destruct r. Qed.

Lemma with_regs_wr c f c' r v :
  with_regs c f c' -> valid_reg r -> cpu_wf (wr c' r v) -> with_regs c (upd f r v) (wr c' r v).
Proof.
  intros [Hr He Hw] Hv Hw'. split; [|by rewrite set_x_wr|done].
  intros r' Hr'. destruct (decide (r = 0)%nat) as [->|H0]; [by rewrite <- Hr|].
  destruct (decide (r' = r)) as [->|Hne].
  - rewrite upd_eq by done. by rewrite (reg_wr_eq c' Hw).
  - rewrite upd_ne, reg_wr_ne by done. by apply Hr.
Qed.

(** What a straight-line sequence may contain: valid registers, no [x0]
    destination. *)
Definition straight (op : Op) : Prop :=
  op_valid op /\ match norm_rd (op_operands op) with Some O => False | _ => True end.

Lemma outcome64_ext f g op :
  op_valid op -> (forall r, valid_reg r -> f r = g r) -> outcome64 f op = outcome64 g op.
Proof.
  intros (H1 & H2 & H3) Hfg. destruct op; cbn [outcome64]; try reflexivity;
    rewrite ?Hfg by assumption; reflexivity.
Qed.

Section Simulation.
Context (step : Instruction -> Cpu -> option (Cpu * list Cycle)).
(** [step] runs an instruction that has no sequence of its own. *)
Context (Hstep : forall i c, traced_sequence i c = None -> rd_is_zero i = false ->
  step i c = default_trace_cycle i c).

Lemma step_outcome c f c1 i :
  xlen c = Bit64 -> with_regs c f c1 -> straight (operands i) ->
  is_Some (outcome64 f (operands i)) ->
  match run_outcome f (outcome64 f (operands i)) with
  | Some f' => exists c2 t, step i c1 = Some (c2, t) /\ with_regs c f' c2 /\ accesses t = []
  | None => step i c1 = None
  end.
Proof.
  intros Hx Hw (Hv & Hz) Hsome. pose proof (outcome_not_memory _ _ Hsome) as Hmem.
  destruct Hsome as [oc Hoc]. pose proof (wreg_wf _ _ _ Hw) as Hwf.
  assert (Hoc' : outcome64 (reg c1) (operands i) = Some oc).
  { rewrite <- Hoc. apply outcome64_ext; [done|]. apply Hw. }
  assert (Hx1 : xlen c1 = Bit64) by (by rewrite (with_regs_xlen _ _ _ Hw)).
  pose proof (execute_outcome i c1 oc Hwf Hx1 Hv Hoc') as He.
  assert (Hd : step i c1 = default_trace_cycle i c1).
  { apply Hstep; [by eapply outcome_leaf|].
    unfold rd_is_zero. destruct (norm_rd _) as [[]|]; done. }
  rewrite Hoc. pose proof (default_trace_cycle_ram i c1 Hwf Hv) as Ht.
  rewrite execute_ram_pure, He in Ht by done.
  destruct oc as [rd v|b]; cbn [run_outcome].
  - destruct Ht as [t Ht]. exists (wr c1 rd v). eexists. split; [by rewrite Hd|]. split; [|done].
    apply with_regs_wr; [done| |].
    + pose proof (outcome_rd _ _ _ _ Hoc) as Hrd. destruct Hv as (Hv & _). by rewrite Hrd in Hv.
    + by apply (keeps_wf _ _ (execute_keeps _ _ _ He)).
  - destruct b; cbn [assert mbind option_bind] in Ht; [|congruence].
    destruct Ht as [t Ht]. exists c1. eexists. split; [by rewrite Hd|done].
Qed.

Lemma run_list_run64 l c f c1 :
  xlen c = Bit64 -> with_regs c f c1 -> Forall (fun i => straight (operands i)) l ->
  (forall g, Forall (fun i => is_Some (outcome64 g (operands i))) l) ->
  match run64 (map operands l) f with
  | Some f' => exists c' t, run_list step l c1 = Some (c', t) /\ with_regs c f' c' /\ accesses t = []
  | None => run_list step l c1 = None
  end.
Proof.
  intros Hx. revert f c1. induction l as [|i l IH]; intros f c1 Hw Hs Ho; cbn [map run64 run_list].
  { exists c1, []. done. }
  apply list.Forall_cons in Hs as [Hi Hs].
  pose proof (Ho f) as Hof. apply list.Forall_cons in Hof as [Hof _].
  pose proof (step_outcome c f c1 i Hx Hw Hi Hof) as Hstep1.
  destruct (run_outcome f _) as [f1|]; cbn [mbind option_bind]; [|by rewrite Hstep1].
  destruct Hstep1 as (c2 & t & E & Hw2 & Ha). rewrite E. cbn [mbind option_bind].
  assert (Ho' : forall g, Forall (fun i => is_Some (outcome64 g (operands i))) l).
  { intros g. specialize (Ho g). by apply list.Forall_cons in Ho as [_ ?]. }
  specialize (IH f1 c2 Hw2 Hs Ho'). destruct (run64 _ f1) as [f'|]; [|by rewrite IH].
  destruct IH as (c' & t' & E' & Hw' & Ha'). exists c', (t ++ t'). rewrite E', accesses_app, Ha, Ha'. done.
Qed.
End Simulation.
