(* ===== verification/SeqOps.v ===== *)
(** * SeqOps: the straight-line programs of the virtual sequences

    What each [inline_sequence] returns on the 64-bit machine when the eight
    instruction temporaries 40 to 47 are free: the list of operations, nested
    sequences expanded.  The allocator is back in its initial state.  The
    division family's programs take their advice as arguments. *)
From S2P Require Import Prelude Bits Registers AdviceTape Mmu Cpu Formats Instr Assembler.
From S2P Require Import Sequences.

(** The temporaries of the instructions are free. *)
Definition temporaries_free (a : VirtualRegisterAllocator) : Prop :=
  length (allocated a) = NUM_VIRTUAL_REGISTERS /\ forall r, instruction_reg r -> free a r.

Lemma list_first_8 {A} (l : list A) : (8 <= length l)%nat ->
  exists a0 a1 a2 a3 a4 a5 a6 a7 r, l = a0 :: a1 :: a2 :: a3 :: a4 :: a5 :: a6 :: a7 :: r.
Proof.
  destruct l as [|a0 [|a1 [|a2 [|a3 [|a4 [|a5 [|a6 [|a7 r]]]]]]]]; cbn [length]; intros H; try lia.
  by repeat eexists.
Qed.

Lemma temporaries_free_shape a : temporaries_free a ->
  exists a0 a1 a2 a3 a4 a5 a6 a7 r p, a =
    {| allocated := a0 :: a1 :: a2 :: a3 :: a4 :: a5 :: a6 :: a7 ::
         false :: false :: false :: false :: false :: false :: false :: false :: r;
       pending_clearing_inline := p |}.
Proof.
  intros [Hl Hf]. destruct a as [l p]. cbn [allocated] in *. unfold free, instruction_reg in Hf.
  cbn [allocated] in Hf. alloc_unfold.
  destruct (list_first_8 l ltac:(lia)) as (a0 & a1 & a2 & a3 & a4 & a5 & a6 & a7 & r & ->).
  destruct (list_first_8 r ltac:(cbn in Hl; lia)) as (b0 & b1 & b2 & b3 & b4 & b5 & b6 & b7 & r' & ->).
  pose proof (Hf 40 ltac:(lia))%nat as H0. pose proof (Hf 41 ltac:(lia))%nat as H1.
  pose proof (Hf 42 ltac:(lia))%nat as H2. pose proof (Hf 43 ltac:(lia))%nat as H3.
  pose proof (Hf 44 ltac:(lia))%nat as H4. pose proof (Hf 45 ltac:(lia))%nat as H5.
  pose proof (Hf 46 ltac:(lia))%nat as H6. pose proof (Hf 47 ltac:(lia))%nat as H7.
  cbn in *. simplify_eq. by repeat eexists.
Qed.

Definition has_ops (m : M (list Instruction)) (ops : list Op) : Prop :=
  forall a, temporaries_free a -> exists l, m a = Some (l, a) /\ map operands l = ops.

Ltac solve_has_ops :=
  let a := fresh "a" in let Ha := fresh "Ha" in intros a Ha;
  apply temporaries_free_shape in Ha as (?&?&?&?&?&?&?&?&?&?&->);
  eexists; split;
  [ cbv -[wrapu wraps Z.land Z.shiftl Z.sub Z.add Z.lor]; reflexivity
  | cbv -[wrapu wraps Z.land Z.shiftl Z.sub Z.add Z.lor]; reflexivity ].

Definition rr rd rs1 rs2 : FormatR := {| R_rd := rd; R_rs1 := rs1; R_rs2 := rs2 |}.
Definition ri rd rs1 imm : FormatI := {| I_rd := rd; I_rs1 := rs1; I_imm := imm |}.
Definition bb rs1 rs2 : FormatB := {| B_rs1 := rs1; B_rs2 := rs2; B_imm := 0 |}.
Definition jj rd : FormatJ := {| J_rd := rd; J_imm := 0 |}.

Section Ops.
Context (rd rs1 rs2 : nat) (imm : Z).

Definition SLLI_ops : list Op :=
  [VirtualMULI (ri rd rs1 (as_u64 (as_u64 (Z.shiftl 1 (Z.land imm 0x3f)))))].
Definition SLL_ops : list Op := [VirtualPow2 (ri 40 rs2 0); MUL (rr rd rs1 40)].
Definition SRL_ops : list Op :=
  [VirtualShiftRightBitmask (ri 40 rs2 0); VirtualSRL {| VR_rd := rd; VR_rs1 := rs1; VR_rs2 := 40 |}].
Definition SRLI_ops : list Op :=
  [VirtualSRLI {| VI_rd := rd; VI_rs1 := rs1; VI_imm := as_u64 (bitmask_imm (Z.land imm 0x3f) 64) |}].
Definition SRA_ops : list Op :=
  [VirtualShiftRightBitmask (ri 40 rs2 0); VirtualSRA {| VR_rd := rd; VR_rs1 := rs1; VR_rs2 := 40 |}].
Definition SRAI_ops : list Op :=
  [VirtualSRAI {| VI_rd := rd; VI_rs1 := rs1; VI_imm := as_u64 (bitmask_imm (Z.land imm 0x3f) 64) |}].
Definition sext : Op := VirtualSignExtendWord (ri rd rd 0).
Definition ADDW_ops : list Op := [ADD (rr rd rs1 rs2); sext].
Definition ADDIW_ops : list Op := [ADDI (ri rd rs1 (as_u64 imm)); sext].
Definition SUBW_ops : list Op := [SUB (rr rd rs1 rs2); sext].
Definition MULW_ops : list Op := [MUL (rr rd rs1 rs2); sext].
Definition SLLW_ops : list Op := [VirtualPow2W (ri 40 rs2 0); MUL (rr rd rs1 40); sext].
Definition SLLIW_ops : list Op :=
  [VirtualMULI (ri rd rs1 (as_u64 (as_u64 (Z.shiftl 1 (Z.land imm 0x1f))))); sext].
Definition SRLW_ops : list Op :=
  [VirtualMULI (ri 41 rs1 (2 ^ 32)); ORI (ri 40 rs2 32); VirtualShiftRightBitmask (ri 40 40 0);
   VirtualSRL {| VR_rd := rd; VR_rs1 := 41; VR_rs2 := 40 |}; sext].
Definition SRLIW_ops : list Op :=
  [VirtualMULI (ri 40 rs1 (2 ^ 32));
   VirtualSRLI {| VI_rd := rd; VI_rs1 := 40;
                  VI_imm := as_u64 (bitmask_imm (Z.land imm 0x1f + 32) 64) |}; sext].
Definition SRAW_ops : list Op :=
  [VirtualSignExtendWord (ri 40 rs1 0); ANDI (ri 41 rs2 0x1f); VirtualShiftRightBitmask (ri 41 41 0);
   VirtualSRA {| VR_rd := rd; VR_rs1 := 40; VR_rs2 := 41 |}; sext].
Definition SRAIW_ops : list Op :=
  [VirtualSignExtendWord (ri 40 rs1 0);
   VirtualSRAI {| VI_rd := rd; VI_rs1 := 40; VI_imm := as_u64 (bitmask_imm (Z.land imm 0x1f) 64) |};
   sext].
End Ops.

(** [MULH] with the temporaries [t], [t + 1] and [t + 2]. *)
Definition MULH_ops (t rd rs1 rs2 : nat) : list Op :=
  [VirtualMovsign (ri t rs1 0); VirtualMovsign (ri (t + 1) rs2 0); MUL (rr t t rs2);
   MUL (rr (t + 1) (t + 1) rs1); MULHU (rr (t + 2) rs1 rs2); ADD (rr (t + 2) (t + 2) t);
   ADD (rr rd (t + 2) (t + 1))].
Definition MULHSU_ops (rd rs1 rs2 : nat) : list Op :=
  [VirtualMovsign (ri 40 rs1 0); ANDI (ri 41 40 1); XOR (rr 42 rs1 40); ADD (rr 42 42 41);
   MULHU (rr 43 42 rs2); MUL (rr 42 42 rs2); XOR (rr 43 43 40); XOR (rr 42 42 40); ADD (rr 40 42 41);
   SLTU (rr 40 40 42); ADD (rr rd 43 40)].

(** The programs of the division family, with their advice. *)
Section DivOps.
Context (rd rs1 rs2 : nat).

(** [SRAI] by a constant. *)
Definition srai (rd rs1 : nat) (shift : Z) : Op :=
  VirtualSRAI {| VI_rd := rd; VI_rs1 := rs1; VI_imm := as_u64 (bitmask_imm shift 64) |}.

Definition DIV_prefix (q r : Z) : list Op :=
  [VirtualAdvice (jj 40) q; VirtualAdvice (jj 41) r; VirtualAssertValidDiv0 (bb rs2 40);
   VirtualChangeDivisor (rr 42 rs1 rs2)] ++ MULH_ops 44 43 40 42 ++
  [MUL (rr 44 40 42); srai 45 44 63; VirtualAssertEQ (bb 43 45);
   srai 43 rs1 63; XOR (rr 45 41 43); SUB (rr 45 45 43); ADD (rr 44 44 45);
   VirtualAssertEQ (bb 44 rs1); srai 43 42 63].
Definition DIV_ops (q r : Z) : list Op :=
  DIV_prefix q r ++
  [XOR (rr 45 42 43); SUB (rr 45 45 43); VirtualAssertValidUnsignedRemainder (bb 41 45);
   ADDI (ri rd 40 0)].
Definition REM_ops (q r : Z) : list Op :=
  DIV_prefix q r ++
  [XOR (rr 44 42 43); SUB (rr 44 44 43); VirtualAssertValidUnsignedRemainder (bb 41 44);
   ADDI (ri rd 45 0)].
Definition DIVU_ops (q : Z) : list Op :=
  [VirtualAdvice (jj 40) q; VirtualAssertValidDiv0 (bb rs2 40); VirtualAssertMulUNoOverflow (bb 40 rs2);
   MUL (rr 41 40 rs2); VirtualAssertLTE (bb 41 rs1); SUB (rr 41 rs1 41);
   VirtualAssertValidUnsignedRemainder (bb 41 rs2); ADDI (ri rd 40 0)].
Definition REMU_ops (q : Z) : list Op :=
  [VirtualAdvice (jj 40) q; VirtualAssertMulUNoOverflow (bb 40 rs2);
   MUL (rr 40 40 rs2); VirtualAssertLTE (bb 40 rs1); SUB (rr 40 rs1 40);
   VirtualAssertValidUnsignedRemainder (bb 40 rs2); ADDI (ri rd 40 0)].
Definition DIVUW_ops (q : Z) : list Op :=
  [VirtualZeroExtendWord (ri 40 rs1 0); VirtualZeroExtendWord (ri 41 rs2 0); VirtualAdvice (jj 42) q;
   VirtualAssertMulUNoOverflow (bb 42 41); MUL (rr 43 42 41); VirtualAssertLTE (bb 43 40);
   SUB (rr 43 40 43); VirtualAssertValidUnsignedRemainder (bb 43 41);
   VirtualSignExtendWord (ri 43 42 0); VirtualAssertValidDiv0 (bb 41 43); ADDI (ri rd 43 0)].
Definition REMUW_ops (q : Z) : list Op :=
  [VirtualZeroExtendWord (ri 40 rs1 0); VirtualZeroExtendWord (ri 41 rs2 0); VirtualAdvice (jj 42) q;
   VirtualAssertMulUNoOverflow (bb 42 41); MUL (rr 42 42 41); VirtualAssertLTE (bb 42 40);
   SUB (rr 42 40 42); VirtualAssertValidUnsignedRemainder (bb 42 41);
   VirtualSignExtendWord (ri rd 42 0)].
Definition DIVW_prefix (q r : Z) : list Op :=
  [VirtualAdvice (jj 40) q; VirtualAdvice (jj 41) r; VirtualSignExtendWord (ri 46 rs1 0);
   VirtualSignExtendWord (ri 45 rs2 0); VirtualAssertValidDiv0 (bb 45 40);
   VirtualChangeDivisorW (rr 42 46 45); VirtualSignExtendWord (ri 43 40 0); VirtualAssertEQ (bb 43 40);
   srai 44 41 31; VirtualAssertEQ (bb 44 0); srai 44 46 31; XOR (rr 45 41 44); SUB (rr 45 45 44);
   MUL (rr 43 40 42); ADD (rr 43 43 45); VirtualAssertEQ (bb 43 46); srai 44 42 31; XOR (rr 43 42 44);
   SUB (rr 43 43 44); VirtualAssertValidUnsignedRemainder (bb 41 43)].
Definition DIVW_ops (q r : Z) : list Op := DIVW_prefix q r ++ [VirtualSignExtendWord (ri rd 40 0)].
Definition REMW_ops (q r : Z) : list Op := DIVW_prefix q r ++ [VirtualSignExtendWord (ri rd 45 0)].
End DivOps.

Section HasOps.

Context (s : Struct FormatR) (t : Struct FormatI).
Abbreviation o := (operands s).
Abbreviation p := (operands t).

Lemma SLLI_has_ops : has_ops (SLLI_inline_sequence Bit64 t) (SLLI_ops (I_rd p) (I_rs1 p) (I_imm p)).
Proof. solve_has_ops. Qed.
Lemma SRLI_has_ops : has_ops (SRLI_inline_sequence Bit64 t) (SRLI_ops (I_rd p) (I_rs1 p) (I_imm p)).
Proof. solve_has_ops. Qed.
Lemma SRAI_has_ops : has_ops (SRAI_inline_sequence Bit64 t) (SRAI_ops (I_rd p) (I_rs1 p) (I_imm p)).
Proof. solve_has_ops. Qed.
Lemma ADDIW_has_ops : has_ops (ADDIW_inline_sequence Bit64 t) (ADDIW_ops (I_rd p) (I_rs1 p) (I_imm p)).
Proof. solve_has_ops. Qed.
Lemma SLLIW_has_ops : has_ops (SLLIW_inline_sequence Bit64 t) (SLLIW_ops (I_rd p) (I_rs1 p) (I_imm p)).
Proof. solve_has_ops. Qed.
Lemma SRLIW_has_ops : has_ops (SRLIW_inline_sequence Bit64 t) (SRLIW_ops (I_rd p) (I_rs1 p) (I_imm p)).
Proof. solve_has_ops. Qed.
Lemma SRAIW_has_ops : has_ops (SRAIW_inline_sequence Bit64 t) (SRAIW_ops (I_rd p) (I_rs1 p) (I_imm p)).
Proof. solve_has_ops. Qed.
Lemma SLL_has_ops : has_ops (SLL_inline_sequence Bit64 s) (SLL_ops (R_rd o) (R_rs1 o) (R_rs2 o)).
Proof. solve_has_ops. Qed.
Lemma SRL_has_ops : has_ops (SRL_inline_sequence Bit64 s) (SRL_ops (R_rd o) (R_rs1 o) (R_rs2 o)).
Proof. solve_has_ops. Qed.
Lemma SRA_has_ops : has_ops (SRA_inline_sequence Bit64 s) (SRA_ops (R_rd o) (R_rs1 o) (R_rs2 o)).
Proof. solve_has_ops. Qed.
Lemma SLLW_has_ops : has_ops (SLLW_inline_sequence Bit64 s) (SLLW_ops (R_rd o) (R_rs1 o) (R_rs2 o)).
Proof. solve_has_ops. Qed.
Lemma SRLW_has_ops : has_ops (SRLW_inline_sequence Bit64 s) (SRLW_ops (R_rd o) (R_rs1 o) (R_rs2 o)).
Proof. solve_has_ops. Qed.
Lemma SRAW_has_ops : has_ops (SRAW_inline_sequence Bit64 s) (SRAW_ops (R_rd o) (R_rs1 o) (R_rs2 o)).
Proof. solve_has_ops. Qed.
Lemma ADDW_has_ops : has_ops (ADDW_inline_sequence Bit64 s) (ADDW_ops (R_rd o) (R_rs1 o) (R_rs2 o)).
Proof. solve_has_ops. Qed.
Lemma SUBW_has_ops : has_ops (SUBW_inline_sequence Bit64 s) (SUBW_ops (R_rd o) (R_rs1 o) (R_rs2 o)).
Proof. solve_has_ops. Qed.
Lemma MULW_has_ops : has_ops (MULW_inline_sequence Bit64 s) (MULW_ops (R_rd o) (R_rs1 o) (R_rs2 o)).
Proof. solve_has_ops. Qed.
Lemma MULHSU_has_ops : has_ops (MULHSU_inline_sequence Bit64 s) (MULHSU_ops (R_rd o) (R_rs1 o) (R_rs2 o)).
Proof. solve_has_ops. Qed.
Lemma MULH_has_ops :
  has_ops (MULH_inline_sequence Bit64 s) (MULH_ops 40 (R_rd o) (R_rs1 o) (R_rs2 o)).
Proof. solve_has_ops. Qed.
Lemma DIV_has_ops :
  has_ops (DIV_inline_sequence Bit64 s) (DIV_ops (R_rd o) (R_rs1 o) (R_rs2 o) 0 0).
Proof. solve_has_ops. Qed.
Lemma REM_has_ops :
  has_ops (REM_inline_sequence Bit64 s) (REM_ops (R_rd o) (R_rs1 o) (R_rs2 o) 0 0).
Proof. solve_has_ops. Qed.
Lemma DIVW_has_ops :
  has_ops (DIVW_inline_sequence Bit64 s) (DIVW_ops (R_rd o) (R_rs1 o) (R_rs2 o) 0 0).
Proof. solve_has_ops. Qed.
Lemma REMW_has_ops :
  has_ops (REMW_inline_sequence Bit64 s) (REMW_ops (R_rd o) (R_rs1 o) (R_rs2 o) 0 0).
Proof. solve_has_ops. Qed.
Lemma DIVU_has_ops :
  has_ops (DIVU_inline_sequence Bit64 s) (DIVU_ops (R_rd o) (R_rs1 o) (R_rs2 o) 0).
Proof. solve_has_ops. Qed.
Lemma REMU_has_ops :
  has_ops (REMU_inline_sequence Bit64 s) (REMU_ops (R_rd o) (R_rs1 o) (R_rs2 o) 0).
Proof. solve_has_ops. Qed.
Lemma DIVUW_has_ops :
  has_ops (DIVUW_inline_sequence Bit64 s) (DIVUW_ops (R_rd o) (R_rs1 o) (R_rs2 o) 0).
Proof. solve_has_ops. Qed.
Lemma REMUW_has_ops :
  has_ops (REMUW_inline_sequence Bit64 s) (REMUW_ops (R_rd o) (R_rs1 o) (R_rs2 o) 0).
Proof. solve_has_ops. Qed.
End HasOps.
