(* ===== verification/SeqArith.v ===== *)
(** * SeqArith: the word arithmetic behind the virtual sequences *)
From S2P Require Import Prelude Bits Cpu Instr Sequences ExecWf.

(** ** Wraps and ring operations *)

Lemma wraps_mul_r w a b : 0 < w -> wraps w (a * wraps w b) = wraps w (a * b).
Proof.
  intros Hw. apply wraps_eqm; [done|]. rewrite <- (wrapu_mul_r w a (wraps w b)).
  by rewrite (wrapu_wraps w Hw), wrapu_mul_r.
Qed.
Lemma wraps_mul_l w a b : 0 < w -> wraps w (wraps w a * b) = wraps w (a * b).
Proof. intros. by rewrite !(Z.mul_comm _ b), wraps_mul_r. Qed.
Lemma wraps_add_l w a b : 0 < w -> wraps w (wraps w a + b) = wraps w (a + b).
Proof.
  intros Hw. destruct (wraps_shift w a) as [k ->].
  replace (a + k * 2 ^ w + b) with (a + b + k * 2 ^ w) by lia. by apply wraps_add_mul.
Qed.
Lemma wraps_add_r w a b : 0 < w -> wraps w (a + wraps w b) = wraps w (a + b).
Proof. intros. by rewrite !(Z.add_comm a), wraps_add_l. Qed.
Lemma wraps_sub_l w a b : 0 < w -> wraps w (wraps w a - b) = wraps w (a - b).
Proof. intros. rewrite <- !Z.add_opp_r. by apply wraps_add_l. Qed.
Lemma wraps_sub_r w a b : 0 < w -> wraps w (a - wraps w b) = wraps w (a - b).
Proof.
  intros Hw. destruct (wraps_shift w b) as [k ->].
  replace (a - (b + k * 2 ^ w)) with (a - b + - k * 2 ^ w) by lia. by apply wraps_add_mul.
Qed.

(** Two wraps are equal when the arguments differ by a multiple. *)
Lemma wraps_eq_mul w a b k : 0 < w -> a = b + k * 2 ^ w -> wraps w a = wraps w b.
Proof. intros Hw ->. by apply wraps_add_mul. Qed.

Lemma as_u64_of_s a : in_s 64 a -> as_u64 a = if decide (a < 0) then a + 2 ^ 64 else a.
Proof.
  intros Ha. rewrite (wrapu_to_wraps 64) by lia. rewrite !wraps_small by (lia || done). done.
Qed.

(** ** The sign-extension of a word *)

Lemma sext_word v : Z.shiftr (as_i64 (Z.shiftl v 32)) 32 = as_i32 v.
Proof.
  pose proof (wraps_range 32 ltac:(lia) v) as Hr. destruct (wraps_shift 32 v) as [k Hk].
  rewrite Z.shiftl_mul_pow2 by lia.
  rewrite (wraps_eq_mul 64 _ (as_i32 v * 2 ^ 32) (- k)) by lia.
  rewrite wraps_small by (unfold in_s in *; lia).
  rewrite Z.shiftr_div_pow2 by lia. by rewrite Z.div_mul by lia.
Qed.

Lemma zext_word v : Z.land v 0xFFFFFFFF = as_u32 v.
Proof. change 0xFFFFFFFF with (Z.ones 32). by rewrite Z.land_ones by lia. Qed.

(** ** Shift amounts *)

Lemma land_3f n : Z.land n 0x3f = n mod 64.
Proof. change 0x3f with (Z.ones 6). by rewrite Z.land_ones by lia. Qed.
Lemma land_1f n : Z.land n 0x1f = n mod 32.
Proof. change 0x1f with (Z.ones 5). by rewrite Z.land_ones by lia. Qed.

Lemma wrapu_mod k w n : 0 <= k <= w -> wrapu w n mod 2 ^ k = n mod 2 ^ k.
Proof. intros. by apply (wrapu_narrow k w). Qed.
Lemma u64_mod64 n : as_u64 n mod 64 = n mod 64.
Proof. by apply (wrapu_mod 6 64). Qed.
Lemma u32_mod64 n : as_u32 n mod 64 = n mod 64.
Proof. by apply (wrapu_mod 6 32). Qed.
Lemma u64_mod32 n : as_u64 n mod 32 = n mod 32.
Proof. by apply (wrapu_mod 5 64). Qed.
Lemma u32_shamt n : as_u32 (n mod 32) = n mod 32.
Proof. apply wrapu_small. pose proof (Z.mod_pos_bound n 32). unfold in_u. lia. Qed.

(** ** Bitmasks *)

(** The bitmask of [VirtualShiftRightBitmask] and of the immediate shifts. *)
Definition bitmask64 (s : Z) : Z := as_u128 (Z.shiftl (as_u128 (Z.shiftl 1 (64 - s)) - 1) s).

Lemma bitmask64_imm s : bitmask_imm s 64 = as_u64 (bitmask64 s).
Proof. reflexivity. Qed.

Lemma forall_below (P : Z -> bool) (n : nat) :
  forallb P (map Z.of_nat (seq 0 n)) = true -> forall s, 0 <= s < Z.of_nat n -> P s = true.
Proof.
  intros H s Hs. rewrite forallb_forall in H. apply H, in_map_iff.
  exists (Z.to_nat s). split; [lia|]. apply in_seq. lia.
Qed.

Lemma trailing_zeros_bitmask s : 0 <= s < 64 -> trailing_zeros_64 (as_i64 (bitmask64 s)) = s.
Proof.
  intros Hs. apply Z.eqb_eq.
  exact (forall_below (fun s => trailing_zeros_64 (as_i64 (bitmask64 s)) =? s) 64
    ltac:(vm_compute; reflexivity) s Hs).
Qed.

Lemma trailing_zeros_bitmask_imm s :
  0 <= s < 64 -> trailing_zeros_64 (as_u64 (bitmask_imm s 64)) = s.
Proof.
  intros Hs. apply Z.eqb_eq.
  exact (forall_below (fun s => trailing_zeros_64 (as_u64 (bitmask_imm s 64)) =? s) 64
    ltac:(vm_compute; reflexivity) s Hs).
Qed.

(** ** Shifts *)

Lemma mul_pow2 a s : 0 <= s -> as_i64 (a * as_i64 (Z.shiftl 1 s)) = as_i64 (Z.shiftl a s).
Proof.
  intros Hs. rewrite wraps_mul_r by lia. rewrite !Z.shiftl_mul_pow2 by done. f_equal. lia.
Qed.

Lemma mul_imm_pow2 a s : 0 <= s ->
  as_i64 (a * as_i64 (as_u64 (as_u64 (Z.shiftl 1 s)))) = as_i64 (Z.shiftl a s).
Proof. intros Hs. rewrite !wraps_wrapu by lia. by apply mul_pow2. Qed.

(** The word shifts: a shift left by 32 moves the word to the top half. *)
Lemma word_high a s : 0 <= s < 32 ->
  Z.shiftr (as_u64 (as_i64 (a * 2 ^ 32))) (s + 32) = Z.shiftr (as_u32 a) s.
Proof.
  intros Hs. rewrite wrapu_wraps by lia.
  replace (as_u64 (a * 2 ^ 32)) with (as_u32 a * 2 ^ 32).
  - rewrite Z.shiftr_div_pow2, Z.pow_add_r by lia. rewrite (Z.mul_comm (2 ^ s)).
    rewrite <- Z.div_div by (pose proof (pow2_pos s); lia). rewrite Z.div_mul by lia.
    by rewrite Z.shiftr_div_pow2 by lia.
  - destruct (wrapu_shift 32 a) as [k Hk]. pose proof (wrapu_range 32 ltac:(lia) a) as Hr.
    rewrite <- (wrapu_small 64 (as_u32 a * 2 ^ 32)) by (unfold in_u in *; lia).
    rewrite Hk. replace ((a + k * 2 ^ 32) * 2 ^ 32) with (a * 2 ^ 32 + k * 2 ^ 64) by lia.
    apply wrapu_add_mul. lia.
Qed.

Lemma lor_32 b : Z.lor b 32 mod 64 = b mod 32 + 32.
Proof.
  rewrite <- (land_3f (Z.lor b 32)), Z.land_lor_distr_l. change (Z.land 32 63) with 32.
  rewrite land_3f. replace (b mod 32) with (b mod 64 mod 32) by exact (wrapu_mod 5 6 b ltac:(lia)).
  apply Z.eqb_eq.
  exact (forall_below (fun m => Z.lor m 32 =? m mod 32 + 32) 64 ltac:(vm_compute; reflexivity)
    (b mod 64) (Z.mod_pos_bound b 64 ltac:(lia))).
Qed.

Lemma shiftr_word_range a s : 0 <= s -> as_i32 (Z.shiftr (as_i32 a) s) = Z.shiftr (as_i32 a) s.
Proof.
  intros Hs. apply wraps_small; [lia|]. apply in_s_shiftr; [lia|lia|]. apply wraps_range. lia.
Qed.
