(* ===== verification/SeqRun.v ===== *)
(** * SeqRun: the straight-line programs compute the instructions' results

    [result64] is the register write of a macro instruction's [exec] on the
    64-bit machine; each program of [SeqOps], run on a register file, performs
    that write and nothing else outside the temporaries. *)
From S2P Require Import Prelude Bits Registers AdviceTape Mmu Cpu Formats Instr Assembler.
From S2P Require Import Sequences Trace ExecWf Exec64 SeqOps SeqArith.

(** ** Results *)

Definition mulh64 (a b : Z) : Z := as_i64 (Z.shiftr (as_i128 (a * b)) 64).
Definition mulhsu64 (a b : Z) : Z := as_i64 (Z.shiftr (as_u128 (as_u128 a * as_u64 b)) 64).
Definition div64 (a b : Z) : Z :=
  if b =? 0 then -1 else if (a =? - 2 ^ 63) && (b =? -1) then a else as_i64 (Z.quot a b).
Definition rem64 (a b : Z) : Z :=
  if b =? 0 then a else if (a =? - 2 ^ 63) && (b =? -1) then 0 else as_i64 (Z.rem a b).
Definition divu64 (a b : Z) : Z := if as_u64 b =? 0 then -1 else as_i64 (as_u64 a / as_u64 b).
Definition remu64 (a b : Z) : Z :=
  if as_u64 b =? 0 then as_i64 (as_u64 a) else as_i64 (as_u64 a mod as_u64 b).
Definition divw64 (a b : Z) : Z :=
  if as_i32 b =? 0 then -1
  else if (as_i32 a =? - 2 ^ 31) && (as_i32 b =? -1) then as_i32 a else as_i32 (Z.quot (as_i32 a) (as_i32 b)).
Definition remw64 (a b : Z) : Z :=
  if as_i32 b =? 0 then as_i32 a
  else if (as_i32 a =? - 2 ^ 31) && (as_i32 b =? -1) then 0 else as_i32 (Z.rem (as_i32 a) (as_i32 b)).
Definition divuw64 (a b : Z) : Z :=
  as_i32 (if as_u32 b =? 0 then u32_MAX else as_u32 a / as_u32 b).
Definition remuw64 (a b : Z) : Z :=
  as_i32 (if as_u32 b =? 0 then as_u32 a else as_u32 a mod as_u32 b).

Definition result64 (f : regs) (op : Op) : option (nat * Z) :=
  match op with
  | SLL o => Some (R_rd o, wrapping_shl (f (R_rs1 o)) (Z.land (as_u32 (f (R_rs2 o))) 0x3f))
  | SLLI o => Some (I_rd o, wrapping_shl (f (I_rs1 o)) (Z.land (as_u32 (I_imm o)) 0x3f))
  | SRL o => Some (R_rd o, as_i64 (wrapping_shr (as_u64 (f (R_rs1 o))) (Z.land (as_u32 (f (R_rs2 o))) 0x3f)))
  | SRLI o => Some (I_rd o, as_i64 (wrapping_shr (as_u64 (f (I_rs1 o))) (Z.land (as_u32 (I_imm o)) 0x3f)))
  | SRA o => Some (R_rd o, wrapping_shr (f (R_rs1 o)) (Z.land (as_u32 (f (R_rs2 o))) 0x3f))
  | SRAI o => Some (I_rd o, wrapping_shr (f (I_rs1 o)) (Z.land (as_u32 (I_imm o)) 0x3f))
  | ADDW o => Some (R_rd o, as_i32 (as_i64 (f (R_rs1 o) + f (R_rs2 o))))
  | ADDIW o => Some (I_rd o, as_i32 (as_i64 (f (I_rs1 o) + as_i64 (I_imm o))))
  | SUBW o => Some (R_rd o, as_i32 (as_i64 (f (R_rs1 o) - f (R_rs2 o))))
  | MULW o => Some (R_rd o, as_i32 (as_i32 (f (R_rs1 o)) * as_i32 (f (R_rs2 o))))
  | SLLW o => Some (R_rd o,
      as_i32 (as_u32 (Z.shiftl (as_u32 (f (R_rs1 o))) (as_u32 (Z.land (f (R_rs2 o)) 0x1f)))))
  | SLLIW o => Some (I_rd o,
      as_i32 (as_u32 (Z.shiftl (as_u32 (f (I_rs1 o))) (as_u32 (Z.land (I_imm o) 0x1f)))))
  | SRLW o => Some (R_rd o,
      as_i32 (Z.shiftr (as_u32 (f (R_rs1 o))) (as_u32 (Z.land (f (R_rs2 o)) 0x1f))))
  | SRLIW o => Some (I_rd o,
      as_i32 (Z.shiftr (as_u32 (f (I_rs1 o))) (as_u32 (Z.land (I_imm o) 0x1f))))
  | SRAW o => Some (R_rd o, Z.shiftr (as_i32 (f (R_rs1 o))) (as_u32 (Z.land (f (R_rs2 o)) 0x1f)))
  | SRAIW o => Some (I_rd o, Z.shiftr (as_i32 (f (I_rs1 o))) (as_u32 (Z.land (I_imm o) 0x1f)))
  | MULH o => Some (R_rd o, mulh64 (f (R_rs1 o)) (f (R_rs2 o)))
  | MULHSU o => Some (R_rd o, mulhsu64 (f (R_rs1 o)) (f (R_rs2 o)))
  | DIV o => Some (R_rd o, div64 (f (R_rs1 o)) (f (R_rs2 o)))
  | DIVU o => Some (R_rd o, divu64 (f (R_rs1 o)) (f (R_rs2 o)))
  | DIVW o => Some (R_rd o, divw64 (f (R_rs1 o)) (f (R_rs2 o)))
  | DIVUW o => Some (R_rd o, divuw64 (f (R_rs1 o)) (f (R_rs2 o)))
  | REM o => Some (R_rd o, rem64 (f (R_rs1 o)) (f (R_rs2 o)))
  | REMU o => Some (R_rd o, remu64 (f (R_rs1 o)) (f (R_rs2 o)))
  | REMW o => Some (R_rd o, remw64 (f (R_rs1 o)) (f (R_rs2 o)))
  | REMUW o => Some (R_rd o, remuw64 (f (R_rs1 o)) (f (R_rs2 o)))
  | _ => None
  end.

Lemma execute_result (i : Instruction) (c : Cpu) rd v :
  cpu_wf c -> xlen c = Bit64 -> op_valid (operands i) ->
  result64 (reg c) (operands i) = Some (rd, v) -> execute i c = Some (wr c rd v).
Proof.
  intros Hc Hx. unfold execute, op_valid. cbv zeta.
  destruct (operands i); cbn [result64 op_operands op_format to_operands FormatR_format FormatI_format
    FormatR_to_operands FormatI_to_operands norm_rd norm_rs1 norm_rs2 opt_valid];
    intros (H1 & H2 & H3) E; try discriminate E; injection E as <- <-;
    unfold SLL_exec, SLLI_exec, SRL_exec, SRLI_exec, SRA_exec, SRAI_exec, ADDW_exec, ADDIW_exec,
      SUBW_exec, MULW_exec, SLLW_exec, SLLIW_exec, SRLW_exec, SRLIW_exec, SRAW_exec, SRAIW_exec,
      MULH_exec, MULHSU_exec, DIV_exec, DIVU_exec, DIVW_exec, DIVUW_exec, REM_exec, REMU_exec,
      REMW_exec, REMUW_exec, sign_extend, normalize_imm, shift_mask, most_negative, u_div, u_rem,
      wrapping_div, wrapping_rem, mulh64, mulhsu64, div64, divu64, divw64, divuw64, rem64, remu64,
      remw64, remuw64;
    rewrite ?Hx, ?(lookup_reg c Hc) by done; cbn [mbind option_bind];
    rewrite ?(unsigned_data_64 c) by done; cbv zeta;
    repeat (case_match; cbn [mbind option_bind]);
    rewrite ?(write_register_wr c Hc) by done; reflexivity.
Qed.

(** ** Running programs *)

Lemma run64_write op l f rd v :
  outcome64 f op = Some (Write rd v) -> run64 (op :: l) f = run64 l (upd f rd v).
Proof. intros H. cbn [run64]. by rewrite H. Qed.
Lemma run64_assert op l f b :
  outcome64 f op = Some (Assert b) -> run64 (op :: l) f = if b then run64 l f else None.
Proof. intros H. cbn [run64]. rewrite H. by destruct b. Qed.
Lemma run64_app l1 l2 f : run64 (l1 ++ l2) f = (f1 ← run64 l1 f; run64 l2 f1).
Proof.
  revert f. induction l1 as [|op l1 IH]; intros f; cbn [app run64]; [done|].
  destruct (run_outcome _ _); cbn [mbind option_bind]; [apply IH|done].
Qed.

Definition agree (f g : regs) : Prop := forall r, ~ instruction_reg r -> f r = g r.
(** The program writes [v] to [rd], and touches the temporaries at most. *)
Definition writes (ops : list Op) (f : regs) (rd : nat) (v : Z) : Prop :=
  exists f', run64 ops f = Some f' /\ agree f' (upd f rd v).

Lemma writes_run ops f rd v :
  match run64 ops f with Some f' => agree f' (upd f rd v) | None => False end -> writes ops f rd v.
Proof. unfold writes. destruct (run64 ops f) as [f'|]; [|done]. by exists f'. Qed.

(** Reads of an updated register file, by the register numbers. *)
Ltac solve_reg := assumption || lia.
Ltac reg_simpl :=
  repeat match goal with
  | |- context [upd ?f ?r ?v ?r'] =>
      first [ rewrite (upd_ne f r v r') by solve_reg | rewrite (upd_at f r v r') by solve_reg ]
  end.
Ltac reg_simpl_in E :=
  repeat match type of E with
  | context [upd ?f ?r ?v ?r'] =>
      first [ rewrite (upd_ne f r v r') in E by solve_reg | rewrite (upd_at f r v r') in E by solve_reg ]
  end.

Ltac eval_outcome f op :=
  eval cbn [outcome64 R_rd R_rs1 R_rs2 I_rd I_rs1 I_imm B_rs1 B_rs2 B_imm J_rd J_imm VI_rd VI_rs1 VI_imm
    VR_rd VR_rs1 VR_rs2 U_rd U_imm A_rs1 A_imm rr ri bb jj sext srai Nat.add] in (outcome64 f op).

(** One instruction: its written value becomes a variable with an equation. *)
Ltac run_write :=
  match goal with
  | |- context [run64 (?op :: ?l) ?f] =>
      let oc := eval_outcome f op in
      lazymatch oc with
      | Some (Write ?rd ?v) =>
          let w := fresh "v" in let E := fresh "E" in
          rewrite (run64_write op l f rd v eq_refl); remember v as w eqn:E; reg_simpl_in E
      end
  end.
Ltac run_assert :=
  match goal with
  | |- context [run64 (?op :: ?l) ?f] =>
      let oc := eval_outcome f op in
      lazymatch oc with
      | Some (Assert ?b) => rewrite (run64_assert op l f b eq_refl); reg_simpl
      end
  end.

(** The last write is the result. *)
Ltac final_agree :=
  let r := fresh "r" in let Hr := fresh "Hr" in
  intros r Hr; unfold instruction_reg in Hr;
  match goal with
  | |- _ = upd _ ?rd _ _ => destruct (decide (r = rd)) as [->|]; reg_simpl; [|reflexivity]
  end.

Section Simple.
Context (f : regs) (rd rs1 rs2 : nat) (imm : Z).
Context (Hrd : ~ instruction_reg rd) (Hrs1 : ~ instruction_reg rs1) (Hrs2 : ~ instruction_reg rs2)
  (H0 : rd <> 0%nat).

#[local] Ltac solve_writes :=
  unfold instruction_reg in *; apply writes_run;
  unfold SLL_ops, SLLI_ops, SRL_ops, SRLI_ops, SRA_ops, SRAI_ops, ADDW_ops, ADDIW_ops, SUBW_ops,
      MULW_ops, SLLW_ops, SLLIW_ops, SRLW_ops, SRLIW_ops, SRAW_ops, SRAIW_ops;
  repeat run_write; cbn [run64]; final_agree; subst; rewrite ?sext_word.

Lemma shamt n : 0 <= n mod 64 < 64.
Proof. apply Z.mod_pos_bound. lia. Qed.
Lemma shamt_w n : 0 <= n mod 32 < 32.
Proof. apply Z.mod_pos_bound. lia. Qed.

Lemma SLL_writes :
  writes (SLL_ops rd rs1 rs2) f rd (wrapping_shl (f rs1) (Z.land (as_u32 (f rs2)) 0x3f)).
Proof.
  solve_writes. rewrite mul_pow2 by apply shamt. unfold wrapping_shl.
  by rewrite u64_mod64, land_3f, u32_mod64, Z.mod_mod by lia.
Qed.

Lemma SLLI_writes :
  writes (SLLI_ops rd rs1 imm) f rd (wrapping_shl (f rs1) (Z.land (as_u32 imm) 0x3f)).
Proof.
  clear Hrs2. solve_writes. rewrite !land_3f, mul_imm_pow2 by apply shamt. unfold wrapping_shl.
  by rewrite u32_mod64, Z.mod_mod by lia.
Qed.

Lemma SRL_writes :
  writes (SRL_ops rd rs1 rs2) f rd
    (as_i64 (wrapping_shr (as_u64 (f rs1)) (Z.land (as_u32 (f rs2)) 0x3f))).
Proof.
  solve_writes. rewrite !land_3f, u64_mod64, u32_mod64.
  change (as_u128 (Z.shiftl (as_u128 (Z.shiftl 1 (64 - f rs2 mod 64)) - 1) (f rs2 mod 64)))
    with (bitmask64 (f rs2 mod 64)).
  by rewrite trailing_zeros_bitmask by apply shamt.
Qed.

Lemma SRLI_writes :
  writes (SRLI_ops rd rs1 imm) f rd
    (as_i64 (wrapping_shr (as_u64 (f rs1)) (Z.land (as_u32 imm) 0x3f))).
Proof.
  clear Hrs2. solve_writes. by rewrite !land_3f, u32_mod64, trailing_zeros_bitmask_imm by apply shamt.
Qed.

Lemma SRA_writes :
  writes (SRA_ops rd rs1 rs2) f rd (wrapping_shr (f rs1) (Z.land (as_u32 (f rs2)) 0x3f)).
Proof.
  solve_writes. rewrite !land_3f, u64_mod64, u32_mod64.
  change (as_u128 (Z.shiftl (as_u128 (Z.shiftl 1 (64 - f rs2 mod 64)) - 1) (f rs2 mod 64)))
    with (bitmask64 (f rs2 mod 64)).
  by rewrite trailing_zeros_bitmask by apply shamt.
Qed.

Lemma SRAI_writes :
  writes (SRAI_ops rd rs1 imm) f rd (wrapping_shr (f rs1) (Z.land (as_u32 imm) 0x3f)).
Proof.
  clear Hrs2. solve_writes. by rewrite !land_3f, u32_mod64, trailing_zeros_bitmask_imm by apply shamt.
Qed.

Lemma ADDW_writes : writes (ADDW_ops rd rs1 rs2) f rd (as_i32 (as_i64 (f rs1 + f rs2))).
Proof. solve_writes. reflexivity. Qed.
Lemma ADDIW_writes : writes (ADDIW_ops rd rs1 imm) f rd (as_i32 (as_i64 (f rs1 + as_i64 imm))).
Proof. clear Hrs2. solve_writes. by rewrite wraps_wrapu by lia. Qed.
Lemma SUBW_writes : writes (SUBW_ops rd rs1 rs2) f rd (as_i32 (as_i64 (f rs1 - f rs2))).
Proof. solve_writes. reflexivity. Qed.
Lemma MULW_writes : writes (MULW_ops rd rs1 rs2) f rd (as_i32 (as_i32 (f rs1) * as_i32 (f rs2))).
Proof.
  solve_writes. by rewrite wraps_mul_l, wraps_mul_r, wraps_narrow_s by lia.
Qed.

Lemma shl_word a s : 0 <= s -> as_i32 (as_i64 (Z.shiftl a s)) = as_i32 (as_u32 (Z.shiftl (as_u32 a) s)).
Proof.
  intros Hs. rewrite wraps_narrow_s, wraps_wrapu by lia. rewrite !Z.shiftl_mul_pow2 by done.
  apply wraps_eqm; [lia|]. by rewrite wrapu_mul_l.
Qed.
Lemma SLLW_writes :
  writes (SLLW_ops rd rs1 rs2) f rd
    (as_i32 (as_u32 (Z.shiftl (as_u32 (f rs1)) (as_u32 (Z.land (f rs2) 0x1f))))).
Proof.
  solve_writes. rewrite mul_pow2 by apply shamt_w.
  rewrite land_1f, u32_shamt, u64_mod32. apply shl_word, shamt_w.
Qed.
Lemma SLLIW_writes :
  writes (SLLIW_ops rd rs1 imm) f rd
    (as_i32 (as_u32 (Z.shiftl (as_u32 (f rs1)) (as_u32 (Z.land imm 0x1f))))).
Proof.
  clear Hrs2. solve_writes. rewrite land_1f, u32_shamt. rewrite mul_imm_pow2 by apply shamt_w.
  apply shl_word, shamt_w.
Qed.

Lemma pow32_imm : as_i64 (2 ^ 32) = 2 ^ 32.
Proof. reflexivity. Qed.

Lemma srl_word a s : 0 <= s < 32 ->
  as_i32 (as_i64 (wrapping_shr (as_u64 (as_i64 (a * as_i64 (2 ^ 32)))) (s + 32))) =
  as_i32 (Z.shiftr (as_u32 a) s).
Proof.
  intros Hs. unfold wrapping_shr. rewrite (Z.mod_small (s + 32) 64) by lia.
  rewrite pow32_imm, word_high by done. by apply wraps_narrow_s.
Qed.

Lemma SRLW_writes :
  writes (SRLW_ops rd rs1 rs2) f rd
    (as_i32 (Z.shiftr (as_u32 (f rs1)) (as_u32 (Z.land (f rs2) 0x1f)))).
Proof.
  solve_writes. change (as_i64 32) with 32. rewrite land_1f, u32_shamt, !land_3f, u64_mod64, lor_32.
  change (as_u128 (Z.shiftl (as_u128 (Z.shiftl 1 (64 - (f rs2 mod 32 + 32))) - 1) (f rs2 mod 32 + 32)))
    with (bitmask64 (f rs2 mod 32 + 32)).
  pose proof (shamt_w (f rs2)). rewrite trailing_zeros_bitmask by lia. by apply srl_word.
Qed.
Lemma SRLIW_writes :
  writes (SRLIW_ops rd rs1 imm) f rd
    (as_i32 (Z.shiftr (as_u32 (f rs1)) (as_u32 (Z.land imm 0x1f)))).
Proof.
  clear Hrs2. solve_writes. rewrite land_1f, u32_shamt. pose proof (shamt_w imm).
  rewrite trailing_zeros_bitmask_imm by lia. by apply srl_word.
Qed.

Lemma sra_word a s : 0 <= s < 32 ->
  as_i32 (wrapping_shr (as_i32 a) s) = Z.shiftr (as_i32 a) s.
Proof.
  intros Hs. unfold wrapping_shr. rewrite (Z.mod_small s 64) by lia. apply shiftr_word_range. lia.
Qed.
Lemma SRAW_writes :
  writes (SRAW_ops rd rs1 rs2) f rd (Z.shiftr (as_i32 (f rs1)) (as_u32 (Z.land (f rs2) 0x1f))).
Proof.
  solve_writes. change (as_i64 0x1f) with 0x1f. rewrite land_1f, u32_shamt, !land_3f, u64_mod64.
  pose proof (shamt_w (f rs2)). rewrite (Z.mod_small (f rs2 mod 32) 64) by lia.
  change (as_u128 (Z.shiftl (as_u128 (Z.shiftl 1 (64 - f rs2 mod 32)) - 1) (f rs2 mod 32)))
    with (bitmask64 (f rs2 mod 32)).
  rewrite trailing_zeros_bitmask by lia. by apply sra_word.
Qed.
Lemma SRAIW_writes :
  writes (SRAIW_ops rd rs1 imm) f rd (Z.shiftr (as_i32 (f rs1)) (as_u32 (Z.land imm 0x1f))).
Proof.
  clear Hrs2. solve_writes. rewrite land_1f, u32_shamt. pose proof (shamt_w imm).
  rewrite trailing_zeros_bitmask_imm by lia. by apply sra_word.
Qed.
End Simple.

(** ** High products *)

(** The sign mask of a register. *)
Definition sign_mask (a : Z) : Z := if a <? 0 then -1 else 0.

Lemma land_pow2 v k : 0 <= k -> Z.land v (2 ^ k) = if Z.testbit v k then 2 ^ k else 0.
Proof.
  intros Hk. apply Z.bits_inj'. intros n Hn. rewrite Z.land_spec, Z.pow2_bits_eqb by lia.
  destruct (k =? n) eqn:E.
  - apply Z.eqb_eq in E as <-. destruct (Z.testbit v k); [by rewrite Z.pow2_bits_true|by rewrite Z.testbit_0_l].
  - rewrite andb_false_r. destruct (Z.testbit v k); [|by rewrite Z.testbit_0_l].
    by rewrite Z.pow2_bits_eqb, E by lia.
Qed.

Lemma sign_bit w a : 0 < w -> in_s w a -> Z.testbit a (w - 1) = (a <? 0).
Proof.
  intros Hw Ha. pose proof (Z.shiftr_neg a (w - 1)) as Hn.
  replace (w - 1) with (0 + (w - 1)) at 1 by lia. rewrite <- Z.shiftr_spec by lia.
  apply in_s_iff_shiftr in Ha as [E|E]; [..|done]; rewrite E in *; cbn;
    symmetry; [apply Z.ltb_ge|apply Z.ltb_lt]; lia.
Qed.

Lemma movsign_mask a : in_s 64 a ->
  (if negb (Z.land (as_u64 a) 0x8000000000000000 =? 0) then as_i64 0xFFFFFFFFFFFFFFFF else 0) =
  sign_mask a.
Proof.
  intros Ha. change 0x8000000000000000 with (2 ^ 63). rewrite land_pow2 by lia.
  unfold wrapu at 1. rewrite Z.mod_pow2_bits_low by lia. unfold sign_mask.
  pose proof (sign_bit 64 a ltac:(lia) Ha) as E. change (64 - 1) with 63 in E. rewrite E.
  by destruct (a <? 0).
Qed.

(** [xor] with a sign mask negates, up to one. *)
Lemma lxor_mask v a : Z.lxor v (sign_mask a) = if a <? 0 then - v - 1 else v.
Proof.
  unfold sign_mask. destruct (a <? 0); [|apply Z.lxor_0_r]. rewrite Z.lxor_m1_r. unfold Z.lnot. lia.
Qed.

Lemma as_u128_mul a b : in_u 64 a -> in_u 64 b -> as_u128 (a * b) = a * b.
Proof. unfold in_u. intros Ha Hb. apply wrapu_small. unfold in_u. nia. Qed.

Lemma as_u64_mask a : in_s 64 a -> as_u64 a = a - sign_mask a * 2 ^ 64.
Proof.
  intros Ha. rewrite as_u64_of_s by done. unfold sign_mask.
  destruct (Z.ltb_spec a 0); case_decide; lia.
Qed.

Lemma mulh_arith a b : in_s 64 a -> in_s 64 b ->
  as_i64 (as_i64 (as_i64 (Z.shiftr (as_u128 (as_u64 a * as_u64 b)) 64) +
                  as_i64 (sign_mask a * b)) + as_i64 (sign_mask b * a)) = mulh64 a b.
Proof.
  intros Ha Hb. rewrite as_u128_mul by (apply wrapu_range; lia). unfold mulh64.
  rewrite (wraps_small 128 ltac:(lia)) by (unfold in_s in *; cbn in *; nia).
  rewrite wraps_add_l, wraps_add_r by lia.
  destruct (wraps_shift 64 (sign_mask a * b)) as [k ->].
  rewrite <- Z.add_assoc, wraps_add_l by lia.
  rewrite !as_u64_mask by done. rewrite !Z.shiftr_div_pow2 by lia.
  set (ma := sign_mask a). set (mb := sign_mask b).
  replace ((a - ma * 2 ^ 64) * (b - mb * 2 ^ 64))
    with (a * b + (ma * mb * 2 ^ 64 - ma * b - mb * a) * 2 ^ 64) by ring.
  rewrite Z.div_add by lia. apply (wraps_eq_mul 64 _ _ (ma * mb + k)); lia.
Qed.

(** The upper half of a negated product, by its halves. *)
Lemma neg_high P : - P / 2 ^ 64 = - (P / 2 ^ 64) - 1 + b2z (as_u64 (- P) <? as_u64 (- P - 1)).
Proof.
  pose proof (Z_div_mod_eq_full P (2 ^ 64)) as Hdm. pose proof (Z.mod_pos_bound P (2 ^ 64) ltac:(lia)) as HL.
  set (L := P mod 2 ^ 64) in *. set (H := P / 2 ^ 64) in *.
  assert (E1 : as_u64 (- P - 1) = 2 ^ 64 - 1 - L).
  { unfold wrapu. symmetry. apply (Z.mod_unique _ _ (- H - 1)); lia. }
  rewrite E1. destruct (decide (L = 0)) as [HL0|HL0].
  - replace (as_u64 (- P)) with 0 by (unfold wrapu; apply (Z.mod_unique _ _ (- H)); lia).
    rewrite (proj2 (Z.ltb_lt _ _)) by lia. cbn [b2z]. symmetry. apply (Z.div_unique _ _ _ 0); lia.
  - replace (as_u64 (- P)) with (2 ^ 64 - L)
      by (unfold wrapu; apply (Z.mod_unique _ _ (- H - 1)); lia).
    rewrite (proj2 (Z.ltb_ge _ _)) by lia. cbn [b2z]. symmetry.
    apply (Z.div_unique _ _ _ (2 ^ 64 - L)); lia.
Qed.

Lemma mulhsu_spec a b : mulhsu64 a b = as_i64 (a * as_u64 b / 2 ^ 64).
Proof.
  unfold mulhsu64. rewrite wrapu_mul_l. destruct (wrapu_shift 128 (a * as_u64 b)) as [k ->].
  rewrite Z.shiftr_div_pow2 by lia.
  replace (a * as_u64 b + k * 2 ^ 128) with (a * as_u64 b + k * 2 ^ 64 * 2 ^ 64) by lia.
  rewrite Z.div_add by lia. apply (wraps_eq_mul 64 _ _ k); lia.
Qed.

Lemma as_u64_congr_mul v b : as_u64 (as_i64 (as_i64 v * b)) = as_u64 (v * as_u64 b).
Proof.
  rewrite wrapu_wraps by lia. rewrite <- (wrapu_mul_l 64), wrapu_wraps by lia.
  by rewrite wrapu_mul_l, wrapu_mul_r.
Qed.

Lemma mulhsu_arith a b :
  in_s 64 a ->
  let m := sign_mask a in
  let v1 := Z.land m 1 in
  let v2 := as_i64 (Z.lxor a m + v1) in
  let hi := Z.lxor (as_i64 (Z.shiftr (as_u128 (as_u64 v2 * as_u64 b)) 64)) m in
  let lo := Z.lxor (as_i64 (v2 * b)) m in
  as_i64 (hi + b2z (as_u64 (as_i64 (lo + v1)) <? as_u64 lo)) = mulhsu64 a b.
Proof.
  intros Ha. cbv zeta. rewrite !lxor_mask, mulhsu_spec.
  rewrite as_u128_mul by (apply wrapu_range; lia).
  set (w := (if a <? 0 then - a - 1 else a) + Z.land (sign_mask a) 1).
  assert (Hw : w = Z.abs a) by
    (unfold w, sign_mask; destruct (Z.ltb_spec a 0);
      [change (Z.land (-1) 1) with 1|change (Z.land 0 1) with 0]; lia).
  pose proof (as_u64_congr_mul w b) as Hlo. revert Hlo.
  set (lo := as_i64 (as_i64 w * b)). intros Hlo. rewrite !wrapu_wraps by lia.
  rewrite (wrapu_small 64 w) by (unfold in_s, in_u in *; lia).
  rewrite Z.shiftr_div_pow2 by lia. set (P := w * as_u64 b) in *.
  unfold sign_mask. destruct (Z.ltb_spec a 0) as [Hneg|Hpos].
  - change (Z.land (-1) 1) with 1. replace (a * as_u64 b) with (- P) by (unfold P; rewrite Hw, Z.abs_neq by lia; ring).
    replace (as_u64 (- lo - 1 + 1)) with (as_u64 (- P)).
    2: { replace (- lo - 1 + 1) with (0 - lo) by lia. rewrite <- (wrapu_sub_r 64 0 lo), Hlo.
         by rewrite wrapu_sub_r. }
    replace (as_u64 (- lo - 1)) with (as_u64 (- P - 1)).
    2: { replace (- lo - 1) with (-1 - lo) by lia. rewrite <- (wrapu_sub_r 64 (-1) lo), Hlo.
         rewrite wrapu_sub_r. f_equal. lia. }
    rewrite neg_high. set (k := b2z _). destruct (wraps_shift 64 (P / 2 ^ 64)) as [j ->].
    apply (wraps_eq_mul 64 _ _ (- j)); lia.
  - change (Z.land 0 1) with 0. rewrite Z.add_0_r, Z.ltb_irrefl. cbn [b2z].
    rewrite Z.add_0_r, wraps_wraps by lia. unfold P. by rewrite Hw, Z.abs_eq by done.
Qed.

Section High.
Context (f : regs) (rd rs1 rs2 : nat).
Context (Hf : forall r, in_s 64 (f r)).
Context (Hrd : ~ instruction_reg rd) (Hrs1 : ~ instruction_reg rs1) (Hrs2 : ~ instruction_reg rs2)
  (H0 : rd <> 0%nat).

Lemma MULHSU_writes : writes (MULHSU_ops rd rs1 rs2) f rd (mulhsu64 (f rs1) (f rs2)).
Proof.
  unfold instruction_reg in *. apply writes_run. unfold MULHSU_ops.
  repeat run_write. cbn [run64]. final_agree.
  rewrite movsign_mask in E by apply Hf. subst. by apply mulhsu_arith.
Qed.

Lemma MULH_writes : writes (MULH_ops 40 rd rs1 rs2) f rd (mulh64 (f rs1) (f rs2)).
Proof.
  unfold instruction_reg in *. apply writes_run. unfold MULH_ops. cbn [Nat.add].
  repeat run_write. cbn [run64]. final_agree.
  rewrite movsign_mask in E by apply Hf. rewrite movsign_mask in E0 by apply Hf.
  subst. by apply mulh_arith.
Qed.
End High.
