(* ===== verification/DivArith.v ===== *)
(** * DivArith: what the assertions of the division sequences force

    For each division the conditions its sequence asserts on the advice, as
    arithmetic facts: they determine the quotient and the remainder
    (soundness), and the advice the tracer computes satisfies them. *)
From S2P Require Import Prelude Bits Cpu Instr Sequences ExecWf Exec64 SeqOps SeqArith SeqRun.

(** ** Uniqueness of division *)

Lemma quot_rem_unique a d v s :
  d <> 0 -> a = v * d + s -> Z.abs s < Z.abs d -> (0 <= a -> 0 <= s) -> (a < 0 -> s <= 0) ->
  v = Z.quot a d /\ s = Z.rem a d.
Proof.
  intros Hd Ha Hs Hp Hn. pose proof (Z.quot_rem a d Hd) as Hq. pose proof (Z.rem_bound_abs a d Hd) as Hr.
  assert (Hsg : (0 <= a -> 0 <= Z.rem a d) /\ (a < 0 -> Z.rem a d <= 0)).
  { split; intros; [by apply Z.rem_nonneg|apply Z.rem_nonpos; lia]. }
  set (q := Z.quot a d) in *. set (r := Z.rem a d) in *. clearbody q r.
  assert (Hk : (v - q) * d = r - s) by lia.
  assert (Hb : Z.abs (r - s) < Z.abs d) by lia.
  assert (v - q = 0).
  { destruct (decide (v - q = 0)); [done|]. exfalso.
    pose proof (Z.abs_mul (v - q) d). rewrite Hk in H. nia. }
  split; [lia|nia].
Qed.

Lemma div_unique_u A B Q : 0 < B -> Q * B <= A -> A - Q * B < B -> Q = A / B /\ A - Q * B = A mod B.
Proof.
  intros. assert (Q = A / B) as <- by (apply (Z.div_unique A B Q (A - Q * B)); lia).
  split; [done|]. apply (Z.mod_unique A B Q); lia.
Qed.

(** ** Representatives *)

Lemma s64_eq_u64 a b : in_s 64 a -> in_s 64 b -> as_u64 a = as_u64 b -> a = b.
Proof. intros. by apply (in_s_wrapu_inj 64). Qed.

Lemma as_i64_u64 a : in_s 64 a -> as_i64 (as_u64 a) = a.
Proof. intros. rewrite wraps_wrapu by lia. by apply wraps_small. Qed.

Lemma u64_of_product v b : as_u64 (as_i64 (v * b)) = as_u64 (as_u64 v * as_u64 b).
Proof. by rewrite wrapu_wraps, wrapu_mul_l, wrapu_mul_r by lia. Qed.
Lemma u64_of_difference a b : as_u64 (as_i64 (a - b)) = as_u64 (as_u64 a - as_u64 b).
Proof. by rewrite wrapu_wraps, wrapu_sub_l, wrapu_sub_r by lia. Qed.

Lemma u64_0 a : in_s 64 a -> (as_u64 a =? 0) = (a =? 0).
Proof.
  intros Ha. rewrite as_u64_of_s by done. unfold in_s in Ha.
  case_decide; [destruct (Z.eqb_spec (a + 2 ^ 64) 0), (Z.eqb_spec a 0); lia || done|done].
Qed.

(** ** Unsigned division *)

Section Unsigned.
(** Dividend, divisor and advised quotient, as unsigned words. *)
Context (A B Q : Z) (HA : in_u 64 A) (HB : in_u 64 B) (HQ : in_u 64 Q).

(** The overflow, order and remainder assertions. *)
Definition unsigned_checks : bool :=
  (Q * B <=? u64_MAX) && (as_u64 (Q * B) <=? A) &&
  ((B =? 0) || (as_u64 (A - as_u64 (Q * B)) <? B)).

Lemma unsigned_checks_spec :
  unsigned_checks = true <-> Q * B <= A /\ (B = 0 \/ A - Q * B < B).
Proof.
  pose proof HA as HA'. pose proof HB as HB'. pose proof HQ as HQ'.
  unfold unsigned_checks, u64_MAX; unfold in_u in HA', HB', HQ'.
  destruct (Z.leb_spec (Q * B) (2 ^ 64 - 1)) as [Hm|Hm]; cbn [andb]; [|split; [done|lia]].
  rewrite (wrapu_small 64 (Q * B)) by (unfold in_u; nia).
  destruct (Z.leb_spec (Q * B) A) as [Hl|Hl]; cbn [andb]; [|split; [done|lia]].
  rewrite (wrapu_small 64 (A - Q * B)) by (unfold in_u; nia).
  rewrite orb_true_iff, Z.eqb_eq, Z.ltb_lt. split; [done|]. by intros [_ ?].
Qed.

Lemma unsigned_checks_div : unsigned_checks = true -> B <> 0 ->
  Q = A / B /\ as_u64 (A - as_u64 (Q * B)) = A mod B.
Proof.
  rewrite unsigned_checks_spec. pose proof HA as HA'. pose proof HB as HB'. pose proof HQ as HQ'.
  unfold in_u in HA', HB', HQ'. intros [H1 [?|H2]] H0; [done|].
  destruct (div_unique_u A B Q) as [E1 E2]; [lia..|]. split; [done|].
  rewrite (wrapu_small 64 (Q * B)) by (unfold in_u; nia).
  rewrite wrapu_small; [done|]. unfold in_u. nia.
Qed.

Lemma unsigned_checks_0 : B = 0 -> unsigned_checks = true.
Proof.
  intros E. apply unsigned_checks_spec. pose proof HA as HA'. unfold in_u in HA'.
  rewrite E, Z.mul_0_r. lia.
Qed.

Lemma unsigned_checks_complete : B <> 0 -> Q = A / B -> unsigned_checks = true.
Proof.
  intros H0 E. apply unsigned_checks_spec. rewrite E. pose proof HB as HB'. unfold in_u in HB'.
  pose proof (Z_div_mod_eq_full A B). pose proof (Z.mod_pos_bound A B). lia.
Qed.
End Unsigned.

(** ** Signed division *)

(** The sign mask by an arithmetic shift. *)
Lemma shiftr_sign w a : 0 < w -> in_s w a -> Z.shiftr a (w - 1) = sign_mask a.
Proof.
  intros Hw Ha. pose proof (Z.shiftr_neg a (w - 1)) as Hn. unfold sign_mask.
  apply in_s_iff_shiftr in Ha as [E|E]; [..|done]; rewrite E in *; symmetry.
  - by rewrite (proj2 (Z.ltb_ge a 0)) by lia.
  - by rewrite (proj2 (Z.ltb_lt a 0)) by lia.
Qed.

(** [(v xor mask) - mask]: the value with the sign of the masked operand. *)
Definition negate_by (a v : Z) : Z := if a <? 0 then - v else v.
Lemma lxor_sub_mask v a : Z.lxor v (sign_mask a) - sign_mask a = negate_by a v.
Proof. rewrite lxor_mask. unfold sign_mask, negate_by. destruct (a <? 0); lia. Qed.
Lemma negate_by_abs a : negate_by a a = Z.abs a.
Proof. unfold negate_by. destruct (Z.ltb_spec a 0); lia. Qed.

(** The high half of a product is the sign of the low half exactly when the
    product does not overflow. *)
Lemma mulh_no_overflow v d : in_s 64 v -> in_s 64 d ->
  (mulh64 v d =? Z.shiftr (as_i64 (v * d)) 63) = true <-> in_s 64 (v * d).
Proof.
  intros Hv Hd. unfold mulh64.
  rewrite (wraps_small 128 ltac:(lia)) by (unfold in_s in *; cbn in *; nia).
  pose proof (shiftr_sign 64 (as_i64 (v * d)) ltac:(lia) (wraps_range 64 ltac:(lia) _)) as E.
  change (64 - 1) with 63 in E. rewrite E. clear E.
  rewrite Z.shiftr_div_pow2 by lia. rewrite (wraps_small 64 ltac:(lia) (_ / _)).
  2: { unfold in_s in *. cbn in *. split; [apply Z.div_le_lower_bound|apply Z.div_lt_upper_bound]; nia. }
  generalize (v * d). clear Hv Hd v d. intros P.
  pose proof (Z_div_mod_eq_full P (2 ^ 64)) as Hdm. pose proof (Z.mod_pos_bound P (2 ^ 64) ltac:(lia)) as Hb.
  pose proof (wraps_range 64 ltac:(lia) P) as Hr. destruct (wraps_shift 64 P) as [k Hk].
  rewrite Z.eqb_eq. split.
  - intros H. unfold sign_mask in H. destruct (Z.ltb_spec (as_i64 P) 0); unfold in_s in *; lia.
  - intros Hp. rewrite wraps_small by (lia || done). unfold sign_mask, in_s in *.
    destruct (Z.ltb_spec P 0); symmetry; [apply (Z.div_unique _ _ _ (P + 2 ^ 64))|apply (Z.div_unique _ _ _ P)]; lia.
Qed.

(** A signed sum that equals the dividend modulo the word does not overflow
    when the added remainder has the sign of the dividend. *)
Lemma signed_exact a p r :
  in_s 64 a -> in_s 64 p -> 0 <= r < 2 ^ 63 -> as_i64 (p + negate_by a r) = a ->
  p + negate_by a r = a.
Proof.
  intros Ha Hp Hr E. destruct (wraps_shift 64 (p + negate_by a r)) as [k Hk]. rewrite E in Hk.
  unfold in_s, negate_by in *. destruct (Z.ltb_spec a 0); lia.
Qed.

Lemma signed_division a d v r :
  d <> 0 -> 0 <= r < Z.abs d -> v * d + negate_by a r = a ->
  v = Z.quot a d /\ negate_by a r = Z.rem a d.
Proof.
  intros Hd Hr E. unfold negate_by in *. destruct (Z.ltb_spec a 0); apply quot_rem_unique; lia.
Qed.

Lemma negate_by_rem a d : d <> 0 -> negate_by a (Z.abs (Z.rem a d)) = Z.rem a d.
Proof.
  intros Hd. unfold negate_by. destruct (Z.ltb_spec a 0).
  - pose proof (Z.rem_nonpos a d Hd). lia.
  - pose proof (Z.rem_nonneg a d Hd). lia.
Qed.

Lemma as_u64_abs d : in_s 64 d -> as_u64 (as_i64 (negate_by d d)) = Z.abs d.
Proof.
  intros Hd. rewrite negate_by_abs, wrapu_wraps by lia. apply wrapu_small. unfold in_s, in_u in *. lia.
Qed.

(** The remainder assertion, on the magnitude of the divisor. *)
Definition remainder_check (r d m : Z) : bool :=
  let D := as_i64 (Z.lxor d m - m) in (as_u64 D =? 0) || (as_u64 r <? as_u64 D).

Lemma remainder_check_spec r d : in_s 64 r -> in_s 64 d ->
  remainder_check r d (sign_mask d) = true <-> d = 0 \/ 0 <= r < Z.abs d.
Proof.
  intros Hr Hd. unfold remainder_check. cbv zeta. rewrite lxor_sub_mask, as_u64_abs by done.
  rewrite orb_true_iff, Z.eqb_eq, Z.ltb_lt, as_u64_of_s by done. unfold in_s in *. case_decide; lia.
Qed.

(** *** 64-bit words *)
Definition signed_checks (a d v r : Z) : bool :=
  let m := Z.shiftr a 63 in
  (mulh64 v d =? Z.shiftr (as_i64 (v * d)) 63) &&
  (as_i64 (as_i64 (v * d) + as_i64 (Z.lxor r m - m)) =? a) &&
  remainder_check r d (Z.shiftr d 63).

Section Signed.
Context (a d v r : Z).
Context (Ha : in_s 64 a) (Hd : in_s 64 d) (Hv : in_s 64 v) (Hr : in_s 64 r).

Lemma signed_checks_spec :
  signed_checks a d v r = true <->
  in_s 64 (v * d) /\ as_i64 (v * d + negate_by a r) = a /\ (d = 0 \/ 0 <= r < Z.abs d).
Proof.
  unfold signed_checks. cbv zeta. rewrite !andb_true_iff, mulh_no_overflow by done.
  rewrite !(shiftr_sign 64) by (lia || done). rewrite remainder_check_spec by done.
  rewrite Z.eqb_eq, lxor_sub_mask, wraps_add_l, wraps_add_r by lia. tauto.
Qed.

Lemma signed_checks_sound : signed_checks a d v r = true -> d <> 0 ->
  v = Z.quot a d /\ as_i64 (negate_by a r) = Z.rem a d.
Proof.
  rewrite signed_checks_spec. intros (Hp & E & [?|Hlt]) H0; [done|].
  pose proof Hd as Hd'. pose proof Ha as Ha'. unfold in_s in Hd', Ha'.
  assert (E' : v * d + negate_by a r = a) by (apply signed_exact; [done|done|lia|done]).
  destruct (signed_division a d v r H0 Hlt E') as [E1 E2]. split; [done|].
  rewrite wraps_small; [done|lia|]. unfold in_s, negate_by. destruct (Z.ltb_spec a 0); lia.
Qed.

Lemma signed_checks_sound_0 : signed_checks a d v r = true -> d = 0 -> as_i64 (negate_by a r) = a.
Proof. rewrite signed_checks_spec. intros (_ & E & _) E0. by rewrite E0, Z.mul_0_r in E. Qed.

Lemma signed_checks_complete :
  d <> 0 -> v = Z.quot a d -> r = Z.abs (Z.rem a d) -> signed_checks a d v r = true.
Proof.
  intros H0 Ev Er. apply signed_checks_spec. pose proof (Z.quot_rem a d H0) as Hq.
  pose proof (Z.rem_bound_abs a d H0) as Hb. pose proof (negate_by_rem a d H0) as Hn.
  rewrite Er, Ev, Hn. split.
  - pose proof (Z.rem_nonneg a d H0). pose proof (Z.rem_nonpos a d H0).
    pose proof Ha as Ha'. unfold in_s in *. nia.
  - split; [|lia]. replace (Z.quot a d * d + Z.rem a d) with a by lia. by apply wraps_small.
Qed.

Lemma signed_checks_complete_0 : d = 0 -> r = as_i64 (Z.abs a) -> signed_checks a d v r = true.
Proof.
  intros H0 Er. apply signed_checks_spec. rewrite H0, Z.mul_0_r. split; [done|]. split; [|by left].
  cbn [Z.add]. rewrite Er. destruct (wraps_shift 64 (Z.abs a)) as [k ->]. unfold negate_by.
  rewrite <- (wraps_small 64 ltac:(lia) a) at 4 by done.
  destruct (Z.ltb_spec a 0); [apply (wraps_eq_mul 64 _ _ (- k))|apply (wraps_eq_mul 64 _ _ k)]; lia.
Qed.
End Signed.

(** *** 32-bit words, on 64-bit registers *)
Definition word_checks (a d v r : Z) : bool :=
  let m := Z.shiftr a 31 in
  (as_i32 v =? v) && (Z.shiftr r 31 =? 0) &&
  (as_i64 (as_i64 (v * d) + as_i64 (Z.lxor r m - m)) =? a) &&
  remainder_check r d (Z.shiftr d 31).

Section Word.
Context (a d v r : Z).
Context (Ha : in_s 32 a) (Hd : in_s 32 d) (Hv : in_s 64 v) (Hr : in_s 64 r).

Lemma as_i32_fixed z : (as_i32 z =? z) = true <-> in_s 32 z.
Proof.
  rewrite Z.eqb_eq. split; [intros <-; apply wraps_range; lia|]. by apply wraps_small.
Qed.
Lemma shiftr_31_0 z : (Z.shiftr z 31 =? 0) = true <-> 0 <= z < 2 ^ 31.
Proof.
  rewrite Z.eqb_eq, Z.shiftr_div_pow2 by lia. split; [|apply Z.div_small].
  intros H. pose proof (Z_div_mod_eq_full z (2 ^ 31)). pose proof (Z.mod_pos_bound z (2 ^ 31)). lia.
Qed.

Lemma word_checks_spec :
  word_checks a d v r = true <->
  in_s 32 v /\ 0 <= r < 2 ^ 31 /\ v * d + negate_by a r = a /\ (d = 0 \/ 0 <= r < Z.abs d).
Proof.
  unfold word_checks. cbv zeta. rewrite !andb_true_iff, as_i32_fixed, shiftr_31_0.
  rewrite !(shiftr_sign 32) by (lia || done).
  rewrite remainder_check_spec by (done || by apply (in_s_mono 32)).
  rewrite Z.eqb_eq, lxor_sub_mask, wraps_add_l, wraps_add_r by lia.
  assert (Heq : in_s 32 v -> 0 <= r < 2 ^ 31 ->
    as_i64 (v * d + negate_by a r) = v * d + negate_by a r).
  { intros Hv' Hr'. pose proof Hd as Hd'. apply wraps_small; [lia|].
    unfold in_s, negate_by in *. cbn in *. destruct (Z.ltb_spec a 0); nia. }
  split.
  - intros [[[H1 H2] H3] H4]. rewrite Heq in H3 by done. done.
  - intros (H1 & H2 & H3 & H4). rewrite Heq by done. done.
Qed.

Lemma word_checks_sound : word_checks a d v r = true -> d <> 0 ->
  v = Z.quot a d /\ as_i64 (negate_by a r) = Z.rem a d.
Proof.
  rewrite word_checks_spec. intros (_ & Hr' & E & [?|Hlt]) H0; [done|].
  destruct (signed_division a d v r H0 Hlt E) as [E1 E2]. split; [done|].
  rewrite wraps_small; [done|lia|]. unfold in_s, negate_by. destruct (Z.ltb_spec a 0); lia.
Qed.

Lemma word_checks_sound_0 : word_checks a d v r = true -> d = 0 ->
  as_i64 (negate_by a r) = a /\ - 2 ^ 31 < a.
Proof.
  rewrite word_checks_spec. intros (_ & Hr' & E & _) E0. rewrite E0, Z.mul_0_r, Z.add_0_l in E.
  split; [|unfold negate_by in E; destruct (Z.ltb_spec a 0); lia].
  rewrite E. apply wraps_small; [lia|]. by apply (in_s_mono 32).
Qed.

Lemma word_checks_complete :
  d <> 0 -> v = Z.quot a d -> r = Z.abs (Z.rem a d) -> in_s 32 (Z.quot a d) ->
  word_checks a d v r = true.
Proof.
  intros H0 Ev Er Hq. apply word_checks_spec. pose proof (Z.quot_rem a d H0) as Hqr.
  pose proof (Z.rem_bound_abs a d H0) as Hb. pose proof (negate_by_rem a d H0) as Hn.
  rewrite Er, Ev, Hn. split; [done|]. pose proof Hd as Hd'. unfold in_s in Hd'.
  split; [lia|]. split; lia.
Qed.

Lemma word_checks_complete_0 :
  d = 0 -> in_s 32 v -> r = Z.abs a -> - 2 ^ 31 < a -> word_checks a d v r = true.
Proof.
  intros H0 Hv' Er Hm. apply word_checks_spec. pose proof Ha as Ha'. unfold in_s in Ha'.
  rewrite H0, Er, Z.mul_0_r. split; [done|]. split; [lia|]. split; [|by left].
  unfold negate_by. destruct (Z.ltb_spec a 0); lia.
Qed.
End Word.
