(* ===== verification/DivRun.v ===== *)
(** * DivRun: the division programs, for every advice

    A division program either panics on an assertion or writes its result: it
    runs to the end exactly when the checks of [DivArith] hold of its advice,
    and then performs the write of [result64]. *)
From S2P Require Import Prelude Bits Registers AdviceTape Cpu Formats Instr Assembler.
From S2P Require Import Sequences Trace ExecWf Exec64 SeqOps SeqArith SeqRun DivArith.

(** The program runs to the end iff [check], then writes [v] to [rd]. *)
Definition guarded (ops : list Op) (f : regs) (check : bool) (rd : nat) (v : Z) : Prop :=
  match run64 ops f with
  | Some f' => check = true /\ agree f' (upd f rd v)
  | None => check = false
  end.

Lemma srai_value a s : 0 <= s < 64 ->
  wrapping_shr a (trailing_zeros_64 (as_u64 (bitmask_imm s 64))) = Z.shiftr a s.
Proof.
  intros Hs. rewrite trailing_zeros_bitmask_imm by done. unfold wrapping_shr. by rewrite Z.mod_small.
Qed.

Ltac split_asserts :=
  repeat match goal with
  | |- match (if ?b then _ else _) with _ => _ end =>
      let C := fresh "C" in destruct b eqn:C
  end.

Lemma add_0_imm v : in_s 64 v -> as_i64 (v + as_i64 0) = v.
Proof. intros. change (as_i64 0) with 0. rewrite Z.add_0_r. by apply wraps_small. Qed.
Lemma u64_u32 v : as_u64 (as_u32 v) = as_u32 v.
Proof. apply wrapu_small. pose proof (wrapu_range 32 ltac:(lia) v). unfold in_u in *. lia. Qed.
(** The assertion on a zero divisor. *)
Definition div0_check (b q : Z) : bool := if b =? 0 then as_u64 q =? u64_MAX else true.
(** The divisor and the signed remainder of the signed sequences. *)
Definition changed_divisor (a b : Z) : Z := if (a =? - 2 ^ 63) && (b =? -1) then 1 else b.
Definition signed_remainder (a r : Z) : Z :=
  as_i64 (Z.lxor r (Z.shiftr a 63) - Z.shiftr a 63).
Lemma changed_divisor_range x y : in_s 64 y -> in_s 64 (changed_divisor x y).
Proof. intros. unfold changed_divisor. by destruct (_ && _). Qed.
Definition changed_divisor_w (a b : Z) : Z := if (a =? - 2 ^ 31) && (b =? -1) then 1 else b.
Definition signed_remainder_w (a r : Z) : Z :=
  as_i64 (Z.lxor r (Z.shiftr a 31) - Z.shiftr a 31).

Section Programs.
Context (f : regs) (rd rs1 rs2 : nat).
Context (Hf : forall r, in_s 64 (f r)) (Hzero : f 0%nat = 0).
Context (Hrd : ~ instruction_reg rd) (Hrs1 : ~ instruction_reg rs1) (Hrs2 : ~ instruction_reg rs2)
  (H0 : rd <> 0%nat).
Abbreviation a := (f rs1).
Abbreviation b := (f rs2).

#[local] Ltac run :=
  unfold instruction_reg in Hrd, Hrs1, Hrs2; unfold guarded;
  unfold DIVU_ops, REMU_ops, DIVUW_ops, REMUW_ops, DIVW_ops, REMW_ops, DIVW_prefix,
    DIV_ops, REM_ops, DIV_prefix, MULH_ops; cbn [app Nat.add];
  repeat first [run_write | run_assert]; cbn [run64].

#[local] Ltac finish :=
  split_asserts; try reflexivity; split; [reflexivity|final_agree].

(** *** Unsigned *)
Definition divu_check (q : Z) : bool :=
  div0_check b (as_i64 q) && unsigned_checks (as_u64 a) (as_u64 b) (as_u64 (as_i64 q)).

Lemma DIVU_guarded q : guarded (DIVU_ops rd rs1 rs2 q) f (divu_check q) rd (as_i64 q).
Proof.
  run. subst. rewrite !u64_of_difference, !u64_of_product.
  unfold divu_check, div0_check, unsigned_checks. finish.
  apply add_0_imm, in_s_i64.
Qed.

Definition remu_check (q : Z) : bool :=
  unsigned_checks (as_u64 a) (as_u64 b) (as_u64 (as_i64 q)).
Lemma REMU_guarded q :
  guarded (REMU_ops rd rs1 rs2 q) f (remu_check q) rd (as_i64 (a - as_i64 (as_i64 q * b))).
Proof.
  run. subst. rewrite !u64_of_difference, !u64_of_product.
  unfold remu_check, unsigned_checks. finish.
  apply add_0_imm, in_s_i64.
Qed.

Definition remuw_check (q : Z) : bool :=
  unsigned_checks (as_u32 a) (as_u32 b) (as_u64 (as_i64 q)).
Definition divuw_check (q : Z) : bool :=
  remuw_check q && div0_check (as_u32 b) (as_i32 (as_i64 q)).
Lemma DIVUW_guarded q :
  guarded (DIVUW_ops rd rs1 rs2 q) f (divuw_check q) rd (as_i32 (as_i64 q)).
Proof.
  run. subst. rewrite !zext_word, !sext_word, !u64_of_difference, !u64_of_product, !u64_u32.
  unfold divuw_check, remuw_check, div0_check, unsigned_checks. finish.
  apply add_0_imm, in_s_i32.
Qed.
Lemma REMUW_guarded q :
  guarded (REMUW_ops rd rs1 rs2 q) f (remuw_check q) rd
    (as_i32 (as_i64 (as_u32 a - as_i64 (as_i64 q * as_u32 b)))).
Proof.
  run. subst. rewrite !zext_word, !sext_word, !u64_of_difference, !u64_of_product, !u64_u32.
  unfold remuw_check, unsigned_checks. finish. reflexivity.
Qed.

(** *** Signed *)
Definition div_check (q r : Z) : bool :=
  div0_check b (as_i64 q) && signed_checks a (changed_divisor a b) (as_i64 q) (as_i64 r).

(** The [MULH] inside a signed division. *)
#[local] Ltac fold_mulh v d :=
  match goal with
  | E2 : ?m1 = (if negb (Z.land (as_u64 v) _ =? 0) then _ else _),
    E3 : ?m2 = (if negb (Z.land (as_u64 d) _ =? 0) then _ else _),
    E4 : ?p1 = as_i64 (?m1 * d), E5 : ?p2 = as_i64 (?m2 * v),
    E6 : ?h = as_i64 (Z.shiftr _ 64), E7 : ?h1 = as_i64 (?h + ?p1), E8 : ?h2 = as_i64 (?h1 + ?p2) |- _ =>
      assert (h2 = mulh64 v d) as ->;
      [ rewrite movsign_mask in E2 by assumption; rewrite movsign_mask in E3 by assumption;
        rewrite E8, E7, E6, E5, E4, E3, E2; by apply mulh_arith
      | clear E2 E3 E4 E5 E6 E7 E8 ]
  end.

#[local] Ltac run_signed :=
  run;
  match goal with
  | E0 : ?v = as_i64 _, E1 : ?d = (if _ && _ then 1 else _) |- _ =>
      assert (in_s 64 v) by (rewrite E0; apply in_s_i64);
      assert (in_s 64 d) by (rewrite E1; by apply changed_divisor_range);
      fold_mulh v d
  end;
  repeat match goal with
  | E : _ = wrapping_shr _ (trailing_zeros_64 _) |- _ => rewrite srai_value in E by lia
  end;
  change (0 =? 0) with true; cbn iota; subst;
  unfold div_check, signed_checks, remainder_check, div0_check, signed_remainder, changed_divisor.

Lemma DIV_guarded q r : guarded (DIV_ops rd rs1 rs2 q r) f (div_check q r) rd (as_i64 q).
Proof. run_signed. finish. apply add_0_imm, in_s_i64. Qed.
Lemma REM_guarded q r :
  guarded (REM_ops rd rs1 rs2 q r) f (div_check q r) rd (signed_remainder a (as_i64 r)).
Proof. run_signed. finish. apply add_0_imm, in_s_i64. Qed.

(** *** Signed words *)
Definition divw_check (q r : Z) : bool :=
  div0_check (as_i32 b) (as_i64 q) &&
  word_checks (as_i32 a) (changed_divisor_w (as_i32 a) (as_i32 b)) (as_i64 q) (as_i64 r).

#[local] Ltac run_word :=
  run;
  repeat match goal with
  | E : _ = wrapping_shr _ (trailing_zeros_64 _) |- _ => rewrite srai_value in E by lia
  | E : _ = Z.shiftr (as_i64 (Z.shiftl _ 32)) 32 |- _ => rewrite sext_word in E
  end;
  change (0 =? 0) with true; cbn iota; rewrite ?Hzero; subst; rewrite ?(wraps_wraps 32) by lia;
  unfold divw_check, word_checks, remainder_check, div0_check, signed_remainder_w, changed_divisor_w.

Lemma DIVW_guarded q r :
  guarded (DIVW_ops rd rs1 rs2 q r) f (divw_check q r) rd (as_i32 (as_i64 q)).
Proof. run_word. finish. reflexivity. Qed.
Lemma REMW_guarded q r :
  guarded (REMW_ops rd rs1 rs2 q r) f (divw_check q r) rd
    (as_i32 (signed_remainder_w (as_i32 a) (as_i64 r))).
Proof. run_word. finish. reflexivity. Qed.
End Programs.
