(* ===== verification/DivSound.v ===== *)
(** * DivSound: the checks of the division programs decide the result

    Soundness: whatever the advice, if the checks hold the written value is
    the one [exec] computes.  Completeness: the advice of the overriding
    [trace]s passes the checks, but for the word divisions of the least
    dividend by zero. *)
From S2P Require Import Prelude Bits Registers AdviceTape Cpu Formats Instr Assembler.
From S2P Require Import Sequences Trace ExecWf Exec64 SeqOps SeqArith SeqRun DivArith DivRun.

Lemma div0_check_0 b v : in_s 64 v -> b = 0 -> div0_check b v = true -> v = -1.
Proof.
  intros Hv ->. unfold div0_check. rewrite Z.eqb_refl, Z.eqb_eq. intros H.
  by apply (s64_eq_u64 v (-1)).
Qed.
Lemma div0_check_ne b v : b <> 0 -> div0_check b v = true.
Proof. intros H. unfold div0_check. by rewrite (proj2 (Z.eqb_neq _ _)). Qed.

Lemma as_u64_as_i64 q : in_u 64 q -> as_u64 (as_i64 q) = q.
Proof. intros. rewrite wrapu_wraps by lia. by apply wrapu_small. Qed.

Lemma quot_range w a b : 0 < w -> in_s w a -> in_s w b -> b <> 0 ->
  ~ (a = - 2 ^ (w - 1) /\ b = -1) -> in_s w (Z.quot a b).
Proof.
  intros Hw Ha Hb H0 Hov. unfold in_s in *. pose proof (Z.quot_rem a b H0).
  pose proof (Z.rem_bound_abs a b H0). pose proof (Z.rem_nonneg a b H0). pose proof (Z.rem_nonpos a b H0).
  set (m := 2 ^ (w - 1)) in *. set (q := Z.quot a b) in *. set (r := Z.rem a b) in *. clearbody q r m.
  destruct (decide (b = -1)) as [->|]; [lia|]. destruct (decide (b = 1)) as [->|]; [lia|]. nia.
Qed.

Section Soundness.
Context (a b : Z) (Ha : in_s 64 a) (Hb : in_s 64 b).
Let Hua : in_u 64 (as_u64 a) := wrapu_range 64 ltac:(lia) a.
Let Hub : in_u 64 (as_u64 b) := wrapu_range 64 ltac:(lia) b.
Let Hu64 q : in_u 64 (as_u64 q) := wrapu_range 64 ltac:(lia) q.

Lemma in_u_64_32 z : in_u 64 (as_u32 z).
Proof. pose proof (wrapu_range 32 ltac:(lia) z). unfold in_u in *. lia. Qed.

Lemma divu_sound q :
  div0_check b (as_i64 q) && unsigned_checks (as_u64 a) (as_u64 b) (as_u64 (as_i64 q)) = true ->
  as_i64 q = divu64 a b.
Proof.
  rewrite andb_true_iff. intros [Hz Hc]. unfold divu64. rewrite u64_0 by done.
  destruct (Z.eqb_spec b 0) as [E|E].
  - apply (div0_check_0 b); [apply in_s_i64|done|done].
  - apply unsigned_checks_div in Hc as [Hq _]; try apply Hu64.
    + rewrite <- Hq. rewrite wrapu_wraps by lia. by rewrite wraps_wrapu by lia.
    + apply Z.eqb_neq. rewrite u64_0 by done. by apply Z.eqb_neq.
Qed.

Lemma unsigned_difference q :
  as_i64 (a - as_i64 (as_i64 q * b)) =
  as_i64 (as_u64 (as_u64 a - as_u64 (as_u64 (as_i64 q) * as_u64 b))).
Proof.
  rewrite <- u64_of_product, <- u64_of_difference. rewrite as_i64_u64; [done|]. apply in_s_i64.
Qed.

Lemma remu_sound q :
  unsigned_checks (as_u64 a) (as_u64 b) (as_u64 (as_i64 q)) = true ->
  as_i64 (a - as_i64 (as_i64 q * b)) = remu64 a b.
Proof.
  intros Hc. rewrite unsigned_difference. unfold remu64. destruct (Z.eqb_spec (as_u64 b) 0) as [E|E].
  - rewrite E, Z.mul_0_r. change (as_u64 0) with 0. by rewrite Z.sub_0_r, wrapu_wrapu by lia.
  - apply unsigned_checks_div in Hc as [_ Hr]; try apply Hu64; [|done]. by rewrite Hr.
Qed.

Lemma word_difference q :
  as_i32 (as_i64 (as_u32 a - as_i64 (as_i64 q * as_u32 b))) =
  as_i32 (as_u64 (as_u32 a - as_u64 (as_u64 (as_i64 q) * as_u32 b))).
Proof.
  rewrite wraps_narrow_s, wraps_narrow by lia. apply wraps_eqm; [lia|].
  rewrite <- (wrapu_sub_r 32 _ (as_i64 _)), <- (wrapu_sub_r 32 _ (as_u64 _)).
  rewrite wrapu_narrow_s, wrapu_narrow by lia. do 2 f_equal.
  rewrite <- (wrapu_mul_l 32 (as_u64 _)). rewrite wrapu_narrow by lia. by rewrite wrapu_mul_l.
Qed.

Lemma divuw_sound q :
  unsigned_checks (as_u32 a) (as_u32 b) (as_u64 (as_i64 q)) &&
  div0_check (as_u32 b) (as_i32 (as_i64 q)) = true ->
  as_i32 (as_i64 q) = divuw64 a b.
Proof.
  rewrite andb_true_iff. intros [Hc Hz]. unfold divuw64. destruct (Z.eqb_spec (as_u32 b) 0) as [E|E].
  - change (as_i32 u32_MAX) with (-1). apply (div0_check_0 (as_u32 b)); [apply in_s_i32|done|done].
  - apply unsigned_checks_div in Hc as [Hq _]; try apply Hu64; try apply in_u_64_32; [|done].
    rewrite <- Hq. by rewrite wraps_narrow by lia.
Qed.
Lemma remuw_sound q :
  unsigned_checks (as_u32 a) (as_u32 b) (as_u64 (as_i64 q)) = true ->
  as_i32 (as_i64 (as_u32 a - as_i64 (as_i64 q * as_u32 b))) = remuw64 a b.
Proof.
  intros Hc. rewrite word_difference. unfold remuw64. destruct (Z.eqb_spec (as_u32 b) 0) as [E|E].
  - rewrite E, Z.mul_0_r. change (as_u64 0) with 0. by rewrite Z.sub_0_r, u64_u32.
  - apply unsigned_checks_div in Hc as [_ Hr]; try apply Hu64; try apply in_u_64_32; [|done].
    by rewrite Hr.
Qed.

(** *** Signed *)
Lemma changed_divisor_0 : changed_divisor a b = 0 <-> b = 0.
Proof. unfold changed_divisor. destruct (_ && _) eqn:E; [|done]. apply andb_true_iff in E. lia. Qed.

Lemma signed_remainder_negate x r : in_s 64 x -> signed_remainder x r = as_i64 (negate_by x r).
Proof.
  intros Hx. unfold signed_remainder. pose proof (shiftr_sign 64 x ltac:(lia) Hx) as E.
  change (64 - 1) with 63 in E. by rewrite E, lxor_sub_mask.
Qed.

Lemma div_sound q r :
  div0_check b (as_i64 q) && signed_checks a (changed_divisor a b) (as_i64 q) (as_i64 r) = true ->
  as_i64 q = div64 a b.
Proof.
  rewrite andb_true_iff. intros [Hz Hc]. unfold div64. destruct (Z.eqb_spec b 0) as [E|E].
  - apply (div0_check_0 b); [apply in_s_i64|done|done].
  - apply signed_checks_sound in Hc as [Hq _]; try apply in_s_i64; try done.
    + rewrite Hq. unfold changed_divisor. destruct (_ && _) eqn:Ho; [by rewrite Z.quot_1_r|].
      symmetry. apply wraps_small; [lia|]. apply quot_range; try done.
      apply andb_false_iff in Ho. change (64 - 1) with 63. lia.
    + by apply changed_divisor_range.
    + by rewrite changed_divisor_0.
Qed.

Lemma rem_sound q r :
  div0_check b (as_i64 q) && signed_checks a (changed_divisor a b) (as_i64 q) (as_i64 r) = true ->
  signed_remainder a (as_i64 r) = rem64 a b.
Proof.
  rewrite andb_true_iff. intros [Hz Hc]. rewrite signed_remainder_negate by done. unfold rem64.
  destruct (Z.eqb_spec b 0) as [E|E].
  - apply signed_checks_sound_0 in Hc; [done|done|..]; try apply in_s_i64.
    + by apply changed_divisor_range.
    + by apply changed_divisor_0.
  - apply signed_checks_sound in Hc as [_ Hr]; try apply in_s_i64; try done.
    + rewrite Hr. unfold changed_divisor. destruct (_ && _) eqn:Ho; [by rewrite Z.rem_1_r|].
      symmetry. apply wraps_small; [lia|].
      pose proof (Z.rem_bound_abs a b E). unfold in_s in *. lia.
    + by apply changed_divisor_range.
    + by rewrite changed_divisor_0.
Qed.

(** *** Signed words *)
Let x := as_i32 a.
Let y := as_i32 b.
Let Hx : in_s 32 x := wraps_range 32 ltac:(lia) a.
Let Hy : in_s 32 y := wraps_range 32 ltac:(lia) b.

Lemma changed_divisor_w_0 u v : changed_divisor_w u v = 0 <-> v = 0.
Proof. unfold changed_divisor_w. destruct (_ && _) eqn:E; [|done]. apply andb_true_iff in E. lia. Qed.
Lemma changed_divisor_w_range u v : in_s 32 v -> in_s 32 (changed_divisor_w u v).
Proof. intros. unfold changed_divisor_w. by destruct (_ && _). Qed.
Lemma signed_remainder_w_negate u r : in_s 32 u -> signed_remainder_w u r = as_i64 (negate_by u r).
Proof.
  intros Hu. unfold signed_remainder_w. pose proof (shiftr_sign 32 u ltac:(lia) Hu) as E.
  change (32 - 1) with 31 in E. by rewrite E, lxor_sub_mask.
Qed.

Definition divw_conditions (q r : Z) : bool :=
  div0_check y (as_i64 q) && word_checks x (changed_divisor_w x y) (as_i64 q) (as_i64 r).

Lemma divw_sound q r : divw_conditions q r = true -> as_i32 (as_i64 q) = divw64 a b.
Proof.
  unfold divw_conditions. rewrite andb_true_iff. intros [Hz Hc]. unfold divw64. fold x y.
  destruct (Z.eqb_spec y 0) as [E|E].
  - rewrite (div0_check_0 y (as_i64 q)); [reflexivity|apply in_s_i64|done|done].
  - pose proof (word_checks_sound x (changed_divisor_w x y) (as_i64 q) (as_i64 r) Hx
      (changed_divisor_w_range _ _ Hy) (in_s_i64 _) (in_s_i64 _) Hc) as [Hq _];
      [by rewrite changed_divisor_w_0|].
    rewrite Hq. unfold changed_divisor_w. destruct (_ && _) eqn:Ho; [|done].
    rewrite Z.quot_1_r. by apply wraps_small.
Qed.

Lemma remw_sound q r :
  divw_conditions q r = true -> as_i32 (signed_remainder_w x (as_i64 r)) = remw64 a b.
Proof.
  unfold divw_conditions. rewrite andb_true_iff. intros [Hz Hc].
  rewrite signed_remainder_w_negate by done. unfold remw64. fold x y.
  destruct (Z.eqb_spec y 0) as [E|E].
  - pose proof (word_checks_sound_0 x (changed_divisor_w x y) (as_i64 q) (as_i64 r) Hx
      (changed_divisor_w_range _ _ Hy) (in_s_i64 _) (in_s_i64 _) Hc) as [Hr _];
      [by rewrite changed_divisor_w_0|].
    rewrite Hr. by apply wraps_small.
  - pose proof (word_checks_sound x (changed_divisor_w x y) (as_i64 q) (as_i64 r) Hx
      (changed_divisor_w_range _ _ Hy) (in_s_i64 _) (in_s_i64 _) Hc) as [_ Hr];
      [by rewrite changed_divisor_w_0|].
    rewrite Hr. unfold changed_divisor_w. destruct (_ && _) eqn:Ho; [|done].
    by rewrite Z.rem_1_r.
Qed.

(** The least dividend divided by zero: no advice passes. *)
Lemma divw_min_0_rejected q r : x = - 2 ^ 31 -> y = 0 -> divw_conditions q r = false.
Proof.
  intros Ex Ey. destruct (divw_conditions q r) eqn:E; [|done]. exfalso.
  unfold divw_conditions in E. apply andb_true_iff in E as [_ Hc].
  pose proof (word_checks_sound_0 x (changed_divisor_w x y) (as_i64 q) (as_i64 r) Hx
    (changed_divisor_w_range _ _ Hy) (in_s_i64 _) (in_s_i64 _) Hc) as [_ Hr];
    [by rewrite changed_divisor_w_0|]. lia.
Qed.
End Soundness.

(** ** Completeness: the advice of the tracer *)
Definition div_advice64 (a b : Z) : Z * Z :=
  if b =? 0 then (u64_MAX, Z.abs a)
  else if (a =? - 2 ^ 63) && (b =? -1) then (as_u64 a, 0)
  else (as_u64 (Z.quot a b), Z.abs (Z.rem a b)).
Definition divu_advice64 (a b : Z) : Z :=
  if as_u64 b =? 0 then u64_MAX else as_u64 a / as_u64 b.
Definition divw_advice64 (a b : Z) : Z * Z :=
  let x := as_i32 a in
  let y := as_i32 b in
  if y =? 0 then (as_u64 (-1), Z.abs x)
  else if (y =? -1) && (x =? - 2 ^ 31) then (as_u64 (- 2 ^ 31), 0)
  else (as_u64 (Z.quot x y), Z.abs (Z.rem x y)).
Definition divuw_advice64 (a b : Z) : Z :=
  if as_u32 b =? 0 then u32_MAX else as_u32 a / as_u32 b.

Section Completeness.
Context (a b : Z) (Ha : in_s 64 a) (Hb : in_s 64 b).

Lemma u_div_range w m n : 0 < w -> in_u w m -> in_u w n -> n <> 0 -> in_u w (m / n).
Proof.
  unfold in_u. intros Hw Hm Hn H0. split; [apply Z.div_pos; lia|].
  apply Z.div_lt_upper_bound; [lia|]. pose proof (pow2_pos w). nia.
Qed.

Lemma remu_complete :
  unsigned_checks (as_u64 a) (as_u64 b) (as_u64 (as_i64 (divu_advice64 a b))) = true.
Proof.
  pose proof (wrapu_range 64 ltac:(lia) a) as Hua. pose proof (wrapu_range 64 ltac:(lia) b) as Hub.
  unfold divu_advice64. destruct (Z.eqb_spec (as_u64 b) 0) as [E|E].
  - apply unsigned_checks_0; try done.
  - rewrite as_u64_as_i64 by (by apply u_div_range).
    apply unsigned_checks_complete; try done. by apply u_div_range.
Qed.
Lemma divu_complete :
  div0_check b (as_i64 (divu_advice64 a b)) &&
  unsigned_checks (as_u64 a) (as_u64 b) (as_u64 (as_i64 (divu_advice64 a b))) = true.
Proof.
  rewrite remu_complete, andb_true_r. unfold divu_advice64. rewrite u64_0 by done.
  unfold div0_check. by destruct (b =? 0).
Qed.

Lemma remuw_complete :
  unsigned_checks (as_u32 a) (as_u32 b) (as_u64 (as_i64 (divuw_advice64 a b))) = true.
Proof.
  pose proof (wrapu_range 32 ltac:(lia) a) as Hua. pose proof (wrapu_range 32 ltac:(lia) b) as Hub.
  unfold divuw_advice64. destruct (Z.eqb_spec (as_u32 b) 0) as [E|E].
  - apply unsigned_checks_0; try done; apply in_u_64_32.
  - pose proof (u_div_range 32 _ _ ltac:(lia) Hua Hub E) as Hq.
    assert (in_u 64 (as_u32 a / as_u32 b)) by (unfold in_u in *; lia).
    rewrite as_u64_as_i64 by done. apply unsigned_checks_complete; try done; apply in_u_64_32.
Qed.
Lemma divuw_complete :
  unsigned_checks (as_u32 a) (as_u32 b) (as_u64 (as_i64 (divuw_advice64 a b))) &&
  div0_check (as_u32 b) (as_i32 (as_i64 (divuw_advice64 a b))) = true.
Proof.
  rewrite remuw_complete. unfold divuw_advice64, div0_check. by destruct (as_u32 b =? 0).
Qed.

Lemma div_complete (adv := div_advice64 a b) :
  div0_check b (as_i64 (fst adv)) &&
  signed_checks a (changed_divisor a b) (as_i64 (fst adv)) (as_i64 (snd adv)) = true.
Proof.
  subst adv. unfold div_advice64. destruct (Z.eqb_spec b 0) as [E|E]; cbn [fst snd].
  { subst b. change (div0_check 0 (as_i64 u64_MAX)) with true. cbn [andb].
    assert (Hd : changed_divisor a 0 = 0) by (unfold changed_divisor; by rewrite andb_false_r).
    rewrite Hd. by apply signed_checks_complete_0; try apply in_s_i64. }
  rewrite div0_check_ne, andb_true_l by done. unfold changed_divisor. destruct (_ && _) eqn:Ho; cbn [fst snd andb].
  - rewrite as_i64_u64 by done.
    apply (signed_checks_complete a 1); try done; by rewrite ?Z.quot_1_r, ?Z.rem_1_r.
  - assert (Hq : in_s 64 (Z.quot a b)).
    { apply quot_range; try done. apply andb_false_iff in Ho. change (64 - 1) with 63. lia. }
    assert (Hr : in_s 64 (Z.abs (Z.rem a b))).
    { pose proof (Z.rem_bound_abs a b E). unfold in_s in *. lia. }
    rewrite as_i64_u64 by done. rewrite (wraps_small 64 ltac:(lia) _ Hr).
    by apply signed_checks_complete.
Qed.

Lemma divw_complete (adv := divw_advice64 a b) :
  ~ (as_i32 a = - 2 ^ 31 /\ as_i32 b = 0) ->
  divw_conditions a b (fst adv) (snd adv) = true.
Proof.
  intros Hmin. subst adv. unfold divw_conditions, divw_advice64. cbv zeta.
  pose proof (wraps_range 32 ltac:(lia) a) as Hx. pose proof (wraps_range 32 ltac:(lia) b) as Hy.
  set (x := as_i32 a) in *. set (y := as_i32 b) in *. clearbody x y.
  destruct (Z.eqb_spec y 0) as [E|E]; cbn [fst snd].
  { subst y. change (div0_check 0 (as_i64 (as_u64 (-1)))) with true. cbn [andb].
    unfold changed_divisor_w. rewrite andb_false_r.
    rewrite (wraps_small 64 ltac:(lia) (Z.abs x)) by (unfold in_s in *; lia).
    apply (word_checks_complete_0 x); try done; unfold in_s in *; lia. }
  rewrite div0_check_ne, andb_true_l by done. unfold changed_divisor_w. rewrite (andb_comm (x =? _)).
  destruct (_ && _) eqn:Ho; cbn [fst snd andb].
  - apply andb_true_iff in Ho as [_ ->%Z.eqb_eq]. reflexivity.
  - assert (Hq : in_s 32 (Z.quot x y)).
    { apply quot_range; try done. apply andb_false_iff in Ho. change (32 - 1) with 31. lia. }
    assert (Hr : in_s 64 (Z.abs (Z.rem x y))).
    { pose proof (Z.rem_bound_abs x y E). unfold in_s in *. lia. }
    rewrite as_i64_u64 by (by apply (in_s_mono 32)). rewrite (wraps_small 64 ltac:(lia) _ Hr).
    apply word_checks_complete; try done. by apply (in_s_mono 32).
Qed.
End Completeness.
