(* ===== verification/TraceCorrect.v ===== *)
(** * TraceCorrect: the virtual sequences implement the instructions

    The emulator proves an instruction by running its virtual sequence
    ([trace]); [execute] is the reference semantics.  On the 64-bit machine
    with free temporaries the two reach the same architectural state. *)
From S2P Require Import Prelude Bits Registers AdviceTape Mmu MmuSpec Cpu Formats Instr Assembler.
From S2P Require Import Sequences Trace ExecWf Exec64 SeqOps SeqArith SeqRun DivArith DivRun.
From S2P Require Import DivSound.

(** ** The program a macro instruction runs *)

Definition macro_ops (f : regs) (op : Op) : list Op :=
  match op with
  | SLL o => SLL_ops (R_rd o) (R_rs1 o) (R_rs2 o)
  | SLLI o => SLLI_ops (I_rd o) (I_rs1 o) (I_imm o)
  | SRL o => SRL_ops (R_rd o) (R_rs1 o) (R_rs2 o)
  | SRLI o => SRLI_ops (I_rd o) (I_rs1 o) (I_imm o)
  | SRA o => SRA_ops (R_rd o) (R_rs1 o) (R_rs2 o)
  | SRAI o => SRAI_ops (I_rd o) (I_rs1 o) (I_imm o)
  | ADDW o => ADDW_ops (R_rd o) (R_rs1 o) (R_rs2 o)
  | ADDIW o => ADDIW_ops (I_rd o) (I_rs1 o) (I_imm o)
  | SUBW o => SUBW_ops (R_rd o) (R_rs1 o) (R_rs2 o)
  | MULW o => MULW_ops (R_rd o) (R_rs1 o) (R_rs2 o)
  | SLLW o => SLLW_ops (R_rd o) (R_rs1 o) (R_rs2 o)
  | SLLIW o => SLLIW_ops (I_rd o) (I_rs1 o) (I_imm o)
  | SRLW o => SRLW_ops (R_rd o) (R_rs1 o) (R_rs2 o)
  | SRLIW o => SRLIW_ops (I_rd o) (I_rs1 o) (I_imm o)
  | SRAW o => SRAW_ops (R_rd o) (R_rs1 o) (R_rs2 o)
  | SRAIW o => SRAIW_ops (I_rd o) (I_rs1 o) (I_imm o)
  | MULH o => MULH_ops 40 (R_rd o) (R_rs1 o) (R_rs2 o)
  | MULHSU o => MULHSU_ops (R_rd o) (R_rs1 o) (R_rs2 o)
  | DIV o => let adv := div_advice64 (f (R_rs1 o)) (f (R_rs2 o)) in
      DIV_ops (R_rd o) (R_rs1 o) (R_rs2 o) (fst adv) (snd adv)
  | REM o => let adv := div_advice64 (f (R_rs1 o)) (f (R_rs2 o)) in
      REM_ops (R_rd o) (R_rs1 o) (R_rs2 o) (fst adv) (snd adv)
  | DIVW o => let adv := divw_advice64 (f (R_rs1 o)) (f (R_rs2 o)) in
      DIVW_ops (R_rd o) (R_rs1 o) (R_rs2 o) (fst adv) (snd adv)
  | REMW o => let adv := divw_advice64 (f (R_rs1 o)) (f (R_rs2 o)) in
      REMW_ops (R_rd o) (R_rs1 o) (R_rs2 o) (fst adv) (snd adv)
  | DIVU o => DIVU_ops (R_rd o) (R_rs1 o) (R_rs2 o) (divu_advice64 (f (R_rs1 o)) (f (R_rs2 o)))
  | REMU o => REMU_ops (R_rd o) (R_rs1 o) (R_rs2 o) (divu_advice64 (f (R_rs1 o)) (f (R_rs2 o)))
  | DIVUW o => DIVUW_ops (R_rd o) (R_rs1 o) (R_rs2 o) (divuw_advice64 (f (R_rs1 o)) (f (R_rs2 o)))
  | REMUW o => REMUW_ops (R_rd o) (R_rs1 o) (R_rs2 o) (divuw_advice64 (f (R_rs1 o)) (f (R_rs2 o)))
  | _ => []
  end.

(** *** Advice *)
Lemma set_advice_spec k v l o w :
  map operands l !! k = Some (VirtualAdvice o w) ->
  exists l', set_advice k v l = Some l' /\ map operands l' = <[k := VirtualAdvice o v]> (map operands l).
Proof.
  intros H. rewrite map_lookup in H. apply fmap_Some in H as (i & Hi & Ho).
  unfold set_advice, Instruction in *. rewrite Hi. cbn [mbind option_bind]. rewrite <- Ho. eexists. split; [done|].
  by rewrite map_insert.
Qed.

Definition ops_at (m : M (list Instruction)) (a : VirtualRegisterAllocator) (ops : list Op) : Prop :=
  exists l, m a = Some (l, a) /\ map operands l = ops.

Lemma advised1_ops k m adv a ops o w :
  ops_at m a ops -> ops !! k = Some (VirtualAdvice o w) ->
  ops_at (advised1 k m (Some adv)) a (<[k := VirtualAdvice o adv]> ops).
Proof.
  intros (l & Hm & <-) Ho. destruct (set_advice_spec k adv l o w Ho) as (l' & Hl & Hl').
  exists l'. split; [|done]. unfold advised1, M_bind, M_lift. cbn [mbind option_bind].
  by rewrite Hm, Hl.
Qed.

Lemma advised2_ops m q r a ops o1 w1 o2 w2 :
  ops_at m a ops -> ops !! 0%nat = Some (VirtualAdvice o1 w1) -> ops !! 1%nat = Some (VirtualAdvice o2 w2) ->
  ops_at (advised2 m (Some (q, r))) a
    (<[1%nat := VirtualAdvice o2 r]> (<[0%nat := VirtualAdvice o1 q]> ops)).
Proof.
  intros (l & Hm & <-) H1 H2. destruct (set_advice_spec 0 q l o1 w1 H1) as (l1 & Hl1 & Hl1').
  destruct (set_advice_spec 1 r l1 o2 w2) as (l2 & Hl2 & Hl2').
  { by rewrite Hl1', list_lookup_insert_ne. }
  exists l2. rewrite Hl2', Hl1'. split; [|done].
  unfold advised2, M_bind, M_lift. cbn [mbind option_bind fst snd].
  rewrite Hm, Hl1. cbn [mbind option_bind]. by rewrite Hl2.
Qed.

Section AdviceValues.
Context (c : Cpu) (Hc : cpu_wf c) (Hx : xlen c = Bit64) (o : FormatR).
Context (H1 : valid_reg (R_rs1 o)) (H2 : valid_reg (R_rs2 o)).
Abbreviation a := (reg c (R_rs1 o)).
Abbreviation b := (reg c (R_rs2 o)).

Lemma i_div_rem_guard w u v : (v =? 0) = false -> (u =? - 2 ^ (w - 1)) && (v =? -1) = false ->
  i_div w u v = Some (Z.quot u v) /\ i_rem w u v = Some (Z.rem u v).
Proof. intros H H'. unfold i_div, i_rem. by rewrite H, H'. Qed.

Lemma DIV_advice_64 : DIV_advice c o = Some (div_advice64 a b).
Proof.
  unfold DIV_advice, div_advice64. rewrite !(lookup_reg c Hc) by done. cbn [mbind option_bind].
  unfold most_negative. rewrite Hx. destruct (b =? 0) eqn:E; [done|].
  destruct (_ && _) eqn:Ho; [done|]. destruct (i_div_rem_guard 64 a b E Ho) as [-> ->]. done.
Qed.
Lemma REM_advice_64 : REM_advice c o = Some (div_advice64 a b).
Proof. exact DIV_advice_64. Qed.
Lemma DIVU_advice_64 : DIVU_advice c o = Some (divu_advice64 a b).
Proof.
  unfold DIVU_advice, divu_advice64, u_div. rewrite !(lookup_reg c Hc) by done. cbn [mbind option_bind].
  cbv zeta. rewrite Hx. by destruct (as_u64 b =? 0).
Qed.
Lemma REMU_advice_64 : REMU_advice c o = Some (divu_advice64 a b).
Proof.
  unfold REMU_advice, divu_advice64, u_div. rewrite !(lookup_reg c Hc) by done. cbn [mbind option_bind].
  rewrite Hx, !unsigned_data_64 by done. by destruct (as_u64 b =? 0).
Qed.
Lemma DIVW_advice_64 : DIVW_advice c o = Some (divw_advice64 a b).
Proof.
  unfold DIVW_advice, divw_advice64. rewrite !(lookup_reg c Hc) by done. cbn [mbind option_bind].
  cbv zeta. rewrite Hx. destruct (as_i32 b =? 0) eqn:E; [done|].
  destruct ((as_i32 b =? -1) && _) eqn:Ho; [done|]. rewrite andb_comm in Ho.
  destruct (i_div_rem_guard 32 (as_i32 a) (as_i32 b) E Ho) as [-> ->]. done.
Qed.
Lemma REMW_advice_64 : REMW_advice c o = Some (divw_advice64 a b).
Proof. exact DIVW_advice_64. Qed.
Lemma DIVUW_advice_64 : DIVUW_advice c o = Some (divuw_advice64 a b).
Proof.
  unfold DIVUW_advice, divuw_advice64, u_div. rewrite !(lookup_reg c Hc) by done. cbn [mbind option_bind].
  cbv zeta. rewrite Hx. by destruct (as_u32 b =? 0).
Qed.
Lemma REMUW_advice_64 : REMUW_advice c o = Some (divuw_advice64 a b).
Proof. exact DIVUW_advice_64. Qed.
End AdviceValues.

(** The sequence a macro instruction traces. *)
Lemma macro_sequence (c : Cpu) (i : Instruction) rd v :
  cpu_wf c -> xlen c = Bit64 -> temporaries_free (vr_allocator c) -> op_valid (operands i) ->
  result64 (reg c) (operands i) = Some (rd, v) ->
  exists m, traced_sequence i c = Some m /\
    ops_at m (vr_allocator c) (macro_ops (reg c) (operands i)).
Proof.
  intros Hc Hx Ha Hv Hr. unfold traced_sequence. rewrite Hx.
  destruct (operands i) eqn:Eo; try discriminate Hr; eexists; (split; [reflexivity|]);
    unfold dispatch_inline_sequence; rewrite ?Eo; cbn [macro_ops]; cbv zeta;
    destruct Hv as (_ & H1 & H2); cbn in H1, H2;
    rewrite ?DIV_advice_64, ?REM_advice_64, ?DIVU_advice_64, ?REMU_advice_64, ?DIVW_advice_64,
      ?REMW_advice_64, ?DIVUW_advice_64, ?REMUW_advice_64 by done.
  all: try match goal with |- context [advised2 _ (Some ?p)] => destruct p as [q r]; cbn [fst snd] end.
  all: lazymatch goal with
    | |- ops_at (SLL_inline_sequence _ _) _ _ => exact (SLL_has_ops (with_operands i o) _ Ha)
    | |- ops_at (SRL_inline_sequence _ _) _ _ => exact (SRL_has_ops (with_operands i o) _ Ha)
    | |- ops_at (SRA_inline_sequence _ _) _ _ => exact (SRA_has_ops (with_operands i o) _ Ha)
    | |- ops_at (SLLW_inline_sequence _ _) _ _ => exact (SLLW_has_ops (with_operands i o) _ Ha)
    | |- ops_at (SRLW_inline_sequence _ _) _ _ => exact (SRLW_has_ops (with_operands i o) _ Ha)
    | |- ops_at (SRAW_inline_sequence _ _) _ _ => exact (SRAW_has_ops (with_operands i o) _ Ha)
    | |- ops_at (ADDW_inline_sequence _ _) _ _ => exact (ADDW_has_ops (with_operands i o) _ Ha)
    | |- ops_at (SUBW_inline_sequence _ _) _ _ => exact (SUBW_has_ops (with_operands i o) _ Ha)
    | |- ops_at (MULW_inline_sequence _ _) _ _ => exact (MULW_has_ops (with_operands i o) _ Ha)
    | |- ops_at (MULH_inline_sequence _ _) _ _ => exact (MULH_has_ops (with_operands i o) _ Ha)
    | |- ops_at (MULHSU_inline_sequence _ _) _ _ => exact (MULHSU_has_ops (with_operands i o) _ Ha)
    | |- ops_at (SLLI_inline_sequence _ _) _ _ => exact (SLLI_has_ops (with_operands i o) _ Ha)
    | |- ops_at (SRLI_inline_sequence _ _) _ _ => exact (SRLI_has_ops (with_operands i o) _ Ha)
    | |- ops_at (SRAI_inline_sequence _ _) _ _ => exact (SRAI_has_ops (with_operands i o) _ Ha)
    | |- ops_at (ADDIW_inline_sequence _ _) _ _ => exact (ADDIW_has_ops (with_operands i o) _ Ha)
    | |- ops_at (SLLIW_inline_sequence _ _) _ _ => exact (SLLIW_has_ops (with_operands i o) _ Ha)
    | |- ops_at (SRLIW_inline_sequence _ _) _ _ => exact (SRLIW_has_ops (with_operands i o) _ Ha)
    | |- ops_at (SRAIW_inline_sequence _ _) _ _ => exact (SRAIW_has_ops (with_operands i o) _ Ha)
    | |- ops_at (advised2 (DIV_inline_sequence _ _) _) _ _ =>
        exact (advised2_ops _ _ _ _ _ _ _ _ _ (DIV_has_ops (with_operands i o) _ Ha) eq_refl eq_refl)
    | |- ops_at (advised2 (REM_inline_sequence _ _) _) _ _ =>
        exact (advised2_ops _ _ _ _ _ _ _ _ _ (REM_has_ops (with_operands i o) _ Ha) eq_refl eq_refl)
    | |- ops_at (advised2 (DIVW_inline_sequence _ _) _) _ _ =>
        exact (advised2_ops _ _ _ _ _ _ _ _ _ (DIVW_has_ops (with_operands i o) _ Ha) eq_refl eq_refl)
    | |- ops_at (advised2 (REMW_inline_sequence _ _) _) _ _ =>
        exact (advised2_ops _ _ _ _ _ _ _ _ _ (REMW_has_ops (with_operands i o) _ Ha) eq_refl eq_refl)
    | |- ops_at (advised1 _ (DIVU_inline_sequence _ _) _) _ _ =>
        exact (advised1_ops 0 _ _ _ _ _ _ (DIVU_has_ops (with_operands i o) _ Ha) eq_refl)
    | |- ops_at (advised1 _ (REMU_inline_sequence _ _) _) _ _ =>
        exact (advised1_ops 0 _ _ _ _ _ _ (REMU_has_ops (with_operands i o) _ Ha) eq_refl)
    | |- ops_at (advised1 _ (DIVUW_inline_sequence _ _) _) _ _ =>
        exact (advised1_ops 2 _ _ _ _ _ _ (DIVUW_has_ops (with_operands i o) _ Ha) eq_refl)
    | |- ops_at (advised1 _ (REMUW_inline_sequence _ _) _) _ _ =>
        exact (advised1_ops 2 _ _ _ _ _ _ (REMUW_has_ops (with_operands i o) _ Ha) eq_refl)
    end.
Qed.

(** ** Registers of an architectural instruction *)

(** A register an instruction of a guest program names: not a temporary. *)
Definition arch_reg (r : nat) : Prop := valid_reg r /\ ~ instruction_reg r.
Definition opt_arch (r : option nat) : Prop := match r with Some r => arch_reg r | None => True end.
Definition op_arch (op : Op) : Prop :=
  opt_arch (norm_rd (op_operands op)) /\ opt_arch (norm_rs1 (op_operands op)) /\
  opt_arch (norm_rs2 (op_operands op)).

Lemma op_arch_valid op : op_arch op -> op_valid op.
Proof.
  intros (H1 & H2 & H3). unfold op_valid.
  destruct (norm_rd _), (norm_rs1 _), (norm_rs2 _); cbn in *; unfold arch_reg in *; tauto.
Qed.

Lemma valid_temp r : (r < 128)%nat -> valid_reg r.
Proof. done. Qed.

(** Every instruction of a macro's program is straight-line code. *)
Definition simple_op (op : Op) : Prop := straight op /\ forall g, is_Some (outcome64 g op).

Lemma macro_ops_simple f op :
  op_arch op -> norm_rd (op_operands op) <> Some 0%nat -> Forall simple_op (macro_ops f op).
Proof.
  intros (H1 & H2 & H3) H0.
  assert (Hrd : forall rd, norm_rd (op_operands op) = Some rd ->
    match Some rd with Some O => False | _ => True end) by (intros [|n] E; [by destruct H0|done]).
  destruct op; cbn [macro_ops]; try apply Forall_nil_2; cbn in H0, H1, H2, H3, Hrd;
    unfold arch_reg in H1, H2, H3;
    specialize (Hrd _ eq_refl); cbv zeta;
    repeat (apply Forall_cons_2 || apply Forall_nil_2 || apply Forall_app_2);
    (split; [split; [repeat split; cbn; try tauto; apply valid_temp; lia|cbn; done]|intros g; by eexists]).
Qed.

(** ** The program performs the instruction's write *)

(** The word divisions of the least dividend by zero. *)
Definition word_division_min_by_zero (f : regs) (op : Op) : Prop :=
  match op with
  | DIVW o | REMW o => as_i32 (f (R_rs1 o)) = - 2 ^ 31 /\ as_i32 (f (R_rs2 o)) = 0
  | _ => False
  end.

Lemma guarded_writes ops f check rd v w :
  guarded ops f check rd v -> check = true -> (check = true -> v = w) -> writes ops f rd w.
Proof.
  intros Hg Hc Hv. rewrite <- (Hv Hc). apply writes_run. unfold guarded in Hg.
  destruct (run64 ops f); [by destruct Hg|congruence].
Qed.

(** A register file of the machine. *)
Record regs_wf (f : regs) : Prop := {
  regs_range : forall r, in_s 64 (f r);
  regs_zero : f 0%nat = 0
}.

Lemma reg_wf c : cpu_wf c -> regs_wf (reg c).
Proof. intros Hc. split; [by apply reg_range|by apply reg_zero]. Qed.

Lemma macro_writes f op rd v :
  regs_wf f -> op_arch op -> norm_rd (op_operands op) <> Some 0%nat ->
  ~ word_division_min_by_zero f op ->
  result64 f op = Some (rd, v) -> writes (macro_ops f op) f rd v.
Proof.
  intros [Hf Hz] (H1 & H2 & H3) H0 Hm Hr.
  destruct op; try discriminate Hr; injection Hr as <- <-; cbn [macro_ops]; cbv zeta;
    cbn in H0, H1, H2, H3, Hm; destruct H1 as [_ H1], H2 as [_ H2]; try apply proj2 in H3;
    match type of H0 with Some ?r <> _ => assert (r <> 0%nat) by congruence end;
    try lazymatch goal with
    | |- writes (SLL_ops _ _ _) _ _ _ => by apply SLL_writes
    | |- writes (SRL_ops _ _ _) _ _ _ => by apply SRL_writes
    | |- writes (SRA_ops _ _ _) _ _ _ => by apply SRA_writes
    | |- writes (SLLW_ops _ _ _) _ _ _ => by apply SLLW_writes
    | |- writes (SRLW_ops _ _ _) _ _ _ => by apply SRLW_writes
    | |- writes (SRAW_ops _ _ _) _ _ _ => by apply SRAW_writes
    | |- writes (ADDW_ops _ _ _) _ _ _ => by apply ADDW_writes
    | |- writes (SUBW_ops _ _ _) _ _ _ => by apply SUBW_writes
    | |- writes (MULW_ops _ _ _) _ _ _ => by apply MULW_writes
    | |- writes (MULHSU_ops _ _ _) _ _ _ => by apply MULHSU_writes
    | |- writes (SLLI_ops _ _ _) _ _ _ => by apply SLLI_writes
    | |- writes (SRLI_ops _ _ _) _ _ _ => by apply SRLI_writes
    | |- writes (SRAI_ops _ _ _) _ _ _ => by apply SRAI_writes
    | |- writes (ADDIW_ops _ _ _) _ _ _ => by apply ADDIW_writes
    | |- writes (SLLIW_ops _ _ _) _ _ _ => by apply SLLIW_writes
    | |- writes (SRLIW_ops _ _ _) _ _ _ => by apply SRLIW_writes
    | |- writes (SRAIW_ops _ _ _) _ _ _ => by apply SRAIW_writes
    | |- writes (MULH_ops _ _ _ _) _ _ _ => by apply MULH_writes
    end.
  - eapply guarded_writes; [by apply DIV_guarded|unfold div_check; by apply div_complete|].
    unfold div_check. intros Hc. by eapply div_sound; [..|exact Hc].
  - eapply guarded_writes; [by apply DIVU_guarded|unfold divu_check; by apply divu_complete|].
    unfold divu_check. intros Hc. by eapply divu_sound; [..|exact Hc].
  - eapply guarded_writes; [by apply REM_guarded|unfold div_check; by apply div_complete|].
    unfold div_check. intros Hc. by eapply rem_sound; [..|exact Hc].
  - eapply guarded_writes; [by apply REMU_guarded|unfold remu_check; by apply remu_complete|].
    unfold remu_check. intros Hc. by eapply remu_sound; [..|exact Hc].
  - eapply guarded_writes; [by apply DIVUW_guarded|unfold divuw_check, remuw_check; by apply divuw_complete|].
    unfold divuw_check, remuw_check. intros Hc. by eapply divuw_sound; [..|exact Hc].
  - eapply guarded_writes; [by apply DIVW_guarded|unfold divw_check; by apply divw_complete|].
    unfold divw_check. intros Hc. by eapply divw_sound; [..|exact Hc].
  - eapply guarded_writes; [by apply REMUW_guarded|unfold remuw_check; by apply remuw_complete|].
    unfold remuw_check. intros Hc. by eapply remuw_sound; [..|exact Hc].
  - eapply guarded_writes; [by apply REMW_guarded|unfold divw_check; by apply divw_complete|].
    unfold divw_check. intros Hc. by eapply remw_sound; [..|exact Hc].
Qed.

(** ** Tracing *)

Lemma set_allocator_id c : set_allocator c (vr_allocator c) = c.
Proof. by destruct c. Qed.

(** An instruction without a sequence of its own. *)
Lemma trace_leaf n i c :
  traced_sequence i c = None -> rd_is_zero i = false -> trace (S n) i c = default_trace_cycle i c.
Proof. intros H1 H2. unfold trace. rewrite H2. cbn [trace_raw]. by rewrite H1. Qed.

(** The trace of a macro instruction runs its sequence, which leaves the
    allocator as it was. *)
Lemma trace_macro n i c c0 m l :
  rd_is_zero i = false -> traced_sequence i c = Some m -> before_sequence i c = Some c0 ->
  m (vr_allocator c0) = Some (l, vr_allocator c0) ->
  trace (S n) i c = ('(c', t) ← run_list (trace n) l c0; Some (after_sequence i c', t)).
Proof.
  intros Hz Hm Hb Hl. unfold trace at 1. rewrite Hz. cbn [trace_raw]. rewrite Hm, Hb.
  cbn [mbind option_bind]. rewrite Hl. cbn [mbind option_bind]. by rewrite set_allocator_id.
Qed.

Lemma pure_sequence i c : is_memory (operands i) = false ->
  before_sequence i c = Some c /\ after_sequence i c = c.
Proof. unfold before_sequence, after_sequence. by destruct (operands i). Qed.

(** A straight-line program. *)
Lemma run_simple n c l : cpu_wf c -> xlen c = Bit64 -> Forall (fun i => simple_op (operands i)) l ->
  match run64 (map operands l) (reg c) with
  | Some f' => exists c' t, run_list (trace (S n)) l c = Some (c', t) /\ with_regs c f' c'
  | None => run_list (trace (S n)) l c = None
  end.
Proof.
  intros Hc Hx Hs.
  pose proof (run_list_run64 (trace (S n)) (fun i => trace_leaf n i) l c (reg c) c Hx (with_regs_refl c Hc)) as Hr.
  destruct (run64 _ _) as [f'|].
  - destruct Hr as (c' & t & Hr & Hw & _); [..|by exists c', t].
    + eapply list.Forall_impl; [exact Hs|]. intros i' H. apply H.
    + intros g. eapply list.Forall_impl; [exact Hs|]. intros i' H. apply H.
  - apply Hr.
    + eapply list.Forall_impl; [exact Hs|]. intros i' H. apply H.
    + intros g. eapply list.Forall_impl; [exact Hs|]. intros i' H. apply H.
Qed.

Section Tracing.
Context (n : nat) (c : Cpu) (i : Instruction).
Context (Hc : cpu_wf c) (Hx : xlen c = Bit64) (Ha : temporaries_free (vr_allocator c)).

Lemma trace_program m ops :
  is_memory (operands i) = false ->
  rd_is_zero i = false -> traced_sequence i c = Some m -> ops_at m (vr_allocator c) ops ->
  Forall simple_op ops ->
  match run64 ops (reg c) with
  | Some f' => exists c' t, trace (S (S n)) i c = Some (c', t) /\ with_regs c f' c'
  | None => trace (S (S n)) i c = None
  end.
Proof.
  intros Hmem Hz Hm (l & Hl & <-) Hs. destruct (pure_sequence i c Hmem) as [Hb _].
  rewrite (trace_macro (S n) i c c m l Hz Hm Hb Hl). rewrite Forall_map in Hs.
  pose proof (run_simple n c l Hc Hx Hs) as Hr.
  destruct (run64 _ _) as [f'|]; [|by rewrite Hr].
  destruct Hr as (c' & t & -> & Hw). cbn [mbind option_bind].
  destruct (pure_sequence i c' Hmem) as [_ ->]. by exists c', t.
Qed.

(** The state the program ends in, up to the temporaries. *)
Lemma with_regs_write f' c' rd v :
  valid_reg rd -> cpu_wf (wr c rd v) -> with_regs c f' c' -> agree f' (upd (reg c) rd v) -> c' ≈ wr c rd v.
Proof.
  intros Hrd Hv Hw Hag. pose proof (wreg_rest _ _ _ Hw) as Hrest.
  split; [|rewrite mmu_wr, (with_regs_mmu _ _ _ Hw); reflexivity|by rewrite set_x_wr, Hrest].
  intros r Hr. destruct (decide (r < REGISTER_COUNT)%nat) as [Hlt|Hge].
  - rewrite (lookup_reg c' (wreg_wf _ _ _ Hw)) by done.
    rewrite (lookup_reg (wr c rd v) Hv) by done. f_equal.
    rewrite (wreg_reg _ _ _ Hw) by done. rewrite Hag by done.
    destruct (decide (rd = 0)%nat) as [->|H0]; [done|]. destruct (decide (r = rd)) as [->|Hne].
    + by rewrite upd_eq, (reg_wr_eq c Hc) by done.
    + by rewrite upd_ne, reg_wr_ne by done.
  - rewrite !lookup_ge_None_2; [done|..].
    + rewrite (wf_length _ Hv). lia.
    + rewrite (wf_length _ (wreg_wf _ _ _ Hw)). lia.
Qed.
End Tracing.

(** ** Instructions whose destination is [x0] *)

(** Apart from the instructions with side effects, [execute] writes at most
    the destination register. *)
Lemma execute_frame (i : Instruction) (c c' : Cpu) :
  is_memory (operands i) = false -> has_side_effects i = false -> execute i c = Some c' ->
  c' = c \/ exists rd v, norm_rd (op_operands (operands i)) = Some rd /\ write_register c rd v = Some c'.
Proof.
  unfold has_side_effects, execute. cbv zeta.
  destruct (operands i); intros Hm Hs H; try discriminate Hm; try discriminate Hs;
    cbn [op_operands op_format to_operands FormatR_format FormatI_format FormatB_format FormatJ_format
      FormatU_format FormatAssert_format FormatVirtualRightShiftI_format FormatVirtualRightShiftR_format
      FormatR_to_operands FormatI_to_operands FormatB_to_operands FormatJ_to_operands
      FormatU_to_operands FormatAssert_to_operands
      FormatVirtualRightShiftI_to_operands FormatVirtualRightShiftR_to_operands norm_rd];
    unfold_exec; cbv zeta in *; repeat exec_step;
    first [ by left | right; do 2 eexists; split; [reflexivity|eassumption] ].
Qed.

Lemma execute_rd_zero (i : Instruction) (c c' : Cpu) :
  is_memory (operands i) = false -> rd_is_zero i = true -> has_side_effects i = false ->
  execute i c = Some c' -> c' = c.
Proof.
  unfold rd_is_zero. intros Hm Hz Hs H. destruct (execute_frame i c c' Hm Hs H) as [|(rd & v & Hrd & Hw)]; [done|].
  rewrite Hrd in Hz. destruct rd; [|done]. cbn in Hw. congruence.
Qed.

(** The temporary a sequence is remapped to, when what is run with it leaves the
    allocator alone. *)
Lemma remap_40 {A} (x : A) (k : nat -> M A) a : temporaries_free a -> (forall a', k 40%nat a' = Some (x, a')) ->
  (let! vr := allocate in let! l := k vr in drop_guards [vr] ;;! M_ret l) a = Some (x, a).
Proof.
  intros Ha Hk. destruct (temporaries_free_shape _ Ha) as (a0 & a1 & a2 & a3 & a4 & a5 & a6 & a7 & r & p & E).
  assert (exists a', allocate a = Some (40%nat, a') /\ deallocate a' 40 = a)
    as (a' & Hal & Hde) by (rewrite E; eexists; split; reflexivity).
  unfold drop_guards, drop_guard, M_bind. rewrite Hal, Hk. unfold M_ret. by rewrite Hde.
Qed.

Section ZeroDestination.
Context (n : nat) (c : Cpu) (i : Instruction).
Context (Hc : cpu_wf c) (Ha : temporaries_free (vr_allocator c)).
Context (Hz : rd_is_zero i = true).

Lemma trace_nop : has_side_effects i = false ->
  exists t, trace (S (S n)) i c = Some (c, t) /\ accesses t = [].
Proof.
  intros Hs. unfold trace, Instruction_inline_sequence. rewrite Hz, Hs.
  cbn [M_ret mbind option_bind]. rewrite set_allocator_id. cbn [run_list trace_raw].
  change (traced_sequence (nop i) c) with (@None (M (list Instruction))). cbv iota.
  assert (Hv : op_valid (operands (nop i))) by (by repeat split; cbn; apply valid_temp; lia).
  pose proof (default_trace_cycle_ram (nop i) c Hc Hv) as Ht.
  assert (He : execute (nop i) c = Some c).
  { cbn. unfold ADDI_exec. cbn [R_rs1 I_rs1 I_rd]. rewrite (wf_zero c Hc). done. }
  rewrite execute_ram_pure, He in Ht by done. destruct Ht as [st ->]. cbn [mbind option_bind]. eexists. done.
Qed.

(** An instruction with side effects writes a temporary instead. *)
Lemma trace_remapped c' :
  has_side_effects i = true -> traced_sequence (with_rd i 40) c = None ->
  dispatch_inline_sequence (with_rd i 40) (xlen c) = M_ret [with_rd i 40] ->
  op_valid (operands (with_rd i 40)) -> execute (with_rd i 40) c = Some c' ->
  exists t, trace (S (S n)) i c = Some (c', t).
Proof.
  intros Hs Hseq Hd Hv He. unfold trace, Instruction_inline_sequence. rewrite Hz, Hs.
  rewrite (remap_40 [with_rd i 40] (fun vr => dispatch_inline_sequence (with_rd i vr) (xlen c))) by (try done; by rewrite Hd). cbn [mbind option_bind]. rewrite set_allocator_id.
  cbn [run_list trace_raw]. rewrite Hseq.
  pose proof (default_trace_cycle_spec _ c Hc Hv) as Ht. rewrite He in Ht. destruct Ht as [t ->].
  cbn [mbind option_bind]. eexists. done.
Qed.
End ZeroDestination.

Lemma update_pc_wr c r v p : update_pc (wr c r v) p = wr (update_pc c p) r v.
Proof. by destruct r. Qed.

Lemma temp_40 : instruction_reg 40.
Proof. unfold instruction_reg. lia. Qed.
Lemma valid_40 : valid_reg 40.
Proof. apply valid_temp. lia. Qed.

(** The remapped instruction reaches the same architectural state. *)
Lemma execute_remapped (i : Instruction) (c c' : Cpu) :
  cpu_wf c -> is_memory (operands i) = false -> rd_is_zero i = true -> has_side_effects i = true ->
  execute i c = Some c' -> exists c1, execute (with_rd i 40) c = Some c1 /\ c1 ≈ c'.
Proof.
  intros Hc Hm Hz Hs. unfold rd_is_zero, has_side_effects, execute, with_rd in *.
  cbn [operands address]. cbv zeta.
  destruct (operands i); try discriminate Hm; try discriminate Hs; cbn in Hz; try discriminate Hz;
    cbn [op_set_rd op_format FormatJ_format FormatI_format set_rd];
    match type of Hz with context [match ?rd with _ => _ end] => destruct rd eqn:Erd; try discriminate Hz end.
  - unfold JAL_exec. rewrite Erd. cbn [J_rd J_imm]. rewrite decide_False by lia. intros [= <-].
    rewrite decide_True, decide_False by lia. rewrite (write_register_wr c Hc) by apply valid_40.
    cbn [mbind option_bind]. eexists. split; [done|]. rewrite xlen_wr, update_pc_wr.
    apply wr_temp, temp_40.
  - unfold JALR_exec. cbv zeta. cbn [I_rd I_rs1 I_imm]. intros (a & Ha & H)%bind_Some. rewrite Ha.
    cbn [mbind option_bind]. rewrite Erd, decide_False in H by lia. injection H as <-.
    rewrite decide_True, decide_False by lia.
    rewrite write_register_wr; [|by apply (keeps_wf _ _ (update_pc_keeps c _))|apply valid_40].
    eexists. split; [done|]. apply wr_temp, temp_40.
  - unfold VirtualAdviceLoad_exec. cbv zeta. cbn [J_rd J_imm].
    intros ([r tape] & Hr & H)%bind_Some. rewrite Hr. cbn [mbind option_bind].
    apply bind_Some in H as (a & Ha & H). rewrite Ha. cbn [mbind option_bind].
    rewrite Erd in H. cbn [write_register] in H. injection H as <-.
    rewrite write_register_wr; [|by apply set_advice_tape_wf|apply valid_40].
    eexists. split; [done|]. apply wr_temp, temp_40.
Qed.

Lemma traced_sequence_macro (i : Instruction) (c : Cpu) m :
  is_memory (operands i) = false -> traced_sequence i c = Some m ->
  exists rd v, result64 (reg c) (operands i) = Some (rd, v) /\ norm_rd (op_operands (operands i)) = Some rd.
Proof.
  unfold traced_sequence. destruct (operands i); intros Hm H; try discriminate Hm; try discriminate H;
    do 2 eexists; split; reflexivity.
Qed.

Lemma with_rd_leaf (i : Instruction) c xl r :
  is_memory (operands i) = false -> has_side_effects i = true ->
  traced_sequence (with_rd i r) c = None /\
  dispatch_inline_sequence (with_rd i r) xl = M_ret [with_rd i r].
Proof.
  unfold has_side_effects, traced_sequence, dispatch_inline_sequence, with_rd. cbn [operands].
  destruct (operands i); intros Hm Hs; try discriminate Hm; try discriminate Hs; done.
Qed.

Lemma with_rd_valid (i : Instruction) r :
  op_valid (operands i) -> valid_reg r -> op_valid (operands (with_rd i r)).
Proof.
  unfold with_rd, op_valid, op_operands, op_set_rd. cbn [operands]. intros (H1 & H2 & H3) Hr.
  destruct (operands i); cbn in *; done.
Qed.

Lemma rd_not_zero i : rd_is_zero i = false -> norm_rd (op_operands (operands i)) <> Some 0%nat.
Proof. unfold rd_is_zero. intros H E. by rewrite E in H. Qed.

(** ** The main theorem *)

(** The trace of an integer instruction ends where [execute] does. *)
Lemma trace_agrees (n : nat) (c : Cpu) (i : Instruction) (c' : Cpu) :
  cpu_wf c -> xlen c = Bit64 -> temporaries_free (vr_allocator c) -> op_arch (operands i) ->
  is_memory (operands i) = false -> ~ word_division_min_by_zero (reg c) (operands i) ->
  execute i c = Some c' ->
  exists c1 t, trace (S (S n)) i c = Some (c1, t) /\ c1 ≈ c' /\ cpu_wf c1.
Proof.
  intros Hc Hx Ha Hop Hmem Hmin He. pose proof (op_arch_valid _ Hop) as Hv.
  destruct (rd_is_zero i) eqn:Hz.
  - destruct (has_side_effects i) eqn:Hs.
    + destruct (execute_remapped i c c' Hc Hmem Hz Hs He) as (c1 & He1 & Heq).
      destruct (with_rd_leaf i c (xlen c) 40 Hmem Hs) as [Hl Hd].
      destruct (trace_remapped n c i Hc Ha Hz c1 Hs Hl Hd) as [t Ht]; [|done|exists c1, t; split; [done|split; [done|by apply (keeps_wf _ _ (execute_keeps _ c _ He1))]]].
      apply with_rd_valid; [done|apply valid_40].
    + destruct (trace_nop n c i Hc Hz Hs) as (t & Ht & _). exists c, t. split; [done|].
      split; [|done]. by rewrite (execute_rd_zero i c c' Hmem Hz Hs He).
  - destruct (traced_sequence i c) as [m|] eqn:Hm.
    + destruct (traced_sequence_macro i c m Hmem Hm) as (rd & v & Hr & Hrd).
      destruct (macro_sequence c i rd v Hc Hx Ha Hv Hr) as (m' & Hm' & Hops).
      assert (m' = m) as -> by congruence. pose proof (rd_not_zero i Hz) as H0.
      pose proof (trace_program n c i Hc Hx m _ Hmem Hz Hm Hops (macro_ops_simple _ _ Hop H0)) as Ht.
      destruct (macro_writes (reg c) (operands i) rd v (reg_wf c Hc) Hop H0 Hmin Hr) as (f' & Hf & Hag).
      rewrite Hf in Ht. destruct Ht as (c1 & t & Ht & Hw). exists c1, t. split; [done|]. split; [|apply Hw].
      pose proof (execute_result i c rd v Hc Hx Hv Hr) as He'.
      pose proof (keeps_wf _ _ (execute_keeps i c _ He') Hc) as Hwf. rewrite He in He'. injection He' as ->.
      apply (with_regs_write c Hc f'); try done. destruct Hv as (Hv & _). by rewrite Hrd in Hv.
    + pose proof (trace_leaf (S n) i c Hm Hz) as Ht.
      pose proof (default_trace_cycle_spec i c Hc Hv) as Hd. rewrite He in Hd. destruct Hd as [t Hd].
      exists c', t. split; [congruence|]. split; [done|]. by apply (keeps_wf _ _ (execute_keeps i c _ He)).
Qed.

(** C2: Tracing implements [execute]: with the temporaries free, every integer
    instruction [execute] accepts is traced to the end, its state the one
    [execute] computes but for the temporaries.  Two levels of calls suffice.
    The exception is the word division of the least dividend by zero. *)
Theorem trace_refines_execute (n : nat) (c : Cpu) (i : Instruction) (c' : Cpu) :
  cpu_wf c -> xlen c = Bit64 -> temporaries_free (vr_allocator c) -> op_arch (operands i) ->
  is_memory (operands i) = false -> ~ word_division_min_by_zero (reg c) (operands i) ->
  execute i c = Some c' ->
  exists c1 t, trace (S (S n)) i c = Some (c1, t) /\ c1 ≈ c'.
Proof.
  intros Hc Hx Ha Hop Hm Hd He. destruct (trace_agrees n c i c' Hc Hx Ha Hop Hm Hd He) as (c1 & t & H). exists c1, t. tauto.
Qed.

(** ** Division: soundness for every advice *)

(** [j] is [i], or [i] with another advice. *)
Definition advice_of (i j : Instruction) : Prop :=
  j = i \/ exists o v w, operands i = VirtualAdvice o v /\ operands j = VirtualAdvice o w /\
    address j = address i /\ virtual_sequence_remaining j = virtual_sequence_remaining i /\
    is_first_in_sequence j = is_first_in_sequence i /\ is_compressed j = is_compressed i.
Definition op_advice_of (p q : Op) : Prop :=
  q = p \/ exists o v w, p = VirtualAdvice o v /\ q = VirtualAdvice o w.

Definition is_division (op : Op) : bool :=
  match op with
  | DIV _ | DIVU _ | DIVW _ | DIVUW _ | REM _ | REMU _ | REMW _ | REMUW _ => true
  | _ => false
  end.

(** The program of a division with the advice [q] and [r]. *)
Definition division_program (op : Op) (q r : Z) : list Op :=
  match op with
  | DIV o => DIV_ops (R_rd o) (R_rs1 o) (R_rs2 o) q r
  | REM o => REM_ops (R_rd o) (R_rs1 o) (R_rs2 o) q r
  | DIVW o => DIVW_ops (R_rd o) (R_rs1 o) (R_rs2 o) q r
  | REMW o => REMW_ops (R_rd o) (R_rs1 o) (R_rs2 o) q r
  | DIVU o => DIVU_ops (R_rd o) (R_rs1 o) (R_rs2 o) q
  | REMU o => REMU_ops (R_rd o) (R_rs1 o) (R_rs2 o) q
  | DIVUW o => DIVUW_ops (R_rd o) (R_rs1 o) (R_rs2 o) q
  | REMUW o => REMUW_ops (R_rd o) (R_rs1 o) (R_rs2 o) q
  | _ => []
  end.

Lemma advice_of_ops l l' :
  Forall2 advice_of l l' -> Forall2 op_advice_of (map operands l) (map operands l').
Proof.
  induction 1 as [|i j l l' Hij H IH]; cbn [map]; constructor; [|done].
  destruct Hij as [->|(o & v & w & E1 & E2 & _)]; [by left|]. right. by exists o, v, w.
Qed.

Lemma op_advice_of_same p q : op_advice_of p q -> (forall o v, p <> VirtualAdvice o v) -> q = p.
Proof. intros [->|(o & v & w & -> & _)] H; [done|]. by destruct (H o v). Qed.

Lemma division_program_advice op ops :
  is_division op = true -> Forall2 op_advice_of (division_program op 0 0) ops ->
  exists q r, ops = division_program op q r.
Proof.
  destruct op; intros E H; try discriminate E; cbn [division_program] in H |- *;
    unfold DIV_ops, REM_ops, DIV_prefix, MULH_ops, DIVW_ops, REMW_ops, DIVW_prefix, DIVU_ops, REMU_ops,
      DIVUW_ops, REMUW_ops in *; cbn [app] in *;
    repeat match goal with
    | H : Forall2 op_advice_of (_ :: _) _ |- _ => apply Forall2_cons_inv_l in H as (? & ? & ? & H & ->)
    | H : Forall2 op_advice_of [] _ |- _ => apply Forall2_nil_inv_l in H as ->
    end;
    repeat match goal with
    | H : op_advice_of (VirtualAdvice _ _) _ |- _ =>
        destruct H as [->|(? & ? & ? & [= <- <-] & ->)]
    | H : op_advice_of _ _ |- _ => apply op_advice_of_same in H as ->; [|discriminate]
    end;
    first [ eexists _, 0; reflexivity | eexists _, _; reflexivity ].
Qed.

Lemma division_program_simple op q r :
  is_division op = true -> op_arch op -> norm_rd (op_operands op) <> Some 0%nat ->
  Forall simple_op (division_program op q r).
Proof.
  intros Ed (H1 & H2 & H3) H0.
  assert (Hrd : forall rd, norm_rd (op_operands op) = Some rd ->
    match Some rd with Some O => False | _ => True end) by (intros [|n] E; [by destruct H0|done]).
  destruct op; try discriminate Ed; cbn [division_program]; cbn in H0, H1, H2, H3, Hrd;
    unfold arch_reg in H1, H2, H3; specialize (Hrd _ eq_refl);
    repeat (apply Forall_cons_2 || apply Forall_nil_2 || apply Forall_app_2);
    (split; [split; [repeat split; cbn; try tauto; apply valid_temp; lia|cbn; done]|intros g; by eexists]).
Qed.

Lemma dispatch_division (i : Instruction) a :
  is_division (operands i) = true -> temporaries_free a ->
  ops_at (dispatch_inline_sequence i Bit64) a (division_program (operands i) 0 0).
Proof.
  unfold dispatch_inline_sequence. destruct (operands i); intros Ed Ha; try discriminate Ed;
    cbn [division_program];
    [ exact (DIV_has_ops (with_operands i o) _ Ha) | exact (DIVU_has_ops (with_operands i o) _ Ha)
    | exact (REM_has_ops (with_operands i o) _ Ha) | exact (REMU_has_ops (with_operands i o) _ Ha)
    | exact (DIVUW_has_ops (with_operands i o) _ Ha) | exact (DIVW_has_ops (with_operands i o) _ Ha)
    | exact (REMUW_has_ops (with_operands i o) _ Ha) | exact (REMW_has_ops (with_operands i o) _ Ha) ].
Qed.

Lemma guarded_value ops f check rd v w f' :
  guarded ops f check rd v -> (check = true -> v = w) -> run64 ops f = Some f' -> agree f' (upd f rd w).
Proof. unfold guarded. intros Hg Hv E. rewrite E in Hg. destruct Hg as [Hc Ha]. by rewrite <- (Hv Hc). Qed.

(** Whatever the advice, a division program that ends writes the result. *)
Lemma division_program_writes f op q r f' :
  regs_wf f -> is_division op = true -> op_arch op -> norm_rd (op_operands op) <> Some 0%nat ->
  run64 (division_program op q r) f = Some f' ->
  exists rd v, result64 f op = Some (rd, v) /\ norm_rd (op_operands op) = Some rd /\ agree f' (upd f rd v).
Proof.
  intros [Hf Hz] Ed (H1 & H2 & H3) H0 E.
  destruct op; try discriminate Ed; cbn [division_program] in E; cbn in H0, H1, H2, H3;
    destruct H1 as [_ H1], H2 as [_ H2], H3 as [_ H3];
    match type of H0 with Some ?r <> _ => assert (r <> 0%nat) by congruence end;
    do 2 eexists; (split; [reflexivity|split; [reflexivity|]]).
  - refine (guarded_value _ _ _ _ _ _ _ _ _ E); [by apply DIV_guarded|].
    unfold div_check. intros Hc. by eapply div_sound; [..|exact Hc].
  - refine (guarded_value _ _ _ _ _ _ _ _ _ E); [by apply DIVU_guarded|].
    unfold divu_check. intros Hc. by eapply divu_sound; [..|exact Hc].
  - refine (guarded_value _ _ _ _ _ _ _ _ _ E); [by apply REM_guarded|].
    unfold div_check. intros Hc. by eapply rem_sound; [..|exact Hc].
  - refine (guarded_value _ _ _ _ _ _ _ _ _ E); [by apply REMU_guarded|].
    unfold remu_check. intros Hc. by eapply remu_sound; [..|exact Hc].
  - refine (guarded_value _ _ _ _ _ _ _ _ _ E); [by apply DIVUW_guarded|].
    unfold divuw_check, remuw_check. intros Hc. by eapply divuw_sound; [..|exact Hc].
  - refine (guarded_value _ _ _ _ _ _ _ _ _ E); [by apply DIVW_guarded|].
    unfold divw_check. intros Hc. by eapply divw_sound; [..|exact Hc].
  - refine (guarded_value _ _ _ _ _ _ _ _ _ E); [by apply REMUW_guarded|].
    unfold remuw_check. intros Hc. by eapply remuw_sound; [..|exact Hc].
  - refine (guarded_value _ _ _ _ _ _ _ _ _ E); [by apply REMW_guarded|].
    unfold divw_check. intros Hc. by eapply remw_sound; [..|exact Hc].
Qed.

Lemma run_advised n c i l l' a :
  cpu_wf c -> xlen c = Bit64 -> temporaries_free (vr_allocator c) -> op_arch (operands i) ->
  is_division (operands i) = true -> rd_is_zero i = false ->
  dispatch_inline_sequence i Bit64 (vr_allocator c) = Some (l, a) -> Forall2 advice_of l l' ->
  exists q r,
    match run64 (division_program (operands i) q r) (reg c) with
    | Some f' => exists c' t, run_list (trace (S n)) l' c = Some (c', t) /\ with_regs c f' c'
    | None => run_list (trace (S n)) l' c = None
    end.
Proof.
  intros Hc Hx Ha Hop Ed Hz Hl Hadv.
  destruct (dispatch_division i (vr_allocator c) Ed Ha) as (l0 & Hl0 & Hops).
  rewrite Hl in Hl0. injection Hl0 as <- _. apply advice_of_ops in Hadv. rewrite Hops in Hadv.
  destruct (division_program_advice _ _ Ed Hadv) as (q & r & E). exists q, r.
  pose proof (division_program_simple (operands i) q r Ed Hop (rd_not_zero i Hz)) as Hs.
  rewrite <- E in Hs |- *. rewrite Forall_map in Hs. by apply run_simple.
Qed.

(** C3: Division is sound: take the sequence of a division and replace its advice
    by any values at all; if the run does not panic on an assertion, it ends
    in the state [execute] computes. *)
Theorem division_sound (n : nat) (c : Cpu) (i : Instruction) l l' a c1 t :
  cpu_wf c -> xlen c = Bit64 -> temporaries_free (vr_allocator c) -> op_arch (operands i) ->
  is_division (operands i) = true -> rd_is_zero i = false ->
  dispatch_inline_sequence i Bit64 (vr_allocator c) = Some (l, a) -> Forall2 advice_of l l' ->
  run_list (trace (S n)) l' c = Some (c1, t) ->
  exists c', execute i c = Some c' /\ c1 ≈ c'.
Proof.
  intros Hc Hx Ha Hop Ed Hz Hl Hadv Hrun.
  destruct (run_advised n c i l l' a Hc Hx Ha Hop Ed Hz Hl Hadv) as (q & r & Hr).
  destruct (run64 _ _) as [f'|] eqn:E; [|congruence].
  destruct (division_program_writes (reg c) (operands i) q r f' (reg_wf c Hc) Ed Hop (rd_not_zero i Hz) E)
    as (rd & v & Hres & Hrd & Hag).
  pose proof (op_arch_valid _ Hop) as Hv. pose proof (execute_result i c rd v Hc Hx Hv Hres) as He.
  exists (wr c rd v). split; [done|]. destruct Hr as (c' & t' & Hr & Hw).
  assert (c' = c1) as -> by congruence. apply (with_regs_write c Hc f'); try done.
  - destruct Hv as (Hv & _). by rewrite Hrd in Hv.
  - exact (keeps_wf _ _ (execute_keeps i c _ He) Hc).
Qed.

Lemma macro_ops_division f op : is_division op = true ->
  exists q r, macro_ops f op = division_program op q r.
Proof.
  intros Ed. destruct op; try discriminate Ed; cbn [macro_ops division_program];
    first [ eexists _, 0; reflexivity | eexists _, _; reflexivity ].
Qed.

Lemma guarded_false ops f check rd v : guarded ops f check rd v -> check = false -> run64 ops f = None.
Proof. unfold guarded. destruct (run64 ops f); [|done]. intros [H _]. congruence. Qed.

Lemma min_by_zero_rejected f op q r :
  regs_wf f -> op_arch op -> norm_rd (op_operands op) <> Some 0%nat -> word_division_min_by_zero f op ->
  run64 (division_program op q r) f = None.
Proof.
  intros [Hf H0] (H1 & H2 & H3) Hrd Hm. destruct op; try done;
    destruct H1 as [_ H1], H2 as [_ H2], H3 as [_ H3]; cbn in Hrd, Hm, H1, H2, H3; destruct Hm as [Hx Hy];
    match type of Hrd with Some ?r <> _ => assert (r <> 0%nat) by congruence end; cbn [division_program].
  - eapply guarded_false; [by apply DIVW_guarded|]. unfold divw_check. by apply divw_min_0_rejected.
  - eapply guarded_false; [by apply REMW_guarded|]. unfold divw_check. by apply divw_min_0_rejected.
Qed.

(** C32: [DIVW] and [REMW] reject the least dividend divided by zero: every advice
    fails an assertion, so [trace] panics, and no proof exists for a step that
    [execute] accepts. *)
Theorem word_division_incomplete (n : nat) (c : Cpu) (i : Instruction) l l' a :
  cpu_wf c -> xlen c = Bit64 -> temporaries_free (vr_allocator c) -> op_arch (operands i) ->
  word_division_min_by_zero (reg c) (operands i) -> rd_is_zero i = false ->
  dispatch_inline_sequence i Bit64 (vr_allocator c) = Some (l, a) -> Forall2 advice_of l l' ->
  is_Some (execute i c) /\ run_list (trace (S n)) l' c = None /\ trace (S (S n)) i c = None.
Proof.
  intros Hc Hx Ha Hop Hm Hz Hl Hadv.
  pose proof (op_arch_valid _ Hop) as Hv. pose proof (rd_not_zero i Hz) as Hrd.
  assert (Ed : is_division (operands i) = true) by (destruct (operands i); done).
  assert (Hmem : is_memory (operands i) = false) by (destruct (operands i); done).
  pose proof (fun q r => min_by_zero_rejected (reg c) (operands i) q r (reg_wf c Hc) Hop Hrd Hm) as Hnone.
  assert (Hres : exists rd v, result64 (reg c) (operands i) = Some (rd, v))
    by (destruct (operands i); try done; by do 2 eexists).
  destruct Hres as (rd & v & Hres). split.
  { rewrite (execute_result i c rd v Hc Hx Hv Hres). by eexists. }
  split.
  { destruct (run_advised n c i l l' a Hc Hx Ha Hop Ed Hz Hl Hadv) as (q & r & Hr).
    by rewrite Hnone in Hr. }
  destruct (macro_sequence c i rd v Hc Hx Ha Hv Hres) as (m & Hm' & Hops).
  pose proof (trace_program n c i Hc Hx m _ Hmem Hz Hm' Hops (macro_ops_simple _ _ Hop Hrd)) as Ht.
  destruct (macro_ops_division (reg c) (operands i) Ed) as (q & r & E). by rewrite E, Hnone in Ht.
Qed.

(** ** The theorems at concrete inputs *)
Lemma new_temporaries_free : temporaries_free VirtualRegisterAllocator_new.
Proof.
  split; [done|]. intros r Hr. unfold free. cbn [allocated VirtualRegisterAllocator_new].
  apply lookup_replicate_2. unfold instruction_reg in Hr. alloc_unfold. lia.
Qed.
Lemma arch_123 : arch_reg 1 /\ arch_reg 2 /\ arch_reg 3.
Proof. repeat split; cbv; lia. Qed.
Ltac arch := destruct arch_123 as (? & ? & ?); done.

Lemma trace_refines_execute_witness :
  exists c1 t, trace 2 (at_instr (DIV {| R_rd := 3; R_rs1 := 1; R_rs2 := 2 |})) (cpu_with 7 (-2)) = Some (c1, t)
    /\ c1 ≈ wr (cpu_with 7 (-2)) 3 (-3).
Proof.
  apply (trace_refines_execute 0 (cpu_with 7 (-2)) (at_instr (DIV {| R_rd := 3; R_rs1 := 1; R_rs2 := 2 |}))).
  - by apply cpu_with_wf.
  - reflexivity.
  - apply new_temporaries_free.
  - arch.
  - reflexivity.
  - intros [].
  - vm_compute. reflexivity.
Defined.

(** The sequence of [DIVU x3, x1, x2] with the advice [q]. *)
Definition divu_advised (q : Z) : option (list Instruction) :=
  match dispatch_inline_sequence (at_instr (DIVU {| R_rd := 3; R_rs1 := 1; R_rs2 := 2 |})) Bit64
          VirtualRegisterAllocator_new with
  | Some (l, _) => set_advice 0 q l
  | None => None
  end.
Definition divu_example : list Instruction := default [] (divu_advised 3).

Lemma division_sound_witness :
  exists c1 t c', run_list (trace 1) divu_example (cpu_with 7 2) = Some (c1, t) /\
    execute (at_instr (DIVU {| R_rd := 3; R_rs1 := 1; R_rs2 := 2 |})) (cpu_with 7 2) = Some c' /\ c1 ≈ c'.
Proof.
  pose proof (cpu_with_wf 7 2 ltac:(done) ltac:(done)) as Hwf.
  destruct (dispatch_inline_sequence (at_instr (DIVU {| R_rd := 3; R_rs1 := 1; R_rs2 := 2 |})) Bit64
          VirtualRegisterAllocator_new) as [[l a]|] eqn:El; [|by vm_compute in El].
  destruct (run_list (trace 1) divu_example (cpu_with 7 2)) as [[c1 t]|] eqn:Er; [|by vm_compute in Er].
  exists c1, t.
  destruct (division_sound 0 (cpu_with 7 2) (at_instr (DIVU {| R_rd := 3; R_rs1 := 1; R_rs2 := 2 |}))
    l divu_example a c1 t) as (c' & He & Heq).
  - exact Hwf.
  - reflexivity.
  - apply new_temporaries_free.
  - clear. arch.
  - reflexivity.
  - reflexivity.
  - exact El.
  - clear Er. vm_compute in El. injection El as <- _. vm_compute.
    repeat first [apply Forall2_cons_2 | apply Forall2_nil_2]; try (left; reflexivity).
    right. repeat eexists.
  - exact Er.
  - exists c'. exact (conj eq_refl (conj He Heq)).
Defined.

Lemma word_division_incomplete_witness :
  let i := at_instr (DIVW {| R_rd := 3; R_rs1 := 1; R_rs2 := 2 |}) in
  is_Some (execute i (cpu_with (- 2 ^ 31) 0)) /\ trace 2 i (cpu_with (- 2 ^ 31) 0) = None.
Proof.
  intros i. pose proof (cpu_with_wf (- 2 ^ 31) 0 ltac:(done) ltac:(done)) as Hwf.
  destruct (dispatch_inline_sequence i Bit64 VirtualRegisterAllocator_new) as [[l a]|] eqn:El;
    [|by vm_compute in El].
  destruct (word_division_incomplete 0 (cpu_with (- 2 ^ 31) 0) i l l a) as (He & _ & Ht).
  - exact Hwf.
  - reflexivity.
  - apply new_temporaries_free.
  - clear. arch.
  - exact (conj eq_refl eq_refl).
  - reflexivity.
  - exact El.
  - clear. induction l; constructor; [by left|done].
  - exact (conj He Ht).
Defined.
