(* ===== verification/MemRun.v ===== *)
(** * MemRun: programs that access memory, on a register file and an MMU

    The sequences of the memory instructions are straight-line code with [LD]
    and [SD] of aligned doublewords.  [run_mem] runs such a program on a
    register file and a memory management unit and lists the accesses it
    records; the emulator's [run_list] simulates it. *)
From S2P Require Import Prelude Bits Registers AdviceTape Mmu MmuSpec Cpu Formats Instr Assembler.
From S2P Require Import Sequences Trace ExecWf Exec64 SeqOps SeqRun TraceCorrect.

(** ** Running a program *)

Definition ld_address (f : regs) (o : FormatLoad) : Z :=
  as_u64 (as_u64 (f (L_rs1 o)) + as_u64 (as_i32 (L_imm o))).
Definition s_address (f : regs) (o : FormatS) : Z := as_u64 (as_i64 (f (S_rs1 o) + S_imm o)).

Definition state : Type := regs * Mmu * list RAMAccess.

(** One instruction: [LD], [SD], or straight-line code. *)
Definition mem_step (op : Op) (f : regs) (s : Mmu) : option state :=
  match op with
  | LD o =>
      '(r, s') ← load_doubleword (ld_address f o) s;
      match r with inr (v, a) => Some (upd f (L_rd o) (as_i64 v), s', [Read a]) | inl _ => None end
  | SD o =>
      '(r, s') ← store_doubleword (s_address f o) (as_u64 (f (S_rs2 o))) s;
      match r with inr a => Some (f, s', [Instr.Write a]) | inl _ => None end
  | _ => f' ← run_outcome f (outcome64 f op); Some (f', s, [])
  end.
Fixpoint run_mem (l : list Op) (f : regs) (s : Mmu) : option state :=
  match l with
  | [] => Some (f, s, [])
  | op :: l =>
      '(f1, s1, a1) ← mem_step op f s; '(f2, s2, a2) ← run_mem l f1 s1; Some (f2, s2, a1 ++ a2)
  end.

Lemma run_mem_app l1 l2 f s :
  run_mem (l1 ++ l2) f s =
    ('(f1, s1, a1) ← run_mem l1 f s; '(f2, s2, a2) ← run_mem l2 f1 s1; Some (f2, s2, a1 ++ a2)).
Proof.
  revert f s. induction l1 as [|op l1 IH]; intros f s; cbn [app run_mem].
  { cbn [mbind option_bind]. by destruct (run_mem l2 f s) as [[[f2 s2] a2]|]. }
  destruct (mem_step op f s) as [[[f1 s1] a1]|]; cbn [mbind option_bind]; [|done]. rewrite IH.
  destruct (run_mem l1 f1 s1) as [[[f2 s2] a2]|]; cbn [mbind option_bind]; [|done].
  destruct (run_mem l2 f2 s2) as [[[f3 s3] a3]|]; cbn [mbind option_bind]; [|done]. by rewrite app_assoc.
Qed.

(** Straight-line code leaves the memory alone. *)
Lemma mem_step_pure op f s : is_memory op = false ->
  mem_step op f s = (f' ← run_outcome f (outcome64 f op); Some (f', s, [])).
Proof. by destruct op. Qed.
Lemma run_mem_pure l f s : Forall (fun op => is_memory op = false) l ->
  run_mem l f s = (f' ← run64 l f; Some (f', s, [])).
Proof.
  intros H. revert f. induction H as [|op l Hop Hl IH]; intros f; cbn [run_mem run64]; [done|].
  rewrite mem_step_pure by done. destruct (run_outcome _ _) as [f1|]; cbn [mbind option_bind]; [|done].
  rewrite IH. by destruct (run64 l f1).
Qed.

(** ** The emulator runs it *)

(** Straight-line code, or an aligned access. *)
Definition mem_op (op : Op) : Prop :=
  straight op /\ match op with LD _ | SD _ => True | _ => forall g, is_Some (outcome64 g op) end.
Lemma simple_mem_op op : simple_op op -> mem_op op.
Proof. intros [H1 H2]. split; [done|]. by destruct op. Qed.

Lemma with_regs_set_mmu c s f c' s' : with_regs (set_mmu c s) f c' ->
  with_regs (set_mmu c s') f (set_mmu c' s').
Proof.
  intros [H1 H2 H3]. split; [exact H1| |by destruct H3; split].
  change (set_mmu (set_x c' []) s' = set_mmu (set_x (set_mmu c s) []) s'). by rewrite H2.
Qed.

Lemma on_mmu_eq {A} (m : St Mmu (Trap + A)) c :
  on_mmu m c = ('(r, s') ← m (mmu c); match r with inr a => Some (a, set_mmu c s') | inl _ => None end).
Proof. reflexivity. Qed.

Section Access.
Context (c : Cpu) (s : Mmu) (f : regs) (c1 : Cpu) (Hw : with_regs (set_mmu c s) f c1).

Lemma with_regs_at : mmu c1 = s.
Proof. exact (with_regs_mmu _ _ _ Hw). Qed.

Lemma LD_ram o : valid_reg (L_rd o) -> valid_reg (L_rs1 o) ->
  match mem_step (LD o) f s with
  | Some (f', s', acc) => exists c2 a,
      LD_exec c1 o = Some (c2, a) /\ acc = [Read a] /\ with_regs (set_mmu c s') f' c2
  | None => LD_exec c1 o = None
  end.
Proof.
  intros Hrd Hrs1. pose proof (wreg_wf _ _ _ Hw) as Hwf. unfold LD_exec. cbn [mem_step].
  rewrite (lookup_reg c1 Hwf), (wreg_reg _ _ _ Hw) by done. cbn [mbind option_bind]. cbv zeta.
  rewrite on_mmu_eq, with_regs_at. fold (ld_address f o).
  destruct (load_doubleword _ s) as [[[t|[v a]] s']|]; cbn [mbind option_bind]; try done.
  pose proof (with_regs_set_mmu _ _ _ _ s' Hw) as Hw'.
  rewrite (write_register_wr _ (wreg_wf _ _ _ Hw')) by done. cbn [mbind option_bind].
  eexists _, a. split; [done|]. split; [done|]. apply with_regs_wr; [done..|].
  apply wr_wf; [by apply (wreg_wf _ _ _ Hw')|]. apply wraps_range. lia.
Qed.

Lemma SD_ram o : valid_reg (S_rs1 o) -> valid_reg (S_rs2 o) ->
  match mem_step (SD o) f s with
  | Some (f', s', acc) => exists c2 a,
      SD_exec c1 o = Some (c2, a) /\ acc = [Instr.Write a] /\ with_regs (set_mmu c s') f' c2
  | None => SD_exec c1 o = None
  end.
Proof.
  intros H1 H2. pose proof (wreg_wf _ _ _ Hw) as Hwf. unfold SD_exec, effective_address. cbn [mem_step].
  rewrite !(lookup_reg c1 Hwf), !(wreg_reg _ _ _ Hw) by done. cbn [mbind option_bind].
  rewrite on_mmu_eq, with_regs_at. fold (s_address f o).
  destruct (store_doubleword _ _ s) as [[[t|a] s']|]; cbn [mbind option_bind]; try done.
  eexists _, a. split; [done|]. split; [done|]. by eapply with_regs_set_mmu.
Qed.
End Access.

Section Simulation.
Context (step : Instruction -> Cpu -> option (Cpu * list Cycle)).
Context (Hstep : forall i c, traced_sequence i c = None -> rd_is_zero i = false ->
  step i c = default_trace_cycle i c).

Lemma step_mem c s f c1 i :
  xlen c = Bit64 -> with_regs (set_mmu c s) f c1 -> mem_op (operands i) ->
  match mem_step (operands i) f s with
  | Some (f', s', acc) =>
      exists c2 t, step i c1 = Some (c2, t) /\ with_regs (set_mmu c s') f' c2 /\ accesses t = acc
  | None => step i c1 = None
  end.
Proof.
  intros Hx Hw [Hs Hop]. destruct (is_memory (operands i)) eqn:Hmem.
  - assert (Hd : step i c1 = default_trace_cycle i c1).
    { apply Hstep; [unfold traced_sequence; by destruct (operands i); try (destruct (Hop (reg c1)))|].
      unfold rd_is_zero. destruct Hs as [_ Hz]. destruct (norm_rd _) as [[]|]; done. }
    pose proof (default_trace_cycle_ram i c1 (wreg_wf _ _ _ Hw) (proj1 Hs)) as Ht. rewrite <- Hd in Ht.
    destruct Hs as [(H1 & H2 & H3) _]. unfold execute_ram in Ht.
    destruct (operands i); try discriminate Hmem; try (by destruct (Hop (reg c1))); cbn in H1, H2, H3.
    + pose proof (LD_ram c s f c1 Hw o H1 H2) as Hl. destruct (mem_step _ f s) as [[[f' s'] acc]|].
      * destruct Hl as (c2 & a & E & -> & Hw2). rewrite E in Ht. destruct Ht as [st ->]. by eexists _, _.
      * by rewrite Hl in Ht.
    + pose proof (SD_ram c s f c1 Hw o H2 H3) as Hl. destruct (mem_step _ f s) as [[[f' s'] acc]|].
      * destruct Hl as (c2 & a & E & -> & Hw2). rewrite E in Ht. destruct Ht as [st ->]. by eexists _, _.
      * by rewrite Hl in Ht.
  - rewrite mem_step_pure by done.
    assert (Hsome : is_Some (outcome64 f (operands i))) by (destruct (operands i); try done; apply Hop).
    pose proof (step_outcome step Hstep (set_mmu c s) f c1 i Hx Hw Hs Hsome) as Ho.
    by destruct (run_outcome _ _).
Qed.

Lemma run_list_mem l c s f c1 :
  xlen c = Bit64 -> with_regs (set_mmu c s) f c1 -> Forall (fun i => mem_op (operands i)) l ->
  match run_mem (map operands l) f s with
  | Some (f', s', acc) =>
      exists c2 t, run_list step l c1 = Some (c2, t) /\ with_regs (set_mmu c s') f' c2 /\ accesses t = acc
  | None => run_list step l c1 = None
  end.
Proof.
  intros Hx. revert s f c1. induction l as [|i l IH]; intros s f c1 Hw Ho; cbn [map run_mem run_list].
  { by exists c1, []. }
  apply list.Forall_cons in Ho as [Hi Ho]. pose proof (step_mem c s f c1 i Hx Hw Hi) as Hst.
  destruct (mem_step _ f s) as [[[f1 s1] a1]|]; cbn [mbind option_bind]; [|by rewrite Hst].
  destruct Hst as (c2 & t & -> & Hw2 & Ha). cbn [mbind option_bind]. specialize (IH s1 f1 c2 Hw2 Ho).
  destruct (run_mem _ f1 s1) as [[[f2 s2] a2]|]; cbn [mbind option_bind]; [|by rewrite IH].
  destruct IH as (c3 & t' & -> & Hw3 & Ha'). cbn [mbind option_bind]. eexists _, _. split; [done|].
  split; [done|]. by rewrite accesses_app, Ha, Ha'.
Qed.
End Simulation.

(** ** A memory instruction's sequence *)

Lemma with_regs_here c : cpu_wf c -> with_regs (set_mmu c (mmu c)) (reg c) c.
Proof. intros Hc. destruct c. by apply with_regs_refl. Qed.

(** The sequence [l] of an instruction traced from [c], in [trace]. *)
Lemma run_sequence n c l ops : cpu_wf c -> xlen c = Bit64 -> map operands l = ops -> Forall mem_op ops ->
  match run_mem ops (reg c) (mmu c) with
  | Some (f', s', acc) => exists c2 t,
      run_list (trace (S n)) l c = Some (c2, t) /\ with_regs (set_mmu c s') f' c2 /\ accesses t = acc
  | None => run_list (trace (S n)) l c = None
  end.
Proof.
  intros Hc Hx <- Hs. rewrite Forall_map in Hs.
  exact (run_list_mem (trace (S n)) (fun i => trace_leaf n i) l c (mmu c) (reg c) c Hx (with_regs_here c Hc) Hs).
Qed.

(** Its result: a write of [v] to [rd] and a space. *)
Definition performs (ops : list Op) (f : regs) (s : Mmu) (write : option (nat * Z)) (s1 : Mmu)
    (acc : list RAMAccess) : Prop :=
  exists f' s', run_mem ops f s = Some (f', s', acc) /\ same_space s1 s' /\
    agree f' (match write with Some (rd, v) => upd f rd v | None => f end).
