(* ===== verification/MemOps.v ===== *)
(** * MemOps: the programs of the memory instructions' sequences

    What each [inline_sequence] of a load, store or atomic returns on the 64-bit
    machine when the temporaries are free: the operations, nested sequences
    expanded.  The atomics' programs take the first temporary they use, 40, or
    41 when 40 stands for a destination [x0]. *)
From S2P Require Import Prelude Bits Registers AdviceTape Mmu Cpu Formats Instr Assembler Sequences.
From S2P Require Import MemSequences SeqOps.

Definition ldo rd rs1 : FormatLoad := {| L_rd := rd; L_rs1 := rs1; L_imm := 0 |}.
Definition so rs1 rs2 : FormatS := {| S_rs1 := rs1; S_rs2 := rs2; S_imm := 0 |}.
Definition align rs1 imm : FormatAssert := {| A_rs1 := rs1; A_imm := imm |}.

(** The expansions of the shifts by a constant and by a register. *)
Definition slli (rd rs1 : nat) (s : Z) : Op := VirtualMULI (ri rd rs1 (2 ^ s)).
Definition srli (rd rs1 : nat) (s : Z) : Op :=
  VirtualSRLI {| VI_rd := rd; VI_rs1 := rs1; VI_imm := as_u64 (bitmask_imm s 64) |}.
Definition sll (t rd rs1 rs2 : nat) : list Op := [VirtualPow2 (ri t rs2 0); MUL (rr rd rs1 t)].
Definition srl (t rd rs1 rs2 : nat) : list Op :=
  [VirtualShiftRightBitmask (ri t rs2 0); VirtualSRL {| VR_rd := rd; VR_rs1 := rs1; VR_rs2 := t |}].

(** The address in [t] and its doubleword's in [t + 1]. *)
Definition addresses (t rs1 : nat) (imm : Z) : list Op :=
  [ADDI (ri t rs1 (as_u64 (as_u64 imm))); ANDI (ri (t + 1) t (as_u64 (-8)))].

Section Loads.
Context (rd rs1 : nat) (imm : Z).

(** Loads that shift the addressed bytes to the top and back. *)
Definition top_ops (x : Z) (last : Op) : list Op :=
  [XORI (ri 40 40 x); slli 40 40 3] ++ sll 42 41 41 40 ++ [last].
Definition LB_ops : list Op := addresses 40 rs1 imm ++ LD (ldo 41 41) :: top_ops 7 (srai rd 41 56).
Definition LBU_ops : list Op := addresses 40 rs1 imm ++ LD (ldo 41 41) :: top_ops 7 (srli rd 41 56).
Definition LH_ops : list Op :=
  VirtualAssertHalfwordAlignment (align rs1 (as_i64 imm)) :: addresses 40 rs1 imm ++
  LD (ldo 41 41) :: top_ops 6 (srai rd 41 48).
Definition LHU_ops : list Op :=
  VirtualAssertHalfwordAlignment (align rs1 (as_i64 imm)) :: addresses 40 rs1 imm ++
  LD (ldo 41 41) :: top_ops 6 (srli rd 41 48).
Definition LWU_ops : list Op :=
  VirtualAssertWordAlignment (align rs1 (as_i64 imm)) :: addresses 40 rs1 imm ++
  LD (ldo 41 41) :: top_ops 4 (srli rd 41 32).
End Loads.

(** [LW] with the temporaries [t], [t + 1] and [t + 2]. *)
Definition LW_ops (t rd rs1 : nat) (imm : Z) : list Op :=
  VirtualAssertWordAlignment (align rs1 (as_i64 imm)) :: addresses t rs1 imm ++
  LD (ldo (t + 1) (t + 1)) :: slli t t 3 :: srl (t + 2) (t + 1) (t + 1) t ++
  [VirtualSignExtendWord (ri rd (t + 1) 0)].

Section Stores.
Context (rs1 rs2 : nat) (imm : Z).

(** Stores that replace the bytes under a mask. *)
Definition masked_ops (mask : Z) : list Op :=
  [slli 43 40 3; LUI {| U_rd := 40; U_imm := mask |}] ++ sll 44 40 40 43 ++ sll 44 43 rs2 43 ++
  [XOR (rr 43 42 43); AND (rr 43 43 40); XOR (rr 42 42 43)].
Definition SB_ops : list Op :=
  addresses 40 rs1 imm ++ LD (ldo 42 41) :: masked_ops 0xff ++ [SD (so 41 42)].
Definition SH_ops : list Op :=
  VirtualAssertHalfwordAlignment (align rs1 (as_i64 imm)) :: addresses 40 rs1 imm ++
  LD (ldo 42 41) :: masked_ops 0xffff ++ [SD (so 41 42)].
Definition SW_ops : list Op :=
  VirtualAssertWordAlignment (align rs1 (as_i64 imm)) :: addresses 40 rs1 imm ++
  LD (ldo 42 41) ::
  [slli 40 40 3; ORI (ri 43 0 (as_u64 (-1))); srli 43 43 32] ++ sll 44 43 43 40 ++ sll 44 40 rs2 40 ++
  [XOR (rr 40 42 40); AND (rr 40 40 43); XOR (rr 42 42 40)] ++ [SD (so 41 42)].
End Stores.

Section Atomics.
Context (t rd rs1 rs2 : nat).

Definition AMO_D_ops (op : FormatR -> Op) : list Op :=
  [LD (ldo (t + 1) rs1); op (rr t (t + 1) rs2); SD (so rs1 t); ADDI (ri rd (t + 1) 0)].
Definition AMOSWAPD_ops : list Op := [LD (ldo t rs1); SD (so rs1 rs2); ADDI (ri rd t 0)].
Definition AMO_D_select_ops (op : FormatR -> Op) (rs2_first : bool) : list Op :=
  [LD (ldo t rs1); op (if rs2_first then rr (t + 1) rs2 t else rr (t + 1) t rs2);
   SUB (rr (t + 2) rs2 t); MUL (rr (t + 2) (t + 2) (t + 1)); ADD (rr (t + 1) t (t + 2));
   SD (so rs1 (t + 1)); ADDI (ri rd t 0)].

(** amo.rs, with the temporary [u] for the nested shifts. *)
Definition amo_pre_ops (u v_rd v_dword v_shift : nat) : list Op :=
  [VirtualAssertWordAlignment (align rs1 0); ANDI (ri v_shift rs1 (as_u64 (-8))); LD (ldo v_dword v_shift);
   slli v_shift rs1 3] ++ srl u v_rd v_dword v_shift.
Definition amo_post_ops (u rs2 v_dword v_shift v_mask v_rd : nat) : list Op :=
  [ORI (ri v_mask 0 (as_u64 (-1))); srli v_mask v_mask 32] ++ sll u v_mask v_mask v_shift ++
  sll u v_shift rs2 v_shift ++
  [XOR (rr v_shift v_dword v_shift); AND (rr v_shift v_shift v_mask); XOR (rr v_dword v_dword v_shift);
   ANDI (ri v_mask rs1 (as_u64 (-8))); SD (so v_mask v_dword); VirtualSignExtendWord (ri rd v_rd 0)].
Definition AMO_W_ops (op : FormatR -> Op) : list Op :=
  amo_pre_ops (t + 5) t (t + 3) (t + 4) ++ op (rr (t + 1) t rs2) ::
  amo_post_ops (t + 5) (t + 1) (t + 3) (t + 4) (t + 2) t.
Definition AMOSWAPW_ops : list Op :=
  amo_pre_ops (t + 4) (t + 3) (t + 1) (t + 2) ++ amo_post_ops (t + 4) rs2 (t + 1) (t + 2) t (t + 3).
Definition AMO_W_select_ops (ext : FormatI -> Op) (op : FormatR -> Op) (rs2_first : bool) : list Op :=
  amo_pre_ops (t + 3) t (t + 1) (t + 2) ++
  [ext (ri (t + 3) rs2 0); ext (ri (t + 4) t 0);
   op (if rs2_first then rr (t + 4) (t + 3) (t + 4) else rr (t + 4) (t + 4) (t + 3));
   SUB (rr (t + 3) rs2 t); MUL (rr (t + 3) (t + 3) (t + 4)); ADD (rr (t + 3) (t + 3) t)] ++
  amo_post_ops (t + 5) (t + 3) (t + 1) (t + 2) (t + 4) t.
End Atomics.

Section Reserved.
Context (rd rs1 rs2 : nat).

Definition LRW_ops : list Op := ADDI (ri 32 rs1 0) :: ADDI (ri 33 0 0) :: LW_ops 40 rd rs1 0.
Definition LRD_ops : list Op := [ADDI (ri 33 rs1 0); ADDI (ri 32 0 0); LD (ldo rd rs1)].

(** The store conditionals, with the advice [ok]. *)
Definition SC_pre_ops (reservation : nat) (ok : Z) : list Op :=
  [VirtualAdvice (jj 40) ok; ADDI (ri 41 0 1); VirtualAssertLTE (bb 40 41); SUB (rr 41 reservation rs1);
   MUL (rr 41 40 41); VirtualAssertEQ (bb 41 0)].
Definition SCD_ops (ok : Z) : list Op :=
  SC_pre_ops 33 ok ++
  [LD (ldo 41 rs1); SUB (rr 42 rs2 41); MUL (rr 42 42 40); ADD (rr 42 41 42); SD (so rs1 42);
   ADDI (ri 33 0 0); ADDI (ri 32 0 0); XORI (ri rd 40 1)].
Definition SCW_ops (ok : Z) : list Op :=
  SC_pre_ops 32 ok ++ ADDI (ri 32 40 0) :: LW_ops 41 40 rs1 0 ++
  [SUB (rr 41 rs2 40); MUL (rr 41 41 32); ADD (rr 41 40 41); ADDI (ri 33 41 0)] ++ SW_ops rs1 33 0 ++
  [XORI (ri rd 32 1); ADDI (ri 32 0 0); ADDI (ri 33 0 0)].
End Reserved.

Section HasOps.
Context (s : Struct FormatLoad) (st : Struct FormatS).
Abbreviation ops_L f := (f (L_rd (operands s)) (L_rs1 (operands s)) (L_imm (operands s))).
Abbreviation ops_S f := (f (S_rs1 (operands st)) (S_rs2 (operands st)) (S_imm (operands st))).

Lemma LB_has_ops : has_ops (LB_inline_sequence Bit64 s) (ops_L LB_ops).
Proof. solve_has_ops. Qed.
Lemma LBU_has_ops : has_ops (LBU_inline_sequence Bit64 s) (ops_L LBU_ops).
Proof. solve_has_ops. Qed.
Lemma LH_has_ops : has_ops (LH_inline_sequence Bit64 s) (ops_L LH_ops).
Proof. solve_has_ops. Qed.
Lemma LHU_has_ops : has_ops (LHU_inline_sequence Bit64 s) (ops_L LHU_ops).
Proof. solve_has_ops. Qed.
Lemma LW_has_ops : has_ops (LW_inline_sequence Bit64 s) (ops_L (LW_ops 40)).
Proof. solve_has_ops. Qed.
Lemma LWU_has_ops : has_ops (LWU_inline_sequence Bit64 s) (ops_L LWU_ops).
Proof. solve_has_ops. Qed.
Lemma SB_has_ops : has_ops (SB_inline_sequence Bit64 st) (ops_S SB_ops).
Proof. solve_has_ops. Qed.
Lemma SH_has_ops : has_ops (SH_inline_sequence Bit64 st) (ops_S SH_ops).
Proof. solve_has_ops. Qed.
Lemma SW_has_ops : has_ops (SW_inline_sequence Bit64 st) (ops_S SW_ops).
Proof. solve_has_ops. Qed.
End HasOps.

Section AtomicsHasOps.
Context (s : Struct FormatAMO) (s' : Struct FormatR).
Abbreviation ops f := (f 40%nat (AMO_rd (operands s)) (AMO_rs1 (operands s)) (AMO_rs2 (operands s))).
Abbreviation ops_R f := (f (R_rd (operands s')) (R_rs1 (operands s')) (R_rs2 (operands s'))).

Lemma AMO_D_has_ops op : has_ops (AMO_D_inline_sequence Bit64 s op) (ops AMO_D_ops op).
Proof. solve_has_ops. Qed.
Lemma AMOSWAPD_has_ops : has_ops (AMOSWAPD_inline_sequence Bit64 s) (ops AMOSWAPD_ops).
Proof. solve_has_ops. Qed.
Lemma AMO_D_select_has_ops op b : has_ops (AMO_D_select Bit64 s op b) (ops AMO_D_select_ops op b).
Proof. destruct b; solve_has_ops. Qed.
Lemma AMO_W_has_ops op : has_ops (AMO_W_inline_sequence Bit64 s op) (ops AMO_W_ops op).
Proof. solve_has_ops. Qed.
Lemma AMOSWAPW_has_ops : has_ops (AMOSWAPW_inline_sequence Bit64 s) (ops AMOSWAPW_ops).
Proof. solve_has_ops. Qed.
Lemma AMO_W_select_has_ops ext op b : has_ops (AMO_W_select Bit64 s ext op b) (ops AMO_W_select_ops ext op b).
Proof. destruct b; solve_has_ops. Qed.

Lemma LRW_has_ops : has_ops (LRW_inline_sequence Bit64 s') (LRW_ops (R_rd (operands s')) (R_rs1 (operands s'))).
Proof. solve_has_ops. Qed.
Lemma LRD_has_ops : has_ops (LRD_inline_sequence Bit64 s') (LRD_ops (R_rd (operands s')) (R_rs1 (operands s'))).
Proof. solve_has_ops. Qed.
Lemma SCD_has_ops : has_ops (SCD_inline_sequence Bit64 s') (ops_R SCD_ops 0).
Proof. solve_has_ops. Qed.
Lemma SCW_has_ops : has_ops (SCW_inline_sequence Bit64 s') (ops_R SCW_ops 0).
Proof. solve_has_ops. Qed.
End AtomicsHasOps.

(** *** With the destination [x0]: the sequence for a temporary, 40 *)
Definition remapped (m : nat -> M (list Instruction)) : M (list Instruction) :=
  let! vr := allocate in
  let! l := m vr in
  drop_guards [vr] ;;! M_ret l.

Section RemappedHasOps.
Context (s : Struct FormatAMO).
Definition amo_with_rd (r : nat) : Struct FormatAMO :=
  {| address := address s; operands := set_rd (operands s) r;
     virtual_sequence_remaining := virtual_sequence_remaining s;
     is_first_in_sequence := is_first_in_sequence s; is_compressed := is_compressed s |}.
Abbreviation ops f := (f 41%nat 40%nat (AMO_rs1 (operands s)) (AMO_rs2 (operands s))).

Lemma AMO_D_has_ops_x0 op :
  has_ops (remapped (fun vr => AMO_D_inline_sequence Bit64 (amo_with_rd vr) op)) (ops AMO_D_ops op).
Proof. solve_has_ops. Qed.
Lemma AMOSWAPD_has_ops_x0 :
  has_ops (remapped (fun vr => AMOSWAPD_inline_sequence Bit64 (amo_with_rd vr))) (ops AMOSWAPD_ops).
Proof. solve_has_ops. Qed.
Lemma AMO_D_select_has_ops_x0 op b :
  has_ops (remapped (fun vr => AMO_D_select Bit64 (amo_with_rd vr) op b)) (ops AMO_D_select_ops op b).
Proof. destruct b; solve_has_ops. Qed.
Lemma AMO_W_has_ops_x0 op :
  has_ops (remapped (fun vr => AMO_W_inline_sequence Bit64 (amo_with_rd vr) op)) (ops AMO_W_ops op).
Proof. solve_has_ops. Qed.
Lemma AMOSWAPW_has_ops_x0 :
  has_ops (remapped (fun vr => AMOSWAPW_inline_sequence Bit64 (amo_with_rd vr))) (ops AMOSWAPW_ops).
Proof. solve_has_ops. Qed.
Lemma AMO_W_select_has_ops_x0 ext op b :
  has_ops (remapped (fun vr => AMO_W_select Bit64 (amo_with_rd vr) ext op b)) (ops AMO_W_select_ops ext op b).
Proof. destruct b; solve_has_ops. Qed.
End RemappedHasOps.
