(* ===== verification/MemArith.v ===== *)
(** * MemArith: the arithmetic of sub-doubleword accesses

    The sequences of loads extract a field of a doubleword by two shifts, those
    of stores replace one by exclusive ors under a mask.  [field] and [merged]
    are the field and the replacement by bits. *)
From S2P Require Import Prelude Bits Registers AdviceTape Device Mmu MmuSpec MmuStore Cpu Formats Instr.
From S2P Require Import Sequences ExecWf SeqArith.

(** ** Bits of machine words *)
Lemma testbit_wrapu w z j : 0 <= w -> 0 <= j -> Z.testbit (wrapu w z) j = (j <? w) && Z.testbit z j.
Proof.
  intros Hw Hj. unfold wrapu. destruct (Z.ltb_spec j w).
  - by rewrite Z.mod_pow2_bits_low by lia.
  - by rewrite Z.mod_pow2_bits_high by lia.
Qed.
Lemma testbit_wraps w z j : 0 < w -> 0 <= j < w -> Z.testbit (wraps w z) j = Z.testbit z j.
Proof.
  intros Hw Hj. pose proof (testbit_wrapu w (wraps w z) j ltac:(lia) ltac:(lia)) as H.
  rewrite wrapu_wraps, testbit_wrapu in H by lia. by destruct (Z.ltb_spec j w); [|lia].
Qed.

(** Bitwise operations commute with the wrap-around. *)
Ltac wrapu_bits :=
  intros Hw; apply Z.bits_inj'; intros j Hj;
  rewrite testbit_wrapu, ?Z.land_spec, ?Z.lor_spec, ?Z.lxor_spec, !testbit_wrapu by lia; by destruct (_ <? _).
Lemma wrapu_land w a b : 0 <= w -> wrapu w (Z.land a b) = Z.land (wrapu w a) (wrapu w b).
Proof. wrapu_bits. Qed.
Lemma wrapu_lor w a b : 0 <= w -> wrapu w (Z.lor a b) = Z.lor (wrapu w a) (wrapu w b).
Proof. wrapu_bits. Qed.
Lemma wrapu_lxor w a b : 0 <= w -> wrapu w (Z.lxor a b) = Z.lxor (wrapu w a) (wrapu w b).
Proof. wrapu_bits. Qed.

(** The [w]-bit field of [v] at bit [off]. *)
Definition field (v off w : Z) : Z := wrapu w (Z.shiftr v off).
Lemma testbit_field v off w j : 0 <= off -> 0 <= w -> 0 <= j ->
  Z.testbit (field v off w) j = (j <? w) && Z.testbit v (j + off).
Proof. intros. unfold field. by rewrite testbit_wrapu, Z.shiftr_spec by lia. Qed.
Lemma field_range v off w : 0 < w -> in_u w (field v off w).
Proof. intros. by apply wrapu_range. Qed.

(** ** The address *)

(** The address an access computes, and the one of its doubleword. *)
Lemma base_signed z : as_u64 (as_i64 z - as_i64 z mod 8) = as_u64 z - as_u64 z mod 8.
Proof.
  rewrite <- (wrapu_sub_l 64 (as_i64 z)), (wrapu_wraps 64 ltac:(lia)).
  assert (as_i64 z mod 8 = as_u64 z mod 8) as ->.
  { rewrite <- (wrapu_wraps 64 ltac:(lia) z). symmetry. exact (wrapu_mod 3 64 (as_i64 z) ltac:(lia)). }
  pose proof (wrapu_range 64 ltac:(lia) z) as Hr. pose proof (Z.mod_pos_bound (as_u64 z) 8 ltac:(lia)).
  pose proof (Z.mod_le (as_u64 z) 8 (proj1 Hr) ltac:(lia)). apply wrapu_small. unfold in_u in *. lia.
Qed.
Lemma land_minus_8 z : Z.land z (as_i64 (as_u64 (-8))) = z - z mod 8.
Proof.
  change (as_i64 (as_u64 (-8))) with (Z.lnot (Z.ones 3)). rewrite <- Z.ldiff_land, Z.ldiff_ones_r by lia.
  rewrite Z.shiftr_div_pow2, Z.shiftl_mul_pow2 by lia. change (2 ^ 3) with 8. pose proof (Z.div_mod z 8). lia.
Qed.
Lemma in_s_base z : in_s 64 z -> in_s 64 (z - z mod 8).
Proof. intros H. rewrite <- land_minus_8. by apply in_s_land. Qed.

(** An alignment assertion of [k = 2^n] bytes. *)
Lemma aligned_check n z : 0 <= n <= 64 -> (Z.land (as_i64 z) (2 ^ n - 1) =? 0) = (as_u64 z mod 2 ^ n =? 0).
Proof.
  intros Hn. rewrite <- (Z.ones_equiv n) at 1 || replace (2 ^ n - 1) with (Z.ones n) by (rewrite Z.ones_equiv; lia).
  rewrite Z.land_ones by lia. rewrite (wrapu_mod n 64 z Hn).
  rewrite <- (wrapu_mod n 64 (as_i64 z) Hn), wrapu_wraps, (wrapu_mod n 64 z Hn) by lia. done.
Qed.

(** ** Shift amounts *)
Lemma byte_shift_amount z : as_u64 (as_i64 (z * as_i64 (2 ^ 3))) mod 64 = 8 * (z mod 8).
Proof.
  rewrite u64_mod64. change (as_i64 (2 ^ 3)) with 8.
  transitivity (as_u64 (as_i64 (z * 8)) mod 64); [symmetry; apply u64_mod64|].
  rewrite wrapu_wraps, u64_mod64 by lia. change 64 with (8 * 8). rewrite (Z.mul_comm z), Z.mul_mod_distr_l; lia.
Qed.

(** The distance of a [k]-byte field from the top of its doubleword. *)
Lemma xor_offset k r : (k = 1 \/ k = 2 \/ k = 4)%Z -> 0 <= r < 8 -> r mod k = 0 -> Z.lxor r (8 - k) = 8 - k - r.
Proof.
  intros Hk Hr Hm. assert (r = 0 \/ r = 1 \/ r = 2 \/ r = 3 \/ r = 4 \/ r = 5 \/ r = 6 \/ r = 7) as Hr' by lia.
  destruct Hk as [->|[->| ->]]; destruct Hr' as [->|[->|[->|[->|[->|[->|[->| ->]]]]]]]; vm_compute in Hm |- *; congruence.
Qed.
Lemma lxor_mod8 z m : 0 <= m < 8 -> Z.lxor z m mod 8 = Z.lxor (z mod 8) m.
Proof.
  intros Hm. change 8 with (2 ^ 3). apply Z.bits_inj'. intros j Hj.
  rewrite Z.testbit_mod_pow2, !Z.lxor_spec, Z.testbit_mod_pow2 by lia.
  destruct (Z.ltb_spec j 3); [done|]. cbn [andb]. rewrite xorb_false_l. symmetry.
  apply (testbit_out 3); [exact Hm|lia].
Qed.

(** ** Loading a field *)

(** The field at the top of a word, brought back by an arithmetic shift. *)
Lemma top_field_signed v w off : 0 < w <= 64 -> 0 <= off -> off + w <= 64 ->
  Z.shiftr (as_i64 (Z.shiftl v (64 - w - off))) (64 - w) = wraps w (field v off w).
Proof.
  intros Hw Ho Hle. unfold field. rewrite wraps_wrapu by lia.
  apply (in_s_wrapu_inj w ltac:(lia)).
  - unfold in_s. rewrite Z.shiftr_div_pow2 by lia. pose proof (wraps_range 64 ltac:(lia) (Z.shiftl v (64 - w - off))) as Hr.
    unfold in_s in Hr. replace (64 - 1) with ((64 - w) + (w - 1)) in Hr by lia. rewrite Z.pow_add_r in Hr by lia.
    pose proof (pow2_pos (64 - w) ltac:(lia)).
    split; [apply Z.div_le_lower_bound; [lia|nia]|apply Z.div_lt_upper_bound; [lia|nia]].
  - apply wraps_range. lia.
  - rewrite wrapu_wraps by lia. apply Z.bits_inj'. intros j Hj. rewrite !testbit_wrapu by lia.
    destruct (Z.ltb_spec j w); [|done]. cbn [andb]. rewrite !Z.shiftr_spec by lia.
    rewrite testbit_wraps, Z.shiftl_spec by lia. f_equal. lia.
Qed.
Lemma top_field_unsigned v w off : 0 < w <= 64 -> 0 <= off -> off + w <= 64 ->
  Z.shiftr (as_u64 (as_i64 (Z.shiftl v (64 - w - off)))) (64 - w) = field v off w.
Proof.
  intros Hw Ho Hle. rewrite wrapu_wraps by lia. apply Z.bits_inj'. intros j Hj.
  rewrite testbit_field, Z.shiftr_spec, testbit_wrapu by lia.
  destruct (Z.ltb_spec (j + (64 - w)) 64), (Z.ltb_spec j w); try lia. cbn [andb].
  rewrite Z.shiftl_spec by lia. f_equal. lia.
Qed.
(** The field brought down, then extended. *)
Lemma low_field v w off : 0 < w -> 0 <= off -> off + w <= 64 ->
  wraps w (as_i64 (Z.shiftr (as_u64 (as_i64 v)) off)) = wraps w (field v off w).
Proof.
  intros Hw Ho Hle. unfold field. rewrite wraps_narrow_s, wraps_wrapu, wrapu_wraps by lia.
  apply wraps_eqm; [lia|]. apply Z.bits_inj'. intros j Hj. rewrite !testbit_wrapu by lia.
  destruct (Z.ltb_spec j w); [|done]. cbn [andb]. rewrite !Z.shiftr_spec, testbit_wrapu by lia.
  by destruct (Z.ltb_spec (j + off) 64); [|lia].
Qed.

(** The bits at an address are a field of its doubleword. *)
Lemma holds_field s a w old v : 0 <= w -> 8 * (a mod 8) + w <= 64 ->
  holds_bits s (a - a mod 8) 64 old -> holds_bits s a w v -> v = field old (8 * (a mod 8)) w.
Proof.
  intros Hw Hle Hold Hv. pose proof (Z.mod_pos_bound a 8 ltac:(lia)). apply Z.bits_inj'. intros j Hj.
  rewrite Hv, testbit_field, Hold by lia. destruct (Z.ltb_spec j w); [|done]. cbn [andb].
  destruct (Z.ltb_spec (j + 8 * (a mod 8)) 64); [|lia]. cbn [andb]. f_equal. lia.
Qed.
Lemma field_holds s a w old : 0 <= w -> 8 * (a mod 8) + w <= 64 ->
  holds_bits s (a - a mod 8) 64 old -> holds_bits s a w (field old (8 * (a mod 8)) w).
Proof.
  intros Hw Hle Hold j Hj. pose proof (Z.mod_pos_bound a 8 ltac:(lia)).
  rewrite testbit_field, Hold by lia. destruct (Z.ltb_spec j w); [|done]. cbn [andb].
  destruct (Z.ltb_spec (j + 8 * (a mod 8)) 64); [|lia]. cbn [andb]. f_equal. lia.
Qed.

(** ** Storing a field *)

(** The bits of [x] under the mask of a field replace those of [old]. *)
Lemma masked_merge old x w off : 0 < w -> 0 <= off -> off + w <= 64 ->
  merged old (wrapu w x) off w
    (as_u64 (Z.lxor (as_i64 old) (Z.land (Z.lxor (as_i64 old) (as_i64 (Z.shiftl x off))) (as_i64 (Z.shiftl (Z.ones w) off))))).
Proof.
  intros Hw Ho Hle j Hj. rewrite testbit_wrapu by lia. destruct (Z.ltb_spec j 64); [|lia]. cbn [andb].
  rewrite Z.lxor_spec, Z.land_spec, Z.lxor_spec, !testbit_wraps, !Z.shiftl_spec by lia.
  destruct (Z.leb_spec off j), (Z.ltb_spec j (off + w)); cbn [andb].
  - rewrite Z.ones_spec_low, andb_true_r, testbit_wrapu by lia. destruct (Z.ltb_spec (j - off) w); [|lia]. cbn [andb].
    by rewrite <- xorb_assoc, xorb_nilpotent, xorb_false_l.
  - by rewrite Z.ones_spec_high, andb_false_r, xorb_false_r by lia.
  - by rewrite (Z.testbit_neg_r (Z.ones w)), andb_false_r, xorb_false_r by lia.
  - by rewrite (Z.testbit_neg_r (Z.ones w)), andb_false_r, xorb_false_r by lia.
Qed.
(** The store of a whole doubleword replaces all of it. *)
Lemma whole_merge old v : in_u 64 v -> merged old v 0 64 v.
Proof.
  intros Hv j Hj. destruct (Z.leb_spec 0 j), (Z.ltb_spec j (0 + 64)); try lia. cbn [andb]. by rewrite Z.sub_0_r.
Qed.
(** The mask of a word, from [ORI] of -1 and a shift. *)
Lemma word_mask : as_i64 (wrapping_shr (as_u64 (-1)) 32) = Z.ones 32.
Proof. reflexivity. Qed.
