(* ===== verification/MemLoads.v ===== *)
(** * MemLoads: the traces of the loads

    [execute] loads the bytes at an address; the trace loads the doubleword
    around them and extracts the field.  The two reach the same state, and the
    only access the trace records is the read of that doubleword. *)
From S2P Require Import Prelude Bits Registers AdviceTape Memory Device Mmu MmuSpec Cpu Formats Instr Assembler.
From S2P Require Import Sequences MemSequences Trace ExecWf Exec64 SeqOps SeqArith SeqRun DivRun TraceCorrect.
From S2P Require Import MemRun MemOps MemArith.

(** ** Steps of [run_mem] *)

Lemma run_mem_cons_pure op l f s f1 : is_memory op = false -> run_outcome f (outcome64 f op) = Some f1 ->
  run_mem (op :: l) f s = run_mem l f1 s.
Proof.
  intros Hop H. cbn [run_mem]. rewrite mem_step_pure, H by done. cbn [mbind option_bind].
  by destruct (run_mem l f1 s) as [[[f2 s2] a2]|].
Qed.

(** The address in [t], a signed word, and its doubleword's in [t + 1]. *)
Definition addressed (f : regs) (t rs1 : nat) (imm : Z) : regs :=
  let A := as_i64 (f rs1 + imm) in upd (upd f t A) (t + 1) (A - A mod 8).
Lemma run_addresses t rs1 imm l f s : t <> 0%nat ->
  run_mem (addresses t rs1 imm ++ l) f s = run_mem l (addressed f t rs1 imm) s.
Proof.
  intros Ht. unfold addresses, addressed. cbn [app].
  rewrite (run_mem_cons_pure _ _ f s (upd f t (as_i64 (f rs1 + imm)))); [|done|].
  - apply run_mem_cons_pure; [done|]. cbn [outcome64 run_outcome I_rd I_rs1 I_imm ri].
    by rewrite upd_eq, land_minus_8 by done.
  - cbn [outcome64 run_outcome I_rd I_rs1 I_imm ri]. by rewrite !wraps_wrapu, wraps_add_r by lia.
Qed.

(** An alignment assertion holds for an aligned address. *)
Lemma run_align_halfword rs1 imm l f s : as_u64 (f rs1 + imm) mod 2 = 0 ->
  run_mem (VirtualAssertHalfwordAlignment (align rs1 imm) :: l) f s = run_mem l f s.
Proof.
  intros Ha. apply run_mem_cons_pure; [done|]. cbn [outcome64 run_outcome A_rs1 A_imm align].
  rewrite (aligned_check 1) by lia. change (2 ^ 1) with 2. by rewrite Ha.
Qed.
Lemma run_align_word rs1 imm l f s : as_u64 (f rs1 + imm) mod 4 = 0 ->
  run_mem (VirtualAssertWordAlignment (align rs1 imm) :: l) f s = run_mem l f s.
Proof.
  intros Ha. apply run_mem_cons_pure; [done|]. cbn [outcome64 run_outcome A_rs1 A_imm align].
  rewrite (aligned_check 2) by lia. change (2 ^ 2) with 4. by rewrite Ha.
Qed.
(** The assertions add the immediate as a signed word. *)
Lemma as_u64_imm z imm : as_u64 (z + as_i64 imm) = as_u64 (z + imm).
Proof. by rewrite <- (wrapu_add_r 64 z), wrapu_wraps, wrapu_add_r by lia. Qed.

(** The load of the doubleword whose address is in [r]. *)
Lemma run_LD rd r l f s s' z v m : f r = as_i64 z - as_i64 z mod 8 ->
  load_doubleword (as_u64 z - as_u64 z mod 8) s = Some (inr (v, m), s') ->
  run_mem (LD (ldo rd r) :: l) f s =
    ('(f2, s2, a2) ← run_mem l (upd f rd (as_i64 v)) s'; Some (f2, s2, Read m :: a2)).
Proof.
  intros Hr Hl. cbn [run_mem mem_step]. unfold ld_address. cbn [L_rd L_rs1 L_imm ldo].
  change (as_u64 (as_i32 0)) with 0. rewrite Z.add_0_r, wrapu_wrapu, Hr, base_signed, Hl by lia. done.
Qed.

(** ** Extracting the field *)

Lemma field_signed d off w : 0 <= off -> 0 <= w -> off + w <= 64 -> field (as_i64 d) off w = field d off w.
Proof.
  intros Ho Hw Hle. apply Z.bits_inj'. intros j Hj. rewrite !testbit_field by lia.
  destruct (Z.ltb_spec j w); [|done]. cbn [andb]. apply testbit_wraps; lia.
Qed.

Lemma off_bound a k : k = 1 \/ k = 2 \/ k = 4 -> a mod k = 0 ->
  0 <= 8 * (a mod 8) /\ 8 * (a mod 8) + 8 * k <= 64 /\ (a mod 8) mod k = 0.
Proof.
  intros Hk Hm. pose proof (Z.mod_pos_bound a 8 ltac:(lia)).
  assert ((a mod 8) mod k = 0) as Hmm.
  { rewrite <- Hm. apply Z.mod_mod_divide.
    destruct Hk as [->|[->| ->]]; [by exists 8|by exists 4|by exists 2]. }
  split; [lia|]. split; [|done]. pose proof (Z.div_mod (a mod 8) k). destruct Hk as [->|[->| ->]]; lia.
Qed.

Section Tails.
Context (g : regs) (rd : nat) (Hrd : ~ instruction_reg rd) (H0 : rd <> 0%nat).
Context (k : Z) (Hk : k = 1 \/ k = 2 \/ k = 4).
Abbreviation off r := (8 * (g r mod 8)).

Ltac solve_tail :=
  unfold instruction_reg in *; apply writes_run; unfold top_ops, slli, srli, srai, sll, srl; cbn [app];
  repeat run_write; cbn [run64]; final_agree; subst.

(** The amount of the left shift that brings the field to the top. *)
Lemma top_shift : g 40%nat mod k = 0 ->
  as_u64 (as_i64 (Z.lxor (g 40%nat) (as_i64 (8 - k)) * as_i64 (2 ^ 3))) mod 64 = 64 - 8 * k - off 40%nat.
Proof.
  intros Hm. rewrite byte_shift_amount.
  replace (as_i64 (8 - k)) with (8 - k) by (destruct Hk as [->|[->| ->]]; reflexivity).
  rewrite lxor_mod8 by lia. rewrite xor_offset; [lia|done|by apply Z.mod_pos_bound|by apply off_bound].
Qed.

Lemma top_signed : g 40%nat mod k = 0 ->
  writes (top_ops (8 - k) (srai rd 41 (64 - 8 * k))) g rd (wraps (8 * k) (field (g 41%nat) (off 40%nat) (8 * k))).
Proof.
  intros Hm. solve_tail. destruct (off_bound (g 40%nat) k Hk Hm) as (B1 & B2 & _).
  rewrite trailing_zeros_bitmask_imm by lia. unfold wrapping_shr. rewrite (Z.mod_small (64 - 8 * k) 64) by lia.
  rewrite top_shift, mul_pow2 by (done || lia). apply top_field_signed; lia.
Qed.
Lemma top_unsigned : g 40%nat mod k = 0 ->
  writes (top_ops (8 - k) (srli rd 41 (64 - 8 * k))) g rd (as_i64 (field (g 41%nat) (off 40%nat) (8 * k))).
Proof.
  intros Hm. solve_tail. destruct (off_bound (g 40%nat) k Hk Hm) as (B1 & B2 & _).
  rewrite trailing_zeros_bitmask_imm by lia. unfold wrapping_shr. rewrite (Z.mod_small (64 - 8 * k) 64) by lia.
  rewrite top_shift, mul_pow2 by (done || lia). f_equal. apply top_field_unsigned; lia.
Qed.

(** The word brought down and sign-extended. *)
Lemma word_tail_writes : g 40%nat mod 4 = 0 ->
  writes (slli 40 40 3 :: srl 42 41 41 40 ++ [VirtualSignExtendWord (ri rd 41 0)]) g rd
    (as_i32 (field (g 41%nat) (off 40%nat) 32)).
Proof.
  intros Hm. solve_tail. rewrite sext_word, land_3f.
  pose proof (Z.mod_pos_bound (g 40%nat) 8 ltac:(lia)). rewrite !byte_shift_amount.
  change (as_u128 (Z.shiftl (as_u128 (Z.shiftl 1 (64 - 8 * (g 40%nat mod 8))) - 1) (8 * (g 40%nat mod 8))))
    with (bitmask64 (8 * (g 40%nat mod 8))).
  rewrite trailing_zeros_bitmask by lia. unfold wrapping_shr. rewrite (Z.mod_small (8 * _) 64) by lia.
  rewrite <- (wrapu_wraps 64 ltac:(lia) (g 41%nat)). apply low_field; try lia.
  pose proof (Z.div_mod (g 40%nat mod 8) 4 ltac:(lia)).
  assert (g 40%nat mod 8 mod 4 = 0); [|lia]. rewrite <- Hm. apply Z.mod_mod_divide. by exists 2.
Qed.
End Tails.

(** ** The loads *)

(** The width in bytes, the extension of the value and the operands. *)
Definition load_info (op : Op) : option (nat * (Z -> Z) * FormatLoad) :=
  match op with
  | LB o => Some (1%nat, as_i8, o) | LBU o => Some (1%nat, as_i64, o)
  | LH o => Some (2%nat, as_i16, o) | LHU o => Some (2%nat, as_i64, o)
  | LW o => Some (4%nat, as_i32, o) | LWU o => Some (4%nat, as_i64, o)
  | LD o => Some (8%nat, as_i64, o)
  | _ => None
  end.
(** The address.  [LD] cuts the offset to 32 bits first. *)
Definition load_address (f : regs) (op : Op) : Z :=
  match op with
  | LD o => ld_address f o
  | LB o | LBU o | LH o | LHU o | LW o | LWU o => as_u64 (as_i64 (f (L_rs1 o) + L_imm o))
  | _ => 0
  end.
(** The program traced for it; [LD] has none. *)
Definition load_ops (op : Op) : list Op :=
  match op with
  | LB o => LB_ops (L_rd o) (L_rs1 o) (L_imm o) | LBU o => LBU_ops (L_rd o) (L_rs1 o) (L_imm o)
  | LH o => LH_ops (L_rd o) (L_rs1 o) (L_imm o) | LHU o => LHU_ops (L_rd o) (L_rs1 o) (L_imm o)
  | LW o => LW_ops 40 (L_rd o) (L_rs1 o) (L_imm o) | LWU o => LWU_ops (L_rd o) (L_rs1 o) (L_imm o)
  | _ => []
  end.

Lemma load_execute (i : Instruction) (c c' : Cpu) k ext o :
  cpu_wf c -> op_valid (operands i) -> load_info (operands i) = Some (k, ext, o) -> execute i c = Some c' ->
  exists v m s', load_width k (load_address (reg c) (operands i)) (mmu c) = Some (inr (v, m), s') /\
    c' = wr (set_mmu c s') (L_rd o) (ext v) /\
    (k = 8%nat -> execute_ram i c = Some (c', Read m)).
Proof.
  intros Hc (Hrd & Hrs1 & _) Hi. unfold execute, execute_ram. cbv zeta.
  assert (Hw : forall s, cpu_wf (set_mmu c s)) by (intros s; by destruct Hc; split).
  destruct (operands i); try discriminate Hi; cbn [load_info] in Hi; injection Hi as <- <- <-; cbn in Hrd, Hrs1;
    unfold LB_exec, LBU_exec, LH_exec, LHU_exec, LW_exec, LWU_exec, LD_exec, effective_address;
    rewrite (lookup_reg c Hc) by done; cbn [mbind option_bind]; cbv zeta; rewrite on_mmu_eq;
    unfold load_address, ld_address, load_width;
    match goal with |- context [mbind _ (?l (mmu _))] =>
      destruct (l (mmu c)) as [[[t|[v m]] s']|] eqn:El end;
    cbn [mbind option_bind fmap option_fmap option_map]; intros He; try discriminate He;
    rewrite (write_register_wr _ (Hw s')) in He |- * by done; cbn in He; injection He as <-;
    exists v, m, s'; (split; [first [reflexivity|exact El]|]); (split; [done|]); intros; done.
Qed.


Lemma signed_mod n z : 0 <= n <= 64 -> as_i64 z mod 2 ^ n = as_u64 z mod 2 ^ n.
Proof.
  intros Hn. rewrite <- (wrapu_mod n 64 (as_i64 z) Hn), wrapu_wraps by lia. done.
Qed.

Ltac solve_pure :=
  unfold top_ops, masked_ops, sll, srl; cbn [app]; repeat (apply Forall_cons_2; [reflexivity|]); apply Forall_nil_2.

(** A load whose [tail] extracts the field of [k] bytes and extends it. *)
Lemma field_load f s s' rd rs1 imm tail d m k ext :
  let z := f rs1 + imm in
  k = 1 \/ k = 2 \/ k = 4 -> as_u64 z mod k = 0 ->
  Forall (fun op => is_memory op = false) tail ->
  load_doubleword (as_u64 z - as_u64 z mod 8) s = Some (inr (d, m), s') ->
  (forall g, g 40%nat mod k = 0 -> writes tail g rd (ext (field (g 41%nat) (8 * (g 40%nat mod 8)) (8 * k)))) ->
  exists f', run_mem (addresses 40 rs1 imm ++ LD (ldo 41 41) :: tail) f s = Some (f', s', [Read m]) /\
    agree f' (upd f rd (ext (field d (8 * (as_u64 z mod 8)) (8 * k)))).
Proof.
  intros z Hk Hz Hp Hl Hw. set (g := upd (addressed f 40 rs1 imm) 41 (as_i64 d)).
  assert (E8 : g 40%nat mod 8 = as_u64 z mod 8) by exact (signed_mod 3 z ltac:(lia)).
  assert (Hg : g 40%nat mod k = 0).
  { rewrite <- Hz. destruct Hk as [->|[->| ->]]; [exact (signed_mod 0 z ltac:(lia))|
      exact (signed_mod 1 z ltac:(lia))|exact (signed_mod 2 z ltac:(lia))]. }
  destruct (off_bound (g 40%nat) k Hk Hg) as (B1 & B2 & _).
  destruct (Hw g Hg) as (f' & Hf & Hag). exists f'. split.
  - rewrite run_addresses by done. rewrite (run_LD 41 41 tail _ s s' z d m); [|reflexivity|done].
    fold g. by rewrite run_mem_pure, Hf by done.
  - intros r Hr. rewrite Hag by done. assert (g r = f r) as Hgr.
    { unfold g, addressed. unfold instruction_reg in Hr. by rewrite !upd_ne by (intros ->; lia). }
    change (g 41%nat) with (as_i64 d). rewrite field_signed, E8 by lia. unfold upd. by rewrite Hgr.
Qed.

Lemma load_performs op k ext o f s s' d m :
  load_info op = Some (k, ext, o) -> k <> 8%nat -> arch_reg (L_rd o) -> L_rd o <> 0%nat ->
  load_address f op mod Z.of_nat k = 0 ->
  load_doubleword (load_address f op - load_address f op mod 8) s = Some (inr (d, m), s') ->
  exists f', run_mem (load_ops op) f s = Some (f', s', [Read m]) /\
    agree f' (upd f (L_rd o) (ext (field d (8 * (load_address f op mod 8)) (8 * Z.of_nat k)))).
Proof.
  intros Hi Hk8 [_ Hrd] H0 Hm Hl.
  destruct op; try discriminate Hi; cbn [load_info] in Hi; injection Hi as <- <- <-; try done;
    cbn [load_ops load_address] in *; rewrite wrapu_wraps in Hm, Hl |- * by lia;
    unfold LB_ops, LBU_ops, LH_ops, LHU_ops, LW_ops, LWU_ops;
    rewrite ?run_align_halfword, ?run_align_word by (by rewrite as_u64_imm);
    (apply field_load; [lia|exact Hm|solve_pure|exact Hl|]); intros g Hg.
  - exact (top_signed g _ Hrd H0 1 ltac:(lia) Hg).
  - exact (top_unsigned g _ Hrd H0 1 ltac:(lia) Hg).
  - exact (top_signed g _ Hrd H0 2 ltac:(lia) Hg).
  - exact (top_unsigned g _ Hrd H0 2 ltac:(lia) Hg).
  - exact (word_tail_writes g _ Hrd H0 Hg).
  - exact (top_unsigned g _ Hrd H0 4 ltac:(lia) Hg).
Qed.

(** ** Tracing *)

Lemma load_ops_mem op k ext o : load_info op = Some (k, ext, o) -> op_arch op -> L_rd o <> 0%nat ->
  Forall mem_op (load_ops op).
Proof.
  intros Hi (H1 & H2 & _) H0.
  destruct op; try discriminate Hi; cbn [load_info] in Hi; injection Hi as <- <- <-; cbn in H1, H2;
    unfold arch_reg in H1, H2; cbn [load_ops]; try apply Forall_nil_2;
    unfold LB_ops, LBU_ops, LH_ops, LHU_ops, LW_ops, LWU_ops, addresses, top_ops, sll, srl; cbn [app];
    destruct (L_rd _) eqn:Erd; try done;
    repeat (apply Forall_cons_2 || apply Forall_nil_2);
    (split; [split; [repeat split; cbn; try tauto; apply valid_temp; lia|cbn; done]|
      first [exact I|intros g; by eexists]]).
Qed.

Lemma load_sequence (i : Instruction) (c : Cpu) k ext o :
  load_info (operands i) = Some (k, ext, o) -> k <> 8%nat -> xlen c = Bit64 -> temporaries_free (vr_allocator c) ->
  exists m, traced_sequence i c = Some m /\ ops_at m (vr_allocator c) (load_ops (operands i)).
Proof.
  intros Hi Hk Hx Ha. unfold traced_sequence, dispatch_inline_sequence. rewrite Hx.
  destruct (operands i) eqn:Eo; try discriminate Hi; cbn [load_info] in Hi; injection Hi as <- <- <-; try done;
    (eexists; split; [reflexivity|]); cbn [load_ops].
  - exact (LB_has_ops (with_operands i o0) _ Ha).
  - exact (LBU_has_ops (with_operands i o0) _ Ha).
  - exact (LH_has_ops (with_operands i o0) _ Ha).
  - exact (LHU_has_ops (with_operands i o0) _ Ha).
  - exact (LW_has_ops (with_operands i o0) _ Ha).
  - exact (LWU_has_ops (with_operands i o0) _ Ha).
Qed.
Lemma load_unframed i c : is_Some (load_info (operands i)) ->
  before_sequence i c = Some c /\ after_sequence i c = c /\ has_side_effects i = false.
Proof. unfold before_sequence, after_sequence, has_side_effects. intros [? H]. by destruct (operands i). Qed.

Lemma load_rd op k ext o : load_info op = Some (k, ext, o) ->
  norm_rd (op_operands op) = Some (L_rd o) /\ access_width k.
Proof.
  intros Hi. unfold access_width.
  destruct op; try discriminate Hi; cbn [load_info] in Hi; injection Hi as <- <- <-; split; (done || auto 6).
Qed.
Lemma load_address_range f op : 0 <= load_address f op < 2 ^ 64.
Proof. destruct op; cbn [load_address]; try done; apply wrapu_range; lia. Qed.

(** The sequence of a memory instruction, traced. *)
Lemma trace_sequence n c i m ops :
  cpu_wf c -> xlen c = Bit64 -> rd_is_zero i = false -> before_sequence i c = Some c -> traced_sequence i c = Some m ->
  ops_at m (vr_allocator c) ops -> Forall mem_op ops ->
  match run_mem ops (reg c) (mmu c) with
  | Some (f', s', acc) => exists c2 t,
      trace (S (S n)) i c = Some (after_sequence i c2, t) /\ with_regs (set_mmu c s') f' c2 /\ accesses t = acc
  | None => trace (S (S n)) i c = None
  end.
Proof.
  intros Hc Hx Hz Hb Hm (l & Hl & Hops) Hs.
  rewrite (trace_macro (S n) i c c m l Hz Hm Hb Hl). pose proof (run_sequence n c l ops Hc Hx Hops Hs) as Hr.
  destruct (run_mem ops _ _) as [[[f' s'] acc]|]; [|by rewrite Hr].
  destruct Hr as (c2 & t & -> & Hw). cbn [mbind option_bind]. by exists c2, t.
Qed.

(** The doubleword of a readable address is readable, but for the end of the
    I/O region. *)
Lemma readable_base s a : mmu_wf s -> 0 <= a < 2 ^ 64 -> not_io_end s (a - a mod 8) -> readable s a = true ->
  readable s (a - a mod 8) = true.
Proof.
  intros Hs Ha He Hr. pose proof (Z.mod_pos_bound a 8 ltac:(lia)) as Hp. pose proof (Z.div_mod a 8 ltac:(lia)) as Hdm.
  assert (Hm : a mod 8 <= a) by lia.
  assert (Hsd : same_dword a (a - a mod 8)).
  { unfold same_dword. apply (Z.div_unique (a - a mod 8) 8 (a / 8) 0); lia. }
  destruct (Z.ltb_spec a DRAM_BASE) as [Hd|Hd].
  - apply (readable_dword s a); try done. intros d Hj _ E. apply (He d Hj ltac:(lia)).
    pose proof (wf_layout d (wf_device s Hs d Hj)) as [_ _ _ _ L5]. rewrite !list.Forall_cons in L5.
    rewrite <- E in L5. replace (a mod 8) with 0 by intuition. lia.
  - assert (Hb : DRAM_BASE <= a - a mod 8) by (unfold DRAM_BASE, RAM_START_ADDRESS in *; lia).
    revert Hr. unfold readable, recordable, valid_address, valid_ram.
    destruct (Z.ltb_spec a DRAM_BASE), (Z.ltb_spec (a - a mod 8) DRAM_BASE); try lia. cbn [andb negb].
    assert ((a - a mod 8 - DRAM_BASE) / 8 <= (a - DRAM_BASE) / 8) by (apply Z.div_le_mono; lia).
    destruct (jolt_device s); rewrite ?andb_true_r, ?andb_true_iff, !Z.ltb_lt; lia.
Qed.

(** What [execute] loads is the field of the doubleword the trace reads. *)
Lemma load_doubleword_field s k a v m s1 : mmu_wf s -> access_width k -> 0 <= a < 2 ^ 64 ->
  not_io_end s (a - a mod 8) -> load_width k a s = Some (inr (v, m), s1) ->
  a mod Z.of_nat k = 0 /\ same_space s s1 /\ exists d s2,
    load_doubleword (a - a mod 8) s = Some (inr (d, {| read_address := a - a mod 8; read_value := d |}), s2) /\
    same_space s s2 /\ holds_bits s (a - a mod 8) 64 d /\ v = field d (8 * (a mod 8)) (8 * Z.of_nat k).
Proof.
  intros Hs Hk Ha He E. destruct (load_width_Some s k a _ s1 Hs Hk Ha E) as (Hm & Hr & H1 & v' & m' & [= <- <-] & Hv).
  split; [done|]. split; [done|]. pose proof (Z.mod_pos_bound a 8 ltac:(lia)). pose proof (Z.div_mod a 8 ltac:(lia)).
  destruct (load_doubleword_spec s (a - a mod 8)) as (d & s2 & El & H2 & Hd); try done.
  - replace (a - a mod 8) with (a / 8 * 8) by lia. by apply Z.mod_mul.
  - lia.
  - by apply readable_base.
  - exists d, s2. do 3 (split; [done|]). pose proof (aligned_dword k a Hk Hm).
    apply (holds_field s a); (done || lia).
Qed.

Section TracedLoad.
Context (n : nat) (c : Cpu) (i : Instruction) (k : nat) (ext : Z -> Z) (o : FormatLoad) (c' : Cpu).
Context (Hc : cpu_wf c) (Hx : xlen c = Bit64) (Ha : temporaries_free (vr_allocator c)).
Context (Hop : op_arch (operands i)) (Hi : load_info (operands i) = Some (k, ext, o)) (Hs : mmu_wf (mmu c)).
Abbreviation base := (load_address (reg c) (operands i) - load_address (reg c) (operands i) mod 8).
Context (He : not_io_end (mmu c) base) (Hexec : execute i c = Some c').

Lemma set_mmu_wf s : cpu_wf (set_mmu c s).
Proof. by destruct Hc; split. Qed.
Lemma set_mmu_same s : same_space s (mmu c) -> set_mmu c s ≈ c.
Proof. intros H. by split. Qed.

Lemma load_runs : rd_is_zero i = false -> exists c1 t d, trace (S (S n)) i c = Some (c1, t) /\ (c1 ≈ c' /\ cpu_wf c1) /\
  accesses t = [Read {| read_address := base; read_value := d |}] /\ holds_bits (mmu c) base 64 d.
Proof.
  intros Hz. destruct (load_rd _ _ _ _ Hi) as [Hrd Hk]. pose proof (op_arch_valid _ Hop) as Hv.
  destruct (load_execute i c c' k ext o Hc Hv Hi Hexec) as (v & m & s1 & El & -> & Hram).
  destruct (load_doubleword_field _ k _ v m s1 Hs Hk (load_address_range _ _) He El)
    as (Hm & H1 & d & s2 & El2 & H2 & Hd & Hf).
  assert (H0 : L_rd o <> 0%nat) by (intros E; unfold rd_is_zero in Hz; by rewrite Hrd, E in Hz).
  destruct (load_unframed i c) as (Hb & Hafter & _); [by rewrite Hi|].
  destruct (decide (k = 8%nat)) as [->|Hk8].
  - exists (wr (set_mmu c s1) (L_rd o) (ext v)).
    assert (Hl : traced_sequence i c = None) by (unfold traced_sequence; by destruct (operands i)).
    pose proof (default_trace_cycle_ram i c Hc Hv) as Ht. rewrite (Hram eq_refl) in Ht. destruct Ht as [st Ht].
    eexists _, d. rewrite (trace_leaf (S n) i c Hl Hz). split; [exact Ht|].
    split; [split; [reflexivity|by apply (keeps_wf _ _ (execute_keeps i c _ Hexec))]|]. split; [|done].
    assert (Hb8 : base = load_address (reg c) (operands i)) by (change (Z.of_nat 8) with 8 in Hm; lia).
    rewrite Hb8 in El2. change (load_width 8) with load_doubleword in El. rewrite El in El2.
    injection El2 as -> -> _. by rewrite Hb8.
  - destruct (load_sequence i c k ext o Hi Hk8 Hx Ha) as (m' & Hseq & Hops).
    pose proof (trace_sequence n c i m' _ Hc Hx Hz Hb Hseq Hops (load_ops_mem _ _ _ _ Hi Hop H0)) as Ht.
    assert (Harch : arch_reg (L_rd o)) by (destruct Hop as [Hop1 _]; by rewrite Hrd in Hop1).
    destruct (load_performs _ k ext o (reg c) (mmu c) s2 d _ Hi Hk8 Harch H0 Hm El2) as (f' & Hrun & Hag).
    rewrite Hrun in Ht. destruct Ht as (c2 & t & Ht & Hw & Hacc). destruct (load_unframed i c2) as (_ & Haf & _);
      [by rewrite Hi|]. rewrite Haf in Ht. exists c2, t, d. split; [done|]. split; [split; [|apply Hw]|done].
    pose proof (keeps_wf _ _ (execute_keeps i c _ Hexec) Hc) as Hwf. subst v.
    transitivity (wr (set_mmu c s2) (L_rd o) (ext (field d (8 * (load_address (reg c) (operands i) mod 8)) (8 * Z.of_nat k)))).
    + apply (with_regs_write (set_mmu c s2) (set_mmu_wf s2) f'); try done; [apply Harch|].
      destruct (L_rd o); [done|]. by destruct Hwf; split.
    + apply wr_proper; try done. transitivity c; [by apply set_mmu_same|symmetry; by apply set_mmu_same].
Qed.
End TracedLoad.

(** The trace of a load, with destination [x0] or not. *)
Lemma load_traced (n : nat) (c : Cpu) (i : Instruction) (c' : Cpu) :
  let a := load_address (reg c) (operands i) in
  cpu_wf c -> xlen c = Bit64 -> temporaries_free (vr_allocator c) -> op_arch (operands i) ->
  is_Some (load_info (operands i)) -> mmu_wf (mmu c) -> not_io_end (mmu c) (a - a mod 8) ->
  execute i c = Some c' ->
  exists c1 t d, trace (S (S n)) i c = Some (c1, t) /\ (c1 ≈ c' /\ cpu_wf c1) /\ holds_bits (mmu c) (a - a mod 8) 64 d /\
    accesses t = if rd_is_zero i then [] else [Read {| read_address := a - a mod 8; read_value := d |}].
Proof.
  intros a Hc Hx Ha Hop [[[k ext] o] Hi] Hs He Hexec. destruct (rd_is_zero i) eqn:Hz.
  - destruct (load_rd _ _ _ _ Hi) as [Hrd Hk]. destruct (load_unframed i c) as (_ & _ & Hse); [by rewrite Hi|].
    destruct (trace_nop n c i Hc Hz Hse) as (t & Ht & Hacc).
    destruct (load_execute i c c' k ext o Hc (op_arch_valid _ Hop) Hi Hexec) as (v & m & s1 & El & -> & _).
    destruct (load_doubleword_field _ k a v m s1 Hs Hk (load_address_range _ _) He El) as (_ & H1 & d & _ & _ & _ & Hd & _).
    exists c, t, d. split; [done|]. split; [|done]. split; [|done]. unfold rd_is_zero in Hz. rewrite Hrd in Hz.
    destruct (L_rd o); [|done]. symmetry. by apply set_mmu_same.
  - destruct (load_runs n c i k ext o c' Hc Hx Ha Hop Hi Hs He Hexec Hz) as (c1 & t & d & H). exists c1, t, d. tauto.
Qed.

(** C4: A load is traced by the read of one aligned doubleword: when [execute]
    loads [k] bytes into a register, the trace ends in the same state but for
    the temporaries, and the only RAM access it records is the read of the
    doubleword that contains them, with its contents; with destination [x0]
    there is no access.  The address must not lie at the end of the I/O region. *)
Theorem traced_load (n : nat) (c : Cpu) (i : Instruction) (c' : Cpu) :
  let a := load_address (reg c) (operands i) in
  cpu_wf c -> xlen c = Bit64 -> temporaries_free (vr_allocator c) -> op_arch (operands i) ->
  is_Some (load_info (operands i)) -> mmu_wf (mmu c) -> not_io_end (mmu c) (a - a mod 8) ->
  execute i c = Some c' ->
  exists c1 t d, trace (S (S n)) i c = Some (c1, t) /\ c1 ≈ c' /\ holds_bits (mmu c) (a - a mod 8) 64 d /\
    accesses t = if rd_is_zero i then [] else [Read {| read_address := a - a mod 8; read_value := d |}].
Proof.
  intros a Hc Hx Ha Hop Hi Hs He Hex. destruct (load_traced n c i c' Hc Hx Ha Hop Hi Hs He Hex) as (c1 & t & d & H).
  exists c1, t, d. tauto.
Qed.

(** A machine with two doublewords of RAM, addressed by [x1]. *)
Definition ram_cpu (v : Z) : Cpu := set_mmu (cpu_with DRAM_BASE v) (set_mem (Mmu_new Bit64) example_memory).
Lemma ram_cpu_wf v : in_s 64 v -> cpu_wf (ram_cpu v).
Proof. intros Hv. by destruct (cpu_with_wf DRAM_BASE v ltac:(done) Hv); split. Qed.
Lemma ram_mmu_wf v : mmu_wf (mmu (ram_cpu v)).
Proof. split; [apply example_memory_wf|done..]. Qed.

Lemma traced_load_witness :
  let i := at_instr (LH {| L_rd := 3; L_rs1 := 1; L_imm := 2 |}) in
  exists c1 t d, trace 2 i (ram_cpu 0) = Some (c1, t) /\ c1 ≈ wr (ram_cpu 0) 3 0x5566 /\
    accesses t = [Read {| read_address := DRAM_BASE; read_value := d |}].
Proof.
  intros i. destruct (traced_load 0 (ram_cpu 0) i (wr (ram_cpu 0) 3 0x5566)) as (c1 & t & d & Ht & Hc & _ & Ha).
  - by apply ram_cpu_wf.
  - reflexivity.
  - apply new_temporaries_free.
  - arch.
  - by eexists.
  - apply ram_mmu_wf.
  - intros d' Hd. discriminate Hd.
  - vm_compute. reflexivity.
  - exists c1, t, d. exact (conj Ht (conj Hc Ha)).
Defined.
