(* ===== verification/MemStores.v ===== *)
(** * MemStores: the traces of the stores

    [execute] stores the bytes at an address; the trace reads the doubleword
    around them, replaces the field under a mask and stores the doubleword.
    The two reach the same state when the doubleword can be stored as a whole; in the
    doubleword of the panic flag they do not. *)
From S2P Require Import Prelude Bits Registers AdviceTape Memory Device Mmu MmuSpec MmuStore Cpu Formats Instr Assembler.
From S2P Require Import Sequences MemSequences Trace ExecWf Exec64 SeqOps SeqArith SeqRun DivArith DivRun TraceCorrect.
From S2P Require Import MemRun MemOps MemArith MemLoads.

(** The store of [v] at the doubleword whose address is in [r]. *)
Lemma run_SD r1 r2 l f s s' z w : f r1 = as_i64 z - as_i64 z mod 8 ->
  store_doubleword (as_u64 z - as_u64 z mod 8) (as_u64 (f r2)) s = Some (inr w, s') ->
  run_mem (SD (so r1 r2) :: l) f s = ('(f2, s2, a2) ← run_mem l f s'; Some (f2, s2, Instr.Write w :: a2)).
Proof.
  intros Hr Hl. cbn [run_mem mem_step]. unfold s_address. cbn [S_rs1 S_rs2 S_imm so].
  rewrite Z.add_0_r, wrapu_wraps, Hr, base_signed, Hl by lia. done.
Qed.

(** The [tail] replaces the [k] bytes of [x] in the doubleword of register 42. *)
Definition merges (tail : list Op) (g : regs) (x k : Z) : Prop :=
  exists g', run64 tail g = Some g' /\ agree g' g /\ g' 41%nat = g 41%nat /\
    merged (as_u64 (g 42%nat)) (wrapu (8 * k) x) (8 * (g 40%nat mod 8)) (8 * k) (as_u64 (g' 42%nat)).

Section Tails.
Context (g : regs) (rs2 : nat) (Hrs2 : ~ instruction_reg rs2) (Hg : in_s 64 (g 42%nat)).

Ltac solve_merges :=
  unfold instruction_reg in *; unfold merges, masked_ops, slli, srli, sll; cbn [app];
  repeat run_write; cbn [run64]; eexists; (split; [reflexivity|]); reg_simpl; split;
  [intros r Hr; unfold instruction_reg in Hr; by reg_simpl|split; [reflexivity|]]; subst.

Lemma masked_merges k : k = 1 \/ k = 2 -> g 40%nat mod k = 0 ->
  merges (masked_ops rs2 (Z.ones (8 * k))) g (g rs2) k.
Proof.
  intros Hk Hm. solve_merges. destruct (off_bound (g 40%nat) k ltac:(lia) Hm) as (B1 & B2 & _).
  rewrite !byte_shift_amount, !mul_pow2 by lia.
  replace (as_i64 (Z.ones (8 * k))) with (Z.ones (8 * k)) by (destruct Hk as [->| ->]; reflexivity).
  rewrite <- (as_i64_u64 (g 42%nat) Hg) at 2 3. apply masked_merge; lia.
Qed.

(** The tail of [SW]. *)
Definition word_tail (rs2 : nat) : list Op :=
  [slli 40 40 3; ORI (ri 43 0 (as_u64 (-1))); srli 43 43 32] ++ sll 44 43 43 40 ++ sll 44 40 rs2 40 ++
  [XOR (rr 40 42 40); AND (rr 40 40 43); XOR (rr 42 42 40)].
Lemma word_merges : g 0%nat = 0 -> g 40%nat mod 4 = 0 -> merges (word_tail rs2) g (g rs2) 4.
Proof.
  intros H0 Hm. unfold word_tail. solve_merges. destruct (off_bound (g 40%nat) 4 ltac:(lia) Hm) as (B1 & B2 & _).
  rewrite H0, trailing_zeros_bitmask_imm, !byte_shift_amount by lia.
  change (as_i64 (wrapping_shr (as_u64 (Z.lor 0 (as_i64 (as_u64 (-1))))) 32)) with (Z.ones 32).
  rewrite !mul_pow2 by lia. rewrite <- (as_i64_u64 (g 42%nat) Hg) at 2 3. apply (masked_merge _ _ (8 * 4)); lia.
Qed.
End Tails.

(** ** The stores *)
Definition store_info (op : Op) : option (nat * FormatS) :=
  match op with
  | SB o => Some (1%nat, o) | SH o => Some (2%nat, o) | SW o => Some (4%nat, o) | SD o => Some (8%nat, o)
  | _ => None
  end.
Definition store_address (f : regs) (o : FormatS) : Z := as_u64 (as_i64 (f (S_rs1 o) + S_imm o)).
Definition store_ops (op : Op) : list Op :=
  match op with
  | SB o => SB_ops (S_rs1 o) (S_rs2 o) (S_imm o) | SH o => SH_ops (S_rs1 o) (S_rs2 o) (S_imm o)
  | SW o => SW_ops (S_rs1 o) (S_rs2 o) (S_imm o) | _ => []
  end.

Lemma store_execute (i : Instruction) (c c' : Cpu) k o :
  cpu_wf c -> op_valid (operands i) -> store_info (operands i) = Some (k, o) -> execute i c = Some c' ->
  exists w s', store_width k (store_address (reg c) o) (wrapu (8 * Z.of_nat k) (reg c (S_rs2 o))) (mmu c) =
    Some (inr w, s') /\ c' = set_mmu c s' /\ execute_ram i c = Some (c', Instr.Write w).
Proof.
  intros Hc (_ & Hrs1 & Hrs2) Hi. unfold execute, execute_ram. cbv zeta.
  destruct (operands i); try discriminate Hi; cbn [store_info] in Hi; injection Hi as <- <-; cbn in Hrs1, Hrs2;
    unfold SB_exec, SH_exec, SW_exec, SD_exec, effective_address;
    rewrite !(lookup_reg c Hc) by done; cbn [mbind option_bind]; rewrite on_mmu_eq; unfold store_width, store_address;
    match goal with |- context [mbind _ (?l (mmu _))] => destruct (l (mmu c)) as [[[t|w] s']|] eqn:El end;
    cbn [mbind option_bind fmap option_fmap option_map fst]; intros He; try discriminate He; injection He as <-;
    exists w, s'; (split; [first [reflexivity|exact El]|]); by split.
Qed.

Section FieldStore.
Context (f : regs) (s s2 : Mmu) (rs1 rs2 : nat) (imm : Z) (tail : list Op) (k d : Z) (r : RAMRead).
Abbreviation z := (f rs1 + imm).
Abbreviation a := (as_u64 z).
Context (Hk : k = 1 \/ k = 2 \/ k = 4) (Hm : a mod k = 0).
Context (Hrs2 : ~ instruction_reg rs2) (Hp : Forall (fun op => is_memory op = false) tail).
Context (Htail : forall g, in_s 64 (g 42%nat) -> g 0%nat = f 0%nat -> g 40%nat mod k = 0 -> merges tail g (g rs2) k).

(** The trace reads the doubleword and writes it with the bytes replaced. *)
Lemma field_runs : in_u 64 d -> load_doubleword (a - a mod 8) s = Some (inr (d, r), s2) ->
  exists f' m, agree f' f /\ in_u 64 m /\ merged d (wrapu (8 * k) (f rs2)) (8 * (a mod 8)) (8 * k) m /\
    forall w s3, store_doubleword (a - a mod 8) m s2 = Some (inr w, s3) ->
      run_mem (addresses 40 rs1 imm ++ LD (ldo 42 41) :: tail ++ [SD (so 41 42)]) f s =
        Some (f', s3, [Read r; Instr.Write w]).
Proof.
  intros Hd El. set (g := upd (addressed f 40 rs1 imm) 42 (as_i64 d)).
  assert (E8 : g 40%nat mod 8 = a mod 8) by exact (signed_mod 3 z ltac:(lia)).
  assert (Hg : g 40%nat mod k = 0).
  { rewrite <- Hm. destruct Hk as [->|[->| ->]]; [exact (signed_mod 0 z ltac:(lia))|
      exact (signed_mod 1 z ltac:(lia))|exact (signed_mod 2 z ltac:(lia))]. }
  assert (Hgf : agree g f).
  { intros q Hq. unfold g, addressed. unfold instruction_reg in Hq. by rewrite !upd_ne by (intros ->; lia). }
  destruct (Htail g) as (f' & Hf & Hag & H41 & Hme); [by apply wraps_range|reflexivity|done|].
  change (g 42%nat) with (as_i64 d) in Hme.
  rewrite E8, wrapu_wraps, (wrapu_small 64 d), Hgf in Hme by (done || lia).
  exists f', (as_u64 (f' 42%nat)). split; [intros q Hq; by rewrite Hag, Hgf|]. split; [apply wrapu_range; lia|].
  split; [done|]. intros w s3 Es. rewrite run_addresses by done. rewrite (run_LD 42 41 _ _ s s2 z d _ eq_refl El). fold g.
  rewrite run_mem_app, run_mem_pure, Hf by done. cbn [mbind option_bind app].
  erewrite (run_SD 41 42 [] f' s2 s3 z); [done| |exact Es]. by rewrite H41.
Qed.
End FieldStore.

(** The same for every narrow store. *)
Lemma store_runs op k o f s s2 d r : store_info op = Some (k, o) -> k <> 8%nat -> ~ instruction_reg (S_rs2 o) ->
  f 0%nat = 0 -> store_address f o mod Z.of_nat k = 0 -> in_u 64 d ->
  load_doubleword (store_address f o - store_address f o mod 8) s = Some (inr (d, r), s2) ->
  exists f' m, agree f' f /\ in_u 64 m /\
    merged d (wrapu (8 * Z.of_nat k) (f (S_rs2 o))) (8 * (store_address f o mod 8)) (8 * Z.of_nat k) m /\
    forall w s3, store_doubleword (store_address f o - store_address f o mod 8) m s2 = Some (inr w, s3) ->
      run_mem (store_ops op) f s = Some (f', s3, [Read r; Instr.Write w]).
Proof.
  unfold store_address. rewrite wrapu_wraps by lia. intros Hi Hk8 Hrs2 H0 Hm Hd El.
  destruct op; try discriminate Hi; cbn [store_info] in Hi; injection Hi as <- <-; try done; cbn [store_ops];
    unfold SB_ops, SH_ops, SW_ops.
  - apply (field_runs f s s2 _ _ _ (masked_ops (S_rs2 o0) 0xff) 1 d r ltac:(lia) Hm Hrs2 ltac:(solve_pure)
      (fun g Hg _ Hm => masked_merges g _ Hrs2 Hg 1 ltac:(lia) Hm) Hd El).
  - destruct (field_runs f s s2 _ _ _ (masked_ops (S_rs2 o0) 0xffff) 2 d r ltac:(lia) Hm Hrs2 ltac:(solve_pure)
      (fun g Hg _ Hm => masked_merges g _ Hrs2 Hg 2 ltac:(lia) Hm) Hd El) as (f' & m & H).
    exists f', m. rewrite run_align_halfword by (by rewrite as_u64_imm). exact H.
  - destruct (field_runs f s s2 _ _ _ (word_tail (S_rs2 o0)) 4 d r ltac:(lia) Hm Hrs2 ltac:(solve_pure)
      (fun g Hg Hg0 Hm => word_merges g _ Hrs2 Hg (eq_trans Hg0 H0) Hm) Hd El) as (f' & m & H).
    exists f', m. rewrite run_align_word by (by rewrite as_u64_imm). exact H.
Qed.

Lemma store_performs op k o f s w s1 : store_info op = Some (k, o) -> k <> 8%nat -> access_width k ->
  ~ instruction_reg (S_rs2 o) -> f 0%nat = 0 -> mmu_wf s -> dword_store s (store_address f o) ->
  store_width k (store_address f o) (wrapu (8 * Z.of_nat k) (f (S_rs2 o))) s = Some (inr w, s1) ->
  exists f' s' d m, run_mem (store_ops op) f s =
      Some (f', s', [Read {| read_address := store_address f o - store_address f o mod 8; read_value := d |};
        Instr.Write {| write_address := store_address f o - store_address f o mod 8; pre_value := d; post_value := m |}]) /\
    agree f' f /\ same_space s1 s' /\ holds_bits s (store_address f o - store_address f o mod 8) 64 d /\ in_u 64 m /\
    merged d (wrapu (8 * Z.of_nat k) (f (S_rs2 o))) (8 * (store_address f o mod 8)) (8 * Z.of_nat k) m.
Proof.
  intros Hi Hk8 Hkw Hrs2 H0 Hs Hok E. set (a := store_address f o) in *.
  assert (Har : 0 <= a < 2 ^ 64) by (apply wrapu_range; lia).
  destruct (store_width_merged s k a _ _ s1 Hs Hkw Har ltac:(apply wrapu_range; unfold access_width in Hkw; lia) Hok E)
    as (Hm & _ & Hr & He & Hst).
  destruct (base_range a Har) as (Hb & Hb8 & _).
  destruct (load_doubleword_spec s (a - a mod 8) Hs Hb8 Hb Hr He) as (d & s2 & El & H2 & Hd).
  assert (Hdu : in_u 64 d) by (rewrite <- (holds_bits_wrapu s (a - a mod 8) 64 d) by (done || lia); apply wrapu_range; lia).
  destruct (store_runs op k o f s s2 d _ Hi Hk8 Hrs2 H0 Hm Hdu El) as (f' & m & Hag & Hmu & Hme & Hrun).
  destruct (Hst s2 d m H2 Hd Hmu Hme) as (s3 & Es & H3). exists f', s3, d, m. by rewrite (Hrun _ _ Es).
Qed.

Lemma store_ops_mem op k o : store_info op = Some (k, o) -> op_arch op -> Forall mem_op (store_ops op).
Proof.
  intros Hi (_ & H1 & H2).
  destruct op; try discriminate Hi; cbn [store_info] in Hi; injection Hi as <- <-; cbn in H1, H2;
    unfold arch_reg in H1, H2; cbn [store_ops]; try apply Forall_nil_2;
    unfold SB_ops, SH_ops, SW_ops, addresses, masked_ops, sll; cbn [app];
    repeat (apply Forall_cons_2 || apply Forall_nil_2);
    (split; [split; [repeat split; cbn; try tauto; apply valid_temp; lia|cbn; done]|
      first [exact I|intros g; by eexists]]).
Qed.
Lemma store_sequence (i : Instruction) (c : Cpu) k o :
  store_info (operands i) = Some (k, o) -> k <> 8%nat -> xlen c = Bit64 -> temporaries_free (vr_allocator c) ->
  exists m, traced_sequence i c = Some m /\ ops_at m (vr_allocator c) (store_ops (operands i)).
Proof.
  intros Hi Hk Hx Ha. unfold traced_sequence, dispatch_inline_sequence. rewrite Hx.
  destruct (operands i) eqn:Eo; try discriminate Hi; cbn [store_info] in Hi; injection Hi as <- <-; try done;
    (eexists; split; [reflexivity|]); cbn [store_ops].
  - exact (SB_has_ops (with_operands i o0) _ Ha).
  - exact (SH_has_ops (with_operands i o0) _ Ha).
  - exact (SW_has_ops (with_operands i o0) _ Ha).
Qed.
Lemma store_unframed i c : is_Some (store_info (operands i)) ->
  before_sequence i c = Some c /\ after_sequence i c = c /\ rd_is_zero i = false.
Proof. unfold before_sequence, after_sequence, rd_is_zero. intros [? H]. destruct (operands i); done. Qed.
Lemma store_regs op k o : store_info op = Some (k, o) -> op_arch op -> ~ instruction_reg (S_rs2 o) /\ access_width k.
Proof.
  intros Hi (_ & _ & H). unfold access_width.
  destruct op; try discriminate Hi; cbn [store_info] in Hi; injection Hi as <- <-; cbn in H; destruct H; auto 6.
Qed.

(** The state a program without a result ends in. *)
Lemma with_regs_agree c f' c' : cpu_wf c -> with_regs c f' c' -> agree f' (reg c) -> c' ≈ c.
Proof.
  intros Hc Hw Hag. apply (with_regs_write c Hc f' c' 0 0); try done. apply valid_temp. lia.
Qed.

(** The accesses of a traced store of [k] bytes of [v] at [a]. *)
Definition store_accesses (s : Mmu) (k a v : Z) (acc : list RAMAccess) : Prop :=
  exists old m, holds_bits s (a - a mod 8) 64 old /\ in_u 64 m /\
    merged old (wrapu (8 * k) v) (8 * (a mod 8)) (8 * k) m /\
    let w := Instr.Write {| write_address := a - a mod 8; pre_value := old; post_value := m |} in
    acc = if k =? 8 then [w] else [Read {| read_address := a - a mod 8; read_value := old |}; w].

(** The trace of a store. *)
Lemma store_traced (n : nat) (c : Cpu) (i : Instruction) k o (c' : Cpu) :
  let a := store_address (reg c) o in
  cpu_wf c -> xlen c = Bit64 -> temporaries_free (vr_allocator c) -> op_arch (operands i) ->
  store_info (operands i) = Some (k, o) -> mmu_wf (mmu c) -> dword_store (mmu c) a ->
  execute i c = Some c' ->
  exists c1 t, trace (S (S n)) i c = Some (c1, t) /\ (c1 ≈ c' /\ cpu_wf c1) /\
    store_accesses (mmu c) (Z.of_nat k) a (reg c (S_rs2 o)) (accesses t).
Proof.
  intros a Hc Hx Ha Hop Hi Hs Hok Hexec. pose proof (op_arch_valid _ Hop) as Hv.
  destruct (store_execute i c c' k o Hc Hv Hi Hexec) as (w & s1 & E & -> & Hram). fold a in E.
  destruct (store_regs _ _ _ Hi Hop) as [Hrs2 Hk]. destruct (store_unframed i c) as (Hb & _ & Hz); [by rewrite Hi|].
  assert (Har : 0 <= a < 2 ^ 64) by (apply wrapu_range; lia).
  destruct (decide (k = 8%nat)) as [->|Hk8].
  - assert (Hl : traced_sequence i c = None) by (unfold traced_sequence; by destruct (operands i)).
    pose proof (default_trace_cycle_ram i c Hc Hv) as Ht. rewrite Hram in Ht. destruct Ht as [st Ht].
    exists (set_mmu c s1). eexists. rewrite (trace_leaf (S n) i c Hl Hz). split; [exact Ht|]. split; [split; [done|by apply set_mmu_wf]|].
    set (v := wrapu (8 * Z.of_nat 8) (reg c (S_rs2 o))) in *. assert (Hvu : in_u 64 v) by (apply wrapu_range; lia).
    destruct (store_width_merged (mmu c) 8 a v _ s1 Hs Hk Har Hvu Hok E) as (Hm & _ & Hr & He & Hst).
    change (Z.of_nat 8) with 8 in *. rewrite Hm, Z.sub_0_r in *.
    destruct (load_doubleword_spec (mmu c) a Hs Hm Har Hr He) as (old & s2 & _ & _ & Hd).
    destruct (Hst (mmu c) old v ltac:(done) Hd Hvu (whole_merge old v Hvu)) as (s3 & E3 & _).
    change (store_width 8) with store_doubleword in E. assert (w = {| write_address := a; pre_value := old; post_value := v |}) as ->
      by congruence.
    exists old, v. rewrite Hm, Z.sub_0_r. split; [done|]. split; [done|]. split; [by apply whole_merge|done].
  - destruct (store_sequence i c k o Hi Hk8 Hx Ha) as (m' & Hseq & Hops).
    pose proof (trace_sequence n c i m' _ Hc Hx Hz Hb Hseq Hops (store_ops_mem _ _ _ Hi Hop)) as Ht.
    destruct (store_performs _ k o (reg c) (mmu c) w s1 Hi Hk8 Hk Hrs2 (reg_zero c Hc) Hs Hok E)
      as (f' & s' & d & m & Hrun & Hag & Hss & Hd & Hmu & Hme). fold a in Hrun, Hd, Hme.
    rewrite Hrun in Ht. destruct Ht as (c2 & t & Ht & Hw & Hacc). destruct (store_unframed i c2) as (_ & Haf & _);
      [by rewrite Hi|]. rewrite Haf in Ht. exists c2, t. split; [done|]. split.
    + split; [|apply Hw]. transitivity (set_mmu c s'); [by apply (with_regs_agree _ f'); [apply set_mmu_wf| |]|]. by split.
    + exists d, m. rewrite Hacc. do 3 (split; [done|]). cbv zeta.
      destruct (Z.eqb_spec (Z.of_nat k) 8); [lia|done].
Qed.

(** C5: A store is traced by a read and a write of one aligned doubleword: when
    [execute] stores [k] bytes, the trace ends in the same state but for the
    temporaries, and records the write of the doubleword that contains them, the
    old contents with the [k] bytes replaced, and before it the read of the
    doubleword ([SD], which is not expanded, records the write alone).  The
    doubleword must be a store address as a whole ([dword_store]): this leaves
    out the bytes right above the stack canary whose doubleword starts inside
    it, and the bytes [panic + 1 .. panic + 7], where the two runs differ
    ([panic_store_diverges] below). *)
Theorem traced_store (n : nat) (c : Cpu) (i : Instruction) k o (c' : Cpu) :
  let a := store_address (reg c) o in
  cpu_wf c -> xlen c = Bit64 -> temporaries_free (vr_allocator c) -> op_arch (operands i) ->
  store_info (operands i) = Some (k, o) -> mmu_wf (mmu c) -> dword_store (mmu c) a ->
  execute i c = Some c' ->
  exists c1 t, trace (S (S n)) i c = Some (c1, t) /\ c1 ≈ c' /\
    store_accesses (mmu c) (Z.of_nat k) a (reg c (S_rs2 o)) (accesses t).
Proof.
  intros a Hc Hx Ha Hop Hi Hs Hok He. destruct (store_traced n c i k o c' Hc Hx Ha Hop Hi Hs Hok He) as (c1 & t & H).
  exists c1, t. tauto.
Qed.

Lemma traced_store_witness :
  let i := at_instr (SB {| S_rs1 := 1; S_rs2 := 2; S_imm := 3 |}) in
  exists c' c1 t, execute i (ram_cpu (-1)) = Some c' /\ trace 2 i (ram_cpu (-1)) = Some (c1, t) /\ c1 ≈ c' /\
    store_accesses (mmu (ram_cpu (-1))) 1 (DRAM_BASE + 3) (-1) (accesses t).
Proof.
  intros i. destruct (execute i (ram_cpu (-1))) as [c'|] eqn:E; [|vm_compute in E; discriminate E].
  exists c'. destruct (traced_store 0 (ram_cpu (-1)) i 1 {| S_rs1 := 1; S_rs2 := 2; S_imm := 3 |} c')
    as (c1 & t & Ht & Hc & Ha).
  - clear E. by apply ram_cpu_wf.
  - clear E. reflexivity.
  - apply new_temporaries_free.
  - clear E. arch.
  - clear E. reflexivity.
  - apply ram_mmu_wf.
  - clear E. split; [reflexivity|]. intros d Hd. discriminate Hd.
  - exact E.
  - exists c1, t. exact (conj eq_refl (conj Ht (conj Hc Ha))).
Defined.

(** ** Narrow stores into the doubleword of the panic flag

    The device raises its panic flag for a byte stored at [panic] and ignores the
    seven bytes that follow; a narrow store there leaves the flag alone in
    [execute], but its trace stores the whole doubleword and raises the flag. *)

Section Panic.
Context (s : Mmu) (d : JoltDevice) (a : Z) (Hs : mmu_wf s) (Hd : jolt_device s = Some d) (Hp : is_panic d a = true).
Abbreviation base := (a - a mod 8).

Lemma panic_device : device_wf d.
Proof. by apply (wf_device s). Qed.
Lemma panic_bounds : base = panic (memory_layout d) /\ 0 <= a < 2 ^ 64 /\ a < RAM_START_ADDRESS - 8 /\ base mod 8 = 0.
Proof.
  destruct panic_device as [[L1 L2 L3 L4 L5] Hlow _ _ _ _]. unfold is_panic in Hp. apply andb_true_iff in Hp as [H1%Z.leb_le H2%Z.ltb_lt].
  destruct L3 as (L31 & L32 & L33 & L34 & L35). rewrite !list.Forall_cons in L5. assert (Hm : panic (memory_layout d) mod 8 = 0) by tauto.
  assert (E : a mod 8 = a - panic (memory_layout d)).
  { replace a with ((a - panic (memory_layout d)) + panic (memory_layout d) / 8 * 8) at 1
      by (pose proof (Z.div_mod (panic (memory_layout d)) 8 ltac:(lia)); lia).
    rewrite Z.mod_add by lia. apply Z.mod_small. lia. }
  unfold get_lowest_address in *. unfold RAM_START_ADDRESS in *. split; [lia|]. split; [lia|]. split; [lia|]. by rewrite E, Z.sub_sub_distr, Z.sub_diag.
Qed.
Lemma panic_byte j : 0 <= j < 8 -> is_flag_byte d (base + j) = true /\ is_panic d (base + j) = true.
Proof.
  intros Hj. destruct panic_bounds as (Hb & _). destruct panic_device as [[_ _ (_ & _ & L3 & _) _ _] _ _ _ _ _].
  assert (E : is_panic d (base + j) = true).
  { unfold is_panic. rewrite Hb, L3. destruct (Z.leb_spec (panic (memory_layout d)) (panic (memory_layout d) + j));
      destruct (Z.ltb_spec (panic (memory_layout d) + j) (panic (memory_layout d) + 8)); (done || lia). }
  unfold is_flag_byte. by rewrite E.
Qed.

Context (k : nat) (v : Z) (w : RAMWrite) (s1 : Mmu) (Hk : access_width k) (Hv : in_u (8 * Z.of_nat k) v) (H8 : a mod 8 <> 0).
Context (E : store_width k a v s = Some (inr w, s1)).

Lemma panic_aligned : a mod Z.of_nat k = 0.
Proof. destruct (panic_bounds) as (_ & Ha & _). by destruct (store_width_Some s k a v _ s1 Hs Hk Ha Hv E). Qed.

(** [execute]: the flag byte is not among those stored. *)
Lemma panic_kept : exists d1, jolt_device s1 = Some d1 /\ same_device d d1.
Proof.
  destruct panic_bounds as (Hb & Ha & Hlow & _). destruct (store_width_Some s k a v _ s1 Hs Hk Ha Hv E) as (Hm & _ & _ & sa & Hsa & Eraw).
  pose proof (mmu_wf_same _ _ Hsa Hs) as Hwfa. destruct (store_width_raw_Some sa k a v s1 Hwfa Hk Hm Ha Hv Eraw) as [_ Hst].
  change DRAM_BASE with RAM_START_ADDRESS in Hst. destruct (Z.leb_spec RAM_START_ADDRESS a); [lia|].
  destruct Hst as (da & d1 & Eda & Ed1 & -> & _). destruct Hsa as [_ Hda _]. rewrite Hd, Eda in Hda.
  inversion Hda as [? ? Hdd|]; subst. pose proof (aligned_dword k a Hk Hm) as Hoff. pose proof (Z.mod_pos_bound a 8 ltac:(lia)).
  rewrite device_store_bytes_flag in Ed1.
  2: { intros j Hj. unfold is_flag_byte, is_panic, is_termination. rewrite <- (same_layout _ _ Hdd).
       replace (a + Z.of_nat j) with (base + (a mod 8 + Z.of_nat j)) by lia. apply panic_byte. lia. }
  injection Ed1 as <-. exists da. split; [|done]. cbn [jolt_device set_device]. unfold store_flag. rewrite <- (same_layout _ _ Hdd), <- Hb.
  destruct (Z.leb_spec (a + Z.of_nat 0) base); [lia|]. done.
Qed.

(** The trace: the doubleword can be loaded and stored, and storing it raises the flag. *)
Lemma panic_raised : exists old s2, load_doubleword base s = Some (inr (old, {| read_address := base; read_value := old |}), s2) /\
  in_u 64 old /\ forall m, in_u 64 m -> exists w' s3 d3, store_doubleword base m s2 = Some (inr w', s3) /\
    jolt_device s3 = Some d3 /\ dev_panic d3 = true.
Proof.
  destruct panic_bounds as (Hb & Ha & Hlow & Hb8). destruct (store_width_Some s k a v _ s1 Hs Hk Ha Hv E) as (Hm & _ & _ & sa & Hsa & Eraw).
  pose proof (mmu_wf_same _ _ Hsa Hs) as Hwfa. destruct (store_width_raw_Some sa k a v s1 Hwfa Hk Hm Ha Hv Eraw) as [Hrec Hst].
  change DRAM_BASE with RAM_START_ADDRESS in Hst. destruct (Z.leb_spec RAM_START_ADDRESS a); [lia|].
  destruct Hst as (da & _ & Eda & _ & _ & Hoka). pose proof Hsa as [_ Hda _]. rewrite Hd, Eda in Hda.
  inversion Hda as [? ? Hdd|]; subst.
  assert (Hok : forall i, 0 <= i < 8 -> store_ok d (base + i) = true).
  { intros i Hi. apply store_ok_dword; [exact panic_device| |lia|done]. rewrite <- Hoka. symmetry. apply store_ok_layout.
    by rewrite (same_layout _ _ Hdd). }
  destruct (base_range a Ha) as (Hbr & _ & _). pose proof (Hok 0 ltac:(lia)) as Hok0. rewrite Z.add_0_r in Hok0.
  assert (Hbase : base - base mod 8 = base) by (rewrite Hb8; lia).
  pose proof (Z.mod_pos_bound a 8 ltac:(lia)) as Hpos. assert (Hdram : (base <? DRAM_BASE) = true) by (apply Z.ltb_lt; change DRAM_BASE with RAM_START_ADDRESS; lia).
  assert (Hva : valid_address s base true = true).
  { unfold valid_address. rewrite Hd, Hdram. unfold store_ok in Hok0. by apply andb_true_iff in Hok0 as [_ ->]. }
  assert (Hrb : recordable s base = true).
  { unfold recordable. rewrite Hdram, Hd. unfold device_address. pose proof (proj2 (panic_byte 0 ltac:(lia))) as Hpb.
    rewrite Z.add_0_r in Hpb. rewrite Hpb. by rewrite ?orb_true_r. }
  destruct (stored_readable s base Hs Hbr Hrb) as [Hr He]; [by split; [rewrite Hbase|]|intros d' Hd' _; congruence|]. rewrite Hbase in Hr, He.
  destruct (load_doubleword_spec s base Hs Hb8 Hbr Hr He) as (old & s2 & El & H2 & Hold). exists old, s2. split; [done|].
  split; [rewrite <- (holds_bits_wrapu s base 64 old) by (done || lia); apply wrapu_range; lia|]. intros m Hmu.
  pose proof (mmu_wf_same _ _ H2 Hs) as Hs2. destruct (trace_store_spec s2 base m old Hs2 Hb8 Hbr) as (s3 & E3 & H3).
  { by rewrite <- (readable_same s s2). } { by apply (not_io_end_same s). }
  { by rewrite <- (valid_address_same s s2). } { by rewrite <- H2. }
  assert (H03 : same_space s s3) by (by transitivity s2). pose proof (mmu_wf_same _ _ H03 Hs) as Hs3.
  pose proof H03 as [_ Hd3 _]. rewrite Hd in Hd3. inversion Hd3 as [? d3 Hdd3 Ed3|]; subst.
  assert (Hk8 : access_width 8) by (unfold access_width; auto).
  eexists _, (set_device s3 (Some (set_panic d3))), (set_panic d3). split; [|done].
  apply (store_doubleword_eq s2 base m s3); try done. rewrite store_width_raw_eq by done.
  rewrite Z.leb_antisym, Hdram. cbn [negb]. rewrite (store_raw_loop_device s3 d3 base m 8) by (done || (apply Z.ltb_lt in Hdram; lia) || apply Hs3).
  rewrite (proj2 (forallb_forall _ _)).
  - rewrite device_store_bytes_flag.
    + unfold store_flag. rewrite <- (same_layout _ _ Hdd3), <- Hb.
      destruct (Z.leb_spec (base + Z.of_nat 0) base); [|lia]. by destruct (Z.ltb_spec base (base + Z.of_nat (0 + 8))); [|lia].
    + intros j Hj. unfold is_flag_byte, is_panic, is_termination. rewrite <- (same_layout _ _ Hdd3).
      apply panic_byte. lia.
  - intros j Hj%in_seq. rewrite <- (Hok (Z.of_nat j)) by lia. apply store_ok_layout. by rewrite (same_layout _ _ Hdd3).
Qed.
End Panic.

(** A narrow store into the doubleword of the panic flag but not at its
    start diverges: where [execute] performs an [sb], [sh] or [sw] at an address
    [panic + 1 .. panic + 7], the panic flag keeps its value, while the trace of
    the same instruction, which stores the whole doubleword, succeeds and ends
    with the flag raised. *)
Theorem panic_store_diverges (n : nat) (c c' : Cpu) (i : Instruction) k o (d : JoltDevice) :
  let a := store_address (reg c) o in
  cpu_wf c -> xlen c = Bit64 -> temporaries_free (vr_allocator c) -> op_arch (operands i) -> mmu_wf (mmu c) ->
  store_info (operands i) = Some (k, o) -> jolt_device (mmu c) = Some d -> is_panic d a = true -> a mod 8 <> 0 ->
  execute i c = Some c' ->
  (exists d', jolt_device (mmu c') = Some d' /\ dev_panic d' = dev_panic d) /\
  exists c1 t d1, trace (S (S n)) i c = Some (c1, t) /\ jolt_device (mmu c1) = Some d1 /\ dev_panic d1 = true.
Proof.
  intros a Hc Hx Ha Hop Hs Hi Hd Hp H8 He. destruct (store_execute i c c' k o Hc (op_arch_valid _ Hop) Hi He) as (w & s1 & E & -> & _).
  fold a in E. destruct (store_regs _ _ _ Hi Hop) as [Hrs2 Hk].
  assert (Hv : in_u (8 * Z.of_nat k) (wrapu (8 * Z.of_nat k) (reg c (S_rs2 o)))).
  { apply wrapu_range. unfold access_width in Hk. lia. }
  pose proof (panic_aligned (mmu c) d a Hs Hd Hp k _ w s1 Hk Hv E) as Hm.
  split.
  { destruct (panic_kept (mmu c) d a Hs Hd Hp k _ w s1 Hk Hv H8 E) as (d1 & Hd1 & Hsame). exists d1. by split; [|destruct Hsame]. }
  assert (Hk8 : k <> 8%nat) by (intros ->; done).
  destruct (panic_raised (mmu c) d a Hs Hd Hp k _ w s1 Hk Hv H8 E) as (old & s2 & El & Hold & Hraise).
  destruct (store_runs _ k o (reg c) (mmu c) s2 old _ Hi Hk8 Hrs2 (reg_zero c Hc) Hm Hold El) as (f' & m & _ & Hmu & _ & Hrun).
  destruct (Hraise m Hmu) as (w' & s3 & d3 & Es & Hd3 & Hpan).
  destruct (store_unframed i c) as (Hb & _ & Hz); [by rewrite Hi|].
  destruct (store_sequence i c k o Hi Hk8 Hx Ha) as (m' & Hseq & Hops).
  pose proof (trace_sequence n c i m' _ Hc Hx Hz Hb Hseq Hops (store_ops_mem _ _ _ Hi Hop)) as Ht.
  rewrite (Hrun _ _ Es) in Ht. destruct Ht as (c2 & t & Ht & Hw & _). destruct (store_unframed i c2) as (_ & Haf & _);
    [by rewrite Hi|]. rewrite Haf in Ht. exists c2, t, d3. split; [done|]. by rewrite (with_regs_mmu _ _ _ Hw).
Qed.

Definition panic_dev : JoltDevice :=
  {| inputs := []; trusted_advice := []; untrusted_advice := []; outputs := []; dev_panic := false; memory_layout := example_layout |}.
Definition panic_cpu : Cpu :=
  set_mmu (cpu_with (panic example_layout) 5) (set_device (set_mem (Mmu_new Bit64) example_memory) (Some panic_dev)).
Lemma panic_mmu_wf : mmu_wf (mmu panic_cpu).
Proof.
  split; [apply example_memory_wf| |done..]. intros d [= <-]. split; try apply Forall_nil_2; [|by vm_compute].
  split; unfold get_lowest_address; cbn -[RAM_START_ADDRESS]; unfold RAM_START_ADDRESS, STACK_CANARY_SIZE; try lia.
  repeat apply list.Forall_cons_2; try apply Forall_nil_2; reflexivity.
Qed.
Lemma panic_store_diverges_witness :
  let i := at_instr (SB {| S_rs1 := 1; S_rs2 := 2; S_imm := 1 |}) in
  exists c' d' c1 t d1, execute i panic_cpu = Some c' /\ jolt_device (mmu c') = Some d' /\ dev_panic d' = false /\
    trace 2 i panic_cpu = Some (c1, t) /\ jolt_device (mmu c1) = Some d1 /\ dev_panic d1 = true.
Proof.
  intros i. destruct (execute i panic_cpu) as [c'|] eqn:E; [|vm_compute in E; discriminate E].
  destruct (panic_store_diverges 0 panic_cpu c' i 1 {| S_rs1 := 1; S_rs2 := 2; S_imm := 1 |} panic_dev)
    as [(d' & Hd' & Hp') (c1 & t & d1 & Ht & Hd1 & Hp1)].
  - clear E. by destruct (cpu_with_wf (panic example_layout) 5 ltac:(done) ltac:(done)); split.
  - reflexivity.
  - apply new_temporaries_free.
  - clear E. arch.
  - apply panic_mmu_wf.
  - reflexivity.
  - reflexivity.
  - by vm_compute.
  - by vm_compute.
  - exact E.
  - exists c', d', c1, t, d1. exact (conj eq_refl (conj Hd' (conj Hp' (conj Ht (conj Hd1 Hp1))))).
Defined.
