(* ===== verification/MemAtomics.v ===== *)
(** * MemAtomics: the traces of the atomic memory operations

    The sequences of the atomics load a doubleword, compute the new value with
    branch-free code, store and return the original; those of the word forms
    work on a field of the doubleword.  With destination [x0] the sequence is
    traced for the temporary 40. *)
From S2P Require Import Prelude Bits Registers AdviceTape Memory Device Mmu MmuSpec MmuStore Cpu Formats Instr Assembler.
From S2P Require Import Sequences MemSequences Trace ExecWf Exec64 SeqOps SeqArith SeqRun DivArith DivRun TraceCorrect.
From S2P Require Import MemRun MemOps MemArith MemLoads MemStores.

(** A choice made without a branch. *)
Lemma select_value w x y (b : bool) : 0 < w <= 64 ->
  wraps w (as_i64 (x + as_i64 (as_i64 (y - x) * b2z b))) = wraps w (if b then y else x).
Proof.
  intros Hw. rewrite wraps_narrow_s by lia. rewrite <- wraps_add_r, wraps_narrow_s by lia.
  destruct b; cbn [b2z].
  - rewrite Z.mul_1_r, wraps_narrow_s, wraps_add_r by lia. f_equal. lia.
  - by rewrite Z.mul_0_r, wraps_add_r, Z.add_0_r by lia.
Qed.

(** ** The doubleword atomics *)
Section Doubleword.
Context (f : regs) (s s1 s2 : Mmu) (t rd rs1 rs2 : nat) (d : Z) (m : RAMRead) (w : RAMWrite).
Context (Ht : (40 <= t <= 41)%nat) (H0 : rd <> 0%nat) (Hrs1 : ~ instruction_reg rs1) (Hrs2 : ~ instruction_reg rs2).
Context (Hload : load_doubleword (as_u64 (f rs1)) s = Some (inr (d, m), s1)).

(** The code between the load into [u] and the store of [v]. *)
Definition computes (mid : list Op) (u v : nat) (val : Z) : Prop :=
  Forall (fun op => is_memory op = false) mid /\
  forall g, g u = as_i64 d -> g rs2 = f rs2 -> exists g', run64 mid g = Some g' /\ agree g' g /\ g' u = g u /\
    as_u64 (g' v) = val.

Lemma doubleword_runs mid u v val : instruction_reg u -> computes mid u v val ->
  store_doubleword (as_u64 (f rs1)) val s1 = Some (inr w, s2) ->
  exists f', run_mem (LD (ldo u rs1) :: mid ++ [SD (so rs1 v); ADDI (ri rd u 0)]) f s =
    Some (f', s2, [Read m; Instr.Write w]) /\ agree f' (upd f rd (as_i64 d)).
Proof.
  intros Hu [Hp Hmid] Hst. unfold instruction_reg in Hu. set (g := upd f u (as_i64 d)).
  assert (Hgf : agree g f).
  { intros r Hr. unfold g. unfold instruction_reg in Hr. by rewrite upd_ne by (intros ->; lia). }
  destruct (Hmid g) as (g' & Hg & Hag & Hgu & Hgv); [by apply upd_at; lia|by apply Hgf|].
  exists (upd g' rd (as_i64 d)). split.
  - cbn [run_mem mem_step]. unfold ld_address. cbn [L_rs1 L_rd L_imm ldo]. change (as_u64 (as_i32 0)) with 0.
    rewrite Z.add_0_r, wrapu_wrapu, Hload by lia. cbn [mbind option_bind]. fold g.
    rewrite run_mem_app, run_mem_pure, Hg by done. cbn [mbind option_bind run_mem mem_step]. unfold s_address.
    cbn [S_rs1 S_rs2 S_imm so]. rewrite Z.add_0_r, wrapu_wraps, Hag, Hgf, Hgv, Hst by (done || lia).
    cbn [mbind option_bind outcome64 run_outcome I_rd I_rs1 I_imm ri app]. change (as_i64 0) with 0.
    rewrite Z.add_0_r, Hgu. unfold g. rewrite upd_at, wraps_wraps by lia. done.
  - intros r Hr. unfold upd. destruct (rd =? 0)%nat, (r =? rd)%nat; try done; rewrite Hag by done; apply Hgf; done.
Qed.

End Doubleword.

Section DoublewordValues.
Context (f : regs) (t rs2 : nat) (d : Z) (Ht : (40 <= t <= 41)%nat) (Hrs2 : ~ instruction_reg rs2).
Abbreviation computes := (computes f rs2 d).

#[local] Ltac solve_computes :=
  unfold instruction_reg in *; split; [repeat (apply Forall_cons_2; [reflexivity|]); apply Forall_nil_2|];
  intros g Eu E2; repeat run_write; cbn [run64]; eexists; (split; [reflexivity|]); reg_simpl;
  (split; [intros r Hr; unfold instruction_reg in Hr; by reg_simpl|]); (split; [reflexivity|]); subst.

Abbreviation v := (f rs2).
Lemma ADD_computes : computes [ADD (rr t (t + 1) rs2)] (t + 1) t (as_u64 (as_i64 (as_i64 d + v))).
Proof. solve_computes. by rewrite Eu, E2. Qed.
Lemma AND_computes : computes [AND (rr t (t + 1) rs2)] (t + 1) t (Z.land (as_u64 (as_i64 d)) (as_u64 v)).
Proof. solve_computes. rewrite Eu, E2. apply wrapu_land; lia. Qed.
Lemma OR_computes : computes [OR (rr t (t + 1) rs2)] (t + 1) t (Z.lor (as_u64 (as_i64 d)) (as_u64 v)).
Proof. solve_computes. rewrite Eu, E2. apply wrapu_lor; lia. Qed.
Lemma XOR_computes : computes [XOR (rr t (t + 1) rs2)] (t + 1) t (Z.lxor (as_u64 (as_i64 d)) (as_u64 v)).
Proof. solve_computes. rewrite Eu, E2. apply wrapu_lxor; lia. Qed.
Lemma SWAP_computes : computes [] t rs2 (as_u64 v).
Proof. split; [by apply Forall_nil_2|]. intros g Eu E2. exists g. by rewrite E2. Qed.

(** The selections store the operand when the comparison [b] holds. *)
Definition select_mid (op : FormatR -> Op) (rs2_first : bool) : list Op :=
  [op (if rs2_first then rr (t + 1) rs2 t else rr (t + 1) t rs2); SUB (rr (t + 2) rs2 t);
   MUL (rr (t + 2) (t + 2) (t + 1)); ADD (rr (t + 1) t (t + 2))].
Lemma select_computes op first (cmp : Z -> Z -> bool) :
  (op = SLT /\ cmp = Z.ltb \/ op = SLTU /\ cmp = fun x y => as_u64 x <? as_u64 y) ->
  computes (select_mid op first) t (t + 1)
    (as_u64 (if (if first then cmp v (as_i64 d) else cmp (as_i64 d) v) then v else as_i64 d)).
Proof.
  intros [[-> ->]|[-> ->]]; unfold select_mid; destruct first; solve_computes; rewrite Eu, E2;
    rewrite <- (wrapu_wraps 64 ltac:(lia)); rewrite (select_value 64) by lia; apply wrapu_wraps; lia.
Qed.
End DoublewordValues.

(** ** The words the atomics compute *)
Lemma u32_i32 z : as_u32 (as_i32 z) = as_u32 z.
Proof. apply wrapu_wraps. lia. Qed.
Lemma u32_i64 z : as_u32 (as_i64 z) = as_u32 z.
Proof. apply wrapu_narrow_s; lia. Qed.
Lemma as_u64_u32 z : as_u64 (as_u32 z) = as_u32 z.
Proof. pose proof (wrapu_range 32 ltac:(lia) z) as H. apply wrapu_small. unfold in_u in *. lia. Qed.

Section WordValues.
Context (t rs2 : nat) (W v : Z) (Ht : (40 <= t <= 41)%nat) (Hrs2 : ~ instruction_reg rs2) (HW : in_s 32 W).

(** [mid] leaves the word [new] in [r] and keeps the registers [keep]. *)
Definition word_computes (mid : list Op) (v_rd r : nat) (keep : list nat) (new : Z) : Prop :=
  Forall (fun op => is_memory op = false) mid /\
  forall g, as_i32 (g v_rd) = W -> g rs2 = v -> exists g', run64 mid g = Some g' /\ agree g' g /\
    Forall (fun q => g' q = g q) keep /\ as_u32 (g' r) = new.

#[local] Ltac solve_word :=
  unfold instruction_reg in *; split; [repeat (apply Forall_cons_2; [reflexivity|]); apply Forall_nil_2|];
  intros g EW Ev; repeat run_write; cbn [run64]; eexists; (split; [reflexivity|]); reg_simpl;
  (split; [intros q Hq; unfold instruction_reg in Hq; by reg_simpl|]);
  (split; [repeat (apply Forall_cons_2; [by reg_simpl|]); apply Forall_nil_2|]); subst.
Abbreviation keep := [t; (t + 3)%nat; (t + 4)%nat].

Lemma i32_W : as_i32 W = W.
Proof. by apply wraps_small. Qed.

Lemma ADDW_computes : word_computes [ADD (rr (t + 1) t rs2)] t (t + 1) keep (as_u32 (as_i32 (as_i32 W + as_i32 v))).
Proof.
  solve_word. rewrite u32_i64, u32_i32. rewrite wraps_wraps by lia.
  rewrite <- (wrapu_add_l 32 (as_i32 _)), <- (wrapu_add_r 32 _ (as_i32 _)), !u32_i32. by rewrite wrapu_add_l, wrapu_add_r.
Qed.
Lemma ANDW_computes : word_computes [AND (rr (t + 1) t rs2)] t (t + 1) keep (Z.land (as_u32 W) (as_u32 v)).
Proof. solve_word. by rewrite u32_i32, wrapu_land by lia. Qed.
Lemma ORW_computes : word_computes [OR (rr (t + 1) t rs2)] t (t + 1) keep (Z.lor (as_u32 W) (as_u32 v)).
Proof. solve_word. by rewrite u32_i32, wrapu_lor by lia. Qed.
Lemma XORW_computes : word_computes [XOR (rr (t + 1) t rs2)] t (t + 1) keep (Z.lxor (as_u32 W) (as_u32 v)).
Proof. solve_word. by rewrite u32_i32, wrapu_lxor by lia. Qed.
Lemma SWAPW_computes l : word_computes [] (t + 3) rs2 l (as_u32 v).
Proof.
  split; [by apply Forall_nil_2|]. intros g EW Ev. exists g. split; [done|]. split; [done|]. split; [|by rewrite Ev].
  by apply list.Forall_forall.
Qed.

Definition select_word_mid (ext : FormatI -> Op) (op : FormatR -> Op) (rs2_first : bool) : list Op :=
  [ext (ri (t + 3) rs2 0); ext (ri (t + 4) t 0);
   op (if rs2_first then rr (t + 4) (t + 3) (t + 4) else rr (t + 4) (t + 4) (t + 3));
   SUB (rr (t + 3) rs2 t); MUL (rr (t + 3) (t + 3) (t + 4)); ADD (rr (t + 3) (t + 3) t)].
Lemma select_word x y b : as_u32 (as_i64 (as_i64 (as_i64 (y - x) * b2z b) + x)) = as_u32 (if b then y else x).
Proof.
  rewrite (Z.add_comm _ x). rewrite <- (u32_i32 (as_i64 _)), (select_value 32) by lia. apply u32_i32.
Qed.
Lemma select_signed first :
  word_computes (select_word_mid VirtualSignExtendWord SLT first) t (t + 3) [t; (t + 1)%nat; (t + 2)%nat]
    (as_u32 (if (if first then as_i32 v <? W else W <? as_i32 v) then v else W)).
Proof.
  unfold select_word_mid. destruct first; solve_word; rewrite select_word, !sext_word; destruct (_ <? _); try done;
    by rewrite u32_i32.
Qed.
Lemma select_unsigned first :
  word_computes (select_word_mid VirtualZeroExtendWord SLTU first) t (t + 3) [t; (t + 1)%nat; (t + 2)%nat]
    (as_u32 (if (if first then as_u32 v <? as_u32 W else as_u32 W <? as_u32 v) then v else W)).
Proof.
  unfold select_word_mid. destruct first; solve_word; rewrite select_word, !zext_word, u32_i32;
    rewrite !as_u64_u32; destruct (_ <? _); try done;
    by rewrite u32_i32.
Qed.
End WordValues.

(** ** The word atomics *)

(** Their registers are variables, told apart by hypotheses. *)
Lemma temp_ne r v : ~ instruction_reg r -> instruction_reg v -> r <> v.
Proof. by intros H1 H2 ->. Qed.
Ltac solve_reg ::=
  first [ reflexivity | assumption | apply not_eq_sym; assumption
        | apply temp_ne; assumption | apply not_eq_sym, temp_ne; assumption ].
Ltac run_all := unfold slli, srli, sll, srl; cbn [app]; repeat run_write; cbn [run64].
Ltac show_agree := let r := fresh "r" in let Hr := fresh "Hr" in
  intros r Hr; reg_simpl; reflexivity.

Section Word.
Context (f : regs) (t rd rs1 rs2 : nat).
Context (H0 : rd <> 0%nat) (Hrs1 : ~ instruction_reg rs1) (Hrs2 : ~ instruction_reg rs2).
Context (Hf1 : in_s 64 (f rs1)) (Hf0 : f 0%nat = 0) (Hm : as_u64 (f rs1) mod 4 = 0).
Abbreviation a := (as_u64 (f rs1)).
Abbreviation base := (a - a mod 8).
Abbreviation off := (8 * (a mod 8)).

(** The registers: the word, the doubleword and the shift. *)
Context (u v_rd v_dword v_shift : nat).
Definition temps (l : list nat) : Prop := Forall instruction_reg l /\ NoDup l.
Context (Hpre : temps [u; v_rd; v_dword; v_shift]).

(** After the prefix. *)
Record prefixed (d : Z) (g : regs) : Prop := {
  pre_agree : agree g f;
  pre_word : as_i32 (g v_rd) = as_i32 (field d off 32);
  pre_dword : g v_dword = as_i64 d;
  pre_shift : g v_shift = as_i64 (f rs1 * as_i64 (2 ^ 3))
}.

Lemma temps_ne : instruction_reg u /\ instruction_reg v_rd /\ instruction_reg v_dword /\ instruction_reg v_shift /\
  u <> v_rd /\ u <> v_dword /\ u <> v_shift /\ v_rd <> v_dword /\ v_rd <> v_shift /\ v_dword <> v_shift.
Proof.
  destruct Hpre as [H1 H2]. rewrite !list.Forall_cons in H1. rewrite !list.NoDup_cons, !list_elem_of_In in H2. cbn [In] in H2.
  intuition.
Qed.

Lemma signed_rs1 : as_i64 (f rs1) = f rs1.
Proof. by apply wraps_small. Qed.
Lemma f_mod8 : f rs1 mod 8 = a mod 8.
Proof. symmetry. apply (wrapu_mod 3 64). lia. Qed.
Lemma word_off : 0 <= off /\ off + 32 <= 64.
Proof. destruct (off_bound a 4 ltac:(lia) Hm) as (H1 & H2 & _). lia. Qed.

Lemma pre_runs s s1 d m : load_doubleword base s = Some (inr (d, m), s1) ->
  exists g, run_mem (amo_pre_ops rs1 u v_rd v_dword v_shift) f s = Some (g, s1, [Read m]) /\ prefixed d g.
Proof.
  intros Hl. destruct temps_ne as (T1 & T2 & T3 & T4 & N1 & N2 & N3 & N4 & N5 & N6). unfold amo_pre_ops. cbn [app].
  rewrite run_align_word by (by rewrite Z.add_0_r).
  rewrite (run_mem_cons_pure _ _ f s (upd f v_shift (f rs1 - f rs1 mod 8))); [|done|].
  2: { cbn [outcome64 run_outcome I_rd I_rs1 I_imm ri]. by rewrite land_minus_8. }
  rewrite (run_LD v_dword v_shift _ _ s s1 (f rs1) d m); [|by rewrite upd_at, signed_rs1 by (reflexivity || (intros ->; unfold instruction_reg in T4; lia))|done].
  rewrite run_mem_pure by (apply Forall_cons_2; [done|repeat (apply Forall_cons_2; [reflexivity|]); apply Forall_nil_2]).
  assert (Hi0 : ~ instruction_reg 0) by (unfold instruction_reg; lia). run_all. eexists. split; [reflexivity|]. split; reg_simpl.
  - show_agree.
  - subst. pose proof word_off as [B1 B2]. rewrite land_3f, byte_shift_amount, f_mod8.
    change (as_u128 (Z.shiftl (as_u128 (Z.shiftl 1 (64 - off)) - 1) off)) with (bitmask64 off).
    rewrite trailing_zeros_bitmask by lia. unfold wrapping_shr. rewrite (Z.mod_small off 64) by lia.
    apply low_field; lia.
  - done.
  - by subst.
Qed.

(** The suffix stores the word in [r] and writes the original to [rd]. *)
Context (u' v_mask r : nat) (Hpost : temps [u'; v_rd; v_dword; v_shift; v_mask]).
Context (Hr : r <> u' /\ r <> v_dword /\ r <> v_shift /\ r <> v_mask /\ r <> 0%nat \/ r = rs2).

Lemma post_ne : instruction_reg u' /\ instruction_reg v_mask /\ u' <> v_rd /\ u' <> v_dword /\ u' <> v_shift /\
  u' <> v_mask /\ v_mask <> v_rd /\ v_mask <> v_dword /\ v_mask <> v_shift.
Proof.
  destruct Hpost as [H1 H2]. rewrite !list.Forall_cons in H1. rewrite !list.NoDup_cons, !list_elem_of_In in H2. cbn [In] in H2.
  intuition.
Qed.

(** Up to the store. *)
Definition post_prep : list Op :=
  [ORI (ri v_mask 0 (as_u64 (-1))); srli v_mask v_mask 32] ++ sll u' v_mask v_mask v_shift ++
  sll u' v_shift r v_shift ++
  [XOR (rr v_shift v_dword v_shift); AND (rr v_shift v_shift v_mask); XOR (rr v_dword v_dword v_shift);
   ANDI (ri v_mask rs1 (as_u64 (-8)))].
Lemma post_prep_pure : Forall (fun op => is_memory op = false) post_prep.
Proof. unfold post_prep, sll. cbn [app]. repeat (apply Forall_cons_2; [reflexivity|]). apply Forall_nil_2. Qed.

Lemma prep_runs g0 g d : prefixed d g0 -> agree g g0 -> g v_dword = g0 v_dword -> g v_shift = g0 v_shift -> in_u 64 d ->
  exists g', run64 post_prep g = Some g' /\ agree g' g /\ g' v_mask = f rs1 - f rs1 mod 8 /\ g' v_rd = g v_rd /\
    merged d (as_u32 (g r)) off 32 (as_u64 (g' v_dword)).
Proof.
  intros [P1 P2 P3 P4] Hg Hg1 Hg2 Hd. destruct temps_ne as (T1 & T2 & T3 & T4 & N1 & N2 & N3 & N4 & N5 & N6).
  destruct post_ne as (Q1 & Q2 & Q3 & Q4 & Q5 & Q6 & Q7 & Q8 & Q9).
  assert (Hr' : r <> u' /\ r <> v_dword /\ r <> v_shift /\ r <> v_mask).
  { destruct Hr as [(R1 & R2 & R3 & R4 & _)| ->]; repeat split; solve_reg. }
  pose proof (eq_trans (Hg rs1 Hrs1) (P1 rs1 Hrs1)) as Hgs.
  assert (Hi0 : ~ instruction_reg 0) by (unfold instruction_reg; lia).
  pose proof (eq_trans (Hg _ Hi0) (eq_trans (P1 _ Hi0) Hf0)) as Hg0.
  destruct Hr' as (R1 & R2 & R3 & R4). unfold post_prep. run_all.
  eexists. split; [reflexivity|]. reg_simpl. split; [show_agree|]. split; [subst; by rewrite land_minus_8, Hgs|].
  split; [done|]. subst. rewrite Hg0, Hg1, Hg2, P3, P4. pose proof word_off as [B1 B2].
  rewrite trailing_zeros_bitmask_imm, !byte_shift_amount, f_mod8 by lia.
  change (as_i64 (wrapping_shr (as_u64 (Z.lor 0 (as_i64 (as_u64 (-1))))) 32)) with (Z.ones 32).
  rewrite !mul_pow2 by lia. apply masked_merge; lia.
Qed.

(** *** The whole sequence *)
Lemma amo_post_ops_eq : amo_post_ops rd rs1 u' r v_dword v_shift v_mask v_rd =
  post_prep ++ [SD (so v_mask v_dword); VirtualSignExtendWord (ri rd v_rd 0)].
Proof. reflexivity. Qed.

Lemma word_runs s s1 d m mid new (Q : Mmu -> Prop) :
  load_doubleword base s = Some (inr (d, m), s1) -> in_u 64 d ->
  word_computes rs2 (as_i32 (field d off 32)) (f rs2) mid v_rd r [v_rd; v_dword; v_shift] new ->
  (forall mv, in_u 64 mv -> merged d new off 32 mv -> exists s2, store_doubleword base mv s1 =
    Some (inr {| write_address := base; pre_value := d; post_value := mv |}, s2) /\ Q s2) ->
  exists f' s2 mv, run_mem (amo_pre_ops rs1 u v_rd v_dword v_shift ++ mid ++
      amo_post_ops rd rs1 u' r v_dword v_shift v_mask v_rd) f s =
      Some (f', s2, [Read m; Instr.Write {| write_address := base; pre_value := d; post_value := mv |}]) /\
    agree f' (upd f rd (as_i32 (field d off 32))) /\ in_u 64 mv /\ merged d new off 32 mv /\ Q s2.
Proof.
  intros Hl Hd [Hp Hmid] Hst. destruct (pre_runs s s1 d m Hl) as (g0 & Hg0 & Hpref). pose proof Hpref as [P1 P2 P3 P4].
  destruct (Hmid g0 P2 (P1 _ Hrs2)) as (g & Hg & Hag & Hkeep & Hnew).
  rewrite !list.Forall_cons in Hkeep. destruct Hkeep as (K1 & K2 & K3 & _).
  destruct (prep_runs g0 g d Hpref Hag K2 K3 Hd) as (g' & Hg' & Hag' & Hma & Hrd' & Hme). rewrite Hnew in Hme.
  destruct (Hst (as_u64 (g' v_dword)) ltac:(apply wrapu_range; lia) Hme) as (s2 & Es & HQ).
  exists (upd g' rd (as_i32 (field d off 32))), s2, (as_u64 (g' v_dword)). split; [|split; [|split; [apply wrapu_range; lia|exact (conj Hme HQ)]]].
  - rewrite run_mem_app, Hg0. cbn [mbind option_bind]. rewrite run_mem_app, run_mem_pure, Hg by exact Hp. cbn [mbind option_bind].
    rewrite amo_post_ops_eq, run_mem_app, run_mem_pure, Hg' by exact post_prep_pure. cbn [mbind option_bind].
    erewrite (run_SD v_mask v_dword _ g' s1 s2 (f rs1)); [|by rewrite signed_rs1|exact Es].
    cbn [run_mem mem_step outcome64 run_outcome mbind option_bind I_rd I_rs1 ri app].
    by rewrite sext_word, Hrd', K1, P2.
  - intros q Hq. unfold upd. destruct (rd =? 0)%nat, (q =? rd)%nat; try reflexivity; by rewrite Hag', Hag, P1.
Qed.
End Word.

(** ** What [execute] does, and what the sequence does *)

(** The load, the store of [new] and the original value. *)
Definition exchanges (k : nat) (a : Z) (new : Z -> Z) (s s2 : Mmu) (v : Z) : Prop :=
  exists m s1 w, load_width k a s = Some (inr (v, m), s1) /\ store_width k a (new v) s1 = Some (inr w, s2).
(** The accesses to the doubleword: it is read, and written with the field
    replaced. *)
Definition atomic_accesses (s : Mmu) (k a v new : Z) (acc : list RAMAccess) : Prop :=
  exists d m, holds_bits s (a - a mod 8) 64 d /\ v = field d (8 * (a mod 8)) (8 * k) /\ in_u 64 m /\
    merged d new (8 * (a mod 8)) (8 * k) m /\
    acc = [Read {| read_address := a - a mod 8; read_value := d |};
           Instr.Write {| write_address := a - a mod 8; pre_value := d; post_value := m |}].

Section Performs.
Context (f : regs) (s s2 : Mmu) (t rd rs1 rs2 : nat) (v : Z) (new : Z -> Z).
Context (Ht : (40 <= t <= 41)%nat) (H0 : rd <> 0%nat) (Hrs1 : ~ instruction_reg rs1) (Hrs2 : ~ instruction_reg rs2).
Context (Hf1 : in_s 64 (f rs1)) (Hf0 : f 0%nat = 0) (Hs : mmu_wf s).
Abbreviation a := (as_u64 (f rs1)).
Context (Hok : dword_store s a).

(** The program writes the original and exchanges the memory. *)
Definition atomic (ops : list Op) (k : nat) (ext : Z -> Z) : Prop :=
  exists f' s' acc, run_mem ops f s = Some (f', s', acc) /\ agree f' (upd f rd (ext v)) /\ same_space s2 s' /\
    atomic_accesses s (Z.of_nat k) a v (new v) acc.

Lemma atomic_range : 0 <= a < 2 ^ 64.
Proof. apply wrapu_range. lia. Qed.

(** The doubleword of the exchange can be loaded and stored. *)
Lemma exchanges_dword k : access_width k -> in_u (8 * Z.of_nat k) (new v) -> exchanges k a new s s2 v ->
  a mod Z.of_nat k = 0 /\ exists d s1,
    load_doubleword (a - a mod 8) s = Some (inr (d, {| read_address := a - a mod 8; read_value := d |}), s1) /\
    holds_bits s (a - a mod 8) 64 d /\ v = field d (8 * (a mod 8)) (8 * Z.of_nat k) /\ in_u 64 d /\
    forall mv, in_u 64 mv -> merged d (new v) (8 * (a mod 8)) (8 * Z.of_nat k) mv ->
      exists s3, store_doubleword (a - a mod 8) mv s1 =
        Some (inr {| write_address := a - a mod 8; pre_value := d; post_value := mv |}, s3) /\ same_space s2 s3.
Proof.
  intros Hk Hn (m & s1 & w & El & Es).
  destruct (load_width_Some s k a _ s1 Hs Hk atomic_range El) as (_ & _ & H1 & _).
  destruct (store_width_merged s1 k a (new v) _ s2 (mmu_wf_same _ _ H1 Hs) Hk atomic_range Hn (dword_store_same s s1 a H1 Hok) Es)
    as (Hm & _ & _ & He & Hst).
  assert (He' : not_io_end s (a - a mod 8)) by (apply (not_io_end_same s1); [by symmetry|done]).
  destruct (load_doubleword_field s k a v m s1 Hs Hk atomic_range He' El) as (_ & _ & d & s3 & Ed & H3 & Hd & Hv).
  split; [done|]. exists d, s3. do 3 (split; [done|]). split.
  { rewrite <- (holds_bits_wrapu s (a - a mod 8) 64 d ltac:(lia) Hd). apply wrapu_range. lia. }
  intros mv Hmv Hme. apply Hst; try done; [|by rewrite <- H1]. transitivity s; [by symmetry|done].
Qed.

Lemma doubleword_atomic mid u r : exchanges 8 a new s s2 v -> in_u 64 (new v) -> instruction_reg u ->
  (forall d, v = d -> computes f rs2 d mid u r (new v)) ->
  atomic (LD (ldo u rs1) :: mid ++ [SD (so rs1 r); ADDI (ri rd u 0)]) 8 as_i64.
Proof.
  intros He Hn Hu Hmid. destruct (exchanges_dword 8) as (Hm & d & s1 & El & Hd & Hv & Hdu & Hst); [|done..|].
  { unfold access_width. auto. }
  change (Z.of_nat 8) with 8 in Hm. assert (Hvd : v = d).
  { rewrite Hv, Hm. unfold field. rewrite Z.mul_0_r, Z.shiftr_0_r. apply wrapu_small. done. }
  destruct (Hst (new v) Hn) as (s3 & Es & H3).
  { rewrite Hm. by apply whole_merge. }
  rewrite Hm, Z.sub_0_r in El, Es.
  destruct (doubleword_runs f s s1 s3 t rd rs1 rs2 d _ _ Ht H0 Hrs1 Hrs2 El mid u r (new v) Hu (Hmid d Hvd) Es) as (f' & Hf & Hag).
  exists f', s3. eexists. split; [exact Hf|]. rewrite Hvd at 1. split; [done|]. split; [done|].
  exists d, (new v). rewrite Hm, Z.sub_0_r in *. split; [done|]. split; [done|]. split; [done|]. split; [|done].
  by apply whole_merge.
Qed.

Lemma word_atomic u v_rd v_dword v_shift u' v_mask r mid : exchanges 4 a new s s2 v -> in_u 32 (new v) ->
  temps [u; v_rd; v_dword; v_shift] -> temps [u'; v_rd; v_dword; v_shift; v_mask] ->
  r <> u' /\ r <> v_dword /\ r <> v_shift /\ r <> v_mask /\ r <> 0%nat \/ r = rs2 ->
  word_computes rs2 (as_i32 v) (f rs2) mid v_rd r [v_rd; v_dword; v_shift] (new v) ->
  atomic (amo_pre_ops rs1 u v_rd v_dword v_shift ++ mid ++ amo_post_ops rd rs1 u' r v_dword v_shift v_mask v_rd) 4 as_i32.
Proof.
  intros He Hn Hpre Hpost Hr Hmid. destruct (exchanges_dword 4) as (Hm & d & s1 & El & Hd & Hv & Hdu & Hst); [|done..|].
  { unfold access_width. auto. }
  change (Z.of_nat 4) with 4 in *. change (8 * 4) with 32 in *. rewrite Hv in Hmid at 1.
  destruct (word_runs f rd rs1 rs2 H0 Hrs1 Hrs2 Hf1 Hf0 Hm u v_rd v_dword v_shift Hpre u' v_mask r Hpost Hr s s1 d _ mid (new v)
    (same_space s2) El Hdu Hmid Hst) as (f' & s3 & mv & Hf & Hag & Hmv & Hme & H3).
  exists f', s3. eexists. split; [exact Hf|]. rewrite Hv at 1. split; [done|]. split; [done|].
  by exists d, mv.
Qed.
End Performs.

(** ** The atomics *)

(** Width in bytes, extension of the loaded value, new value, operands. *)
Definition atomic_info (op : Op) : option (nat * (Z -> Z) * (Z -> Z -> Z) * FormatAMO) :=
  let d new o := Some (8%nat, as_i64, new, o) in
  let w new o := Some (4%nat, as_i32, new, o) in
  match op with
  | AMOADDD o => d (fun x y => as_u64 (as_i64 (x + y))) o
  | AMOANDD o => d (fun x y => Z.land (as_u64 x) (as_u64 y)) o
  | AMOORD o => d (fun x y => Z.lor (as_u64 x) (as_u64 y)) o
  | AMOXORD o => d (fun x y => Z.lxor (as_u64 x) (as_u64 y)) o
  | AMOSWAPD o => d (fun _ y => as_u64 y) o
  | AMOMIND o => d (fun x y => as_u64 (if x <=? y then x else y)) o
  | AMOMAXD o => d (fun x y => as_u64 (if y <=? x then x else y)) o
  | AMOMINUD o => d (fun x y => if as_u64 x <=? as_u64 y then as_u64 x else as_u64 y) o
  | AMOMAXUD o => d (fun x y => if as_u64 y <=? as_u64 x then as_u64 x else as_u64 y) o
  | AMOADDW o => w (fun x y => as_u32 (as_i32 (as_i32 x + as_i32 y))) o
  | AMOANDW o => w (fun x y => Z.land (as_u32 x) (as_u32 y)) o
  | AMOORW o => w (fun x y => Z.lor (as_u32 x) (as_u32 y)) o
  | AMOXORW o => w (fun x y => Z.lxor (as_u32 x) (as_u32 y)) o
  | AMOSWAPW o => w (fun _ y => as_u32 y) o
  | AMOMINW o => w (fun x y => as_u32 (if as_i32 x <=? as_i32 y then as_i32 x else as_i32 y)) o
  | AMOMAXW o => w (fun x y => as_u32 (if as_i32 y <=? as_i32 x then as_i32 x else as_i32 y)) o
  | AMOMINUW o => w (fun x y => if as_u32 x <=? as_u32 y then as_u32 x else as_u32 y) o
  | AMOMAXUW o => w (fun x y => if as_u32 y <=? as_u32 x then as_u32 x else as_u32 y) o
  | _ => None
  end.

(** The program with the first temporary [t] and the destination [rd]. *)
Definition atomic_ops (t rd : nat) (op : Op) : list Op :=
  let f (p : nat -> nat -> nat -> nat -> list Op) (o : FormatAMO) := p t rd (AMO_rs1 o) (AMO_rs2 o) in
  match op with
  | AMOADDD o => f (fun t rd a b => AMO_D_ops t rd a b ADD) o
  | AMOANDD o => f (fun t rd a b => AMO_D_ops t rd a b AND) o
  | AMOORD o => f (fun t rd a b => AMO_D_ops t rd a b OR) o
  | AMOXORD o => f (fun t rd a b => AMO_D_ops t rd a b XOR) o
  | AMOSWAPD o => f AMOSWAPD_ops o
  | AMOMIND o => f (fun t rd a b => AMO_D_select_ops t rd a b SLT true) o
  | AMOMAXD o => f (fun t rd a b => AMO_D_select_ops t rd a b SLT false) o
  | AMOMINUD o => f (fun t rd a b => AMO_D_select_ops t rd a b SLTU true) o
  | AMOMAXUD o => f (fun t rd a b => AMO_D_select_ops t rd a b SLTU false) o
  | AMOADDW o => f (fun t rd a b => AMO_W_ops t rd a b ADD) o
  | AMOANDW o => f (fun t rd a b => AMO_W_ops t rd a b AND) o
  | AMOORW o => f (fun t rd a b => AMO_W_ops t rd a b OR) o
  | AMOXORW o => f (fun t rd a b => AMO_W_ops t rd a b XOR) o
  | AMOSWAPW o => f AMOSWAPW_ops o
  | AMOMINW o => f (fun t rd a b => AMO_W_select_ops t rd a b VirtualSignExtendWord SLT true) o
  | AMOMAXW o => f (fun t rd a b => AMO_W_select_ops t rd a b VirtualSignExtendWord SLT false) o
  | AMOMINUW o => f (fun t rd a b => AMO_W_select_ops t rd a b VirtualZeroExtendWord SLTU true) o
  | AMOMAXUW o => f (fun t rd a b => AMO_W_select_ops t rd a b VirtualZeroExtendWord SLTU false) o
  | _ => []
  end.

Lemma set_mmu_set_mmu c s s' : set_mmu (set_mmu c s) s' = set_mmu c s'.
Proof. reflexivity. Qed.

Lemma AMO_D_execute c new o c' : cpu_wf c -> valid_reg (AMO_rd o) -> valid_reg (AMO_rs1 o) -> valid_reg (AMO_rs2 o) ->
  AMO_D_exec c new o = Some c' -> exists s2 v,
    exchanges 8 (as_u64 (reg c (AMO_rs1 o))) (fun v => new (as_i64 v) (reg c (AMO_rs2 o))) (mmu c) s2 v /\
    c' = wr (set_mmu c s2) (AMO_rd o) (as_i64 v).
Proof.
  intros Hc H0 H1 H2. unfold AMO_D_exec. rewrite !(lookup_reg c Hc) by done.
  cbn [mbind option_bind fmap option_fmap option_map]. rewrite on_mmu_eq.
  destruct (load_doubleword _ (mmu c)) as [[[tr|[v m]] s1]|] eqn:El; cbn [mbind option_bind]; try discriminate.
  rewrite on_mmu_eq. change (mmu (set_mmu c s1)) with s1.
  destruct (store_doubleword _ _ s1) as [[[tr|w] s2]|] eqn:Es; cbn [mbind option_bind]; try discriminate.
  rewrite set_mmu_set_mmu, (write_register_wr _ (set_mmu_wf c Hc s2)) by done. intros [= <-].
  exists s2, v. split; [|done]. by exists m, s1, w.
Qed.
Lemma AMO_W_execute c new o c' : cpu_wf c -> valid_reg (AMO_rd o) -> valid_reg (AMO_rs1 o) -> valid_reg (AMO_rs2 o) ->
  AMO_W_exec c new o = Some c' -> exists s2 v,
    exchanges 4 (as_u64 (reg c (AMO_rs1 o))) (fun v => new (as_i32 v) (reg c (AMO_rs2 o))) (mmu c) s2 v /\
    c' = wr (set_mmu c s2) (AMO_rd o) (as_i32 v).
Proof.
  intros Hc H0 H1 H2. unfold AMO_W_exec. rewrite !(lookup_reg c Hc) by done.
  cbn [mbind option_bind fmap option_fmap option_map]. rewrite on_mmu_eq.
  destruct (load_word _ (mmu c)) as [[[tr|[v m]] s1]|] eqn:El; cbn [mbind option_bind]; try discriminate.
  rewrite on_mmu_eq. change (mmu (set_mmu c s1)) with s1.
  destruct (store_word _ _ s1) as [[[tr|w] s2]|] eqn:Es; cbn [mbind option_bind]; try discriminate.
  rewrite set_mmu_set_mmu, (write_register_wr _ (set_mmu_wf c Hc s2)) by done. intros [= <-].
  exists s2, v. split; [|done]. by exists m, s1, w.
Qed.

Lemma atomic_execute (i : Instruction) (c c' : Cpu) k ext new o :
  cpu_wf c -> op_valid (operands i) -> atomic_info (operands i) = Some (k, ext, new, o) -> execute i c = Some c' ->
  exists s2 v, exchanges k (as_u64 (reg c (AMO_rs1 o))) (fun v => new (ext v) (reg c (AMO_rs2 o))) (mmu c) s2 v /\
    c' = wr (set_mmu c s2) (AMO_rd o) (ext v).
Proof.
  intros Hc (H0 & H1 & H2) Hi. unfold execute.
  destruct (operands i); try discriminate Hi; cbn [atomic_info] in Hi; injection Hi as <- <- <- <-; cbn in H0, H1, H2;
    intros He; first [exact (AMO_D_execute c _ _ c' Hc H0 H1 H2 He) | exact (AMO_W_execute c _ _ c' Hc H0 H1 H2 He)].
Qed.

Lemma leb_ltb {A} x y (p q : A) : (if x <=? y then p else q) = if y <? x then q else p.
Proof. rewrite Z.leb_antisym. by destruct (y <? x). Qed.
Lemma if_u64 (b : bool) x y : (if b then as_u64 x else as_u64 y) = as_u64 (if b then x else y).
Proof. by destruct b. Qed.
Lemma if_u32 (b : bool) x y : (if b then as_u32 x else as_u32 y) = as_u32 (if b then x else y).
Proof. by destruct b. Qed.
Lemma if_u32_i32 (b : bool) x y : as_u32 (if b then as_i32 x else as_i32 y) = as_u32 (if b then x else y).
Proof. destruct b; apply u32_i32. Qed.

Lemma atomic_new_range op k ext new o x y : atomic_info op = Some (k, ext, new, o) -> in_u (8 * Z.of_nat k) (new x y).
Proof.
  intros Hi. destruct op; try discriminate Hi; cbn [atomic_info] in Hi; injection Hi as <- <- <- <-;
    rewrite ?if_u64, ?if_u32, <- ?wrapu_land, <- ?wrapu_lor, <- ?wrapu_lxor by lia; apply wrapu_range; lia.
Qed.

Ltac solve_temps :=
  split; [repeat (apply Forall_cons_2; [unfold instruction_reg; lia|]); apply Forall_nil_2
         | apply (bool_decide_unpack _); vm_compute; exact I].

Section Shapes.
Context (f : regs) (s s2 : Mmu) (t rd rs1 rs2 : nat) (v : Z) (nw : Z -> Z).
Context (Ht : t = 40%nat \/ t = 41%nat) (H0 : rd <> 0%nat).
Context (Hrs1 : ~ instruction_reg rs1) (Hrs2 : ~ instruction_reg rs2).
Context (Hf1 : in_s 64 (f rs1)) (Hf0 : f 0%nat = 0) (Hs : mmu_wf s) (Hok : dword_store s (as_u64 (f rs1))).
Abbreviation a := (as_u64 (f rs1)).

Lemma temp_at : (40 <= t <= 41)%nat /\ instruction_reg t /\ instruction_reg (t + 1).
Proof. clear -Ht. unfold instruction_reg. lia. Qed.

Lemma D_ops_atomic op : (forall d, computes f rs2 d [op (rr t (t + 1) rs2)] (t + 1) t (nw d)) ->
  exchanges 8 a nw s s2 v -> in_u 64 (nw v) ->
  atomic f s s2 rd rs1 v nw (AMO_D_ops t rd rs1 rs2 op) 8 as_i64.
Proof.
  intros Hc He Hn. destruct temp_at as (Ht1 & Ht2 & Ht3).
  apply (doubleword_atomic f s s2 t rd rs1 rs2 v nw Ht1 H0 Hrs1 Hrs2 Hs Hok [op (rr t (t + 1) rs2)] (t + 1) t He Hn Ht3).
  by intros d ->.
Qed.
Lemma SWAPD_atomic : (forall d, nw d = as_u64 (f rs2)) -> exchanges 8 a nw s s2 v -> in_u 64 (nw v) ->
  atomic f s s2 rd rs1 v nw (AMOSWAPD_ops t rd rs1 rs2) 8 as_i64.
Proof.
  intros Hc He Hn. destruct temp_at as (Ht1 & Ht2 & Ht3).
  apply (doubleword_atomic f s s2 t rd rs1 rs2 v nw Ht1 H0 Hrs1 Hrs2 Hs Hok [] t rs2 He Hn Ht2).
  intros d _. rewrite Hc. by apply SWAP_computes.
Qed.
Lemma D_select_atomic op (first : bool) (cmp : Z -> Z -> bool) :
  (op = SLT /\ cmp = Z.ltb \/ op = SLTU /\ cmp = fun x y => as_u64 x <? as_u64 y) ->
  (forall d, nw d = as_u64 (if (if first then cmp (f rs2) (as_i64 d) else cmp (as_i64 d) (f rs2)) then f rs2 else as_i64 d)) ->
  exchanges 8 a nw s s2 v -> in_u 64 (nw v) ->
  atomic f s s2 rd rs1 v nw (AMO_D_select_ops t rd rs1 rs2 op first) 8 as_i64.
Proof.
  intros Hop Hc He Hn. destruct temp_at as (Ht1 & Ht2 & Ht3).
  apply (doubleword_atomic f s s2 t rd rs1 rs2 v nw Ht1 H0 Hrs1 Hrs2 Hs Hok (select_mid t rs2 op first) t (t + 1) He Hn Ht2).
  intros d ->. rewrite Hc. by apply select_computes.
Qed.

Abbreviation W := (as_i32 v).
Lemma W_ops_atomic op : word_computes rs2 W (f rs2) [op (rr (t + 1) t rs2)] t (t + 1) [t; (t + 3)%nat; (t + 4)%nat] (nw v) ->
  exchanges 4 a nw s s2 v -> in_u 32 (nw v) ->
  atomic f s s2 rd rs1 v nw (AMO_W_ops t rd rs1 rs2 op) 4 as_i32.
Proof.
  intros Hc He Hn. unfold AMO_W_ops.
  apply (word_atomic f s s2 t rd rs1 rs2 v nw (proj1 temp_at) H0 Hrs1 Hrs2 Hf1 Hf0 Hs Hok (t + 5) t (t + 3) (t + 4) (t + 5) (t + 2) (t + 1)
    [op (rr (t + 1) t rs2)] He Hn); [..|left; lia|exact Hc]; destruct Ht as [E|E]; rewrite E; solve_temps.
Qed.
Lemma SWAPW_atomic : nw v = as_u32 (f rs2) -> exchanges 4 a nw s s2 v -> in_u 32 (nw v) ->
  atomic f s s2 rd rs1 v nw (AMOSWAPW_ops t rd rs1 rs2) 4 as_i32.
Proof.
  intros Hc He Hn.
  apply (word_atomic f s s2 t rd rs1 rs2 v nw (proj1 temp_at) H0 Hrs1 Hrs2 Hf1 Hf0 Hs Hok (t + 4) (t + 3) (t + 1) (t + 2) (t + 4) t rs2
    [] He Hn); [..|by right|rewrite Hc; apply SWAPW_computes]; destruct Ht as [E|E]; rewrite E; solve_temps.
Qed.
Lemma W_select_atomic ext op first :
  word_computes rs2 W (f rs2) (select_word_mid t rs2 ext op first) t (t + 3) [t; (t + 1)%nat; (t + 2)%nat] (nw v) ->
  exchanges 4 a nw s s2 v -> in_u 32 (nw v) ->
  atomic f s s2 rd rs1 v nw (AMO_W_select_ops t rd rs1 rs2 ext op first) 4 as_i32.
Proof.
  intros Hc He Hn. unfold AMO_W_select_ops.
  apply (word_atomic f s s2 t rd rs1 rs2 v nw (proj1 temp_at) H0 Hrs1 Hrs2 Hf1 Hf0 Hs Hok (t + 3) t (t + 1) (t + 2) (t + 5) (t + 4) (t + 3)
    (select_word_mid t rs2 ext op first) He Hn); [..|left; lia|exact Hc]; destruct Ht as [E|E]; rewrite E; solve_temps.
Qed.
End Shapes.

Section Program.
Context (f : regs) (s s2 : Mmu) (t rd : nat) (op : Op) (k : nat) (ext : Z -> Z) (new : Z -> Z -> Z) (o : FormatAMO) (v : Z).
Context (Ht : t = 40%nat \/ t = 41%nat) (H0 : rd <> 0%nat) (Hi : atomic_info op = Some (k, ext, new, o)).
Context (Hrs1 : ~ instruction_reg (AMO_rs1 o)) (Hrs2 : ~ instruction_reg (AMO_rs2 o)).
Context (Hf1 : in_s 64 (f (AMO_rs1 o))) (Hf2 : in_s 64 (f (AMO_rs2 o))) (Hf0 : f 0%nat = 0) (Hs : mmu_wf s).
Abbreviation a := (as_u64 (f (AMO_rs1 o))).
Context (Hok : dword_store s a) (He : exchanges k a (fun v => new (ext v) (f (AMO_rs2 o))) s s2 v).

Lemma atomic_program : atomic f s s2 rd (AMO_rs1 o) v (fun v => new (ext v) (f (AMO_rs2 o))) (atomic_ops t rd op) k ext.
Proof.
  pose proof (atomic_new_range op k ext new o (ext v) (f (AMO_rs2 o)) Hi) as Hn.
  pose proof (wraps_range 32 ltac:(lia) v) as HW. assert (Htr : (40 <= t <= 41)%nat) by (clear -Ht; lia).
  revert Hn He. destruct op; try discriminate Hi; cbn [atomic_info] in Hi; injection Hi as <- <- <- <-; intros Hn He';
    cbn [atomic_ops];
    lazymatch goal with
    | |- atomic _ _ _ _ _ _ _ (AMO_D_ops _ _ _ _ _) _ _ =>
        refine (D_ops_atomic f s s2 t rd _ _ v _ Ht H0 Hrs1 Hrs2 Hs Hok _ _ He' Hn); intros d
    | |- atomic _ _ _ _ _ _ _ (AMOSWAPD_ops _ _ _ _) _ _ =>
        refine (SWAPD_atomic f s s2 t rd _ _ v _ Ht H0 Hrs1 Hrs2 Hs Hok _ He' Hn); intros d
    | |- atomic _ _ _ _ _ _ _ (AMO_W_ops _ _ _ _ _) _ _ =>
        refine (W_ops_atomic f s s2 t rd _ _ v _ Ht H0 Hrs1 Hrs2 Hf1 Hf0 Hs Hok _ _ He' Hn)
    | |- atomic _ _ _ _ _ _ _ (AMOSWAPW_ops _ _ _ _) _ _ =>
        refine (SWAPW_atomic f s s2 t rd _ _ v _ Ht H0 Hrs1 Hrs2 Hf1 Hf0 Hs Hok _ He' Hn)
    | |- atomic _ _ _ _ _ _ _ (AMO_W_select_ops _ _ _ _ _ _ _) _ _ =>
        refine (W_select_atomic f s s2 t rd _ _ v _ Ht H0 Hrs1 Hrs2 Hf1 Hf0 Hs Hok _ _ _ _ He' Hn)
    | |- atomic _ _ _ _ _ _ _ (AMO_D_select_ops _ _ _ _ SLT _) _ _ =>
        refine (D_select_atomic f s s2 t rd _ _ v _ Ht H0 Hrs1 Hrs2 Hs Hok SLT _ Z.ltb (or_introl (conj eq_refl eq_refl)) _ He' Hn); intros d
    | |- atomic _ _ _ _ _ _ _ (AMO_D_select_ops _ _ _ _ SLTU _) _ _ =>
        refine (D_select_atomic f s s2 t rd _ _ v _ Ht H0 Hrs1 Hrs2 Hs Hok SLTU _ _ (or_intror (conj eq_refl eq_refl)) _ He' Hn); intros d
    end; cbv beta iota; clear He' Hn.
  - by apply ADD_computes.
  - by apply ADDW_computes.
  - by apply AND_computes.
  - by apply ANDW_computes.
  - by rewrite leb_ltb.
  - by rewrite leb_ltb, if_u64.
  - rewrite leb_ltb, if_u32. by apply (select_unsigned t _ _ _ Htr Hrs2 HW false).
  - rewrite leb_ltb, if_u32_i32, (i32_W _ HW). by apply (select_signed t _ _ _ Htr Hrs2 HW false).
  - by rewrite leb_ltb.
  - by rewrite leb_ltb, if_u64.
  - rewrite leb_ltb, if_u32. by apply (select_unsigned t _ _ _ Htr Hrs2 HW true).
  - rewrite leb_ltb, if_u32_i32, (i32_W _ HW). by apply (select_signed t _ _ _ Htr Hrs2 HW true).
  - by apply OR_computes.
  - by apply ORW_computes.
  - reflexivity.
  - reflexivity.
  - by apply XOR_computes.
  - by apply XORW_computes.
Qed.
End Program.

(** ** Tracing *)

Lemma atomic_ops_mem op k ext new o t rd : atomic_info op = Some (k, ext, new, o) -> op_arch op ->
  t = 40%nat \/ t = 41%nat -> valid_reg rd -> rd <> 0%nat -> Forall mem_op (atomic_ops t rd op).
Proof.
  intros Hi (_ & H1 & H2) Ht Hv H0. destruct rd as [|rd]; [done|]. clear H0.
  destruct op; try discriminate Hi; cbn in H1, H2; unfold arch_reg in H1, H2; destruct H1 as [H1 _], H2 as [H2 _];
    cbn [atomic_ops]; unfold AMO_D_ops, AMOSWAPD_ops, AMO_D_select_ops, AMO_W_ops, AMOSWAPW_ops, AMO_W_select_ops,
      amo_pre_ops, amo_post_ops, sll, srl; cbn [app];
    destruct Ht as [-> | ->]; repeat (apply Forall_cons_2 || apply Forall_nil_2);
    (split; [split; [repeat split; cbn; first [assumption|exact I|apply valid_temp; lia]|exact I]|
      first [exact I|intros g; by eexists]]).
Qed.

Ltac unfold_atomic :=
  unfold AMOADDD_inline_sequence, AMOANDD_inline_sequence, AMOORD_inline_sequence, AMOXORD_inline_sequence,
    AMOMIND_inline_sequence, AMOMAXD_inline_sequence, AMOMINUD_inline_sequence, AMOMAXUD_inline_sequence,
    AMOADDW_inline_sequence, AMOANDW_inline_sequence, AMOORW_inline_sequence, AMOXORW_inline_sequence,
    AMOMINW_inline_sequence, AMOMAXW_inline_sequence, AMOMINUW_inline_sequence, AMOMAXUW_inline_sequence.
Lemma atomic_sequence (i : Instruction) (c : Cpu) k ext new o :
  atomic_info (operands i) = Some (k, ext, new, o) -> xlen c = Bit64 -> temporaries_free (vr_allocator c) ->
  exists m, traced_sequence i c = Some m /\ ops_at m (vr_allocator c) (atomic_ops 40 (AMO_rd o) (operands i)).
Proof.
  intros Hi Hx Ha. unfold traced_sequence, dispatch_inline_sequence. rewrite Hx.
  destruct (operands i) as [] eqn:Eo; try discriminate Hi; cbn [atomic_info] in Hi; injection Hi as <- <- <- <-;
    (eexists; split; [reflexivity|]); cbn [atomic_ops];
    unfold_atomic; lazymatch goal with
    | |- ops_at (AMO_D_inline_sequence _ ?s ?op) _ _ => exact (AMO_D_has_ops s op _ Ha)
    | |- ops_at (AMOSWAPD_inline_sequence _ ?s) _ _ => exact (AMOSWAPD_has_ops s _ Ha)
    | |- ops_at (AMO_D_select _ ?s ?op ?b) _ _ => exact (AMO_D_select_has_ops s op b _ Ha)
    | |- ops_at (AMO_W_inline_sequence _ ?s ?op) _ _ => exact (AMO_W_has_ops s op _ Ha)
    | |- ops_at (AMOSWAPW_inline_sequence _ ?s) _ _ => exact (AMOSWAPW_has_ops s _ Ha)
    | |- ops_at (AMO_W_select _ ?s ?ext ?op ?b) _ _ => exact (AMO_W_select_has_ops s ext op b _ Ha)
    end.
Qed.
Lemma atomic_sequence_x0 (i : Instruction) (c : Cpu) k ext new o :
  atomic_info (operands i) = Some (k, ext, new, o) -> xlen c = Bit64 -> temporaries_free (vr_allocator c) ->
  rd_is_zero i = true -> ops_at (Instruction_inline_sequence i Bit64) (vr_allocator c) (atomic_ops 41 40 (operands i)).
Proof.
  intros Hi Hx Ha Hz. unfold Instruction_inline_sequence. rewrite Hz. unfold has_side_effects, dispatch_inline_sequence, with_rd.
  cbn [operands]. destruct (operands i) as [] eqn:Eo; try discriminate Hi; cbn [atomic_info] in Hi; injection Hi as <- <- <- <-;
    cbn [atomic_ops op_set_rd op_format]; unfold_atomic; lazymatch goal with
    | |- ops_at _ _ (AMO_D_ops _ _ _ _ ?op) => exact (AMO_D_has_ops_x0 (with_operands i o0) op _ Ha)
    | |- ops_at _ _ (AMOSWAPD_ops _ _ _ _) => exact (AMOSWAPD_has_ops_x0 (with_operands i o0) _ Ha)
    | |- ops_at _ _ (AMO_D_select_ops _ _ _ _ ?op ?b) => exact (AMO_D_select_has_ops_x0 (with_operands i o0) op b _ Ha)
    | |- ops_at _ _ (AMO_W_ops _ _ _ _ ?op) => exact (AMO_W_has_ops_x0 (with_operands i o0) op _ Ha)
    | |- ops_at _ _ (AMOSWAPW_ops _ _ _ _) => exact (AMOSWAPW_has_ops_x0 (with_operands i o0) _ Ha)
    | |- ops_at _ _ (AMO_W_select_ops _ _ _ _ ?ext ?op ?b) => exact (AMO_W_select_has_ops_x0 (with_operands i o0) ext op b _ Ha)
    end.
Qed.

Lemma atomic_unframed i c : is_Some (atomic_info (operands i)) ->
  before_sequence i c = Some c /\ after_sequence i c = c.
Proof. unfold before_sequence, after_sequence. intros [? H]. destruct (operands i); done. Qed.
Lemma atomic_regs op k ext new o : atomic_info op = Some (k, ext, new, o) -> op_arch op ->
  norm_rd (op_operands op) = Some (AMO_rd o) /\ valid_reg (AMO_rd o) /\ arch_reg (AMO_rs1 o) /\ arch_reg (AMO_rs2 o).
Proof.
  intros Hi (H0 & H1 & H2). destruct op; try discriminate Hi; cbn [atomic_info] in Hi; injection Hi as <- <- <- <-;
    cbn in H0, H1, H2; unfold arch_reg in *; tauto.
Qed.

(** The trace of an atomic, whatever its destination. *)
Lemma trace_atomic n c i k ext new o : cpu_wf c -> xlen c = Bit64 -> temporaries_free (vr_allocator c) ->
  op_arch (operands i) -> atomic_info (operands i) = Some (k, ext, new, o) ->
  let ops := if rd_is_zero i then atomic_ops 41 40 (operands i) else atomic_ops 40 (AMO_rd o) (operands i) in
  match run_mem ops (reg c) (mmu c) with
  | Some (f', s', acc) => exists c2 t,
      trace (S (S n)) i c = Some (c2, t) /\ with_regs (set_mmu c s') f' c2 /\ accesses t = acc
  | None => trace (S (S n)) i c = None
  end.
Proof.
  intros Hc Hx Ha Hop Hi. destruct (atomic_regs _ _ _ _ _ Hi Hop) as (Hrd & Hv & _). destruct (rd_is_zero i) eqn:Hz; cbv zeta.
  - destruct (atomic_sequence_x0 i c k ext new o Hi Hx Ha Hz) as (l & Hl & Hops).
    pose proof (atomic_ops_mem _ _ _ _ _ 41 40 Hi Hop (or_intror eq_refl) valid_40 ltac:(done)) as Hm.
    rewrite <- Hops in Hm |- *. rewrite Forall_map in Hm.
    unfold trace. rewrite Hz, Hx, Hl. cbn [mbind option_bind]. rewrite set_allocator_id.
    refine (run_list_mem (trace_raw (S (S n))) _ l c (mmu c) (reg c) c Hx (with_regs_here c Hc) Hm).
    intros j d Hj _. cbn [trace_raw]. by rewrite Hj.
  - destruct (atomic_sequence i c k ext new o Hi Hx Ha) as (m & Hseq & Hops).
    destruct (atomic_unframed i c) as [Hb _]; [by rewrite Hi|].
    assert (H0 : AMO_rd o <> 0%nat) by (intros E; unfold rd_is_zero in Hz; by rewrite Hrd, E in Hz).
    pose proof (atomic_ops_mem _ _ _ _ _ 40 (AMO_rd o) Hi Hop (or_introl eq_refl) Hv H0) as Hm.
    pose proof (trace_sequence n c i m _ Hc Hx Hz Hb Hseq Hops Hm) as Ht.
    destruct (run_mem _ _ _) as [[[f' s'] acc]|]; [|done]. destruct Ht as (c2 & t & Ht & Hw & Hacc).
    exists c2, t. destruct (atomic_unframed i c2) as [_ Haf]; [by rewrite Hi|]. by rewrite Haf in Ht.
Qed.

(** The trace of an atomic. *)
Lemma atomic_traced (n : nat) (c : Cpu) (i : Instruction) k ext new o (c' : Cpu) :
  let a := as_u64 (reg c (AMO_rs1 o)) in
  cpu_wf c -> xlen c = Bit64 -> temporaries_free (vr_allocator c) -> op_arch (operands i) ->
  atomic_info (operands i) = Some (k, ext, new, o) -> mmu_wf (mmu c) -> dword_store (mmu c) a ->
  execute i c = Some c' ->
  exists c1 t v, trace (S (S n)) i c = Some (c1, t) /\ (c1 ≈ c' /\ cpu_wf c1) /\
    atomic_accesses (mmu c) (Z.of_nat k) a v (new (ext v) (reg c (AMO_rs2 o))) (accesses t).
Proof.
  intros a Hc Hx Ha Hop Hi Hs Hok Hexec. destruct (atomic_regs _ _ _ _ _ Hi Hop) as (Hrd & Hv & [Hv1 H1] & [Hv2 H2]).
  destruct (atomic_execute i c c' k ext new o Hc (op_arch_valid _ Hop) Hi Hexec) as (s2 & v & He & ->).
  pose proof (trace_atomic n c i k ext new o Hc Hx Ha Hop Hi) as Ht. cbv zeta in Ht.
  assert (Hp : forall t rd, t = 40%nat \/ t = 41%nat -> rd <> 0%nat ->
    atomic (reg c) (mmu c) s2 rd (AMO_rs1 o) v (fun v => new (ext v) (reg c (AMO_rs2 o))) (atomic_ops t rd (operands i)) k ext).
  { intros t rd Ht' H0. apply (atomic_program (reg c) (mmu c) s2 t rd (operands i) k ext new o v); try done;
      first [by apply reg_range|by apply reg_zero]. }
  assert (Hsame : forall f' s' c2 rd, with_regs (set_mmu c s') f' c2 -> same_space s2 s' -> valid_reg rd ->
    agree f' (upd (reg c) rd (ext v)) -> cpu_wf (wr (set_mmu c s') rd (ext v)) -> c2 ≈ wr (set_mmu c s2) rd (ext v)).
  { intros f' s' c2 rd Hw H Hv' Hag Hwf. transitivity (wr (set_mmu c s') rd (ext v)).
    - by apply (with_regs_write (set_mmu c s') (set_mmu_wf c Hc s') f').
    - apply wr_proper; done. }
  pose proof (keeps_wf _ _ (execute_keeps i c _ Hexec) Hc) as Hwf.
  destruct (rd_is_zero i) eqn:Hz.
  - assert (E0 : AMO_rd o = 0%nat) by (unfold rd_is_zero in Hz; rewrite Hrd in Hz; by destruct (AMO_rd o)).
    destruct (Hp 41%nat 40%nat) as (f' & s' & acc & Hrun & Hag & Hss & Hacc); [by right|done|].
    rewrite Hrun in Ht. destruct Ht as (c2 & t & Ht & Hw & <-). exists c2, t, v. split; [done|]. split; [|done]. split; [|apply Hw].
    rewrite E0. cbn [wr]. transitivity (set_mmu c s'); [|by split].
    apply (with_regs_agree _ f'); [by apply set_mmu_wf|done|]. intros r Hr'. rewrite Hag by done.
    apply upd_ne. intros ->. apply Hr'. apply temp_40.
  - assert (H0 : AMO_rd o <> 0%nat) by (intros E; unfold rd_is_zero in Hz; by rewrite Hrd, E in Hz).
    destruct (Hp 40%nat (AMO_rd o)) as (f' & s' & acc & Hrun & Hag & Hss & Hacc); [by left|done|].
    rewrite Hrun in Ht. destruct Ht as (c2 & t & Ht & Hw & <-). exists c2, t, v. split; [done|]. split; [|done]. split; [|apply Hw].
    apply (Hsame f' s'); try done. destruct (AMO_rd o); [done|]. by destruct Hwf; split.
Qed.

(** C6: An atomic is traced by one read and one write of an aligned doubleword:
    when [execute] exchanges [k] bytes of memory with the value an atomic
    computes, the branch-free sequence ends in the same state but for the
    temporaries, also with destination [x0], and records the read of the
    doubleword and its write with the [k] bytes replaced by that value.  The
    doubleword must be a store address as a whole ([dword_store]): this leaves
    out the word right above the stack canary whose doubleword starts inside it,
    and the word at [panic + 4], where the traced write of the doubleword sets
    the panic flag and [execute] leaves it alone. *)
Theorem traced_atomic (n : nat) (c : Cpu) (i : Instruction) k ext new o (c' : Cpu) :
  let a := as_u64 (reg c (AMO_rs1 o)) in
  cpu_wf c -> xlen c = Bit64 -> temporaries_free (vr_allocator c) -> op_arch (operands i) ->
  atomic_info (operands i) = Some (k, ext, new, o) -> mmu_wf (mmu c) -> dword_store (mmu c) a ->
  execute i c = Some c' ->
  exists c1 t v, trace (S (S n)) i c = Some (c1, t) /\ c1 ≈ c' /\
    atomic_accesses (mmu c) (Z.of_nat k) a v (new (ext v) (reg c (AMO_rs2 o))) (accesses t).
Proof.
  intros a Hc Hx Ha Hop Hi Hs Hok He. destruct (atomic_traced n c i k ext new o c' Hc Hx Ha Hop Hi Hs Hok He)
    as (c1 & t & v & H). exists c1, t, v. tauto.
Qed.

Lemma traced_atomic_witness :
  let i := at_instr (AMOMAXW {| AMO_rd := 3; AMO_rs1 := 1; AMO_rs2 := 2 |}) in
  exists c' c1 t v new, execute i (ram_cpu (-1)) = Some c' /\ trace 2 i (ram_cpu (-1)) = Some (c1, t) /\ c1 ≈ c' /\
    atomic_accesses (mmu (ram_cpu (-1))) 4 DRAM_BASE v new (accesses t).
Proof.
  intros i. destruct (execute i (ram_cpu (-1))) as [c'|] eqn:E; [|vm_compute in E; discriminate E].
  exists c'. edestruct (traced_atomic 0 (ram_cpu (-1)) i) as (c1 & t & v & Ht & Hc & Ha).
  - clear E. by apply ram_cpu_wf.
  - clear E. reflexivity.
  - apply new_temporaries_free.
  - clear E. arch.
  - clear E. reflexivity.
  - apply ram_mmu_wf.
  - clear E. split; [reflexivity|]. intros d Hd. discriminate Hd.
  - exact E.
  - exists c1, t, v. eexists. exact (conj eq_refl (conj Ht (conj Hc Ha))).
Defined.
