(* ===== verification/TickCorrect.v ===== *)
(** * TickCorrect: one instruction, executed and traced on states that agree

    Two machines that agree on the architectural registers and on memory run the
    same instruction, one with [execute], the other with [trace]: if the first
    succeeds, the second does, its sequence can be expanded again for the count
    of the tick, and the machines agree again. *)
From S2P Require Import Prelude Bits Registers AdviceTape Memory Device Mmu MmuSpec MmuStore Cpu Formats Instr Assembler Sequences.
From S2P Require Import MemSequences Trace ExecWf MmuInvariant Congruence Exec64 SeqOps SeqArith DivArith TraceCorrect MemRun MemLoads MemStores MemAtomics.
Open Scope Z_scope.

(** ** The machine the tracer starts from *)
Record ready (c : Cpu) : Prop := {
  ready_wf : cpu_wf c;
  ready_xlen : xlen c = Bit64;
  ready_free : temporaries_free (vr_allocator c);
  ready_mmu : mmu_wf (mmu c)
}.

Lemma execute_ready i c c' : ready c -> execute i c = Some c' -> ready c'.
Proof.
  intros [H1 H2 H3 H4] E. destruct (execute_keeps i c c' E) as [K1 K2 _ _ K5].
  split; [auto|congruence|congruence|by eapply execute_memory].
Qed.

(** Architectural registers are neither temporaries nor out of range. *)
Lemma low_arch r : low r -> arch_reg r.
Proof. unfold low, arch_reg, valid_reg, instruction_reg. cbn. lia. Qed.
Lemma opt_low_arch o : opt_low o -> opt_arch o.
Proof. destruct o; [apply low_arch|done]. Qed.
Lemma low_op_arch op : low_op op -> op_arch op.
Proof. intros (H1 & H2 & H3). split; [|split]; by apply opt_low_arch. Qed.

(** ** The kinds of instructions *)
Definition is_reserved (op : Op) : bool :=
  match op with LRD _ | LRW _ | SCD _ | SCW _ => true | _ => false end.
(** An instruction outside memory, a load, a store or an atomic; the rest cannot
    be executed on the 64-bit machine. *)
Lemma op_kinds i c c' : xlen c = Bit64 -> is_reserved (operands i) = false -> execute i c = Some c' ->
  is_memory (operands i) = false \/ is_Some (load_info (operands i)) \/ is_Some (store_info (operands i)) \/
  is_Some (atomic_info (operands i)).
Proof.
  intros Hx Hr. unfold execute, VirtualLW_exec, VirtualSW_exec. cbv zeta. rewrite Hx.
  destruct (operands i); try discriminate Hr; intros He; try discriminate He;
    first [by left|by right; left; eexists|by right; right; left; eexists|by right; right; right; eexists].
Qed.

(** ** The sequence, expanded again *)
Lemma ops_at_Some m a ops : ops_at m a ops -> exists l, m a = Some (l, a).
Proof. intros (l & H & _). by exists l. Qed.
(** Outside divisions and reservations, what is traced is what is expanded. *)
Lemma traced_dispatch i c m : is_division (operands i) = false -> is_reserved (operands i) = false ->
  traced_sequence i c = Some m -> m = dispatch_inline_sequence i (xlen c).
Proof. unfold traced_sequence. destruct (operands i); intros Hd Hr [= <-]; done. Qed.
Lemma leaf_dispatch i c xl : is_division (operands i) = false -> is_reserved (operands i) = false ->
  traced_sequence i c = None -> dispatch_inline_sequence i xl = M_ret [i].
Proof. unfold traced_sequence, dispatch_inline_sequence. destruct (operands i); intros Hd Hr H; done. Qed.

Section Expand.
Context (c : Cpu) (Hc : ready c) (i : Instruction) (Hl : low_op (operands i)).
Lemma dispatch_again c' : is_reserved (operands i) = false -> execute i c = Some c' ->
  exists l, dispatch_inline_sequence i Bit64 (vr_allocator c) = Some (l, vr_allocator c).
Proof.
  intros Hr He. destruct Hc as [Hw Hx Ha Hm]. destruct (is_division (operands i)) eqn:Hd.
  { by eapply ops_at_Some, dispatch_division. }
  destruct (traced_sequence i c) as [m|] eqn:Ht.
  - pose proof (traced_dispatch i c m Hd Hr Ht) as Em. rewrite Hx in Em. rewrite <- Em.
    assert (Hs : forall m' ops, traced_sequence i c = Some m' -> ops_at m' (vr_allocator c) ops ->
      exists l, m (vr_allocator c) = Some (l, vr_allocator c)).
    { intros m' ops E. rewrite Ht in E. injection E as <-. apply ops_at_Some. }
    destruct (op_kinds i c c' Hx Hr He) as [Hmem|[[[[k ext] o] H]|[[[k o] H]|[[[[k ext] new] o] H]]]].
    + destruct (traced_sequence_macro i c m Hmem Ht) as (rd & v & Hres & _).
      destruct (macro_sequence c i rd v Hw Hx Ha (op_arch_valid _ (low_op_arch _ Hl)) Hres) as (m' & E & Ho). by eapply Hs.
    + destruct (decide (k = 8%nat)) as [->|Hk].
      * exfalso. unfold traced_sequence in Ht. by destruct (operands i).
      * destruct (load_sequence i c k ext o H Hk Hx Ha) as (m' & E & Ho). by eapply Hs.
    + destruct (decide (k = 8%nat)) as [->|Hk].
      * exfalso. unfold traced_sequence in Ht. by destruct (operands i).
      * destruct (store_sequence i c k o H Hk Hx Ha) as (m' & E & Ho). by eapply Hs.
    + destruct (atomic_sequence i c k ext new o H Hx Ha) as (m' & E & Ho). by eapply Hs.
  - rewrite (leaf_dispatch i c Bit64 Hd Hr Ht). by eexists.
Qed.

(** The expansion of the tick, with destination [x0] or not. *)
Lemma expand_again c' : is_reserved (operands i) = false -> execute i c = Some c' ->
  exists l, Instruction_inline_sequence i Bit64 (vr_allocator c) = Some (l, vr_allocator c).
Proof.
  intros Hr He. destruct (rd_is_zero i) eqn:Hz.
  2: { unfold Instruction_inline_sequence. rewrite Hz. by eapply dispatch_again. }
  destruct Hc as [Hw Hx Ha Hm]. destruct (has_side_effects i) eqn:Hs.
  2: { unfold Instruction_inline_sequence. rewrite Hz, Hs. by eexists. }
  destruct (op_kinds i c c' Hx Hr He) as [Hmem|[H|[H|[[[[k ext] new] o] H]]]].
  - destruct (with_rd_leaf i c Bit64 40 Hmem Hs) as [_ Hd].
    unfold Instruction_inline_sequence. rewrite Hz, Hs. exists [with_rd i 40].
    apply (remap_40 [with_rd i 40] (fun vr => dispatch_inline_sequence (with_rd i vr) Bit64)); [done|by rewrite Hd].
  - exfalso. destruct H as [[[k ext] o] H]. unfold has_side_effects in Hs. by destruct (operands i).
  - exfalso. destruct H as [[k o] H]. unfold rd_is_zero in Hz. by destruct (operands i).
  - eapply ops_at_Some, atomic_sequence_x0; done.
Qed.
End Expand.

(** ** One instruction *)

(** The instructions and addresses the tracer handles as [execute] does: no
    reservation, no word division of the least dividend by zero, no load whose
    doubleword lies at the end of the I/O region, stores and atomics whose
    doubleword is a valid store address as a whole. *)
Definition covered_op (c : Cpu) (op : Op) : Prop :=
  is_reserved op = false /\ ~ word_division_min_by_zero (reg c) op /\
  match load_info op with
  | Some _ => not_io_end (mmu c) (load_address (reg c) op - load_address (reg c) op mod 8)
  | None => True
  end /\
  match store_info op with Some (_, o) => dword_store (mmu c) (store_address (reg c) o) | None => True end /\
  match atomic_info op with Some (_, _, _, o) => dword_store (mmu c) (as_u64 (reg c (AMO_rs1 o))) | None => True end.

(** It is decidable. *)
#[export] Instance forall_some_dec {A} (o : option A) (P : A -> Prop) `{forall a, Decision (P a)} :
  Decision (forall a, o = Some a -> P a).
Proof.
  destruct o as [a|]; [|left; done]. destruct (decide (P a)) as [Ha|Ha].
  - left. by intros b [= <-].
  - right. intros H'. by apply Ha, H'.
Defined.
#[export] Instance not_io_end_dec s a : Decision (not_io_end s a).
Proof. unfold not_io_end. apply _. Defined.
#[export] Instance dword_store_dec s a : Decision (dword_store s a).
Proof. unfold dword_store. apply _. Defined.
#[export] Instance min_by_zero_dec f op : Decision (word_division_min_by_zero f op).
Proof. destruct op; cbn [word_division_min_by_zero]; apply _. Defined.
#[export] Instance covered_op_dec c op : Decision (covered_op c op).
Proof.
  unfold covered_op. apply and_dec; [apply _|]. apply and_dec; [apply _|].
  apply and_dec; [destruct (load_info op); apply _|]. apply and_dec; [destruct (store_info op) as [[]|]; apply _|].
  destruct (atomic_info op) as [[[[] ?] ?]|]; apply _.
Defined.

Lemma covered_traced n i c c' : ready c -> low_op (operands i) -> covered_op c (operands i) -> execute i c = Some c' ->
  exists c1 t, trace (S (S n)) i c = Some (c1, t) /\ c1 ≈ c' /\ cpu_wf c1.
Proof.
  intros [Hw Hx Ha Hm] Hl (Hr & Hdiv & Hld & Hst & Hat) He. pose proof (low_op_arch _ Hl) as Hop.
  destruct (op_kinds i c c' Hx Hr He) as [Hmem|[H|[[[k o] H]|[[[[k ext] new] o] H]]]].
  - by apply trace_agrees.
  - assert (Hl' : not_io_end (mmu c) (load_address (reg c) (operands i) - load_address (reg c) (operands i) mod 8))
      by (by destruct H as [? H]; rewrite H in Hld).
    destruct (load_traced n c i c' Hw Hx Ha Hop H Hm Hl' He) as (c1 & t & d & Ht & Hc1 & _). by exists c1, t.
  - rewrite H in Hst. destruct (store_traced n c i k o c' Hw Hx Ha Hop H Hm Hst He) as (c1 & t & Ht & Hc1 & _). by exists c1, t.
  - rewrite H in Hat. destruct (atomic_traced n c i k ext new o c' Hw Hx Ha Hop H Hm Hat He) as (c1 & t & v & Ht & Hc1 & _).
    by exists c1, t.
Qed.

(** ** Two machines that agree *)

(** Agreement is equality of the spaces, but for [mstatus]. *)
Lemma sim_space m m' : mmu_sim m m' -> same_space (update_mstatus m (mstatus m')) m'.
Proof. intros [H1 H2 H3 H4]. split; [done|done|]. cbn. intuition. Qed.
Lemma space_sim m m' : same_space m m' -> addressing_mode m = AddressingNone -> mmu_sim m m'.
Proof. intros [H1 H2 H3] H. split; try done. intuition. Qed.
Lemma mmu_sim_trans m1 m2 m3 : mmu_sim m1 m2 -> mmu_sim m2 m3 -> mmu_sim m1 m3.
Proof.
  intros [A1 A2 A3 A4] [B1 B2 B3 B4]. split; [by transitivity (mem m2)| |intuition congruence|done].
  destruct A2 as [d1 d2 H|]; inversion B2; subst; constructor. by transitivity d2.
Qed.
Lemma sim_mmu_wf m m' : mmu_sim m m' -> mmu_wf m -> mmu_wf m'.
Proof. intros H Hw. apply (mmu_wf_same _ _ (sim_space m m' H)). by destruct Hw; split. Qed.

Section Agree.
Context (e t : Cpu) (H : cpu_sim e t).
Lemma sim_reg r : low r -> reg t r = reg e r.
Proof. intros Hr. unfold reg. by rewrite !nth_lookup, (sim_x _ _ H r Hr). Qed.
Lemma ready_sim : ready e -> cpu_wf t -> ready t.
Proof.
  intros [H1 H2 H3 H4] Hw. split; [done|by rewrite (sim_xlen _ _ H)|by rewrite (sim_allocator _ _ H)|].
  by apply (sim_mmu_wf (mmu e)); [apply H|].
Qed.
Lemma sim_not_io_end a : not_io_end (mmu e) a -> not_io_end (mmu t) a.
Proof. apply (not_io_end_same _ _ a (sim_space _ _ (sim_mmu _ _ H))). Qed.
Lemma sim_dword_store a : dword_store (mmu e) a -> dword_store (mmu t) a.
Proof. apply (dword_store_same _ _ a (sim_space _ _ (sim_mmu _ _ H))). Qed.

Lemma covered_sim op : low_op op -> covered_op e op -> covered_op t op.
Proof.
  intros (_ & H1 & H2) (Hr & Hdiv & Hld & Hst & Hat). split; [done|]. split; [|split; [|split]].
  - destruct op; try done; cbn in *; by rewrite !sim_reg by done.
  - destruct (load_info op) as [[[k ext] o]|] eqn:Hi; [|done]. apply sim_not_io_end. revert Hld.
    destruct op; try discriminate Hi; cbn in *; unfold ld_address in *; by rewrite sim_reg by done.
  - destruct (store_info op) as [[k o]|] eqn:Hi; [|done]. apply sim_dword_store. revert Hst.
    destruct op; try discriminate Hi; cbn [store_info] in Hi; injection Hi as <- <-; unfold store_address; by rewrite sim_reg by done.
  - destruct (atomic_info op) as [[[[k ext] new] o]|] eqn:Hi; [|done]. apply sim_dword_store. revert Hat.
    destruct op; try discriminate Hi; cbn [atomic_info] in Hi; injection Hi as <- <- <- <-; by rewrite sim_reg by done.
Qed.

(** A traced state that is architecturally the executed one. *)
Lemma sim_arch t1 : cpu_wf t -> cpu_wf t1 -> t1 ≈ t -> cpu_sim e t1.
Proof.
  intros Hw Hw1 [Hx Hm Hr]. injection Hr as R1 R2 R3 R4 R5 R6 R7 R8 R9. destruct H.
  split; try congruence.
  - intros r Hl. rewrite Hx; [auto|]. by apply low_arch.
  - rewrite sim_length. by rewrite (wf_length t Hw), (wf_length t1 Hw1).
  - apply (mmu_sim_trans _ (mmu t)); [done|]. apply space_sim; [by symmetry|]. destruct sim_mmu as [_ _ Hf Hn].
    intuition congruence.
Qed.
End Agree.

(** An instruction of a guest program keeps the virtual registers and the
    privilege mode. *)
Lemma execute_apart i c c' : mmu_wf (mmu c) -> low_op (operands i) -> execute i c = Some c' ->
  privilege_mode (mmu c') = privilege_mode (mmu c) /\ forall r, (32 <= r)%nat -> reg c' r = reg c r.
Proof.
  intros Hm (Hd & _) E.
  destruct (execute_framed (privilege_mode (mmu c)) (fun r => (32 <= r)%nat) (fun r => x c !! r) i c c') as [[_ Hp] Hr]; [..|done|].
  - by split; [split|].
  - unfold apart, opt_low, low in *. destruct (norm_rd _); [lia|done].
  - split; [done|]. intros r Hr'. unfold reg. by rewrite !nth_lookup, Hr.
Qed.

(** One instruction of the tick: executed on the one side, traced and expanded
    on the other. *)
Lemma instruction_simulates n i e t e' :
  cpu_sim e t -> ready e -> cpu_wf t -> low_op (operands i) -> covered_op e (operands i) -> execute i e = Some e' ->
  exists t1 tr l, trace (S (S n)) i t = Some (t1, tr) /\
    Instruction_inline_sequence i (xlen t1) (vr_allocator t1) = Some (l, vr_allocator t1) /\
    cpu_sim e' t1 /\ ready e' /\ cpu_wf t1 /\ privilege_mode (mmu e') = privilege_mode (mmu e) /\
    forall r, (32 <= r < 40)%nat -> reg t1 r = reg t r.
Proof.
  intros H He Hwt Hl Hc E. pose proof (ready_sim e t H He Hwt) as Ht.
  pose proof (execute_sims i e t H Hl) as Hs. unfold sims in Hs. rewrite E in Hs. destruct Hs as (t' & Et & H').
  destruct (covered_traced n i t t' Ht Hl (covered_sim e t H _ Hl Hc) Et) as (t1 & tr & Htr & Ha & Hw1).
  destruct (expand_again t Ht i Hl t' (proj1 Hc) Et) as (l & El).
  pose proof (execute_ready i t t' Ht Et) as Ht'.
  destruct (execute_keeps i t t' Et) as [K1 K2 _ _ _].
  assert (Hx1 : xlen t1 = Bit64 /\ vr_allocator t1 = vr_allocator t).
  { destruct Ha as [_ _ Hr]. injection Hr as R1 R2 R3 R4 R5 R6 R7 R8 R9. rewrite <- K2. split; [|congruence].
    destruct Ht'. congruence. }
  destruct Hx1 as [Hx1 Ha1]. exists t1, tr, l. rewrite Hx1, Ha1. split; [exact Htr|]. split; [exact El|].
  split; [apply (sim_arch e' t' H' t1); [apply Ht'|done|done]|]. split; [exact (execute_ready i e e' He E)|].
  destruct (execute_apart i e e' (ready_mmu _ He) Hl E) as [Hp _].
  destruct (execute_apart i t t' (ready_mmu _ Ht) Hl Et) as [_ Hr]. split; [done|]. split; [done|].
  intros r Hr'. rewrite (same_arch_reg t1 t') by (try done; unfold instruction_reg; lia). apply Hr. lia.
Qed.
