(* ===== verification/MemReserved.v ===== *)
(** * MemReserved: load reserved and store conditional with destination [x0]

    A store conditional is traced with its success as advice, set by its own
    [trace]; with destination [x0] [Instruction::trace] runs the sequence as
    [inline_sequence] returns it, with the advice 0, and the instruction's [trace]
    is not called.  On every machine, the trace of a store conditional that
    succeeds then drops the store and keeps the reservation, and that of a load
    reserved sets none. *)
From S2P Require Import Prelude Bits Registers AdviceTape Memory Device Mmu MmuSpec MmuStore Cpu Formats Instr Assembler.
From S2P Require Import Sequences MemSequences Trace ExecWf Exec64 SeqOps SeqRun TraceCorrect MemRun MemOps MemArith MemLoads MemStores.

(** ** The sequences, for the temporary 40 in place of the destination *)

(** The store conditional, with the advice 0. *)
Definition SCD_x0_ops (rs1 rs2 : nat) : list Op :=
  [VirtualAdvice (jj 41) 0; ADDI (ri 42 0 1); VirtualAssertLTE (bb 41 42); SUB (rr 42 33 rs1); MUL (rr 42 41 42);
   VirtualAssertEQ (bb 42 0)] ++
  [LD (ldo 42 rs1); SUB (rr 43 rs2 42); MUL (rr 43 43 41); ADD (rr 43 42 43); SD (so rs1 43);
   ADDI (ri 33 0 0); ADDI (ri 32 0 0); XORI (ri 40 41 1)].

Section X0.
Context (s : Struct FormatR).
Definition reserved_with_rd (r : nat) : Struct FormatR :=
  {| address := address s; operands := rr r (R_rs1 (operands s)) (R_rs2 (operands s));
     virtual_sequence_remaining := virtual_sequence_remaining s;
     is_first_in_sequence := is_first_in_sequence s; is_compressed := is_compressed s |}.
Lemma SCD_has_ops_x0 : has_ops (remapped (fun vr => SCD_inline_sequence Bit64 (reserved_with_rd vr)))
  (SCD_x0_ops (R_rs1 (operands s)) (R_rs2 (operands s))).
Proof. solve_has_ops. Qed.
Lemma LRD_has_ops_x0 : has_ops (remapped (fun vr => LRD_inline_sequence Bit64 (reserved_with_rd vr)))
  (LRD_ops 40 (R_rs1 (operands s))).
Proof. solve_has_ops. Qed.
End X0.

(** The sequence an instruction with destination [x0] is traced with. *)
Definition x0_ops (op : Op) : list Op :=
  match op with
  | SCD o => SCD_x0_ops (R_rs1 o) (R_rs2 o) | LRD o => LRD_ops 40 (R_rs1 o) | _ => []
  end.
Definition reserved_info (op : Op) : option FormatR := match op with SCD o | LRD o => Some o | _ => None end.

Lemma reserved_sequence_x0 (i : Instruction) (c : Cpu) o : reserved_info (operands i) = Some o -> R_rd o = 0%nat ->
  temporaries_free (vr_allocator c) ->
  ops_at (Instruction_inline_sequence i Bit64) (vr_allocator c) (x0_ops (operands i)).
Proof.
  intros Hi H0 Ha. unfold Instruction_inline_sequence, rd_is_zero, has_side_effects, dispatch_inline_sequence, with_rd.
  cbn [operands]. destruct i as [ad op r f z]. cbn [operands] in *.
  destruct op; try discriminate Hi; cbn [reserved_info] in Hi; injection Hi as ->; destruct o as [rd r1 r2]; cbn [R_rd] in H0; subst rd.
  - exact (LRD_has_ops_x0 {| address := ad; operands := rr 0 r1 r2; virtual_sequence_remaining := r;
      is_first_in_sequence := f; is_compressed := z |} _ Ha).
  - exact (SCD_has_ops_x0 {| address := ad; operands := rr 0 r1 r2; virtual_sequence_remaining := r;
      is_first_in_sequence := f; is_compressed := z |} _ Ha).
Qed.

Lemma x0_ops_mem op o : reserved_info op = Some o -> op_arch op -> Forall mem_op (x0_ops op).
Proof.
  intros Hi (_ & H1 & H2). destruct op; try discriminate Hi; cbn [reserved_info] in Hi; injection Hi as ->; cbn in H1, H2;
    unfold arch_reg in H1, H2; cbn [x0_ops]; unfold SCD_x0_ops, LRD_ops; cbn [app];
    repeat (apply Forall_cons_2 || apply Forall_nil_2);
    (split; [split; [repeat split; cbn; try tauto; (apply valid_temp; lia) || (apply Nat.ltb_lt; reflexivity)|cbn; done]|
      first [exact I|intros g; by eexists]]).
Qed.

(** Its trace runs that sequence and nothing else. *)
Lemma trace_reserved_x0 n c i o : cpu_wf c -> xlen c = Bit64 -> temporaries_free (vr_allocator c) ->
  op_arch (operands i) -> reserved_info (operands i) = Some o -> R_rd o = 0%nat ->
  match run_mem (x0_ops (operands i)) (reg c) (mmu c) with
  | Some (f', s', acc) => exists c2 t,
      trace (S n) i c = Some (c2, t) /\ with_regs (set_mmu c s') f' c2 /\ accesses t = acc
  | None => trace (S n) i c = None
  end.
Proof.
  intros Hc Hx Ha Hop Hi H0. destruct (reserved_sequence_x0 i c o Hi H0 Ha) as (l & Hl & Hops).
  pose proof (x0_ops_mem _ _ Hi Hop) as Hm. rewrite <- Hops in Hm |- *. rewrite Forall_map in Hm.
  assert (Hz : rd_is_zero i = true).
  { unfold rd_is_zero. destruct (operands i); try discriminate Hi; cbn [reserved_info] in Hi; injection Hi as ->; cbn; by rewrite H0. }
  unfold trace. rewrite Hz, Hx, Hl. cbn [mbind option_bind]. rewrite set_allocator_id.
  refine (run_list_mem (trace_raw (S n)) _ l c (mmu c) (reg c) c Hx (with_regs_here c Hc) Hm).
  intros j d Hj _. cbn [trace_raw]. by rewrite Hj.
Qed.

(** ** Storing back what a doubleword holds *)

(** A doubleword store of the RAM that succeeds holds its value, and storing the
    old contents instead would succeed and change nothing. *)
Lemma store_back s a v w s1 : mmu_wf s -> DRAM_BASE <= a < 2 ^ 64 -> in_u 64 v ->
  store_doubleword a v s = Some (inr w, s1) ->
  a mod 8 = 0 /\ holds_bits s1 a 64 v /\ exists d, holds_bits s a 64 d /\ in_u 64 d /\
    (exists s2, load_doubleword a s = Some (inr (d, {| read_address := a; read_value := d |}), s2) /\ same_space s s2) /\
    forall s2, same_space s s2 -> exists s3, same_space s s3 /\
      store_doubleword a d s2 = Some (inr {| write_address := a; pre_value := d; post_value := d |}, s3).
Proof.
  intros Hs Ha Hv E. assert (Hk : access_width 8) by (unfold access_width; auto). assert (Ha' : 0 <= a < 2 ^ 64) by (unfold DRAM_BASE, RAM_START_ADDRESS in *; lia).
  destruct (store_width_Some s 8 a v _ s1 Hs Hk Ha' Hv E) as (Hm & Hva & _ & sa & Hsa & Eraw). change (Z.of_nat 8) with 8 in Hm.
  pose proof (mmu_wf_same _ _ Hsa Hs) as Hwfa.
  destruct (store_width_raw_Some sa 8 a v s1 Hwfa Hk Hm Ha' Hv Eraw) as [Hrec Hst]. destruct (Z.leb_spec DRAM_BASE a); [|lia].
  apply (stored_ram_same s) in Hst; [|done]. change (8 * Z.of_nat 8) with 64 in Hst.
  assert (Hok : dword_store s a) by (rewrite <- (Z.sub_0_r a), <- Hm in Hva; by split).
  destruct (store_width_merged s 8 a v _ s1 Hs Hk Ha' Hv Hok E) as (_ & _ & Hr & He & _). rewrite Hm, Z.sub_0_r in *.
  destruct (load_doubleword_spec s a Hs Hm Ha' Hr He) as (d & s2 & El & H2 & Hd).
  assert (Hdu : in_u 64 d) by (rewrite <- (holds_bits_wrapu s a 64 d) by (done || lia); apply wrapu_range; lia).
  split; [done|]. split.
  - assert (Hs1 : mmu_wf s1).
    { destruct Hst as [[_ Hmem _] Hdev (_ & Hx & _ & Ham & _)]. destruct Hs as [W1 W2 W3 W4].
      split; [done| |congruence..]. intros d' Hd'. rewrite Hd' in Hdev. inversion Hdev as [d0 ? Hdd E0|]; subst.
      eapply device_wf_same; [exact Hdd|]. by apply W2. }
    pose proof (holds_ram s1 a 64 Hs1 ltac:(lia) ltac:(lia)) as H1.
    replace v with (bits_at (mem s1) (8 * (a - DRAM_BASE)) 64); [done|].
    apply Z.bits_inj'. intros j Hj. rewrite testbit_bits_at by (first [apply Hs1|lia]). destruct (Z.ltb_spec j 64); cbn [andb].
    + rewrite (wrote_bits _ _ _ _ _ (sr_mem _ _ _ _ _ Hst)).
      destruct (Z.leb_spec (8 * (a - DRAM_BASE)) (8 * (a - DRAM_BASE) + j)); [|lia].
      destruct (Z.ltb_spec (8 * (a - DRAM_BASE) + j) (8 * (a - DRAM_BASE) + 64)); [|lia]. cbn [andb]. f_equal. lia.
    + symmetry. apply (testbit_out 64); [done|lia].
  - exists d. do 2 (split; [done|]). split; [by exists s2|]. intros s' H'. pose proof (mmu_wf_same _ _ H' Hs) as Hs'.
    destruct (trace_store_spec s' a d d Hs' Hm Ha') as (s3 & E3 & H3).
    { by rewrite <- (readable_same s s'). } { by apply (not_io_end_same s). }
    { by rewrite <- (valid_address_same s s'). } { by rewrite <- H'. }
    assert (H03 : same_space s s3) by (by transitivity s'). pose proof (mmu_wf_same _ _ H03 Hs) as Hs3.
    pose proof (ram_write_spec s3 8 a d Hs3 Hk Hm ltac:(lia) Hdu) as Hw.
    rewrite <- (recordable_same s s3), (recordable_same s sa), Hrec in Hw by done. destruct Hw as (s4 & E4 & H4). exists s4. split.
    + apply (stored_ram_merged s a 0 0 s d d s4); try done; try lia.
      * split; [by apply wrote_0, Hs|by destruct (jolt_device s); constructor|done].
      * by rewrite Hm, Z.sub_0_r.
      * intros j Hj. destruct (Z.leb_spec (8 * (a mod 8)) j), (Z.ltb_spec j (8 * (a mod 8) + 0)); cbn [andb]; (done || lia).
      * rewrite Hm, Z.sub_0_r. by apply (stored_ram_same s s3).
    + apply (store_doubleword_eq s' a d s3); try done. rewrite store_width_raw_eq by done.
      destruct (Z.leb_spec DRAM_BASE a); [|lia]. unfold M_bind, assert_effective_store_address, assert_effective_address.
      by rewrite <- (valid_address_same s s3), Hva by done.
Qed.

(** ** The runs *)
Section Run.
Context (f : regs) (s : Mmu) (rs1 rs2 : nat) (H0 : f 0%nat = 0) (H1 : (rs1 < 32)%nat) (H2 : (rs2 < 32)%nat).
Context (Hf : in_s 64 (f rs1)).
Abbreviation a := (as_u64 (f rs1)).

Lemma run_loads o l g s1 v m : load_doubleword (ld_address g o) s = Some (inr (v, m), s1) ->
  run_mem (LD o :: l) g s = ('(f2, s2, a2) ← run_mem l (upd g (L_rd o) (as_i64 v)) s1; Some (f2, s2, Read m :: a2)).
Proof. intros E. cbn [run_mem mem_step]. by rewrite E. Qed.
Lemma run_stores o l g s1 s2 m : store_doubleword (s_address g o) (as_u64 (g (S_rs2 o))) s1 = Some (inr m, s2) ->
  run_mem (SD o :: l) g s1 = ('(f2, s3, a2) ← run_mem l g s2; Some (f2, s3, Instr.Write m :: a2)).
Proof. intros E. cbn [run_mem mem_step]. by rewrite E. Qed.
Lemma accessed (g : regs) : g rs1 = f rs1 -> (forall rd, ld_address g (ldo rd rs1) = a) /\ forall r, s_address g (so rs1 r) = a.
Proof.
  intros Hg. unfold ld_address, s_address. cbn [L_rs1 L_imm S_rs1 S_imm ldo so]. change (as_u64 (as_i32 0)) with 0.
  by rewrite Hg, !Z.add_0_r, wrapu_wrapu, wrapu_wraps by lia.
Qed.
Ltac at_address :=
  match goal with
  | |- context [ld_address ?g _] => rewrite (proj1 (accessed g ltac:(by reg_simpl)))
  | |- context [s_address ?g _] => rewrite (proj2 (accessed g ltac:(by reg_simpl)))
  end.
Ltac pure_step := erewrite run_mem_cons_pure; [|reflexivity|
  cbn [run_outcome outcome64 J_rd I_rd I_rs1 I_imm B_rs1 B_rs2 B_imm R_rd R_rs1 R_rs2 jj ri bb rr]; reg_simpl; rewrite ?H0;
  reflexivity].

(** The failing store conditional passes its assertions, stores what it loaded,
    and only writes virtual registers. *)
Lemma SCD_x0_runs s1 s2 d r w : in_u 64 d -> load_doubleword a s = Some (inr (d, r), s1) ->
  store_doubleword a d s1 = Some (inr w, s2) ->
  exists f', run_mem (SCD_x0_ops rs1 rs2) f s = Some (f', s2, [Read r; Instr.Write w]) /\
    forall k, (k < 32)%nat -> f' k = f k.
Proof.
  intros Hd El Es. unfold SCD_x0_ops. cbn [app]. do 6 pure_step. change (as_i64 0) with 0.
  rewrite (run_loads _ _ _ s1 d r) by (at_address; exact El). cbn [L_rd ldo].
  do 3 pure_step.
  rewrite (run_stores _ _ _ s1 s2 w).
  2: { at_address. cbn [S_rs2 so]. reg_simpl. rewrite Z.mul_0_r.
       change (as_i64 0) with 0. rewrite Z.add_0_r, !wrapu_wraps, (wrapu_small 64 d) by (done || lia). exact Es. }
  do 3 pure_step. cbn [run_mem mbind option_bind]. eexists. split; [reflexivity|]. intros k Hk. by reg_simpl.
Qed.

Lemma LRD_x0_runs s1 d r : load_doubleword a s = Some (inr (d, r), s1) ->
  exists f', run_mem (LRD_ops 40 rs1) f s = Some (f', s1, [Read r]) /\ forall k, (k < 32)%nat -> f' k = f k.
Proof.
  intros El. unfold LRD_ops. do 2 pure_step.
  rewrite (run_loads _ _ _ s1 d r) by (at_address; exact El).
  cbn [run_mem mbind option_bind]. eexists. split; [reflexivity|]. intros k Hk. cbn [L_rd ldo]. by reg_simpl.
Qed.
End Run.

(** ** The divergence *)

(** The register state of the reservation. *)
Definition reserved (c : Cpu) : bool * Z * ReservationWidth := (reservation_set c, reservation c, reservation_width c).
Lemma with_regs_reserved c s f c' : with_regs (set_mmu c s) f c' -> reserved c' = reserved c.
Proof.
  intros H. pose proof (wreg_rest _ _ _ H) as Hr. unfold reserved.
  change (reserved (set_x c' []) = reserved (set_x (set_mmu c s) [])). by rewrite Hr.
Qed.

(** C33: a store conditional to [x0] is traced as a failure, on every machine:
    when [sc.d x0] succeeds in [execute], storing [rs2] in the RAM and clearing the
    reservation, its trace succeeds too but stores the doubleword it loaded, so
    that the memory is unchanged, and the reservation stays; and where [execute] of
    [lr.d x0] sets the reservation, its trace leaves the reservation it finds. *)
Theorem reserved_x0_diverges (n : nat) (c c' : Cpu) (i : Instruction) (o : FormatR) :
  let a := as_u64 (reg c (R_rs1 o)) in
  cpu_wf c -> xlen c = Bit64 -> temporaries_free (vr_allocator c) -> mmu_wf (mmu c) ->
  R_rd o = 0%nat -> (R_rs1 o < 32)%nat -> (R_rs2 o < 32)%nat -> execute i c = Some c' ->
  (operands i = SCD o -> has_reservation c a Doubleword = true -> DRAM_BASE <= a ->
     holds_bits (mmu c') a 64 (as_u64 (reg c (R_rs2 o))) /\ reservation_set c' = false /\
     exists c1 t d, trace (S n) i c = Some (c1, t) /\ (forall r, (r < 32)%nat -> reg c1 r = reg c r) /\
       holds_bits (mmu c) a 64 d /\ same_space (mmu c) (mmu c1) /\ reserved c1 = reserved c /\
       accesses t = [Read {| read_address := a; read_value := d |};
                     Instr.Write {| write_address := a; pre_value := d; post_value := d |}]) /\
  (operands i = LRD o ->
     reserved c' = (true, a, Doubleword) /\
     exists c1 t, trace (S n) i c = Some (c1, t) /\ mmu c1 = mmu c' /\ reserved c1 = reserved c).
Proof.
  intros a Hc Hx Ha Hs H0 H1 H2 He.
  assert (Hop : reserved_info (operands i) = Some o -> op_arch (operands i)).
  { intros Hi. destruct (operands i); try discriminate Hi; cbn [reserved_info] in Hi; injection Hi as ->; unfold op_arch; cbn;
      unfold arch_reg, instruction_reg; rewrite ?H0; repeat split; try (apply valid_temp; lia); lia. }
  assert (Har : 0 <= a < 2 ^ 64) by (apply wrapu_range; lia).
  split.
  - intros Hi Hres Hd. assert (Hri : reserved_info (operands i) = Some o) by (by rewrite Hi).
    pose proof (trace_reserved_x0 n c i o Hc Hx Ha (Hop Hri) Hri H0) as Ht. rewrite Hi in Ht. cbn [x0_ops] in Ht.
    unfold execute in He. rewrite Hi in He. unfold SCD_exec, SC_exec in He.
    rewrite !(lookup_reg c Hc) in He by (apply valid_temp; lia). cbn [mbind option_bind fmap option_fmap option_map] in He.
    fold a in He. rewrite Hres, on_mmu_eq in He. destruct (store_doubleword _ _ _) as [[[?|w] s1]|] eqn:Es; try discriminate He.
    cbn [mbind option_bind] in He. rewrite H0 in He. cbn [write_register mbind option_bind fst fmap option_fmap option_map] in He.
    injection He as <-. destruct (store_back (mmu c) a _ w s1 Hs ltac:(lia) ltac:(apply wrapu_range; lia) Es)
      as (_ & Hst & d & Hdd & Hdu & (s2 & El & H2s) & Hback). split; [exact Hst|]. split; [done|].
    destruct (Hback s2 H2s) as (s3 & H3 & Es3).
    destruct (SCD_x0_runs (reg c) (mmu c) (R_rs1 o) (R_rs2 o) (reg_zero c Hc) H1 H2 s2 s3 d _ _ Hdu El Es3) as (f' & Hrun & Hlow).
    rewrite Hrun in Ht. destruct Ht as (c1 & t & Ht & Hw & Hacc). exists c1, t, d.
    split; [done|]. split; [intros r Hr; rewrite (wreg_reg _ _ _ Hw) by (apply valid_temp; lia); by apply Hlow|].
    split; [done|]. split; [by rewrite (with_regs_mmu _ _ _ Hw)|]. split; [|done]. by apply (with_regs_reserved c s3 f').
  - intros Hi. assert (Hri : reserved_info (operands i) = Some o) by (by rewrite Hi).
    pose proof (trace_reserved_x0 n c i o Hc Hx Ha (Hop Hri) Hri H0) as Ht. rewrite Hi in Ht. cbn [x0_ops] in Ht.
    unfold execute in He. rewrite Hi in He. unfold LRD_exec in He.
    rewrite (lookup_reg c Hc) in He by (apply valid_temp; lia). cbn [mbind option_bind fmap option_fmap option_map] in He.
    fold a in He. rewrite on_mmu_eq in He. destruct (load_doubleword _ _) as [[[?|[d r]] s1]|] eqn:El; try discriminate He.
    cbn [mbind option_bind] in He. rewrite H0 in He. cbn [write_register] in He. injection He as <-. split; [done|].
    destruct (LRD_x0_runs (reg c) (mmu c) (R_rs1 o) (R_rs2 o) (reg_zero c Hc) H1 H2 s1 d r El) as (f' & Hrun & _). rewrite Hrun in Ht.
    destruct Ht as (c1 & t & Ht & Hw & _). exists c1, t. split; [done|]. split; [by rewrite (with_regs_mmu _ _ _ Hw)|].
    by apply (with_regs_reserved c s1 f').
Qed.

Definition reserved_cpu : Cpu := set_reservation (ram_cpu (-1)) DRAM_BASE Doubleword.
Lemma reserved_x0_diverges_witness :
  let i := at_instr (SCD {| R_rd := 0; R_rs1 := 1; R_rs2 := 2 |}) in
  exists c' c1 t, execute i reserved_cpu = Some c' /\ trace 1 i reserved_cpu = Some (c1, t) /\
    holds_bits (mmu c') DRAM_BASE 64 (2 ^ 64 - 1) /\ same_space (mmu reserved_cpu) (mmu c1) /\ reservation_set c1 = true.
Proof.
  intros i. destruct (execute i reserved_cpu) as [c'|] eqn:E; [|vm_compute in E; discriminate E].
  destruct (reserved_x0_diverges 0 reserved_cpu c' i {| R_rd := 0; R_rs1 := 1; R_rs2 := 2 |}) as [Hsc _].
  - clear E. destruct (ram_cpu_wf (-1) ltac:(done)). by split.
  - reflexivity.
  - apply new_temporaries_free.
  - apply ram_mmu_wf.
  - reflexivity.
  - by apply Nat.ltb_lt.
  - by apply Nat.ltb_lt.
  - exact E.
  - destruct (Hsc eq_refl) as (Hst & _ & c1 & t & d & Ht & _ & _ & Hss & Hr & _); [reflexivity|by vm_compute|].
    exists c', c1, t. split; [done|]. split; [exact Ht|]. split; [exact Hst|]. split; [exact Hss|]. by injection Hr as -> _ _.
Defined.
