(* ===== verification/SeqShape.v ===== *)
(** * SeqShape: the layout of every virtual sequence

    Whatever the word size and the state of the allocator, a macro
    instruction's sequence is not empty, lies at the instruction's address,
    counts down to its last instruction, marks its first and only its last
    instruction's compression, and neither branches nor jumps.  The bytecode preprocessing and the program
    counter of the proof rely on this layout. *)
From S2P Require Import Prelude Registers AdviceTape Mmu Cpu Formats Instr Assembler Sequences.
From S2P Require Import Trace.

(** ** Postconditions of the allocator monad *)

Definition returns {A} (m : M A) (P : A -> Prop) : Prop :=
  forall a x a', m a = Some (x, a') -> P x.

Lemma returns_ret {A} (x : A) (P : A -> Prop) : P x -> returns (M_ret x) P.
Proof. intros H a y a' [= <- _]. done. Qed.
Lemma returns_panic {A} (P : A -> Prop) : returns M_panic P.
Proof. by intros a x a' H. Qed.
Lemma returns_bind {A B} (m : M A) (k : A -> M B) (Q : A -> Prop) (P : B -> Prop) :
  returns m Q -> (forall x, Q x -> returns (k x) P) -> returns (M_bind m k) P.
Proof.
  unfold returns, M_bind. intros Hm Hk a y a' H. destruct (m a) as [[x a1]|] eqn:E; [|done].
  eapply Hk; [by eapply Hm|exact H].
Qed.
Lemma returns_bind_any {A B} (m : M A) (k : A -> M B) (P : B -> Prop) :
  (forall x, returns (k x) P) -> returns (M_bind m k) P.
Proof. intros H. apply (returns_bind m k (fun _ => True)); [by intros ? ? ? ?|auto]. Qed.
Lemma returns_lift {A} (o : option A) (P : A -> Prop) :
  (forall x, o = Some x -> P x) -> returns (M_lift o) P.
Proof. intros H a x a' E. unfold M_lift in E. destruct o; [|done]. cbn in E. simplify_eq. auto. Qed.
Lemma returns_impl {A} (m : M A) (P Q : A -> Prop) :
  (forall x, P x -> Q x) -> returns m P -> returns m Q.
Proof. intros H Hm a x a' E. apply H. by eapply Hm. Qed.

(** ** The layout *)

Record laid_out (addr : Z) (comp : bool) (l : list Instruction) : Prop := {
  laid_nonempty : l <> [];
  laid_at : forall k i, l !! k = Some i ->
    address i = addr /\
    virtual_sequence_remaining i = Some (as_u16 (Z.of_nat (length l - 1 - k))) /\
    is_first_in_sequence i = (k =? 0)%nat /\
    is_compressed i = (if (k =? length l - 1)%nat then comp else false)
}.

(** The instructions that set the program counter. *)
Definition transfers (op : Op) : bool :=
  match op with BEQ _ | BNE _ | BLT _ | BLTU _ | BGE _ | BGEU _ | JAL _ | JALR _ => true | _ => false end.
Class Straight {F} (op : F -> Op) : Prop := straight_op o : transfers (op o) = false.
#[export] Hint Extern 0 (Straight _) => intros ?; reflexivity : typeclass_instances.

Definition straight_out (addr : Z) (comp : bool) (l : list Instruction) : Prop :=
  laid_out addr comp l /\ Forall (fun i => transfers (operands i) = false) l.

(** The instructions before numbering: at the address, not compressed; [plain] ones do
    not jump. *)
Definition unmarked (addr : Z) (i : Instruction) : Prop := address i = addr /\ is_compressed i = false.
Definition plain (addr : Z) (i : Instruction) : Prop := unmarked addr i /\ transfers (operands i) = false.

Lemma mark_last_Some comp l l' : mark_last comp l = Some l' ->
  l <> [] /\ length l' = length l /\
  forall k, l' !! k = (if (k =? length l - 1)%nat then (fun i => set_is_compressed i comp) <$> l !! k else l !! k).
Proof.
  revert l'. induction l as [|i l IH]; intros l' H; [done|]. split; [done|].
  destruct l as [|j l]; cbn [mark_last] in H.
  - injection H as <-. split; [done|]. by intros [|[|k]].
  - apply bind_Some in H as (l1 & H1 & [= <-]). apply IH in H1 as (_ & Hl & Hk).
    split; [cbn in *; lia|]. intros [|k]; [done|]. cbn [length] in *.
    change ((i :: l1) !! S k) with (l1 !! k). rewrite Hk.
    replace (S k =? S (S (length l)) - 1)%nat with (k =? S (length l) - 1)%nat; [done|].
    apply eq_true_iff_eq. rewrite !Nat.eqb_eq. lia.
Qed.

(** The marks leave the operands alone. *)
Lemma mark_last_operands comp l l' : mark_last comp l = Some l' -> map operands l' = map operands l.
Proof.
  revert l'. induction l as [|i [|j l] IH]; intros l'; [done|by intros [= <-]|].
  change (mark_last comp (i :: j :: l)) with (l' ← mark_last comp (j :: l); Some (i :: l')).
  intros (l0 & E & [= <-])%bind_Some. cbn [map]. by rewrite (IH l0 E).
Qed.
Lemma imap_operands (f : nat -> Instruction -> Instruction) l :
  (forall k i, operands (f k i) = operands i) -> map operands (imap f l) = map operands l.
Proof.
  revert f. induction l as [|i l IH]; intros f Hf; [done|]. rewrite imap_cons. cbn [map]. rewrite Hf. f_equal.
  apply IH. intros k j. apply Hf.
Qed.
Lemma finalize_rows addr comp asm :
  asm_is_compressed asm = comp -> Forall (unmarked addr) (sequence asm) ->
  returns (finalize asm) (fun l => laid_out addr comp l /\ map operands l = map operands (sequence asm)).
Proof.
  intros <- Hp. apply returns_lift. intros l Hm. pose proof (mark_last_operands _ _ _ Hm) as Ho.
  apply mark_last_Some in Hm as (Hne & Hlen & Hk). unfold number in Hne, Hlen, Hk.
  rewrite length_imap in Hlen, Hk.
  assert (H0 : sequence asm <> []) by (intros E; by rewrite E in Hne).
  split; [split; [intros ->; by destruct (sequence asm)|]|].
  - intros k i Hi. rewrite Hlen. rewrite Hk in Hi. rewrite list_lookup_imap in Hi.
    destruct (sequence asm !! k) as [i0|] eqn:E0; [|by destruct (_ =? _)%nat].
    rewrite Forall_lookup in Hp. destruct (Hp k i0 E0) as [Ha Hc].
    destruct (k =? _)%nat eqn:Ek; cbn in Hi; injection Hi as <-; cbn;
      replace (length (sequence asm) - k - 1)%nat with (length (sequence asm) - 1 - k)%nat by lia;
      repeat split; done.
  - rewrite Ho. by apply imap_operands.
Qed.
Lemma finalize_laid_out addr comp asm :
  asm_is_compressed asm = comp -> Forall (plain addr) (sequence asm) ->
  returns (finalize asm) (straight_out addr comp).
Proof.
  intros Hc Hp. eapply returns_impl; [|apply finalize_rows; [exact Hc|]].
  - intros l [Hl Ho]. split; [exact Hl|].
    assert (Ht : Forall (fun op => transfers op = false) (map operands l)).
    { rewrite Ho. apply List.Forall_map. eapply list.Forall_impl; [exact Hp|]. by intros i [_ Hi]. }
    by apply List.Forall_map in Ht.
  - eapply list.Forall_impl; [exact Hp|]. by intros i [Hi _].
Qed.

(** ** What the assembler keeps *)

(** An instruction's expansion stays at its address, uncompressed when it is. *)
Class Expands {F} (op : F -> Op) `{RISCVTrace F op} : Prop := {
  expands_normalized ni s : of_normalized op ni = Some s ->
    address s = ni_address ni /\ is_compressed s = ni_is_compressed ni;
  expands_sequence s xl : is_compressed s = false ->
    returns (inline_sequence op s xl) (Forall (plain (address s)))
}.

Record asm_inv (addr : Z) (comp : bool) (asm : InstrAssembler) : Prop := {
  inv_address : asm_address asm = addr;
  inv_compressed : asm_is_compressed asm = comp;
  inv_plain : Forall (plain addr) (sequence asm)
}.

Lemma asm_inv_new addr comp xl : asm_inv addr comp (InstrAssembler_new addr comp xl).
Proof. by split. Qed.

Section Emit.
Context {F : Type} (op : F -> Op) {T : RISCVTrace op} {I : InstructionFormat F} {E : Expands op}.

Lemma emit_inv addr comp asm o : asm_inv addr comp asm -> returns (emit op asm o) (asm_inv addr comp).
Proof.
  intros [Ha Hc Hp]. unfold emit.
  eapply returns_bind; [apply returns_lift; intros s Hs; exact (expands_normalized _ s Hs)|].
  cbn. intros s [Hsa Hsc]. unfold add_to_sequence. destruct (_ && _); [apply returns_panic|].
  eapply returns_bind; [by apply expands_sequence|].
  intros l Hl. apply returns_ret. split; [done|done|]. cbn. apply Forall_app. split; [done|].
  by rewrite <- Ha, <- Hsa.
Qed.
End Emit.

#[export] Instance default_expands {F} `{InstructionFormat F} (op : F -> Op) `{!Straight op} : Expands op.
Proof.
  split; cbn.
  - intros ni s (o & _ & [= <-])%bind_Some. done.
  - intros s xl Hs. apply returns_ret. apply list.Forall_cons. split; [|constructor]. split; [by split|].
    exact (straight_op (operands s)).
Qed.
#[export] Instance VirtualAdvice_expands : Expands VirtualAdvice_op.
Proof.
  split; cbn.
  - intros ni s (o & _ & [= <-])%bind_Some. done.
  - intros s xl Hs. apply returns_ret. apply list.Forall_cons. split; [|constructor]. split; [by split|].
    reflexivity.
Qed.

Lemma laid_out_plain addr l : straight_out addr false l -> Forall (plain addr) l.
Proof.
  intros [[_ H] Ht]. rewrite Forall_lookup in Ht. apply Forall_lookup. intros k i Hi. destruct (H k i Hi) as (Ha & _ & _ & Hc).
  split; [split; [done|]|by apply (Ht k)]. rewrite Hc. by destruct (_ =? _)%nat.
Qed.

(** A macro whose sequence is laid out can be emitted. *)
Lemma macro_expands {F} `{InstructionFormat F} (seq : Struct F -> Xlen -> M (list Instruction)) s xl :
  (forall s, returns (seq s xl) (straight_out (address s) (is_compressed s))) ->
  is_compressed s = false -> returns (seq s xl) (Forall (plain (address s))).
Proof.
  intros Hl Hs. eapply returns_impl; [|apply Hl]. rewrite Hs. intros l. apply laid_out_plain.
Qed.

(** One step through a builder. *)
Ltac shape_step :=
  match goal with
  | |- returns (M_bind (finalize ?asm) _) (straight_out ?addr ?comp) =>
      eapply (returns_bind _ _ (straight_out addr comp)); [eapply finalize_laid_out; eassumption|intros ? ?]
  | |- returns (finalize _) _ => eapply finalize_laid_out; eassumption
  | |- returns (M_bind allocate _) _ => apply returns_bind_any; intros ?
  | |- returns (M_bind (drop_guards _) _) _ => apply returns_bind_any; intros _
  | |- returns (M_bind (drop_guard _) _) _ => apply returns_bind_any; intros _
  | |- returns (M_ret _) _ => by apply returns_ret
  | |- returns M_panic _ => apply returns_panic
  | |- returns (M_bind ?m _) (straight_out ?addr ?comp) =>
      eapply (returns_bind m _ (asm_inv addr comp));
      [ apply emit_inv; first [apply _ | apply asm_inv_new | split; eassumption] | intros ? [? ? ?] ]
  | |- returns (match ?e with _ => _ end) _ => destruct e
  end.
Ltac shape := intros; cbv zeta; repeat (shape_step; cbv zeta).

Section Shifts.
Context (xl : Xlen) (s : Struct FormatR) (t : Struct FormatI).
Abbreviation laid s := (straight_out (address s) (is_compressed s)).

Lemma SLL_laid : returns (SLL_inline_sequence xl s) (laid s).
Proof. unfold SLL_inline_sequence. shape. Qed.
Lemma SRL_laid : returns (SRL_inline_sequence xl s) (laid s).
Proof. unfold SRL_inline_sequence. shape. Qed.
Lemma SRA_laid : returns (SRA_inline_sequence xl s) (laid s).
Proof. unfold SRA_inline_sequence. shape. Qed.
Lemma SLLI_laid : returns (SLLI_inline_sequence xl t) (laid t).
Proof. unfold SLLI_inline_sequence. shape. Qed.
Lemma SRLI_laid : returns (SRLI_inline_sequence xl t) (laid t).
Proof. unfold SRLI_inline_sequence. shape. Qed.
Lemma SRAI_laid : returns (SRAI_inline_sequence xl t) (laid t).
Proof. unfold SRAI_inline_sequence. shape. Qed.
End Shifts.

(** The macros emitted inside other sequences. *)
Lemma normalized_address {F} `{InstructionFormat F} ni (s : Struct F) :
  from_normalized ni = Some s -> address s = ni_address ni /\ is_compressed s = ni_is_compressed ni.
Proof. unfold from_normalized. by intros (o & _ & [= <-])%bind_Some. Qed.

#[export] Instance SLL_expands : Expands SLL.
Proof.
  split; [apply normalized_address|]. intros s xl Hs. eapply returns_impl; [|apply SLL_laid].
  rewrite Hs. intros l. apply laid_out_plain.
Qed.
#[export] Instance SRL_expands : Expands SRL.
Proof.
  split; [apply normalized_address|]. intros s xl Hs. eapply returns_impl; [|apply SRL_laid].
  rewrite Hs. intros l. apply laid_out_plain.
Qed.
#[export] Instance SRA_expands : Expands SRA.
Proof.
  split; [apply normalized_address|]. intros s xl Hs. eapply returns_impl; [|apply SRA_laid].
  rewrite Hs. intros l. apply laid_out_plain.
Qed.
#[export] Instance SLLI_expands : Expands SLLI.
Proof.
  split; [apply normalized_address|]. intros s xl Hs. eapply returns_impl; [|apply SLLI_laid].
  rewrite Hs. intros l. apply laid_out_plain.
Qed.
#[export] Instance SRLI_expands : Expands SRLI.
Proof.
  split; [apply normalized_address|]. intros s xl Hs. eapply returns_impl; [|apply SRLI_laid].
  rewrite Hs. intros l. apply laid_out_plain.
Qed.
#[export] Instance SRAI_expands : Expands SRAI.
Proof.
  split; [apply normalized_address|]. intros s xl Hs. eapply returns_impl; [|apply SRAI_laid].
  rewrite Hs. intros l. apply laid_out_plain.
Qed.

Section Words.
Context (xl : Xlen) (s : Struct FormatR) (t : Struct FormatI).
Abbreviation laid s := (straight_out (address s) (is_compressed s)).

Lemma ADDW_laid : returns (ADDW_inline_sequence xl s) (laid s).
Proof. unfold ADDW_inline_sequence. shape. Qed.
Lemma SUBW_laid : returns (SUBW_inline_sequence xl s) (laid s).
Proof. unfold SUBW_inline_sequence. shape. Qed.
Lemma MULW_laid : returns (MULW_inline_sequence xl s) (laid s).
Proof. unfold MULW_inline_sequence. shape. Qed.
Lemma SLLW_laid : returns (SLLW_inline_sequence xl s) (laid s).
Proof. unfold SLLW_inline_sequence. shape. Qed.
Lemma SRLW_laid : returns (SRLW_inline_sequence xl s) (laid s).
Proof. unfold SRLW_inline_sequence. shape. Qed.
Lemma SRAW_laid : returns (SRAW_inline_sequence xl s) (laid s).
Proof. unfold SRAW_inline_sequence. shape. Qed.
Lemma MULH_laid : returns (MULH_inline_sequence xl s) (laid s).
Proof. unfold MULH_inline_sequence. shape. Qed.
Lemma MULHSU_laid : returns (MULHSU_inline_sequence xl s) (laid s).
Proof. unfold MULHSU_inline_sequence. shape. Qed.
Lemma ADDIW_laid : returns (ADDIW_inline_sequence xl t) (laid t).
Proof. unfold ADDIW_inline_sequence. shape. Qed.
Lemma SLLIW_laid : returns (SLLIW_inline_sequence xl t) (laid t).
Proof. unfold SLLIW_inline_sequence. shape. Qed.
Lemma SRLIW_laid : returns (SRLIW_inline_sequence xl t) (laid t).
Proof. unfold SRLIW_inline_sequence. shape. Qed.
Lemma SRAIW_laid : returns (SRAIW_inline_sequence xl t) (laid t).
Proof. unfold SRAIW_inline_sequence. shape. Qed.
End Words.

#[export] Instance MULH_expands : Expands MULH.
Proof.
  split; [apply normalized_address|]. intros s xl Hs. eapply returns_impl; [|apply MULH_laid].
  rewrite Hs. intros l. apply laid_out_plain.
Qed.

Lemma divw_body_inv addr comp asm a0 a1 a2 a3 t0 t1 t2 t3 t4 :
  asm_inv addr comp asm -> returns (divw_body asm a0 a1 a2 a3 t0 t1 t2 t3 t4) (asm_inv addr comp).
Proof.
  intros [? ? ?]. unfold divw_body.
  repeat (eapply (returns_bind _ _ (asm_inv addr comp));
    [apply emit_inv; first [apply _ | split; eassumption]|intros ? [? ? ?]]).
  apply emit_inv; first [apply _ | split; eassumption].
Qed.

Section Division.
Context (xl : Xlen) (s : Struct FormatR).
Abbreviation laid s := (straight_out (address s) (is_compressed s)).

Lemma DIV_laid : returns (DIV_inline_sequence xl s) (laid s).
Proof. unfold DIV_inline_sequence. shape. Qed.
Lemma REM_laid : returns (REM_inline_sequence xl s) (laid s).
Proof. unfold REM_inline_sequence. shape. Qed.
Lemma DIVU_laid : returns (DIVU_inline_sequence xl s) (laid s).
Proof. unfold DIVU_inline_sequence. shape. Qed.
Lemma REMU_laid : returns (REMU_inline_sequence xl s) (laid s).
Proof. unfold REMU_inline_sequence. shape. Qed.
Lemma DIVUW_laid : returns (DIVUW_inline_sequence xl s) (laid s).
Proof. unfold DIVUW_inline_sequence. shape. Qed.
Lemma REMUW_laid : returns (REMUW_inline_sequence xl s) (laid s).
Proof. unfold REMUW_inline_sequence. shape. Qed.
Lemma DIVW_laid : returns (DIVW_inline_sequence xl s) (laid s).
Proof.
  unfold DIVW_inline_sequence. cbv zeta. do 7 (apply returns_bind_any; intros ?).
  eapply returns_bind; [apply divw_body_inv, asm_inv_new|intros ? [? ? ?]]. shape.
Qed.
Lemma REMW_laid : returns (REMW_inline_sequence xl s) (laid s).
Proof.
  unfold REMW_inline_sequence. cbv zeta. do 7 (apply returns_bind_any; intros ?).
  eapply returns_bind; [apply divw_body_inv, asm_inv_new|intros ? [? ? ?]]. shape.
Qed.
End Division.

(** The integer instructions with a sequence of their own. *)
Definition is_integer_macro (op : Op) : bool :=
  match op with
  | SLL _ | SLLI _ | SRL _ | SRLI _ | SRA _ | SRAI _ | ADDW _ | ADDIW _ | SUBW _ | MULW _
  | SLLW _ | SLLIW _ | SRLW _ | SRLIW _ | SRAW _ | SRAIW _ | MULH _ | MULHSU _
  | DIV _ | DIVU _ | DIVW _ | DIVUW _ | REM _ | REMU _ | REMW _ | REMUW _ => true
  | _ => false
  end.

Lemma integer_laid_out (i : Instruction) (xl : Xlen) :
  is_integer_macro (operands i) = true ->
  returns (dispatch_inline_sequence i xl) (straight_out (address i) (is_compressed i)).
Proof.
  intros Hm a l a' H. unfold dispatch_inline_sequence in H.
  destruct (operands i); try discriminate Hm;
    lazymatch type of H with
    | SLL_inline_sequence _ _ _ = _ => exact (SLL_laid xl (with_operands i o) a l a' H)
    | SRL_inline_sequence _ _ _ = _ => exact (SRL_laid xl (with_operands i o) a l a' H)
    | SRA_inline_sequence _ _ _ = _ => exact (SRA_laid xl (with_operands i o) a l a' H)
    | ADDW_inline_sequence _ _ _ = _ => exact (ADDW_laid xl (with_operands i o) a l a' H)
    | SUBW_inline_sequence _ _ _ = _ => exact (SUBW_laid xl (with_operands i o) a l a' H)
    | MULW_inline_sequence _ _ _ = _ => exact (MULW_laid xl (with_operands i o) a l a' H)
    | SLLW_inline_sequence _ _ _ = _ => exact (SLLW_laid xl (with_operands i o) a l a' H)
    | SRLW_inline_sequence _ _ _ = _ => exact (SRLW_laid xl (with_operands i o) a l a' H)
    | SRAW_inline_sequence _ _ _ = _ => exact (SRAW_laid xl (with_operands i o) a l a' H)
    | MULH_inline_sequence _ _ _ = _ => exact (MULH_laid xl (with_operands i o) a l a' H)
    | MULHSU_inline_sequence _ _ _ = _ => exact (MULHSU_laid xl (with_operands i o) a l a' H)
    | DIV_inline_sequence _ _ _ = _ => exact (DIV_laid xl (with_operands i o) a l a' H)
    | REM_inline_sequence _ _ _ = _ => exact (REM_laid xl (with_operands i o) a l a' H)
    | DIVU_inline_sequence _ _ _ = _ => exact (DIVU_laid xl (with_operands i o) a l a' H)
    | REMU_inline_sequence _ _ _ = _ => exact (REMU_laid xl (with_operands i o) a l a' H)
    | DIVUW_inline_sequence _ _ _ = _ => exact (DIVUW_laid xl (with_operands i o) a l a' H)
    | REMUW_inline_sequence _ _ _ = _ => exact (REMUW_laid xl (with_operands i o) a l a' H)
    | DIVW_inline_sequence _ _ _ = _ => exact (DIVW_laid xl (with_operands i o) a l a' H)
    | REMW_inline_sequence _ _ _ = _ => exact (REMW_laid xl (with_operands i o) a l a' H)
    | SLLI_inline_sequence _ _ _ = _ => exact (SLLI_laid xl (with_operands i o) a l a' H)
    | SRLI_inline_sequence _ _ _ = _ => exact (SRLI_laid xl (with_operands i o) a l a' H)
    | SRAI_inline_sequence _ _ _ = _ => exact (SRAI_laid xl (with_operands i o) a l a' H)
    | ADDIW_inline_sequence _ _ _ = _ => exact (ADDIW_laid xl (with_operands i o) a l a' H)
    | SLLIW_inline_sequence _ _ _ = _ => exact (SLLIW_laid xl (with_operands i o) a l a' H)
    | SRLIW_inline_sequence _ _ _ = _ => exact (SRLIW_laid xl (with_operands i o) a l a' H)
    | SRAIW_inline_sequence _ _ _ = _ => exact (SRAIW_laid xl (with_operands i o) a l a' H)
    end.
Qed.
