(* ===== verification/MemShape.v ===== *)
(** * MemShape: the layout of every virtual sequence

    The sequences of the memory instructions are laid out at their instruction,
    as those of the integer instructions are. *)
From S2P Require Import Prelude Registers AdviceTape Mmu Cpu Formats Instr Assembler Sequences.
From S2P Require Import MemSequences Trace ExecWf SeqShape.

Section Loads.
Context (xl : Xlen) (s : Struct FormatLoad) (t : Struct FormatS).
Abbreviation laid s := (straight_out (address s) (is_compressed s)).

Lemma LB_laid : returns (LB_inline_sequence xl s) (laid s).
Proof. unfold LB_inline_sequence, new_asm. shape. Qed.
Lemma LBU_laid : returns (LBU_inline_sequence xl s) (laid s).
Proof. unfold LBU_inline_sequence, new_asm. shape. Qed.
Lemma LH_laid : returns (LH_inline_sequence xl s) (laid s).
Proof. unfold LH_inline_sequence, new_asm. shape. Qed.
Lemma LHU_laid : returns (LHU_inline_sequence xl s) (laid s).
Proof. unfold LHU_inline_sequence, new_asm. shape. Qed.
Lemma LWU_laid : returns (LWU_inline_sequence xl s) (laid s).
Proof. unfold LWU_inline_sequence, new_asm. shape. Qed.
Lemma LW_laid : returns (LW_inline_sequence xl s) (laid s).
Proof. unfold LW_inline_sequence, new_asm. shape. Qed.
Lemma SB_laid : returns (SB_inline_sequence xl t) (laid t).
Proof. unfold SB_inline_sequence, new_asm. shape. Qed.
Lemma SH_laid : returns (SH_inline_sequence xl t) (laid t).
Proof. unfold SH_inline_sequence, new_asm. shape. Qed.
Lemma SW_laid : returns (SW_inline_sequence xl t) (laid t).
Proof. unfold SW_inline_sequence, new_asm. shape. Qed.
End Loads.

#[export] Instance LW_expands : Expands LW.
Proof.
  split; [apply normalized_address|]. intros s xl Hs. eapply returns_impl; [|apply LW_laid].
  rewrite Hs. intros l. apply laid_out_plain.
Qed.
#[export] Instance SW_expands : Expands SW.
Proof.
  split; [apply normalized_address|]. intros s xl Hs. eapply returns_impl; [|apply SW_laid].
  rewrite Hs. intros l. apply laid_out_plain.
Qed.

(** ** The helpers of amo.rs *)
Section Helpers.
Context (addr : Z) (comp : bool) (asm : InstrAssembler) (Hasm : asm_inv addr comp asm).

#[local] Ltac helper :=
  destruct Hasm;
  repeat (eapply (returns_bind _ _ (asm_inv addr comp));
    [apply emit_inv; first [apply _ | split; eassumption]|intros ? [? ? ?]]);
  apply emit_inv; first [apply _ | split; eassumption].

Lemma amo_pre64_inv rs1 v_rd v_dword v_shift : returns (amo_pre64 asm rs1 v_rd v_dword v_shift) (asm_inv addr comp).
Proof. unfold amo_pre64. helper. Qed.
Lemma amo_post64_inv rs1 rs2 v_dword v_shift v_mask rd v_rd :
  returns (amo_post64 asm rs1 rs2 v_dword v_shift v_mask rd v_rd) (asm_inv addr comp).
Proof. unfold amo_post64. helper. Qed.
Lemma amo_pre32_inv rs1 v_rd : returns (amo_pre32 asm rs1 v_rd) (asm_inv addr comp).
Proof. unfold amo_pre32. helper. Qed.
Lemma amo_post32_inv rs2 rs1 rd v_rd : returns (amo_post32 asm rs2 rs1 rd v_rd) (asm_inv addr comp).
Proof. unfold amo_post32. helper. Qed.
End Helpers.

Ltac shape_amo_step :=
  lazymatch goal with
  | |- returns (M_bind (amo_pre64 _ _ _ _ _) _) (straight_out ?addr ?comp) =>
      eapply (returns_bind _ _ (asm_inv addr comp)); [apply amo_pre64_inv|intros ? [? ? ?]]
  | |- returns (M_bind (amo_post64 _ _ _ _ _ _ _ _) _) (straight_out ?addr ?comp) =>
      eapply (returns_bind _ _ (asm_inv addr comp)); [apply amo_post64_inv|intros ? [? ? ?]]
  | |- returns (M_bind (amo_pre32 _ _ _) _) (straight_out ?addr ?comp) =>
      eapply (returns_bind _ _ (asm_inv addr comp)); [apply amo_pre32_inv|intros ? [? ? ?]]
  | |- returns (M_bind (amo_post32 _ _ _ _ _) _) (straight_out ?addr ?comp) =>
      eapply (returns_bind _ _ (asm_inv addr comp)); [apply amo_post32_inv|intros ? [? ? ?]]
  | |- asm_inv _ _ _ => first [apply asm_inv_new | split; eassumption]
  | |- _ => shape_step
  end.
Ltac shape_amo := intros; cbv zeta; repeat (shape_amo_step; cbv zeta).

Section Atomics.
Context (xl : Xlen) (s : Struct FormatAMO).
Abbreviation laid s := (straight_out (address s) (is_compressed s)).

Lemma AMO_D_laid op `{!Straight op} : returns (AMO_D_inline_sequence xl s op) (laid s).
Proof. unfold AMO_D_inline_sequence, new_asm. shape. Qed.
Lemma AMO_D_select_laid op b `{!Straight op} : returns (AMO_D_select xl s op b) (laid s).
Proof. unfold AMO_D_select, new_asm. destruct b; shape. Qed.
Lemma AMOSWAPD_laid : returns (AMOSWAPD_inline_sequence xl s) (laid s).
Proof. unfold AMOSWAPD_inline_sequence, new_asm. shape. Qed.
Lemma AMOSWAPW_laid : returns (AMOSWAPW_inline_sequence xl s) (laid s).
Proof. unfold AMOSWAPW_inline_sequence, new_asm. shape. Qed.
Lemma AMO_W_laid op `{!Straight op} : returns (AMO_W_inline_sequence xl s op) (laid s).
Proof. unfold AMO_W_inline_sequence, new_asm. shape_amo. Qed.
Lemma AMO_W_select_laid ext op b `{!Straight ext} `{!Straight op} : returns (AMO_W_select xl s ext op b) (laid s).
Proof. unfold AMO_W_select, new_asm. destruct b; shape_amo. Qed.
End Atomics.

(** ** Load reserved and store conditional *)
Section Reserved.
Context (xl : Xlen) (s : Struct FormatR).
Abbreviation laid s := (straight_out (address s) (is_compressed s)).

Lemma LRW_laid : returns (LRW_inline_sequence xl s) (laid s).
Proof. unfold LRW_inline_sequence, new_asm. destruct xl; shape. Qed.
Lemma LRD_laid : returns (LRD_inline_sequence xl s) (laid s).
Proof. unfold LRD_inline_sequence, new_asm. shape. Qed.

Lemma SC_pre_inv addr comp asm r v : asm_inv addr comp asm -> returns (SC_pre s asm r v) (asm_inv addr comp).
Proof.
  intros [? ? ?]. unfold SC_pre.
  repeat first
    [ eapply (returns_bind (emit_j _ _ _ _) _ (asm_inv addr comp)); [apply emit_inv; first [apply _ | split; eassumption]|intros ? [? ? ?]]
    | eapply (returns_bind (emit_i _ _ _ _ _) _ (asm_inv addr comp)); [apply emit_inv; first [apply _ | split; eassumption]|intros ? [? ? ?]]
    | eapply (returns_bind (emit_r _ _ _ _ _) _ (asm_inv addr comp)); [apply emit_inv; first [apply _ | split; eassumption]|intros ? [? ? ?]]
    | eapply (returns_bind (emit_b _ _ _ _ _) _ (asm_inv addr comp)); [apply emit_inv; first [apply _ | split; eassumption]|intros ? [? ? ?]]
    | apply returns_bind_any; intros ? ].
  by apply returns_ret.
Qed.

Lemma SC_post_laid asm load store r o v :
  (forall asm r, asm_inv (address s) (is_compressed s) asm ->
     returns (load asm r) (asm_inv (address s) (is_compressed s))) ->
  (forall asm r, asm_inv (address s) (is_compressed s) asm ->
     returns (store asm r) (asm_inv (address s) (is_compressed s))) ->
  asm_inv (address s) (is_compressed s) asm -> returns (SC_post s asm load store r o v) (laid s).
Proof.
  intros Hl Hs Ha. unfold SC_post. apply returns_bind_any; intros v_mem.
  eapply returns_bind; [by apply Hl|intros ? [? ? ?]]. do 5 shape_step. clear Ha.
  eapply returns_bind; [apply Hs; split; eassumption|intros ? [? ? ?]]. shape.
Qed.

Lemma SCW_laid : returns (SCW_inline_sequence xl s) (laid s).
Proof.
  unfold SCW_inline_sequence, SCW_inline_sequence_32, SCW_inline_sequence_64, new_asm.
  destruct xl; cbv zeta; apply returns_bind_any; intros v;
    (eapply returns_bind; [apply SC_pre_inv, asm_inv_new|intros asm Ha]).
  - apply SC_post_laid; [..|done]; intros; apply emit_inv; (apply _ || done).
  - destruct Ha. shape.
Qed.
Lemma SCD_laid : returns (SCD_inline_sequence xl s) (laid s).
Proof.
  unfold SCD_inline_sequence, new_asm. destruct xl; [apply returns_panic|]. cbv zeta.
  apply returns_bind_any; intros v.
  eapply returns_bind; [apply SC_pre_inv, asm_inv_new|intros asm Ha].
  apply SC_post_laid; [..|done]; intros; apply emit_inv; (apply _ || done).
Qed.
End Reserved.

(** ** Every sequence *)

(** The instructions with a sequence of their own. *)
Definition is_macro (op : Op) : bool :=
  is_integer_macro op ||
  is_memory op && match op with LD _ | SD _ | VirtualLW _ | VirtualSW _ => false | _ => true end.

Lemma memory_laid_out (i : Instruction) (xl : Xlen) :
  is_memory (operands i) = true -> is_macro (operands i) = true ->
  returns (dispatch_inline_sequence i xl) (straight_out (address i) (is_compressed i)).
Proof.
  intros Hmem Hm a l a' H. unfold dispatch_inline_sequence in H.
  destruct (operands i); try discriminate Hmem; try discriminate Hm;
    lazymatch type of H with
    | LB_inline_sequence _ _ _ = _ => exact (LB_laid xl (with_operands i o) a l a' H)
    | LBU_inline_sequence _ _ _ = _ => exact (LBU_laid xl (with_operands i o) a l a' H)
    | LH_inline_sequence _ _ _ = _ => exact (LH_laid xl (with_operands i o) a l a' H)
    | LHU_inline_sequence _ _ _ = _ => exact (LHU_laid xl (with_operands i o) a l a' H)
    | LWU_inline_sequence _ _ _ = _ => exact (LWU_laid xl (with_operands i o) a l a' H)
    | LW_inline_sequence _ _ _ = _ => exact (LW_laid xl (with_operands i o) a l a' H)
    | SB_inline_sequence _ _ _ = _ => exact (SB_laid xl (with_operands i o) a l a' H)
    | SH_inline_sequence _ _ _ = _ => exact (SH_laid xl (with_operands i o) a l a' H)
    | SW_inline_sequence _ _ _ = _ => exact (SW_laid xl (with_operands i o) a l a' H)
    | AMOADDD_inline_sequence _ _ _ = _ => exact (AMO_D_laid xl (with_operands i o) ADD a l a' H)
    | AMOANDD_inline_sequence _ _ _ = _ => exact (AMO_D_laid xl (with_operands i o) AND a l a' H)
    | AMOORD_inline_sequence _ _ _ = _ => exact (AMO_D_laid xl (with_operands i o) OR a l a' H)
    | AMOXORD_inline_sequence _ _ _ = _ => exact (AMO_D_laid xl (with_operands i o) XOR a l a' H)
    | AMOADDW_inline_sequence _ _ _ = _ => exact (AMO_W_laid xl (with_operands i o) ADD a l a' H)
    | AMOANDW_inline_sequence _ _ _ = _ => exact (AMO_W_laid xl (with_operands i o) AND a l a' H)
    | AMOORW_inline_sequence _ _ _ = _ => exact (AMO_W_laid xl (with_operands i o) OR a l a' H)
    | AMOXORW_inline_sequence _ _ _ = _ => exact (AMO_W_laid xl (with_operands i o) XOR a l a' H)
    | AMOSWAPD_inline_sequence _ _ _ = _ => exact (AMOSWAPD_laid xl (with_operands i o) a l a' H)
    | AMOSWAPW_inline_sequence _ _ _ = _ => exact (AMOSWAPW_laid xl (with_operands i o) a l a' H)
    | AMOMIND_inline_sequence _ _ _ = _ => exact (AMO_D_select_laid xl (with_operands i o) SLT true a l a' H)
    | AMOMINW_inline_sequence _ _ _ = _ =>
        exact (AMO_W_select_laid xl (with_operands i o) VirtualSignExtendWord SLT true a l a' H)
    | AMOMAXD_inline_sequence _ _ _ = _ => exact (AMO_D_select_laid xl (with_operands i o) SLT false a l a' H)
    | AMOMAXW_inline_sequence _ _ _ = _ =>
        exact (AMO_W_select_laid xl (with_operands i o) VirtualSignExtendWord SLT false a l a' H)
    | AMOMINUD_inline_sequence _ _ _ = _ => exact (AMO_D_select_laid xl (with_operands i o) SLTU true a l a' H)
    | AMOMINUW_inline_sequence _ _ _ = _ =>
        exact (AMO_W_select_laid xl (with_operands i o) VirtualZeroExtendWord SLTU true a l a' H)
    | AMOMAXUD_inline_sequence _ _ _ = _ => exact (AMO_D_select_laid xl (with_operands i o) SLTU false a l a' H)
    | AMOMAXUW_inline_sequence _ _ _ = _ =>
        exact (AMO_W_select_laid xl (with_operands i o) VirtualZeroExtendWord SLTU false a l a' H)
    | LRW_inline_sequence _ _ _ = _ => exact (LRW_laid xl (with_operands i o) a l a' H)
    | LRD_inline_sequence _ _ _ = _ => exact (LRD_laid xl (with_operands i o) a l a' H)
    | SCW_inline_sequence _ _ _ = _ => exact (SCW_laid xl (with_operands i o) a l a' H)
    | SCD_inline_sequence _ _ _ = _ => exact (SCD_laid xl (with_operands i o) a l a' H)
    end.
Qed.

(** Every virtual sequence of [Op], integer or memory, is laid out at its
    instruction; [HostShape] adds the instructions without one and the system
    instructions. *)
Lemma macro_laid_out (i : Instruction) (xl : Xlen) : is_macro (operands i) = true ->
  returns (dispatch_inline_sequence i xl) (straight_out (address i) (is_compressed i)).
Proof.
  intros Hm. destruct (is_memory (operands i)) eqn:Hmem; [by apply memory_laid_out|].
  apply integer_laid_out. unfold is_macro in Hm. rewrite Hmem in Hm. by rewrite orb_false_r in Hm.
Qed.
