(* ===== verification/Bytecode.v ===== *)
(** * Bytecode: the table of the program's instructions and its program counter

    Models [jolt-core/src/zkvm/bytecode/mod.rs]: the preprocessed bytecode and
    [BytecodePCMapper], which maps an instruction's memory address and its
    position in a virtual sequence to its row of the table.  The outer [option]
    is a panic (an [unwrap], an [expect], an [assert] or an index out of
    range), the sum the function's own [Result]. *)
From S2P Require Import Prelude Registers AdviceTape Device Cpu Formats Instr Assembler Sequences Trace SeqShape.

(** common/src/constants.rs *)
Definition ALIGNMENT_FACTOR_BYTECODE : Z := 2.

(** The enums [Instruction] and [Cycle] with their [NoOp]; [UNIMPL] stands for
    a word that does not decode. *)
Inductive BytecodeInstr := NoOp | UNIMPL | Real (i : Instruction).
Inductive TraceCycle := NoOpCycle | RealCycle (c : Cycle).

Definition default_normalized : NormalizedInstruction :=
  {| ni_address := 0;
     ni_operands := {| norm_rs1 := None; norm_rs2 := None; norm_rd := None; norm_imm := 0 |};
     ni_virtual_sequence_remaining := None; ni_is_first_in_sequence := false; ni_is_compressed := false |}.
Definition normalize_any (i : BytecodeInstr) : NormalizedInstruction :=
  match i with Real i => normalize i | _ => default_normalized end.
(** [Cycle::instruction] *)
Definition cycle_instruction (c : TraceCycle) : BytecodeInstr :=
  match c with NoOpCycle => NoOp | RealCycle c => Real (instruction c) end.

Inductive PreprocessingError :=
| NonDecreasingInlineSequence (bytecode_index : nat) (address previous_max_sequence new_sequence : Z).

Record BytecodePCMapper := { indices : list (option (nat * Z)) }.

Definition get_index (address : Z) : option nat :=
  if (RAM_START_ADDRESS <=? address) && (address mod ALIGNMENT_FACTOR_BYTECODE =? 0)
  then Some (Z.to_nat ((address - RAM_START_ADDRESS) / ALIGNMENT_FACTOR_BYTECODE) + 1)%nat
  else None.

(** The loop of [try_new] over the remaining bytecode. *)
Fixpoint try_new_loop (bytecode : list BytecodeInstr) (last_pc : nat) (indices : list (option (nat * Z)))
    : option (PreprocessingError + list (option (nat * Z))) :=
  match bytecode with
  | [] => Some (inr indices)
  | instr :: bytecode =>
      let instr := normalize_any instr in
      if ni_address instr =? 0 then try_new_loop bytecode last_pc indices
      else
        let last_pc := S last_pc in
        bytecode_index ← get_index (ni_address instr);
        let new_sequence := default 0 (ni_virtual_sequence_remaining instr) in
        entry ← indices !! bytecode_index;
        match entry with
        | Some (_, max_sequence) =>
            if max_sequence <=? new_sequence
            then Some (inl (NonDecreasingInlineSequence bytecode_index (ni_address instr) max_sequence new_sequence))
            else try_new_loop bytecode last_pc indices
        | None => try_new_loop bytecode last_pc (<[bytecode_index := Some (last_pc, new_sequence)]> indices)
        end
  end.

Definition BytecodePCMapper_try_new (bytecode : list BytecodeInstr)
    : option (PreprocessingError + BytecodePCMapper) :=
  last_instr ← bytecode !! (length bytecode - 1)%nat;
  last_index ← get_index (ni_address (normalize_any last_instr));
  r ← try_new_loop bytecode 0 (<[0%nat := Some (0%nat, 0)]> (replicate (last_index + 1) None));
  Some (match r with inl e => inl e | inr indices => inr {| indices := indices |} end).

Definition BytecodePCMapper_get_pc (self : BytecodePCMapper) (address virtual_sequence_remaining : Z)
    : option nat :=
  i ← get_index address;
  entry ← indices self !! i;
  '(base_pc, max_inline_seq) ← entry;
  Some (base_pc + Z.to_nat (as_u16 (max_inline_seq - virtual_sequence_remaining)))%nat.

Record BytecodePreprocessing := {
  code_size : nat;
  bytecode : list BytecodeInstr;
  pc_map : BytecodePCMapper;
  entry_address : Z
}.

Definition next_power_of_two (n : nat) : nat := 2 ^ Nat.log2_up n.

Definition preprocess (bytecode : list BytecodeInstr) (entry_address : Z)
    : option (PreprocessingError + BytecodePreprocessing) :=
  let bytecode := NoOp :: bytecode in
  r ← BytecodePCMapper_try_new bytecode;
  Some (match r with
        | inl e => inl e
        | inr pc_map =>
            let code_size := Nat.max (next_power_of_two (length bytecode)) 2 in
            inr {| code_size := code_size;
                   bytecode := take code_size bytecode ++ replicate (code_size - length bytecode) NoOp;
                   pc_map := pc_map; entry_address := entry_address |}
        end).

Definition entry_bytecode_index (self : BytecodePreprocessing) : option nat :=
  BytecodePCMapper_get_pc (pc_map self) (entry_address self) 0.

Definition get_pc (self : BytecodePreprocessing) (cycle : TraceCycle) : option nat :=
  match cycle with
  | NoOpCycle => Some 0%nat
  | RealCycle _ =>
      let instr := normalize_any (cycle_instruction cycle) in
      BytecodePCMapper_get_pc (pc_map self) (ni_address instr)
        (default 0 (ni_virtual_sequence_remaining instr))
  end.

(** ** Programs laid out in memory *)

(** The expansion of one instruction: its rows share its address, lie in the
    table's range and count down to zero. *)
Definition rest (i : Instruction) : Z := default 0 (virtual_sequence_remaining i).
Record expansion (g : list Instruction) (addr : Z) : Prop := {
  expansion_at : forall k i, g !! k = Some i ->
    address i = addr /\ rest i = Z.of_nat (length g) - Z.of_nat k - 1;
  expansion_nonempty : g <> [];
  expansion_u16 : Z.of_nat (length g) <= 2 ^ 16;
  expansion_range : RAM_START_ADDRESS <= addr;
  expansion_even : addr mod ALIGNMENT_FACTOR_BYTECODE = 0
}.

(** A program: expansions at increasing addresses, from [lo] on. *)
Inductive program : Z -> list (list Instruction) -> Prop :=
| program_nil lo : program lo []
| program_cons lo g addr gs :
    expansion g addr -> lo < addr -> program addr gs -> program lo (g :: gs).

Definition row_index (addr : Z) : nat := Z.to_nat ((addr - RAM_START_ADDRESS) / 2 + 1).

Lemma get_index_row addr : RAM_START_ADDRESS <= addr -> addr mod ALIGNMENT_FACTOR_BYTECODE = 0 ->
  get_index addr = Some (row_index addr).
Proof.
  intros Hr He. unfold get_index, row_index. rewrite He.
  destruct (Z.leb_spec RAM_START_ADDRESS addr); [|lia]. cbn [andb Z.eqb].
  pose proof (Z.div_pos (addr - RAM_START_ADDRESS) 2 ltac:(lia) ltac:(lia)).
  unfold ALIGNMENT_FACTOR_BYTECODE. f_equal. lia.
Qed.

Lemma row_index_lt a b : RAM_START_ADDRESS <= a -> a mod 2 = 0 -> b mod 2 = 0 -> a < b ->
  (row_index a < row_index b)%nat.
Proof.
  intros Ha Ea Eb Hab. unfold row_index, RAM_START_ADDRESS in *.
  pose proof (Z.div_mod a 2 ltac:(lia)). pose proof (Z.div_mod b 2 ltac:(lia)).
  replace (a - 2147483648) with (2 * (a / 2 - 1073741824)) by lia.
  replace (b - 2147483648) with (2 * (b / 2 - 1073741824)) by lia.
  rewrite !(Z.mul_comm 2), !Z.div_mul by lia. lia.
Qed.

Lemma program_address lo gs i : program lo gs -> i ∈ concat gs ->
  lo < address i /\ RAM_START_ADDRESS <= address i /\ address i mod 2 = 0.
Proof.
  induction 1 as [lo|lo g addr gs He Hlo _ IH]; cbn [concat]; [by intros ?%elem_of_nil|].
  rewrite elem_of_app. intros [Hi|Hi].
  - apply list_elem_of_lookup in Hi as [k Hk]. destruct (expansion_at g addr He k i Hk) as [-> _].
    split; [done|]. split; [apply He|]. apply (expansion_even _ _ He).
  - destruct (IH Hi) as (H1 & H2). split; [lia|done].
Qed.

Lemma program_sorted lo gs j k i i' : program lo gs ->
  concat gs !! j = Some i -> concat gs !! k = Some i' -> (j <= k)%nat -> address i <= address i'.
Proof.
  intros Hp. revert j k. induction Hp as [lo|lo g addr gs He Hlo Hp IH]; cbn [concat]; intros j k; [done|].
  destruct (decide (j < length g)%nat) as [Hj|Hj], (decide (k < length g)%nat) as [Hk|Hk];
    rewrite ?(lookup_app_l g _ j), ?(lookup_app_l g _ k), ?(lookup_app_r g _ j), ?(lookup_app_r g _ k) by lia;
    intros Hi Hi' Hjk; [| |lia|].
  - destruct (expansion_at g addr He j i Hi) as [-> _], (expansion_at g addr He k i' Hi') as [-> _]. lia.
  - destruct (expansion_at g addr He j i Hi) as [-> _].
    destruct (program_address addr gs i' Hp) as [? _]; [by eapply list_elem_of_lookup_2|lia].
  - apply (IH (j - length g)%nat (k - length g)%nat); [done|done|lia].
Qed.

(** *** The loop of [try_new] over one expansion *)

Lemma loop_tail l more lp idx row p m :
  Forall (fun i => RAM_START_ADDRESS <= address i /\ address i mod ALIGNMENT_FACTOR_BYTECODE = 0 /\
                   row_index (address i) = row /\ rest i < m) l ->
  idx !! row = Some (Some (p, m)) ->
  try_new_loop (map Real l ++ more) lp idx = try_new_loop more (lp + length l) idx.
Proof.
  intros Hl Hrow. revert lp. induction Hl as [|i l (Hr & He & Hi & Hm) _ IH]; intros lp; cbn [map app length].
  - by rewrite Nat.add_0_r.
  - cbn [try_new_loop normalize_any normalize ni_address ni_virtual_sequence_remaining].
    destruct (Z.eqb_spec (address i) 0) as [E|_]; [by unfold RAM_START_ADDRESS in Hr; lia|].
    rewrite get_index_row by done. cbn [mbind option_bind]. rewrite Hi, Hrow. cbn [mbind option_bind].
    destruct (Z.leb_spec m (default 0 (virtual_sequence_remaining i))); [by unfold rest in Hm; lia|].
    rewrite IH. f_equal. lia.
Qed.

Lemma loop_expansion g addr more lp idx :
  expansion g addr -> idx !! row_index addr = Some None ->
  try_new_loop (map Real g ++ more) lp idx
  = try_new_loop more (lp + length g)
      (<[row_index addr := Some (S lp, Z.of_nat (length g) - 1)]> idx).
Proof.
  intros [Hat Hne _ Hr He] Hrow. destruct g as [|i g]; [done|]. cbn [map app length].
  destruct (Hat 0%nat i eq_refl) as [Ha Hc]. rewrite <- Ha in Hr, He.
  cbn [try_new_loop normalize_any normalize ni_address ni_virtual_sequence_remaining].
  destruct (Z.eqb_spec (address i) 0) as [E|_]; [by unfold RAM_START_ADDRESS in Hr; lia|].
  rewrite get_index_row by done. cbn [mbind option_bind]. rewrite Ha, Hrow. cbn [mbind option_bind].
  rewrite (loop_tail g more (S lp) _ (row_index addr) (S lp) (Z.of_nat (length g))).
  - fold (rest i). rewrite Hc. cbn [length]. rewrite Z.sub_0_r.
    by replace (lp + S (length g))%nat with (S lp + length g)%nat by lia.
  - apply Forall_lookup. intros k j Hj. destruct (Hat (S k) j Hj) as [Hja Hjc]. rewrite Hja, <- Ha.
    split; [done|]. split; [done|]. split; [by rewrite Ha|]. rewrite Hjc. cbn [length].
    apply lookup_lt_Some in Hj. lia.
  - fold (rest i). rewrite Hc, list_lookup_insert_eq by (by eapply lookup_lt_Some).
    cbn [length]. do 3 f_equal. lia.
Qed.

(** What an entry of the map says about a row of the program. *)
Definition entry_ok (idx : list (option (nat * Z))) (lp k : nat) (i : Instruction) : Prop :=
  exists base m, idx !! row_index (address i) = Some (Some (base, m)) /\
    0 <= m - rest i < 2 ^ 16 /\ (base + Z.to_nat (m - rest i) = S lp + k)%nat.

Lemma expansion_row g addr i : expansion g addr -> i ∈ g -> address i = addr.
Proof. intros He [k Hk]%list_elem_of_lookup. by apply (expansion_at g addr He k). Qed.

Lemma loop_program lo gs lp idx :
  program lo gs -> (forall i, i ∈ concat gs -> idx !! row_index (address i) = Some None) ->
  exists idx', try_new_loop (map Real (concat gs)) lp idx = Some (inr idx') /\
    (forall k i, concat gs !! k = Some i -> entry_ok idx' lp k i) /\
    (forall r, (forall i, i ∈ concat gs -> row_index (address i) <> r) -> idx' !! r = idx !! r).
Proof.
  intros Hp. revert lp idx. induction Hp as [lo|lo g addr gs He Hlo Hp IH]; cbn [concat map]; intros lp idx Hn.
  { exists idx. split; [done|]. by split. }
  assert (Hrow : idx !! row_index addr = Some None).
  { destruct g as [|i g]; [by destruct (expansion_nonempty _ _ He)|].
    rewrite <- (expansion_row _ _ i He) by (by left). apply Hn. by left. }
  assert (Hlater : forall i, i ∈ concat gs -> row_index (address i) <> row_index addr).
  { intros i Hi. destruct (program_address _ _ i Hp Hi) as (Ha & Hs & Hev).
    pose proof (row_index_lt addr (address i) (expansion_range _ _ He) (expansion_even _ _ He) Hev Ha). lia. }
  rewrite map_app, (loop_expansion g addr) by done.
  destruct (IH (lp + length g)%nat (<[row_index addr := Some (S lp, Z.of_nat (length g) - 1)]> idx))
    as (idx' & Hl & Hk & Hr).
  { intros i Hi. rewrite list_lookup_insert_ne by (apply not_eq_sym; auto).
    apply Hn. apply elem_of_app. by right. }
  exists idx'. split; [done|]. split.
  - intros k i Hi. destruct (decide (k < length g)%nat) as [Hk1|Hk1].
    + rewrite lookup_app_l in Hi by done. destruct (expansion_at g addr He k i Hi) as [Ha Hc].
      exists (S lp), (Z.of_nat (length g) - 1). rewrite Ha, Hr by done.
      rewrite list_lookup_insert_eq by (by eapply lookup_lt_Some).
      pose proof (expansion_u16 _ _ He). rewrite Hc. split; [done|]. split; lia.
    + rewrite lookup_app_r in Hi by lia. destruct (Hk _ _ Hi) as (b & m & H1 & H2 & H3).
      exists b, m. split; [done|]. split; [done|]. lia.
  - intros r Hr'. rewrite Hr by (intros i Hi; apply Hr'; apply elem_of_app; by right).
    apply list_lookup_insert_ne. destruct g as [|i g]; [by destruct (expansion_nonempty _ _ He)|].
    rewrite <- (expansion_row _ _ i He) by (by left). apply Hr'. by left.
Qed.

Lemma concat_nonempty lo gs : program lo gs -> gs <> [] -> concat gs <> [].
Proof.
  intros [|lo' g addr gs' He _ _] Hne; [done|]. cbn. destruct g; [by destruct (expansion_nonempty _ _ He)|done].
Qed.

Lemma try_new_program lo gs : program lo gs -> gs <> [] ->
  exists m, BytecodePCMapper_try_new (NoOp :: map Real (concat gs)) = Some (inr m) /\
    forall k i, concat gs !! k = Some i -> BytecodePCMapper_get_pc m (address i) (rest i) = Some (S k).
Proof.
  intros Hp Hne. pose proof (concat_nonempty lo gs Hp Hne) as Hc.
  destruct (exists_last Hc) as (l & li & Hl).
  assert (Hlast : concat gs !! length l = Some li) by (by rewrite Hl, list_lookup_middle).
  destruct (program_address lo gs li Hp) as (_ & Hs & Hev); [by eapply list_elem_of_lookup_2|].
  unfold BytecodePCMapper_try_new. cbn [length]. rewrite length_map, Nat.sub_succ, Nat.sub_0_r.
  assert (Hlen : length (concat gs) = S (length l)) by (rewrite Hl, length_app; cbn; lia).
  rewrite Hlen, lookup_cons, map_lookup, Hlast.
  cbn [option_map fmap option_fmap mbind option_bind normalize_any normalize ni_address].
  rewrite get_index_row by done. cbn [mbind option_bind].
  cbn [try_new_loop normalize_any default_normalized ni_address Z.eqb].
  destruct (loop_program lo gs 0 (<[0%nat := Some (0%nat, 0)]> (replicate (row_index (address li) + 1) None)))
    as (idx & Hloop & Hk & _); [done| |].
  - intros i Hi. destruct (program_address lo gs i Hp Hi) as (_ & Hsi & Hevi).
    apply list_elem_of_lookup in Hi as [k Hki].
    assert (Hkl : (k <= length l)%nat).
    { apply Nat.lt_succ_r. rewrite <- Hlen. by eapply lookup_lt_Some. }
    pose proof (program_sorted lo gs k (length l) i li Hp Hki Hlast Hkl) as Hle.
    assert (row_index (address i) <= row_index (address li))%nat.
    { destruct (decide (address i = address li)) as [->|]; [done|].
      pose proof (row_index_lt (address i) (address li) Hsi Hevi Hev). lia. }
    assert (row_index (address i) <> 0%nat).
    { unfold row_index. pose proof (Z.div_pos (address i - RAM_START_ADDRESS) 2 ltac:(lia) ltac:(lia)). lia. }
    rewrite list_lookup_insert_ne by done. apply lookup_replicate_2. lia.
  - rewrite Hloop. eexists. split; [reflexivity|]. intros k i Hi.
    destruct (program_address lo gs i Hp) as (_ & Hsi & Hevi); [by eapply list_elem_of_lookup_2|].
    destruct (Hk k i Hi) as (b & m & H1 & H2 & H3).
    unfold BytecodePCMapper_get_pc. rewrite get_index_row by done. cbn [mbind option_bind indices].
    rewrite H1. cbn [mbind option_bind]. rewrite wrapu_small by done. by rewrite H3.
Qed.

Lemma next_power_of_two_ge n : (n <= next_power_of_two n)%nat.
Proof.
  unfold next_power_of_two. destruct (decide (1 < n)%nat) as [Hn|Hn].
  - by apply Nat.log2_up_spec.
  - pose proof (Nat.pow_nonzero 2 (Nat.log2_up n)). lia.
Qed.

(** The preprocessed program. *)
Lemma preprocess_program lo gs entry : program lo gs -> gs <> [] ->
  exists pre, preprocess (map Real (concat gs)) entry = Some (inr pre) /\ entry_address pre = entry /\
    (forall k i, concat gs !! k = Some i -> bytecode pre !! S k = Some (Real i)) /\
    forall k i, concat gs !! k = Some i -> BytecodePCMapper_get_pc (pc_map pre) (address i) (rest i) = Some (S k).
Proof.
  intros Hp Hne. destruct (try_new_program lo gs Hp Hne) as (m & Hm & Hpc).
  unfold preprocess. rewrite Hm. cbn [mbind option_bind]. eexists. split; [reflexivity|].
  cbn [entry_address bytecode pc_map]. split; [done|]. split; [|done].
  intros k i Hi. set (n := length (NoOp :: map Real (concat gs))).
  pose proof (next_power_of_two_ge n). rewrite take_ge by lia.
  rewrite lookup_app_l by (cbn; rewrite length_map; apply lookup_lt_Some in Hi; lia).
  rewrite lookup_cons, map_lookup, Hi. done.
Qed.

(** C35: the program counter is the row of the bytecode table.  Preprocessing a
    program whose instructions are expanded at increasing addresses succeeds;
    the row after the initial no-op that holds an instruction is the program
    counter of every cycle of that instruction, and no-op cycles are at 0. *)
Theorem bytecode_pc_is_row lo gs entry : program lo gs -> gs <> [] ->
  exists pre, preprocess (map Real (concat gs)) entry = Some (inr pre) /\
    get_pc pre NoOpCycle = Some 0%nat /\
    forall k i c, concat gs !! k = Some i ->
      address (instruction c) = address i -> rest (instruction c) = rest i ->
      get_pc pre (RealCycle c) = Some (S k) /\ bytecode pre !! S k = Some (Real i).
Proof.
  intros Hp Hne. destruct (preprocess_program lo gs entry Hp Hne) as (pre & Hpre & _ & Hrow & Hpc).
  exists pre. split; [done|]. split; [done|]. intros k i c Hi Ha Hr. split; [|by apply Hrow].
  unfold get_pc. cbn [cycle_instruction normalize_any normalize ni_address ni_virtual_sequence_remaining].
  rewrite Ha. fold (rest (instruction c)). rewrite Hr. by apply Hpc.
Qed.

(** the entry row.  [entry_bytecode_index] asks for the row with no
    instruction remaining, which is the last row of the entry instruction's
    expansion; when that instruction expands to more than one row it is not
    the row the execution starts at, the first. *)
Theorem entry_row_is_last lo gs1 g gs2 addr : program lo (gs1 ++ g :: gs2) -> expansion g addr ->
  exists pre, preprocess (map Real (concat (gs1 ++ g :: gs2))) addr = Some (inr pre) /\
    entry_bytecode_index pre = Some (length (concat gs1) + length g)%nat /\
    (forall i c, g !! 0%nat = Some i -> address (instruction c) = address i -> rest (instruction c) = rest i ->
       get_pc pre (RealCycle c) = Some (S (length (concat gs1)))).
Proof.
  intros Hp He. destruct (preprocess_program lo _ addr Hp) as (pre & Hpre & Hent & _ & Hpc); [by destruct gs1|].
  assert (Hrow : forall k i, g !! k = Some i ->
    concat (gs1 ++ g :: gs2) !! (length (concat gs1) + k)%nat = Some i).
  { intros k i Hi. rewrite concat_app, lookup_app_r, Nat.add_comm, Nat.add_sub by lia.
    cbn [concat]. rewrite lookup_app_l by (by eapply lookup_lt_Some). done. }
  exists pre. split; [done|]. split.
  - destruct (exists_last (expansion_nonempty _ _ He)) as (l & i & Hl).
    assert (Hi : g !! length l = Some i) by (by rewrite Hl, list_lookup_middle).
    assert (Hlen : length g = S (length l)) by (rewrite Hl, length_app; cbn; lia).
    destruct (expansion_at _ _ He _ _ Hi) as [Ha Hc]. unfold entry_bytecode_index. rewrite Hent, <- Ha.
    replace 0 with (rest i) by lia. rewrite (Hpc _ _ (Hrow _ _ Hi)). f_equal. lia.
  - intros i c Hi Ha Hr. unfold get_pc.
    cbn [cycle_instruction normalize_any normalize ni_address ni_virtual_sequence_remaining].
    rewrite Ha. fold (rest (instruction c)). rewrite Hr, (Hpc _ _ (Hrow 0%nat i Hi)). f_equal. lia.
Qed.

(** *** A concrete program: a doubleword shift in two rows, then an addition *)
Definition row_at (a : Z) (remaining : option Z) (op : Op) : Instruction :=
  {| address := a; operands := op; virtual_sequence_remaining := remaining;
     is_first_in_sequence := bool_decide (remaining = Some 1); is_compressed := false |}.
Definition example_shift : list Instruction :=
  [row_at 0x80000000 (Some 1) (VirtualPow2 {| I_rd := 40; I_rs1 := 2; I_imm := 0 |});
   row_at 0x80000000 (Some 0) (MUL {| R_rd := 3; R_rs1 := 1; R_rs2 := 40 |})].
Definition example_add : list Instruction :=
  [row_at 0x80000004 None (ADD {| R_rd := 3; R_rs1 := 1; R_rs2 := 2 |})].

Lemma example_shift_expansion : expansion example_shift 0x80000000.
Proof. split; try done. by intros [|[|k]] i; [intros [= <-]..|]. Qed.
Lemma example_program : program 0 [example_shift; example_add].
Proof.
  apply (program_cons 0 example_shift 0x80000000); [exact example_shift_expansion|done|].
  apply (program_cons _ example_add 0x80000004); [|done|constructor].
  split; try done. by intros [|k] i; [intros [= <-]|].
Qed.

Lemma bytecode_pc_is_row_witness :
  exists pre, preprocess (map Real (concat [example_shift; example_add])) 0x80000000 = Some (inr pre) /\
    get_pc pre NoOpCycle = Some 0%nat.
Proof.
  destruct (bytecode_pc_is_row 0 [example_shift; example_add] 0x80000000) as (pre & H & H0 & _).
  - exact example_program.
  - discriminate.
  - exists pre. exact (conj H H0).
Defined.

Lemma entry_row_is_last_witness :
  exists pre, preprocess (map Real (concat ([] ++ example_shift :: [example_add]))) 0x80000000 = Some (inr pre) /\
    entry_bytecode_index pre = Some 2%nat /\
    get_pc pre (RealCycle {| instruction := row_at 0x80000000 (Some 1) (VirtualPow2 {| I_rd := 40; I_rs1 := 2; I_imm := 0 |});
      register_state := {| rs1_value := None; rs2_value := None; rd_values := None |}; ram_access := NoRAM |}) = Some 1%nat.
Proof.
  destruct (entry_row_is_last 0 [] example_shift [example_add] 0x80000000) as (pre & H & He & Hf).
  - exact example_program.
  - exact example_shift_expansion.
  - exists pre. split; [exact H|]. split; [exact He|]. by apply (Hf _ _ eq_refl).
Defined.
