(* ===== verification/LookupQuery.v ===== *)
(** * LookupQuery: what each instruction asks of its lookup table

    Models [jolt-core/src/zkvm/instruction/mod.rs] and the per-instruction
    files next to it: the table an instruction looks up ([InstructionLookup]),
    its circuit and instruction flags ([Flags]), and the inputs, operands,
    index and output of its query ([LookupQuery]).  [XLEN] is the const
    generic; 32 and 64 are supported, any other width panics ([None]) (the
    width 8 exists in test builds only).  A flag array is a function from the
    flags to [bool].  [ECALL], [EBREAK], [FENCE] and [VirtualHostIO] are not
    constructors of [Op]. *)
From S2P Require Import Prelude Bits Field LookupTables Registers AdviceTape Cpu Formats Instr.
From S2P Require Import Assembler Trace.

(** ** Flags *)

Inductive CircuitFlags :=
| AddOperands | SubtractOperands | MultiplyOperands | Load | Store | Jump | WriteLookupOutputToRD
| VirtualInstruction | Assert | DoNotUpdateUnexpandedPC | Advice | IsCompressed | IsFirstInSequence
| IsLastInSequence.

Inductive InstructionFlags :=
| LeftOperandIsPC | RightOperandIsImm | LeftOperandIsRs1Value | RightOperandIsRs2Value | Branch | IsNoop.

#[export] Instance CircuitFlags_eq_dec : EqDecision CircuitFlags.
Proof. solve_decision. Defined.
#[export] Instance InstructionFlags_eq_dec : EqDecision InstructionFlags.
Proof. solve_decision. Defined.

(** The flags set to [true] in order, over those of the struct's fields. *)
Definition circuit_flags_of {F} (set : list CircuitFlags) (self : Struct F) (f : CircuitFlags) : bool :=
  match f with
  | VirtualInstruction => bool_decide (is_Some (virtual_sequence_remaining self))
  | DoNotUpdateUnexpandedPC => negb (default 0 (virtual_sequence_remaining self) =? 0)
  | IsFirstInSequence => is_first_in_sequence self
  | IsCompressed => is_compressed self
  | _ => bool_decide (f ∈ set)
  end.
Definition instruction_flags_of (set : list InstructionFlags) (f : InstructionFlags) : bool :=
  bool_decide (f ∈ set).

(** [InterleavedBitsMarker::is_interleaved_operands] *)
Definition is_interleaved_operands (flags : CircuitFlags -> bool) : bool :=
  negb (flags AddOperands) && negb (flags SubtractOperands) && negb (flags MultiplyOperands)
  && negb (flags Advice).

(** ** The traits *)

(** [match XLEN { 32 => .., 64 => .., _ => panic!() }] *)
Definition by_xlen {A} (XLEN : nat) (a32 a64 : A) : option A :=
  if decide (XLEN = 32)%nat then Some a32 else if decide (XLEN = 64)%nat then Some a64 else None.

(** [register_state.rs1], [register_state.rs2], [register_state.rd.1]. *)
Definition rs1_of (st : RegisterState) : Z := default 0 (rs1_value st).
Definition rs2_of (st : RegisterState) : Z := default 0 (rs2_value st).
Definition rd_post_of (st : RegisterState) : Z := default 0 (snd <$> rd_values st).

(** [InstructionLookup], [Flags] and [LookupQuery] of an instruction struct;
    a query takes the instruction and the register state of its cycle. *)
Record LookupQuery (F : Type) := {
  lookup_table : option LookupTables;
  circuit_flags : Struct F -> CircuitFlags -> bool;
  instruction_flags : InstructionFlags -> bool;
  to_instruction_inputs : nat -> Struct F -> RegisterState -> option (Z * Z);
  to_lookup_operands : nat -> Struct F -> RegisterState -> option (Z * Z);
  to_lookup_index : nat -> Struct F -> RegisterState -> option Z;
  to_lookup_output : nat -> Struct F -> RegisterState -> option Z
}.
Arguments Build_LookupQuery {F}.
Arguments lookup_table {F}.
Arguments circuit_flags {F}.
Arguments instruction_flags {F}.
Arguments to_instruction_inputs {F}.
Arguments to_lookup_operands {F}.
Arguments to_lookup_index {F}.
Arguments to_lookup_output {F}.

Section Defaults.
Context {F : Type} (XLEN : nat) (self : Struct F) (st : RegisterState).
Abbreviation query A := (nat -> Struct F -> RegisterState -> option A).

(** The default methods of the trait. *)
Definition default_lookup_operands (inputs : query (Z * Z)) : option (Z * Z) :=
  '(x, y) ← inputs XLEN self st; Some (x, as_u64 y).
Definition default_lookup_index (operands : query (Z * Z)) : option Z :=
  '(x, y) ← operands XLEN self st; Some (interleave_bits x (as_u64 y)).
(** [to_lookup_operands(self).1] *)
Definition second_operand_index (operands : query (Z * Z)) : option Z :=
  '(_, y) ← operands XLEN self st; Some y.

(** [(0, x as u128 + y as u64 as u128)] and the other combinations. *)
Definition sum_operands (inputs : query (Z * Z)) : option (Z * Z) :=
  '(x, y) ← inputs XLEN self st; Some (0, as_u128 (as_u128 x + as_u64 y)).
Definition difference_operands (inputs : query (Z * Z)) : option (Z * Z) :=
  '(x, y) ← inputs XLEN self st;
  let y := as_u128 (Z.shiftl 1 (Z.of_nat XLEN) - as_u128 y) in Some (0, as_u128 (as_u128 x + y)).
Definition product_operands (inputs : query (Z * Z)) : option (Z * Z) :=
  '(x, y) ← inputs XLEN self st; Some (0, as_u128 (as_u128 x * as_u64 y)).
(** [(0, (x as i128 + y) as u128)] *)
Definition signed_sum_operands (inputs : query (Z * Z)) : option (Z * Z) :=
  '(x, y) ← inputs XLEN self st; Some (0, as_u128 (as_i128 (x + y))).

(** The inputs the instructions share: two registers, or one and [imm]. *)
Definition inputs_rs1_rs2 : option (Z * Z) :=
  by_xlen XLEN (as_u32 (rs1_of st), as_u32 (rs2_of st)) (rs1_of st, rs2_of st).
Definition inputs_rs1_imm (imm : Z) : option (Z * Z) :=
  by_xlen XLEN (as_u32 (rs1_of st), as_u32 imm) (rs1_of st, imm).
Definition inputs_pc_imm (imm : Z) : option (Z * Z) :=
  by_xlen XLEN (as_u32 (address self), as_u32 imm) (address self, imm).
Definition inputs_imm (imm : Z) : option (Z * Z) := by_xlen XLEN (0, as_u32 imm) (0, imm).
Definition inputs_rs1 : option (Z * Z) := by_xlen XLEN (as_u32 (rs1_of st), 0) (rs1_of st, 0).

(** [to_lookup_output] from the inputs, at each width. *)
Definition output_of (inputs : query (Z * Z)) (o32 o64 : Z -> Z -> Z) : option Z :=
  '(x, y) ← inputs XLEN self st; by_xlen XLEN (o32 x y) (o64 x y).
End Defaults.

(** ** Queries *)

(** *** Arithmetic *)

Definition ADD_inputs (XLEN : nat) (self : Struct FormatR) (st : RegisterState) : option (Z * Z) :=
  inputs_rs1_rs2 XLEN st.
Definition ADD_lookup : LookupQuery FormatR :=
  let lookup_operands := fun n self st => sum_operands n self st ADD_inputs in
  {| lookup_table := Some RangeCheck;
     circuit_flags := circuit_flags_of [AddOperands; WriteLookupOutputToRD];
     instruction_flags := instruction_flags_of [LeftOperandIsRs1Value; RightOperandIsRs2Value];
     to_instruction_inputs := ADD_inputs;
     to_lookup_operands := lookup_operands;
     to_lookup_index := fun n self st => second_operand_index n self st lookup_operands;
     to_lookup_output := fun n self st => output_of n self st ADD_inputs
       (fun x y => as_u32 (as_u32 x + as_u32 y))
       (fun x y => as_u64 (x + as_u64 y)) |}.

Definition ADDI_inputs (XLEN : nat) (self : Struct FormatI) (st : RegisterState) : option (Z * Z) :=
  inputs_rs1_imm XLEN st (I_imm (operands self)).
Definition ADDI_lookup : LookupQuery FormatI :=
  let lookup_operands := fun n self st => sum_operands n self st ADDI_inputs in
  {| lookup_table := Some RangeCheck;
     circuit_flags := circuit_flags_of [AddOperands; WriteLookupOutputToRD];
     instruction_flags := instruction_flags_of [LeftOperandIsRs1Value; RightOperandIsImm];
     to_instruction_inputs := ADDI_inputs;
     to_lookup_operands := lookup_operands;
     to_lookup_index := fun n self st => second_operand_index n self st lookup_operands;
     to_lookup_output := fun n self st => output_of n self st ADDI_inputs
       (fun x y => as_u32 (as_u32 x + as_u32 y))
       (fun x y => as_u64 (x + as_u64 y)) |}.

Definition SUB_inputs (XLEN : nat) (self : Struct FormatR) (st : RegisterState) : option (Z * Z) :=
  inputs_rs1_rs2 XLEN st.
Definition SUB_lookup : LookupQuery FormatR :=
  let lookup_operands := fun n self st => difference_operands n self st SUB_inputs in
  {| lookup_table := Some RangeCheck;
     circuit_flags := circuit_flags_of [SubtractOperands; WriteLookupOutputToRD];
     instruction_flags := instruction_flags_of [LeftOperandIsRs1Value; RightOperandIsRs2Value];
     to_instruction_inputs := SUB_inputs;
     to_lookup_operands := lookup_operands;
     to_lookup_index := fun n self st => second_operand_index n self st lookup_operands;
     to_lookup_output := fun n self st => output_of n self st SUB_inputs
       (fun x y => as_u32 (as_u32 x - as_u32 y))
       (fun x y => as_u64 (x - as_u64 y)) |}.

Definition MUL_inputs (XLEN : nat) (self : Struct FormatR) (st : RegisterState) : option (Z * Z) :=
  inputs_rs1_rs2 XLEN st.
Definition MUL_lookup : LookupQuery FormatR :=
  let lookup_operands := fun n self st => product_operands n self st MUL_inputs in
  {| lookup_table := Some RangeCheck;
     circuit_flags := circuit_flags_of [MultiplyOperands; WriteLookupOutputToRD];
     instruction_flags := instruction_flags_of [LeftOperandIsRs1Value; RightOperandIsRs2Value];
     to_instruction_inputs := MUL_inputs;
     to_lookup_operands := lookup_operands;
     to_lookup_index := fun n self st => second_operand_index n self st lookup_operands;
     to_lookup_output := fun n self st => output_of n self st MUL_inputs
       (fun x y => as_u32 (as_i32 (as_i32 x * as_i32 y)))
       (fun x y => as_u64 (as_i64 (as_i64 x * as_i64 y))) |}.

Definition VirtualMULI_inputs (XLEN : nat) (self : Struct FormatI) (st : RegisterState) : option (Z * Z) :=
  inputs_rs1_imm XLEN st (I_imm (operands self)).
Definition VirtualMULI_lookup : LookupQuery FormatI :=
  let lookup_operands := fun n self st => product_operands n self st VirtualMULI_inputs in
  {| lookup_table := Some RangeCheck;
     circuit_flags := circuit_flags_of [MultiplyOperands; WriteLookupOutputToRD];
     instruction_flags := instruction_flags_of [LeftOperandIsRs1Value; RightOperandIsImm];
     to_instruction_inputs := VirtualMULI_inputs;
     to_lookup_operands := lookup_operands;
     to_lookup_index := fun n self st => second_operand_index n self st lookup_operands;
     to_lookup_output := fun n self st => output_of n self st VirtualMULI_inputs
       (fun x y => as_u32 (as_i32 (as_i32 x * as_i32 y)))
       (fun x y => as_u64 (as_i64 (as_i64 x * as_i64 y))) |}.

Definition MULHU_inputs (XLEN : nat) (self : Struct FormatR) (st : RegisterState) : option (Z * Z) :=
  inputs_rs1_rs2 XLEN st.
Definition MULHU_lookup : LookupQuery FormatR :=
  let lookup_operands := fun n self st => product_operands n self st MULHU_inputs in
  {| lookup_table := Some UpperWord;
     circuit_flags := circuit_flags_of [MultiplyOperands; WriteLookupOutputToRD];
     instruction_flags := instruction_flags_of [LeftOperandIsRs1Value; RightOperandIsRs2Value];
     to_instruction_inputs := MULHU_inputs;
     to_lookup_operands := lookup_operands;
     to_lookup_index := fun n self st => second_operand_index n self st lookup_operands;
     to_lookup_output := fun n self st => output_of n self st MULHU_inputs
       (fun x y => Z.shiftr (as_u64 (x * as_u64 y)) 32)
       (fun x y => as_u64 (Z.shiftr (as_u128 (as_u128 x * as_u64 y)) 64)) |}.

Definition LUI_inputs (XLEN : nat) (self : Struct FormatU) (st : RegisterState) : option (Z * Z) :=
  inputs_imm XLEN (U_imm (operands self)).
Definition LUI_lookup : LookupQuery FormatU :=
  let lookup_operands := fun n self st => default_lookup_operands n self st LUI_inputs in
  {| lookup_table := Some RangeCheck;
     circuit_flags := circuit_flags_of [AddOperands; WriteLookupOutputToRD];
     instruction_flags := instruction_flags_of [RightOperandIsImm];
     to_instruction_inputs := LUI_inputs;
     to_lookup_operands := lookup_operands;
     to_lookup_index := fun n self st => second_operand_index n self st lookup_operands;
     to_lookup_output := fun n self st => by_xlen n (as_u32 (U_imm (operands self))) (U_imm (operands self)) |}.

Definition AUIPC_inputs (XLEN : nat) (self : Struct FormatU) (st : RegisterState) : option (Z * Z) :=
  inputs_pc_imm XLEN self (U_imm (operands self)).
Definition AUIPC_lookup : LookupQuery FormatU :=
  let lookup_operands := fun n self st => signed_sum_operands n self st AUIPC_inputs in
  {| lookup_table := Some RangeCheck;
     circuit_flags := circuit_flags_of [AddOperands; WriteLookupOutputToRD];
     instruction_flags := instruction_flags_of [LeftOperandIsPC; RightOperandIsImm];
     to_instruction_inputs := AUIPC_inputs;
     to_lookup_operands := lookup_operands;
     to_lookup_index := fun n self st => second_operand_index n self st lookup_operands;
     to_lookup_output := fun n self st => output_of n self st AUIPC_inputs
       (fun x y => as_u32 (as_i32 (as_i32 x + as_i32 y)))
       (fun x y => as_u64 (as_i64 (as_i64 x + as_i64 y))) |}.

(** *** Logic *)

Definition AND_inputs (XLEN : nat) (self : Struct FormatR) (st : RegisterState) : option (Z * Z) :=
  inputs_rs1_rs2 XLEN st.
Definition AND_lookup : LookupQuery FormatR :=
  let lookup_operands := fun n self st => default_lookup_operands n self st AND_inputs in
  {| lookup_table := Some And;
     circuit_flags := circuit_flags_of [WriteLookupOutputToRD];
     instruction_flags := instruction_flags_of [LeftOperandIsRs1Value; RightOperandIsRs2Value];
     to_instruction_inputs := AND_inputs;
     to_lookup_operands := lookup_operands;
     to_lookup_index := fun n self st => default_lookup_index n self st lookup_operands;
     to_lookup_output := fun n self st => output_of n self st AND_inputs
       (fun x y => Z.land (as_u32 x) (as_u32 y))
       (fun x y => Z.land x (as_u64 y)) |}.

Definition ANDI_inputs (XLEN : nat) (self : Struct FormatI) (st : RegisterState) : option (Z * Z) :=
  inputs_rs1_imm XLEN st (I_imm (operands self)).
Definition ANDI_lookup : LookupQuery FormatI :=
  let lookup_operands := fun n self st => default_lookup_operands n self st ANDI_inputs in
  {| lookup_table := Some And;
     circuit_flags := circuit_flags_of [WriteLookupOutputToRD];
     instruction_flags := instruction_flags_of [LeftOperandIsRs1Value; RightOperandIsImm];
     to_instruction_inputs := ANDI_inputs;
     to_lookup_operands := lookup_operands;
     to_lookup_index := fun n self st => default_lookup_index n self st lookup_operands;
     to_lookup_output := fun n self st => output_of n self st ANDI_inputs
       (fun x y => Z.land (as_u32 x) (as_u32 y))
       (fun x y => Z.land x (as_u64 y)) |}.

Definition OR_inputs (XLEN : nat) (self : Struct FormatR) (st : RegisterState) : option (Z * Z) :=
  inputs_rs1_rs2 XLEN st.
Definition OR_lookup : LookupQuery FormatR :=
  let lookup_operands := fun n self st => default_lookup_operands n self st OR_inputs in
  {| lookup_table := Some Or;
     circuit_flags := circuit_flags_of [WriteLookupOutputToRD];
     instruction_flags := instruction_flags_of [LeftOperandIsRs1Value; RightOperandIsRs2Value];
     to_instruction_inputs := OR_inputs;
     to_lookup_operands := lookup_operands;
     to_lookup_index := fun n self st => default_lookup_index n self st lookup_operands;
     to_lookup_output := fun n self st => output_of n self st OR_inputs
       (fun x y => Z.lor (as_u32 x) (as_u32 y))
       (fun x y => Z.lor x (as_u64 y)) |}.

Definition ORI_inputs (XLEN : nat) (self : Struct FormatI) (st : RegisterState) : option (Z * Z) :=
  inputs_rs1_imm XLEN st (I_imm (operands self)).
Definition ORI_lookup : LookupQuery FormatI :=
  let lookup_operands := fun n self st => default_lookup_operands n self st ORI_inputs in
  {| lookup_table := Some Or;
     circuit_flags := circuit_flags_of [WriteLookupOutputToRD];
     instruction_flags := instruction_flags_of [LeftOperandIsRs1Value; RightOperandIsImm];
     to_instruction_inputs := ORI_inputs;
     to_lookup_operands := lookup_operands;
     to_lookup_index := fun n self st => default_lookup_index n self st lookup_operands;
     to_lookup_output := fun n self st => output_of n self st ORI_inputs
       (fun x y => Z.lor (as_u32 x) (as_u32 y))
       (fun x y => Z.lor x (as_u64 y)) |}.

Definition XOR_inputs (XLEN : nat) (self : Struct FormatR) (st : RegisterState) : option (Z * Z) :=
  inputs_rs1_rs2 XLEN st.
Definition XOR_lookup : LookupQuery FormatR :=
  let lookup_operands := fun n self st => default_lookup_operands n self st XOR_inputs in
  {| lookup_table := Some Xor;
     circuit_flags := circuit_flags_of [WriteLookupOutputToRD];
     instruction_flags := instruction_flags_of [LeftOperandIsRs1Value; RightOperandIsRs2Value];
     to_instruction_inputs := XOR_inputs;
     to_lookup_operands := lookup_operands;
     to_lookup_index := fun n self st => default_lookup_index n self st lookup_operands;
     to_lookup_output := fun n self st => output_of n self st XOR_inputs
       (fun x y => Z.lxor (as_u32 x) (as_u32 y))
       (fun x y => Z.lxor x (as_u64 y)) |}.

Definition XORI_inputs (XLEN : nat) (self : Struct FormatI) (st : RegisterState) : option (Z * Z) :=
  inputs_rs1_imm XLEN st (I_imm (operands self)).
Definition XORI_lookup : LookupQuery FormatI :=
  let lookup_operands := fun n self st => default_lookup_operands n self st XORI_inputs in
  {| lookup_table := Some Xor;
     circuit_flags := circuit_flags_of [WriteLookupOutputToRD];
     instruction_flags := instruction_flags_of [LeftOperandIsRs1Value; RightOperandIsImm];
     to_instruction_inputs := XORI_inputs;
     to_lookup_operands := lookup_operands;
     to_lookup_index := fun n self st => default_lookup_index n self st lookup_operands;
     to_lookup_output := fun n self st => output_of n self st XORI_inputs
       (fun x y => Z.lxor (as_u32 x) (as_u32 y))
       (fun x y => Z.lxor x (as_u64 y)) |}.

Definition ANDN_inputs (XLEN : nat) (self : Struct FormatR) (st : RegisterState) : option (Z * Z) :=
  inputs_rs1_rs2 XLEN st.
Definition ANDN_lookup : LookupQuery FormatR :=
  let lookup_operands := fun n self st => default_lookup_operands n self st ANDN_inputs in
  {| lookup_table := Some Andn;
     circuit_flags := circuit_flags_of [WriteLookupOutputToRD];
     instruction_flags := instruction_flags_of [LeftOperandIsRs1Value; RightOperandIsRs2Value];
     to_instruction_inputs := ANDN_inputs;
     to_lookup_operands := lookup_operands;
     to_lookup_index := fun n self st => default_lookup_index n self st lookup_operands;
     to_lookup_output := fun n self st => output_of n self st ANDN_inputs
       (fun x y => Z.land (as_u32 x) (as_u32 (Z.lnot (as_u32 y))))
       (fun x y => Z.land x (not_u64 (as_u64 y))) |}.

(** *** Comparisons and branches *)

Definition SLT_inputs (XLEN : nat) (self : Struct FormatR) (st : RegisterState) : option (Z * Z) :=
  inputs_rs1_rs2 XLEN st.
Definition SLT_lookup : LookupQuery FormatR :=
  let lookup_operands := fun n self st => default_lookup_operands n self st SLT_inputs in
  {| lookup_table := Some SignedLessThan;
     circuit_flags := circuit_flags_of [WriteLookupOutputToRD];
     instruction_flags := instruction_flags_of [LeftOperandIsRs1Value; RightOperandIsRs2Value];
     to_instruction_inputs := SLT_inputs;
     to_lookup_operands := lookup_operands;
     to_lookup_index := fun n self st => default_lookup_index n self st lookup_operands;
     to_lookup_output := fun n self st => output_of n self st SLT_inputs
       (fun x y => b2z (as_i32 x <? as_i32 y))
       (fun x y => b2z (as_i64 x <? as_i64 y)) |}.

Definition SLTI_inputs (XLEN : nat) (self : Struct FormatI) (st : RegisterState) : option (Z * Z) :=
  inputs_rs1_imm XLEN st (I_imm (operands self)).
Definition SLTI_lookup : LookupQuery FormatI :=
  let lookup_operands := fun n self st => default_lookup_operands n self st SLTI_inputs in
  {| lookup_table := Some SignedLessThan;
     circuit_flags := circuit_flags_of [WriteLookupOutputToRD];
     instruction_flags := instruction_flags_of [LeftOperandIsRs1Value; RightOperandIsImm];
     to_instruction_inputs := SLTI_inputs;
     to_lookup_operands := lookup_operands;
     to_lookup_index := fun n self st => default_lookup_index n self st lookup_operands;
     to_lookup_output := fun n self st => output_of n self st SLTI_inputs
       (fun x y => b2z (as_i32 x <? as_i32 y))
       (fun x y => b2z (as_i64 x <? as_i64 y)) |}.

Definition SLTU_inputs (XLEN : nat) (self : Struct FormatR) (st : RegisterState) : option (Z * Z) :=
  inputs_rs1_rs2 XLEN st.
Definition SLTU_lookup : LookupQuery FormatR :=
  let lookup_operands := fun n self st => default_lookup_operands n self st SLTU_inputs in
  {| lookup_table := Some UnsignedLessThan;
     circuit_flags := circuit_flags_of [WriteLookupOutputToRD];
     instruction_flags := instruction_flags_of [LeftOperandIsRs1Value; RightOperandIsRs2Value];
     to_instruction_inputs := SLTU_inputs;
     to_lookup_operands := lookup_operands;
     to_lookup_index := fun n self st => default_lookup_index n self st lookup_operands;
     to_lookup_output := fun n self st => output_of n self st SLTU_inputs
       (fun x y => b2z (as_u32 x <? as_u32 y))
       (fun x y => b2z (x <? as_u64 y)) |}.

Definition SLTIU_inputs (XLEN : nat) (self : Struct FormatI) (st : RegisterState) : option (Z * Z) :=
  inputs_rs1_imm XLEN st (I_imm (operands self)).
Definition SLTIU_lookup : LookupQuery FormatI :=
  let lookup_operands := fun n self st => default_lookup_operands n self st SLTIU_inputs in
  {| lookup_table := Some UnsignedLessThan;
     circuit_flags := circuit_flags_of [WriteLookupOutputToRD];
     instruction_flags := instruction_flags_of [LeftOperandIsRs1Value; RightOperandIsImm];
     to_instruction_inputs := SLTIU_inputs;
     to_lookup_operands := lookup_operands;
     to_lookup_index := fun n self st => default_lookup_index n self st lookup_operands;
     to_lookup_output := fun n self st => output_of n self st SLTIU_inputs
       (fun x y => b2z (as_u32 x <? as_u32 y))
       (fun x y => b2z (x <? as_u64 y)) |}.

Definition BEQ_inputs (XLEN : nat) (self : Struct FormatB) (st : RegisterState) : option (Z * Z) :=
  inputs_rs1_rs2 XLEN st.
Definition BEQ_lookup : LookupQuery FormatB :=
  let lookup_operands := fun n self st => default_lookup_operands n self st BEQ_inputs in
  {| lookup_table := Some Equal;
     circuit_flags := circuit_flags_of [];
     instruction_flags := instruction_flags_of [LeftOperandIsRs1Value; RightOperandIsRs2Value; Branch];
     to_instruction_inputs := BEQ_inputs;
     to_lookup_operands := lookup_operands;
     to_lookup_index := fun n self st => default_lookup_index n self st lookup_operands;
     to_lookup_output := fun n self st => '(x, y) ← BEQ_inputs n self st; Some (b2z (x =? as_u64 y)) |}.

Definition BNE_inputs (XLEN : nat) (self : Struct FormatB) (st : RegisterState) : option (Z * Z) :=
  inputs_rs1_rs2 XLEN st.
Definition BNE_lookup : LookupQuery FormatB :=
  let lookup_operands := fun n self st => default_lookup_operands n self st BNE_inputs in
  {| lookup_table := Some NotEqual;
     circuit_flags := circuit_flags_of [];
     instruction_flags := instruction_flags_of [LeftOperandIsRs1Value; RightOperandIsRs2Value; Branch];
     to_instruction_inputs := BNE_inputs;
     to_lookup_operands := lookup_operands;
     to_lookup_index := fun n self st => default_lookup_index n self st lookup_operands;
     to_lookup_output := fun n self st => '(x, y) ← BNE_inputs n self st; Some (b2z (negb (x =? as_u64 y))) |}.

Definition BLT_inputs (XLEN : nat) (self : Struct FormatB) (st : RegisterState) : option (Z * Z) :=
  inputs_rs1_rs2 XLEN st.
Definition BLT_lookup : LookupQuery FormatB :=
  let lookup_operands := fun n self st => default_lookup_operands n self st BLT_inputs in
  {| lookup_table := Some SignedLessThan;
     circuit_flags := circuit_flags_of [];
     instruction_flags := instruction_flags_of [LeftOperandIsRs1Value; RightOperandIsRs2Value; Branch];
     to_instruction_inputs := BLT_inputs;
     to_lookup_operands := lookup_operands;
     to_lookup_index := fun n self st => default_lookup_index n self st lookup_operands;
     to_lookup_output := fun n self st => output_of n self st BLT_inputs
       (fun x y => b2z (as_i32 x <? as_i32 y))
       (fun x y => b2z (as_i64 x <? as_i64 y)) |}.

Definition BGE_inputs (XLEN : nat) (self : Struct FormatB) (st : RegisterState) : option (Z * Z) :=
  inputs_rs1_rs2 XLEN st.
Definition BGE_lookup : LookupQuery FormatB :=
  let lookup_operands := fun n self st => default_lookup_operands n self st BGE_inputs in
  {| lookup_table := Some SignedGreaterThanEqual;
     circuit_flags := circuit_flags_of [];
     instruction_flags := instruction_flags_of [LeftOperandIsRs1Value; RightOperandIsRs2Value; Branch];
     to_instruction_inputs := BGE_inputs;
     to_lookup_operands := lookup_operands;
     to_lookup_index := fun n self st => default_lookup_index n self st lookup_operands;
     to_lookup_output := fun n self st => output_of n self st BGE_inputs
       (fun x y => b2z (as_i32 y <=? as_i32 x))
       (fun x y => b2z (as_i64 y <=? as_i64 x)) |}.

Definition BLTU_inputs (XLEN : nat) (self : Struct FormatB) (st : RegisterState) : option (Z * Z) :=
  inputs_rs1_rs2 XLEN st.
Definition BLTU_lookup : LookupQuery FormatB :=
  let lookup_operands := fun n self st => default_lookup_operands n self st BLTU_inputs in
  {| lookup_table := Some UnsignedLessThan;
     circuit_flags := circuit_flags_of [];
     instruction_flags := instruction_flags_of [LeftOperandIsRs1Value; RightOperandIsRs2Value; Branch];
     to_instruction_inputs := BLTU_inputs;
     to_lookup_operands := lookup_operands;
     to_lookup_index := fun n self st => default_lookup_index n self st lookup_operands;
     to_lookup_output := fun n self st => output_of n self st BLTU_inputs
       (fun x y => b2z (as_u32 x <? as_u32 y))
       (fun x y => b2z (x <? as_u64 y)) |}.

Definition BGEU_inputs (XLEN : nat) (self : Struct FormatB) (st : RegisterState) : option (Z * Z) :=
  inputs_rs1_rs2 XLEN st.
Definition BGEU_lookup : LookupQuery FormatB :=
  let lookup_operands := fun n self st => default_lookup_operands n self st BGEU_inputs in
  {| lookup_table := Some UnsignedGreaterThanEqual;
     circuit_flags := circuit_flags_of [];
     instruction_flags := instruction_flags_of [LeftOperandIsRs1Value; RightOperandIsRs2Value; Branch];
     to_instruction_inputs := BGEU_inputs;
     to_lookup_operands := lookup_operands;
     to_lookup_index := fun n self st => default_lookup_index n self st lookup_operands;
     to_lookup_output := fun n self st => '(x, y) ← BGEU_inputs n self st; Some (b2z (as_u64 y <=? x)) |}.

(** *** Jumps *)

Definition JAL_inputs (XLEN : nat) (self : Struct FormatJ) (st : RegisterState) : option (Z * Z) :=
  inputs_pc_imm XLEN self (J_imm (operands self)).
Definition JAL_lookup : LookupQuery FormatJ :=
  let lookup_operands := fun n self st => signed_sum_operands n self st JAL_inputs in
  {| lookup_table := Some RangeCheck;
     circuit_flags := circuit_flags_of [AddOperands; Jump];
     instruction_flags := instruction_flags_of [LeftOperandIsPC; RightOperandIsImm];
     to_instruction_inputs := JAL_inputs;
     to_lookup_operands := lookup_operands;
     to_lookup_index := fun n self st => second_operand_index n self st lookup_operands;
     to_lookup_output := fun n self st => output_of n self st JAL_inputs
       (fun x y => as_u32 (as_i32 (as_i32 x + as_i32 y)))
       (fun x y => as_u64 (as_i64 (as_i64 x + as_i64 y))) |}.

Definition JALR_inputs (XLEN : nat) (self : Struct FormatI) (st : RegisterState) : option (Z * Z) :=
  inputs_rs1_imm XLEN st (I_imm (operands self)).
Definition JALR_lookup : LookupQuery FormatI :=
  let lookup_operands := fun n self st => signed_sum_operands n self st JALR_inputs in
  {| lookup_table := Some RangeCheckAligned;
     circuit_flags := fun self f =>
       match f with
       | IsLastInSequence => bool_decide (virtual_sequence_remaining self = Some 0)
       | _ => circuit_flags_of [Jump; AddOperands] self f
       end;
     instruction_flags := instruction_flags_of [LeftOperandIsRs1Value; RightOperandIsImm];
     to_instruction_inputs := JALR_inputs;
     to_lookup_operands := lookup_operands;
     to_lookup_index := fun n self st => second_operand_index n self st lookup_operands;
     to_lookup_output := fun n self st => output_of n self st JALR_inputs
       (fun x y => Z.land (as_u32 (as_i32 (as_i32 x + as_i32 y))) (not_u64 1))
       (fun x y => Z.land (as_u64 (as_i64 (as_i64 x + as_i64 y))) (not_u64 1)) |}.

(** *** Advice: the value comes with the instruction or the tape *)

Definition VirtualAdvice_inputs (XLEN : nat) (self : Struct (FormatJ * Z)) (st : RegisterState) : option (Z * Z) :=
  Some (0, 0).
Definition VirtualAdvice_lookup : LookupQuery (FormatJ * Z) :=
  let lookup_operands := fun n self st => by_xlen n (0, as_u32 (snd (operands self))) (0, snd (operands self)) in
  {| lookup_table := Some RangeCheck;
     circuit_flags := circuit_flags_of [Advice; WriteLookupOutputToRD];
     instruction_flags := instruction_flags_of [];
     to_instruction_inputs := VirtualAdvice_inputs;
     to_lookup_operands := lookup_operands;
     to_lookup_index := fun n self st => second_operand_index n self st lookup_operands;
     to_lookup_output := fun n self st => by_xlen n (as_u32 (snd (operands self))) (snd (operands self)) |}.

Definition VirtualAdviceLen_inputs (XLEN : nat) (self : Struct FormatI) (st : RegisterState) : option (Z * Z) :=
  Some (0, 0).
Definition VirtualAdviceLen_lookup : LookupQuery FormatI :=
  let lookup_operands := fun n self st => by_xlen n (0, as_u32 (rd_post_of st)) (0, rd_post_of st) in
  {| lookup_table := Some RangeCheck;
     circuit_flags := circuit_flags_of [Advice; WriteLookupOutputToRD];
     instruction_flags := instruction_flags_of [];
     to_instruction_inputs := VirtualAdviceLen_inputs;
     to_lookup_operands := lookup_operands;
     to_lookup_index := fun n self st => second_operand_index n self st lookup_operands;
     to_lookup_output := fun n self st => by_xlen n (as_u32 (rd_post_of st)) (rd_post_of st) |}.

Definition VirtualAdviceLoad_inputs (XLEN : nat) (self : Struct FormatJ) (st : RegisterState) : option (Z * Z) :=
  Some (0, 0).
Definition VirtualAdviceLoad_lookup : LookupQuery FormatJ :=
  let lookup_operands := fun n self st => by_xlen n (0, as_u32 (rd_post_of st)) (0, rd_post_of st) in
  {| lookup_table := Some RangeCheck;
     circuit_flags := circuit_flags_of [Advice; WriteLookupOutputToRD];
     instruction_flags := instruction_flags_of [];
     to_instruction_inputs := VirtualAdviceLoad_inputs;
     to_lookup_operands := lookup_operands;
     to_lookup_index := fun n self st => second_operand_index n self st lookup_operands;
     to_lookup_output := fun n self st => by_xlen n (as_u32 (rd_post_of st)) (rd_post_of st) |}.

(** *** Assertions *)

Definition VirtualAssertEQ_inputs (XLEN : nat) (self : Struct FormatB) (st : RegisterState) : option (Z * Z) :=
  inputs_rs1_rs2 XLEN st.
Definition VirtualAssertEQ_lookup : LookupQuery FormatB :=
  let lookup_operands := fun n self st => default_lookup_operands n self st VirtualAssertEQ_inputs in
  {| lookup_table := Some Equal;
     circuit_flags := circuit_flags_of [Assert];
     instruction_flags := instruction_flags_of [LeftOperandIsRs1Value; RightOperandIsRs2Value];
     to_instruction_inputs := VirtualAssertEQ_inputs;
     to_lookup_operands := lookup_operands;
     to_lookup_index := fun n self st => default_lookup_index n self st lookup_operands;
     to_lookup_output := fun n self st => '(x, y) ← VirtualAssertEQ_inputs n self st; Some (b2z (x =? as_u64 y)) |}.

Definition VirtualAssertLTE_inputs (XLEN : nat) (self : Struct FormatB) (st : RegisterState) : option (Z * Z) :=
  inputs_rs1_rs2 XLEN st.
Definition VirtualAssertLTE_lookup : LookupQuery FormatB :=
  let lookup_operands := fun n self st => default_lookup_operands n self st VirtualAssertLTE_inputs in
  {| lookup_table := Some LessThanEqual;
     circuit_flags := circuit_flags_of [Assert];
     instruction_flags := instruction_flags_of [LeftOperandIsRs1Value; RightOperandIsRs2Value];
     to_instruction_inputs := VirtualAssertLTE_inputs;
     to_lookup_operands := lookup_operands;
     to_lookup_index := fun n self st => default_lookup_index n self st lookup_operands;
     to_lookup_output := fun n self st => '(x, y) ← VirtualAssertLTE_inputs n self st; Some (b2z (x <=? as_u64 y)) |}.

Definition VirtualAssertHalfwordAlignment_inputs (XLEN : nat) (self : Struct FormatAssert) (st : RegisterState) : option (Z * Z) :=
  inputs_rs1_imm XLEN st (A_imm (operands self)).
Definition VirtualAssertHalfwordAlignment_lookup : LookupQuery FormatAssert :=
  let lookup_operands := fun n self st => signed_sum_operands n self st VirtualAssertHalfwordAlignment_inputs in
  {| lookup_table := Some HalfwordAlignment;
     circuit_flags := circuit_flags_of [Assert; AddOperands];
     instruction_flags := instruction_flags_of [LeftOperandIsRs1Value; RightOperandIsImm];
     to_instruction_inputs := VirtualAssertHalfwordAlignment_inputs;
     to_lookup_operands := lookup_operands;
     to_lookup_index := fun n self st => second_operand_index n self st lookup_operands;
     to_lookup_output := fun n self st =>
       i ← second_operand_index n self st lookup_operands; Some (b2z (i mod 2 =? 0)) |}.

Definition VirtualAssertWordAlignment_inputs (XLEN : nat) (self : Struct FormatAssert) (st : RegisterState) : option (Z * Z) :=
  inputs_rs1_imm XLEN st (A_imm (operands self)).
Definition VirtualAssertWordAlignment_lookup : LookupQuery FormatAssert :=
  let lookup_operands := fun n self st => signed_sum_operands n self st VirtualAssertWordAlignment_inputs in
  {| lookup_table := Some WordAlignment;
     circuit_flags := circuit_flags_of [Assert; AddOperands];
     instruction_flags := instruction_flags_of [LeftOperandIsRs1Value; RightOperandIsImm];
     to_instruction_inputs := VirtualAssertWordAlignment_inputs;
     to_lookup_operands := lookup_operands;
     to_lookup_index := fun n self st => second_operand_index n self st lookup_operands;
     to_lookup_output := fun n self st =>
       i ← second_operand_index n self st lookup_operands; Some (b2z (i mod 4 =? 0)) |}.

Definition VirtualAssertMulUNoOverflow_inputs (XLEN : nat) (self : Struct FormatB) (st : RegisterState) : option (Z * Z) :=
  inputs_rs1_rs2 XLEN st.
Definition VirtualAssertMulUNoOverflow_lookup : LookupQuery FormatB :=
  let lookup_operands := fun n self st => product_operands n self st VirtualAssertMulUNoOverflow_inputs in
  {| lookup_table := Some MulUNoOverflow;
     circuit_flags := circuit_flags_of [MultiplyOperands; Assert];
     instruction_flags := instruction_flags_of [LeftOperandIsRs1Value; RightOperandIsRs2Value];
     to_instruction_inputs := VirtualAssertMulUNoOverflow_inputs;
     to_lookup_operands := lookup_operands;
     to_lookup_index := fun n self st => second_operand_index n self st lookup_operands;
     to_lookup_output := fun n self st => output_of n self st VirtualAssertMulUNoOverflow_inputs
       (fun x y => b2z (as_u128 (as_u128 x * as_u64 y) <=? u32_MAX))
       (fun x y => b2z (as_u128 (as_u128 x * as_u64 y) <=? u64_MAX)) |}.

Definition VirtualAssertValidDiv0_inputs (XLEN : nat) (self : Struct FormatB) (st : RegisterState) : option (Z * Z) :=
  inputs_rs1_rs2 XLEN st.
Definition VirtualAssertValidDiv0_lookup : LookupQuery FormatB :=
  let lookup_operands := fun n self st => default_lookup_operands n self st VirtualAssertValidDiv0_inputs in
  {| lookup_table := Some ValidDiv0;
     circuit_flags := circuit_flags_of [Assert];
     instruction_flags := instruction_flags_of [LeftOperandIsRs1Value; RightOperandIsRs2Value];
     to_instruction_inputs := VirtualAssertValidDiv0_inputs;
     to_lookup_operands := lookup_operands;
     to_lookup_index := fun n self st => default_lookup_index n self st lookup_operands;
     to_lookup_output := fun n self st =>
       '(divisor, quotient) ← VirtualAssertValidDiv0_inputs n self st;
       if divisor =? 0 then by_xlen n (b2z (as_u64 quotient =? u32_MAX)) (b2z (as_u64 quotient =? u64_MAX))
       else Some 1 |}.

Definition VirtualAssertValidUnsignedRemainder_inputs (XLEN : nat) (self : Struct FormatB) (st : RegisterState) : option (Z * Z) :=
  inputs_rs1_rs2 XLEN st.
Definition VirtualAssertValidUnsignedRemainder_lookup : LookupQuery FormatB :=
  let lookup_operands := fun n self st => default_lookup_operands n self st VirtualAssertValidUnsignedRemainder_inputs in
  {| lookup_table := Some ValidUnsignedRemainder;
     circuit_flags := circuit_flags_of [Assert];
     instruction_flags := instruction_flags_of [LeftOperandIsRs1Value; RightOperandIsRs2Value];
     to_instruction_inputs := VirtualAssertValidUnsignedRemainder_inputs;
     to_lookup_operands := lookup_operands;
     to_lookup_index := fun n self st => default_lookup_index n self st lookup_operands;
     to_lookup_output := fun n self st =>
       '(remainder, divisor) ← VirtualAssertValidUnsignedRemainder_inputs n self st;
       Some (b2z ((divisor =? 0) || (remainder <? as_u64 divisor))) |}.

(** *** Division helpers *)

Definition VirtualChangeDivisor_inputs (XLEN : nat) (self : Struct FormatR) (st : RegisterState) : option (Z * Z) :=
  inputs_rs1_rs2 XLEN st.
Definition VirtualChangeDivisor_lookup : LookupQuery FormatR :=
  let lookup_operands := fun n self st => default_lookup_operands n self st VirtualChangeDivisor_inputs in
  {| lookup_table := Some LookupTables.VirtualChangeDivisor;
     circuit_flags := circuit_flags_of [WriteLookupOutputToRD];
     instruction_flags := instruction_flags_of [LeftOperandIsRs1Value; RightOperandIsRs2Value];
     to_instruction_inputs := VirtualChangeDivisor_inputs;
     to_lookup_operands := lookup_operands;
     to_lookup_index := fun n self st => default_lookup_index n self st lookup_operands;
     to_lookup_output := fun n self st => output_of n self st VirtualChangeDivisor_inputs
       (fun x y => if (as_i32 x =? - 2 ^ 31) && (as_i32 y =? -1) then 1 else as_u32 (as_i32 y))
       (fun x y => if (as_i64 x =? - 2 ^ 63) && (as_i64 y =? -1) then 1 else as_u64 (as_i64 y)) |}.

Definition VirtualChangeDivisorW_inputs (XLEN : nat) (self : Struct FormatR) (st : RegisterState) : option (Z * Z) :=
  Some (as_u32 (rs1_of st), rs2_of st).
Definition VirtualChangeDivisorW_lookup : LookupQuery FormatR :=
  let lookup_operands := fun n self st => default_lookup_operands n self st VirtualChangeDivisorW_inputs in
  {| lookup_table := Some LookupTables.VirtualChangeDivisorW;
     circuit_flags := circuit_flags_of [WriteLookupOutputToRD];
     instruction_flags := instruction_flags_of [LeftOperandIsRs1Value; RightOperandIsRs2Value];
     to_instruction_inputs := VirtualChangeDivisorW_inputs;
     to_lookup_operands := lookup_operands;
     to_lookup_index := fun n self st => default_lookup_index n self st lookup_operands;
     to_lookup_output := fun n self st => '(dividend, divisor) ← VirtualChangeDivisorW_inputs n self st; Some (if (as_i32 dividend =? - 2 ^ 31) && (as_i32 divisor =? -1) then 1 else as_u64 (as_i32 divisor)) |}.

Definition VirtualMovsign_inputs (XLEN : nat) (self : Struct FormatI) (st : RegisterState) : option (Z * Z) :=
  inputs_rs1_imm XLEN st (I_imm (operands self)).
Definition VirtualMovsign_lookup : LookupQuery FormatI :=
  let lookup_operands := fun n self st => default_lookup_operands n self st VirtualMovsign_inputs in
  {| lookup_table := Some Movsign;
     circuit_flags := circuit_flags_of [WriteLookupOutputToRD];
     instruction_flags := instruction_flags_of [LeftOperandIsRs1Value; RightOperandIsImm];
     to_instruction_inputs := VirtualMovsign_inputs;
     to_lookup_operands := lookup_operands;
     to_lookup_index := fun n self st => default_lookup_index n self st lookup_operands;
     to_lookup_output := fun n self st => output_of n self st VirtualMovsign_inputs
       (fun x _ => if negb (Z.land x (Z.shiftl 1 31) =? 0) then 0xFFFFFFFF else 0)
       (fun x _ => if negb (Z.land x (Z.shiftl 1 63) =? 0) then 0xFFFFFFFFFFFFFFFF else 0) |}.

(** *** Words *)

Definition VirtualZeroExtendWord_inputs (XLEN : nat) (self : Struct FormatI) (st : RegisterState) : option (Z * Z) :=
  Some (rs1_of st, 0).
Definition VirtualZeroExtendWord_lookup : LookupQuery FormatI :=
  let lookup_operands := fun n self st =>
    '(x, y) ← VirtualZeroExtendWord_inputs n self st;
    let sum := as_i128 (x + y) in if sum <? 0 then None else Some (0, sum) in
  {| lookup_table := Some LowerHalfWord;
     circuit_flags := circuit_flags_of [WriteLookupOutputToRD; AddOperands];
     instruction_flags := instruction_flags_of [LeftOperandIsRs1Value];
     to_instruction_inputs := VirtualZeroExtendWord_inputs;
     to_lookup_operands := lookup_operands;
     to_lookup_index := fun n self st => second_operand_index n self st lookup_operands;
     to_lookup_output := fun n self st =>
       '(_, y) ← lookup_operands n self st;
       let half_word_size := Z.of_nat n / 2 in
       Some (Z.land (as_u64 y) (as_u64 (Z.shiftl 1 half_word_size) - 1)) |}.

Definition VirtualSignExtendWord_inputs (XLEN : nat) (self : Struct FormatI) (st : RegisterState) : option (Z * Z) :=
  Some (rs1_of st, 0).
Definition VirtualSignExtendWord_lookup : LookupQuery FormatI :=
  let lookup_operands := fun n self st => sum_operands n self st VirtualSignExtendWord_inputs in
  {| lookup_table := Some SignExtendHalfWord;
     circuit_flags := circuit_flags_of [WriteLookupOutputToRD; AddOperands];
     instruction_flags := instruction_flags_of [LeftOperandIsRs1Value];
     to_instruction_inputs := VirtualSignExtendWord_inputs;
     to_lookup_operands := lookup_operands;
     to_lookup_index := fun n self st => second_operand_index n self st lookup_operands;
     to_lookup_output := fun n self st =>
       '(_, y) ← lookup_operands n self st;
       let half_word_size := Z.of_nat n / 2 in
       let lower_half := Z.land (as_u64 y) (as_u64 (Z.shiftl 1 half_word_size) - 1) in
       let sign_bit := Z.land (Z.shiftr lower_half (half_word_size - 1)) 1 in
       Some (if sign_bit =? 1
             then Z.lor lower_half (as_u64 (Z.shiftl (as_u64 (Z.shiftl 1 half_word_size) - 1) half_word_size))
             else lower_half) |}.

Definition VirtualRev8W_inputs (XLEN : nat) (self : Struct FormatI) (st : RegisterState) : option (Z * Z) :=
  Some (rs1_of st, 0).
Definition VirtualRev8W_lookup : LookupQuery FormatI :=
  let lookup_operands := fun n self st => Some (0, rs1_of st) in
  {| lookup_table := Some LookupTables.VirtualRev8W;
     circuit_flags := circuit_flags_of [WriteLookupOutputToRD; AddOperands];
     instruction_flags := instruction_flags_of [LeftOperandIsRs1Value];
     to_instruction_inputs := VirtualRev8W_inputs;
     to_lookup_operands := lookup_operands;
     to_lookup_index := fun n self st => Some (rs1_of st);
     to_lookup_output := fun n self st => Some (rev8w (rs1_of st)) |}.

(** *** Powers of two and bitmasks *)

Definition VirtualPow2_inputs (XLEN : nat) (self : Struct FormatI) (st : RegisterState) : option (Z * Z) :=
  inputs_rs1 XLEN st.
Definition VirtualPow2_lookup : LookupQuery FormatI :=
  let lookup_operands := fun n self st => sum_operands n self st VirtualPow2_inputs in
  {| lookup_table := Some Pow2;
     circuit_flags := circuit_flags_of [AddOperands; WriteLookupOutputToRD];
     instruction_flags := instruction_flags_of [LeftOperandIsRs1Value; RightOperandIsImm];
     to_instruction_inputs := VirtualPow2_inputs;
     to_lookup_operands := lookup_operands;
     to_lookup_index := fun n self st => second_operand_index n self st lookup_operands;
     to_lookup_output := fun n self st =>
       y ← second_operand_index n self st lookup_operands;
       by_xlen n (as_u64 (Z.shiftl 1 (y mod 32))) (as_u64 (Z.shiftl 1 (y mod 64))) |}.

Definition VirtualPow2I_inputs (XLEN : nat) (self : Struct FormatJ) (st : RegisterState) : option (Z * Z) :=
  inputs_imm XLEN (J_imm (operands self)).
Definition VirtualPow2I_lookup : LookupQuery FormatJ :=
  let lookup_operands := fun n self st => sum_operands n self st VirtualPow2I_inputs in
  {| lookup_table := Some Pow2;
     circuit_flags := circuit_flags_of [AddOperands; WriteLookupOutputToRD];
     instruction_flags := instruction_flags_of [RightOperandIsImm];
     to_instruction_inputs := VirtualPow2I_inputs;
     to_lookup_operands := lookup_operands;
     to_lookup_index := fun n self st => second_operand_index n self st lookup_operands;
     to_lookup_output := fun n self st =>
       y ← second_operand_index n self st lookup_operands;
       by_xlen n (as_u64 (Z.shiftl 1 (y mod 32))) (as_u64 (Z.shiftl 1 (y mod 64))) |}.

Definition VirtualPow2W_inputs (XLEN : nat) (self : Struct FormatI) (st : RegisterState) : option (Z * Z) :=
  Some (rs1_of st, 0).
Definition VirtualPow2W_lookup : LookupQuery FormatI :=
  let lookup_operands := fun n self st => sum_operands n self st VirtualPow2W_inputs in
  {| lookup_table := Some Pow2W;
     circuit_flags := circuit_flags_of [AddOperands; WriteLookupOutputToRD];
     instruction_flags := instruction_flags_of [LeftOperandIsRs1Value];
     to_instruction_inputs := VirtualPow2W_inputs;
     to_lookup_operands := lookup_operands;
     to_lookup_index := fun n self st => second_operand_index n self st lookup_operands;
     to_lookup_output := fun n self st =>
       y ← second_operand_index n self st lookup_operands; Some (as_u64 (Z.shiftl 1 (y mod 32))) |}.

Definition VirtualPow2IW_inputs (XLEN : nat) (self : Struct FormatJ) (st : RegisterState) : option (Z * Z) :=
  Some (0, J_imm (operands self)).
Definition VirtualPow2IW_lookup : LookupQuery FormatJ :=
  let lookup_operands := fun n self st => sum_operands n self st VirtualPow2IW_inputs in
  {| lookup_table := Some Pow2W;
     circuit_flags := circuit_flags_of [AddOperands; WriteLookupOutputToRD];
     instruction_flags := instruction_flags_of [RightOperandIsImm];
     to_instruction_inputs := VirtualPow2IW_inputs;
     to_lookup_operands := lookup_operands;
     to_lookup_index := fun n self st => second_operand_index n self st lookup_operands;
     to_lookup_output := fun n self st =>
       y ← second_operand_index n self st lookup_operands; Some (as_u64 (Z.shiftl 1 (y mod 32))) |}.

Definition VirtualShiftRightBitmask_inputs (XLEN : nat) (self : Struct FormatI) (st : RegisterState) : option (Z * Z) :=
  inputs_rs1 XLEN st.
Definition VirtualShiftRightBitmask_lookup : LookupQuery FormatI :=
  let lookup_operands := fun n self st => sum_operands n self st VirtualShiftRightBitmask_inputs in
  {| lookup_table := Some ShiftRightBitmask;
     circuit_flags := circuit_flags_of [WriteLookupOutputToRD; AddOperands];
     instruction_flags := instruction_flags_of [LeftOperandIsRs1Value; RightOperandIsImm];
     to_instruction_inputs := VirtualShiftRightBitmask_inputs;
     to_lookup_operands := lookup_operands;
     to_lookup_index := fun n self st => second_operand_index n self st lookup_operands;
     to_lookup_output := fun n self st =>
       y ← second_operand_index n self st lookup_operands;
       let shift32 := y mod 32 in
       let shift64 := y mod 64 in
       by_xlen n
         (as_u64 (Z.shiftl (as_u64 (Z.shiftl 1 (32 - shift32)) - 1) shift32))
         (as_u64 (as_u128 (Z.shiftl (as_u128 (Z.shiftl 1 (64 - shift64)) - 1) shift64))) |}.

Definition VirtualShiftRightBitmaskI_inputs (XLEN : nat) (self : Struct FormatJ) (st : RegisterState) : option (Z * Z) :=
  inputs_imm XLEN (J_imm (operands self)).
Definition VirtualShiftRightBitmaskI_lookup : LookupQuery FormatJ :=
  let lookup_operands := fun n self st => sum_operands n self st VirtualShiftRightBitmaskI_inputs in
  {| lookup_table := Some ShiftRightBitmask;
     circuit_flags := circuit_flags_of [WriteLookupOutputToRD; AddOperands];
     instruction_flags := instruction_flags_of [RightOperandIsImm];
     to_instruction_inputs := VirtualShiftRightBitmaskI_inputs;
     to_lookup_operands := lookup_operands;
     to_lookup_index := fun n self st => second_operand_index n self st lookup_operands;
     to_lookup_output := fun n self st =>
       y ← second_operand_index n self st lookup_operands;
       let shift32 := y mod 32 in
       let shift64 := y mod 64 in
       by_xlen n
         (as_u64 (Z.shiftl (as_u64 (Z.shiftl 1 (32 - shift32)) - 1) shift32))
         (as_u64 (as_u128 (Z.shiftl (as_u128 (Z.shiftl 1 (64 - shift64)) - 1) shift64))) |}.

(** *** Shifts and rotations by a bitmask *)

Definition VirtualSRL_output (XLEN : nat) (x y : Z) : Z :=
  let x := LookupBits_new (as_u128 x) (Z.of_nat XLEN) in
  let y := LookupBits_new (as_u128 y) (Z.of_nat XLEN) in
  let '(_, _, entry) :=
    loop XLEN (fun _ '(x, y, entry) =>
      let '(x_i, x) := LookupBits_pop_msb x in
      let '(y_i, y) := LookupBits_pop_msb y in
      let entry := as_u64 (entry * (1 + y_i)) in
      (x, y, as_u64 (entry + x_i * y_i))) (x, y, 0) in
  entry.
Definition VirtualSRL_inputs (XLEN : nat) (self : Struct FormatVirtualRightShiftR) (st : RegisterState) : option (Z * Z) :=
  inputs_rs1_rs2 XLEN st.
Definition VirtualSRL_lookup : LookupQuery FormatVirtualRightShiftR :=
  let lookup_operands := fun n self st => default_lookup_operands n self st VirtualSRL_inputs in
  {| lookup_table := Some LookupTables.VirtualSRL;
     circuit_flags := circuit_flags_of [WriteLookupOutputToRD];
     instruction_flags := instruction_flags_of [LeftOperandIsRs1Value; RightOperandIsRs2Value];
     to_instruction_inputs := VirtualSRL_inputs;
     to_lookup_operands := lookup_operands;
     to_lookup_index := fun n self st => default_lookup_index n self st lookup_operands;
     to_lookup_output := fun n self st => '(x, y) ← VirtualSRL_inputs n self st; Some (VirtualSRL_output n x y) |}.

Definition VirtualSRLI_output (XLEN : nat) (x y : Z) : Z :=
  let x := LookupBits_new (as_u128 x) (Z.of_nat XLEN) in
  let y := LookupBits_new (as_u128 y) (Z.of_nat XLEN) in
  let '(_, _, entry) :=
    loop XLEN (fun _ '(x, y, entry) =>
      let '(x_i, x) := LookupBits_pop_msb x in
      let '(y_i, y) := LookupBits_pop_msb y in
      let entry := as_u64 (entry * (1 + y_i)) in
      (x, y, as_u64 (entry + x_i * y_i))) (x, y, 0) in
  entry.
Definition VirtualSRLI_inputs (XLEN : nat) (self : Struct FormatVirtualRightShiftI) (st : RegisterState) : option (Z * Z) :=
  inputs_rs1_imm XLEN st (VI_imm (operands self)).
Definition VirtualSRLI_lookup : LookupQuery FormatVirtualRightShiftI :=
  let lookup_operands := fun n self st => default_lookup_operands n self st VirtualSRLI_inputs in
  {| lookup_table := Some LookupTables.VirtualSRL;
     circuit_flags := circuit_flags_of [WriteLookupOutputToRD];
     instruction_flags := instruction_flags_of [LeftOperandIsRs1Value; RightOperandIsImm];
     to_instruction_inputs := VirtualSRLI_inputs;
     to_lookup_operands := lookup_operands;
     to_lookup_index := fun n self st => default_lookup_index n self st lookup_operands;
     to_lookup_output := fun n self st => '(x, y) ← VirtualSRLI_inputs n self st; Some (VirtualSRLI_output n x y) |}.

Definition VirtualSRA_output (XLEN : nat) (x y : Z) : Z :=
  let x := LookupBits_new (as_u128 x) (Z.of_nat XLEN) in
  let y := LookupBits_new (as_u128 (as_u64 y)) (Z.of_nat XLEN) in
  let sign_bit := if LookupBits_leading_ones x =? 0 then 0 else 1 in
  let '(_, _, entry, sign_extension) :=
    loop XLEN (fun i '(x, y, entry, sign_extension) =>
      let '(x_i, x) := LookupBits_pop_msb x in
      let '(y_i, y) := LookupBits_pop_msb y in
      let entry := as_u64 (entry * (1 + y_i)) in
      let entry := as_u64 (entry + x_i * y_i) in
      let sign_extension :=
        if negb (Nat.eqb i 0)
        then as_u64 (sign_extension + as_u64 (as_u64 (Z.shiftl 1 (Z.of_nat i)) * (1 - y_i)))
        else sign_extension in
      (x, y, entry, sign_extension)) (x, y, 0, 0) in
  as_u64 (entry + as_u64 (sign_bit * sign_extension)).
Definition VirtualSRA_inputs (XLEN : nat) (self : Struct FormatVirtualRightShiftR) (st : RegisterState) : option (Z * Z) :=
  inputs_rs1_rs2 XLEN st.
Definition VirtualSRA_lookup : LookupQuery FormatVirtualRightShiftR :=
  let lookup_operands := fun n self st => default_lookup_operands n self st VirtualSRA_inputs in
  {| lookup_table := Some LookupTables.VirtualSRA;
     circuit_flags := circuit_flags_of [WriteLookupOutputToRD];
     instruction_flags := instruction_flags_of [LeftOperandIsRs1Value; RightOperandIsRs2Value];
     to_instruction_inputs := VirtualSRA_inputs;
     to_lookup_operands := lookup_operands;
     to_lookup_index := fun n self st => default_lookup_index n self st lookup_operands;
     to_lookup_output := fun n self st => '(x, y) ← VirtualSRA_inputs n self st; Some (VirtualSRA_output n x y) |}.

Definition VirtualSRAI_output (XLEN : nat) (x y : Z) : Z :=
  let x := LookupBits_new (as_u128 x) (Z.of_nat XLEN) in
  let y := LookupBits_new (as_u128 y) (Z.of_nat XLEN) in
  let sign_bit := if LookupBits_leading_ones x =? 0 then 0 else 1 in
  let '(_, _, entry, sign_extension) :=
    loop XLEN (fun i '(x, y, entry, sign_extension) =>
      let '(x_i, x) := LookupBits_pop_msb x in
      let '(y_i, y) := LookupBits_pop_msb y in
      let entry := as_u64 (entry * (1 + y_i)) in
      let entry := as_u64 (entry + x_i * y_i) in
      let sign_extension :=
        if negb (Nat.eqb i 0)
        then as_u64 (sign_extension + as_u64 (as_u64 (Z.shiftl 1 (Z.of_nat i)) * (1 - y_i)))
        else sign_extension in
      (x, y, entry, sign_extension)) (x, y, 0, 0) in
  as_u64 (entry + as_u64 (sign_bit * sign_extension)).
Definition VirtualSRAI_inputs (XLEN : nat) (self : Struct FormatVirtualRightShiftI) (st : RegisterState) : option (Z * Z) :=
  inputs_rs1_imm XLEN st (VI_imm (operands self)).
Definition VirtualSRAI_lookup : LookupQuery FormatVirtualRightShiftI :=
  let lookup_operands := fun n self st => default_lookup_operands n self st VirtualSRAI_inputs in
  {| lookup_table := Some LookupTables.VirtualSRA;
     circuit_flags := circuit_flags_of [WriteLookupOutputToRD];
     instruction_flags := instruction_flags_of [LeftOperandIsRs1Value; RightOperandIsImm];
     to_instruction_inputs := VirtualSRAI_inputs;
     to_lookup_operands := lookup_operands;
     to_lookup_index := fun n self st => default_lookup_index n self st lookup_operands;
     to_lookup_output := fun n self st => '(x, y) ← VirtualSRAI_inputs n self st; Some (VirtualSRAI_output n x y) |}.

Definition VirtualROTRI_inputs (XLEN : nat) (self : Struct FormatVirtualRightShiftI) (st : RegisterState) : option (Z * Z) :=
  Some (rs1_of st, VI_imm (operands self)).
Definition VirtualROTRI_lookup : LookupQuery FormatVirtualRightShiftI :=
  let lookup_operands := fun n self st => default_lookup_operands n self st VirtualROTRI_inputs in
  {| lookup_table := Some VirtualROTR;
     circuit_flags := circuit_flags_of [WriteLookupOutputToRD];
     instruction_flags := instruction_flags_of [LeftOperandIsRs1Value; RightOperandIsImm];
     to_instruction_inputs := VirtualROTRI_inputs;
     to_lookup_operands := lookup_operands;
     to_lookup_index := fun n self st => default_lookup_index n self st lookup_operands;
     to_lookup_output := fun n self st => output_of n self st VirtualROTRI_inputs
       (fun x y => rotate_right 32 (as_u32 x) (trailing_zeros 32 (as_u32 y)))
       (fun x y => rotate_right 64 x (trailing_zeros 64 (as_u64 y))) |}.

Definition VirtualROTRIW_inputs (XLEN : nat) (self : Struct FormatVirtualRightShiftI) (st : RegisterState) : option (Z * Z) :=
  Some (rs1_of st, VI_imm (operands self)).
Definition VirtualROTRIW_lookup : LookupQuery FormatVirtualRightShiftI :=
  let lookup_operands := fun n self st => default_lookup_operands n self st VirtualROTRIW_inputs in
  {| lookup_table := Some VirtualROTRW;
     circuit_flags := circuit_flags_of [WriteLookupOutputToRD];
     instruction_flags := instruction_flags_of [LeftOperandIsRs1Value; RightOperandIsImm];
     to_instruction_inputs := VirtualROTRIW_inputs;
     to_lookup_operands := lookup_operands;
     to_lookup_index := fun n self st => default_lookup_index n self st lookup_operands;
     to_lookup_output := fun n self st => output_of n self st VirtualROTRIW_inputs
       (fun x y => rotate_right 16 (as_u16 x) (Z.min (trailing_zeros 32 (as_u32 y)) 16))
       (fun x y => rotate_right 32 (as_u32 x) (Z.min (trailing_zeros 64 (as_u64 y)) 32)) |}.

(** [impl_virtual_xor_rot!] and [impl_virtual_xor_rotw!]: 64-bit only. *)
Definition only_64 {A} (XLEN : nat) (a : A) : option A :=
  if decide (XLEN = 64)%nat then Some a else None.

Definition VirtualXORROT_inputs (XLEN : nat) (self : Struct FormatR) (st : RegisterState) : option (Z * Z) :=
  only_64 XLEN (rs1_of st, rs2_of st).
Definition VirtualXORROT_lookup (table : LookupTables) (rotation : Z) : LookupQuery FormatR :=
  let lookup_operands := fun n self st => default_lookup_operands n self st VirtualXORROT_inputs in
  {| lookup_table := Some table;
     circuit_flags := circuit_flags_of [WriteLookupOutputToRD];
     instruction_flags := instruction_flags_of [LeftOperandIsRs1Value; RightOperandIsRs2Value];
     to_instruction_inputs := VirtualXORROT_inputs;
     to_lookup_operands := lookup_operands;
     to_lookup_index := fun n self st => default_lookup_index n self st lookup_operands;
     to_lookup_output := fun n self st =>
       '(x, y) ← VirtualXORROT_inputs n self st; only_64 n (rotate_right 64 (Z.lxor x (as_u64 y)) rotation) |}.

Definition VirtualXORROTW_inputs (XLEN : nat) (self : Struct FormatR) (st : RegisterState) : option (Z * Z) :=
  only_64 XLEN (rs1_of st, rs2_of st).
Definition VirtualXORROTW_lookup (table : LookupTables) (rotation : Z) : LookupQuery FormatR :=
  let lookup_operands := fun n self st => default_lookup_operands n self st VirtualXORROTW_inputs in
  {| lookup_table := Some table;
     circuit_flags := circuit_flags_of [WriteLookupOutputToRD];
     instruction_flags := instruction_flags_of [LeftOperandIsRs1Value; RightOperandIsRs2Value];
     to_instruction_inputs := VirtualXORROTW_inputs;
     to_lookup_operands := lookup_operands;
     to_lookup_index := fun n self st => default_lookup_index n self st lookup_operands;
     to_lookup_output := fun n self st =>
       '(x, y) ← VirtualXORROTW_inputs n self st; only_64 n (rotate_right 32 (Z.lxor (as_u32 x) (as_u32 y)) rotation) |}.

(** *** ld.rs, sd.rs: the memory checking covers them, no table does *)
Definition LD_lookup : LookupQuery FormatLoad :=
  {| lookup_table := None;
     circuit_flags := circuit_flags_of [Load];
     instruction_flags := instruction_flags_of [];
     to_instruction_inputs := fun _ _ _ => Some (0, 0);
     to_lookup_operands := fun n self st => default_lookup_operands n self st (fun _ _ _ => Some (0, 0));
     to_lookup_index := fun n self st => default_lookup_index n self st (fun n self st => default_lookup_operands n self st (fun _ _ _ => Some (0, 0)));
     to_lookup_output := fun _ _ _ => Some 0 |}.
Definition SD_lookup : LookupQuery FormatS :=
  {| lookup_table := None;
     circuit_flags := circuit_flags_of [Store];
     instruction_flags := instruction_flags_of [];
     to_instruction_inputs := fun _ _ _ => Some (0, 0);
     to_lookup_operands := fun n self st => default_lookup_operands n self st (fun _ _ _ => Some (0, 0));
     to_lookup_index := fun n self st => default_lookup_index n self st (fun n self st => default_lookup_operands n self st (fun _ _ _ => Some (0, 0)));
     to_lookup_output := fun _ _ _ => Some 0 |}.

(** ** The impls for [Instruction] and [Cycle]

    The query of an instruction of the enum, with its struct; the instructions
    that are expanded before proving have none (the macros panic on them). *)
Inductive SomeQuery :=
| Query_of {F : Type} (q : LookupQuery F) (self : Struct F).

Definition query_of (i : Instruction) : option SomeQuery :=
  match operands i with
  | Instr.ADD o => Some (Query_of ADD_lookup (with_operands i o))
  | Instr.ADDI o => Some (Query_of ADDI_lookup (with_operands i o))
  | Instr.AND o => Some (Query_of AND_lookup (with_operands i o))
  | Instr.ANDI o => Some (Query_of ANDI_lookup (with_operands i o))
  | Instr.ANDN o => Some (Query_of ANDN_lookup (with_operands i o))
  | Instr.AUIPC o => Some (Query_of AUIPC_lookup (with_operands i o))
  | Instr.BEQ o => Some (Query_of BEQ_lookup (with_operands i o))
  | Instr.BGE o => Some (Query_of BGE_lookup (with_operands i o))
  | Instr.BGEU o => Some (Query_of BGEU_lookup (with_operands i o))
  | Instr.BLT o => Some (Query_of BLT_lookup (with_operands i o))
  | Instr.BLTU o => Some (Query_of BLTU_lookup (with_operands i o))
  | Instr.BNE o => Some (Query_of BNE_lookup (with_operands i o))
  | Instr.JAL o => Some (Query_of JAL_lookup (with_operands i o))
  | Instr.JALR o => Some (Query_of JALR_lookup (with_operands i o))
  | Instr.LD o => Some (Query_of LD_lookup (with_operands i o))
  | Instr.SD o => Some (Query_of SD_lookup (with_operands i o))
  | Instr.LUI o => Some (Query_of LUI_lookup (with_operands i o))
  | Instr.MUL o => Some (Query_of MUL_lookup (with_operands i o))
  | Instr.MULHU o => Some (Query_of MULHU_lookup (with_operands i o))
  | Instr.OR o => Some (Query_of OR_lookup (with_operands i o))
  | Instr.ORI o => Some (Query_of ORI_lookup (with_operands i o))
  | Instr.SLT o => Some (Query_of SLT_lookup (with_operands i o))
  | Instr.SLTI o => Some (Query_of SLTI_lookup (with_operands i o))
  | Instr.SLTIU o => Some (Query_of SLTIU_lookup (with_operands i o))
  | Instr.SLTU o => Some (Query_of SLTU_lookup (with_operands i o))
  | Instr.SUB o => Some (Query_of SUB_lookup (with_operands i o))
  | Instr.XOR o => Some (Query_of XOR_lookup (with_operands i o))
  | Instr.XORI o => Some (Query_of XORI_lookup (with_operands i o))
  | Instr.VirtualAdviceLen o => Some (Query_of VirtualAdviceLen_lookup (with_operands i o))
  | Instr.VirtualAdviceLoad o => Some (Query_of VirtualAdviceLoad_lookup (with_operands i o))
  | Instr.VirtualAssertEQ o => Some (Query_of VirtualAssertEQ_lookup (with_operands i o))
  | Instr.VirtualAssertHalfwordAlignment o => Some (Query_of VirtualAssertHalfwordAlignment_lookup (with_operands i o))
  | Instr.VirtualAssertWordAlignment o => Some (Query_of VirtualAssertWordAlignment_lookup (with_operands i o))
  | Instr.VirtualAssertLTE o => Some (Query_of VirtualAssertLTE_lookup (with_operands i o))
  | Instr.VirtualAssertValidDiv0 o => Some (Query_of VirtualAssertValidDiv0_lookup (with_operands i o))
  | Instr.VirtualAssertValidUnsignedRemainder o => Some (Query_of VirtualAssertValidUnsignedRemainder_lookup (with_operands i o))
  | Instr.VirtualAssertMulUNoOverflow o => Some (Query_of VirtualAssertMulUNoOverflow_lookup (with_operands i o))
  | Instr.VirtualChangeDivisor o => Some (Query_of VirtualChangeDivisor_lookup (with_operands i o))
  | Instr.VirtualChangeDivisorW o => Some (Query_of VirtualChangeDivisorW_lookup (with_operands i o))
  | Instr.VirtualZeroExtendWord o => Some (Query_of VirtualZeroExtendWord_lookup (with_operands i o))
  | Instr.VirtualSignExtendWord o => Some (Query_of VirtualSignExtendWord_lookup (with_operands i o))
  | Instr.VirtualMovsign o => Some (Query_of VirtualMovsign_lookup (with_operands i o))
  | Instr.VirtualMULI o => Some (Query_of VirtualMULI_lookup (with_operands i o))
  | Instr.VirtualPow2 o => Some (Query_of VirtualPow2_lookup (with_operands i o))
  | Instr.VirtualPow2I o => Some (Query_of VirtualPow2I_lookup (with_operands i o))
  | Instr.VirtualPow2W o => Some (Query_of VirtualPow2W_lookup (with_operands i o))
  | Instr.VirtualPow2IW o => Some (Query_of VirtualPow2IW_lookup (with_operands i o))
  | Instr.VirtualRev8W o => Some (Query_of VirtualRev8W_lookup (with_operands i o))
  | Instr.VirtualShiftRightBitmask o => Some (Query_of VirtualShiftRightBitmask_lookup (with_operands i o))
  | Instr.VirtualShiftRightBitmaskI o => Some (Query_of VirtualShiftRightBitmaskI_lookup (with_operands i o))
  | Instr.VirtualROTRI o => Some (Query_of VirtualROTRI_lookup (with_operands i o))
  | Instr.VirtualROTRIW o => Some (Query_of VirtualROTRIW_lookup (with_operands i o))
  | Instr.VirtualSRA o => Some (Query_of VirtualSRA_lookup (with_operands i o))
  | Instr.VirtualSRAI o => Some (Query_of VirtualSRAI_lookup (with_operands i o))
  | Instr.VirtualSRL o => Some (Query_of VirtualSRL_lookup (with_operands i o))
  | Instr.VirtualSRLI o => Some (Query_of VirtualSRLI_lookup (with_operands i o))
  | Instr.VirtualAdvice o a => Some (Query_of VirtualAdvice_lookup (with_operands i (o, a)))
  | Instr.VirtualXORROT32 o =>
      Some (Query_of (VirtualXORROT_lookup LookupTables.VirtualXORROT32 32) (with_operands i o))
  | Instr.VirtualXORROT24 o =>
      Some (Query_of (VirtualXORROT_lookup LookupTables.VirtualXORROT24 24) (with_operands i o))
  | Instr.VirtualXORROT16 o =>
      Some (Query_of (VirtualXORROT_lookup LookupTables.VirtualXORROT16 16) (with_operands i o))
  | Instr.VirtualXORROT63 o =>
      Some (Query_of (VirtualXORROT_lookup LookupTables.VirtualXORROT63 63) (with_operands i o))
  | Instr.VirtualXORROTW16 o =>
      Some (Query_of (VirtualXORROTW_lookup LookupTables.VirtualXORROTW16 16) (with_operands i o))
  | Instr.VirtualXORROTW12 o =>
      Some (Query_of (VirtualXORROTW_lookup LookupTables.VirtualXORROTW12 12) (with_operands i o))
  | Instr.VirtualXORROTW8 o =>
      Some (Query_of (VirtualXORROTW_lookup LookupTables.VirtualXORROTW8 8) (with_operands i o))
  | Instr.VirtualXORROTW7 o =>
      Some (Query_of (VirtualXORROTW_lookup LookupTables.VirtualXORROTW7 7) (with_operands i o))
  | _ => None
  end.

Definition is_supported_instruction (i : Instruction) : bool :=
  match query_of i with Some _ => true | None => false end.

Definition Instruction_lookup_table (i : Instruction) : option (option LookupTables) :=
  match query_of i with Some (Query_of q _) => Some (lookup_table q) | None => None end.
Definition Instruction_circuit_flags (i : Instruction) : option (CircuitFlags -> bool) :=
  match query_of i with Some (Query_of q self) => Some (circuit_flags q self) | None => None end.
Definition Instruction_instruction_flags (i : Instruction) : option (InstructionFlags -> bool) :=
  match query_of i with Some (Query_of q _) => Some (instruction_flags q) | None => None end.

Definition Cycle_to_instruction_inputs (XLEN : nat) (c : Cycle) : option (Z * Z) :=
  match query_of (instruction c) with
  | Some (Query_of q self) => to_instruction_inputs q XLEN self (register_state c) | None => None end.
Definition Cycle_to_lookup_operands (XLEN : nat) (c : Cycle) : option (Z * Z) :=
  match query_of (instruction c) with
  | Some (Query_of q self) => to_lookup_operands q XLEN self (register_state c) | None => None end.
Definition Cycle_to_lookup_index (XLEN : nat) (c : Cycle) : option Z :=
  match query_of (instruction c) with
  | Some (Query_of q self) => to_lookup_index q XLEN self (register_state c) | None => None end.
Definition Cycle_to_lookup_output (XLEN : nat) (c : Cycle) : option Z :=
  match query_of (instruction c) with
  | Some (Query_of q self) => to_lookup_output q XLEN self (register_state c) | None => None end.
