(* ===== verification/R1CS.v ===== *)
(** * R1CS: the uniform constraints of the zkVM

    Models [jolt-core/src/zkvm/r1cs/inputs.rs] and [constraints.rs]: the inputs
    of a row and their order, the nineteen conditional equalities, the two
    groups of the univariate skip and the product constraints.  A constraint
    holds on a vector when the product of its two linear combinations is zero.
    The tables are compile-time constants; [None] is a panic there. *)
From S2P Require Import Prelude Bits Field LookupTables Mle LinearCombination Registers AdviceTape Cpu.
From S2P Require Import Formats Instr Assembler Trace LookupQuery.

(** ** Inputs *)

Inductive JoltR1CSInputs :=
| PC | UnexpandedPC | Imm | RamAddress | Rs1Value | Rs2Value | RdWriteValue | RamReadValue
| RamWriteValue | LeftInstructionInput | RightInstructionInput | LeftLookupOperand
| RightLookupOperand | Product | ShouldBranch | NextUnexpandedPC | NextPC | NextIsVirtual
| NextIsFirstInSequence | LookupOutput | ShouldJump | OpFlags (f : CircuitFlags).

#[export] Instance JoltR1CSInputs_eq_dec : EqDecision JoltR1CSInputs.
Proof. solve_decision. Defined.

Definition ALL_R1CS_INPUTS : list JoltR1CSInputs := [
  LeftInstructionInput; RightInstructionInput; Product; ShouldBranch; PC; UnexpandedPC; Imm;
  RamAddress; Rs1Value; Rs2Value; RdWriteValue; RamReadValue; RamWriteValue; LeftLookupOperand;
  RightLookupOperand; NextUnexpandedPC; NextPC; NextIsVirtual; NextIsFirstInSequence;
  LookupOutput; ShouldJump; OpFlags AddOperands; OpFlags SubtractOperands;
  OpFlags MultiplyOperands; OpFlags Load; OpFlags Store; OpFlags Jump;
  OpFlags WriteLookupOutputToRD; OpFlags VirtualInstruction; OpFlags Assert;
  OpFlags DoNotUpdateUnexpandedPC; OpFlags Advice; OpFlags IsCompressed;
  OpFlags IsFirstInSequence; OpFlags IsLastInSequence].
Definition NUM_R1CS_INPUTS : nat := length ALL_R1CS_INPUTS.

Definition from_index (index : nat) : option JoltR1CSInputs := ALL_R1CS_INPUTS !! index.
Definition to_index (self : JoltR1CSInputs) : nat :=
  match self with
  | LeftInstructionInput => 0
  | RightInstructionInput => 1
  | Product => 2
  | ShouldBranch => 3
  | PC => 4
  | UnexpandedPC => 5
  | Imm => 6
  | RamAddress => 7
  | Rs1Value => 8
  | Rs2Value => 9
  | RdWriteValue => 10
  | RamReadValue => 11
  | RamWriteValue => 12
  | LeftLookupOperand => 13
  | RightLookupOperand => 14
  | NextUnexpandedPC => 15
  | NextPC => 16
  | NextIsVirtual => 17
  | NextIsFirstInSequence => 18
  | LookupOutput => 19
  | ShouldJump => 20
  | OpFlags AddOperands => 21
  | OpFlags SubtractOperands => 22
  | OpFlags MultiplyOperands => 23
  | OpFlags Load => 24
  | OpFlags Store => 25
  | OpFlags Jump => 26
  | OpFlags WriteLookupOutputToRD => 27
  | OpFlags VirtualInstruction => 28
  | OpFlags Assert => 29
  | OpFlags DoNotUpdateUnexpandedPC => 30
  | OpFlags Advice => 31
  | OpFlags IsCompressed => 32
  | OpFlags IsFirstInSequence => 33
  | OpFlags IsLastInSequence => 34
  end.

(** [CircuitFlags::iter()] *)
Definition all_circuit_flags : list CircuitFlags :=
  [AddOperands; SubtractOperands; MultiplyOperands; Load; Store; Jump; WriteLookupOutputToRD;
   VirtualInstruction; LookupQuery.Assert; DoNotUpdateUnexpandedPC; Advice; IsCompressed;
   IsFirstInSequence; IsLastInSequence].

(** ** Constraints *)

Definition from_input (inp : JoltR1CSInputs) : LC := single_term (to_index inp) 1.
Definition from_input_with_coeff (inp : JoltR1CSInputs) (coeff : Z) : LC := single_term (to_index inp) coeff.
Definition from_const (k : Z) : LC := Const k.

(** The accumulator of the macro [lc!]: [.checked_add(x).expect(..)]. *)
Definition lc_add (acc : option LC) (x : LC) : option LC := a ← acc; checked_add a x.
Definition lc_sub (acc : option LC) (x : LC) : option LC := a ← acc; checked_sub a x.
#[local] Infix "⊕" := lc_add (at level 50, left associativity).
#[local] Infix "⊖" := lc_sub (at level 50, left associativity).

Record R1CSConstraint := { cons_a : LC; cons_b : LC }.

Definition constraint_eq_conditional_lc (condition left right : LC) : option R1CSConstraint :=
  d ← checked_sub left right; Some {| cons_a := condition; cons_b := d |}.

Inductive R1CSConstraintLabel :=
| RamAddrEqRs1PlusImmIfLoadStore | RamAddrEqZeroIfNotLoadStore | RamReadEqRamWriteIfLoad
| RamReadEqRdWriteIfLoad | Rs2EqRamWriteIfStore | LeftLookupZeroUnlessAddSubMul
| LeftLookupEqLeftInputOtherwise | RightLookupAdd | RightLookupSub | RightLookupEqProductIfMul
| RightLookupEqRightInputOtherwise | AssertLookupOne | RdWriteEqLookupIfWriteLookupToRd
| RdWriteEqPCPlusConstIfWritePCtoRD | NextUnexpPCEqLookupIfShouldJump
| NextUnexpPCEqPCPlusImmIfShouldBranch | NextUnexpPCUpdateOtherwise | NextPCEqPCPlusOneIfInline
| MustStartSequenceFromBeginning.

#[export] Instance R1CSConstraintLabel_eq_dec : EqDecision R1CSConstraintLabel.
Proof. solve_decision. Defined.

Record NamedR1CSConstraint := { label : R1CSConstraintLabel; cons : R1CSConstraint }.

(** The macro [r1cs_eq_conditional!]. *)
Definition r1cs_eq_conditional (nm : R1CSConstraintLabel) (cond left right : option LC)
    : option NamedR1CSConstraint :=
  c ← cond; l ← left; r ← right;
  k ← constraint_eq_conditional_lc c l r;
  Some {| label := nm; cons := k |}.

Definition R1CS_CONSTRAINTS_table : list (option NamedR1CSConstraint) := [
  r1cs_eq_conditional RamAddrEqRs1PlusImmIfLoadStore
    (Some (from_input (OpFlags Load)) ⊕ from_input (OpFlags Store))
    (Some (from_input RamAddress))
    (Some (from_input Rs1Value) ⊕ from_input Imm);
  r1cs_eq_conditional RamAddrEqZeroIfNotLoadStore
    (Some (from_const 1) ⊖ from_input (OpFlags Load) ⊖ from_input (OpFlags Store))
    (Some (from_input RamAddress))
    (Some (from_const 0));
  r1cs_eq_conditional RamReadEqRamWriteIfLoad
    (Some (from_input (OpFlags Load)))
    (Some (from_input RamReadValue))
    (Some (from_input RamWriteValue));
  r1cs_eq_conditional RamReadEqRdWriteIfLoad
    (Some (from_input (OpFlags Load)))
    (Some (from_input RamReadValue))
    (Some (from_input RdWriteValue));
  r1cs_eq_conditional Rs2EqRamWriteIfStore
    (Some (from_input (OpFlags Store)))
    (Some (from_input Rs2Value))
    (Some (from_input RamWriteValue));
  r1cs_eq_conditional LeftLookupZeroUnlessAddSubMul
    (Some (from_input (OpFlags AddOperands)) ⊕ from_input (OpFlags SubtractOperands) ⊕ from_input (OpFlags MultiplyOperands))
    (Some (from_input LeftLookupOperand))
    (Some (from_const 0));
  r1cs_eq_conditional LeftLookupEqLeftInputOtherwise
    (Some (from_const 1) ⊖ from_input (OpFlags AddOperands) ⊖ from_input (OpFlags SubtractOperands) ⊖ from_input (OpFlags MultiplyOperands))
    (Some (from_input LeftLookupOperand))
    (Some (from_input LeftInstructionInput));
  r1cs_eq_conditional RightLookupAdd
    (Some (from_input (OpFlags AddOperands)))
    (Some (from_input RightLookupOperand))
    (Some (from_input LeftInstructionInput) ⊕ from_input RightInstructionInput);
  r1cs_eq_conditional RightLookupSub
    (Some (from_input (OpFlags SubtractOperands)))
    (Some (from_input RightLookupOperand))
    (Some (from_input LeftInstructionInput) ⊖ from_input RightInstructionInput ⊕ from_const 0x10000000000000000);
  r1cs_eq_conditional RightLookupEqProductIfMul
    (Some (from_input (OpFlags MultiplyOperands)))
    (Some (from_input RightLookupOperand))
    (Some (from_input Product));
  r1cs_eq_conditional RightLookupEqRightInputOtherwise
    (Some (from_const 1) ⊖ from_input (OpFlags AddOperands) ⊖ from_input (OpFlags SubtractOperands) ⊖ from_input (OpFlags MultiplyOperands) ⊖ from_input (OpFlags Advice))
    (Some (from_input RightLookupOperand))
    (Some (from_input RightInstructionInput));
  r1cs_eq_conditional AssertLookupOne
    (Some (from_input (OpFlags Assert)))
    (Some (from_input LookupOutput))
    (Some (from_const 1));
  r1cs_eq_conditional RdWriteEqLookupIfWriteLookupToRd
    (Some (from_input (OpFlags WriteLookupOutputToRD)))
    (Some (from_input RdWriteValue))
    (Some (from_input LookupOutput));
  r1cs_eq_conditional RdWriteEqPCPlusConstIfWritePCtoRD
    (Some (from_input (OpFlags Jump)))
    (Some (from_input RdWriteValue))
    (Some (from_input UnexpandedPC) ⊕ from_const 4 ⊖ from_input_with_coeff (OpFlags IsCompressed) 2);
  r1cs_eq_conditional NextUnexpPCEqLookupIfShouldJump
    (Some (from_input ShouldJump))
    (Some (from_input NextUnexpandedPC))
    (Some (from_input LookupOutput));
  r1cs_eq_conditional NextUnexpPCEqPCPlusImmIfShouldBranch
    (Some (from_input ShouldBranch))
    (Some (from_input NextUnexpandedPC))
    (Some (from_input UnexpandedPC) ⊕ from_input Imm);
  r1cs_eq_conditional NextUnexpPCUpdateOtherwise
    (Some (from_const 1) ⊖ from_input ShouldBranch ⊖ from_input (OpFlags Jump))
    (Some (from_input NextUnexpandedPC))
    (Some (from_input UnexpandedPC) ⊕ from_const 4 ⊖ from_input_with_coeff (OpFlags DoNotUpdateUnexpandedPC) 4 ⊖ from_input_with_coeff (OpFlags IsCompressed) 2);
  r1cs_eq_conditional NextPCEqPCPlusOneIfInline
    (Some (from_input (OpFlags VirtualInstruction)) ⊖ from_input (OpFlags IsLastInSequence))
    (Some (from_input NextPC))
    (Some (from_input PC) ⊕ from_const 1);
  r1cs_eq_conditional MustStartSequenceFromBeginning
    (Some (from_input NextIsVirtual) ⊖ from_input NextIsFirstInSequence)
    (Some (from_const 1))
    (Some (from_input (OpFlags DoNotUpdateUnexpandedPC)))].
Definition R1CS_CONSTRAINTS_option : option (list NamedR1CSConstraint) := mapM id R1CS_CONSTRAINTS_table.
Definition R1CS_CONSTRAINTS : list NamedR1CSConstraint := default [] R1CS_CONSTRAINTS_option.
Definition NUM_R1CS_CONSTRAINTS : nat := 19.

Definition OUTER_UNIVARIATE_SKIP_DEGREE : nat := (NUM_R1CS_CONSTRAINTS - 1) / 2.
Definition OUTER_UNIVARIATE_SKIP_DOMAIN_SIZE : nat := OUTER_UNIVARIATE_SKIP_DEGREE + 1.
Definition NUM_REMAINING_R1CS_CONSTRAINTS : nat := NUM_R1CS_CONSTRAINTS - OUTER_UNIVARIATE_SKIP_DOMAIN_SIZE.

Definition contains_label (labels : list R1CSConstraintLabel) (l : R1CSConstraintLabel) : bool :=
  bool_decide (l ∈ labels).

(** The loop takes candidates in order until [n] are found, or panics. *)
Fixpoint select {A} (p : A -> bool) (n : nat) (l : list A) : option (list A) :=
  match n, l with
  | O, _ => Some []
  | S _, [] => None
  | S m, x :: l => if p x then xs ← select p m l; Some (x :: xs) else select p n l
  end.

Definition filter_r1cs_constraints (n : nat) (labels : list R1CSConstraintLabel)
    : option (list NamedR1CSConstraint) :=
  select (fun cand => contains_label labels (label cand)) n R1CS_CONSTRAINTS.

Definition R1CS_CONSTRAINTS_FIRST_GROUP_LABELS : list R1CSConstraintLabel := [
  RamAddrEqZeroIfNotLoadStore; RamReadEqRamWriteIfLoad; RamReadEqRdWriteIfLoad;
  Rs2EqRamWriteIfStore; LeftLookupZeroUnlessAddSubMul; LeftLookupEqLeftInputOtherwise;
  AssertLookupOne; NextUnexpPCEqLookupIfShouldJump; NextPCEqPCPlusOneIfInline;
  MustStartSequenceFromBeginning].

Definition complement_first_group_labels : option (list R1CSConstraintLabel) :=
  select (fun cand => negb (contains_label R1CS_CONSTRAINTS_FIRST_GROUP_LABELS cand))
    NUM_REMAINING_R1CS_CONSTRAINTS (map label R1CS_CONSTRAINTS).
Definition R1CS_CONSTRAINTS_SECOND_GROUP_LABELS : list R1CSConstraintLabel :=
  default [] complement_first_group_labels.

Definition R1CS_CONSTRAINTS_FIRST_GROUP : list NamedR1CSConstraint :=
  default [] (filter_r1cs_constraints OUTER_UNIVARIATE_SKIP_DOMAIN_SIZE R1CS_CONSTRAINTS_FIRST_GROUP_LABELS).
Definition R1CS_CONSTRAINTS_SECOND_GROUP : list NamedR1CSConstraint :=
  default [] (filter_r1cs_constraints NUM_REMAINING_R1CS_CONSTRAINTS R1CS_CONSTRAINTS_SECOND_GROUP_LABELS).

(** ** Satisfaction

    [z] is the vector of the inputs followed by the constant column. *)
Definition satisfied {F} `{FieldOps F} (c : R1CSConstraint) (z : list F) : Prop :=
  mul (dot_product (cons_a c) z NUM_R1CS_INPUTS) (dot_product (cons_b c) z NUM_R1CS_INPUTS) = zero.

(** The values of a row as the constraints' vector. *)
Definition row_vector (v : JoltR1CSInputs -> Z) : list Z := map v ALL_R1CS_INPUTS ++ [1].

(** ** Product constraints *)

Inductive ProductConstraintLabel := InstructionProduct | ShouldBranchProduct | ShouldJumpProduct.

(** The virtual polynomials the product constraints name. *)
Inductive VirtualPolynomial :=
| InputPolynomial (i : JoltR1CSInputs) | InstructionFlagPolynomial (f : InstructionFlags) | NextIsNoop.

Inductive ProductFactorExpr := Var (p : VirtualPolynomial) | OneMinus (p : VirtualPolynomial).

Record ProductConstraint := {
  product_label : ProductConstraintLabel;
  left : ProductFactorExpr;
  right : ProductFactorExpr;
  output : VirtualPolynomial
}.

Definition PRODUCT_CONSTRAINTS : list ProductConstraint := [
  {| product_label := InstructionProduct;
     left := Var (InputPolynomial LeftInstructionInput); right := Var (InputPolynomial RightInstructionInput);
     output := InputPolynomial Product |};
  {| product_label := ShouldBranchProduct;
     left := Var (InputPolynomial LookupOutput); right := Var (InstructionFlagPolynomial Branch);
     output := InputPolynomial ShouldBranch |};
  {| product_label := ShouldJumpProduct;
     left := Var (InputPolynomial (OpFlags Jump)); right := OneMinus NextIsNoop;
     output := InputPolynomial ShouldJump |}].

(** A factor's value, and what a product constraint says of the polynomials'
    values on a cycle. *)
Definition factor_value (v : VirtualPolynomial -> Z) (e : ProductFactorExpr) : Z :=
  match e with Var p => v p | OneMinus p => 1 - v p end.
Definition product_holds (v : VirtualPolynomial -> Z) (c : ProductConstraint) : Prop :=
  factor_value v (left c) * factor_value v (right c) = v (output c).

(** ** The tables *)

Lemma R1CS_CONSTRAINTS_no_panic : R1CS_CONSTRAINTS_option = Some R1CS_CONSTRAINTS.
Proof. vm_compute. reflexivity. Qed.

(** the inputs are in the order of the table: [to_index] numbers them from
    0 to 34 and [from_index], which panics elsewhere, is its inverse. *)
Theorem input_index_roundtrip :
  (forall i, (to_index i < NUM_R1CS_INPUTS)%nat /\ from_index (to_index i) = Some i) /\
  (forall k i, from_index k = Some i -> to_index i = k) /\
  (forall k, from_index k = None <-> (NUM_R1CS_INPUTS <= k)%nat).
Proof.
  split; [|split].
  - intros i. destruct i as [| | | | | | | | | | | | | | | | | | | | |[]]; (split; [cbv; lia|reflexivity]).
  - intros k i Hk. pose proof (lookup_lt_Some _ _ _ Hk) as Hl. change (k < 35)%nat in Hl.
    do 35 (destruct k as [|k]; [by injection Hk as <-|]). lia.
  - intros k. apply lookup_ge_None.
Qed.

#[export] Instance LC_eq_dec : EqDecision LC.
Proof. assert (EqDecision Term) by solve_decision. solve_decision. Defined.
#[export] Instance NamedR1CSConstraint_eq_dec : EqDecision NamedR1CSConstraint.
Proof. assert (EqDecision R1CSConstraint) by solve_decision. solve_decision. Defined.

Lemma select_sublist {A} (p : A -> bool) n l r : select p n l = Some r -> sublist r l /\ length r = n.
Proof.
  revert n r. induction l as [|x l IH]; intros [|n] r; cbn [select]; intros H; try done.
  - injection H as <-. split; [constructor|done].
  - injection H as <-. split; [apply sublist_nil_l|done].
  - destruct (p x).
    + apply bind_Some in H as (xs & Hxs & [= <-]). destruct (IH n xs Hxs) as [Hs Hl].
      split; [by apply sublist_skip|cbn; by rewrite Hl].
    + destruct (IH (S n) r H) as [Hs Hl]. split; [by apply sublist_cons|done].
Qed.

Lemma first_group_selected :
  filter_r1cs_constraints OUTER_UNIVARIATE_SKIP_DOMAIN_SIZE R1CS_CONSTRAINTS_FIRST_GROUP_LABELS
  = Some R1CS_CONSTRAINTS_FIRST_GROUP.
Proof. vm_compute. reflexivity. Qed.
Lemma second_group_selected :
  filter_r1cs_constraints NUM_REMAINING_R1CS_CONSTRAINTS R1CS_CONSTRAINTS_SECOND_GROUP_LABELS
  = Some R1CS_CONSTRAINTS_SECOND_GROUP.
Proof. vm_compute. reflexivity. Qed.

(** Decided by evaluation. *)
Ltac decided := apply (bool_decide_eq_true_1 _); vm_compute; reflexivity.

(** the table of the constraints is built without exceeding the capacity
    of a linear combination; the two groups of the univariate skip split its
    nineteen rows, without loss or repetition, into ten and nine, each in the
    order of the table. *)
Theorem constraint_groups :
  R1CS_CONSTRAINTS_option = Some R1CS_CONSTRAINTS /\ length R1CS_CONSTRAINTS = NUM_R1CS_CONSTRAINTS /\
  NoDup (map label R1CS_CONSTRAINTS) /\
  length R1CS_CONSTRAINTS_FIRST_GROUP = OUTER_UNIVARIATE_SKIP_DOMAIN_SIZE /\
  length R1CS_CONSTRAINTS_SECOND_GROUP = NUM_REMAINING_R1CS_CONSTRAINTS /\
  sublist R1CS_CONSTRAINTS_FIRST_GROUP R1CS_CONSTRAINTS /\
  sublist R1CS_CONSTRAINTS_SECOND_GROUP R1CS_CONSTRAINTS /\
  (forall c, c ∈ R1CS_CONSTRAINTS <-> c ∈ R1CS_CONSTRAINTS_FIRST_GROUP \/ c ∈ R1CS_CONSTRAINTS_SECOND_GROUP) /\
  (forall c, c ∈ R1CS_CONSTRAINTS_FIRST_GROUP -> ~ c ∈ R1CS_CONSTRAINTS_SECOND_GROUP).
Proof.
  destruct (select_sublist _ _ _ _ first_group_selected) as [Hf Hlf].
  destruct (select_sublist _ _ _ _ second_group_selected) as [Hs Hls].
  split; [exact R1CS_CONSTRAINTS_no_panic|]. split; [vm_compute; reflexivity|]. split; [decided|].
  do 4 (split; [done|]). split.
  - intros c. split.
    + revert c. apply list.Forall_forall. decided.
    + intros [H|H]; [exact (elem_of_sublist _ _ c H Hf)|exact (elem_of_sublist _ _ c H Hs)].
  - apply list.Forall_forall. decided.
Qed.
