(* ===== verification/QueryCorrect.v ===== *)
(** * QueryCorrect: lookup queries agree with the tables

    The value a cycle claims as its lookup output is the entry of the
    instruction's table at the cycle's index, for every instruction with a
    lookup and every cycle of the 64-bit machine. *)
From S2P Require Import Prelude Bits Field LookupTables Mle TablesMle ShiftsMle TablesCorrect.
From S2P Require Import Registers AdviceTape Cpu Formats Instr Assembler Sequences Trace.
From S2P Require Import ExecWf Exec64 SeqArith LookupQuery.

(** ** Rotations by a bitmask *)

(** A fold over ones of [y] shifts the word in, over zeros adds it above. *)
Lemma rotr_ones hi lo m f g :
  map snd hi = replicate (length hi) true ->
  rfold rotr_step (hi ++ lo) (m, f, g) =
  rfold rotr_step lo (m * 2 ^ Z.of_nat (length hi), f * 2 ^ Z.of_nat (length hi) + xs_of hi, g).
Proof.
  revert m f g. induction hi as [|[a b] t IH]; intros m f g Hs.
  { cbn [app length map bval]. f_equal. apply f_equal2; [apply f_equal2|]; lia. }
  cbn [map snd length replicate] in Hs. injection Hs as -> Hs.
  cbn [app rfold rotr_step b2z]. rewrite (IH _ _ _ Hs). cbn [map fst bval length].
  rewrite length_map, Nat2Z.inj_succ, Z.pow_succ_r by lia.
  f_equal. apply f_equal2; [apply f_equal2|]; ring.
Qed.

Lemma rotr_zeros lo m f g :
  map snd lo = replicate (length lo) false ->
  rfold rotr_step lo (m, f, g) = (m, f, g + m * xs_of lo).
Proof.
  revert m f g. induction lo as [|[a b] t IH]; intros m f g Hs.
  { cbn [rfold map bval]. by rewrite Z.mul_0_r, Z.add_0_r. }
  cbn [map snd length replicate] in Hs. injection Hs as -> Hs.
  cbn [rfold rotr_step b2z]. rewrite (IH _ _ _ Hs). cbn [map fst bval]. rewrite length_map.
  apply f_equal2; [apply f_equal2|]; ring.
Qed.

Lemma rotr_bitmask hi lo :
  map snd hi = replicate (length hi) true -> map snd lo = replicate (length lo) false ->
  (let '(_, f, g) := rfold rotr_step (hi ++ lo) (1, 0, 0) in f + g) =
  bval (map fst lo ++ map fst hi).
Proof.
  intros Hh Hl. rewrite rotr_ones, rotr_zeros by done. rewrite bval_app, length_map. ring.
Qed.

(** The pairs of a word and a bitmask. *)
Lemma pairs_bitmask n x y s :
  (s <= n)%nat -> bits_of n y = replicate (n - s) true ++ replicate s false ->
  exists hi lo, pairs_of n x y = hi ++ lo /\ length lo = s /\ length hi = (n - s)%nat /\
    map snd hi = replicate (length hi) true /\ map snd lo = replicate (length lo) false.
Proof.
  intros Hs Hy. destruct (pairs_of_spec n x y) as (Hl & _ & Hsy).
  destruct (cut_list s (pairs_of n x y)) as (hi & lo & E & Hhi & Hlo); [lia|].
  exists hi, lo. rewrite Hl in Hhi. rewrite E, map_app, Hy in Hsy.
  apply app_inj_1 in Hsy; [|rewrite length_map, length_replicate; lia].
  destruct Hsy as [Hh' Hl']. rewrite Hhi, Hlo. done.
Qed.

Lemma rotate_right_bitmask n x s (hi lo : list (bool * bool)) :
  (0 < n)%nat -> in_u (Z.of_nat n) x -> (s <= n)%nat -> map fst (hi ++ lo) = bits_of n x ->
  length lo = s -> length hi = (n - s)%nat ->
  bval (map fst lo ++ map fst hi) = rotate_right (Z.of_nat n) x (Z.of_nat s).
Proof.
  intros Hn Hx Hs Hf Hlo Hhi. rewrite map_app in Hf.
  assert (Hlen : length (map fst hi ++ map fst lo) = n) by (rewrite length_app, !length_map; lia).
  assert (E : x = bval (map fst hi ++ map fst lo)) by (by rewrite Hf, bval_bits_of, Z.mod_small).
  destruct (decide (s = n)) as [->|].
  - destruct hi; cbn [length] in Hhi; [|lia]. cbn [map app] in *. rewrite app_nil_r, <- E.
    unfold rotate_right. rewrite Z.mod_same, Z.shiftr_0_r, Z.sub_0_r by lia.
    apply Z.bits_inj'. intros j Hj. unfold wrapu.
    rewrite Z.testbit_mod_pow2, Z.lor_spec, Z.shiftl_spec by lia.
    destruct (Z.ltb_spec j (Z.of_nat n)); cbn [andb].
    + by rewrite (Z.testbit_neg_r x (j - _)), orb_false_r by lia.
    + apply (testbit_out (Z.of_nat n)); [done|lia].
  - rewrite E, <- Hlen. symmetry. apply rotate_right_app; [lia|].
    rewrite Hlen, length_map, Z.mod_small; lia.
Qed.

(** [VirtualROTR] at a word and a bitmask rotates the word. *)
Lemma VirtualROTR_rotates n x y s :
  (0 < n <= 64)%nat -> in_u (Z.of_nat n) x -> in_u (Z.of_nat n) y -> (s <= n)%nat ->
  bits_of n y = replicate (n - s) true ++ replicate s false ->
  VirtualRotrTable_materialize_entry n (interleave_bits x y) = rotate_right (Z.of_nat n) x (Z.of_nat s).
Proof.
  intros Hn Hx Hy Hs Hb. destruct (pairs_of_spec n x y) as (Hl & Hfx & _).
  rewrite (interleave_weave n) by (done || lia).
  pose proof (VirtualROTR_entry (pairs_of n x y)) as He. rewrite Hl in He. rewrite He by lia.
  destruct (pairs_bitmask n x y s Hs Hb) as (hi & lo & E & Hlo & Hhi & Hh1 & Hl0).
  rewrite E in *. rewrite rotr_bitmask by done. apply rotate_right_bitmask; done || lia.
Qed.

(** [VirtualROTRW] rotates the low half. *)
Lemma VirtualROTRW_rotates m x y s :
  (0 < m <= 32)%nat -> in_u (Z.of_nat (m + m)) x -> in_u (Z.of_nat (m + m)) y -> (s <= m)%nat ->
  bits_of m y = replicate (m - s) true ++ replicate s false ->
  VirtualRotrWTable_materialize_entry (m + m) (interleave_bits x y) =
  rotate_right (Z.of_nat m) (wrapu (Z.of_nat m) x) (Z.of_nat s).
Proof.
  intros Hm Hx Hy Hs Hb. rewrite (interleave_weave (m + m)) by (done || lia).
  assert (E : pairs_of (m + m) x y =
              pairs_of m (Z.shiftr x (Z.of_nat m)) (Z.shiftr y (Z.of_nat m)) ++ pairs_of m x y).
  { unfold pairs_of. rewrite !bits_of_app, zip_with_app; [done|]. by rewrite !length_bits_of. }
  destruct (pairs_of_spec m x y) as (Hl & Hfx & _).
  destruct (pairs_of_spec m (Z.shiftr x (Z.of_nat m)) (Z.shiftr y (Z.of_nat m))) as (Hl' & _ & _).
  pose proof (VirtualROTRW_entry (pairs_of m (Z.shiftr x (Z.of_nat m)) (Z.shiftr y (Z.of_nat m)))
    (pairs_of m x y)) as He. rewrite length_app, Hl, Hl' in He. rewrite E, He by lia.
  destruct (pairs_bitmask m x y s Hs Hb) as (hi & lo & E' & Hlo & Hhi & Hh1 & Hl0).
  rewrite E' in *. rewrite rotr_bitmask by done. apply rotate_right_bitmask; try (done || lia).
  - apply wrapu_range. lia.
  - rewrite Hfx. symmetry. apply bits_of_low. lia.
Qed.

(** ** Cycles of the 64-bit machine *)

(** The bitmasks the rotations are emitted with, and any other immediate as
    the operand structs hold it; a branch offset is not part of the query. *)
Definition imm_in_range (op : Op) : Prop :=
  match op with
  | Instr.VirtualROTRI o => exists s, 0 <= s < 64 /\ VI_imm o = as_u64 (bitmask_imm s 64)
  | Instr.VirtualROTRIW o =>
      exists s len, (len = 32 \/ len = 64) /\ 0 <= s < len /\ VI_imm o = as_u64 (bitmask_imm s len)
  | VirtualAdvice _ advice => in_u 64 advice
  | _ =>
      match norm_rd (op_operands op) with
      | Some _ => in_u 64 (norm_imm (op_operands op))
      | None => True
      end
  end.

Record cycle_in_range (c : Cycle) : Prop := {
  range_address : in_u 64 (address (instruction c));
  range_rs1 : in_u 64 (rs1_of (register_state c));
  range_rs2 : in_u 64 (rs2_of (register_state c));
  range_rd : in_u 64 (rd_post_of (register_state c));
  range_imm : imm_in_range (operands (instruction c))
}.

(** ** Queries of each shape *)

(** The output of a query is the entry of its table at its index. *)
Definition query_correct {F} (q : LookupQuery F) (self : Struct F) (st : RegisterState) : Prop :=
  exists t k v, lookup_table q = Some t /\ to_lookup_index q 64 self st = Some k /\ in_u 128 k /\
    to_lookup_output q 64 self st = Some v /\ materialize_entry 64 t k = Some v.

Section Shapes.
Context {F : Type} (q : LookupQuery F) (self : Struct F) (st : RegisterState) (t : LookupTables).

Lemma interleaved_correct x y v :
  lookup_table q = Some t ->
  to_lookup_index q 64 self st = Some (interleave_bits x (as_u64 (as_u64 y))) ->
  to_lookup_output q 64 self st = Some v -> in_u 64 x -> in_u 64 y ->
  materialize_entry 64 t (interleave_bits x y) = Some v -> query_correct q self st.
Proof.
  intros Ht Hk Hv Hx Hy He. rewrite !(wrapu_small 64 y) in Hk by done.
  exists t, (interleave_bits x y), v. repeat (split; [done|]). split; [|done].
  by apply interleave_range.
Qed.

(** A sum or a product does not wrap at 128 bits. *)
Lemma combined_correct k v :
  lookup_table q = Some t -> to_lookup_index q 64 self st = Some k ->
  to_lookup_output q 64 self st = Some v -> in_u 128 k ->
  materialize_entry 64 t k = Some v -> query_correct q self st.
Proof. intros. by exists t, k, v. Qed.
End Shapes.

Ltac at_operands :=
  cbn [materialize_entry];
  unfold AndTable_materialize_entry, AndnTable_materialize_entry, OrTable_materialize_entry,
    XorTable_materialize_entry, EqualTable_materialize_entry, NotEqualTable_materialize_entry,
    UnsignedLessThanTable_materialize_entry, UnsignedLessThanEqualTable_materialize_entry,
    UnsignedGreaterThanEqualTable_materialize_entry, SignedLessThanTable_materialize_entry,
    SignedGreaterThanEqualTable_materialize_entry, ValidDiv0Table_materialize_entry,
    ValidUnsignedRemainderTable_materialize_entry, VirtualChangeDivisorTable_materialize_entry,
    VirtualChangeDivisorWTable_materialize_entry, VirtualSRLTable_materialize_entry,
    VirtualSRATable_materialize_entry, VirtualXORROTTable_materialize_entry,
    VirtualXORROTWTable_materialize_entry;
  rewrite ?uninterleave_interleave by assumption.

(** ** Words *)
Section Words.
Context (x y : Z) (Hx : in_u 64 x) (Hy : in_u 64 y).

Lemma u128_of_u64 z : in_u 64 z -> in_u 128 z.
Proof. unfold in_u. lia. Qed.
Lemma sum_exact : as_u128 (as_u128 x + as_u64 y) = x + y.
Proof.
  rewrite (wrapu_small 128 x), (wrapu_small 64 y) by (done || by apply u128_of_u64).
  apply wrapu_small. unfold in_u in *. lia.
Qed.
Lemma product_exact : as_u128 (as_u128 x * as_u64 y) = x * y.
Proof.
  rewrite (wrapu_small 128 x), (wrapu_small 64 y) by (done || by apply u128_of_u64).
  apply wrapu_small. unfold in_u in *. nia.
Qed.
Lemma difference_exact : as_u64 (as_u128 (as_u128 x + as_u128 (Z.shiftl 1 64 - as_u128 y))) = as_u64 (x - y).
Proof.
  rewrite !(wrapu_small 128 x), !(wrapu_small 128 y) by by apply u128_of_u64.
  rewrite wrapu_add_r, wrapu_narrow by lia. replace (x + (Z.shiftl 1 64 - y)) with (x - y + 1 * 2 ^ 64)
    by (change (Z.shiftl 1 64) with (2 ^ 64); lia).
  apply wrapu_add_mul. lia.
Qed.
Lemma signed_sum_exact : as_u128 (as_i128 (x + y)) = x + y.
Proof. rewrite wraps_small, wrapu_small; [done|..]; unfold in_u, in_s in *; lia. Qed.
Lemma signed_sum_low : as_u64 (as_i64 (as_i64 x + as_i64 y)) = as_u64 (x + y).
Proof.
  rewrite wrapu_wraps by lia. destruct (wraps_shift 64 x) as [i ->], (wraps_shift 64 y) as [j ->].
  replace (x + i * 2 ^ 64 + (y + j * 2 ^ 64)) with (x + y + (i + j) * 2 ^ 64) by lia.
  apply wrapu_add_mul. lia.
Qed.
Lemma signed_product_low : as_u64 (as_i64 (as_i64 x * as_i64 y)) = as_u64 (x * y).
Proof.
  rewrite wrapu_wraps by lia. rewrite <- wrapu_mul_l, wrapu_wraps, wrapu_mul_l by lia.
  by rewrite <- wrapu_mul_r, wrapu_wraps, wrapu_mul_r by lia.
Qed.
End Words.

Lemma u64_of_u32 z : in_u 64 (as_u32 z).
Proof. pose proof (wrapu_range 32 ltac:(lia) z). unfold in_u in *. lia. Qed.

(** The index of a sum or a product fits the 128 bits of the index. *)
Lemma sum_range x y : in_u 64 x -> in_u 64 y -> in_u 128 (x + y).
Proof. unfold in_u. lia. Qed.
Lemma product_range x y : in_u 64 x -> in_u 64 y -> in_u 128 (x * y).
Proof. unfold in_u. nia. Qed.

(** The entries of the tables with one operand. *)
Lemma land_bit v k : 0 <= k -> (Z.land v (Z.shiftl 1 k) =? 0) = negb (Z.testbit v k).
Proof.
  intros Hk. rewrite pow_shiftl by done. destruct (Z.testbit v k) eqn:E; cbn [negb].
  - apply Z.eqb_neq. intros H. apply (f_equal (fun z => Z.testbit z k)) in H.
    rewrite Z.land_spec, Z.pow2_bits_true, E, Z.bits_0 in H by done. done.
  - apply Z.eqb_eq, Z.bits_inj'. intros j Hj. rewrite Z.land_spec, Z.pow2_bits_eqb, Z.bits_0 by done.
    destruct (Z.eqb_spec k j) as [<-|]; [by rewrite E|apply andb_false_r].
Qed.

Lemma Movsign_at x y : in_u 64 x -> in_u 64 y ->
  MovsignTable_materialize_entry 64 (interleave_bits x y) =
  if negb (Z.land x (Z.shiftl 1 63) =? 0) then 0xFFFFFFFFFFFFFFFF else 0.
Proof.
  intros Hx Hy. unfold MovsignTable_materialize_entry. change (2 * Z.of_nat 64 - 1) with (2 * 63 + 1).
  rewrite !land_bit by lia. destruct (testbit_interleave x y 63 Hx Hy) as [_ ->]; [lia|]. done.
Qed.

Lemma ShiftRightBitmask_at k : 0 <= k < 64 ->
  as_u64 (Z.shiftl (as_u64 (Z.shiftl 1 (64 - k) - 1)) k) =
  as_u64 (as_u128 (Z.shiftl (as_u128 (Z.shiftl 1 (64 - k)) - 1) k)).
Proof.
  intros Hk. apply Z.eqb_eq.
  exact (forall_below (fun k => as_u64 (Z.shiftl (as_u64 (Z.shiftl 1 (64 - k) - 1)) k) =?
    as_u64 (as_u128 (Z.shiftl (as_u128 (Z.shiftl 1 (64 - k)) - 1) k))) 64
    ltac:(vm_compute; reflexivity) k Hk).
Qed.

Lemma RangeCheck_at k : RangeCheckTable_materialize_entry 64 k = as_u64 k.
Proof. done. Qed.

Lemma MulUNoOverflow_at k : in_u 128 k -> MulUNoOverflowTable_materialize_entry 64 k = b2z (k <=? u64_MAX).
Proof.
  intros Hk. unfold MulUNoOverflowTable_materialize_entry, u64_MAX. change (Z.of_nat 64) with 64.
  rewrite Z.shiftr_div_pow2 by lia. f_equal. apply eq_bool_prop_intro.
  rewrite !Is_true_true, Z.eqb_eq, Z.leb_le. unfold in_u in Hk.
  pose proof (Z.div_small_iff k (2 ^ 64)). lia.
Qed.

Lemma shift_amount k m : 0 < m <= 64 -> as_u64 (k mod m) = k mod m.
Proof. intros Hm. apply wrapu_small. pose proof (Z.mod_pos_bound k m). unfold in_u. lia. Qed.

Lemma low_word k : as_u64 (k mod Z.shiftl 1 32) = Z.land (as_u64 k) (Z.ones 32).
Proof.
  rewrite Z.land_ones by lia. rewrite (wrapu_mod 32 64) by lia. change (Z.shiftl 1 32) with (2 ^ 32).
  apply wrapu_small. pose proof (Z.mod_pos_bound k (2 ^ 32)). unfold in_u. lia.
Qed.

Lemma LowerHalfWord_at k : LowerHalfWordTable_materialize_entry 64 k = Z.land (as_u64 k) (Z.ones 32).
Proof. apply low_word. Qed.

Lemma SignExtendHalfWord_at k :
  SignExtendHalfWordTable_materialize_entry 64 k =
  let half_word_size := Z.of_nat 64 / 2 in
  let lower_half := Z.land (as_u64 k) (as_u64 (Z.shiftl 1 half_word_size) - 1) in
  let sign_bit := Z.land (Z.shiftr lower_half (half_word_size - 1)) 1 in
  if sign_bit =? 1
  then Z.lor lower_half (as_u64 (Z.shiftl (as_u64 (Z.shiftl 1 half_word_size) - 1) half_word_size))
  else lower_half.
Proof.
  unfold SignExtendHalfWordTable_materialize_entry. change (Z.of_nat 64 / 2) with 32. cbv zeta.
  rewrite low_word. done.
Qed.

(** The bits of the rotation bitmasks. *)
Definition top_ones (n : nat) (s : nat) : list bool := replicate (n - s) true ++ replicate s false.

(** [n] bits of a bitmask and the rotation it stands for, checked for each amount. *)
Definition bitmask_check (n : nat) (len s : Z) : bool :=
  let s' := Z.min s (Z.of_nat n) in
  bool_decide (bits_of n (as_u64 (bitmask_imm s len)) = top_ones n (Z.to_nat s')) &&
  (Z.min (trailing_zeros 64 (as_u64 (bitmask_imm s len))) (Z.of_nat n) =? s').

Lemma bitmask_bits n len s : bitmask_check n len s = true ->
  bits_of n (as_u64 (bitmask_imm s len)) = top_ones n (Z.to_nat (Z.min s (Z.of_nat n))) /\
  Z.min (trailing_zeros 64 (as_u64 (bitmask_imm s len))) (Z.of_nat n) = Z.min s (Z.of_nat n).
Proof. unfold bitmask_check. by intros [?%bool_decide_eq_true ?%Z.eqb_eq]%andb_true_iff. Qed.

Lemma bitmask_64 s : 0 <= s < 64 -> bitmask_check 64 64 s = true.
Proof. exact (forall_below (bitmask_check 64 64) 64 ltac:(vm_compute; reflexivity) s). Qed.
Lemma bitmask_w s len : len = 32 \/ len = 64 -> 0 <= s < len -> bitmask_check 32 len s = true.
Proof.
  intros [-> | ->].
  - exact (forall_below (bitmask_check 32 32) 32 ltac:(vm_compute; reflexivity) s).
  - exact (forall_below (bitmask_check 32 64) 64 ltac:(vm_compute; reflexivity) s).
Qed.

Lemma trailing_zeros_le n v : trailing_zeros n v <= Z.of_nat n.
Proof. revert v. induction n as [|n IH]; intros v; cbn [trailing_zeros]; [lia|]. specialize (IH (Z.shiftr v 1)). destruct (Z.odd v); lia. Qed.

Lemma VirtualROTR_at x s : in_u 64 x -> 0 <= s < 64 ->
  VirtualRotrTable_materialize_entry 64 (interleave_bits x (as_u64 (bitmask_imm s 64))) =
  rotate_right 64 x (trailing_zeros 64 (as_u64 (bitmask_imm s 64))).
Proof.
  intros Hx Hs. destruct (bitmask_bits 64 64 s (bitmask_64 s Hs)) as [Hb Ht].
  rewrite Z.min_l in Ht by apply trailing_zeros_le. rewrite Ht.
  rewrite (VirtualROTR_rotates 64 x _ (Z.to_nat (Z.min s (Z.of_nat 64))));
    [|lia|done|apply wrapu_range; lia|lia|done].
  by rewrite Z2Nat.id by lia.
Qed.

Lemma VirtualROTRW_at x s len : in_u 64 x -> len = 32 \/ len = 64 -> 0 <= s < len ->
  VirtualRotrWTable_materialize_entry 64 (interleave_bits x (as_u64 (bitmask_imm s len))) =
  rotate_right 32 (as_u32 x) (Z.min (trailing_zeros 64 (as_u64 (bitmask_imm s len))) 32).
Proof.
  intros Hx Hlen Hs. destruct (bitmask_bits 32 len s (bitmask_w s len Hlen Hs)) as [Hb Ht].
  change (Z.of_nat 32) with 32 in *. rewrite Ht. rewrite (VirtualROTRW_rotates 32 x _ (Z.to_nat (Z.min s 32)));
    [|lia|done|apply wrapu_range; lia|lia|done].
  by rewrite Z2Nat.id by lia.
Qed.

(** ** The query of each instruction *)
Create HintDb query discriminated.

Section Queries.
Context (st : RegisterState) (H1 : in_u 64 (rs1_of st)) (H2 : in_u 64 (rs2_of st)) (Hd : in_u 64 (rd_post_of st)).

Ltac interleaved Hy :=
  eapply interleaved_correct; [reflexivity|reflexivity|reflexivity|exact H1|exact Hy|rewrite ?(wrapu_small 64 _ H1), ?(wrapu_small 64 _ Hy); at_operands; try reflexivity].
Ltac one_word :=
  cbn [materialize_entry]; unfold Pow2Table_materialize_entry, Pow2WTable_materialize_entry;
  by rewrite shift_amount by (change (Z.of_nat 64) with 64; lia).
Ltac bitmask :=
  cbn [materialize_entry]; unfold ShiftRightBitmaskTable_materialize_entry; change (Z.of_nat 64) with 64;
  rewrite ShiftRightBitmask_at by (apply Z.mod_pos_bound; lia); reflexivity.
Ltac words Hy :=
  rewrite ?(wrapu_small 64 _ Hy), ?(wrapu_small 128 _ (u128_of_u64 _ H1)), ?(wrapu_small 128 _ (u128_of_u64 _ Hy));
  reflexivity.
Ltac combined := eapply combined_correct; [reflexivity|reflexivity|reflexivity|..].

(** *** Interleaved operands *)
Lemma AND_query (self : Struct FormatR) : query_correct AND_lookup self st.
Proof. interleaved H2. Qed.
Lemma OR_query (self : Struct FormatR) : query_correct OR_lookup self st.
Proof. interleaved H2. Qed.
Lemma XOR_query (self : Struct FormatR) : query_correct XOR_lookup self st.
Proof. interleaved H2. Qed.
Lemma ANDN_query (self : Struct FormatR) : query_correct ANDN_lookup self st.
Proof. interleaved H2. Qed.
Lemma SLT_query (self : Struct FormatR) : query_correct SLT_lookup self st.
Proof. interleaved H2. Qed.
Lemma SLTU_query (self : Struct FormatR) : query_correct SLTU_lookup self st.
Proof. interleaved H2. Qed.
Lemma BEQ_query (self : Struct FormatB) : query_correct BEQ_lookup self st.
Proof. interleaved H2. Qed.
Lemma BNE_query (self : Struct FormatB) : query_correct BNE_lookup self st.
Proof. interleaved H2. Qed.
Lemma BLT_query (self : Struct FormatB) : query_correct BLT_lookup self st.
Proof. interleaved H2. Qed.
Lemma BGE_query (self : Struct FormatB) : query_correct BGE_lookup self st.
Proof. interleaved H2. Qed.
Lemma BLTU_query (self : Struct FormatB) : query_correct BLTU_lookup self st.
Proof. interleaved H2. Qed.
Lemma BGEU_query (self : Struct FormatB) : query_correct BGEU_lookup self st.
Proof. interleaved H2. Qed.
Lemma VirtualAssertEQ_query (self : Struct FormatB) : query_correct VirtualAssertEQ_lookup self st.
Proof. interleaved H2. Qed.
Lemma VirtualAssertLTE_query (self : Struct FormatB) : query_correct VirtualAssertLTE_lookup self st.
Proof. interleaved H2. Qed.
Lemma VirtualAssertValidUnsignedRemainder_query (self : Struct FormatB) : query_correct VirtualAssertValidUnsignedRemainder_lookup self st.
Proof. interleaved H2. Qed.
Lemma VirtualChangeDivisor_query (self : Struct FormatR) : query_correct VirtualChangeDivisor_lookup self st.
Proof. 
  interleaved H2. unfold supported. rewrite decide_True by tauto. change (Z.of_nat 64) with 64.
  by rewrite (wrapu_wrapu 64) by lia.  Qed.
Lemma ANDI_query (self : Struct FormatI) (Hi : in_u 64 (I_imm (operands self))) : query_correct ANDI_lookup self st.
Proof. interleaved Hi. Qed.
Lemma ORI_query (self : Struct FormatI) (Hi : in_u 64 (I_imm (operands self))) : query_correct ORI_lookup self st.
Proof. interleaved Hi. Qed.
Lemma XORI_query (self : Struct FormatI) (Hi : in_u 64 (I_imm (operands self))) : query_correct XORI_lookup self st.
Proof. interleaved Hi. Qed.
Lemma SLTI_query (self : Struct FormatI) (Hi : in_u 64 (I_imm (operands self))) : query_correct SLTI_lookup self st.
Proof. interleaved Hi. Qed.
Lemma SLTIU_query (self : Struct FormatI) (Hi : in_u 64 (I_imm (operands self))) : query_correct SLTIU_lookup self st.
Proof. interleaved Hi. Qed.
Lemma valid_div0_output (self : Struct FormatB) :
  to_lookup_output VirtualAssertValidDiv0_lookup 64 self st =
  Some (if rs1_of st =? 0 then b2z (rs2_of st =? u64_MAX) else 1).
Proof.
  change (to_lookup_output VirtualAssertValidDiv0_lookup 64 self st) with
    (if rs1_of st =? 0 then Some (b2z (as_u64 (rs2_of st) =? u64_MAX)) else Some 1).
  rewrite (wrapu_small 64 _ H2). by destruct (rs1_of st =? 0).
Qed.
Lemma VirtualAssertValidDiv0_query (self : Struct FormatB) : query_correct VirtualAssertValidDiv0_lookup self st.
Proof. 
  apply (interleaved_correct _ _ _ ValidDiv0 (rs1_of st) (rs2_of st)
    (if rs1_of st =? 0 then b2z (rs2_of st =? u64_MAX) else 1)); try done.
  - apply valid_div0_output.
  - at_operands. by destruct (rs1_of st =? 0).
Qed.
Lemma VirtualChangeDivisorW_query (self : Struct FormatR) : query_correct VirtualChangeDivisorW_lookup self st.
Proof. 
  pose proof (u64_of_u32 (rs1_of st)) as H1'.
  eapply interleaved_correct; [reflexivity|reflexivity|reflexivity|exact H1'|exact H2|]. at_operands.
  rewrite decide_False, decide_True by lia. by rewrite (wrapu_wrapu 32), !(wraps_wrapu 32) by lia.  Qed.
Lemma VirtualMovsign_query (self : Struct FormatI) (Hi : in_u 64 (I_imm (operands self))) : query_correct VirtualMovsign_lookup self st.
Proof. interleaved Hi. by rewrite Movsign_at. Qed.
Lemma VirtualSRL_query (self : Struct FormatVirtualRightShiftR) : query_correct VirtualSRL_lookup self st.
Proof. interleaved H2. unfold VirtualSRL_output. words H2. Qed.
Lemma VirtualSRLI_query (self : Struct FormatVirtualRightShiftI) (Hi : in_u 64 (VI_imm (operands self))) : query_correct VirtualSRLI_lookup self st.
Proof. interleaved Hi. unfold VirtualSRLI_output. words Hi. Qed.
Lemma VirtualSRA_query (self : Struct FormatVirtualRightShiftR) : query_correct VirtualSRA_lookup self st.
Proof. interleaved H2. unfold VirtualSRA_output. words H2. Qed.
Lemma VirtualSRAI_query (self : Struct FormatVirtualRightShiftI) (Hi : in_u 64 (VI_imm (operands self))) : query_correct VirtualSRAI_lookup self st.
Proof. interleaved Hi. unfold VirtualSRAI_output. words Hi. Qed.
Lemma VirtualXORROT32_query (self : Struct FormatR) : query_correct (VirtualXORROT_lookup LookupTables.VirtualXORROT32 32) self st.
Proof. interleaved H2. Qed.
Lemma VirtualXORROT24_query (self : Struct FormatR) : query_correct (VirtualXORROT_lookup LookupTables.VirtualXORROT24 24) self st.
Proof. interleaved H2. Qed.
Lemma VirtualXORROT16_query (self : Struct FormatR) : query_correct (VirtualXORROT_lookup LookupTables.VirtualXORROT16 16) self st.
Proof. interleaved H2. Qed.
Lemma VirtualXORROT63_query (self : Struct FormatR) : query_correct (VirtualXORROT_lookup LookupTables.VirtualXORROT63 63) self st.
Proof. interleaved H2. Qed.
Lemma VirtualXORROTW16_query (self : Struct FormatR) : query_correct (VirtualXORROTW_lookup LookupTables.VirtualXORROTW16 16) self st.
Proof. interleaved H2. Qed.
Lemma VirtualXORROTW12_query (self : Struct FormatR) : query_correct (VirtualXORROTW_lookup LookupTables.VirtualXORROTW12 12) self st.
Proof. interleaved H2. Qed.
Lemma VirtualXORROTW8_query (self : Struct FormatR) : query_correct (VirtualXORROTW_lookup LookupTables.VirtualXORROTW8 8) self st.
Proof. interleaved H2. Qed.
Lemma VirtualXORROTW7_query (self : Struct FormatR) : query_correct (VirtualXORROTW_lookup LookupTables.VirtualXORROTW7 7) self st.
Proof. interleaved H2. Qed.

(** *** Rotations by a bitmask *)
Lemma VirtualROTRI_query (self : Struct FormatVirtualRightShiftI) :
  (exists s, 0 <= s < 64 /\ VI_imm (operands self) = as_u64 (bitmask_imm s 64)) ->
  query_correct VirtualROTRI_lookup self st.
Proof. intros Hi.
  destruct Hi as (s & Hs & E). pose proof (wrapu_range 64 ltac:(lia) (bitmask_imm s 64)) as Hi.
  rewrite <- E in Hi. interleaved Hi. rewrite E. by rewrite VirtualROTR_at.
Qed.
Lemma VirtualROTRIW_query (self : Struct FormatVirtualRightShiftI) :
  (exists s len, (len = 32 \/ len = 64) /\ 0 <= s < len /\ VI_imm (operands self) = as_u64 (bitmask_imm s len)) ->
  query_correct VirtualROTRIW_lookup self st.
Proof. intros Hi.
  destruct Hi as (s & len & Hlen & Hs & E). pose proof (wrapu_range 64 ltac:(lia) (bitmask_imm s len)) as Hi.
  rewrite <- E in Hi. interleaved Hi. rewrite E. by rewrite VirtualROTRW_at.
Qed.

(** *** Sums, differences and products *)
Lemma ADD_query (self : Struct FormatR) : query_correct ADD_lookup self st.
Proof. combined; rewrite (sum_exact _ _ H1 H2); [by apply sum_range|]. by rewrite (wrapu_small 64 _ H2). Qed.
Lemma ADDI_query (self : Struct FormatI) (Hi : in_u 64 (I_imm (operands self))) : query_correct ADDI_lookup self st.
Proof. combined; rewrite (sum_exact _ _ H1 Hi); [by apply sum_range|]. by rewrite (wrapu_small 64 _ Hi). Qed.
Lemma SUB_query (self : Struct FormatR) : query_correct SUB_lookup self st.
Proof. combined; [apply wrapu_range; lia|]. cbn [materialize_entry]. unfold RangeCheckTable_materialize_entry. rewrite decide_True by done. by rewrite difference_exact, (wrapu_small 64 _ H2). Qed.
Lemma MUL_query (self : Struct FormatR) : query_correct MUL_lookup self st.
Proof. combined; rewrite (product_exact _ _ H1 H2); [by apply product_range|]. by rewrite signed_product_low. Qed.
Lemma VirtualMULI_query (self : Struct FormatI) (Hi : in_u 64 (I_imm (operands self))) : query_correct VirtualMULI_lookup self st.
Proof. combined; rewrite (product_exact _ _ H1 Hi); [by apply product_range|]. by rewrite signed_product_low. Qed.
Lemma MULHU_query (self : Struct FormatR) : query_correct MULHU_lookup self st.
Proof. combined; rewrite (product_exact _ _ H1 H2); [by apply product_range|]. done. Qed.
Lemma VirtualAssertMulUNoOverflow_query (self : Struct FormatB) : query_correct VirtualAssertMulUNoOverflow_lookup self st.
Proof. combined; rewrite (product_exact _ _ H1 H2); [by apply product_range|]. cbn [materialize_entry]. by rewrite MulUNoOverflow_at by by apply product_range. Qed.
Lemma LUI_query (self : Struct FormatU) (Hi : in_u 64 (U_imm (operands self))) : query_correct LUI_lookup self st.
Proof. combined; rewrite (wrapu_small 64 _ Hi); [by apply u128_of_u64|]. cbn [materialize_entry]. by rewrite RangeCheck_at, (wrapu_small 64 _ Hi). Qed.
Lemma AUIPC_query (self : Struct FormatU) (Ha : in_u 64 (address self))  (Hi : in_u 64 (U_imm (operands self))) : query_correct AUIPC_lookup self st.
Proof. combined; rewrite (signed_sum_exact _ _ Ha Hi); [by apply sum_range|]. by rewrite signed_sum_low. Qed.
Lemma JAL_query (self : Struct FormatJ) (Ha : in_u 64 (address self))  (Hi : in_u 64 (J_imm (operands self))) : query_correct JAL_lookup self st.
Proof. combined; rewrite (signed_sum_exact _ _ Ha Hi); [by apply sum_range|]. by rewrite signed_sum_low. Qed.
Lemma JALR_query (self : Struct FormatI) (Hi : in_u 64 (I_imm (operands self))) : query_correct JALR_lookup self st.
Proof. combined; rewrite (signed_sum_exact _ _ H1 Hi); [by apply sum_range|]. by rewrite signed_sum_low. Qed.
Lemma VirtualAssertHalfwordAlignment_query (self : Struct FormatAssert) : query_correct VirtualAssertHalfwordAlignment_lookup self st.
Proof. combined; [apply wrapu_range; lia|done]. Qed.
Lemma VirtualAssertWordAlignment_query (self : Struct FormatAssert) : query_correct VirtualAssertWordAlignment_lookup self st.
Proof. combined; [apply wrapu_range; lia|done]. Qed.

(** *** Advice *)
Lemma VirtualAdvice_query (self : Struct (FormatJ * Z)) (Hi : in_u 64 (snd (operands self))) : query_correct VirtualAdvice_lookup self st.
Proof. combined; [by apply u128_of_u64|]. cbn [materialize_entry]. by rewrite RangeCheck_at, (wrapu_small 64 _ Hi). Qed.
Lemma VirtualAdviceLen_query (self : Struct FormatI) : query_correct VirtualAdviceLen_lookup self st.
Proof. combined; [by apply u128_of_u64|]. cbn [materialize_entry]. by rewrite RangeCheck_at, (wrapu_small 64 _ Hd). Qed.
Lemma VirtualAdviceLoad_query (self : Struct FormatJ) : query_correct VirtualAdviceLoad_lookup self st.
Proof. combined; [by apply u128_of_u64|]. cbn [materialize_entry]. by rewrite RangeCheck_at, (wrapu_small 64 _ Hd). Qed.

(** *** One operand *)
Lemma zero_extend_operands (self : Struct FormatI) :
  to_lookup_operands VirtualZeroExtendWord_lookup 64 self st = Some (0, rs1_of st).
Proof.
  change (to_lookup_operands VirtualZeroExtendWord_lookup 64 self st) with
    (if as_i128 (rs1_of st + 0) <? 0 then None else Some (0, as_i128 (rs1_of st + 0))).
  rewrite Z.add_0_r, wraps_small by (unfold in_u, in_s in *; lia).
  destruct (Z.ltb_spec (rs1_of st) 0); [unfold in_u in H1; lia|done].
Qed.
Lemma zero_extend_output (self : Struct FormatI) :
  to_lookup_output VirtualZeroExtendWord_lookup 64 self st = Some (Z.land (as_u64 (rs1_of st)) (Z.ones 32)).
Proof.
  change (to_lookup_output VirtualZeroExtendWord_lookup 64 self st) with
    ('(_, y) ← to_lookup_operands VirtualZeroExtendWord_lookup 64 self st; Some (Z.land (as_u64 y) (Z.ones 32))).
  by rewrite zero_extend_operands.
Qed.
Lemma VirtualZeroExtendWord_query (self : Struct FormatI) : query_correct VirtualZeroExtendWord_lookup self st.
Proof. 
  pose proof (zero_extend_operands self) as E.
  apply (combined_correct _ _ _ LowerHalfWord (rs1_of st) (Z.land (as_u64 (rs1_of st)) (Z.ones 32))); [done|..].
  - change (to_lookup_index VirtualZeroExtendWord_lookup 64 self st) with
      (second_operand_index 64 self st (to_lookup_operands VirtualZeroExtendWord_lookup)).
    unfold second_operand_index. by rewrite E.
  - apply zero_extend_output.
  - by apply u128_of_u64.
  - cbn [materialize_entry]. by rewrite LowerHalfWord_at, (wrapu_small 64 _ H1).  Qed.
Lemma VirtualSignExtendWord_query (self : Struct FormatI) : query_correct VirtualSignExtendWord_lookup self st.
Proof. 
  combined; [apply wrapu_range; lia|]. cbn [materialize_entry]. by rewrite SignExtendHalfWord_at.  Qed.
Lemma VirtualRev8W_query (self : Struct FormatI) : query_correct VirtualRev8W_lookup self st.
Proof. combined; [by apply u128_of_u64|]. cbn [materialize_entry]. unfold VirtualRev8WTable_materialize_entry. by rewrite (wrapu_small 64 _ H1). Qed.
Lemma VirtualPow2_query (self : Struct FormatI) : query_correct VirtualPow2_lookup self st.
Proof. combined; [apply wrapu_range; lia|]. one_word. Qed.
Lemma VirtualPow2W_query (self : Struct FormatI) : query_correct VirtualPow2W_lookup self st.
Proof. combined; [apply wrapu_range; lia|]. one_word. Qed.
Lemma VirtualPow2I_query (self : Struct FormatJ) : query_correct VirtualPow2I_lookup self st.
Proof. combined; [apply wrapu_range; lia|]. one_word. Qed.
Lemma VirtualPow2IW_query (self : Struct FormatJ) : query_correct VirtualPow2IW_lookup self st.
Proof. combined; [apply wrapu_range; lia|]. one_word. Qed.
Lemma VirtualShiftRightBitmask_query (self : Struct FormatI) : query_correct VirtualShiftRightBitmask_lookup self st.
Proof. combined; [apply wrapu_range; lia|]. bitmask. Qed.
Lemma VirtualShiftRightBitmaskI_query (self : Struct FormatJ) : query_correct VirtualShiftRightBitmaskI_lookup self st.
Proof. combined; [apply wrapu_range; lia|]. bitmask. Qed.
End Queries.
#[export] Hint Resolve AND_query OR_query XOR_query ANDN_query SLT_query SLTU_query BEQ_query BNE_query
  BLT_query BGE_query BLTU_query BGEU_query VirtualAssertEQ_query VirtualAssertLTE_query
  VirtualAssertValidUnsignedRemainder_query VirtualChangeDivisor_query ANDI_query ORI_query XORI_query
  SLTI_query SLTIU_query VirtualAssertValidDiv0_query VirtualChangeDivisorW_query VirtualMovsign_query
  VirtualSRL_query VirtualSRLI_query VirtualSRA_query VirtualSRAI_query VirtualXORROT32_query
  VirtualXORROT24_query VirtualXORROT16_query VirtualXORROT63_query VirtualXORROTW16_query
  VirtualXORROTW12_query VirtualXORROTW8_query VirtualXORROTW7_query VirtualROTRI_query VirtualROTRIW_query
  ADD_query ADDI_query SUB_query MUL_query VirtualMULI_query MULHU_query VirtualAssertMulUNoOverflow_query
  LUI_query AUIPC_query JAL_query JALR_query VirtualAssertHalfwordAlignment_query
  VirtualAssertWordAlignment_query VirtualAdvice_query VirtualAdviceLen_query VirtualAdviceLoad_query
  VirtualZeroExtendWord_query VirtualSignExtendWord_query VirtualRev8W_query VirtualPow2_query
  VirtualPow2W_query VirtualPow2I_query VirtualPow2IW_query VirtualShiftRightBitmask_query
  VirtualShiftRightBitmaskI_query : query.

Lemma query_of_correct (c : Cycle) : cycle_in_range c ->
  match query_of (instruction c) with
  | Some (Query_of q self) => lookup_table q <> None -> query_correct q self (register_state c)
  | None => True
  end.
Proof.
  intros [Ha H1 H2 Hd Hi]. unfold query_of.
  destruct (operands (instruction c)) as [] eqn:E; try exact I;
    cbv beta iota delta [imm_in_range] in Hi; intros Ht; first [by destruct Ht|auto with query nocore].
Qed.

(** C7: for every instruction with a lookup table and every cycle whose values fit
    the 64-bit machine, the claimed lookup output is the entry of the
    instruction's table at the cycle's lookup index, and the index fits the
    128 bits the table is indexed by. *)
Theorem lookup_output_is_table_entry (c : Cycle) (t : LookupTables) :
  cycle_in_range c -> Instruction_lookup_table (instruction c) = Some (Some t) ->
  exists k v, Cycle_to_lookup_index 64 c = Some k /\ in_u 128 k /\
    Cycle_to_lookup_output 64 c = Some v /\ materialize_entry 64 t k = Some v.
Proof.
  intros Hc. pose proof (query_of_correct c Hc) as H. revert H.
  unfold Instruction_lookup_table, Cycle_to_lookup_index, Cycle_to_lookup_output.
  destruct (query_of (instruction c)) as [[F q self]|]; [|done].
  intros H [= Et]. destruct H as (t' & k & v & Et' & Hk & Hr & Hv & He); [congruence|].
  assert (t' = t) as -> by congruence. by exists k, v.
Qed.

Lemma lookup_output_is_table_entry_witness :
  let c := {| instruction := at_instr (Instr.SUB {| R_rd := 3; R_rs1 := 1; R_rs2 := 2 |});
              register_state := {| rs1_value := Some 5; rs2_value := Some 7; rd_values := Some (0, 2 ^ 64 - 2) |};
              ram_access := NoRAM |} in
  exists k, Instruction_lookup_table (instruction c) = Some (Some RangeCheck) /\
    Cycle_to_lookup_index 64 c = Some k /\ materialize_entry 64 RangeCheck k = Some (2 ^ 64 - 2).
Proof.
  intros c. destruct (lookup_output_is_table_entry c RangeCheck) as (k & v & Hk & _ & Hv & He).
  - split; cbn; unfold in_u; lia.
  - reflexivity.
  - exists k. split; [done|]. split; [done|]. vm_compute in Hv. injection Hv as <-. done.
Defined.
