(* ===== verification/QueryExec.v ===== *)
(** * QueryExec: lookup outputs and the execution of instructions

    The lookup output of a traced cycle is what the instruction's [exec] does:
    the value written to [rd], the target of a jump, the outcome of a branch,
    and for an assertion whether it holds. *)
From S2P Require Import Prelude Bits LookupTables Mle TablesMle ShiftsMle IndexMle.
From S2P Require Import TablesCorrect Registers AdviceTape Mmu Cpu Formats Instr Assembler.
From S2P Require Import Sequences Trace ExecWf Exec64 SeqArith LookupQuery QueryCorrect.

(** ** Signed registers and their unsigned views *)
Section Signed.
Context (a b : Z) (Ha : in_s 64 a) (Hb : in_s 64 b).
Abbreviation x := (as_u64 a).
Abbreviation y := (as_u64 b).

Lemma signed_view : as_i64 x = a.
Proof. rewrite wraps_wrapu by lia. by apply wraps_small. Qed.

Lemma add_view : as_u64 (x + as_u64 y) = as_u64 (as_i64 (a + b)).
Proof. by rewrite (wrapu_wrapu 64), wrapu_add_l, wrapu_add_r, (wrapu_wraps 64) by lia. Qed.
Lemma sub_view : as_u64 (x - as_u64 y) = as_u64 (as_i64 (a - b)).
Proof. by rewrite (wrapu_wrapu 64), wrapu_sub_l, wrapu_sub_r, (wrapu_wraps 64) by lia. Qed.
Lemma mulhu_view :
  as_u64 (Z.shiftr (as_u128 (as_u128 x * as_u64 y)) 64) = as_u64 (as_i64 (Z.shiftr (as_u128 (x * y)) 64)).
Proof.
  rewrite wrapu_wraps by lia. rewrite (wrapu_small 128 x), (wrapu_small 64 y); [done|..].
  - apply wrapu_range; lia.
  - apply u128_of_u64, wrapu_range; lia.
Qed.

(** Bitwise operations commute with the view. *)
Lemma land_view : Z.land x (as_u64 y) = as_u64 (Z.land a b).
Proof.
  rewrite (wrapu_wrapu 64) by lia. unfold wrapu. rewrite <- !Z.land_ones by lia.
  apply Z.bits_inj'. intros j Hj. rewrite !Z.land_spec. by destruct (Z.testbit (Z.ones 64) j), (Z.testbit a j), (Z.testbit b j).
Qed.
Lemma lor_view : Z.lor x (as_u64 y) = as_u64 (Z.lor a b).
Proof.
  rewrite (wrapu_wrapu 64) by lia. unfold wrapu. rewrite <- !Z.land_ones by lia.
  apply Z.bits_inj'. intros j Hj. rewrite !Z.land_spec, !Z.lor_spec, !Z.land_spec.
  by destruct (Z.testbit (Z.ones 64) j), (Z.testbit a j), (Z.testbit b j).
Qed.
Lemma lxor_view : Z.lxor x (as_u64 y) = as_u64 (Z.lxor a b).
Proof.
  rewrite (wrapu_wrapu 64) by lia. unfold wrapu. rewrite <- !Z.land_ones by lia.
  apply Z.bits_inj'. intros j Hj. rewrite !Z.land_spec, !Z.lxor_spec, !Z.land_spec.
  by destruct (Z.testbit (Z.ones 64) j), (Z.testbit a j), (Z.testbit b j).
Qed.
Lemma andn_view : Z.land x (not_u64 (as_u64 y)) = as_u64 (Z.land a (Z.lnot b)).
Proof.
  rewrite (wrapu_wrapu 64) by lia. unfold not_u64, wrapu. rewrite <- !Z.land_ones by lia.
  apply Z.bits_inj'. intros j Hj. rewrite !Z.land_spec, !Z.lnot_spec, !Z.land_spec by done.
  by destruct (Z.testbit (Z.ones 64) j), (Z.testbit a j), (Z.testbit b j).
Qed.
Lemma lxor_view32 : Z.lxor (as_u32 x) (as_u32 y) = Z.lxor (as_u32 a) (as_u32 b).
Proof. by rewrite !(wrapu_narrow 32 64) by lia. Qed.

(** Equality of the views is equality. *)
Lemma eqb_view : (x =? as_u64 y) = (a =? b).
Proof.
  rewrite (wrapu_wrapu 64) by lia. apply eq_bool_prop_intro. rewrite !Is_true_true, !Z.eqb_eq.
  split; [|by intros ->]. intros E. by apply (in_s_wrapu_inj 64).
Qed.

Lemma zero_view : (x =? 0) = (a =? 0).
Proof.
  apply eq_bool_prop_intro. rewrite !Is_true_true, !Z.eqb_eq. split; [|by intros ->].
  intros E. apply (in_s_wrapu_inj 64); [lia|done|done|]. by rewrite E.
Qed.
End Signed.

(** A boolean is its own view. *)
Lemma b2z_view p : as_u64 (b2z p) = b2z p.
Proof. by destruct p. Qed.

(** An immediate is the view of its signed reading. *)
Lemma imm_view i : in_u 64 i -> as_u64 (as_i64 i) = i.
Proof. intros. rewrite wrapu_wraps by lia. by apply wrapu_small. Qed.

(** ** Right shifts by a bitmask *)
Lemma VirtualSRL_output_entry x y : in_u 64 x -> in_u 64 y ->
  VirtualSRL_output 64 x y = VirtualSRLTable_materialize_entry 64 (interleave_bits x y).
Proof.
  intros Hx Hy. unfold VirtualSRL_output, VirtualSRLTable_materialize_entry.
  rewrite uninterleave_interleave, (wrapu_small 128 x), (wrapu_small 128 y) by (done || by apply u128_of_u64).
  reflexivity.
Qed.

Lemma VirtualSRA_output_entry x y : in_u 64 x -> in_u 64 y ->
  VirtualSRA_output 64 x y = VirtualSRATable_materialize_entry 64 (interleave_bits x y).
Proof.
  intros Hx Hy. unfold VirtualSRA_output, VirtualSRATable_materialize_entry.
  rewrite uninterleave_interleave, (wrapu_small 64 y), (wrapu_small 128 x), (wrapu_small 128 y)
    by (done || by apply u128_of_u64).
  reflexivity.
Qed.

Lemma srl_ones hi lo e : map snd hi = replicate (length hi) true ->
  rfold srl_step (hi ++ lo) e = rfold srl_step lo (e * 2 ^ Z.of_nat (length hi) + xs_of hi).
Proof.
  revert e. induction hi as [|[a b] t IH]; intros e Hs.
  { cbn [app length map bval]. f_equal. lia. }
  cbn [map snd length replicate] in Hs. injection Hs as -> Hs.
  cbn [app rfold]. unfold srl_step at 2. cbn [fst snd b2z]. rewrite (IH _ Hs). cbn [map fst bval length].
  rewrite length_map, Nat2Z.inj_succ, Z.pow_succ_r by lia. f_equal. ring.
Qed.

Lemma srl_zeros lo e : map snd lo = replicate (length lo) false -> rfold srl_step lo e = e.
Proof.
  revert e. induction lo as [|[a b] t IH]; intros e Hs; [done|].
  cbn [map snd length replicate] in Hs. injection Hs as -> Hs.
  cbn [rfold]. rewrite (IH _ Hs). unfold srl_step. cbn [fst snd b2z]. ring.
Qed.

(** The pairs of a word and the bitmask of a shift, for both tables. *)
Lemma shift_pairs x s : in_u 64 x -> 0 <= s < 64 ->
  exists hi lo, pairs_of 64 x (as_u64 (bitmask_imm s 64)) = hi ++ lo /\
    length lo = Z.to_nat s /\ length hi = (64 - Z.to_nat s)%nat /\
    map snd hi = replicate (length hi) true /\ map snd lo = replicate (length lo) false /\
    xs_of hi = Z.shiftr x s /\ x = bval (map fst hi ++ map fst lo).
Proof.
  intros Hx Hs. destruct (bitmask_bits 64 64 s (bitmask_64 s Hs)) as [Hb _].
  replace (Z.min s (Z.of_nat 64)) with s in Hb by lia.
  destruct (pairs_bitmask 64 x _ (Z.to_nat s) ltac:(lia) Hb) as (hi & lo & E & Hlo & Hhi & H1 & H0).
  exists hi, lo. repeat (split; [done|]).
  destruct (pairs_of_spec 64 x (as_u64 (bitmask_imm s 64))) as (_ & Hf & _).
  rewrite E, map_app in Hf. assert (Ex : x = bval (map fst hi ++ map fst lo)).
  { by rewrite Hf, bval_bits_of, Z.mod_small. }
  split; [|done]. rewrite Ex, <- (shiftr_app (map fst hi) (map fst lo)). f_equal. rewrite length_map. lia.
Qed.

Lemma VirtualSRL_output_shift x s : in_u 64 x -> 0 <= s < 64 ->
  VirtualSRL_output 64 x (as_u64 (bitmask_imm s 64)) = Z.shiftr x s.
Proof.
  intros Hx Hs. pose proof (wrapu_range 64 ltac:(lia) (bitmask_imm s 64)) as Hy.
  rewrite VirtualSRL_output_entry, (interleave_weave 64) by (done || lia).
  destruct (pairs_of_spec 64 x (as_u64 (bitmask_imm s 64))) as (Hl & _ & _).
  pose proof (VirtualSRL_entry (pairs_of 64 x (as_u64 (bitmask_imm s 64)))) as He. rewrite Hl in He.
  rewrite He by lia. destruct (shift_pairs x s Hx Hs) as (hi & lo & -> & _ & _ & H1 & H0 & Hxs & _).
  rewrite srl_ones, srl_zeros, Hxs by done. lia.
Qed.

(** The sign extension of the arithmetic shift fills the zeros of the bitmask. *)
Lemma sra_ones n hi lo e g : map snd hi = replicate (length hi) true ->
  rfold (sra_step n) (hi ++ lo) (e, g) =
  rfold (sra_step n) lo (e * 2 ^ Z.of_nat (length hi) + xs_of hi, g).
Proof.
  revert e. induction hi as [|[a b] t IH]; intros e Hs.
  { cbn [app length map bval]. f_equal. apply f_equal2; [lia|done]. }
  cbn [map snd length replicate] in Hs. injection Hs as -> Hs.
  cbn [app rfold sra_step]. unfold srl_step. cbn [fst snd b2z negb]. rewrite Z.mul_0_r, Z.add_0_r.
  replace (if Nat.eqb _ 0 then g else g) with g by (by destruct (Nat.eqb _ 0)).
  rewrite (IH _ Hs). cbn [map fst bval length].
  rewrite length_map, Nat2Z.inj_succ, Z.pow_succ_r by lia. f_equal. apply f_equal2; [ring|done].
Qed.

Lemma sra_zeros n lo e g : (length lo < n)%nat -> map snd lo = replicate (length lo) false ->
  rfold (sra_step n) lo (e, g) = (e, g + 2 ^ Z.of_nat n - 2 ^ Z.of_nat (n - length lo)).
Proof.
  revert e g. induction lo as [|[a b] t IH]; intros e g Hn Hs.
  { cbn [rfold length]. rewrite Nat.sub_0_r. apply f_equal2; [done|lia]. }
  cbn [map snd length replicate] in *. injection Hs as -> Hs.
  cbn [rfold sra_step]. unfold srl_step. cbn [fst snd b2z negb].
  destruct (Nat.eqb_spec (n - 1 - length t) 0) as [|_]; [lia|]. rewrite (IH _ _ ltac:(lia) Hs).
  replace (n - length t)%nat with (S (n - S (length t))) by lia.
  replace (n - 1 - length t)%nat with (n - S (length t))%nat by lia.
  rewrite Nat2Z.inj_succ, Z.pow_succ_r by lia. apply f_equal2; [ring|lia].
Qed.

Lemma VirtualSRA_output_shift x s : in_u 64 x -> 0 <= s < 64 ->
  VirtualSRA_output 64 x (as_u64 (bitmask_imm s 64)) = as_u64 (Z.shiftr (as_i64 x) s).
Proof.
  intros Hx Hs. pose proof (wrapu_range 64 ltac:(lia) (bitmask_imm s 64)) as Hy.
  rewrite VirtualSRA_output_entry, (interleave_weave 64) by (done || lia).
  destruct (shift_pairs x s Hx Hs) as (hi & lo & -> & Hlo & Hhi & H1 & H0 & Hxs & Ex).
  destruct hi as [|[a b] t]; [cbn [length] in Hhi; lia|]. cbn [length] in Hhi.
  rewrite <- app_comm_cons. rewrite (VirtualSRA_entry 64 a b (t ++ lo)) by (rewrite ?length_app; lia).
  rewrite app_comm_cons, sra_ones, sra_zeros by (done || lia). rewrite Hxs, Hlo.
  assert (Hsx : as_i64 x = x - b2z a * 2 ^ 64).
  { pose proof (wraps_sign a (map fst t ++ map fst lo)) as Hw. cbn [map fst app] in Ex.
    rewrite <- Ex in Hw. replace (length (a :: map fst t ++ map fst lo)) with 64%nat in Hw; [done|].
    cbn [length]. rewrite length_app, !length_map. lia. }
  rewrite Hsx. assert (Hp : 2 ^ 64 = 2 ^ Z.of_nat (64 - Z.to_nat s) * 2 ^ s).
  { rewrite <- Z.pow_add_r by lia. f_equal. lia. }
  rewrite !Z.shiftr_div_pow2 by lia. change (Z.of_nat 64) with 64. rewrite Hp at 2.
  replace (x - b2z a * (2 ^ Z.of_nat (64 - Z.to_nat s) * 2 ^ s)) with
    (x + - (b2z a * 2 ^ Z.of_nat (64 - Z.to_nat s)) * 2 ^ s) by ring.
  rewrite Z.div_add by (pose proof (pow2_pos s); lia).
  replace (x / 2 ^ s + - (b2z a * 2 ^ Z.of_nat (64 - Z.to_nat s))) with
    ((0 * 2 ^ Z.of_nat 0 + x / 2 ^ s + b2z a * (0 + 2 ^ 64 - 2 ^ Z.of_nat (64 - Z.to_nat s))) + - b2z a * 2 ^ 64)
    by (change (2 ^ Z.of_nat 0) with 1; ring).
  rewrite wrapu_add_mul by lia. cbn [Z.mul Z.add]. symmetry. apply wrapu_small.
  assert (Hd : 0 <= x / 2 ^ s < 2 ^ Z.of_nat (64 - Z.to_nat s)).
  { unfold in_u in Hx. pose proof (pow2_pos s). split; [apply Z.div_pos; lia|].
    apply Z.div_lt_upper_bound; lia. }
  pose proof (b2z_range a). unfold in_u. nia.
Qed.

(** The alignment checks, on the 128-bit index and on the address. *)
Lemma aligned_view k a m : 0 <= k <= 64 ->
  wrapu k (as_u128 (as_i128 (as_u64 a + m))) = wrapu k (as_i64 (a + m)).
Proof.
  intros Hk. rewrite (wrapu_narrow k 128), (wrapu_narrow_s k 128), (wrapu_narrow_s k 64) by lia.
  by rewrite <- (wrapu_add_l k (as_u64 a)), (wrapu_narrow k 64), wrapu_add_l by lia.
Qed.
Lemma aligned_2 a m : (as_u128 (as_i128 (as_u64 a + m)) mod 2 =? 0) = (Z.land (as_i64 (a + m)) 1 =? 0).
Proof.
  change 1 with (Z.ones 1). rewrite Z.land_ones by lia. change 2 with (2 ^ 1) at 1.
  f_equal. by apply (aligned_view 1).
Qed.
Lemma aligned_4 a m : (as_u128 (as_i128 (as_u64 a + m)) mod 4 =? 0) = (Z.land (as_i64 (a + m)) 3 =? 0).
Proof.
  change 3 with (Z.ones 2). rewrite Z.land_ones by lia. change 4 with (2 ^ 2).
  f_equal. by apply (aligned_view 2).
Qed.

Lemma if_write (b : bool) c r v w :
  (if b then Some (wr c r v) else Some (wr c r w)) = Some (wr c r (if b then v else w)).
Proof. by destruct b. Qed.

(** The sign extension of the low word, as the table computes it. *)
Lemma sext_output v :
  (let half_word_size := Z.of_nat 64 / 2 in
   let lower_half := Z.land v (as_u64 (Z.shiftl 1 half_word_size) - 1) in
   let sign_bit := Z.land (Z.shiftr lower_half (half_word_size - 1)) 1 in
   if sign_bit =? 1
   then Z.lor lower_half (as_u64 (Z.shiftl (as_u64 (Z.shiftl 1 half_word_size) - 1) half_word_size))
   else lower_half) = as_u64 (as_i32 v).
Proof.
  cbv zeta. change (Z.of_nat 64 / 2) with 32. change (as_u64 (Z.shiftl 1 32) - 1) with (Z.ones 32).
  rewrite Z.land_ones by lia. fold (as_u32 v). rewrite <- (wraps_wrapu 32 ltac:(lia) v).
  pose proof (wrapu_range 32 ltac:(lia) v) as Hw. generalize dependent (as_u32 v). intros w Hw.
  change (as_u64 (Z.shiftl (Z.ones 32) 32)) with (Z.shiftl (Z.ones 32) 32).
  rewrite Z.lor_comm, lor_low by (done || lia). change (32 - 1) with 31.
  change 1 with (Z.ones 1) at 1. rewrite Z.land_ones, Z.shiftr_div_pow2 by lia.
  unfold in_u in Hw. change (Z.ones 32) with (2 ^ 32 - 1).
  destruct (decide (w < 2 ^ 31)).
  - rewrite Z.div_small, (wraps_small 32), (wrapu_small 64) by (unfold in_s, in_u; lia). done.
  - replace (w / 2 ^ 31) with 1 by (apply (Z.div_unique _ _ _ (w - 2 ^ 31)); lia).
    rewrite (wraps_eq_mul 32 w (w - 2 ^ 32) 1), (wraps_small 32) by (unfold in_s; lia).
    replace (w - 2 ^ 32) with ((2 ^ 32 - 1) * 2 ^ 32 + w + -1 * 2 ^ 64) by lia.
    rewrite wrapu_add_mul, wrapu_small by (unfold in_u; lia). done.
Qed.

Lemma zero_u64 : in_u 64 0.
Proof. unfold in_u. lia. Qed.

Lemma rotate_view w z k : 0 < w <= 64 -> as_u64 (as_i64 (rotate_right w z k)) = rotate_right w z k.
Proof.
  intros Hw. rewrite wrapu_wraps by lia. apply wrapu_small.
  pose proof (wrapu_range w ltac:(lia) (Z.lor (Z.shiftr z (k mod w)) (Z.shiftl z (w - k mod w)))) as H.
  pose proof (Z.pow_le_mono_r 2 w 64). unfold rotate_right, in_u in *. lia.
Qed.

Lemma shr_bitmask v y s : 0 <= s < 64 -> as_u64 y = as_u64 (bitmask_imm s 64) ->
  wrapping_shr v (trailing_zeros_64 y) = Z.shiftr v s.
Proof.
  intros Hs E. unfold trailing_zeros_64. rewrite E. pose proof (trailing_zeros_bitmask_imm s Hs) as Ht.
  unfold trailing_zeros_64 in Ht. rewrite wrapu_wrapu in Ht by lia. rewrite Ht.
  unfold wrapping_shr. by rewrite Z.mod_small.
Qed.

Lemma srl_view a s : 0 <= s -> as_u64 (as_i64 (Z.shiftr (as_u64 a) s)) = Z.shiftr (as_u64 a) s.
Proof.
  intros Hs. rewrite wrapu_wraps by lia. apply wrapu_small.
  pose proof (wrapu_range 64 ltac:(lia) a) as Ha. unfold in_u in *. rewrite Z.shiftr_div_pow2 by done.
  pose proof (pow2_pos s Hs). split; [apply Z.div_pos; lia|]. apply Z.div_lt_upper_bound; nia.
Qed.

Lemma VirtualSRLI_output_eq : VirtualSRLI_output = VirtualSRL_output.
Proof. reflexivity. Qed.
Lemma VirtualSRAI_output_eq n x y : in_u 64 y -> VirtualSRAI_output n x y = VirtualSRA_output n x y.
Proof. intros Hy. unfold VirtualSRAI_output, VirtualSRA_output. by rewrite (wrapu_small 64 y). Qed.

Lemma write_register_pc c r v c' : write_register c r v = Some c' -> pc c' = pc c.
Proof. unfold write_register. destruct r; [by intros [= ->]|]. case_decide; [|done]. by intros [= <-]. Qed.

(** [JALR] clears the low bit of its target. *)
Lemma jalr_target x y a b : as_u64 x = as_u64 a -> as_u64 y = as_u64 b ->
  Z.land (as_u64 (as_i64 (a + as_i64 b))) (as_u64 (Z.lnot 1)) =
  Z.land (as_u64 (as_i64 (as_i64 x + as_i64 y))) (not_u64 1).
Proof.
  intros Hx Hy. change (not_u64 1) with (as_u64 (Z.lnot 1)). rewrite !(wrapu_wraps 64) by lia.
  rewrite <- (wrapu_add_l 64 (as_i64 x)), <- (wrapu_add_r 64 _ (as_i64 y)), !(wrapu_wraps 64), Hx, Hy by lia.
  rewrite wrapu_add_l, wrapu_add_r. rewrite <- (wrapu_add_r 64 a (as_i64 b)), (wrapu_wraps 64), wrapu_add_r by lia.
  done.
Qed.

(** ** The register state of a traced cycle *)

(** What a cycle records of the registers: the values read and written. *)
Record views (c c' : Cpu) (op : Op) (st : RegisterState) : Prop := {
  view_rs1 : forall r, norm_rs1 (op_operands op) = Some r -> rs1_of st = as_u64 (reg c r);
  view_rs2 : forall r, norm_rs2 (op_operands op) = Some r -> rs2_of st = as_u64 (reg c r);
  view_rd : forall r, norm_rd (op_operands op) = Some r -> rd_post_of st = as_u64 (reg c' r);
  view_range : in_u 64 (rs1_of st) /\ in_u 64 (rs2_of st) /\ in_u 64 (rd_post_of st)
}.

Lemma normalize_register_64 c r : cpu_wf c -> xlen c = Bit64 -> valid_reg r ->
  normalize_register_value c r = Some (as_u64 (reg c r)).
Proof.
  intros Hc Hx Hr. unfold normalize_register_value. rewrite Hx. destruct r as [|r].
  - by rewrite (reg_zero c Hc).
  - by rewrite (lookup_reg c Hc).
Qed.

Lemma captured_views c c' op st st' :
  cpu_wf c -> cpu_wf c' -> xlen c = Bit64 -> xlen c' = Bit64 -> op_valid op ->
  op_capture_pre op c = Some st -> op_capture_post op st c' = Some st' -> views c c' op st'.
Proof.
  intros Hc Hc' Hx Hx' Hv. pose proof (wrapu_range 64 ltac:(lia)) as Hr.
  assert (Hz : in_u 64 0) by (unfold in_u; lia).
  revert Hv. unfold op_valid, op_capture_pre, op_capture_post, op_operands.
  destruct op; cbn; intros (H1 & H2 & H3);
    unfold capture_pre_rd_rs1_rs2, capture_pre_rd_rs1, capture_pre_rd, capture_post_rd;
    rewrite ?(normalize_register_64 c) by done; intros [= <-]; cbn;
    rewrite ?(normalize_register_64 c') by done; intros [= <-];
    (split; [intros ? [=]; subst; reflexivity..|repeat split; apply Hr || apply Hz]).
Qed.

Lemma captured i c c' cy :
  cpu_wf c -> xlen c = Bit64 -> op_valid (operands i) -> default_trace_cycle i c = Some (c', [cy]) ->
  execute i c = Some c' /\ instruction cy = i /\ views c c' (operands i) (register_state cy).
Proof.
  intros Hc Hx Hv. unfold default_trace_cycle. intros H.
  apply bind_Some in H as (st & Hst & H). apply bind_Some in H as ([c1 a] & He & H).
  apply bind_Some in H as (st' & Hst' & H). injection H as -> <-. cbn [instruction register_state].
  pose proof (execute_ram_fst i c) as Hf. rewrite He in Hf. symmetry in Hf. clear He. rename Hf into He.
  cbn [fmap option_fmap option_map fst] in He.
  split; [done|]. split; [done|]. pose proof (execute_keeps i c c' He) as Hk.
  eapply captured_views; try done.
  - by apply (keeps_wf _ _ Hk).
  - by rewrite (keeps_xlen _ _ Hk).
Qed.

(** ** What the output of a cycle means *)

(** [VirtualAssertEQ] asserts when its [imm] is zero only. *)
Definition asserts (op : Op) : bool :=
  match op with VirtualAssertEQ o => B_imm o =? 0 | _ => true end.

(** The bitmask operand of the right shifts has the shape their sequences
    give it. *)
Definition shift_by_bitmask (c : Cpu) (op : Op) : Prop :=
  match op with
  | Instr.VirtualSRL o | Instr.VirtualSRA o =>
      exists s, 0 <= s < 64 /\ as_u64 (reg c (VR_rs2 o)) = as_u64 (bitmask_imm s 64)
  | Instr.VirtualSRLI o | Instr.VirtualSRAI o => exists s, 0 <= s < 64 /\ VI_imm o = as_u64 (bitmask_imm s 64)
  | _ => True
  end.

(** The output [v] of a cycle of [i] from [c] to [c'], by the flags of [i]. *)
Record output_agrees (i : Instruction) (c c' : Cpu) (v : Z)
    (flags : CircuitFlags -> bool) (iflags : InstructionFlags -> bool) : Prop := {
  agrees_rd : flags WriteLookupOutputToRD = true ->
    forall rd, norm_rd (op_operands (operands i)) = Some rd -> rd <> 0%nat -> as_u64 (reg c' rd) = v;
  agrees_jump : flags Jump = true -> pc c' = v;
  agrees_branch : iflags Branch = true ->
    v = 1 /\ c' = update_pc c (branch_target (address i) (norm_imm (op_operands (operands i)))) \/
    v = 0 /\ c' = c;
  agrees_assert : flags LookupQuery.Assert = true -> asserts (operands i) = true -> v = 1 /\ c' = c
}.

Definition outputs_agree (i : Instruction) (c c' : Cpu) (st : RegisterState) : Prop :=
  match query_of i with
  | Some (Query_of q self) =>
      exists v, to_lookup_output q 64 self st = Some v /\
        output_agrees i c c' v (circuit_flags q self) (instruction_flags q)
  | None => True
  end.

(** An assertion's output decides whether its [exec] panics, but for the
    equality with a non-zero [imm], which compares and never panics. *)
Definition assertion_decided (i : Instruction) (c : Cpu) (st : RegisterState) : Prop :=
  match query_of i with
  | Some (Query_of q self) =>
      exists b, to_lookup_output q 64 self st = Some (b2z b) /\
        match operands i with
        | VirtualAssertEQ o =>
            b = (reg c (B_rs1 o) =? reg c (B_rs2 o)) /\ execute i c = assert (b || negb (B_imm o =? 0)) c
        | _ => execute i c = assert b c
        end
  | None => False
  end.
Definition is_assertion (i : Instruction) : bool :=
  match query_of i with
  | Some (Query_of q self) => circuit_flags q self LookupQuery.Assert
  | None => false
  end.

Section Agreement.
Context (i : Instruction) (c c' : Cpu).
Context (flags : CircuitFlags -> bool) (iflags : InstructionFlags -> bool).
Abbreviation agrees v := (output_agrees i c c' v flags iflags).

(** Only the destination is claimed. *)
Definition claims_rd_only : bool :=
  negb (flags Jump) && negb (iflags Branch) && negb (flags LookupQuery.Assert).

Lemma agrees_of_rd v : claims_rd_only = true ->
  (forall rd, norm_rd (op_operands (operands i)) = Some rd -> rd <> 0%nat -> as_u64 (reg c' rd) = v) ->
  agrees v.
Proof.
  unfold claims_rd_only. intros [[Hj Hb]%andb_true_iff Ha]%andb_true_iff Hrd.
  rewrite negb_true_iff in *. split; [done|congruence..].
Qed.

Lemma agrees_write v rd w :
  claims_rd_only = true -> cpu_wf c -> execute i c = Some c' -> execute i c = Some (wr c rd w) ->
  norm_rd (op_operands (operands i)) = Some rd -> valid_reg rd -> v = as_u64 w -> agrees v.
Proof.
  intros Hf Hc He He' Hrd Hv ->. apply agrees_of_rd; [done|]. intros rd' Hrd' H0.
  assert (rd' = rd) as -> by congruence. assert (c' = wr c rd w) as -> by congruence.
  by rewrite (reg_wr_eq c Hc).
Qed.

Lemma agrees_of_branch v (b : bool) :
  flags WriteLookupOutputToRD = false -> flags Jump = false -> flags LookupQuery.Assert = false ->
  execute i c = Some c' ->
  execute i c =
    Some (if b then update_pc c (branch_target (address i) (norm_imm (op_operands (operands i)))) else c) ->
  v = b2z b -> agrees v.
Proof.
  intros Hw Hj Ha He He' ->. split; [congruence..|intros _|congruence].
  rewrite He in He'. injection He' as ->. destruct b; auto.
Qed.

Lemma agrees_of_jump v :
  flags WriteLookupOutputToRD = false -> iflags Branch = false -> flags LookupQuery.Assert = false ->
  pc c' = v -> agrees v.
Proof. intros Hw Hb Ha Hp. by split; [congruence|intros _|congruence..]. Qed.
End Agreement.

Lemma agrees_of_assert i c c' st : assertion_decided i c st -> execute i c = Some c' ->
  match query_of i with
  | Some (Query_of q self) =>
      circuit_flags q self WriteLookupOutputToRD || circuit_flags q self Jump ||
      instruction_flags q LookupQuery.Branch = false
  | None => False
  end -> outputs_agree i c c' st.
Proof.
  unfold assertion_decided, outputs_agree. destruct (query_of i) as [[F q self]|]; [|done].
  intros (b & Hv & Hb) He [[Hw Hj]%orb_false_iff Hbr]%orb_false_iff. exists (b2z b). split; [done|].
  split; [congruence..|]. intros _ Has. assert (Hb' : execute i c = assert b c).
  { revert Hb Has. destruct (operands i); try done. cbn [asserts]. intros [_ ->] ->. by rewrite orb_false_r. }
  rewrite Hb' in He. destruct b; [|done]. by injection He as ->.
Qed.

(** ** Each instruction *)
Create HintDb agrees discriminated.

Section Instructions.
Context (i : Instruction) (c c' : Cpu) (st : RegisterState).
Context (Hc : cpu_wf c) (Hx : xlen c = Bit64) (Hv : op_valid (operands i)).
Context (Hst : views c c' (operands i) st).

(** Unfolds the instruction, its query and its [exec]. *)
Ltac start E :=
  destruct i as [addr op rem fst_ cmp]; cbn [operands address] in *; subst op;
  unfold outputs_agree, query_of; cbn [operands];
  pose proof (reg_range c Hc) as Hr; destruct Hst as [V1 V2 Vd (W1 & W2 & Wd)]; unfold op_valid in Hv.
Ltac run :=
  unfold execute; cbn [operands address]; cbv zeta; unfold_exec; unfold sign_extend, normalize_imm; rewrite ?Hx;
  rewrite ?(lookup_reg c Hc) by apply Hv; cbn [mbind option_bind]; rewrite ?(unsigned_data_64 c) by done;
  cbv zeta; rewrite ?(write_register_wr c Hc) by apply Hv; rewrite ?if_write.
Ltac views :=
  repeat match goal with V : forall r, _ = Some r -> _ = as_u64 (reg _ r) |- _ =>
    try rewrite !(V _ eq_refl); clear V end.
Ltac checks E :=
  unfold assertion_decided; start E; eexists; split; [reflexivity|cbn [operands]; try run];
  views; cbn [operands with_operands].

(** *** Assertions *)
Lemma VirtualAssertEQ_decided o (E : operands i = Instr.VirtualAssertEQ o) : assertion_decided i c st.
Proof.
  checks E. rewrite eqb_view by done. split; [done|]. run.
  destruct (B_imm o =? 0); cbn [negb]; by rewrite ?orb_false_r, ?orb_true_r.
Qed.
Lemma VirtualAssertLTE_decided o (E : operands i = Instr.VirtualAssertLTE o) : assertion_decided i c st.
Proof. checks E. by rewrite (wrapu_wrapu 64) by lia. Qed.
Lemma VirtualAssertMulUNoOverflow_decided o (E : operands i = Instr.VirtualAssertMulUNoOverflow o) : assertion_decided i c st.
Proof. checks E. by rewrite product_exact by (apply wrapu_range; lia). Qed.
Lemma VirtualAssertValidUnsignedRemainder_decided o (E : operands i = Instr.VirtualAssertValidUnsignedRemainder o) : assertion_decided i c st.
Proof. checks E. by rewrite (wrapu_wrapu 64) by lia. Qed.
Lemma VirtualAssertHalfwordAlignment_decided o (E : operands i = Instr.VirtualAssertHalfwordAlignment o) : assertion_decided i c st.
Proof. checks E. by rewrite aligned_2. Qed.
Lemma VirtualAssertWordAlignment_decided o (E : operands i = Instr.VirtualAssertWordAlignment o) : assertion_decided i c st.
Proof. checks E. by rewrite aligned_4. Qed.
Lemma VirtualAssertValidDiv0_decided o (E : operands i = Instr.VirtualAssertValidDiv0 o) : assertion_decided i c st.
Proof. 
  unfold assertion_decided. start E.
  exists (if reg c (B_rs1 o) =? 0 then as_u64 (reg c (B_rs2 o)) =? u64_MAX else true). split.
  - etransitivity; [exact (valid_div0_output st W2 _)|]. views. rewrite zero_view by done.
    by destruct (reg c (B_rs1 o) =? 0).
  - run. by destruct (reg c (B_rs1 o) =? 0).
Qed.

Lemma assertions_decided : is_assertion i = true -> assertion_decided i c st.
Proof.
  unfold is_assertion, query_of. case_eq (operands i); intros * E H; try discriminate H;
    eauto using VirtualAssertEQ_decided, VirtualAssertLTE_decided, VirtualAssertMulUNoOverflow_decided, VirtualAssertValidUnsignedRemainder_decided, VirtualAssertHalfwordAlignment_decided, VirtualAssertWordAlignment_decided, VirtualAssertValidDiv0_decided.
Qed.

(** *** Values, branches and jumps *)
Context (Ha : in_u 64 (address i)) (Hi : imm_in_range (operands i)) (Hs : shift_by_bitmask c (operands i)).
Context (He : execute i c = Some c').
Ltac sum_index := rewrite sum_exact by (apply wrapu_range || done; lia); rewrite Z.add_0_r.
Ltac writes E :=
  start E; eexists; split; [reflexivity|];
  eapply agrees_write; [reflexivity|exact Hc|exact He|run; reflexivity|reflexivity|apply Hv|]; views; cbn [operands with_operands].
Ltac branches E :=
  start E; eexists; split; [reflexivity|];
  eapply agrees_of_branch; [reflexivity|reflexivity|reflexivity|exact He|run; reflexivity|]; views; cbn [operands with_operands].
Ltac immediate f := rewrite <- (imm_view (f _)) at 1 by exact Hi.


Lemma LD_agrees o (E : operands i = Instr.LD o) : outputs_agree i c c' st.
Proof. unfold outputs_agree, query_of. rewrite E. exists 0. by repeat split. Qed.
Lemma SD_agrees o (E : operands i = Instr.SD o) : outputs_agree i c c' st.
Proof. unfold outputs_agree, query_of. rewrite E. exists 0. by repeat split. Qed.
Lemma ADD_agrees o (E : operands i = Instr.ADD o) : outputs_agree i c c' st.
Proof. writes E. by apply add_view. Qed.
Lemma SUB_agrees o (E : operands i = Instr.SUB o) : outputs_agree i c c' st.
Proof. writes E. by apply sub_view. Qed.
Lemma AND_agrees o (E : operands i = Instr.AND o) : outputs_agree i c c' st.
Proof. writes E. by apply land_view. Qed.
Lemma OR_agrees o (E : operands i = Instr.OR o) : outputs_agree i c c' st.
Proof. writes E. by apply lor_view. Qed.
Lemma XOR_agrees o (E : operands i = Instr.XOR o) : outputs_agree i c c' st.
Proof. writes E. by apply lxor_view. Qed.
Lemma ANDN_agrees o (E : operands i = Instr.ANDN o) : outputs_agree i c c' st.
Proof. writes E. by apply andn_view. Qed.
Lemma MULHU_agrees o (E : operands i = Instr.MULHU o) : outputs_agree i c c' st.
Proof. writes E. by apply mulhu_view. Qed.
Lemma ADDI_agrees o (E : operands i = Instr.ADDI o) : outputs_agree i c c' st.
Proof. writes E. immediate I_imm. by apply add_view. Qed.
Lemma ANDI_agrees o (E : operands i = Instr.ANDI o) : outputs_agree i c c' st.
Proof. writes E. immediate I_imm. by apply land_view. Qed.
Lemma ORI_agrees o (E : operands i = Instr.ORI o) : outputs_agree i c c' st.
Proof. writes E. immediate I_imm. by apply lor_view. Qed.
Lemma XORI_agrees o (E : operands i = Instr.XORI o) : outputs_agree i c c' st.
Proof. writes E. immediate I_imm. by apply lxor_view. Qed.
Lemma MUL_agrees o (E : operands i = Instr.MUL o) : outputs_agree i c c' st.
Proof. writes E. by rewrite !signed_view. Qed.
Lemma VirtualMULI_agrees o (E : operands i = Instr.VirtualMULI o) : outputs_agree i c c' st.
Proof. writes E. by rewrite signed_view. Qed.
Lemma SLT_agrees o (E : operands i = Instr.SLT o) : outputs_agree i c c' st.
Proof. writes E. by rewrite !signed_view, b2z_view. Qed.
Lemma SLTI_agrees o (E : operands i = Instr.SLTI o) : outputs_agree i c c' st.
Proof. writes E. by rewrite signed_view, b2z_view. Qed.
Lemma SLTU_agrees o (E : operands i = Instr.SLTU o) : outputs_agree i c c' st.
Proof. writes E. by rewrite (wrapu_wrapu 64), b2z_view by lia. Qed.
Lemma SLTIU_agrees o (E : operands i = Instr.SLTIU o) : outputs_agree i c c' st.
Proof. writes E. by rewrite (wrapu_small 64 (I_imm o) Hi), (imm_view (I_imm o) Hi), b2z_view. Qed.
Lemma LUI_agrees o (E : operands i = Instr.LUI o) : outputs_agree i c c' st.
Proof. writes E. by rewrite (imm_view (U_imm o) Hi). Qed.
Lemma AUIPC_agrees o (E : operands i = Instr.AUIPC o) : outputs_agree i c c' st.
Proof. writes E. done. Qed.
Lemma BEQ_agrees o (E : operands i = Instr.BEQ o) : outputs_agree i c c' st.
Proof. branches E. by rewrite eqb_view. Qed.
Lemma BNE_agrees o (E : operands i = Instr.BNE o) : outputs_agree i c c' st.
Proof. branches E. by rewrite eqb_view. Qed.
Lemma BLT_agrees o (E : operands i = Instr.BLT o) : outputs_agree i c c' st.
Proof. branches E. by rewrite !signed_view. Qed.
Lemma BGE_agrees o (E : operands i = Instr.BGE o) : outputs_agree i c c' st.
Proof. branches E. by rewrite !signed_view. Qed.
Lemma BLTU_agrees o (E : operands i = Instr.BLTU o) : outputs_agree i c c' st.
Proof. branches E. by rewrite (wrapu_wrapu 64) by lia. Qed.
Lemma BGEU_agrees o (E : operands i = Instr.BGEU o) : outputs_agree i c c' st.
Proof. branches E. by rewrite (wrapu_wrapu 64) by lia. Qed.
Lemma VirtualAssertEQ_agrees o (E : operands i = Instr.VirtualAssertEQ o) : outputs_agree i c c' st.
Proof. apply agrees_of_assert; [by eapply VirtualAssertEQ_decided|exact He|]. unfold query_of. by rewrite E. Qed.
Lemma VirtualAssertLTE_agrees o (E : operands i = Instr.VirtualAssertLTE o) : outputs_agree i c c' st.
Proof. apply agrees_of_assert; [by eapply VirtualAssertLTE_decided|exact He|]. unfold query_of. by rewrite E. Qed.
Lemma VirtualAssertMulUNoOverflow_agrees o (E : operands i = Instr.VirtualAssertMulUNoOverflow o) : outputs_agree i c c' st.
Proof. apply agrees_of_assert; [by eapply VirtualAssertMulUNoOverflow_decided|exact He|]. unfold query_of. by rewrite E. Qed.
Lemma VirtualAssertValidUnsignedRemainder_agrees o (E : operands i = Instr.VirtualAssertValidUnsignedRemainder o) : outputs_agree i c c' st.
Proof. apply agrees_of_assert; [by eapply VirtualAssertValidUnsignedRemainder_decided|exact He|]. unfold query_of. by rewrite E. Qed.
Lemma VirtualAssertHalfwordAlignment_agrees o (E : operands i = Instr.VirtualAssertHalfwordAlignment o) : outputs_agree i c c' st.
Proof. apply agrees_of_assert; [by eapply VirtualAssertHalfwordAlignment_decided|exact He|]. unfold query_of. by rewrite E. Qed.
Lemma VirtualAssertWordAlignment_agrees o (E : operands i = Instr.VirtualAssertWordAlignment o) : outputs_agree i c c' st.
Proof. apply agrees_of_assert; [by eapply VirtualAssertWordAlignment_decided|exact He|]. unfold query_of. by rewrite E. Qed.
Lemma VirtualAssertValidDiv0_agrees o (E : operands i = Instr.VirtualAssertValidDiv0 o) : outputs_agree i c c' st.
Proof. apply agrees_of_assert; [by eapply VirtualAssertValidDiv0_decided|exact He|]. unfold query_of. by rewrite E. Qed.
Lemma VirtualAdvice_agrees o a (E : operands i = Instr.VirtualAdvice o a) : outputs_agree i c c' st.
Proof. writes E. cbn [snd operands with_operands]. by rewrite (imm_view a Hi). Qed.
Lemma VirtualAdviceLen_agrees o (E : operands i = Instr.VirtualAdviceLen o) : outputs_agree i c c' st.
Proof. 
  start E; eexists; split; [reflexivity|]. apply agrees_of_rd; [reflexivity|]. intros rd Hrd _. symmetry. by apply Vd.  Qed.
Lemma VirtualAdviceLoad_agrees o (E : operands i = Instr.VirtualAdviceLoad o) : outputs_agree i c c' st.
Proof. 
  start E; eexists; split; [reflexivity|]. apply agrees_of_rd; [reflexivity|]. intros rd Hrd _. symmetry. by apply Vd.  Qed.
Lemma VirtualChangeDivisor_agrees o (E : operands i = Instr.VirtualChangeDivisor o) : outputs_agree i c c' st.
Proof. writes E. rewrite !signed_view by done. by destruct (_ && _). Qed.
Lemma VirtualChangeDivisorW_agrees o (E : operands i = Instr.VirtualChangeDivisorW o) : outputs_agree i c c' st.
Proof. writes E. rewrite (wraps_wrapu 32), !(wraps_narrow 32 64) by lia. by destruct (_ && _). Qed.
Lemma VirtualMovsign_agrees o (E : operands i = Instr.VirtualMovsign o) : outputs_agree i c c' st.
Proof. writes E. change (Z.shiftl 1 63) with 0x8000000000000000. by destruct (negb _). Qed.
Lemma VirtualSignExtendWord_agrees o (E : operands i = Instr.VirtualSignExtendWord o) : outputs_agree i c c' st.
Proof. writes E. sum_index. rewrite (wrapu_wrapu 64), sext_word by lia. etransitivity; [apply sext_output|]. by rewrite (wraps_narrow 32 64) by lia. Qed.
Lemma VirtualRev8W_agrees o (E : operands i = Instr.VirtualRev8W o) : outputs_agree i c c' st.
Proof. writes E. rewrite (wrapu_wraps 64) by lia. unfold rev8w. by rewrite (wrapu_wrapu 64) by lia. Qed.
Lemma VirtualPow2_agrees o (E : operands i = Instr.VirtualPow2 o) : outputs_agree i c c' st.
Proof. writes E. sum_index. by rewrite (wrapu_wraps 64) by lia. Qed.
Lemma VirtualPow2W_agrees o (E : operands i = Instr.VirtualPow2W o) : outputs_agree i c c' st.
Proof. writes E. sum_index. by rewrite (wrapu_wraps 64) by lia. Qed.
Lemma VirtualPow2I_agrees o (E : operands i = Instr.VirtualPow2I o) : outputs_agree i c c' st.
Proof. writes E. rewrite (sum_exact 0 (J_imm o) zero_u64 Hi), Z.add_0_l. by rewrite (wrapu_wraps 64) by lia. Qed.
Lemma VirtualPow2IW_agrees o (E : operands i = Instr.VirtualPow2IW o) : outputs_agree i c c' st.
Proof. writes E. rewrite (sum_exact 0 (J_imm o) zero_u64 Hi), Z.add_0_l. by rewrite (wrapu_wraps 64) by lia. Qed.
Lemma VirtualShiftRightBitmask_agrees o (E : operands i = Instr.VirtualShiftRightBitmask o) : outputs_agree i c c' st.
Proof. writes E. sum_index. rewrite land_3f. by rewrite (wrapu_wraps 64) by lia. Qed.
Lemma VirtualShiftRightBitmaskI_agrees o (E : operands i = Instr.VirtualShiftRightBitmaskI o) : outputs_agree i c c' st.
Proof. writes E. rewrite (sum_exact 0 (J_imm o) zero_u64 Hi), Z.add_0_l. by rewrite (wrapu_wraps 64) by lia. Qed.
Lemma VirtualZeroExtendWord_agrees o (E : operands i = Instr.VirtualZeroExtendWord o) : outputs_agree i c c' st.
Proof. 
  start E. eexists; split; [exact (zero_extend_output st W1 _)|].
  eapply agrees_write; [reflexivity|exact Hc|exact He|run; reflexivity|reflexivity|apply Hv|]. views.
  change (Z.ones 32) with 0xFFFFFFFF. rewrite !zext_word, (wrapu_wrapu 64), (wrapu_narrow 32 64) by lia.
  symmetry. apply wrapu_small, u64_of_u32.
Qed.
Lemma VirtualROTRI_agrees o (E : operands i = Instr.VirtualROTRI o) : outputs_agree i c c' st.
Proof. writes E. by rewrite rotate_view by lia. Qed.
Lemma VirtualROTRIW_agrees o (E : operands i = Instr.VirtualROTRIW o) : outputs_agree i c c' st.
Proof. writes E. by rewrite rotate_view by lia. Qed.
Lemma VirtualXORROT32_agrees o (E : operands i = Instr.VirtualXORROT32 o) : outputs_agree i c c' st.
Proof. writes E. by rewrite rotate_view, lxor_view by lia. Qed.
Lemma VirtualXORROT24_agrees o (E : operands i = Instr.VirtualXORROT24 o) : outputs_agree i c c' st.
Proof. writes E. by rewrite rotate_view, lxor_view by lia. Qed.
Lemma VirtualXORROT16_agrees o (E : operands i = Instr.VirtualXORROT16 o) : outputs_agree i c c' st.
Proof. writes E. by rewrite rotate_view, lxor_view by lia. Qed.
Lemma VirtualXORROT63_agrees o (E : operands i = Instr.VirtualXORROT63 o) : outputs_agree i c c' st.
Proof. writes E. by rewrite rotate_view, lxor_view by lia. Qed.
Lemma VirtualXORROTW16_agrees o (E : operands i = Instr.VirtualXORROTW16 o) : outputs_agree i c c' st.
Proof. writes E. by rewrite rotate_view, lxor_view32 by lia. Qed.
Lemma VirtualXORROTW12_agrees o (E : operands i = Instr.VirtualXORROTW12 o) : outputs_agree i c c' st.
Proof. writes E. by rewrite rotate_view, lxor_view32 by lia. Qed.
Lemma VirtualXORROTW8_agrees o (E : operands i = Instr.VirtualXORROTW8 o) : outputs_agree i c c' st.
Proof. writes E. by rewrite rotate_view, lxor_view32 by lia. Qed.
Lemma VirtualXORROTW7_agrees o (E : operands i = Instr.VirtualXORROTW7 o) : outputs_agree i c c' st.
Proof. writes E. by rewrite rotate_view, lxor_view32 by lia. Qed.
Lemma VirtualSRLI_agrees o (E : operands i = Instr.VirtualSRLI o) : outputs_agree i c c' st.
Proof. 
  writes E. destruct Hs as (s & Hs & Es). rewrite (shr_bitmask _ (VI_imm o) s Hs), srl_view; [|lia|by rewrite Es, wrapu_wrapu by lia].
  rewrite Es, VirtualSRLI_output_eq. rewrite VirtualSRL_output_shift; [reflexivity|apply wrapu_range; lia|exact Hs].  Qed.
Lemma VirtualSRAI_agrees o (E : operands i = Instr.VirtualSRAI o) : outputs_agree i c c' st.
Proof. 
  writes E. destruct Hs as (s & Hs & Es). rewrite (shr_bitmask _ (VI_imm o) s Hs); [|by rewrite Es, wrapu_wrapu by lia].
  rewrite Es, VirtualSRAI_output_eq by (apply wrapu_range; lia).
  rewrite VirtualSRA_output_shift; [by rewrite signed_view by apply Hr|apply wrapu_range; lia|exact Hs].  Qed.
Lemma VirtualSRL_agrees o (E : operands i = Instr.VirtualSRL o) : outputs_agree i c c' st.
Proof. 
  writes E. destruct Hs as (s & Hs & Es). rewrite (shr_bitmask _ _ s Hs Es), srl_view by lia.
  rewrite Es. rewrite VirtualSRL_output_shift; [reflexivity|apply wrapu_range; lia|exact Hs].  Qed.
Lemma VirtualSRA_agrees o (E : operands i = Instr.VirtualSRA o) : outputs_agree i c c' st.
Proof. 
  writes E. destruct Hs as (s & Hs & Es). rewrite (shr_bitmask _ _ s Hs Es).
  rewrite Es. rewrite VirtualSRA_output_shift; [by rewrite signed_view by apply Hr|apply wrapu_range; lia|exact Hs].  Qed.
Lemma JAL_agrees o (E : operands i = Instr.JAL o) : outputs_agree i c c' st.
Proof. 
  pose proof (keeps_xlen _ _ (execute_keeps _ _ _ He)) as Hk.
  start E. eexists; split; [reflexivity|]. apply agrees_of_jump; [reflexivity..|].
  unfold execute in He. cbn [operands address] in He. apply bind_Some in He as (c1 & Hw & [= <-]).
  change (xlen c1 = xlen c) in Hk. unfold normalize_imm. by rewrite Hk, Hx.  Qed.
Lemma JALR_agrees o (E : operands i = Instr.JALR o) : outputs_agree i c c' st.
Proof. 
  start E. eexists; split; [reflexivity|]. apply agrees_of_jump; [reflexivity..|].
  unfold execute in He. cbn [operands address] in He. unfold JALR_exec, normalize_imm in He. cbv zeta in He.
  rewrite Hx, (lookup_reg c Hc) in He by apply Hv. cbn [mbind option_bind] in He.
  transitivity (Z.land (as_u64 (as_i64 (reg c (I_rs1 o) + as_i64 (I_imm o)))) (as_u64 (Z.lnot 1))).
  - case_decide; [apply write_register_pc in He; rewrite He; by case_decide|by injection He as <-].
  - apply jalr_target; [|done]. rewrite (V1 _ eq_refl). apply wrapu_wrapu. lia.  Qed.
End Instructions.
#[export] Hint Resolve ADD_agrees SUB_agrees AND_agrees OR_agrees XOR_agrees ANDN_agrees MULHU_agrees
  ADDI_agrees ANDI_agrees ORI_agrees XORI_agrees MUL_agrees VirtualMULI_agrees SLT_agrees SLTI_agrees
  SLTU_agrees SLTIU_agrees LUI_agrees AUIPC_agrees BEQ_agrees BNE_agrees BLT_agrees BGE_agrees BLTU_agrees
  BGEU_agrees VirtualAssertEQ_agrees VirtualAssertLTE_agrees VirtualAssertMulUNoOverflow_agrees
  VirtualAssertValidUnsignedRemainder_agrees VirtualAssertHalfwordAlignment_agrees
  VirtualAssertWordAlignment_agrees VirtualAssertValidDiv0_agrees VirtualAdvice_agrees VirtualAdviceLen_agrees
  VirtualAdviceLoad_agrees VirtualChangeDivisor_agrees VirtualChangeDivisorW_agrees VirtualMovsign_agrees
  VirtualSignExtendWord_agrees VirtualRev8W_agrees VirtualPow2_agrees VirtualPow2W_agrees VirtualPow2I_agrees
  VirtualPow2IW_agrees VirtualShiftRightBitmask_agrees VirtualShiftRightBitmaskI_agrees
  VirtualZeroExtendWord_agrees VirtualROTRI_agrees VirtualROTRIW_agrees VirtualXORROT32_agrees
  VirtualXORROT24_agrees VirtualXORROT16_agrees VirtualXORROT63_agrees VirtualXORROTW16_agrees
  VirtualXORROTW12_agrees VirtualXORROTW8_agrees VirtualXORROTW7_agrees VirtualSRLI_agrees VirtualSRAI_agrees
  VirtualSRL_agrees VirtualSRA_agrees JAL_agrees JALR_agrees LD_agrees SD_agrees : agrees.

Lemma instruction_agrees (i : Instruction) (c c' : Cpu) (st : RegisterState) :
  cpu_wf c -> xlen c = Bit64 -> op_valid (operands i) -> in_u 64 (address i) ->
  imm_in_range (operands i) -> shift_by_bitmask c (operands i) ->
  execute i c = Some c' -> views c c' (operands i) st -> outputs_agree i c c' st.
Proof.
  intros. destruct (operands i) eqn:E;
    first [ unfold outputs_agree, query_of; rewrite E; exact I
          | rewrite <- E in *; eauto with agrees nocore ].
Qed.

(** C8: the lookup output a traced cycle claims is the instruction's effect: the
    new value of the destination where the flags write it there, the new program
    counter of a jump, the decision of a branch, and 1 for an assertion. *)
Theorem lookup_output_matches_trace (i : Instruction) (c c' : Cpu) (cycle : Cycle) :
  cpu_wf c -> xlen c = Bit64 -> op_valid (operands i) -> in_u 64 (address i) ->
  imm_in_range (operands i) -> shift_by_bitmask c (operands i) ->
  is_supported_instruction i = true -> default_trace_cycle i c = Some (c', [cycle]) ->
  exists v flags iflags, Cycle_to_lookup_output 64 cycle = Some v /\
    Instruction_circuit_flags i = Some flags /\ Instruction_instruction_flags i = Some iflags /\
    output_agrees i c c' v flags iflags.
Proof.
  intros Hc Hx Hv Ha Hi Hs Hq Ht. destruct (captured i c c' cycle Hc Hx Hv Ht) as (He & <- & Hst).
  pose proof (instruction_agrees _ c c' _ Hc Hx Hv Ha Hi Hs He Hst) as H. revert H Hq.
  unfold outputs_agree, is_supported_instruction, Cycle_to_lookup_output, Instruction_circuit_flags,
    Instruction_instruction_flags.
  destruct (query_of _) as [[F q self]|]; [|done]. intros (v & Hv' & Hg) _.
  by exists v, (circuit_flags q self), (instruction_flags q).
Qed.

(** C29: the lookup output of an assertion decides it: it is 0 or 1, and [exec]
    changes nothing where it is 1 and panics where it is 0.  The one exception is
    [VirtualAssertEQ] with a non-zero [imm] (spoiling the proof instead of
    panicking): its [exec] changes nothing, and the output is 1 exactly when its
    two registers are equal, so that only the proof fails. *)
Theorem assertion_output_decides (i : Instruction) (c : Cpu) (st : RegisterState) :
  cpu_wf c -> xlen c = Bit64 -> op_valid (operands i) ->
  is_assertion i = true -> op_capture_pre (operands i) c = Some st ->
  exists v, Cycle_to_lookup_output 64 {| instruction := i; register_state := st; ram_access := NoRAM |} = Some v /\
    (v = 0 \/ v = 1) /\
    match operands i with
    | VirtualAssertEQ o =>
        v = b2z (reg c (B_rs1 o) =? reg c (B_rs2 o)) /\
        execute i c = if (v =? 0) && (B_imm o =? 0) then None else Some c
    | _ => execute i c = if v =? 0 then None else Some c
    end.
Proof.
  intros Hc Hx Hv Hi Hst.
  assert (Hvs : views c c (operands i) st).
  { apply (captured_views c c (operands i) st); try done. revert Hi. unfold is_assertion, query_of.
    destruct (operands i); intros H; try discriminate H; reflexivity. }
  pose proof (assertions_decided i c c st Hc Hx Hv Hvs Hi) as H. revert H.
  unfold assertion_decided, Cycle_to_lookup_output. cbn [instruction register_state].
  destruct (query_of i) as [[F q self]|]; [|done]. intros (b & Hb & Hd). exists (b2z b).
  split; [done|]. split; [destruct b; auto|]. revert Hd. destruct (operands i); try (intros ->; by destruct b).
  intros [<- ->]. split; [done|]. by destruct b, (B_imm o =? 0).
Qed.

Lemma lookup_output_matches_trace_witness :
  let i := at_instr (Instr.JAL {| J_rd := 1; J_imm := 2 ^ 64 - 8 |}) in
  exists c' cycle v, default_trace_cycle i (cpu_with 5 7) = Some (c', [cycle]) /\
    Cycle_to_lookup_output 64 cycle = Some v /\ pc c' = v.
Proof.
  intros i. destruct (default_trace_cycle i (cpu_with 5 7)) as [[c' l]|] eqn:E; [|by vm_compute in E].
  assert (exists cycle, l = [cycle]) as [cycle ->].
  { vm_compute in E. injection E as _ <-. by eexists. }
  destruct (lookup_output_matches_trace i (cpu_with 5 7) c' cycle) as (v & flags & iflags & Hv & Hf & _ & Ha);
    try done.
  - by apply cpu_with_wf.
  - split; [|split]; cbn; [by apply Nat.ltb_lt|done..].
  - exists c', cycle, v. split; [done|]. split; [done|]. apply (agrees_jump _ _ _ _ _ _ Ha).
    by injection Hf as <-.
Defined.

Lemma assertion_output_decides_witness :
  let i := at_instr (VirtualAssertEQ {| B_rs1 := 1; B_rs2 := 2; B_imm := 0 |}) in
  let st := {| rs1_value := Some 5; rs2_value := Some 7; rd_values := None |} in
  Cycle_to_lookup_output 64 {| instruction := i; register_state := st; ram_access := NoRAM |} = Some 0 /\
  execute i (cpu_with 5 7) = None.
Proof.
  intros i st. destruct (assertion_output_decides i (cpu_with 5 7) st) as (v & Hv & _ & Hb & He).
  - by apply cpu_with_wf.
  - reflexivity.
  - split; [|split]; cbn; [done|by apply Nat.ltb_lt..].
  - reflexivity.
  - reflexivity.
  - split; [|by vm_compute]. rewrite Hv, Hb. reflexivity.
Defined.
