(* ===== verification/ElfText.v ===== *)
(** * ElfText: the instructions of an ELF file

    Models [decode] of [tracer/src/lib.rs] after the ELF file is parsed by the
    [object] crate: its sections, with their address, size and bytes, are the
    input.  A text section is cut into 16-bit and 32-bit instructions and each is
    decoded; a word that does not decode is [UNIMPL].  The outer [option] is a
    panic of [Instruction::decode] (see Decode). *)
From S2P Require Import Prelude Bits Registers AdviceTape Device Mmu Cpu Formats Instr Decode Compressed.
From stdpp Require Import strings.
Open Scope Z_scope.

(** The instructions in the bytecode: [Instruction::UNIMPL] or a decoded one. *)
Inductive ElfInstr := UNIMPL | Known (i : Struct AnyOp).
Definition push (r : string + Struct AnyOp) (l : list ElfInstr) : list ElfInstr :=
  match r with inr i => Known i :: l | inl _ => UNIMPL :: l end.

(** What the [object] crate yields for a section. *)
Record ElfSection := {
  section_address : Z; section_size : Z; section_is_text : bool; section_data : list Z
}.

Section Text.
Context (debug_assertions : bool) (xlen : Xlen) (section_start : Z).

(** The [while offset < raw_data.len()] loop; [raw_data] are the bytes from
    [offset] on. *)
Fixpoint decode_text (offset : Z) (raw_data : list Z) : option (list ElfInstr) :=
  match raw_data with
  | b0 :: b1 :: rest =>
      let address := as_u64 (section_start + offset) in
      let first_halfword := le_value [b0; b1] in
      if negb (Z.land first_halfword 3 =? 3) then
        if first_halfword =? 0 then decode_text (offset + 2) rest
        else
          r ← decode debug_assertions (uncompress_instruction first_halfword xlen) address true;
          l ← decode_text (offset + 2) rest;
          Some (push r l)
      else
        match rest with
        | b2 :: b3 :: rest =>
            r ← decode debug_assertions (le_value [b0; b1; b2; b3]) address false;
            l ← decode_text (offset + 4) rest;
            Some (push r l)
        | _ => Some []
        end
  | _ => Some []
  end.
End Text.

(** [data.push((address + offset, byte))] for the section's bytes. *)
Definition section_bytes (s : ElfSection) : list (Z * Z) :=
  imap (fun i b => (as_u64 (section_address s + Z.of_nat i), b)) (section_data s).

(** The loop over the sections, with the highest address used so far. *)
Fixpoint decode_sections (debug_assertions : bool) (xlen : Xlen) (sections : list ElfSection) (program_end : Z)
    : option (list ElfInstr * list (Z * Z) * Z) :=
  match sections with
  | [] => Some ([], [], program_end)
  | s :: sections =>
      let end_ := as_u64 (section_address s + section_size s) in
      l ← (if section_is_text s then decode_text debug_assertions xlen (section_address s) 0 (section_data s)
           else Some []);
      '(instructions, data, program_end) ← decode_sections debug_assertions xlen sections (Z.max program_end end_);
      Some (l ++ instructions, section_bytes s ++ data, program_end)
  end.
Definition decode_elf (debug_assertions : bool) (xlen : Xlen) (sections : list ElfSection)
    : option (list ElfInstr * list (Z * Z) * Z) :=
  decode_sections debug_assertions xlen
    (base.filter (fun s => RAM_START_ADDRESS <= section_address s) sections) RAM_START_ADDRESS.

(** ** The instructions of a section *)

(** An instruction of [n] bytes sits at [offset] of the section, and decodes to
    [r]: what [decode_text] reads there. *)
Definition parcel (dbg : bool) (xlen : Xlen) (start offset : Z) (bytes : list Z) (r : string + Struct AnyOp)
    : Prop :=
  let address := as_u64 (start + offset) in
  (length bytes = 2%nat /\ Z.land (le_value bytes) 3 <> 3 /\ le_value bytes <> 0 /\
     decode dbg (uncompress_instruction (le_value bytes) xlen) address true = Some r) \/
  (length bytes = 4%nat /\ Z.land (le_value (take 2 bytes)) 3 = 3 /\
     decode dbg (le_value bytes) address false = Some r).

(** Induction on the instructions of a section. *)
Lemma parcels_ind (P : list Z -> Prop) :
  P [] -> (forall b, P [b]) ->
  (forall b0 b1 rest, P rest -> (forall b2 b3 rest', rest = b2 :: b3 :: rest' -> P rest') -> P (b0 :: b1 :: rest)) ->
  forall l, P l.
Proof.
  intros H0 H1 H2 l. remember (length l) as n eqn:Hn. revert l Hn.
  induction n as [n IH] using lt_wf_ind. intros l ->.
  destruct l as [|b0 [|b1 rest]]; [done|done|]. apply H2.
  - apply (IH (length rest)); cbn; lia.
  - intros b2 b3 rest' ->. apply (IH (length rest')); cbn; lia.
Qed.

(** A build without debug assertions never panics. *)
Lemma new_release {F O} (op : F -> O) {Henc : RISCVInstruction op} {Hparse : Parse F} {Hinto : IntoInstruction O} w a v c :
  new false op w a v c <> None.
Proof. unfold new. by rewrite andb_false_r. Qed.
Lemma decode_release w a c : decode false w a c <> None.
Proof.
  unfold decode, decode_jalr, decode_branch, decode_load, decode_store, decode_alu_imm, decode_alu_imm_w,
    decode_alu, decode_alu_w, decode_atomic, decode_system, decode_custom, INLINE_new, Err; cbv zeta.
  repeat case_match; try done; apply new_release.
Qed.
(** A decoded instruction records its address and whether it was compressed. *)
Lemma new_struct {F O} (op : F -> O) {Henc : RISCVInstruction op} {Hparse : Parse F} {Hinto : IntoInstruction O}
    dbg w a v c s : new dbg op w a v c = Some (inr s) -> s = fresh_struct (operands s) a c.
Proof. unfold new. case_match; [done|]. by intros [= <-]. Qed.
Lemma decode_struct dbg w a c s : decode dbg w a c = Some (inr s) -> s = fresh_struct (operands s) a c.
Proof.
  unfold decode, decode_jalr, decode_branch, decode_load, decode_store, decode_alu_imm, decode_alu_imm_w,
    decode_alu, decode_alu_w, decode_atomic, decode_system, decode_custom, INLINE_new, Err; cbv zeta.
  repeat case_match; try done; first [apply new_struct | by intros [= <-]].
Qed.

Lemma decode_text_release xlen start offset raw : is_Some (decode_text false xlen start offset raw).
Proof.
  revert offset. induction raw as [|b|b0 b1 rest IH IH'] using parcels_ind; intros offset; cbn [decode_text]; [by eexists..|].
  cbv zeta. case_match; [case_match; [by apply IH|]|].
  - destruct (decode false _ _ true) eqn:E; [|by apply decode_release in E].
    destruct (IH (offset + 2)) as [l ->]. by eexists.
  - destruct rest as [|b2 [|b3 rest]]; [by eexists..|].
    destruct (decode false _ _ false) eqn:E; [|by apply decode_release in E].
    destruct (IH' _ _ _ eq_refl (offset + 4)) as [l ->]. by eexists.
Qed.

Lemma push_known r l i : Known i ∈ push r l -> r = inr i \/ Known i ∈ l.
Proof. destruct r; cbn [push]; intros [E|H]%elem_of_cons; [done|by right|left; by injection E as ->|by right]. Qed.

(** Every decoded instruction stands at its address in the section. *)
Lemma decode_text_parcel dbg xlen start offset raw l i :
  decode_text dbg xlen start offset raw = Some l -> Known i ∈ l ->
  exists pre bytes post, raw = pre ++ bytes ++ post /\ Z.of_nat (length pre) mod 2 = 0 /\
    parcel dbg xlen start (offset + Z.of_nat (length pre)) bytes (inr i).
Proof.
  revert offset l. induction raw as [|b|b0 b1 rest IH IH'] using parcels_ind; intros offset l; cbn [decode_text].
  1,2: intros [= <-] H; by apply elem_of_nil in H.
  cbv zeta. destruct (Z.eqb_spec (Z.land (le_value [b0; b1]) 3) 3) as [E3|E3]; cbn [negb].
  - destruct rest as [|b2 [|b3 rest]]; [intros [= <-] H; by apply elem_of_nil in H..|].
    destruct (decode dbg _ _ false) as [r|] eqn:E; cbn [mbind option_bind]; [|done].
    destruct (decode_text dbg xlen start (offset + 4) rest) as [l'|] eqn:El; cbn [mbind option_bind]; [|done].
    intros [= <-] Hi.
    pose proof (push_known r l' i Hi) as Hc.
    destruct Hc as [->|Hi'].
    + exists [], [b0; b1; b2; b3], rest. split; [done|]. split; [done|]. right.
      replace (offset + Z.of_nat (length (@nil Z))) with offset by (cbn; lia). done.
    + destruct (IH' _ _ _ eq_refl _ _ El Hi') as (pre & bytes & post & -> & Hp & Hpar).
      exists (b0 :: b1 :: b2 :: b3 :: pre), bytes, post. split; [done|].
      split; [cbn [length]; Z.div_mod_to_equations; lia|].
      replace (offset + Z.of_nat (length (b0 :: b1 :: b2 :: b3 :: pre))) with (offset + 4 + Z.of_nat (length pre))
        by (cbn [length]; lia). done.
  - assert (Hrec : forall l', decode_text dbg xlen start (offset + 2) rest = Some l' -> Known i ∈ l' ->
      exists pre bytes post, b0 :: b1 :: rest = pre ++ bytes ++ post /\ Z.of_nat (length pre) mod 2 = 0 /\
        parcel dbg xlen start (offset + Z.of_nat (length pre)) bytes (inr i)).
    { intros l' El Hi'. destruct (IH _ _ El Hi') as (pre & bytes & post & -> & Hp & Hpar).
      exists (b0 :: b1 :: pre), bytes, post. split; [done|].
      split; [cbn [length]; Z.div_mod_to_equations; lia|].
      replace (offset + Z.of_nat (length (b0 :: b1 :: pre))) with (offset + 2 + Z.of_nat (length pre))
        by (cbn [length]; lia). done. }
    destruct (Z.eqb_spec (le_value [b0; b1]) 0) as [E0|E0]; [apply Hrec|].
    destruct (decode dbg _ _ true) as [r|] eqn:E; cbn [mbind option_bind]; [|done].
    destruct (decode_text dbg xlen start (offset + 2) rest) as [l'|] eqn:El; cbn [mbind option_bind]; [|done].
    intros [= <-] Hi.
    pose proof (push_known r l' i Hi) as Hc.
    destruct Hc as [->|Hi']; [|by apply (Hrec l')].
    exists [], [b0; b1], rest. split; [done|]. split; [done|]. left.
    replace (offset + Z.of_nat (length (@nil Z))) with offset by (cbn; lia). done.
Qed.
