(* ===== verification/Fetch.v ===== *)
(** * Fetch: the instruction at the program counter

    Models [fetch] and [tick_operate] of [tracer/src/emulator/cpu.rs]: the word
    at the program counter, whether it is compressed, the advance of the program
    counter, the decoding, and the run of the instruction.  The branch of [wfi]
    and the system instructions are with the whole tick, in [System]; the counter
    of executed instructions only profiles and is left out.  The theorem ties
    the emulator to the ELF file: what it fetches at the address of an
    instruction of the program is that instruction. *)
From S2P Require Import Prelude Bits Registers AdviceTape Memory Device Mmu MmuSpec Cpu Formats Instr Assembler Sequences.
From S2P Require Import Trace Decode Compressed ElfText.
From stdpp Require Import strings.
Open Scope Z_scope.
Open Scope st_scope.

Definition normalize_u64 (value : Z) (width : Xlen) : Z :=
  match width with Bit32 => as_u32 value | Bit64 => value end.

(** [Cpu::fetch] *)
Definition Cpu_fetch (c : Cpu) : option ((Trap + Z) * Cpu) :=
  '(r, m) ← fetch_word (pc c) (mmu c);
  let c := set_mmu c m in
  match r with
  | inr word => Some (inr word, c)
  | inl e => Some (inl e, update_pc c (as_u64 (pc c + 4)))
  end.

Section Tick.
Context (debug_assertions : bool).

(** The head of [tick_operate]: fetch, advance, expand, decode.  A word that
    does not decode panics. *)
Definition fetch_decode (c : Cpu) : option ((Trap + Struct AnyOp) * Cpu) :=
  '(r, c) ← Cpu_fetch c;
  match r with
  | inl e => Some (inl e, c)
  | inr original_word =>
      let instruction_address := normalize_u64 (pc c) (xlen c) in
      let is_compressed := negb (Z.land original_word 0x3 =? 0x3) in
      let '(word, c) :=
        if is_compressed
        then (uncompress_instruction (Z.land original_word 0xffff) (xlen c), update_pc c (as_u64 (pc c + 2)))
        else (original_word, update_pc c (as_u64 (pc c + 4))) in
      r ← decode debug_assertions word instruction_address is_compressed;
      match r with inr instr => Some (inr instr, c) | inl _ => None end
  end.

(** [self.trace_len += n] and [self.x[0] = 0]. *)
Definition finish_tick (n : nat) (c : Cpu) : Cpu :=
  {| Cpu.xlen := Cpu.xlen c; x := <[0%nat := 0]> (x c); pc := pc c; mmu := mmu c; reservation := reservation c;
     reservation_set := reservation_set c; reservation_width := reservation_width c;
     unsigned_data_mask := unsigned_data_mask c; trace_len := trace_len c + n;
     vr_allocator := vr_allocator c; call_stack := call_stack c; advice_tape := advice_tape c |}.

(** The struct of one half of the enum. *)
Definition retag {F G} (s : Struct F) (o : G) : Struct G :=
  {| address := address s; operands := o; virtual_sequence_remaining := virtual_sequence_remaining s;
     is_first_in_sequence := is_first_in_sequence s; is_compressed := is_compressed s |}.

(** A tick traps, runs an instruction of [Op] to its end, or is at an
    instruction of [HostOp], whose run is in [System]. *)
Inductive Ticked := Trapped (e : Trap) | Ran (cycles : list Cycle) | AtHost (i : Struct HostOp).

(** [tick_operate]: [traced] is whether a trace is collected. *)
Definition tick_operate (fuel : nat) (traced : bool) (c : Cpu) : option (Ticked * Cpu) :=
  '(r, c) ← fetch_decode c;
  match r with
  | inl e => Some (Trapped e, c)
  | inr instr =>
      match operands instr with
      | Host op => Some (AtHost (retag instr op), c)
      | Executable op =>
          let instr := retag instr op in
          if traced then
            '(c, t) ← trace fuel instr c;
            '(l, a) ← Instruction_inline_sequence instr (xlen c) (vr_allocator c);
            Some (Ran t, finish_tick (length l) (set_allocator c a))
          else
            c ← execute instr c;
            Some (Ran [], finish_tick 1 c)
      end
  end.
End Tick.

(** ** Fetching from the RAM *)

Section FetchWord.
Context (s : Mmu) (a : Z) (Hs : mmu_wf s) (Ha : DRAM_BASE <= a) (Ha' : a + 3 < 2 ^ 64).
Context (Hr : forall i, 0 <= i < 4 -> readable s (a + i) = true).

Definition fetched_word : Z := le_value (map (fun j => peek s (a + Z.of_nat j)) (seq 0 4)).

Lemma fetched_holds : holds_bits s a 32 fetched_word.
Proof. pose proof (le_value_holds s a 4 0 Hs) as H. rewrite Z.add_0_r in H. exact H. Qed.

Lemma byte_address i : 0 <= i < 4 -> as_u64 (a + i) = a + i.
Proof. intros Hi. apply wrapu_small. unfold in_u. unfold DRAM_BASE, RAM_START_ADDRESS in Ha. lia. Qed.

Lemma fetch_byte i s' : same_space s s' -> 0 <= i < 4 ->
  exists s2, fetch (as_u64 (a + i)) s' = Some (inr (peek s (a + i)), s2) /\ same_space s s2.
Proof.
  intros Hss Hi. rewrite byte_address by done. unfold fetch.
  assert (Hs' : mmu_wf s') by (by eapply mmu_wf_same).
  rewrite (M_bind_eq _ _ _ _ _ (translate_none s' (a + i) Execute Hs')).
  assert (Hb : 0 <= a + i < 2 ^ 64) by (unfold DRAM_BASE, RAM_START_ADDRESS in Ha; lia).
  pose proof (load_raw_spec s' (a + i) Hs' Hb) as Hl.
  rewrite <- (readable_same s s' (a + i) Hss), Hr in Hl by done.
  destruct Hl as (s2 & E & H2). rewrite (M_bind_eq _ _ _ _ _ E). exists s2.
  split; [by rewrite <- Hss|by transitivity s'].
Qed.

Lemma fetch_loop_spec n i data s' : same_space s s' -> (i + n = 4)%nat -> holds_bits s a (8 * Z.of_nat i) data ->
  exists s2, fetch_loop a i n data s' = Some (inr fetched_word, s2) /\ same_space s s2.
Proof.
  revert i data s'. induction n as [|n IH]; intros i data s' Hss Hn Hd; cbn [fetch_loop].
  - rewrite Nat.add_0_r in Hn. subst i. exists s'. split; [|done].
    by rewrite (holds_bits_unique _ _ _ _ _ Hd fetched_holds).
  - destruct (fetch_byte (Z.of_nat i) s' Hss ltac:(lia)) as (s2 & E & H2).
    rewrite (M_bind_eq _ _ _ _ _ E). apply IH; [done|lia|].
    pose proof (peek_range s (a + Z.of_nat i) Hs) as Hp.
    rewrite wrapu_small; [rewrite (Z.mul_comm _ 8); by apply holds_bits_S|].
    unfold in_u in *. rewrite Z.shiftl_mul_pow2 by lia. split; [lia|].
    apply (Z.lt_le_trans _ (2 ^ 8 * 2 ^ (Z.of_nat i * 8))); [apply Z.mul_lt_mono_pos_r; [apply pow2_pos|]; lia|].
    rewrite <- Z.pow_add_r by lia. apply Z.pow_le_mono_r; lia.
Qed.

Lemma recordable_in_memory i : 0 <= i < 4 -> in_memory (mem s) (a - DRAM_BASE + i).
Proof.
  intros Hi. pose proof (Hr i Hi) as H. unfold readable, recordable in H.
  apply andb_true_iff in H as [[_ H]%andb_true_iff _].
  destruct (Z.ltb_spec (a + i) DRAM_BASE); [lia|]. apply Z.ltb_lt in H. split; [lia|].
  by replace (a - DRAM_BASE + i) with (a + i - DRAM_BASE) by lia.
Qed.

(** The fast path of [fetch_word]. *)
Lemma load_word_raw_ram : exists s', load_word_raw a s = Some (fetched_word, s') /\ same_space s s'.
Proof.
  unfold load_word_raw, M_bind at 1, M_get, get_effective_address. rewrite (wf_xlen _ Hs).
  unfold within_ram. rewrite byte_address by lia. destruct (Z.leb_spec DRAM_BASE a); [|lia].
  destruct (Z.ltb_spec a (a + 3)); [|lia]. cbn [andb].
  pose proof (Hr 0 ltac:(lia)) as HR0. rewrite Z.add_0_r in HR0.
  unfold readable in HR0. apply andb_true_iff in HR0 as [[Hv _]%andb_true_iff _].
  unfold assert_effective_load_address, assert_effective_address, M_bind. rewrite Hv.
  assert (Hrd : reads_if true (ram_read_word a) s (bits_at (mem s) (8 * (a - DRAM_BASE)) 32)).
  { unfold ram_read_word. rewrite to_dram_id by lia. apply on_memory_reads, read_word_bits; [apply Hs|lia|].
    by apply recordable_in_memory. }
  destruct Hrd as (s' & E & Hss). exists s'. split; [|done]. rewrite E.
  by rewrite (holds_bits_unique s a 32 _ _ (holds_ram s a 32 Hs ltac:(lia) ltac:(lia)) fetched_holds).
Qed.

Lemma fetch_word_ram : exists s', fetch_word a s = Some (inr fetched_word, s') /\ same_space s s'.
Proof.
  unfold fetch_word. case_match.
  - unfold M_bind at 1, M_get, get_effective_address. rewrite (wf_xlen _ Hs).
    rewrite (M_bind_eq _ _ _ _ _ (translate_none s a Execute Hs)).
    destruct load_word_raw_ram as (s' & E & Hss). rewrite (M_bind_eq _ _ _ _ _ E). by exists s'.
  - apply fetch_loop_spec; [reflexivity|done|]. apply holds_bits_0.
Qed.
End FetchWord.

(** ** The program in memory is the program of the ELF file *)

(** The bytes of a section are in memory at its address. *)
Definition loaded (s : Mmu) (start : Z) (raw : list Z) : Prop :=
  forall j b, raw !! j = Some b -> peek s (start + Z.of_nat j) = b.

Lemma le_value_low2 b0 b1 b2 b3 : in_u 8 b0 -> in_u 8 b1 ->
  Z.land (le_value [b0; b1; b2; b3]) 0xffff = le_value [b0; b1].
Proof.
  intros H0 H1. change 0xffff with (Z.ones 16). rewrite Z.land_ones by lia. unfold in_u in *.
  symmetry. apply (Z.mod_unique_pos _ _ (b2 + 2 ^ 8 * b3)); cbn [le_value]; lia.
Qed.
Lemma le_value_tag b0 b1 b2 b3 : Z.land (le_value [b0; b1; b2; b3]) 3 = Z.land (le_value [b0; b1]) 3.
Proof.
  change 3 with (Z.ones 2). rewrite !Z.land_ones by lia. cbn [le_value].
  replace (b0 + 2 ^ 8 * (b1 + 2 ^ 8 * (b2 + 2 ^ 8 * (b3 + 2 ^ 8 * 0))))
    with (b0 + 2 ^ 8 * (b1 + 2 ^ 8 * 0) + 2 ^ 14 * (b2 + 2 ^ 8 * b3) * 2 ^ 2) by lia.
  by rewrite Z_mod_plus_full.
Qed.

(** The instruction of the ELF file at the program counter is what is fetched. *)
Lemma fetch_decode_parcel dbg c start off bytes i :
  mmu_wf (mmu c) -> xlen c = Bit64 -> Forall (in_u 8) bytes -> loaded (mmu c) (start + off) bytes ->
  DRAM_BASE <= start -> 0 <= off -> start + off + 3 < 2 ^ 64 ->
  (forall j, 0 <= j < 4 -> readable (mmu c) (start + off + j) = true) ->
  parcel dbg Bit64 start off bytes (inr i) -> pc c = address i ->
  exists c', fetch_decode dbg c = Some (inr i, c') /\ x c' = x c /\ same_space (mmu c) (mmu c') /\
    pc c' = as_u64 (address i + if is_compressed i then 2 else 4).
Proof.
  intros Hs Hx Hb Hl Hst Hoff Hend Hr Hp Hpc. unfold parcel in Hp.
  assert (Hadr : as_u64 (start + off) = start + off).
  { apply wrapu_small. unfold in_u, DRAM_BASE, RAM_START_ADDRESS in *. lia. }
  rewrite Hadr in Hp.
  assert (Hi : address i = start + off)
    by (destruct Hp as [(_ & _ & _ & Hd)|(_ & _ & Hd)]; apply decode_struct in Hd; by rewrite Hd).
  destruct (fetch_word_ram (mmu c) (start + off) Hs ltac:(lia) ltac:(lia) Hr) as (m & Ef & Hss).
  rewrite <- Hi, <- Hpc in Ef.
  unfold fetch_decode, Cpu_fetch. rewrite Ef. cbn [mbind option_bind].
  change (Cpu.xlen (set_mmu c m)) with (xlen c). change (pc (set_mmu c m)) with (pc c). rewrite Hx. cbn [normalize_u64].
  unfold fetched_word. cbn [seq map]. rewrite Hpc, Hi.
  assert (Hbyte : forall j b, bytes !! j = Some b -> peek (mmu c) (start + off + Z.of_nat j) = b) by exact Hl.
  destruct Hp as [(Hlen & H3 & _ & Hd)|(Hlen & H3 & Hd)].
  - destruct bytes as [|b0 [|b1 [|]]]; try done. rewrite !Forall_cons in Hb. destruct Hb as (B0 & B1 & _).
    rewrite (Hbyte 0%nat b0 eq_refl), (Hbyte 1%nat b1 eq_refl). rewrite le_value_tag, le_value_low2 by done.
    destruct (Z.eqb_spec (Z.land (le_value [b0; b1]) 3) 3); [done|]. cbn [negb]. rewrite Hd. cbn [mbind option_bind].
    eexists. split; [done|]. split; [done|]. split; [done|]. apply decode_struct in Hd. by rewrite Hd.
  - destruct bytes as [|b0 [|b1 [|b2 [|b3 [|]]]]]; try done. cbn [take] in H3.
    rewrite (Hbyte 0%nat b0 eq_refl), (Hbyte 1%nat b1 eq_refl), (Hbyte 2%nat b2 eq_refl), (Hbyte 3%nat b3 eq_refl).
    rewrite le_value_tag, H3. cbn [negb Z.eqb Pos.eqb]. rewrite Hd. cbn [mbind option_bind].
    eexists. split; [done|]. split; [done|]. split; [done|]. apply decode_struct in Hd. by rewrite Hd.
Qed.

(** C11: The emulator runs the program of the ELF file: when a text section is in
    memory at its address, an instruction that [decode] of the file lists is
    exactly what a tick fetches and decodes at its address, compressed or not,
    across a page boundary or not, with the program counter moved past it and
    registers and memory as they were. *)
Theorem fetched_is_static dbg c start raw l i :
  mmu_wf (mmu c) -> xlen c = Bit64 -> Forall (in_u 8) raw -> loaded (mmu c) start raw ->
  DRAM_BASE <= start -> start + Z.of_nat (length raw) + 2 < 2 ^ 64 ->
  (forall a, start <= a < start + Z.of_nat (length raw) + 2 -> readable (mmu c) a = true) ->
  decode_text dbg Bit64 start 0 raw = Some l -> Known i ∈ l -> pc c = address i ->
  exists c', fetch_decode dbg c = Some (inr i, c') /\ x c' = x c /\ same_space (mmu c) (mmu c') /\
    pc c' = as_u64 (address i + if is_compressed i then 2 else 4).
Proof.
  intros Hs Hx Hb Hl Hst Hend Hr Hd Hi Hpc.
  destruct (decode_text_parcel dbg Bit64 start 0 raw l i Hd Hi) as (pre & bytes & post & -> & _ & Hp).
  rewrite !length_app in Hend, Hr. rewrite !Forall_app in Hb.
  assert (Hlen : (2 <= length bytes)%nat) by (destruct Hp as [(E & _)|(E & _)]; lia).
  apply (fetch_decode_parcel dbg c start (0 + Z.of_nat (length pre)) bytes i); try done; try lia; try apply Hb.
  - intros j b Hj. replace (start + (0 + Z.of_nat (length pre)) + Z.of_nat j) with (start + Z.of_nat (length pre + j)) by lia.
    apply Hl. rewrite lookup_app_r by lia. replace (length pre + j - length pre)%nat with j by lia.
    by apply lookup_app_l_Some.
  - intros j Hj. apply Hr. lia.
Qed.

(** [addi x1, x2, -1] and [c.addi x1, -1] at the start of the RAM. *)
Definition text_bytes : list Z := [0x93; 0x00; 0xf1; 0xff; 0xfd; 0x10].
Definition text_memory : MemoryData := memory_of {[0 := 0x10fdfff10093]} 16.
Definition text_cpu : Cpu := update_pc (set_mmu Cpu_new (set_mem (Mmu_new Bit64) text_memory)) (DRAM_BASE + 4).
Lemma text_memory_wf : mem_wf text_memory.
Proof. apply memory_of_wf; [|done]. apply (bool_decide_eq_true_1 _). vm_compute. reflexivity. Qed.

Lemma fetched_is_static_witness :
  exists i c', operands i = Executable (ADDI {| I_rd := 1; I_rs1 := 1; I_imm := 2 ^ 64 - 1 |}) /\
    fetch_decode true text_cpu = Some (inr i, c') /\ pc c' = DRAM_BASE + 6.
Proof.
  destruct (decode_text true Bit64 DRAM_BASE 0 text_bytes) as [l|] eqn:El; [|by vm_compute in El].
  set (i := fresh_struct (Executable (ADDI {| I_rd := 1; I_rs1 := 1; I_imm := 2 ^ 64 - 1 |})) (DRAM_BASE + 4) true).
  destruct (fetched_is_static true text_cpu DRAM_BASE text_bytes l i) as (c' & Hf & _ & _ & Hp).
  - split; [apply text_memory_wf|done..].
  - reflexivity.
  - apply (bool_decide_eq_true_1 (Forall (fun b => 0 <= b < 2 ^ 8) text_bytes)). vm_compute. reflexivity.
  - intros j b Hj.
    do 6 (destruct j as [|j]; [injection Hj as <-; vm_compute; reflexivity|]). discriminate Hj.
  - clear. unfold DRAM_BASE. lia.
  - clear. vm_compute. reflexivity.
  - intros a Ha. clear El. cbn in Ha. unfold DRAM_BASE, RAM_START_ADDRESS in Ha.
    assert (Hin : a ∈ map (fun k => 0x80000000 + Z.of_nat k) (seq 0 8)).
    { apply list_elem_of_fmap. exists (Z.to_nat (a - 0x80000000)). split; [lia|]. apply elem_of_seq. lia. }
    clear Ha. revert a Hin. apply list.Forall_forall. apply (bool_decide_eq_true_1 _). vm_compute. reflexivity.
  - exact El.
  - vm_compute in El. injection El as <-. apply list_elem_of_further, list_elem_of_here.
  - reflexivity.
  - exists i, c'. split; [reflexivity|]. split; [exact Hf|]. rewrite Hp. vm_compute. reflexivity.
Defined.
