(* ===== verification/Csr.v ===== *)
(** * Csr: control and status registers, traps and interrupts

    Models the rest of [Cpu] ([tracer/src/emulator/cpu.rs]): the CSR array with
    its views, the privilege mode, [wfi] and the clock, [handle_trap],
    [handle_exception] and [handle_interrupt].  [None] is a panic.  Left out are
    the floating-point registers (the flags of [fcsr] are plain CSR bits) and
    what only profiles ([executed_instrs], [active_markers]). *)
From S2P Require Import Prelude Bits Registers AdviceTape Memory Device Mmu Cpu.
Open Scope Z_scope.

Definition CSR_CAPACITY : nat := Z.to_nat 4096.
Definition CSR_USTATUS_ADDRESS : Z := 0x000.
Definition CSR_FFLAGS_ADDRESS : Z := 0x001.
Definition CSR_FRM_ADDRESS : Z := 0x002.
Definition CSR_FCSR_ADDRESS : Z := 0x003.
Definition CSR_UIE_ADDRESS : Z := 0x004.
Definition CSR_UTVEC_ADDRESS : Z := 0x005.
Definition CSR_UEPC_ADDRESS : Z := 0x041.
Definition CSR_UCAUSE_ADDRESS : Z := 0x042.
Definition CSR_UTVAL_ADDRESS : Z := 0x043.
Definition CSR_SSTATUS_ADDRESS : Z := 0x100.
Definition CSR_SEDELEG_ADDRESS : Z := 0x102.
Definition CSR_SIDELEG_ADDRESS : Z := 0x103.
Definition CSR_SIE_ADDRESS : Z := 0x104.
Definition CSR_STVEC_ADDRESS : Z := 0x105.
Definition CSR_SEPC_ADDRESS : Z := 0x141.
Definition CSR_SCAUSE_ADDRESS : Z := 0x142.
Definition CSR_STVAL_ADDRESS : Z := 0x143.
Definition CSR_SIP_ADDRESS : Z := 0x144.
Definition CSR_SATP_ADDRESS : Z := 0x180.
Definition CSR_MSTATUS_ADDRESS : Z := 0x300.
Definition CSR_MISA_ADDRESS : Z := 0x301.
Definition CSR_MEDELEG_ADDRESS : Z := 0x302.
Definition CSR_MIDELEG_ADDRESS : Z := 0x303.
Definition CSR_MIE_ADDRESS : Z := 0x304.
Definition CSR_MTVEC_ADDRESS : Z := 0x305.
Definition CSR_MEPC_ADDRESS : Z := 0x341.
Definition CSR_MCAUSE_ADDRESS : Z := 0x342.
Definition CSR_MTVAL_ADDRESS : Z := 0x343.
Definition CSR_MIP_ADDRESS : Z := 0x344.
Definition CSR_CYCLE_ADDRESS : Z := 0xc00.
Definition CSR_TIME_ADDRESS : Z := 0xc01.

Definition MIP_MEIP : Z := 0x800.
Definition MIP_MTIP : Z := 0x080.
Definition MIP_MSIP : Z := 0x008.
Definition MIP_SEIP : Z := 0x200.
Definition MIP_STIP : Z := 0x020.
Definition MIP_SSIP : Z := 0x002.

(** The parts of [Cpu] of the other files, and the rest of it. *)
Record Emulator := {
  core : Cpu;
  csr : list Z;
  cpu_privilege_mode : PrivilegeMode;
  wfi : bool;
  cpu_clock : Z
}.

Definition set_core (s : Emulator) (v : Cpu) : Emulator :=
  {| core := v; csr := csr s; cpu_privilege_mode := cpu_privilege_mode s; wfi := wfi s; cpu_clock := cpu_clock s |}.
Definition set_csr (s : Emulator) (v : list Z) : Emulator :=
  {| core := core s; csr := v; cpu_privilege_mode := cpu_privilege_mode s; wfi := wfi s; cpu_clock := cpu_clock s |}.
Definition set_privilege_mode (s : Emulator) (v : PrivilegeMode) : Emulator :=
  {| core := core s; csr := csr s; cpu_privilege_mode := v; wfi := wfi s; cpu_clock := cpu_clock s |}.
Definition set_wfi (s : Emulator) (v : bool) : Emulator :=
  {| core := core s; csr := csr s; cpu_privilege_mode := cpu_privilege_mode s; wfi := v; cpu_clock := cpu_clock s |}.
Definition set_clock (s : Emulator) (v : Z) : Emulator :=
  {| core := core s; csr := csr s; cpu_privilege_mode := cpu_privilege_mode s; wfi := wfi s; cpu_clock := v |}.
Definition with_mmu (f : Mmu -> Mmu) (s : Emulator) : Emulator := set_core s (set_mmu (core s) (f (mmu (core s)))).
Definition jump (s : Emulator) (v : Z) : Emulator := set_core s (update_pc (core s) v).

(** ** The CSR array *)

(** [self.csr[address as usize]], read and assigned. *)
Definition csr_at (s : Emulator) (address : Z) : option Z := csr s !! Z.to_nat address.
Definition csr_assign (s : Emulator) (address v : Z) : option Emulator :=
  if decide (Z.to_nat address < length (csr s))%nat then Some (set_csr s (<[Z.to_nat address := v]> (csr s))) else None.
(** [self.csr[i] &= !mask; self.csr[i] |= bits;] *)
Definition csr_merge (s : Emulator) (address mask bits : Z) : option Emulator :=
  v ← csr_at s address; csr_assign s address (Z.lor (Z.land v (Z.lnot mask)) bits).

Definition SSTATUS_MASK : Z := 0x80000003000de162.
Definition read_csr_raw (s : Emulator) (address : Z) : option Z :=
  if address =? CSR_FFLAGS_ADDRESS then v ← csr_at s CSR_FCSR_ADDRESS; Some (Z.land v 0x1f)
  else if address =? CSR_FRM_ADDRESS then v ← csr_at s CSR_FCSR_ADDRESS; Some (Z.land (Z.shiftr v 5) 0x7)
  else if address =? CSR_SSTATUS_ADDRESS then v ← csr_at s CSR_MSTATUS_ADDRESS; Some (Z.land v SSTATUS_MASK)
  else if address =? CSR_SIE_ADDRESS then v ← csr_at s CSR_MIE_ADDRESS; Some (Z.land v 0x222)
  else if address =? CSR_SIP_ADDRESS then v ← csr_at s CSR_MIP_ADDRESS; Some (Z.land v 0x222)
  else if address =? CSR_TIME_ADDRESS then None
  else csr_at s address.

(** [self.mmu.update_mstatus(self.read_csr_raw(CSR_MSTATUS_ADDRESS))] *)
Definition tell_mstatus (s : Emulator) : option Emulator :=
  v ← read_csr_raw s CSR_MSTATUS_ADDRESS; Some (with_mmu (fun m => update_mstatus m v) s).

Definition write_csr_raw (s : Emulator) (address value : Z) : option Emulator :=
  if address =? CSR_FFLAGS_ADDRESS then csr_merge s CSR_FCSR_ADDRESS 0x1f (Z.land value 0x1f)
  else if address =? CSR_FRM_ADDRESS then
    csr_merge s CSR_FCSR_ADDRESS 0xe0 (Z.land (as_u64 (Z.shiftl value 5)) 0xe0)
  else if address =? CSR_SSTATUS_ADDRESS then
    s ← csr_merge s CSR_MSTATUS_ADDRESS SSTATUS_MASK (Z.land value SSTATUS_MASK); tell_mstatus s
  else if address =? CSR_SIE_ADDRESS then csr_merge s CSR_MIE_ADDRESS 0x222 (Z.land value 0x222)
  else if address =? CSR_SIP_ADDRESS then csr_merge s CSR_MIP_ADDRESS 0x222 (Z.land value 0x222)
  else if address =? CSR_MIDELEG_ADDRESS then csr_assign s address (Z.land value 0x666)
  else if address =? CSR_MSTATUS_ADDRESS then s ← csr_assign s address value; tell_mstatus s
  else if address =? CSR_TIME_ADDRESS then None
  else csr_assign s address value.

(** [Cpu::new] with the CSR it initialises. *)
Definition Emulator_new : option Emulator :=
  write_csr_raw {| core := Cpu_new; csr := replicate CSR_CAPACITY 0; cpu_privilege_mode := Machine; wfi := false; cpu_clock := 0 |}
    CSR_MISA_ADDRESS 0x800000008014312f.

(** ** Privileges *)
Definition get_privilege_encoding (mode : PrivilegeMode) : option Z :=
  match mode with User => Some 0 | Supervisor => Some 1 | Reserved => None | Machine => Some 3 end.

Definition has_csr_access_privilege (s : Emulator) (address : Z) : option bool :=
  let privilege := Z.land (Z.shiftr address 8) 0x3 in
  e ← get_privilege_encoding (cpu_privilege_mode s); Some (privilege <=? e).

Definition illegal_csr (s : Emulator) : Trap := {| trap_type := IllegalInstruction; value := as_u64 (pc (core s) - 4) |}.
Definition read_csr (s : Emulator) (address : Z) : option (Trap + Z) :=
  ok ← has_csr_access_privilege s address;
  if (ok : bool) then v ← read_csr_raw s address; Some (inr v) else Some (inl (illegal_csr s)).

Definition cpu_update_addressing_mode (s : Emulator) (value : Z) : option Emulator :=
  mode ← match xlen (core s) with
         | Bit32 => Some (if Z.land value 0x80000000 =? 0 then AddressingNone else SV32)
         | Bit64 =>
             let top := Z.shiftr value 60 in
             if top =? 0 then Some AddressingNone
             else if top =? 8 then Some SV39
             else if top =? 9 then Some SV48
             else None
         end;
  let ppn := match xlen (core s) with Bit32 => Z.land value 0x3fffff | Bit64 => Z.land value 0xfffffffffff end in
  Some (with_mmu (fun m => update_ppn (update_addressing_mode m mode) ppn) s).
Definition write_csr (s : Emulator) (address value : Z) : option ((Trap + unit) * Emulator) :=
  ok ← has_csr_access_privilege s address;
  if (ok : bool) then
    s ← write_csr_raw s address value;
    s ← (if address =? CSR_SATP_ADDRESS then cpu_update_addressing_mode s value else Some s);
    Some (inr tt, s)
  else Some (inl (illegal_csr s), s).

(** ** Traps *)
Definition get_trap_cause (trap : Trap) (xl : Xlen) : Z :=
  let interrupt_bit := match xl with Bit32 => 0x80000000 | Bit64 => 0x8000000000000000 end in
  match trap_type trap with
  | InstructionAddressMisaligned => 0
  | InstructionAccessFault => 1
  | IllegalInstruction => 2
  | Breakpoint => 3
  | LoadAddressMisaligned => 4
  | LoadAccessFault => 5
  | StoreAddressMisaligned => 6
  | StoreAccessFault => 7
  | EnvironmentCallFromUMode => 8
  | EnvironmentCallFromSMode => 9
  | EnvironmentCallFromMMode => 11
  | InstructionPageFault => 12
  | LoadPageFault => 13
  | StorePageFault => 15
  | UserSoftwareInterrupt => interrupt_bit
  | SupervisorSoftwareInterrupt => interrupt_bit + 1
  | MachineSoftwareInterrupt => interrupt_bit + 3
  | UserTimerInterrupt => interrupt_bit + 4
  | SupervisorTimerInterrupt => interrupt_bit + 5
  | MachineTimerInterrupt => interrupt_bit + 7
  | UserExternalInterrupt => interrupt_bit + 8
  | SupervisorExternalInterrupt => interrupt_bit + 9
  | MachineExternalInterrupt => interrupt_bit + 11
  end.

(** [(v >> i) & 1]; a shift past 63 panics or wraps in the code, and does not
    occur: causes stay below 16. *)
Definition flag (v i : Z) : Z := Z.land (Z.shiftr v i) 1.

(** The mode that handles a trap. *)
Definition delegate (s : Emulator) (cause : Z) (is_interrupt : bool) : option PrivilegeMode :=
  mdeleg ← read_csr_raw s (if is_interrupt then CSR_MIDELEG_ADDRESS else CSR_MEDELEG_ADDRESS);
  sdeleg ← read_csr_raw s (if is_interrupt then CSR_SIDELEG_ADDRESS else CSR_SEDELEG_ADDRESS);
  let pos := Z.land cause 0xffff in
  Some (if flag mdeleg pos =? 0 then Machine else if flag sdeleg pos =? 0 then Supervisor else User).

(** The CSR of a mode. *)
Definition by_mode (m s u : Z) (mode : PrivilegeMode) : option Z :=
  match mode with Machine => Some m | Supervisor => Some s | User => Some u | Reserved => None end.
Definition status_address := by_mode CSR_MSTATUS_ADDRESS CSR_SSTATUS_ADDRESS CSR_USTATUS_ADDRESS.
Definition ie_address := by_mode CSR_MIE_ADDRESS CSR_SIE_ADDRESS CSR_UIE_ADDRESS.
Definition csr_epc_address := by_mode CSR_MEPC_ADDRESS CSR_SEPC_ADDRESS CSR_UEPC_ADDRESS.
Definition csr_cause_address := by_mode CSR_MCAUSE_ADDRESS CSR_SCAUSE_ADDRESS CSR_UCAUSE_ADDRESS.
Definition csr_tval_address := by_mode CSR_MTVAL_ADDRESS CSR_STVAL_ADDRESS CSR_UTVAL_ADDRESS.
Definition csr_tvec_address := by_mode CSR_MTVEC_ADDRESS CSR_STVEC_ADDRESS CSR_UTVEC_ADDRESS.

(** The bit of the current status that enables interrupts at its level, and the
    bit of the handler's enable register that masks the interrupt. *)
Definition level_enable (mode : PrivilegeMode) : option Z :=
  match mode with Machine => Some 3 | Supervisor => Some 1 | User => Some 0 | Reserved => None end.
Definition enable_bit (t : TrapType) : option Z :=
  match t with
  | UserSoftwareInterrupt => Some 0 | SupervisorSoftwareInterrupt => Some 1 | MachineSoftwareInterrupt => Some 3
  | UserTimerInterrupt => Some 4 | SupervisorTimerInterrupt => Some 5 | MachineTimerInterrupt => Some 7
  | UserExternalInterrupt => Some 8 | SupervisorExternalInterrupt => Some 9 | MachineExternalInterrupt => Some 11
  | _ => None
  end.

(** Whether an interrupt is ignored. *)
Definition interrupt_enabled (s : Emulator) (trap : Trap) (new_privilege_mode : PrivilegeMode) : option bool :=
  current_privilege_encoding ← get_privilege_encoding (cpu_privilege_mode s);
  new_privilege_encoding ← get_privilege_encoding new_privilege_mode;
  status ← status_address (cpu_privilege_mode s); current_status ← read_csr_raw s status;
  ie_addr ← ie_address new_privilege_mode; ie ← read_csr_raw s ie_addr;
  if new_privilege_encoding <? current_privilege_encoding then Some false
  else
    level ← level_enable (cpu_privilege_mode s);
    if (current_privilege_encoding =? new_privilege_encoding) && (flag current_status level =? 0) then Some false
    else Some (match enable_bit (trap_type trap) with Some b => negb (flag ie b =? 0) | None => true end).

(** What a taken trap does to the status register of the mode it is taken in. *)
Definition new_status (s : Emulator) (mode : PrivilegeMode) (current_privilege_encoding : Z) : option Emulator :=
  match mode with
  | Machine =>
      status ← read_csr_raw s CSR_MSTATUS_ADDRESS;
      write_csr_raw s CSR_MSTATUS_ADDRESS
        (Z.lor (Z.lor (Z.land status (Z.lnot 0x1888)) (Z.shiftl (flag status 3) 7)) (Z.shiftl current_privilege_encoding 11))
  | Supervisor =>
      status ← read_csr_raw s CSR_SSTATUS_ADDRESS;
      write_csr_raw s CSR_SSTATUS_ADDRESS
        (Z.lor (Z.lor (Z.land status (Z.lnot 0x122)) (Z.shiftl (flag status 1) 5))
           (Z.shiftl (Z.land current_privilege_encoding 1) 8))
  | User | Reserved => None
  end.

(** A trap vector, and where its handler for a cause is. *)
Definition handler (tvec cause : Z) : Z :=
  if negb (Z.land tvec 0x3 =? 0) then as_u64 (Z.land tvec (Z.lnot 0x3) + 4 * Z.land cause 0xffff) else tvec.

(** The trap is taken in a mode. *)
Definition take_trap (s : Emulator) (trap : Trap) (instruction_address cause : Z) (mode : PrivilegeMode) : option Emulator :=
  current_privilege_encoding ← get_privilege_encoding (cpu_privilege_mode s);
  let s := with_mmu (fun m => update_privilege_mode m mode) (set_privilege_mode s mode) in
  epc ← csr_epc_address mode; cause_addr ← csr_cause_address mode;
  tval ← csr_tval_address mode; tvec ← csr_tvec_address mode;
  s ← write_csr_raw s epc instruction_address;
  s ← write_csr_raw s cause_addr cause;
  s ← write_csr_raw s tval (value trap);
  target ← read_csr_raw s tvec;
  new_status (jump s (as_u64 (handler target cause))) mode current_privilege_encoding.

(** [handle_trap]: whether the trap was taken. *)
Definition handle_trap (s : Emulator) (trap : Trap) (instruction_address : Z) (is_interrupt : bool) : option (bool * Emulator) :=
  _ ← get_privilege_encoding (cpu_privilege_mode s);
  let cause := get_trap_cause trap (xlen (core s)) in
  mode ← delegate s cause is_interrupt;
  status ← status_address (cpu_privilege_mode s); _ ← read_csr_raw s status;
  enabled ← (if is_interrupt then interrupt_enabled s trap mode else Some true);
  if (enabled : bool) then s ← take_trap s trap instruction_address cause mode; Some (true, s)
  else Some (false, s).

Definition raise_trap (s : Emulator) (trap : Trap) (faulting_pc : Z) : option Emulator :=
  snd <$> handle_trap s trap faulting_pc false.
Definition handle_exception (s : Emulator) (trap : Trap) (instruction_address : Z) : option Emulator :=
  snd <$> handle_trap s trap instruction_address false.

(** [handle_interrupt]: its six tests, in order. *)
Definition interrupts : list (Z * TrapType) :=
  [(MIP_MEIP, MachineExternalInterrupt); (MIP_MSIP, MachineSoftwareInterrupt); (MIP_MTIP, MachineTimerInterrupt);
   (MIP_SEIP, SupervisorExternalInterrupt); (MIP_SSIP, SupervisorSoftwareInterrupt); (MIP_STIP, SupervisorTimerInterrupt)].
Fixpoint handle_pending (l : list (Z * TrapType)) (minterrupt instruction_address : Z) (s : Emulator) : option Emulator :=
  match l with
  | [] => Some s
  | (bit, t) :: l =>
      if negb (Z.land minterrupt bit =? 0) then
        '(taken, s) ← handle_trap s {| trap_type := t; value := pc (core s) |} instruction_address true;
        if (taken : bool) then
          mip ← read_csr_raw s CSR_MIP_ADDRESS;
          s ← write_csr_raw s CSR_MIP_ADDRESS (Z.land mip (Z.lnot bit));
          Some (set_wfi s false)
        else handle_pending l minterrupt instruction_address s
      else handle_pending l minterrupt instruction_address s
  end.
Definition handle_interrupt (s : Emulator) (instruction_address : Z) : option Emulator :=
  mip ← read_csr_raw s CSR_MIP_ADDRESS; mie ← read_csr_raw s CSR_MIE_ADDRESS;
  handle_pending interrupts (Z.land mip mie) instruction_address s.
