(* ===== verification/System.v ===== *)
(** * System: the instructions beyond [Op], and the tick of the emulator

    Models the [exec], [inline_sequence] and [trace] of the fences, environment
    calls, CSR instructions, host calls and advice loads
    ([tracer/src/instruction/*.rs]), the dispatch of [INLINE] to the registered
    builders ([inline.rs]), and [tick] of [tracer/src/emulator/cpu.rs] on the
    whole state [Emulator].  What is printed, and the markers that only profile,
    are left out of the host calls; the registered inlines, which other crates
    submit at link time, are the parameter [inventory]. *)
From S2P Require Import Prelude Bits Registers AdviceTape Memory Device Mmu Cpu Formats Instr Assembler Sequences.
From S2P Require Import MemSequences Trace Decode Fetch Csr.
Open Scope Z_scope.
Open Scope st_scope.

(** ** Enum dispatch *)
Definition host_operands (op : HostOp) : NormalizedOperands :=
  match op with
  | FENCE => {| norm_rd := None; norm_rs1 := None; norm_rs2 := None; norm_imm := 0 |}
  | ECALL o | EBREAK o | MRET o | CSRRW o | CSRRS o | VirtualHostIO o => to_operands o
  | AdviceLB o | AdviceLH o | AdviceLW o | AdviceLD o => to_operands o
  | INLINE _ _ _ o =>
      {| norm_rs1 := Some (IN_rs1 o); norm_rs2 := Some (IN_rs2 o); norm_rd := Some (IN_rs3 o); norm_imm := 0 |}
  end.
Definition host_set_rd (op : HostOp) (rd : nat) : HostOp :=
  match op with
  | FENCE => FENCE
  | ECALL o => ECALL (set_rd o rd) | EBREAK o => EBREAK (set_rd o rd) | MRET o => MRET (set_rd o rd)
  | CSRRW o => CSRRW (set_rd o rd) | CSRRS o => CSRRS (set_rd o rd) | VirtualHostIO o => VirtualHostIO (set_rd o rd)
  | AdviceLB o => AdviceLB (set_rd o rd) | AdviceLH o => AdviceLH (set_rd o rd)
  | AdviceLW o => AdviceLW (set_rd o rd) | AdviceLD o => AdviceLD (set_rd o rd)
  | INLINE opcode funct3 funct7 o =>
      INLINE opcode funct3 funct7 {| IN_rs1 := IN_rs1 o; IN_rs2 := IN_rs2 o; IN_rs3 := rd |}
  end.
Definition host_capture_pre (op : HostOp) (c : Cpu) : option RegisterState :=
  match op with
  | FENCE => Some {| rs1_value := None; rs2_value := None; rd_values := None |}
  | ECALL o | EBREAK o | MRET o | CSRRW o | CSRRS o | VirtualHostIO o => capture_pre_execution_state o c
  | AdviceLB o | AdviceLH o | AdviceLW o | AdviceLD o => capture_pre_execution_state o c
  | INLINE _ _ _ o => capture_pre_rd_rs1_rs2 (IN_rs3 o) (IN_rs1 o) (IN_rs2 o) c
  end.
Definition host_capture_post (op : HostOp) (state : RegisterState) (c : Cpu) : option RegisterState :=
  match op with
  | FENCE | INLINE _ _ _ _ => Some state
  | ECALL o | EBREAK o | MRET o | CSRRW o | CSRRS o | VirtualHostIO o => capture_post_execution_state o state c
  | AdviceLB o | AdviceLH o | AdviceLW o | AdviceLD o => capture_post_execution_state o state c
  end.

(** [has_side_effects]: all but the fence. *)
Definition host_has_side_effects (op : HostOp) : bool := match op with FENCE => false | _ => true end.

(** ** [exec] *)

(** [(self.operands.imm & 0xfff) as u16] *)
Definition csr_address (o : FormatI) : Z := as_u16 (Z.land (I_imm o) 0xfff).

Definition write_rd (s : Emulator) (rd : nat) (v : Z) : option Emulator :=
  if decide (rd <> 0)%nat then c ← write_register (core s) rd (sign_extend (core s) v); Some (set_core s c) else Some s.
Definition CSRRW_exec (s : Emulator) (o : FormatI) : option Emulator :=
  let csr_addr := csr_address o in
  rs1_val ← x (core s) !! I_rs1 o;
  old_val ← read_csr_raw s csr_addr;
  s ← write_csr_raw s csr_addr (as_u64 rs1_val);
  write_rd s (I_rd o) (as_i64 old_val).
Definition CSRRS_exec (s : Emulator) (o : FormatI) : option Emulator :=
  let csr_addr := csr_address o in
  rs1_val ← x (core s) !! I_rs1 o;
  old_val ← read_csr_raw s csr_addr;
  s ← (if decide (I_rs1 o <> 0)%nat then write_csr_raw s csr_addr (Z.lor old_val (as_u64 rs1_val)) else Some s);
  write_rd s (I_rd o) (as_i64 old_val).

Definition ECALL_exec (s : Emulator) (address : Z) : option Emulator :=
  let t := match cpu_privilege_mode s with
           | User => EnvironmentCallFromUMode
           | Supervisor => EnvironmentCallFromSMode
           | Machine | Reserved => EnvironmentCallFromMMode
           end in
  raise_trap s {| trap_type := t; value := 0 |} address.
Definition EBREAK_exec (s : Emulator) (address : Z) : Emulator := jump s address.
Definition MRET_exec (s : Emulator) : option Emulator :=
  mepc ← read_csr_raw s CSR_MEPC_ADDRESS; Some (jump s mepc).

Definition advice_exec (s : Emulator) (num_bytes rd : nat) (extend : Z -> Z) : option Emulator :=
  '(r, tape) ← AdviceTape_read (advice_tape (core s)) num_bytes;
  advice_value ← r;
  c ← write_register (set_advice_tape (core s) tape) rd (extend advice_value);
  Some (set_core s c).
Definition AdviceLB_exec (s : Emulator) (o : FormatAdviceLoadI) := advice_exec s 1 (AL_rd o) as_i8.
Definition AdviceLH_exec (s : Emulator) (o : FormatAdviceLoadI) := advice_exec s 2 (AL_rd o) as_i16.
Definition AdviceLW_exec (s : Emulator) (o : FormatAdviceLoadI) := advice_exec s 4 (AL_rd o) as_i32.
Definition AdviceLD_exec (s : Emulator) (o : FormatAdviceLoadI) := advice_exec s 8 (AL_rd o) as_i64.

(** The bytes of guest memory at consecutive addresses, each taken modulo
    [2 ^ w]; a trap ends the loop. *)
Fixpoint read_guest (w : Z) (ptr : Z) (i n : nat) (bytes : list Z) : St Mmu (Trap + list Z) :=
  match n with
  | O => M_ret (inr bytes)
  | S n =>
      let! r := load (wrapu w (ptr + Z.of_nat i)) in
      match r with
      | inr (b, _) => read_guest w ptr (S i) n (bytes ++ [b])
      | inl e => M_ret (inl e)
      end
  end.
Definition read_guest_bytes (w ptr len : Z) (s : Emulator) : option ((Trap + list Z) * Emulator) :=
  '(r, m) ← read_guest w ptr 0 (Z.to_nat len) [] (mmu (core s)); Some (r, set_core s (set_mmu (core s) m)).

(** [Vec::with_capacity(len)] panics above [isize::MAX]. *)
Definition handle_advice_write (s : Emulator) (ptr len : Z) : option Emulator :=
  if 2 ^ 63 <=? len then None
  else
    '(r, s) ← read_guest_bytes 64 ptr len s;
    Some (match r with
          | inr bytes => set_core s (set_advice_tape (core s) (AdviceTape_write (advice_tape (core s)) bytes))
          | inl _ => s
          end).
Definition handle_jolt_cycle_marker (s : Emulator) (ptr len event : Z) : option Emulator :=
  if event =? 1 then snd <$> read_guest_bytes 32 ptr len s
  else if event =? 2 then Some s
  else None.
Definition handle_jolt_print (s : Emulator) (ptr len event_type : Z) : option Emulator :=
  '(r, s) ← read_guest_bytes 32 ptr len s;
  match r with
  | inr _ => if (event_type =? 1) || (event_type =? 2) then Some s else None
  | inl _ => Some s
  end.
Definition VirtualHostIO_exec (s : Emulator) : option Emulator :=
  a0 ← x (core s) !! 10%nat; a1 ← x (core s) !! 11%nat; a2 ← x (core s) !! 12%nat; a3 ← x (core s) !! 13%nat;
  let call_id := as_u32 a0 in
  if call_id =? 0xADBABE then handle_advice_write s (as_u64 a1) (as_u64 a2)
  else if call_id =? 0xC7C1E then handle_jolt_cycle_marker s (as_u32 a1) (as_u32 a2) (as_u32 a3)
  else if call_id =? 0x505249 then handle_jolt_print s (as_u32 a1) (as_u32 a2) (as_u32 a3)
  else Some s.

Definition host_execute (self : Struct HostOp) (s : Emulator) : option Emulator :=
  match operands self with
  | FENCE => Some s
  | ECALL _ => ECALL_exec s (address self)
  | EBREAK _ => Some (EBREAK_exec s (address self))
  | MRET _ => MRET_exec s
  | CSRRW o => CSRRW_exec s o
  | CSRRS o => CSRRS_exec s o
  | VirtualHostIO _ => VirtualHostIO_exec s
  | AdviceLB o => AdviceLB_exec s o
  | AdviceLH o => AdviceLH_exec s o
  | AdviceLW o => AdviceLW_exec s o
  | AdviceLD o => AdviceLD_exec s o
  | INLINE _ _ _ _ => None
  end.

(** ** [inline_sequence] *)
Section Sequences.
Context (xl : Xlen).

(** An instruction of a sequence: a virtual one, the instruction itself (the
    default of the trait), or [Instruction::NoOp]. *)
Inductive SequenceItem := Emitted (i : Instruction) | Itself (i : Struct HostOp) | NoOp.

Definition CSRRW_inline_sequence (self : Struct FormatI) : M (list SequenceItem) :=
  let o := operands self in
  let csr_addr := csr_address o in
  if csr_addr =? 0 then M_ret [NoOp]
  else
    let! virtual_reg := M_lift (csr_to_virtual_register csr_addr) in
    let asm := new_asm self xl in
    if (I_rd o =? 0)%nat then
      let! asm := emit_i ADDI asm virtual_reg (I_rs1 o) 0 in
      let! l := finalize asm in M_ret (map Emitted l)
    else if (I_rd o =? I_rs1 o)%nat then
      let! temp := allocate in
      let! asm := emit_i ADDI asm temp (I_rs1 o) 0 in
      let! asm := emit_i ADDI asm (I_rd o) virtual_reg 0 in
      let! asm := emit_i ADDI asm virtual_reg temp 0 in
      drop_guards [temp] ;;!
      let! l := finalize asm in M_ret (map Emitted l)
    else
      let! asm := emit_i ADDI asm (I_rd o) virtual_reg 0 in
      let! asm := emit_i ADDI asm virtual_reg (I_rs1 o) 0 in
      let! l := finalize asm in M_ret (map Emitted l).

Definition CSRRS_inline_sequence (self : Struct FormatI) : M (list SequenceItem) :=
  let o := operands self in
  let csr_addr := csr_address o in
  if csr_addr =? 0 then M_ret [NoOp]
  else
    let! virtual_reg := M_lift (csr_to_virtual_register csr_addr) in
    let asm := new_asm self xl in
    if (I_rs1 o =? 0)%nat then
      let! asm := emit_i ADDI asm (I_rd o) virtual_reg 0 in
      let! l := finalize asm in M_ret (map Emitted l)
    else if (I_rd o =? 0)%nat then
      let! asm := emit_r OR asm virtual_reg virtual_reg (I_rs1 o) in
      let! l := finalize asm in M_ret (map Emitted l)
    else if (I_rd o =? I_rs1 o)%nat then
      let! temp := allocate in
      let! asm := emit_i ADDI asm temp (I_rs1 o) 0 in
      let! asm := emit_i ADDI asm (I_rd o) virtual_reg 0 in
      let! asm := emit_r OR asm virtual_reg virtual_reg temp in
      drop_guards [temp] ;;!
      let! l := finalize asm in M_ret (map Emitted l)
    else
      let! asm := emit_i ADDI asm (I_rd o) virtual_reg 0 in
      let! asm := emit_r OR asm virtual_reg virtual_reg (I_rs1 o) in
      let! l := finalize asm in M_ret (map Emitted l).

Definition MCAUSE_ECALL_FROM_MMODE : Z := 11.
Definition ECALL_inline_sequence (self : Struct FormatI) : M (list SequenceItem) :=
  let asm := new_asm self xl in
  let! ecall_addr := allocate in
  let! asm := emit_u AUIPC asm ecall_addr 0 in
  let! asm := emit_i ADDI asm MEPC_REGISTER ecall_addr 0 in
  drop_guards [ecall_addr] ;;!
  let! asm := emit_i ADDI asm MCAUSE_REGISTER 0 MCAUSE_ECALL_FROM_MMODE in
  let! asm := emit_i ADDI asm MTVAL_REGISTER 0 0 in
  let! three := allocate in
  let! asm := emit_i ADDI asm three 0 3 in
  let! asm := emit_i SLLI asm MSTATUS_REGISTER three 11 in
  drop_guards [three] ;;!
  let! jalr_rd := allocate in
  let! asm := emit_i JALR asm jalr_rd TRAP_HANDLER_REGISTER 0 in
  let! l := finalize asm in
  drop_guards [jalr_rd] ;;! M_ret (map Emitted l).

Definition MRET_inline_sequence (self : Struct FormatI) : M (list SequenceItem) :=
  let asm := new_asm self xl in
  let! jalr_rd := allocate in
  let! asm := emit_i JALR asm jalr_rd MEPC_REGISTER 0 in
  let! l := finalize asm in
  drop_guards [jalr_rd] ;;! M_ret (map Emitted l).

(** [VirtualAdviceLoad] of the bytes, then a shift left and right to extend the
    sign when the value is narrower than the word. *)
Definition advice_load (self : Struct FormatAdviceLoadI) (w : Xlen) (num_bytes : Z) (shift : option Z) : M (list SequenceItem) :=
  let rd := AL_rd (operands self) in
  let asm := new_asm self w in
  let! asm := emit_j VirtualAdviceLoad asm rd num_bytes in
  let! asm := match shift with
              | Some n => let! asm := emit_i SLLI asm rd rd n in emit_i SRAI asm rd rd n
              | None => M_ret asm
              end in
  let! l := finalize asm in M_ret (map Emitted l).
Definition AdviceLB_inline_sequence (self : Struct FormatAdviceLoadI) : M (list SequenceItem) :=
  match xl with Bit32 => advice_load self Bit32 1 (Some 24) | Bit64 => advice_load self Bit64 1 (Some 56) end.
Definition AdviceLH_inline_sequence (self : Struct FormatAdviceLoadI) : M (list SequenceItem) :=
  match xl with Bit32 => advice_load self Bit32 2 (Some 16) | Bit64 => advice_load self Bit64 2 (Some 48) end.
Definition AdviceLW_inline_sequence (self : Struct FormatAdviceLoadI) : M (list SequenceItem) :=
  match xl with Bit32 => advice_load self Bit32 4 None | Bit64 => advice_load self Bit64 4 (Some 32) end.
Definition AdviceLD_inline_sequence (self : Struct FormatAdviceLoadI) : M (list SequenceItem) :=
  match xl with Bit32 => M_panic | Bit64 => advice_load self Bit64 8 None end.
End Sequences.

(** ** Inlines registered by other crates *)
Record InlineRegistration := {
  reg_opcode : Z; reg_funct3 : Z; reg_funct7 : Z;
  build_sequence : InstrAssembler -> FormatInline -> M (list Instruction);
  build_advice : InstrAssembler -> FormatInline -> Cpu -> option (option (list Z) * Cpu)
}.

Section Emulation.
Context (inventory : list InlineRegistration).

(** The registration with an inline's codes; none panics. *)
Definition find_inline (opcode funct3 funct7 : Z) : option InlineRegistration :=
  List.find (fun r => (reg_opcode r =? opcode) && (reg_funct3 r =? funct3) && (reg_funct7 r =? funct7)) inventory.
Definition inline_asm (self : Struct HostOp) (xl : Xlen) : InstrAssembler :=
  InstrAssembler_new_inline (address self) (is_compressed self) xl.
Definition INLINE_inline_sequence (self : Struct HostOp) (opcode funct3 funct7 : Z) (o : FormatInline) (xl : Xlen)
    : M (list SequenceItem) :=
  let! reg := M_lift (find_inline opcode funct3 funct7) in
  let! l := build_sequence reg (inline_asm self xl) o in M_ret (map Emitted l).

Definition host_dispatch_sequence (self : Struct HostOp) (xl : Xlen) : M (list SequenceItem) :=
  match operands self with
  | FENCE | EBREAK _ | VirtualHostIO _ => M_ret [Itself self]
  | ECALL o => ECALL_inline_sequence xl (retag self o)
  | MRET o => MRET_inline_sequence xl (retag self o)
  | CSRRW o => CSRRW_inline_sequence xl (retag self o)
  | CSRRS o => CSRRS_inline_sequence xl (retag self o)
  | AdviceLB o => AdviceLB_inline_sequence xl (retag self o)
  | AdviceLH o => AdviceLH_inline_sequence xl (retag self o)
  | AdviceLW o => AdviceLW_inline_sequence xl (retag self o)
  | AdviceLD o => AdviceLD_inline_sequence xl (retag self o)
  | INLINE opcode funct3 funct7 o => INLINE_inline_sequence self opcode funct3 funct7 o xl
  end.

Definition handles_zero_rd (op : HostOp) : bool :=
  match op with ECALL _ | MRET _ | EBREAK _ | CSRRW _ | CSRRS _ => true | _ => false end.
Definition host_rd_is_zero (op : HostOp) : bool := match norm_rd (host_operands op) with Some O => true | _ => false end.

(** [Instruction::inline_sequence]; the one instruction without side effects has no [rd]. *)
Definition host_inline_sequence (self : Struct HostOp) (xl : Xlen) : M (list SequenceItem) :=
  if host_rd_is_zero (operands self) && negb (handles_zero_rd (operands self)) then
    let! vr := allocate in
    let! l := host_dispatch_sequence (retag self (host_set_rd (operands self) vr)) xl in
    drop_guards [vr] ;;! M_ret l
  else host_dispatch_sequence self xl.

(** ** [trace] *)
Inductive AnyCycle := OpCycle (cycle : Cycle) | HostCycle (instruction : Struct HostOp) (register_state : RegisterState).

(** The default [RISCVTrace::trace]. *)
Definition host_default_trace (self : Struct HostOp) (s : Emulator) : option (Emulator * list AnyCycle) :=
  state ← host_capture_pre (operands self) (core s);
  s ← host_execute self s;
  state ← host_capture_post (operands self) state (core s);
  Some (s, [HostCycle self state]).

(** [for instr in l { instr.trace(cpu, trace) }], with [run] for [trace] or
    [trace_raw]; neither takes a [NoOp]. *)
Fixpoint run_items (run : Instruction -> Cpu -> option (Cpu * list Cycle)) (l : list SequenceItem) (s : Emulator)
    : option (Emulator * list AnyCycle) :=
  match l with
  | [] => Some (s, [])
  | Emitted i :: l =>
      '(c, t) ← run i (core s);
      '(s, t') ← run_items run l (set_core s c); Some (s, map OpCycle t ++ t')
  | Itself i :: l =>
      '(s, t) ← host_default_trace i s;
      '(s, t') ← run_items run l s; Some (s, t ++ t')
  | NoOp :: _ => None
  end.

(** The advice goes to the [VirtualAdvice] of the sequence in order; too few
    values and too many panic. *)
Fixpoint run_advised (fuel : nat) (l : list SequenceItem) (advice : list Z) (s : Emulator)
    : option (Emulator * list AnyCycle) :=
  match l with
  | [] => match advice with [] => Some (s, []) | _ => None end
  | Emitted i :: l =>
      '(i, advice) ← match operands i with
                     | VirtualAdvice o _ =>
                         match advice with
                         | v :: advice => Some (with_operands i (VirtualAdvice o v), advice)
                         | [] => None
                         end
                     | _ => Some (i, advice)
                     end;
      '(c, t) ← trace fuel i (core s);
      '(s, t') ← run_advised fuel l advice (set_core s c); Some (s, map OpCycle t ++ t')
  | _ :: _ => None
  end.

(** [INLINE::trace]; its own remapping of [rs3 = x0] is not reached, since
    [Instruction::trace] expands such an inline first. *)
Definition INLINE_trace (fuel : nat) (self : Struct HostOp) (opcode funct3 funct7 : Z) (o : FormatInline) (s : Emulator)
    : option (Emulator * list AnyCycle) :=
  reg ← find_inline opcode funct3 funct7;
  '(advice, c) ← build_advice reg (inline_asm self (xlen (core s))) o (core s);
  '(l, a) ← INLINE_inline_sequence self opcode funct3 funct7 o (xlen c) (vr_allocator c);
  let s := set_core s (set_allocator c a) in
  match advice with
  | Some advice => run_advised fuel l advice s
  | None => run_items (trace fuel) l s
  end.

(** An instruction's own [trace]. *)
Definition host_trace_raw (fuel : nat) (self : Struct HostOp) (s : Emulator) : option (Emulator * list AnyCycle) :=
  match operands self with
  | FENCE | EBREAK _ | VirtualHostIO _ => host_default_trace self s
  | INLINE opcode funct3 funct7 o => INLINE_trace fuel self opcode funct3 funct7 o s
  | _ =>
      '(l, a) ← host_dispatch_sequence self (xlen (core s)) (vr_allocator (core s));
      run_items (trace fuel) l (set_core s (set_allocator (core s) a))
  end.

(** [Instruction::trace]. *)
Definition host_trace (fuel : nat) (self : Struct HostOp) (s : Emulator) : option (Emulator * list AnyCycle) :=
  if host_rd_is_zero (operands self) then
    '(l, a) ← host_inline_sequence self (xlen (core s)) (vr_allocator (core s));
    run_items (trace_raw fuel) l (set_core s (set_allocator (core s) a))
  else host_trace_raw fuel self s.

(** ** The tick *)
Section Tick.
Context (debug_assertions : bool).

(** What a tick does: nothing while it waits, a trap, or an instruction. *)
Inductive TickOutcome := Waiting | TickTrapped (e : Trap) | TickRan (cycles : list AnyCycle).

(** [tick_operate] with [wfi] and every instruction; [traced] is whether a trace
    is collected. *)
Definition Cpu_tick_operate (fuel : nat) (traced : bool) (s : Emulator) : option (TickOutcome * Emulator) :=
  if wfi s then
    mie ← read_csr_raw s CSR_MIE_ADDRESS; mip ← read_csr_raw s CSR_MIP_ADDRESS;
    Some (Waiting, if negb (Z.land mie mip =? 0) then set_wfi s false else s)
  else
    '(r, c) ← tick_operate debug_assertions fuel traced (core s);
    let s := set_core s c in
    match r with
    | Trapped e => Some (TickTrapped e, s)
    | Ran t => Some (TickRan (map OpCycle t), s)
    | AtHost i =>
        if traced then
          '(s, t) ← host_trace fuel i s;
          '(l, a) ← host_inline_sequence i (xlen (core s)) (vr_allocator (core s));
          Some (TickRan t, set_core s (finish_tick (length l) (set_allocator (core s) a)))
        else
          s ← host_execute i s;
          Some (TickRan [], set_core s (finish_tick 1 (core s)))
    end.

(** [tick]: the trace of the instruction, if any. *)
Definition Cpu_tick (fuel : nat) (traced : bool) (s : Emulator) : option (list AnyCycle * Emulator) :=
  let instruction_address := pc (core s) in
  '(r, s) ← Cpu_tick_operate fuel traced s;
  '(t, s) ← match r with
            | Waiting => Some ([], s)
            | TickRan t => Some (t, s)
            | TickTrapped e => s ← handle_exception s e instruction_address; Some ([], s)
            end;
  let s := with_mmu mmu_tick s in
  s ← handle_interrupt s (pc (core s));
  let s := set_clock s (as_u64 (cpu_clock s + 1)) in
  s ← write_csr_raw s CSR_CYCLE_ADDRESS (as_u64 (cpu_clock s * 8));
  Some (t, s).

(** The ticks of a program's run, with their cycles. *)
Fixpoint ticks (fuel : nat) (traced : bool) (n : nat) (s : Emulator) : option (list AnyCycle * Emulator) :=
  match n with
  | O => Some ([], s)
  | S n => '(t, s) ← Cpu_tick fuel traced s; '(t', s) ← ticks fuel traced n s; Some (t ++ t', s)
  end.
End Tick.
End Emulation.
