(* ===== verification/HostShape.v ===== *)
(** * HostShape: the layout of what [Instruction::inline_sequence] returns

    The sequences of the system instructions are laid out like those of the
    integer and memory instructions ([SeqShape], [MemShape]); with the instructions
    that expand to themselves or to a no-op, this is every result of
    [Instruction::inline_sequence] but those of the registered inlines. *)
From S2P Require Import Prelude Bits Registers AdviceTape Memory Device Mmu Cpu Formats Instr Assembler Sequences MemSequences Trace.
From S2P Require Import SeqShape MemShape Decode Fetch Csr System.
Open Scope Z_scope.

(** Only the last instruction of a sequence sets the program counter, by a [JALR]. *)
Definition controlled (l : list Instruction) : Prop :=
  forall k i, l !! k = Some i -> transfers (operands i) = true ->
    k = (length l - 1)%nat /\ exists o, operands i = JALR o.
Lemma straight_controlled l : Forall (fun i => transfers (operands i) = false) l -> controlled l.
Proof. intros H k i Hi Ht. rewrite Forall_lookup in H. specialize (H k i Hi). cbn in H. congruence. Qed.

(** Instructions that an assembler emitted and numbered. *)
Definition emitted_at (addr : Z) (comp : bool) (l : list SequenceItem) : Prop :=
  exists l', l = map Emitted l' /\ laid_out addr comp l' /\ controlled l'.

(** *** A sequence that ends with a jump *)
Record ends_in_jump (addr : Z) (comp : bool) (asm : InstrAssembler) : Prop := {
  jump_compressed : asm_is_compressed asm = comp;
  jump_last : exists l i o, sequence asm = l ++ [i] /\ Forall (plain addr) l /\ unmarked addr i /\ operands i = JALR o
}.
Lemma emit_jump addr comp asm rd rs1 imm : asm_inv addr comp asm ->
  returns (emit_i JALR asm rd rs1 imm) (ends_in_jump addr comp).
Proof.
  intros [Ha Hc Hp]. unfold emit_i, emit. eapply returns_bind; [apply returns_lift; intros s Hs; exact (normalized_address _ s Hs)|].
  cbn. intros s [Hsa Hsc]. unfold add_to_sequence. destruct (_ && _); [apply returns_panic|].
  apply returns_ret. split; [done|]. exists (sequence asm), (into JALR s), (operands s).
  split; [done|]. split; [done|]. split; [|done]. split; cbn in *; congruence.
Qed.
Lemma finalize_jump addr comp asm : ends_in_jump addr comp asm ->
  returns (finalize asm) (fun l => laid_out addr comp l /\ controlled l).
Proof.
  intros [Hc (l0 & j & o & Hs & Hp & Hu & Ho)]. eapply returns_impl; [|apply (finalize_rows addr); [exact Hc|]].
  - intros l [Hl Hops]. split; [exact Hl|]. rewrite Hs in Hops. intros k i Hi Ht.
    assert (Hlen : length l = S (length l0)).
    { apply (f_equal length) in Hops. rewrite !length_map, length_app in Hops. cbn in Hops. unfold Instruction in *; lia. }
    assert (Hk : map operands (l0 ++ [j]) !! k = Some (operands i)) by (rewrite <- Hops; unfold Instruction in *; by rewrite list_lookup_fmap, Hi).
    rewrite list_lookup_fmap in Hk. apply fmap_Some in Hk as (i' & Hi' & E). rewrite E in *.
    destruct (decide (k < length l0)%nat) as [Hk|Hk].
    + rewrite lookup_app_l in Hi' by done. rewrite Forall_lookup in Hp. destruct (Hp k i' Hi') as [_ Hf]. congruence.
    + rewrite lookup_app_r in Hi' by (unfold Instruction in *; lia). apply list_lookup_singleton_Some in Hi' as [Hk0 <-]. split; [unfold Instruction in *; lia|by exists o].
  - rewrite Hs. apply Forall_app. split; [|by constructor]. eapply list.Forall_impl; [exact Hp|]. by intros ? [? _].
Qed.

Ltac host_step :=
  match goal with
  | |- returns (M_bind (emit_i JALR _ _ _ _) _) (emitted_at ?addr ?comp) =>
      eapply (returns_bind _ _ (ends_in_jump addr comp));
      [apply emit_jump; first [apply asm_inv_new | split; eassumption]|intros ? ?]
  | _ : ends_in_jump _ _ ?asm |- returns (M_bind (finalize ?asm) _) (emitted_at ?addr ?comp) =>
      eapply (returns_bind _ _ (fun l => laid_out addr comp l /\ controlled l));
      [by apply finalize_jump|intros ? [? ?]]
  | |- returns (M_bind (finalize ?asm) _) (emitted_at ?addr ?comp) =>
      eapply (returns_bind _ _ (straight_out addr comp)); [eapply finalize_laid_out; eassumption|intros ? [? ?%straight_controlled]]
  | |- returns (M_bind allocate _) _ => apply returns_bind_any; intros ?
  | |- returns (M_bind (drop_guards _) _) _ => apply returns_bind_any; intros _
  | |- returns (M_bind (drop_guard _) _) _ => apply returns_bind_any; intros _
  | |- returns (M_bind (M_lift _) _) _ => apply returns_bind_any; intros ?
  | |- returns (M_ret (map Emitted ?l)) (emitted_at _ _) => apply returns_ret; exists l; by split
  | |- returns M_panic _ => apply returns_panic
  | |- returns (M_bind ?m _) (emitted_at ?addr ?comp) =>
      eapply (returns_bind m _ (asm_inv addr comp));
      [ apply emit_inv; first [apply _ | apply asm_inv_new | split; eassumption] | intros ? [? ? ?] ]
  | |- returns (match ?e with _ => _ end) _ => destruct e
  end.
Ltac host_shape := intros; cbv zeta; repeat (host_step; cbv zeta).

Section Hosts.
Context (xl : Xlen) (s : Struct FormatI) (t : Struct FormatAdviceLoadI).
Abbreviation laid s := (emitted_at (address s) (is_compressed s)).

Lemma ECALL_laid : returns (ECALL_inline_sequence xl s) (laid s).
Proof. unfold ECALL_inline_sequence, new_asm. host_shape. Qed.
Lemma MRET_laid : returns (MRET_inline_sequence xl s) (laid s).
Proof. unfold MRET_inline_sequence, new_asm. host_shape. Qed.
Lemma CSRRW_laid : csr_address (operands s) <> 0 -> returns (CSRRW_inline_sequence xl s) (laid s).
Proof.
  intros H. unfold CSRRW_inline_sequence, new_asm. cbv zeta. destruct (Z.eqb_spec (csr_address (operands s)) 0); [done|]. host_shape.
Qed.
Lemma CSRRS_laid : csr_address (operands s) <> 0 -> returns (CSRRS_inline_sequence xl s) (laid s).
Proof.
  intros H. unfold CSRRS_inline_sequence, new_asm. cbv zeta. destruct (Z.eqb_spec (csr_address (operands s)) 0); [done|]. host_shape.
Qed.
Lemma advice_load_laid w n shift : returns (advice_load t w n shift) (laid t).
Proof.
  unfold advice_load, new_asm. cbv zeta.
  eapply (returns_bind _ _ (asm_inv (address t) (is_compressed t))); [apply emit_inv; [apply _|apply asm_inv_new]|intros asm Ha].
  eapply (returns_bind _ _ (asm_inv (address t) (is_compressed t))).
  - destruct shift; [|by apply returns_ret].
    eapply (returns_bind _ _ (asm_inv (address t) (is_compressed t))); [by apply emit_inv; [apply _|]|intros ? ?].
    by apply emit_inv; [apply _|].
  - intros ? [? ? ?]. host_shape.
Qed.
End Hosts.

(** ** [Instruction::inline_sequence] *)

Lemma with_rd_macro i r : is_macro (operands (with_rd i r)) = is_macro (operands i).
Proof. unfold with_rd. cbn [operands]. by destruct (operands i). Qed.
Lemma dispatch_itself i xl : is_macro (operands i) = false -> dispatch_inline_sequence i xl = M_ret [i].
Proof. unfold dispatch_inline_sequence. destruct (operands i); intros H; (discriminate H || done). Qed.

(** What the dispatch returns: a sequence for the macros, else the instruction. *)
Lemma dispatch_shape i xl : returns (dispatch_inline_sequence i xl)
  (fun l => if is_macro (operands i) then straight_out (address i) (is_compressed i) l else l = [i]).
Proof.
  destruct (is_macro (operands i)) eqn:E; [by apply macro_laid_out|]. rewrite dispatch_itself by done. by apply returns_ret.
Qed.
Lemma inline_sequence_shape i xl : returns (Instruction_inline_sequence i xl) (fun l =>
  if rd_is_zero i && negb (has_side_effects i) then l = [nop i]
  else if is_macro (operands i) then straight_out (address i) (is_compressed i) l
  else exists r, l = [if rd_is_zero i then with_rd i r else i]).
Proof.
  unfold Instruction_inline_sequence. destruct (rd_is_zero i); [destruct (has_side_effects i)|]; cbn [andb negb].
  - apply returns_bind_any. intros r. eapply returns_bind; [apply dispatch_shape|]. intros l Hl. apply returns_bind_any. intros _.
    apply returns_ret. rewrite with_rd_macro in Hl. destruct (is_macro _); [exact Hl|by exists r].
  - by apply returns_ret.
  - eapply returns_impl; [|apply dispatch_shape]. intros l. cbn. destruct (is_macro _); [done|]. intros ->. by exists 0%nat.
Qed.

Section Host.
Context (inventory : list InlineRegistration).

(** What an instruction beyond [Op] expands to; nothing is said of an inline. *)
Definition host_shape_of (h : Struct HostOp) (l : list SequenceItem) : Prop :=
  match operands h with
  | INLINE _ _ _ _ => True
  | FENCE | EBREAK _ => l = [Itself h]
  | VirtualHostIO _ =>
      exists r, l = [Itself (if host_rd_is_zero (operands h) then retag h (host_set_rd (operands h) r) else h)]
  | CSRRW o | CSRRS o => if csr_address o =? 0 then l = [NoOp] else emitted_at (address h) (is_compressed h) l
  | ECALL _ | MRET _ | AdviceLB _ | AdviceLH _ | AdviceLW _ | AdviceLD _ => emitted_at (address h) (is_compressed h) l
  end.

Lemma host_dispatch_shape h xl : returns (host_dispatch_sequence inventory h xl)
  (fun l => match operands h with VirtualHostIO _ => l = [Itself h] | _ => host_shape_of h l end).
Proof.
  unfold host_dispatch_sequence, host_shape_of. destruct (operands h) as [|o|o|o|o|o|o|o|o|o|o|] eqn:E; try (by apply returns_ret);
    try (unfold AdviceLB_inline_sequence, AdviceLH_inline_sequence, AdviceLW_inline_sequence, AdviceLD_inline_sequence;
         destruct xl; first [apply returns_panic|apply (advice_load_laid (retag h o))]).
  - apply (ECALL_laid xl (retag h o)).
  - apply (MRET_laid xl (retag h o)).
  - destruct (Z.eqb_spec (csr_address o) 0) as [H0|H0]; [|by apply (CSRRW_laid xl (retag h o))].
    unfold CSRRW_inline_sequence. cbn [operands retag]. rewrite H0. by apply returns_ret.
  - destruct (Z.eqb_spec (csr_address o) 0) as [H0|H0]; [|by apply (CSRRS_laid xl (retag h o))].
    unfold CSRRS_inline_sequence. cbn [operands retag]. rewrite H0. by apply returns_ret.
  - by intros ? ? ? _.
Qed.

Lemma host_inline_sequence_shape h xl : returns (host_inline_sequence inventory h xl) (host_shape_of h).
Proof.
  unfold host_inline_sequence. destruct (host_rd_is_zero (operands h)) eqn:Hz; cbn [andb].
  2: { eapply returns_impl; [|apply host_dispatch_shape]. intros l. cbn. unfold host_shape_of.
       destruct (operands h); try done. intros ->. rewrite Hz. by exists 0%nat. }
  destruct (handles_zero_rd (operands h)) eqn:Hh; cbn [negb].
  - eapply returns_impl; [|apply host_dispatch_shape]. intros l. cbn. by destruct (operands h).
  - apply returns_bind_any. intros r. eapply returns_bind; [apply host_dispatch_shape|]. intros l Hl. apply returns_bind_any. intros _.
    apply returns_ret. unfold host_shape_of in *. cbn [operands retag] in Hl.
    destruct (operands h); try discriminate Hh; cbn [host_set_rd] in Hl; try done. rewrite Hz. by exists r.
Qed.

(** *** The rows of a program's instruction *)

(** The instructions that the bytecode table and the trace have for one instruction of
    the program, when all of them are in [Op]: those of its sequence.  The decoder
    leaves the instruction itself unmarked. *)
Inductive expanded : list Instruction -> Prop :=
| expanded_op i xl a g a' : virtual_sequence_remaining i = None -> is_first_in_sequence i = false ->
    Instruction_inline_sequence i xl a = Some (g, a') -> expanded g
| expanded_host h xl a g a' : (forall rd rs1 rs2 imm, operands h <> INLINE rd rs1 rs2 imm) ->
    host_inline_sequence inventory h xl a = Some (map Emitted g, a') -> expanded g.

(** They are laid out as a sequence, or a single instruction without marks. *)
Lemma expanded_rows g : expanded g ->
  (exists addr comp, laid_out addr comp g /\ controlled g) \/
  exists i, g = [i] /\ virtual_sequence_remaining i = None /\ is_first_in_sequence i = false.
Proof.
  assert (Hemit : forall addr comp g, emitted_at addr comp (map Emitted g) -> laid_out addr comp g /\ controlled g).
  { intros addr comp g0 (l & E & Hl). replace g0 with l; [done|]. clear Hl. revert l E.
    induction g0 as [|x g0 IH]; intros [|y l] E; try done. cbn in E. injection E as -> E. by rewrite (IH l E). }
  assert (Hone : forall (x : SequenceItem) g, (forall i, x <> Emitted i) -> map Emitted g <> [x]).
  { intros x [|y [|]] Hx; try done. intros [= <-]. by apply (Hx y). }
  intros [i xl a g' a' Hv Hf H|h xl a g' a' Hi H].
  - apply inline_sequence_shape in H. destruct (rd_is_zero i && negb (has_side_effects i)).
    { right. exists (nop i). by split. }
    destruct (is_macro (operands i)); [left|right].
    + destruct H as [Hl Ht]. do 2 eexists. split; [exact Hl|by apply straight_controlled].
    + destruct H as [r ->]. eexists. split; [reflexivity|]. by destruct (rd_is_zero i).
  - apply host_inline_sequence_shape in H. unfold host_shape_of in H.
    destruct (operands h) eqn:E; try (left; do 2 eexists; by apply Hemit); try (exfalso; revert H; by apply Hone).
    all: try (match type of H with (if ?b then _ else _) => destruct b end;
      [exfalso; revert H; by apply Hone|left; do 2 eexists; by apply Hemit]).
    + destruct H as [r H]. exfalso. revert H. by apply Hone.
    + exfalso. by eapply Hi.
Qed.

End Host.

