(* ===== verification/Witness.v ===== *)
(** * Witness: the values of the constraint system's inputs on a trace

    Models [R1CSCycleInputs] and [ProductCycleInputs] of
    [jolt-core/src/zkvm/r1cs/inputs.rs]: the row of the constraint system built
    from a cycle and the next one.  Proved: the row of a traced cycle of a program laid
    out by the preprocessing satisfies the nineteen constraints over any field, and the
    product constraints.
    [None] is a panic. *)
From S2P Require Import Prelude Bits Field SignedInt LookupTables Mle LinearCombination Registers AdviceTape Mmu MmuSpec Cpu.
From S2P Require Import Formats Instr Assembler Sequences Trace ExecWf Exec64 MemRun SeqShape System HostShape Bytecode LookupQuery R1CS QueryCorrect QueryExec.
From Stdlib Require Import Ring.

(** ** Instructions and cycles with their no-ops (zkvm/instruction/mod.rs) *)

Definition any_circuit_flags (i : BytecodeInstr) : option (CircuitFlags -> bool) :=
  match i with
  | NoOp => Some (fun f => bool_decide (f = DoNotUpdateUnexpandedPC))
  | UNIMPL => Some (fun _ => false)
  | Real i => Instruction_circuit_flags i
  end.
Definition any_instruction_flags (i : BytecodeInstr) : option (InstructionFlags -> bool) :=
  match i with
  | NoOp => Some (fun f => bool_decide (f = IsNoop))
  | UNIMPL => Some (fun _ => false)
  | Real i => Instruction_instruction_flags i
  end.
Definition any_to_instruction_inputs (XLEN : nat) (c : TraceCycle) : option (Z * Z) :=
  match c with NoOpCycle => Some (0, 0) | RealCycle c => Cycle_to_instruction_inputs XLEN c end.
Definition any_to_lookup_operands (XLEN : nat) (c : TraceCycle) : option (Z * Z) :=
  match c with NoOpCycle => Some (0, 0) | RealCycle c => Cycle_to_lookup_operands XLEN c end.
Definition any_to_lookup_output (XLEN : nat) (c : TraceCycle) : option Z :=
  match c with NoOpCycle => Some 0 | RealCycle c => Cycle_to_lookup_output XLEN c end.

(** [rs1_read().unwrap_or_default().1] and the others. *)
Definition rs1_read_value_of (c : TraceCycle) : Z :=
  match c with NoOpCycle => 0 | RealCycle c => default 0 (rs1_value (register_state c)) end.
Definition rs2_read_value_of (c : TraceCycle) : Z :=
  match c with NoOpCycle => 0 | RealCycle c => default 0 (rs2_value (register_state c)) end.
Definition rd_write_value_of (c : TraceCycle) : Z :=
  match c with NoOpCycle => 0 | RealCycle c => default 0 (snd <$> rd_values (register_state c)) end.
Definition ram_access_of (c : TraceCycle) : RAMAccess :=
  match c with NoOpCycle => NoRAM | RealCycle c => ram_access c end.

Definition ram_values_of (a : RAMAccess) : Z * Z :=
  match a with
  | Read r => (read_value r, read_value r)
  | Instr.Write w => (pre_value w, post_value w)
  | NoRAM => (0, 0)
  end.

(** ** Rows *)

Record R1CSCycleInputs := {
  left_input : Z; right_input : Z; product : Z;
  left_lookup : Z; right_lookup : Z; lookup_output : Z;
  rs1_read_value : Z; rs2_read_value : Z; rd_write_value : Z;
  ram_addr : Z; ram_read_value : Z; ram_write_value : Z;
  pc : Z; next_pc : Z; unexpanded_pc : Z; next_unexpanded_pc : Z;
  imm : Z;
  flags : CircuitFlags -> bool;
  next_is_noop : bool; should_jump : bool; should_branch : bool;
  next_is_virtual : bool; next_is_first_in_sequence : bool
}.

Section FromTrace.
Context `{SignedBigInt}.

Definition R1CSCycleInputs_from_trace (pre : BytecodePreprocessing) (trace : list TraceCycle) (t : nat)
    : option R1CSCycleInputs :=
  cycle ← trace !! t;
  let instr := cycle_instruction cycle in
  flags_view ← any_circuit_flags instr;
  instruction_flags ← any_instruction_flags instr;
  let norm := normalize_any instr in
  let next_cycle := trace !! S t in
  '(left_input, right_i128) ← any_to_instruction_inputs XLEN cycle;
  let right_input := s64_of_i128 right_i128 in
  let product := mul_trunc 2 left_input right_i128 in
  '(left_lookup, right_lookup) ← any_to_lookup_operands XLEN cycle;
  lookup_output ← any_to_lookup_output XLEN cycle;
  let '(ram_read_value, ram_write_value) := ram_values_of (ram_access_of cycle) in
  pc ← get_pc pre cycle;
  next_pc ← match next_cycle with Some nc => get_pc pre nc | None => Some 0%nat end;
  let next_unexpanded_pc :=
    match next_cycle with Some nc => ni_address (normalize_any (cycle_instruction nc)) | None => 0 end in
  next_is_noop ← match next_cycle with
                 | Some nc => f ← any_instruction_flags (cycle_instruction nc); Some (f IsNoop)
                 | None => Some false
                 end;
  let should_jump := flags_view Jump && negb next_is_noop in
  let should_branch := instruction_flags Branch && (lookup_output =? 1) in
  '(next_is_virtual, next_is_first_in_sequence) ←
    match next_cycle with
    | Some nc => f ← any_circuit_flags (cycle_instruction nc); Some (f VirtualInstruction, f IsFirstInSequence)
    | None => Some (false, false)
    end;
  Some {| left_input := left_input; right_input := right_input; product := product;
          left_lookup := left_lookup; right_lookup := right_lookup; lookup_output := lookup_output;
          rs1_read_value := rs1_read_value_of cycle; rs2_read_value := rs2_read_value_of cycle;
          rd_write_value := rd_write_value_of cycle; ram_addr := RAMAccess_address (ram_access_of cycle);
          ram_read_value := ram_read_value; ram_write_value := ram_write_value;
          pc := Z.of_nat pc; next_pc := Z.of_nat next_pc;
          unexpanded_pc := ni_address norm; next_unexpanded_pc := next_unexpanded_pc;
          imm := s64_of_i128 (norm_imm (ni_operands norm));
          flags := flags_view; next_is_noop := next_is_noop; should_jump := should_jump;
          should_branch := should_branch; next_is_virtual := next_is_virtual;
          next_is_first_in_sequence := next_is_first_in_sequence |}.
End FromTrace.

(** The value of an input on a row, as [compute_claimed_inputs] weighs it. *)
Definition input_value (self : R1CSCycleInputs) (input : JoltR1CSInputs) : Z :=
  match input with
  | PC => pc self
  | UnexpandedPC => unexpanded_pc self
  | Imm => imm self
  | RamAddress => ram_addr self
  | Rs1Value => rs1_read_value self
  | Rs2Value => rs2_read_value self
  | RdWriteValue => rd_write_value self
  | RamReadValue => ram_read_value self
  | RamWriteValue => ram_write_value self
  | LeftInstructionInput => left_input self
  | RightInstructionInput => right_input self
  | LeftLookupOperand => left_lookup self
  | RightLookupOperand => right_lookup self
  | Product => product self
  | ShouldBranch => b2z (should_branch self)
  | NextUnexpandedPC => next_unexpanded_pc self
  | NextPC => next_pc self
  | NextIsVirtual => b2z (next_is_virtual self)
  | NextIsFirstInSequence => b2z (next_is_first_in_sequence self)
  | LookupOutput => lookup_output self
  | ShouldJump => b2z (should_jump self)
  | OpFlags flag => b2z (flags self flag)
  end.

(** *** The product constraints' row *)
Record ProductCycleInputs := {
  instruction_left_input : Z; instruction_right_input : Z;
  should_branch_lookup_output : Z;
  write_lookup_output_to_rd_flag : bool; jump_flag : bool; should_branch_flag : bool;
  not_next_noop : bool; virtual_instruction_flag : bool
}.

Definition ProductCycleInputs_from_trace (trace : list TraceCycle) (t : nat) : option ProductCycleInputs :=
  cycle ← trace !! t;
  let instr := cycle_instruction cycle in
  flags_view ← any_circuit_flags instr;
  instruction_flags ← any_instruction_flags instr;
  '(left_input, right_input) ← any_to_instruction_inputs XLEN cycle;
  lookup_output ← any_to_lookup_output XLEN cycle;
  not_next_noop ← match trace !! S t with
                  | Some nc => f ← any_instruction_flags (cycle_instruction nc); Some (negb (f IsNoop))
                  | None => Some false
                  end;
  Some {| instruction_left_input := left_input; instruction_right_input := right_input;
          should_branch_lookup_output := lookup_output;
          write_lookup_output_to_rd_flag := flags_view WriteLookupOutputToRD;
          jump_flag := flags_view Jump; should_branch_flag := instruction_flags Branch;
          not_next_noop := not_next_noop;
          virtual_instruction_flag := flags_view VirtualInstruction |}.

(** The state of a cycle for the shift sumcheck. *)
Record ShiftSumcheckCycleState := {
  state_unexpanded_pc : Z; state_pc : Z; is_virtual : bool; state_is_first_in_sequence : bool; is_noop : bool
}.
Definition ShiftSumcheckCycleState_new (cycle : TraceCycle) (pre : BytecodePreprocessing)
    : option ShiftSumcheckCycleState :=
  let instruction := cycle_instruction cycle in
  circuit_flags ← any_circuit_flags instruction;
  pc ← get_pc pre cycle;
  instruction_flags ← any_instruction_flags instruction;
  Some {| state_unexpanded_pc := ni_address (normalize_any instruction); state_pc := Z.of_nat pc;
          is_virtual := circuit_flags VirtualInstruction;
          state_is_first_in_sequence := circuit_flags IsFirstInSequence;
          is_noop := instruction_flags IsNoop |}.

(** ** The constraints of a row, over the integers *)

(** What the nineteen constraints say when their guards hold. *)
Record row_constraints (v : JoltR1CSInputs -> Z) : Prop := {
  row_ram_address : v (OpFlags Load) + v (OpFlags Store) <> 0 -> v RamAddress = v Rs1Value + v Imm;
  row_no_ram : v (OpFlags Load) + v (OpFlags Store) <> 1 -> v RamAddress = 0;
  row_load_keeps : v (OpFlags Load) <> 0 -> v RamReadValue = v RamWriteValue;
  row_load_writes : v (OpFlags Load) <> 0 -> v RamReadValue = v RdWriteValue;
  row_store_writes : v (OpFlags Store) <> 0 -> v Rs2Value = v RamWriteValue;
  row_left_zero : v (OpFlags AddOperands) + v (OpFlags SubtractOperands) + v (OpFlags MultiplyOperands) <> 0 ->
    v LeftLookupOperand = 0;
  row_left_input : v (OpFlags AddOperands) + v (OpFlags SubtractOperands) + v (OpFlags MultiplyOperands) <> 1 ->
    v LeftLookupOperand = v LeftInstructionInput;
  row_add : v (OpFlags AddOperands) <> 0 ->
    v RightLookupOperand = v LeftInstructionInput + v RightInstructionInput;
  row_sub : v (OpFlags SubtractOperands) <> 0 ->
    v RightLookupOperand = v LeftInstructionInput - v RightInstructionInput + 2 ^ 64;
  row_mul : v (OpFlags MultiplyOperands) <> 0 -> v RightLookupOperand = v Product;
  row_right_input : v (OpFlags AddOperands) + v (OpFlags SubtractOperands) + v (OpFlags MultiplyOperands)
      + v (OpFlags Advice) <> 1 -> v RightLookupOperand = v RightInstructionInput;
  row_assert : v (OpFlags LookupQuery.Assert) <> 0 -> v LookupOutput = 1;
  row_rd_lookup : v (OpFlags WriteLookupOutputToRD) <> 0 -> v RdWriteValue = v LookupOutput;
  row_rd_pc : v (OpFlags Jump) <> 0 -> v RdWriteValue = v UnexpandedPC + 4 - 2 * v (OpFlags IsCompressed);
  row_jump : v ShouldJump <> 0 -> v NextUnexpandedPC = v LookupOutput;
  row_branch : v ShouldBranch <> 0 -> v NextUnexpandedPC = v UnexpandedPC + v Imm;
  row_next : v ShouldBranch + v (OpFlags Jump) <> 1 ->
    v NextUnexpandedPC = v UnexpandedPC + 4 - 4 * v (OpFlags DoNotUpdateUnexpandedPC) - 2 * v (OpFlags IsCompressed);
  row_inline : v (OpFlags VirtualInstruction) <> v (OpFlags IsLastInSequence) -> v NextPC = v PC + 1;
  row_start : v NextIsVirtual <> v NextIsFirstInSequence -> v (OpFlags DoNotUpdateUnexpandedPC) = 1
}.

Lemma guarded (g d : Z) : g * d = 0 <-> (g <> 0 -> d = 0).
Proof.
  split; [nia|]. intros H. destruct (Z.eq_dec g 0) as [->|Hg]; [done|]. rewrite H by done. ring.
Qed.

(** [dot_product] of the sides of the constraints on a row, computed. *)
Ltac compute_row :=
  unfold satisfied; cbn [cons cons_a cons_b dot_product]; unfold term_at, at_, NUM_R1CS_INPUTS;
  cbn [row_vector map app nth length ALL_R1CS_INPUTS input_index coeff add mul zero from_u64 ZOps];
  rewrite guarded.

(** One of the hypotheses is the goal's own constraint. *)
Ltac by_one_row Hg := match goal with H : _ <> _ -> _ = _ |- _ => solve [clear -H Hg; lia] end.

Lemma satisfied_over_Z v :
  Forall (fun k => satisfied (cons k) (row_vector v)) R1CS_CONSTRAINTS <-> row_constraints v.
Proof.
  let t := eval vm_compute in R1CS_CONSTRAINTS in change R1CS_CONSTRAINTS with t.
  split.
  - intros H. repeat (apply list.Forall_cons in H as [? H]). clear H.
    repeat match goal with H : satisfied _ _ |- _ => revert H; compute_row; intros H end.
    split; intros Hg; by_one_row Hg.
  - intros [].
    repeat match goal with H : _ <> 0 -> _ = _ |- _ => revert H | H : _ <> _ -> _ = _ |- _ => revert H end.
    intros. repeat first [apply list.Forall_cons_2 | apply list.Forall_nil_2]; compute_row; intros Hg; by_one_row Hg.
Qed.

Section Transport.
Context {F : Type} `{JoltField F}.
Add Ring Fring : field_ring.

Lemma dot_product_from lc z n :
  dot_product lc (map from_u64 z) n = from_u64 (dot_product (F := Z) lc z n).
Proof.
  destruct lc; cbn [dot_product]; unfold term_at, at_; rewrite ?nth_from; reduce_step.
Qed.

(** A constraint that holds on integers holds on their images. *)
Lemma satisfied_from c z : satisfied (F := Z) c z -> satisfied c (map from_u64 z).
Proof.
  unfold satisfied. rewrite !dot_product_from, <- from_u64_mul. intros E.
  etransitivity; [|apply from_u64_0]. f_equal. exact E.
Qed.
End Transport.

(** ** The operands of a query *)

(** The operands [l], [r] from the inputs [x], [y], by the flags. *)
Definition operand_rel (f : CircuitFlags -> bool) (x y l r : Z) : Prop :=
  match f AddOperands, f SubtractOperands, f MultiplyOperands, f Advice with
  | true, false, false, false => l = 0 /\ r = x + y
  | false, true, false, false => l = 0 /\ r = x - y + 2 ^ 64
  | false, false, true, false => l = 0 /\ r = x * y
  | false, false, false, true => l = x
  | false, false, false, false => l = x /\ r = y
  | _, _, _, _ => False
  end.
Definition operands_exact (i : Instruction) (st : RegisterState) : Prop :=
  match query_of i with
  | Some (Query_of q self) =>
      exists x y l r, to_instruction_inputs q XLEN self st = Some (x, y) /\
        to_lookup_operands q XLEN self st = Some (l, r) /\
        in_u 64 x /\ Z.abs y < 2 ^ 64 /\ operand_rel (circuit_flags q self) x y l r
  | None => True
  end.

(** The immediates of the instructions without a destination, and of the
    loads, are signed; the sums they take part in are addresses. *)
Definition imm_ok (c : Cpu) (op : Op) : Prop :=
  match op with
  | LD o => in_s 32 (L_imm o) /\ in_u 64 (as_u64 (reg c (L_rs1 o)) + L_imm o)
  | SD o => in_s 32 (S_imm o) /\ in_u 64 (as_u64 (reg c (S_rs1 o)) + S_imm o)
  | VirtualAssertHalfwordAlignment o | VirtualAssertWordAlignment o =>
      in_s 64 (A_imm o) /\ in_u 64 (as_u64 (reg c (A_rs1 o)) + A_imm o)
  | op => imm_in_range op /\ Z.abs (norm_imm (op_operands op)) < 2 ^ 64
  end.

Section Operands.
Context (i : Instruction) (c : Cpu) (st : RegisterState).
Context (V1 : forall r, norm_rs1 (op_operands (operands i)) = Some r -> rs1_of st = as_u64 (reg c r)).
Context (Ha : in_u 64 (address i)) (H1 : in_u 64 (rs1_of st)) (H2 : in_u 64 (rs2_of st)).

Lemma u64_abs y : in_u 64 y -> Z.abs y < 2 ^ 64.
Proof. clear. unfold in_u. lia. Qed.
Lemma difference_operand x y : in_u 64 x -> in_u 64 y ->
  as_u128 (as_u128 x + as_u128 (Z.shiftl 1 64 - as_u128 y)) = x - y + 2 ^ 64.
Proof.
  clear. intros Hx Hy. change (Z.shiftl 1 64) with (2 ^ 64).
  assert (Hd : in_u 128 (2 ^ 64 - y)) by (unfold in_u in *; lia).
  rewrite !(wrapu_small 128 x), !(wrapu_small 128 y) by by apply u128_of_u64.
  rewrite (wrapu_small 128 (2 ^ 64 - y)) by done. rewrite wrapu_small; [lia|]. unfold in_u in *. lia.
Qed.
Lemma signed_sum_operand x y : in_u 64 (x + y) -> as_u128 (as_i128 (x + y)) = x + y.
Proof. clear. intros Hs. rewrite wraps_small, wrapu_small; [done|..]; unfold in_u, in_s in *; lia. Qed.

(** The shapes of the queries. *)
Section Shapes.
Context (f : CircuitFlags -> bool) (x y l r : Z).
Lemma rel_add : f AddOperands = true -> f SubtractOperands = false -> f MultiplyOperands = false ->
  f Advice = false -> l = 0 -> r = x + y -> operand_rel f x y l r.
Proof. unfold operand_rel. intros -> -> -> ->. done. Qed.
Lemma rel_sub : f AddOperands = false -> f SubtractOperands = true -> f MultiplyOperands = false ->
  f Advice = false -> l = 0 -> r = x - y + 2 ^ 64 -> operand_rel f x y l r.
Proof. unfold operand_rel. intros -> -> -> ->. done. Qed.
Lemma rel_mul : f AddOperands = false -> f SubtractOperands = false -> f MultiplyOperands = true ->
  f Advice = false -> l = 0 -> r = x * y -> operand_rel f x y l r.
Proof. unfold operand_rel. intros -> -> -> ->. done. Qed.
Lemma rel_advice : f AddOperands = false -> f SubtractOperands = false -> f MultiplyOperands = false ->
  f Advice = true -> l = x -> operand_rel f x y l r.
Proof. unfold operand_rel. intros -> -> -> ->. done. Qed.
Lemma rel_plain : f AddOperands = false -> f SubtractOperands = false -> f MultiplyOperands = false ->
  f Advice = false -> l = x -> r = y -> operand_rel f x y l r.
Proof. unfold operand_rel. intros -> -> -> ->. done. Qed.
End Shapes.

(** A word among the operands is in range. *)
Ltac in_range :=
  cbn [operands with_operands snd address]; first
    [ eassumption | apply zero_u64 | apply u64_of_u32 | by apply wrapu_range; lia
    | done | apply u64_abs; eassumption | apply u64_abs, zero_u64 | apply u64_abs, u64_of_u32
    | apply u64_abs; apply wrapu_range; lia | by unfold in_s in *; lia ].
Ltac rewrite_u64 := match goal with E : ?v = as_u64 _ |- as_u64 _ = _ => cbn [operands with_operands]; rewrite E; apply wrapu_wrapu; lia end.
Ltac operand_value :=
  first [ reflexivity | symmetry; apply Z.add_0_r
        | rewrite_u64 | apply sum_exact; in_range | apply product_exact; in_range | apply difference_operand; in_range
        | apply signed_sum_exact; in_range | apply signed_sum_operand; in_range
        | rewrite Z.add_0_l; apply wrapu_small; in_range | apply wrapu_small; in_range ].
Ltac rel_by rule := apply rule; [reflexivity..|operand_value|operand_value].
Ltac rel :=
  first [ apply rel_advice; [reflexivity..|reflexivity] | rel_by rel_plain | rel_by rel_add | rel_by rel_sub | rel_by rel_mul ].

Lemma zero_extend_inputs (self : Struct FormatI) :
  to_lookup_operands VirtualZeroExtendWord_lookup XLEN self st = Some (0, rs1_of st + 0).
Proof.
  clear -H1. cbn [to_lookup_operands VirtualZeroExtendWord_lookup VirtualZeroExtendWord_inputs mbind option_bind].
  cbv zeta. rewrite wraps_small by (unfold in_u, in_s in *; lia).
  destruct (Z.ltb_spec (rs1_of st + 0) 0); [unfold in_u in *; lia|done].
Qed.

Lemma operands_are_exact : imm_ok c (operands i) -> operands_exact i st.
Proof.
  unfold operands_exact, query_of. destruct (operands i) eqn:E; try exact (fun _ => I);
  intros Hi; cbn in Hi; destruct Hi as [Hi Hi']; try rewrite <- (V1 _ eq_refl) in Hi';
  try first [destruct Hi as (s & len & _ & _ & Hi) | destruct Hi as (s & _ & Hi)];
  (do 4 eexists; split; [reflexivity|]; split;
    [first [reflexivity|apply zero_extend_inputs]|]; split; [in_range|]; split; [in_range|]; rel).
Qed.
End Operands.

(** ** The program counter *)

(** One step through an [exec] that leaves the program counter alone. *)
Ltac pc_step :=
  match goal with
  | H : Some _ = Some _ |- _ => injection H as <-
  | H : write_register _ _ _ = Some _ |- _ => apply write_register_pc in H; rewrite H; clear H
  | H : assert _ _ = Some _ |- _ => unfold assert in H
  | H : mbind _ _ = Some _ |- _ => let v := fresh "v" in let Hv := fresh "Hv" in apply bind_Some in H as (v & Hv & H)
  | H : fst <$> _ = Some _ |- _ => apply fmap_Some in H as ([? ?] & H & ->); cbn [fst]
  | H : on_mmu _ _ = Some _ |- _ => unfold on_mmu in H
  | v : _ * _ |- _ => destruct v; cbn [fst snd] in *
  | H : Some (_, _) = Some (_, _) |- _ => injection H as <- <-
  | H : context [match ?d with _ => _ end] |- _ => destruct d; try discriminate H
  end.

Lemma pc_unchanged i c c' f fi :
  Instruction_circuit_flags i = Some f -> Instruction_instruction_flags i = Some fi ->
  f Jump = false -> fi Branch = false -> execute i c = Some c' -> Cpu.pc c' = Cpu.pc c.
Proof.
  unfold Instruction_circuit_flags, Instruction_instruction_flags, query_of, execute. cbv zeta.
  destruct (operands i); intros Hf Hfi Hj Hb H; try discriminate Hf;
    injection Hf as <-; injection Hfi as <-; try discriminate Hj; try discriminate Hb; clear Hj Hb;
    unfold_exec; unfold LD_exec, SD_exec, effective_address, VirtualAdviceLoad_exec in *;
    cbv zeta in *; repeat pc_step; subst; reflexivity.
Qed.

(** ** The flags every instruction sets from its own fields *)
Lemma struct_flags i f : Instruction_circuit_flags i = Some f ->
  f VirtualInstruction = bool_decide (is_Some (virtual_sequence_remaining i)) /\
  f DoNotUpdateUnexpandedPC = negb (rest i =? 0) /\
  f IsFirstInSequence = is_first_in_sequence i /\ f IsCompressed = is_compressed i.
Proof.
  unfold Instruction_circuit_flags, query_of.
  destruct (operands i); intros Hf; try discriminate Hf; injection Hf as <-; repeat split.
Qed.

(** A jump writes the program counter of the next instruction. *)
Lemma write_register_reg c r v c' : cpu_wf c -> valid_reg r -> r <> 0%nat ->
  write_register c r v = Some c' -> reg c' r = v.
Proof. intros Hc Hr H0. rewrite write_register_wr by done. intros [= <-]. by apply reg_wr_eq. Qed.
Lemma tracked_write_reg c (b : Prop) `{Decision b} a o r v c' : cpu_wf c -> valid_reg r -> r <> 0%nat ->
  write_register (if decide b then track_call c a o else c) r v = Some c' -> reg c' r = v.
Proof.
  intros Hc Hr H0 Hw. eapply write_register_reg; [|done..|exact Hw].
  case_decide; [|done]. by destruct Hc as [? ? ? ? ?].
Qed.

Lemma jump_link i c c' f : cpu_wf c -> xlen c = Bit64 -> op_valid (operands i) ->
  in_u 64 (Cpu.pc c) -> Instruction_circuit_flags i = Some f -> f Jump = true -> execute i c = Some c' ->
  exists rd, norm_rd (op_operands (operands i)) = Some rd /\ (rd <> 0%nat -> as_u64 (reg c' rd) = Cpu.pc c).
Proof.
  intros Hc Hx Hv Hp Hf Hj He. revert Hf Hj Hv He.
  unfold Instruction_circuit_flags, query_of, execute, op_valid. cbv zeta.
  destruct (operands i) as []; intros Hf Hj (Hv & H1 & _) He; try discriminate Hf; injection Hf as <-;
    try discriminate Hj; clear Hj; (eexists; split; [reflexivity|intros H0]).
  - unfold JAL_exec in He. rewrite decide_True in He by done.
    apply bind_Some in He as (c1 & Hw & [= <-]). change (reg (update_pc c1 _) (J_rd o)) with (reg c1 (J_rd o)).
    rewrite (tracked_write_reg _ _ _ _ _ _ _ Hc Hv H0 Hw). unfold sign_extend.
    case_decide; [change (xlen (track_call c (address i) (FormatJ_to_operands o))) with (xlen c)|];
      rewrite Hx; by apply imm_view.
  - unfold JALR_exec in He. cbv zeta in He. rewrite (lookup_reg c Hc) in He by done.
    cbn [mbind option_bind] in He. rewrite decide_True in He by done.
    eapply tracked_write_reg in He; [|by destruct Hc as [? ? ? ? ?]|done..].
    rewrite He. unfold sign_extend. rewrite Hx. by apply imm_view.
Qed.

(** ** Memory accesses *)

(** A load reads a mapped doubleword of a well-formed memory. *)
Definition ram_ok (c : Cpu) (op : Op) : Prop :=
  match op with
  | LD o =>
      let a := as_u64 (reg c (L_rs1 o)) + L_imm o in
      mmu_wf (mmu c) /\ a mod 8 = 0 /\ readable (mmu c) a = true /\ not_io_end (mmu c) a
  | SD o => mmu_wf (mmu c)
  | _ => True
  end.

Lemma load_address a k : in_s 32 k -> in_u 64 (as_u64 a + k) -> as_u64 (as_u64 a + as_u64 (as_i32 k)) = as_u64 a + k.
Proof.
  intros Hk Ha. rewrite (wraps_small 32) by (done || lia). rewrite wrapu_add_r. by apply wrapu_small.
Qed.
Lemma store_address a k : in_u 64 (as_u64 a + k) -> as_u64 (as_i64 (a + k)) = as_u64 a + k.
Proof. intros Ha. rewrite wrapu_wraps, <- wrapu_add_l by lia. by apply wrapu_small. Qed.

Lemma LD_recorded c o c' r : cpu_wf c -> xlen c = Bit64 -> valid_reg (L_rd o) -> valid_reg (L_rs1 o) ->
  ram_ok c (LD o) -> in_s 32 (L_imm o) -> in_u 64 (as_u64 (reg c (L_rs1 o)) + L_imm o) ->
  LD_exec c o = Some (c', r) ->
  read_address r = as_u64 (reg c (L_rs1 o)) + L_imm o /\
  (L_rd o <> 0%nat -> as_u64 (reg c' (L_rd o)) = read_value r).
Proof.
  intros Hc Hx Hd H1 (Hm & Hal & Hr & He) Hi Ha H. unfold LD_exec in H. cbv zeta in H.
  rewrite (lookup_reg c Hc) in H by done. cbn [mbind option_bind] in H. rewrite load_address in H by done.
  destruct (load_doubleword_spec _ _ Hm Hal Ha Hr He) as (v & s' & E & _ & Hv).
  unfold on_mmu in H. rewrite E in H. cbn [mbind option_bind] in H.
  apply bind_Some in H as (c1 & Hw & [= <- <-]). cbn [read_address read_value]. split; [done|]. intros H0.
  eapply write_register_reg in Hw; [|by destruct Hc as [? ? ? ? ?]|done..]. rewrite Hw.
  rewrite wrapu_wraps by lia. by apply (holds_bits_wrapu (mmu c) _ 64) in Hv.
Qed.

Lemma SD_recorded c o c' r : cpu_wf c -> xlen c = Bit64 -> valid_reg (S_rs1 o) -> valid_reg (S_rs2 o) ->
  ram_ok c (SD o) -> in_u 64 (as_u64 (reg c (S_rs1 o)) + S_imm o) -> SD_exec c o = Some (c', r) ->
  write_address r = as_u64 (reg c (S_rs1 o)) + S_imm o /\ post_value r = as_u64 (reg c (S_rs2 o)).
Proof.
  intros Hc Hx H1 H2 Hm Ha H. unfold SD_exec, effective_address in H.
  rewrite !(lookup_reg c Hc) in H by done. cbn [mbind option_bind] in H. rewrite store_address in H by done.
  unfold on_mmu in H. apply bind_Some in H as ([w c1] & H & [= <- <-]).
  apply bind_Some in H as ([r m] & H & Hr). destruct r as [|w']; [done|]. injection Hr as -> _.
  unfold store_doubleword, store_aligned, get_effective_address in H. unfold M_bind at 1, M_get in H.
  rewrite (wf_xlen _ Hm) in H. cbv zeta in H.
  destruct (negb _); [done|]. unfold M_bind at 1 in H.
  destruct (trace_store _ _ _) as [[w2 s2]|] eqn:E; [|done].
  assert (w2 = w) as ->.
  { unfold M_bind in H. destruct (store_bytes _ _ _ _) as [[[] s3]|]; try done. by injection H as ->. }
  unfold trace_store, M_bind in E. destruct (assert_effective_store_address _ _) as [[? ?]|]; [|done].
  destruct (recorded_value _ _ _) as [[? ?]|]; [|done]. by injection E as <- _.
Qed.

(** ** Rows of a traced instruction *)

(** A cycle's fields, by what its instruction did. *)
Record recorded (i : Instruction) (c c' : Cpu) (cy : Cycle) : Prop := {
  recorded_instruction : instruction cy = i;
  recorded_views : views c c' (operands i) (register_state cy);
  recorded_execute : execute i c = Some c';
  recorded_ram : execute_ram i c = Some (c', ram_access cy)
}.

Lemma traced_recorded i c c' cy : cpu_wf c -> xlen c = Bit64 -> op_valid (operands i) ->
  default_trace_cycle i c = Some (c', [cy]) -> recorded i c c' cy.
Proof.
  intros Hc Hx Hv Ht. destruct (captured i c c' cy Hc Hx Hv Ht) as (He & Hi & Hs).
  split; [done..|]. unfold default_trace_cycle in Ht.
  apply bind_Some in Ht as (st & _ & H). apply bind_Some in H as ([c1 a] & E & H).
  apply bind_Some in H as (st' & _ & [= <- <-]). done.
Qed.

(** What the RAM inputs of the row say. *)
Record ram_row (i : Instruction) (cy : Cycle) (f : CircuitFlags -> bool) : Prop := {
  ram_load : f Load = true -> exists v,
    ram_access cy = Read {| read_address := rs1_of (register_state cy) + norm_imm (op_operands (operands i)); read_value := v |} /\
    rd_post_of (register_state cy) = v;
  ram_store : f Store = true -> exists v,
    ram_access cy = Instr.Write {| write_address := rs1_of (register_state cy) + norm_imm (op_operands (operands i));
                                   pre_value := v; post_value := rs2_of (register_state cy) |};
  ram_none : f Load = false -> f Store = false -> ram_access cy = NoRAM;
  ram_one : f Load = true -> f Store = false
}.

(** An instruction without a memory access records none. *)
Lemma no_ram i cy (r : option Cpu) c' f : f Load = false -> f Store = false ->
  (c1 ← r; Some (c1, NoRAM)) = Some (c', ram_access cy) -> ram_row i cy f.
Proof. intros Hl Hs (c1 & _ & [= _ Hcy])%bind_Some. split; congruence. Qed.

Lemma ram_recorded i c c' cy f : cpu_wf c -> xlen c = Bit64 -> op_valid (operands i) ->
  imm_ok c (operands i) -> ram_ok c (operands i) ->
  (is_memory (operands i) = true -> norm_rd (op_operands (operands i)) <> Some 0%nat) ->
  recorded i c c' cy -> Instruction_circuit_flags i = Some f -> ram_row i cy f.
Proof.
  intros Hc Hx Hv Hi Hr Hd [Hinst [V1 V2 Vd _] _ He] Hf. revert Hf Hv Hi Hr Hd V1 V2 Vd He.
  unfold Instruction_circuit_flags, query_of, execute_ram, op_valid. cbv zeta.
  destruct (operands i) as [] eqn:E; intros Hf (Hv & Hv1 & Hv2) Hi Hr Hd V1 V2 Vd He; try discriminate Hf; injection Hf as <-;
    try (by eapply no_ram in He).
  - destruct Hi as [Hi Ha]. apply bind_Some in He as ([c1 r] & He & [= -> Hcy]).
    destruct (LD_recorded c o c' r Hc Hx Hv Hv1 Hr Hi Ha He) as [Ea Ev].
    split; [intros _|discriminate..|done]. exists (read_value r). rewrite <- Hcy, E, (V1 _ eq_refl), (Vd _ eq_refl).
    split; [|apply Ev; intros H0; apply Hd; [done|cbn; congruence]].
    destruct r; cbn in *. by rewrite Ea.
  - destruct Hi as [Hi Ha]. apply bind_Some in He as ([c1 r] & He & [= -> Hcy]).
    destruct (SD_recorded c o c' r Hc Hx Hv1 Hv2 Hr Ha He) as [Ea Ev].
    split; [discriminate|intros _|discriminate..]. exists (pre_value r).
    rewrite <- Hcy, E, (V1 _ eq_refl), (V2 _ eq_refl). destruct r; cbn in *. by rewrite Ea, Ev.
Qed.

Lemma imm_ok_range c op : imm_ok c op -> imm_in_range op \/ (exists o, op = LD o) \/ (exists o, op = SD o).
Proof. destruct op; cbn [imm_ok]; intros Hi; eauto; left; first [apply Hi|exact I]. Qed.

(** The state a row starts from, and what its instruction may not do: the
    program counter was moved past the instruction before it ran (inside a sequence
    nothing is said of it), destinations are not [x0] save in the no-op (the tracer
    rewrites the others), assertions assert, and no address computation of a branch,
    a load or a store wraps. *)
Record row_ok (i : Instruction) (c : Cpu) (f : CircuitFlags -> bool) (fi : InstructionFlags -> bool) : Prop := {
  ok_wf : cpu_wf c;
  ok_xlen : xlen c = Bit64;
  ok_valid : op_valid (operands i);
  ok_address : in_u 64 (address i);
  ok_imm : imm_ok c (operands i);
  ok_shift : shift_by_bitmask c (operands i);
  ok_ram : ram_ok c (operands i);
  ok_asserts : asserts (operands i) = true;
  ok_rd : norm_rd (op_operands (operands i)) = Some 0%nat -> operands i = ADDI {| I_rd := 0; I_rs1 := 0; I_imm := 0 |};
  ok_pc : rest i = 0 -> Cpu.pc c = address i + (if is_compressed i then 2 else 4);
  ok_pc_range : in_u 64 (Cpu.pc c);
  ok_branch : fi Branch = true -> in_u 64 (address i + norm_imm (op_operands (operands i)))
}.

(** How the next cycle follows: at the same address inside a sequence, at the
    program counter otherwise; after a jump the trace may end in no-ops.  Rows
    of a sequence are consecutive, one is entered at its first row, and only its last
    row jumps or is compressed. *)
Record linked (pre : BytecodePreprocessing) (i : Instruction) (c' : Cpu) (cy : Cycle)
    (f : CircuitFlags -> bool) (fi : InstructionFlags -> bool) (next : TraceCycle) : Prop := {
  link_pc : exists p, get_pc pre (RealCycle cy) = Some p /\
    exists q, get_pc pre next = Some q /\
      (f VirtualInstruction = true -> f IsLastInSequence = false -> q = S p);
  link_next :
    match next with
    | NoOpCycle => f Jump = true
    | RealCycle n =>
        is_supported_instruction (instruction n) = true /\
        address (instruction n) = (if rest i =? 0 then Cpu.pc c' else address i) /\
        (is_Some (virtual_sequence_remaining (instruction n)) <-> 
           is_first_in_sequence (instruction n) = true \/ rest i <> 0)
    end;
  link_inside : rest i <> 0 -> is_compressed i = false /\ f Jump = false /\ fi Branch = false
}.

Lemma imm_ok_abs c op : imm_ok c op -> Z.abs (norm_imm (op_operands op)) < 2 ^ 64.
Proof. destruct op; intros [Hi Ha]; first [exact Ha | unfold in_s in Hi; cbn in *; lia]. Qed.

(** The next cycle, as the row sees it. *)
Record next_view (i : Instruction) (c' : Cpu) (f : CircuitFlags -> bool) (next : TraceCycle) (addr : Z) (noop virt first : bool) : Prop := {
  view_address : ni_address (normalize_any (cycle_instruction next)) = addr;
  view_noop : exists g, any_instruction_flags (cycle_instruction next) = Some g /\ g IsNoop = noop;
  view_flags : exists g, any_circuit_flags (cycle_instruction next) = Some g /\
    g VirtualInstruction = virt /\ g IsFirstInSequence = first;
  view_address_next : noop = false -> addr = if rest i =? 0 then Cpu.pc c' else address i;
  view_noop_jump : noop = true -> f Jump = true;
  view_start : virt <> first -> rest i <> 0
}.
Lemma never_noop i g : Instruction_instruction_flags i = Some g -> g IsNoop = false.
Proof.
  unfold Instruction_instruction_flags, query_of. destruct (operands i); intros Hg; try discriminate Hg; by injection Hg as <-.
Qed.

(** Flags that go together. *)
Ltac by_instruction :=
  unfold Instruction_circuit_flags, Instruction_instruction_flags, query_of;
  match goal with |- context [operands ?i] => destruct (operands i) as [] eqn:? end.
Lemma write_has_rd i f : Instruction_circuit_flags i = Some f -> f WriteLookupOutputToRD = true ->
  exists rd, norm_rd (op_operands (operands i)) = Some rd.
Proof. by_instruction; intros Hf; try discriminate Hf; injection Hf as <-; try discriminate; by eexists. Qed.
Lemma jump_not_branch i f g : Instruction_circuit_flags i = Some f -> Instruction_instruction_flags i = Some g ->
  f Jump = true -> g Branch = false.
Proof. by_instruction; intros Hf Hg; try discriminate Hf; injection Hf as <-; injection Hg as <-; by try discriminate. Qed.
Lemma last_is_virtual i f : Instruction_circuit_flags i = Some f -> f IsLastInSequence = true -> f VirtualInstruction = true.
Proof.
  by_instruction; intros Hf; try discriminate Hf; injection Hf as <-; try discriminate.
  cbn. intros H%bool_decide_eq_true. apply bool_decide_eq_true. by eexists.
Qed.
Lemma b2z_nonzero b : b2z b <> 0 -> b = true.
Proof. by destruct b. Qed.

Section Row.
Context `{SignedBigInt} (pre : BytecodePreprocessing) (tr : list TraceCycle) (t : nat).
Context (i : Instruction) (c c' : Cpu) (cy : Cycle) (next : TraceCycle).
Context (f : CircuitFlags -> bool) (fi : InstructionFlags -> bool).
Context (Hf : Instruction_circuit_flags i = Some f) (Hfi : Instruction_instruction_flags i = Some fi).
Context (Hok : row_ok i c f fi) (Hrec : recorded i c c' cy) (Hlink : linked pre i c' cy f fi next).

Lemma outputs_of_row : exists v, Cycle_to_lookup_output XLEN cy = Some v /\ output_agrees i c c' v f fi.
Proof.
  clear -Hf Hfi Hok Hrec. destruct Hok, Hrec as [Hi Hvs He _].
  assert (Ho : outputs_agree i c c' (register_state cy)).
  { destruct (imm_ok_range _ _ ok_imm0) as [Hr|[[o E]|[o E]]];
      [by apply instruction_agrees|by apply (LD_agrees i c c' _ o)|by apply (SD_agrees i c c' _ o)]. }
  revert Ho Hf Hfi. unfold outputs_agree, Cycle_to_lookup_output, Instruction_circuit_flags, Instruction_instruction_flags.
  rewrite Hi. destruct (query_of i) as [[F q self]|]; [|done]. intros Ho [= <-] [= <-]. exact Ho.
Qed.

Lemma operands_of_row : exists x y l r, Cycle_to_instruction_inputs XLEN cy = Some (x, y) /\
  Cycle_to_lookup_operands XLEN cy = Some (l, r) /\ in_u 64 x /\ Z.abs y < 2 ^ 64 /\ operand_rel f x y l r.
Proof.
  clear -Hf Hok Hrec. destruct Hok, Hrec as [Hi [V1 V2 Vd (W1 & W2 & _)] _ _].
  pose proof (operands_are_exact i c (register_state cy) V1 ok_address0 W1 W2 ok_imm0) as Ho.
  revert Ho Hf. unfold operands_exact, Cycle_to_instruction_inputs, Cycle_to_lookup_operands, Instruction_circuit_flags.
  rewrite Hi. destruct (query_of i) as [[F q self]|]; [|done]. intros Ho [= <-]. exact Ho.
Qed.

Lemma next_of_row : exists addr noop virt first, next_view i c' f next addr noop virt first.
Proof.
  clear -Hlink. destruct Hlink as [_ Hn _]. destruct next as [|n].
  - exists 0, true, false, false. split; try done; by eexists.
  - destruct Hn as (Hs & Ha & Hv). unfold is_supported_instruction in Hs.
    destruct (query_of (instruction n)) as [[F q self]|] eqn:E; [|done].
    assert (Hg : Instruction_circuit_flags (instruction n) = Some (circuit_flags q self)) by
      (unfold Instruction_circuit_flags; by rewrite E).
    assert (Hg' : Instruction_instruction_flags (instruction n) = Some (instruction_flags q)) by
      (unfold Instruction_instruction_flags; by rewrite E).
    destruct (struct_flags _ _ Hg) as (Hvi & _ & Hfi & _).
    exists (address (instruction n)), false, (circuit_flags q self VirtualInstruction), (circuit_flags q self IsFirstInSequence).
    split; try done.
    + exists (instruction_flags q). split; [done|]. by apply (never_noop (instruction n)).
    + by exists (circuit_flags q self).
    + rewrite Hvi, Hfi. intros Hne. destruct (is_first_in_sequence (instruction n)).
      * destruct Hne. apply bool_decide_eq_true. by apply Hv; left.
      * apply not_false_is_true, bool_decide_eq_true in Hne. apply Hv in Hne as [|]; done.
Qed.

Lemma ram_of_row : ram_row i cy f.
Proof.
  clear -Hf Hok Hrec. destruct Hok. eapply ram_recorded; try done.
  intros Hm Hz. rewrite (ok_rd0 Hz) in Hm. done.
Qed.

(** The destination of the row's instruction, by its flags. *)
Lemma rd_of_row v : Cycle_to_lookup_output XLEN cy = Some v -> output_agrees i c c' v f fi ->
  (f WriteLookupOutputToRD = true -> rd_post_of (register_state cy) = v) /\
  (f Jump = true -> rd_post_of (register_state cy) = Cpu.pc c).
Proof.
  clear -Hf Hok Hrec. intros Hv Ha. destruct Hok, Hrec as [Hi [V1 _ Vd _] He _]. split; intros Hw.
  - destruct (write_has_rd i f Hf Hw) as [rd Hrd]. destruct (decide (rd = 0)%nat) as [->|H0].
    + rewrite (ok_rd0 Hrd) in *. rewrite (Vd 0%nat eq_refl). revert Hv.
      unfold Cycle_to_lookup_output, query_of. rewrite Hi, ok_rd0 by done.
      change (to_lookup_output ADDI_lookup XLEN _ (register_state cy)) with (Some (as_u64 (rs1_of (register_state cy) + as_u64 0))).
      rewrite (V1 0%nat eq_refl), !reg_zero by (done || by apply (keeps_wf c c' (execute_keeps i c c' He))).
      by intros [= <-].
    + rewrite (Vd rd Hrd). by apply (agrees_rd _ _ _ _ _ _ Ha Hw).
  - destruct (jump_link i c c' f ok_wf0 ok_xlen0 ok_valid0 ok_pc_range0 Hf Hw He) as (rd & Hrd & Hl).
    rewrite (Vd rd Hrd). apply Hl. intros ->. rewrite (ok_rd0 Hrd) in *.
    revert Hf Hw. unfold Instruction_circuit_flags, query_of. rewrite ok_rd0 by done. by intros [= <-].
Qed.

(** The five groups of constraints. *)
Lemma ram_rows rr rw : ram_values_of (ram_access cy) = (rr, rw) ->
  let im := norm_imm (op_operands (operands i)) in
  let st := register_state cy in
  (b2z (f Load) + b2z (f Store) <> 0 -> RAMAccess_address (ram_access cy) = rs1_of st + im) /\
  (b2z (f Load) + b2z (f Store) <> 1 -> RAMAccess_address (ram_access cy) = 0) /\
  (b2z (f Load) <> 0 -> rr = rw) /\ (b2z (f Load) <> 0 -> rr = rd_post_of st) /\
  (b2z (f Store) <> 0 -> rs2_of st = rw).
Proof.
  intros Hrr. cbv zeta. destruct ram_of_row as [Hl Hs Hn H1]. clear -Hl Hs Hn H1 Hrr.
  destruct (f Load); [rewrite (H1 eq_refl) in *|destruct (f Store)]; cbn [b2z].
  - destruct (Hl eq_refl) as (v & E & Ev). rewrite E in *. injection Hrr as <- <-. repeat split; done.
  - destruct (Hs eq_refl) as (v & E). rewrite E in *. injection Hrr as <- <-. repeat split; done.
  - rewrite (Hn eq_refl eq_refl) in *. by repeat split.
Qed.

Lemma operand_rows x y l r : in_u 64 x -> Z.abs y < 2 ^ 64 -> operand_rel f x y l r ->
  let add := b2z (f AddOperands) in let sub := b2z (f SubtractOperands) in
  let mul := b2z (f MultiplyOperands) in let adv := b2z (f Advice) in
  (add + sub + mul <> 0 -> l = 0) /\ (add + sub + mul <> 1 -> l = x) /\
  (add <> 0 -> r = x + s64_of_i128 y) /\ (sub <> 0 -> r = x - s64_of_i128 y + 2 ^ 64) /\
  (mul <> 0 -> r = mul_trunc 2 x y) /\ (add + sub + mul + adv <> 1 -> r = s64_of_i128 y).
Proof.
  clear. intros Hx Hy Hr. cbv zeta. rewrite s64_small by done.
  rewrite mul_trunc_exact by (change (64 * Z.of_nat 2) with 128; unfold in_u in Hx; nia).
  unfold operand_rel in Hr.
  destruct (f AddOperands), (f SubtractOperands), (f MultiplyOperands), (f Advice); try done;
    cbn [b2z]; repeat split; intros; by (destruct Hr || lia).
Qed.

Lemma branch_exact a k : in_u 64 (a + k) -> branch_target a k = a + k.
Proof.
  clear. intros Ha. unfold branch_target. rewrite wrapu_wraps by lia.
  destruct (wraps_shift 64 a) as [u ->], (wraps_shift 64 k) as [w ->].
  replace (a + u * 2 ^ 64 + (k + w * 2 ^ 64)) with (a + k + (u + w) * 2 ^ 64) by lia.
  rewrite wrapu_add_mul by lia. by apply wrapu_small.
Qed.

Lemma next_rows v addr noop virt first : output_agrees i c c' v f fi -> next_view i c' f next addr noop virt first ->
  let im := norm_imm (op_operands (operands i)) in
  let jump := f Jump && negb noop in let branch := fi Branch && (v =? 1) in
  (b2z jump <> 0 -> addr = v) /\ (b2z branch <> 0 -> addr = address i + im) /\
  (b2z branch + b2z (f Jump) <> 1 ->
     addr = address i + 4 - 4 * b2z (f DoNotUpdateUnexpandedPC) - 2 * b2z (f IsCompressed)) /\
  (virt <> first -> b2z (f DoNotUpdateUnexpandedPC) = 1).
Proof.
  intros [_ Aj Ab _] [_ _ _ Nn Nj Ns]. cbv zeta.
  destruct (struct_flags _ _ Hf) as (_ & -> & _ & ->). pose proof (jump_not_branch i f fi Hf Hfi) as Hjb.
  pose proof (pc_unchanged i c c' f fi Hf Hfi) as Hpc. destruct Hrec as [_ _ He _].
  destruct Hok as [_ _ _ _ _ _ _ _ _ Hp _ Hb], Hlink as [_ _ Hin]. clear -Aj Ab Nn Nj Ns Hjb Hpc He Hp Hb Hin.
  assert (Hend : f Jump = true \/ fi Branch = true -> rest i = 0).
  { intros [E|E]; destruct (Z.eq_dec (rest i) 0) as [|Hne]; try done; destruct (Hin Hne) as (_ & ? & ?); congruence. }
  repeat split.
  - intros [Ej En]%b2z_nonzero%andb_true_iff. apply negb_true_iff in En.
    rewrite (Nn En), Hend by auto. by apply Aj.
  - intros [Eb Ev]%b2z_nonzero%andb_true_iff. apply Z.eqb_eq in Ev.
    assert (En : noop = false) by (destruct noop; [specialize (Hjb (Nj eq_refl)); congruence|done]).
    rewrite (Nn En), Hend by auto. destruct (Ab Eb) as [[_ ->]|[? _]]; [|lia]. by apply branch_exact, Hb.
  - intros Hs. destruct (f Jump) eqn:Ej; [rewrite (Hjb eq_refl) in Hs; done|].
    assert (En : noop = false) by (destruct noop; [by discriminate Nj|done]). rewrite (Nn En).
    destruct (Z.eqb_spec (rest i) 0) as [E0|E0]; cbn [negb b2z].
    + assert (Cpu.pc c' = Cpu.pc c) as ->; [|rewrite Hp by done; destruct (is_compressed i); cbn [b2z]; lia].
      destruct (fi Branch) eqn:Eb; [|by apply Hpc]. destruct (Ab eq_refl) as [[-> _]|[_ ->]]; done.
    + destruct (Hin E0) as (-> & _). cbn [b2z]. lia.
  - intros Hne. destruct (Z.eqb_spec (rest i) 0); [by destruct (Ns Hne)|done].
Qed.

(** The products of the row, and the row of the product constraints. *)
Definition row_products (row : R1CSCycleInputs) (p : ProductCycleInputs) : Prop :=
  product row = instruction_left_input p * instruction_right_input p /\
  b2z (should_branch row) = should_branch_lookup_output p * b2z (should_branch_flag p) /\
  b2z (should_jump row) = b2z (jump_flag p) * b2z (not_next_noop p).

Lemma row_products_of row p x y v noop : output_agrees i c c' v f fi ->
  in_u 64 x -> Z.abs y < 2 ^ 64 ->
  product row = mul_trunc 2 x y -> should_branch row = fi Branch && (v =? 1) -> should_jump row = f Jump && negb noop ->
  instruction_left_input p = x -> instruction_right_input p = y -> should_branch_lookup_output p = v ->
  should_branch_flag p = fi Branch -> jump_flag p = f Jump -> not_next_noop p = negb noop -> row_products row p.
Proof.
  clear. unfold row_products. intros [_ _ Ab _] Hx Hy E1 E2 E3 -> -> -> -> -> ->. rewrite E1, E2, E3.
  rewrite mul_trunc_exact by (change (64 * Z.of_nat 2) with 128; unfold in_u in Hx; nia). repeat split.
  - destruct (fi Branch); cbn [andb b2z]; [|lia]. destruct (Ab eq_refl) as [[-> _]|[-> _]]; done.
  - by destruct (f Jump), noop.
Qed.

Lemma row_built : tr !! t = Some (RealCycle cy) -> tr !! S t = Some next ->
  exists row p, R1CSCycleInputs_from_trace pre tr t = Some row /\ ProductCycleInputs_from_trace tr t = Some p /\
    row_constraints (input_value row) /\ row_products row p.
Proof.
  intros Hcy Hnext. destruct outputs_of_row as (v & Hv & Hagree), operands_of_row as (x & y & l & r & Hin & Hop & Hx & Hy & Hrel).
  destruct next_of_row as (addr & noop & virt & first & Hnv).
  pose proof Hnv as [Na (gi & Gi & Ni) (g & Gf & Nv & Nf) _ _ _].
  destruct (struct_flags _ _ Hf) as (_ & _ & _ & Fc).
  pose proof Hrec as [Hi _ _ _]. pose proof Hlink as [(p & Hp & q & Hq & Hpq) _ Hin'].
  destruct (ram_values_of (ram_access cy)) as [rr rw] eqn:Hrr.
  pose proof (ram_rows rr rw Hrr) as (R1 & R2 & R3 & R4 & R5).
  pose proof (operand_rows x y l r Hx Hy Hrel) as (O1 & O2 & O3 & O4 & O5 & O6).
  pose proof (next_rows v addr noop virt first Hagree Hnv) as (N1 & N2 & N3 & N4).
  pose proof (rd_of_row v Hv Hagree) as [Hw Hj]. pose proof (last_is_virtual i f Hf) as Hlast.
  destruct Hok as [_ _ _ _ Himm _ _ Has _ Hpc _ _].
  eexists _, _. split; [|split].
  { unfold R1CSCycleInputs_from_trace. rewrite Hcy. cbn [mbind option_bind]. cbv zeta.
    cbn [cycle_instruction any_circuit_flags any_instruction_flags any_to_instruction_inputs any_to_lookup_operands any_to_lookup_output].
    rewrite Hi, Hf, Hfi, Hin, Hop, Hv, Hnext, Hp. cbn [mbind option_bind ram_access_of].
    rewrite Hrr, Hq, Na, Gi, Gf. cbn [mbind option_bind]. rewrite Ni, Nv, Nf. reflexivity. }
  { unfold ProductCycleInputs_from_trace. rewrite Hcy. cbn [mbind option_bind]. cbv zeta.
    cbn [cycle_instruction any_circuit_flags any_instruction_flags any_to_instruction_inputs any_to_lookup_output].
    rewrite Hi, Hf, Hfi, Hin, Hv, Hnext. cbn [mbind option_bind]. rewrite Gi. cbn [mbind option_bind]. reflexivity. }
  split; [|apply (row_products_of _ _ x y v noop); try done; cbn [not_next_noop]; by rewrite Ni].
  split; cbn [input_value flags pc next_pc unexpanded_pc next_unexpanded_pc imm left_input right_input product
    left_lookup right_lookup lookup_output ram_addr ram_read_value ram_write_value should_jump should_branch
    next_is_virtual next_is_first_in_sequence rs1_read_value rs2_read_value rd_write_value];
    cbn [normalize_any normalize ni_address ni_operands ram_access_of rs1_read_value_of rs2_read_value_of rd_write_value_of];
    rewrite ?(s64_small (norm_imm _)) by (by apply (imm_ok_abs c));
    try assumption.
  - intros Ha%b2z_nonzero. by apply (agrees_assert _ _ _ _ _ _ Hagree).
  - intros Hl%b2z_nonzero. exact (Hw Hl).
  - intros Hl%b2z_nonzero. etransitivity; [exact (Hj Hl)|]. rewrite Hpc, Fc by (destruct (Z.eq_dec (rest i) 0) as [|Hne]; [done|destruct (Hin' Hne) as (_ & ? & _); congruence]). destruct (is_compressed i); cbn [b2z]; lia.
  - intros Hne. rewrite Hpq; [lia|..]; destruct (f VirtualInstruction), (f IsLastInSequence); try done; by rewrite Hlast in Hne.
  - intros Hne. apply N4. congruence.
Qed.
End Row.

(** ** Cycles of a program *)

(** A cycle's instruction is a row of the table, but for the advice that the trace
    puts in its operands. *)
Record row_of (j i : Instruction) : Prop := {
  row_op : operands i = operands j \/
    exists o v w, operands i = VirtualAdvice o v /\ operands j = VirtualAdvice o w;
  row_address : address i = address j;
  row_remaining : virtual_sequence_remaining i = virtual_sequence_remaining j;
  row_first : is_first_in_sequence i = is_first_in_sequence j;
  row_compressed : is_compressed i = is_compressed j
}.
Lemma row_rest j i : row_of j i -> rest i = rest j.
Proof. intros [_ _ Hr _ _]. unfold rest. by rewrite Hr. Qed.
Lemma row_transfers j i : row_of j i -> transfers (operands i) = transfers (operands j).
Proof. intros [[E|(o & v & w & E & E')] _ _ _ _]; [by rewrite E|by rewrite E, E']. Qed.

(** The instructions of the program do not overlap. *)
Definition apart (gs : list (list Instruction)) : Prop :=
  forall x y, x ∈ concat gs -> y ∈ concat gs -> rest x = 0 -> address x < address y ->
    address x + (if is_compressed x then 2 else 4) <= address y.

(** How the emulator goes on after a row of the table: with the next row inside a
    sequence, else with the first row of the expansion at the program counter; after a
    jump the trace may end and be padded. *)
Definition followed_by (gs : list (list Instruction)) (i : Instruction) (c' : Cpu) (f : CircuitFlags -> bool)
    (next : TraceCycle) : Prop :=
  exists k j, concat gs !! k = Some j /\ row_of j i /\
    match next with
    | NoOpCycle => f Jump = true
    | RealCycle n =>
        is_supported_instruction (instruction n) = true /\
        exists j', row_of j' (instruction n) /\
          if rest i =? 0 then exists g, g ∈ gs /\ g !! 0%nat = Some j' /\ address j' = Cpu.pc c'
          else concat gs !! S k = Some j'
    end.

(** *** Flags of the jumps *)
Lemma flags_transfer i f fi : Instruction_circuit_flags i = Some f -> Instruction_instruction_flags i = Some fi ->
  transfers (operands i) = false -> f Jump = false /\ fi Branch = false.
Proof.
  by_instruction; intros Hf Hfi Ht; try discriminate Hf; try discriminate Ht; injection Hf as <-; by injection Hfi as <-.
Qed.
Lemma no_transfer_inside i f : Instruction_circuit_flags i = Some f -> f Jump = true -> transfers (operands i) = true.
Proof. by_instruction; intros Hf Hj; try discriminate Hf; injection Hf as <-; done. Qed.
Lemma last_jump i f o : Instruction_circuit_flags i = Some f -> operands i = JALR o ->
  f IsLastInSequence = bool_decide (virtual_sequence_remaining i = Some 0).
Proof. unfold Instruction_circuit_flags, query_of. intros Hf E. rewrite E in Hf. by injection Hf as <-. Qed.

Section Layout.
Context (lo : Z) (gs : list (list Instruction)) (Hp : program lo gs).

(** The row after one that is not the last of its expansion is in it too. *)
Lemma program_next k j : concat gs !! k = Some j ->
  exists g q, g ∈ gs /\ g !! q = Some j /\ rest j = Z.of_nat (length g) - Z.of_nat q - 1 /\
    (rest j <> 0 -> concat gs !! S k = g !! S q).
Proof.
  revert k. induction Hp as [lo'|lo' g addr gs' He _ Hp' IH]; cbn [concat]; intros k Hk; [done|].
  destruct (decide (k < length g)%nat) as [Hl|Hl].
  - rewrite lookup_app_l in Hk by done. destruct (expansion_at _ _ He _ _ Hk) as [_ Hr].
    exists g, k. split; [by left|]. split; [done|]. split; [done|]. intros H0. by rewrite lookup_app_l by lia.
  - rewrite lookup_app_r in Hk by lia. destruct (IH Hp' _ Hk) as (g' & q & Hg & Hq & Hr & Hn).
    exists g', q. split; [by right|]. split; [done|]. split; [done|]. intros H0.
    rewrite lookup_app_r by lia. replace (S k - length g)%nat with (S (k - length g)) by lia. by apply Hn.
Qed.
Lemma program_rest g q j : g ∈ gs -> g !! q = Some j -> rest j = Z.of_nat (length g) - Z.of_nat q - 1.
Proof.
  induction Hp as [lo'|lo' g0 addr gs' He _ Hp' IH]; intros Hg Hq; [by apply elem_of_nil in Hg|].
  apply elem_of_cons in Hg as [->|Hg]; [by apply (expansion_at _ _ He)|by apply IH].
Qed.
Lemma first_row g j : g ∈ gs -> g !! 0%nat = Some j -> exists k, concat gs !! k = Some j.
Proof.
  intros Hg Hj. apply list_elem_of_lookup. apply list_elem_of_In, in_concat. exists g. split; [by apply list_elem_of_In|].
  by eapply list_elem_of_In, list_elem_of_lookup_2.
Qed.
(** The row after the last one of an expansion is the first row at the least address
    that follows. *)
Lemma program_after k j g' j' : concat gs !! k = Some j -> rest j = 0 -> g' ∈ gs -> g' !! 0%nat = Some j' ->
  address j < address j' -> (forall x, x ∈ concat gs -> address j < address x -> address j' <= address x) ->
  concat gs !! S k = Some j'.
Proof.
  revert k. induction Hp as [lo'|lo' g addr gs' He _ Hp' IH]; intros k Hk H0 Hg' Hj' Hlt Hmin; [done|].
  cbn [concat] in *. apply elem_of_cons in Hg'.
  assert (Hsame : forall x, g' = g -> g' !! 0%nat = Some x -> address x = addr).
  { intros x -> Hx. by apply (expansion_at _ _ He 0%nat). }
  destruct (decide (k < length g)%nat) as [Hl|Hl].
  - rewrite lookup_app_l in Hk by done. destruct (expansion_at _ _ He _ _ Hk) as [Ha Hr].
    destruct Hg' as [Hg'|Hg']; [rewrite (Hsame _ Hg' Hj') in Hlt; lia|].
    rewrite H0 in Hr. rewrite lookup_app_r by (unfold Instruction in *; lia).
    replace (S k - _)%nat with 0%nat by (unfold Instruction in *; lia).
    destruct Hp' as [|lo'' g2 addr2 gs2 He2 Hlo2 Hp2]; [by apply elem_of_nil in Hg'|]. cbn [concat] in *.
    destruct g2 as [|x g2]; [by destruct (expansion_nonempty _ _ He2)|].
    destruct (expansion_at _ _ He2 0%nat x eq_refl) as [Hx _].
    apply elem_of_cons in Hg' as [->|Hg']; [injection Hj' as <-; reflexivity|]. exfalso.
    assert (Hmx : address j' <= address x).
    { apply Hmin; [|lia]. apply elem_of_app. right. by left. }
    destruct (program_address addr2 gs2 j' Hp2) as [Hgt _]; [|lia].
    apply list_elem_of_In, in_concat. exists g'. split; [by apply list_elem_of_In|].
    by eapply list_elem_of_In, list_elem_of_lookup_2.
  - rewrite lookup_app_r in Hk |- * by (unfold Instruction in *; lia).
    assert (Hj : addr < address j) by (apply (program_address addr gs' j Hp'); by eapply list_elem_of_lookup_2).
    destruct Hg' as [Hg'|Hg']; [rewrite (Hsame _ Hg' Hj') in Hlt; lia|].
    replace (S k - _)%nat with (S (k - length g)) by (unfold Instruction in *; lia). apply (IH Hp'); try done.
    intros x Hx. apply Hmin, elem_of_app. by right.
Qed.

Context (inventory : list InlineRegistration) (Hx : Forall (expanded inventory) gs).

Lemma laid_row g q j : g ∈ gs -> g !! q = Some j -> rest j = Z.of_nat (length g) - Z.of_nat q - 1 ->
  (is_Some (virtual_sequence_remaining j) <-> is_first_in_sequence j = true \/ (0 < q)%nat) /\
  (forall j', g !! S q = Some j' -> address j' = address j /\ is_compressed j = false) /\
  (transfers (operands j) = true -> rest j = 0 /\ (is_Some (virtual_sequence_remaining j) -> exists o, operands j = JALR o)).
Proof.
  intros Hg Hj Hrest. rewrite list.Forall_forall in Hx.
  destruct (expanded_rows _ _ (Hx g Hg)) as [(a & co & [_ Hat] & Hco)|(i & -> & Hv & Hfi)].
  - destruct (Hat q j Hj) as (Ha & Hr & Hf & Hc). rewrite Hr, Hf. split; [|split].
    + split; [intros _|by eauto]. destruct q; [by left|right; lia].
    + intros j' Hj'. destruct (Hat (S q) j' Hj') as (-> & _). split; [done|]. rewrite Hc.
      apply lookup_lt_Some in Hj'. destruct (Nat.eqb_spec q (length g - 1)); [unfold Instruction in *; lia|done].
    + intros Ht. destruct (Hco q j Hj Ht) as [Hq Ho]. apply lookup_lt_Some in Hj. split; [unfold Instruction in *; lia|done].
  - destruct q as [|q]; [|done]. injection Hj as <-. rewrite Hv, Hfi. split; [|split; [done|]].
    + split; [by intros [? [=]]|by intros [[=]|?%Nat.lt_irrefl]].
    + intros _. split; [by rewrite Hrest|by intros [? [=]]].
Qed.

Context (entry : Z) (pre : BytecodePreprocessing) (Hpre : preprocess (map Real (concat gs)) entry = Some (inr pre)).
Context (Hapart : apart gs).

(** The program counter of a row's cycle. *)
Lemma row_pc cy k j : concat gs !! k = Some j -> row_of j (instruction cy) -> get_pc pre (RealCycle cy) = Some (S k).
Proof.
  intros Hk [_ Ha Hr _ _]. assert (Hne : gs <> []) by (intros ->; done).
  destruct (preprocess_program lo gs entry Hp Hne) as (pre' & Hpre' & _ & _ & Hpc). rewrite Hpre in Hpre'. injection Hpre' as <-.
  rewrite <- (Hpc k j Hk). unfold get_pc, rest.
  cbn [cycle_instruction normalize_any normalize ni_address ni_virtual_sequence_remaining]. by rewrite Ha, Hr.
Qed.

Section Step.
Context (i : Instruction) (c c' : Cpu) (cy : Cycle) (f : CircuitFlags -> bool) (fi : InstructionFlags -> bool).
Context (Hf : Instruction_circuit_flags i = Some f) (Hfi : Instruction_instruction_flags i = Some fi).
Context (Hok : row_ok i c f fi) (Hrec : recorded i c c' cy).
Context (k q : nat) (j : Instruction) (g : list Instruction) (Hk : concat gs !! k = Some j) (Hj : row_of j i).
Context (Hg : g ∈ gs) (Hq : g !! q = Some j) (Hrest : rest j = Z.of_nat (length g) - Z.of_nat q - 1).

(** Inside a sequence nothing jumps, and the last row of one that jumps is marked. *)
Lemma row_control : (transfers (operands i) = true -> rest i = 0) /\
  (f VirtualInstruction = true -> f IsLastInSequence = false -> transfers (operands i) = false).
Proof.
  destruct (laid_row g q j Hg Hq Hrest) as (_ & _ & Hc). rewrite (row_rest _ _ Hj), (row_transfers _ _ Hj).
  split; [by intros Ht; apply Hc|]. destruct (struct_flags i f Hf) as [-> _].
  intros [v Hv]%bool_decide_eq_true Hl. destruct (transfers (operands j)) eqn:Ht; [|done]. exfalso.
  destruct (Hc eq_refl) as [H0 Ho]. rewrite <- (row_remaining _ _ Hj), Hv in Ho. destruct Ho as [o Ho]; [by eexists|].
  assert (Hi : operands i = JALR o).
  { destruct (row_op _ _ Hj) as [->|(? & ? & ? & _ & E)]; [done|congruence]. }
  rewrite (last_jump i f o Hf Hi) in Hl. apply bool_decide_eq_false in Hl. apply Hl. rewrite Hv. f_equal.
  rewrite <- (row_rest _ _ Hj) in H0. unfold rest in H0. by rewrite Hv in H0.
Qed.

(** After the last row of a sequence that does not jump comes the next row. *)
Lemma row_falls_through g' j' : transfers (operands i) = false -> rest i = 0 ->
  g' ∈ gs -> g' !! 0%nat = Some j' -> address j' = Cpu.pc c' -> concat gs !! S k = Some j'.
Proof.
  clear Hg Hq Hrest. intros Ht H0 Hg' Hj' Ha. destruct (flags_transfer i f fi Hf Hfi Ht) as [HJ HB].
  assert (Hpc : Cpu.pc c' = address j + (if is_compressed j then 2 else 4)).
  { rewrite (pc_unchanged i c c' f fi Hf Hfi HJ HB (recorded_execute _ _ _ _ Hrec)), (ok_pc _ _ _ _ Hok H0).
    by rewrite (row_address _ _ Hj), (row_compressed _ _ Hj). }
  rewrite (row_rest _ _ Hj) in H0. apply (program_after k j g'); try done.
  - rewrite Ha, Hpc. destruct (is_compressed j); lia.
  - intros x Hx' Hlt. rewrite Ha, Hpc. apply Hapart; try done. by eapply list_elem_of_lookup_2.
Qed.
End Step.

Lemma followed_linked i c c' cy f fi next : Instruction_circuit_flags i = Some f -> Instruction_instruction_flags i = Some fi ->
  row_ok i c f fi -> recorded i c c' cy -> followed_by gs i c' f next -> linked pre i c' cy f fi next.
Proof.
  intros Hf Hfi Hok Hrec (k & j & Hk & Hj & Hn).
  assert (Hpcy : get_pc pre (RealCycle cy) = Some (S k)) by (apply (row_pc _ _ j Hk); by rewrite (recorded_instruction _ _ _ _ Hrec)).
  destruct (program_next k j Hk) as (g & q & Hg & Hq & Hr & Hsucc). destruct (laid_row g q j Hg Hq Hr) as (_ & Hin & _).
  destruct (row_control i f Hf q j g Hj Hg Hq Hr) as [Hjump Hlast].
  rewrite <- (row_rest _ _ Hj) in Hr, Hsucc.
  assert (Hc : rest i <> 0 -> is_compressed i = false /\ f Jump = false /\ fi Branch = false).
  { intros H0. assert (exists j', g !! S q = Some j') as [j' Hj'].
    { apply lookup_lt_is_Some. apply lookup_lt_Some in Hq. lia. }
    rewrite (row_compressed _ _ Hj). split; [by apply (Hin j')|]. apply (flags_transfer i); try done.
    destruct (transfers (operands i)); [by destruct H0; apply Hjump|done]. }
  destruct next as [|n].
  { split; [|done|done]. exists (S k). split; [done|]. exists 0%nat. split; [done|].
    intros Hvi Hla. by rewrite (no_transfer_inside i f Hf Hn) in Hlast; specialize (Hlast Hvi Hla). }
  destruct Hn as (Hs & j' & Hj' & Hn).
  assert (Hpn : forall k', concat gs !! k' = Some j' -> get_pc pre (RealCycle n) = Some (S k')).
  { intros k' Hk'. by apply (row_pc _ _ j'). }
  destruct (Z.eqb_spec (rest i) 0) as [H0|H0].
  - destruct Hn as (g' & Hg' & Hj0 & Ha). destruct (first_row g' j' Hg' Hj0) as [k' Hk'].
    destruct (laid_row g' 0 j' Hg' Hj0) as (Hm & _); [by apply program_rest|]. split; [| |done].
    + exists (S k). split; [done|]. exists (S k'). split; [by apply Hpn|]. intros Hvi Hla.
      pose proof (row_falls_through i c c' cy f fi Hf Hfi Hok Hrec k j Hk Hj g' j' (Hlast Hvi Hla) H0 Hg' Hj0 Ha) as Hk2.
      pose proof (Hpn _ Hk') as E1. rewrite (Hpn _ Hk2) in E1. congruence.
    + rewrite H0. split; [done|]. split; [by rewrite (row_address _ _ Hj')|].
      rewrite (row_remaining _ _ Hj'), (row_first _ _ Hj'), Hm. split; (intros [?|?]; [by left|lia]).
  - pose proof Hn as Hn'. rewrite Hsucc in Hn by done. destruct (Hin j' Hn) as [Ha _].
    destruct (laid_row g (S q) j' Hg Hn) as (Hm & _).
    { by apply program_rest. } split; [| |done].
    + exists (S k). split; [done|]. exists (S (S k)). split; [by apply Hpn|done].
    + apply Z.eqb_neq in H0 as E0. rewrite E0. split; [done|].
      split; [by rewrite (row_address _ _ Hj'), Ha, (row_address _ _ Hj)|].
      rewrite (row_remaining _ _ Hj'), (row_first _ _ Hj'), Hm. split; intros _; right; [done|lia].
Qed.
End Layout.

(** ** The constraint system is complete on traces *)

(** C9: the row of a traced cycle satisfies the constraint system.  Let the bytecode be
    preprocessed from a program whose instructions lie at increasing addresses, do not
    overlap ([apart]) and are expanded by [inline_sequence] ([expanded]).  Take a cycle
    of one of its rows, in the proof's instruction set, that starts from a state that
    meets [row_ok] (a well-formed 64-bit state, the program counter moved past the
    instruction, operands in their ranges, assertions that assert, a destination other
    than [x0] save in the no-op, no address that wraps), and let the next cycle be, as
    the emulator goes on ([followed_by]), the next row inside a sequence, the first row
    of the expansion at the program counter after its last, or, after a jump, the
    padding.  Then the row [from_trace] builds makes each of the nineteen constraints
    hold over any field.  That rows of a sequence have consecutive program counters,
    that a sequence is entered at its first row, and that what follows a sequence that
    does not jump is the next row, which two of the constraints state, come from the
    preprocessing and the layout of the expansions. *)
Theorem traced_row_satisfies_constraints {F : Type} `{JoltField F} `{SignedBigInt} inventory
    lo gs entry pre tr t i c c' cy next f fi :
  program lo gs -> apart gs -> Forall (expanded inventory) gs -> preprocess (map Real (concat gs)) entry = Some (inr pre) ->
  Instruction_circuit_flags i = Some f -> Instruction_instruction_flags i = Some fi ->
  row_ok i c f fi -> default_trace_cycle i c = Some (c', [cy]) -> followed_by gs i c' f next ->
  tr !! t = Some (RealCycle cy) -> tr !! S t = Some next ->
  exists row, R1CSCycleInputs_from_trace pre tr t = Some row /\
    Forall (fun k => satisfied (cons k) (map from_u64 (row_vector (input_value row)))) R1CS_CONSTRAINTS.
Proof.
  intros Hp Hap Hx Hpre Hf Hfi Hok Ht Hl Hcy Hnext. pose proof Hok as [Hc Hxl Hv _ _ _ _ _ _ _ _ _].
  pose proof (traced_recorded i c c' cy Hc Hxl Hv Ht) as Hrec.
  pose proof (followed_linked lo gs Hp inventory Hx entry pre Hpre Hap i c c' cy f fi next Hf Hfi Hok Hrec Hl) as Hlk.
  destruct (row_built pre tr t i c c' cy next f fi Hf Hfi Hok Hrec Hlk Hcy Hnext) as (row & _ & Hrow & _ & Hk & _).
  exists row. split; [done|]. apply satisfied_over_Z in Hk. apply (list.Forall_impl _ _ _ Hk). intros k.
  apply satisfied_from.
Qed.

(** the padding satisfies the constraint system: a no-op followed by a
    no-op or by the end of the trace. *)
Theorem padding_row_satisfies_constraints {F : Type} `{JoltField F} `{SignedBigInt} pre tr t :
  tr !! t = Some NoOpCycle -> (tr !! S t = Some NoOpCycle \/ tr !! S t = None) ->
  exists row, R1CSCycleInputs_from_trace pre tr t = Some row /\
    Forall (fun k => satisfied (cons k) (map from_u64 (row_vector (input_value row)))) R1CS_CONSTRAINTS.
Proof.
  intros Hcy Hnext. assert (E : mul_trunc 2 0 0 = 0) by by rewrite mul_trunc_exact.
  assert (Hk : exists row, R1CSCycleInputs_from_trace pre tr t = Some row /\ row_constraints (input_value row)).
  { destruct Hnext as [E' | E']; unfold R1CSCycleInputs_from_trace; rewrite Hcy; cbn; rewrite E'; cbn; rewrite E;
      (eexists; split; [reflexivity|]; split; cbn; intros Hg; done). }
  destruct Hk as (row & Hrow & Hk). exists row. split; [done|].
  apply satisfied_over_Z in Hk. apply (list.Forall_impl _ _ _ Hk). intros k. apply satisfied_from.
Qed.

(** The values of the polynomials the product constraints name, on a cycle. *)
Definition product_value (row : R1CSCycleInputs) (p : ProductCycleInputs) (v : VirtualPolynomial) : Z :=
  match v with
  | InputPolynomial LeftInstructionInput => instruction_left_input p
  | InputPolynomial RightInstructionInput => instruction_right_input p
  | InputPolynomial LookupOutput => should_branch_lookup_output p
  | InputPolynomial (OpFlags Jump) => b2z (jump_flag p)
  | InputPolynomial i => input_value row i
  | InstructionFlagPolynomial Branch => b2z (should_branch_flag p)
  | InstructionFlagPolynomial _ => 0
  | NextIsNoop => 1 - b2z (not_next_noop p)
  end.

(** C10: the product constraints hold on every traced cycle that has a next
    one: the row's product is that of the instruction inputs, a branch is taken
    when its lookup output is one, a jump is followed when the next cycle is no
    no-op. *)
Theorem traced_row_satisfies_products `{SignedBigInt} pre tr t i c c' cy next f fi :
  Instruction_circuit_flags i = Some f -> Instruction_instruction_flags i = Some fi ->
  row_ok i c f fi -> default_trace_cycle i c = Some (c', [cy]) -> linked pre i c' cy f fi next ->
  tr !! t = Some (RealCycle cy) -> tr !! S t = Some next ->
  exists row p, R1CSCycleInputs_from_trace pre tr t = Some row /\
    ProductCycleInputs_from_trace tr t = Some p /\
    Forall (product_holds (product_value row p)) PRODUCT_CONSTRAINTS.
Proof.
  intros Hf Hfi Hok Ht Hl Hcy Hnext. pose proof Hok as [Hc Hx Hv _ _ _ _ _ _ _ _ _].
  pose proof (traced_recorded i c c' cy Hc Hx Hv Ht) as Hrec.
  destruct (row_built pre tr t i c c' cy next f fi Hf Hfi Hok Hrec Hl Hcy Hnext) as (row & p & Hrow & Hp & _ & E1 & E2 & E3).
  exists row, p. split; [done|]. split; [done|].
  repeat first [apply list.Forall_cons_2 | apply list.Forall_nil_2]; unfold product_holds; cbn; lia.
Qed.

(** ** A concrete trace: an addition, a jump to itself, a no-op *)

#[local] Existing Instance kept_limbs.

Definition add_row : Instruction := row_at 0x80000000 None (ADD {| R_rd := 3; R_rs1 := 1; R_rs2 := 2 |}).
Definition jump_row : Instruction := row_at 0x80000004 None (JAL {| J_rd := 40; J_imm := 0 |}).
Definition cpu_before_add : Cpu := update_pc (cpu_with 5 (-7)) 0x80000004.
Definition cpu_before_jump : Cpu := update_pc (cpu_with 5 (-7)) 0x80000008.
Definition cycle_of (i : Instruction) (c : Cpu) : Cycle :=
  match default_trace_cycle i c with
  | Some (_, [cy]) => cy
  | _ => {| instruction := i; register_state := {| rs1_value := None; rs2_value := None; rd_values := None |}; ram_access := NoRAM |}
  end.
Definition cycle_trace : list TraceCycle :=
  [RealCycle (cycle_of add_row cpu_before_add); RealCycle (cycle_of jump_row cpu_before_jump); NoOpCycle].
Definition cycle_bytecode : BytecodePreprocessing :=
  match preprocess (map Real [add_row; jump_row]) 0x80000000 with
  | Some (inr pre) => pre
  | _ => {| code_size := 0; bytecode := []; pc_map := {| indices := [] |}; entry_address := 0 |}
  end.

Lemma cpu_before_add_wf : cpu_wf cpu_before_add.
Proof. destruct (cpu_with_wf 5 (-7)) as [? ? ? ? ?]; [done..|]. by split. Qed.
Lemma cpu_before_jump_wf : cpu_wf cpu_before_jump.
Proof. destruct (cpu_with_wf 5 (-7)) as [? ? ? ? ?]; [done..|]. by split. Qed.

Definition state_after (i : Instruction) (c : Cpu) : Cpu :=
  match default_trace_cycle i c with Some (c', _) => c' | None => c end.
Definition flags_of (i : Instruction) : CircuitFlags -> bool := default (fun _ => false) (Instruction_circuit_flags i).
Definition iflags_of (i : Instruction) : InstructionFlags -> bool := default (fun _ => false) (Instruction_instruction_flags i).

Lemma add_row_ok : row_ok add_row cpu_before_add (flags_of add_row) (iflags_of add_row).
Proof.
  split; try done; [exact cpu_before_add_wf|]. split; [|split]; cbn; by apply Nat.ltb_lt.
Qed.
Lemma jump_row_ok : row_ok jump_row cpu_before_jump (flags_of jump_row) (iflags_of jump_row).
Proof.
  split; try done; [exact cpu_before_jump_wf|]. split; [|split]; cbn; [by apply Nat.ltb_lt|done..].
Qed.
Definition cycle_program : list (list Instruction) := [[add_row]; [jump_row]].
Lemma cycle_program_laid : program 0 cycle_program.
Proof.
  apply (program_cons 0 [add_row] 0x80000000); [|done|apply (program_cons _ [jump_row] 0x80000004); [|done|constructor]];
    (split; try done; by intros [|q] i; [intros [= <-]|]).
Qed.
Lemma cycle_program_apart : apart cycle_program.
Proof.
  intros x y Hx Hy _. cbn in Hx, Hy. apply elem_of_cons in Hx as [->|Hx]; [|apply list_elem_of_singleton in Hx as ->];
    (apply elem_of_cons in Hy as [->|Hy]; [|apply list_elem_of_singleton in Hy as ->]); cbn; lia.
Qed.
(** The jump is one to [x0]. *)
Lemma cycle_program_expanded : Forall (expanded []) cycle_program.
Proof.
  apply list.Forall_cons. split; [|apply list.Forall_cons; split; [|constructor]].
  - by eapply (expanded_op _ add_row Bit64 VirtualRegisterAllocator_new).
  - by eapply (expanded_op _ (row_at 0x80000004 None (JAL {| J_rd := 0; J_imm := 0 |})) Bit64 VirtualRegisterAllocator_new).
Qed.
Lemma row_of_itself i : row_of i i.
Proof. by split; [left|..]. Qed.
Lemma add_row_followed : followed_by cycle_program add_row (state_after add_row cpu_before_add)
  (flags_of add_row) (RealCycle (cycle_of jump_row cpu_before_jump)).
Proof.
  exists 0%nat, add_row. split; [done|]. split; [apply row_of_itself|]. split; [done|]. exists jump_row.
  split; [apply row_of_itself|]. exists [jump_row]. split; [right; left|]. split; [done|]. by vm_compute.
Qed.
Lemma jump_row_linked : linked cycle_bytecode jump_row (state_after jump_row cpu_before_jump)
  (cycle_of jump_row cpu_before_jump) (flags_of jump_row) (iflags_of jump_row) NoOpCycle.
Proof. split; [by exists 2%nat; split; [vm_compute|exists 0%nat]|done|done]. Qed.

Lemma traced_row_satisfies_constraints_witness :
  exists row, R1CSCycleInputs_from_trace cycle_bytecode cycle_trace 0 = Some row /\
    Forall (fun k => satisfied (cons k) (map (from_u64 (F := Fr)) (row_vector (input_value row)))) R1CS_CONSTRAINTS.
Proof.
  apply (traced_row_satisfies_constraints [] 0 cycle_program 0x80000000 cycle_bytecode cycle_trace 0 add_row cpu_before_add
    (state_after add_row cpu_before_add) (cycle_of add_row cpu_before_add)
    (RealCycle (cycle_of jump_row cpu_before_jump)) (flags_of add_row) (iflags_of add_row)).
  - exact cycle_program_laid.
  - exact cycle_program_apart.
  - exact cycle_program_expanded.
  - vm_compute. reflexivity.
  - reflexivity.
  - reflexivity.
  - exact add_row_ok.
  - vm_compute. reflexivity.
  - exact add_row_followed.
  - reflexivity.
  - reflexivity.
Defined.

Lemma padding_row_satisfies_constraints_witness :
  exists row, R1CSCycleInputs_from_trace cycle_bytecode cycle_trace 2 = Some row /\
    Forall (fun k => satisfied (cons k) (map (from_u64 (F := Fr)) (row_vector (input_value row)))) R1CS_CONSTRAINTS.
Proof.
  apply (padding_row_satisfies_constraints cycle_bytecode cycle_trace 2); [reflexivity|right; reflexivity].
Defined.

Lemma traced_row_satisfies_products_witness :
  exists row p, R1CSCycleInputs_from_trace cycle_bytecode cycle_trace 1 = Some row /\
    ProductCycleInputs_from_trace cycle_trace 1 = Some p /\
    Forall (product_holds (product_value row p)) PRODUCT_CONSTRAINTS.
Proof.
  apply (traced_row_satisfies_products cycle_bytecode cycle_trace 1 jump_row cpu_before_jump
    (state_after jump_row cpu_before_jump) (cycle_of jump_row cpu_before_jump)
    NoOpCycle (flags_of jump_row) (iflags_of jump_row)).
  - reflexivity.
  - reflexivity.
  - exact jump_row_ok.
  - vm_compute. reflexivity.
  - exact jump_row_linked.
  - reflexivity.
  - reflexivity.
Defined.
