(* ===== verification/R1csEval.v ===== *)
(** * R1csEval: the typed evaluators of the constraint system

    [jolt-core/src/zkvm/r1cs/evaluation.rs]: for a row of the witness, the two
    sides of the constraints as small typed values (guards and magnitudes), their
    Lagrange-weighted sums in the accumulators, and the products at the extended
    points of the univariate skip.  Proved: they are the linear combinations of
    the tables of [R1CS] on that row, no accumulator loses a bit, and the
    products are those of the interpolated polynomials. *)
From S2P Require Import Prelude Bits Field SignedInt FoldedAccum Accum Poly LagrangeHelper LookupTables Mle LinearCombination.
From S2P Require Import Registers Cpu Formats Instr Trace LookupQuery R1CS Witness.
From Stdlib Require Import Ring Zmod.

Definition OUTER_COEFFS_PER_J : list (list Z) := COEFFS_PER_J OUTER_UNIVARIATE_SKIP_DOMAIN_SIZE OUTER_UNIVARIATE_SKIP_DEGREE.
Definition NUM_PRODUCT_VIRTUAL : nat := 3.
Definition PRODUCT_VIRTUAL_UNIVARIATE_SKIP_DEGREE : nat := NUM_PRODUCT_VIRTUAL - 1.
Definition PRODUCT_VIRTUAL_UNIVARIATE_SKIP_DOMAIN_SIZE : nat := NUM_PRODUCT_VIRTUAL.
Definition PRODUCT_VIRTUAL_COEFFS_PER_J : list (list Z) :=
  COEFFS_PER_J PRODUCT_VIRTUAL_UNIVARIATE_SKIP_DOMAIN_SIZE PRODUCT_VIRTUAL_UNIVARIATE_SKIP_DEGREE.
(** A coefficient of the [j]th row; the tables are arrays. *)
Definition coeff_at (table : list (list Z)) (j i : nat) : Z := nth i (nth j table []) 0.

(** ** The typed groups *)

Record AzFirstGroup := {
  not_load_store : bool; load_a : bool; load_b : bool; store : bool; add_sub_mul : bool;
  not_add_sub_mul : bool; assert_flag : bool; az_should_jump : bool;
  virtual_instr_not_last : bool; must_start_sequence : bool
}.
Record BzFirstGroup := {
  bz_ram_addr : Z; ram_read_minus_ram_write : Z; ram_read_minus_rd_write : Z;
  rs2_minus_ram_write : Z; bz_left_lookup : Z; left_lookup_minus_left_input : Z;
  lookup_output_minus_one : Z; next_unexp_pc_minus_lookup_output : Z;
  next_pc_minus_pc_plus_one : Z; one_minus_do_not_update_unexpanded_pc : bool
}.
Record AzSecondGroup := {
  load_or_store : bool; az_add : bool; az_sub : bool; az_mul : bool; not_add_sub_mul_advice : bool;
  write_lookup_to_rd : bool; write_pc_to_rd : bool; az_should_branch : bool; not_jump_or_branch : bool
}.
Record BzSecondGroup := {
  ram_addr_minus_rs1_plus_imm : Z; right_lookup_minus_add_result : Z;
  right_lookup_minus_sub_result : Z; right_lookup_minus_product : Z;
  right_lookup_minus_right_input : Z; rd_write_minus_lookup_output : Z;
  rd_write_minus_pc_plus_const : Z; next_unexp_pc_minus_pc_plus_imm : Z;
  next_unexp_pc_minus_expected : Z
}.

Definition eval_az_first_group (row : R1CSCycleInputs) : AzFirstGroup :=
  let flags := Witness.flags row in
  let ld := flags Load in let st := flags Store in
  let add := flags AddOperands in let sub := flags SubtractOperands in let mul := flags MultiplyOperands in
  {| not_load_store := negb (ld || st); load_a := ld; load_b := ld; store := st;
     add_sub_mul := add || sub || mul; not_add_sub_mul := negb (add || sub || mul);
     assert_flag := flags LookupQuery.Assert; az_should_jump := should_jump row;
     virtual_instr_not_last := flags VirtualInstruction && negb (flags IsLastInSequence);
     must_start_sequence := next_is_virtual row && negb (next_is_first_in_sequence row) |}.

Definition eval_bz_first_group (row : R1CSCycleInputs) : BzFirstGroup :=
  {| bz_ram_addr := ram_addr row;
     ram_read_minus_ram_write := s64_from_diff_u64s (ram_read_value row) (ram_write_value row);
     ram_read_minus_rd_write := s64_from_diff_u64s (ram_read_value row) (rd_write_value row);
     rs2_minus_ram_write := s64_from_diff_u64s (rs2_read_value row) (ram_write_value row);
     bz_left_lookup := left_lookup row;
     left_lookup_minus_left_input := s64_from_diff_u64s (left_lookup row) (left_input row);
     lookup_output_minus_one := s64_from_diff_u64s (lookup_output row) 1;
     next_unexp_pc_minus_lookup_output := s64_from_diff_u64s (next_unexpanded_pc row) (lookup_output row);
     next_pc_minus_pc_plus_one := s64_from_diff_u64s (next_pc row) (as_u64 (pc row + 1));
     one_minus_do_not_update_unexpanded_pc := negb (Witness.flags row DoNotUpdateUnexpandedPC) |}.

Definition eval_az_second_group (row : R1CSCycleInputs) : AzSecondGroup :=
  let flags := Witness.flags row in
  let jump := flags Jump in
  {| load_or_store := flags Load || flags Store; az_add := flags AddOperands;
     az_sub := flags SubtractOperands; az_mul := flags MultiplyOperands;
     not_add_sub_mul_advice :=
       negb (flags AddOperands || flags SubtractOperands || flags MultiplyOperands || flags Advice);
     write_lookup_to_rd := flags WriteLookupOutputToRD; write_pc_to_rd := flags Jump;
     az_should_branch := should_branch row; not_jump_or_branch := negb jump && negb (should_branch row) |}.

Section Evaluators.
Context `{SB : SignedBigInt}.

(** [imm] is an [S64]; [S160] differences keep 160 bits. *)
Definition eval_bz_second_group (row : R1CSCycleInputs) : BzSecondGroup :=
  let expected_addr :=
    if 0 <? imm row then as_i128 (as_u128 (rs1_read_value row + Z.abs (imm row)))
    else as_i128 (rs1_read_value row - Z.abs (imm row)) in
  let right_add_expected := as_i128 (left_input row + right_input row) in
  let right_sub_expected := as_i128 (as_i128 (left_input row - right_input row) + 2 ^ 64) in
  let const_term := 4 - (if Witness.flags row IsCompressed then 2 else 0) in
  let expected_pc_plus_const := as_u64 (unexpanded_pc row + as_u64 const_term) in
  let const_term_next :=
    4 - (if Witness.flags row DoNotUpdateUnexpandedPC then 4 else 0) - (if Witness.flags row IsCompressed then 2 else 0) in
  let expected_next := as_u64 (unexpanded_pc row + as_u64 const_term_next) in
  {| ram_addr_minus_rs1_plus_imm := as_i128 (ram_addr row - expected_addr);
     right_lookup_minus_add_result := sub_trunc 160 (right_lookup row) right_add_expected;
     right_lookup_minus_sub_result := sub_trunc 160 (right_lookup row) right_sub_expected;
     right_lookup_minus_product := sub_trunc 160 (right_lookup row) (product row);
     right_lookup_minus_right_input := sub_trunc 160 (right_lookup row) (right_input row);
     rd_write_minus_lookup_output := s64_from_diff_u64s (rd_write_value row) (lookup_output row);
     rd_write_minus_pc_plus_const := s64_from_diff_u64s (rd_write_value row) expected_pc_plus_const;
     next_unexp_pc_minus_pc_plus_imm :=
       as_i128 (next_unexpanded_pc row - as_i128 (unexpanded_pc row + imm row));
     next_unexp_pc_minus_expected := s64_from_diff_u64s (next_unexpanded_pc row) expected_next |}.

(** ** Products at the extended points

    [if az { az_eval += c } else { bz_eval.fmadd(c, bz) }] *)
Definition guarded_add (az : bool) (c : Z) (fmadd : Z -> Z) (acc : Z * Z) : Z * Z :=
  let '(az_eval, bz_eval) := acc in
  if az then (as_i32 (az_eval + c), bz_eval) else (az_eval, fmadd bz_eval).

Definition extended_azbz_product_first_group (row : R1CSCycleInputs) (j : nat) : Z :=
  let c := coeff_at OUTER_COEFFS_PER_J j in
  let az := eval_az_first_group row in
  let bz := eval_bz_first_group row in
  let acc := (0, S128Sum_new) in
  let acc := guarded_add (not_load_store az) (c 0%nat) (fun s => S128Sum_fmadd_u64 s (c 0%nat) (bz_ram_addr bz)) acc in
  let acc := guarded_add (load_a az) (c 1%nat) (fun s => S128Sum_fmadd_s64 s (c 1%nat) (ram_read_minus_ram_write bz)) acc in
  let acc := guarded_add (load_b az) (c 2%nat) (fun s => S128Sum_fmadd_s64 s (c 2%nat) (ram_read_minus_rd_write bz)) acc in
  let acc := guarded_add (store az) (c 3%nat) (fun s => S128Sum_fmadd_s64 s (c 3%nat) (rs2_minus_ram_write bz)) acc in
  let acc := guarded_add (add_sub_mul az) (c 4%nat) (fun s => S128Sum_fmadd_u64 s (c 4%nat) (bz_left_lookup bz)) acc in
  let acc := guarded_add (not_add_sub_mul az) (c 5%nat) (fun s => S128Sum_fmadd_s64 s (c 5%nat) (left_lookup_minus_left_input bz)) acc in
  let acc := guarded_add (assert_flag az) (c 6%nat) (fun s => S128Sum_fmadd_s64 s (c 6%nat) (lookup_output_minus_one bz)) acc in
  let acc := guarded_add (az_should_jump az) (c 7%nat) (fun s => S128Sum_fmadd_s64 s (c 7%nat) (next_unexp_pc_minus_lookup_output bz)) acc in
  let acc := guarded_add (virtual_instr_not_last az) (c 8%nat) (fun s => S128Sum_fmadd_s64 s (c 8%nat) (next_pc_minus_pc_plus_one bz)) acc in
  let '(az_eval, bz_eval) :=
    guarded_add (must_start_sequence az) (c 9%nat) (fun s => S128Sum_fmadd_bool s (c 9%nat) (one_minus_do_not_update_unexpanded_pc bz)) acc in
  mul_trunc 3 az_eval bz_eval.

Definition extended_azbz_product_second_group (row : R1CSCycleInputs) (j : nat) : Z :=
  let c := coeff_at OUTER_COEFFS_PER_J j in
  let az := eval_az_second_group row in
  let bz := eval_bz_second_group row in
  let acc := (0, S192Sum_zero) in
  let acc := guarded_add (load_or_store az) (c 0%nat) (fun s => S192Sum_fmadd_i128 s (c 0%nat) (ram_addr_minus_rs1_plus_imm bz)) acc in
  let acc := guarded_add (az_add az) (c 1%nat) (fun s => S192Sum_fmadd_s160 s (c 1%nat) (right_lookup_minus_add_result bz)) acc in
  let acc := guarded_add (az_sub az) (c 2%nat) (fun s => S192Sum_fmadd_s160 s (c 2%nat) (right_lookup_minus_sub_result bz)) acc in
  let acc := guarded_add (az_mul az) (c 3%nat) (fun s => S192Sum_fmadd_s160 s (c 3%nat) (right_lookup_minus_product bz)) acc in
  let acc := guarded_add (not_add_sub_mul_advice az) (c 4%nat) (fun s => S192Sum_fmadd_s160 s (c 4%nat) (right_lookup_minus_right_input bz)) acc in
  let acc := guarded_add (write_lookup_to_rd az) (c 5%nat) (fun s => S192Sum_fmadd_s64 s (c 5%nat) (rd_write_minus_lookup_output bz)) acc in
  let acc := guarded_add (write_pc_to_rd az) (c 6%nat) (fun s => S192Sum_fmadd_s64 s (c 6%nat) (rd_write_minus_pc_plus_const bz)) acc in
  let acc := guarded_add (az_should_branch az) (c 7%nat) (fun s => S192Sum_fmadd_i128 s (c 7%nat) (next_unexp_pc_minus_pc_plus_imm bz)) acc in
  let '(az_eval, bz_eval) :=
    guarded_add (not_jump_or_branch az) (c 8%nat) (fun s => S192Sum_fmadd_s64 s (c 8%nat) (next_unexp_pc_minus_expected bz)) acc in
  mul_trunc 3 az_eval bz_eval.

(** The fused product constraints at the [j]th extended point; [i128] sums. *)
Definition extended_fused_product_at_j (row : ProductCycleInputs) (j : nat) : Z :=
  let c := coeff_at PRODUCT_VIRTUAL_COEFFS_PER_J j in
  let left_w := [as_i128 (c 0%nat * instruction_left_input row); as_i128 (c 1%nat * should_branch_lookup_output row);
                 if jump_flag row then c 2%nat else 0] in
  let right_w := [as_i128 (c 0%nat * instruction_right_input row); if should_branch_flag row then c 1%nat else 0;
                  if not_next_noop row then c 2%nat else 0] in
  let sum := fold_left (fun s x => as_i128 (s + x)) in
  mul_trunc 4 (sum left_w 0) (sum right_w 0).
End Evaluators.

(** ** Typed rows

    The row's fields are in their types' ranges and no program counter is at the
    edge of the address space; exclusive flags exclude each other. *)
Record typed_row (row : R1CSCycleInputs) : Prop := {
  row_words : Forall (in_u 64) [left_input row; left_lookup row; lookup_output row; rs1_read_value row;
    rs2_read_value row; rd_write_value row; ram_addr row; ram_read_value row; ram_write_value row; pc row;
    next_pc row; unexpanded_pc row; next_unexpanded_pc row];
  row_right_lookup : in_u 128 (right_lookup row);
  row_signed : Z.abs (right_input row) < 2 ^ 64 /\ Z.abs (imm row) < 2 ^ 64 /\ Z.abs (product row) < 2 ^ 128;
  row_pc : pc row + 1 < 2 ^ 64;
  row_unexpanded : 2 <= unexpanded_pc row < 2 ^ 64 - 4
}.
Record exclusive_flags (row : R1CSCycleInputs) : Prop := {
  excl_memory : Witness.flags row Load && Witness.flags row Store = false;
  excl_operands : (b2z (Witness.flags row AddOperands) + b2z (Witness.flags row SubtractOperands)
    + b2z (Witness.flags row MultiplyOperands) + b2z (Witness.flags row Advice) <= 1);
  excl_last : Witness.flags row IsLastInSequence = true -> Witness.flags row VirtualInstruction = true;
  excl_first : next_is_first_in_sequence row = true -> next_is_virtual row = true;
  excl_branch : Witness.flags row Jump && should_branch row = false
}.

(** The guards and magnitudes of a group in the order of its constraints. *)
Definition az_first (a : AzFirstGroup) : list bool :=
  [not_load_store a; load_a a; load_b a; store a; add_sub_mul a; not_add_sub_mul a; assert_flag a;
   az_should_jump a; virtual_instr_not_last a; must_start_sequence a].
Definition bz_first (b : BzFirstGroup) : list Z :=
  [bz_ram_addr b; ram_read_minus_ram_write b; ram_read_minus_rd_write b; rs2_minus_ram_write b; bz_left_lookup b;
   left_lookup_minus_left_input b; lookup_output_minus_one b; next_unexp_pc_minus_lookup_output b;
   next_pc_minus_pc_plus_one b; b2z (one_minus_do_not_update_unexpanded_pc b)].
Definition az_second (a : AzSecondGroup) : list bool :=
  [load_or_store a; az_add a; az_sub a; az_mul a; not_add_sub_mul_advice a; write_lookup_to_rd a; write_pc_to_rd a;
   az_should_branch a; not_jump_or_branch a].
Definition bz_second (b : BzSecondGroup) : list Z :=
  [ram_addr_minus_rs1_plus_imm b; right_lookup_minus_add_result b; right_lookup_minus_sub_result b;
   right_lookup_minus_product b; right_lookup_minus_right_input b; rd_write_minus_lookup_output b;
   rd_write_minus_pc_plus_const b; next_unexp_pc_minus_pc_plus_imm b; next_unexp_pc_minus_expected b].

(** A side of a group's constraints on a row, by their linear combinations. *)
Definition group_values (side : R1CSConstraint -> LC) (group : list NamedR1CSConstraint) (row : R1CSCycleInputs) : list Z :=
  map (fun k => dot_product (F := Z) (side (cons k)) (row_vector (input_value row)) NUM_R1CS_INPUTS) group.

Ltac compute_group G :=
  unfold group_values; let t := eval vm_compute in G in change G with t;
  cbn [map cons cons_a cons_b dot_product]; unfold term_at, at_, NUM_R1CS_INPUTS;
  cbn [row_vector map app nth length ALL_R1CS_INPUTS input_index coeff Field.add Field.mul zero from_u64 ZOps input_value].
Ltac list_equal := repeat (apply f_equal2; [|]); try reflexivity.

Section Agreement.
Context `{SB : SignedBigInt} (row : R1CSCycleInputs).

Lemma az_first_agrees : exclusive_flags row ->
  map b2z (az_first (eval_az_first_group row)) = group_values cons_a R1CS_CONSTRAINTS_FIRST_GROUP row.
Proof.
  intros [Hm Ho Hl Hf _]. compute_group R1CS_CONSTRAINTS_FIRST_GROUP.
  unfold az_first, eval_az_first_group. cbn [not_load_store load_a load_b store add_sub_mul not_add_sub_mul assert_flag
    az_should_jump virtual_instr_not_last must_start_sequence map].
  destruct (Witness.flags row Load), (Witness.flags row Store); try discriminate Hm;
    list_equal; cbn [b2z orb negb] in *; try lia;
    destruct (Witness.flags row AddOperands), (Witness.flags row SubtractOperands), (Witness.flags row MultiplyOperands),
      (Witness.flags row Advice); cbn [b2z orb negb] in *; try lia;
    destruct (Witness.flags row IsLastInSequence), (next_is_first_in_sequence row), (Witness.flags row VirtualInstruction), (next_is_virtual row);
    try (by specialize (Hl eq_refl)); try (by specialize (Hf eq_refl)); cbn [b2z orb andb negb] in *; lia.
Qed.

Lemma az_second_agrees : exclusive_flags row ->
  map b2z (az_second (eval_az_second_group row)) = group_values cons_a R1CS_CONSTRAINTS_SECOND_GROUP row.
Proof.
  intros [Hm Ho _ _ Hb]. compute_group R1CS_CONSTRAINTS_SECOND_GROUP.
  unfold az_second, eval_az_second_group. cbn [load_or_store az_add az_sub az_mul not_add_sub_mul_advice
    write_lookup_to_rd write_pc_to_rd az_should_branch not_jump_or_branch map].
  list_equal;
    repeat match goal with |- context [Witness.flags row ?f] => destruct (Witness.flags row f) eqn:? end;
    repeat match goal with |- context [should_branch row] => destruct (should_branch row) eqn:? end;
    cbn [b2z orb andb negb] in *; try discriminate; lia.
Qed.

Lemma bz_first_agrees : typed_row row ->
  bz_first (eval_bz_first_group row) = group_values cons_b R1CS_CONSTRAINTS_FIRST_GROUP row.
Proof.
  intros [Hw _ _ Hp _]. rewrite !list.Forall_cons in Hw. destruct Hw as (?&?&?&?&?&?&?&?&?&?&?&?&?&_).
  compute_group R1CS_CONSTRAINTS_FIRST_GROUP.
  unfold bz_first, eval_bz_first_group. cbn [bz_ram_addr ram_read_minus_ram_write ram_read_minus_rd_write rs2_minus_ram_write
    bz_left_lookup left_lookup_minus_left_input lookup_output_minus_one next_unexp_pc_minus_lookup_output
    next_pc_minus_pc_plus_one one_minus_do_not_update_unexpanded_pc].
  rewrite (wrapu_small 64 (pc row + 1)) by (unfold in_u in *; lia).
  rewrite !s64_from_diff_exact by (done || unfold in_u in *; lia).
  list_equal; try lia. destruct (Witness.flags row DoNotUpdateUnexpandedPC); reflexivity.
Qed.

Lemma bz_second_agrees : typed_row row ->
  bz_second (eval_bz_second_group row) = group_values cons_b R1CS_CONSTRAINTS_SECOND_GROUP row.
Proof.
  intros [Hw Hr (Hy & Hi & Hpr) _ Hu]. rewrite !list.Forall_cons in Hw. destruct Hw as (?&?&?&?&?&?&?&?&?&?&?&?&?&_).
  compute_group R1CS_CONSTRAINTS_SECOND_GROUP.
  unfold bz_second, eval_bz_second_group. cbv zeta. cbn [ram_addr_minus_rs1_plus_imm right_lookup_minus_add_result
    right_lookup_minus_sub_result right_lookup_minus_product right_lookup_minus_right_input rd_write_minus_lookup_output
    rd_write_minus_pc_plus_const next_unexp_pc_minus_pc_plus_imm next_unexp_pc_minus_expected].
  assert (Hs : forall z, - 2 ^ 127 <= z < 2 ^ 127 -> as_i128 z = z) by (intros; by apply (wraps_small 128 eq_refl)).
  assert (Hpc : forall k, - 2 <= k <= 4 -> as_u64 (unexpanded_pc row + as_u64 k) = unexpanded_pc row + k).
  { intros k Hk. rewrite wrapu_add_r. apply wrapu_small. unfold in_u. lia. }
  assert (Ha : (if 0 <? imm row then as_i128 (as_u128 (rs1_read_value row + Z.abs (imm row)))
                else as_i128 (rs1_read_value row - Z.abs (imm row))) = rs1_read_value row + imm row).
  { unfold in_u in *. destruct (Z.ltb_spec 0 (imm row)); [rewrite wrapu_small by (unfold in_u; lia)|]; rewrite Hs; lia. }
  rewrite Ha. clear Ha. unfold in_u in *. rewrite !(Hs (left_input row + right_input row)), !(Hs (left_input row - right_input row)),
    !(Hs (_ + 2 ^ 64)), !(Hs (unexpanded_pc row + imm row)) by lia.
  rewrite !Hs by lia. rewrite !sub_trunc_exact by lia.
  rewrite !Hpc by (destruct (Witness.flags row IsCompressed), (Witness.flags row DoNotUpdateUnexpandedPC); lia).
  rewrite !s64_from_diff_exact by
    (unfold in_u; try done; destruct (Witness.flags row IsCompressed), (Witness.flags row DoNotUpdateUnexpandedPC); lia).
  list_equal; try lia; destruct (Witness.flags row IsCompressed), (Witness.flags row DoNotUpdateUnexpandedPC); cbn [b2z]; lia.
Qed.
End Agreement.

(** ** Weighted sums of a group, in the accumulators *)

Section AtR.
Context {F : Type} `{HM : MontField F} `{SB : SignedBigInt}.
Add Ring Fring2 : (@field_ring F _ _).

Definition AzFirstGroup_fmadd_at_r (self : AzFirstGroup) (w : list F) (acc : SmallAccumU) : SmallAccumU :=
  let acc := SmallAccumU_fmadd_bool acc (at_ w 0) (not_load_store self) in
  let acc := SmallAccumU_fmadd_bool acc (at_ w 1) (load_a self) in
  let acc := SmallAccumU_fmadd_bool acc (at_ w 2) (load_b self) in
  let acc := SmallAccumU_fmadd_bool acc (at_ w 3) (store self) in
  let acc := SmallAccumU_fmadd_bool acc (at_ w 4) (add_sub_mul self) in
  let acc := SmallAccumU_fmadd_bool acc (at_ w 5) (not_add_sub_mul self) in
  let acc := SmallAccumU_fmadd_bool acc (at_ w 6) (assert_flag self) in
  let acc := SmallAccumU_fmadd_bool acc (at_ w 7) (az_should_jump self) in
  let acc := SmallAccumU_fmadd_bool acc (at_ w 8) (virtual_instr_not_last self) in
  SmallAccumU_fmadd_bool acc (at_ w 9) (must_start_sequence self).

Definition BzFirstGroup_fmadd_at_r (self : BzFirstGroup) (w : list F) (acc : MedAccumS) : MedAccumS :=
  let acc := MedAccumS_fmadd_u64 acc (at_ w 0) (bz_ram_addr self) in
  let acc := MedAccumS_fmadd_s64 acc (at_ w 1) (ram_read_minus_ram_write self) in
  let acc := MedAccumS_fmadd_s64 acc (at_ w 2) (ram_read_minus_rd_write self) in
  let acc := MedAccumS_fmadd_s64 acc (at_ w 3) (rs2_minus_ram_write self) in
  let acc := MedAccumS_fmadd_u64 acc (at_ w 4) (bz_left_lookup self) in
  let acc := MedAccumS_fmadd_s64 acc (at_ w 5) (left_lookup_minus_left_input self) in
  let acc := MedAccumS_fmadd_s64 acc (at_ w 6) (lookup_output_minus_one self) in
  let acc := MedAccumS_fmadd_s64 acc (at_ w 7) (next_unexp_pc_minus_lookup_output self) in
  let acc := MedAccumS_fmadd_s64 acc (at_ w 8) (next_pc_minus_pc_plus_one self) in
  MedAccumS_fmadd_bool acc (at_ w 9) (one_minus_do_not_update_unexpanded_pc self).

Definition AzSecondGroup_fmadd_at_r (self : AzSecondGroup) (w : list F) (acc : SmallAccumU) : SmallAccumU :=
  let acc := SmallAccumU_fmadd_bool acc (at_ w 0) (load_or_store self) in
  let acc := SmallAccumU_fmadd_bool acc (at_ w 1) (az_add self) in
  let acc := SmallAccumU_fmadd_bool acc (at_ w 2) (az_sub self) in
  let acc := SmallAccumU_fmadd_bool acc (at_ w 3) (az_mul self) in
  let acc := SmallAccumU_fmadd_bool acc (at_ w 4) (not_add_sub_mul_advice self) in
  let acc := SmallAccumU_fmadd_bool acc (at_ w 5) (write_lookup_to_rd self) in
  let acc := SmallAccumU_fmadd_bool acc (at_ w 6) (write_pc_to_rd self) in
  let acc := SmallAccumU_fmadd_bool acc (at_ w 7) (az_should_branch self) in
  SmallAccumU_fmadd_bool acc (at_ w 8) (not_jump_or_branch self).

Definition BzSecondGroup_fmadd_at_r (self : BzSecondGroup) (w : list F) (acc : WideAccumS) : WideAccumS :=
  let acc := WideAccumS_fmadd_i128 acc (at_ w 0) (ram_addr_minus_rs1_plus_imm self) in
  let acc := WideAccumS_fmadd_s160 acc (at_ w 1) (right_lookup_minus_add_result self) in
  let acc := WideAccumS_fmadd_s160 acc (at_ w 2) (right_lookup_minus_sub_result self) in
  let acc := WideAccumS_fmadd_s160 acc (at_ w 3) (right_lookup_minus_product self) in
  let acc := WideAccumS_fmadd_s160 acc (at_ w 4) (right_lookup_minus_right_input self) in
  let acc := WideAccumS_fmadd_s64 acc (at_ w 5) (rd_write_minus_lookup_output self) in
  let acc := WideAccumS_fmadd_s64 acc (at_ w 6) (rd_write_minus_pc_plus_const self) in
  let acc := WideAccumS_fmadd_i128 acc (at_ w 7) (next_unexp_pc_minus_pc_plus_imm self) in
  WideAccumS_fmadd_s64 acc (at_ w 8) (next_unexp_pc_minus_expected self).

(** The evaluators at the weights [w]: the same fused multiply-adds from zero,
    then the reduction. *)
Definition az_at_r_first_group (row : R1CSCycleInputs) (w : list F) : F :=
  SmallAccumU_barrett_reduce (AzFirstGroup_fmadd_at_r (eval_az_first_group row) w SmallAccumU_zero).
Definition bz_at_r_first_group (row : R1CSCycleInputs) (w : list F) : F :=
  MedAccumS_barrett_reduce (BzFirstGroup_fmadd_at_r (eval_bz_first_group row) w MedAccumS_zero).
Definition az_at_r_second_group (row : R1CSCycleInputs) (w : list F) : F :=
  SmallAccumU_barrett_reduce (AzSecondGroup_fmadd_at_r (eval_az_second_group row) w SmallAccumU_zero).
Definition bz_at_r_second_group (row : R1CSCycleInputs) (w : list F) : F :=
  WideAccumS_barrett_reduce (BzSecondGroup_fmadd_at_r (eval_bz_second_group row) w WideAccumS_zero).

Definition fmadd_first_group_at_r (row : R1CSCycleInputs) (w : list F) (acc : SmallAccumU * MedAccumS) : SmallAccumU * MedAccumS :=
  (AzFirstGroup_fmadd_at_r (eval_az_first_group row) w acc.1, BzFirstGroup_fmadd_at_r (eval_bz_first_group row) w acc.2).
Definition fmadd_second_group_at_r (row : R1CSCycleInputs) (w : list F) (acc : SmallAccumU * WideAccumS) : SmallAccumU * WideAccumS :=
  (AzSecondGroup_fmadd_at_r (eval_az_second_group row) w acc.1, BzSecondGroup_fmadd_at_r (eval_bz_second_group row) w acc.2).

(** The fused factors of the product constraints at three weights. *)
Definition fused_left_right_at_r (row : ProductCycleInputs) (w : list F) : F * F :=
  let left_acc := MedAccumU_fmadd_u64 MedAccumU_zero (at_ w 0) (instruction_left_input row) in
  let left_acc := MedAccumU_fmadd_u64 left_acc (at_ w 1) (should_branch_lookup_output row) in
  let left_acc := MedAccumU_fmadd_bool left_acc (at_ w 2) (jump_flag row) in
  let right_acc := MedAccumS_fmadd_i128 MedAccumS_zero (at_ w 0) (instruction_right_input row) in
  let right_acc := MedAccumS_fmadd_bool right_acc (at_ w 1) (should_branch_flag row) in
  let right_acc := MedAccumS_fmadd_bool right_acc (at_ w 2) (not_next_noop row) in
  (MedAccumU_barrett_reduce left_acc, MedAccumS_barrett_reduce right_acc).

(** *** The sums *)

(** [Σ w_i * v_i] over a list of integers, in the field. *)
Definition weigh (w : list F) (vs : list Z) : F :=
  fold_left (fun s '(i, v) => add s (mul (at_ w i) (from_u64 v))) (zip (seq 0 (length vs)) vs) zero.

Definition terms_at (w : list F) (vs : list Scalar) : list (F * Scalar) :=
  zip_with (fun i v => (at_ w i, v)) (seq 0 (length vs)) vs.

Lemma dot_weigh w vs : dot_scalars (terms_at w vs) = weigh w (map scalar_value vs).
Proof.
  unfold dot_scalars, terms_at, weigh. rewrite length_map. generalize (seq 0 (length vs)) as l. generalize (zero : F) as z.
  induction vs as [|v vs IH]; intros z [|i l]; try done. cbn. apply IH.
Qed.

(** A tier that takes every scalar of a list computes their weighted sum. *)
Lemma tier_at_r {A} {HA : Accumulator F A} (w : list F) vs acc :
  Forall scalar_ok vs -> Z.of_nat (length vs) <= 2 ^ 64 ->
  fold_left (fun s v => s + Z.abs v) (map scalar_value vs) 0 <= acc_budget ->
  fmadd_all (terms_at w vs) acc_zero = Some acc ->
  acc_reduce acc = mul (weigh w (map scalar_value vs)) acc_scale.
Proof.
  intros Hok Hl Hc Hf. rewrite <- dot_weigh. eapply holds_reduce; [|exact Hc].
  assert (Hlen : length (terms_at w vs) = length vs) by (unfold terms_at; rewrite length_zip_with, length_seq; lia).
  pose proof (fmadd_all_holds (terms_at w vs) 0 0 zero acc_zero acc holds_zero) as H0.
  rewrite Hlen in H0. replace (fold_left (fun s v => s + Z.abs v) (map scalar_value vs) 0)
    with (fold_left (fun s '(_, v) => s + Z.abs (scalar_value v)) (terms_at w vs) 0).
  - eapply H0; [|lia|done]. clear -Hok. unfold terms_at. generalize (seq 0 (length vs)).
    induction Hok as [|v vs Hv _ IH]; intros [|i l]; cbn; constructor; [done|apply IH].
  - clear. unfold terms_at. generalize 0%nat as n, 0 as z.
    induction vs as [|v vs IH]; intros n z; cbn; [done|apply IH].
Qed.

(** The evaluators' sums. *)
Lemma bools_at_r {A} {HA : Accumulator F A} (w : list F) (bs : list bool) acc :
  (length bs <= 16)%nat -> 16 <= acc_budget -> fmadd_all (terms_at w (map Bool bs)) acc_zero = Some acc ->
  acc_reduce acc = mul (weigh w (map b2z bs)) acc_scale.
Proof.
  intros Hl Hb Hf. assert (Hm : map scalar_value (map Bool bs) = map b2z bs) by (rewrite map_map; done).
  rewrite <- Hm. apply tier_at_r; [clear; by induction bs; constructor|rewrite length_map; lia| |done].
  rewrite Hm. assert (Hs : forall z, z <= fold_left (fun s v => s + Z.abs v) (map b2z bs) z <= z + Z.of_nat (length bs)).
  { clear. induction bs as [|b bs IH]; intros z; cbn [map fold_left length]; [lia|]. specialize (IH (z + Z.abs (b2z b))).
    pose proof (b2z_range b). lia. }
  specialize (Hs 0). lia.
Qed.

Lemma az_at_r_first_group_spec row w :
  az_at_r_first_group row w = weigh w (map b2z (az_first (eval_az_first_group row))).
Proof.
  unfold az_at_r_first_group.
  etransitivity; [apply (bools_at_r (HA := SmallAccumU_accumulator) w (az_first (eval_az_first_group row))
      (AzFirstGroup_fmadd_at_r (eval_az_first_group row) w SmallAccumU_zero));
    [cbn; lia|vm_compute; discriminate|reflexivity]|]. cbn [acc_scale SmallAccumU_accumulator]. ring.
Qed.
Lemma az_at_r_second_group_spec row w :
  az_at_r_second_group row w = weigh w (map b2z (az_second (eval_az_second_group row))).
Proof.
  unfold az_at_r_second_group.
  etransitivity; [apply (bools_at_r (HA := SmallAccumU_accumulator) w (az_second (eval_az_second_group row))
      (AzSecondGroup_fmadd_at_r (eval_az_second_group row) w SmallAccumU_zero));
    [cbn; lia|vm_compute; discriminate|reflexivity]|]. cbn [acc_scale SmallAccumU_accumulator]. ring.
Qed.

(** The magnitudes of a typed row are as small as the accumulators assume. *)
Lemma bz_first_scalars row : typed_row row ->
  let b := eval_bz_first_group row in
  Forall (fun v => Z.abs v < 2 ^ 64) (bz_first b) /\ in_u 64 (bz_ram_addr b) /\ in_u 64 (bz_left_lookup b).
Proof.
  intros [Hw _ _ Hp _]. rewrite !list.Forall_cons in Hw. destruct Hw as (?&?&?&?&?&?&?&?&?&?&?&?&?&_). cbv zeta.
  split; [|done]. unfold bz_first, eval_bz_first_group. cbn [bz_ram_addr ram_read_minus_ram_write ram_read_minus_rd_write rs2_minus_ram_write
    bz_left_lookup left_lookup_minus_left_input lookup_output_minus_one next_unexp_pc_minus_lookup_output
    next_pc_minus_pc_plus_one one_minus_do_not_update_unexpanded_pc].
  rewrite (wrapu_small 64 (pc row + 1)) by (unfold in_u in *; lia).
  rewrite !s64_from_diff_exact by (done || unfold in_u in *; lia).
  repeat (constructor; [unfold in_u in *; try lia|]); [|constructor].
  destruct (Witness.flags row DoNotUpdateUnexpandedPC); cbn; lia.
Qed.

Lemma bz_second_scalars row : typed_row row ->
  let b := eval_bz_second_group row in
  Forall (fun v => Z.abs v < 2 ^ 130) (bz_second b) /\
  Forall (fun v => Z.abs v < 2 ^ 66) [ram_addr_minus_rs1_plus_imm b; next_unexp_pc_minus_pc_plus_imm b] /\
  Forall (fun v => Z.abs v < 2 ^ 64) [rd_write_minus_lookup_output b; rd_write_minus_pc_plus_const b; next_unexp_pc_minus_expected b].
Proof.
  intros Hr. pose proof (bz_second_agrees row Hr) as E. destruct Hr as [Hw Hr (Hy & Hi & Hpr) _ Hu].
  rewrite !list.Forall_cons in Hw. destruct Hw as (?&?&?&?&?&?&?&?&?&?&?&?&?&_). cbv zeta.
  revert E. generalize (eval_bz_second_group row) as b. intros b. unfold bz_second at 1.
  compute_group R1CS_CONSTRAINTS_SECOND_GROUP. intros [= E0 E1 E2 E3 E4 E5 E6 E7 E8]. unfold bz_second. rewrite E0, E1, E2, E3, E4, E5, E6, E7, E8.
  clear E0 E1 E2 E3 E4 E5 E6 E7 E8. unfold in_u in *.
  destruct (Witness.flags row IsCompressed), (Witness.flags row DoNotUpdateUnexpandedPC); cbn [b2z];
    (split; [|split]); repeat (constructor; [lia|]); constructor.
Qed.

Lemma bz_at_r_first_group_spec row w : typed_row row ->
  bz_at_r_first_group row w = weigh w (bz_first (eval_bz_first_group row)).
Proof.
  intros Hr. destruct (bz_first_scalars row Hr) as (Hb & Ha & Hl). unfold bz_at_r_first_group.
  set (b := eval_bz_first_group row) in *. unfold bz_first in Hb. rewrite !list.Forall_cons in Hb.
  destruct Hb as (?&?&?&?&?&?&?&?&?&?&_).
  pose (vs := [U64 (bz_ram_addr b); S64 (ram_read_minus_ram_write b); S64 (ram_read_minus_rd_write b); S64 (rs2_minus_ram_write b);
    U64 (bz_left_lookup b); S64 (left_lookup_minus_left_input b); S64 (lookup_output_minus_one b);
    S64 (next_unexp_pc_minus_lookup_output b); S64 (next_pc_minus_pc_plus_one b); Bool (one_minus_do_not_update_unexpanded_pc b)]).
  transitivity (mul (weigh w (map scalar_value vs)) one); [|cbn [map scalar_value vs]; unfold bz_first; ring].
  apply (tier_at_r (HA := MedAccumS_accumulator) w vs (BzFirstGroup_fmadd_at_r b w MedAccumS_zero)); [| |
    |reflexivity].
  - unfold vs. repeat (constructor; [done|]). constructor.
  - vm_compute. discriminate.
  - cbn [vs map scalar_value fold_left]. change (acc_budget (A := MedAccumS)) with (2 ^ 130). lia.
Qed.

Lemma bz_at_r_second_group_spec row w : typed_row row ->
  bz_at_r_second_group row w = weigh w (bz_second (eval_bz_second_group row)).
Proof.
  intros Hr. destruct (bz_second_scalars row Hr) as (Hb & Ha & Hl). unfold bz_at_r_second_group.
  set (b := eval_bz_second_group row) in *. unfold bz_second in Hb. rewrite !list.Forall_cons in Hb. rewrite !list.Forall_cons in Ha. rewrite !list.Forall_cons in Hl.
  destruct Hb as (?&?&?&?&?&?&?&?&?&_), Ha as (?&?&_), Hl as (?&?&?&_).
  pose (vs := [I128 (ram_addr_minus_rs1_plus_imm b); S160 (right_lookup_minus_add_result b); S160 (right_lookup_minus_sub_result b);
    S160 (right_lookup_minus_product b); S160 (right_lookup_minus_right_input b); S64 (rd_write_minus_lookup_output b);
    S64 (rd_write_minus_pc_plus_const b); I128 (next_unexp_pc_minus_pc_plus_imm b); S64 (next_unexp_pc_minus_expected b)]).
  transitivity (mul (weigh w (map scalar_value vs)) one); [|cbn [map scalar_value vs]; unfold bz_second; ring].
  apply (tier_at_r (HA := WideAccumS_accumulator) w vs (BzSecondGroup_fmadd_at_r b w WideAccumS_zero)); [| |
    |reflexivity].
  - unfold vs. repeat (constructor; [first [done|unfold scalar_ok, in_s; lia]|]). constructor.
  - vm_compute. discriminate.
  - cbn [vs map scalar_value fold_left]. change (acc_budget (A := WideAccumS)) with (2 ^ 194). lia.
Qed.

(** C15: on a typed row with exclusive flags, the evaluators of both groups
    return the weighted sums of the two sides of the group's constraints, as the
    tables of linear combinations define them, in any field. *)
Theorem evaluators_match_constraints row (w : list F) :
  typed_row row -> exclusive_flags row ->
  az_at_r_first_group row w = weigh w (group_values cons_a R1CS_CONSTRAINTS_FIRST_GROUP row) /\
  bz_at_r_first_group row w = weigh w (group_values cons_b R1CS_CONSTRAINTS_FIRST_GROUP row) /\
  az_at_r_second_group row w = weigh w (group_values cons_a R1CS_CONSTRAINTS_SECOND_GROUP row) /\
  bz_at_r_second_group row w = weigh w (group_values cons_b R1CS_CONSTRAINTS_SECOND_GROUP row).
Proof.
  intros Hr He. rewrite az_at_r_first_group_spec, az_at_r_second_group_spec by done.
  rewrite bz_at_r_first_group_spec, bz_at_r_second_group_spec by done.
  by rewrite az_first_agrees, az_second_agrees, bz_first_agrees, bz_second_agrees.
Qed.
End AtR.

(** ** The extended points *)

Section Extended.
Context `{SB : SignedBigInt}.

(** The coefficients of the tables are below [2^18]. *)
Lemma outer_coeff_small j i : Z.abs (coeff_at OUTER_COEFFS_PER_J j i) <= 2 ^ 18.
Proof.
  assert (Ht : forallb (forallb (fun c => Z.abs c <=? 2 ^ 18)) OUTER_COEFFS_PER_J = true) by (vm_compute; reflexivity).
  unfold coeff_at. rewrite forallb_forall in Ht.
  destruct (nth_in_or_default j OUTER_COEFFS_PER_J []) as [Hj| ->]; [|by destruct i].
  specialize (Ht _ Hj). rewrite forallb_forall in Ht.
  destruct (nth_in_or_default i (nth j OUTER_COEFFS_PER_J []) 0) as [Hi| ->]; [|done].
  apply Z.leb_le, Ht, Hi.
Qed.

Lemma in_s_32_small c : Z.abs c <= 2 ^ 18 -> in_s 32 c.
Proof. unfold in_s. lia. Qed.

(** One guarded addition, as data: the guard, the coefficient, the magnitude and
    its fused multiply-add. *)
Record step := { s_az : bool; s_c : Z; s_bz : Z; s_fmadd : Z -> Z }.
Definition guarded_sum (l : list step) (acc : Z * Z) : Z * Z :=
  fold_left (fun acc s => guarded_add (s_az s) (s_c s) (s_fmadd s) acc) l acc.
(** What the constraint and the accumulator's width give of a step. *)
Definition step_ok (M L : Z) (s : step) : Prop :=
  Z.abs (s_c s) <= 2 ^ 18 /\ Z.abs (s_bz s) <= M /\ (s_az s = true -> s_bz s = 0) /\
  (forall t, Z.abs (t + s_c s * s_bz s) < L -> s_fmadd s t = t + s_c s * s_bz s).

Lemma guarded_sum_exact M L l A B : 0 <= M ->
  Forall (step_ok M L) l -> Z.abs A + Z.of_nat (length l) * 2 ^ 18 < 2 ^ 31 ->
  Z.abs B + Z.of_nat (length l) * (2 ^ 18 * M) < L ->
  guarded_sum l (A, B) =
    (A + weighted_Z (map s_c l) (map (fun s => b2z (s_az s)) l), B + weighted_Z (map s_c l) (map s_bz l)).
Proof.
  intros HM Hl. unfold weighted_Z. revert A B. induction Hl as [|s l (Hc & Hb & Hz & Hf) _ IH]; intros A B HA HB;
    cbn [guarded_sum fold_left map weighted length] in *.
  { f_equal; cbn; lia. }
  assert (Hcb : Z.abs (s_c s * s_bz s) <= 2 ^ 18 * M) by (rewrite Z.abs_mul; apply Z.mul_le_mono_nonneg; lia).
  assert (Hstep : guarded_add (s_az s) (s_c s) (s_fmadd s) (A, B) = (A + s_c s * b2z (s_az s), B + s_c s * s_bz s)).
  { unfold guarded_add. destruct (s_az s) eqn:E; cbn [b2z].
    - rewrite (wraps_small 32 eq_refl) by (unfold in_s; lia). rewrite (Hz eq_refl). f_equal; ring.
    - rewrite Hf by lia. f_equal; ring. }
  rewrite Hstep. unfold guarded_sum in IH. pose proof (b2z_range (s_az s)).
  rewrite IH by (try destruct (s_az s); cbn [b2z]; lia). cbn [Field.add Field.mul ZOps]. f_equal; ring.
Qed.

Lemma weighted_bound M w v : 0 <= M -> Forall (fun c => Z.abs c <= 2 ^ 18) w -> Forall (fun b => Z.abs b <= M) v ->
  Z.abs (weighted_Z w v) <= Z.of_nat (length v) * (2 ^ 18 * M).
Proof.
  intros HM Hw Hv. unfold weighted_Z. revert v Hv. induction Hw as [|c w Hc _ IH]; intros [|b v] Hv; cbn [weighted length]; try (cbn; nia).
  apply list.Forall_cons in Hv as [Hb Hv]. specialize (IH v Hv). cbn [Field.add Field.mul ZOps].
  assert (Hcb : Z.abs (c * b) <= 2 ^ 18 * M) by (rewrite Z.abs_mul; apply Z.mul_le_mono_nonneg; lia). lia.
Qed.

(** The product of the two sums does not exceed three limbs. *)
Lemma guarded_product M L l : 0 <= M < 2 ^ 140 -> (length l <= 10)%nat -> Forall (step_ok M L) l ->
  10 * (2 ^ 18 * M) < L ->
  (let '(a, b) := guarded_sum l (0, 0) in mul_trunc 3 a b) =
  weighted_Z (map s_c l) (map (fun s => b2z (s_az s)) l) * weighted_Z (map s_c l) (map s_bz l).
Proof.
  intros HM Hn Hl HL. rewrite (guarded_sum_exact M L) by (try done; nia). cbv beta iota. rewrite !Z.add_0_l.
  assert (Hw : Forall (fun c => Z.abs c <= 2 ^ 18) (map s_c l)).
  { clear -Hl. induction Hl as [|s l Hs _ IH]; cbn; constructor; [apply Hs|done]. }
  assert (Ha : Forall (fun b => Z.abs b <= 1) (map (fun s => b2z (s_az s)) l)).
  { clear. induction l as [|s l IH]; cbn; constructor; [by destruct (s_az s)|done]. }
  assert (Hb : Forall (fun b => Z.abs b <= M) (map s_bz l)).
  { clear -Hl. induction Hl as [|s l Hs _ IH]; cbn; constructor; [apply Hs|done]. }
  pose proof (weighted_bound 1 _ _ ltac:(lia) Hw Ha) as Ha'. pose proof (weighted_bound M _ _ ltac:(lia) Hw Hb) as Hb'.
  rewrite length_map in Ha', Hb'. clear Ha Hb.
  apply mul_trunc_exact. change (64 * Z.of_nat 3) with 192.
  revert Ha' Hb'. generalize (weighted_Z (map s_c l) (map (fun s => b2z (s_az s)) l)) as a, (weighted_Z (map s_c l) (map s_bz l)) as b.
  intros a b Ha Hb. rewrite Z.abs_mul. apply Z.le_lt_trans with ((10 * 2 ^ 18) * (10 * (2 ^ 18 * 2 ^ 140))); [|reflexivity].
  apply Z.mul_le_mono_nonneg; nia.
Qed.

(** *** A satisfied row *)

Lemma satisfied_products (G : list NamedR1CSConstraint) row :
  Forall (fun k => satisfied (cons k) (row_vector (input_value row))) G ->
  Forall2 (fun a b => a * b = 0) (group_values cons_a G row) (group_values cons_b G row).
Proof. unfold group_values. induction 1 as [|k G Hk _ IH]; cbn [map]; constructor; [exact Hk|exact IH]. Qed.

Lemma guards_imply (az : list bool) (bz : list Z) :
  Forall2 (fun a b => a * b = 0) (map b2z az) bz -> Forall2 (fun a b => a = true -> b = 0) az bz.
Proof.
  revert bz. induction az as [|a az IH]; intros bz Hz; inversion Hz; subst; constructor; [|by apply IH].
  intros ->. cbn in *. lia.
Qed.

Lemma groups_satisfied row :
  Forall (fun k => satisfied (cons k) (row_vector (input_value row))) R1CS_CONSTRAINTS ->
  Forall (fun k => satisfied (cons k) (row_vector (input_value row))) R1CS_CONSTRAINTS_FIRST_GROUP /\
  Forall (fun k => satisfied (cons k) (row_vector (input_value row))) R1CS_CONSTRAINTS_SECOND_GROUP.
Proof.
  rewrite !list.Forall_forall. intros Hs.
  split; intros k Hk; apply Hs; eapply elem_of_sublist; try exact Hk;
    [apply (select_sublist _ _ _ _ first_group_selected)|apply (select_sublist _ _ _ _ second_group_selected)].
Qed.

Definition step_of (az : bool) (c : Z) (fmadd : Z -> Z) (bz : Z) : step :=
  {| s_az := az; s_c := c; s_bz := bz; s_fmadd := fmadd |}.

Lemma extended_first_sum row j :
  typed_row row -> exclusive_flags row ->
  Forall (fun k => satisfied (cons k) (row_vector (input_value row))) R1CS_CONSTRAINTS ->
  let w := map (coeff_at OUTER_COEFFS_PER_J j) (seq 0 10) in
  extended_azbz_product_first_group row j =
  weighted_Z w (group_values cons_a R1CS_CONSTRAINTS_FIRST_GROUP row) *
  weighted_Z w (group_values cons_b R1CS_CONSTRAINTS_FIRST_GROUP row).
Proof.
  intros Hr He Hs. cbv zeta. destruct (groups_satisfied row Hs) as [Hs1 _]. apply satisfied_products in Hs1.
  rewrite <- az_first_agrees, <- bz_first_agrees in * by done. apply guards_imply in Hs1.
  destruct (bz_first_scalars row Hr) as (Hb & Ha & Hl). pose proof (outer_coeff_small j) as Hc.
  unfold extended_azbz_product_first_group. revert Hs1 Hb Ha Hl Hc.
  generalize (eval_az_first_group row) as az, (eval_bz_first_group row) as bz, (coeff_at OUTER_COEFFS_PER_J j) as c.
  clear. intros az bz c Hs Hb Ha Hl Hc.
  pose (l := [step_of (not_load_store az) (c 0%nat) (fun s => S128Sum_fmadd_u64 s (c 0%nat) (bz_ram_addr bz)) (bz_ram_addr bz);
    step_of (load_a az) (c 1%nat) (fun s => S128Sum_fmadd_s64 s (c 1%nat) (ram_read_minus_ram_write bz)) (ram_read_minus_ram_write bz);
    step_of (load_b az) (c 2%nat) (fun s => S128Sum_fmadd_s64 s (c 2%nat) (ram_read_minus_rd_write bz)) (ram_read_minus_rd_write bz);
    step_of (store az) (c 3%nat) (fun s => S128Sum_fmadd_s64 s (c 3%nat) (rs2_minus_ram_write bz)) (rs2_minus_ram_write bz);
    step_of (add_sub_mul az) (c 4%nat) (fun s => S128Sum_fmadd_u64 s (c 4%nat) (bz_left_lookup bz)) (bz_left_lookup bz);
    step_of (not_add_sub_mul az) (c 5%nat) (fun s => S128Sum_fmadd_s64 s (c 5%nat) (left_lookup_minus_left_input bz)) (left_lookup_minus_left_input bz);
    step_of (assert_flag az) (c 6%nat) (fun s => S128Sum_fmadd_s64 s (c 6%nat) (lookup_output_minus_one bz)) (lookup_output_minus_one bz);
    step_of (az_should_jump az) (c 7%nat) (fun s => S128Sum_fmadd_s64 s (c 7%nat) (next_unexp_pc_minus_lookup_output bz)) (next_unexp_pc_minus_lookup_output bz);
    step_of (virtual_instr_not_last az) (c 8%nat) (fun s => S128Sum_fmadd_s64 s (c 8%nat) (next_pc_minus_pc_plus_one bz)) (next_pc_minus_pc_plus_one bz);
    step_of (must_start_sequence az) (c 9%nat) (fun s => S128Sum_fmadd_bool s (c 9%nat) (one_minus_do_not_update_unexpanded_pc bz))
      (b2z (one_minus_do_not_update_unexpanded_pc bz))]).
  apply (guarded_product (2 ^ 64) (2 ^ 128) l); [lia|cbn; lia| |lia].
  assert (Hstep : Forall2 (fun a b => a = true -> b = 0) (az_first az) (bz_first bz)) by exact Hs.
  unfold az_first, bz_first in Hstep, Hb. rewrite !list.Forall2_cons in Hstep. rewrite !list.Forall_cons in Hb.
  destruct Hstep as (?&?&?&?&?&?&?&?&?&?&_), Hb as (?&?&?&?&?&?&?&?&?&?&_).
  unfold l, step_ok, step_of. repeat apply list.Forall_cons_2; try apply list.Forall_nil_2; cbn [s_az s_c s_bz s_fmadd];
    (split; [apply Hc|split; [lia|split; [done|intros t Ht]]]);
    first [apply S128Sum_fmadd_u64_exact|apply S128Sum_fmadd_s64_exact|apply S128Sum_fmadd_bool_exact]; try done;
    (eapply in_s_32_small; apply Hc).
Qed.

Lemma extended_second_sum row j :
  typed_row row -> exclusive_flags row ->
  Forall (fun k => satisfied (cons k) (row_vector (input_value row))) R1CS_CONSTRAINTS ->
  let w := map (coeff_at OUTER_COEFFS_PER_J j) (seq 0 9) in
  extended_azbz_product_second_group row j =
  weighted_Z w (group_values cons_a R1CS_CONSTRAINTS_SECOND_GROUP row) *
  weighted_Z w (group_values cons_b R1CS_CONSTRAINTS_SECOND_GROUP row).
Proof.
  intros Hr He Hs. cbv zeta. destruct (groups_satisfied row Hs) as [_ Hs1]. apply satisfied_products in Hs1.
  rewrite <- az_second_agrees, <- bz_second_agrees in * by done. apply guards_imply in Hs1.
  destruct (bz_second_scalars row Hr) as (Hb & _ & _). pose proof (outer_coeff_small j) as Hc.
  unfold extended_azbz_product_second_group. revert Hs1 Hb Hc.
  generalize (eval_az_second_group row) as az, (eval_bz_second_group row) as bz, (coeff_at OUTER_COEFFS_PER_J j) as c.
  clear. intros az bz c Hs Hb Hc.
  pose (l := [step_of (load_or_store az) (c 0%nat) (fun s => S192Sum_fmadd_i128 s (c 0%nat) (ram_addr_minus_rs1_plus_imm bz)) (ram_addr_minus_rs1_plus_imm bz);
    step_of (az_add az) (c 1%nat) (fun s => S192Sum_fmadd_s160 s (c 1%nat) (right_lookup_minus_add_result bz)) (right_lookup_minus_add_result bz);
    step_of (az_sub az) (c 2%nat) (fun s => S192Sum_fmadd_s160 s (c 2%nat) (right_lookup_minus_sub_result bz)) (right_lookup_minus_sub_result bz);
    step_of (az_mul az) (c 3%nat) (fun s => S192Sum_fmadd_s160 s (c 3%nat) (right_lookup_minus_product bz)) (right_lookup_minus_product bz);
    step_of (not_add_sub_mul_advice az) (c 4%nat) (fun s => S192Sum_fmadd_s160 s (c 4%nat) (right_lookup_minus_right_input bz)) (right_lookup_minus_right_input bz);
    step_of (write_lookup_to_rd az) (c 5%nat) (fun s => S192Sum_fmadd_s64 s (c 5%nat) (rd_write_minus_lookup_output bz)) (rd_write_minus_lookup_output bz);
    step_of (write_pc_to_rd az) (c 6%nat) (fun s => S192Sum_fmadd_s64 s (c 6%nat) (rd_write_minus_pc_plus_const bz)) (rd_write_minus_pc_plus_const bz);
    step_of (az_should_branch az) (c 7%nat) (fun s => S192Sum_fmadd_i128 s (c 7%nat) (next_unexp_pc_minus_pc_plus_imm bz)) (next_unexp_pc_minus_pc_plus_imm bz);
    step_of (not_jump_or_branch az) (c 8%nat) (fun s => S192Sum_fmadd_s64 s (c 8%nat) (next_unexp_pc_minus_expected bz)) (next_unexp_pc_minus_expected bz)]).
  apply (guarded_product (2 ^ 130) (2 ^ 192) l); [lia|cbn; lia| |lia].
  assert (Hstep : Forall2 (fun a b => a = true -> b = 0) (az_second az) (bz_second bz)) by exact Hs.
  unfold az_second, bz_second in Hstep, Hb. rewrite !list.Forall2_cons in Hstep. rewrite !list.Forall_cons in Hb.
  destruct Hstep as (?&?&?&?&?&?&?&?&?&_), Hb as (?&?&?&?&?&?&?&?&?&_).
  unfold l, step_ok, step_of. repeat apply list.Forall_cons_2; try apply list.Forall_nil_2; cbn [s_az s_c s_bz s_fmadd];
    (split; [apply Hc|split; [lia|split; [done|intros t Ht]]]);
    (apply S192Sum_fmadd_exact; [by apply in_s_32_small|lia|done]).
Qed.

(** The tables extrapolate polynomials of the window's size. *)
Lemma outer_tables_extrapolate j t :
  UNISKIP_TARGETS OUTER_UNIVARIATE_SKIP_DOMAIN_SIZE OUTER_UNIVARIATE_SKIP_DEGREE !! j = Some t ->
  monomials_ok 10 (map (coeff_at OUTER_COEFFS_PER_J j) (seq 0 10)) (window 10) t = true.
Proof.
  assert (Ht : Forall (fun '(j, t) => monomials_ok 10 (map (coeff_at OUTER_COEFFS_PER_J j) (seq 0 10)) (window 10) t = true)
    (zip (seq 0 9) (uniskip_targets 10 9))) by decided.
  intros Hj. rewrite list.Forall_forall in Ht. apply (Ht (j, t)).
  assert (Hlt : (j < 9)%nat) by (apply lookup_lt_Some in Hj; exact Hj).
  apply list_elem_of_lookup. exists j. apply lookup_zip_Some. split; [|exact Hj]. by apply lookup_seq.
Qed.

Context {F : Type} `{HF : JoltField F}.

Lemma sum_extrapolates j t vs (p : list F) : length vs = 10%nat ->
  UNISKIP_TARGETS OUTER_UNIVARIATE_SKIP_DOMAIN_SIZE OUTER_UNIVARIATE_SKIP_DEGREE !! j = Some t ->
  (length p <= 10)%nat -> map (fun x => eval_poly p (from_u64 x)) (window 10) = map from_u64 vs ->
  from_u64 (weighted_Z (map (coeff_at OUTER_COEFFS_PER_J j) (seq 0 10)) vs) = eval_poly p (from_u64 t).
Proof.
  intros Hl Hj Hp Hv. rewrite <- weighted_from, <- Hv. eapply weights_extrapolate; [by apply outer_tables_extrapolate|done].
Qed.

(** The values of a group on the ten points of the window; the second group is
    one short and the missing constraint counts as zero. *)
Definition on_window (vs : list Z) : list F := map from_u64 (vs ++ repeat 0 (10 - length vs)).

(** C16: the univariate-skip products are the values of the interpolated
    polynomials: for a typed row with exclusive flags that satisfies the
    constraints, if [pa] and [pb] are the polynomials of degree below ten that
    take the two sides of a group's constraints as values on the base window, the
    integer the evaluator computes for the [j]th target is [pa(t) * pb(t)] in the
    field; no machine integer, 128-bit or 192-bit sum on the way is truncated. *)
Theorem extended_products_are_interpolated row j t (pa pb qa qb : list F) :
  typed_row row -> exclusive_flags row ->
  Forall (fun k => satisfied (cons k) (row_vector (input_value row))) R1CS_CONSTRAINTS ->
  UNISKIP_TARGETS OUTER_UNIVARIATE_SKIP_DOMAIN_SIZE OUTER_UNIVARIATE_SKIP_DEGREE !! j = Some t ->
  Forall (fun p => (length p <= 10)%nat) [pa; pb; qa; qb] ->
  map (fun x => eval_poly pa (from_u64 x)) (window 10) = on_window (group_values cons_a R1CS_CONSTRAINTS_FIRST_GROUP row) ->
  map (fun x => eval_poly pb (from_u64 x)) (window 10) = on_window (group_values cons_b R1CS_CONSTRAINTS_FIRST_GROUP row) ->
  map (fun x => eval_poly qa (from_u64 x)) (window 10) = on_window (group_values cons_a R1CS_CONSTRAINTS_SECOND_GROUP row) ->
  map (fun x => eval_poly qb (from_u64 x)) (window 10) = on_window (group_values cons_b R1CS_CONSTRAINTS_SECOND_GROUP row) ->
  from_u64 (extended_azbz_product_first_group row j) = mul (eval_poly pa (from_u64 t)) (eval_poly pb (from_u64 t)) /\
  from_u64 (extended_azbz_product_second_group row j) = mul (eval_poly qa (from_u64 t)) (eval_poly qb (from_u64 t)).
Proof.
  intros Hr He Hs Hj Hp Epa Epb Eqa Eqb. rewrite !list.Forall_cons in Hp. destruct Hp as (?&?&?&?&_).
  rewrite extended_first_sum, extended_second_sum by done. rewrite !from_u64_mul.
  assert (Hpad : forall vs, length vs = 9%nat ->
    weighted_Z (map (coeff_at OUTER_COEFFS_PER_J j) (seq 0 9)) vs =
    weighted_Z (map (coeff_at OUTER_COEFFS_PER_J j) (seq 0 10)) (vs ++ [0])).
  { clear. intros vs Hl. do 9 (destruct vs as [|? vs]; [discriminate|]). destruct vs; [|discriminate].
    unfold weighted_Z. cbn [map seq weighted app Field.add Field.mul zero ZOps]. ring. }
  rewrite !Hpad by reflexivity.
  split; f_equal; (apply sum_extrapolates; [reflexivity|done|done|]);
    first [rewrite Epa|rewrite Epb|rewrite Eqa|rewrite Eqb]; reflexivity.
Qed.
End Extended.

(** ** The fused product constraints *)

Record typed_products (row : ProductCycleInputs) : Prop := {
  tp_left : in_u 64 (instruction_left_input row);
  tp_right : Z.abs (instruction_right_input row) <= 2 ^ 64;
  tp_output : in_u 64 (should_branch_lookup_output row)
}.
(** The factors of the three constraints: the last right one is [1 - NextIsNoop]. *)
Definition left_factors (row : ProductCycleInputs) : list Z :=
  [instruction_left_input row; should_branch_lookup_output row; b2z (jump_flag row)].
Definition right_factors (row : ProductCycleInputs) : list Z :=
  [instruction_right_input row; b2z (should_branch_flag row); b2z (not_next_noop row)].

Section Fused.
Context {F : Type} `{HM : MontField F} `{SB : SignedBigInt}.
Add Ring Fring3 : (@field_ring F _ _).

Lemma fused_left_right_spec row w : typed_products row ->
  fused_left_right_at_r row w = (weigh w (left_factors row), weigh w (right_factors row)).
Proof.
  intros [Hl Hr Ho]. unfold fused_left_right_at_r. cbv zeta. unfold in_u in *. f_equal.
  - pose (vs := [U64 (instruction_left_input row); U64 (should_branch_lookup_output row); Bool (jump_flag row)]).
    transitivity (mul (weigh w (map scalar_value vs)) one); [|unfold vs, left_factors; cbn [map scalar_value]; ring].
    eapply (tier_at_r (HA := MedAccumU_accumulator) w vs); [|vm_compute; discriminate| |reflexivity].
    + unfold vs. repeat (constructor; [first [done|unfold scalar_ok, in_u; lia]|]). constructor.
    + pose proof (b2z_range (jump_flag row)). cbn [vs map scalar_value fold_left].
      change (acc_budget (A := MedAccumU)) with (2 ^ 130). lia.
  - pose (vs := [I128 (instruction_right_input row); Bool (should_branch_flag row); Bool (not_next_noop row)]).
    transitivity (mul (weigh w (map scalar_value vs)) one); [|unfold vs, right_factors; cbn [map scalar_value]; ring].
    eapply (tier_at_r (HA := MedAccumS_accumulator) w vs); [|vm_compute; discriminate| |reflexivity].
    + unfold vs. repeat (constructor; [first [done|unfold scalar_ok, in_s; lia]|]). constructor.
    + pose proof (b2z_range (should_branch_flag row)). pose proof (b2z_range (not_next_noop row)).
      cbn [vs map scalar_value fold_left]. change (acc_budget (A := MedAccumS)) with (2 ^ 130). lia.
Qed.

Lemma product_coeff_small j i : Z.abs (coeff_at PRODUCT_VIRTUAL_COEFFS_PER_J j i) <= 3.
Proof.
  unfold coeff_at. let t := eval vm_compute in PRODUCT_VIRTUAL_COEFFS_PER_J in change PRODUCT_VIRTUAL_COEFFS_PER_J with t.
  destruct j as [|[|[|j]]]; destruct i as [|[|[|[|i]]]]; cbn; lia.
Qed.

Lemma i128_sum3 a b c : Z.abs a < 2 ^ 68 -> Z.abs b < 2 ^ 68 -> Z.abs c < 2 ^ 68 ->
  fold_left (fun s x => as_i128 (s + x)) [as_i128 a; as_i128 b; c] 0 = a + b + c.
Proof.
  intros Ha Hb Hc. cbn [fold_left].
  assert (Hs : forall z, Z.abs z < 2 ^ 120 -> as_i128 z = z) by (intros; apply (wraps_small 128 eq_refl); unfold in_s; lia).
  rewrite (Hs a), (Hs b), (Hs (0 + a)), (Hs (0 + a + b)), (Hs (0 + a + b + c)) by lia. lia.
Qed.
Lemma coeff_if (b : bool) k : Z.abs k <= 3 -> Z.abs (if b then k else 0) < 2 ^ 68 /\ (if b then k else 0) = k * b2z b.
Proof. intros Hk. destruct b; cbn [b2z]; lia. Qed.
Lemma coeff_word k x : Z.abs k <= 3 -> Z.abs x <= 2 ^ 64 -> Z.abs (k * x) < 2 ^ 68.
Proof. intros Hk Hx. nia. Qed.
Lemma i128_if (b : bool) k : Z.abs k <= 3 -> (if b then k else 0) = as_i128 (if b then k else 0).
Proof. intros Hk. symmetry. apply (wraps_small 128 eq_refl). unfold in_s. destruct b; lia. Qed.

Lemma extended_fused_spec row j : typed_products row ->
  let w := map (coeff_at PRODUCT_VIRTUAL_COEFFS_PER_J j) (seq 0 3) in
  extended_fused_product_at_j row j = weighted_Z w (left_factors row) * weighted_Z w (right_factors row).
Proof.
  intros [Hl Hr Ho]. cbv zeta. unfold extended_fused_product_at_j, left_factors, right_factors, weighted_Z.
  pose proof (product_coeff_small j) as Hc. cbv zeta. set (c := coeff_at PRODUCT_VIRTUAL_COEFFS_PER_J j) in *.
  destruct (coeff_if (jump_flag row) (c 2%nat) (Hc _)) as [B1 E1].
  destruct (coeff_if (should_branch_flag row) (c 1%nat) (Hc _)) as [B2 E2].
  destruct (coeff_if (not_next_noop row) (c 2%nat) (Hc _)) as [B3 E3].
  assert (L1 : Z.abs (c 0%nat * instruction_left_input row) < 2 ^ 68) by (apply coeff_word; [done|unfold in_u in Hl; lia]).
  assert (L2 : Z.abs (c 1%nat * should_branch_lookup_output row) < 2 ^ 68) by (apply coeff_word; [done|unfold in_u in Ho; lia]).
  assert (R1 : Z.abs (c 0%nat * instruction_right_input row) < 2 ^ 68) by (by apply coeff_word).
  rewrite (i128_if (should_branch_flag row)) by done. rewrite !i128_sum3 by done.
  rewrite E1, E2, E3 in *. cbn [map seq weighted Field.add Field.mul zero ZOps]. clear -L1 L2 R1 B1 B2 B3.
  rewrite mul_trunc_exact; [ring|]. change (64 * Z.of_nat 4) with 256. rewrite Z.abs_mul.
  apply Z.le_lt_trans with (2 ^ 70 * 2 ^ 70); [|reflexivity]. apply Z.mul_le_mono_nonneg; lia.
Qed.

(** the product constraints are fused faithfully: on a row in range the
    accumulators give the weighted sums of the three left and the three right
    factors, and the 256-bit integer computed for the [j]th extended point is the
    product of the values at that point of the quadratic polynomials through the
    factors on the window of size three. *)
Theorem fused_products_are_interpolated row (w pl pr : list F) j t :
  typed_products row ->
  UNISKIP_TARGETS PRODUCT_VIRTUAL_UNIVARIATE_SKIP_DOMAIN_SIZE PRODUCT_VIRTUAL_UNIVARIATE_SKIP_DEGREE !! j = Some t ->
  (length pl <= 3)%nat -> (length pr <= 3)%nat ->
  map (fun x => eval_poly pl (from_u64 x)) (window 3) = map from_u64 (left_factors row) ->
  map (fun x => eval_poly pr (from_u64 x)) (window 3) = map from_u64 (right_factors row) ->
  fused_left_right_at_r row w = (weigh w (left_factors row), weigh w (right_factors row)) /\
  from_u64 (extended_fused_product_at_j row j) = mul (eval_poly pl (from_u64 t)) (eval_poly pr (from_u64 t)).
Proof.
  intros Hr Hj Hl1 Hl2 El Er. split; [by apply fused_left_right_spec|].
  assert (Hm : monomials_ok 3 (map (coeff_at PRODUCT_VIRTUAL_COEFFS_PER_J j) (seq 0 3)) (window 3) t = true).
  { assert (Hlt : (j < 2)%nat) by (apply lookup_lt_Some in Hj; exact Hj).
    destruct j as [|[|]]; [| |lia]; injection Hj as <-; vm_compute; reflexivity. }
  rewrite extended_fused_spec, from_u64_mul, <- !weighted_from, <- El, <- Er by done.
  by rewrite !(weights_extrapolate 3 _ _ t) by done.
Qed.
End Fused.

(** ** Examples: the row of an addition *)

Definition example_row : R1CSCycleInputs :=
  {| left_input := 3; right_input := 4; Witness.product := 12; left_lookup := 0; right_lookup := 7; lookup_output := 7;
     rs1_read_value := 3; rs2_read_value := 4; rd_write_value := 7; ram_addr := 0; ram_read_value := 0; ram_write_value := 0;
     Witness.pc := 5; next_pc := 6; unexpanded_pc := 1000; next_unexpanded_pc := 1004; imm := 0;
     flags := fun f => bool_decide (f = AddOperands \/ f = WriteLookupOutputToRD);
     next_is_noop := false; should_jump := false; should_branch := false; next_is_virtual := false;
     next_is_first_in_sequence := false |}.

Lemma example_row_typed : typed_row example_row.
Proof. split; cbn; [repeat constructor; unfold in_u; lia|unfold in_u; lia|lia..]. Qed.
Lemma example_row_exclusive : exclusive_flags example_row.
Proof. split; vm_compute; try done. Qed.
Lemma example_row_satisfied :
  Forall (fun k => satisfied (cons k) (row_vector (input_value example_row))) R1CS_CONSTRAINTS.
Proof.
  let t := eval vm_compute in R1CS_CONSTRAINTS in change R1CS_CONSTRAINTS with t.
  repeat (constructor; [vm_compute; reflexivity|]). constructor.
Qed.

Lemma evaluators_match_constraints_witness :
  let w := map (from_u64 : Z -> Fr) [3; 5; 7; 11; 13; 17; 19; 23; 29; 31] in
  let _ := kept_limbs in
  bz_at_r_second_group example_row w = weigh w (group_values cons_b R1CS_CONSTRAINTS_SECOND_GROUP example_row).
Proof.
  cbv zeta. apply (evaluators_match_constraints (SB := kept_limbs)); [exact example_row_typed|exact example_row_exclusive].
Defined.

Definition example_pa : list F97 := map from_u64 [1; 7; 61; 46; 53; 57; 60; 94; 19; 87].
Definition example_pb : list F97 := map from_u64 [0; 15; 83; 81; 87; 85; 3; 58; 70; 0].
Definition example_qa : list F97 := map from_u64 [0; 5; 32; 74; 13; 11; 96; 14; 5; 42].
Definition example_qb : list F97 := map from_u64 [3; 55; 92; 3; 35; 43; 33; 36; 77; 11].

Lemma extended_products_are_interpolated_witness :
  let _ := kept_limbs in
  from_u64 (extended_azbz_product_first_group (SB := kept_limbs) example_row 3) =
    mul (eval_poly example_pa (from_u64 7)) (eval_poly example_pb (from_u64 7)) /\
  from_u64 (extended_azbz_product_second_group (SB := kept_limbs) example_row 3) =
    mul (eval_poly example_qa (from_u64 7)) (eval_poly example_qb (from_u64 7)).
Proof.
  apply (extended_products_are_interpolated (SB := kept_limbs));
    [exact example_row_typed|exact example_row_exclusive|exact example_row_satisfied|vm_compute; reflexivity| |..].
  - repeat (constructor; [vm_compute; lia|]). constructor.
  - vm_compute. reflexivity.
  - vm_compute. reflexivity.
  - vm_compute. reflexivity.
  - vm_compute. reflexivity.
Defined.

Definition example_products : ProductCycleInputs :=
  {| instruction_left_input := 5; instruction_right_input := -7; should_branch_lookup_output := 1;
     write_lookup_output_to_rd_flag := false; jump_flag := false; should_branch_flag := true;
     not_next_noop := true; virtual_instruction_flag := false |}.
Lemma fused_products_are_interpolated_witness :
  from_u64 (extended_fused_product_at_j (SB := kept_limbs) example_products 0) =
    mul (eval_poly (map (from_u64 : Z -> Fr) [1; (Fr_modulus - 5) / 2; (Fr_modulus + 3) / 2]) (from_u64 (-2)))
        (eval_poly (map (from_u64 : Z -> Fr) [1; 4; -4]) (from_u64 (-2))).
Proof.
  cbv zeta. apply (fused_products_are_interpolated (SB := kept_limbs) example_products []);
    [split; cbn; unfold in_u; lia|vm_compute; reflexivity|cbn; lia|cbn; lia|vm_compute; reflexivity|vm_compute; reflexivity].
Defined.
