(* ===== verification/ClaimedInputs.v ===== *)
(** * ClaimedInputs: the claims about the witness columns

    [compute_claimed_inputs] and [compute_claimed_factors] of
    [jolt-core/src/zkvm/r1cs/evaluation.rs]: every column of the trace is
    evaluated at a random point, through split tables of the equality polynomial,
    one accumulator per column sized to the column's type, and unreduced products.
    Proved: the claims are the multilinear extensions of the columns.  The
    parallel map and reduction over the outer table run in order here. *)
From S2P Require Import Prelude Field SignedInt FoldedAccum Accum Poly EqPoly R1CS Instr Trace Bytecode LookupQuery Witness R1csEval.
From Stdlib Require Import Ring.

(** ** One accumulator per column *)

Inductive AnyAccum :=
| SmallU (a : SmallAccumU) | MedU (a : MedAccumU) | MedS (a : MedAccumS)
| WideU (a : WideAccumU) | WideS (a : WideAccumS).

Section Claims.
Context {F : Type} `{HM : MontField F}.
Add Ring Fring : (@field_ring F _ _).
#[local] Open Scope field_scope.

(** [acc.fmadd(&e_in, &v)], at the tier of [acc]; [None] where it has no impl for
    the type of [v]. *)
Definition any_fmadd (acc : AnyAccum) (e_in : F) (v : Scalar) : option AnyAccum :=
  match acc with
  | SmallU a => SmallU <$> SmallAccumU_fmadd a e_in v
  | MedU a => MedU <$> MedAccumU_fmadd a e_in v
  | MedS a => MedS <$> MedAccumS_fmadd a e_in v
  | WideU a => WideU <$> WideAccumU_fmadd a e_in v
  | WideS a => WideS <$> WideAccumS_fmadd a e_in v
  end.
Definition any_barrett_reduce (acc : AnyAccum) : F :=
  match acc with
  | SmallU a => SmallAccumU_barrett_reduce a
  | MedU a => MedAccumU_barrett_reduce a
  | MedS a => MedAccumS_barrett_reduce a
  | WideU a => WideAccumU_barrett_reduce a
  | WideS a => WideAccumS_barrett_reduce a
  end.

(** ** The two loops

    [from_trace] builds the row of a cycle, [inputs] are the columns in the order
    of the output array, [init] their accumulators and [scalar] the values fed to
    them. *)
Section Loops.
Context {Row I : Type} (from_trace : nat -> option Row) (inputs : list I) (init : I -> AnyAccum) (scalar : Row -> I -> Scalar).

Definition accumulate_row (e_in : F) (row : Row) (accs : list AnyAccum) : option (list AnyAccum) :=
  mapM (fun '(input, acc) => any_fmadd acc e_in (scalar row input)) (zip inputs accs).

(** The body of the outer loop: the unreduced products of one outer index. *)
Definition claim_block (eq_two : list F) (eq1_val : F) (x1 : nat) : option (list Folded) :=
  let eq_two_len := length eq_two in
  accs ← fold_left (fun accs x2 => accs ← accs;
      let e_in := at0 eq_two x2 in
      row ← from_trace (x1 * eq_two_len + x2)%nat;
      accumulate_row e_in row accs) (seq 0 eq_two_len) (Some (map init inputs));
  Some (map (fun acc => mul_to_product_accum eq1_val (any_barrett_reduce acc)) accs).

Definition compute_claims (r_cycle : list F) : option (list F) :=
  let m := (length r_cycle / 2)%nat in
  let r2 := take m r_cycle in
  let r1 := drop m r_cycle in
  let eq_one := evals r2 in
  let eq_two := evals r1 in
  outs ← mapM (fun x1 => claim_block eq_two (at0 eq_one x1) x1) (seq 0 (length eq_one));
  let sums := fold_left (fun acc item => zip_with add_lanes acc item) outs
    (map (fun _ => zero_slots Folded256ProductAccum) inputs) in
  Some (map reduce_product_accum sums).
End Loops.
End Claims.

(** ** The R1CS inputs *)

Section Inputs.
Context {F : Type} `{HM : MontField F} `{SB : SignedBigInt}.

Definition claim_accum (input : JoltR1CSInputs) : AnyAccum :=
  match input with
  | RightInstructionInput | Imm => MedS MedAccumS_zero
  | Product => WideS WideAccumS_zero
  | RightLookupOperand => WideU WideAccumU_zero
  | ShouldBranch | ShouldJump | NextIsVirtual | NextIsFirstInSequence | OpFlags _ => SmallU SmallAccumU_zero
  | _ => MedU MedAccumU_zero
  end.
Definition claim_scalar (row : R1CSCycleInputs) (input : JoltR1CSInputs) : Scalar :=
  match input with
  | LeftInstructionInput => U64 (left_input row)
  | RightInstructionInput => I128 (right_input row)
  | Product => S128 (product row)
  | ShouldBranch => Bool (should_branch row)
  | PC => U64 (pc row)
  | UnexpandedPC => U64 (unexpanded_pc row)
  | Imm => I128 (imm row)
  | RamAddress => U64 (ram_addr row)
  | Rs1Value => U64 (rs1_read_value row)
  | Rs2Value => U64 (rs2_read_value row)
  | RdWriteValue => U64 (rd_write_value row)
  | RamReadValue => U64 (ram_read_value row)
  | RamWriteValue => U64 (ram_write_value row)
  | LeftLookupOperand => U64 (left_lookup row)
  | RightLookupOperand => U128 (right_lookup row)
  | NextUnexpandedPC => U64 (next_unexpanded_pc row)
  | NextPC => U64 (next_pc row)
  | LookupOutput => U64 (lookup_output row)
  | ShouldJump => Bool (should_jump row)
  | NextIsVirtual => Bool (next_is_virtual row)
  | NextIsFirstInSequence => Bool (next_is_first_in_sequence row)
  | OpFlags flag => Bool (flags row flag)
  end.
Definition compute_claimed_inputs (pre : BytecodePreprocessing) (trace : list TraceCycle) (r_cycle : list F) : option (list F) :=
  compute_claims (R1CSCycleInputs_from_trace pre trace) ALL_R1CS_INPUTS claim_accum claim_scalar r_cycle.

(** ** The factors of the product constraints *)

Definition factor_accum (i : nat) : AnyAccum :=
  match i with
  | 0 | 4 => MedU MedAccumU_zero
  | 1 => MedS MedAccumS_zero
  | _ => SmallU SmallAccumU_zero
  end%nat.
Definition factor_scalar (row : ProductCycleInputs) (i : nat) : Scalar :=
  match i with
  | 0 => U64 (instruction_left_input row)
  | 1 => I128 (instruction_right_input row)
  | 2 => Bool (jump_flag row)
  | 3 => Bool (write_lookup_output_to_rd_flag row)
  | 4 => U64 (should_branch_lookup_output row)
  | 5 => Bool (should_branch_flag row)
  | 6 => Bool (negb (not_next_noop row))
  | _ => Bool (virtual_instruction_flag row)
  end%nat.
Definition compute_claimed_factors (trace : list TraceCycle) (r_cycle : list F) : option (list F) :=
  compute_claims (ProductCycleInputs_from_trace trace) (seq 0 8) factor_accum factor_scalar r_cycle.
End Inputs.

(** ** The claims are multilinear extensions *)

Section Correct.
Context {F : Type} `{HM : MontField F}.
Add Ring Fring2 : (@field_ring F _ _).
#[local] Open Scope field_scope.

(** The scalars a tier is fed: of a type it has an impl for, and in the range of
    the columns given to it. *)
Definition scalar_fits (a : AnyAccum) (v : Scalar) : Prop :=
  match a, v with
  | SmallU _, Bool _ => True
  | MedU _, U64 v => in_u 64 v
  | MedS _, I128 v => (Z.abs v < 2 ^ 64)%Z
  | WideU _, U128 v => in_u 128 v
  | WideS _, S128 v => (Z.abs v < 2 ^ 128)%Z
  | _, _ => False
  end.
Definition same_tier (a b : AnyAccum) : Prop := forall v, scalar_fits a v <-> scalar_fits b v.

(** [a] holds [n] terms whose sum is [x], each of the magnitude of its tier. *)
Definition any_holds (n : Z) (x : F) (a : AnyAccum) : Prop :=
  match a with
  | SmallU a => exists c, (c <= n)%Z /\ holds n c x a
  | MedU a => exists c, (c <= n * 2 ^ 64)%Z /\ holds n c x a
  | MedS a => exists c, (c <= n * 2 ^ 64)%Z /\ holds n c x a
  | WideU a => exists c, (c <= n * 2 ^ 128)%Z /\ holds n c x a
  | WideS a => exists c, (c <= n * 2 ^ 128)%Z /\ holds n c x a
  end.

Lemma fits_ok a v : scalar_fits a v -> scalar_ok v.
Proof. destruct a, v; cbn; unfold in_u, in_s; try done; lia. Qed.

Lemma any_step n x a f v : any_holds n x a -> scalar_fits a v -> (n < 2 ^ 64)%Z ->
  exists a', any_fmadd a f v = Some a' /\ any_holds (n + 1) (x + f * from_u64 (scalar_value v)) a' /\ same_tier a a'.
Proof.
  intros Ha Hv Hn. pose proof (fits_ok a v Hv) as Hok.
  destruct a as [a|a|a|a|a], v as [b|v|v|v|v|v|v|v|v|v|v]; cbn in Hv; try done; destruct Ha as (c & Hc & Ha);
    eexists; (split; [reflexivity|]); (split; [|done]);
    (eexists; split; [|eapply holds_fmadd; [exact Ha|exact Hok|exact Hn|reflexivity]]);
    cbn [scalar_value]; clear -Hc Hv; unfold in_u in *; (lia || (destruct b; cbn; lia)).
Qed.

Lemma any_reduce n x a : any_holds n x a -> (n <= 2 ^ 64)%Z -> any_barrett_reduce a = x.
Proof.
  intros Ha Hn.
  destruct a as [a|a|a|a|a]; destruct Ha as (c & Hc & Ha); cbn [any_barrett_reduce];
    (transitivity (x * one); [|ring]).
  - apply (holds_reduce n c x a Ha). clear -Hc Hn. change (acc_budget (Accumulator := SmallAccumU_accumulator)) with (2 ^ 66)%Z. lia.
  - apply (holds_reduce n c x a Ha). clear -Hc Hn. change (acc_budget (Accumulator := MedAccumU_accumulator)) with (2 ^ 130)%Z. lia.
  - apply (holds_reduce n c x a Ha). clear -Hc Hn. change (acc_budget (Accumulator := MedAccumS_accumulator)) with (2 ^ 130)%Z. lia.
  - apply (holds_reduce n c x a Ha). clear -Hc Hn. change (acc_budget (Accumulator := WideAccumU_accumulator)) with (2 ^ 194)%Z. lia.
  - apply (holds_reduce n c x a Ha). clear -Hc Hn. change (acc_budget (Accumulator := WideAccumS_accumulator)) with (2 ^ 194)%Z. lia.
Qed.

(** The unreduced products of the outer loop, reduced. *)
Lemma reduce_products (l : list (F * F)) : (Z.of_nat (length l) <= 2 ^ 61)%Z ->
  reduce_product_accum (fold_left (fun acc '(f, g) => add_lanes acc (mul_to_product_accum f g)) l (zero_slots Folded256ProductAccum)) =
  fold_right add zero (map (fun '(f, g) => f * g) l).
Proof.
  intros Hl. set (ms := map (fun '(f, g) => (mont f, mont g)) l).
  assert (Es : fold_left (fun acc '(f, g) => add_lanes acc (mul_to_product_accum f g)) l (zero_slots Folded256ProductAccum) =
    sum_products ms (zero_slots Folded256ProductAccum)).
  { unfold ms, sum_products. unfold mul_to_product_accum. generalize (zero_slots Folded256ProductAccum). clear.
    induction l as [|[f g] l IH]; intros a; cbn [map fold_left]; [reflexivity|apply IH]. }
  rewrite Es. destruct (sum_products_value ms) as [_ Hv].
  { unfold ms. clear. induction l as [|[f g] l IH]; constructor; [|exact IH]. split; apply mont_bigint. }
  { unfold ms. by rewrite length_map. }
  unfold reduce_product_accum. rewrite montgomery_spec, Hv. unfold ms. clear -HM. induction l as [|[f g] l IH]; cbn.
  - rewrite from_u64_0. ring.
  - unfold products_value in IH. rewrite from_u64_add, from_u64_mul, !mont_value.
    transitivity (f * g + from_u64 (fold_right (fun '(a, b) (s : Z) => (limbs_value a * limbs_value b + s)%Z) 0%Z (map (fun '(f, g) => (mont f, mont g)) l)) * R_inv * R_inv).
    + pose proof R_inv_spec as HR. set (R := from_u64 (2 ^ 256)) in *.
      transitivity (f * g * ((R * R_inv) * (R * R_inv)) + from_u64 (fold_right (fun '(a, b) (s : Z) => (limbs_value a * limbs_value b + s)%Z) 0%Z (map (fun '(f, g) => (mont f, mont g)) l)) * R_inv * R_inv); [ring|].
      rewrite HR. ring.
    + by rewrite IH.
Qed.

(** ** The loops *)

Section LoopsCorrect.
Context {Row I : Type} (from_trace : nat -> option Row) (inputs : list I) (init : I -> AnyAccum) (scalar : Row -> I -> Scalar).
Context (rows : nat -> Row) (N : nat).
Context (Hinit : forall i, any_holds 0 zero (init i)).
Context (Hrows : forall t, (t < N)%nat -> from_trace t = Some (rows t) /\ forall i, scalar_fits (init i) (scalar (rows t) i)).

(** The value of column [i] at cycle [t]. *)
Definition column (i : I) (t : nat) : F := from_u64 (scalar_value (scalar (rows t) i)).

(** What the accumulators hold after [n] rows. *)
Definition accs_hold (n : nat) (x : I -> F) (accs : list AnyAccum) : Prop :=
  Forall2 (fun i a => any_holds (Z.of_nat n) (x i) a /\ same_tier (init i) a) inputs accs.

Lemma accumulate_row_holds n x accs e t : (t < N)%nat -> (Z.of_nat n < 2 ^ 64)%Z -> accs_hold n x accs ->
  exists accs', accumulate_row inputs scalar e (rows t) accs = Some accs' /\
    accs_hold (S n) (fun i => x i + e * column i t) accs'.
Proof.
  intros Ht Hn Ha. destruct (Hrows t Ht) as [_ Hfit]. unfold accumulate_row, accs_hold in *.
  induction Ha as [|i a il accs [Hi Htier] Ha IH]; [by exists []|]. cbn [zip zip_with mapM].
  destruct (any_step _ _ a e _ Hi (proj1 (Htier _) (Hfit i)) Hn) as (a' & -> & Hi' & Htier'). cbn [mbind option_bind].
  destruct IH as (accs' & -> & Hs). cbn [mbind option_bind mret option_ret]. eexists. split; [reflexivity|].
  constructor; [|exact Hs]. split; [by replace (Z.of_nat (S n)) with (Z.of_nat n + 1)%Z by lia|].
  intros v. rewrite (Htier v). apply Htier'.
Qed.

Lemma accs_init_hold : accs_hold 0 (fun _ => zero) (map init inputs).
Proof. unfold accs_hold. induction inputs as [|i l IH]; constructor; [|exact IH]. by split. Qed.

Lemma accs_reduce n x accs : (Z.of_nat n <= 2 ^ 64)%Z -> accs_hold n x accs -> map any_barrett_reduce accs = map x inputs.
Proof.
  intros Hn Ha. unfold accs_hold in Ha. induction Ha as [|i a il accs [Hi _] Ha IH]; [done|].
  cbn [map]. f_equal; [by apply (any_reduce (Z.of_nat n))|exact IH].
Qed.

Lemma claim_block_spec eq_two eq1_val x1 : (Z.of_nat (length eq_two) <= 2 ^ 63)%Z ->
  (x1 * length eq_two + length eq_two <= N)%nat ->
  claim_block from_trace inputs init scalar eq_two eq1_val x1 =
  Some (map (fun i => mul_to_product_accum eq1_val
    (sumF (length eq_two) (fun x2 => at0 eq_two x2 * column i (x1 * length eq_two + x2)))) inputs).
Proof.
  intros Hl HN. unfold claim_block. set (base := (x1 * length eq_two)%nat) in *. cbv zeta.
  assert (Hm : forall m, (m <= length eq_two)%nat -> exists accs,
    fold_left (fun accs x2 => accs ← accs; row ← from_trace (base + x2)%nat;
      accumulate_row inputs scalar (at0 eq_two x2) row accs) (seq 0 m) (Some (map init inputs)) = Some accs /\
    accs_hold m (fun i => sumF m (fun x2 => at0 eq_two x2 * column i (base + x2))) accs).
  { induction m as [|m IH]; intros Hm.
    - exists (map init inputs). split; [done|]. apply accs_init_hold.
    - destruct (IH ltac:(lia)) as (accs & E & Ha). rewrite seq_S, fold_left_app, E. cbn [fold_left Nat.add mbind option_bind].
      rewrite (proj1 (Hrows (base + m) ltac:(lia))). cbn [mbind option_bind].
      destruct (accumulate_row_holds m _ accs (at0 eq_two m) (base + m) ltac:(lia) ltac:(lia) Ha) as (accs' & -> & Ha').
      exists accs'. split; [done|]. unfold accs_hold in *. eapply list.Forall2_impl; [exact Ha'|].
      intros i a [Hi Ht]. split; [|done]. by rewrite sumF_S. }
  destruct (Hm (length eq_two) ltac:(lia)) as (accs & E & Ha).
  etransitivity; [apply (f_equal (fun o => accs ← o; Some (map (fun acc => mul_to_product_accum eq1_val (any_barrett_reduce acc)) accs)) E)|].
  cbn [mbind option_bind]. f_equal.
  rewrite <- (map_map any_barrett_reduce (mul_to_product_accum eq1_val)), (accs_reduce (length eq_two) _ _ ltac:(lia) Ha), map_map.
  reflexivity.
Qed.

(** The columnwise sums of the outer loop. *)
Lemma fold_zip_columns {X} (g : X -> I -> Folded) xs (h : I -> Folded) :
  fold_left (fun acc item => zip_with add_lanes acc item) (map (fun x => map (g x) inputs) xs) (map h inputs) =
  map (fun i => fold_left (fun acc x => add_lanes acc (g x i)) xs (h i)) inputs.
Proof.
  revert h. induction xs as [|x xs IH]; intros h; [done|]. cbn [map fold_left].
  replace (zip_with add_lanes (map h inputs) (map (g x) inputs)) with (map (fun i => add_lanes (h i) (g x i)) inputs); [apply IH|].
  clear. induction inputs as [|i l IH]; [done|]. cbn. by rewrite <- IH.
Qed.

Lemma compute_claims_spec (r : list F) : N = (2 ^ length r)%nat -> (length r <= 64)%nat ->
  compute_claims from_trace inputs init scalar r =
  Some (map (fun i => sumF N (fun t => chi r t * column i t)) inputs).
Proof.
  intros HN Hr. unfold compute_claims. cbv zeta. set (m := (length r / 2)%nat). set (r2 := take m r). set (r1 := drop m r).
  assert (Hm : (m <= 32)%nat) by (unfold m; apply Nat.Div0.div_le_upper_bound; lia).
  assert (Hm2 : (length r - m <= 32)%nat) by (unfold m; pose proof (Nat.div_mod (length r) 2); pose proof (Nat.mod_upper_bound (length r) 2); lia).
  assert (Hmr : (m <= length r)%nat) by (unfold m; apply Nat.Div0.div_le_upper_bound; lia).
  assert (H2 : length r2 = m) by (unfold r2; rewrite length_take; lia).
  assert (H1 : length r1 = (length r - m)%nat) by (unfold r1; apply length_drop).
  rewrite !evals_spec. set (A := chi_table one r2). set (B := chi_table one r1).
  assert (HA : length A = (2 ^ m)%nat) by (unfold A; by rewrite chi_table_length, H2).
  assert (HB : length B = (2 ^ (length r - m))%nat) by (unfold B; by rewrite chi_table_length, H1).
  assert (HAB : N = (length A * length B)%nat).
  { rewrite HN, HA, HB, <- Nat.pow_add_r. f_equal. lia. }
  assert (Hsmall : forall k, (k <= 32)%nat -> (Z.of_nat (2 ^ k) <= 2 ^ 32)%Z).
  { intros k Hk. rewrite Nat2Z.inj_pow. apply Z.pow_le_mono_r; lia. }
  rewrite (mapM_all _ (fun x1 => map (fun i => mul_to_product_accum (at0 A x1)
    (sumF (length B) (fun x2 => at0 B x2 * column i (x1 * length B + x2)))) inputs)).
  2:{ intros x1 [_ Hx]%in_seq. apply claim_block_spec; [rewrite HB; specialize (Hsmall _ Hm2); lia|]. rewrite HAB. nia. }
  cbn [mbind option_bind]. f_equal. rewrite fold_zip_columns, map_map. apply map_ext. intros i.
  set (inner := fun x1 => sumF (length B) (fun x2 => at0 B x2 * column i (x1 * length B + x2))).
  transitivity (reduce_product_accum (fold_left (fun acc '(f, g) => add_lanes acc (mul_to_product_accum f g))
    (map (fun x1 => (at0 A x1, inner x1)) (seq 0 (length A))) (zero_slots Folded256ProductAccum))).
  { f_equal. generalize (zero_slots Folded256ProductAccum). induction (seq 0 (length A)) as [|x l IH]; intros a; [reflexivity|apply IH]. }
  rewrite reduce_products by (rewrite length_map, length_seq, HA; specialize (Hsmall _ Hm); lia).
  rewrite map_map. rewrite HAB, sumF_rows. apply sumF_ext. intros x1 Hx1. unfold inner. rewrite <- sumF_scale.
  apply sumF_ext. intros x2 Hx2. unfold A, B. rewrite !chi_table_cell by (rewrite ?H1, ?H2; lia).
  assert (Hsplit : forall x, chi r x = chi r2 (x / length B) * chi r1 x).
  { intros x. rewrite HB, <- H1, <- chi_app. unfold r1, r2. by rewrite take_drop. }
  rewrite Hsplit. fold B. rewrite Nat.div_add_l, Nat.div_small, Nat.add_0_r by lia.
  rewrite (chi_ext r1 (x1 * length B + x2) x2); [ring|].
  intros k Hk. rewrite <- (Nat.mod_pow2_bits_low _ (length r1)), H1, <- HB by done.
  rewrite Nat.add_comm, Nat.Div0.mod_add, Nat.mod_small by lia. done.
Qed.
End LoopsCorrect.
End Correct.

(** *** The two instances *)

Section Instances.
Context {F : Type} `{HM : MontField F} `{SB : SignedBigInt}.

(** The ranges of the fields' types in [R1CSCycleInputs] ([S64] has a sign of its
    own, like [S128]). *)
Record row_in_range (row : R1CSCycleInputs) : Prop := {
  words_in_range : Forall (in_u 64) [left_input row; left_lookup row; lookup_output row; rs1_read_value row;
    rs2_read_value row; rd_write_value row; ram_addr row; ram_read_value row; ram_write_value row;
    pc row; next_pc row; unexpanded_pc row; next_unexpanded_pc row];
  right_input_in_range : Z.abs (right_input row) < 2 ^ 64;
  imm_in_range : Z.abs (imm row) < 2 ^ 64;
  product_in_range : Z.abs (product row) < 2 ^ 128;
  right_lookup_in_range : in_u 128 (right_lookup row)
}.

Lemma row_fits row i : row_in_range row -> scalar_fits (claim_accum i) (claim_scalar row i).
Proof.
  intros [Hw Hr Hi Hp Hl]. rewrite !list.Forall_cons in Hw. destruct i; cbn [claim_accum claim_scalar scalar_fits]; tauto.
Qed.
Lemma claim_scalar_value row i : scalar_value (claim_scalar row i) = input_value row i.
Proof. by destruct i. Qed.

Lemma tiers_hold_zero :
  any_holds 0 zero (SmallU SmallAccumU_zero) /\ any_holds 0 zero (MedU MedAccumU_zero) /\
  any_holds 0 zero (MedS MedAccumS_zero) /\ any_holds 0 zero (WideU WideAccumU_zero) /\
  any_holds 0 zero (WideS WideAccumS_zero).
Proof.
  repeat split; exists 0; (split; [lia|]).
  - exact (holds_zero (Accumulator := SmallAccumU_accumulator)).
  - exact (holds_zero (Accumulator := MedAccumU_accumulator)).
  - exact (holds_zero (Accumulator := MedAccumS_accumulator)).
  - exact (holds_zero (Accumulator := WideAccumU_accumulator)).
  - exact (holds_zero (Accumulator := WideAccumS_accumulator)).
Qed.
Lemma any_holds_zero i : any_holds 0 zero (claim_accum i).
Proof. destruct tiers_hold_zero as (H1 & H2 & H3 & H4 & H5). destruct i; assumption. Qed.
Lemma factor_holds_zero i : any_holds 0 zero (factor_accum i).
Proof. destruct tiers_hold_zero as (H1 & H2 & H3 & _ & _). do 7 (destruct i as [|i]; [assumption|]). assumption. Qed.

Definition PRODUCT_UNIQUE_FACTOR_VIRTUALS : list VirtualPolynomial := [
  InputPolynomial LeftInstructionInput;
  InputPolynomial RightInstructionInput;
  InputPolynomial (OpFlags Jump);
  InputPolynomial (OpFlags WriteLookupOutputToRD);
  InputPolynomial LookupOutput;
  InstructionFlagPolynomial Branch;
  NextIsNoop;
  InputPolynomial (OpFlags VirtualInstruction)
].

(** The value of each of them on the row of a cycle. *)
Definition factor_column (p : ProductCycleInputs) (v : VirtualPolynomial) : Z :=
  match v with
  | InputPolynomial LeftInstructionInput => instruction_left_input p
  | InputPolynomial RightInstructionInput => instruction_right_input p
  | InputPolynomial LookupOutput => should_branch_lookup_output p
  | InputPolynomial (OpFlags Jump) => b2z (jump_flag p)
  | InputPolynomial (OpFlags WriteLookupOutputToRD) => b2z (write_lookup_output_to_rd_flag p)
  | InputPolynomial (OpFlags VirtualInstruction) => b2z (virtual_instruction_flag p)
  | InstructionFlagPolynomial Branch => b2z (should_branch_flag p)
  | NextIsNoop => b2z (negb (not_next_noop p))
  | _ => 0
  end.
Record factors_in_range (p : ProductCycleInputs) : Prop := {
  left_factor_in_range : in_u 64 (instruction_left_input p);
  right_factor_in_range : Z.abs (instruction_right_input p) < 2 ^ 64;
  output_factor_in_range : in_u 64 (should_branch_lookup_output p)
}.
Lemma factors_fit p i : factors_in_range p -> scalar_fits (factor_accum i) (factor_scalar p i).
Proof. intros [H1 H2 H3]. do 7 (destruct i as [|i]; [first [exact H1|exact H2|exact H3|exact Logic.I]|]). exact Logic.I. Qed.

(** The multilinear extension of a column of integers at a point. *)
Definition column_mle (r : list F) (column : nat -> Z) : F :=
  sumF (2 ^ length r) (fun t => mul (chi r t) (from_u64 (column t))).

(** C21: the claimed evaluations are right: when the trace has a row for every cycle
    of the hypercube, the two computations never fail and return, in the order of
    the inputs and of the product factors, the multilinear extensions of the
    columns at the random point, although they go through a split table, unreduced
    accumulators of five widths and unreduced products. *)
Theorem claims_are_extensions pre trace (r : list F) (rows : nat -> R1CSCycleInputs) (factors : nat -> ProductCycleInputs) :
  (length r <= 64)%nat ->
  (forall t, (t < 2 ^ length r)%nat -> R1CSCycleInputs_from_trace pre trace t = Some (rows t) /\ row_in_range (rows t)) ->
  (forall t, (t < 2 ^ length r)%nat -> ProductCycleInputs_from_trace trace t = Some (factors t) /\ factors_in_range (factors t)) ->
  compute_claimed_inputs pre trace r =
    Some (map (fun i => column_mle r (fun t => input_value (rows t) i)) ALL_R1CS_INPUTS) /\
  compute_claimed_factors trace r =
    Some (map (fun v => column_mle r (fun t => factor_column (factors t) v)) PRODUCT_UNIQUE_FACTOR_VIRTUALS).
Proof.
  intros Hr Hrows Hfactors. split.
  - unfold compute_claimed_inputs.
    rewrite (compute_claims_spec _ _ _ _ rows (2 ^ length r) any_holds_zero); [|intros t Ht|done|done].
    + apply f_equal, map_ext. intros i. apply sumF_ext. intros t _. unfold column. by rewrite claim_scalar_value.
    + destruct (Hrows t Ht) as [E Hok]. split; [exact E|]. intros i. by apply row_fits.
  - unfold compute_claimed_factors.
    rewrite (compute_claims_spec _ _ _ _ factors (2 ^ length r) factor_holds_zero); [reflexivity|intros t Ht|done|done].
    destruct (Hfactors t Ht) as [E Hok]. split; [exact E|]. intros i. by apply factors_fit.
Qed.
End Instances.

Lemma some_default {A} (d : A) (o : option A) : (match o with Some _ => true | None => false end) = true -> o = Some (default d o).
Proof. by destruct o. Qed.
Definition in_rangeb (row : R1CSCycleInputs) : bool :=
  forallb (fun z => (0 <=? z) && (z <? 2 ^ 64)) [left_input row; left_lookup row; lookup_output row; rs1_read_value row;
    rs2_read_value row; rd_write_value row; ram_addr row; ram_read_value row; ram_write_value row;
    pc row; next_pc row; unexpanded_pc row; next_unexpanded_pc row] &&
  (Z.abs (right_input row) <? 2 ^ 64) && (Z.abs (imm row) <? 2 ^ 64) && (Z.abs (product row) <? 2 ^ 128) &&
  ((0 <=? right_lookup row) && (right_lookup row <? 2 ^ 128)).
Lemma row_in_range_checked row : in_rangeb row = true -> row_in_range row.
Proof.
  unfold in_rangeb. rewrite !andb_true_iff, forallb_forall, !Z.ltb_lt, Z.leb_le. intros [[[[Hw Hr] Hi] Hp] Hl].
  split; try done. apply list.Forall_forall. intros z Hz%list_elem_of_In. apply Hw in Hz.
  apply andb_true_iff in Hz. unfold in_u. lia.
Qed.

(** The two first cycles of the example trace, at a point of one variable. *)
Definition claim_rows (t : nat) : R1CSCycleInputs :=
  default example_row (R1CSCycleInputs_from_trace (H := kept_limbs) cycle_bytecode cycle_trace t).
Definition claim_factors (t : nat) : ProductCycleInputs :=
  default {| instruction_left_input := 0; instruction_right_input := 0; should_branch_lookup_output := 0;
     write_lookup_output_to_rd_flag := false; jump_flag := false; should_branch_flag := false;
     not_next_noop := false; virtual_instruction_flag := false |} (ProductCycleInputs_from_trace cycle_trace t).
Lemma claims_are_extensions_witness :
  let r := [from_u64 1234567 : Fr] in
  compute_claimed_inputs (SB := kept_limbs) cycle_bytecode cycle_trace r =
    Some (map (fun i => column_mle r (fun t => input_value (claim_rows t) i)) ALL_R1CS_INPUTS) /\
  compute_claimed_factors cycle_trace r =
    Some (map (fun v => column_mle r (fun t => factor_column (claim_factors t) v)) PRODUCT_UNIQUE_FACTOR_VIRTUALS).
Proof.
  intros r. apply (claims_are_extensions (SB := kept_limbs)).
  - apply Nat.leb_le. reflexivity.
  - intros t Ht. assert (Hc : t = 0%nat \/ t = 1%nat) by (cbn in Ht; lia).
    split; [apply some_default; destruct Hc as [->| ->]; vm_compute; reflexivity|].
    apply row_in_range_checked. destruct Hc as [->| ->]; vm_compute; reflexivity.
  - intros t Ht. assert (Hc : t = 0%nat \/ t = 1%nat) by (cbn in Ht; lia).
    split; [apply some_default; destruct Hc as [->| ->]; vm_compute; reflexivity|].
    destruct Hc as [->| ->]; (split; [split| |split]; vm_compute; (reflexivity || discriminate)).
Defined.
