(* ===== verification/PolynomialIds.v ===== *)
(** * PolynomialIds: the names of polynomials and of their openings

    The enums [CommittedPolynomial] and [VirtualPolynomial] of
    [jolt-core/src/zkvm/witness.rs], and [SumcheckId], [PolynomialId] and [OpeningId]
    of [jolt-core/src/poly/opening_proof.rs], with the decidable equality and the
    enumerations finite maps need.  Constructors that two enums share carry the
    enum's name. *)
From S2P Require Import Prelude LookupQuery.
From stdpp Require Import finite gmap.

Inductive SumcheckId :=
| SpartanOuter | SpartanProductVirtualization | SpartanShift | InstructionClaimReduction
| InstructionInputVirtualization | InstructionReadRaf | InstructionRaVirtualization
| RamReadWriteChecking | RamRafEvaluation | RamOutputCheck | RamValCheck | RamRaClaimReduction
| RamHammingBooleanity | RamRaVirtualization | RegistersClaimReduction | RegistersReadWriteChecking
| RegistersValEvaluation | BytecodeReadRaf | Booleanity | AdviceClaimReductionCyclePhase
| AdviceClaimReduction | IncClaimReduction | HammingWeightClaimReduction.
#[export] Instance SumcheckId_eq_dec : EqDecision SumcheckId.
Proof. solve_decision. Defined.
Definition SumcheckId_list : list SumcheckId :=
  [SpartanOuter; SpartanProductVirtualization; SpartanShift; InstructionClaimReduction;
  InstructionInputVirtualization; InstructionReadRaf; InstructionRaVirtualization; RamReadWriteChecking;
  RamRafEvaluation; RamOutputCheck; RamValCheck; RamRaClaimReduction; RamHammingBooleanity;
  RamRaVirtualization; RegistersClaimReduction; RegistersReadWriteChecking; RegistersValEvaluation;
  BytecodeReadRaf; Booleanity; AdviceClaimReductionCyclePhase; AdviceClaimReduction; IncClaimReduction;
  HammingWeightClaimReduction].
#[export] Instance SumcheckId_finite : Finite SumcheckId.
Proof.
  refine {| enum := SumcheckId_list |}.
  - apply (bool_decide_eq_true_1 _). vm_compute. reflexivity.
  - intros x. apply (bool_decide_eq_true_1 _). destruct x; vm_compute; reflexivity.
Defined.

Definition CircuitFlags_list : list CircuitFlags :=
  [AddOperands; SubtractOperands; MultiplyOperands; Load; Store; Jump; WriteLookupOutputToRD;
  VirtualInstruction; Assert; DoNotUpdateUnexpandedPC; Advice; IsCompressed; IsFirstInSequence;
  IsLastInSequence].
#[export] Instance CircuitFlags_finite : Finite CircuitFlags.
Proof.
  refine {| enum := CircuitFlags_list |}.
  - apply (bool_decide_eq_true_1 _). vm_compute. reflexivity.
  - intros x. apply (bool_decide_eq_true_1 _). destruct x; vm_compute; reflexivity.
Defined.

Definition InstructionFlags_list : list InstructionFlags :=
  [LeftOperandIsPC; RightOperandIsImm; LeftOperandIsRs1Value; RightOperandIsRs2Value; Branch; IsNoop].
#[export] Instance InstructionFlags_finite : Finite InstructionFlags.
Proof.
  refine {| enum := InstructionFlags_list |}.
  - apply (bool_decide_eq_true_1 _). vm_compute. reflexivity.
  - intros x. apply (bool_decide_eq_true_1 _). destruct x; vm_compute; reflexivity.
Defined.

(** zkvm/witness.rs *)
Inductive CommittedPolynomial :=
| RdInc | RamInc | CommittedInstructionRa (i : nat) | BytecodeRa (i : nat) | CommittedRamRa (i : nat)
| TrustedAdvicePoly | UntrustedAdvicePoly.
#[export] Instance CommittedPolynomial_eq_dec : EqDecision CommittedPolynomial.
Proof. solve_decision. Defined.
#[export] Instance CommittedPolynomial_countable : Countable CommittedPolynomial.
Proof.
  refine (inj_countable' (fun p => match p with
    | RdInc => (0, 0) | RamInc => (1, 0) | CommittedInstructionRa i => (2, i) | BytecodeRa i => (3, i)
    | CommittedRamRa i => (4, i) | TrustedAdvicePoly => (5, 0) | UntrustedAdvicePoly => (6, 0) end%nat)
    (fun '(k, i) => match k with
    | 0 => RdInc | 1 => RamInc | 2 => CommittedInstructionRa i | 3 => BytecodeRa i | 4 => CommittedRamRa i
    | 5 => TrustedAdvicePoly | _ => UntrustedAdvicePoly end%nat) _).
  by intros [].
Defined.

Inductive VirtualPolynomial :=
| PC | UnexpandedPC | NextPC | NextUnexpandedPC | NextIsNoop | NextIsVirtual | NextIsFirstInSequence
| LeftLookupOperand | RightLookupOperand | LeftInstructionInput | RightInstructionInput | Product
| ShouldJump | ShouldBranch | Rd | Imm | Rs1Value | Rs2Value | RdWriteValue | Rs1Ra | Rs2Ra | RdWa
| LookupOutput | InstructionRaf | InstructionRafFlag | InstructionRa (i : nat) | RegistersVal
| RamAddress | RamRa | RamReadValue | RamWriteValue | RamVal | RamValInit | RamValFinal
| RamHammingWeight | UnivariateSkip | OpFlags (f : CircuitFlags)
| InstructionFlag (f : InstructionFlags) | LookupTableFlag (i : nat).
#[export] Instance VirtualPolynomial_eq_dec : EqDecision VirtualPolynomial.
Proof. solve_decision. Defined.

(** The polynomials without an argument. *)
Definition plain_virtuals : list VirtualPolynomial :=
  [PC; UnexpandedPC; NextPC; NextUnexpandedPC; NextIsNoop; NextIsVirtual; NextIsFirstInSequence;
  LeftLookupOperand; RightLookupOperand; LeftInstructionInput; RightInstructionInput; Product;
  ShouldJump; ShouldBranch; Rd; Imm; Rs1Value; Rs2Value; RdWriteValue; Rs1Ra; Rs2Ra; RdWa; LookupOutput;
  InstructionRaf; InstructionRafFlag; RegistersVal; RamAddress; RamRa; RamReadValue; RamWriteValue;
  RamVal; RamValInit; RamValFinal; RamHammingWeight; UnivariateSkip].
Definition virtual_code (p : VirtualPolynomial) : nat + nat + CircuitFlags + InstructionFlags + nat :=
  match p with
  | InstructionRa i => inl (inl (inl (inr i)))
  | OpFlags f => inl (inl (inr f))
  | InstructionFlag f => inl (inr f)
  | LookupTableFlag i => inr i
  | PC => inl (inl (inl (inl 0%nat)))
  | UnexpandedPC => inl (inl (inl (inl 1%nat)))
  | NextPC => inl (inl (inl (inl 2%nat)))
  | NextUnexpandedPC => inl (inl (inl (inl 3%nat)))
  | NextIsNoop => inl (inl (inl (inl 4%nat)))
  | NextIsVirtual => inl (inl (inl (inl 5%nat)))
  | NextIsFirstInSequence => inl (inl (inl (inl 6%nat)))
  | LeftLookupOperand => inl (inl (inl (inl 7%nat)))
  | RightLookupOperand => inl (inl (inl (inl 8%nat)))
  | LeftInstructionInput => inl (inl (inl (inl 9%nat)))
  | RightInstructionInput => inl (inl (inl (inl 10%nat)))
  | Product => inl (inl (inl (inl 11%nat)))
  | ShouldJump => inl (inl (inl (inl 12%nat)))
  | ShouldBranch => inl (inl (inl (inl 13%nat)))
  | Rd => inl (inl (inl (inl 14%nat)))
  | Imm => inl (inl (inl (inl 15%nat)))
  | Rs1Value => inl (inl (inl (inl 16%nat)))
  | Rs2Value => inl (inl (inl (inl 17%nat)))
  | RdWriteValue => inl (inl (inl (inl 18%nat)))
  | Rs1Ra => inl (inl (inl (inl 19%nat)))
  | Rs2Ra => inl (inl (inl (inl 20%nat)))
  | RdWa => inl (inl (inl (inl 21%nat)))
  | LookupOutput => inl (inl (inl (inl 22%nat)))
  | InstructionRaf => inl (inl (inl (inl 23%nat)))
  | InstructionRafFlag => inl (inl (inl (inl 24%nat)))
  | RegistersVal => inl (inl (inl (inl 25%nat)))
  | RamAddress => inl (inl (inl (inl 26%nat)))
  | RamRa => inl (inl (inl (inl 27%nat)))
  | RamReadValue => inl (inl (inl (inl 28%nat)))
  | RamWriteValue => inl (inl (inl (inl 29%nat)))
  | RamVal => inl (inl (inl (inl 30%nat)))
  | RamValInit => inl (inl (inl (inl 31%nat)))
  | RamValFinal => inl (inl (inl (inl 32%nat)))
  | RamHammingWeight => inl (inl (inl (inl 33%nat)))
  | UnivariateSkip => inl (inl (inl (inl 34%nat)))
  end.
Definition virtual_decode (c : nat + nat + CircuitFlags + InstructionFlags + nat) : VirtualPolynomial :=
  match c with
  | inl (inl (inl (inr i))) => InstructionRa i
  | inl (inl (inr f)) => OpFlags f
  | inl (inr f) => InstructionFlag f
  | inr i => LookupTableFlag i
  | inl (inl (inl (inl k))) => nth k plain_virtuals PC
  end.
#[export] Instance VirtualPolynomial_countable : Countable VirtualPolynomial.
Proof. refine (inj_countable' virtual_code virtual_decode _). by intros []. Defined.

(** ** Openings *)
Inductive AdviceKind := Trusted | Untrusted.
Inductive PolynomialId := Committed (p : CommittedPolynomial) | Virtual (p : VirtualPolynomial).
#[export] Instance PolynomialId_eq_dec : EqDecision PolynomialId.
Proof. solve_decision. Defined.
#[export] Instance PolynomialId_countable : Countable PolynomialId.
Proof.
  refine (inj_countable' (fun p => match p with Committed p => inl p | Virtual p => inr p end)
    (fun c => match c with inl p => Committed p | inr p => Virtual p end) _).
  by intros [].
Defined.

Inductive OpeningId :=
| Polynomial (p : PolynomialId) (sc : SumcheckId) | UntrustedAdvice (sc : SumcheckId) | TrustedAdvice (sc : SumcheckId).
#[export] Instance OpeningId_eq_dec : EqDecision OpeningId.
Proof. solve_decision. Defined.
#[export] Instance OpeningId_countable : Countable OpeningId.
Proof.
  refine (inj_countable' (fun o => match o with
    | Polynomial p sc => inl (p, sc) | UntrustedAdvice sc => inr (inl sc) | TrustedAdvice sc => inr (inr sc) end)
    (fun c => match c with
    | inl (p, sc) => Polynomial p sc | inr (inl sc) => UntrustedAdvice sc | inr (inr sc) => TrustedAdvice sc end) _).
  by intros [].
Defined.

Definition virt (poly : VirtualPolynomial) (sc : SumcheckId) : OpeningId := Polynomial (Virtual poly) sc.
Definition committed (poly : CommittedPolynomial) (sc : SumcheckId) : OpeningId := Polynomial (Committed poly) sc.

Definition underlying_polynomial_id (opening_id : OpeningId) : PolynomialId :=
  match opening_id with
  | Polynomial poly_id _ => poly_id
  | TrustedAdvice _ => Committed TrustedAdvicePoly
  | UntrustedAdvice _ => Committed UntrustedAdvicePoly
  end.
