(* ===== verification/Openings.v ===== *)
(** * Openings: the opening accumulators of the prover and the verifier

    Models [ProverOpeningAccumulator] and [VerifierOpeningAccumulator] of
    [jolt-core/src/poly/opening_proof.rs]: the maps of openings, their index by
    polynomial, the aliases of deduplicated openings, the pending claims and the
    verifier's histories.  Challenges are field elements; [None] is a panic, and
    the result of [resolve_alias] out of fuel, which stands for its loop not
    ending.  What only a test build tracks is left out. *)
From S2P Require Import Prelude Field Poly UniPoly LookupQuery PolynomialIds Transcript Sumcheck.
From stdpp Require Import gmap strings.

Section Accumulators.
Context {F : Type} `{HI : InverseField F}.
#[local] Open Scope field_scope.

(** A point and the claim there. *)
Abbreviation OpeningPoint := (list F).
Abbreviation Opening := (OpeningPoint * F)%type.
Abbreviation Openings := (gmap OpeningId Opening).
Abbreviation Index := (gmap PolynomialId (list OpeningId)).
Abbreviation Aliases := (gmap OpeningId OpeningId).

Record ProverOpeningAccumulator := {
  p_openings : Openings;
  p_opening_ids_by_poly : Index;
  p_aliases : Aliases;
  p_log_T : nat;
  p_pending_claims : list F;
  p_pending_claim_ids : list OpeningId
}.

Record VerifierOpeningAccumulator := {
  v_openings : Openings;
  v_opening_ids_by_poly : Index;
  v_aliases : Aliases;
  v_log_T : nat;
  zk_mode : bool;
  v_pending_claims : list F;
  v_pending_claim_ids : list OpeningId;
  flush_history : option (list (list F));
  sumcheck_input_claims_history : option (list (list F));
  per_instance_output_claims : option (list (list F));
  combined_claims_history : option (list F)
}.

(** ** Shared by both *)

(** [while let Some(next) = self.aliases.get(&key) { key = *next; }] *)
Fixpoint resolve_alias_loop (fuel : nat) (aliases : Aliases) (key : OpeningId) : option OpeningId :=
  match aliases !! key with
  | None => Some key
  | Some next => match fuel with O => None | S fuel => resolve_alias_loop fuel aliases next end
  end.
Definition resolve_alias (aliases : Aliases) (key : OpeningId) : option OpeningId :=
  resolve_alias_loop (size aliases) aliases key.

(** [get_virtual_polynomial_opening], [get_committed_polynomial_opening] and
    [get_advice_opening]; the last returns an option of its own. *)
Definition get_polynomial_opening (openings : Openings) (aliases : Aliases) (requested : OpeningId) : option Opening :=
  key ← resolve_alias aliases requested; openings !! key.
Definition get_virtual_polynomial_opening (openings : Openings) (aliases : Aliases)
    (polynomial : VirtualPolynomial) (sumcheck : SumcheckId) : option Opening :=
  get_polynomial_opening openings aliases (Polynomial (Virtual polynomial) sumcheck).
Definition get_committed_polynomial_opening (openings : Openings) (aliases : Aliases)
    (polynomial : CommittedPolynomial) (sumcheck : SumcheckId) : option Opening :=
  get_polynomial_opening openings aliases (Polynomial (Committed polynomial) sumcheck).
Definition get_advice_opening (openings : Openings) (aliases : Aliases) (kind : AdviceKind) (sumcheck_id : SumcheckId)
    : option (option Opening) :=
  let opening_id := match kind with Trusted => TrustedAdvice sumcheck_id | Untrusted => UntrustedAdvice sumcheck_id end in
  key ← resolve_alias aliases opening_id; Some (openings !! key).

(** The indexed openings of a polynomial, in order, searched for a point; the
    verifier passes over the entries without one. *)
Fixpoint find_in (skip_empty : bool) (openings : Openings) (point : OpeningPoint) (ids : list OpeningId)
    : option (option (OpeningId * F)) :=
  match ids with
  | [] => Some None
  | existing_id :: ids =>
      '(existing_point, existing_claim) ← openings !! existing_id;
      if skip_empty && bool_decide (existing_point = []) then find_in skip_empty openings point ids
      else if bool_decide (existing_point = point) then Some (Some (existing_id, existing_claim))
      else find_in skip_empty openings point ids
  end.
Definition find_existing_opening_at_point (skip_empty : bool) (openings : Openings) (index : Index)
    (poly_id : PolynomialId) (point : OpeningPoint) : option (option (OpeningId * F)) :=
  match index !! poly_id with
  | None => Some None
  | Some ids => find_in skip_empty openings point ids
  end.

(** ** The prover *)
Definition p_new (log_T : nat) : ProverOpeningAccumulator :=
  {| p_openings := ∅; p_opening_ids_by_poly := ∅; p_aliases := ∅; p_log_T := log_T;
     p_pending_claims := []; p_pending_claim_ids := [] |}.

Definition p_index_opening_id (index : Index) (key : OpeningId) : Index :=
  let poly := underlying_polynomial_id key in <[poly := default [] (index !! poly) ++ [key]]> index.

(** Whether the opening was inserted, rather than aliased. *)
Definition insert_or_alias_opening (a : ProverOpeningAccumulator) (key : OpeningId) (point : OpeningPoint) (claim : F)
    : option (bool * ProverOpeningAccumulator) :=
  if decide (is_Some (p_openings a !! key)) then None
  else
    existing ← find_existing_opening_at_point false (p_openings a) (p_opening_ids_by_poly a)
                 (underlying_polynomial_id key) point;
    match existing with
    | Some (existing_id, existing_claim) =>
        if decide (claim = existing_claim) then
          Some (false, {| p_openings := p_openings a; p_opening_ids_by_poly := p_opening_ids_by_poly a;
                          p_aliases := <[key := existing_id]> (p_aliases a); p_log_T := p_log_T a;
                          p_pending_claims := p_pending_claims a; p_pending_claim_ids := p_pending_claim_ids a |})
        else None
    | None =>
        Some (true, {| p_openings := <[key := (point, claim)]> (p_openings a);
                       p_opening_ids_by_poly := p_index_opening_id (p_opening_ids_by_poly a) key;
                       p_aliases := p_aliases a; p_log_T := p_log_T a;
                       p_pending_claims := p_pending_claims a ++ [claim];
                       p_pending_claim_ids := p_pending_claim_ids a ++ [key] |})
    end.

Definition p_append (a : ProverOpeningAccumulator) (key : OpeningId) (point : OpeningPoint) (claim : F)
    : option ProverOpeningAccumulator := snd <$> insert_or_alias_opening a key point claim.
Definition p_append_dense (a : ProverOpeningAccumulator) (polynomial : CommittedPolynomial) (sumcheck : SumcheckId)
    (opening_point : list F) (claim : F) := p_append a (committed polynomial sumcheck) opening_point claim.
Fixpoint p_append_sparse_loop (a : ProverOpeningAccumulator) (polynomials : list CommittedPolynomial)
    (sumcheck : SumcheckId) (r_concat claims : list F) : option ProverOpeningAccumulator :=
  match polynomials, claims with
  | label :: polynomials, claim :: claims =>
      a ← p_append a (committed label sumcheck) r_concat claim;
      p_append_sparse_loop a polynomials sumcheck r_concat claims
  | _, _ => Some a
  end.
Definition p_append_sparse (a : ProverOpeningAccumulator) (polynomials : list CommittedPolynomial)
    (sumcheck : SumcheckId) (r_address r_cycle claims : list F) : option ProverOpeningAccumulator :=
  p_append_sparse_loop a polynomials sumcheck (r_address ++ r_cycle) claims.
Definition p_append_virtual (a : ProverOpeningAccumulator) (polynomial : VirtualPolynomial) (sumcheck : SumcheckId)
    (opening_point : list F) (claim : F) := p_append a (virt polynomial sumcheck) opening_point claim.
Definition p_append_untrusted_advice (a : ProverOpeningAccumulator) (sumcheck_id : SumcheckId) (opening_point : list F)
    (claim : F) := p_append a (UntrustedAdvice sumcheck_id) opening_point claim.
Definition p_append_trusted_advice (a : ProverOpeningAccumulator) (sumcheck_id : SumcheckId) (opening_point : list F)
    (claim : F) := p_append a (TrustedAdvice sumcheck_id) opening_point claim.

Definition get_opening (a : ProverOpeningAccumulator) (key : OpeningId) : option F :=
  snd <$> get_polynomial_opening (p_openings a) (p_aliases a) key.

(** ** The verifier *)
Definition v_new (log_T : nat) (zk_mode : bool) : VerifierOpeningAccumulator :=
  {| v_openings := ∅; v_opening_ids_by_poly := ∅; v_aliases := ∅; v_log_T := log_T; zk_mode := zk_mode;
     v_pending_claims := []; v_pending_claim_ids := []; flush_history := None;
     sumcheck_input_claims_history := None; per_instance_output_claims := None; combined_claims_history := None |}.

(** zkvm/verifier.rs: the claims of a proof without zero knowledge, each with
    an empty point until the verifier derives it. *)
Definition with_claims (opening_claims : Openings) (a : VerifierOpeningAccumulator) : VerifierOpeningAccumulator :=
  {| v_openings := ((fun '(_, claim) => ([], claim)) <$> opening_claims) ∪ v_openings a;
     v_opening_ids_by_poly := v_opening_ids_by_poly a; v_aliases := v_aliases a; v_log_T := v_log_T a;
     zk_mode := zk_mode a; v_pending_claims := v_pending_claims a; v_pending_claim_ids := v_pending_claim_ids a;
     flush_history := flush_history a; sumcheck_input_claims_history := sumcheck_input_claims_history a;
     per_instance_output_claims := per_instance_output_claims a; combined_claims_history := combined_claims_history a |}.

Definition v_index_opening_id (openings : Openings) (index : Index) (key : OpeningId) : Index :=
  match openings !! key with
  | Some (_ :: _, _) =>
      let poly := underlying_polynomial_id key in
      let entry := default [] (index !! poly) in
      if decide (key ∈ entry) then index else <[poly := entry ++ [key]]> index
  | _ => index
  end.

Definition v_alias (a : VerifierOpeningAccumulator) (key existing_id : OpeningId) : VerifierOpeningAccumulator :=
  {| v_openings := v_openings a; v_opening_ids_by_poly := v_opening_ids_by_poly a;
     v_aliases := <[key := existing_id]> (v_aliases a); v_log_T := v_log_T a; zk_mode := zk_mode a;
     v_pending_claims := v_pending_claims a; v_pending_claim_ids := v_pending_claim_ids a;
     flush_history := flush_history a; sumcheck_input_claims_history := sumcheck_input_claims_history a;
     per_instance_output_claims := per_instance_output_claims a; combined_claims_history := combined_claims_history a |}.
Definition v_populate (a : VerifierOpeningAccumulator) (key : OpeningId) (point : OpeningPoint) (claim : F)
    : VerifierOpeningAccumulator :=
  let openings := <[key := (point, claim)]> (v_openings a) in
  {| v_openings := openings; v_opening_ids_by_poly := v_index_opening_id openings (v_opening_ids_by_poly a) key;
     v_aliases := v_aliases a; v_log_T := v_log_T a; zk_mode := zk_mode a;
     v_pending_claims := v_pending_claims a ++ [claim]; v_pending_claim_ids := v_pending_claim_ids a ++ [key];
     flush_history := flush_history a; sumcheck_input_claims_history := sumcheck_input_claims_history a;
     per_instance_output_claims := per_instance_output_claims a; combined_claims_history := combined_claims_history a |}.

Definition populate_or_alias_opening (a : VerifierOpeningAccumulator) (key : OpeningId) (point : OpeningPoint)
    : option VerifierOpeningAccumulator :=
  existing ← find_existing_opening_at_point true (v_openings a) (v_opening_ids_by_poly a)
               (underlying_polynomial_id key) point;
  match v_openings a !! key with
  | Some (_, claim) =>
      match existing with
      | Some (existing_id, existing_claim) =>
          if decide (existing_id = key) then Some (v_populate a key point claim)
          else if decide (claim = existing_claim) then Some (v_alias a key existing_id)
          else None
      | None => Some (v_populate a key point claim)
      end
  | None =>
      match existing with
      | Some (existing_id, _) => Some (v_alias a key existing_id)
      | None => Some (v_populate a key point zero)
      end
  end.

Definition v_append_dense (a : VerifierOpeningAccumulator) (polynomial : CommittedPolynomial) (sumcheck : SumcheckId)
    (opening_point : list F) := populate_or_alias_opening a (committed polynomial sumcheck) opening_point.
Fixpoint v_append_sparse (a : VerifierOpeningAccumulator) (polynomials : list CommittedPolynomial)
    (sumcheck : SumcheckId) (opening_point : list F) : option VerifierOpeningAccumulator :=
  match polynomials with
  | [] => Some a
  | label :: polynomials =>
      a ← populate_or_alias_opening a (committed label sumcheck) opening_point;
      v_append_sparse a polynomials sumcheck opening_point
  end.
Definition v_append_virtual (a : VerifierOpeningAccumulator) (polynomial : VirtualPolynomial) (sumcheck : SumcheckId)
    (opening_point : list F) := populate_or_alias_opening a (virt polynomial sumcheck) opening_point.
Definition v_append_untrusted_advice (a : VerifierOpeningAccumulator) (sumcheck_id : SumcheckId) (opening_point : list F) :=
  populate_or_alias_opening a (UntrustedAdvice sumcheck_id) opening_point.
Definition v_append_trusted_advice (a : VerifierOpeningAccumulator) (sumcheck_id : SumcheckId) (opening_point : list F) :=
  populate_or_alias_opening a (TrustedAdvice sumcheck_id) opening_point.

(** ** The pending claims go to the transcript *)
Section Flush.
Context {T : Type} `{HT : !Transcript F T}.

Definition append_opening_claims (pending_claims : list F) (transcript : T) : T :=
  fold_left (fun t claim => append_scalar "opening_claim"%string claim t) pending_claims transcript.

Definition p_set_pending (claims : list F) (ids : list OpeningId) (a : ProverOpeningAccumulator) : ProverOpeningAccumulator :=
  {| p_openings := p_openings a; p_opening_ids_by_poly := p_opening_ids_by_poly a; p_aliases := p_aliases a;
     p_log_T := p_log_T a; p_pending_claims := claims; p_pending_claim_ids := ids |}.
Definition p_flush_to_transcript (a : ProverOpeningAccumulator) (transcript : T) : ProverOpeningAccumulator * T :=
  (p_set_pending [] [] a, append_opening_claims (p_pending_claims a) transcript).
Definition p_take_pending_claims (a : ProverOpeningAccumulator) : list F * ProverOpeningAccumulator :=
  (p_pending_claims a, p_set_pending [] (p_pending_claim_ids a) a).
Definition p_take_pending_claim_ids (a : ProverOpeningAccumulator) : list OpeningId * ProverOpeningAccumulator :=
  (p_pending_claim_ids a, p_set_pending (p_pending_claims a) [] a).

(** The verifier's state but its openings, their index and their aliases. *)
Definition v_set_histories (claims : list F) (ids : list OpeningId) (flushed inputs outputs : option (list (list F)))
    (combined : option (list F)) (a : VerifierOpeningAccumulator) : VerifierOpeningAccumulator :=
  {| v_openings := v_openings a; v_opening_ids_by_poly := v_opening_ids_by_poly a; v_aliases := v_aliases a;
     v_log_T := v_log_T a; zk_mode := zk_mode a; v_pending_claims := claims; v_pending_claim_ids := ids;
     flush_history := flushed; sumcheck_input_claims_history := inputs; per_instance_output_claims := outputs;
     combined_claims_history := combined |}.
(** [if let Some(ref mut history) = history { history.push(x) }] *)
Definition record {X} (x : X) (history : option (list X)) : option (list X) := (fun h => h ++ [x]) <$> history.

Definition v_flush_to_transcript (a : VerifierOpeningAccumulator) (transcript : T) : VerifierOpeningAccumulator * T :=
  (v_set_histories [] [] (record (v_pending_claims a) (flush_history a)) (sumcheck_input_claims_history a)
     (per_instance_output_claims a) (combined_claims_history a) a,
   append_opening_claims (v_pending_claims a) transcript).
Definition v_take_pending_claims (a : VerifierOpeningAccumulator) : list F * VerifierOpeningAccumulator :=
  (v_pending_claims a,
   v_set_histories [] (v_pending_claim_ids a) (flush_history a) (sumcheck_input_claims_history a)
     (per_instance_output_claims a) (combined_claims_history a) a).
Definition v_take_pending_claim_ids (a : VerifierOpeningAccumulator) : list OpeningId * VerifierOpeningAccumulator :=
  (v_pending_claim_ids a,
   v_set_histories (v_pending_claims a) [] (flush_history a) (sumcheck_input_claims_history a)
     (per_instance_output_claims a) (combined_claims_history a) a).
Definition enable_flush_recording (a : VerifierOpeningAccumulator) : VerifierOpeningAccumulator :=
  v_set_histories (v_pending_claims a) (v_pending_claim_ids a) (Some []) (Some []) (Some []) (Some []) a.
Definition v_record_sumcheck_input_claims (claims : list F) (a : VerifierOpeningAccumulator) : VerifierOpeningAccumulator :=
  v_set_histories (v_pending_claims a) (v_pending_claim_ids a) (flush_history a)
    (record claims (sumcheck_input_claims_history a)) (per_instance_output_claims a) (combined_claims_history a) a.

(** Of subprotocols/sumcheck.rs, on the verifier's histories. *)
Definition v_push_combined_claim (claim : F) (a : VerifierOpeningAccumulator) : VerifierOpeningAccumulator :=
  v_set_histories (v_pending_claims a) (v_pending_claim_ids a) (flush_history a) (sumcheck_input_claims_history a)
    (per_instance_output_claims a) (record claim (combined_claims_history a)) a.
Definition v_push_output_claims (claims : list F) (a : VerifierOpeningAccumulator) : VerifierOpeningAccumulator :=
  v_set_histories (v_pending_claims a) (v_pending_claim_ids a) (flush_history a) (sumcheck_input_claims_history a)
    (record claims (per_instance_output_claims a)) (combined_claims_history a) a.

(** What the protocol asks of each; an instance that panicked leaves [None]. *)
#[export] Instance prover_openings : OpeningState F (option ProverOpeningAccumulator) T :=
  {| flush_to_transcript a t :=
       match a with Some a => let '(a, t) := p_flush_to_transcript a t in (Some a, t) | None => (None, t) end;
     record_sumcheck_input_claims _ a := a; push_combined_claim _ a := a; push_output_claims _ a := a |}.
#[export] Instance verifier_openings : OpeningState F (option VerifierOpeningAccumulator) T :=
  {| flush_to_transcript a t :=
       match a with Some a => let '(a, t) := v_flush_to_transcript a t in (Some a, t) | None => (None, t) end;
     record_sumcheck_input_claims l a := v_record_sumcheck_input_claims l <$> a;
     push_combined_claim c a := v_push_combined_claim c <$> a; push_output_claims l a := v_push_output_claims l <$> a |}.
End Flush.

(** ** Points *)

(** [slice::split_at]. *)
Definition OpeningPoint_split_at (r : OpeningPoint) (mid : nat) : option (OpeningPoint * OpeningPoint) :=
  if (mid <=? length r)%nat then Some (take mid r, drop mid r) else None.
Definition match_endianness (E SWAPPED_E : bool) (r : OpeningPoint) : OpeningPoint :=
  if Bool.eqb E SWAPPED_E then r else rev r.

Definition compute_advice_lagrange_factor (opening_point advice_opening_point : list F) : F :=
  fold_left mul (map (fun r => if decide (r ∈ advice_opening_point) then one else one - r) opening_point) one.
End Accumulators.
