(* ===== verification/OpeningsCorrect.v ===== *)
(** * OpeningsCorrect: the accumulators of the prover and the verifier agree

    A protocol's run is a list of [call]s: the appends of both accumulators, the
    flushes, and whatever else it does to the transcript.  The prover gives back
    what was appended, under an alias too; a verifier that starts from the final
    claims of an honest prover replays its run; and with any claims at all, one
    polynomial has one claim at one point. *)
From S2P Require Import Prelude Field Poly UniPoly LookupQuery PolynomialIds Transcript Sumcheck SumcheckCorrect Openings.
From stdpp Require Import gmap strings.

Section Invariant.
Context {F : Type} `{HI : InverseField F}.
Implicit Types (op : gmap OpeningId (list F * F)) (ix : gmap PolynomialId (list OpeningId)).

(** ** Aliases take one step *)
Definition indexed ix (id : OpeningId) : Prop := id ∈ default [] (ix !! underlying_polynomial_id id).

Record opening_inv op ix (al : gmap OpeningId OpeningId) : Prop := {
  index_keys poly id : id ∈ default [] (ix !! poly) -> underlying_polynomial_id id = poly;
  index_opened id : indexed ix id -> is_Some (op !! id) /\ al !! id = None;
  index_distinct id1 id2 pt c1 c2 : indexed ix id1 -> indexed ix id2 ->
    underlying_polynomial_id id1 = underlying_polynomial_id id2 ->
    op !! id1 = Some (pt, c1) -> op !! id2 = Some (pt, c2) -> id1 = id2;
  alias_indexed key id : al !! key = Some id ->
    indexed ix id /\ underlying_polynomial_id id = underlying_polynomial_id key
}.

Lemma resolve_unaliased (al : gmap OpeningId OpeningId) key : al !! key = None -> resolve_alias al key = Some key.
Proof. intros E. unfold resolve_alias. destruct (size al); simpl; by rewrite E. Qed.

Lemma resolve_aliased (al : gmap OpeningId OpeningId) key id :
  al !! key = Some id -> al !! id = None -> resolve_alias al key = Some id.
Proof.
  intros E E'. unfold resolve_alias. destruct (size al) as [|n] eqn:Hs.
  - apply map_size_empty_iff in Hs. by rewrite Hs in E.
  - simpl. rewrite E. destruct n; simpl; by rewrite E'.
Qed.

(** The loop of [resolve_alias] ends, at an opening if the key has an alias. *)
Lemma resolve_total op ix al key : opening_inv op ix al ->
  exists id, resolve_alias al key = Some id /\ underlying_polynomial_id id = underlying_polynomial_id key /\
    (al !! key = Some id /\ indexed ix id \/ al !! key = None /\ id = key).
Proof.
  intros Hv. destruct (al !! key) as [id|] eqn:E.
  - destruct (alias_indexed _ _ _ Hv _ _ E) as [Hi Hu]. exists id.
    split; [by apply resolve_aliased, (index_opened _ _ _ Hv)|]. by split; [|left].
  - exists key. split; [by apply resolve_unaliased|]. by split; [|right].
Qed.

(** ** The search by point *)
Lemma find_in_spec skip op pt ids : pt <> [] -> Forall (fun id => is_Some (op !! id)) ids ->
  match find_in skip op pt ids with
  | Some (Some (id, c)) => id ∈ ids /\ op !! id = Some (pt, c)
  | Some None => forall id c, id ∈ ids -> op !! id <> Some (pt, c)
  | None => False
  end.
Proof.
  intros Hpt. induction 1 as [|id ids [[pt' c] E] Hf IH]; simpl.
  { intros id c Hin. by apply elem_of_nil in Hin. }
  rewrite E. simpl.
  assert (Hrec : pt' <> pt -> match find_in skip op pt ids with
    | Some (Some (id', c)) => id' ∈ id :: ids /\ op !! id' = Some (pt, c)
    | Some None => forall id' c, id' ∈ id :: ids -> op !! id' <> Some (pt, c)
    | None => False
    end).
  { intros Hne. destruct (find_in skip op pt ids) as [[[id' c']|]|]; [| |done].
    - destruct IH; split; [|done]. by right.
    - intros id' c' Hin. apply elem_of_cons in Hin as [->|Hin]; [|by apply IH]. rewrite E. congruence. }
  destruct (skip && bool_decide (pt' = [])) eqn:Es.
  { apply Hrec. apply andb_prop in Es as [_ Es%bool_decide_eq_true]. by subst. }
  clear Es. case_bool_decide as Ep; [|by apply Hrec]. subst. split; [by left|done].
Qed.

Lemma find_existing_spec skip op ix al poly pt : opening_inv op ix al -> pt <> [] ->
  match find_existing_opening_at_point skip op ix poly pt with
  | Some (Some (id, c)) => indexed ix id /\ underlying_polynomial_id id = poly /\ op !! id = Some (pt, c)
  | Some None => forall id c, indexed ix id -> underlying_polynomial_id id = poly -> op !! id <> Some (pt, c)
  | None => False
  end.
Proof.
  intros Hv Hpt. unfold find_existing_opening_at_point.
  destruct (ix !! poly) as [ids|] eqn:E.
  2: { intros id c Hin <-. unfold indexed in Hin. rewrite E in Hin. by apply elem_of_nil in Hin. }
  assert (Hid : forall id, id ∈ ids -> underlying_polynomial_id id = poly).
  { intros id Hin. apply (index_keys _ _ _ Hv). by rewrite E. }
  assert (Hix : forall id, id ∈ ids -> indexed ix id).
  { intros id Hin. unfold indexed. rewrite (Hid id Hin), E. done. }
  assert (Hall : Forall (fun id => is_Some (op !! id)) ids).
  { apply list.Forall_forall. intros id Hin. by apply (index_opened _ _ _ Hv), Hix. }
  pose proof (find_in_spec skip op pt ids Hpt Hall) as Hs.
  destruct (find_in skip op pt ids) as [[[id c]|]|]; [| |done].
  - destruct Hs. auto.
  - intros id c Hin Hu. apply Hs. unfold indexed in Hin. rewrite Hu, E in Hin. done.
Qed.

(** What was looked up at the end stays: openings and aliases only gain keys. *)
Lemma find_in_agree skip op op' pt ids :
  Forall (fun id => op' !! id = op !! id /\ is_Some (op !! id) /\ (forall c, op !! id <> Some ([], c))) ids ->
  find_in skip op' pt ids = find_in false op pt ids.
Proof.
  induction 1 as [|id ids (E & [[pt' c] E'] & Hne) Hf IH]; [done|]. simpl. rewrite E, E'. simpl.
  rewrite IH. case_bool_decide as Ee; [subst; by destruct (Hne c)|]. by rewrite andb_false_r.
Qed.

(** ** Its preservation *)
Lemma indexed_add ix key id : indexed (p_index_opening_id ix key) id <-> id = key \/ indexed ix id.
Proof.
  unfold indexed, p_index_opening_id.
  destruct (decide (underlying_polynomial_id id = underlying_polynomial_id key)) as [E|E].
  - rewrite E, lookup_insert_eq. simpl. rewrite elem_of_app, list_elem_of_singleton. tauto.
  - rewrite lookup_insert_ne by done. split; [by right|]. intros [->|]; done.
Qed.

Lemma opening_inv_insert op ix al key pt c : opening_inv op ix al -> pt <> [] -> al !! key = None -> ~ indexed ix key ->
  (forall id c, indexed ix id -> underlying_polynomial_id id = underlying_polynomial_id key -> op !! id <> Some (pt, c)) ->
  opening_inv (<[key := (pt, c)]> op) (p_index_opening_id ix key) al.
Proof.
  intros Hv Hpt Hal Hk Hnew. split.
  - intros poly id Hin. unfold p_index_opening_id in Hin.
    destruct (decide (poly = underlying_polynomial_id key)) as [->|Hne].
    + rewrite lookup_insert_eq in Hin. simpl in Hin. apply elem_of_app in Hin as [Hin|Hin%list_elem_of_singleton]; [|by subst].
      by apply (index_keys _ _ _ Hv).
    + rewrite lookup_insert_ne in Hin by done. by apply (index_keys _ _ _ Hv).
  - intros id [->|Hin]%indexed_add; [by rewrite lookup_insert_eq; split|].
    rewrite lookup_insert_ne by (by intros ->). by apply (index_opened _ _ _ Hv).
  - intros id1 id2 pt' c1 c2 [->|H1]%indexed_add [->|H2]%indexed_add Hu E1 E2; [done| | |].
    + rewrite lookup_insert_eq in E1. rewrite lookup_insert_ne in E2 by (by intros ->). simplify_eq.
      by destruct (Hnew id2 c2 H2).
    + rewrite lookup_insert_eq in E2. rewrite lookup_insert_ne in E1 by (by intros ->). simplify_eq.
      by destruct (Hnew id1 c1 H1).
    + rewrite lookup_insert_ne in E1, E2 by (by intros ->). by apply (index_distinct _ _ _ Hv id1 id2 pt' c1 c2).
  - intros k id E. destruct (alias_indexed _ _ _ Hv _ _ E). split; [|done]. apply indexed_add. by right.
Qed.

Lemma opening_inv_alias op ix al key id : opening_inv op ix al -> ~ indexed ix key -> indexed ix id ->
  underlying_polynomial_id id = underlying_polynomial_id key -> opening_inv op ix (<[key := id]> al).
Proof.
  intros Hv Hk Hi Hu. split; [exact (index_keys _ _ _ Hv)| |exact (index_distinct _ _ _ Hv)|].
  - intros id' Hin. rewrite lookup_insert_ne by (by intros <-). by apply (index_opened _ _ _ Hv).
  - intros k id' E. destruct (decide (key = k)) as [<-|Hne].
    + rewrite lookup_insert_eq in E. by simplify_eq.
    + rewrite lookup_insert_ne in E by done. by apply (alias_indexed _ _ _ Hv).
Qed.

Lemma opening_inv_empty op : opening_inv op ∅ ∅.
Proof.
  split; unfold indexed; intros *; rewrite ?lookup_empty; simpl; [by intros ?%elem_of_nil..|done].
Qed.
End Invariant.

(** ** A protocol's calls *)
Inductive call (F T : Type) :=
| CallDense (polynomial : CommittedPolynomial) (sc : SumcheckId) (point : list F) (claim : F)
| CallSparse (polynomials : list CommittedPolynomial) (sc : SumcheckId) (r_address r_cycle claims : list F)
| CallVirtual (polynomial : VirtualPolynomial) (sc : SumcheckId) (point : list F) (claim : F)
| CallUntrustedAdvice (sc : SumcheckId) (point : list F) (claim : F)
| CallTrustedAdvice (sc : SumcheckId) (point : list F) (claim : F)
| CallFlush
| CallTranscript (f : T -> T).
Arguments CallDense {F T}. Arguments CallSparse {F T}. Arguments CallVirtual {F T}.
Arguments CallUntrustedAdvice {F T}. Arguments CallTrustedAdvice {F T}. Arguments CallFlush {F T}.
Arguments CallTranscript {F T}.

Section Runs.
Context {F : Type} `{HI : InverseField F}.
Context {T : Type} `{HT : !Transcript F T}.
Abbreviation PA := (@ProverOpeningAccumulator F).
Abbreviation VA := (@VerifierOpeningAccumulator F).
Abbreviation append := (OpeningId * list F * F)%type.

(** Each side's own methods; the verifier gives the points only. *)
Definition p_call (s : PA * T) (c : call F T) : option (PA * T) :=
  let '(a, t) := s in
  match c with
  | CallDense p sc pt claim => a ← p_append_dense a p sc pt claim; Some (a, t)
  | CallSparse ps sc ra rc claims => a ← p_append_sparse a ps sc ra rc claims; Some (a, t)
  | CallVirtual p sc pt claim => a ← p_append_virtual a p sc pt claim; Some (a, t)
  | CallUntrustedAdvice sc pt claim => a ← p_append_untrusted_advice a sc pt claim; Some (a, t)
  | CallTrustedAdvice sc pt claim => a ← p_append_trusted_advice a sc pt claim; Some (a, t)
  | CallFlush => Some (p_flush_to_transcript a t)
  | CallTranscript f => Some (a, f t)
  end.
Definition v_call (s : VA * T) (c : call F T) : option (VA * T) :=
  let '(a, t) := s in
  match c with
  | CallDense p sc pt _ => a ← v_append_dense a p sc pt; Some (a, t)
  | CallSparse ps sc ra rc _ => a ← v_append_sparse a ps sc (ra ++ rc); Some (a, t)
  | CallVirtual p sc pt _ => a ← v_append_virtual a p sc pt; Some (a, t)
  | CallUntrustedAdvice sc pt _ => a ← v_append_untrusted_advice a sc pt; Some (a, t)
  | CallTrustedAdvice sc pt _ => a ← v_append_trusted_advice a sc pt; Some (a, t)
  | CallFlush => Some (v_flush_to_transcript a t)
  | CallTranscript f => Some (a, f t)
  end.

Fixpoint p_run (calls : list (call F T)) (s : PA * T) : option (PA * T) :=
  match calls with [] => Some s | c :: calls => s ← p_call s c; p_run calls s end.
Fixpoint v_run (calls : list (call F T)) (s : VA * T) : option (VA * T) :=
  match calls with [] => Some s | c :: calls => s ← v_call s c; v_run calls s end.

(** What a call appends: the openings with their points and claims. *)
Definition appends (c : call F T) : list append :=
  match c with
  | CallDense p sc pt claim => [(committed p sc, pt, claim)]
  | CallSparse ps sc ra rc claims => zip_with (fun p claim => (committed p sc, ra ++ rc, claim)) ps claims
  | CallVirtual p sc pt claim => [(virt p sc, pt, claim)]
  | CallUntrustedAdvice sc pt claim => [(UntrustedAdvice sc, pt, claim)]
  | CallTrustedAdvice sc pt claim => [(TrustedAdvice sc, pt, claim)]
  | _ => []
  end.
Definition append_key (x : append) : OpeningId := fst (fst x).
Definition keys (calls : list (call F T)) : list OpeningId := map append_key (concat (map appends calls)).

(** A protocol opens at points with coordinates, gives as many claims as
    polynomials, and names each opening once. *)
Definition proper_call (c : call F T) : Prop :=
  Forall (fun x => snd (fst x) <> []) (appends c) /\
  match c with CallSparse ps _ _ _ claims => length ps = length claims | _ => True end.
Definition proper (calls : list (call F T)) : Prop := Forall proper_call calls /\ NoDup (keys calls).

Fixpoint p_appends (a : PA) (l : list append) : option PA :=
  match l with [] => Some a | (key, pt, claim) :: l => a ← p_append a key pt claim; p_appends a l end.
Fixpoint v_appends (a : VA) (l : list append) : option VA :=
  match l with [] => Some a | (key, pt, _) :: l => a ← populate_or_alias_opening a key pt; v_appends a l end.

Definition silent (c : call F T) : Prop := match c with CallFlush => False | _ => True end.
Definition after_call (c : call F T) (t : T) : T := match c with CallTranscript f => f t | _ => t end.

Lemma p_sparse_appends ps sc r claims a :
  p_append_sparse_loop a ps sc r claims = p_appends a (zip_with (fun p claim => (committed p sc, r, claim)) ps claims).
Proof.
  revert claims a. induction ps as [|p ps IH]; intros [|c claims] a; try done. simpl.
  destruct (p_append a (committed p sc) r c); simpl; [apply IH|done].
Qed.
Lemma v_sparse_appends ps sc r claims a : length ps = length claims ->
  v_append_sparse a ps sc r = v_appends a (zip_with (fun p claim => (committed p sc, r, claim)) ps claims).
Proof.
  revert claims a. induction ps as [|p ps IH]; intros [|c claims] a Hl; try done. simpl.
  destruct (populate_or_alias_opening a (committed p sc) r); simpl; [apply IH; simpl in Hl; lia|done].
Qed.

Lemma p_call_appends a t c : silent c -> p_call (a, t) c = a ← p_appends a (appends c); Some (a, after_call c t).
Proof.
  destruct c; intros Hs; simpl; try done;
    unfold p_append_dense, p_append_virtual, p_append_untrusted_advice, p_append_trusted_advice, p_append_sparse;
    try (destruct (p_append _ _ _ _); done).
  by rewrite p_sparse_appends.
Qed.
Lemma v_call_appends a t c : silent c -> proper_call c ->
  v_call (a, t) c = a ← v_appends a (appends c); Some (a, after_call c t).
Proof.
  destruct c; intros Hs [_ Hp]; simpl; try done;
    unfold v_append_dense, v_append_virtual, v_append_untrusted_advice, v_append_trusted_advice;
    try (destruct (populate_or_alias_opening _ _ _); done).
  by rewrite (v_sparse_appends _ _ _ claims).
Qed.

(** ** The prover gives back what was appended *)
Definition p_inv (a : PA) : Prop :=
  opening_inv (p_openings a) (p_opening_ids_by_poly a) (p_aliases a) /\ forall k (c : F), p_openings a !! k <> Some ([], c).
Definition p_get (a : PA) (key : OpeningId) : option (list F * F) :=
  get_polynomial_opening (p_openings a) (p_aliases a) key.
(** Nothing is forgotten, and only the keys of [l] are new. *)
Definition p_extends (l : list OpeningId) (a a' : PA) : Prop :=
  p_openings a ⊆ p_openings a' /\
  (forall k, is_Some (p_openings a !! k) -> p_aliases a' !! k = p_aliases a !! k) /\
  forall k, k ∉ l -> p_openings a' !! k = p_openings a !! k /\ p_aliases a' !! k = p_aliases a !! k.

Lemma p_extends_refl a : p_extends [] a a.
Proof. by split. Qed.
Lemma p_extends_trans l1 l2 a1 a2 a3 : p_extends l1 a1 a2 -> p_extends l2 a2 a3 -> p_extends (l1 ++ l2) a1 a3.
Proof.
  intros (H1 & H1' & H2) (H3 & H3' & H4). split; [by transitivity (p_openings a2)|]. split.
  { intros k [x Hx]. rewrite H3'; [by apply H1'; eexists|]. exists x. by apply (lookup_weaken _ _ _ _ Hx). }
  intros k Hk. rewrite elem_of_app in Hk. destruct (H2 k), (H4 k); try tauto. split; congruence.
Qed.

Lemma p_append_spec a key pt claim a' : p_inv a -> pt <> [] -> p_aliases a !! key = None ->
  p_append a key pt claim = Some a' ->
  p_inv a' /\ p_extends [key] a a' /\ p_get a' key = Some (pt, claim).
Proof.
  intros [Hv Hne] Hpt Hal. unfold p_append, insert_or_alias_opening.
  case_decide as Ho; [done|].
  assert (Hno : p_openings a !! key = None) by (destruct (p_openings a !! key); [by destruct Ho|done]).
  assert (Hni : ~ indexed (p_opening_ids_by_poly a) key) by (intros Hi; by apply Ho, (index_opened _ _ _ Hv)).
  pose proof (find_existing_spec false _ _ _ (underlying_polynomial_id key) pt Hv Hpt) as Hf.
  destruct (find_existing_opening_at_point _ _ _ _ _) as [[[id c]|]|] eqn:Ef; [| |done]; simpl.
  - destruct Hf as (Hi & Hu & E). case_decide as Ec; [|done]. intros [= <-]. subst. unfold p_inv, p_extends, p_get. simpl.
    split; [split; [by apply opening_inv_alias|done]|]. split; [split; [done|split]|].
    + intros k Hk. by rewrite lookup_insert_ne by (by intros ->).
    + intros k Hk%not_elem_of_cons. rewrite lookup_insert_ne by (intros ->; tauto). done.
    + unfold get_polynomial_opening. rewrite (resolve_aliased _ _ id); [done|by rewrite lookup_insert_eq|].
      rewrite lookup_insert_ne by (by intros ->). by apply (index_opened _ _ _ Hv).
  - intros [= <-]. unfold p_inv, p_extends, p_get. simpl. split; [split|split; [split; [|split]|]].
    + by apply opening_inv_insert.
    + intros k c. destruct (decide (key = k)) as [<-|Hk]; [rewrite lookup_insert_eq; congruence|].
      rewrite lookup_insert_ne by done. by apply Hne.
    + by apply insert_subseteq.
    + done.
    + intros k Hk%not_elem_of_cons. rewrite lookup_insert_ne by (intros ->; tauto). done.
    + unfold get_polynomial_opening. rewrite resolve_unaliased by done. simpl. by rewrite lookup_insert_eq.
Qed.

(** A later run keeps what a key opens to. *)
Lemma p_get_kept l a a' key : p_inv a -> p_extends l a a' -> key ∉ l -> is_Some (p_get a key) -> p_get a' key = p_get a key.
Proof.
  intros [Hv _] (Hsub & Hal & Hk) Hl [x Hx]. unfold p_get, get_polynomial_opening in *.
  destruct (resolve_total _ _ _ key Hv) as (id & Hr & _ & [[E Hi]|[E ->]]); rewrite Hr in Hx |- *; simpl in Hx |- *; rewrite Hx.
  - destruct (index_opened _ _ _ Hv id Hi) as [Hs Hn].
    rewrite (resolve_aliased _ key id); simpl; [by apply (lookup_weaken _ _ _ _ Hx)| |].
    + by rewrite (proj2 (Hk key Hl)).
    + by rewrite (Hal id Hs).
  - rewrite resolve_unaliased; simpl; [by apply (lookup_weaken _ _ _ _ Hx)|]. by rewrite (proj2 (Hk key Hl)).
Qed.

(** The same of a list of appends, of a call and of a run: those of a run with
    fresh keys are all given back. *)
Definition given_back (l : list append) (a : PA) : Prop :=
  Forall (fun '(key, pt, claim) => p_get a key = Some (pt, claim)) l.
Definition fresh_for (l : list append) (a : PA) : Prop :=
  Forall (fun x => p_aliases a !! append_key x = None /\ snd (fst x) <> []) l /\ NoDup (map append_key l).

Lemma given_back_kept l l' a a' : p_inv a -> p_extends l' a a' -> given_back l a ->
  Forall (fun k => k ∉ l') (map append_key l) -> given_back l a'.
Proof.
  intros Hv Hx Hg Hl. unfold given_back in *. rewrite list.Forall_forall in Hg. rewrite list.Forall_forall in Hl.
  apply list.Forall_forall. intros [[key pt] c] Hin.
  specialize (Hg _ Hin). simpl in Hg. rewrite (p_get_kept l' a a' key); [done..| |by eexists].
  apply Hl. apply list_elem_of_In, (in_map append_key _ _ (proj1 (list_elem_of_In _ _) Hin)).
Qed.

Lemma fresh_for_tail key pt claim l a a1 : fresh_for ((key, pt, claim) :: l) a -> p_extends [key] a a1 -> fresh_for l a1.
Proof.
  intros [Hf Hd] (_ & _ & Hk). simpl in Hd. apply NoDup_cons in Hd as [Hnk Hd].
  apply list.Forall_cons in Hf as [_ Hf]. split; [|done]. rewrite list.Forall_forall in Hf.
  apply list.Forall_forall. intros x Hin. destruct (Hf x Hin). split; [|done].
  destruct (Hk (append_key x)) as [_ ->]; [|done]. rewrite list_elem_of_singleton. intros Ex. apply Hnk.
  change (append_key (key, pt, claim)) with key. rewrite <- Ex. apply list_elem_of_In, in_map, list_elem_of_In, Hin.
Qed.

Lemma fresh_for_call (c : call F T) a : proper_call c -> NoDup (map append_key (appends c)) ->
  Forall (fun k => p_aliases a !! k = None) (map append_key (appends c)) -> fresh_for (appends c) a.
Proof.
  intros [Hp _] Hd Hal. split; [|done]. rewrite list.Forall_forall in Hal. rewrite list.Forall_forall in Hp.
  apply list.Forall_forall. intros x Hin.
  split; [|by apply Hp]. apply Hal. apply list_elem_of_In, in_map, list_elem_of_In, Hin.
Qed.

Lemma p_appends_spec l : forall a a', p_inv a -> fresh_for l a -> p_appends a l = Some a' ->
  p_inv a' /\ p_extends (map append_key l) a a' /\ given_back l a'.
Proof.
  induction l as [|[[key pt] claim] l IH]; intros a a' Hv Hf E; simpl in E |- *.
  { simplify_eq. split; [done|]. by split; [apply p_extends_refl|constructor]. }
  destruct (p_append a key pt claim) as [a1|] eqn:E1; [|done]. simpl in E.
  pose proof Hf as [[[Hal Hpt] _]%list.Forall_cons [Hnk _]%NoDup_cons].
  destruct (p_append_spec _ _ _ _ _ Hv Hpt Hal E1) as (Hv1 & Hx1 & Hg1).
  destruct (IH a1 a' Hv1) as (Hv' & Hx' & Hg'); [by apply (fresh_for_tail key pt claim _ a)|done|].
  split; [done|]. split; [by apply (p_extends_trans [key] _ _ a1)|].
  constructor; [|done]. by rewrite (p_get_kept _ a1 a' key Hv1 Hx' Hnk).
Qed.

Lemma keys_cons (c : call F T) calls : keys (c :: calls) = map append_key (appends c) ++ keys calls.
Proof. unfold keys. simpl. by rewrite map_app. Qed.

Lemma p_call_spec c a t a' t' : p_inv a -> proper_call c -> NoDup (map append_key (appends c)) ->
  Forall (fun k => p_aliases a !! k = None) (map append_key (appends c)) -> p_call (a, t) c = Some (a', t') ->
  p_inv a' /\ p_extends (map append_key (appends c)) a a' /\ given_back (appends c) a'.
Proof.
  intros Hv Hp Hd Hal E. assert (Hc : silent c \/ c = CallFlush) by (destruct c; simpl; auto).
  destruct Hc as [Hc| ->].
  - rewrite p_call_appends in E by done. destruct (p_appends a (appends c)) as [a1|] eqn:E1; simplify_eq/=.
    exact (p_appends_spec _ a _ Hv (fresh_for_call c a Hp Hd Hal) E1).
  - cbn in E. injection E as <- <-. split; [exact Hv|]. split; [exact (p_extends_refl a)|constructor].
Qed.

Lemma unaliased_later l1 l2 a a1 : p_extends l1 a a1 -> (forall k, k ∈ l1 -> k ∉ l2) ->
  Forall (fun k => p_aliases a !! k = None) l2 -> Forall (fun k => p_aliases a1 !! k = None) l2.
Proof.
  intros (_ & _ & Hk) Hd Hal. rewrite list.Forall_forall in Hal. apply list.Forall_forall. intros k Hin.
  rewrite (proj2 (Hk k (fun Hin' => Hd k Hin' Hin))). by apply Hal.
Qed.

Lemma p_run_spec calls : forall a t a' t', p_inv a -> proper calls ->
  Forall (fun k => p_aliases a !! k = None) (keys calls) -> p_run calls (a, t) = Some (a', t') ->
  p_inv a' /\ p_extends (keys calls) a a' /\ given_back (concat (map appends calls)) a'.
Proof.
  induction calls as [|c calls IH]; intros a t a' t' Hv [Hp Hd] Hal E.
  { simplify_eq/=. split; [done|]. split; [by apply p_extends_refl|constructor]. }
  apply list.Forall_cons in Hp as [Hc Hp]. rewrite keys_cons in Hd, Hal |- *.
  apply NoDup_app in Hd as (Hd1 & Hdis & Hd2). apply Forall_app in Hal as [Hal1 Hal2].
  cbn [p_run] in E. destruct (p_call (a, t) c) as [[a1 t1]|] eqn:E1; [|done]. cbn in E.
  destruct (p_call_spec c a t a1 t1) as (Hv1 & Hx1 & Hg1); [done..|].
  destruct (IH a1 t1 a' t') as (Hv' & Hx' & Hg'); [done|by split| |done|].
  { by apply (unaliased_later (map append_key (appends c)) _ a). }
  split; [done|]. split; [by apply (p_extends_trans _ _ _ a1)|].
  simpl. apply Forall_app. split; [|done]. apply (given_back_kept _ (keys calls) a1); [done..|].
  apply list.Forall_forall. exact Hdis.
Qed.

Lemma p_new_inv log_T : p_inv (p_new log_T).
Proof. split; [apply opening_inv_empty|done]. Qed.
Lemma p_new_fresh log_T (l : list OpeningId) : Forall (fun k => p_aliases (p_new (F := F) log_T) !! k = None) l.
Proof. by apply list.Forall_forall. Qed.

(** What a prover's protocol appends is what the accumulator gives back, the
    deduplicated openings included: after a run that panics nowhere, every opening
    appended reads as the point and the claim it was appended with (and so the
    alias of each is resolved in finitely many steps). *)
Theorem prover_gives_back calls log_T t a t' : proper calls -> p_run calls (p_new log_T, t) = Some (a, t') ->
  Forall (fun '(key, pt, claim) => get_polynomial_opening (p_openings a) (p_aliases a) key = Some (pt, claim))
    (concat (map appends calls)).
Proof. intros Hp E. by apply (p_run_spec calls _ _ _ _ (p_new_inv log_T) Hp (p_new_fresh log_T _) E). Qed.

(** ** The verifier replays an honest prover *)

(** Both at the same place of a run that ends with the openings [fin]: those not
    reached yet wait at the verifier's with their final claim and no point. *)
Record mirrors (fin : gmap OpeningId (list F * F)) (a : PA) (b : VA) : Prop := {
  mirror_inv : p_inv a;
  mirror_fin : p_openings a ⊆ fin;
  mirror_index : v_opening_ids_by_poly b = p_opening_ids_by_poly a;
  mirror_aliases : v_aliases b = p_aliases a;
  mirror_claims : v_pending_claims b = p_pending_claims a;
  mirror_ids : v_pending_claim_ids b = p_pending_claim_ids a;
  mirror_openings k : v_openings b !! k =
    match p_openings a !! k with Some x => Some x | None => (fun '(_, claim) => ([], claim)) <$> fin !! k end
}.

Lemma mirrors_find fin a b poly pt : mirrors fin a b ->
  find_existing_opening_at_point true (v_openings b) (v_opening_ids_by_poly b) poly pt =
  find_existing_opening_at_point false (p_openings a) (p_opening_ids_by_poly a) poly pt.
Proof.
  intros [[Hv Hne] _ Ei _ _ _ Eo]. unfold find_existing_opening_at_point. rewrite Ei.
  destruct (p_opening_ids_by_poly a !! poly) as [ids|] eqn:E; [|done]. apply find_in_agree.
  apply list.Forall_forall. intros id Hin.
  assert (Hu : underlying_polynomial_id id = poly) by (apply (index_keys _ _ _ Hv); by rewrite E).
  destruct (index_opened _ _ _ Hv id) as [[x Hx] _]; [unfold indexed; by rewrite Hu, E|].
  split; [by rewrite Eo, Hx|]. split; [by eexists|apply Hne].
Qed.

(** A key not indexed yet is indexed last, by both. *)
Lemma v_index_new (op : gmap OpeningId (list F * F)) ix key pt claim : pt <> [] -> ~ indexed ix key ->
  v_index_opening_id (<[key := (pt, claim)]> op) ix key = p_index_opening_id ix key.
Proof.
  intros Hpt Hk. unfold v_index_opening_id. rewrite lookup_insert_eq.
  destruct pt as [|x pt]; [done|]. case_decide as Hin; [by destruct (Hk Hin)|done].
Qed.

Lemma mirrors_append fin a b key pt claim a' : mirrors fin a b -> pt <> [] -> p_aliases a !! key = None ->
  p_append a key pt claim = Some a' -> p_openings a' ⊆ fin -> (p_openings a' !! key = None -> fin !! key = None) ->
  exists b', populate_or_alias_opening b key pt = Some b' /\ mirrors fin a' b'.
Proof.
  intros Hm Hpt Hal Ea Hfin Hlast.
  destruct (p_append_spec _ _ _ _ _ (mirror_inv _ _ _ Hm) Hpt Hal Ea) as (Hv' & _ & _).
  unfold populate_or_alias_opening. rewrite (mirrors_find fin a) by done.
  pose proof Hm as [[Hv Hne] Hsub Ei El Ec Ek Eo]. unfold p_append, insert_or_alias_opening in Ea.
  case_decide as Ho; [done|].
  assert (Hno : p_openings a !! key = None) by (destruct (p_openings a !! key); [by destruct Ho|done]).
  pose proof (find_existing_spec false _ _ _ (underlying_polynomial_id key) pt Hv Hpt) as Hf.
  destruct (find_existing_opening_at_point _ _ _ _ _) as [[[id c]|]|] eqn:Ef; [| |done]; simpl in Ea |- *.
  - case_decide as Ecl; simplify_eq/=. specialize (Hlast Hno).
    rewrite Eo, Hno, Hlast. simpl. eexists. split; [done|]. split; simpl; try done. by rewrite El.
  - simplify_eq/=. assert (Hfk : fin !! key = Some (pt, claim)).
    { apply (lookup_weaken _ _ _ _ (lookup_insert_eq _ _ _) Hfin). }
    rewrite Eo, Hno, Hfk. simpl. eexists. split; [done|]. split; simpl; try done.
    + rewrite v_index_new, Ei; [done..|]. rewrite Ei. intros Hi. by apply Ho, (index_opened _ _ _ Hv).
    + by rewrite Ec.
    + by rewrite Ek.
    + intros k. destruct (decide (key = k)) as [<-|Hk]; [by rewrite !lookup_insert_eq|].
      rewrite !lookup_insert_ne by done. apply Eo.
Qed.

(** What the run leaves unopened among its keys stays so until the end. *)
Definition settled (fin : gmap OpeningId (list F * F)) (l : list OpeningId) (a : PA) : Prop :=
  p_openings a ⊆ fin /\ forall k, k ∈ l -> p_openings a !! k = None -> fin !! k = None.

Lemma settled_before fin l1 l2 a a' : p_extends l2 a a' -> settled fin (l1 ++ l2) a' -> (forall k, k ∈ l1 -> k ∉ l2) ->
  settled fin l1 a.
Proof.
  intros (Hsub & _ & Hk) [Hf Hs] Hd. split; [by transitivity (p_openings a')|].
  intros k Hin E. apply Hs; [apply elem_of_app; by left|]. by rewrite (proj1 (Hk k (Hd k Hin))).
Qed.
Lemma settled_suffix fin l1 l2 a : settled fin (l1 ++ l2) a -> settled fin l2 a.
Proof. intros [Hf Hs]. split; [done|]. intros k Hin. apply Hs, elem_of_app. by right. Qed.

Lemma mirrors_appends fin l : forall a b a', mirrors fin a b -> fresh_for l a -> p_appends a l = Some a' ->
  settled fin (map append_key l) a' -> exists b', v_appends b l = Some b' /\ mirrors fin a' b'.
Proof.
  induction l as [|[[key pt] claim] l IH]; intros a b a' Hm Hf E Hs; simpl in E |- *.
  { simplify_eq. by exists b. }
  destruct (p_append a key pt claim) as [a1|] eqn:E1; [|done]. simpl in E.
  pose proof Hf as [[[Hal Hpt] _]%list.Forall_cons [Hnk _]%NoDup_cons].
  destruct (p_append_spec _ _ _ _ _ (mirror_inv _ _ _ Hm) Hpt Hal E1) as (Hv1 & Hx1 & _).
  pose proof (fresh_for_tail _ _ _ _ _ _ Hf Hx1) as Hf1.
  destruct (p_appends_spec l a1 a' Hv1 Hf1 E) as (_ & Hx' & _).
  destruct (settled_before fin [key] (map append_key l) a1 a') as [Hsub Hk]; [done..|by intros k ->%list_elem_of_singleton|].
  destruct (mirrors_append fin a b key pt claim a1) as (b1 & -> & Hm1); [done..|apply Hk, list_elem_of_singleton; done|].
  simpl. apply (IH a1); [done..|]. exact (settled_suffix fin [key] _ a' Hs).
Qed.

Lemma flush_mirrors fin a b (t : T) : mirrors fin a b ->
  snd (v_flush_to_transcript b t) = snd (p_flush_to_transcript a t) /\
  mirrors fin (fst (p_flush_to_transcript a t)) (fst (v_flush_to_transcript b t)).
Proof.
  intros [Hv Hsub Ei El Ec Ek Eo]. unfold v_flush_to_transcript, p_flush_to_transcript. simpl. rewrite Ec.
  split; [done|]. by split.
Qed.

Lemma mirrors_call fin c a b t a' t' : mirrors fin a b -> proper_call c -> NoDup (map append_key (appends c)) ->
  Forall (fun k => p_aliases a !! k = None) (map append_key (appends c)) -> p_call (a, t) c = Some (a', t') ->
  settled fin (map append_key (appends c)) a' -> exists b', v_call (b, t) c = Some (b', t') /\ mirrors fin a' b'.
Proof.
  intros Hm Hp Hd Hal E Hs. assert (Hc : silent c \/ c = CallFlush) by (destruct c; simpl; auto).
  destruct Hc as [Hc| ->].
  - rewrite p_call_appends in E by done. rewrite v_call_appends by done.
    destruct (p_appends a (appends c)) as [a1|] eqn:E1; simplify_eq/=.
    destruct (mirrors_appends fin (appends c) a b a') as (b' & -> & Hm'); [done|by apply fresh_for_call|done..|by exists b'].
  - cbn in E. injection E as <- <-. destruct (flush_mirrors fin a b t Hm) as [Ht Hm'].
    exists (fst (v_flush_to_transcript b t)). split; [|exact Hm'].
    change (Some (v_flush_to_transcript b t) = Some (fst (v_flush_to_transcript b t), snd (p_flush_to_transcript a t))).
    by rewrite <- Ht, <- surjective_pairing.
Qed.

Lemma mirrors_run fin calls : forall a b t a' t', mirrors fin a b -> proper calls ->
  Forall (fun k => p_aliases a !! k = None) (keys calls) -> p_run calls (a, t) = Some (a', t') ->
  settled fin (keys calls) a' -> exists b', v_run calls (b, t) = Some (b', t') /\ mirrors fin a' b'.
Proof.
  induction calls as [|c calls IH]; intros a b t a' t' Hm [Hp Hd] Hal E Hs.
  { simplify_eq/=. by exists b. }
  apply list.Forall_cons in Hp as [Hc Hp]. rewrite keys_cons in Hd, Hal, Hs.
  apply NoDup_app in Hd as (Hd1 & Hdis & Hd2). apply Forall_app in Hal as [Hal1 Hal2].
  cbn [p_run v_run] in E |- *. destruct (p_call (a, t) c) as [[a1 t1]|] eqn:E1; [|done]. cbn in E.
  destruct (p_call_spec c a t a1 t1 (mirror_inv _ _ _ Hm)) as (Hv1 & Hx1 & _); [done..|].
  assert (Hal' : Forall (fun k => p_aliases a1 !! k = None) (keys calls)).
  { by apply (unaliased_later (map append_key (appends c)) _ a). }
  destruct (p_run_spec calls a1 t1 a' t' Hv1) as (_ & Hx' & _); [by split|done..|].
  destruct (mirrors_call fin c a b t a1 t1) as (b1 & -> & Hm1); [done..| |].
  { by apply (settled_before fin _ (keys calls) a1 a'). }
  cbn. apply (IH a1); [done|by split|done..|]. exact (settled_suffix _ _ _ _ Hs).
Qed.

Lemma with_claims_mirrors fin log_T zk : mirrors fin (p_new log_T) (with_claims fin (v_new log_T zk)).
Proof.
  split; try done; simpl; [apply p_new_inv|apply map_empty_subseteq|]. intros k.
  rewrite lookup_empty, (right_id_L ∅ (∪)). apply lookup_fmap.
Qed.

(** C19: The verifier's accumulator replays the prover's: when the protocol's run
    on the prover's side panics nowhere, the same calls without the claims, on an
    accumulator that starts with the final claims of the prover's openings, panic
    nowhere, put the same claims in the transcript at the same places, and end with
    the same openings, points included, the same index, aliases and pending claims. *)
Theorem verifier_replays_prover calls log_T zk t a t' : proper calls -> p_run calls (p_new log_T, t) = Some (a, t') ->
  exists b, v_run calls (with_claims (p_openings a) (v_new log_T zk), t) = Some (b, t') /\
    v_openings b = p_openings a /\ v_opening_ids_by_poly b = p_opening_ids_by_poly a /\ v_aliases b = p_aliases a /\
    v_pending_claims b = p_pending_claims a /\ v_pending_claim_ids b = p_pending_claim_ids a.
Proof.
  intros Hp E.
  destruct (mirrors_run (p_openings a) calls (p_new log_T) (with_claims (p_openings a) (v_new log_T zk)) t a t')
    as (b & Hr & Hm); [apply with_claims_mirrors|done|apply p_new_fresh|done|by split|].
  exists b. split; [done|]. destruct Hm. split; [|by repeat split].
  apply map_eq. intros k. rewrite mirror_openings0. by destruct (p_openings a !! k).
Qed.

(** ** The verifier, whatever the proof claims *)

(** An indexed opening has a point, and its claim is in the transcript or about to be. *)
Record v_inv (b : VA) : Prop := {
  v_opening_inv : opening_inv (v_openings b) (v_opening_ids_by_poly b) (v_aliases b);
  v_has_point id c : indexed (v_opening_ids_by_poly b) id -> v_openings b !! id <> Some ([], c);
  v_absorbed h id pt c : flush_history b = Some h -> indexed (v_opening_ids_by_poly b) id ->
    v_openings b !! id = Some (pt, c) -> c ∈ concat h ++ v_pending_claims b
}.
Definition untouched (key : OpeningId) (b : VA) : Prop :=
  v_aliases b !! key = None /\ ~ indexed (v_opening_ids_by_poly b) key.
(** A key reads, through its alias if it has one, at an indexed opening. *)
Definition opened (key : OpeningId) (pt : list F) (b : VA) : Prop :=
  exists id c, indexed (v_opening_ids_by_poly b) id /\
    underlying_polynomial_id id = underlying_polynomial_id key /\ v_openings b !! id = Some (pt, c) /\
    (v_aliases b !! key = Some id \/ v_aliases b !! key = None /\ id = key).
Definition v_extends (l : list OpeningId) (b b' : VA) : Prop :=
  (forall id, indexed (v_opening_ids_by_poly b) id -> indexed (v_opening_ids_by_poly b') id /\
     v_openings b' !! id = v_openings b !! id /\ v_aliases b' !! id = v_aliases b !! id) /\
  (forall k, k ∉ l -> v_aliases b' !! k = v_aliases b !! k /\
     (indexed (v_opening_ids_by_poly b') k -> indexed (v_opening_ids_by_poly b) k)).

Lemma v_extends_refl b : v_extends [] b b.
Proof. by split. Qed.
Lemma v_extends_trans l1 l2 b1 b2 b3 : v_extends l1 b1 b2 -> v_extends l2 b2 b3 -> v_extends (l1 ++ l2) b1 b3.
Proof.
  intros [H1 H2] [H3 H4]. split.
  - intros id Hi. destruct (H1 id Hi) as (Hi' & E & E'). destruct (H3 id Hi') as (Hi'' & E2 & E2').
    split; [done|]. split; congruence.
  - intros k Hk. rewrite elem_of_app in Hk. destruct (H2 k), (H4 k); try tauto. split; [congruence|tauto].
Qed.

Lemma untouched_kept l key b b' : v_extends l b b' -> key ∉ l -> untouched key b -> untouched key b'.
Proof. intros [_ Hk] Hn [Ha Hi]. destruct (Hk key Hn) as [Ea Hi']. split; [by rewrite Ea|auto]. Qed.

Lemma opened_kept l key pt b b' : v_extends l b b' -> key ∉ l -> opened key pt b -> opened key pt b'.
Proof.
  intros [Hx Hk] Hn (id & c & Hi & Hu & E & Hal). destruct (Hx id Hi) as (Hi' & Eo & Ea).
  destruct (Hk key Hn) as [Ek _]. exists id, c. by rewrite Eo, Ek.
Qed.

Lemma opened_get key pt b : v_inv b -> opened key pt b -> exists id c,
  get_polynomial_opening (v_openings b) (v_aliases b) key = Some (pt, c) /\
  indexed (v_opening_ids_by_poly b) id /\ underlying_polynomial_id id = underlying_polynomial_id key /\
  v_openings b !! id = Some (pt, c).
Proof.
  intros [Hv _ _] (id & c & Hi & Hu & E & Hal). exists id, c. split; [|done]. unfold get_polynomial_opening.
  destruct (index_opened _ _ _ Hv id Hi) as [_ Hn]. destruct Hal as [Hal|[Hal ->]].
  - by rewrite (resolve_aliased _ key id).
  - by rewrite resolve_unaliased.
Qed.

Lemma populate_alias b key pt id c : v_inv b -> untouched key b -> indexed (v_opening_ids_by_poly b) id ->
  underlying_polynomial_id id = underlying_polynomial_id key -> v_openings b !! id = Some (pt, c) ->
  v_inv (v_alias b key id) /\ v_extends [key] b (v_alias b key id) /\ opened key pt (v_alias b key id).
Proof.
  intros [Hv Hpt Hab] [Hal Hni] Hi Hu E. split; [|split].
  - split; [by apply opening_inv_alias|exact Hpt|exact Hab].
  - split; simpl.
    + intros id' Hi'. by rewrite lookup_insert_ne by (by intros ->).
    + intros k Hk%not_elem_of_cons. by rewrite lookup_insert_ne by (intros ->; tauto).
  - exists id, c. split; [done|]. split; [done|]. split; [done|]. left. apply lookup_insert_eq.
Qed.

Lemma populate_new b key pt c : v_inv b -> untouched key b -> pt <> [] ->
  (forall id c, indexed (v_opening_ids_by_poly b) id -> underlying_polynomial_id id = underlying_polynomial_id key ->
     v_openings b !! id <> Some (pt, c)) ->
  v_inv (v_populate b key pt c) /\ v_extends [key] b (v_populate b key pt c) /\ opened key pt (v_populate b key pt c).
Proof.
  intros [Hv Hpt Hab] [Hal Hni] Hp Hnew. unfold v_extends, opened, v_populate. simpl.
  rewrite v_index_new by done. split; [|split; [split|]].
  - split; simpl; rewrite ?v_index_new by done; [by apply opening_inv_insert| |].
    + intros id c' [->|Hi]%indexed_add; [rewrite lookup_insert_eq; congruence|].
      rewrite lookup_insert_ne by (by intros ->). by apply Hpt.
    + intros h id pt' c' Hh [->|Hi]%indexed_add E; rewrite !elem_of_app.
      * rewrite lookup_insert_eq in E. simplify_eq. right. right. by apply list_elem_of_singleton.
      * rewrite lookup_insert_ne in E by (by intros ->). pose proof (Hab h id pt' c' Hh Hi E) as Hin.
        rewrite elem_of_app in Hin. tauto.
  - intros id Hi. rewrite lookup_insert_ne by (by intros ->). rewrite indexed_add. auto.
  - intros k Hk%not_elem_of_cons. split; [done|]. rewrite indexed_add. intros [->|]; tauto.
  - exists key, c. rewrite indexed_add, lookup_insert_eq. auto 6.
Qed.

Lemma populate_spec b key pt b' : v_inv b -> untouched key b -> pt <> [] ->
  populate_or_alias_opening b key pt = Some b' -> v_inv b' /\ v_extends [key] b b' /\ opened key pt b'.
Proof.
  intros Hb Hu Hp. unfold populate_or_alias_opening.
  pose proof (find_existing_spec true _ _ _ (underlying_polynomial_id key) pt (v_opening_inv _ Hb) Hp) as Hf.
  destruct (find_existing_opening_at_point _ _ _ _ _) as [[[id c]|]|]; [| |done]; simpl.
  - destruct Hf as (Hi & Hid & E).
    assert (Hne : id <> key) by (intros ->; by apply (proj2 Hu)).
    destruct (v_openings b !! key) as [[pt0 c0]|]; [rewrite decide_False by done; case_decide; [|done]|];
      intros [= <-]; by apply (populate_alias b key pt id c).
  - destruct (v_openings b !! key) as [[pt0 c0]|]; intros [= <-]; by apply populate_new.
Qed.

Definition all_opened (l : list append) (b : VA) : Prop := Forall (fun x => opened (append_key x) (snd (fst x)) b) l.
Definition all_untouched (l : list OpeningId) (b : VA) : Prop := Forall (fun k => untouched k b) l.

Lemma all_untouched_kept l1 l2 b b' : v_extends l1 b b' -> (forall k, k ∈ l1 -> k ∉ l2) ->
  all_untouched l2 b -> all_untouched l2 b'.
Proof.
  intros Hx Hd Hu. apply list.Forall_forall. intros k Hin. apply (untouched_kept l1 k b); [done| |].
  - intros Hin'. by apply (Hd k).
  - unfold all_untouched in Hu. rewrite list.Forall_forall in Hu. by apply Hu.
Qed.
Lemma all_opened_kept l l' b b' : v_extends l' b b' -> (forall k, k ∈ map append_key l -> k ∉ l') ->
  all_opened l b -> all_opened l b'.
Proof.
  intros Hx Hd Ho. apply list.Forall_forall. intros x Hin. apply (opened_kept l' _ _ b); [done| |].
  - apply Hd. apply list_elem_of_In, in_map, list_elem_of_In, Hin.
  - unfold all_opened in Ho. rewrite list.Forall_forall in Ho. by apply Ho.
Qed.

Lemma v_appends_spec l : forall b b', v_inv b -> Forall (fun x => snd (fst x) <> []) l -> NoDup (map append_key l) ->
  all_untouched (map append_key l) b -> v_appends b l = Some b' ->
  v_inv b' /\ v_extends (map append_key l) b b' /\ all_opened l b'.
Proof.
  induction l as [|[[key pt] claim] l IH]; intros b b' Hb Hp Hd Hu E; simpl in E |- *.
  { simplify_eq. split; [done|]. by split; [apply v_extends_refl|constructor]. }
  destruct (populate_or_alias_opening b key pt) as [b1|] eqn:E1; [|done]. simpl in E.
  apply list.Forall_cons in Hp as [Hpt Hp]. apply NoDup_cons in Hd as [Hnk Hd]. apply list.Forall_cons in Hu as [Hk Hu].
  destruct (populate_spec b key pt b1) as (Hb1 & Hx1 & Ho1); [done..|].
  destruct (IH b1 b') as (Hb' & Hx' & Ho'); [done..| |done|].
  { apply (all_untouched_kept [key] _ b); [done|by intros k ->%list_elem_of_singleton|done]. }
  split; [done|]. split; [by apply (v_extends_trans [key] _ _ b1)|].
  constructor; [|done]. by apply (opened_kept (map append_key l) _ _ b1).
Qed.

Lemma v_call_spec c b t b' t' : v_inv b -> proper_call c -> NoDup (map append_key (appends c)) ->
  all_untouched (map append_key (appends c)) b -> v_call (b, t) c = Some (b', t') ->
  v_inv b' /\ v_extends (map append_key (appends c)) b b' /\ all_opened (appends c) b'.
Proof.
  intros Hb Hp Hd Hu E. assert (Hc : silent c \/ c = CallFlush) by (destruct c; simpl; auto).
  destruct Hc as [Hc| ->].
  - rewrite v_call_appends in E by done. destruct (v_appends b (appends c)) as [b1|] eqn:E1; simplify_eq/=.
    apply (v_appends_spec _ b); [done|apply Hp|done..].
  - cbn in E. injection E as <- <-. split; [|split; [exact (v_extends_refl b)|constructor]].
    destruct Hb as [Hv Hpt Hab]. split; [exact Hv|exact Hpt|]. simpl. intros h id pt c Hh Hi E.
    destruct (flush_history b) as [h0|]; [|done]. simplify_eq/=.
    rewrite concat_app. simpl. rewrite !app_nil_r. by apply (Hab h0 id pt c).
Qed.

Lemma v_run_spec calls : forall b t b' t', v_inv b -> proper calls -> all_untouched (keys calls) b ->
  v_run calls (b, t) = Some (b', t') -> v_inv b' /\ v_extends (keys calls) b b' /\ all_opened (concat (map appends calls)) b'.
Proof.
  induction calls as [|c calls IH]; intros b t b' t' Hb [Hp Hd] Hu E.
  { simplify_eq/=. split; [done|]. split; [by apply v_extends_refl|constructor]. }
  apply list.Forall_cons in Hp as [Hc Hp]. rewrite keys_cons in Hd, Hu |- *.
  apply NoDup_app in Hd as (Hd1 & Hdis & Hd2). apply Forall_app in Hu as [Hu1 Hu2].
  cbn [v_run] in E. destruct (v_call (b, t) c) as [[b1 t1]|] eqn:E1; [|done]. cbn in E.
  destruct (v_call_spec c b t b1 t1) as (Hb1 & Hx1 & Ho1); [done..|].
  destruct (IH b1 t1 b' t') as (Hb' & Hx' & Ho'); [done|by split|by apply (all_untouched_kept (map append_key (appends c)) _ b)|done|].
  split; [done|]. split; [by apply (v_extends_trans _ _ _ b1)|].
  simpl. apply Forall_app. split; [|done]. by apply (all_opened_kept _ (keys calls) b1).
Qed.

(** A verifier at its start: the proof's claims, whatever they are, no point and
    nothing indexed, the flushes recorded or not. *)
Definition v_start (claims : gmap OpeningId (list F * F)) (log_T : nat) (zk recording : bool) : VA :=
  let b := with_claims claims (v_new log_T zk) in if recording then enable_flush_recording b else b.

Lemma v_start_inv claims log_T zk recording : v_inv (v_start claims log_T zk recording).
Proof.
  assert (Hi : forall id, ~ indexed (v_opening_ids_by_poly (v_start claims log_T zk recording)) id).
  { intros id. unfold indexed, v_start. destruct recording; simpl; rewrite lookup_empty; simpl; by intros ?%elem_of_nil. }
  split; [|by intros id c ?%Hi|by intros h id pt c _ ?%Hi].
  unfold v_start. destruct recording; apply opening_inv_empty.
Qed.
Lemma v_start_untouched claims log_T zk recording l : all_untouched l (v_start claims log_T zk recording).
Proof.
  apply list.Forall_forall. intros k _. unfold untouched, indexed, v_start.
  destruct recording; simpl; rewrite lookup_empty; (split; [done|]); simpl; by intros ?%elem_of_nil.
Qed.

(** C20: Whatever claims the proof carries, a run of the verifier that panics
    nowhere gives one polynomial one claim at one point: two openings appended for
    the same polynomial at the same point, by whichever sumchecks, read as that
    point and one claim; and when the flushes are recorded that claim has gone to
    the transcript or is the next flush's. *)
Theorem one_claim_per_point calls claims log_T zk recording t b t' key1 key2 pt c1 c2 :
  proper calls -> v_run calls (v_start claims log_T zk recording, t) = Some (b, t') ->
  (key1, pt, c1) ∈ concat (map appends calls) -> (key2, pt, c2) ∈ concat (map appends calls) ->
  underlying_polynomial_id key1 = underlying_polynomial_id key2 ->
  exists c, get_polynomial_opening (v_openings b) (v_aliases b) key1 = Some (pt, c) /\
    get_polynomial_opening (v_openings b) (v_aliases b) key2 = Some (pt, c) /\
    forall history, flush_history b = Some history -> c ∈ concat history ++ v_pending_claims b.
Proof.
  intros Hp E H1 H2 Hu.
  destruct (v_run_spec calls _ t b t' (v_start_inv claims log_T zk recording) Hp) as (Hb & _ & Ho);
    [apply v_start_untouched|done|].
  unfold all_opened in Ho. rewrite list.Forall_forall in Ho.
  destruct (opened_get _ _ _ Hb (Ho _ H1)) as (id1 & c & G1 & I1 & U1 & E1).
  destruct (opened_get _ _ _ Hb (Ho _ H2)) as (id2 & c' & G2 & I2 & U2 & E2). simpl in *.
  assert (id1 = id2) as <-.
  { apply (index_distinct _ _ _ (v_opening_inv _ Hb) id1 id2 pt c c'); try done. by rewrite U1, U2. }
  rewrite E1 in E2. injection E2 as <-. exists c. split; [done|]. split; [done|].
  intros h Hh. by apply (v_absorbed _ Hb h id1 pt c).
Qed.

(** The batched sumcheck's demand on the two accumulators, met by the real ones. *)
Definition mirrored (fin : gmap OpeningId (list F * F)) (a : option PA) (b : option VA) : Prop :=
  exists a' b', a = Some a' /\ b = Some b' /\ mirrors fin a' b'.
#[export] Instance accumulators_simulate fin : Simulates (F := F) (T := T) (mirrored fin).
Proof.
  split.
  - intros a b t (a' & b' & -> & -> & Hm). destruct (flush_mirrors fin a' b' t Hm) as [Ht Hm']. simpl.
    split; [exact (eq_sym Ht)|]. by exists (fst (p_flush_to_transcript a' t)), (fst (v_flush_to_transcript b' t)).
  - intros a b l (a' & b' & -> & -> & []). simpl. by do 2 eexists.
  - intros a b l (a' & b' & -> & -> & []). simpl. by do 2 eexists.
  - intros a b l (a' & b' & -> & -> & []). simpl. by do 2 eexists.
Qed.
End Runs.

(** ** A concrete run: a deduplicated virtual opening, advice and one-hot polynomials. *)
#[local] Existing Instance toy_transcript.
Definition toy_point (a b : Z) : list F97 := [from_u64 a; from_u64 b].
Definition toy_calls : list (call F97 Z) :=
  [CallVirtual Rd SpartanOuter (toy_point 3 4) (from_u64 5); CallTranscript (Z.mul 3);
   CallSparse [CommittedInstructionRa 0; CommittedInstructionRa 1] Booleanity [from_u64 7] [from_u64 8] [from_u64 9; from_u64 10];
   CallFlush; CallVirtual Rd InstructionClaimReduction (toy_point 3 4) (from_u64 5);
   CallDense RamInc RamReadWriteChecking (toy_point 3 4) (from_u64 11); CallUntrustedAdvice RamValCheck (toy_point 1 2) (from_u64 12);
   CallTrustedAdvice RamValCheck (toy_point 1 2) (from_u64 13)].
Lemma toy_calls_proper : proper toy_calls.
Proof.
  split; [|apply (bool_decide_unpack _); vm_compute; exact I].
  repeat (apply list.Forall_cons; split; [split; [|done]; by repeat constructor|]). constructor.
Qed.
Definition toy_prover := p_run toy_calls (p_new 2, 0%Z).
Lemma toy_prover_runs : is_Some toy_prover.
Proof. apply (bool_decide_unpack _). vm_compute. exact I. Qed.

Lemma prover_gives_back_witness : exists a t', p_run toy_calls (p_new 2, 0%Z) = Some (a, t') /\
  Forall (fun '(key, pt, claim) => get_polynomial_opening (p_openings a) (p_aliases a) key = Some (pt, claim))
    (concat (map appends toy_calls)).
Proof.
  destruct toy_prover_runs as [[a t'] E]. exists a, t'. split; [exact E|].
  exact (prover_gives_back toy_calls 2 0%Z a t' toy_calls_proper E).
Defined.

Lemma verifier_replays_prover_witness : exists a t' b, p_run toy_calls (p_new 2, 0%Z) = Some (a, t') /\
  v_run toy_calls (with_claims (p_openings a) (v_new 2 false), 0%Z) = Some (b, t') /\ v_openings b = p_openings a.
Proof.
  destruct toy_prover_runs as [[a t'] E].
  destruct (verifier_replays_prover toy_calls 2 false 0%Z a t' toy_calls_proper E) as (b & Hr & Ho & _).
  exists a, t', b. split; [exact E|]. split; [exact Hr|exact Ho].
Defined.

(** A proof that claims other values. *)
Definition toy_claims : gmap OpeningId (list F97 * F97) :=
  {[virt Rd SpartanOuter := ([], from_u64 50); committed (CommittedInstructionRa 0) Booleanity := ([], from_u64 60)]}.
Definition toy_verifier := v_run toy_calls (v_start toy_claims 2 false true, 0%Z).
Lemma toy_verifier_runs : is_Some toy_verifier.
Proof. apply (bool_decide_unpack _). vm_compute. exact I. Qed.

Lemma one_claim_per_point_witness : exists b t' c,
  v_run toy_calls (v_start toy_claims 2 false true, 0%Z) = Some (b, t') /\
  get_polynomial_opening (v_openings b) (v_aliases b) (virt Rd SpartanOuter) = Some (toy_point 3 4, c) /\
  get_polynomial_opening (v_openings b) (v_aliases b) (virt Rd InstructionClaimReduction) = Some (toy_point 3 4, c).
Proof.
  destruct toy_verifier_runs as [[b t'] E].
  destruct (one_claim_per_point toy_calls toy_claims 2 false true 0%Z b t' (virt Rd SpartanOuter)
    (virt Rd InstructionClaimReduction) (toy_point 3 4) (from_u64 5) (from_u64 5) toy_calls_proper E) as (c & G1 & G2 & _).
  - apply list_elem_of_here.
  - cbn. do 3 apply list_elem_of_further. apply list_elem_of_here.
  - reflexivity.
  - exists b, t', c. split; [exact E|]. split; [exact G1|exact G2].
Defined.
