(* ===== verification/DecodeCorrect.v ===== *)
(** * DecodeCorrect: [decode] is the table of the instruction declarations

    Every instruction declares a [mask] and a [match]; [decode] is a hand-written
    match on the fields of the word.  The theorems show that the two agree on
    the standard opcodes, with the exceptions spelled out, when a build with
    debug assertions panics, and that decoded operands are well typed. *)
From S2P Require Import Prelude Bits Registers Cpu Formats Instr Assembler Exec64 TraceCorrect Decode.
From stdpp Require Import strings.
Open Scope Z_scope.

(** ** The declarations as a table *)

Inductive Declared :=
| Declaration {F O} (op : F -> O) {Henc : RISCVInstruction op} {Hparse : Parse F} {Hinto : IntoInstruction O}.

Definition declarations : list Declared :=
  [Declaration LUI; Declaration AUIPC; Declaration JAL; Declaration JALR; Declaration BEQ; Declaration BNE; Declaration BLT; 
   Declaration BGE; Declaration BLTU; Declaration BGEU; Declaration LB; Declaration LH; Declaration LW; Declaration LD; 
   Declaration LBU; Declaration LHU; Declaration LWU; Declaration SB; Declaration SH; Declaration SW; Declaration SD; 
   Declaration SLLI; Declaration SRLI; Declaration SRAI; Declaration ADDI; Declaration SLTI; Declaration SLTIU; 
   Declaration XORI; Declaration ORI; Declaration ANDI; Declaration ADDIW; Declaration SLLIW; Declaration SRLIW; 
   Declaration SRAIW; Declaration ADD; Declaration SUB; Declaration SLL; Declaration SLT; Declaration SLTU; Declaration XOR; 
   Declaration SRL; Declaration SRA; Declaration OR; Declaration AND; Declaration MUL; Declaration MULH; Declaration MULHSU; 
   Declaration MULHU; Declaration DIV; Declaration DIVU; Declaration REM; Declaration REMU; Declaration ADDW; 
   Declaration SUBW; Declaration SLLW; Declaration DIVW; Declaration SRLW; Declaration SRAW; Declaration MULW; 
   Declaration DIVUW; Declaration REMW; Declaration REMUW; Declaration FENCE_op; Declaration LRW; Declaration LRD; 
   Declaration SCW; Declaration SCD; Declaration AMOSWAPW; Declaration AMOSWAPD; Declaration AMOADDW; 
   Declaration AMOADDD; Declaration AMOANDW; Declaration AMOANDD; Declaration AMOORW; Declaration AMOORD; 
   Declaration AMOXORW; Declaration AMOXORD; Declaration AMOMINW; Declaration AMOMIND; Declaration AMOMAXW; 
   Declaration AMOMAXD; Declaration AMOMINUW; Declaration AMOMINUD; Declaration AMOMAXUW; Declaration AMOMAXUD; 
   Declaration ECALL; Declaration EBREAK; Declaration MRET; Declaration CSRRW; Declaration CSRRS].

Definition declared_mask (d : Declared) : Z := match d with Declaration op => MASK op end.
Definition declared_match (d : Declared) : Z := match d with Declaration op => MATCH op end.
Definition declared_op (d : Declared) (word : Z) : AnyOp :=
  match d with Declaration op => into_instruction (op (parse_word word)) end.

(** The word satisfies the declaration. *)
Definition declared_for (d : Declared) (word : Z) : Prop :=
  Z.land word (declared_mask d) = declared_match d.

(** The bits [decode] looks at, where they are not those of the mask: it
    ignores [rs2] of the load-reserved instructions and [funct3] of the fence,
    and has bit 25 in [funct7] for the shifts of words. *)
Definition decoded_mask (d : Declared) : Z :=
  let m := declared_mask d in
  let v := declared_match d in
  if (v =? MATCH LRW) || (v =? MATCH LRD) then 0xf800707f
  else if v =? MATCH FENCE_op then 0x0000007f
  else if (v =? MATCH SLLIW) || (v =? MATCH SRLIW) || (v =? MATCH SRAIW) then 0xfe00707f
  else m.

Section Fields.
Context (w : Z) (Hw : in_u 32 w).

#[local] Abbreviation opcode := (Z.land w 0x7f).
#[local] Abbreviation funct3 := (Z.land (Z.shiftr w 12) 0x7).
#[local] Abbreviation rs2 := (Z.land (Z.shiftr w 20) 0x1f).
#[local] Abbreviation funct5 := (Z.land (Z.shiftr w 27) 0x1f).
#[local] Abbreviation funct6 := (Z.land (Z.shiftr w 26) 0x3f).
#[local] Abbreviation funct7 := (Z.land (Z.shiftr w 25) 0x7f).

Lemma land_bits m : Z.land w m = denote w (sym_land m (map Some (seq 0 32))).
Proof. rewrite sym_land_ok, denote_id; [done|exact Hw]. Qed.
Lemma word_field_bits k m : Z.land (Z.shiftr w (Z.of_nat k)) m = denote w (sym_land m (drop k (map Some (seq 0 32)))).
Proof. rewrite sym_land_ok, sym_shiftr_ok, denote_id; [done|exact Hw]. Qed.

Lemma mask_fields :
  Z.land w 0x0000707f = opcode + 2 ^ 12 * funct3 /\
  Z.land w 0xfe00707f = opcode + 2 ^ 12 * funct3 + 2 ^ 25 * funct7 /\
  Z.land w 0xfc00707f = opcode + 2 ^ 12 * funct3 + 2 ^ 26 * funct6 /\
  Z.land w 0xf800707f = opcode + 2 ^ 12 * funct3 + 2 ^ 27 * funct5 /\
  Z.land w 0xf9f0707f = opcode + 2 ^ 12 * funct3 + 2 ^ 20 * rs2 + 2 ^ 27 * funct5 /\
  Z.land w 0xffffffff = w.
Proof.
  pose proof (word_field_bits 12) as F12. pose proof (word_field_bits 20) as F20. pose proof (word_field_bits 25) as F25.
  pose proof (word_field_bits 26) as F26. pose proof (word_field_bits 27) as F27. cbn [Z.of_nat Pos.of_succ_nat Pos.succ] in *.
  rewrite !F12, !F20, !F25, !F26, !F27, !land_bits.
  repeat match goal with
  | |- context [sym_land ?m ?l] => let r := eval vm_compute in (sym_land m l) in change (sym_land m l) with r
  end.
  repeat split; try (cbn [denote sym_bit]; change (b2z false) with 0; lia).
  change (denote w (map Some (seq 0 32)) = w). by apply denote_id.
Qed.

Lemma word_field_range : 0 <= opcode < 128 /\ 0 <= funct3 < 8 /\ 0 <= rs2 < 32 /\ 0 <= funct5 < 32 /\
  0 <= funct6 < 64 /\ 0 <= funct7 < 128.
Proof.
  change 0x7 with (Z.ones 3). change 0x7f with (Z.ones 7). change 0x1f with (Z.ones 5). change 0x3f with (Z.ones 6).
  rewrite !Z.land_ones by lia. repeat split; apply Z.mod_pos_bound; lia.
Qed.

(** ** [decode] by cases on the declarations *)

Context (debug_assertions : bool) (address : Z) (compressed : bool).
#[local] Abbreviation decode_w := (decode debug_assertions w address compressed).

Definition declared_new (d : Declared) : option (string + Struct AnyOp) :=
  match d with Declaration op => new debug_assertions op w address true compressed end.

(** The fields [decode] looks at are those of the declaration. *)
Definition selects (d : Declared) : Prop :=
  Z.land w (decoded_mask d) = Z.land (declared_match d) (decoded_mask d).

Ltac eval_declaration :=
  match goal with
  | |- context [selects ?d] =>
      let m := eval vm_compute in (decoded_mask d) in
      let v := eval vm_compute in (Z.land (declared_match d) (decoded_mask d)) in
      change (selects d) with (Z.land w m = v)
  end.

Lemma fields_1 v : Z.land w 0x7f = v -> opcode = v.
Proof. done. Qed.
Lemma fields_2 v : opcode + 2 ^ 12 * funct3 = v -> opcode = v mod 2 ^ 12 /\ funct3 = v / 2 ^ 12.
Proof.
  intros <-. pose proof word_field_range as R. split.
  - apply (Z.mod_unique_pos _ _ funct3); lia.
  - apply (Z.div_unique_pos _ _ _ opcode); lia.
Qed.
Lemma fields_3 k f v : 20 <= k -> 0 <= f -> opcode + 2 ^ 12 * funct3 + 2 ^ k * f = v ->
  opcode = v mod 2 ^ k mod 2 ^ 12 /\ funct3 = v mod 2 ^ k / 2 ^ 12 /\ f = v / 2 ^ k.
Proof.
  intros Hk Hf H. pose proof word_field_range as R.
  assert (Hp : 2 ^ 20 <= 2 ^ k) by (apply Z.pow_le_mono_r; lia).
  assert (E : opcode + 2 ^ 12 * funct3 = v mod 2 ^ k) by (apply (Z.mod_unique_pos _ _ f); lia).
  rewrite <- E. destruct (fields_2 _ eq_refl) as [E1 E2].
  split; [exact E1|]. split; [exact E2|].
  apply (Z.div_unique_pos _ _ _ (opcode + 2 ^ 12 * funct3)); lia.
Qed.

Ltac rewrite_fields E :=
  lazymatch type of E with
  | _ /\ _ => let E1 := fresh "E" in let E2 := fresh "E" in destruct E as [E1 E2]; rewrite_fields E1; rewrite_fields E2
  | _ = ?v => let k := eval vm_compute in v in change v with k in E; rewrite ?E; clear E
  end.

Ltac solve_selected :=
  match goal with
  | H : w = ?v |- _ =>
      rewrite H; unfold decode, decode_system; cbv zeta;
      let o := eval vm_compute in (Z.land v 0x7f) in change (Z.land v 0x7f) with o;
      let f := eval vm_compute in (Z.land (Z.shiftr v 12) 0x7) in change (Z.land (Z.shiftr v 12) 0x7) with f;
      let f := eval vm_compute in (Z.land (Z.shiftr v 25) 0x7f) in change (Z.land (Z.shiftr v 25) 0x7f) with f;
      let f := eval vm_compute in (Z.land (Z.shiftr v 20) 0x1f) in change (Z.land (Z.shiftr v 20) 0x1f) with f;
      cbv [declared_new Z.eqb Pos.eqb andb negb]; rewrite H; reflexivity
  | H : ?l = ?v |- _ =>
      lazymatch l with
      | _ + 2 ^ ?k * _ + 2 ^ ?k' * ?f => apply (fields_3 k' f v) in H; [|lia|apply Z.land_nonneg; right; lia]
      | _ + 2 ^ ?k * _ => apply (fields_2 v) in H
      | _ => idtac
      end;
      unfold decode, decode_jalr, decode_branch, decode_load, decode_store, decode_alu_imm, decode_alu_imm_w,
        decode_alu, decode_alu_w, decode_atomic, decode_system, decode_custom; cbv zeta;
      rewrite_fields H; cbv [declared_new Z.eqb Pos.eqb andb negb]; reflexivity
  end.

(** A word that carries a declaration's fields is decoded by its constructor. *)
Lemma selects_decode : Forall (fun d => selects d -> decode_w = declared_new d) declarations.
Proof.
  destruct mask_fields as (M1 & M2 & M3 & M4 & M5 & M6).
  unfold declarations. repeat (apply list.Forall_cons; split); try apply List.Forall_nil.
  all: eval_declaration; intros H; rewrite ?M1, ?M2, ?M3, ?M4, ?M6 in H.
  all: solve_selected.
Qed.

(** Every other word of the standard opcodes is rejected. *)
Definition standard_opcode : Prop := opcode <> 0x0b /\ opcode <> 0x2b /\ opcode <> 0x5b.

Definition covered (r : option (string + Struct AnyOp)) : Prop :=
  (exists m, r = Some (inl m)) \/ exists d, d ∈ declarations /\ selects d /\ r = declared_new d.

Lemma covered_Err m : covered (Err m).
Proof. left. by exists m. Qed.

Lemma covered_new {F O} (op : F -> O) {Henc : RISCVInstruction op} {Hparse : Parse F} {Hinto : IntoInstruction O} :
  Declaration op ∈ declarations -> selects (Declaration op) ->
  covered (new debug_assertions op w address true compressed).
Proof. intros. right. by exists (Declaration op). Qed.

Ltac split_eqb :=
  match goal with
  | |- covered ?r =>
      match r with
      | context [if ?b then _ else _] =>
          match b with context [?x =? ?y] => 
              let E := fresh "E" in
              destruct (Z.eqb_spec x y) as [E|E]; [first [is_var x | rewrite ?E]; cbn [Z.eqb Pos.eqb andb negb]|cbn [andb negb]]
          end
      end
  end.

Ltac solve_covered :=
  first [ apply covered_Err
        | apply covered_new;
          [ unfold declarations; repeat (first [apply list_elem_of_here | apply list_elem_of_further])
          | eval_declaration;
            destruct mask_fields as (M1 & M2 & M3 & M4 & M5 & M6); rewrite ?M1, ?M2, ?M3, ?M4, ?M6;
            repeat match goal with H : @eq Z _ _ |- _ => rewrite H; clear H end; reflexivity ] ].

Lemma covered_jalr : opcode = 0x67 -> covered (decode_jalr debug_assertions w address compressed).
Proof. intros Ho. unfold decode_jalr; cbv zeta. repeat split_eqb; solve_covered. Qed.
Lemma covered_branch : opcode = 0x63 -> covered (decode_branch debug_assertions w address compressed).
Proof. intros Ho. unfold decode_branch; cbv zeta. repeat split_eqb; solve_covered. Qed.
Lemma covered_load : opcode = 0x03 -> covered (decode_load debug_assertions w address compressed).
Proof. intros Ho. unfold decode_load; cbv zeta. repeat split_eqb; solve_covered. Qed.
Lemma covered_store : opcode = 0x23 -> covered (decode_store debug_assertions w address compressed).
Proof. intros Ho. unfold decode_store; cbv zeta. repeat split_eqb; solve_covered. Qed.
Lemma covered_alu_imm : opcode = 0x13 -> covered (decode_alu_imm debug_assertions w address compressed).
Proof. intros Ho. unfold decode_alu_imm; cbv zeta. repeat split_eqb; solve_covered. Qed.
Lemma covered_alu_imm_w : opcode = 0x1b -> covered (decode_alu_imm_w debug_assertions w address compressed).
Proof. intros Ho. unfold decode_alu_imm_w; cbv zeta. repeat split_eqb; solve_covered. Qed.
Lemma covered_alu : opcode = 0x33 -> covered (decode_alu debug_assertions w address compressed).
Proof. intros Ho. unfold decode_alu; cbv zeta. repeat split_eqb; solve_covered. Qed.
Lemma covered_alu_w : opcode = 0x3b -> covered (decode_alu_w debug_assertions w address compressed).
Proof. intros Ho. unfold decode_alu_w; cbv zeta. repeat split_eqb; solve_covered. Qed.
Lemma covered_atomic : opcode = 0x2f -> covered (decode_atomic debug_assertions w address compressed).
Proof. intros Ho. unfold decode_atomic; cbv zeta. repeat split_eqb; solve_covered. Qed.
Lemma covered_system : opcode = 0x73 -> covered (decode_system debug_assertions w address compressed).
Proof.
  intros Ho. unfold decode_system; cbv zeta.
  repeat split_eqb; solve_covered.
Qed.

Lemma decode_covered : standard_opcode -> covered decode_w.
Proof.
  intros (S1 & S2 & S3). unfold decode; cbv zeta.
  repeat (split_eqb; [first [by apply covered_jalr | by apply covered_branch | by apply covered_load
    | by apply covered_store | by apply covered_alu_imm | by apply covered_alu_imm_w | by apply covered_alu
    | by apply covered_alu_w | by apply covered_atomic | by apply covered_system | done | solve_covered]|]).
  apply covered_Err.
Qed.
End Fields.

(** ** [decode] is the table of declarations *)

Lemma declared_new_spec dbg w a c d :
  declared_new w dbg a c d =
    if dbg && negb (Z.land w (declared_mask d) =? declared_match d) then None
    else Some (inr (fresh_struct (declared_op d w) a c)).
Proof. by destruct d. Qed.

Lemma declared_new_None dbg w a c d :
  declared_new w dbg a c d = None <-> dbg = true /\ ~ declared_for d w.
Proof.
  rewrite declared_new_spec. unfold declared_for.
  destruct (Z.eqb_spec (Z.land w (declared_mask d)) (declared_match d)); destruct dbg; cbn;
    intuition congruence.
Qed.
Lemma declared_new_Some dbg w a c d s :
  declared_new w dbg a c d = Some (inr s) <->
  (dbg = true -> declared_for d w) /\ s = fresh_struct (declared_op d w) a c.
Proof.
  rewrite declared_new_spec. unfold declared_for.
  destruct (Z.eqb_spec (Z.land w (declared_mask d)) (declared_match d)); destruct dbg; cbn;
    intuition congruence.
Qed.

(** What [decode] does with the word of a declaration. *)
Lemma decode_selected dbg w a c d : in_u 32 w -> d ∈ declarations -> selects w d ->
  decode dbg w a c = declared_new w dbg a c d.
Proof.
  intros Hw Hd. pose proof (selects_decode w Hw dbg a c) as H.
  rewrite list.Forall_forall in H. by apply H.
Qed.

(** ** Typing *)

(** The operands of every instruction of the enum. *)
Definition any_operands (op : AnyOp) : NormalizedOperands :=
  match op with
  | Executable op => op_operands op
  | Host op =>
      match op with
      | FENCE => {| norm_rs1 := None; norm_rs2 := None; norm_rd := None; norm_imm := 0 |}
      | ECALL o | EBREAK o | MRET o | CSRRW o | CSRRS o | VirtualHostIO o => to_operands o
      | AdviceLB o | AdviceLH o | AdviceLW o | AdviceLD o => to_operands o
      | INLINE _ _ _ o =>
          {| norm_rs1 := Some (IN_rs1 o); norm_rs2 := Some (IN_rs2 o); norm_rd := Some (IN_rs3 o); norm_imm := 0 |}
      end
  end.

(** Registers of the architecture, and an immediate of 32 bits, sign extended. *)
Definition rv_reg (r : option nat) : Prop := match r with Some r => (r < 32)%nat | None => True end.
Definition well_typed (op : AnyOp) : Prop :=
  let o := any_operands op in
  rv_reg (norm_rd o) /\ rv_reg (norm_rs1 o) /\ rv_reg (norm_rs2 o) /\ in_s 32 (as_i64 (norm_imm o)).

Lemma reg_field_lt w k : (reg_field w k < 32)%nat.
Proof.
  unfold reg_field. change 0x1f with (Z.ones 5). rewrite Z.land_ones by lia.
  pose proof (Z.mod_pos_bound (Z.shiftr w k) (2 ^ 5)). lia.
Qed.
Lemma i32_imm v : in_s 32 (as_i64 (as_i32 v)).
Proof.
  pose proof (wraps_range 32 ltac:(lia) v) as H.
  rewrite (wraps_small 64) by (unfold in_s in *; lia). exact H.
Qed.
Lemma sext_imm v : in_s 32 (as_i64 (sext_u64 v)).
Proof. unfold sext_u64. rewrite wraps_wrapu by lia. apply i32_imm. Qed.

Ltac typed_operands :=
  split; [|split; [|split]]; cbn -[reg_field sext_u64 wraps wrapu Z.lor Z.land Z.shiftr sign_field in_s];
  lazymatch goal with
  | |- True => exact I
  | |- context [reg_field] => apply reg_field_lt
  | |- context [sext_u64] => apply sext_imm
  | |- in_s 32 (wraps 64 0) => by vm_compute
  | |- in_s 32 _ => apply i32_imm
  end.

Lemma declarations_typed w : Forall (fun d => well_typed (declared_op d w)) declarations.
Proof. unfold declarations. repeat (apply list.Forall_cons; split); try apply List.Forall_nil; typed_operands. Qed.

Lemma new_typed {F O} (op : F -> O) {Henc : RISCVInstruction op} {Hparse : Parse F} {Hinto : IntoInstruction O}
    dbg w a v c s :
  new dbg op w a v c = Some (inr s) -> well_typed (into_instruction (op (parse_word w))) ->
  well_typed (operands s) /\ s = fresh_struct (operands s) a c.
Proof. unfold new. case_match; [done|]. intros [= <-]. by split. Qed.

Lemma custom_typed dbg w a c s : decode_custom dbg w a c = Some (inr s) ->
  well_typed (operands s) /\ s = fresh_struct (operands s) a c.
Proof.
  unfold decode_custom. cbv zeta. intros H.
  repeat match type of H with (if ?b then _ else _) = _ => destruct b end; try (by unfold Err in H);
    apply new_typed in H; try exact H; typed_operands.
Qed.

Lemma typed_arch op : well_typed (Executable op) -> op_arch op.
Proof.
  unfold well_typed, op_arch. cbn [any_operands]. intros (H1 & H2 & H3 & _).
  assert (R : forall r, rv_reg r -> opt_arch r).
  { intros [r|]; [|done]. cbn. intros Hr. split; [unfold valid_reg, REGISTER_COUNT; cbn; lia|].
    unfold instruction_reg. alloc_unfold. lia. }
  auto.
Qed.

(** C13: [decode] is the table of the instruction declarations.  On the opcodes of
    the standard extensions it accepts exactly the words that carry the fields
    of a declared instruction (its [mask] and [match], except that it ignores
    [rs2] of [LR] and [funct3] of [FENCE], and wants bit 25 clear in a word
    shift), and yields that instruction with its operands parsed from the word
    and fresh sequence fields.  It panics, in a build with debug assertions
    only, exactly where the word satisfies those fields but not the declared
    mask. *)
Theorem decode_is_declared dbg w a c :
  in_u 32 w -> standard_opcode w ->
  (forall s, decode dbg w a c = Some (inr s) <->
    exists d, d ∈ declarations /\ selects w d /\ (dbg = true -> declared_for d w) /\
      s = fresh_struct (declared_op d w) a c) /\
  (decode dbg w a c = None <->
    dbg = true /\ exists d, d ∈ declarations /\ selects w d /\ ~ declared_for d w).
Proof.
  intros Hw Ho. pose proof (decode_covered w Hw dbg a c Ho) as Hc. split; [intros s|]; split.
  - destruct Hc as [[m E]|(d & Hd & Hs & E)]; rewrite E; [done|].
    intros (Hdbg & ->)%declared_new_Some. by exists d.
  - intros (d & Hd & Hs & Hdbg & ->). rewrite (decode_selected dbg w a c d Hw Hd Hs).
    by apply declared_new_Some.
  - destruct Hc as [[m E]|(d & Hd & Hs & E)]; rewrite E; [done|].
    intros (Hdbg & Hn)%declared_new_None. split; [done|]. by exists d.
  - intros (Hdbg & d & Hd & Hs & Hn). rewrite (decode_selected dbg w a c d Hw Hd Hs).
    by apply declared_new_None.
Qed.

(** The operands and the fields of a decoded instruction. *)
Lemma decode_typed dbg w a c s :
  in_u 32 w -> decode dbg w a c = Some (inr s) ->
  well_typed (operands s) /\ s = fresh_struct (operands s) a c /\
  forall op, operands s = Executable op -> op_arch op.
Proof.
  intros Hw H. enough (E : well_typed (operands s) /\ s = fresh_struct (operands s) a c).
  { destruct E as [E1 E2]. split; [done|]. split; [done|]. intros op Eop. rewrite Eop in E1. by apply typed_arch. }
  destruct (decide (Z.land w 0x7f = 0x5b)) as [Ho|H5].
  { unfold decode in H. cbv zeta in H. rewrite Ho in H. cbn [Z.eqb Pos.eqb] in H. by apply custom_typed in H. }
  destruct (decide (Z.land w 0x7f = 0x0b \/ Z.land w 0x7f = 0x2b)) as [Ho|Hn].
  { unfold decode in H. cbv zeta in H.
    destruct Ho as [Ho|Ho]; rewrite Ho in H; cbn [Z.eqb Pos.eqb] in H; injection H as <-; split; try done; typed_operands. }
  destruct (decode_covered w Hw dbg a c) as [[m E]|(d & Hd & Hs & E)]; [unfold standard_opcode; lia|congruence|].
  rewrite E in H. apply declared_new_Some in H as (_ & ->). split; [|done].
  pose proof (declarations_typed w) as HT. rewrite list.Forall_forall in HT. by apply HT.
Qed.

(** C14: Decoded instructions are well typed: every register of a decoded
    instruction, of any opcode and format, is one of the 32 architectural
    registers, its immediate is a sign-extended 32-bit value, and its sequence
    fields are those of an instruction outside any sequence; the executable
    ones satisfy the precondition of the tracer's theorems. *)
Theorem decode_well_typed dbg w a c s :
  in_u 32 w -> decode dbg w a c = Some (inr s) ->
  well_typed (operands s) /\ s = fresh_struct (operands s) a c /\
  forall op, operands s = Executable op -> op_arch op.
Proof. apply decode_typed. Qed.

(** [lr.w x1, (x2)] with a non-zero [rs2], and [addi x1, x2, -1]. *)
Lemma decode_is_declared_witness :
  decode true 0x101120af 0 false = None /\
  decode true 0xfff10093 8 false =
    Some (inr (fresh_struct (Executable (ADDI {| I_rd := 1; I_rs1 := 2; I_imm := 2 ^ 64 - 1 |})) 8 false)).
Proof.
  split.
  - apply (decode_is_declared true 0x101120af 0 false).
    + unfold in_u; lia.
    + by vm_compute.
    + split; [done|]. exists (Declaration LRW). split; [|split].
      * unfold declarations. repeat (first [apply list_elem_of_here | apply list_elem_of_further]).
      * by vm_compute.
      * by vm_compute.
  - apply (decode_is_declared true 0xfff10093 8 false).
    + unfold in_u; lia.
    + by vm_compute.
    + exists (Declaration ADDI). split; [|split; [by vm_compute|split; [by vm_compute|by vm_compute]]].
      unfold declarations. repeat (first [apply list_elem_of_here | apply list_elem_of_further]).
Defined.

Lemma decode_well_typed_witness :
  exists s, decode true 0xfff10093 8 false = Some (inr s) /\ well_typed (operands s).
Proof.
  destruct (decode true 0xfff10093 8 false) as [[m|s]|] eqn:E; [by vm_compute in E| |by vm_compute in E].
  exists s. split; [done|]. apply (decode_well_typed true 0xfff10093 8 false s).
  - clear E. unfold in_u; lia.
  - exact E.
Defined.
