(* ===== verification/CompressedCorrect.v ===== *)
(** * CompressedCorrect: the C extension

    The compressed instructions as the instruction-set manual lists them, each
    immediate by the positions of its bits, against the composition
    [uncompress_instruction]; [decode] of the code, checked on every halfword. *)
From S2P Require Import Prelude Bits Registers AdviceTape Mmu Cpu Formats Instr Assembler Exec64 SeqArith TraceCorrect.
From S2P Require Import Decode DecodeCorrect Compressed.
From stdpp Require Import strings.
Open Scope Z_scope.

(** ** The instruction-set manual's tables for RV64C *)
Section Manual.
Context (h : Z).

(** An unsigned and a signed field, least significant bit first; [n] zero bits
    below them. *)
Definition uimm (n : nat) (l : list nat) : Z := denote h (replicate n None ++ map Some l).
Definition simm (n : nat) (l : list nat) : Z := wraps (Z.of_nat (n + length l)) (uimm n l).

(** [rd']/[rs2'] and [rs1'], the registers 8 to 15, and the full fields. *)
Definition r_2 : nat := 8 + Z.to_nat (uimm 0 [2;3;4]%nat).
Definition r_7 : nat := 8 + Z.to_nat (uimm 0 [7;8;9]%nat).
Definition r_full : nat := Z.to_nat (uimm 0 [7;8;9;10;11]%nat).
Definition r_rs2 : nat := Z.to_nat (uimm 0 [2;3;4;5;6]%nat).

Definition ci_imm : Z := simm 0 [2;3;4;5;6;12]%nat.
Definition ci_shamt : Z := uimm 0 [2;3;4;5;6;12]%nat.
Definition cl_w : Z := uimm 2 [6;10;11;12;5]%nat.
Definition cl_d : Z := uimm 3 [10;11;12;5;6]%nat.
Definition cj_imm : Z := simm 1 [3;4;5;11;2;7;6;9;10;8;12]%nat.
Definition cb_imm : Z := simm 1 [3;4;10;11;2;5;6;12]%nat.

Definition rvI (op : FormatI -> Op) (rd rs1 : nat) (imm : Z) : option AnyOp :=
  Some (Executable (op {| I_rd := rd; I_rs1 := rs1; I_imm := as_u64 imm |})).
Definition rvR (op : FormatR -> Op) (rd rs1 rs2 : nat) : option AnyOp :=
  Some (Executable (op {| R_rd := rd; R_rs1 := rs1; R_rs2 := rs2 |})).
Definition rvL (op : FormatLoad -> Op) (rd rs1 : nat) (imm : Z) : option AnyOp :=
  Some (Executable (op {| L_rd := rd; L_rs1 := rs1; L_imm := imm |})).
Definition rvS (op : FormatS -> Op) (rs1 rs2 : nat) (imm : Z) : option AnyOp :=
  Some (Executable (op {| S_rs1 := rs1; S_rs2 := rs2; S_imm := imm |})).
(** [addi x0, x0, 0], the expansion of the hints. *)
Definition rv_nop : option AnyOp := rvI ADDI 0 0 0.

(** The quadrants: 0, 1 and 2 are the low two bits, then [funct3].  [None] is an
    encoding the manual reserves (as [c.lui] with a zero immediate, whatever its
    register), or a floating-point one, which this machine lacks; the hints are
    no-ops; the comparisons of branches on zero put the register second, as the
    code does. *)
Definition rvc (h_funct3 : Z) : option AnyOp :=
  match uimm 0 [0;1]%nat, h_funct3 with
  | 0, 0 => let imm := uimm 2 [6;5;11;12;7;8;9;10]%nat in if imm =? 0 then None else rvI ADDI r_2 2 imm
  | 0, 2 => rvL LW r_2 r_7 cl_w
  | 0, 3 => rvL LD r_2 r_7 cl_d
  | 0, 6 => rvS SW r_7 r_2 cl_w
  | 0, 7 => rvS SD r_7 r_2 cl_d
  | 1, 0 => if (r_full =? 0)%nat || (ci_imm =? 0) then rv_nop else rvI ADDI r_full r_full ci_imm
  | 1, 1 => if (r_full =? 0)%nat then None else rvI ADDIW r_full r_full ci_imm
  | 1, 2 => if (r_full =? 0)%nat then rv_nop else rvI ADDI r_full 0 ci_imm
  | 1, 3 =>
      if (r_full =? 2)%nat then
        let imm := simm 4 [6;2;5;3;4;12]%nat in if imm =? 0 then None else rvI ADDI 2 2 imm
      else let imm := simm 12 [2;3;4;5;6;12]%nat in
           if imm =? 0 then None else if (r_full =? 0)%nat then rv_nop else Some (Executable (LUI {| U_rd := r_full; U_imm := as_u64 imm |}))
  | 1, 4 =>
      match uimm 0 [10;11]%nat with
      | 0 => rvI SRLI r_7 r_7 ci_shamt
      | 1 => rvI SRAI r_7 r_7 (2 ^ 10 + ci_shamt)
      | 2 => rvI ANDI r_7 r_7 ci_imm
      | _ =>
          match uimm 0 [5;6;12]%nat with
          | 0 => rvR SUB r_7 r_7 r_2
          | 1 => rvR XOR r_7 r_7 r_2
          | 2 => rvR OR r_7 r_7 r_2
          | 3 => rvR AND r_7 r_7 r_2
          | 4 => rvR SUBW r_7 r_7 r_2
          | 5 => rvR ADDW r_7 r_7 r_2
          | _ => None
          end
      end
  | 1, 5 => Some (Executable (JAL {| J_rd := 0; J_imm := as_u64 cj_imm |}))
  | 1, 6 => Some (Executable (BEQ {| B_rs1 := 0; B_rs2 := r_7; B_imm := cb_imm |}))
  | 1, 7 => Some (Executable (BNE {| B_rs1 := 0; B_rs2 := r_7; B_imm := cb_imm |}))
  | 2, 0 => if (r_full =? 0)%nat then rv_nop else rvI SLLI r_full r_full ci_shamt
  | 2, 2 => if (r_full =? 0)%nat then None else rvL LW r_full 2 (uimm 2 [4;5;6;12;2;3]%nat)
  | 2, 3 => if (r_full =? 0)%nat then None else rvL LD r_full 2 (uimm 3 [5;6;12;2;3;4]%nat)
  | 2, 4 =>
      match uimm 0 [12]%nat, r_full, r_rs2 with
      | 0, O, O => None
      | 0, rs1, O => rvI JALR 0 rs1 0
      | 0, O, _ => rv_nop
      | 0, rd, rs2 => rvR ADD rd 0 rs2
      | _, O, O => Some (Host (EBREAK {| I_rd := 0; I_rs1 := 0; I_imm := 1 |}))
      | _, rs1, O => rvI JALR 1 rs1 0
      | _, O, _ => rv_nop
      | _, rd, rs2 => rvR ADD rd rd rs2
      end
  | 2, 6 => rvS SW 2 r_rs2 (uimm 2 [9;10;11;12;7;8]%nat)
  | 2, 7 => rvS SD 2 r_rs2 (uimm 3 [10;11;12;7;8;9]%nat)
  | _, _ => None
  end.
Definition rv64c : option AnyOp := rvc (uimm 0 [13;14;15]%nat).
(** [c.slli] of register 0, a hint. *)
Definition is_slli_x0 : bool :=
  (uimm 0 [0;1]%nat =? 2) && (uimm 0 [13;14;15]%nat =? 0) && (r_full =? 0)%nat.
End Manual.

(** ** The check *)
#[export] Instance FormatI_eq_dec : EqDecision FormatI.
Proof. solve_decision. Defined.
#[export] Instance FormatR_eq_dec : EqDecision FormatR.
Proof. solve_decision. Defined.
#[export] Instance FormatB_eq_dec : EqDecision FormatB.
Proof. solve_decision. Defined.
#[export] Instance FormatJ_eq_dec : EqDecision FormatJ.
Proof. solve_decision. Defined.
#[export] Instance FormatU_eq_dec : EqDecision FormatU.
Proof. solve_decision. Defined.
#[export] Instance FormatLoad_eq_dec : EqDecision FormatLoad.
Proof. solve_decision. Defined.
#[export] Instance FormatS_eq_dec : EqDecision FormatS.
Proof. solve_decision. Defined.

(** Equality on the instructions of the C extension. *)
Definition rvc_eqb (a b : AnyOp) : bool :=
  match a, b with
  | Executable (ADDI a), Executable (ADDI b) | Executable (ADDIW a), Executable (ADDIW b)
  | Executable (SRLI a), Executable (SRLI b) | Executable (SRAI a), Executable (SRAI b)
  | Executable (ANDI a), Executable (ANDI b) | Executable (SLLI a), Executable (SLLI b)
  | Executable (JALR a), Executable (JALR b) | Host (EBREAK a), Host (EBREAK b) => bool_decide (a = b)
  | Executable (SUB a), Executable (SUB b) | Executable (XOR a), Executable (XOR b)
  | Executable (OR a), Executable (OR b) | Executable (AND a), Executable (AND b)
  | Executable (SUBW a), Executable (SUBW b) | Executable (ADDW a), Executable (ADDW b)
  | Executable (ADD a), Executable (ADD b) => bool_decide (a = b)
  | Executable (LW a), Executable (LW b) | Executable (LD a), Executable (LD b) => bool_decide (a = b)
  | Executable (SW a), Executable (SW b) | Executable (SD a), Executable (SD b) => bool_decide (a = b)
  | Executable (BEQ a), Executable (BEQ b) | Executable (BNE a), Executable (BNE b) => bool_decide (a = b)
  | Executable (JAL a), Executable (JAL b) => bool_decide (a = b)
  | Executable (LUI a), Executable (LUI b) => bool_decide (a = b)
  | _, _ => false
  end.

Definition standard_b (w : Z) : bool :=
  negb ((Z.land w 0x7f =? 0x0b) || (Z.land w 0x7f =? 0x2b) || (Z.land w 0x7f =? 0x5b)).
(** What the code makes of [h]: the manual's instruction but for two encodings:
    it takes the reserved [c.lui x0, 0] for a no-op, and refuses the hints
    [c.slli x0]. *)
Definition code_rv64c (h : Z) : option AnyOp :=
  if h =? 0x6001 then rv_nop else if is_slli_x0 h then None else rv64c h.
(** The expansion of [h] decodes to that, or to an error. *)
Definition rvc_ok (h : Z) : bool :=
  (Z.land h 3 =? 3) ||
  let w := uncompress_instruction h Bit64 in
  (0 <=? w) && (w <? 2 ^ 32) && standard_b w &&
  match decode true w 0 true, code_rv64c h with
  | Some (inr s), Some op => rvc_eqb (operands s) op
  | Some (inl _), None => true
  | _, _ => false
  end.

(** A check of every [n]-bit number above the prefix [v]. *)
Fixpoint all_bits (n : nat) (P : Z -> bool) (v : Z) : bool :=
  match n with O => P v | S n => all_bits n P (2 * v) && all_bits n P (2 * v + 1) end.

Lemma all_bits_spec n P v : all_bits n P v = true ->
  forall u, 0 <= u < 2 ^ Z.of_nat n -> P (v * 2 ^ Z.of_nat n + u) = true.
Proof.
  revert v. induction n as [|n IH]; intros v H u Hu.
  - change (2 ^ Z.of_nat 0) with 1 in *. replace (v * 1 + u) with v by lia. exact H.
  - apply andb_true_iff in H as [H0 H1]. rewrite Nat2Z.inj_succ, Z.pow_succ_r in * by lia.
    destruct (decide (u < 2 ^ Z.of_nat n)).
    + replace (v * (2 * 2 ^ Z.of_nat n) + u) with (2 * v * 2 ^ Z.of_nat n + u) by lia. apply IH; [done|lia].
    + replace (v * (2 * 2 ^ Z.of_nat n) + u) with ((2 * v + 1) * 2 ^ Z.of_nat n + (u - 2 ^ Z.of_nat n)) by lia.
      apply IH; [done|lia].
Qed.

Lemma rvc_checked : all_bits 16 rvc_ok 0 = true.
Proof. vm_cast_no_check (eq_refl true). Qed.

Lemma rvc_eqb_eq a b : rvc_eqb a b = true -> a = b.
Proof.
  destruct a as [a|a]; destruct a; cbn [rvc_eqb]; try discriminate;
    destruct b as [b|b]; try discriminate; destruct b; try discriminate;
    intros H%bool_decide_eq_true; by rewrite H.
Qed.

Lemma standard_b_spec w : standard_b w = true -> standard_opcode w.
Proof.
  unfold standard_b, standard_opcode. intros H%negb_true_iff.
  apply orb_false_iff in H as [[H1 H2]%orb_false_iff H3].
  apply Z.eqb_neq in H1, H2, H3. done.
Qed.

(** The outcome of [decode] on a standard word depends neither on the build nor on
    the address where the build with assertions decodes it. *)
Lemma decode_anywhere dbg w a c s : in_u 32 w -> standard_opcode w -> decode true w 0 c = Some (inr s) ->
  decode dbg w a c = Some (inr (fresh_struct (operands s) a c)).
Proof.
  intros Hw Ho H. destruct (decode_covered w Hw true 0 c Ho) as [[m E]|(d & Hd & Hs & E)]; [congruence|].
  rewrite E in H. apply declared_new_Some in H as [Hdecl ->].
  rewrite (decode_selected dbg w a c d Hw Hd Hs). apply declared_new_Some. split; [auto|done].
Qed.
Lemma decode_rejects dbg w a c m : in_u 32 w -> standard_opcode w -> decode true w 0 c = Some (inl m) ->
  exists m', decode dbg w a c = Some (inl m').
Proof.
  intros Hw Ho H. destruct (decode_covered w Hw dbg a c Ho) as [[m' E]|(d & Hd & Hs & E)]; [by exists m'|].
  rewrite (decode_selected true w 0 c d Hw Hd Hs), declared_new_spec in H. by case_match.
Qed.

(** An expanded halfword is a word. *)
Lemma uncompress_range h : in_u 16 h -> Z.land h 3 <> 3 -> in_u 32 (uncompress_instruction h Bit64).
Proof.
  intros Hh H3. pose proof (all_bits_spec 16 rvc_ok 0 rvc_checked h Hh) as Hok.
  rewrite Z.mul_0_l, Z.add_0_l in Hok. unfold rvc_ok in Hok.
  apply orb_true_iff in Hok as [H|Hok]; [by apply Z.eqb_eq in H|]. cbv zeta in Hok.
  apply andb_true_iff in Hok as [[[H0 H32]%andb_true_iff _]%andb_true_iff _]. unfold in_u. lia.
Qed.

Lemma code_decoded dbg h a :
  in_u 16 h -> Z.land h 3 <> 3 ->
  match code_rv64c h with
  | Some op => decode dbg (uncompress_instruction h Bit64) a true = Some (inr (fresh_struct op a true))
  | None => exists m, decode dbg (uncompress_instruction h Bit64) a true = Some (inl m)
  end.
Proof.
  intros Hh H3. pose proof (all_bits_spec 16 rvc_ok 0 rvc_checked h Hh) as Hok.
  rewrite Z.mul_0_l, Z.add_0_l in Hok. unfold rvc_ok in Hok.
  apply orb_true_iff in Hok as [H|Hok]; [by apply Z.eqb_eq in H|].
  cbv zeta in Hok. generalize dependent (uncompress_instruction h Bit64). intros w Hok.
  apply andb_true_iff in Hok as [[[H0 H32]%andb_true_iff Hst]%andb_true_iff Hd].
  assert (Hw : in_u 32 w) by (unfold in_u; lia). apply standard_b_spec in Hst.
  destruct (decode true w 0 true) as [[m|s]|] eqn:E; [| |done].
  - destruct (code_rv64c h); [done|]. by eapply decode_rejects.
  - destruct (code_rv64c h) as [op|]; [|done]. apply rvc_eqb_eq in Hd as <-. by apply decode_anywhere.
Qed.


