(* ===== verification/FetchCorrect.v ===== *)
(** * FetchCorrect: fetching and decoding on machines that agree

    Without translation a fetch never traps.  What it decodes is well typed, and
    two machines that agree fetch and decode the same instruction and agree
    after it. *)
From S2P Require Import Prelude Bits Registers AdviceTape Memory Device Mmu MmuSpec MmuStore Cpu Formats Instr Assembler Sequences.
From S2P Require Import Trace Decode Compressed DecodeCorrect CompressedCorrect ElfText Fetch ExecWf MmuInvariant Congruence TickCorrect.
Open Scope Z_scope.

(** ** The word fetched *)
Lemma read_word_range a m v m' : read_word a m = Some (v, m') -> in_u 32 v.
Proof.
  unfold read_word. destruct (is_multiple_of a 4); intros (u & m1 & _ & [= <- _])%M_bind_Some; apply wrapu_range; lia.
Qed.
Lemma load_raw_loop_range a i n d s v s' : in_u 32 d -> load_raw_loop 32 a i n d s = Some (v, s') -> in_u 32 v.
Proof.
  revert i d s. induction n as [|n IH]; intros i d s Hd; cbn [load_raw_loop]; [by intros [= <- _]|].
  intros (b & s1 & _ & E)%M_bind_Some. eapply IH; [|exact E]. apply in_u_lor; [lia|done|apply wrapu_range; lia].
Qed.
Lemma load_word_raw_range a s v s' : load_word_raw a s = Some (v, s') -> in_u 32 v.
Proof.
  unfold load_word_raw. intros (s0 & s1 & [= <- <-] & E)%M_bind_Some. cbv zeta in E. destruct (within_ram _ _).
  - apply M_bind_Some in E as (u & s2 & _ & E). unfold ram_read_word, on_memory in E.
    destruct (read_word _ _) as [[w m]|] eqn:Er; [|done]. injection E as <- _. by eapply read_word_range.
  - by eapply load_raw_loop_range.
Qed.

Lemma fetch_byte_fetches a s r s' : mmu_wf s -> fetch a s = Some (r, s') -> (exists b, r = inr b) /\ mmu_wf s'.
Proof.
  intros H E. split; [|by apply (kept_wf _ s r s' (fun p => fetch_kept a) H E)]. unfold fetch in E.
  rewrite (M_bind_eq _ _ _ _ _ (translate_none s a Execute H)) in E.
  apply M_bind_Some in E as (b & s1 & _ & [= <- _]). by exists b.
Qed.
Lemma fetch_loop_fetches a i n d s r s' : mmu_wf s -> in_u 32 d -> fetch_loop a i n d s = Some (r, s') ->
  exists w, r = inr w /\ in_u 32 w.
Proof.
  revert i d s. induction n as [|n IH]; intros i d s Hs Hd; cbn [fetch_loop]; [intros [= <- _]; by exists d|].
  intros (r1 & s1 & E1 & E)%M_bind_Some. destruct (fetch_byte_fetches _ _ _ _ Hs E1) as [[b ->] Hs1].
  eapply IH; [exact Hs1| |exact E]. apply in_u_lor; [lia|done|apply wrapu_range; lia].
Qed.
Lemma fetch_word_fetches a s r s' : mmu_wf s -> fetch_word a s = Some (r, s') -> exists w, r = inr w /\ in_u 32 w.
Proof.
  intros H. unfold fetch_word. destruct (_ <=? _); [|by apply fetch_loop_fetches].
  intros (s0 & s1 & [= <- <-] & E)%M_bind_Some. cbv zeta in E.
  rewrite (M_bind_eq _ _ _ _ _ (translate_none s _ Execute H)) in E.
  apply M_bind_Some in E as (w & s2 & E2 & [= <- _]). exists w. split; [done|by eapply load_word_raw_range].
Qed.

(** ** Machines that agree *)
Lemma set_mmu_sim e t m m' : cpu_sim e t -> mmu_sim m m' -> cpu_sim (set_mmu e m) (set_mmu t m').
Proof. intros [] Hm. by split. Qed.

Lemma fetch_decode_sims dbg e t : cpu_sim e t -> sims pair_sim (fetch_decode dbg e) (fetch_decode dbg t).
Proof.
  intros H. unfold fetch_decode, Cpu_fetch. rewrite (sim_pc _ _ H).
  pose proof (cong_fetch_word (pc e) _ _ (sim_mmu _ _ H)) as Hf. unfold both_end in Hf.
  destruct (fetch_word (pc e) (mmu e)) as [[r m]|]; [|done]. destruct Hf as (m' & -> & Hm). cbn [mbind option_bind].
  pose proof (set_mmu_sim e t m m' H Hm) as H1. destruct r as [tr|w].
  - apply sims_some. split; [done|]. cbn [snd]. rewrite (sim_pc _ _ H1). by apply sim_update_pc.
  - cbn [mbind option_bind]. rewrite (sim_pc _ _ H1), (sim_xlen _ _ H1). destruct (negb _).
    + apply (sims_bind eq); [apply sims_eq|]. intros [tr|i] ? <-; [done|]. apply sims_some. split; [done|].
      cbn [snd]. by apply sim_update_pc.
    + apply (sims_bind eq); [apply sims_eq|]. intros [tr|i] ? <-; [done|]. apply sims_some. split; [done|].
      cbn [snd]. by apply sim_update_pc.
Qed.

(** What a fetch decodes. *)
Lemma fetch_decode_typed dbg c r c1 : mmu_wf (mmu c) -> xlen c = Bit64 -> fetch_decode dbg c = Some (r, c1) ->
  (exists i, r = inr i /\ well_typed (operands i)) /\ x c1 = x c /\ set_mmu (update_pc c1 0) (Mmu_new Bit64) = set_mmu (update_pc c 0) (Mmu_new Bit64) /\
  mmu_wf (mmu c1) /\ privilege_mode (mmu c1) = privilege_mode (mmu c).
Proof.
  intros Hm Hx. unfold fetch_decode, Cpu_fetch. destruct (fetch_word _ _) as [[r0 m]|] eqn:Ef; [|done].
  cbn [mbind option_bind]. destruct (fetch_word_fetches _ _ _ _ Hm Ef) as (w & -> & Hw). cbn [mbind option_bind].
  change (Cpu.xlen (set_mmu c m)) with (xlen c). rewrite Hx.
  destruct (kept_wf _ _ _ _ (fun p => fetch_word_kept (pc c)) Hm Ef) as [Hm1 Hp1].
  destruct (Z.eqb_spec (Z.land w 3) 3) as [E3|E3]; cbn [negb].
  - intros ([s|i] & Ed & E)%bind_Some; [done|]. injection E as <- <-. split; [|done].
    exists i. split; [done|]. by apply (decode_typed _ _ _ _ _ Hw Ed).
  - intros ([s|i] & Ed & E)%bind_Some; [done|]. injection E as <- <-. split; [|done].
    exists i. split; [done|]. refine (proj1 (decode_typed _ _ _ _ _ _ Ed)).
    apply uncompress_range.
    + change 0xffff with (Z.ones 16). rewrite Z.land_ones by lia. apply Z.mod_pos_bound. lia.
    + rewrite <- Z.land_assoc. exact E3.
Qed.
