(* ===== verification/HostCorrect.v ===== *)
(** * HostCorrect: the system instructions, executed and traced

    The emulator runs a program either without a trace, with [execute], or with
    one, expanding every instruction into its virtual sequence.  The executed
    machine keeps the supported CSRs in its CSR array, the traced one in virtual
    registers: this file relates the two machines and shows that the system
    instructions ([System]) keep the relation. *)
From S2P Require Import Prelude Bits Registers AdviceTape Memory Device Mmu MmuSpec MmuStore Cpu Formats Instr Assembler Sequences.
From S2P Require Import MemSequences Trace Decode Compressed DecodeCorrect ElfText Fetch ExecWf MmuInvariant Congruence Exec64 SeqOps.
From S2P Require Import SeqArith DivArith TraceCorrect TickCorrect FetchCorrect Csr System.
Open Scope Z_scope.

(** ** The relation *)

(** The executed machine [s] keeps the supported CSRs in its CSR array, the
    traced one [t] in virtual registers; the other CSRs, the cycle counter among
    them, are the same in both arrays.  Interrupts are masked, exceptions are not
    delegated, and the executed machine is in machine mode.  Two fields are not
    related, since they differ by construction: the call stack and the number of
    cycles of the trace. *)
Record run_sim (s t : Emulator) : Prop := {
  run_core : cpu_sim (core s) (core t);
  run_ready : ready (core s);
  run_wf : cpu_wf (core t);
  run_csr a r : csr_to_virtual_register a = Some r -> csr_at s a = Some (as_u64 (reg (core t) r));
  run_length : length (csr s) = CSR_CAPACITY /\ length (csr t) = CSR_CAPACITY;
  run_masked : csr_at s CSR_MIE_ADDRESS = Some 0 /\ csr_at t CSR_MIE_ADDRESS = Some 0;
  run_delegated : csr_at s CSR_MEDELEG_ADDRESS = Some 0;
  run_machine : cpu_privilege_mode s = Machine /\ privilege_mode (mmu (core s)) = Machine;
  run_awake : wfi s = false /\ wfi t = false;
  run_clock : cpu_clock t = cpu_clock s;
  run_other a : 0 <= a -> csr_to_virtual_register a = None -> csr_at t a = csr_at s a
}.

(** One test of an address. *)
Ltac test_address a := match goal with |- context [a =? ?k] => destruct (Z.eqb_spec a k) as [->|] end.

(** The virtual registers of the CSRs are neither architectural nor temporaries. *)
Lemma csr_register a r : csr_to_virtual_register a = Some r ->
  (34 <= r < 40)%nat /\ (a = 0x300 \/ a = 0x305 \/ 0x340 <= a <= 0x343).
Proof.
  unfold csr_to_virtual_register.
  repeat (test_address a; [intros [= <-]; split; [split; apply Nat.leb_le; reflexivity|lia]|]). done.
Qed.
Lemma csr_register_inj a b r : csr_to_virtual_register a = Some r -> csr_to_virtual_register b = Some r -> a = b.
Proof.
  unfold csr_to_virtual_register.
  repeat (test_address a; [intros [= <-]; repeat (test_address b; [done|]); done|]). done.
Qed.

(** ** The CSR array *)
Lemma csr_at_Some s a : length (csr s) = CSR_CAPACITY -> 0 <= a < 4096 -> is_Some (csr_at s a).
Proof. intros Hl Ha. apply lookup_lt_is_Some. rewrite Hl. unfold CSR_CAPACITY. lia. Qed.
Lemma csr_assign_spec s a v : length (csr s) = CSR_CAPACITY -> 0 <= a < 4096 ->
  csr_assign s a v = Some (set_csr s (<[Z.to_nat a := v]> (csr s))).
Proof. intros Hl Ha. unfold csr_assign. rewrite decide_True; [done|]. rewrite Hl. unfold CSR_CAPACITY. lia. Qed.
Lemma csr_assigned s a v b : length (csr s) = CSR_CAPACITY -> 0 <= a < 4096 -> 0 <= b ->
  (<[Z.to_nat a := v]> (csr s)) !! Z.to_nat b = if decide (b = a) then Some v else csr_at s b.
Proof.
  intros Hl Ha Hb. case_decide as E.
  - subst b. apply list_lookup_insert_eq. rewrite Hl. unfold CSR_CAPACITY. lia.
  - rewrite list_lookup_insert_ne by lia. done.
Qed.
(** The CSRs that are not views are read and written as they are. *)
Lemma read_supported s a r : csr_to_virtual_register a = Some r -> read_csr_raw s a = csr_at s a.
Proof.
  intros (_ & H)%csr_register. unfold read_csr_raw, CSR_FFLAGS_ADDRESS, CSR_FRM_ADDRESS, CSR_SSTATUS_ADDRESS,
    CSR_SIE_ADDRESS, CSR_SIP_ADDRESS, CSR_TIME_ADDRESS.
  repeat (test_address a; [lia|]). done.
Qed.
(** A write of a supported CSR: it is assigned, and the memory unit may be told. *)
Lemma write_supported s a r v : csr_to_virtual_register a = Some r -> length (csr s) = CSR_CAPACITY ->
  exists m, write_csr_raw s a v = Some (set_core (set_csr s (<[Z.to_nat a := v]> (csr s))) (set_mmu (core s) m)) /\
    (m = mmu (core s) \/ exists w, m = update_mstatus (mmu (core s)) w).
Proof.
  intros Hr Hl. pose proof (csr_register a r Hr) as [_ H].
  unfold write_csr_raw, CSR_FFLAGS_ADDRESS, CSR_FRM_ADDRESS, CSR_SSTATUS_ADDRESS,
    CSR_SIE_ADDRESS, CSR_SIP_ADDRESS, CSR_MIDELEG_ADDRESS, CSR_MSTATUS_ADDRESS, CSR_TIME_ADDRESS.
  do 6 (test_address a; [lia|]). rewrite csr_assign_spec by lia. destruct (Z.eqb_spec a 0x300) as [->|].
  - cbn [mbind option_bind]. unfold tell_mstatus. rewrite (read_supported _ _ _ Hr).
    unfold csr_at. cbn [csr set_csr]. rewrite csr_assigned by lia. cbn. eexists. split; [reflexivity|]. right. by eexists.
  - destruct (Z.eqb_spec a 0xc01); [lia|]. exists (mmu (core s)). split; [|by left]. by destruct s as [[] ? ? ? ?].
Qed.

(** ** The sequences *)

(** A sequence of virtual instructions with given operations, at an address. *)
Definition has_items (m : M (list SequenceItem)) (ops : list Op) (addr : Z) : Prop :=
  forall a, temporaries_free a ->
  exists l, m a = Some (map Emitted l, a) /\ map operands l = ops /\ Forall (fun i => address i = addr) l.

Ltac solve_has_items :=
  let a := fresh "a" in let Ha := fresh "Ha" in intros a Ha;
  apply temporaries_free_shape in Ha as (?&?&?&?&?&?&?&?&?&?&->);
  eexists; split; [|split];
  [ cbv -[map wrapu wraps Z.land Z.shiftl Z.sub Z.add Z.lor]; reflexivity
  | cbv -[wrapu wraps Z.land Z.shiftl Z.sub Z.add Z.lor]; reflexivity
  | repeat (apply list.Forall_cons; split); first [apply List.Forall_nil|reflexivity] ].

Definition CSRRW_ops (v : nat) (o : FormatI) : list Op :=
  if (I_rd o =? 0)%nat then [ADDI (ri v (I_rs1 o) 0)]
  else if (I_rd o =? I_rs1 o)%nat then [ADDI (ri 40 (I_rs1 o) 0); ADDI (ri (I_rd o) v 0); ADDI (ri v 40 0)]
  else [ADDI (ri (I_rd o) v 0); ADDI (ri v (I_rs1 o) 0)].
Definition CSRRS_ops (v : nat) (o : FormatI) : list Op :=
  if (I_rs1 o =? 0)%nat then [ADDI (ri (I_rd o) v 0)]
  else if (I_rd o =? 0)%nat then [OR (rr v v (I_rs1 o))]
  else if (I_rd o =? I_rs1 o)%nat then [ADDI (ri 40 (I_rs1 o) 0); ADDI (ri (I_rd o) v 0); OR (rr v v 40)]
  else [ADDI (ri (I_rd o) v 0); OR (rr v v (I_rs1 o))].

Lemma supported_not_0 a v : csr_to_virtual_register a = Some v -> (a =? 0) = false.
Proof. intros (_ & H)%csr_register. apply Z.eqb_neq. lia. Qed.
Lemma CSRRW_items (s : Struct FormatI) v : csr_to_virtual_register (csr_address (operands s)) = Some v ->
  has_items (CSRRW_inline_sequence Bit64 s) (CSRRW_ops v (operands s)) (address s).
Proof.
  intros Hv. unfold CSRRW_inline_sequence, CSRRW_ops. cbv zeta. rewrite (supported_not_0 _ _ Hv), Hv.
  destruct (I_rd _ =? 0)%nat; [|destruct (I_rd _ =? I_rs1 _)%nat]; solve_has_items.
Qed.
Lemma CSRRS_items (s : Struct FormatI) v : csr_to_virtual_register (csr_address (operands s)) = Some v ->
  has_items (CSRRS_inline_sequence Bit64 s) (CSRRS_ops v (operands s)) (address s).
Proof.
  intros Hv. unfold CSRRS_inline_sequence, CSRRS_ops. cbv zeta. rewrite (supported_not_0 _ _ Hv), Hv.
  destruct (I_rs1 _ =? 0)%nat; [|destruct (I_rd _ =? 0)%nat; [|destruct (I_rd _ =? I_rs1 _)%nat]]; solve_has_items.
Qed.

Definition ECALL_ops : list Op :=
  [AUIPC {| U_rd := 40; U_imm := 0 |}; ADDI (ri MEPC_REGISTER 40 0); ADDI (ri MCAUSE_REGISTER 0 11);
   ADDI (ri MTVAL_REGISTER 0 0); ADDI (ri 40 0 3); VirtualMULI (ri MSTATUS_REGISTER 40 2048);
   JALR (ri 40 TRAP_HANDLER_REGISTER 0)].
Lemma ECALL_items (s : Struct FormatI) : has_items (ECALL_inline_sequence Bit64 s) ECALL_ops (address s).
Proof. solve_has_items. Qed.
Lemma MRET_items (s : Struct FormatI) : has_items (MRET_inline_sequence Bit64 s) [JALR (ri 40 MEPC_REGISTER 0)] (address s).
Proof. solve_has_items. Qed.

(** ** Running a sequence *)

(** An instruction without a sequence of its own, with valid registers; when the
    sequence is run by [trace], its destination is not [x0]. *)
Definition leaf (nonzero : bool) (i : Instruction) : Prop :=
  (forall c, traced_sequence i c = None) /\ op_valid (operands i) /\ (nonzero = true -> rd_is_zero i = false).
Definition runs (nonzero : bool) (n : nat) : Instruction -> Cpu -> option (Cpu * list Cycle) :=
  if nonzero then trace (S n) else trace_raw (S n).

Lemma leaf_runs nz n i c c' : cpu_wf c -> leaf nz i -> execute i c = Some c' ->
  exists t, runs nz n i c = Some (c', t).
Proof.
  intros Hc (Hl & Hv & Hz) He. pose proof (default_trace_cycle_spec i c Hc Hv) as Hd. rewrite He in Hd.
  destruct Hd as [t Hd]. exists t. unfold runs. destruct nz.
  - by rewrite trace_leaf by auto.
  - cbn [trace_raw]. by rewrite Hl.
Qed.
Lemma leaves_run nz n l s c' : cpu_wf (core s) -> Forall (leaf nz) l -> exec_list l (core s) = Some c' ->
  exists t, run_items (runs nz n) (map Emitted l) s = Some (set_core s c', t).
Proof.
  revert s. induction l as [|i l IH]; intros s Hc Hl; cbn [exec_list map run_items].
  { intros [= <-]. exists []. by destruct s. }
  apply list.Forall_cons in Hl as [Hi Hl]. intros (c1 & E1 & E)%bind_Some.
  destruct (leaf_runs nz n i (core s) c1 Hc Hi E1) as [t1 ->]. cbn [mbind option_bind].
  pose proof (keeps_wf _ _ (execute_keeps i _ _ E1) Hc) as Hc1.
  destruct (IH (set_core s c1) Hc1 Hl E) as [t2 ->]. cbn [mbind option_bind]. by eexists.
Qed.

(** A straight line of operations, run by [execute]. *)
Lemma exec_list_run64 l c f c1 f' : xlen c = Bit64 -> with_regs c f c1 -> Forall (fun i => op_valid (operands i)) l ->
  run64 (map operands l) f = Some f' -> exists c', exec_list l c1 = Some c' /\ with_regs c f' c'.
Proof.
  intros Hx. revert f c1. induction l as [|i l IH]; intros f c1 Hw Hv; cbn [exec_list map run64].
  { intros [= <-]. by exists c1. }
  apply list.Forall_cons in Hv as [Hi Hv]. intros (f1 & E1 & E)%bind_Some.
  pose proof (wreg_wf _ _ _ Hw) as Hwf. assert (Hx1 : xlen c1 = Bit64) by (by rewrite (with_regs_xlen _ _ _ Hw)).
  destruct (outcome64 f (operands i)) as [oc|] eqn:Eo; [|done].
  assert (Eo' : outcome64 (reg c1) (operands i) = Some oc).
  { rewrite <- Eo. apply outcome64_ext; [done|]. apply Hw. }
  pose proof (execute_outcome i c1 oc Hwf Hx1 Hi Eo') as He. destruct oc as [rd v|[]]; cbn in E1; try done; injection E1 as <-.
  - rewrite He. cbn [mbind option_bind]. apply (IH (upd f rd v)); [|done|done].
    apply with_regs_wr; [done| |by apply (keeps_wf _ _ (execute_keeps _ _ _ He))].
    pose proof (outcome_rd _ _ _ _ Eo) as Hrd. destruct Hi as (Hi & _). by rewrite Hrd in Hi.
  - rewrite He. by apply (IH f).
Qed.
Lemma exec_list_app l l' c : exec_list (l ++ l') c = c1 ← exec_list l c; exec_list l' c1.
Proof.
  revert c. induction l as [|i l IH]; intros c; cbn [app exec_list]; [done|].
  destruct (execute i c); cbn [mbind option_bind]; [apply IH|done].
Qed.

Lemma set_core_id s : set_core s (set_allocator (core s) (vr_allocator (core s))) = s.
Proof. rewrite set_allocator_id. by destruct s. Qed.

(** An instruction that keeps its destination [x0] when it is expanded is traced
    by running its sequence. *)
Section Handled.
Context (inventory : list InlineRegistration) (n : nat) (h : Struct HostOp) (s : Emulator) (l : list Instruction) (c' : Cpu).
Context (Hh : handles_zero_rd (operands h) = true) (Hd : forall o, operands h <> EBREAK o).
Context (Hc : ready (core s)).
Context (Hl : host_dispatch_sequence inventory h Bit64 (vr_allocator (core s)) = Some (map Emitted l, vr_allocator (core s))).

Lemma handled_trace : Forall (leaf (negb (host_rd_is_zero (operands h)))) l -> exec_list l (core s) = Some c' ->
  exists t, host_trace inventory (S n) h s = Some (set_core s c', t) /\
    host_inline_sequence inventory h (xlen c') (vr_allocator c') = Some (map Emitted l, vr_allocator c').
Proof.
  intros Hf He. destruct (leaves_run _ n l s c' (ready_wf _ Hc) Hf He) as [t Ht]. exists t.
  destruct (exec_list_keeps _ _ _ He) as [Kx Ka _ _ _]. split.
  - unfold host_trace, host_inline_sequence. rewrite Hh, andb_false_r, (ready_xlen _ Hc).
    destruct (host_rd_is_zero (operands h)); cbn [negb runs] in Ht.
    + rewrite Hl. cbn [mbind option_bind]. by rewrite set_core_id.
    + unfold host_trace_raw. destruct (operands h) as [] eqn:Eo; try discriminate Hh; try (by destruct (Hd o));
        rewrite (ready_xlen _ Hc), Hl; cbn [mbind option_bind]; by rewrite set_core_id.
  - unfold host_inline_sequence. rewrite Hh, andb_false_r, Kx, (ready_xlen _ Hc), Ka. exact Hl.
Qed.
End Handled.

(** ** CSR instructions *)

(** What the sequences of the CSR instructions compute. *)
Definition swaps (f f' : regs) (v rd : nat) (new : Z) : Prop :=
  f' v = new /\ (rd <> 0%nat -> f' rd = f v) /\ f' 0%nat = 0 /\
  forall r, r <> v -> r <> rd -> ~ instruction_reg r -> f' r = f r.

Lemma copied z : in_s 64 z -> as_i64 (z + as_i64 0) = z.
Proof. intros Hz. change (as_i64 0) with 0. rewrite Z.add_0_r. by apply wraps_small. Qed.
Lemma run_copy d r l f : in_s 64 (f r) -> run64 (ADDI (ri d r 0) :: l) f = run64 l (upd f d (f r)).
Proof.
  intros H. cbn [run64 outcome64 run_outcome mbind option_bind ri I_rd I_rs1 I_imm]. by rewrite copied.
Qed.
Lemma run_constant d k l f : f 0%nat = 0 -> as_i64 k = k -> run64 (ADDI (ri d 0 k) :: l) f = run64 l (upd f d k).
Proof.
  intros H0 Hk'. cbn [run64 outcome64 run_outcome mbind option_bind ri I_rd I_rs1 I_imm]. by rewrite H0, Z.add_0_l, Hk', Hk'.
Qed.
Lemma run_or d r1 r2 l f : run64 (OR (rr d r1 r2) :: l) f = run64 l (upd f d (Z.lor (f r1) (f r2))).
Proof. done. Qed.
Lemma upd_in_s f d v r : (forall r, in_s 64 (f r)) -> in_s 64 v -> in_s 64 (upd f d v r).
Proof. intros Hf Hv. unfold upd. repeat case_match; auto. Qed.

Ltac test_register := match goal with |- context [(?a =? ?b)%nat] => destruct (Nat.eqb_spec a b) end.
Section Swaps.
Context (f : regs) (Hf : regs_wf f) (v : nat) (o : FormatI) (Hv : (34 <= v < 40)%nat) (Hd : low (I_rd o)) (H1 : low (I_rs1 o)).
Ltac swapped :=
  eexists; split; [reflexivity|]; destruct Hf as [_ H0]; unfold swaps, upd, low, instruction_reg in *;
  repeat split; intros; repeat test_register; subst; try lia; try congruence;
  repeat match goal with E : I_rs1 o = 0%nat |- _ => rewrite E; clear E end; rewrite ?H0, ?Z.lor_0_r; try done; try lia.
Lemma CSRRW_performs : exists f', run64 (CSRRW_ops v o) f = Some f' /\ swaps f f' v (I_rd o) (f (I_rs1 o)).
Proof.
  pose proof Hf as [Hr _]. unfold CSRRW_ops. repeat test_register;
    repeat (rewrite run_copy by auto using upd_in_s); cbn [run64].
  all: swapped.
Qed.
Lemma CSRRS_performs : exists f', run64 (CSRRS_ops v o) f = Some f' /\ swaps f f' v (I_rd o) (Z.lor (f v) (f (I_rs1 o))).
Proof.
  pose proof Hf as [Hr _]. unfold CSRRS_ops. repeat test_register;
    repeat first [rewrite run_copy by auto using upd_in_s | rewrite run_or]; cbn [run64].
  all: swapped.
Qed.
End Swaps.

(** ** The relation after an instruction *)

(** Agreement and readiness do not depend on what the executed machine tells its
    memory unit of [mstatus]. *)
Lemma told_sim m m' w : mmu_sim m m' -> mmu_sim (update_mstatus m w) m'.
Proof. intros [H1 H2 H3 H4]. by split. Qed.
Definition told (m m1 : Mmu) : Prop := m1 = m \/ exists w, m1 = update_mstatus m w.
Lemma told_ready c m1 : told (mmu c) m1 -> ready c -> ready (set_mmu c m1).
Proof.
  intros Ht [H1 H2 H3 H4]. split; [by destruct H1; split|done|done|].
  destruct Ht as [->|[w ->]]; [done|]. by destruct H4; split.
Qed.
Lemma told_core c d m1 : told (mmu c) m1 -> cpu_sim c d -> cpu_sim (set_mmu c m1) d.
Proof. intros Ht H. destruct Ht as [->|[w ->]]; [by destruct H|]. destruct H. split; try done. by apply told_sim. Qed.
Lemma told_mode m m1 : told m m1 -> privilege_mode m1 = privilege_mode m.
Proof. by intros [->|[w ->]]. Qed.

(** The write of a register on the one side, of registers on the other. *)
Lemma written_sim c d c1 d1 rd v f' : cpu_sim c d -> cpu_wf c -> cpu_wf d -> write_register c rd v = Some c1 ->
  with_regs d f' d1 -> low rd -> (rd <> 0%nat -> f' rd = v) ->
  (forall r, low r -> r <> rd -> f' r = reg d r) -> f' 0%nat = 0 -> cpu_sim c1 d1.
Proof.
  intros H Hc Hd E [Hr He Hw] Hl H1 H2 H0. rewrite (write_register_wr c Hc) in E by (by apply low_arch). injection E as <-.
  injection He as R1 R2 R3 R4 R5 R6 R7 R8 R9 R10.
  assert (Hx : forall r, low r -> x (wr c rd v) !! r = x d1 !! r).
  { intros r Hlr. rewrite (lookup_reg d1 Hw) by (by apply low_arch). rewrite Hr by (by apply low_arch).
    destruct rd as [|rd]; cbn [wr x set_x].
    - rewrite (sim_x _ _ H) by done. rewrite (lookup_reg d Hd) by (by apply low_arch). f_equal.
      destruct (decide (r = 0%nat)) as [->|]; [by rewrite H0, (reg_zero d Hd)|by rewrite H2].
    - destruct (decide (r = S rd)) as [->|Hne].
      + rewrite list_lookup_insert_eq; [by rewrite H1|]. rewrite (wf_length c Hc). by apply low_arch.
      + rewrite list_lookup_insert_ne by done. rewrite (sim_x _ _ H), (lookup_reg d Hd), H2; (done || by apply low_arch). }
  pose proof (wf_length c Hc) as L1. pose proof (wf_length d1 Hw) as L2. destruct H.
  split; [exact Hx|..]; try (destruct rd; cbn [wr set_x xlen pc reservation reservation_set reservation_width
    unsigned_data_mask vr_allocator advice_tape]; congruence).
  - destruct rd; cbn [wr x set_x]; rewrite ?length_insert; congruence.
  - replace (mmu d1) with (mmu d) by congruence. by destruct rd.
Qed.
Lemma write_register_ready c rd v c1 : ready c -> in_s 64 v -> low rd -> write_register c rd v = Some c1 ->
  ready c1 /\ mmu c1 = mmu c.
Proof.
  intros [H1 H2 H3 H4] Hv Hl E. pose proof (write_register_keeps c rd v c1 E (fun _ => Hv)) as [K1 K2 _ _ K5].
  assert (Em : mmu c1 = mmu c).
  { unfold write_register in E. destruct rd; [by injection E as <-|]. case_decide; [|done]. by injection E as <-. }
  split; [|done]. split; [auto|congruence|congruence|by rewrite Em].
Qed.

(** After a CSR instruction: [v] is the virtual register of [a], [old] what it held. *)
Lemma csr_written s t a v L m1 rd new c1 s2 f' : run_sim s t -> csr_to_virtual_register a = Some v ->
  length L = CSR_CAPACITY -> told (mmu (core s)) m1 ->
  (forall b, 0 <= b -> L !! Z.to_nat b = if decide (b = a) then Some (as_u64 new) else csr_at s b) ->
  with_regs (core t) f' c1 -> swaps (reg (core t)) f' v rd new -> low rd ->
  write_rd (set_core (set_csr s L) (set_mmu (core s) m1)) rd (as_i64 (as_u64 (reg (core t) v))) = Some s2 ->
  run_sim s2 (set_core t c1).
Proof.
  intros [S1 S2 S3 S4 S5 S6 S7 S8 S9 S10 S11] Hv HL Hm HLb Hw (W1 & W2 & W3 & W4) Hl E.
  pose proof (csr_register a v Hv) as [Hvr Har]. pose proof (told_ready _ _ Hm S2) as Hr1. pose proof (told_core _ _ _ Hm S1) as Hs1.
  assert (Hin : in_s 64 (reg (core t) v)) by (apply reg_wf; done).
  unfold write_rd in E. cbn [core set_core] in E. unfold sign_extend in E. rewrite (ready_xlen _ Hr1) in E.
  rewrite as_i64_u64 in E by done.
  assert (Hwr : exists c2, write_register (set_mmu (core s) m1) rd (reg (core t) v) = Some c2 /\ csr s2 = L /\ core s2 = c2 /\
    cpu_privilege_mode s2 = cpu_privilege_mode s /\ wfi s2 = wfi s /\ cpu_clock s2 = cpu_clock s).
  { destruct (decide (rd <> 0)%nat) as [H0|H0].
    - apply bind_Some in E as (c2 & E2 & [= <-]). by exists c2.
    - injection E as <-. destruct rd; [|lia]. by eexists. }
  destruct Hwr as (c2 & Ew & E1 & E2 & E3 & E4 & E5). clear E.
  destruct (write_register_ready _ rd _ c2 Hr1 Hin Hl Ew) as [Hr2 Em2].
  assert (Hsw : forall r, (r < 32)%nat \/ (34 <= r < 40)%nat -> r <> v -> r <> rd -> f' r = reg (core t) r).
  { intros r Hr Hne Hne'. apply W4; [done|done|]. unfold instruction_reg. lia. }
  split; cbn [core csr cpu_privilege_mode wfi cpu_clock set_core].
  - rewrite E2. apply (written_sim (set_mmu (core s) m1) (core t) c2 c1 rd (reg (core t) v) f' Hs1); try done.
    + apply Hr1.
    + intros r Hlr Hne. apply Hsw; [by left|unfold low in Hlr; lia|done].
  - by rewrite E2.
  - apply Hw.
  - intros b r Hb. pose proof (csr_register b r Hb) as [Hbr Hba]. unfold csr_at. rewrite E1, HLb by lia.
    rewrite (wreg_reg _ _ _ Hw) by (apply valid_temp; lia). case_decide as Eb.
    + subst b. assert (r = v) as -> by congruence. by rewrite W1.
    + rewrite Hsw; [by apply S4|by right| |unfold low in Hl; lia]. intros ->. apply Eb. by eapply csr_register_inj.
  - split; [by rewrite E1|apply S5].
  - unfold csr_at. rewrite E1, HLb by (unfold CSR_MIE_ADDRESS; lia). rewrite decide_False by (unfold CSR_MIE_ADDRESS; lia). exact S6.
  - unfold csr_at. rewrite E1, HLb by (unfold CSR_MEDELEG_ADDRESS; lia).
    rewrite decide_False by (unfold CSR_MEDELEG_ADDRESS; lia). exact S7.
  - split; [by rewrite E3; apply S8|]. rewrite E2, Em2. cbn. by rewrite (told_mode _ _ Hm); apply S8.
  - by rewrite E4.
  - by rewrite E5.
  - intros b Hb Hn. unfold csr_at at 2. rewrite E1, HLb by done. rewrite decide_False by congruence. by apply S11.
Qed.

(** The operations of the sequences: pure ones, and [AUIPC] and [JALR]. *)
Definition leaf_op (nz : bool) (op : Op) : Prop :=
  match op with ADDI _ | OR _ | VirtualMULI _ | VirtualSRAI _ | AUIPC _ | JALR _ | VirtualAdviceLoad _ => True | _ => False end /\
  op_valid op /\ (nz = true -> norm_rd (op_operands op) <> Some 0%nat).
Lemma leaves nz l : Forall (leaf_op nz) (map operands l) -> Forall (leaf nz) l.
Proof.
  rewrite Forall_map. intros Hl. eapply list.Forall_impl; [exact Hl|]. intros i (H & Hv & Hz). split; [|split; [done|]].
  - intros c. unfold traced_sequence. by destruct (operands i).
  - intros Hn. specialize (Hz Hn). unfold rd_is_zero. by destruct (norm_rd _) as [[]|].
Qed.
Lemma leaves_valid nz l : Forall (leaf nz) l -> Forall (fun i => op_valid (operands i)) l.
Proof. intros Hl. eapply list.Forall_impl; [exact Hl|]. by intros i (_ & H & _). Qed.

Section CSR.
Context (inventory : list InlineRegistration) (n : nat) (h : Struct HostOp) (s t s' : Emulator) (o : FormatI) (v : nat).
Context (H : run_sim s t) (Hv : csr_to_virtual_register (csr_address o) = Some v) (Hd : low (I_rd o)) (H1 : low (I_rs1 o)).
Abbreviation f := (reg (core t)).

(** The traced side, for a sequence of operations with what it computes. *)
Lemma csr_traced ops new : handles_zero_rd (operands h) = true -> (forall o, operands h <> EBREAK o) ->
  host_rd_is_zero (operands h) = (I_rd o =? 0)%nat ->
  has_items (host_dispatch_sequence inventory h Bit64) ops (address h) ->
  Forall (leaf_op (negb (I_rd o =? 0)%nat)) ops ->
  (exists f', run64 ops f = Some f' /\ swaps f f' v (I_rd o) new) ->
  exists c1 tr l f', host_trace inventory (S n) h t = Some (set_core t c1, tr) /\
    host_inline_sequence inventory h (xlen c1) (vr_allocator c1) = Some (l, vr_allocator c1) /\
    with_regs (core t) f' c1 /\ swaps f f' v (I_rd o) new.
Proof.
  intros Hh He Hz Hi Hl (f' & Hr & Hs).
  pose proof (ready_sim _ _ (run_core _ _ H) (run_ready _ _ H) (run_wf _ _ H)) as Ht.
  destruct (Hi _ (ready_free _ Ht)) as (l & Hm & <- & _). apply leaves in Hl.
  destruct (exec_list_run64 l (core t) f (core t) f' (ready_xlen _ Ht) (with_regs_refl _ (ready_wf _ Ht)) (leaves_valid _ _ Hl) Hr)
    as (c1 & E & Hw). rewrite <- Hz in Hl.
  destruct (handled_trace inventory n h t l c1 Hh He Ht Hm Hl E) as (tr & Htr & Hin).
  by exists c1, tr, (map Emitted l), f'.
Qed.

Lemma CSR_ops_leaf ops : ops = CSRRW_ops v o \/ ops = CSRRS_ops v o -> Forall (leaf_op (negb (I_rd o =? 0)%nat)) ops.
Proof.
  pose proof (csr_register _ _ Hv) as [Hvr _]. unfold low in *.
  intros [->| ->]; unfold CSRRW_ops, CSRRS_ops; repeat test_register;
    repeat (apply list.Forall_cons; split); try apply List.Forall_nil;
    (split; [exact I|split; [repeat split; cbn; try exact I; apply valid_temp; lia|cbn; intros; congruence || (intros [= ?]; lia)]]).
Qed.

Lemma CSRRW_simulates : operands h = CSRRW o -> host_execute h s = Some s' ->
  exists t1 tr l, host_trace inventory (S n) h t = Some (t1, tr) /\
    host_inline_sequence inventory h (xlen (core t1)) (vr_allocator (core t1)) = Some (l, vr_allocator (core t1)) /\ run_sim s' t1.
Proof.
  intros Eh E. pose proof (csr_register _ _ Hv) as [Hvr Har].
  pose proof (ready_sim _ _ (run_core _ _ H) (run_ready _ _ H) (run_wf _ _ H)) as Ht.
  destruct (csr_traced (CSRRW_ops v o) (f (I_rs1 o))) as (c1 & tr & l & f' & Htr & Hin & Hw & Hs).
  { by rewrite Eh. } { by rewrite Eh. } { rewrite Eh. cbn. by destruct (I_rd o). }
  { unfold host_dispatch_sequence. rewrite Eh. by apply (CSRRW_items (retag h o) v). }
  { apply CSR_ops_leaf. by left. } { apply CSRRW_performs; try done. by apply reg_wf, H. }
  exists (set_core t c1), tr, l. split; [done|]. split; [done|].
  unfold host_execute in E. rewrite Eh in E. unfold CSRRW_exec in E. cbv zeta in E.
  rewrite (sim_x _ _ (run_core _ _ H)), (lookup_reg _ (run_wf _ _ H)) in E by (try done; by apply low_arch).
  cbn [mbind option_bind] in E. rewrite (read_supported _ _ _ Hv), (run_csr _ _ H _ _ Hv) in E. cbn [mbind option_bind] in E.
  destruct (write_supported s _ v (as_u64 (f (I_rs1 o))) Hv (proj1 (run_length _ _ H))) as (m & Ew & Hm). rewrite Ew in E.
  cbn [mbind option_bind] in E.
  refine (csr_written s t _ v _ m (I_rd o) (f (I_rs1 o)) c1 s' f' H Hv _ Hm _ Hw Hs Hd E).
  - rewrite length_insert. apply H.
  - intros b Hb. apply csr_assigned; [apply H|lia|done].
Qed.
Lemma CSRRS_simulates : operands h = CSRRS o -> host_execute h s = Some s' ->
  exists t1 tr l, host_trace inventory (S n) h t = Some (t1, tr) /\
    host_inline_sequence inventory h (xlen (core t1)) (vr_allocator (core t1)) = Some (l, vr_allocator (core t1)) /\ run_sim s' t1.
Proof.
  intros Eh E. pose proof (csr_register _ _ Hv) as [Hvr Har].
  pose proof (ready_sim _ _ (run_core _ _ H) (run_ready _ _ H) (run_wf _ _ H)) as Ht.
  destruct (csr_traced (CSRRS_ops v o) (Z.lor (f v) (f (I_rs1 o)))) as (c1 & tr & l & f' & Htr & Hin & Hw & Hs).
  { by rewrite Eh. } { by rewrite Eh. } { rewrite Eh. cbn. by destruct (I_rd o). }
  { unfold host_dispatch_sequence. rewrite Eh. by apply (CSRRS_items (retag h o) v). }
  { apply CSR_ops_leaf. by right. } { apply CSRRS_performs; try done. by apply reg_wf, H. }
  exists (set_core t c1), tr, l. split; [done|]. split; [done|].
  unfold host_execute in E. rewrite Eh in E. unfold CSRRS_exec in E. cbv zeta in E.
  rewrite (sim_x _ _ (run_core _ _ H)), (lookup_reg _ (run_wf _ _ H)) in E by (try done; by apply low_arch).
  cbn [mbind option_bind] in E. rewrite (read_supported _ _ _ Hv), (run_csr _ _ H _ _ Hv) in E. cbn [mbind option_bind] in E.
  assert (El : Z.lor (as_u64 (f v)) (as_u64 (f (I_rs1 o))) = as_u64 (Z.lor (f v) (f (I_rs1 o)))).
  { unfold wrapu. rewrite <- !Z.land_ones by lia. by rewrite Z.land_lor_distr_l. }
  destruct (decide (I_rs1 o <> 0%nat)) as [H0|H0].
  - destruct (write_supported s _ v (Z.lor (as_u64 (f v)) (as_u64 (f (I_rs1 o)))) Hv (proj1 (run_length _ _ H))) as (m & Ew & Hm).
    rewrite Ew in E. cbn [mbind option_bind] in E.
    refine (csr_written s t _ v _ m (I_rd o) _ c1 s' f' H Hv _ Hm _ Hw Hs Hd E).
    + rewrite length_insert. apply H.
    + intros b Hb. rewrite El. apply csr_assigned; [apply H|lia|done].
  - cbn [mbind option_bind] in E.
    refine (csr_written s t _ v (csr s) (mmu (core s)) (I_rd o) _ c1 s' f' H Hv (proj1 (run_length _ _ H)) (or_introl eq_refl) _ Hw Hs Hd _).
    + intros b Hb. case_decide as Eb; [|done]. subst b. change (csr s !! _) with (csr_at s (csr_address o)).
      rewrite (run_csr _ _ H _ _ Hv). assert (I_rs1 o = 0%nat) as -> by lia. by rewrite (reg_zero _ (run_wf _ _ H)), Z.lor_0_r.
    + by destruct s as [[] ? ? ? ?].
Qed.
End CSR.

(** ** Jumps through a virtual register *)

(** New cores, with the CSRs where they were. *)
Lemma run_sim_cores s t c d : run_sim s t -> cpu_sim c d -> ready c -> cpu_wf d ->
  (forall r, (34 <= r < 40)%nat -> reg d r = reg (core t) r) -> privilege_mode (mmu c) = Machine ->
  run_sim (set_core s c) (set_core t d).
Proof.
  intros [S1 S2 S3 S4 S5 S6 S7 S8 S9 S10 S11] H Hc Hd Hr Hp. split; try done.
  - intros a r Ha. pose proof (csr_register a r Ha) as [Hb _]. cbn [core set_core]. rewrite Hr by done. by apply S4.
  - split; [apply S8|exact Hp].
Qed.

Lemma even_land a : in_u 64 a -> Z.even a = true -> Z.land a (as_u64 (Z.lnot 1)) = a.
Proof.
  intros Ha He. apply Z.bits_inj'. intros j Hj. rewrite Z.land_spec.
  destruct (Z.le_gt_cases 64 j) as [H|H]; [by rewrite (testbit_out 64 a j Ha ltac:(lia))|].
  change (as_u64 (Z.lnot 1)) with (Z.ldiff (Z.ones 64) 1). rewrite Z.ldiff_spec, Z.ones_spec_low by lia.
  destruct (decide (j = 0)) as [->|Hj0].
  - rewrite Z.bit0_odd, <- Z.negb_even, He. done.
  - replace (Z.testbit 1 j) with false by (symmetry; change 1 with (2 ^ 0); apply Z.pow2_bits_false; lia).
    by rewrite andb_true_r.
Qed.

(** [jalr] of a virtual register with a temporary as its destination. *)
Lemma jalr_execute i c v : ready c -> operands i = JALR (ri 40 v 0) -> valid_reg v -> Z.even (as_u64 (reg c v)) = true ->
  execute i c = Some (wr (update_pc c (as_u64 (reg c v))) 40 (as_i64 (pc c))).
Proof.
  intros [Hc Hx _ _] Hi Hv He. unfold execute. cbv zeta. rewrite Hi. unfold JALR_exec. cbv zeta. cbn [ri I_rs1 I_rd I_imm].
  rewrite (lookup_reg c Hc) by done. cbn [mbind option_bind]. unfold sign_extend. rewrite Hx.
  rewrite copied by (by apply reg_wf).
  rewrite even_land by (done || (apply wrapu_range; lia)). rewrite decide_True by lia. rewrite decide_False by lia.
  rewrite (write_register_wr (update_pc c (as_u64 (reg c v)))); [done|by destruct Hc; split|apply valid_40].
Qed.

(** A jump of both machines, with the link in a temporary on the traced side. *)
Lemma jumped s t c d p l : run_sim s t -> cpu_sim c d -> ready c -> ready d ->
  (forall r, (34 <= r < 40)%nat -> reg d r = reg (core t) r) -> privilege_mode (mmu c) = Machine -> in_s 64 l ->
  run_sim (set_core s (update_pc c p)) (set_core t (wr (update_pc d p) 40 l)).
Proof.
  intros H Hs Hc Hd Hr Hp Hl.
  assert (Hd1 : cpu_wf (update_pc d p)) by (by destruct (ready_wf _ Hd); split).
  assert (Hd2 : cpu_wf (wr (update_pc d p) 40 l)).
  { refine (keeps_wf _ _ (write_register_keeps (update_pc d p) 40 l _ _ (fun _ => Hl)) Hd1).
    apply write_register_wr; [done|apply valid_40]. }
  apply run_sim_cores; try done.
  - apply (sim_arch _ (update_pc d p)); [by apply sim_update_pc|done|done|]. by apply wr_temp, temp_40.
  - by destruct Hc as [[] ? ? ?]; split.
  - intros r Hr'. rewrite reg_wr_ne by (clear - Hr'; lia). by apply Hr.
Qed.

Section MRET.
Context (inventory : list InlineRegistration) (n : nat) (h : Struct HostOp) (s t s' : Emulator) (o : FormatI).
Context (H : run_sim s t).

Lemma MRET_simulates : operands h = MRET o -> (forall v, csr_at s CSR_MEPC_ADDRESS = Some v -> Z.even v = true) ->
  host_execute h s = Some s' ->
  exists t1 tr l, host_trace inventory (S n) h t = Some (t1, tr) /\
    host_inline_sequence inventory h (xlen (core t1)) (vr_allocator (core t1)) = Some (l, vr_allocator (core t1)) /\ run_sim s' t1.
Proof.
  intros Eh Hev E. pose proof (ready_sim _ _ (run_core _ _ H) (run_ready _ _ H) (run_wf _ _ H)) as Ht.
  pose proof (run_csr _ _ H CSR_MEPC_ADDRESS MEPC_REGISTER eq_refl) as Em.
  unfold host_execute in E. rewrite Eh in E. unfold MRET_exec in E. rewrite (read_supported _ CSR_MEPC_ADDRESS MEPC_REGISTER eq_refl), Em in E.
  cbn [mbind option_bind] in E. injection E as <-. specialize (Hev _ Em).
  destruct (MRET_items (retag h o) _ (ready_free _ Ht)) as (l & Hm & Hops & _).
  destruct l as [|i [|]]; try discriminate Hops. injection Hops as Hi.
  pose proof (jalr_execute i (core t) MEPC_REGISTER Ht Hi (valid_temp MEPC_REGISTER ltac:(by apply Nat.ltb_lt)) Hev) as Ei.
  destruct (handled_trace inventory n h t [i] (wr (update_pc (core t) (as_u64 (reg (core t) MEPC_REGISTER))) 40 (as_i64 (pc (core t)))))
    as (tr & Htr & Hin); [by rewrite Eh|by rewrite Eh|done|unfold host_dispatch_sequence; by rewrite Eh| |cbn [exec_list]; by rewrite Ei|].
  { apply leaves. cbn [map]. rewrite Hi. apply list.Forall_cons; split; [|apply List.Forall_nil].
    split; [exact I|]. split; [repeat split; cbn; try exact I; by apply valid_temp, Nat.ltb_lt|done]. }
  eexists _, tr, _. split; [exact Htr|]. split; [exact Hin|].
  unfold jump. apply jumped; try done; [apply H|apply H|apply H|]. apply wraps_range. lia.
Qed.
End MRET.

(** ** Environment calls *)

(** The write of a supported CSR other than [mstatus] is an assignment. *)
Lemma write_plain s a v : (0x340 <= a <= 0x343) -> length (csr s) = CSR_CAPACITY ->
  write_csr_raw s a v = Some (set_csr s (<[Z.to_nat a := v]> (csr s))).
Proof.
  intros H Hl. unfold write_csr_raw, CSR_FFLAGS_ADDRESS, CSR_FRM_ADDRESS, CSR_SSTATUS_ADDRESS,
    CSR_SIE_ADDRESS, CSR_SIP_ADDRESS, CSR_MIDELEG_ADDRESS, CSR_MSTATUS_ADDRESS, CSR_TIME_ADDRESS.
  repeat (test_address a; [lia|]). apply csr_assign_spec; [done|lia].
Qed.

(** What [mstatus] becomes when machine mode traps to itself. *)
Definition trapped_status (status : Z) : Z :=
  Z.lor (Z.lor (Z.land status (Z.lnot 0x1888)) (Z.shiftl (flag status 3) 7)) (Z.shiftl 3 11).

(** The executed call: the trap is taken in machine mode. *)
Lemma ECALL_executed s a s' : length (csr s) = CSR_CAPACITY -> cpu_privilege_mode s = Machine ->
  csr_at s CSR_MEDELEG_ADDRESS = Some 0 -> xlen (core s) = Bit64 -> ECALL_exec s a = Some s' ->
  exists tvec status L m,
    csr_at s CSR_MTVEC_ADDRESS = Some tvec /\ csr_at s CSR_MSTATUS_ADDRESS = Some status /\
    told (update_privilege_mode (mmu (core s)) Machine) m /\ length L = CSR_CAPACITY /\
    (forall b, 0 <= b -> L !! Z.to_nat b =
      if decide (b = CSR_MSTATUS_ADDRESS) then Some (trapped_status status)
      else if decide (b = CSR_MTVAL_ADDRESS) then Some 0
      else if decide (b = CSR_MCAUSE_ADDRESS) then Some 11
      else if decide (b = CSR_MEPC_ADDRESS) then Some a else csr_at s b) /\
    s' = set_core (set_csr (set_privilege_mode s Machine) L)
      (set_mmu (update_pc (core s) (as_u64 (handler tvec 11))) m).
Proof.
  intros Hl Hp Hd Hx.
  destruct (csr_at_Some s CSR_SEDELEG_ADDRESS Hl ltac:(unfold CSR_SEDELEG_ADDRESS; lia)) as [sd Hsd].
  destruct (csr_at_Some s CSR_MSTATUS_ADDRESS Hl ltac:(unfold CSR_MSTATUS_ADDRESS; lia)) as [status Hst].
  destruct (csr_at_Some s CSR_MTVEC_ADDRESS Hl ltac:(unfold CSR_MTVEC_ADDRESS; lia)) as [tvec Htv].
  unfold ECALL_exec, raise_trap, handle_trap. rewrite Hp. cbn [get_privilege_encoding mbind option_bind].
  unfold get_trap_cause. cbn [trap_type]. unfold delegate.
  change (read_csr_raw s CSR_MEDELEG_ADDRESS) with (csr_at s CSR_MEDELEG_ADDRESS). rewrite Hd.
  change (read_csr_raw s CSR_SEDELEG_ADDRESS) with (csr_at s CSR_SEDELEG_ADDRESS). rewrite Hsd.
  cbn [mbind option_bind]. change (flag 0 (Z.land 11 0xffff) =? 0) with true. cbv iota.
  change (status_address Machine) with (Some CSR_MSTATUS_ADDRESS). cbn [mbind option_bind].
  change (read_csr_raw s CSR_MSTATUS_ADDRESS) with (csr_at s CSR_MSTATUS_ADDRESS). rewrite Hst. cbn [mbind option_bind].
  unfold take_trap. rewrite Hp. cbn [get_privilege_encoding mbind option_bind].
  change (csr_epc_address Machine) with (Some CSR_MEPC_ADDRESS). change (csr_cause_address Machine) with (Some CSR_MCAUSE_ADDRESS).
  change (csr_tval_address Machine) with (Some CSR_MTVAL_ADDRESS). change (csr_tvec_address Machine) with (Some CSR_MTVEC_ADDRESS).
  cbn [mbind option_bind value]. set (s0 := with_mmu _ _).
  assert (H0 : length (csr s0) = CSR_CAPACITY) by done.
  rewrite (write_plain s0) by (done || (unfold CSR_MEPC_ADDRESS; lia)). cbn [mbind option_bind].
  set (s1 := set_csr s0 _). assert (H1 : length (csr s1) = CSR_CAPACITY) by (unfold s1; cbn; by rewrite length_insert).
  rewrite (write_plain s1) by (done || (unfold CSR_MCAUSE_ADDRESS; lia)). cbn [mbind option_bind].
  set (s2 := set_csr s1 _). assert (H2 : length (csr s2) = CSR_CAPACITY) by (unfold s2; cbn; by rewrite length_insert).
  rewrite (write_plain s2) by (done || (unfold CSR_MTVAL_ADDRESS; lia)). cbn [mbind option_bind].
  set (s3 := set_csr s2 _). assert (H3 : length (csr s3) = CSR_CAPACITY) by (unfold s3; cbn; by rewrite length_insert).
  assert (Hat : forall b, 0 <= b -> csr_at s3 b = if decide (b = CSR_MTVAL_ADDRESS) then Some 0
      else if decide (b = CSR_MCAUSE_ADDRESS) then Some 11 else if decide (b = CSR_MEPC_ADDRESS) then Some a else csr_at s b).
  { intros b Hb. unfold csr_at at 1, s3. cbn [csr set_csr]. rewrite csr_assigned by (done || (unfold CSR_MTVAL_ADDRESS; lia)).
    case_decide; [done|]. unfold csr_at at 1, s2. cbn [csr set_csr]. rewrite csr_assigned by (done || (unfold CSR_MCAUSE_ADDRESS; lia)).
    case_decide; [done|]. unfold csr_at at 1, s1. cbn [csr set_csr]. rewrite csr_assigned by (done || (unfold CSR_MEPC_ADDRESS; lia)). done. }
  rewrite (read_supported s3 CSR_MTVEC_ADDRESS TRAP_HANDLER_REGISTER eq_refl), Hat by (unfold CSR_MTVEC_ADDRESS; lia).
  rewrite !decide_False by done. rewrite Htv. cbn [mbind option_bind]. unfold new_status.
  change (read_csr_raw (jump s3 _) CSR_MSTATUS_ADDRESS) with (csr_at s3 CSR_MSTATUS_ADDRESS).
  rewrite Hat by (unfold CSR_MSTATUS_ADDRESS; lia). rewrite !decide_False by done. rewrite Hst. cbn [mbind option_bind].
  fold (trapped_status status). destruct (write_supported (jump s3 (as_u64 (handler tvec 11))) CSR_MSTATUS_ADDRESS MSTATUS_REGISTER (trapped_status status) eq_refl H3)
    as (m & -> & Hm). cbn [mbind option_bind fmap option_fmap option_map snd]. intros [= <-].
  exists tvec, status, (<[Z.to_nat CSR_MSTATUS_ADDRESS := trapped_status status]> (csr s3)), m. split; [done|]. split; [done|]. split; [exact Hm|]. split; [|split; [|reflexivity]].
  - rewrite length_insert. exact H3.
  - intros b Hb. rewrite csr_assigned by (done || (unfold CSR_MSTATUS_ADDRESS; lia)).
    case_decide; [done|]. by apply Hat.
Qed.

(** The status, the vector and the address a call needs for its sequence, which
    writes a fixed [mstatus] and jumps to the vector. *)
Definition plain_call (s : Emulator) (a : Z) : Prop :=
  (0 <= a < 2 ^ 64) /\ (forall v, csr_at s CSR_MTVEC_ADDRESS = Some v -> Z.land v 3 = 0) /\
  (forall v, csr_at s CSR_MSTATUS_ADDRESS = Some v -> trapped_status v = 0x1800).

Lemma aligned_even a : Z.land a 3 = 0 -> Z.even a = true.
Proof.
  intros H. pose proof (Z.land_spec a 3 0) as Hb. rewrite H, Z.bits_0 in Hb. change (Z.testbit 3 0) with true in Hb.
  rewrite andb_true_r in Hb. by rewrite <- Z.negb_odd, <- Z.bit0_odd, <- Hb.
Qed.

Section ECALL.
Context (inventory : list InlineRegistration) (n : nat) (h : Struct HostOp) (s t s' : Emulator) (o : FormatI).
Context (H : run_sim s t).
Abbreviation f := (reg (core t)).
Abbreviation target := (as_u64 (f TRAP_HANDLER_REGISTER)).
Lemma t_ready : ready (core t).
Proof. exact (ready_sim _ _ (run_core _ _ H) (run_ready _ _ H) (run_wf _ _ H)). Qed.

(** The registers the traced sequence leaves before its jump. *)
Definition call_regs (f : regs) (a : Z) : regs :=
  upd (upd (upd (upd (upd (upd f 40 a) MEPC_REGISTER a) MCAUSE_REGISTER 11) MTVAL_REGISTER 0) 40 3) MSTATUS_REGISTER 0x1800.

Lemma ECALL_traced : operands h = ECALL o -> Z.even target = true ->
  exists c2 tr l, with_regs (core t) (call_regs f (as_i64 (address h))) c2 /\
    let d := wr (update_pc c2 target) 40 (as_i64 (pc c2)) in
    host_trace inventory (S n) h t = Some (set_core t d, tr) /\
    host_inline_sequence inventory h (xlen d) (vr_allocator d) = Some (l, vr_allocator d).
Proof.
  intros Eh Hev. pose proof t_ready as Ht. pose proof (ready_wf _ Ht) as Hc. pose proof (reg_wf _ Hc) as [Hf H0].
  destruct (ECALL_items (retag h o) _ (ready_free _ Ht)) as (l & Hm & Hops & Hadr).
  assert (Hl : Forall (leaf (negb (host_rd_is_zero (operands h)))) l).
  { apply leaves. rewrite Hops. unfold ECALL_ops. repeat (apply list.Forall_cons; split); try apply List.Forall_nil;
      (split; [exact I|split; [repeat split; cbn; try exact I; by apply valid_temp, Nat.ltb_lt|done]]). }
  destruct l as [|i l]; [discriminate Hops|]. injection Hops as Hi Hops.
  destruct (exists_last (l := l)) as (mid & j & ->); [by intros ->|]. rewrite map_app in Hops.
  change (map operands mid ++ [operands j] = removelast (tail ECALL_ops) ++ [JALR (ri 40 TRAP_HANDLER_REGISTER 0)]) in Hops.
  apply app_inj_tail in Hops as [Hmid Hj].
  apply list.Forall_cons in Hadr as [Ha _]. cbn [retag address] in Ha. rewrite list.Forall_cons, Forall_app in Hl.
  assert (Ei : execute i (core t) = Some (wr (core t) 40 (as_i64 (address h)))).
  { unfold execute. cbv zeta. rewrite Hi. unfold AUIPC_exec. cbv zeta. cbn [U_rd U_imm]. unfold sign_extend. rewrite (ready_xlen _ Ht).
    rewrite Ha, copied by (apply wraps_range; lia). apply write_register_wr; [done|apply valid_40]. }
  pose proof (keeps_wf _ _ (execute_keeps _ _ _ Ei) Hc) as Hw0.
  pose proof (with_regs_wr (core t) f (core t) 40 (as_i64 (address h)) (with_regs_refl _ Hc) valid_40 Hw0) as Hw1.
  destruct (exec_list_run64 mid (core t) _ _ (call_regs f (as_i64 (address h))) (ready_xlen _ Ht) Hw1 (leaves_valid _ _ (proj1 (proj2 Hl))))
    as (c2 & Em & Hw2).
  { rewrite Hmid. change (removelast _) with [ADDI (ri MEPC_REGISTER 40 0); ADDI (ri MCAUSE_REGISTER 0 11);
     ADDI (ri MTVAL_REGISTER 0 0); ADDI (ri 40 0 3); VirtualMULI (ri MSTATUS_REGISTER 40 2048)].
    rewrite run_copy by (rewrite upd_eq by done; apply wraps_range; lia). rewrite (upd_eq f 40) by done.
    rewrite !run_constant by (first [by rewrite !upd_ne|done]). cbn [run64 outcome64 run_outcome mbind option_bind ri I_rd I_rs1 I_imm].
    reflexivity. }
  assert (Hx2 : xlen c2 = Bit64 /\ vr_allocator c2 = vr_allocator (core t))
    by (by rewrite (with_regs_xlen _ _ _ Hw2), (with_regs_allocator _ _ _ Hw2), (ready_xlen _ Ht)).
  assert (Hr2 : ready c2).
  { destruct Ht as [T1 T2 T3 T4], Hx2 as [X1 X2]. split; [apply Hw2|done|by rewrite X2|by rewrite (with_regs_mmu _ _ _ Hw2)]. }
  assert (Et : reg c2 TRAP_HANDLER_REGISTER = f TRAP_HANDLER_REGISTER).
  { rewrite (wreg_reg _ _ _ Hw2) by (by apply valid_temp, Nat.ltb_lt). unfold call_regs. by rewrite !upd_ne. }
  pose proof (jalr_execute j c2 TRAP_HANDLER_REGISTER Hr2 Hj ltac:(by apply valid_temp, Nat.ltb_lt)) as Ej.
  rewrite Et in Ej. specialize (Ej Hev). set (d := wr (update_pc c2 target) 40 (as_i64 (pc c2))) in *.
  assert (Ed : exec_list (i :: mid ++ [j]) (core t) = Some d).
  { cbn [exec_list]. rewrite Ei. cbn [mbind option_bind]. rewrite exec_list_app, Em. cbn [mbind option_bind exec_list]. by rewrite Ej. }
  destruct (handled_trace inventory n h t (i :: mid ++ [j]) d) as (tr & Htr & Hin);
    [by rewrite Eh|by rewrite Eh|done|unfold host_dispatch_sequence; by rewrite Eh|by rewrite list.Forall_cons, Forall_app|done|].
  by exists c2, tr, (map Emitted (i :: mid ++ [j])).
Qed.

Lemma call_low a r : low r -> call_regs f a r = f r.
Proof.
  intros Hr. assert (Hne : forall k, (31 < k)%nat -> r <> k) by (unfold low in Hr; lia).
  unfold call_regs. rewrite !upd_ne; [done|..]; by apply Hne, Nat.ltb_lt.
Qed.

Lemma ECALL_simulates : operands h = ECALL o -> plain_call s (address h) -> host_execute h s = Some s' ->
  exists t1 tr l, host_trace inventory (S n) h t = Some (t1, tr) /\
    host_inline_sequence inventory h (xlen (core t1)) (vr_allocator (core t1)) = Some (l, vr_allocator (core t1)) /\ run_sim s' t1.
Proof.
  intros Eh (Ha & Htv & Hst) E. pose proof H as [S1 S2 S3 S4 [S5 S5'] S6 S7 [S8 S8'] S9 S10 S11]. pose proof t_ready as Ht.
  unfold host_execute in E. rewrite Eh in E.
  destruct (ECALL_executed s (address h) s' S5 S8 S7 (ready_xlen _ S2) E) as (tvec & status & L & m & E1 & E2 & Hm & HL & HLb & ->).
  pose proof (S4 CSR_MTVEC_ADDRESS TRAP_HANDLER_REGISTER eq_refl) as E1'. rewrite E1 in E1'. injection E1' as ->.
  specialize (Htv _ E1). specialize (Hst _ E2).
  assert (Etv : as_u64 (handler target 11) = target).
  { unfold handler. rewrite Htv. cbn [Z.eqb negb]. apply wrapu_wrapu. lia. }
  rewrite Etv. assert (Em0 : update_privilege_mode (mmu (core s)) Machine = mmu (core s)) by (by destruct (mmu (core s)); cbn in S8'; subst).
  rewrite Em0 in Hm.
  destruct (ECALL_traced Eh (aligned_even _ Htv)) as (c2 & tr & l & Hw & Htr & Hin). cbv zeta in Htr, Hin.
  set (d := wr (update_pc c2 target) 40 (as_i64 (pc c2))) in *. exists (set_core t d), tr, l. split; [done|]. split; [done|].
  assert (Hs2 : cpu_sim (core s) c2).
  { apply (written_sim (core s) (core t) (core s) c2 0 0 _ S1 (ready_wf _ S2) S3 eq_refl Hw); [unfold low; lia|done| |].
    - intros r Hr _. by apply call_low.
    - rewrite call_low by (unfold low; lia). by apply reg_zero. }
  assert (Hc2 : cpu_wf (update_pc c2 target)) by (destruct Hw as [_ _ [? ? ? ? ?]]; by split).
  assert (Hwd : cpu_wf d).
  { assert (Hl : in_s 64 (as_i64 (pc c2))) by (apply wraps_range; lia).
    refine (keeps_wf _ _ (write_register_keeps (update_pc c2 target) 40 _ _ _ (fun _ => Hl)) Hc2).
    apply write_register_wr; [done|apply valid_40]. }
  assert (Hrd : forall r, (34 <= r < 40)%nat -> reg d r = call_regs f (as_i64 (address h)) r).
  { intros r Hr. unfold d. rewrite reg_wr_ne by (clear - Hr; lia). apply (wreg_reg _ _ _ Hw). apply valid_temp. clear - Hr; lia. }
  split; cbn [core csr cpu_privilege_mode wfi cpu_clock set_core set_csr set_privilege_mode]; try done.
  - apply (told_core (update_pc (core s) target)); [exact Hm|].
    apply (sim_arch _ (update_pc c2 target)); [by apply sim_update_pc|done|done|]. by apply wr_temp, temp_40.
  - apply (told_ready (update_pc (core s) target)); [exact Hm|]. by destruct S2 as [[] ? ? ?]; split.
  - intros b r Hb. pose proof (csr_register b r Hb) as [Hr Hbr]. unfold csr_at. cbn [csr set_core set_csr].
    rewrite HLb by lia. rewrite Hrd by done. revert Hb Hr. unfold csr_to_virtual_register. unfold call_regs.
    repeat (test_address b; [intros [= <-] _|]); [..|done].
    + rewrite decide_True by done. rewrite upd_eq by done. by rewrite Hst.
    + rewrite !decide_False by done. rewrite !upd_ne by done. exact E1.
    + rewrite !decide_False by done. rewrite !upd_ne by done. by apply (S4 0x340 MSCRATCH_REGISTER).
    + rewrite !decide_False by done. rewrite decide_True by done. rewrite !(upd_ne _ _ _ MEPC_REGISTER) by done. 
      rewrite upd_eq by done. rewrite wrapu_wraps, wrapu_small by (done || lia). done.
    + rewrite !decide_False by done. rewrite decide_True by done. rewrite !(upd_ne _ _ _ MCAUSE_REGISTER) by done.
      by rewrite upd_eq by done.
    + rewrite !decide_False by done. rewrite decide_True by done. rewrite !(upd_ne _ _ _ MTVAL_REGISTER) by done.
      by rewrite upd_eq by done.
  - unfold csr_at. cbn [csr set_core set_csr]. rewrite HLb by (unfold CSR_MIE_ADDRESS; lia). by rewrite !decide_False by done.
  - unfold csr_at. cbn [csr set_core set_csr]. rewrite HLb by (unfold CSR_MEDELEG_ADDRESS; lia). by rewrite !decide_False by done.
  - split; [done|]. cbn [mmu set_mmu]. by rewrite (told_mode _ _ Hm).
  - intros b Hb Hn. unfold csr_at at 2. cbn [csr set_core set_csr]. rewrite HLb by done.
    rewrite !decide_False by (intros ->; discriminate Hn). by apply S11.
Qed.
End ECALL.
