(* ===== verification/HostIoCorrect.v ===== *)
(** * HostIoCorrect: fences, breakpoints, host calls and advice loads

    The system instructions that touch no CSR, executed on the one machine and
    traced on the other ([HostCorrect]): the fence, the breakpoint and the host
    call are traced by running them, an advice load by the read of the tape
    and two shifts that extend the sign. *)
From S2P Require Import Prelude Bits Registers AdviceTape Memory Device Mmu MmuSpec MmuStore Cpu Formats Instr Assembler Sequences.
From S2P Require Import MemSequences Trace Decode Compressed DecodeCorrect ElfText Fetch ExecWf MmuInvariant Congruence Exec64 SeqOps.
From S2P Require Import SeqArith SeqRun DivArith TraceCorrect MemArith MemLoads MemStores TickCorrect FetchCorrect Csr System HostCorrect.
Open Scope Z_scope.
Open Scope st_scope.

(** ** Reading guest memory *)
Lemma cong_read_guest w ptr i n bytes : mmu_cong (read_guest w ptr i n bytes).
Proof. revert i bytes. induction n as [|n IH]; intros i bytes; cbn [read_guest]; cong. Qed.
Lemma read_guest_kept {p} w ptr i n bytes : preserves (unit_ok p) (read_guest w ptr i n bytes).
Proof. revert i bytes. induction n as [|n IH]; intros i bytes; cbn [read_guest]; kept. Qed.

Section HostCall.
Context (s t : Emulator) (H : run_sim s t).

(** New memories on both sides. *)
Lemma run_sim_memory m m' : mmu_sim m m' -> mmu_wf m -> privilege_mode m = Machine ->
  run_sim (set_core s (set_mmu (core s) m)) (set_core t (set_mmu (core t) m')).
Proof.
  intros Hm Hw Hp. apply run_sim_cores; [done|by apply set_mmu_sim; [apply H|]| | |done|done].
  - destruct (run_ready _ _ H) as [[] ? ? ?]. by split; [split|..].
  - destruct (run_wf _ _ H). by split.
Qed.
Lemma run_sim_tape v : run_sim (set_core s (set_advice_tape (core s) v)) (set_core t (set_advice_tape (core t) v)).
Proof.
  apply run_sim_cores; [done|apply sim_set_tape, H| | |done|apply (run_machine _ _ H)].
  - destruct (run_ready _ _ H) as [[] ? ? ?]. by split; [split|..].
  - destruct (run_wf _ _ H). by split.
Qed.

Lemma guest_bytes w ptr len r s1 : read_guest_bytes w ptr len s = Some (r, s1) ->
  exists t1, read_guest_bytes w ptr len t = Some (r, t1) /\ run_sim s1 t1.
Proof.
  unfold read_guest_bytes. pose proof (cong_read_guest w ptr 0 (Z.to_nat len) [] _ _ (sim_mmu _ _ (run_core _ _ H))) as Hc.
  unfold both_end in Hc. destruct (read_guest _ _ _ _ _ (mmu (core s))) as [[r0 m]|] eqn:E; [|done].
  destruct Hc as (m' & -> & Hm). cbn [mbind option_bind]. intros [= <- <-]. eexists. split; [done|].
  destruct (kept_wf _ _ _ _ (fun p => read_guest_kept w ptr 0 (Z.to_nat len) []) (ready_mmu _ (run_ready _ _ H)) E) as [Hw Hp].
  apply run_sim_memory; [done|done|]. rewrite Hp. apply (run_machine _ _ H).
Qed.
End HostCall.

Lemma guest_bytes_tape w ptr len r s1 s : read_guest_bytes w ptr len s = Some (r, s1) -> advice_tape (core s1) = advice_tape (core s).
Proof. unfold read_guest_bytes. intros ([r0 m] & _ & [= <- <-])%bind_Some. done. Qed.

(** A host call on both machines. *)
Lemma host_call_simulates s t s' : run_sim s t -> VirtualHostIO_exec s = Some s' ->
  exists t', VirtualHostIO_exec t = Some t' /\ run_sim s' t'.
Proof.
  intros H. unfold VirtualHostIO_exec. rewrite !(sim_x _ _ (run_core _ _ H)) by (unfold low; lia).
  rewrite !(lookup_reg _ (run_wf _ _ H)) by (apply valid_temp; lia). cbn [mbind option_bind]. cbv zeta.
  destruct (_ =? 0xADBABE); [|destruct (_ =? 0xC7C1E); [|destruct (_ =? 0x505249)]].
  - unfold handle_advice_write. destruct (_ <=? _); [done|]. intros ([r s1] & E & [= <-])%bind_Some.
    destruct (guest_bytes s t H _ _ _ _ _ E) as (t1 & E1 & H1). rewrite E1. cbn [mbind option_bind]. eexists. split; [done|].
    destruct r as [e|bytes]; [done|]. rewrite (sim_tape _ _ (run_core _ _ H1)). by apply run_sim_tape.
  - unfold handle_jolt_cycle_marker. destruct (_ =? 1); [|destruct (_ =? 2); [intros [= <-]; by exists t|done]].
    intros ([r s1] & E & ->)%fmap_Some. destruct (guest_bytes s t H _ _ _ _ _ E) as (t1 & -> & H1). by exists t1.
  - unfold handle_jolt_print. intros ([r s1] & E & E')%bind_Some.
    destruct (guest_bytes s t H _ _ _ _ _ E) as (t1 & -> & H1). cbn [mbind option_bind]. destruct r.
    + injection E' as <-. by exists t1.
    + destruct (_ || _); [|done]. injection E' as <-. by exists t1.
  - intros [= <-]. by exists t.
Qed.

(** ** Instructions traced by running them *)
Definition host_regs (P : nat -> Prop) (op : HostOp) : Prop :=
  let o := host_operands op in
  from_option P True (norm_rd o) /\ from_option P True (norm_rs1 o) /\ from_option P True (norm_rs2 o).
Lemma host_regs_impl (P Q : nat -> Prop) op : (forall r, P r -> Q r) -> host_regs P op -> host_regs Q op.
Proof.
  intros H (H1 & H2 & H3). unfold host_regs.
  destruct (norm_rd _), (norm_rs1 _), (norm_rs2 _); cbn in *; auto.
Qed.

Definition runs_itself (op : HostOp) : Prop := match op with FENCE | EBREAK _ | VirtualHostIO _ => True | _ => False end.

Lemma default_traced h s s' : runs_itself (operands h) -> host_regs valid_reg (operands h) -> cpu_wf (core s) -> cpu_wf (core s') ->
  host_execute h s = Some s' -> exists t, host_default_trace h s = Some (s', t).
Proof.
  intros Hr Hv Hc Hc' E. unfold host_default_trace. rewrite E. unfold host_regs in Hv.
  destruct (operands h) as [| | o | | | | o | | | | |]; try done; cbn [mbind option_bind host_capture_pre host_capture_post]; [by eexists|..];
    cbn in Hv; destruct Hv as (V1 & V2 & _); cbn; unfold capture_pre_rd_rs1, capture_post_rd;
    destruct (normalize_register_value_valid (core s) _ Hc V2) as [v2 ->];
    destruct (normalize_register_value_valid (core s) _ Hc V1) as [v1 ->]; cbn [mbind option_bind];
    destruct (normalize_register_value_valid (core s') _ Hc' V1) as [v1' ->]; cbn [mbind option_bind rd_values]; by eexists.
Qed.

Section Itself.
Context (inventory : list InlineRegistration) (n : nat) (h : Struct HostOp) (t t' : Emulator).
Context (Hr : runs_itself (operands h)) (Hl : host_regs low (operands h)) (Ht : ready (core t)) (Hw : cpu_wf (core t')).
Context (E : host_execute h t = Some t').

(** With destination [x0] a host call is run with a temporary. *)
Definition remapped : Struct HostOp := retag h (host_set_rd (operands h) 40).
Lemma itself_expands a : temporaries_free a -> exists l, host_inline_sequence inventory h Bit64 a = Some (l, a).
Proof.
  intros Ha. unfold host_inline_sequence. destruct (operands h) as [| | o | | | | o | | | | |] eqn:Eo; try done.
  - unfold host_dispatch_sequence. rewrite Eo. by eexists.
  - cbn [handles_zero_rd]. rewrite andb_false_r. unfold host_dispatch_sequence. rewrite Eo. by eexists.
  - cbn [handles_zero_rd negb]. rewrite andb_true_r. destruct (host_rd_is_zero _).
    + exists [Itself remapped]. unfold remapped. rewrite Eo.
      by apply (remap_40 [Itself (retag h (host_set_rd (VirtualHostIO o) 40))]
        (fun vr => host_dispatch_sequence inventory (retag h (host_set_rd (VirtualHostIO o) vr)) Bit64)).
    + unfold host_dispatch_sequence. rewrite Eo. by eexists.
Qed.

Lemma itself_traced : exists tr, host_trace inventory n h t = Some (t', tr).
Proof.
  assert (Hv : host_regs valid_reg (operands h)).
  { eapply host_regs_impl; [|exact Hl]. intros r H. by apply low_arch. }
  destruct (default_traced h t t' Hr Hv (ready_wf _ Ht) Hw E) as [tr Htr].
  assert (Hrun : forall r, run_items r [Itself h] t = Some (t', tr)) by (intros r; cbn; rewrite Htr; cbn; by rewrite app_nil_r).
  unfold host_trace. destruct (host_rd_is_zero (operands h)) eqn:Hz.
  - unfold host_inline_sequence. rewrite Hz, (ready_xlen _ Ht).
    destruct (operands h) as [| | o | | | | o | | | | |] eqn:Eo; try done.
    + cbn [handles_zero_rd negb andb]. unfold host_dispatch_sequence. rewrite Eo. cbn [M_ret mbind option_bind].
      rewrite set_core_id. by eexists.
    + cbn [handles_zero_rd negb andb].
      rewrite (remap_40 [Itself remapped] (fun vr => host_dispatch_sequence inventory (retag h (host_set_rd (VirtualHostIO o) vr)) Bit64))
        by (first [apply (ready_free _ Ht) | unfold remapped; by rewrite Eo]).
      cbn [mbind option_bind]. rewrite set_core_id.
      destruct (default_traced remapped t t') as [tr' Htr']; [| |apply Ht|done| |].
      * unfold remapped. by rewrite Eo.
      * destruct Hv as (_ & V2 & V3). unfold remapped. rewrite Eo. split; [apply valid_40|]. by split.
      * unfold remapped, host_execute in *. rewrite Eo in *. exact E.
      * cbn [run_items]. rewrite Htr'. by eexists.
  - unfold host_trace_raw. destruct (operands h); try done; by eexists.
Qed.
End Itself.

Lemma itself_simulates inventory n h s t s' : run_sim s t -> runs_itself (operands h) -> host_regs low (operands h) ->
  host_execute h s = Some s' ->
  exists t1 tr l, host_trace inventory n h t = Some (t1, tr) /\
    host_inline_sequence inventory h (xlen (core t1)) (vr_allocator (core t1)) = Some (l, vr_allocator (core t1)) /\ run_sim s' t1.
Proof.
  intros H Hr Hl E. pose proof (ready_sim _ _ (run_core _ _ H) (run_ready _ _ H) (run_wf _ _ H)) as Ht.
  assert (Hex : exists t1, host_execute h t = Some t1 /\ run_sim s' t1).
  { revert E. unfold host_execute. destruct (operands h) as [| | o | | | | o | | | | |] eqn:Eo; try done.
    - intros [= <-]. by exists t.
    - intros [= <-]. eexists. split; [done|]. unfold EBREAK_exec, jump. apply run_sim_cores; [done|apply sim_update_pc, H| | |done|apply (run_machine _ _ H)].
      + destruct (run_ready _ _ H) as [[] ? ? ?]. by split; [split|..].
      + destruct (run_wf _ _ H). by split.
    - by apply host_call_simulates. }
  destruct Hex as (t1 & Et & H1). pose proof (ready_sim _ _ (run_core _ _ H1) (run_ready _ _ H1) (run_wf _ _ H1)) as Ht1.
  destruct (itself_traced inventory n h t t1 Hr Hl Ht (run_wf _ _ H1) Et) as [tr Htr].
  destruct (itself_expands inventory h Hr Hl _ (ready_free _ Ht1)) as [l Hl1].
  exists t1, tr, l. rewrite (ready_xlen _ Ht1). done.
Qed.

(** ** Advice loads *)

(** The bytes read and the shifts that extend their sign: [w] bits of the value. *)
Definition advice_shape (op : HostOp) : option (FormatAdviceLoadI * nat * option Z) :=
  match op with
  | AdviceLB o => Some (o, 1%nat, Some 56) | AdviceLH o => Some (o, 2%nat, Some 48)
  | AdviceLW o => Some (o, 4%nat, Some 32) | AdviceLD o => Some (o, 8%nat, None)
  | _ => None
  end.
Definition advice_ops (rd n : nat) (shift : option Z) : list Op :=
  VirtualAdviceLoad {| J_rd := rd; J_imm := Z.of_nat n |} ::
  match shift with Some k => SLLI_ops rd rd k ++ SRAI_ops rd rd k | None => [] end.

Definition always_items (m : M (list SequenceItem)) (ops : list Op) : Prop :=
  exists l, (forall a, m a = Some (map Emitted l, a)) /\ map operands l = ops.
Lemma advice_items inventory h o n shift : advice_shape (operands h) = Some (o, n, shift) ->
  always_items (host_dispatch_sequence inventory h Bit64) (advice_ops (AL_rd o) n shift).
Proof.
  unfold host_dispatch_sequence. intros H. destruct (operands h) as [| | | | | | |o'|o'|o'|o'|]; try discriminate H;
    injection H as <- <- <-; eexists; (split;
    [intros []; cbv -[map wrapu wraps Z.land Z.shiftl Z.sub Z.add Z.lor]; reflexivity|cbv -[wrapu wraps Z.land Z.shiftl Z.sub Z.add Z.lor]; reflexivity]).
Qed.

Lemma advice_shifts rd k f : rd <> 0%nat -> k = 56 \/ k = 48 \/ k = 32 ->
  exists f', run64 (SLLI_ops rd rd k ++ SRAI_ops rd rd k) f = Some f' /\ f' rd = wraps (64 - k) (f rd) /\
    forall r, r <> rd -> f' r = f r.
Proof.
  intros Hr Hk. eexists. split; [reflexivity|]. split.
  - rewrite upd_eq by done. cbn [ri VI_rs1 I_rs1 I_imm VI_imm I_rd]. rewrite upd_eq by done.
    rewrite !land_3f, mul_imm_pow2 by (destruct Hk as [->|[->| ->]]; by vm_compute).
    replace (k mod 64) with k by (destruct Hk as [->|[->| ->]]; done).
    rewrite trailing_zeros_bitmask_imm by (destruct Hk as [->|[->| ->]]; done).
    unfold wrapping_shr. replace (k mod 64) with k by (destruct Hk as [->|[->| ->]]; done).
    pose proof (top_field_signed (f rd) (64 - k) 0 ltac:(lia) ltac:(lia) ltac:(lia)) as Ht.
    replace (64 - (64 - k) - 0) with k in Ht by lia. replace (64 - (64 - k)) with k in Ht by lia. rewrite Ht.
    unfold field. rewrite Z.shiftr_0_r. apply wraps_wrapu. lia.
  - intros r Hne. by rewrite !upd_ne.
Qed.

(** The values of the tape, extended as [exec] does. *)
Definition extended (n : nat) (v : Z) : Z := wraps (8 * Z.of_nat n) v.

Section Advice.
Context (inventory : list InlineRegistration) (n : nat) (h : Struct HostOp) (s t s' : Emulator).
Context (o : FormatAdviceLoadI) (k : nat) (shift : option Z).
Context (H : run_sim s t) (Hs : advice_shape (operands h) = Some (o, k, shift)) (Hl : low (AL_rd o)).
Context (E : host_execute h s = Some s').

(** The tape read, the register written. *)
Lemma advice_executed : exists v tape c,
  AdviceTape_read (advice_tape (core s)) k = Some (Some v, tape) /\
  write_register (set_advice_tape (core s) tape) (AL_rd o) (extended k v) = Some c /\ s' = set_core s c.
Proof.
  assert (Ha : advice_exec s k (AL_rd o) (extended k) = Some s').
  { unfold host_execute in E. destruct (operands h); try discriminate Hs; injection Hs as <- <- <-; exact E. }
  unfold advice_exec in Ha. apply bind_Some in Ha as ([r tape] & E1 & Ha). apply bind_Some in Ha as (v & -> & Ha).
  apply bind_Some in Ha as (c & E2 & [= <-]). by exists v, tape, c.
Qed.

(** The sequence, with destination [rd] or the temporary it is remapped to. *)
Lemma advice_runs rd v tape l d : rd <> 0%nat -> valid_reg rd -> ready d ->
  AdviceTape_read (advice_tape d) k = Some (Some v, tape) -> map operands l = advice_ops rd k shift ->
  exists d1 f', exec_list l d = Some d1 /\ with_regs (set_advice_tape d tape) f' d1 /\ f' rd = extended k v /\
    forall r, r <> rd -> f' r = reg d r.
Proof.
  intros H0 Hv Hd Et Hops. pose proof (ready_wf _ Hd) as Hw. destruct l as [|i l]; [done|]. injection Hops as Hi Hops.
  assert (Hwt : cpu_wf (set_advice_tape d tape)) by (by destruct Hw; split).
  assert (Ei : execute i d = Some (wr (set_advice_tape d tape) rd (as_i64 v))).
  { unfold execute. cbv zeta. rewrite Hi. unfold VirtualAdviceLoad_exec. cbn [J_imm J_rd]. rewrite Nat2Z.id, Et.
    cbn [mbind option_bind]. by apply write_register_wr. }
  pose proof (keeps_wf _ _ (execute_keeps _ _ _ Ei) Hw) as Hw1.
  pose proof (with_regs_wr _ _ _ rd (as_i64 v) (with_regs_refl _ Hwt) Hv Hw1) as Hw2.
  set (f1 := upd (reg (set_advice_tape d tape)) rd (as_i64 v)) in *.
  assert (Hf1 : forall r, r <> rd -> f1 r = reg d r) by (intros r Hr; unfold f1; by rewrite upd_ne).
  assert (Hval : Forall (fun i => op_valid (operands i)) l /\ exists f', run64 (map operands l) f1 = Some f' /\
    f' rd = extended k v /\ forall r, r <> rd -> f' r = f1 r).
  { rewrite Hops. assert (Hsh : match shift with Some q => (q = 56 \/ q = 48 \/ q = 32) /\ 64 - q = 8 * Z.of_nat k | None => k = 8%nat end).
    { destruct (operands h); try discriminate Hs; injection Hs as _ <- <-; split; (tauto || done). }
    destruct shift as [q|].
    - destruct Hsh as [Hq Hqk]. split.
      + apply (proj1 (Forall_map operands op_valid l)). rewrite Hops. repeat (apply list.Forall_cons; split); try apply List.Forall_nil; by repeat split.
      + destruct (advice_shifts rd q f1 H0 Hq) as (f' & E1 & E2 & E3). exists f'. split; [done|]. split; [|done].
        rewrite E2, Hqk. unfold f1. rewrite upd_eq by done. unfold extended. apply wraps_narrow_s. 
        destruct Hq as [->|[->| ->]]; lia.
    - subst k. destruct l; [|done]. split; [done|]. exists f1. split; [done|]. split; [|done]. unfold f1. by rewrite upd_eq. }
  destruct Hval as (Hval & f' & Hrun & Hrd & Hne).
  destruct (exec_list_run64 l (set_advice_tape d tape) f1 _ f' (ready_xlen _ Hd) Hw2 Hval Hrun) as (d1 & El & Hd1).
  exists d1, f'. cbn [exec_list]. rewrite Ei. cbn [mbind option_bind]. split; [done|]. split; [done|]. split; [done|].
  intros r Hr. rewrite Hne by done. by apply Hf1.
Qed.

(** After the load on both sides. *)
Lemma advice_related v tape c rd f' d1 : write_register (set_advice_tape (core s) tape) (AL_rd o) (extended k v) = Some c ->
  (AL_rd o <> 0%nat -> rd = AL_rd o) -> (AL_rd o = 0%nat -> rd = 40%nat) ->
  with_regs (set_advice_tape (core t) tape) f' d1 -> f' rd = extended k v ->
  (forall r, r <> rd -> f' r = reg (core t) r) -> run_sim (set_core s c) (set_core t d1).
Proof.
  intros Ew Hrd Hrd0 Hw Hv Hf. pose proof (run_ready _ _ H) as Hrs. pose proof (run_wf _ _ H) as Hwt.
  assert (Hrt : ready (set_advice_tape (core s) tape)) by (destruct Hrs as [[] ? ? ?]; by split; [split|..]).
  assert (Hwt1 : cpu_wf (set_advice_tape (core t) tape)) by (by destruct Hwt; split).
  assert (Hk : in_s 64 (extended k v)).
  { assert (Hk : k = 1%nat \/ k = 2%nat \/ k = 4%nat \/ k = 8%nat)
      by (destruct (operands h); try discriminate Hs; injection Hs as _ <- _; auto).
    unfold extended. pose proof (wraps_range (8 * Z.of_nat k) ltac:(lia) v) as Hr. unfold in_s in *.
    destruct Hk as [->|[->|[->| ->]]]; cbn in Hr |- *; lia. }
  destruct (write_register_ready _ _ _ c Hrt Hk Hl Ew) as [Hrc Em].
  assert (H40 : forall r, low r -> AL_rd o = 0%nat -> r <> rd) by (intros r Hr E0; rewrite (Hrd0 E0); unfold low in Hr; lia).
  apply run_sim_cores; [done| |done|apply Hw| |].
  - apply (written_sim (set_advice_tape (core s) tape) (set_advice_tape (core t) tape) c d1 (AL_rd o) (extended k v) f'); try done.
    + apply sim_set_tape, H.
    + apply Hrt.
    + intros H0. by rewrite <- (Hrd H0).
    + intros r Hr Hne. apply Hf. destruct (decide (AL_rd o = 0%nat)) as [E0|E0]; [by apply H40|by rewrite (Hrd E0)].
    + rewrite Hf; [by apply reg_zero|]. destruct (decide (AL_rd o = 0%nat)) as [E0|E0]; [rewrite (Hrd0 E0); lia|rewrite (Hrd E0); done].
  - intros r Hr. rewrite (wreg_reg _ _ _ Hw) by (apply valid_temp; clear - Hr; lia). apply Hf.
    destruct (decide (AL_rd o = 0%nat)) as [E0|E0]; [rewrite (Hrd0 E0); clear - Hr; lia|].
    rewrite (Hrd E0). unfold low in Hl. clear - Hr Hl. lia.
  - rewrite Em. apply (run_machine _ _ H).
Qed.

Lemma advice_leaves nz rd : rd <> 0%nat -> valid_reg rd -> Forall (leaf_op nz) (advice_ops rd k shift).
Proof.
  intros H0 Hv. unfold advice_ops. assert (Hn : Some rd <> Some 0%nat) by congruence.
  apply list.Forall_cons. split; [by repeat split|]. destruct shift; [|apply List.Forall_nil].
  repeat (apply list.Forall_cons; split); try apply List.Forall_nil; by repeat split.
Qed.

Lemma advice_simulates : exists t1 tr l, host_trace inventory (S n) h t = Some (t1, tr) /\
  host_inline_sequence inventory h (xlen (core t1)) (vr_allocator (core t1)) = Some (l, vr_allocator (core t1)) /\ run_sim s' t1.
Proof.
  destruct advice_executed as (v & tape & c & E1 & E2 & ->). clear E.
  pose proof (ready_sim _ _ (run_core _ _ H) (run_ready _ _ H) (run_wf _ _ H)) as Ht.
  rewrite <- (sim_tape _ _ (run_core _ _ H)) in E1.
  assert (Hz : host_rd_is_zero (operands h) = (AL_rd o =? 0)%nat /\ handles_zero_rd (operands h) = false).
  { destruct (operands h); try discriminate Hs; injection Hs as -> _ _; (split; [|done]); cbn; by destruct (AL_rd o). }
  destruct Hz as [Hz Hh]. destruct (Nat.eqb_spec (AL_rd o) 0) as [H0|H0].
  - set (h1 := retag h (host_set_rd (operands h) 40)).
    assert (Hs1 : advice_shape (operands h1) = Some ({| AL_rd := 40; AL_imm := AL_imm o |}, k, shift)).
    { unfold h1. destruct (operands h); try discriminate Hs; by injection Hs as -> <- <-. }
    destruct (advice_items inventory h1 _ k shift Hs1) as (l & Hm & Hops). cbn [AL_rd] in Hops.
    assert (Hexp : forall a, temporaries_free a -> host_inline_sequence inventory h Bit64 a = Some (map Emitted l, a)).
    { intros a Ha. unfold host_inline_sequence. rewrite Hz, Hh. cbn [negb andb].
      by apply (remap_40 (map Emitted l) (fun vr => host_dispatch_sequence inventory (retag h (host_set_rd (operands h) vr)) Bit64)). }
    destruct (advice_runs 40 v tape l (core t) ltac:(lia) valid_40 Ht E1 Hops) as (d1 & f' & El & Hw & Hv & Hf).
    assert (Hlv : Forall (leaf false) l) by (apply leaves; rewrite Hops; by apply advice_leaves, valid_40).
    destruct (leaves_run false n l t d1 (ready_wf _ Ht) Hlv El) as [tr Htr].
    pose proof (advice_related v tape c 40 f' d1 E2 ltac:(done) ltac:(done) Hw Hv Hf) as Hrun.
    exists (set_core t d1), tr, (map Emitted l). split; [|split; [|done]].
    + unfold host_trace. rewrite Hz, (ready_xlen _ Ht), Hexp by apply Ht. cbn [mbind option_bind]. by rewrite set_core_id.
    + pose proof (ready_sim _ _ (run_core _ _ Hrun) (run_ready _ _ Hrun) (run_wf _ _ Hrun)) as Ht1.
      rewrite (ready_xlen _ Ht1). apply Hexp, Ht1.
  - destruct (advice_items inventory h _ k shift Hs) as (l & Hm & Hops).
    assert (Hv0 : valid_reg (AL_rd o)) by (by apply low_arch).
    destruct (advice_runs (AL_rd o) v tape l (core t) H0 Hv0 Ht E1 Hops) as (d1 & f' & El & Hw & Hv & Hf).
    assert (Hlv : Forall (leaf true) l) by (apply leaves; rewrite Hops; by apply advice_leaves).
    destruct (leaves_run true n l t d1 (ready_wf _ Ht) Hlv El) as [tr Htr].
    pose proof (advice_related v tape c (AL_rd o) f' d1 E2 ltac:(done) ltac:(done) Hw Hv Hf) as Hrun.
    exists (set_core t d1), tr, (map Emitted l). split; [|split; [|done]].
    + unfold host_trace. rewrite Hz. unfold host_trace_raw. rewrite (ready_xlen _ Ht), Hm. cbn [mbind option_bind].
      rewrite set_core_id. destruct (operands h); try discriminate Hs; exact Htr.
    + pose proof (ready_sim _ _ (run_core _ _ Hrun) (run_ready _ _ Hrun) (run_wf _ _ Hrun)) as Ht1.
      rewrite (ready_xlen _ Ht1). unfold host_inline_sequence. rewrite Hz. cbn [negb andb]. apply Hm.
Qed.
End Advice.
