(* ===== verification/RunCorrect.v ===== *)
(** * RunCorrect: the traced run of a program is its executed run

    The emulator's tick ([System]): fetch, decode, run, count, interrupts, clock.
    With and without a trace the two machines keep agreeing ([HostCorrect]) tick
    by tick, whatever is fetched, as long as each executed tick succeeds and its
    instruction is one the tracer covers. *)
From S2P Require Import Prelude Bits Registers AdviceTape Memory Device Mmu MmuSpec MmuStore Cpu Formats Instr Assembler Sequences.
From S2P Require Import MemSequences Trace Decode Compressed DecodeCorrect ElfText Fetch ExecWf MmuInvariant Congruence Exec64 SeqOps.
From S2P Require Import SeqArith TraceCorrect MemLoads MemStores MemAtomics TickCorrect FetchCorrect Csr System HostCorrect HostIoCorrect.
Open Scope Z_scope.

(** ** What the tracer covers *)

(** The system instructions the tracer handles as [execute] does: the supported
    CSRs, returns to an even address, plain calls. *)
Definition covered_host (s : Emulator) (h : Struct HostOp) : Prop :=
  match operands h with
  | CSRRW o | CSRRS o => is_Some (csr_to_virtual_register (csr_address o))
  | ECALL _ => plain_call s (address h)
  | MRET _ => forall v, csr_at s CSR_MEPC_ADDRESS = Some v -> Z.even v = true
  | _ => True
  end.
Definition covered_instruction (s : Emulator) (i : Struct AnyOp) : Prop :=
  match operands i with
  | Executable op => covered_op (core s) op
  | Host op => covered_host s (retag i op)
  end.
(** The instruction a tick is about to run. *)
Definition covered_tick (dbg : bool) (s : Emulator) : Prop :=
  match fetch_decode dbg (core s) with
  | Some (inr i, c) => covered_instruction (set_core s c) i
  | _ => True
  end.

(** All of it can be checked on a machine. *)
#[export] Instance covered_host_dec s h : Decision (covered_host s h).
Proof. unfold covered_host, plain_call. destruct (operands h); apply _. Defined.
#[export] Instance covered_instruction_dec s i : Decision (covered_instruction s i).
Proof. unfold covered_instruction. destruct (operands i); apply _. Defined.
#[export] Instance covered_tick_dec dbg s : Decision (covered_tick dbg s).
Proof. unfold covered_tick. destruct (fetch_decode dbg (core s)) as [[[] ?]|]; apply _. Defined.

(** Decoded registers are architectural. *)
Lemma typed_low_op op : well_typed (Executable op) -> low_op op.
Proof. intros (H1 & H2 & H3 & _). by split. Qed.
Lemma typed_low_host op : well_typed (Host op) -> host_regs low op.
Proof.
  intros (H1 & H2 & H3 & _). unfold host_regs. destruct op; cbn in *; by repeat split.
Qed.

(** ** One instruction, of either kind *)

(** The work of a tick between its fetch and its end. *)
Definition tick_work (inventory : list InlineRegistration) (fuel : nat) (traced : bool) (i : Struct AnyOp) (s : Emulator)
    : option (list AnyCycle * Emulator) :=
  match operands i with
  | Host op =>
      let i := retag i op in
      if traced then
        '(s, t) ← host_trace inventory fuel i s;
        '(l, a) ← host_inline_sequence inventory i (xlen (core s)) (vr_allocator (core s));
        Some (t, set_core s (finish_tick (length l) (set_allocator (core s) a)))
      else
        s ← host_execute i s;
        Some ([], set_core s (finish_tick 1 (core s)))
  | Executable op =>
      let i := retag i op in
      if traced then
        '(c, t) ← trace fuel i (core s);
        '(l, a) ← Instruction_inline_sequence i (xlen c) (vr_allocator c);
        Some (map OpCycle t, set_core s (finish_tick (length l) (set_allocator c a)))
      else
        c ← execute i (core s);
        Some ([], set_core s (finish_tick 1 c))
  end.

(** The counters of the tick. *)
Lemma finish_core n c : cpu_wf c -> x (finish_tick n c) = x c.
Proof. intros H. cbn. apply list_insert_id. apply (wf_zero c H). Qed.
Lemma finish_sim a b c d : cpu_wf c -> cpu_wf d -> cpu_sim c d -> cpu_sim (finish_tick a c) (finish_tick b d).
Proof.
  intros Hc Hd H. pose proof (finish_core a c Hc) as Ec. pose proof (finish_core b d Hd) as Ed.
  destruct H. split; rewrite ?Ec, ?Ed; done.
Qed.
Lemma finish_wf n c : cpu_wf c -> cpu_wf (finish_tick n c).
Proof. intros Hc. pose proof (finish_core n c Hc) as E. destruct Hc. split; rewrite ?E; done. Qed.
Lemma finish_run a b s t : run_sim s t ->
  run_sim (set_core s (finish_tick a (core s))) (set_core t (finish_tick b (set_allocator (core t) (vr_allocator (core t))))).
Proof.
  intros H. rewrite set_allocator_id. pose proof (run_ready _ _ H) as [H1 H2 H3 H4]. pose proof (run_wf _ _ H) as Hw.
  apply run_sim_cores; [done|by apply finish_sim, H| |by apply finish_wf| |apply (run_machine _ _ H)].
  - split; [by apply finish_wf|done..].
  - intros r _. unfold reg. by rewrite finish_core.
Qed.

Section Tick.
Context (inventory : list InlineRegistration) (dbg : bool) (n : nat).

Lemma work_simulates i s t cycles s' : run_sim s t -> well_typed (operands i) -> covered_instruction s i ->
  tick_work inventory (S (S n)) false i s = Some (cycles, s') ->
  exists cycles' t', tick_work inventory (S (S n)) true i t = Some (cycles', t') /\ run_sim s' t'.
Proof.
  intros H Hty Hcov. unfold tick_work, covered_instruction in *. destruct (operands i) as [op|op] eqn:Eo.
  - intros (c & Ec & [= <- <-])%bind_Some.
    destruct (instruction_simulates n (retag i op) (core s) (core t) c (run_core _ _ H) (run_ready _ _ H) (run_wf _ _ H)
      (typed_low_op _ Hty) Hcov Ec) as (t1 & tr & l & Etr & El & Hs & Hr & Hw & Hp & Hv).
    rewrite Etr. cbn [mbind option_bind]. rewrite El. cbn [mbind option_bind]. eexists _, _. split; [done|].
    apply (finish_run 1 (length l) (set_core s c) (set_core t t1)). apply run_sim_cores; try done.
    + intros r Hr'. apply Hv. clear - Hr'. lia.
    + rewrite Hp. apply (run_machine _ _ H).
  - intros (s1 & E1 & [= <- <-])%bind_Some. pose proof (typed_low_host _ Hty) as Hl.
    enough (exists t1 tr l, host_trace inventory (S (S n)) (retag i op) t = Some (t1, tr) /\
      host_inline_sequence inventory (retag i op) (xlen (core t1)) (vr_allocator (core t1)) = Some (l, vr_allocator (core t1)) /\
      run_sim s1 t1) as (t1 & tr & l & Etr & El & Hr).
    { rewrite Etr. cbn [mbind option_bind]. rewrite El. cbn [mbind option_bind]. eexists _, _. split; [done|]. by apply finish_run. }
    destruct op as [|o|o|o|o|o|o|o|o|o|o|a b c o].
    + by apply (itself_simulates inventory (S (S n)) (retag i FENCE) s t s1).
    + by apply (ECALL_simulates inventory (S n) (retag i (ECALL o)) s t s1 o).
    + by apply (itself_simulates inventory (S (S n)) (retag i (EBREAK o)) s t s1).
    + by apply (MRET_simulates inventory (S n) (retag i (MRET o)) s t s1 o).
    + destruct Hcov as [v Hv]. destruct Hl as (L1 & L2 & _). by apply (CSRRW_simulates inventory (S n) (retag i (CSRRW o)) s t s1 o v).
    + destruct Hcov as [v Hv]. destruct Hl as (L1 & L2 & _). by apply (CSRRS_simulates inventory (S n) (retag i (CSRRS o)) s t s1 o v).
    + by apply (itself_simulates inventory (S (S n)) (retag i (VirtualHostIO o)) s t s1).
    + destruct Hl as (L1 & _). by apply (advice_simulates inventory (S n) (retag i (AdviceLB o)) s t s1 o 1 (Some 56)).
    + destruct Hl as (L1 & _). by apply (advice_simulates inventory (S n) (retag i (AdviceLH o)) s t s1 o 2 (Some 48)).
    + destruct Hl as (L1 & _). by apply (advice_simulates inventory (S n) (retag i (AdviceLW o)) s t s1 o 4 (Some 32)).
    + destruct Hl as (L1 & _). by apply (advice_simulates inventory (S n) (retag i (AdviceLD o)) s t s1 o 8 None).
    + done.
Qed.

(** The tick's middle, for a machine that is awake and fetches an instruction. *)
Lemma operate_work traced s i c : wfi s = false -> fetch_decode dbg (core s) = Some (inr i, c) ->
  Cpu_tick_operate inventory dbg (S (S n)) traced s =
    ('(t, s1) ← tick_work inventory (S (S n)) traced i (set_core s c); Some (TickRan t, s1)).
Proof.
  intros Hw Hf. unfold Cpu_tick_operate, tick_operate, tick_work. rewrite Hw, Hf. cbn [mbind option_bind].
  destruct (operands i) as [op|op]; cbn [mbind option_bind core set_core].
  - destruct traced.
    + destruct (trace _ _ _) as [[c1 tr]|]; [|done]. cbn [mbind option_bind].
      by destruct (Instruction_inline_sequence _ _ _) as [[l a]|].
    + by destruct (execute _ _).
  - destruct traced.
    + destruct (host_trace _ _ _ _) as [[s1 tr]|]; [|done]. cbn [mbind option_bind].
      by destruct (host_inline_sequence _ _ _ _) as [[l a]|].
    + by destruct (host_execute _ _).
Qed.

(** A fetch on both sides. *)
Lemma fetched_both s t r c : run_sim s t -> fetch_decode dbg (core s) = Some (r, c) ->
  exists i d, r = inr i /\ well_typed (operands i) /\ fetch_decode dbg (core t) = Some (inr i, d) /\
    run_sim (set_core s c) (set_core t d).
Proof.
  intros H E. pose proof (run_ready _ _ H) as Hs. pose proof (ready_sim _ _ (run_core _ _ H) Hs (run_wf _ _ H)) as Ht.
  destruct (fetch_decode_typed dbg (core s) r c (ready_mmu _ Hs) (ready_xlen _ Hs) E) as ((i & -> & Hty) & Ex & Er & Hm & Hp).
  pose proof (fetch_decode_sims dbg (core s) (core t) (run_core _ _ H)) as Hsim. unfold sims in Hsim. rewrite E in Hsim.
  destruct Hsim as ([r' d] & Et & [Hr Hcd]). cbn [fst snd] in *. subst r'. exists i, d. split; [done|]. split; [done|]. split; [done|].
  destruct (fetch_decode_typed dbg (core t) _ d (ready_mmu _ Ht) (ready_xlen _ Ht) Et) as (_ & Ex' & Er' & Hm' & _).
  assert (Hkeep : forall c c1, x c1 = x c -> set_mmu (update_pc c1 0) (Mmu_new Bit64) = set_mmu (update_pc c 0) (Mmu_new Bit64) ->
    mmu_wf (mmu c1) -> ready c -> ready c1).
  { intros c0 c1 X Y M [[R1 R2 R3 R4 R5] R6 R7 R8]. injection Y as Y1 Y2 Y3 Y4 Y5 Y6 Y7 Y8 Y9 Y10.
    assert (A : vr_allocator c1 = vr_allocator c0) by congruence. assert (B : xlen c1 = xlen c0) by congruence.
    split; [split; rewrite ?X, ?A, ?B; (assumption || congruence)|congruence|by rewrite A|done]. }
  apply run_sim_cores; [done|done|by apply (Hkeep (core s))|by apply (Hkeep (core t))| |].
  - intros r _. unfold reg. by rewrite Ex'.
  - rewrite Hp. apply (run_machine _ _ H).
Qed.

(** The end of a tick: with interrupts masked, the clocks. *)
Definition tick_end (s : Emulator) : option Emulator :=
  let s := with_mmu mmu_tick s in
  s ← handle_interrupt s (pc (core s));
  let s := set_clock s (as_u64 (cpu_clock s + 1)) in
  write_csr_raw s CSR_CYCLE_ADDRESS (as_u64 (cpu_clock s * 8)).

Lemma masked_interrupt s a : length (csr s) = CSR_CAPACITY -> csr_at s CSR_MIE_ADDRESS = Some 0 -> handle_interrupt s a = Some s.
Proof.
  intros Hl H. unfold handle_interrupt. change (read_csr_raw s CSR_MIE_ADDRESS) with (csr_at s CSR_MIE_ADDRESS).
  change (read_csr_raw s CSR_MIP_ADDRESS) with (csr_at s CSR_MIP_ADDRESS). rewrite H.
  destruct (csr_at_Some s CSR_MIP_ADDRESS Hl ltac:(unfold CSR_MIP_ADDRESS; lia)) as [mip ->]. cbn [mbind option_bind].
  by rewrite Z.land_0_r.
Qed.
Definition counted (s : Emulator) : list Z := <[Z.to_nat CSR_CYCLE_ADDRESS := as_u64 (as_u64 (cpu_clock s + 1) * 8)]> (csr s).
Definition ended (s : Emulator) : Emulator := set_csr (set_clock (with_mmu mmu_tick s) (as_u64 (cpu_clock s + 1))) (counted s).
Lemma tick_end_spec s : length (csr s) = CSR_CAPACITY -> csr_at s CSR_MIE_ADDRESS = Some 0 -> tick_end s = Some (ended s).
Proof.
  intros Hl H. unfold tick_end. rewrite masked_interrupt by done. cbn [mbind option_bind].
  change (write_csr_raw ?s CSR_CYCLE_ADDRESS ?v) with (csr_assign s CSR_CYCLE_ADDRESS v).
  rewrite csr_assign_spec by (done || (unfold CSR_CYCLE_ADDRESS; lia)). done.
Qed.
Lemma ended_at s b : length (csr s) = CSR_CAPACITY -> 0 <= b -> b <> CSR_CYCLE_ADDRESS -> csr_at (ended s) b = csr_at s b.
Proof.
  intros Hl Hb Hne. unfold csr_at, ended, counted. cbn [csr set_csr].
  rewrite csr_assigned by (done || (unfold CSR_CYCLE_ADDRESS; lia)). by rewrite decide_False.
Qed.
Lemma end_sim s t : run_sim s t -> run_sim (ended s) (ended t).
Proof.
  intros [S1 S2 S3 S4 [S5 S5'] [S6 S6'] S7 [S8 S8'] S9 S10 S11].
  split; cbn [core csr cpu_privilege_mode wfi cpu_clock ended set_core set_csr set_clock with_mmu]; try done.
  - apply set_mmu_sim; [done|]. destruct (sim_mmu _ _ S1) as [M1 M2 M3 M4]. split; cbn; [done..| |done].
    destruct M3 as (-> & M3). by split.
  - destruct S2 as [[] ? ? []]. split; [by split|done..|by split].
  - by destruct S3; split.
  - intros a r Ha. pose proof (csr_register a r Ha) as [_ Hb]. rewrite ended_at by (done || (unfold CSR_CYCLE_ADDRESS; lia)).
    by apply S4.
  - unfold counted. by rewrite !length_insert.
  - rewrite !ended_at by (done || (unfold CSR_CYCLE_ADDRESS, CSR_MIE_ADDRESS; lia)). done.
  - rewrite !ended_at by (done || (unfold CSR_CYCLE_ADDRESS, CSR_MEDELEG_ADDRESS; lia)). done.
  - by rewrite S10.
  - intros a Ha Hn. destruct (decide (a = CSR_CYCLE_ADDRESS)) as [->|Hne].
    + unfold csr_at, ended, counted. cbn [csr set_csr]. rewrite !csr_assigned by (done || (unfold CSR_CYCLE_ADDRESS; lia)).
      by rewrite !decide_True, S10.
    + rewrite !ended_at by done. by apply S11.
Qed.

Lemma tick_unfold traced s i c : wfi s = false -> fetch_decode dbg (core s) = Some (inr i, c) ->
  Cpu_tick inventory dbg (S (S n)) traced s =
    ('(t, s1) ← tick_work inventory (S (S n)) traced i (set_core s c); s2 ← tick_end s1; Some (t, s2)).
Proof.
  intros Hw Hf. unfold Cpu_tick. cbv zeta. rewrite (operate_work traced s i c Hw Hf).
  destruct (tick_work _ _ _ _ _) as [[t s1]|]; [|done]. cbn [mbind option_bind]. unfold tick_end. cbv zeta.
  destruct (handle_interrupt _ _) as [s2|]; [|done]. cbn [mbind option_bind].
  by destruct (write_csr_raw _ _ _).
Qed.

(** One tick on both machines. *)
Lemma tick_simulates s t cycles s' : run_sim s t -> covered_tick dbg s ->
  Cpu_tick inventory dbg (S (S n)) false s = Some (cycles, s') ->
  exists cycles' t', Cpu_tick inventory dbg (S (S n)) true t = Some (cycles', t') /\ run_sim s' t'.
Proof.
  intros H Hc E. destruct (run_awake _ _ H) as [Ws Wt]. unfold covered_tick in Hc.
  destruct (fetch_decode dbg (core s)) as [[r c]|] eqn:Ef.
  2: { unfold Cpu_tick, Cpu_tick_operate, tick_operate in E. by rewrite Ws, Ef in E. }
  destruct (fetched_both s t r c H Ef) as (i & d & -> & Hty & Et & H1).
  rewrite (tick_unfold false s i c Ws Ef) in E. apply bind_Some in E as ([t1 s1] & E1 & E2).
  apply bind_Some in E2 as (s2 & E2 & [= <- <-]).
  destruct (work_simulates i _ _ _ _ H1 Hty Hc E1) as (tr & t2 & E3 & H2).
  rewrite (tick_end_spec s1) in E2 by apply H2. injection E2 as <-.
  exists tr, (ended t2). split; [|by apply end_sim].
  rewrite (tick_unfold true t i d Wt Et), E3. cbn [mbind option_bind]. by rewrite tick_end_spec by apply H2.
Qed.

(** The ticks of a run that the tracer covers. *)
Fixpoint covered_run (k : nat) (s : Emulator) : Prop :=
  match k with
  | O => True
  | S k => covered_tick dbg s /\
      match Cpu_tick inventory dbg (S (S n)) false s with Some (_, s') => covered_run k s' | None => True end
  end.
#[export] Instance covered_run_dec k s : Decision (covered_run k s).
Proof.
  revert s. induction k as [|k IH]; intros s; cbn [covered_run]; [apply _|].
  apply and_dec; [apply _|]. destruct (Cpu_tick _ _ _ _ _) as [[? s']|]; [apply IH|apply _].
Defined.

(** C1: The traced run of a program is its executed run, where the tracer covers
    it: from machines that agree ([run_sim]: machine mode, interrupts masked, no
    delegation, as in a new emulator), whatever code is in memory, if the run
    without a trace makes [k] ticks and the tracer covers the instruction of each
    ([covered_run]), then the run that expands every instruction into virtual
    ones makes the same [k] ticks and ends with the same registers, memory,
    device, program counter, reservation, advice tape, clock and CSRs, the six
    CSRs the tracer supports being in its virtual registers.  [covered_run]
    leaves out [lr]/[sc], [DIVW] and [REMW] of the least dividend by zero, loads
    of the doubleword at the end of the I/O region, stores and atomics whose
    doubleword is not a store address as a whole, other CSRs, calls that are not
    [plain_call], [MRET] to an odd address, and [INLINE].  The length of the
    trace and the call stack kept for diagnostics are not compared. *)
Theorem traced_run_is_executed_run k s t cycles s' : run_sim s t -> covered_run k s ->
  ticks inventory dbg (S (S n)) false k s = Some (cycles, s') ->
  exists cycles' t', ticks inventory dbg (S (S n)) true k t = Some (cycles', t') /\ run_sim s' t'.
Proof.
  revert s t cycles. induction k as [|k IH]; intros s t cycles H Hc; cbn [ticks covered_run] in *.
  { intros [= <- <-]. by exists [], t. }
  destruct Hc as [Hc Hk]. intros ([c1 s1] & E1 & ([c2 s2] & E2 & [= <- <-])%bind_Some)%bind_Some.
  rewrite E1 in Hk. destruct (tick_simulates s t c1 s1 H Hc E1) as (t1 & t1' & Et & H1). rewrite Et. cbn [mbind option_bind].
  destruct (IH s1 t1' c2 H1 Hk E2) as (t2 & t2' & -> & H2). cbn [mbind option_bind]. by eexists _, _.
Qed.
End Tick.

(** ** A program *)

(** [auipc x3, 0; csrrw x1, mscratch, x3; sb x3, 24(x3); lbu x4, 24(x3)] in a
    new emulator's memory. *)
Definition boot_memory : MemoryData := memory_of {[1 := 0x340190F300000197; 2 := 0x0181C20300318C23]} 64.
Definition boot : Emulator :=
  {| core := update_pc (set_mmu Cpu_new (set_mem (Mmu_new Bit64) boot_memory)) (DRAM_BASE + 8);
     csr := <[Z.to_nat CSR_MISA_ADDRESS := 0x800000008014312f]> (replicate CSR_CAPACITY 0);
     cpu_privilege_mode := Machine; wfi := false; cpu_clock := 0 |}.
Lemma boot_is_new : Emulator_new =
  Some (set_core boot (update_pc (set_mmu (core boot) (Mmu_new Bit64)) 0)).
Proof. reflexivity. Qed.
Lemma boot_agrees : run_sim boot boot.
Proof.
  assert (Hwf : cpu_wf (core boot)) by (destruct Cpu_new_wf; by split).
  assert (Hmem : mmu_wf (mmu (core boot))).
  { split; [|done..]. apply memory_of_wf; [|done]. apply (bool_decide_unpack _). vm_compute. exact I. }
  split; try done.
  - split; [exact Hwf|reflexivity|exact new_temporaries_free|exact Hmem].
  - intros a r Hr. destruct (csr_register a r Hr) as [_ Ha]. revert Hr.
    unfold csr_to_virtual_register. repeat (test_address a; [intros [= <-]; by vm_compute|]). done.
Qed.

Lemma traced_run_is_executed_run_witness :
  exists cycles t', ticks [] true 3 true 4 boot = Some (cycles, t') /\
    (length cycles, reg (core t') 4, reg (core t') MSCRATCH_REGISTER) = (24%nat, 8, DRAM_BASE + 8).
Proof.
  destruct (ticks [] true 3 false 4 boot) as [[c s]|] eqn:E; [|by vm_compute in E].
  destruct (traced_run_is_executed_run [] true 1 4 boot boot c s boot_agrees) as (cycles & t' & Et & H).
  - apply (bool_decide_unpack _). vm_compute. exact I.
  - exact E.
  - exists cycles, t'. clear E H. split; [exact Et|].
    assert (Hc : (fun r => (length r.1, reg (core r.2) 4, reg (core r.2) MSCRATCH_REGISTER)) <$> ticks [] true 3 true 4 boot =
      Some (24%nat, 8, DRAM_BASE + 8)) by (vm_compute; reflexivity).
    rewrite Et in Hc. injection Hc as H1 H2 H3. by rewrite H1, H2, H3.
Defined.
